(* ===== verification/_CoqProject ===== *)
-Q . S2P
Prelude.v
Sha256.v
Varint.v
IavlEnc.v
CommitInfo.v
Importer.v
ImporterPar.v
ParInv.v
ParEquiv.v
SnapProto.v
ChunkRing.v
Scheduler.v
Walk.v
Index.v
Streams.v
RunImport.v
Segment.v
Parallel.v
ParallelEquiv.v
ParallelLive.v
Manager.v
Reactor.v
Serve.v
PeerWatch.v
DiffSync.v
Diff.v
DiffProof.v
DiffApply.v
DiffExt.v
DiffEquiv.v
Durable.v
Fetch.v
Text.v
Toml.v
PeerSets.v
Home.v
Inspect.v
