(* ===== verification/Prelude.v ===== *)
(** * malcom: a verification of the snapshot bootstrap tool

    malcom (Go, under src/) bootstraps a Cosmos node: it finds a state-sync
    snapshot among its peers, downloads the chunks, rebuilds the IAVL stores of
    the application database from them, and compares the AppHash of the result
    with the chain's.  This library models the parts of it that decide what ends
    up in the database and whether the download ends, and proves what makes them
    correct.  Definitions carry the names of the Go functions, and every file
    says which Go file it models; [X] below stands for X.v.

    ** The program and its parts

    - Finding a snapshot (internal/snapfetch/offerset.go, walk.go, helpers.go,
      config.go): peers make offers, the walk visits heights backwards, asks the
      peers at each, and accepts an offer once its chunk 0 matches the offer's
      hash and its metadata the chunk hashes.  [Walk].
    - Downloading (download.go, session.go): one goroutine owns the scheduler
      state and handles connects, removals, chunks and ticks; chunks go to disk
      when they match their hash.  [Scheduler].
    - Peers: the state-sync reactor (internal/statesync), which forwards what
      peers send and serves what they ask for within rate limits, [Reactor]; the
      connection manager (internal/connect), which owns all dials, [Manager]; the
      fan-out of events and the eviction of useless peers (snapfetch/eventmux.go,
      peerwatch.go), [PeerWatch]; what is remembered of peers across runs
      (internal/helpers/banlist, served, addrbook, the gossip filter of
      internal/pex, the peer lists of session.go and cli/bootstrap/peers.go),
      [PeerSets].
    - Files: writing, copying and renaming files so that they survive a crash
      (internal/durable), [Durable]; the directory of a fetch, whose .complete says
      that the rest is there (snapfetch/runfetch.go, session.go), [Fetch].
    - Serving (internal/snapserve/store.go, catalog.go): the catalogue of verified
      snapshot directories behind the reactor.  [Serve].
    - The stream (internal/snapshotimport/chunkreader.go, tailread.go,
      prefetch.go, chunkring.go): chunk files are opened in order, possibly while
      the download is still on; a goroutine reads ahead; the decompressed bytes
      are shared by several readers through a ring.  [Streams], [ChunkRing].
    - Items (snapproto.go, index.go): the stream is a sequence of
      length-prefixed protobuf SnapshotItems; the index records where each store
      lies without decoding it.  [SnapProto], [Index]; varints in [Varint].
    - Stores (importer.go, importer_par.go, iavlenc.go): each store is rebuilt
      from the post-order export of its tree, by one goroutine ([Importer]) or
      by main, a dispatcher and a pool of hash workers ([ImporterPar], with
      [ParInv] and [ParEquiv]).  Byte formats in [IavlEnc], the hash in [Sha256].
    - The import as a whole (importer.go runImport, ingester.go, extensions.go):
      batches, SSTables, extension files, rootmulti records.  [RunImport].
    - The parallel import (parallel.go): stage 1 scans the stream and hands out
      the stores as they open, a pool of workers imports them, each with a
      goroutine that commits its batches, stage 3 extracts the extensions.
      [Segment] is one store, [Parallel] the system of goroutines with its
      invariant, [ParallelEquiv] its results, [ParallelLive] its progress.
    - The AppHash (commitinfo.go, internal/cli/verify/verify.go): the CommitInfo
      record is written by hand and read back by hand.  [CommitInfo].
    - Diffs (internal/snapshotdiff): a snapshot as references into another one and
      literals, item by item, [DiffSync] (statesync*.go, format.go, the chunk writer
      of apply.go); or the keys that change, store by store, [Diff] (diff.go,
      apply.go, verify.go), whose theorems are in [DiffProof] (the reader and the
      differ), [DiffApply] (the applier), [DiffExt] (extensions) and [DiffEquiv]
      (the verifier, and all of it together).
    - The chain home (internal/cli/bootstrap: tomlpatch.go, run.go, markerfile.go,
      heal.go): the keys that bootstrap sets in config.toml and app.toml, the marker
      with the height, heal.  [Home]; what is used of strings, strconv and bufio is
      in [Text], and a reader of TOML files, which says what the files mean, in
      [Toml].
    - Inspection (internal/snapshotinspect): items and bytes per store and per
      extension of a snapshot directory, [Inspect].

    How they interact in the model: [RunImport] runs the operations of
    [Importer] over the items [SnapProto] decodes, and writes the record of
    [CommitInfo]; [Importer] is proved against the class [ImportSink] of what a
    sink promises, which [RunImport] discharges for the batch and the SSTable
    writer from the laws of the database ([Pebble], [PebbleLaws]).  The decoder
    of [SnapProto] sees the ring through the class [RingPinner]; [Index] and
    [Streams] read from a [reader] that may cut the stream anywhere, and
    [Streams] and [ChunkRing] show that what comes out of the prefetcher and the
    ring is the stream; [RunImport] is stated over what the prefetcher delivers.
    [ParEquiv] ties the parallel importer to [addNodes] and [finalize] of
    [Importer], so the theorems on those hold of it too.  A worker of [Parallel]
    runs [Segment], which runs [Importer] over what a ring reader may deliver
    ([delivered], the interface to [ChunkRing]) and whose sinks are again those
    of [RunImport], with a queue of batches for the database; the events of
    stage 1 are those [Index] raises.  [ParallelEquiv.ring_delivers] joins the ring
    of [ChunkRing] to what the segments of [Parallel] read.

    The provider of [Reactor] is the store of [Serve]; a chunk that goes from there
    through [Reactor] to the [Scheduler] of a client arrives as it was on disk, and
    the offers are those [Walk] accepts ([Serve.chunk_transfer], [offers_verify]).
    The evictions of [PeerWatch] are bans of [Manager].  [Fetch] runs its writes on
    the disks of [Durable] and checks them by [verifySnapshotHash] of [Scheduler];
    [PeerSets] and [Home] save through [Durable] too.  [DiffSync] takes its chunk files from
    [Streams] and its sorting database from the classes of [RunImport]; [Diff] uses
    the chunk writer, the compressor and the meta.json of [DiffSync].

    ** How things are modelled

    - A Go integer is a [Z] in its range, wrapped wherever an operation may
      leave it ([u64], [i64], [u32], ...); [[]byte] and [string] are [bytes], a
      list of bytes.
    - A call that can fail is a function in the monad [M S] of this file: a state
      and an [outcome], which is a value, a Go error, a panic, or [NoFuel].
    - A loop that is not structural takes fuel.  The fuel is the length of the
      input (or what is left of it, plus one) in [Varint], [SnapProto], [Index]
      and [CommitInfo], and a count of the states still to visit in [Walk]; the
      theorems that a call returns say that this is enough ([NoFuel] does not
      come out), with one exception the code itself has: the getters of
      [SnapProto] do not return on some forged lengths, which is a finding.
    - Goroutines are step relations: a step is what happens between two points
      where another goroutine can look (a region under a mutex, a channel
      operation, an atomic access), a wait is a step that is not enabled, and
      theorems are about every state reachable in any interleaving ([steps]).
      Liveness is stated as progress together with a bound on, or a measure of,
      the steps.
    - Maps are gmaps; where Go ranges over a map, the order is an argument.
    - Third-party code is a parameter: pebble (its operations and laws), the
      CometBFT switch, address book and RPC client, the token buckets of
      golang.org/x/time/rate, the merkle root of cometbft, zlib (a reader where it
      inflates, the class [Zlib] where it deflates), encoding/json (an argument, or
      a class with its round trip).  Its laws are satisfied by concrete instances in
      the witnesses (a map for the database, a list for a reader).
    - The file system is a map of files where only contents matter (a [dir] in
      [DiffSync], the effects of [Scheduler]); in [Durable] it is a tree of inodes
      with the values every entry and file may have after a crash, system calls may
      fail as the environment says, and triples speak of all the disks that a call
      passes through.  It is pessimistic: entries that were not synced are lost or
      kept one by one.

    ** What the theorems show

    - The import: [RunImport.runImport_sound] (a successful import has built
      the trees of the stream, for items within the bounds below), [runImport_complete] (the
      export of well-formed trees is imported with their hashes), and for one
      store [Importer.import_stream_sound], [import_tree_correct],
      [nextNonce_cache_transparent], [addNode_malformed_rejected].
    - The parallel import: [ParallelEquiv.parallel_sound] (under every schedule,
      success means the database is right), [parallel_agrees] (with the serial
      import: records, database, extension files),
      [ParallelLive.parallel_terminates] (no deadlock on the channels, all runs
      finite, whichever commits fail; the ring's memory is not part of this system,
      and a full ring without readers does block, [ChunkRing.stuck_step]).
    - The worker pool: [ParEquiv.par_equiv] (every interleaving ends as the
      sequential importer does), [par_database] (with the same database),
      [par_live] (no deadlock; at most 100 steps per node).
    - The download: [Scheduler.download_invariant], [download_done_verifies],
      [pickPeer_spec], [forged_chunk_rejected].
    - Files: [Durable.write_atomic] (a written file is the old one or all of the new
      one, whatever fails and wherever the power goes), [Fetch.complete_means_whole]
      (a directory with .complete is whole, and after a success it is there after a
      crash if the directory around it is), [PeerSets.set_survives_crash] (for entries
      that JSON keeps, in a directory that is there) and, on
      the sets themselves, [cap_keeps_newest] and [banned_stay_out].
    - Peers: [Manager.manager_invariant], [redial_schedule] (the redials of a peer
      against what was seen of it since it was last connected for the stability
      window), [banned_not_dialed]; [Reactor.chunk_rate_limited] (as long as the
      durations of the code do not overflow), [events_in_order];
      [PeerWatch.events_fanned_out] (a subscriber gets what a bounded queue of its own
      accepts), [useful_never_evicted], [tick_evicts_useless].
    - The chain home: [Home.configure_survives] (to a TOML reader the configuration is
      what was set, the rest as it was, across a crash, for files without the forms
      that the patcher misreads), [marker_survives], [heal_guarded].
    - Serving: [Serve.offers_verify], [chunk_transfer], [rescans_serve_current].
    - Diffs: [DiffSync.statesync_roundtrip], [truncated_diff_rejected];
      [DiffEquiv.diff_roundtrip] (a diff applied to its base holds what the target
      holds), [verify_decides] (the verifier says so exactly when it does: the same
      sets of leaves and payloads);
      [Inspect.inspect_exact] (the counts of an inspection are those of the snapshot).
    - The search: [Walk.walk_accepts_verified] (the offer accepted is verified, the
      peer that served its chunk comes first), [walk_terminates] (but for the panics
      on forged metadata and short hashes, which are findings),
      [walkTargets_exact], [chunkHashes_roundtrip].
    - The stream: [ChunkRing.reader_gets_stream], [registered_read_live],
      [ring_memory_bounded];
      [ParallelEquiv.ring_delivers];
      [Streams.prefetch_refines], [prefetch_live], [tail_in_order], [tail_ends],
      [openChunkDir_exact].
    - Items: [SnapProto.readAll_roundtrip], [Next_pin_safe], [getters_total],
      [getters_find_field]; [Index.index_exact].
    - Bytes and the AppHash: [IavlEnc.key_namespaces_disjoint];
      [CommitInfo.commitInfo_roundtrip], [CheckAppHash_decides],
      [computeAppHash_order_independent].

    ** Bounds that hypotheses carry

    The theorems on imports take streams of fewer than 2^32 - 2 nodes per store
    (nonces are 32 bits wide) whose versions are non-zero int64 values; a version
    of 0 really breaks nonce assignment (a finding).  A message is shorter than
    2^62 bytes and an indexed stream than 2^61, so that positions stay within a
    64-bit int.  The key-value diff is taken over records of less than 2^47 bytes
    and outputs of less than 2^55.  The rate of the reactor's buckets is one that
    fills them within 2^61 ns, and the clock is within int64 nanoseconds.

    ** Not modelled

    - Of the parallel driver (parallel.go): the wave-parallel branch of a segment,
      which is [ImporterPar] but is not composed with the pool here.
    - Of the fetch session: building the switch, transport and reactors of cometbft
      and their shutdown; the callbacks into a pipelined import are arguments.
    - Disk-space checks and temporary directories (snapshotdiff/diskutil.go): system
      calls and arithmetic on what they report.
    - Of bootstrap: placing application.db ([Durable.CloneTree] is there) and the wasm
      payloads, the genesis file, the lookup of the trust hash, the subprocesses (an
      argument of [Home.runHeal]).
    - Left out for good: flag parsing and wiring (cmd, internal/cli but for verify
      and bootstrap), configuration and registry (TOML and HTTP
      around third-party parsers), the report of an inspection (InspectAndEnrich of
      snapfetch/inspect.go writes the counts of [Inspect] into meta.json), logging and formatting, the PEX reactor that the program does not
      register, one-off scripts: no state the components above depend on.
    - Log lines, metrics and timing inside the modelled functions, except where
      a log line can panic. *)

From Stdlib Require Export ZArith Lia List Bool.
From stdpp Require Export base tactics list list_numbers gmap strings pretty sorting.
From coqutil Require Export Byte.

#[export] Set Default Goal Selector "!".
#[global] Open Scope Z_scope.

(** ** Bytes *)

(** A Go [[]byte] or [string] is a list of bytes; the distinction between a nil
    and an empty slice, where the code tests for it, is an [option]. *)
Abbreviation bytes := (list Init.Byte.byte).

#[export] Instance byte_eq_dec : EqDecision Init.Byte.byte := Byte.byte_eq_dec.

#[export] Program Instance byte_countable : Countable Init.Byte.byte :=
  inj_countable' byte.unsigned byte.of_Z _.
Next Obligation. exact byte.of_Z_unsigned. Qed.

(** Bytes written as integers, for concrete inputs. *)
Definition bs (l : list Z) : bytes := map byte.of_Z l.

Definition len {A} (l : list A) : Z := Z.of_nat (length l).

(** ** Machine integers

    Go's fixed-width integers are [Z] in their range; every conversion or
    arithmetic operation that may leave the range is wrapped explicitly.  Go's
    [int] is 64 bits wide on the platforms the program targets. *)
Definition u8 (z : Z) : Z := z mod 2 ^ 8.
Definition u32 (z : Z) : Z := z mod 2 ^ 32.
Definition u64 (z : Z) : Z := z mod 2 ^ 64.
Definition i8 (z : Z) : Z := (z + 2 ^ 7) mod 2 ^ 8 - 2 ^ 7.
Definition i64 (z : Z) : Z := (z + 2 ^ 63) mod 2 ^ 64 - 2 ^ 63.

(** ** Errors *)

(** The error values the code distinguishes: the sentinels it compares with
    [==] or [errors.Is], a message of its own, and a wrapped error ([%w]). *)
Inductive goerr : Type :=
| EOF
| ErrUnexpectedEOF
| ErrClosedPipe
| ErrOverflow
| ErrStartEvicted
| Errorf (msg : string)
| Wrapf (msg : string) (e : goerr).

#[export] Instance goerr_eq_dec : EqDecision goerr.
Proof. solve_decision. Defined.

(** How a call ends: with a value, with an error, with a run-time panic, or
    not within the fuel the caller of the model supplied. *)
Inductive outcome (A : Type) : Type :=
| Ret (a : A)
| Err (e : goerr)
| Panic (msg : string)
| NoFuel.
Arguments Ret {A} a.
Arguments Err {A} e.
Arguments Panic {A} msg.
Arguments NoFuel {A}.

#[export] Instance outcome_ret : MRet outcome := fun A => @Ret A.
#[export] Instance outcome_bind : MBind outcome := fun A B k m =>
  match m with
  | Ret a => k a
  | Err e => Err e
  | Panic s => Panic s
  | NoFuel => NoFuel
  end.

Definition ensure {A} (b : bool) (e : goerr) (k : outcome A) : outcome A :=
  if b then k else Err e.

(** Computations that mutate a state and may fail; the state reached at the
    failure is kept, as Go keeps the mutations made before an early return. *)
Definition M (S A : Type) : Type := S -> outcome A * S.

#[export] Instance M_ret (S : Type) : MRet (M S) := fun A a s => (Ret a, s).
#[export] Instance M_bind (S : Type) : MBind (M S) := fun A B k m s =>
  match m s with
  | (Ret a, s') => k a s'
  | (Err e, s') => (Err e, s')
  | (Panic w, s') => (Panic w, s')
  | (NoFuel, s') => (NoFuel, s')
  end.

Lemma ret_inj {S A} (a b : A) (s t : S) : (Ret a, s) = (Ret b, t) -> a = b /\ s = t.
Proof. by intros [= -> ->]. Qed.

Lemma Ret_inj {A} (a b : A) : Ret a = Ret b -> a = b.
Proof. by intros [= ->]. Qed.

(** A bind that returns a value: both halves do. *)
Lemma bind_ret {S A B} (m : M S A) (f : A -> M S B) s b s' : mbind f m s = (Ret b, s') ->
  exists a s1, m s = (Ret a, s1) /\ f a s1 = (Ret b, s').
Proof. unfold mbind, M_bind. destruct (m s) as [[a| | |] s1]; [|done..]. intros E. by exists a, s1. Qed.

Definition fail {S A} (e : goerr) : M S A := fun s => (Err e, s).
Definition panic {S A} (w : string) : M S A := fun s => (Panic w, s).
Definition get {S} : M S S := fun s => (Ret s, s).
Definition modify {S} (f : S -> S) : M S unit := fun s => (Ret tt, f s).

(** [if err != nil { return fmt.Errorf("msg: %w", err) }] *)
Definition wrap_err {S A} (msg : string) (m : M S A) : M S A := fun s =>
  match m s with
  | (Err e, s') => (Err (Wrapf msg e), s')
  | r => r
  end.

Definition wrap_out {A} (msg : string) (o : outcome A) : outcome A :=
  match o with Err e => Err (Wrapf msg e) | r => r end.

(** Run a computation on a component of a larger state. *)
Definition zoom {S T A} (g : S -> T) (put : T -> S -> S) (m : M T A) : M S A := fun s =>
  let '(r, t) := m (g s) in (r, put t s).

(** ** Go slice expressions *)

(** [buf[i]], [buf[i:]] and [buf[i:j]]: out-of-range indices panic. *)
Definition go_index (buf : bytes) (i : Z) : outcome Init.Byte.byte :=
  if (0 <=? i) && (i <? len buf)
  then match nth_error buf (Z.to_nat i) with
       | Some b => Ret b
       | None => Panic "index out of range"
       end
  else Panic "index out of range".

Definition go_from (buf : bytes) (i : Z) : outcome bytes :=
  if (0 <=? i) && (i <=? len buf)
  then Ret (drop (Z.to_nat i) buf)
  else Panic "slice bounds out of range".

Definition go_slice (buf : bytes) (i j : Z) : outcome bytes :=
  if (0 <=? i) && (i <=? j) && (j <=? len buf)
  then Ret (take (Z.to_nat (j - i)) (drop (Z.to_nat i) buf))
  else Panic "slice bounds out of range".

(** ** Tactics *)

(** Unfold a bind of [outcome] or [M] in a hypothesis and take its value case. *)
Ltac inv_bind H :=
  repeat match type of H with
  | context [mbind ?k ?m] =>
      first [ progress (unfold mbind, outcome_bind in H; cbn beta iota in H)
            | progress (unfold mbind, M_bind in H; cbn beta iota in H) ]
  | match ?x with _ => _ end = _ => destruct x eqn:?; try discriminate H
  end.

(** Case analysis on every boolean test of the goal, with the arithmetic fact. *)
Ltac zcase :=
  repeat match goal with
  | |- context [?a <? ?b] => destruct (Z.ltb_spec a b)
  | |- context [?a <=? ?b] => destruct (Z.leb_spec a b)
  | |- context [?a =? ?b] => destruct (Z.eqb_spec a b)
  end.

(** ** Lengths *)

Section Lengths.
Context {A : Type}.
Implicit Types l : list A.

Lemma len_nil : len (@nil A) = 0.
Proof. reflexivity. Qed.

Lemma len_cons x l : len (x :: l) = 1 + len l.
Proof. unfold len. simpl length. lia. Qed.

Lemma len_app l1 l2 : len (l1 ++ l2) = len l1 + len l2.
Proof. unfold len. rewrite length_app. lia. Qed.

Lemma len_nonneg l : 0 <= len l.
Proof. unfold len. lia. Qed.

Lemma len_to_nat l : Z.to_nat (len l) = length l.
Proof. unfold len. lia. Qed.

Lemma len_take_le (n : nat) l : (n <= length l)%nat -> len (take n l) = Z.of_nat n.
Proof. intros. unfold len. rewrite length_take. lia. Qed.

Lemma len_drop (n : nat) l : (n <= length l)%nat -> len (drop n l) = len l - Z.of_nat n.
Proof. intros. unfold len. rewrite length_drop. lia. Qed.

Lemma len_map {B} (f : A -> B) l : len (map f l) = len l.
Proof. unfold len. by rewrite length_map. Qed.
End Lengths.

Create Rewrite HintDb golen.
#[export] Hint Rewrite @len_nil @len_cons @len_app @len_map : golen.
#[export] Hint Resolve len_nonneg : core.

Ltac len_simpl := autorewrite with golen in *.

(** ** Machine integers: ranges and small values *)

Lemma u64_small z : 0 <= z < 2 ^ 64 -> u64 z = z.
Proof. apply Z.mod_small. Qed.
Lemma u32_small z : 0 <= z < 2 ^ 32 -> u32 z = z.
Proof. apply Z.mod_small. Qed.
Lemma u8_small z : 0 <= z < 2 ^ 8 -> u8 z = z.
Proof. apply Z.mod_small. Qed.
Lemma i64_small z : - 2 ^ 63 <= z < 2 ^ 63 -> i64 z = z.
Proof. intros. unfold i64. rewrite Z.mod_small; lia. Qed.
Lemma i8_small z : - 2 ^ 7 <= z < 2 ^ 7 -> i8 z = z.
Proof. intros. unfold i8. rewrite Z.mod_small; lia. Qed.

Lemma u64_range z : 0 <= u64 z < 2 ^ 64.
Proof. apply Z.mod_pos_bound. lia. Qed.
Lemma u32_range z : 0 <= u32 z < 2 ^ 32.
Proof. apply Z.mod_pos_bound. lia. Qed.
Lemma u8_range z : 0 <= u8 z < 2 ^ 8.
Proof. apply Z.mod_pos_bound. lia. Qed.
Lemma i64_range z : - 2 ^ 63 <= i64 z < 2 ^ 63.
Proof. unfold i64. pose proof (Z.mod_pos_bound (z + 2 ^ 63) (2 ^ 64) ltac:(lia)). lia. Qed.
Lemma i8_range z : - 2 ^ 7 <= i8 z < 2 ^ 7.
Proof. unfold i8. pose proof (Z.mod_pos_bound (z + 2 ^ 7) (2 ^ 8) ltac:(lia)). lia. Qed.

(** Converting a signed value to unsigned and back is the identity. *)
Lemma i64_u64 z : - 2 ^ 63 <= z < 2 ^ 63 -> i64 (u64 z) = z.
Proof.
  intros. unfold i64, u64. rewrite Zplus_mod_idemp_l, Z.mod_small; lia.
Qed.

Lemma i8_u64 z : - 2 ^ 7 <= z < 2 ^ 7 -> i8 (u64 z) = z.
Proof.
  intros. unfold i8, u64.
  replace ((z mod 2 ^ 64 + 2 ^ 7) mod 2 ^ 8) with ((z + 2 ^ 7) mod 2 ^ 8).
  - rewrite Z.mod_small; lia.
  - rewrite <- (Zplus_mod_idemp_l (z mod 2 ^ 64)).
    change (2 ^ 64) with (2 ^ 8 * 2 ^ 56).
    rewrite Z.rem_mul_r, (Z.mul_comm (2 ^ 8) (_ mod _)), Z_mod_plus_full by lia.
    by rewrite Z.mod_mod, Zplus_mod_idemp_l by lia.
Qed.

Create Rewrite HintDb gowrap.
#[export] Hint Rewrite u64_small u32_small u8_small i64_small i8_small using lia : gowrap.

(** ** Bits *)

Lemma lor_shiftl_add a b s :
  0 <= s -> 0 <= a < 2 ^ s -> Z.lor a (Z.shiftl b s) = a + b * 2 ^ s.
Proof.
  intros Hs Ha. rewrite Z.shiftl_mul_pow2 by done.
  rewrite <- Z.lxor_lor, <- Z.add_nocarry_lxor; try done;
    apply Z.bits_inj_0; intros i; rewrite Z.land_spec;
    (destruct (Z.ltb_spec i s) as [Hi|Hi];
     [rewrite Z.mul_pow2_bits_low, andb_false_r by lia; done|]);
    (destruct (Z.eq_dec a 0) as [->|Ha0]; [by rewrite Z.bits_0|]);
    rewrite Z.bits_above_log2; [done|lia| |done|lia|];
    (apply Z.log2_lt_pow2; [lia|]; apply Z.lt_le_trans with (2 ^ s); [lia|];
     apply Z.pow_le_mono_r; lia).
Qed.

Lemma byte_range b : 0 <= byte.unsigned b < 256.
Proof. exact (byte.unsigned_range b). Qed.

Lemma unsigned_of_Z_small z : 0 <= z < 256 -> byte.unsigned (byte.of_Z z) = z.
Proof. intros. rewrite byte.unsigned_of_Z. apply Z.mod_small. lia. Qed.

Lemma of_Z_inj_small a b :
  0 <= a < 256 -> 0 <= b < 256 -> byte.of_Z a = byte.of_Z b -> a = b.
Proof. intros Ha Hb H. by rewrite <- (unsigned_of_Z_small a), H, unsigned_of_Z_small. Qed.

#[export] Hint Resolve byte_range : core.

(** ** Slices *)

Lemma go_from_app (a b : bytes) : go_from (a ++ b) (len a) = Ret b.
Proof.
  unfold go_from. rewrite len_app. pose proof (len_nonneg a). pose proof (len_nonneg b).
  rewrite (proj2 (Z.leb_le 0 _)), (proj2 (Z.leb_le (len a) _)) by lia. simpl.
  by rewrite len_to_nat, drop_app_length.
Qed.

Lemma go_slice_app (a b c : bytes) :
  go_slice (a ++ b ++ c) (len a) (len a + len b) = Ret b.
Proof.
  unfold go_slice. rewrite !len_app. pose proof (len_nonneg a). pose proof (len_nonneg b).
  pose proof (len_nonneg c).
  rewrite (proj2 (Z.leb_le 0 _)), (proj2 (Z.leb_le (len a) _)), (proj2 (Z.leb_le _ (_ + _))) by lia.
  simpl. rewrite len_to_nat, drop_app_length.
  replace (len a + len b - len a) with (len b) by lia.
  by rewrite len_to_nat, take_app_length.
Qed.

(** The same with the split given by an equation. *)
Lemma go_from_split buf (a b : bytes) i : buf = a ++ b -> i = len a -> go_from buf i = Ret b.
Proof. intros -> ->. apply go_from_app. Qed.

Lemma go_slice_split buf (a b c : bytes) i j :
  buf = a ++ b ++ c -> i = len a -> j = len a + len b -> go_slice buf i j = Ret b.
Proof. intros -> -> ->. apply go_slice_app. Qed.

Lemma go_index_app (a : bytes) x c : go_index (a ++ x :: c) (len a) = Ret x.
Proof.
  unfold go_index. rewrite len_app, len_cons. pose proof (len_nonneg a). pose proof (len_nonneg c).
  rewrite (proj2 (Z.leb_le 0 _)), (proj2 (Z.ltb_lt (len a) _)) by lia. simpl.
  rewrite len_to_nat, nth_error_app2, Nat.sub_diag by lia. done.
Qed.

(** ** Big-endian integers *)

Fixpoint be_bytes (n : nat) (v : Z) : bytes :=
  match n with
  | O => []
  | S k => byte.of_Z (Z.shiftr v (8 * Z.of_nat k)) :: be_bytes k v
  end.

Fixpoint be_value (l : bytes) : Z :=
  match l with
  | [] => 0
  | b :: r => byte.unsigned b * 2 ^ (8 * len r) + be_value r
  end.

Lemma length_be_bytes n v : length (be_bytes n v) = n.
Proof. induction n; simpl; congruence. Qed.

Lemma len_be_bytes n v : len (be_bytes n v) = Z.of_nat n.
Proof. unfold len. by rewrite length_be_bytes. Qed.
#[export] Hint Rewrite len_be_bytes : golen.

Lemma be_value_bytes n v : be_value (be_bytes n v) = v mod 2 ^ (8 * Z.of_nat n).
Proof.
  induction n as [|n IH]; [by rewrite Z.mod_1_r|].
  simpl be_bytes. simpl be_value. rewrite IH, len_be_bytes, byte.unsigned_of_Z.
  unfold byte.wrap. rewrite Z.shiftr_div_pow2 by lia.
  replace (8 * Z.of_nat (S n)) with (8 * Z.of_nat n + 8) by lia.
  rewrite Z.pow_add_r by lia. rewrite Z.rem_mul_r by lia. lia.
Qed.

Lemma be_bytes_inj n a b :
  0 <= a < 2 ^ (8 * Z.of_nat n) -> 0 <= b < 2 ^ (8 * Z.of_nat n) ->
  be_bytes n a = be_bytes n b -> a = b.
Proof.
  intros Ha Hb H. apply (f_equal be_value) in H.
  rewrite !be_value_bytes, !Z.mod_small in H; done.
Qed.

(** ** Transition sequences *)

Section Steps.
Context {S : Type} (step : S -> S -> Prop).

Inductive steps : S -> S -> Prop :=
| steps_refl s : steps s s
| steps_next s1 s2 s3 : step s1 s2 -> steps s2 s3 -> steps s1 s3.

Lemma steps_trans s1 s2 s3 : steps s1 s2 -> steps s2 s3 -> steps s1 s3.
Proof. induction 1; intros; [done|]. econstructor; eauto. Qed.

Lemma steps_one s1 s2 : step s1 s2 -> steps s1 s2.
Proof. intros. econstructor; [done|constructor]. Qed.

(** An inductive invariant holds in every state that is reached. *)
Lemma steps_invariant (I : S -> Prop) s1 s2 :
  (forall a b, I a -> step a b -> I b) -> I s1 -> steps s1 s2 -> I s2.
Proof. intros Hstep HI. induction 1; eauto. Qed.
End Steps.

(** ** Strings and byte order *)

(** A Go string literal. *)
Definition str (s : string) : bytes := String.list_byte_of_string s.

(** [%d] of an integer. *)
Definition decimal (z : Z) : bytes := str (pretty z).

Lemma str_inj s t : str s = str t -> s = t.
Proof.
  intros H. rewrite <- (String.string_of_list_byte_of_string s),
    <- (String.string_of_list_byte_of_string t). unfold str in H. by rewrite H.
Qed.

Lemma decimal_inj a b : decimal a = decimal b -> a = b.
Proof. intros H. apply str_inj in H. by apply (inj pretty) in H. Qed.

(** [a < b] on Go strings: the order of the bytes. *)
Fixpoint bytes_ltb (a b : bytes) : bool :=
  match a, b with
  | _, [] => false
  | [], _ :: _ => true
  | x :: a', y :: b' =>
      (byte.unsigned x <? byte.unsigned y)
      || ((byte.unsigned x =? byte.unsigned y) && bytes_ltb a' b')
  end.

Lemma bytes_ltb_irrefl a : bytes_ltb a a = false.
Proof. induction a as [|x a IH]; [done|]. simpl. by rewrite Z.ltb_irrefl, Z.eqb_refl, IH. Qed.

Lemma bytes_ltb_trans a b c :
  bytes_ltb a b = true -> bytes_ltb b c = true -> bytes_ltb a c = true.
Proof.
  revert b c. induction a as [|x a IH]; intros [|y b] [|z c]; simpl; try done.
  rewrite !orb_true_iff, !andb_true_iff, !Z.ltb_lt, !Z.eqb_eq.
  intros [?|[? ?]] [?|[? ?]]; try (left; lia). right. split; [lia|]. by eapply IH.
Qed.

Lemma bytes_ltb_total a b : bytes_ltb a b = true \/ a = b \/ bytes_ltb b a = true.
Proof.
  revert b. induction a as [|x a IH]; intros [|y b]; simpl; try tauto.
  rewrite !orb_true_iff, !andb_true_iff, !Z.ltb_lt, !Z.eqb_eq.
  destruct (Z.lt_trichotomy (byte.unsigned x) (byte.unsigned y)) as [?|[E|?]]; [tauto| |tauto].
  apply byte.unsigned_inj in E as ->. destruct (IH b) as [?|[->|?]]; tauto.
Qed.

Lemma bytes_ltb_prefix p a b : bytes_ltb (p ++ a) (p ++ b) = bytes_ltb a b.
Proof. induction p as [|x p IH]; [done|]. simpl. by rewrite Z.ltb_irrefl, Z.eqb_refl, IH. Qed.

(** The order [sort.Strings] sorts by. *)
Definition bytes_le (a b : bytes) : Prop := bytes_ltb b a = false.

#[export] Instance bytes_le_dec : RelDecision bytes_le.
Proof. intros a b. unfold bytes_le. apply _. Defined.

Lemma bytes_ltb_le a b : bytes_ltb a b = true -> bytes_le a b.
Proof.
  intros H. unfold bytes_le. destruct (bytes_ltb b a) eqn:E; [|done].
  pose proof (bytes_ltb_trans _ _ _ H E) as C. by rewrite bytes_ltb_irrefl in C.
Qed.

Lemma bytes_le_antisymm a b : bytes_le a b -> bytes_le b a -> a = b.
Proof. unfold bytes_le. intros H1 H2. destruct (bytes_ltb_total a b) as [H|[H|H]]; congruence. Qed.

#[export] Instance bytes_le_total : Total bytes_le.
Proof.
  intros a b. destruct (bytes_ltb_total a b) as [H|[->|H]]; [left|left|right]; try by apply bytes_ltb_le.
  unfold bytes_le. apply bytes_ltb_irrefl.
Qed.

#[export] Instance bytes_le_trans : Transitive bytes_le.
Proof.
  intros a b c Hab Hbc. unfold bytes_le in *. destruct (bytes_ltb c a) eqn:E; [|done]. exfalso.
  destruct (bytes_ltb_total a b) as [H|[->|H]]; [|congruence|congruence].
  pose proof (bytes_ltb_trans _ _ _ E H). congruence.
Qed.

(** Text up to a separator that does not occur in it. *)
Lemma split_at_inj {A} (c : A) (a b x y : list A) :
  c ∉ a -> c ∉ b -> a ++ c :: x = b ++ c :: y -> a = b /\ x = y.
Proof.
  revert b. induction a as [|h a IH]; intros [|h' b] Ha Hb H; cbn in H.
  - by injection H as <-.
  - injection H as <- _. destruct Hb. by left.
  - injection H as -> _. destruct Ha. by left.
  - injection H as <- H. apply not_elem_of_cons in Ha as [_ Ha]. apply not_elem_of_cons in Hb as [_ Hb].
    by destruct (IH b Ha Hb H) as [-> ->].
Qed.

Lemma str_cons c s : str (String c s) = Strings.Ascii.byte_of_ascii c :: str s.
Proof. reflexivity. Qed.

Lemma pretty_char_digit x : (x < 10)%N ->
  byte.unsigned (Strings.Ascii.byte_of_ascii (pretty_N_char x)) = 48 + Z.of_N x.
Proof.
  intros Hx. assert (H : (x = 0 \/ x = 1 \/ x = 2 \/ x = 3 \/ x = 4 \/ x = 5 \/ x = 6 \/ x = 7 \/ x = 8 \/ x = 9)%N) by lia.
  destruct H as [->|[->|[->|[->|[->|[->|[->|[->|[->| ->]]]]]]]]]; reflexivity.
Qed.

(** A reader that takes a digit at a time reads a number back. *)
Lemma digits_go (f : bytes -> Z -> option Z) (top : Z) :
  (forall c r acc, 0 <= byte.unsigned c - 48 <= 9 -> 0 <= acc * 10 + (byte.unsigned c - 48) <= top ->
    f (c :: r) acc = f r (acc * 10 + (byte.unsigned c - 48))) ->
  forall x s, Z.of_N x <= top -> (0 < x)%N -> f (str (pretty_N_go x s)) 0 = f (str s) (Z.of_N x).
Proof.
  intros Hf x. induction x as [x IH] using (well_founded_induction N.lt_wf_0). intros s Hx Hpos.
  rewrite pretty_N_go_step by lia.
  assert (Hmod : (x mod 10 < 10)%N) by (apply N.mod_lt; lia).
  pose proof (N.div_mod x 10 ltac:(lia)) as Hdm.
  assert (Hlt : (x / 10 < x)%N) by (apply N.div_lt; lia).
  specialize (IH (x / 10)%N Hlt). revert Hmod Hdm Hlt IH.
  generalize (x mod 10)%N, (x / 10)%N. intros m q Hmod Hdm Hlt IH.
  assert (Hdigit : forall acc, 0 <= acc -> acc * 10 + Z.of_N m = Z.of_N x ->
    f (str (String (pretty_N_char m) s)) acc = f (str s) (Z.of_N x)).
  { intros acc Hacc E. rewrite str_cons, Hf; rewrite pretty_char_digit by done; [|lia..].
    replace (48 + Z.of_N m - 48) with (Z.of_N m) by lia. by rewrite E. }
  destruct (N.eq_dec q 0%N) as [->|E0].
  - rewrite (pretty_N_go_0 (String (pretty_N_char m) s)). apply Hdigit; lia.
  - rewrite IH; [|lia|lia]. apply Hdigit; lia.
Qed.

Lemma pretty_nonneg i : 0 < i -> pretty i = pretty_N_go (Z.to_N i) "".
Proof.
  intros Hi. destruct i as [|p|p]; try lia. unfold pretty, pretty_Z, pretty, pretty_N.
  cbn [Z.to_N]. by destruct (decide (N.pos p = 0%N)).
Qed.


(** The decimal digits (and the sign) are below every letter. *)
Lemma pretty_N_go_digits x s :
  Forall (fun c => byte.unsigned c < 58) (str s) -> Forall (fun c => byte.unsigned c < 58) (str (pretty_N_go x s)).
Proof.
  revert s. induction x as [x IH] using (well_founded_induction N.lt_wf_0). intros s Hs.
  destruct (decide (0 < x)%N) as [Hx|Hx].
  - rewrite pretty_N_go_step by done. apply IH; [by apply N.div_lt|]. constructor; [|done].
    unfold pretty_N_char. repeat case_match; vm_compute; reflexivity.
  - assert (x = 0%N) as -> by lia. by rewrite pretty_N_go_0.
Qed.

Lemma decimal_digits z : Forall (fun c => byte.unsigned c < 58) (decimal z).
Proof.
  unfold decimal. destruct z as [|p|p]; unfold pretty, pretty_Z; [repeat constructor| |];
    unfold pretty, pretty_positive, pretty, pretty_N; (case_decide; [done|]).
  - by apply pretty_N_go_digits.
  - constructor; [vm_compute; reflexivity|]. by apply pretty_N_go_digits.
Qed.

Lemma decimal_no_sep c z : 58 <= byte.unsigned c -> c ∉ decimal z.
Proof.
  intros Hc Hin. pose proof (decimal_digits z) as H. rewrite Forall_forall in H. apply H in Hin. lia.
Qed.
