(* ===== verification/Sha256.v ===== *)
(** * SHA-256 (Go's [crypto/sha256], used by every hash of the program)

    An executable model of [sha256.Sum256] (FIPS 180-4) over lists of bytes,
    checked on the published test vectors.  The theorems of the development
    use it as a function with 32-byte results. *)

From S2P Require Import Prelude.

(** ** 32-bit word operations *)

Definition add32 (a b : Z) : Z := u32 (a + b).
Definition rotr (n x : Z) : Z := Z.lor (Z.shiftr x n) (u32 (Z.shiftl x (32 - n))).
Definition shr (n x : Z) : Z := Z.shiftr x n.
Definition not32 (x : Z) : Z := 2 ^ 32 - 1 - x.
Definition xor3 (a b c : Z) : Z := Z.lxor a (Z.lxor b c).

Definition ch (x y z : Z) : Z := Z.lxor (Z.land x y) (Z.land (not32 x) z).
Definition maj (x y z : Z) : Z := xor3 (Z.land x y) (Z.land x z) (Z.land y z).
Definition bsig0 (x : Z) : Z := xor3 (rotr 2 x) (rotr 13 x) (rotr 22 x).
Definition bsig1 (x : Z) : Z := xor3 (rotr 6 x) (rotr 11 x) (rotr 25 x).
Definition ssig0 (x : Z) : Z := xor3 (rotr 7 x) (rotr 18 x) (shr 3 x).
Definition ssig1 (x : Z) : Z := xor3 (rotr 17 x) (rotr 19 x) (shr 10 x).

Definition k256 : list Z :=
  [1116352408; 1899447441; 3049323471; 3921009573; 961987163; 1508970993; 2453635748; 2870763221;
   3624381080; 310598401; 607225278; 1426881987; 1925078388; 2162078206; 2614888103; 3248222580;
   3835390401; 4022224774; 264347078; 604807628; 770255983; 1249150122; 1555081692; 1996064986;
   2554220882; 2821834349; 2952996808; 3210313671; 3336571891; 3584528711; 113926993; 338241895;
   666307205; 773529912; 1294757372; 1396182291; 1695183700; 1986661051; 2177026350; 2456956037;
   2730485921; 2820302411; 3259730800; 3345764771; 3516065817; 3600352804; 4094571909; 275423344;
   430227734; 506948616; 659060556; 883997877; 958139571; 1322822218; 1537002063; 1747873779;
   1955562222; 2024104815; 2227730452; 2361852424; 2428436474; 2756734187; 3204031479; 3329325298].

(** ** Compression *)

Record digest := Digest { dA : Z; dB : Z; dC : Z; dD : Z; dE : Z; dF : Z; dG : Z; dH : Z }.

Definition init_digest : digest :=
  Digest 1779033703 3144134277 1013904242 2773480762 1359893119 2600822924 528734635 1541459225.

Definition round (d : digest) (kw : Z * Z) : digest :=
  let '(Digest a b c d' e f g h) := d in
  let '(k, w) := kw in
  let t1 := u32 (h + bsig1 e + ch e f g + k + w) in
  let t2 := add32 (bsig0 a) (maj a b c) in
  Digest (add32 t1 t2) a b c (add32 d' t1) e f g.

(** The message schedule, kept newest first: the next word depends on the
    words 2, 7, 15 and 16 places back. *)
Fixpoint extend (n : nat) (ws : list Z) : list Z :=
  match n with
  | O => ws
  | S n' =>
      let w := u32 (ssig1 (nth 1 ws 0) + nth 6 ws 0 + ssig0 (nth 14 ws 0) + nth 15 ws 0) in
      extend n' (w :: ws)
  end.

Definition schedule (block : list Z) : list Z := rev (extend 48 (rev block)).

Definition compress (d : digest) (block : list Z) : digest :=
  let '(Digest a b c d' e f g h) := d in
  let '(Digest a1 b1 c1 d1 e1 f1 g1 h1) := fold_left round (combine k256 (schedule block)) d in
  Digest (add32 a a1) (add32 b b1) (add32 c c1) (add32 d' d1)
         (add32 e e1) (add32 f f1) (add32 g g1) (add32 h h1).

(** ** Padding and blocks *)

Definition pad (m : bytes) : bytes :=
  m ++ [Byte.x80] ++ repeat Byte.x00 (Z.to_nat ((55 - len m) mod 64)) ++ be_bytes 8 (8 * len m).

Fixpoint words (l : bytes) : list Z :=
  match l with
  | a :: b :: c :: d :: r => be_value [a; b; c; d] :: words r
  | _ => []
  end.

Fixpoint blocks (n : nat) (ws : list Z) (d : digest) : digest :=
  match n, ws with
  | S n', _ :: _ => blocks n' (drop 16 ws) (compress d (take 16 ws))
  | _, _ => d
  end.

Definition digest_bytes (d : digest) : bytes :=
  let '(Digest a b c d' e f g h) := d in concat (map (be_bytes 4) [a; b; c; d'; e; f; g; h]).

Definition sha256 (m : bytes) : bytes :=
  let ws := words (pad m) in digest_bytes (blocks (length ws) ws init_digest).

Lemma length_sha256 m : length (sha256 m) = 32%nat.
Proof. unfold sha256. destruct (blocks _ _ _). reflexivity. Qed.

Lemma len_sha256 m : len (sha256 m) = 32.
Proof. unfold len. by rewrite length_sha256. Qed.
#[export] Hint Rewrite len_sha256 : golen.

(** ** Test vectors *)

Example sha256_empty : be_value (sha256 []) =
  0xe3b0c44298fc1c149afbf4c8996fb92427ae41e4649b934ca495991b7852b855.
Proof. vm_compute. reflexivity. Qed.

Example sha256_abc : be_value (sha256 (String.list_byte_of_string "abc")) =
  0xba7816bf8f01cfea414140de5dae2223b00361a396177a9cb410ff61f20015ad.
Proof. vm_compute. reflexivity. Qed.

Example sha256_two_blocks :
  be_value (sha256 (String.list_byte_of_string
    "abcdbcdecdefdefgefghfghighijhijkijkljklmklmnlmnomnopnopq")) =
  0x248d6a61d20638b8e5c026930c3e6039a33ce45964ff2167f6ecedd419db06c1.
Proof. vm_compute. reflexivity. Qed.

(** The theorems never look inside the hash. *)
#[global] Opaque sha256.
