(* ===== verification/Varint.v ===== *)
(** * Base-128 varints

    Go's [encoding/binary] (PutUvarint, Uvarint, ReadUvarint) as the program
    uses it, and the readers it is fed from ([bufio.Reader] and [io.ReadFull]
    over a stream).  The program's own wrappers live in the components. *)

From S2P Require Import Prelude.

Definition MaxVarintLen64 : Z := 10.

(** ** Encoding *)

(** The loop [for x >= 0x80 { buf[i] = byte(x) | 0x80; x >>= 7; i++ }]; ten
    bytes are enough for any uint64, so [n = 9] continuation steps are. *)
Fixpoint put_uvarint_from (n : nat) (x : Z) : bytes :=
  match n with
  | O => [byte.of_Z x]
  | S n' => if 128 <=? x
            then byte.of_Z (Z.lor (u8 x) 128) :: put_uvarint_from n' (Z.shiftr x 7)
            else [byte.of_Z x]
  end.

Definition PutUvarint (x : Z) : bytes := put_uvarint_from 9 x.

(** ** Decoding from a slice

    The result is the value and the number of bytes read; 0 when the slice ends
    first, negative when the value overflows 64 bits. *)
Fixpoint uvarint_from (buf : bytes) (i x s : Z) : Z * Z :=
  match buf with
  | [] => (0, 0)
  | b :: r =>
      let v := byte.unsigned b in
      if i =? MaxVarintLen64 then (0, - (i + 1))
      else if v <? 128 then
        if (i =? MaxVarintLen64 - 1) && (1 <? v) then (0, - (i + 1))
        else (Z.lor x (u64 (Z.shiftl v s)), i + 1)
      else uvarint_from r (i + 1) (Z.lor x (u64 (Z.shiftl (Z.land v 127) s))) (s + 7)
  end.

Definition Uvarint (buf : bytes) : Z * Z := uvarint_from buf 0 0 0.

(** ** Decoding from a reader *)

(** What is left of a stream: the bytes and the error that follows them. *)
Record source := Source { src_data : bytes; src_end : goerr }.

Definition ReadByte : M source Init.Byte.byte := fun s =>
  match src_data s with
  | [] => (Err (src_end s), s)
  | b :: r => (Ret b, Source r (src_end s))
  end.

(** [io.ReadFull(r, buf)] with [len(buf) = n]. *)
Definition ReadFull (n : Z) : M source bytes := fun s =>
  if n <=? len (src_data s)
  then (Ret (take (Z.to_nat n) (src_data s)),
        Source (drop (Z.to_nat n) (src_data s)) (src_end s))
  else (Err (match src_data s, src_end s with
             | [], e => e
             | _ :: _, EOF => ErrUnexpectedEOF
             | _ :: _, e => e
             end),
        Source [] (src_end s)).

Fixpoint read_uvarint_from (n : nat) (i x s : Z) : M source Z :=
  match n with
  | O => fail ErrOverflow
  | S n' => fun st =>
      match ReadByte st with
      | (Ret b, st') =>
          let v := byte.unsigned b in
          if v <? 128 then
            if (i =? MaxVarintLen64 - 1) && (1 <? v) then (Err ErrOverflow, st')
            else (Ret (Z.lor x (u64 (Z.shiftl v s))), st')
          else read_uvarint_from n' (i + 1) (Z.lor x (u64 (Z.shiftl (Z.land v 127) s))) (s + 7) st'
      | (Err EOF, st') => (Err (if 0 <? i then ErrUnexpectedEOF else EOF), st')
      | (Err e, st') => (Err e, st')
      | (Panic w, st') => (Panic w, st')
      | (NoFuel, st') => (NoFuel, st')
      end
  end.

Definition ReadUvarint : M source Z := read_uvarint_from 10 0 0 0.

(** ** Round trips *)

Lemma put_uvarint_from_cons n x :
  exists b r, put_uvarint_from n x = b :: r.
Proof. destruct n; simpl; [|destruct (128 <=? x)]; eauto. Qed.

Lemma cont_byte x : 0 <= x -> byte.unsigned (byte.of_Z (Z.lor (u8 x) 128)) = 128 + x mod 128.
Proof.
  intros Hx. rewrite byte.unsigned_of_Z. unfold byte.wrap, u8.
  assert (E : Z.lor (x mod 2 ^ 8) 128 = 128 + x mod 128).
  { replace 128 with (Z.shiftl 1 7) at 1 by reflexivity.
    apply Z.bits_inj'. intros i Hi.
    replace (128 + x mod 128) with (Z.lor (x mod 2 ^ 7) (Z.shiftl 1 7)).
    - rewrite !Z.lor_spec, Z.shiftl_spec by done.
      destruct (Z.ltb_spec i 7).
      + rewrite !Z.mod_pow2_bits_low by lia. done.
      + destruct (Z.eq_dec i 7) as [->|]; [by rewrite Z.sub_diag, !orb_true_r|].
        rewrite !Z.mod_pow2_bits_high by lia. done.
    - rewrite lor_shiftl_add; [change (2 ^ 7) with 128; lia|lia|apply Z.mod_pos_bound; lia]. }
  rewrite E, Z.mod_small; [done|]. pose proof (Z.mod_pos_bound x 128 ltac:(lia)). lia.
Qed.

Lemma land_127_cont x : Z.land (128 + x mod 128) 127 = x mod 128.
Proof.
  change 127 with (Z.ones 7). rewrite Z.land_ones by lia. change (2 ^ 7) with 128.
  rewrite <- Z.add_mod_idemp_l by lia. rewrite Z.mod_same, Z.add_0_l by lia. by apply Z.mod_mod.
Qed.

(** One decoding step of a continuation byte. *)
Lemma lor_step acc x s :
  0 <= s -> 0 <= acc < 2 ^ s -> 0 <= x -> x * 2 ^ s < 2 ^ 64 ->
  Z.lor acc (u64 (Z.shiftl x s)) = acc + x * 2 ^ s.
Proof.
  intros Hs Ha Hx Hb. rewrite u64_small.
  - by apply lor_shiftl_add.
  - rewrite Z.shiftl_mul_pow2 by done. split; [apply Z.mul_nonneg_nonneg; lia|done].
Qed.

Section Decode.
(** The arithmetic both decoding loops share: after [i] continuation bytes the
    accumulator is below [2 ^ (7 i)] and what is left fits above it. *)
Context (i acc x : Z).
Hypothesis (Hi : 0 <= i <= 9) (Hacc : 0 <= acc < 2 ^ (7 * i))
           (Hx : 0 <= x < 2 ^ (64 - 7 * i)).

Lemma fits : x * 2 ^ (7 * i) < 2 ^ 64.
Proof using Hi Hacc Hx.
  replace 64 with ((64 - 7 * i) + 7 * i) by lia. rewrite Z.pow_add_r by lia.
  apply Z.mul_lt_mono_pos_r; [apply Z.pow_pos_nonneg; lia|lia].
Qed.

Lemma step_small : x < 128 -> Z.lor acc (u64 (Z.shiftl x (7 * i))) = acc + x * 2 ^ (7 * i).
Proof using Hi Hacc Hx. intros. apply lor_step; try lia. by apply fits. Qed.

Lemma step_cont :
  Z.lor acc (u64 (Z.shiftl (x mod 128) (7 * i))) = acc + x mod 128 * 2 ^ (7 * i).
Proof using Hi Hacc Hx.
  pose proof (Z.mod_pos_bound x 128 ltac:(lia)) as Hm.
  apply lor_step; try lia. apply Z.le_lt_trans with (x * 2 ^ (7 * i)); [|apply fits].
  apply Z.mul_le_mono_nonneg_r; [apply Z.pow_nonneg; lia|apply Z.mod_le; lia].
Qed.

Lemma last_small : i = 9 -> x <= 1.
Proof using Hi Hacc Hx. intros ->. change (2 ^ (64 - 7 * 9)) with 2 in Hx. lia. Qed.

Lemma next_acc : 0 <= acc + x mod 128 * 2 ^ (7 * i) < 2 ^ (7 * (i + 1)).
Proof using Hi Hacc Hx.
  pose proof (Z.mod_pos_bound x 128 ltac:(lia)) as Hm.
  replace (7 * (i + 1)) with (7 + 7 * i) by lia. rewrite Z.pow_add_r by lia.
  change (2 ^ 7) with 128. split; [apply Z.add_nonneg_nonneg; [lia|apply Z.mul_nonneg_nonneg; lia]|].
  assert (x mod 128 * 2 ^ (7 * i) <= 127 * 2 ^ (7 * i)).
  { apply Z.mul_le_mono_nonneg_r; lia. }
  lia.
Qed.

Lemma next_x : 128 <= x -> i <= 8 /\ 0 <= Z.shiftr x 7 < 2 ^ (64 - 7 * (i + 1)).
Proof using Hi Hacc Hx.
  intros H128. assert (i <= 8).
  { destruct (Z.eq_dec i 9) as [->|]; [|lia]. change (2 ^ (64 - 7 * 9)) with 2 in Hx. lia. }
  split; [done|]. rewrite Z.shiftr_div_pow2 by lia. split; [apply Z.div_pos; lia|].
  apply Z.div_lt_upper_bound; [lia|]. rewrite <- Z.pow_add_r by lia.
  replace (7 + (64 - 7 * (i + 1))) with (64 - 7 * i) by lia. lia.
Qed.

Lemma next_value :
  acc + x mod 128 * 2 ^ (7 * i) + Z.shiftr x 7 * 2 ^ (7 * (i + 1)) = acc + x * 2 ^ (7 * i).
Proof using Hi Hacc Hx.
  rewrite Z.shiftr_div_pow2 by lia. replace (7 * (i + 1)) with (7 + 7 * i) by lia.
  rewrite Z.pow_add_r by lia. change (2 ^ 7) with 128.
  rewrite (Z.div_mod x 128) at 3 by lia. ring.
Qed.
End Decode.

Lemma put_cont n x : 128 <= x ->
  put_uvarint_from (S n) x =
  byte.of_Z (Z.lor (u8 x) 128) :: put_uvarint_from n (Z.shiftr x 7).
Proof. intros. simpl. by rewrite (proj2 (Z.leb_le _ _)). Qed.

Lemma put_last n x : 0 <= x < 128 -> put_uvarint_from n x = [byte.of_Z x].
Proof. intros. destruct n; simpl; [done|]. by rewrite (proj2 (Z.leb_gt _ _)) by lia. Qed.

Lemma uvarint_put n : forall i acc x rest,
  0 <= i -> i + Z.of_nat n = 9 -> 0 <= acc < 2 ^ (7 * i) -> 0 <= x < 2 ^ (64 - 7 * i) ->
  uvarint_from (put_uvarint_from n x ++ rest) i acc (7 * i) =
  (acc + x * 2 ^ (7 * i), i + len (put_uvarint_from n x)).
Proof.
  induction n as [|n IH]; intros i acc x rest Hi Hn Hacc Hx;
  (destruct (Z.lt_ge_cases x 128) as [Hs|Hs];
   [rewrite put_last by lia; cbn [app uvarint_from];
    rewrite unsigned_of_Z_small by lia; unfold MaxVarintLen64;
    pose proof (last_small i acc x ltac:(lia) Hacc Hx) as Hl;
    rewrite (proj2 (Z.eqb_neq i 10)), (proj2 (Z.ltb_lt x 128)) by lia;
    destruct (Z.eqb_spec i (10 - 1)); [rewrite (proj2 (Z.ltb_ge 1 x)) by lia|];
    cbn [andb]; rewrite step_small by lia; done|]).
  - exfalso. destruct (next_x i acc x ltac:(lia) Hacc Hx Hs). lia.
  - rewrite put_cont by lia. cbn [app uvarint_from]. rewrite cont_byte by lia.
    pose proof (Z.mod_pos_bound x 128 ltac:(lia)).
    unfold MaxVarintLen64. rewrite (proj2 (Z.eqb_neq i 10)), (proj2 (Z.ltb_ge _ 128)) by lia.
    rewrite land_127_cont, step_cont by lia.
    destruct (next_x i acc x ltac:(lia) Hacc Hx Hs).
    replace (7 * i + 7) with (7 * (i + 1)) by lia. rewrite IH; try lia.
    + rewrite next_value by lia. rewrite len_cons. f_equal. lia.
    + apply next_acc; lia.
Qed.

(** Decoding an encoded value from the front of a slice gives it back. *)
Lemma Uvarint_PutUvarint x rest :
  0 <= x < 2 ^ 64 -> Uvarint (PutUvarint x ++ rest) = (x, len (PutUvarint x)).
Proof.
  intros. unfold Uvarint, PutUvarint.
  pose proof (uvarint_put 9 0 0 x rest ltac:(lia) ltac:(lia)) as H1.
  change (7 * 0) with 0 in H1. rewrite H1; [f_equal; lia|lia|simpl; lia].
Qed.

Lemma read_uvarint_put n : forall i acc x rest e,
  0 <= i -> i + Z.of_nat n = 9 -> 0 <= acc < 2 ^ (7 * i) -> 0 <= x < 2 ^ (64 - 7 * i) ->
  read_uvarint_from (S n) i acc (7 * i) (Source (put_uvarint_from n x ++ rest) e) =
  (Ret (acc + x * 2 ^ (7 * i)), Source rest e).
Proof.
  induction n as [|n IH]; intros i acc x rest e Hi Hn Hacc Hx;
  (destruct (Z.lt_ge_cases x 128) as [Hs|Hs];
   [rewrite put_last by lia; cbn [app read_uvarint_from ReadByte src_data src_end];
    rewrite unsigned_of_Z_small by lia; unfold MaxVarintLen64;
    pose proof (last_small i acc x ltac:(lia) Hacc Hx) as Hl;
    rewrite (proj2 (Z.ltb_lt x 128)) by lia;
    destruct (Z.eqb_spec i (10 - 1)); [rewrite (proj2 (Z.ltb_ge 1 x)) by lia|];
    cbn [andb]; rewrite step_small by lia; done|]).
  - exfalso. destruct (next_x i acc x ltac:(lia) Hacc Hx Hs). lia.
  - rewrite put_cont by lia.
    change (read_uvarint_from (S (S n))) with
      (fun i x s st => match ReadByte st with
      | (Ret b, st') =>
          let v := byte.unsigned b in
          if v <? 128 then
            if (i =? MaxVarintLen64 - 1) && (1 <? v) then (Err ErrOverflow, st')
            else (Ret (Z.lor x (u64 (Z.shiftl v s))), st')
          else read_uvarint_from (S n) (i + 1) (Z.lor x (u64 (Z.shiftl (Z.land v 127) s))) (s + 7) st'
      | (Err EOF, st') => (Err (if 0 <? i then ErrUnexpectedEOF else EOF), st')
      | (Err e, st') => (Err e, st')
      | (Panic w, st') => (Panic w, st')
      | (NoFuel, st') => (NoFuel, st')
      end). cbn beta. cbn [app ReadByte src_data src_end]. cbv zeta.
    rewrite cont_byte by lia. pose proof (Z.mod_pos_bound x 128 ltac:(lia)).
    rewrite (proj2 (Z.ltb_ge _ 128)) by lia.
    rewrite land_127_cont, step_cont by lia.
    destruct (next_x i acc x ltac:(lia) Hacc Hx Hs).
    replace (7 * i + 7) with (7 * (i + 1)) by lia. rewrite IH; try lia.
    + by rewrite next_value by lia.
    + apply next_acc; lia.
Qed.

(** Reading an encoded value off a stream consumes exactly its bytes. *)
Lemma ReadUvarint_PutUvarint x rest e :
  0 <= x < 2 ^ 64 ->
  ReadUvarint (Source (PutUvarint x ++ rest) e) = (Ret x, Source rest e).
Proof.
  intros. unfold ReadUvarint, PutUvarint.
  pose proof (read_uvarint_put 9 0 0 x rest e ltac:(lia) ltac:(lia)) as H1.
  change (7 * 0) with 0 in H1. rewrite H1; [do 2 f_equal; lia|lia|simpl; lia].
Qed.

(** A value read off a stream does not depend on what comes after it. *)
Lemma read_uvarint_app n : forall i x s d e v d' e' more,
  read_uvarint_from n i x s (Source d e) = (Ret v, Source d' e') ->
  e' = e /\ read_uvarint_from n i x s (Source (d ++ more) e) = (Ret v, Source (d' ++ more) e).
Proof.
  induction n as [|n IH]; intros i x s d e v d' e' more H; [done|]. cbn [read_uvarint_from] in *. unfold ReadByte in *. cbn [src_data src_end] in *.
  destruct d as [|b d]; [by destruct e|]. cbn [app src_data src_end] in *. cbv zeta in *.
  destruct (byte.unsigned b <? 128); [destruct ((i =? _) && _); [done|]; by injection H as <- <- <-|].
  by apply IH.
Qed.

Lemma ReadUvarint_app d e v d' e' more :
  ReadUvarint (Source d e) = (Ret v, Source d' e') ->
  e' = e /\ ReadUvarint (Source (d ++ more) e) = (Ret v, Source (d' ++ more) e).
Proof. apply read_uvarint_app. Qed.

(** io.EOF comes only in front of the first byte; a read neither panics nor runs out of fuel. *)
Lemma read_uvarint_ends n : forall i x s d e r st, 0 <= i ->
  read_uvarint_from n i x s (Source d e) = (r, st) ->
  match r with
  | Err EOF => d = [] /\ e = EOF /\ i = 0
  | Ret _ | Err _ => True
  | _ => False
  end.
Proof.
  induction n as [|n IH]; intros i x s d e r st Hi H; [by injection H as <- _|].
  cbn [read_uvarint_from] in H. unfold ReadByte in H. cbn [src_data src_end] in H. cbv zeta in H. destruct d as [|b d].
  - destruct e; injection H as <- _; try done. destruct (Z.ltb_spec 0 i); [done|]. split_and!; [done|done|lia].
  - destruct (byte.unsigned b <? 128); [destruct ((i =? _) && _); by injection H as <- _|].
    apply IH in H; [|lia]. destruct r as [|[]| |]; try done. lia.
Qed.

Lemma ReadUvarint_ends d e r st : ReadUvarint (Source d e) = (r, st) ->
  match r with
  | Err EOF => d = [] /\ e = EOF
  | Ret _ | Err _ => True
  | _ => False
  end.
Proof. intros H%read_uvarint_ends; [|done]. destruct r as [|[]| |]; try done. tauto. Qed.

Lemma PutUvarint_inj x y rest rest' :
  0 <= x < 2 ^ 64 -> 0 <= y < 2 ^ 64 ->
  PutUvarint x ++ rest = PutUvarint y ++ rest' -> x = y /\ rest = rest'.
Proof.
  intros Hx Hy H. pose proof (ReadUvarint_PutUvarint x rest EOF Hx) as E1.
  rewrite H, ReadUvarint_PutUvarint in E1 by done. by simplify_eq.
Qed.

Lemma ReadFull_app a rest e : ReadFull (len a) (Source (a ++ rest) e) = (Ret a, Source rest e).
Proof.
  unfold ReadFull. cbn [src_data src_end]. rewrite len_app.
  rewrite (proj2 (Z.leb_le _ _)) by (pose proof (len_nonneg rest); lia).
  by rewrite len_to_nat, take_app_length, drop_app_length.
Qed.

Lemma len_PutUvarint x : 0 <= x < 2 ^ 64 -> 1 <= len (PutUvarint x) <= 10.
Proof.
  intros Hx. unfold PutUvarint.
  assert (H : forall n y, 1 <= len (put_uvarint_from n y) <= Z.of_nat n + 1).
  { induction n as [|n IH]; intros y; cbn [put_uvarint_from]; [len_simpl; lia|].
    destruct (128 <=? y); [rewrite len_cons; specialize (IH (Z.shiftr y 7)); lia|len_simpl; lia]. }
  specialize (H 9%nat x). lia.
Qed.

Lemma PutUvarint_pos x : 1 <= len (PutUvarint x).
Proof.
  unfold PutUvarint. destruct (put_uvarint_from_cons 9 x) as (b & r & ->).
  rewrite len_cons. pose proof (len_nonneg r). lia.
Qed.

Lemma uvarint_from_bounds buf : forall i x s v m,
  0 <= i -> uvarint_from buf i x s = (v, m) -> 0 <= x < 2 ^ 64 ->
  0 <= v < 2 ^ 64 /\ (0 < m -> m <= i + len buf).
Proof.
  assert (Hlor : forall a b, 0 <= a < 2 ^ 64 -> 0 <= Z.lor a (u64 b) < 2 ^ 64).
  { intros a b Ha. pose proof (u64_range b) as Hb. split; [apply Z.lor_nonneg; lia|].
    destruct (Z.eq_dec (Z.lor a (u64 b)) 0) as [->|Hne]; [lia|].
    apply Z.log2_lt_pow2; [pose proof (proj2 (Z.lor_nonneg a (u64 b))); lia|].
    rewrite Z.log2_lor by lia.
    assert (Hl : forall z, 0 <= z < 2 ^ 64 -> Z.log2 z < 64).
    { intros z Hz. destruct (Z.eq_dec z 0) as [->|]; [cbn; lia|]. apply Z.log2_lt_pow2; lia. }
    apply Z.max_lub_lt; by apply Hl. }
  induction buf as [|b r IH]; intros i x s v m Hi H Hx; cbn [uvarint_from] in H.
  - injection H as <- <-. lia.
  - cbv zeta in H. rewrite len_cons. pose proof (len_nonneg r).
    destruct (i =? MaxVarintLen64); [injection H as <- <-; lia|].
    destruct (byte.unsigned b <? 128).
    + destruct (_ && _); injection H as <- <-; [lia|]. split; [by apply Hlor|lia].
    + apply IH in H as [Hv Hm]; [|lia|by apply Hlor]. split; [done|lia].
Qed.

Lemma Uvarint_bounds buf v m :
  Uvarint buf = (v, m) -> 0 <= v < 2 ^ 64 /\ (0 < m -> m <= len buf).
Proof. intros H. apply uvarint_from_bounds in H; [|lia|lia]. lia. Qed.

#[global] Opaque PutUvarint Uvarint ReadUvarint.
