(* ===== verification/IavlEnc.v ===== *)
(** * IAVL wire formats (internal/snapshotimport/iavlenc.go)

    The byte-level encoders of the importer: database keys, on-disk nodes,
    fast-storage entries and hash pre-images.  The theorems show that the key
    layouts keep stores and namespaces apart, that every encoding determines
    what was encoded, and that leaf and inner pre-images cannot be confused. *)

From S2P Require Import Prelude Sha256 Varint.

(** ** Keys *)

Definition storePrefix (name : bytes) : bytes := str "s/k:" ++ name ++ str "/".

Definition nodeDBKeyInto (buf storePrefix : bytes) (version nonce : Z) : bytes :=
  buf ++ storePrefix ++ str "s" ++ be_bytes 8 (u64 version) ++ be_bytes 4 nonce.

Definition nodeDBKey (storePrefix : bytes) (version nonce : Z) : bytes :=
  nodeDBKeyInto [] storePrefix version nonce.

Definition fastDBKeyInto (buf storePrefix userKey : bytes) : bytes :=
  buf ++ storePrefix ++ str "f" ++ userKey.

Definition metadataDBKeyInto (buf storePrefix metaKey : bytes) : bytes :=
  buf ++ storePrefix ++ str "m" ++ metaKey.

(** ** Varint primitives *)

Definition putUvarint (dst : bytes) (x : Z) : bytes := dst ++ PutUvarint x.

Definition putVarint (dst : bytes) (x : Z) : bytes :=
  let ux := u64 (Z.shiftl (u64 x) 1) in
  let ux := if x <? 0 then 2 ^ 64 - 1 - ux else ux in
  putUvarint dst ux.

Definition putBytes (dst b : bytes) : bytes := putUvarint dst (len b) ++ b.

Definition putHash32 (dst h : bytes) : bytes := (dst ++ [Byte.x20]) ++ h.

(** ** Hash pre-images *)

Definition hashLeaf_pre (version : Z) (key value : bytes) : bytes :=
  let pre := putVarint [] 0 in
  let pre := putVarint pre 1 in
  let pre := putVarint pre version in
  let pre := putBytes pre key in
  let vh := sha256 value in
  putHash32 pre vh.

Definition hashLeaf (version : Z) (key value : bytes) : bytes :=
  sha256 (hashLeaf_pre version key value).

Definition hashInner_pre (version height size : Z) (left right : bytes) : bytes :=
  let pre := putVarint [] height in
  let pre := putVarint pre size in
  let pre := putVarint pre version in
  let pre := putHash32 pre left in
  putHash32 pre right.

Definition hashInner (version height size : Z) (left right : bytes) : bytes :=
  sha256 (hashInner_pre version height size left right).

(** ** On-disk nodes *)

Definition encodeLeafNodeInto (buf key value : bytes) : bytes :=
  let buf := putVarint buf 0 in
  let buf := putVarint buf 1 in
  let buf := putBytes buf key in
  putBytes buf value.

Definition encodeLeafNode (key value : bytes) : bytes := encodeLeafNodeInto [] key value.

Definition encodeInnerNodeInto (buf : bytes) (height size : Z) (key hash : bytes)
    (leftVersion leftNonce rightVersion rightNonce : Z) : bytes :=
  let buf := putVarint buf height in
  let buf := putVarint buf size in
  let buf := putBytes buf key in
  let buf := putHash32 buf hash in
  let buf := putVarint buf 0 in
  let buf := putVarint buf leftVersion in
  let buf := putVarint buf leftNonce in
  let buf := putVarint buf rightVersion in
  putVarint buf rightNonce.

Definition encodeInnerNode (height size : Z) (key hash : bytes)
    (leftVersion leftNonce rightVersion rightNonce : Z) : bytes :=
  encodeInnerNodeInto [] height size key hash leftVersion leftNonce rightVersion rightNonce.

Definition encodeFastNodeInto (buf : bytes) (version : Z) (value : bytes) : bytes :=
  let buf := putVarint buf version in
  putBytes buf value.

Definition fastStorageVersionValue : bytes := str "1.1.0".
Definition fastStorageVersionDelimiter : bytes := str "-".

(** ** Append-style encoders

    Every encoder only appends, so its output is the destination followed by
    what it produces from an empty destination. *)

Lemma putVarint_app dst x : putVarint dst x = dst ++ putVarint [] x.
Proof. reflexivity. Qed.

Lemma putBytes_app dst b : putBytes dst b = dst ++ putBytes [] b.
Proof. unfold putBytes, putUvarint. by rewrite app_assoc. Qed.

Lemma putHash32_app dst h : putHash32 dst h = dst ++ putHash32 [] h.
Proof. unfold putHash32. by rewrite <- app_assoc. Qed.

Lemma nodeDBKeyInto_app buf sp v n : nodeDBKeyInto buf sp v n = buf ++ nodeDBKey sp v n.
Proof. reflexivity. Qed.

Lemma encodeLeafNodeInto_app buf k v : encodeLeafNodeInto buf k v = buf ++ encodeLeafNode k v.
Proof.
  unfold encodeLeafNode, encodeLeafNodeInto, putBytes, putVarint, putUvarint.
  by rewrite !app_nil_l, <- !app_assoc.
Qed.

Lemma encodeInnerNodeInto_app buf h s k hs lv ln rv rn :
  encodeInnerNodeInto buf h s k hs lv ln rv rn = buf ++ encodeInnerNode h s k hs lv ln rv rn.
Proof.
  unfold encodeInnerNode, encodeInnerNodeInto, putHash32, putBytes, putVarint, putUvarint.
  by rewrite !app_nil_l, <- !app_assoc.
Qed.

(** ** Unique decoding

    Each primitive can be read off the front of what follows it. *)

Definition int64 (z : Z) : Prop := - 2 ^ 63 <= z < 2 ^ 63.

Lemma zigzag_range x : int64 x ->
  0 <= (if x <? 0 then 2 ^ 64 - 1 - u64 (Z.shiftl (u64 x) 1) else u64 (Z.shiftl (u64 x) 1)) < 2 ^ 64.
Proof. intros. pose proof (u64_range (Z.shiftl (u64 x) 1)). destruct (x <? 0); lia. Qed.

Lemma zigzag_value x : int64 x ->
  (if x <? 0 then 2 ^ 64 - 1 - u64 (Z.shiftl (u64 x) 1) else u64 (Z.shiftl (u64 x) 1)) =
  (if x <? 0 then - 2 * x - 1 else 2 * x).
Proof.
  unfold int64. intros Hx. rewrite Z.shiftl_mul_pow2 by lia. change (2 ^ 1) with 2. unfold u64.
  rewrite Z.mul_mod_idemp_l by lia. destruct (Z.ltb_spec x 0).
  - replace ((x * 2) mod 2 ^ 64) with (x * 2 + 2 ^ 64); [lia|].
    rewrite <- (Z_mod_plus_full (x * 2) 1), Z.mod_small; lia.
  - rewrite Z.mod_small; lia.
Qed.

Lemma putVarint_inj x y r r' :
  int64 x -> int64 y -> putVarint [] x ++ r = putVarint [] y ++ r' -> x = y /\ r = r'.
Proof.
  intros Hx Hy H. unfold putVarint, putUvarint in H. rewrite !app_nil_l in H.
  apply PutUvarint_inj in H as [H ->]; [|by apply zigzag_range..].
  rewrite !zigzag_value in H by done. split; [|done].
  destruct (Z.ltb_spec x 0), (Z.ltb_spec y 0); lia.
Qed.

Lemma app_inj_len (a b r r' : bytes) : len a = len b -> a ++ r = b ++ r' -> a = b /\ r = r'.
Proof. intros Hl. apply app_inj_1. unfold len in Hl. lia. Qed.

Lemma putBytes_inj a b r r' :
  len a < 2 ^ 64 -> len b < 2 ^ 64 ->
  putBytes [] a ++ r = putBytes [] b ++ r' -> a = b /\ r = r'.
Proof.
  intros Ha Hb H. unfold putBytes, putUvarint in H. rewrite !app_nil_l, <- !app_assoc in H.
  pose proof (len_nonneg a). pose proof (len_nonneg b).
  apply PutUvarint_inj in H as [Hl H]; [|lia..]. by apply app_inj_len.
Qed.

Lemma putHash32_inj a b r r' :
  len a = len b -> putHash32 [] a ++ r = putHash32 [] b ++ r' -> a = b /\ r = r'.
Proof.
  intros Hl H. unfold putHash32 in H. simpl in H. injection H as H. by apply app_inj_len.
Qed.

(** Peel the encoders of both sides of an equation, front to back. *)
Ltac peel :=
  repeat match goal with
  | H : putVarint [] _ ++ _ = putVarint [] _ ++ _ |- _ =>
      apply putVarint_inj in H as [? H]; [|assumption || (unfold int64; lia)..]
  | H : putBytes [] _ ++ _ = putBytes [] _ ++ _ |- _ =>
      apply putBytes_inj in H as [? H]; [|assumption..]
  | H : putHash32 [] _ ++ _ = putHash32 [] _ ++ _ |- _ =>
      apply putHash32_inj in H as [? H]; [|congruence..]
  end.

(** Bring an encoding into the form of a concatenation of primitives. *)
Ltac unfold_enc H :=
  unfold encodeLeafNode, encodeLeafNodeInto, encodeInnerNode, encodeInnerNodeInto,
    encodeFastNodeInto, hashLeaf_pre, hashInner_pre in H; cbv zeta in H;
  repeat first
    [ rewrite (putVarint_app (putVarint [] _)) in H | rewrite (putVarint_app (_ ++ _)) in H
    | rewrite (putBytes_app (putVarint [] _)) in H | rewrite (putBytes_app (_ ++ _)) in H
    | rewrite (putHash32_app (putVarint [] _)) in H | rewrite (putHash32_app (_ ++ _)) in H ];
  rewrite <- ?app_assoc in H.

(** The database key of an IAVL node determines the node's version and nonce
    (over all int64 versions and uint32 nonces), and keys are all of one length. *)
Theorem nodeDBKey_inj sp v n v' n' :
  int64 v -> int64 v' -> 0 <= n < 2 ^ 32 -> 0 <= n' < 2 ^ 32 ->
  nodeDBKey sp v n = nodeDBKey sp v' n' -> v = v' /\ n = n'.
Proof.
  intros Hv Hv' Hn Hn' H. unfold nodeDBKey, nodeDBKeyInto in H.
  apply app_inv_head in H. apply app_inv_head in H. apply app_inv_head in H.
  apply app_inj_len in H as [H1 H2]; [|by rewrite !len_be_bytes].
  apply be_bytes_inj in H1; [|apply u64_range..].
  apply be_bytes_inj in H2; [|simpl; lia..].
  split; [|done]. by rewrite <- (i64_u64 v), <- (i64_u64 v'), H1.
Qed.

(** The on-disk encoding of a leaf determines its key and value. *)
Lemma encodeLeafNode_inj k v k' v' :
  len k < 2 ^ 64 -> len v < 2 ^ 64 -> len k' < 2 ^ 64 -> len v' < 2 ^ 64 ->
  encodeLeafNode k v = encodeLeafNode k' v' -> k = k' /\ v = v'.
Proof.
  intros ? ? ? ? H. unfold_enc H. rewrite <- (app_nil_r (putBytes [] v)), <- (app_nil_r (putBytes [] v')) in H.
  peel. done.
Qed.

Lemma encodeInnerNode_inj h s k hs lv ln rv rn h' s' k' hs' lv' ln' rv' rn' :
  int64 h -> int64 s -> int64 lv -> int64 ln -> int64 rv -> int64 rn ->
  int64 h' -> int64 s' -> int64 lv' -> int64 ln' -> int64 rv' -> int64 rn' ->
  len k < 2 ^ 64 -> len k' < 2 ^ 64 -> len hs = len hs' ->
  encodeInnerNode h s k hs lv ln rv rn = encodeInnerNode h' s' k' hs' lv' ln' rv' rn' ->
  h = h' /\ s = s' /\ k = k' /\ hs = hs' /\ lv = lv' /\ ln = ln' /\ rv = rv' /\ rn = rn'.
Proof.
  intros. match goal with H : encodeInnerNode _ _ _ _ _ _ _ _ = _ |- _ => rename H into E end.
  unfold_enc E.
  rewrite <- (app_nil_r (putVarint [] rn)), <- (app_nil_r (putVarint [] rn')) in E.
  peel. done.
Qed.

(** ** Pre-images *)

Lemma hashLeaf_pre_inj v k x v' k' x' :
  int64 v -> int64 v' -> len k < 2 ^ 64 -> len k' < 2 ^ 64 ->
  hashLeaf_pre v k x = hashLeaf_pre v' k' x' -> v = v' /\ k = k' /\ sha256 x = sha256 x'.
Proof.
  intros ? ? ? ? H. unfold_enc H.
  rewrite <- (app_nil_r (putHash32 [] (sha256 x))), <- (app_nil_r (putHash32 [] (sha256 x'))) in H.
  assert (len (sha256 x) = len (sha256 x')) by (by rewrite !len_sha256).
  peel. done.
Qed.

Lemma hashInner_pre_inj v h s l r v' h' s' l' r' :
  int64 v -> int64 v' -> int64 h -> int64 h' -> int64 s -> int64 s' ->
  len l = len l' -> len r = len r' ->
  hashInner_pre v h s l r = hashInner_pre v' h' s' l' r' ->
  v = v' /\ h = h' /\ s = s' /\ l = l' /\ r = r'.
Proof.
  intros ? ? ? ? ? ? ? ? H. unfold_enc H.
  rewrite <- (app_nil_r (putHash32 [] r)), <- (app_nil_r (putHash32 [] r')) in H.
  peel. done.
Qed.

Lemma hash_pre_domain_separation v k x v' h s l r :
  int64 h -> h <> 0 -> hashLeaf_pre v k x <> hashInner_pre v' h s l r.
Proof. intros Hh Hn H. unfold_enc H. peel. congruence. Qed.

(** ** Namespaces *)

(** A store name without a slash is what the code relies on for the prefixes
    "s/k:<name>/" of different stores to be prefix-free. *)
Definition no_slash (name : bytes) : Prop := Byte.x2f ∉ name.

Lemma storePrefix_inj a b r r' :
  no_slash a -> no_slash b -> storePrefix a ++ r = storePrefix b ++ r' -> a = b /\ r = r'.
Proof.
  intros Ha Hb H. unfold storePrefix in H. rewrite <- !app_assoc in H. apply app_inv_head in H.
  revert b Hb H. induction a as [|x a IH]; intros [|y b] Hb H; simpl in H.
  - by simplify_eq.
  - injection H as <- _. destruct Hb. by left.
  - injection H as -> _. destruct Ha. by left.
  - injection H as -> H. destruct (IH) with (b := b) as [-> ->]; try done;
      intros Hin; [apply Ha|apply Hb]; by right.
Qed.

(** The three kinds of key the importer writes for a store. *)
Inductive keykind := KNode | KFast | KMeta.

Inductive store_key (name : bytes) : keykind -> bytes -> Prop :=
| key_node v n : int64 v -> 0 <= n < 2 ^ 32 ->
    store_key name KNode (nodeDBKey (storePrefix name) v n)
| key_fast u : store_key name KFast (fastDBKeyInto [] (storePrefix name) u)
| key_meta u : store_key name KMeta (metadataDBKeyInto [] (storePrefix name) u).

Definition kind_byte (k : keykind) : Init.Byte.byte :=
  match k with KNode => Byte.x73 | KFast => Byte.x66 | KMeta => Byte.x6d end.

Lemma store_key_shape name kind k :
  store_key name kind k -> exists r, k = storePrefix name ++ kind_byte kind :: r.
Proof. destruct 1; eexists; reflexivity. Qed.

(** The key namespaces of the importer are disjoint: a key belongs to one store
    and one kind (node, fast-storage or metadata) only. *)
Theorem key_namespaces_disjoint a b ka kb k :
  no_slash a -> no_slash b -> store_key a ka k -> store_key b kb k -> a = b /\ ka = kb.
Proof.
  intros Ha Hb [r Ea]%store_key_shape [r' Eb]%store_key_shape. rewrite Ea in Eb.
  apply storePrefix_inj in Eb as [-> E]; [|done..].
  destruct ka, kb; first [by split | by injection E].
Qed.

Lemma key_namespaces_disjoint_witness :
  let k := fastDBKeyInto [] (storePrefix (str "bank")) (str "x") in
  store_key (str "bank") KFast k /\ (str "bank" = str "bank" /\ KFast = KFast).
Proof.
  cbv zeta. split; [constructor|].
  assert (Hb : no_slash (str "bank")) by (refine (bool_decide_eq_true_1 _ _); reflexivity).
  apply (key_namespaces_disjoint (str "bank") (str "bank") KFast KFast
    (fastDBKeyInto [] (storePrefix (str "bank")) (str "x"))); [exact Hb|exact Hb|constructor|constructor].
Defined.

(** Fast-storage keys sort as the user keys they hold: what the SSTable writer,
    which takes keys in increasing order only, relies on. *)
Lemma fastDBKey_ltb sp u u' :
  bytes_ltb (fastDBKeyInto [] sp u) (fastDBKeyInto [] sp u') = bytes_ltb u u'.
Proof. unfold fastDBKeyInto. rewrite !app_nil_l, !app_assoc. by rewrite bytes_ltb_prefix. Qed.
