(* ===== verification/CommitInfo.v ===== *)
(** * CommitInfo: writing, reading back, and the AppHash
      (internal/snapshotimport/commitinfo.go, internal/cli/verify/verify.go)

    The importer hand-encodes the multistore's CommitInfo record; [verify]
    hand-decodes it and recomputes the AppHash.  The main theorems: what the
    importer writes is what [verify] reads; the recomputed AppHash does not
    depend on the order of the stores; [CheckAppHash] accepts exactly when the
    recomputed hash is the one the first responding RPC reports. *)

From S2P Require Import Prelude Sha256 Varint IavlEnc.

(** ** Encoder (commitinfo.go) *)

Record StoreInfo := mkStoreInfo { si_name : bytes; si_hash : bytes }.

#[export] Instance StoreInfo_eq_dec : EqDecision StoreInfo.
Proof. solve_decision. Defined.

Definition appendUvarintField (dst : bytes) (field v : Z) : bytes :=
  let dst := dst ++ [byte.of_Z (Z.shiftl field 3)] in
  dst ++ PutUvarint v.

Definition appendBytesField (dst : bytes) (field : Z) (b : bytes) : bytes :=
  let dst := dst ++ [byte.of_Z (Z.lor (u8 (Z.shiftl field 3)) 2)] in
  let dst := dst ++ PutUvarint (len b) in
  dst ++ b.

Definition appendStringField (dst : bytes) (field : Z) (s : bytes) : bytes :=
  appendBytesField dst field s.

Definition appendEmbeddedField (dst : bytes) (field : Z) (body : bytes) : bytes :=
  appendBytesField dst field body.

Definition encodeCommitID (version : Z) (hash : bytes) : bytes :=
  let out := appendUvarintField [] 1 (u64 version) in
  appendBytesField out 2 hash.

Definition encodeStoreInfo (si : StoreInfo) (ver : Z) : bytes :=
  let out := appendStringField [] 1 (si_name si) in
  appendEmbeddedField out 2 (encodeCommitID ver (si_hash si)).

Definition commitInfoBytes (version : Z) (infos : list StoreInfo) : bytes :=
  fold_left (fun out si => appendEmbeddedField out 2 (encodeStoreInfo si version))
    infos (appendUvarintField [] 1 (u64 version)).

Definition commitInfoKey (version : Z) : bytes := str "s/" ++ decimal version.

Definition latestVersionKey : bytes := str "s/latest".

Definition latestVersionBytes (version : Z) : bytes := appendUvarintField [] 1 (u64 version).

(** ** Decoder (verify.go)

    Each parser walks a slice with an index that only moves by what it reads, so
    one unit of fuel per byte is enough; running out of fuel would be a loop
    that does not end.  A sub-slice keeps the capacity of the slice it is cut
    from: [spare] is what lies between its length and its capacity. *)

Definition tag_field (t : Init.Byte.byte) : Z := Z.shiftr (byte.unsigned t) 3.
Definition tag_wire (t : Init.Byte.byte) : Z := Z.land (byte.unsigned t) 7.

Fixpoint parseCommitID_loop (fuel : nat) (buf : bytes) (i : Z) (hash : bytes) : outcome bytes :=
  if negb (i <? len buf) then Ret hash else
  match fuel with
  | O => NoFuel
  | S fuel =>
    tag ← go_index buf i;
    let i := i + 1 in
    if (tag_field tag =? 1) && (tag_wire tag =? 0) then
      rest ← go_from buf i;
      let m := snd (Uvarint rest) in
      if m <=? 0 then Err (Errorf "bad commitID version")
      else parseCommitID_loop fuel buf (i + m) hash
    else if (tag_field tag =? 2) && (tag_wire tag =? 2) then
      rest ← go_from buf i;
      let '(ln, m) := Uvarint rest in
      if (m <=? 0) || (len buf <? i64 (i + m + i64 ln))
      then Err (Errorf "bad commitID hash length")
      else
        let i := i + m in
        hash ← go_slice buf i (i64 (i + i64 ln));
        parseCommitID_loop fuel buf (i64 (i + i64 ln)) hash
    else Err (Errorf "unexpected field in CommitID")
  end.

Definition parseCommitID (buf : bytes) : outcome bytes :=
  parseCommitID_loop (S (length buf)) buf 0 [].

Fixpoint parseStoreInfo_loop (fuel : nat) (buf spare : bytes) (i : Z) (si : StoreInfo)
  : outcome StoreInfo :=
  if negb (i <? len buf) then Ret si else
  match fuel with
  | O => NoFuel
  | S fuel =>
    tag ← go_index buf i;
    let i := i + 1 in
    if (tag_field tag =? 1) && (tag_wire tag =? 2) then
      rest ← go_from buf i;
      let '(ln, m) := Uvarint rest in
      if m <=? 0 then Err (Errorf "bad name length")
      else
        let i := i + m in
        name ← go_slice (buf ++ spare) i (i64 (i + i64 ln));
        parseStoreInfo_loop fuel buf spare (i64 (i + i64 ln)) (mkStoreInfo name (si_hash si))
    else if (tag_field tag =? 2) && (tag_wire tag =? 2) then
      rest ← go_from buf i;
      let '(ln, m) := Uvarint rest in
      if (m <=? 0) || (len buf <? i64 (i + m + i64 ln))
      then Err (Errorf "bad commit_id length")
      else
        let i := i + m in
        sub ← go_slice buf i (i64 (i + i64 ln));
        h ← parseCommitID sub;
        parseStoreInfo_loop fuel buf spare (i64 (i + i64 ln)) (mkStoreInfo (si_name si) h)
    else Err (Errorf "unexpected field in StoreInfo")
  end.

Definition parseStoreInfo (buf spare : bytes) : outcome StoreInfo :=
  parseStoreInfo_loop (S (length buf)) buf spare 0 (mkStoreInfo [] []).

Fixpoint parseCommitInfo_loop (fuel : nat) (buf : bytes) (i : Z) (infos : list StoreInfo)
  : outcome (list StoreInfo) :=
  if negb (i <? len buf) then Ret infos else
  match fuel with
  | O => NoFuel
  | S fuel =>
    tag ← go_index buf i;
    let i := i + 1 in
    if (tag_field tag =? 1) && (tag_wire tag =? 0) then
      rest ← go_from buf i;
      let m := snd (Uvarint rest) in
      if m <=? 0 then Err (Errorf "bad version")
      else parseCommitInfo_loop fuel buf (i + m) infos
    else if (tag_field tag =? 2) && (tag_wire tag =? 2) then
      rest ← go_from buf i;
      let '(ln, m) := Uvarint rest in
      if (m <=? 0) || (len buf <? i64 (i + m + i64 ln))
      then Err (Errorf "bad store_info length")
      else
        let i := i + m in
        sub ← go_slice buf i (i64 (i + i64 ln));
        si ← parseStoreInfo sub (drop (Z.to_nat (i64 (i + i64 ln))) buf);
        parseCommitInfo_loop fuel buf (i64 (i + i64 ln)) (infos ++ [si])
    else Err (Errorf "unexpected field in CommitInfo")
  end.

Definition parseCommitInfo (buf : bytes) : outcome (list StoreInfo) :=
  parseCommitInfo_loop (S (length buf)) buf 0 [].

(** ** AppHash (verify.go) *)

Definition writeUvarint (w : bytes) (v : Z) : bytes := w ++ PutUvarint v.

(** [infos[i].Name < infos[j].Name] as the order [sort.Slice] sorts by. *)
Definition name_le (a b : StoreInfo) : Prop := bytes_ltb (si_name b) (si_name a) = false.
#[export] Instance name_le_dec : RelDecision name_le := fun a b => bool_eq_dec _ _.

Definition leaf_item (si : StoreInfo) : bytes :=
  let vhash := sha256 (si_hash si) in
  let buf := writeUvarint [] (len (si_name si)) in
  let buf := buf ++ si_name si in
  let buf := writeUvarint buf (len vhash) in
  buf ++ vhash.

(** Hexadecimal decoding ([encoding/hex]'s DecodeString). *)
Definition fromHexChar (c : Init.Byte.byte) : option Z :=
  let v := byte.unsigned c in
  if (48 <=? v) && (v <=? 57) then Some (v - 48)
  else if (97 <=? v) && (v <=? 102) then Some (v - 97 + 10)
  else if (65 <=? v) && (v <=? 70) then Some (v - 65 + 10)
  else None.

Fixpoint hexDecode (s : bytes) : goerr + bytes :=
  match s with
  | [] => inr []
  | [c] => inl (Errorf (if fromHexChar c is Some _ then "odd length hex string" else "invalid byte"))
  | a :: b :: r =>
      match fromHexChar a, fromHexChar b with
      | Some x, Some y =>
          match hexDecode r with
          | inr l => inr (byte.of_Z (Z.lor (Z.shiftl x 4) y) :: l)
          | inl e => inl e
          end
      | _, _ => inl (Errorf "invalid byte")
      end
  end.

Record CheckResult := mkResult {
  res_height : Z; res_rpc : bytes; res_local : bytes; res_consensus : bytes }.

Definition Match (r : CheckResult) : bool := bool_decide (res_local r = res_consensus r).

Definition ErrMismatch : goerr := Errorf "apphash mismatch".
Definition ErrNoUsableRPC : goerr := Errorf "no usable rpc".

Section Verify.
(** [merkle] is cometbft's HashFromByteSlices; [dbGet] reads the opened
    application.db; [fetchAppHash] is the HTTP query of one RPC endpoint. *)
Context (merkle : list bytes -> bytes).
Context (dbGet : bytes -> outcome (option bytes)).
Context (fetchAppHash : bytes -> Z -> goerr + bytes).

(** [sort.Slice] is not stable: it may order stores of one name in another way than the
    stable sort here; with distinct names there is one sorted order. *)
Definition computeAppHash (infos : list StoreInfo) : bytes :=
  merkle (map leaf_item (merge_sort name_le infos)).

Definition readCommitInfo (height : Z) : outcome (list StoreInfo) :=
  val ← dbGet (str "s/" ++ decimal height);
  match val with
  | None => Err (Errorf "no CommitInfo at key")
  | Some buf => parseCommitInfo buf
  end.

(** The loop over the RPC list: the first that answers wins. *)
Fixpoint firstRPC (rpcs : list bytes) (height : Z) (lastErr : goerr) : bytes * bytes * goerr :=
  match rpcs with
  | [] => ([], [], lastErr)
  | rpc :: r =>
      match fetchAppHash rpc height with
      | inr hash => (rpc, hash, lastErr)
      | inl e => firstRPC r height e
      end
  end.

(** The pair is Go's (Result, error) return with a populated result; [Err] is a
    return with the zero result. *)
Definition CheckAppHash (height : Z) (rpcs : list bytes) : outcome (CheckResult * option goerr) :=
  if bool_decide (rpcs = []) then Err (Errorf "no rpcs provided") else
  infos ← wrap_out "read commit info" (readCommitInfo height);
  let localHash := computeAppHash infos in
  let consHeight := i64 (height + 1) in
  let '(usedRPC, consHex, lastErr) := firstRPC rpcs consHeight (Errorf "<nil>") in
  if bool_decide (usedRPC = []) then Err (Wrapf "no usable rpc" lastErr) else
  match hexDecode consHex with
  | inl e => Err (Wrapf "decode rpc apphash" e)
  | inr consBytes =>
      let res := mkResult height usedRPC localHash consBytes in
      if Match res then Ret (res, None) else Ret (res, Some ErrMismatch)
  end.
End Verify.

(** ** What the importer writes is what verify reads *)

Lemma appendBytesField_app dst f b :
  appendBytesField dst f b = dst ++ appendBytesField [] f b.
Proof. unfold appendBytesField. cbv zeta. by rewrite <- !app_assoc. Qed.

(** A length-delimited field at position [len pre] of a buffer: everything the
    parsers compute there. *)
Section FieldAt.
Context (pre : bytes) (t : Init.Byte.byte) (body post : bytes).
Let buf := pre ++ t :: PutUvarint (len body) ++ body ++ post.
Let i := len pre + 1.
Let m := len (PutUvarint (len body)).
Hypothesis Hlen : len buf < 2 ^ 63.

Lemma len_buf : len buf = i + m + len body + len post.
Proof using Type. unfold buf, i, m. len_simpl. lia. Qed.

Lemma body_small : 0 <= len body < 2 ^ 63.
Proof using Hlen.
  pose proof len_buf. pose proof (len_nonneg body). pose proof (len_nonneg post).
  pose proof (len_nonneg pre). pose proof (len_nonneg (PutUvarint (len body))). unfold i, m in *. lia.
Qed.

Lemma field_at :
  (len pre <? len buf) = true /\
  go_index buf (len pre) = Ret t /\
  go_from buf i = Ret (PutUvarint (len body) ++ body ++ post) /\
  Uvarint (PutUvarint (len body) ++ body ++ post) = (len body, m) /\
  (m <=? 0) = false /\ i64 (len body) = len body /\
  i64 (i + m + len body) = i + m + len body /\
  (len buf <? i + m + len body) = false /\
  go_slice buf (i + m) (i + m + len body) = Ret body.
Proof using Hlen.
  pose proof len_buf as Hb. pose proof body_small as Hs.
  pose proof (len_PutUvarint (len body) ltac:(lia)) as Hm. fold m in Hm.
  pose proof (len_nonneg pre). pose proof (len_nonneg post). unfold i in *.
  split_and!; try (apply Z.ltb_lt; lia); try (apply Z.leb_gt; lia); try (apply Z.ltb_ge; lia);
    try (apply i64_small; lia).
  - apply go_index_app.
  - apply go_from_split with (a := pre ++ [t]); [|by len_simpl].
    unfold buf. by rewrite <- app_assoc.
  - apply Uvarint_PutUvarint. lia.
  - apply go_slice_split with (a := pre ++ t :: PutUvarint (len body)) (c := post).
    + unfold buf. by rewrite <- app_assoc.
    + len_simpl. unfold m. lia.
    + len_simpl. unfold m. lia.
Qed.
End FieldAt.

Section VarintAt.
Context (pre : bytes) (t : Init.Byte.byte) (v : Z) (post : bytes).
Let buf := pre ++ t :: PutUvarint v ++ post.
Hypothesis Hv : 0 <= v < 2 ^ 64.

Lemma varint_at :
  (len pre <? len buf) = true /\
  go_index buf (len pre) = Ret t /\
  go_from buf (len pre + 1) = Ret (PutUvarint v ++ post) /\
  Uvarint (PutUvarint v ++ post) = (v, len (PutUvarint v)) /\
  (len (PutUvarint v) <=? 0) = false.
Proof using Hv.
  pose proof (len_PutUvarint v Hv) as Hm. pose proof (len_nonneg post).
  split_and!; try (apply Z.leb_gt; lia).
  - apply Z.ltb_lt. unfold buf. len_simpl. lia.
  - apply go_index_app.
  - apply go_from_split with (a := pre ++ [t]); [|by len_simpl].
    unfold buf. by rewrite <- app_assoc.
  - by apply Uvarint_PutUvarint.
Qed.
End VarintAt.

(** Rewrite the parsers' intermediate results with the facts of a field. *)
Ltac use_at H :=
  lazymatch type of H with
  | _ /\ _ => let H1 := fresh in
      destruct H as [H1 H]; rewrite ?H1; cbn [mbind outcome_bind negb orb snd]; use_at H
  | _ => rewrite ?H; cbn [mbind outcome_bind negb orb snd]
  end.

Lemma len_bytes_field pre f b :
  len (pre ++ appendBytesField [] f b) = len pre + 1 + len (PutUvarint (len b)) + len b.
Proof. unfold appendBytesField. cbv zeta. len_simpl. lia. Qed.

Lemma len_uvarint_field pre f v :
  len (pre ++ appendUvarintField [] f v) = len pre + 1 + len (PutUvarint v).
Proof. unfold appendUvarintField. cbv zeta. len_simpl. lia. Qed.

(** Each parser's step over one field moves its index to the end of the field. *)
Ltac parser_step parse lem :=
  unfold appendBytesField, appendUvarintField; cbv zeta; cbn [app]; rewrite <- ?app_assoc; cbn [app];
  let Hp := fresh in let H := fresh in intros Hp; pose proof (lem Hp) as H; cbn [parse]; cbv zeta; use_at H; reflexivity.

Section Parsers.
Context (fuel : nat) (pre body post : bytes) (v : Z).
Let bf f := pre ++ appendBytesField [] f body ++ post.
Let vf f := pre ++ appendUvarintField [] f v ++ post.

Lemma parseCommitID_hash hash0 :
  len (bf 2) < 2 ^ 63 ->
  parseCommitID_loop (S fuel) (bf 2) (len pre) hash0 =
  parseCommitID_loop fuel (bf 2) (len (pre ++ appendBytesField [] 2 body)) body.
Proof using Type.
  rewrite len_bytes_field. unfold bf.
  parser_step parseCommitID_loop (field_at pre (byte.of_Z (Z.lor (u8 (Z.shiftl 2 3)) 2)) body post).
Qed.

Lemma parseCommitID_version hash0 :
  0 <= v < 2 ^ 64 ->
  parseCommitID_loop (S fuel) (vf 1) (len pre) hash0 =
  parseCommitID_loop fuel (vf 1) (len (pre ++ appendUvarintField [] 1 v)) hash0.
Proof using Type.
  rewrite len_uvarint_field. unfold vf.
  parser_step parseCommitID_loop (varint_at pre (byte.of_Z (Z.shiftl 1 3)) v post).
Qed.

Lemma parseCommitInfo_version infos :
  0 <= v < 2 ^ 64 ->
  parseCommitInfo_loop (S fuel) (vf 1) (len pre) infos =
  parseCommitInfo_loop fuel (vf 1) (len (pre ++ appendUvarintField [] 1 v)) infos.
Proof using Type.
  rewrite len_uvarint_field. unfold vf.
  parser_step parseCommitInfo_loop (varint_at pre (byte.of_Z (Z.shiftl 1 3)) v post).
Qed.

Lemma parseStoreInfo_commit spare si h :
  len (bf 2) < 2 ^ 63 -> parseCommitID body = Ret h ->
  parseStoreInfo_loop (S fuel) (bf 2) spare (len pre) si =
  parseStoreInfo_loop fuel (bf 2) spare (len (pre ++ appendBytesField [] 2 body))
    (mkStoreInfo (si_name si) h).
Proof using Type.
  intros Hl Hp. revert Hl. rewrite len_bytes_field. unfold bf.
  unfold appendBytesField. cbv zeta. cbn [app]. rewrite <- !app_assoc. cbn [app]. intros Hl.
  pose proof (field_at pre (byte.of_Z (Z.lor (u8 (Z.shiftl 2 3)) 2)) body post Hl) as H.
  cbn [parseStoreInfo_loop]. cbv zeta. use_at H. rewrite Hp. reflexivity.
Qed.

Lemma parseStoreInfo_name spare si :
  len (bf 1 ++ spare) < 2 ^ 63 ->
  parseStoreInfo_loop (S fuel) (bf 1) spare (len pre) si =
  parseStoreInfo_loop fuel (bf 1) spare (len (pre ++ appendBytesField [] 1 body))
    (mkStoreInfo body (si_hash si)).
Proof using Type.
  rewrite len_bytes_field. unfold bf.
  unfold appendBytesField. cbv zeta. cbn [app]. rewrite <- !app_assoc. cbn [app]. intros Hl.
  set (t := byte.of_Z _) in *.
  assert (Hl' : len (pre ++ t :: PutUvarint (len body) ++ body ++ post) < 2 ^ 63).
  { revert Hl. len_simpl. pose proof (len_nonneg spare). lia. }
  pose proof (field_at pre t body (post ++ spare)) as Hs.
  replace (pre ++ t :: PutUvarint (len body) ++ body ++ post ++ spare) with
    ((pre ++ t :: PutUvarint (len body) ++ body ++ post) ++ spare) in Hs
    by by rewrite <- !app_assoc, <- app_comm_cons, <- !app_assoc.
  specialize (Hs ltac:(by rewrite <- app_assoc)). do 8 destruct Hs as [_ Hs].
  pose proof (field_at pre t body post Hl') as H.
  cbn [parseStoreInfo_loop]. cbv zeta. use_at H. subst t. rewrite Hs. reflexivity.
Qed.

Lemma parseCommitInfo_store infos si :
  len (bf 2) < 2 ^ 63 -> parseStoreInfo body post = Ret si ->
  parseCommitInfo_loop (S fuel) (bf 2) (len pre) infos =
  parseCommitInfo_loop fuel (bf 2) (len (pre ++ appendBytesField [] 2 body)) (infos ++ [si]).
Proof using Type.
  intros Hl Hp. revert Hl. rewrite len_bytes_field. unfold bf.
  unfold appendBytesField. cbv zeta. cbn [app]. rewrite <- !app_assoc. cbn [app]. intros Hl.
  pose proof (field_at pre (byte.of_Z (Z.lor (u8 (Z.shiftl 2 3)) 2)) body post Hl) as H.
  cbn [parseCommitInfo_loop]. cbv zeta. use_at H.
  set (t := byte.of_Z _) in *.
  replace (drop _ (pre ++ _)) with post; [rewrite Hp; reflexivity|].
  replace (Z.to_nat _) with (length (pre ++ t :: PutUvarint (len body) ++ body)).
  - replace (pre ++ t :: PutUvarint (len body) ++ body ++ post) with
      ((pre ++ t :: PutUvarint (len body) ++ body) ++ post)
      by by rewrite <- !app_assoc, <- app_comm_cons, <- !app_assoc.
    by rewrite drop_app_length.
  - rewrite <- len_to_nat. f_equal. len_simpl. lia.
Qed.
End Parsers.

Lemma parseCommitID_loop_end fuel buf i h : len buf <= i -> parseCommitID_loop fuel buf i h = Ret h.
Proof. intros. destruct fuel; simpl; by rewrite (proj2 (Z.ltb_ge _ _)). Qed.
Lemma parseStoreInfo_loop_end fuel buf sp i si :
  len buf <= i -> parseStoreInfo_loop fuel buf sp i si = Ret si.
Proof. intros. destruct fuel; simpl; by rewrite (proj2 (Z.ltb_ge _ _)). Qed.
Lemma parseCommitInfo_loop_end fuel buf i l : len buf <= i -> parseCommitInfo_loop fuel buf i l = Ret l.
Proof. intros. destruct fuel; simpl; by rewrite (proj2 (Z.ltb_ge _ _)). Qed.

Lemma encodeCommitID_eq v h :
  encodeCommitID v h = appendUvarintField [] 1 (u64 v) ++ appendBytesField [] 2 h.
Proof. unfold encodeCommitID. by rewrite appendBytesField_app. Qed.

Lemma encodeStoreInfo_eq si v :
  encodeStoreInfo si v =
  appendBytesField [] 1 (si_name si) ++ appendBytesField [] 2 (encodeCommitID v (si_hash si)).
Proof.
  unfold encodeStoreInfo, appendStringField, appendEmbeddedField. by rewrite appendBytesField_app.
Qed.

Lemma length_field_pos f b : (2 <= length (appendBytesField [] f b))%nat.
Proof.
  assert (2 <= len (appendBytesField [] f b)); [|unfold len in *; lia].
  unfold appendBytesField. cbv zeta. len_simpl. pose proof (len_nonneg b).
  destruct (put_uvarint_from_cons 9 (len b)) as (x & r & E).
  with_strategy transparent [PutUvarint] (unfold PutUvarint). rewrite E, len_cons.
  pose proof (len_nonneg r). lia.
Qed.

(** Use a parser step at the start of the buffer. *)
Ltac from_start lem :=
  let E := fresh in pose proof lem as E; rewrite !app_nil_l in E;
  change (len (@nil Init.Byte.byte)) with 0 in E; rewrite E; clear E.

Lemma parseCommitID_encode v h :
  len (encodeCommitID v h) < 2 ^ 63 -> parseCommitID (encodeCommitID v h) = Ret h.
Proof.
  rewrite encodeCommitID_eq. intros Hl. unfold parseCommitID.
  assert (exists n, length (appendUvarintField [] 1 (u64 v) ++ appendBytesField [] 2 h) = S n) as [n ->].
  { rewrite length_app. pose proof (length_field_pos 2 h). exists (pred (length (appendUvarintField [] 1 (u64 v)) + length (appendBytesField [] 2 h))). lia. }
  from_start (parseCommitID_version (S n) [] (appendBytesField [] 2 h) (u64 v) [] (u64_range v)).
  rewrite <- (app_nil_r (appendUvarintField [] 1 (u64 v) ++ _)), <- app_assoc in Hl |- *.
  rewrite (parseCommitID_hash n (appendUvarintField [] 1 (u64 v)) h []) by done.
  apply parseCommitID_loop_end. rewrite app_nil_r. lia.
Qed.

Lemma parseStoreInfo_encode v si spare :
  len (encodeStoreInfo si v ++ spare) < 2 ^ 63 ->
  parseStoreInfo (encodeStoreInfo si v) spare = Ret si.
Proof.
  rewrite encodeStoreInfo_eq. intros Hl. unfold parseStoreInfo.
  set (b := appendBytesField [] 2 _) in *.
  assert (exists n, length (appendBytesField [] 1 (si_name si) ++ b) = S n) as [n ->].
  { rewrite length_app. pose proof (length_field_pos 1 (si_name si)).
    exists (pred (length (appendBytesField [] 1 (si_name si)) + length b)). lia. }
  from_start (parseStoreInfo_name (S n) [] (si_name si) b spare (mkStoreInfo [] []) Hl).
  set (a := appendBytesField [] 1 (si_name si)) in *. cbn [si_hash].
  assert (Hb : len (a ++ b) < 2 ^ 63).
  { revert Hl. rewrite (len_app (a ++ b)). pose proof (len_nonneg spare). lia. }
  rewrite <- (app_nil_r b) in Hb |- *. subst b.
  rewrite (parseStoreInfo_commit n a _ [] spare _ (si_hash si)); [|done|].
  - rewrite parseStoreInfo_loop_end; [by destruct si|rewrite app_nil_r; lia].
  - apply parseCommitID_encode. revert Hb. rewrite app_nil_r, len_bytes_field.
    pose proof (len_nonneg a). pose proof (len_nonneg (PutUvarint (len (encodeCommitID v (si_hash si))))).
    lia.
Qed.

Lemma commitInfoBytes_eq v infos :
  commitInfoBytes v infos =
  appendUvarintField [] 1 (u64 v) ++
  concat (map (fun si => appendBytesField [] 2 (encodeStoreInfo si v)) infos).
Proof.
  unfold commitInfoBytes. generalize (appendUvarintField [] 1 (u64 v)). intros acc.
  revert acc. induction infos as [|si l IH]; intros acc; simpl; [by rewrite app_nil_r|].
  rewrite IH. unfold appendEmbeddedField. by rewrite appendBytesField_app, <- app_assoc.
Qed.

Lemma parseCommitInfo_stores v infos : forall fuel pre acc,
  (length infos < fuel)%nat ->
  let enc := concat (map (fun si => appendBytesField [] 2 (encodeStoreInfo si v)) infos) in
  len (pre ++ enc) < 2 ^ 63 ->
  parseCommitInfo_loop fuel (pre ++ enc) (len pre) acc = Ret (acc ++ infos).
Proof.
  induction infos as [|si l IH]; intros fuel pre acc Hf enc Hl; subst enc;
    cbn [map concat length] in *.
  - rewrite !app_nil_r in *. by apply parseCommitInfo_loop_end.
  - destruct fuel as [|fuel]; [lia|].
    rewrite (parseCommitInfo_store fuel pre (encodeStoreInfo si v) _ acc si); [|done|].
    + rewrite (app_assoc pre) in Hl |- *. rewrite IH; [|lia|done]. by rewrite <- app_assoc.
    + apply parseStoreInfo_encode. revert Hl. unfold appendBytesField. cbv zeta. len_simpl.
      pose proof (len_nonneg pre). pose proof (len_nonneg (PutUvarint (len (encodeStoreInfo si v)))). lia.
Qed.

Lemma parseCommitInfo_commitInfoBytes v infos :
  len (commitInfoBytes v infos) < 2 ^ 63 ->
  parseCommitInfo (commitInfoBytes v infos) = Ret infos.
Proof.
  rewrite commitInfoBytes_eq. set (enc := concat _). intros Hl. unfold parseCommitInfo.
  assert (Hlen : (length infos < length (appendUvarintField [] 1 (u64 v) ++ enc))%nat).
  { rewrite length_app. enough (length infos <= length enc)%nat.
    { assert (1 <= length (appendUvarintField [] 1 (u64 v)))%nat; [|lia]. unfold appendUvarintField. simpl. lia. }
    subst enc. clear. induction infos as [|si l IH]; simpl; [lia|].
    rewrite length_app. pose proof (length_field_pos 2 (encodeStoreInfo si v)). lia. }
  from_start (parseCommitInfo_version (length (appendUvarintField [] 1 (u64 v) ++ enc)) [] enc (u64 v) [] (u64_range v)).
  by apply parseCommitInfo_stores.
Qed.

(** Verify reads back exactly the store list that the importer wrote, for every
    version, every store name and every root hash (empty ones included). *)
Theorem commitInfo_roundtrip v infos :
  len (commitInfoBytes v infos) < 2 ^ 63 ->
  parseCommitInfo (commitInfoBytes v infos) = Ret infos.
Proof. apply parseCommitInfo_commitInfoBytes. Qed.

Definition sample_infos : list StoreInfo :=
  [mkStoreInfo (str "bank") (sha256 []); mkStoreInfo (str "acc") []].

Lemma commitInfo_roundtrip_witness :
  len (commitInfoBytes 30 sample_infos) < 2 ^ 63 /\
  parseCommitInfo (commitInfoBytes 30 sample_infos) = Ret sample_infos.
Proof.
  split; [vm_compute; reflexivity|]. apply commitInfo_roundtrip. vm_compute. reflexivity.
Defined.

(** ** The AppHash is a function of the set of stores *)

#[export] Instance name_le_total : Total name_le.
Proof.
  intros a b. unfold name_le. destruct (bytes_ltb_total (si_name a) (si_name b)) as [H|[H|H]].
  - left. destruct (bytes_ltb (si_name b) (si_name a)) eqn:E; [|done].
    pose proof (bytes_ltb_trans _ _ _ H E) as C. by rewrite bytes_ltb_irrefl in C.
  - left. by rewrite H, bytes_ltb_irrefl.
  - right. destruct (bytes_ltb (si_name a) (si_name b)) eqn:E; [|done].
    pose proof (bytes_ltb_trans _ _ _ H E) as C. by rewrite bytes_ltb_irrefl in C.
Qed.

#[export] Instance name_le_trans : Transitive name_le.
Proof.
  intros a b c Hab Hbc. unfold name_le in *.
  destruct (bytes_ltb (si_name c) (si_name a)) eqn:E; [|done]. exfalso.
  destruct (bytes_ltb_total (si_name a) (si_name b)) as [H|[H|H]]; [| |congruence].
  - pose proof (bytes_ltb_trans _ _ _ E H). congruence.
  - rewrite H in E. congruence.
Qed.

Lemma name_le_antisymm a b : name_le a b -> name_le b a -> si_name a = si_name b.
Proof.
  unfold name_le. intros. destruct (bytes_ltb_total (si_name a) (si_name b)) as [?|[?|?]]; congruence.
Qed.

(** Whatever algorithm [sort.Slice] uses, on distinct names its result is unique. *)
Lemma sorted_by_name_unique l1 l2 :
  NoDup (map si_name l1) -> StronglySorted name_le l1 -> StronglySorted name_le l2 ->
  l1 ≡ₚ l2 -> l1 = l2.
Proof.
  intros Hnd H1 H2 Hp. apply StronglySorted_unique_strong with (R := name_le); try done.
  intros a b Ha Hb Hab Hba. rewrite <- Hp in Hb.
  pose proof (name_le_antisymm a b Hab Hba) as Hn.
  apply list_elem_of_lookup in Ha as [i Ha], Hb as [j Hb].
  enough (i = j) by congruence.
  eapply NoDup_lookup; [exact Hnd|..];
    [rewrite list_lookup_fmap, Ha; done|rewrite list_lookup_fmap, Hb, Hn; done].
Qed.

(** The AppHash recomputed from a CommitInfo does not depend on the order in
    which the stores are listed (the serial importer writes them in stream order,
    the parallel one sorted by name). *)
Theorem computeAppHash_order_independent merkle l1 l2 :
  NoDup (map si_name l1) -> l1 ≡ₚ l2 -> computeAppHash merkle l1 = computeAppHash merkle l2.
Proof.
  intros Hnd Hp. unfold computeAppHash. do 2 f_equal. apply sorted_by_name_unique.
  - by rewrite merge_sort_Permutation.
  - apply StronglySorted_merge_sort; apply _.
  - apply StronglySorted_merge_sort; apply _.
  - by rewrite !merge_sort_Permutation.
Qed.

Lemma computeAppHash_order_independent_witness :
  computeAppHash (fun l => sha256 (concat l)) sample_infos =
  computeAppHash (fun l => sha256 (concat l)) (rev sample_infos).
Proof.
  apply computeAppHash_order_independent.
  - apply (bool_decide_unpack _). vm_compute. exact I.
  - symmetry. apply Permutation_rev.
Defined.

(** ** CheckAppHash *)

Lemma firstRPC_spec fetch pre rpc post h e hash :
  Forall (fun r => exists err, fetch r h = inl err) pre -> fetch rpc h = inr hash ->
  exists e', firstRPC fetch (pre ++ rpc :: post) h e = (rpc, hash, e').
Proof.
  intros Hpre Hrpc. revert e. induction Hpre as [|r l [err Hr] _ IH]; intros e; cbn [app firstRPC].
  - rewrite Hrpc. by eexists.
  - rewrite Hr. apply IH.
Qed.

(** C12: On a database that holds the importer's CommitInfo record, [CheckAppHash]
    recomputes the AppHash of exactly the imported stores, compares it with what
    the first responding RPC reports for the next height, and returns no error
    exactly when the two agree; on disagreement it returns ErrMismatch together
    with the populated result. *)
Theorem CheckAppHash_decides merkle dbGet fetch h infos pre rpc post hex cons :
  dbGet (commitInfoKey h) = Ret (Some (commitInfoBytes h infos)) ->
  len (commitInfoBytes h infos) < 2 ^ 63 ->
  Forall (fun r => exists err, fetch r (i64 (h + 1)) = inl err) pre ->
  fetch rpc (i64 (h + 1)) = inr hex -> rpc <> [] -> hexDecode hex = inr cons ->
  CheckAppHash merkle dbGet fetch h (pre ++ rpc :: post) =
  Ret (mkResult h rpc (computeAppHash merkle infos) cons,
       if decide (computeAppHash merkle infos = cons) then None else Some ErrMismatch).
Proof.
  intros Hdb Hl Hpre Hrpc Hne Hhex. unfold CheckAppHash, readCommitInfo.
  change (str "s/" ++ decimal h) with (commitInfoKey h). rewrite Hdb.
  cbn [mbind outcome_bind]. rewrite parseCommitInfo_commitInfoBytes by done.
  cbn [wrap_out mbind outcome_bind].
  rewrite bool_decide_eq_false_2 by by destruct pre.
  destruct (firstRPC_spec fetch pre rpc post (i64 (h + 1)) (Errorf "<nil>") hex Hpre Hrpc) as [e' ->].
  rewrite bool_decide_eq_false_2, Hhex by done. unfold Match. cbn [res_local res_consensus].
  by case_bool_decide; case_decide.
Qed.

Lemma CheckAppHash_decides_witness :
  CheckAppHash (fun l => sha256 (concat l))
    (fun k => if bool_decide (k = commitInfoKey 30) then Ret (Some (commitInfoBytes 30 sample_infos))
              else Ret None)
    (fun r _ => if bool_decide (r = str "http://b") then inr (str "c0FF") else inl ErrClosedPipe)
    30 ([str "http://a"] ++ str "http://b" :: []) =
  Ret (mkResult 30 (str "http://b") (computeAppHash (fun l => sha256 (concat l)) sample_infos) (bs [192; 255]),
       if decide (computeAppHash (fun l => sha256 (concat l)) sample_infos = bs [192; 255])
       then None else Some ErrMismatch).
Proof.
  apply CheckAppHash_decides with (hex := str "c0FF").
  - by rewrite bool_decide_eq_true_2.
  - vm_compute. reflexivity.
  - constructor; [|constructor]. by eexists.
  - reflexivity.
  - discriminate.
  - vm_compute. reflexivity.
Defined.

(** ** The multistore's own records *)

(** [%d] prints a sign or a digit first. *)
Lemma decimal_head z c r : decimal z = c :: r -> byte.unsigned c < 58.
Proof. pose proof (decimal_digits z) as H. intros E. rewrite E in H. by inversion H. Qed.

Lemma rootmulti_not_store name r v :
  storePrefix name ++ r <> commitInfoKey v /\ storePrefix name ++ r <> latestVersionKey.
Proof.
  unfold storePrefix, commitInfoKey, latestVersionKey. split.
  - intros E. rewrite <- !app_assoc in E. cbn in E. injection E as E.
    symmetry in E. apply decimal_head in E. vm_compute in E. done.
  - intros E. rewrite <- !app_assoc in E. by cbn in E.
Qed.

Lemma commitInfo_not_latest v : commitInfoKey v <> latestVersionKey.
Proof.
  unfold commitInfoKey, latestVersionKey. intros E. cbn in E. injection E as E.
  apply decimal_head in E. vm_compute in E. done.
Qed.

(** No key the importer writes for a store is the CommitInfo record of any
    version or the latest-version record, and those two never coincide. *)
Theorem rootmulti_keys_disjoint name kind k v :
  store_key name kind k ->
  k <> commitInfoKey v /\ k <> latestVersionKey /\ commitInfoKey v <> latestVersionKey.
Proof.
  intros [r ->]%store_key_shape. destruct (rootmulti_not_store name (kind_byte kind :: r) v).
  split_and!; [done..|apply commitInfo_not_latest].
Qed.

Lemma rootmulti_keys_disjoint_witness :
  store_key (str "bank") KNode (nodeDBKey (storePrefix (str "bank")) 5 2) /\
  nodeDBKey (storePrefix (str "bank")) 5 2 <> commitInfoKey 5.
Proof.
  assert (H : store_key (str "bank") KNode (nodeDBKey (storePrefix (str "bank")) 5 2)).
  { constructor; unfold int64; lia. }
  split; [exact H|]. exact (proj1 (rootmulti_keys_disjoint _ _ _ 5 H)).
Defined.
