(* ===== verification/Importer.v ===== *)
(** * The stack-based store importer (internal/snapshotimport/importer.go)

    [storeImporter] rebuilds one IAVL store from the post-order stream of its
    nodes, keeping a frame per completed subtree.  The reference is an inductive
    tree with its Merkle hash; the theorems relate the two in both directions. *)

From S2P Require Import Prelude Sha256 Varint IavlEnc.

(** ** State *)

Definition emptyIAVLTreeHash : bytes := sha256 [].

Record frame := mkFrame {
  fr_hash : bytes;
  fr_size : Z;
  fr_version : Z;
  fr_nonce : Z;
  fr_height : Z
}.

(** [stack] is kept top first; the scratch buffers are reused between calls and
    [lastIavlBytes] keeps a copy of the last node emitted. *)
Record storeImporter := mkImporter {
  storeName : bytes;
  si_prefix : bytes;
  nonces : gmap Z Z;
  nonceCacheVersion : Z;
  nonceCacheCounter : Z;
  stack : list frame;
  si_height : Z;
  lastIavlBytes : bytes;
  keyScratch : bytes;
  valueScratch : bytes;
  itemCount : Z;
  leafCount : Z;
  innerCount : Z
}.

Definition newStoreImporter (name : bytes) (height : Z) : storeImporter :=
  mkImporter name (storePrefix name) ∅ 0 0 [] height [] [] [] 0 0 0.

(** Assignments to single fields. *)
Definition set_nonces m cv cc (s : storeImporter) : storeImporter :=
  mkImporter (storeName s) (si_prefix s) m cv cc (stack s) (si_height s) (lastIavlBytes s)
    (keyScratch s) (valueScratch s) (itemCount s) (leafCount s) (innerCount s).
Definition set_stack st (s : storeImporter) : storeImporter :=
  mkImporter (storeName s) (si_prefix s) (nonces s) (nonceCacheVersion s) (nonceCacheCounter s)
    st (si_height s) (lastIavlBytes s) (keyScratch s) (valueScratch s)
    (itemCount s) (leafCount s) (innerCount s).
Definition set_last b (s : storeImporter) : storeImporter :=
  mkImporter (storeName s) (si_prefix s) (nonces s) (nonceCacheVersion s) (nonceCacheCounter s)
    (stack s) (si_height s) b (keyScratch s) (valueScratch s)
    (itemCount s) (leafCount s) (innerCount s).
Definition set_scratch k v (s : storeImporter) : storeImporter :=
  mkImporter (storeName s) (si_prefix s) (nonces s) (nonceCacheVersion s) (nonceCacheCounter s)
    (stack s) (si_height s) (lastIavlBytes s) k v (itemCount s) (leafCount s) (innerCount s).
Definition set_counts i l n (s : storeImporter) : storeImporter :=
  mkImporter (storeName s) (si_prefix s) (nonces s) (nonceCacheVersion s) (nonceCacheCounter s)
    (stack s) (si_height s) (lastIavlBytes s) (keyScratch s) (valueScratch s) i l n.

(** ** Operations *)

Definition nextNonce (version : Z) : M storeImporter Z := fun s =>
  let s1 :=
    if version =? nonceCacheVersion s then s else
    let m := if nonceCacheVersion s =? 0 then nonces s
             else <[nonceCacheVersion s := nonceCacheCounter s]> (nonces s) in
    let cur := default 0 (m !! version) in
    let cur := if cur =? 0 then 1 else cur in
    set_nonces m version cur s in
  let c := u32 (nonceCacheCounter s1 + 1) in
  (Ret c, set_nonces (nonces s1) (nonceCacheVersion s1) c s1).

Definition closesPair (height : Z) (s : storeImporter) : bool :=
  match stack s with
  | top :: below :: _ => (fr_height top <? height) && (fr_height below <? height)
  | _ => false
  end.

Definition topHeights (s : storeImporter) : list Z := map fr_height (take 4 (stack s)).

(** The two callbacks of the importer: [set] is the batch path, [setFast] the
    fast-storage path.  [W] is whatever they write to. *)
Record sink (W : Type) := mkSink {
  set : bytes -> bytes -> M W unit;
  setFast : bytes -> bytes -> M W unit
}.
Arguments mkSink {W}.
Arguments set {W}.
Arguments setFast {W}.

Section Operations.
Context {W : Type} (k : sink W).

Definition imp {A} (m : M storeImporter A) : M (storeImporter * W) A := fun st =>
  let '(r, s') := m (fst st) in (r, (s', snd st)).
Definition out {A} (m : M W A) : M (storeImporter * W) A := fun st =>
  let '(r, w') := m (snd st) in (r, (fst st, w')).

Definition malformed : goerr :=
  Errorf "inner node does not close a sibling pair; malformed snapshot stream".

Definition addLeaf (version : Z) (key value : bytes) : M (storeImporter * W) unit :=
  nonce ← imp (nextNonce version);
  let h := hashLeaf version key value in
  s ← imp get;
  _ ← imp (modify (set_scratch (nodeDBKeyInto [] (si_prefix s) version nonce)
                               (encodeLeafNodeInto [] key value)));
  s ← imp get;
  _ ← out (wrap_err "set leaf node" (set k (keyScratch s) (valueScratch s)));
  _ ← imp (modify (fun s => set_last (valueScratch s) s));
  _ ← imp (modify (fun s => set_scratch (fastDBKeyInto [] (si_prefix s) key)
                                        (encodeFastNodeInto [] version value) s));
  s ← imp get;
  _ ← out (wrap_err "set fast node" (setFast k (keyScratch s) (valueScratch s)));
  _ ← imp (modify (fun s => set_stack (mkFrame h 1 version nonce 0 :: stack s) s));
  imp (modify (fun s => set_counts (itemCount s) (u64 (leafCount s + 1)) (innerCount s) s)).

Definition addInner (height version : Z) (key : bytes) : M (storeImporter * W) unit :=
  s ← imp get;
  if negb (closesPair height s) then fail malformed else
  match stack s with
  | rgt :: lft :: rest =>
      _ ← imp (modify (set_stack rest));
      let size := i64 (fr_size lft + fr_size rgt) in
      nonce ← imp (nextNonce version);
      let h := hashInner version height size (fr_hash lft) (fr_hash rgt) in
      _ ← imp (modify (fun s => set_scratch (nodeDBKeyInto [] (si_prefix s) version nonce)
            (encodeInnerNodeInto [] height size key h (fr_version lft) (fr_nonce lft)
               (fr_version rgt) (fr_nonce rgt)) s));
      s ← imp get;
      _ ← out (wrap_err "set inner node" (set k (keyScratch s) (valueScratch s)));
      _ ← imp (modify (fun s => set_last (valueScratch s) s));
      _ ← imp (modify (fun s => set_stack (mkFrame h size version nonce height :: stack s) s));
      imp (modify (fun s => set_counts (itemCount s) (leafCount s) (u64 (innerCount s + 1)) s))
  | _ => fail malformed
  end.

Definition addNode (height version : Z) (key value : bytes) : M (storeImporter * W) unit :=
  _ ← imp (modify (fun s => set_counts (u64 (itemCount s + 1)) (leafCount s) (innerCount s) s));
  if height =? 0 then addLeaf version key value else addInner height version key.

Definition writeStorageVersionMarker : M (storeImporter * W) unit :=
  s ← imp get;
  let metaVal := fastStorageVersionValue ++ fastStorageVersionDelimiter ++ decimal (si_height s) in
  _ ← imp (modify (fun s => set_scratch (metadataDBKeyInto [] (si_prefix s) (str "storage_version"))
                                        (valueScratch s) s));
  s ← imp get;
  out (wrap_err "set storage_version marker" (set k (keyScratch s) metaVal)).

Definition rootKey (version : Z) : M (storeImporter * W) bytes :=
  _ ← imp (modify (fun s => set_scratch (nodeDBKeyInto [] (si_prefix s) version 1)
                                        (valueScratch s) s));
  s ← imp get;
  mret (keyScratch s).

Definition finalize : M (storeImporter * W) bytes :=
  s ← imp get;
  match stack s with
  | [] =>
      key ← rootKey (si_height s);
      _ ← out (wrap_err "set empty root marker" (set k key []));
      _ ← writeStorageVersionMarker;
      mret emptyIAVLTreeHash
  | [root] =>
      key ← rootKey (fr_version root);
      _ ← out (wrap_err "set canonical root at (rootVersion, 1)" (set k key (lastIavlBytes s)));
      _ ← (if fr_version root =? si_height s then mret tt else
           let redirectVal := str "s" ++ be_bytes 8 (u64 (fr_version root)) ++ be_bytes 4 1 in
           key ← rootKey (si_height s);
           out (wrap_err "set root redirect at (snapshotHeight, 1)" (set k key redirectVal)));
      _ ← writeStorageVersionMarker;
      mret (fr_hash root)
  | _ => fail (Errorf "invalid stream: stack has more than one root")
  end.
End Operations.

(** ** The stream of one store *)

(** An [ExportNode] of the snapshot stream. *)
Record node := mkNode { nd_height : Z; nd_version : Z; nd_key : bytes; nd_value : bytes }.

Fixpoint addNodes {W} (k : sink W) (ns : list node) : M (storeImporter * W) unit :=
  match ns with
  | [] => mret tt
  | n :: r => _ ← addNode k (nd_height n) (nd_version n) (nd_key n) (nd_value n); addNodes k r
  end.

(** ** Reference: IAVL trees with the nonces the importer assigns *)

Inductive tree :=
| Leaf (version nonce : Z) (key value : bytes)
| Inner (height version nonce : Z) (key : bytes) (l r : tree).

Definition tversion (t : tree) : Z :=
  match t with Leaf v _ _ _ | Inner _ v _ _ _ _ => v end.
Definition tnonce (t : tree) : Z :=
  match t with Leaf _ n _ _ | Inner _ _ n _ _ _ => n end.
Definition theight (t : tree) : Z :=
  match t with Leaf _ _ _ _ => 0 | Inner h _ _ _ _ _ => h end.
Fixpoint tleaves (t : tree) : Z :=
  match t with Leaf _ _ _ _ => 1 | Inner _ _ _ _ l r => tleaves l + tleaves r end.
Fixpoint tnodes (t : tree) : nat :=
  match t with Leaf _ _ _ _ => 1%nat | Inner _ _ _ _ l r => S (tnodes l + tnodes r) end.

(** The Merkle hash of the tree, as iavl defines it. *)
Fixpoint thash (t : tree) : bytes :=
  match t with
  | Leaf v _ key value => hashLeaf v key value
  | Inner h v _ _ l r => hashInner v h (tleaves t) (thash l) (thash r)
  end.

(** The bytes stored for the node at the root of [t]. *)
Definition tencode (t : tree) : bytes :=
  match t with
  | Leaf _ _ key value => encodeLeafNode key value
  | Inner h _ _ key l r =>
      encodeInnerNode h (tleaves t) key (thash t) (tversion l) (tnonce l) (tversion r) (tnonce r)
  end.

(** The post-order export of the tree. *)
Definition tnode (t : tree) : node :=
  match t with
  | Leaf v _ key value => mkNode 0 v key value
  | Inner h v _ key _ _ => mkNode h v key []
  end.
Fixpoint subtrees (t : tree) : list tree :=
  match t with
  | Leaf _ _ _ _ => [t]
  | Inner _ _ _ _ l r => subtrees l ++ subtrees r ++ [t]
  end.

Definition frame_of (t : tree) : frame :=
  mkFrame (thash t) (tleaves t) (tversion t) (tnonce t) (theight t).

(** Heights grow towards the root; nothing else is required of a tree. *)
Fixpoint wf_tree (t : tree) : Prop :=
  match t with
  | Leaf _ _ _ _ => True
  | Inner h _ _ _ l r => theight l < h /\ theight r < h /\ wf_tree l /\ wf_tree r
  end.

Lemma tleaves_pos t : 1 <= tleaves t.
Proof. induction t; simpl; lia. Qed.

Lemma wf_height_nonneg t : wf_tree t -> 0 <= theight t.
Proof. induction t; simpl; [lia|]. intros (? & ? & ? & ?). specialize (IHt1 H1). lia. Qed.

Lemma length_subtrees t : length (subtrees t) = tnodes t.
Proof. induction t; simpl; [done|]. rewrite !length_app. simpl. lia. Qed.

Lemma tleaves_le_nodes t : tleaves t <= Z.of_nat (tnodes t).
Proof. induction t; cbn [tleaves tnodes]; lia. Qed.

(** ** What a sink promises the importer

    [view] is the database content the sink stands for.  Writes that are
    accepted show in the view; fast-storage writes are only required to be
    accepted in increasing order of user key ([fast_ok]), as the SSTable writer
    takes them.  [sink_ok] is whatever the sink maintains while a store is open. *)
Definition fast_key (sp key : bytes) : Prop := exists u, key = fastDBKeyInto [] sp u.

(** The other keys of the store. *)
Definition slow_key (sp key : bytes) : Prop := (exists r, key = sp ++ r) /\ ~ fast_key sp key.

Class ImportSink {W} (k : sink W) (sp : bytes) := {
  view : W -> gmap bytes bytes;
  sink_ok : W -> Prop;
  fast_ok : W -> bytes -> Prop;
  set_sound key v w w' : sink_ok w -> slow_key sp key -> set k key v w = (Ret tt, w') ->
    sink_ok w' /\ view w' = <[key := v]> (view w) /\ (forall u, fast_ok w u -> fast_ok w' u);
  set_live key v w : sink_ok w -> slow_key sp key -> exists w', set k key v w = (Ret tt, w');
  fast_sound u v w w' : sink_ok w -> setFast k (fastDBKeyInto [] sp u) v w = (Ret tt, w') ->
    sink_ok w' /\ view w' = <[fastDBKeyInto [] sp u := v]> (view w) /\
    (forall u', bytes_ltb u u' = true -> fast_ok w' u');
  fast_live u v w : sink_ok w -> fast_ok w u -> exists w', setFast k (fastDBKeyInto [] sp u) v w = (Ret tt, w')
}.

Lemma node_key_not_fast sp v n : ~ fast_key sp (nodeDBKey sp v n).
Proof.
  intros [u E]. unfold nodeDBKey, nodeDBKeyInto, fastDBKeyInto in E. rewrite !app_nil_l in E.
  by apply app_inv_head in E.
Qed.

Lemma meta_key_not_fast sp m : ~ fast_key sp (metadataDBKeyInto [] sp m).
Proof.
  intros [u E]. unfold metadataDBKeyInto, fastDBKeyInto in E. rewrite !app_nil_l in E.
  by apply app_inv_head in E.
Qed.
#[export] Hint Resolve node_key_not_fast meta_key_not_fast : core.

Lemma node_key_slow sp v n : slow_key sp (nodeDBKey sp v n).
Proof. split; [|apply node_key_not_fast]. unfold nodeDBKey, nodeDBKeyInto. rewrite app_nil_l. by eexists. Qed.

Lemma meta_key_slow sp m : slow_key sp (metadataDBKeyInto [] sp m).
Proof. split; [|apply meta_key_not_fast]. unfold metadataDBKeyInto. rewrite app_nil_l. by eexists. Qed.

(** The plain in-memory sink: every write goes to the map at once. *)
Definition map_sink : sink (gmap bytes bytes) :=
  mkSink (fun key v m => (Ret tt, <[key := v]> m)) (fun key v m => (Ret tt, <[key := v]> m)).

#[export] Program Instance map_ImportSink sp : ImportSink map_sink sp :=
  {| view := id; sink_ok := fun _ => True; fast_ok := fun _ _ => True |}.
Next Obligation. intros sp key v w w' _ _ [= <-]. done. Qed.
Next Obligation. intros. by eexists. Qed.
Next Obligation. intros sp u v w w' _ [= <-]. done. Qed.
Next Obligation. intros. by eexists. Qed.

(** ** Runs of the operations *)

Section Runs.
Context {W : Type} (k : sink W).
Implicit Types (s : storeImporter) (w : W).

Definition leaf_done v n key value s1 :=
  set_counts (itemCount s1) (u64 (leafCount s1 + 1)) (innerCount s1)
    (set_stack (mkFrame (hashLeaf v key value) 1 v n 0 :: stack s1)
      (set_scratch (fastDBKeyInto [] (si_prefix s1) key) (encodeFastNodeInto [] v value)
        (set_last (encodeLeafNode key value)
          (set_scratch (nodeDBKey (si_prefix s1) v n) (encodeLeafNode key value) s1)))).

Lemma addLeaf_ret v key value s w n s1 :
  nextNonce v s = (Ret n, s1) ->
  forall s' w',
  addLeaf k v key value (s, w) = (Ret tt, (s', w')) <->
  exists w1, set k (nodeDBKey (si_prefix s1) v n) (encodeLeafNode key value) w = (Ret tt, w1) /\
    setFast k (fastDBKeyInto [] (si_prefix s1) key) (encodeFastNodeInto [] v value) w1 = (Ret tt, w') /\
    s' = leaf_done v n key value s1.
Proof.
  intros Hn s' w'. unfold addLeaf, imp, out, get, modify, wrap_err, mbind, M_bind, mret, M_ret.
  cbn [fst snd]. rewrite Hn. cbn [fst snd].
  change (keyScratch (set_scratch ?a ?b ?c)) with a. change (valueScratch (set_scratch ?a ?b ?c)) with b.
  change (encodeLeafNodeInto [] key value) with (encodeLeafNode key value).
  change (nodeDBKeyInto [] ?a v n) with (nodeDBKey a v n).
  destruct (set k _ _ w) as [[[]| | |] w1] eqn:E1;
    [|split; [done|]; intros (? & ? & ?); congruence..].
  cbn [fst snd].
  change (valueScratch (set_last ?a ?b)) with (valueScratch b).
  change (keyScratch (set_scratch ?a ?b ?c)) with a. change (valueScratch (set_scratch ?a ?b ?c)) with b.
  change (si_prefix (set_last ?a ?b)) with (si_prefix b). change (si_prefix (set_scratch ?a ?b ?c)) with (si_prefix c).
  destruct (setFast k _ _ w1) as [[[]| | |] w2] eqn:E2;
    [|split; [done|]; intros (? & ? & ? & ?); congruence..].
  cbn [fst snd]. split.
  - intros [= <- <-]. eauto.
  - intros (w1' & ? & ? & ->). simplify_eq. by rewrite E2 in *; simplify_eq.
Qed.

Definition inner_size (lft rgt : frame) : Z := i64 (fr_size lft + fr_size rgt).
Definition inner_hash h v lft rgt : bytes :=
  hashInner v h (inner_size lft rgt) (fr_hash lft) (fr_hash rgt).
Definition inner_bytes h v key lft rgt : bytes :=
  encodeInnerNode h (inner_size lft rgt) key (inner_hash h v lft rgt)
    (fr_version lft) (fr_nonce lft) (fr_version rgt) (fr_nonce rgt).

Definition inner_done h v n key lft rgt s1 :=
  set_counts (itemCount s1) (leafCount s1) (u64 (innerCount s1 + 1))
    (set_stack (mkFrame (inner_hash h v lft rgt) (inner_size lft rgt) v n h :: stack s1)
      (set_last (inner_bytes h v key lft rgt)
        (set_scratch (nodeDBKey (si_prefix s1) v n) (inner_bytes h v key lft rgt) s1))).

Lemma addInner_ret h v key s w rgt lft rest n s1 :
  stack s = rgt :: lft :: rest -> fr_height rgt < h -> fr_height lft < h ->
  nextNonce v (set_stack rest s) = (Ret n, s1) ->
  forall s' w',
  addInner k h v key (s, w) = (Ret tt, (s', w')) <->
  set k (nodeDBKey (si_prefix s1) v n) (inner_bytes h v key lft rgt) w = (Ret tt, w') /\
  s' = inner_done h v n key lft rgt s1.
Proof.
  intros Hst Hr Hl Hn s' w'.
  unfold addInner, imp, out, get, modify, wrap_err, mbind, M_bind, mret, M_ret.
  cbn [fst snd]. unfold closesPair. rewrite Hst.
  rewrite (proj2 (Z.ltb_lt _ _) Hr), (proj2 (Z.ltb_lt _ _) Hl). cbn [andb negb fst snd].
  rewrite Hn. cbn [fst snd].
  change (keyScratch (set_scratch ?a ?b ?c)) with a. change (valueScratch (set_scratch ?a ?b ?c)) with b.
  fold (inner_size lft rgt). fold (inner_hash h v lft rgt).
  change (encodeInnerNodeInto [] ?a ?b ?c ?d ?e ?f ?g ?i) with (encodeInnerNode a b c d e f g i).
  fold (inner_bytes h v key lft rgt). change (nodeDBKeyInto [] ?a v n) with (nodeDBKey a v n).
  destruct (set k _ _ w) as [[[]| | |] w1] eqn:E1; [|split; [done|]; intros (? & ?); congruence..].
  cbn [fst snd]. split.
  - intros [= <- <-]. done.
  - intros [? ->]. by simplify_eq.
Qed.

Lemma addInner_malformed h v key s w :
  closesPair h s = false -> addInner k h v key (s, w) = (Err malformed, (s, w)).
Proof. intros H. unfold addInner, imp, get, mbind, M_bind. cbn [fst snd]. by rewrite H. Qed.

Lemma nextNonce_shape v s :
  exists n m cv, nextNonce v s = (Ret n, set_nonces m cv n s).
Proof. unfold nextNonce. destruct (v =? nonceCacheVersion s); repeat eexists. Qed.
End Runs.

(** The counter does not look at the other fields. *)
Lemma nextNonce_set_counts v a b c s n s' :
  nextNonce v s = (n, s') -> nextNonce v (set_counts a b c s) = (n, set_counts a b c s').
Proof. unfold nextNonce. simpl. destruct (v =? nonceCacheVersion s); by intros [= <- <-]. Qed.

Lemma nextNonce_set_stack v st s n s' :
  nextNonce v s = (n, s') -> nextNonce v (set_stack st s) = (n, set_stack st s').
Proof. unfold nextNonce. simpl. destruct (v =? nonceCacheVersion s); by intros [= <- <-]. Qed.

(** ** Nonces *)

(** The counter the cached representation stands for: the last nonce handed out
    at a version, 1 before the first. *)
Definition ctr (s : storeImporter) (v : Z) : Z :=
  if v =? nonceCacheVersion s then nonceCacheCounter s
  else let c := default 0 (nonces s !! v) in if c =? 0 then 1 else c.

Definition occurrences (v : Z) (hist : list Z) : Z := Z.of_nat (count_occ Z.eq_dec hist v).

(** [hist] lists the versions of the nodes added so far. *)
Definition nonce_inv (s : storeImporter) (hist : list Z) : Prop :=
  forall v, v <> 0 -> ctr s v = 1 + occurrences v hist.

Lemma occurrences_nonneg v hist : 0 <= occurrences v hist.
Proof. unfold occurrences. lia. Qed.

Lemma occurrences_le v hist : occurrences v hist <= len hist.
Proof. unfold occurrences, len. pose proof (count_occ_bound Z.eq_dec v hist). lia. Qed.

Lemma occurrences_snoc v u hist :
  occurrences v (u :: hist) = occurrences v hist + (if Z.eq_dec u v then 1 else 0).
Proof. unfold occurrences. simpl. destruct (Z.eq_dec u v); lia. Qed.

(** The single-version cache in front of the map is invisible: the nonces handed
    out at a version are 2, 3, 4, ... in order of request, whatever requests at
    other versions come in between. *)
Lemma nextNonce_spec v s hist :
  nonce_inv s hist -> v <> 0 -> len hist + 2 < 2 ^ 32 ->
  exists m cv, nextNonce v s = (Ret (2 + occurrences v hist), set_nonces m cv (2 + occurrences v hist) s) /\
    nonce_inv (set_nonces m cv (2 + occurrences v hist) s) (v :: hist).
Proof.
  intros Hinv Hv Hb. pose proof (Hinv v Hv) as Hc. unfold ctr in Hc.
  pose proof (occurrences_le v hist). pose proof (occurrences_nonneg v hist).
  unfold nextNonce. destruct (Z.eqb_spec v (nonceCacheVersion s)) as [E|E].
  - exists (nonces s), (nonceCacheVersion s). rewrite Hc, u32_small by lia.
    replace (1 + occurrences v hist + 1) with (2 + occurrences v hist) by lia. split; [done|].
    intros u Hu. pose proof (Hinv u Hu) as Hcu. unfold ctr in *.
    cbn [nonces nonceCacheVersion nonceCacheCounter set_nonces] in *; cbv zeta in *.
    rewrite occurrences_snoc. destruct (Z.eqb_spec u (nonceCacheVersion s)), (Z.eq_dec v u); lia.
  - set (m := if nonceCacheVersion s =? 0 then _ else _). exists m, v.
    assert (Hm : default 0 (m !! v) = default 0 (nonces s !! v)).
    { subst m. destruct (nonceCacheVersion s =? 0); [done|]. by rewrite lookup_insert_ne by congruence. }
    rewrite Hm. cbn [nonceCacheCounter nonceCacheVersion nonces set_nonces].
    rewrite Hc, u32_small by lia.
    replace (1 + occurrences v hist + 1) with (2 + occurrences v hist) by lia. split; [done|].
    intros u Hu. pose proof (Hinv u Hu) as Hcu. unfold ctr in *.
    cbn [nonces nonceCacheVersion nonceCacheCounter set_nonces] in *; cbv zeta in *.
    rewrite occurrences_snoc. destruct (Z.eq_dec v u) as [->|Hne].
    + rewrite Z.eqb_refl. lia.
    + destruct (Z.eqb_spec u v); [congruence|]. subst m.
      destruct (Z.eqb_spec (nonceCacheVersion s) 0) as [E0|E0].
      { destruct (Z.eqb_spec u (nonceCacheVersion s)); [congruence|]. lia. }
      destruct (Z.eqb_spec u (nonceCacheVersion s)) as [->|Hu'].
      * rewrite lookup_insert_eq. change (default 0 (Some ?x)) with x. rewrite Hcu.
        pose proof (occurrences_nonneg (nonceCacheVersion s) hist).
        destruct (Z.eqb_spec (1 + occurrences (nonceCacheVersion s) hist) 0); lia.
      * rewrite lookup_insert_ne by congruence. lia.
Qed.

(** ** The invariant of a run *)

(** The nodes of a forest (top tree first) in the order they were added. *)
Definition subs (forest : list tree) : list tree := concat (map subtrees (rev forest)).

Lemma subs_cons t f : subs (t :: f) = subs f ++ subtrees t.
Proof. unfold subs. simpl. rewrite map_app, concat_app. simpl. by rewrite app_nil_r. Qed.

Lemma subs_leaf f v n key value :
  subs (Leaf v n key value :: f) = subs f ++ [Leaf v n key value].
Proof. apply subs_cons. Qed.

Lemma subs_inner f h v n key l r :
  subs (Inner h v n key l r :: f) = subs (r :: l :: f) ++ [Inner h v n key l r].
Proof. rewrite !subs_cons. simpl. by rewrite !app_assoc. Qed.

(** The stream item a tree node was built from; an inner item's value is ignored. *)
Definition node_of (n : node) (t : tree) : Prop :=
  match t with
  | Leaf v _ key value => n = mkNode 0 v key value
  | Inner h v _ key _ _ => nd_height n = h /\ nd_version n = v /\ nd_key n = key
  end.

Definition node_writes (sp : bytes) (t : tree) : list (bytes * bytes) :=
  (nodeDBKey sp (tversion t) (tnonce t), tencode t) ::
  match t with
  | Leaf v _ key value => [(fastDBKeyInto [] sp key, encodeFastNodeInto [] v value)]
  | Inner _ _ _ _ _ _ => []
  end.

Definition apply_writes (ws : list (bytes * bytes)) (m : gmap bytes bytes) : gmap bytes bytes :=
  fold_left (fun m kv => <[fst kv := snd kv]> m) ws m.

Definition stored (sp : bytes) (ts : list tree) (m : gmap bytes bytes) : gmap bytes bytes :=
  apply_writes (concat (map (node_writes sp) ts)) m.

Lemma apply_writes_app a b m : apply_writes (a ++ b) m = apply_writes b (apply_writes a m).
Proof. apply fold_left_app. Qed.

Lemma stored_snoc sp ts t m : stored sp (ts ++ [t]) m = apply_writes (node_writes sp t) (stored sp ts m).
Proof. unfold stored. rewrite map_app, concat_app, apply_writes_app. simpl. by rewrite app_nil_r. Qed.

(** Nonces are assigned per version in order of arrival, from 2 up. *)
Definition nonced (ts : list tree) : Prop :=
  forall i t, ts !! i = Some t ->
    tnonce t = 2 + occurrences (tversion t) (map tversion (take i ts)).

Lemma nonced_snoc ts t :
  nonced ts -> tnonce t = 2 + occurrences (tversion t) (map tversion ts) -> nonced (ts ++ [t]).
Proof.
  intros H Ht i u Hi. apply lookup_app_Some in Hi as [Hi|[Hge Hi]].
  - rewrite take_app_le; [by apply H|]. apply lookup_lt_Some in Hi. lia.
  - apply list_lookup_singleton_Some in Hi as [Hz ->].
    replace i with (length ts) by lia. by rewrite take_app_length.
Qed.

Lemma nonce_inv_perm s l l' : l ≡ₚ l' -> nonce_inv s l -> nonce_inv s l'.
Proof.
  intros Hp H v Hv. rewrite (H v Hv). unfold occurrences.
  by rewrite (Permutation_count_occ Z.eq_dec l l') in Hp; rewrite Hp.
Qed.

Definition is_leaf (t : tree) : bool := match t with Leaf _ _ _ _ => true | _ => false end.

Section Invariant.
Context {W : Type} (k : sink W) (sp : bytes) `{SL : !ImportSink k sp}.
Context (w0 : W) (h0 : Z).

Record run_inv (s : storeImporter) (w : W) (ns : list node) (forest : list tree) : Prop := {
  inv_stack : stack s = map frame_of forest;
  inv_prefix : si_prefix s = sp;
  inv_name : storePrefix (storeName s) = sp;
  inv_height : si_height s = h0;
  inv_wf : Forall wf_tree forest;
  inv_nodes : Forall2 node_of ns (subs forest);
  inv_nonced : nonced (subs forest);
  inv_ctr : nonce_inv s (map tversion (subs forest));
  inv_last : lastIavlBytes s = from_option tencode [] (last (subs forest));
  inv_sink : sink_ok w;
  inv_view : view w = stored sp (subs forest) (view w0);
  inv_items : itemCount s = len ns;
  inv_leaves : leafCount s = len (filter (fun t => is_leaf t = true) (subs forest));
  inv_inner : innerCount s = len (filter (fun t => is_leaf t = false) (subs forest))
}.

Lemma run_inv_length s w ns forest : run_inv s w ns forest -> length (subs forest) = length ns.
Proof using Type. intros H. symmetry. eapply Forall2_length, inv_nodes, H. Qed.

Lemma run_inv_init name :
  sp = storePrefix name -> sink_ok w0 -> run_inv (newStoreImporter name h0) w0 [] [].
Proof using Type.
  intros Hsp Hok. split; try done; try (by symmetry); try (by constructor).
  intros v Hv; unfold ctr; simpl; (destruct (Z.eqb_spec v 0); [done|]); by rewrite lookup_empty.
Qed.

Lemma leaves_bound forest : Forall wf_tree forest ->
  forall t, t ∈ forest -> tleaves t <= Z.of_nat (length (subs forest)).
Proof using Type.
  intros _. induction forest as [|u f IH]; intros t Ht; [by apply elem_of_nil in Ht|].
  rewrite subs_cons, length_app, length_subtrees. pose proof (tleaves_le_nodes t).
  apply elem_of_cons in Ht as [->|Ht]; [lia|]. specialize (IH t Ht). lia.
Qed.

(** The parts of a step that leaves and inner nodes share. *)
Lemma nonce_step s ns forest w v :
  run_inv s w ns forest -> v <> 0 -> len ns + 2 < 2 ^ 32 ->
  exists m cv, nextNonce v s =
      (Ret (2 + occurrences v (map tversion (subs forest))),
       set_nonces m cv (2 + occurrences v (map tversion (subs forest))) s) /\
    nonce_inv (set_nonces m cv (2 + occurrences v (map tversion (subs forest))) s)
      (map tversion (subs forest) ++ [v]).
Proof using Type.
  intros H Hv Hb. destruct (nextNonce_spec v s (map tversion (subs forest))) as (m & cv & E & HI).
  - apply H.
  - done.
  - unfold len in *. rewrite length_map, (run_inv_length _ _ _ _ H). lia.
  - exists m, cv. split; [done|]. eapply nonce_inv_perm; [|exact HI]. by rewrite Permutation_cons_append.
Qed.
Lemma last_snoc_tree (ts : list tree) t : from_option tencode [] (last (ts ++ [t])) = tencode t.
Proof using Type. by rewrite last_snoc. Qed.

Lemma len_filter_snoc (P : tree -> Prop) `{!forall t, Decision (P t)} ts t :
  len (filter P (ts ++ [t])) = len (filter P ts) + (if decide (P t) then 1 else 0).
Proof using Type.
  rewrite filter_app, len_app. f_equal. rewrite filter_cons. by case_decide.
Qed.

(** What both kinds of step establish about the forest. *)
Lemma run_inv_push s w ns forest n t forest' s' w' :
  run_inv s w ns forest -> len ns + 3 < 2 ^ 32 ->
  subs forest' = subs forest ++ [t] -> Forall wf_tree forest' -> node_of n t ->
  tnonce t = 2 + occurrences (tversion t) (map tversion (subs forest)) ->
  nonce_inv s' (map tversion (subs forest) ++ [tversion t]) ->
  stack s' = map frame_of forest' -> si_prefix s' = sp -> storePrefix (storeName s') = sp -> si_height s' = h0 ->
  lastIavlBytes s' = tencode t -> sink_ok w' ->
  view w' = apply_writes (node_writes sp t) (view w) ->
  itemCount s' = u64 (itemCount s + 1) ->
  leafCount s' = (if is_leaf t then u64 (leafCount s + 1) else leafCount s) ->
  innerCount s' = (if is_leaf t then innerCount s else u64 (innerCount s + 1)) ->
  run_inv s' w' (ns ++ [n]) forest'.
Proof using Type.
  intros H Hb Hsubs Hwf Hn Hnonce Hctr Hst Hpre Hname Hh Hlast Hsink Hview Hi Hl Hin.
  pose proof (run_inv_length _ _ _ _ H) as Hlen.
  assert (Hfl : forall P `{!forall t, Decision (P t)}, 0 <= len (filter P (subs forest)) <= len ns).
  { intros P dec. unfold len. rewrite <- Hlen. pose proof (length_filter P (subs forest)). lia. }
  pose proof (Hfl (fun t => is_leaf t = true) _). pose proof (Hfl (fun t => is_leaf t = false) _).
  split; try done; rewrite ?Hsubs.
  - apply Forall2_app; [apply H|by constructor].
  - apply nonced_snoc; [apply H|done].
  - by rewrite map_app.
  - by rewrite last_snoc_tree.
  - by rewrite stored_snoc, Hview, (inv_view _ _ _ _ H).
  - rewrite Hi, (inv_items _ _ _ _ H), u64_small, len_app by (pose proof (len_nonneg ns); lia). done.
  - rewrite len_filter_snoc, Hl, (inv_leaves _ _ _ _ H). destruct (is_leaf t); simpl; [|lia].
    apply u64_small. lia.
  - rewrite len_filter_snoc, Hin, (inv_inner _ _ _ _ H). destruct (is_leaf t); simpl; [lia|].
    apply u64_small. lia.
Qed.

Lemma addNode_leaf_inv s w ns forest v key value s' w' :
  run_inv s w ns forest -> len ns + 3 < 2 ^ 32 -> v <> 0 ->
  addNode k 0 v key value (s, w) = (Ret tt, (s', w')) ->
  let n := 2 + occurrences v (map tversion (subs forest)) in
  run_inv s' w' (ns ++ [mkNode 0 v key value]) (Leaf v n key value :: forest) /\
  (forall u, bytes_ltb key u = true -> fast_ok w' u).
Proof using SL.
  intros H Hb Hv Hrun n. unfold addNode, imp at 1, modify, mbind, M_bind in Hrun. cbn in Hrun.
  destruct (nonce_step s ns forest w v H Hv ltac:(lia)) as (m & cv & En & Hctr). fold n in En, Hctr.
  eapply addLeaf_ret in Hrun as (w1 & E1 & E2 & ->); [|apply nextNonce_set_counts, En].
  cbn in E1, E2. rewrite (inv_prefix _ _ _ _ H) in *.
  apply set_sound in E1 as (Hs1 & Hv1 & _); [|apply H|apply node_key_slow].
  apply fast_sound in E2 as (Hs2 & Hv2 & Hok); [|done]. split; [|done].
  apply run_inv_push with (t := Leaf v n key value) (s := s) (w := w) (forest := forest); try done.
  - apply subs_leaf.
  - constructor; [done|apply H].
  - cbn. by rewrite (inv_stack _ _ _ _ H).
  - apply H.
  - apply H.
  - apply H.
  - unfold node_writes, apply_writes. cbn [fold_left fst snd tversion tnonce tencode].
    by rewrite Hv2, Hv1.
Qed.

Lemma addNode_inner_inv s w ns forest h v key value s' w' :
  run_inv s w ns forest -> len ns + 3 < 2 ^ 32 -> v <> 0 -> h <> 0 ->
  addNode k h v key value (s, w) = (Ret tt, (s', w')) ->
  exists l r f, forest = r :: l :: f /\ theight l < h /\ theight r < h /\
    run_inv s' w' (ns ++ [mkNode h v key value])
      (Inner h v (2 + occurrences v (map tversion (subs forest))) key l r :: f) /\
    (forall u, fast_ok w u -> fast_ok w' u).
Proof using SL.
  intros H Hb Hv Hh Hrun. unfold addNode, imp at 1, modify, mbind, M_bind in Hrun. cbn in Hrun.
  rewrite (proj2 (Z.eqb_neq _ _) Hh) in Hrun.
  destruct (nonce_step s ns forest w v H Hv ltac:(lia)) as (m & cv & En & Hctr).
  set (n := 2 + occurrences v (map tversion (subs forest))) in *.
  set (s1 := set_counts _ _ _ _) in Hrun.
  destruct (closesPair h s1) eqn:Hcp; [|by rewrite addInner_malformed in Hrun].
  unfold closesPair in Hcp. subst s1. cbn [stack set_counts] in Hcp. rewrite (inv_stack _ _ _ _ H) in Hcp.
  destruct forest as [|r [|l f]]; cbn [map] in Hcp; try done.
  apply andb_prop in Hcp as [Hr%Z.ltb_lt Hl%Z.ltb_lt]. exists l, r, f. split; [done|]. split; [done|]. split; [done|].
  eapply addInner_ret in Hrun as [E1 ->];
    [|cbn; rewrite (inv_stack _ _ _ _ H); reflexivity|done|done
     |apply nextNonce_set_stack, nextNonce_set_counts, En].
  cbn in E1. rewrite (inv_prefix _ _ _ _ H) in E1.
  apply set_sound in E1 as (Hs1 & Hv1 & Hok); [|apply H|apply node_key_slow]. split; [|done].
  pose proof (run_inv_length _ _ _ _ H) as Hlen.
  assert (Hsz : inner_size (frame_of l) (frame_of r) = tleaves l + tleaves r).
  { apply i64_small. cbn. pose proof (tleaves_pos l). pose proof (tleaves_pos r).
    rewrite !subs_cons, !length_app, !length_subtrees in Hlen.
    pose proof (tleaves_le_nodes l). pose proof (tleaves_le_nodes r). unfold len in Hb. lia. }
  assert (Hbytes : inner_bytes h v key (frame_of l) (frame_of r) = tencode (Inner h v n key l r)).
  { unfold inner_bytes, inner_hash. by rewrite Hsz. }
  pose proof (inv_wf _ _ _ _ H) as Hwf. inversion Hwf as [|? ? Hwr Hwf']; subst.
  inversion Hwf' as [|? ? Hwl Hwf'']; subst.
  apply run_inv_push with (t := Inner h v n key l r) (s := s) (w := w) (forest := r :: l :: f); try done.
  - apply subs_inner.
  - by constructor.
  - cbn. unfold inner_hash. by rewrite Hsz.
  - apply H.
  - apply H.
  - apply H.
  - unfold node_writes, apply_writes. cbn [fold_left fst snd tversion tnonce].
    rewrite Hv1. by rewrite <- Hbytes.
Qed.

(** ** Soundness: what is accepted is the post-order of a forest *)

Lemma addNode_inv s w ns forest n s' w' :
  run_inv s w ns forest -> len ns + 3 < 2 ^ 32 -> nd_version n <> 0 ->
  addNode k (nd_height n) (nd_version n) (nd_key n) (nd_value n) (s, w) = (Ret tt, (s', w')) ->
  exists forest', run_inv s' w' (ns ++ [n]) forest'.
Proof using SL.
  destruct n as [h v key value]. cbn. intros H Hb Hv Hrun.
  destruct (Z.eq_dec h 0) as [->|Hh].
  - eapply addNode_leaf_inv in Hrun as [Hrun _]; [eauto|done..].
  - eapply addNode_inner_inv in Hrun as (l & r & f & _ & _ & _ & Hrun & _); [eauto|done..].
Qed.

Lemma addNodes_inv ns : forall s w done_ns forest s' w',
  run_inv s w done_ns forest -> len done_ns + len ns + 2 < 2 ^ 32 ->
  Forall (fun n => nd_version n <> 0) ns ->
  addNodes k ns (s, w) = (Ret tt, (s', w')) ->
  exists forest', run_inv s' w' (done_ns ++ ns) forest'.
Proof using SL.
  induction ns as [|n ns IH]; intros s w done_ns forest s' w' H Hb Hv Hrun.
  - injection Hrun as <- <-. rewrite app_nil_r. eauto.
  - inversion Hv as [|? ? Hvn Hvs]; subst. rewrite len_cons in Hb. pose proof (len_nonneg ns).
    cbn [addNodes] in Hrun. unfold mbind, M_bind in Hrun.
    destruct (addNode _ _ _ _ _ (s, w)) as [[[]| | |] [s1 w1]] eqn:E; try done.
    destruct (addNode_inv s w done_ns forest n s1 w1 H ltac:(lia) Hvn E) as [f1 H1].
    rewrite cons_middle, app_assoc. eapply IH; [exact H1|len_simpl; lia|done|exact Hrun].
Qed.

(** ** Completeness: the export of a tree is accepted *)

Definition sorted_keys : list bytes -> Prop := StronglySorted (fun a b => bytes_ltb a b = true).
End Invariant.

Fixpoint erase (t : tree) : tree :=
  match t with
  | Leaf v _ key value => Leaf v 0 key value
  | Inner h v _ key l r => Inner h v 0 key (erase l) (erase r)
  end.

Fixpoint leaf_keys (t : tree) : list bytes :=
  match t with
  | Leaf _ _ key _ => [key]
  | Inner _ _ _ _ l r => leaf_keys l ++ leaf_keys r
  end.

Lemma erase_leaves t : tleaves (erase t) = tleaves t.
Proof. induction t; simpl; lia. Qed.
Lemma erase_hash t : thash (erase t) = thash t.
Proof. induction t; simpl; [done|]. by rewrite IHt1, IHt2, !erase_leaves. Qed.
Lemma erase_height t : theight (erase t) = theight t.
Proof. by destruct t. Qed.
Lemma erase_version t : tversion (erase t) = tversion t.
Proof. by destruct t. Qed.

(** Nonces do not enter the hash. *)
Lemma erase_eq_hash t u : erase t = erase u -> thash t = thash u.
Proof. intros H. by rewrite <- (erase_hash t), H, erase_hash. Qed.
Lemma erase_eq_height t u : erase t = erase u -> theight t = theight u.
Proof. intros H. by rewrite <- (erase_height t), H, erase_height. Qed.
Lemma erase_eq_version t u : erase t = erase u -> tversion t = tversion u.
Proof. intros H. by rewrite <- (erase_version t), H, erase_version. Qed.

Lemma leaf_keys_nonempty t : exists x, x ∈ leaf_keys t.
Proof.
  induction t as [v n key value|h v n key l [x Hx] r _]; simpl.
  - exists key. by apply list_elem_of_singleton.
  - exists x. apply elem_of_app. by left.
Qed.

Lemma addNodes_app {W} (k : sink W) a b st :
  addNodes k (a ++ b) st =
  match addNodes k a st with
  | (Ret tt, st') => addNodes k b st'
  | r => r
  end.
Proof.
  revert st. induction a as [|n a IH]; intros st; [done|]. cbn [app addNodes].
  unfold mbind, M_bind. destruct (addNode _ _ _ _ _ st) as [[[]| | |] st1]; [apply IH|done..].
Qed.

Section Completeness.
Context {W : Type} (k : sink W) (sp : bytes) `{SL : !ImportSink k sp}.
Context (w0 : W) (h0 : Z).
Abbreviation inv := (run_inv k sp w0 h0).

Lemma addNode_leaf_live s w ns forest v key value :
  inv s w ns forest -> len ns + 3 < 2 ^ 32 -> v <> 0 -> fast_ok w key ->
  exists s' w', addNode k 0 v key value (s, w) = (Ret tt, (s', w')).
Proof using SL.
  intros H Hb Hv Hok. unfold addNode, imp at 1, modify, mbind, M_bind. cbn.
  destruct (nextNonce_shape v (set_counts (u64 (itemCount s + 1)) (leafCount s) (innerCount s) s))
    as (n & m & cv & En).
  pose proof (inv_sink _ _ _ _ _ _ _ _ H) as Hs.
  destruct (set_live (nodeDBKey sp v n) (encodeLeafNode key value) w Hs (node_key_slow sp v n)) as [w1 E1].
  pose proof (set_sound _ _ _ _ Hs (node_key_slow sp v n) E1) as (Hs1 & _ & Hok').
  destruct (fast_live key (encodeFastNodeInto [] v value) w1 Hs1 (Hok' _ Hok)) as [w2 E2].
  eexists _, w2. eapply addLeaf_ret; [exact En|]. exists w1. cbn. rewrite (inv_prefix _ _ _ _ _ _ _ _ H). eauto.
Qed.

Lemma addNode_inner_live s w ns r l f h v key value :
  inv s w ns (r :: l :: f) -> v <> 0 -> h <> 0 -> theight l < h -> theight r < h ->
  exists s' w', addNode k h v key value (s, w) = (Ret tt, (s', w')).
Proof using SL.
  intros H Hv Hh Hl Hr. unfold addNode, imp at 1, modify, mbind, M_bind. cbn.
  rewrite (proj2 (Z.eqb_neq _ _) Hh). set (s1 := set_counts _ _ _ s).
  destruct (nextNonce_shape v (set_stack (map frame_of f) s1)) as (n & m & cv & En).
  destruct (set_live (nodeDBKey sp v n) (inner_bytes h v key (frame_of l) (frame_of r)) w
    (inv_sink _ _ _ _ _ _ _ _ H) (node_key_slow sp v n)) as [w1 E1].
  assert (Hst : stack s1 = frame_of r :: frame_of l :: map frame_of f)
    by exact (inv_stack _ _ _ _ _ _ _ _ H).
  pose proof (addInner_ret k h v key s1 w _ _ _ _ _ Hst Hr Hl En) as Hret.
  eexists _, w1. apply Hret. cbn. by rewrite (inv_prefix _ _ _ _ _ _ _ _ H).
Qed.

(** Feeding the export of a tree pushes that tree, with nonces of its own. *)
Lemma addNodes_tree t : forall s w ns forest,
  inv s w ns forest -> wf_tree t -> len ns + Z.of_nat (tnodes t) + 2 < 2 ^ 32 ->
  Forall (fun u => tversion u <> 0) (subtrees t) -> sorted_keys (leaf_keys t) ->
  (forall u, u ∈ leaf_keys t -> fast_ok w u) ->
  exists s' w' t', addNodes k (map tnode (subtrees t)) (s, w) = (Ret tt, (s', w')) /\
    inv s' w' (ns ++ map tnode (subtrees t)) (t' :: forest) /\ erase t' = erase t /\
    (forall u, (forall x, x ∈ leaf_keys t -> bytes_ltb x u = true) -> fast_ok w' u).
Proof using SL.
  induction t as [v n key value|h v n key l IHl r IHr]; intros s w ns forest H Hwf Hb Hv Hsort Hok.
  - cbn [subtrees map tnode addNodes]. inversion Hv as [|? ? Hv0 _]; subst. cbn in Hv0, Hb.
    destruct (addNode_leaf_live s w ns forest v key value H ltac:(lia) Hv0) as (s' & w' & E).
    { apply Hok. by apply list_elem_of_singleton. }
    destruct (addNode_leaf_inv k sp w0 h0 s w ns forest v key value s' w' H ltac:(lia) Hv0 E) as [H' Hok'].
    exists s', w', (Leaf v (2 + occurrences v (map tversion (subs forest))) key value).
    unfold mbind, M_bind. cbn [nd_height nd_version nd_key nd_value]. rewrite E. split_and!; try done.
    intros u Hu. apply Hok', Hu. by apply list_elem_of_singleton.
  - cbn [subtrees] in Hv |- *. rewrite !map_app, !addNodes_app. cbn [wf_tree tnodes leaf_keys] in *.
    destruct Hwf as (Hl & Hr & Hwl & Hwr).
    apply Forall_app in Hv as [Hvl Hv]. apply Forall_app in Hv as [Hvr Hv].
    inversion Hv as [|? ? Hv0 _]; subst. cbn in Hv0.
    apply StronglySorted_app in Hsort as (Hlr & Hsl & Hsr).
    destruct (IHl s w ns forest H Hwl ltac:(lia) Hvl Hsl) as (s1 & w1 & l' & E1 & H1 & El & Hok1).
    { intros u Hu. apply Hok, elem_of_app. by left. }
    rewrite E1.
    destruct (IHr s1 w1 _ _ H1 Hwr) as (s2 & w2 & r' & E2 & H2 & Er & Hok2); try done.
    { rewrite len_app, len_map. unfold len at 2. rewrite length_subtrees. lia. }
    { intros u Hu. apply Hok1. intros x Hx. by apply Hlr. }
    rewrite addNodes_app, E2. cbn [map tnode addNodes].
    pose proof (wf_height_nonneg l Hwl).
    assert (Hh0 : h <> 0) by lia.
    assert (Hl' : theight l' < h) by by rewrite (erase_eq_height _ _ El).
    assert (Hr' : theight r' < h) by by rewrite (erase_eq_height _ _ Er).
    destruct (addNode_inner_live s2 w2 _ r' l' forest h v key [] H2 Hv0 Hh0 Hl' Hr') as (s3 & w3 & E3).
    unfold mbind, M_bind. cbn [nd_height nd_version nd_key nd_value]. rewrite E3.
    eapply addNode_inner_inv in E3 as (l2 & r2 & f & Ef & _ & _ & H3 & Hok3);
      [|exact H2|rewrite !len_app, !len_map; unfold len at 2 3; rewrite !length_subtrees; lia|done|done].
    injection Ef as <- <- <-. eexists s3, w3, _. split; [done|]. split; [|split].
    + rewrite <- !app_assoc in H3. exact H3.
    + cbn [erase]. by rewrite El, Er.
    + intros u Hu. apply Hok3, Hok2. intros x Hx. apply Hu, elem_of_app. by right.
Qed.
End Completeness.

(** ** finalize *)

(** The value of a root redirect: the node key of the root it points to. *)
Definition redirect (version : Z) : bytes := str "s" ++ be_bytes 8 (u64 version) ++ be_bytes 4 1.

Definition marker_key (sp : bytes) : bytes := metadataDBKeyInto [] sp (str "storage_version").
Definition marker (h0 : Z) : bytes := str "1.1.0-" ++ decimal h0.

Definition root_writes (sp : bytes) (h0 : Z) (t : tree) : list (bytes * bytes) :=
  (nodeDBKey sp (tversion t) 1, tencode t) ::
  (if tversion t =? h0 then [] else [(nodeDBKey sp h0 1, redirect (tversion t))]) ++
  [(marker_key sp, marker h0)].

Definition empty_writes (sp : bytes) (h0 : Z) : list (bytes * bytes) :=
  [(nodeDBKey sp h0 1, []); (marker_key sp, marker h0)].

Lemma last_subtrees t : last (subtrees t) = Some t.
Proof. destruct t; simpl; [done|]. by rewrite app_assoc, last_snoc. Qed.

Lemma subs_single t : subs [t] = subtrees t.
Proof. unfold subs. simpl. by rewrite app_nil_r. Qed.

Section Finalize.
Context {W : Type} (k : sink W) (sp : bytes) `{SL : !ImportSink k sp}.
Context (w0 : W) (h0 : Z).
Abbreviation inv := (run_inv k sp w0 h0).

Lemma finalize_set key v w :
  sink_ok w -> slow_key sp key ->
  exists w', set k key v w = (Ret tt, w') /\ sink_ok w' /\ view w' = <[key := v]> (view w).
Proof using SL.
  intros Hs Hk. destruct (set_live key v w Hs Hk) as [w' E]. exists w'. split; [done|].
  by apply set_sound in E as (? & ? & _).
Qed.

(** Reduce to the next call of [set]; then take that call. *)
Ltac finalize_simpl H :=
  cbn [fst snd keyScratch valueScratch set_scratch si_prefix si_height];
  rewrite ?(inv_prefix _ _ _ _ _ _ _ _ H), ?(inv_height _ _ _ _ _ _ _ _ H);
  change (nodeDBKeyInto [] ?a ?b ?c) with (nodeDBKey a b c);
  change (metadataDBKeyInto [] ?a (str "storage_version")) with (marker_key a);
  change (fastStorageVersionValue ++ fastStorageVersionDelimiter ++ decimal ?h) with (marker h).

Ltac finalize_step H Hview :=
  finalize_simpl H;
  match goal with
  | |- context [set k ?key ?v ?w] =>
      let w' := fresh "w" in
      let Hs := fresh "Hs" in
      destruct (finalize_set key v w) as (w' & -> & Hs & Hview);
        [first [assumption | apply H]|first [apply node_key_slow | apply meta_key_slow]|]
  end.

Ltac finalize_unfold H :=
  unfold finalize, writeStorageVersionMarker, rootKey, imp, out, get, modify, wrap_err,
    mbind, M_bind, mret, M_ret; cbn [fst snd];
  rewrite (inv_stack _ _ _ _ _ _ _ _ H); cbn [map fst snd frame_of fr_version fr_hash].

Lemma finalize_one s w ns t :
  inv s w ns [t] ->
  exists s' w', finalize k (s, w) = (Ret (thash t), (s', w')) /\ sink_ok w' /\
    itemCount s' = itemCount s /\ storeName s' = storeName s /\ view w' = apply_writes (root_writes sp h0 t) (view w).
Proof using SL.
  intros H. finalize_unfold H.
  rewrite (inv_last _ _ _ _ _ _ _ _ H), subs_single, last_subtrees. cbn [from_option].
  unfold root_writes, apply_writes. finalize_step H V1. finalize_simpl H.
  destruct (tversion t =? h0).
  - finalize_step H V2. eexists _, _. split; [done|]. split_and!; [assumption|done|done|].
    cbn [fold_left fst snd app]. by rewrite V2, V1.
  - finalize_step H V2. finalize_step H V3. eexists _, _. split; [done|]. split_and!; [assumption|done|done|].
    cbn [fold_left fst snd app]. by rewrite V3, V2, V1.
Qed.

Lemma finalize_none s w ns :
  inv s w ns [] ->
  exists s' w', finalize k (s, w) = (Ret emptyIAVLTreeHash, (s', w')) /\ sink_ok w' /\
    itemCount s' = itemCount s /\ storeName s' = storeName s /\ view w' = apply_writes (empty_writes sp h0) (view w).
Proof using SL.
  intros H. finalize_unfold H.
  finalize_step H V1. finalize_step H V2. eexists _, _. split; [done|]. split_and!; [assumption|done|done|].
  unfold apply_writes, empty_writes. cbn [fold_left fst snd]. by rewrite V2, V1.
Qed.

Lemma finalize_many s w ns t u f :
  inv s w ns (t :: u :: f) ->
  finalize k (s, w) = (Err (Errorf "invalid stream: stack has more than one root"), (s, w)).
Proof using Type. intros H. by finalize_unfold H. Qed.
End Finalize.

(** ** The database denotes the tree *)

(** [db_tree m sp v n t]: following child references from the node stored at
    (v, n) reads back the whole of [t]. *)
Fixpoint db_tree (m : gmap bytes bytes) (sp : bytes) (v n : Z) (t : tree) : Prop :=
  m !! nodeDBKey sp v n = Some (tencode t) /\
  match t with
  | Leaf _ _ _ _ => True
  | Inner _ _ _ _ l r =>
      db_tree m sp (tversion l) (tnonce l) l /\ db_tree m sp (tversion r) (tnonce r) r
  end.

Lemma apply_writes_lookup ws key v m :
  (key, v) ∈ ws -> (forall v', (key, v') ∈ ws -> v' = v) -> apply_writes ws m !! key = Some v.
Proof.
  revert m. induction ws as [|[key1 v1] ws IH] using rev_ind; intros m Hin Hall.
  - by apply elem_of_nil in Hin.
  - rewrite apply_writes_app. cbn. destruct (decide (key1 = key)) as [->|Hne].
    + rewrite lookup_insert_eq. f_equal. apply Hall, elem_of_app. right. by apply list_elem_of_singleton.
    + rewrite lookup_insert_ne by done. apply IH.
      * apply elem_of_app in Hin as [Hin|Hin]; [done|]. apply list_elem_of_singleton in Hin. congruence.
      * intros v' Hv'. apply Hall, elem_of_app. by left.
Qed.

Lemma apply_writes_other ws key m :
  (forall v, (key, v) ∉ ws) -> apply_writes ws m !! key = m !! key.
Proof.
  revert m. induction ws as [|[key1 v1] ws IH] using rev_ind; intros m Hnot; [done|].
  rewrite apply_writes_app. cbn. rewrite lookup_insert_ne.
  - apply IH. intros v Hv. eapply Hnot, elem_of_app. by left.
  - intros ->. eapply Hnot, elem_of_app. right. by apply list_elem_of_singleton.
Qed.

Lemma nonced_unique ts i j a b :
  nonced ts -> ts !! i = Some a -> ts !! j = Some b ->
  tversion a = tversion b -> tnonce a = tnonce b -> i = j.
Proof.
  enough (H : forall i j a b, (i < j)%nat -> nonced ts -> ts !! i = Some a -> ts !! j = Some b ->
    tversion a = tversion b -> tnonce a = tnonce b -> False).
  { intros Hn Ha Hb Hv He. destruct (Nat.lt_trichotomy i j) as [?|[?|?]]; [|done|]; exfalso; eauto. }
  clear. intros i j a b Hlt Hn Ha Hb Hv He.
  pose proof (Hn i a Ha) as Hna. pose proof (Hn j b Hb) as Hnb.
  assert (Hlen : (i < length ts)%nat) by (by eapply lookup_lt_Some).
  replace (take j ts) with (take i ts ++ a :: drop (S i) (take j ts)) in Hnb.
  - rewrite map_app in Hnb. cbn [map] in Hnb. unfold occurrences in *.
    rewrite count_occ_app in Hnb. cbn [count_occ] in Hnb.
    destruct (Z.eq_dec (tversion a) (tversion b)); [|done]. rewrite <- Hv in Hnb. lia.
  - pose proof (take_drop_middle (take j ts) i a) as T. rewrite take_take, Nat.min_l in T by lia.
    apply T. by rewrite lookup_take_lt.
Qed.

Lemma nonced_ge ts t : nonced ts -> t ∈ ts -> 2 <= tnonce t.
Proof.
  intros Hn [i Hi]%list_elem_of_lookup. rewrite (Hn i t Hi).
  pose proof (occurrences_nonneg (tversion t) (map tversion (take i ts))). lia.
Qed.

Lemma nonced_lt ts t : nonced ts -> t ∈ ts -> tnonce t <= len ts + 1.
Proof.
  intros Hn [i Hi]%list_elem_of_lookup. rewrite (Hn i t Hi).
  pose proof (occurrences_le (tversion t) (map tversion (take i ts))) as H.
  rewrite len_map in H. unfold len in *. rewrite length_take in H.
  apply lookup_lt_Some in Hi. lia.
Qed.


Definition versions_ok (ts : list tree) : Prop :=
  Forall (fun u => tversion u <> 0 /\ int64 (tversion u)) ts.

Section Lookups.
Context (sp : bytes).

Lemma node_write_elem key v ts :
  (key, v) ∈ concat (map (node_writes sp) ts) ->
  exists u, u ∈ ts /\
    (key = nodeDBKey sp (tversion u) (tnonce u) /\ v = tencode u \/
     exists lv n uk val, u = Leaf lv n uk val /\ key = fastDBKeyInto [] sp uk /\
       v = encodeFastNodeInto [] lv val).
Proof.
  intros Hkv%list_elem_of_In%in_concat. destruct Hkv as (ws & Hws & Hin).
  apply in_map_iff in Hws as (u & <- & Hu). apply list_elem_of_In in Hu, Hin. exists u. split; [done|]. apply elem_of_cons in Hin as [[= -> ->]|Hin]; [by left|]. right.
  destruct u as [lv n uk val|]; [|by apply elem_of_nil in Hin].
  apply list_elem_of_singleton in Hin as [= -> ->]. by exists lv, n, uk, val.
Qed.

Lemma node_write_here ts u key v :
  u ∈ ts -> (key, v) ∈ node_writes sp u -> (key, v) ∈ concat (map (node_writes sp) ts).
Proof.
  intros Hu Hk. apply list_elem_of_In, in_concat. exists (node_writes sp u).
  split; apply list_elem_of_In; [|done]. by apply list_elem_of_fmap_2.
Qed.

(** Every node stays readable at the key it was stored under. *)
Lemma stored_node ts u m :
  nonced ts -> versions_ok ts -> len ts + 2 < 2 ^ 32 -> u ∈ ts ->
  stored sp ts m !! nodeDBKey sp (tversion u) (tnonce u) = Some (tencode u).
Proof.
  intros Hn Hv Hb Hu. unfold versions_ok in Hv; rewrite Forall_forall in Hv. apply apply_writes_lookup.
  - eapply node_write_here; [done|]. by left.
  - intros v' (u' & Hu' & [[Hk ->]|(? & ? & ? & ? & _ & Hk & _)])%node_write_elem;
      [|destruct (node_key_not_fast _ _ _ (ex_intro _ _ Hk))].
    pose proof (nonced_ge _ _ Hn Hu). pose proof (nonced_lt _ _ Hn Hu).
    pose proof (nonced_ge _ _ Hn Hu'). pose proof (nonced_lt _ _ Hn Hu').
    apply nodeDBKey_inj in Hk as [Ev En]; [|by apply Hv|by apply Hv|lia|lia].
    apply list_elem_of_lookup in Hu as [i Hi]. apply list_elem_of_lookup in Hu' as [j Hj].
    pose proof (nonced_unique _ _ _ _ _ Hn Hi Hj Ev En). congruence.
Qed.

(** The keys with nonce 1 are written by [finalize] only. *)
Lemma root_key_fresh ts v :
  nonced ts -> versions_ok ts -> len ts + 2 < 2 ^ 32 -> int64 v ->
  forall x, (nodeDBKey sp v 1, x) ∉ concat (map (node_writes sp) ts).
Proof.
  intros Hn Hv Hb Hi x (u & Hu & [[Hk _]|(? & ? & ? & ? & _ & Hk & _)])%node_write_elem.
  - unfold versions_ok in Hv; rewrite Forall_forall in Hv. pose proof (nonced_ge _ _ Hn Hu). pose proof (nonced_lt _ _ Hn Hu).
    apply nodeDBKey_inj in Hk; [lia|done|by apply Hv|lia|lia].
  - destruct (node_key_not_fast _ _ _ (ex_intro _ _ Hk)).
Qed.

(** A leaf's fast-storage entry, when no other leaf has its key. *)
Lemma stored_fast ts lv n uk val m :
  Leaf lv n uk val ∈ ts ->
  (forall lv' n' val', Leaf lv' n' uk val' ∈ ts -> lv' = lv /\ val' = val) ->
  stored sp ts m !! fastDBKeyInto [] sp uk = Some (encodeFastNodeInto [] lv val).
Proof.
  intros Hu Huniq. apply apply_writes_lookup.
  - eapply node_write_here; [done|]. right. by left.
  - intros v' (u' & Hu' & [[Hk ->]|(lv' & n' & uk' & val' & -> & Hk & ->)])%node_write_elem;
      [destruct (node_key_not_fast sp (tversion u') (tnonce u')); by exists uk|].
    unfold fastDBKeyInto in Hk. rewrite !app_nil_l in Hk. apply app_inv_head in Hk.
    injection Hk as <-. by destruct (Huniq _ _ _ Hu') as [-> ->].
Qed.

Lemma apply_keep ws key m :
  (forall x, (key, x) ∉ ws) -> forall v, m !! key = Some v -> apply_writes ws m !! key = Some v.
Proof. intros Hk v Hv. by rewrite apply_writes_other. Qed.

Lemma subtrees_self t : t ∈ subtrees t.
Proof. destruct t; simpl; [by left|]. rewrite !elem_of_app. right. right. by left. Qed.

(** A map that has every node under its own key denotes the tree. *)
Lemma db_tree_of m t :
  (forall u, u ∈ subtrees t -> m !! nodeDBKey sp (tversion u) (tnonce u) = Some (tencode u)) ->
  db_tree m sp (tversion t) (tnonce t) t.
Proof.
  induction t as [|h v n key l IHl r IHr]; intros H; (split; [apply H, subtrees_self|]); [done|].
  split; [apply IHl|apply IHr]; intros u Hu; apply H; cbn [subtrees]; rewrite !elem_of_app; tauto.
Qed.

Lemma db_tree_root m t v n :
  m !! nodeDBKey sp v n = Some (tencode t) ->
  (forall u, u ∈ subtrees t -> m !! nodeDBKey sp (tversion u) (tnonce u) = Some (tencode u)) ->
  db_tree m sp v n t.
Proof.
  intros Hroot H%db_tree_of. destruct t; (split; [done|]); [done|]. by destruct H.
Qed.
End Lookups.

(** ** The image of a store

    What a database holds for the store after the import of [t] at height [h0]:
    the tree, readable from its canonical root key; the redirect from the
    snapshot height; the fast entry of every user key; the storage marker; and
    nothing of other stores changed. *)
Record store_holds (m : gmap bytes bytes) (sp : bytes) (h0 : Z) (t : tree) : Prop := {
  im_tree : db_tree m sp (tversion t) 1 t;
  im_redirect : tversion t <> h0 -> m !! nodeDBKey sp h0 1 = Some (redirect (tversion t));
  im_fast : forall lv n uk val, Leaf lv n uk val ∈ subtrees t ->
    (forall lv' n' val', Leaf lv' n' uk val' ∈ subtrees t -> lv' = lv /\ val' = val) ->
    m !! fastDBKeyInto [] sp uk = Some (encodeFastNodeInto [] lv val);
  im_marker : m !! marker_key sp = Some (marker h0)
}.

Record store_image (m0 m : gmap bytes bytes) (sp : bytes) (h0 : Z) (t : tree) : Prop := {
  im_holds : store_holds m sp h0 t;
  im_other : forall key, (forall r, key <> sp ++ r) -> m !! key = m0 !! key
}.

(** Only the keys of the store matter to what it holds. *)
Lemma db_tree_agree m m' sp : (forall r, m' !! (sp ++ r) = m !! (sp ++ r)) ->
  forall t v n, db_tree m sp v n t -> db_tree m' sp v n t.
Proof.
  intros Hag.
  assert (Hnode : forall v n, m' !! nodeDBKey sp v n = m !! nodeDBKey sp v n)
    by (intros v n; unfold nodeDBKey, nodeDBKeyInto; rewrite app_nil_l; apply Hag).
  induction t as [|h v0 n0 key l IHl r IHr]; intros v n [H1 H2]; (split; [by rewrite Hnode|]); [done|].
  destruct H2. by split; [apply IHl|apply IHr].
Qed.

Lemma store_holds_agree m m' sp h0 t : (forall r, m' !! (sp ++ r) = m !! (sp ++ r)) ->
  store_holds m sp h0 t -> store_holds m' sp h0 t.
Proof.
  intros Hag [H1 H2 H3 H4]. split.
  - by eapply db_tree_agree.
  - intros Hne. unfold nodeDBKey, nodeDBKeyInto in *. rewrite app_nil_l in *. rewrite Hag. by apply H2.
  - intros lv n uk val Hin Hu. specialize (H3 lv n uk val Hin Hu). unfold fastDBKeyInto in *. rewrite app_nil_l in *. by rewrite Hag.
  - unfold marker_key, metadataDBKeyInto in *. rewrite app_nil_l in *. by rewrite Hag.
Qed.

Lemma marker_not_node sp v n : marker_key sp <> nodeDBKey sp v n.
Proof.
  unfold marker_key, metadataDBKeyInto, nodeDBKey, nodeDBKeyInto. rewrite !app_nil_l.
  by intros H%app_inv_head.
Qed.

Lemma prefixed_writes sp ts key x :
  (key, x) ∈ concat (map (node_writes sp) ts) -> exists r, key = sp ++ r.
Proof.
  intros (u & _ & [[-> _]|(lv & n & uk & val & _ & -> & _)])%node_write_elem;
    unfold nodeDBKey, nodeDBKeyInto, fastDBKeyInto; rewrite !app_nil_l; eauto.
Qed.

Lemma root_writes_elem sp h0 t key x :
  (key, x) ∈ root_writes sp h0 t ->
  key = nodeDBKey sp (tversion t) 1 /\ x = tencode t \/
  tversion t <> h0 /\ key = nodeDBKey sp h0 1 /\ x = redirect (tversion t) \/
  key = marker_key sp /\ x = marker h0.
Proof.
  unfold root_writes. destruct (Z.eqb_spec (tversion t) h0);
    rewrite elem_of_cons, elem_of_app, ?elem_of_nil, !list_elem_of_singleton;
    intros [[= -> ->]|[?|[= -> ->]]]; try tauto. simplify_eq. tauto.
Qed.

Lemma store_image_intro sp h0 t m0 :
  nonced (subtrees t) -> versions_ok (subtrees t) -> len (subtrees t) + 2 < 2 ^ 32 -> int64 h0 ->
  store_image m0 (apply_writes (root_writes sp h0 t) (stored sp (subtrees t) m0)) sp h0 t.
Proof.
  intros Hn Hv Hb Hh.
  assert (Hvt : forall u, u ∈ subtrees t -> int64 (tversion u)).
  { intros u Hu. unfold versions_ok in Hv. rewrite Forall_forall in Hv. by apply Hv. }
  pose proof (Hvt t (subtrees_self t)) as Ht.
  assert (H1 : forall a b, int64 a -> int64 b -> nodeDBKey sp a 1 = nodeDBKey sp b 1 -> a = b)
    by (intros a b Ha Hb' E; apply nodeDBKey_inj in E; [tauto|done|done|lia|lia]).
  split; [split|].
  - apply db_tree_root.
    + apply apply_writes_lookup; [by left|].
      intros x [[_ ->]|[(Hne & Hk & _)|[Hk _]]]%root_writes_elem; [done| |].
      * by apply H1 in Hk.
      * by apply eq_sym, marker_not_node in Hk.
    + intros u Hu. apply apply_keep; [|by apply stored_node].
      pose proof (nonced_ge _ _ Hn Hu). pose proof (nonced_lt _ _ Hn Hu).
      intros x [[Hk _]|[(_ & Hk & _)|[Hk _]]]%root_writes_elem.
      * apply nodeDBKey_inj in Hk; [lia|by apply Hvt|done|lia|lia].
      * apply nodeDBKey_inj in Hk; [lia|by apply Hvt|done|lia|lia].
      * by apply eq_sym, marker_not_node in Hk.
  - intros Hne. apply apply_writes_lookup.
    + unfold root_writes. rewrite (proj2 (Z.eqb_neq _ _) Hne). right. by left.
    + intros x [[Hk _]|[(_ & _ & ->)|[Hk _]]]%root_writes_elem; [|done|].
      * apply H1 in Hk; [congruence|done|done].
      * by apply eq_sym, marker_not_node in Hk.
  - intros lv n uk val Hu Huniq. apply apply_keep; [|by eapply stored_fast].
    intros x [[Hk _]|[(_ & Hk & _)|[Hk _]]]%root_writes_elem;
      (apply eq_sym in Hk; first [by eapply node_key_not_fast; eexists | by eapply meta_key_not_fast; eexists]).
  - apply apply_writes_lookup.
    + unfold root_writes. rewrite elem_of_cons, elem_of_app, list_elem_of_singleton. tauto.
    + intros x [[Hk _]|[(_ & Hk & _)|[_ ->]]]%root_writes_elem; [| |done]; by apply marker_not_node in Hk.
  - intros key Hk. unfold stored. rewrite !apply_writes_other; [done| |].
    + intros x [r ->]%prefixed_writes. by apply (Hk r).
    + intros x [[-> _]|[(_ & -> & _)|[-> _]]]%root_writes_elem; eapply Hk; reflexivity.
Qed.

Lemma erase_subtrees_versions t : map tversion (subtrees (erase t)) = map tversion (subtrees t).
Proof. induction t; [done|]. cbn [erase subtrees]. by rewrite !map_app, IHt1, IHt2. Qed.

Lemma erase_subtrees_length t : length (subtrees (erase t)) = length (subtrees t).
Proof. rewrite <- !(length_map tversion). by rewrite erase_subtrees_versions. Qed.

Lemma versions_ok_map ts : versions_ok ts <-> Forall (fun v => v <> 0 /\ int64 v) (map tversion ts).
Proof. symmetry. apply Forall_map. Qed.

Lemma versions_ok_erase t u :
  erase t = erase u -> versions_ok (subtrees t) -> versions_ok (subtrees u).
Proof. intros E. by rewrite !versions_ok_map, <- (erase_subtrees_versions t), E, erase_subtrees_versions. Qed.

(** The whole treatment of one store: its nodes, then [finalize]. *)
Definition run_store {W} (k : sink W) (name : bytes) (h0 : Z) (ns : list node) (w : W)
    : outcome bytes * (storeImporter * W) :=
  (_ ← addNodes k ns; finalize k) (newStoreImporter name h0, w).

(** All that the import of a store writes. *)
Definition tree_writes (sp : bytes) (h0 : Z) (t : tree) : list (bytes * bytes) :=
  concat (map (node_writes sp) (subtrees t)) ++ root_writes sp h0 t.

Lemma storePrefix_name a b : storePrefix a = storePrefix b -> a = b.
Proof. unfold storePrefix. by intros H%app_inv_head%app_inv_tail. Qed.

Section Stores.
Context {W : Type} (k : sink W) (name : bytes) `{SL : !ImportSink k (storePrefix name)} (h0 : Z).
Abbreviation sp := (storePrefix name).

Lemma view_tree m t :
  apply_writes (root_writes sp h0 t) (stored sp (subtrees t) m) = apply_writes (tree_writes sp h0 t) m.
Proof using Type. unfold tree_writes, stored. by rewrite apply_writes_app. Qed.

(** The export of a tree is taken; the tree written has nonces of its own. *)
Lemma run_store_tree w t :
  sink_ok w -> wf_tree t -> Forall (fun u => tversion u <> 0) (subtrees t) -> len (subtrees t) + 2 < 2 ^ 32 ->
  sorted_keys (leaf_keys t) -> (forall u, u ∈ leaf_keys t -> fast_ok w u) ->
  exists s' w' t', run_store k name h0 (map tnode (subtrees t)) w = (Ret (thash t), (s', w')) /\
    sink_ok w' /\ erase t' = erase t /\ nonced (subtrees t') /\ view w' = apply_writes (tree_writes sp h0 t') (view w) /\
    itemCount s' = len (subtrees t) /\ storeName s' = name.
Proof using SL.
  intros Hs Hwf Hv Hb Hsort Hok.
  destruct (addNodes_tree k sp w h0 t _ w [] [] (run_inv_init _ _ _ _ name eq_refl Hs) Hwf)
    as (s1 & w1 & t' & E1 & H1 & Et & _); [|done..|].
  - unfold len in Hb |- *. rewrite length_subtrees in Hb. cbn [length]. lia.
  - destruct (finalize_one k sp w h0 _ _ _ _ H1) as (s2 & w2 & E2 & Hs2 & Hi & Hn & V2).
    exists s2, w2, t'. unfold run_store, mbind, M_bind. rewrite E1, E2.
    pose proof (inv_nonced _ _ _ _ _ _ _ _ H1) as Hnc. rewrite subs_single in Hnc.
    split_and!; [by rewrite (erase_eq_hash _ _ Et)|done|done|done| | |].
    + rewrite V2, (inv_view _ _ _ _ _ _ _ _ H1), subs_single. apply view_tree.
    + rewrite Hi, (inv_items _ _ _ _ _ _ _ _ H1). cbn [app]. by rewrite len_map.
    + rewrite Hn. by apply storePrefix_name, (inv_name _ _ _ _ _ _ _ _ H1).
Qed.

(** What is accepted is empty or a tree. *)
Lemma run_store_sound w ns h s' w' :
  sink_ok w -> Forall (fun n => nd_version n <> 0) ns -> len ns + 2 < 2 ^ 32 ->
  run_store k name h0 ns w = (Ret h, (s', w')) ->
  sink_ok w' /\
  ((ns = [] /\ h = emptyIAVLTreeHash /\ view w' = apply_writes (empty_writes sp h0) (view w)) \/
   (exists t, wf_tree t /\ Forall2 node_of ns (subtrees t) /\ nonced (subtrees t) /\ h = thash t /\
     view w' = apply_writes (tree_writes sp h0 t) (view w))).
Proof using SL.
  intros Hs Hv Hb Hrun. unfold run_store in Hrun. unfold mbind, M_bind in Hrun.
  destruct (addNodes k ns _) as [[[]| | |] [s1 w1]] eqn:E1; try done.
  destruct (addNodes_inv k sp w h0 ns _ w [] [] s1 w1 (run_inv_init _ _ _ _ name eq_refl Hs) Hb Hv E1) as [f H1].
  cbn [app] in H1. pose proof (inv_nodes _ _ _ _ _ _ _ _ H1) as Hns. destruct f as [|t [|u f]].
  - destruct (finalize_none k _ _ _ _ _ _ H1) as (s2 & w2 & E2 & Hs2 & _ & _ & V2).
    rewrite E2 in Hrun. apply ret_inj in Hrun as [<- [_ <-]%pair_equal_spec]. split; [done|]. left.
    rewrite V2, (inv_view _ _ _ _ _ _ _ _ H1). by apply Forall2_nil_inv_r in Hns as ->.
  - destruct (finalize_one k _ _ _ _ _ _ _ H1) as (s2 & w2 & E2 & Hs2 & _ & _ & V2).
    rewrite E2 in Hrun. apply ret_inj in Hrun as [<- [_ <-]%pair_equal_spec]. split; [done|]. right.
    pose proof (inv_nonced _ _ _ _ _ _ _ _ H1) as Hn. pose proof (inv_wf _ _ _ _ _ _ _ _ H1) as Hwf.
    apply Forall_cons in Hwf as [Hwt _]. rewrite subs_single in *.
    exists t. split_and!; try done. by rewrite V2, (inv_view _ _ _ _ _ _ _ _ H1), subs_single, view_tree.
  - apply (finalize_many k) in H1. rewrite H1 in Hrun. discriminate Hrun.
Qed.

Lemma tree_image m0 t :
  nonced (subtrees t) -> versions_ok (subtrees t) -> len (subtrees t) + 2 < 2 ^ 32 -> int64 h0 ->
  store_image m0 (apply_writes (tree_writes sp h0 t) m0) sp h0 t.
Proof using Type. rewrite <- view_tree. apply store_image_intro. Qed.
End Stores.

Lemma nodes_versions ns ts : Forall2 node_of ns ts ->
  Forall (fun n => nd_version n <> 0 /\ int64 (nd_version n)) ns -> versions_ok ts.
Proof.
  induction 1 as [|n u ns us Hnu _ IH]; [constructor|]. intros [Hn Hv]%Forall_cons. constructor; [|by apply IH].
  destruct u; cbn in *; [by subst|]. destruct Hnu as (_ & <- & _). done.
Qed.

(** C8: The export of a well-formed tree imports without error: the importer
    returns the tree's Merkle hash and the database afterwards is the image of
    the tree, up to the nonces the importer picks, whatever the sink. *)
Theorem import_tree_correct {W} (k : sink W) name `{SL : !ImportSink k (storePrefix name)} h0 w t :
  sink_ok w -> wf_tree t -> versions_ok (subtrees t) -> len (subtrees t) + 2 < 2 ^ 32 -> int64 h0 ->
  sorted_keys (leaf_keys t) -> (forall u, u ∈ leaf_keys t -> fast_ok w u) ->
  exists s' w' t', run_store k name h0 (map tnode (subtrees t)) w = (Ret (thash t), (s', w')) /\
    erase t' = erase t /\ nonced (subtrees t') /\
    store_image (view w) (view w') (storePrefix name) h0 t'.
Proof.
  intros Hs Hwf Hv Hb Hh Hsort Hok.
  destruct (run_store_tree k name h0 w t Hs Hwf) as (s' & w' & t' & E & _ & Et & Hn & V & _); [|done..|].
  - eapply Forall_impl; [exact Hv|]. by intros u [? _].
  - exists s', w', t'. split_and!; [done..|]. rewrite V. apply tree_image; [done|by eapply versions_ok_erase| |done].
    unfold len. by rewrite <- erase_subtrees_length, Et, erase_subtrees_length.
Qed.

(** C7: Conversely, a stream of nodes the importer accepts is empty, or it is the
    post-order of a well-formed tree: the hash returned is that tree's and the
    database is its image.  A forged or truncated stream cannot be finalized into
    anything else, provided every node's version is a non-zero int64 (version 0 makes
    the importer reuse a nonce), there are fewer than 2^32 - 2 nodes, the height is an
    int64, and the sink the entries go to is in a state in which it writes what it
    accepts ([sink_ok] of its interface). *)
Theorem import_stream_sound {W} (k : sink W) name `{SL : !ImportSink k (storePrefix name)} h0 w ns h s' w' :
  sink_ok w -> Forall (fun n => nd_version n <> 0 /\ int64 (nd_version n)) ns -> len ns + 2 < 2 ^ 32 -> int64 h0 ->
  run_store k name h0 ns w = (Ret h, (s', w')) ->
  (ns = [] /\ h = emptyIAVLTreeHash /\
    view w' = apply_writes (empty_writes (storePrefix name) h0) (view w)) \/
  (exists t, wf_tree t /\ Forall2 node_of ns (subtrees t) /\ nonced (subtrees t) /\ h = thash t /\
    store_image (view w) (view w') (storePrefix name) h0 t).
Proof.
  intros Hs Hv Hb Hh Hrun.
  assert (Hv0 : Forall (fun n => nd_version n <> 0) ns) by (eapply Forall_impl; [exact Hv|]; by intros n [? _]).
  destruct (run_store_sound k name h0 w ns h s' w' Hs Hv0 Hb Hrun) as [_ [H|(t & Hwt & Hns & Hn & -> & V)]]; [by left|].
  right. exists t. split_and!; try done. rewrite V. apply tree_image; [done|by eapply nodes_versions| |done].
  apply Forall2_length in Hns. unfold len in *. lia.
Qed.

(** ** Nonces, seen from outside *)

Fixpoint nextNonces (vs : list Z) : M storeImporter (list Z) :=
  match vs with
  | [] => mret []
  | v :: r => n ← nextNonce v; ns ← nextNonces r; mret (n :: ns)
  end.

(** Reference: per version, count from 2 up in order of arrival. *)
Fixpoint nonces_of (hist vs : list Z) : list Z :=
  match vs with
  | [] => []
  | v :: r => (2 + occurrences v hist) :: nonces_of (v :: hist) r
  end.

Lemma nextNonces_spec vs : forall s hist,
  nonce_inv s hist -> Forall (fun v => v <> 0) vs -> len hist + len vs + 2 < 2 ^ 32 ->
  fst (nextNonces vs s) = Ret (nonces_of hist vs).
Proof.
  induction vs as [|v vs IH]; intros s hist Hinv Hv Hb; [done|].
  inversion Hv as [|? ? Hv0 Hvs]; subst. rewrite len_cons in Hb. pose proof (len_nonneg vs).
  destruct (nextNonce_spec v s hist Hinv Hv0 ltac:(lia)) as (m & cv & E & Hinv').
  cbn [nextNonces nonces_of]. unfold mbind, M_bind, mret, M_ret. rewrite E.
  specialize (IH _ _ Hinv' Hvs). rewrite len_cons in IH. specialize (IH ltac:(lia)).
  destruct (nextNonces vs _) as [[] ?]; cbn in *; congruence.
Qed.

(** The one-entry write-back cache in front of the nonce map never shows: for any
    sequence of non-zero node versions, however interleaved, the nonces handed
    out are those of a plain counter per version that starts at 2. *)
Theorem nextNonce_cache_transparent name h0 vs :
  Forall (fun v => v <> 0) vs -> len vs + 2 < 2 ^ 32 ->
  fst (nextNonces vs (newStoreImporter name h0)) = Ret (nonces_of [] vs).
Proof.
  intros Hv Hb. apply nextNonces_spec; [|done|rewrite len_nil; lia].
  intros v Hne. unfold ctr. simpl. destruct (Z.eqb_spec v 0); [done|]. by rewrite lookup_empty.
Qed.

Lemma nextNonce_cache_transparent_witness :
  fst (nextNonces [5; 7; 5; 7; 7; 5] (newStoreImporter [] 9)) = Ret [2; 2; 3; 3; 4; 4].
Proof. apply (nextNonce_cache_transparent [] 9); [repeat constructor; done|vm_compute; reflexivity]. Defined.

(** At version 0 the cache is not flushed when another version displaces it:
    nonce 1, the root's, is handed out, and (0, 2) is handed out twice. *)
Theorem nextNonce_version_zero_repeats name h0 :
  fst (nextNonces [0; 5; 0; 5; 0] (newStoreImporter name h0)) = Ret [1; 2; 2; 3; 2].
Proof. reflexivity. Qed.

(** An inner node whose two children are not both complete below it is refused:
    the call fails with the malformed-stream error and neither the stack nor the
    database is touched. *)
Theorem addNode_malformed_rejected {W} (k : sink W) height version key value s w :
  height <> 0 -> closesPair height s = false ->
  exists s', addNode k height version key value (s, w) = (Err malformed, (s', w)) /\
    stack s' = stack s /\ nonces s' = nonces s /\ lastIavlBytes s' = lastIavlBytes s.
Proof.
  intros Hh Hc. unfold addNode, imp at 1, modify, mbind, M_bind. cbn.
  rewrite (proj2 (Z.eqb_neq _ _) Hh), addInner_malformed by done. by eexists.
Qed.

(** ** Concrete runs *)

Definition sample_tree : tree :=
  Inner 1 5 0 (str "b") (Leaf 3 0 (str "a") (str "x")) (Leaf 5 0 (str "b") (str "y")).

Lemma addNode_malformed_rejected_witness :
  exists s', addNode map_sink 1 5 (str "b") []
    (newStoreImporter (str "bank") 7, ∅) = (Err malformed, (s', ∅)) /\
    stack s' = [] /\ nonces s' = ∅ /\ lastIavlBytes s' = [].
Proof.
  apply (addNode_malformed_rejected map_sink 1 5 (str "b") [] (newStoreImporter (str "bank") 7) ∅);
    [lia|reflexivity].
Defined.

#[local] Abbreviation bank_view := (view (k := map_sink) (sp := storePrefix (str "bank"))).

Lemma import_tree_correct_witness :
  exists s' w' t', run_store map_sink (str "bank") 7 (map tnode (subtrees sample_tree)) ∅
      = (Ret (thash sample_tree), (s', w')) /\
    erase t' = erase sample_tree /\ nonced (subtrees t') /\
    store_image (bank_view ∅) (bank_view w') (storePrefix (str "bank")) 7 t'.
Proof.
  apply (import_tree_correct map_sink (str "bank") 7 ∅ sample_tree).
  - exact I.
  - simpl. lia.
  - repeat constructor; simpl; lia.
  - vm_compute. reflexivity.
  - unfold int64. lia.
  - repeat constructor.
  - done.
Defined.

Lemma import_stream_sound_witness :
  exists t, wf_tree t /\ Forall2 node_of (map tnode (subtrees sample_tree)) (subtrees t).
Proof.
  destruct (run_store map_sink (str "bank") 7 (map tnode (subtrees sample_tree)) ∅)
    as [r [s' w']] eqn:E.
  assert (Hr : match r with Ret _ => True | _ => False end).
  { change r with (fst (r, (s', w'))). rewrite <- E. vm_compute. exact I. }
  destruct r as [h| | |]; try destruct Hr.
  edestruct (import_stream_sound map_sink (str "bank") 7 ∅) as [(? & _)|(t & H1 & H2 & _)];
    [| | | |exact E| |].
  - exact I.
  - repeat constructor; simpl; lia.
  - vm_compute. reflexivity.
  - unfold int64. lia.
  - discriminate.
  - exists t. split; [exact H1|exact H2].
Defined.
