(* ===== verification/ImporterPar.v ===== *)
(** * The wave-parallel store importer (internal/snapshotimport/importer_par.go)

    The main goroutine builds a frame per node and hands it to a pool of workers
    that hash, encode and emit it once both children are hashed.  The model is a
    step relation: a step is one access to state another goroutine can see (an
    atomic operation, a region under the mutex, a channel operation, a racy field
    access); accesses to a goroutine's own state join the step they precede.  The
    main theorem: whatever the interleaving, when main has finished, the nodes
    emitted are those of the sequential importer, each once, and [finalizePar]
    ends as [finalize] does. *)

From stdpp Require Import functions.
From S2P Require Import Prelude Sha256 Varint IavlEnc Importer.

(** ** Frames *)

(** Pointers are indices of the heap of frames. *)
Record parFrame := mkPF {
  hash : bytes;
  encoded : option bytes;
  pending : Z;
  events : Z;
  built : bool;
  submitted : bool;
  height : Z;
  size : Z;
  version : Z;
  nonce : Z;
  parent : option nat;
  leafKey : bytes;
  leafValue : bytes;
  innerKey : bytes;
  leftChild : option nat;
  rightChild : option nat
}.

Definition new_leaf (version nonce : Z) (key value : bytes) : parFrame :=
  mkPF [] None 0 0 false false 0 1 version nonce None key value [] None None.
Definition new_inner (height size version nonce : Z) (key : bytes) (l r : nat) : parFrame :=
  mkPF [] None 2 0 false false height size version nonce None [] [] key (Some l) (Some r).

Definition set_hashed h e (f : parFrame) : parFrame :=
  mkPF h (Some e) (pending f) (events f) (built f) (submitted f) (height f) (size f) (version f) (nonce f)
    (parent f) [] [] [] None None.
Definition set_encoded e (f : parFrame) : parFrame :=
  mkPF (hash f) e (pending f) (events f) (built f) (submitted f) (height f) (size f) (version f) (nonce f)
    (parent f) (leafKey f) (leafValue f) (innerKey f) (leftChild f) (rightChild f).
Definition set_pending n (f : parFrame) : parFrame :=
  mkPF (hash f) (encoded f) n (events f) (built f) (submitted f) (height f) (size f) (version f) (nonce f)
    (parent f) (leafKey f) (leafValue f) (innerKey f) (leftChild f) (rightChild f).
Definition set_events n (f : parFrame) : parFrame :=
  mkPF (hash f) (encoded f) (pending f) n (built f) (submitted f) (height f) (size f) (version f) (nonce f)
    (parent f) (leafKey f) (leafValue f) (innerKey f) (leftChild f) (rightChild f).
Definition set_flags b s (f : parFrame) : parFrame :=
  mkPF (hash f) (encoded f) (pending f) (events f) b s (height f) (size f) (version f) (nonce f)
    (parent f) (leafKey f) (leafValue f) (innerKey f) (leftChild f) (rightChild f).
Definition set_parent p (f : parFrame) : parFrame :=
  mkPF (hash f) (encoded f) (pending f) (events f) (built f) (submitted f) (height f) (size f) (version f) (nonce f)
    p (leafKey f) (leafValue f) (innerKey f) (leftChild f) (rightChild f).

(** ** Program counters *)

(** In [addInnerPar], the frame and its children at hand.  The loop over the
    children is written out: [right] tells which of the two is meant. *)
Inductive istage := ILink (right : bool) | IEvent (right : bool) | IDec (right : bool) | IBuilt | ICheck | ISub | IEnq | IPush.

Inductive mpc :=
| MNext                                  (* between calls of addNode *)
| MLeafSub (f : nat) | MLeafEnq (f : nat)   (* in submitParFrame *)
| MInner (s : istage) (p l r : nat)
| MFail (r : outcome unit)               (* addNode has not returned nil *)
| FWait | FClose | FJoin | FDone.        (* in finishStreaming *)

(** In [processParFrame], of one frame. *)
Inductive stage :=
| SHash | SRoot | SSetRoot | SWrite | SDrop | SEvent | SParent | SDec (p : nat) | SBuilt (p : nat)
| SSub (p : nat) | SEnq (p : nat) | SDone.

Inductive wpc := WIdle | W (s : stage) (f : nat) | WExit | WPanic.

#[export] Instance stage_eq_dec : EqDecision stage.
Proof. solve_decision. Defined.
#[export] Instance wpc_eq_dec : EqDecision wpc.
Proof. solve_decision. Defined.

Inductive dpc := DWait | DHold (f : nat) | DExit.

(** ** The state of one store *)

Section Par.
Context {Fast : Type} (setFast : bytes -> bytes -> M Fast unit).

Record par := mkPar {
  imp_ : storeImporter;
  fast : Fast;
  todo : list node;
  main : mpc;
  parStack : list nat;
  heap : list parFrame;
  queue : list nat;
  closed : bool;
  disp : dpc;
  ready : list nat;
  workers : list wpc;
  hashWg : Z;
  rootEncoded : option bytes;
  writeQ : list (bytes * bytes)
}.

Definition set_main m (st : par) : par :=
  mkPar (imp_ st) (fast st) (todo st) m (parStack st) (heap st) (queue st) (closed st) (disp st) (ready st)
    (workers st) (hashWg st) (rootEncoded st) (writeQ st).
Definition set_parStack l (st : par) : par :=
  mkPar (imp_ st) (fast st) (todo st) (main st) l (heap st) (queue st) (closed st) (disp st) (ready st)
    (workers st) (hashWg st) (rootEncoded st) (writeQ st).
Definition set_heap h (st : par) : par :=
  mkPar (imp_ st) (fast st) (todo st) (main st) (parStack st) h (queue st) (closed st) (disp st) (ready st)
    (workers st) (hashWg st) (rootEncoded st) (writeQ st).
Definition set_queue q (st : par) : par :=
  mkPar (imp_ st) (fast st) (todo st) (main st) (parStack st) (heap st) q (closed st) (disp st) (ready st)
    (workers st) (hashWg st) (rootEncoded st) (writeQ st).
Definition set_closed (st : par) : par :=
  mkPar (imp_ st) (fast st) (todo st) (main st) (parStack st) (heap st) (queue st) true (disp st) (ready st)
    (workers st) (hashWg st) (rootEncoded st) (writeQ st).
Definition set_disp d r (st : par) : par :=
  mkPar (imp_ st) (fast st) (todo st) (main st) (parStack st) (heap st) (queue st) (closed st) d r
    (workers st) (hashWg st) (rootEncoded st) (writeQ st).
Definition set_worker w pc (st : par) : par :=
  mkPar (imp_ st) (fast st) (todo st) (main st) (parStack st) (heap st) (queue st) (closed st) (disp st) (ready st)
    (<[w := pc]> (workers st)) (hashWg st) (rootEncoded st) (writeQ st).
Definition set_wg n (st : par) : par :=
  mkPar (imp_ st) (fast st) (todo st) (main st) (parStack st) (heap st) (queue st) (closed st) (disp st) (ready st)
    (workers st) n (rootEncoded st) (writeQ st).
Definition set_root e (st : par) : par :=
  mkPar (imp_ st) (fast st) (todo st) (main st) (parStack st) (heap st) (queue st) (closed st) (disp st) (ready st)
    (workers st) (hashWg st) e (writeQ st).
Definition push_write kv (st : par) : par :=
  mkPar (imp_ st) (fast st) (todo st) (main st) (parStack st) (heap st) (queue st) (closed st) (disp st) (ready st)
    (workers st) (hashWg st) (rootEncoded st) (writeQ st ++ [kv]).

(** The importer's own fields, the stream and the fast path: main's alone. *)
Definition set_own i w ns (st : par) : par :=
  mkPar i w ns (main st) (parStack st) (heap st) (queue st) (closed st) (disp st) (ready st)
    (workers st) (hashWg st) (rootEncoded st) (writeQ st).

Definition nil_frame : parFrame := mkPF [] None 0 0 false false 0 0 0 0 None [] [] [] None None.
Definition frame_at (st : par) (i : nat) : parFrame := default nil_frame (heap st !! i).
Definition upd (i : nat) (g : parFrame -> parFrame) (st : par) : par := set_heap (alter g i (heap st)) st.

(** ** submitParFrame *)

(** The compare-and-swap, with the [hashWg.Add] that follows it when it succeeds. *)
Definition submit (f : nat) (st : par) : bool * par :=
  if submitted (frame_at st f) then (false, st)
  else (true, set_wg (hashWg st + 1) (upd f (fun fr => set_flags (built fr) true fr) st)).

Definition pendingCap : Z := 8192.

(** The region under the mutex; [None] is the wait on the condition variable. *)
Definition enqueue (f : nat) (blocking : bool) (st : par) : option par :=
  if blocking && (pendingCap <=? len (queue st)) && negb (closed st) then None
  else Some (set_queue (queue st ++ [f]) st).

(** ** The main goroutine *)

Definition closesPairPar (h : Z) (st : par) : bool :=
  match parStack st with
  | top :: below :: _ => (height (frame_at st top) <? h) && (height (frame_at st below) <? h)
  | _ => false
  end.

Definition bump_items (s : storeImporter) : storeImporter :=
  set_counts (u64 (itemCount s + 1)) (leafCount s) (innerCount s) s.

(** [nextNonce] always returns. *)
Definition take_nonce (version : Z) (s : storeImporter) : Z * storeImporter :=
  match nextNonce version s with
  | (Ret n, s) => (n, s)
  | (_, s) => (0, s)
  end.

(** The part of [addLeafPar] before the submission. *)
Definition addLeafPar (version : Z) (key value : bytes) (ns : list node) (st : par) : par :=
  let '(n, s) := take_nonce version (bump_items (imp_ st)) in
  let s := set_scratch (fastDBKeyInto [] (si_prefix s) key) (encodeFastNodeInto [] version value) s in
  match wrap_err "set fast node" (setFast (keyScratch s) (valueScratch s)) (fast st) with
  | (Ret tt, w) =>
      let s := set_counts (itemCount s) (u64 (leafCount s + 1)) (innerCount s) s in
      let f := length (heap st) in
      set_main (MLeafSub f) (set_parStack (f :: parStack st)
        (set_heap (heap st ++ [new_leaf version n key value]) (set_own s w ns st)))
  | (r, w) => set_main (MFail r) (set_own s w ns st)
  end.

(** The part of [addInnerPar] before the parent is linked. *)
Definition addInnerPar (h version : Z) (key : bytes) (ns : list node) (st : par) : par :=
  let s := bump_items (imp_ st) in
  if negb (closesPairPar h st) then set_main (MFail (Err malformed)) (set_own s (fast st) ns st) else
  match parStack st with
  | r :: l :: rest =>
      let sz := i64 (size (frame_at st l) + size (frame_at st r)) in
      let '(n, s) := take_nonce version s in
      let p := length (heap st) in
      set_main (MInner (ILink false) p l r) (set_parStack rest
        (set_heap (heap st ++ [new_inner h sz version n key l r]) (set_own s (fast st) ns st)))
  | _ => set_main (MFail (Err malformed)) (set_own s (fast st) ns st)
  end.

Definition inner_step (s : istage) (p l r : nat) (st : par) : option par :=
  let goto s := set_main (MInner s p l r) in
  let child (right : bool) := if right then r else l in
  match s with
  | ILink b => Some (goto (if b then IEvent false else ILink true) (upd (child b) (set_parent (Some p)) st))
  | IEvent b =>
      let n := events (frame_at st (child b)) + 1 in
      let st := upd (child b) (set_events n) st in
      Some (goto (if n =? 2 then IDec b else if b then IBuilt else IEvent true) st)
  | IDec b => Some (goto (if b then IBuilt else IEvent true) (upd p (fun f => set_pending (pending f - 1) f) st))
  | IBuilt => Some (goto ICheck (upd p (fun f => set_flags true (submitted f) f) st))
  | ICheck => Some (goto (if pending (frame_at st p) =? 0 then ISub else IPush) st)
  | ISub => let '(won, st) := submit p st in Some (goto (if won then IEnq else IPush) st)
  | IEnq => goto IPush <$> enqueue p true st
  | IPush =>
      let s := imp_ st in
      Some (set_main MNext (set_parStack (p :: parStack st)
        (set_own (set_counts (itemCount s) (leafCount s) (u64 (innerCount s + 1)) s) (fast st) (todo st) st)))
  end.

Definition all_exited (st : par) : bool :=
  forallb (fun w => match w with WExit => true | _ => false end) (workers st).

(** [firstErr] is never set: [processParFrame] returns no error. *)
Definition main_step (st : par) : option par :=
  match main st with
  | MNext =>
      match todo st with
      | [] => Some (set_main FWait st)
      | n :: ns =>
          Some (if nd_height n =? 0 then addLeafPar (nd_version n) (nd_key n) (nd_value n) ns st
                else addInnerPar (nd_height n) (nd_version n) (nd_key n) ns st)
      end
  | MLeafSub f => let '(won, st) := submit f st in Some (set_main (if won then MLeafEnq f else MNext) st)
  | MLeafEnq f => set_main MNext <$> enqueue f true st
  | MInner s p l r => inner_step s p l r st
  | FWait => if hashWg st =? 0 then Some (set_main FClose st) else None
  | FClose => Some (set_main FJoin (set_closed st))
  | FJoin =>
      match disp st with
      | DExit => if all_exited st then Some (set_main FDone st) else None
      | _ => None
      end
  | MFail _ | FDone => None
  end.

(** ** The dispatcher *)

Definition parDispatcher (st : par) : option par :=
  match disp st with
  | DWait =>
      match queue st with
      | f :: q => Some (set_disp (DHold f) (ready st) (set_queue q st))
      | [] => if closed st then Some (set_disp DExit (ready st) st) else None
      end
  | DHold f =>
      if len (ready st) <? len (workers st) * 4 then Some (set_disp DWait (ready st ++ [f]) st) else None
  | DExit => None
  end.

(** ** A worker *)

Definition processParFrame (w : nat) (s : stage) (f : nat) (st : par) : par :=
  let goto s := set_worker w (W s f) in
  let fr := frame_at st f in
  match s with
  | SHash =>
      if height fr =? 0 then
        goto SRoot (upd f (set_hashed (hashLeaf (version fr) (leafKey fr) (leafValue fr))
                                      (encodeLeafNode (leafKey fr) (leafValue fr))) st)
      else match leftChild fr, rightChild fr with
      | Some l, Some r =>
          let L := frame_at st l in let R := frame_at st r in
          let h := hashInner (version fr) (height fr) (size fr) (hash L) (hash R) in
          goto SRoot (upd f (set_hashed h (encodeInnerNode (height fr) (size fr) (innerKey fr) h
                                             (version L) (nonce L) (version R) (nonce R))) st)
      | _, _ => set_worker w WPanic st
      end
  | SRoot => goto (match parent fr with None => SSetRoot | Some _ => SWrite end) st
  | SSetRoot => goto SWrite (set_root (encoded fr) st)
  | SWrite =>
      goto SDrop (push_write (nodeDBKey (si_prefix (imp_ st)) (version fr) (nonce fr), default [] (encoded fr)) st)
  | SDrop => goto SEvent (match parent fr with None => st | Some _ => upd f (set_encoded None) st end)
  | SEvent => goto (if events fr + 1 =? 2 then SParent else SDone) (upd f (set_events (events fr + 1)) st)
  | SParent => goto (match parent fr with None => SDone | Some p => SDec p end) (upd f (set_parent None) st)
  | SDec p =>
      let n := pending (frame_at st p) - 1 in
      goto (if n =? 0 then SBuilt p else SDone) (upd p (set_pending n) st)
  | SBuilt p => goto (if built (frame_at st p) then SSub p else SDone) st
  | SSub p => let '(won, st) := submit p st in goto (if won then SEnq p else SDone) st
  | SEnq p => match enqueue p false st with Some st => goto SDone st | None => st end
  | SDone => set_worker w WIdle (set_wg (hashWg st - 1) st)
  end.

Definition parWorker (w : nat) (st : par) : option par :=
  match workers st !! w with
  | Some WIdle =>
      match ready st with
      | f :: r => Some (set_worker w (W SHash f) (set_disp (disp st) r st))
      | [] => match disp st with DExit => Some (set_worker w WExit st) | _ => None end
      end
  | Some (W s f) => Some (processParFrame w s f st)
  | _ => None
  end.

Inductive par_step (st st' : par) : Prop :=
| step_main : main_step st = Some st' -> par_step st st'
| step_disp : parDispatcher st = Some st' -> par_step st st'
| step_worker w : parWorker w st = Some st' -> par_step st st'.

Definition enableWaveParallel (n : nat) (s : storeImporter) (w : Fast) (ns : list node) : par :=
  mkPar s w ns MNext [] [] [] false DWait [] (replicate n WIdle) 0 None [].
End Par.
Arguments par : clear implicits.

(** ** finalizePar *)

Definition putBE64 (v : Z) : bytes :=
  map byte.of_Z [Z.shiftr v 56; Z.shiftr v 48; Z.shiftr v 40; Z.shiftr v 32; Z.shiftr v 24; Z.shiftr v 16; Z.shiftr v 8; v].
Definition putBE32 (v : Z) : bytes := map byte.of_Z [Z.shiftr v 24; Z.shiftr v 16; Z.shiftr v 8; v].

(** It runs when main is alone, on what main then reads of the state [st]. *)
Definition finalizePar {Fast W} (st : par Fast) (k : sink W) : M (storeImporter * W) bytes :=
  s ← imp get;
  match parStack st with
  | [] =>
      key ← rootKey (si_height s);
      _ ← out (wrap_err "set empty root marker" (set k key []));
      _ ← writeStorageVersionMarker k;
      mret emptyIAVLTreeHash
  | [root] =>
      let root := frame_at st root in
      match rootEncoded st with
      | None => fail (Errorf "internal: root encoded bytes missing")
      | Some encoded =>
          key ← rootKey (version root);
          _ ← out (wrap_err "set canonical root at (rootVersion, 1)" (set k key encoded));
          _ ← (if version root =? si_height s then mret tt else
               let redirectVal := str "s" ++ putBE64 (u64 (version root)) ++ putBE32 1 in
               key ← rootKey (si_height s);
               out (wrap_err "set root redirect at (snapshotHeight, 1)" (set k key redirectVal)));
          _ ← writeStorageVersionMarker k;
          mret (hash root)
      end
  | _ => fail (Errorf "invalid stream: stack has more than one root")
  end.
