(* ===== verification/ParInv.v ===== *)
(** * The invariant of the wave-parallel importer

    What holds of main, the dispatcher, the workers and every frame in each
    reachable state of the model of ImporterPar, and that every step keeps it.
    [G] lists what each frame is to become, [ph] is how far each frame is, and
    [P] gives each frame that is a child its parent and its side. *)

From stdpp Require Import functions.
From S2P Require Import Prelude Sha256 Varint IavlEnc Importer ImporterPar.

(** ** Program counters as numbers *)

Definition inum (s : istage) : Z :=
  match s with
  | ILink false => 0 | ILink true => 1 | IEvent false => 2 | IDec false => 3 | IEvent true => 4 | IDec true => 5
  | IBuilt => 6 | ICheck => 7 | ISub => 8 | IEnq => 9 | IPush => 10
  end.

(** How far main is with the inner frame [p]; 100 when it is done. *)
Definition rank (m : mpc) (p : nat) : Z :=
  match m with MInner s q _ _ => if bool_decide (q = p) then inum s else 100 | _ => 100 end.

Definition link_at (b : bool) : Z := if b then 1 else 0.
Definition event_at (b : bool) : Z := if b then 4 else 2.
Definition dec_at (b : bool) : Z := if b then 5 else 3.

(** How far a frame is: 0 before a worker has it, 13 when the worker is through. *)
Definition snum (s : stage) : Z :=
  match s with
  | SHash => 1 | SRoot => 2 | SSetRoot => 3 | SWrite => 4 | SDrop => 5 | SEvent => 6 | SParent => 7 | SDec _ => 8
  | SBuilt _ => 9 | SSub _ => 10 | SEnq _ => 11 | SDone => 12
  end.

Definition target (s : stage) : option nat :=
  match s with SDec p | SBuilt p | SSub p | SEnq p => Some p | _ => None end.

Definition b2z (b : bool) : Z := if b then 1 else 0.

(** ** The invariant, frame by frame *)

(** What a frame is to become: the sequential importer's frame, the bytes of the
    node, and its children. *)
Record goal := mkGoal { g_fr : frame; g_enc : bytes; g_kids : option (nat * nat) }.

Section Frames.
Context (G : list goal) (ph : nat -> Z) (P : nat -> option (nat * bool)) (R : nat -> Z).

(** Main's side of the child [i]: linked, event given, decrement due. *)
Definition linked i : bool := match P i with Some (p, b) => link_at b <? R p | None => false end.
Definition main_ev i : bool := match P i with Some (p, b) => event_at b <? R p | None => false end.
Definition main_dec i : bool := match P i with Some (p, b) => R p =? dec_at b | None => false end.

(** The parent's counter has been decremented for [i]. *)
Definition counted i : bool := (9 <=? ph i) && main_ev i && negb (main_dec i).

Definition payload_ok (g : goal) (f : parFrame) : Prop :=
  match g_kids g with
  | None => fr_hash (g_fr g) = hashLeaf (version f) (leafKey f) (leafValue f) /\
      g_enc g = encodeLeafNode (leafKey f) (leafValue f)
  | Some (l, r) => leftChild f = Some l /\ rightChild f = Some r /\
      exists gl gr, G !! l = Some gl /\ G !! r = Some gr /\
        fr_hash (g_fr g) = hashInner (version f) (height f) (size f) (fr_hash (g_fr gl)) (fr_hash (g_fr gr)) /\
        g_enc g = encodeInnerNode (height f) (size f) (innerKey f) (fr_hash (g_fr g))
          (fr_version (g_fr gl)) (fr_nonce (g_fr gl)) (fr_version (g_fr gr)) (fr_nonce (g_fr gr))
  end.

Record finv (i : nat) (g : goal) (f : parFrame) : Prop := {
  fi_static : size f = fr_size (g_fr g) /\ version f = fr_version (g_fr g) /\ nonce f = fr_nonce (g_fr g) /\
    height f = fr_height (g_fr g) /\ (height f = 0 <-> g_kids g = None);
  fi_hash : 2 <= ph i -> hash f = fr_hash (g_fr g);
  fi_enc : 2 <= ph i <= 5 -> encoded f = Some (g_enc g);
  fi_payload : ph i <= 1 -> payload_ok g f;
  fi_submitted : 1 <= ph i -> submitted f = true;
  fi_pending : match g_kids g with
    | None => True
    | Some (l, r) => pending f = 2 - b2z (counted l) - b2z (counted r)
    end;
  fi_built : g_kids g <> None -> built f = (7 <=? R i);
  fi_ready : g_kids g <> None -> submitted f = true -> pending f = 0;
  fi_events : events f = b2z (7 <=? ph i) + b2z (main_ev i);
  fi_parent : match parent f with Some p => exists b, P i = Some (p, b) | None => True end;
  fi_linked : linked i = true -> ph i <= 7 -> exists p b, P i = Some (p, b) /\ parent f = Some p;
  fi_owed : 7 <= ph i <= 8 -> main_ev i = true /\ main_dec i = false;
  fi_dec : main_dec i = true -> 9 <= ph i
}.
End Frames.

(** A frame is not affected by what happens elsewhere. *)
Lemma finv_same G ph P R ph' P' R' i g f :
  finv G ph P R i g f -> ph' i = ph i -> P' i = P i ->
  linked P' R' i = linked P R i -> main_ev P' R' i = main_ev P R i -> main_dec P' R' i = main_dec P R i ->
  (g_kids g <> None -> (7 <=? R' i) = (7 <=? R i)) ->
  (forall l r, g_kids g = Some (l, r) -> counted ph' P' R' l = counted ph P R l /\ counted ph' P' R' r = counted ph P R r) ->
  finv G ph' P' R' i g f.
Proof.
  intros [H1 H2 H3 H4 H5 H6 H7 H8 H9 H10 H11 H12 H13] E1 E2 E3 E4 E5 E6 E7.
  split; rewrite ?E1, ?E2, ?E3, ?E4, ?E5; try done.
  - destruct (g_kids g) as [[l r]|] eqn:Ek; [|done]. destruct (E7 l r eq_refl) as [-> ->]. done.
  - intros Hk. by rewrite E6, H7.
Qed.

(** ** The invariant of the whole state *)

Definition main_wait (m : mpc) : list nat :=
  match m with MLeafEnq f => [f] | MInner IEnq p _ _ => [p] | _ => [] end.
Definition disp_wait (d : dpc) : list nat := match d with DHold f => [f] | _ => [] end.
Definition worker_wait (w : wpc) : list nat := match w with W (SEnq p) _ => [p] | _ => [] end.
Definition worker_busy (w : wpc) : list nat := match w with W _ f => [f] | _ => [] end.

Section Global.
Context {Fast : Type}.
Implicit Types (st : par Fast) (G : list goal) (P : nat -> option (nat * bool)) (ph : nat -> Z).

(** Frames submitted that no worker has; frames that a worker has. *)
Definition waiting st : list nat :=
  main_wait (main st) ++ queue st ++ disp_wait (disp st) ++ ready st ++ concat (map worker_wait (workers st)).
Definition busy st : list nat := concat (map worker_busy (workers st)).

(** The stack as it will be once the inner frame at hand is pushed. *)
Definition vstack st : list nat :=
  match main st with MInner _ p _ _ => p :: parStack st | _ => parStack st end.

#[local] Arguments waiting : simpl never.
#[local] Arguments busy : simpl never.
#[local] Arguments vstack : simpl never.
#[local] Arguments frame_at : simpl never.

Definition entry (sp : bytes) (g : goal) : bytes * bytes :=
  (nodeDBKey sp (fr_version (g_fr g)) (fr_nonce (g_fr g)), g_enc g).

Definition lone_root (G : list goal) (P : nat -> option (nat * bool)) (i : nat) : Prop :=
  P i = None /\ forall j, (j < length G)%nat -> j <> i -> P j <> None.

Record inv (sp : bytes) (G : list goal) (ph : nat -> Z) (P : nat -> option (nat * bool)) st : Prop := {
  v_len : length (heap st) = length G;
  v_prefix : si_prefix (imp_ st) = sp;
  v_frames : forall i g, G !! i = Some g -> finv G ph P (rank (main st)) i g (frame_at st i);
  v_ph : forall i, 0 <= ph i <= 13 /\ ((length G <= i)%nat -> ph i = 0);
  v_kids : forall p g l r, G !! p = Some g -> g_kids g = Some (l, r) ->
    (l < p)%nat /\ (r < p)%nat /\ P l = Some (p, false) /\ P r = Some (p, true);
  v_par : forall i p b, P i = Some (p, b) -> (i < p)%nat /\ exists g l r, G !! p = Some g /\ g_kids g = Some (l, r) /\
    i = if b then r else l;
  v_stack : NoDup (vstack st) /\ forall i, i ∈ vstack st <-> (i < length G)%nat /\ P i = None;
  v_main : match main st with
    | MLeafSub f => exists g, G !! f = Some g /\ g_kids g = None /\ ph f = 0 /\ submitted (frame_at st f) = false
    | MInner s p l r => exists g, G !! p = Some g /\ g_kids g = Some (l, r) /\ (s = ISub -> pending (frame_at st p) = 0)
    | FWait => todo st = []
    | FClose | FJoin | FDone => todo st = [] /\ hashWg st = 0
    | _ => True
    end;
  v_worker : forall w s f, workers st !! w = Some (W s f) ->
    ph f = snum s /\ (forall p, target s = Some p -> exists b, P f = Some (p, b)) /\
    match s with SBuilt p | SSub p => pending (frame_at st p) = 0 | _ => True end;
  v_nopanic : forall w, workers st !! w <> Some WPanic;
  v_waiting : NoDup (waiting st) /\ forall i, i ∈ waiting st <-> (i < length G)%nat /\ submitted (frame_at st i) = true /\ ph i = 0;
  v_busy : NoDup (busy st) /\ forall i, i ∈ busy st <-> 1 <= ph i <= 12;
  v_wg : hashWg st = len (waiting st) + len (busy st);
  v_lost : forall i g, G !! i = Some g -> submitted (frame_at st i) = false ->
    match g_kids g with
    | None => main st = MLeafSub i
    | Some (l, r) => pending (frame_at st i) = 0 -> rank (main st) i <= 8 \/ 9 <= ph l <= 10 \/ 9 <= ph r <= 10
    end;
  v_write : exists wr gs, NoDup wr /\ (forall i, i ∈ wr <-> 5 <= ph i) /\ Forall2 (fun i g => G !! i = Some g) wr gs /\
    writeQ st = map (entry sp) gs;
  v_root : forall i g, G !! i = Some g -> 4 <= ph i -> lone_root G P i -> rootEncoded st = Some (g_enc g)
}.

(** *** Access to the heap *)

Lemma frame_upd j h st i : (i < length (heap st))%nat ->
  frame_at (upd j h st) i = if decide (i = j) then h (frame_at st i) else frame_at st i.
Proof using Type.
  intros Hi. unfold frame_at, upd. cbn. destruct (lookup_lt_is_Some_2 _ _ Hi) as [f Hf]. destruct (decide (i = j)) as [->|Hne].
  - by rewrite list_lookup_alter_eq, Hf.
  - by rewrite list_lookup_alter_ne.
Qed.

Lemma heap_lt sp G ph P st i g : inv sp G ph P st -> G !! i = Some g -> (i < length (heap st))%nat.
Proof using Type. intros H Hg. rewrite (v_len _ _ _ _ _ H). by eapply lookup_lt_Some. Qed.

(** *** Tokens *)

Lemma concat_insert {A} (f : wpc -> list A) ws w x y : ws !! w = Some x ->
  concat (map f (<[w := y]> ws)) ++ f x ≡ₚ concat (map f ws) ++ f y.
Proof using Type.
  revert w. induction ws as [|z ws IH]; intros [|w] Hw; cbn in *; [done|done|..].
  - injection Hw as ->. solve_Permutation.
  - rewrite <- !app_assoc. by rewrite IH.
Qed.

Lemma concat_same {A} (f : wpc -> list A) ws w x y : ws !! w = Some x -> f y = f x ->
  concat (map f (<[w := y]> ws)) = concat (map f ws).
Proof using Type.
  revert w. induction ws as [|z ws IH]; intros [|w] Hw E; cbn in *; [done|done|..].
  - injection Hw as ->. by rewrite E.
  - f_equal. by apply IH.
Qed.

Lemma busy_elem st w s f : workers st !! w = Some (W s f) -> f ∈ busy st.
Proof using Type.
  intros Hw. unfold busy. apply list_elem_of_In, in_concat. exists [f]. split; [|by left].
  apply in_map_iff. exists (W s f). split; [done|]. apply list_elem_of_In. by eapply list_elem_of_lookup_2.
Qed.

(** A frame is with one worker only. *)
Lemma busy_unique st w w' s s' f : NoDup (busy st) ->
  workers st !! w = Some (W s f) -> workers st !! w' = Some (W s' f) -> w = w'.
Proof using Type.
  unfold busy. generalize (workers st). intros ws. revert w w'.
  assert (Hin : forall ws w s, ws !! w = Some (W s f) -> f ∈ concat (map worker_busy ws)).
  { clear. intros ws w s Hw. apply list_elem_of_In, in_concat. exists [f]. split; [|by left].
    apply in_map_iff. exists (W s f). split; [done|]. apply list_elem_of_In. by eapply list_elem_of_lookup_2. }
  induction ws as [|z ws IH]; intros [|w] [|w'] Hn Hw Hw'; cbn in *; [done..| | |].
  - injection Hw as ->. apply NoDup_app in Hn as (_ & Hn & _). destruct (Hn f ltac:(by left)). by eapply Hin.
  - injection Hw' as ->. apply NoDup_app in Hn as (_ & Hn & _). destruct (Hn f ltac:(by left)). by eapply Hin.
  - apply NoDup_app in Hn as (_ & _ & Hn). f_equal. by apply IH.
Qed.

Lemma concat_elem_inv {A} (f : wpc -> list A) ws (x : A) : x ∈ concat (map f ws) -> exists w z, ws !! w = Some z /\ x ∈ f z.
Proof using Type.
  intros (l & Hl & Hx)%list_elem_of_In%in_concat. apply in_map_iff in Hl as (z & <- & Hz).
  apply list_elem_of_In in Hz, Hx. apply list_elem_of_lookup in Hz as [w Hw]. by exists w, z.
Qed.

(** *** A worker moves on with its frame *)

(** Everything but the heap, the log and the root bytes is as before. *)
Definition same_ctl st st1 : Prop :=
  main st1 = main st /\ todo st1 = todo st /\ parStack st1 = parStack st /\ queue st1 = queue st /\ closed st1 = closed st /\
  disp st1 = disp st /\ ready st1 = ready st /\ workers st1 = workers st /\ hashWg st1 = hashWg st /\
  imp_ st1 = imp_ st /\ length (heap st1) = length (heap st).

Definition lost_ok G ph m st : Prop := forall i g l r, G !! i = Some g -> g_kids g = Some (l, r) ->
  submitted (frame_at st i) = false -> pending (frame_at st i) = 0 -> rank m i <= 8 \/ 9 <= ph l <= 10 \/ 9 <= ph r <= 10.
Definition write_ok sp G ph (log : list (bytes * bytes)) : Prop := exists wr gs, NoDup wr /\ (forall i : nat, i ∈ wr <-> 5 <= ph i) /\
  Forall2 (fun i g => G !! i = Some g) wr gs /\ log = map (entry sp) gs.
Definition root_ok G ph P (e : option bytes) : Prop := forall i g, G !! i = Some g -> 4 <= ph i -> lone_root G P i -> e = Some (g_enc g).

Lemma worker_move sp G ph P st w s f s' st1 :
  inv sp G ph P st -> workers st !! w = Some (W s f) -> worker_wait (W s f) = [] -> worker_wait (W s' f) = [] ->
  same_ctl st st1 ->
  (forall i, (i < length G)%nat -> submitted (frame_at st1 i) = submitted (frame_at st i) /\
    (pending (frame_at st i) = 0 -> pending (frame_at st1 i) = 0)) ->
  (forall i g, G !! i = Some g -> finv G (<[f := snum s']> ph) P (rank (main st)) i g (frame_at st1 i)) ->
  (forall p, target s' = Some p -> exists b, P f = Some (p, b)) ->
  match s' with SBuilt p | SSub p => pending (frame_at st1 p) = 0 | _ => True end ->
  lost_ok G (<[f := snum s']> ph) (main st) st1 ->
  write_ok sp G (<[f := snum s']> ph) (writeQ st1) -> root_ok G (<[f := snum s']> ph) P (rootEncoded st1) ->
  inv sp G (<[f := snum s']> ph) P (set_worker w (W s' f) st1).
Proof using Type.
  intros H Hw Hw1 Hw2 (E1 & E2 & E3 & E4 & E5 & E6 & E7 & E8 & E9 & E10 & E11) Hfl Hfr Ht Hp Hlost Hwr Hroot.
  assert (Hs' : 1 <= snum s' <= 12) by (destruct s'; cbn; lia).
  assert (Hf : 1 <= ph f <= 12) by (apply (v_busy _ _ _ _ _ H); by eapply busy_elem).
  assert (Hfn : (f < length G)%nat).
  { destruct (decide (f < length G)%nat) as [|Hge]; [done|]. rewrite (proj2 (v_ph _ _ _ _ _ H f)) in Hf by lia. lia. }
  assert (Ebusy : busy (set_worker w (W s' f) st1) = busy st).
  { unfold busy. cbn. rewrite E8. by apply (concat_same _ _ _ (W s f)). }
  assert (Ewait : waiting (set_worker w (W s' f) st1) = waiting st).
  { unfold waiting. cbn. rewrite E1, E4, E6, E7, E8. do 4 f_equal. apply (concat_same _ _ _ (W s f)); [done|]. by rewrite Hw1, Hw2. }
  assert (Hphi : forall i, i <> f -> (<[f := snum s']> ph : nat -> Z) i = ph i) by (intros i Hi; by apply fn_lookup_insert_ne).
  assert (Hphf : (<[f := snum s']> ph : nat -> Z) f = snum s') by apply fn_lookup_insert.
  assert (Efr : forall i, frame_at (set_worker w (W s' f) st1) i = frame_at st1 i) by done.
  split; cbn; try rewrite Ebusy; try rewrite Ewait; try setoid_rewrite Efr.
  - rewrite E11. apply H.
  - rewrite E10. apply H.
  - rewrite E1. apply Hfr.
  - intros i. destruct (decide (i = f)) as [->|Hi]; [rewrite Hphf; split; [lia|intros; lia]|rewrite Hphi by done; apply H].
  - apply H.
  - apply H.
  - pose proof (v_stack _ _ _ _ _ H) as Hv. unfold vstack in *. cbn. by rewrite E1, E3.
  - pose proof (v_main _ _ _ _ _ H) as Hm. rewrite E1, E2, E9.
    destruct (main st); try done.
    + destruct Hm as (g & Hg & Hk & H0 & Hs0). exists g. split_and!; try done; [rewrite Hphi; [done|intros ->; lia]|].
      rewrite <- Hs0. apply Hfl. by eapply lookup_lt_Some.
    + destruct Hm as (g & Hg & Hk & H0). exists g. split_and!; try done. intros Es. apply Hfl; [by eapply lookup_lt_Some|auto].
  - rewrite E8. intros w' s0 f0 Hw'. destruct (decide (w' = w)) as [->|Hne].
    + rewrite list_lookup_insert_eq in Hw' by (by eapply lookup_lt_Some). injection Hw' as <- <-. by rewrite Hphf.
    + rewrite list_lookup_insert_ne in Hw' by done. destruct (v_worker _ _ _ _ _ H _ _ _ Hw') as (A1 & A2 & A3).
      rewrite Hphi; [split_and!; [done|done|]|].
      * assert (Htg : forall p, target s0 = Some p -> (p < length G)%nat).
        { intros p Etg. destruct (A2 p Etg) as [b Hb]. destruct (v_par _ _ _ _ _ H _ _ _ Hb) as (_ & g & _ & _ & Hg & _). by eapply lookup_lt_Some. }
        destruct s0; try done; (apply Hfl; [by apply Htg|done]).
      * intros ->. apply Hne. by eapply busy_unique; [apply H|..].
  - rewrite E8. intros w' Hw'. destruct (decide (w' = w)) as [->|Hne].
    + rewrite list_lookup_insert_eq in Hw' by (by eapply lookup_lt_Some). done.
    + rewrite list_lookup_insert_ne in Hw' by done. by apply (v_nopanic _ _ _ _ _ H w').
  - split; [apply H|]. intros i. rewrite (proj2 (v_waiting _ _ _ _ _ H) i). destruct (decide (i = f)) as [->|Hi].
    + rewrite Hphf. split; [intros (_ & _ & ?); lia|intros (_ & _ & ?); lia].
    + rewrite Hphi by done. split; intros (A1 & A2 & A3); (split_and!; [done| |done]); [by rewrite (proj1 (Hfl i A1))|by rewrite <- (proj1 (Hfl i A1))].
  - split; [apply H|]. intros i. rewrite (proj2 (v_busy _ _ _ _ _ H) i). destruct (decide (i = f)) as [->|Hi].
    + rewrite Hphf. lia.
    + by rewrite Hphi.
  - rewrite E9. apply H.
  - rewrite E1. intros i g Hg Hsub. pose proof (v_lost _ _ _ _ _ H i g Hg) as Hl.
    rewrite <- (proj1 (Hfl i ltac:(by eapply lookup_lt_Some))) in Hl. specialize (Hl Hsub).
    destruct (g_kids g) as [[l r]|] eqn:Ek; [|done]. intros Hp0. by eapply Hlost.
  - exact Hwr.
  - exact Hroot.
Qed.

(** The three last premises when the step does not concern them. *)
Lemma lost_keep sp G ph P st st1 f n : inv sp G ph P st ->
  (forall i, (i < length G)%nat -> submitted (frame_at st1 i) = submitted (frame_at st i) /\
    pending (frame_at st1 i) = pending (frame_at st i)) ->
  (9 <= ph f <= 10 -> 9 <= n <= 10) -> lost_ok G (<[f := n]> ph) (main st) st1.
Proof using Type.
  intros H Hs Hn i g l r Hg Hk. destruct (Hs i ltac:(by eapply lookup_lt_Some)) as [-> ->]. intros Hsub Hp.
  pose proof (v_lost _ _ _ _ _ H i g Hg Hsub) as Hl. rewrite Hk in Hl. specialize (Hl Hp).
  destruct (decide (l = f)) as [->|Hlf]; [rewrite fn_lookup_insert|rewrite fn_lookup_insert_ne by done];
    (destruct (decide (r = f)) as [->|Hrf]; [rewrite fn_lookup_insert|rewrite fn_lookup_insert_ne by done]); lia.
Qed.

Lemma write_keep sp G ph f n log : write_ok sp G ph log -> (5 <= ph f <-> 5 <= n) -> write_ok sp G (<[f := n]> ph) log.
Proof using Type.
  intros (wr & gs & H1 & H2 & H3 & H4) Hn. exists wr, gs. split_and!; try done. intros i. rewrite H2.
  destruct (decide (i = f)) as [->|Hi]; [by rewrite fn_lookup_insert|by rewrite fn_lookup_insert_ne].
Qed.

Lemma root_keep G ph P f n e : root_ok G ph P e -> (4 <= n -> 4 <= ph f) -> root_ok G (<[f := n]> ph) P e.
Proof using Type.
  intros H Hn i g Hg Hi. apply (H i g Hg). destruct (decide (i = f)) as [->|Hne]; [|by rewrite fn_lookup_insert_ne in Hi].
  rewrite fn_lookup_insert in Hi. auto.
Qed.

(** *** A frame that advances, and the others *)

Lemma counted_ne ph P R f n c : c <> f -> counted (<[f := n]> ph) P R c = counted ph P R c.
Proof using Type. intros Hc. unfold counted. by rewrite fn_lookup_insert_ne. Qed.

Lemma finv_others G ph P R f n i g fr : i <> f -> counted (<[f := n]> ph) P R f = counted ph P R f ->
  finv G ph P R i g fr -> finv G (<[f := n]> ph) P R i g fr.
Proof using Type.
  intros Hi Hf H. eapply finv_same; [exact H|by apply fn_lookup_insert_ne|done..|].
  intros l r _. split; (destruct (decide (l = f)) as [->|]; destruct (decide (r = f)) as [->|]; try done; by apply counted_ne).
Qed.

(** Before the decrement nothing is counted; after it nothing changes. *)
Lemma counted_low ph P R f n : ph f < 9 -> n < 9 -> counted (<[f := n]> ph) P R f = counted ph P R f.
Proof using Type. intros H1 H2. unfold counted. rewrite fn_lookup_insert, !(proj2 (Z.leb_gt 9 _)) by done. done. Qed.

Lemma counted_high ph P R f n : 9 <= ph f -> 9 <= n -> counted (<[f := n]> ph) P R f = counted ph P R f.
Proof using Type. intros H1 H2. unfold counted. rewrite fn_lookup_insert, !(proj2 (Z.leb_le 9 _)) by done. done. Qed.

Lemma counted_unlinked ph P R f n : main_ev P R f = false -> counted (<[f := n]> ph) P R f = counted ph P R f.
Proof using Type. intros H. unfold counted. by rewrite H, !andb_false_r. Qed.

Lemma finv_self G ph P R i g f n f' : finv G ph P R i g f ->
  (forall l r, g_kids g = Some (l, r) -> l <> i /\ r <> i) ->
  size f' = size f /\ version f' = version f /\ nonce f' = nonce f /\ height f' = height f ->
  pending f' = pending f /\ built f' = built f /\ submitted f' = submitted f ->
  1 <= ph i -> 2 <= n -> hash f' = fr_hash (g_fr g) -> (n <= 5 -> encoded f' = Some (g_enc g)) ->
  events f' = b2z (7 <=? n) + b2z (main_ev P R i) ->
  match parent f' with Some p => exists b, P i = Some (p, b) | None => True end ->
  (linked P R i = true -> n <= 7 -> exists p b, P i = Some (p, b) /\ parent f' = Some p) ->
  (7 <= n <= 8 -> main_ev P R i = true /\ main_dec P R i = false) -> (main_dec P R i = true -> 9 <= n) ->
  finv G (<[i := n]> ph) P R i g f'.
Proof using Type.
  intros H Hk (E1 & E2 & E3 & E4) (E5 & E6 & E7) H1 Hn Hh He Hev Hp Hl Ho Hd.
  destruct H as [F1 F2 F3 F4 F5 F6 F7 F8 F9 F10 F11 F12 F13].
  split; rewrite ?fn_lookup_insert, ?E1, ?E2, ?E3, ?E4, ?E5, ?E6, ?E7; try done.
  - intros [_ ?]. by apply He.
  - intros ?. lia.
  - intros _. by apply F5.
  - destruct (g_kids g) as [[l r]|]; [|done]. destruct (Hk l r eq_refl). by rewrite !counted_ne.
Qed.

(** *** Facts about the frame a worker has *)

Lemma worker_frame sp G ph P st w s f : inv sp G ph P st -> workers st !! w = Some (W s f) ->
  exists g, G !! f = Some g /\ finv G ph P (rank (main st)) f g (frame_at st f) /\ ph f = snum s /\
    (f < length (heap st))%nat /\ forall l r, g_kids g = Some (l, r) -> l <> f /\ r <> f.
Proof using Type.
  intros H Hw. destruct (v_worker _ _ _ _ _ H _ _ _ Hw) as (Hp & _).
  destruct (G !! f) as [g|] eqn:Hg.
  - exists g. split_and!; try done; [by apply H|by eapply heap_lt|].
    intros l r Hk. destruct (v_kids _ _ _ _ _ H _ _ _ _ Hg Hk) as (? & ? & _). lia.
  - apply lookup_ge_None in Hg. rewrite (proj2 (v_ph _ _ _ _ _ H f) Hg) in Hp. by destruct s.
Qed.

Lemma same_ctl_refl st : same_ctl st st.
Proof using Type. done. Qed.

Lemma same_ctl_upd j h st : same_ctl st (upd j h st).
Proof using Type. unfold same_ctl, upd. cbn. rewrite length_alter. done. Qed.

(** The children of a submitted inner frame have given their events. *)
Lemma kids_counted sp G ph P st i g l r : inv sp G ph P st -> G !! i = Some g -> g_kids g = Some (l, r) ->
  submitted (frame_at st i) = true -> 9 <= ph l /\ 9 <= ph r.
Proof using Type.
  intros H Hg Hk Hs. pose proof (v_frames _ _ _ _ _ H _ _ Hg) as F.
  pose proof (fi_ready _ _ _ _ _ _ _ F ltac:(by rewrite Hk) Hs) as H0.
  pose proof (fi_pending _ _ _ _ _ _ _ F) as Hp. rewrite Hk, H0 in Hp.
  destruct (counted ph P (rank (main st)) l) eqn:El; [|destruct (counted ph P _ r); cbn in Hp; lia].
  destruct (counted ph P (rank (main st)) r) eqn:Er; [|cbn in Hp; lia].
  unfold counted in El, Er. split; [clear Er|clear El; rename Er into El];
    by apply andb_prop in El as [[El%Z.leb_le _]%andb_prop _].
Qed.

Lemma submitted_phase sp G ph P st i g : inv sp G ph P st -> G !! i = Some g -> 1 <= ph i -> submitted (frame_at st i) = true.
Proof using Type. intros H Hg Hp. by apply (fi_submitted _ _ _ _ _ _ _ (v_frames _ _ _ _ _ H _ _ Hg)). Qed.

(** Below a submitted lone root everything has been hashed. *)
Lemma lone_root_last sp G ph P st i g : inv sp G ph P st -> G !! i = Some g -> 1 <= ph i -> lone_root G P i ->
  forall j, (j < length G)%nat -> j <> i -> 9 <= ph j.
Proof using Type.
  intros H Hg Hi [Hr Hall].
  assert (Hup : forall k j, (length G - j <= k)%nat -> (j < length G)%nat -> j <> i -> 9 <= ph j).
  { induction k as [|k IH]; intros j Hk Hj Hne; [lia|].
    destruct (P j) as [[p b]|] eqn:Ep; [|by destruct (Hall j Hj Hne)].
    destruct (v_par _ _ _ _ _ H _ _ _ Ep) as (Hlt & gp & l & r & Hgp & Hkp & Ej).
    assert (Hpl : (p < length G)%nat) by (by eapply lookup_lt_Some).
    assert (Hsub : submitted (frame_at st p) = true).
    { apply (submitted_phase _ _ _ _ _ _ _ H Hgp). destruct (decide (p = i)) as [->|Hpi]; [done|].
      specialize (IH p ltac:(lia) Hpl Hpi). lia. }
    destruct (kids_counted _ _ _ _ _ _ _ _ _ H Hgp Hkp Hsub). by destruct b; subst j. }
  intros j. by apply (Hup (length G)); lia.
Qed.

(** *** The stages of a worker *)

(** Stages that touch only the worker's own frame. *)
Lemma worker_own sp G ph P st w s f s' h st1 g :
  inv sp G ph P st -> workers st !! w = Some (W s f) -> G !! f = Some g -> worker_wait (W s f) = [] -> worker_wait (W s' f) = [] ->
  same_ctl st st1 ->
  (forall i, (i < length (heap st))%nat -> frame_at st1 i = if decide (i = f) then h (frame_at st i) else frame_at st i) ->
  counted (<[f := snum s']> ph) P (rank (main st)) f = counted ph P (rank (main st)) f ->
  finv G (<[f := snum s']> ph) P (rank (main st)) f g (h (frame_at st f)) ->
  (submitted (h (frame_at st f)) = submitted (frame_at st f) /\ pending (h (frame_at st f)) = pending (frame_at st f)) ->
  (forall p, target s' = Some p -> exists b, P f = Some (p, b)) ->
  match s' with SBuilt p | SSub p => pending (frame_at st1 p) = 0 | _ => True end ->
  (9 <= ph f <= 10 -> 9 <= snum s' <= 10) ->
  write_ok sp G (<[f := snum s']> ph) (writeQ st1) -> root_ok G (<[f := snum s']> ph) P (rootEncoded st1) ->
  inv sp G (<[f := snum s']> ph) P (set_worker w (W s' f) st1).
Proof using Type.
  intros H Hw Hg Hw1 Hw2 Hc Hfr Hcnt Hf [Hs Hp] Ht Hm Hl Hwr Hroot.
  assert (Hflags : forall i, (i < length G)%nat -> submitted (frame_at st1 i) = submitted (frame_at st i) /\
    pending (frame_at st1 i) = pending (frame_at st i)).
  { intros i Hi. rewrite Hfr by (by rewrite (v_len _ _ _ _ _ H)). destruct (decide (i = f)) as [->|]; done. }
  eapply worker_move; try done.
  - intros i Hi. destruct (Hflags i Hi) as [-> ->]. done.
  - intros i gi Hgi. rewrite Hfr by (by eapply heap_lt). destruct (decide (i = f)) as [->|Hne].
    + by rewrite Hg in Hgi; injection Hgi as <-.
    + apply finv_others; [done|done|by apply H].
  - by eapply lost_keep.
Qed.

Lemma frame_same st (f i : nat) : frame_at st i = if decide (i = f) then id (frame_at st i) else frame_at st i.
Proof using Type. by destruct (decide (i = f)). Qed.

(** Up to the event, only the hash and the bytes change. *)
Lemma finv_early sp G ph P st i g n f' : inv sp G ph P st -> G !! i = Some g -> let f := frame_at st i in
  1 <= ph i <= 5 -> 2 <= n <= 6 ->
  size f' = size f /\ version f' = version f /\ nonce f' = nonce f /\ height f' = height f ->
  pending f' = pending f /\ built f' = built f /\ submitted f' = submitted f -> events f' = events f -> parent f' = parent f ->
  hash f' = fr_hash (g_fr g) -> (n <= 5 -> encoded f' = Some (g_enc g)) ->
  finv G (<[i := n]> ph) P (rank (main st)) i g f'.
Proof using Type.
  intros H Hg f Hp Hn E1 E2 E3 E4 E5 E6. pose proof (v_frames _ _ _ _ _ H _ _ Hg) as F. fold f in F.
  pose proof F as [F1 F2 F3 F4 F5 F6 F7 F8 F9 F10 F11 F12 F13].
  eapply finv_self; [exact F| |exact E1|exact E2|lia|lia|exact E5|exact E6| | | | |].
  - intros l r Hk. destruct (v_kids _ _ _ _ _ H _ _ _ _ Hg Hk) as (? & ? & _). lia.
  - rewrite E3, F9, !(proj2 (Z.leb_gt 7 _)) by lia. done.
  - by rewrite E4.
  - intros Hl _. rewrite E4. apply F11; [done|lia].
  - lia.
  - intros Hd. specialize (F13 Hd). lia.
Qed.

Lemma stage_hash sp G ph P st w f : inv sp G ph P st -> workers st !! w = Some (W SHash f) ->
  inv sp G (<[f := 2]> ph) P (processParFrame w SHash f st).
Proof using Type.
  intros H Hw. destruct (worker_frame _ _ _ _ _ _ _ _ H Hw) as (g & Hg & F & Hph & Hlt & Hk). cbn in Hph.
  pose proof (fi_static _ _ _ _ _ _ _ F) as (S1 & S2 & S3 & S4 & S5).
  pose proof (fi_payload _ _ _ _ _ _ _ F ltac:(lia)) as Hpay. unfold payload_ok in Hpay.
  assert (Hgo : forall h e, h = fr_hash (g_fr g) -> e = g_enc g ->
    inv sp G (<[f := snum SRoot]> ph) P (set_worker w (W SRoot f) (upd f (set_hashed h e) st))).
  { intros h e -> ->. eapply (worker_own _ _ _ _ _ _ _ _ _ (set_hashed (fr_hash (g_fr g)) (g_enc g)));
      [exact H|exact Hw|exact Hg|done|done|apply same_ctl_upd| |by apply counted_low; cbn; lia| |done|done|done|cbn; lia| |].
    - intros i Hi. by apply frame_upd.
    - by eapply finv_early; try done; cbn; lia.
    - apply write_keep; [exact (v_write _ _ _ _ _ H)|cbn; lia].
    - eapply root_keep; [exact (v_root _ _ _ _ _ H)|cbn; lia]. }
  unfold processParFrame. destruct (Z.eqb_spec (height (frame_at st f)) 0) as [E|E].
  - apply S5 in E. rewrite E in Hpay. destruct Hpay as [P1 P2]. by apply Hgo.
  - destruct (g_kids g) as [[l r]|] eqn:Ek; [|by destruct E; apply S5].
    destruct Hpay as (-> & -> & gl & gr & Hgl & Hgr & P1 & P2).
    destruct (kids_counted _ _ _ _ _ _ _ _ _ H Hg Ek (submitted_phase _ _ _ _ _ _ _ H Hg ltac:(lia))) as [Kl Kr].
    pose proof (v_frames _ _ _ _ _ H _ _ Hgl) as Fl. pose proof (v_frames _ _ _ _ _ H _ _ Hgr) as Fr.
    destruct (fi_static _ _ _ _ _ _ _ Fl) as (_ & L1 & L2 & _). destruct (fi_static _ _ _ _ _ _ _ Fr) as (_ & R1 & R2 & _).
    apply Hgo; rewrite (fi_hash _ _ _ _ _ _ _ Fl), (fi_hash _ _ _ _ _ _ _ Fr), ?L1, ?L2, ?R1, ?R2, <- ?P1 by lia; done.
Qed.

Lemma stage_root sp G ph P st w f : inv sp G ph P st -> workers st !! w = Some (W SRoot f) ->
  exists n, inv sp G (<[f := n]> ph) P (processParFrame w SRoot f st).
Proof using Type.
  intros H Hw. destruct (worker_frame _ _ _ _ _ _ _ _ H Hw) as (g & Hg & F & Hph & Hlt & Hk). cbn in Hph.
  unfold processParFrame. pose proof (fi_parent _ _ _ _ _ _ _ F) as Hpar.
  destruct (parent (frame_at st f)) as [p|] eqn:Ep.
  - exists (snum SWrite). eapply (worker_own _ _ _ _ _ _ _ _ _ id);
      [exact H|exact Hw|exact Hg|done|done|apply same_ctl_refl|intros i _; exact (frame_same st f i)|by apply counted_low; cbn; lia| |done|done|done|cbn; lia| |].
    + eapply finv_early; try done; try (cbn; lia); [by apply F; lia|intros _; apply F; lia].
    + apply write_keep; [exact (v_write _ _ _ _ _ H)|cbn; lia].
    + intros i gi Hgi. destruct (decide (i = f)) as [->|Hne].
      * intros _ [Hn _]. destruct Hpar as [b Hb]. congruence.
      * rewrite fn_lookup_insert_ne by done. by apply (v_root _ _ _ _ _ H).
  - exists (snum SSetRoot). eapply (worker_own _ _ _ _ _ _ _ _ _ id);
      [exact H|exact Hw|exact Hg|done|done|apply same_ctl_refl|intros i _; exact (frame_same st f i)|by apply counted_low; cbn; lia| |done|done|done|cbn; lia| |].
    + eapply finv_early; try done; try (cbn; lia); [by apply F; lia|intros _; apply F; lia].
    + apply write_keep; [exact (v_write _ _ _ _ _ H)|cbn; lia].
    + eapply root_keep; [exact (v_root _ _ _ _ _ H)|cbn; lia].
Qed.

Lemma stage_setroot sp G ph P st w f : inv sp G ph P st -> workers st !! w = Some (W SSetRoot f) ->
  inv sp G (<[f := snum SWrite]> ph) P (processParFrame w SSetRoot f st).
Proof using Type.
  intros H Hw. destruct (worker_frame _ _ _ _ _ _ _ _ H Hw) as (g & Hg & F & Hph & Hlt & Hk). cbn in Hph.
  unfold processParFrame. eapply (worker_own _ _ _ _ _ _ _ _ _ id);
    [exact H|exact Hw|exact Hg|done|done|done|intros i _; exact (frame_same st f i)|by apply counted_low; cbn; lia| |done|done|done|cbn; lia| |].
  - eapply finv_early; try done; try (cbn; lia); [by apply F; lia|intros _; apply F; lia].
  - apply write_keep; [exact (v_write _ _ _ _ _ H)|cbn; lia].
  - intros i gi Hgi. destruct (decide (i = f)) as [->|Hne].
    + intros _ _. rewrite Hg in Hgi. injection Hgi as <-. apply F. lia.
    + rewrite fn_lookup_insert_ne by done. intros Hi Hl.
      assert (9 <= ph f); [|lia]. eapply lone_root_last; [exact H|exact Hgi|lia|exact Hl|by eapply lookup_lt_Some|congruence].
Qed.

Lemma stage_write sp G ph P st w f : inv sp G ph P st -> workers st !! w = Some (W SWrite f) ->
  inv sp G (<[f := snum SDrop]> ph) P (processParFrame w SWrite f st).
Proof using Type.
  intros H Hw. destruct (worker_frame _ _ _ _ _ _ _ _ H Hw) as (g & Hg & F & Hph & Hlt & Hk). cbn in Hph.
  unfold processParFrame. eapply (worker_own _ _ _ _ _ _ _ _ _ id);
    [exact H|exact Hw|exact Hg|done|done|done|intros i _; exact (frame_same st f i)|by apply counted_low; cbn; lia| |done|done|done|cbn; lia| |].
  - eapply finv_early; try done; try (cbn; lia); [by apply F; lia|intros _; apply F; lia].
  - destruct (v_write _ _ _ _ _ H) as (wr & gs & W1 & W2 & W3 & W4).
    exists (wr ++ [f]), (gs ++ [g]). split_and!.
    + apply NoDup_app. split_and!; [done| |apply NoDup_singleton]. intros i Hi ->%list_elem_of_singleton. apply W2 in Hi. lia.
    + intros i. rewrite elem_of_app, list_elem_of_singleton, W2. destruct (decide (i = f)) as [->|Hne].
      * rewrite fn_lookup_insert. cbn. split; [lia|by right].
      * rewrite fn_lookup_insert_ne by done. split; [by intros [?|?]|by left].
    + apply Forall2_app; [done|by constructor].
    + cbn. rewrite W4, map_app. do 2 f_equal. unfold entry.
      destruct (fi_static _ _ _ _ _ _ _ F) as (_ & -> & -> & _). rewrite (v_prefix _ _ _ _ _ H), (fi_enc _ _ _ _ _ _ _ F) by lia. done.
  - eapply root_keep; [exact (v_root _ _ _ _ _ H)|cbn; lia].
Qed.

Lemma stage_drop sp G ph P st w f : inv sp G ph P st -> workers st !! w = Some (W SDrop f) ->
  inv sp G (<[f := snum SEvent]> ph) P (processParFrame w SDrop f st).
Proof using Type.
  intros H Hw. destruct (worker_frame _ _ _ _ _ _ _ _ H Hw) as (g & Hg & F & Hph & Hlt & Hk). cbn in Hph.
  unfold processParFrame. destruct (parent (frame_at st f)) as [p|] eqn:Ep.
  - eapply (worker_own _ _ _ _ _ _ _ _ _ (set_encoded None));
      [exact H|exact Hw|exact Hg|done|done|apply same_ctl_upd|intros i Hi; by apply frame_upd|by apply counted_low; cbn; lia| |done|done|done|cbn; lia| |].
    + eapply finv_early; try done; try (cbn; lia). by apply F; lia.
    + apply write_keep; [exact (v_write _ _ _ _ _ H)|cbn; lia].
    + eapply root_keep; [exact (v_root _ _ _ _ _ H)|cbn; lia].
  - eapply (worker_own _ _ _ _ _ _ _ _ _ id);
      [exact H|exact Hw|exact Hg|done|done|done|intros i _; exact (frame_same st f i)|by apply counted_low; cbn; lia| |done|done|done|cbn; lia| |].
    + eapply finv_early; try done; try (cbn; lia). by apply F; lia.
    + apply write_keep; [exact (v_write _ _ _ _ _ H)|cbn; lia].
    + eapply root_keep; [exact (v_root _ _ _ _ _ H)|cbn; lia].
Qed.

Lemma stage_event sp G ph P st w f : inv sp G ph P st -> workers st !! w = Some (W SEvent f) ->
  exists n, inv sp G (<[f := n]> ph) P (processParFrame w SEvent f st).
Proof using Type.
  intros H Hw. destruct (worker_frame _ _ _ _ _ _ _ _ H Hw) as (g & Hg & F & Hph & Hlt & Hk). cbn in Hph.
  unfold processParFrame. pose proof F as [F1 F2 F3 F4 F5 F6 F7 F8 F9 F10 F11 F12 F13].
  rewrite F9, Hph. cbn [Z.leb b2z Z.compare Pos.compare Pos.compare_cont Z.add].
  destruct (main_ev P (rank (main st)) f) eqn:Ev; cbn [b2z].
  - exists (snum SParent). eapply (worker_own _ _ _ _ _ _ _ _ _ (set_events 2));
      [exact H|exact Hw|exact Hg|done|done|apply same_ctl_upd|intros i Hi; by apply frame_upd|by apply counted_low; cbn; lia| |done|done|done|cbn; lia| |].
    + eapply finv_self; [exact F|done|done|done|lia|cbn; lia|apply F2; lia|cbn; lia|by rewrite Ev|done|intros Hl _; apply F11; [done|lia]| |].
      * intros _. split; [done|]. destruct (main_dec P (rank (main st)) f); [specialize (F13 eq_refl); lia|done].
      * intros Hd. specialize (F13 Hd). lia.
    + apply write_keep; [exact (v_write _ _ _ _ _ H)|cbn; lia].
    + eapply root_keep; [exact (v_root _ _ _ _ _ H)|cbn; lia].
  - exists (snum SDone). eapply (worker_own _ _ _ _ _ _ _ _ _ (set_events 1));
      [exact H|exact Hw|exact Hg|done|done|apply same_ctl_upd|intros i Hi; by apply frame_upd|by apply counted_unlinked| |done|done|done|cbn; lia| |].
    + eapply finv_self; [exact F|done|done|done|lia|cbn; lia|apply F2; lia|cbn; lia|by rewrite Ev|done|cbn; lia|cbn; lia|cbn; lia].
    + apply write_keep; [exact (v_write _ _ _ _ _ H)|cbn; lia].
    + eapply root_keep; [exact (v_root _ _ _ _ _ H)|cbn; lia].
Qed.

Lemma main_ev_linked P R i : main_ev P R i = true -> linked P R i = true.
Proof using Type.
  unfold main_ev, linked. destruct (P i) as [[p b]|]; [|done]. rewrite !Z.ltb_lt. destruct b; cbn; lia.
Qed.

Lemma stage_parent sp G ph P st w f : inv sp G ph P st -> workers st !! w = Some (W SParent f) ->
  inv sp G (<[f := 8]> ph) P (processParFrame w SParent f st).
Proof using Type.
  intros H Hw. destruct (worker_frame _ _ _ _ _ _ _ _ H Hw) as (g & Hg & F & Hph & Hlt & Hk). cbn in Hph.
  unfold processParFrame. pose proof F as [F1 F2 F3 F4 F5 F6 F7 F8 F9 F10 F11 F12 F13].
  destruct (F12 ltac:(lia)) as [Hev Hd]. destruct (F11 (main_ev_linked _ _ _ Hev) ltac:(lia)) as (p & b & Hp & ->).
  apply (worker_own sp G ph P st w SParent f (SDec p) (set_parent None) (upd f (set_parent None) st) g);
    [exact H|exact Hw|exact Hg|done|done|apply same_ctl_upd|intros i Hi; by apply frame_upd|by apply counted_low; cbn; lia| |done| |done|cbn; lia| |].
  - eapply finv_self; [exact F|done|done|done|lia|cbn; lia|apply F2; lia|cbn; lia|cbn; by rewrite F9, Hph|done|cbn; lia|done|].
    by rewrite Hd.
  - intros q [= <-]. by exists b.
  - apply write_keep; [exact (v_write _ _ _ _ _ H)|cbn; lia].
  - eapply root_keep; [exact (v_root _ _ _ _ _ H)|cbn; lia].
Qed.

(** The parent of a frame, seen from the frame. *)
Lemma parent_of sp G ph P st f p b : inv sp G ph P st -> P f = Some (p, b) ->
  exists gp l r, G !! p = Some gp /\ g_kids gp = Some (l, r) /\ f = (if b then r else l) /\ l <> r /\ f <> p /\
    (p < length (heap st))%nat.
Proof using Type.
  intros H Hp. destruct (v_par _ _ _ _ _ H _ _ _ Hp) as (Hlt & gp & l & r & Hgp & Hk & Ef).
  exists gp, l, r. split_and!; try done; [|lia|by eapply heap_lt].
  destruct (v_kids _ _ _ _ _ H _ _ _ _ Hgp Hk) as (_ & _ & El & Er). intros ->. congruence.
Qed.

(** Only its own parent counts on a frame. *)
Lemma kid_parent sp G ph P st f p b i g l r : inv sp G ph P st -> P f = Some (p, b) -> G !! i = Some g -> g_kids g = Some (l, r) ->
  i <> p -> l <> f /\ r <> f.
Proof using Type.
  intros H Hp Hg Hk Hi. destruct (v_kids _ _ _ _ _ H _ _ _ _ Hg Hk) as (_ & _ & El & Er). split; intros ->; congruence.
Qed.

Lemma lost_drop sp G ph P st st1 f p b n : inv sp G ph P st -> P f = Some (p, b) ->
  (forall i, (i < length G)%nat -> i <> p -> submitted (frame_at st1 i) = submitted (frame_at st i) /\
    pending (frame_at st1 i) = pending (frame_at st i)) ->
  (submitted (frame_at st1 p) = true \/ rank (main st) p <= 8 \/ 9 <= n <= 10 \/ pending (frame_at st1 p) <> 0) ->
  lost_ok G (<[f := n]> ph) (main st) st1.
Proof using Type.
  intros H Hp Hs Hcase i g l r Hg Hk Hsub H0. pose proof (Hs i ltac:(by eapply lookup_lt_Some)) as Hi.
  destruct (decide (i = p)) as [->|Hne].
  - destruct Hcase as [Hc|[Hc|[Hc|Hc]]]; [congruence|by left| |done]. right.
    destruct (parent_of _ _ _ _ _ _ _ _ H Hp) as (gp & l' & r' & Hgp & Hk' & Ef & _).
    rewrite Hg in Hgp. injection Hgp as <-. rewrite Hk in Hk'. injection Hk' as <- <-.
    destruct b; subst f; [right|left]; by rewrite fn_lookup_insert.
  - destruct (kid_parent _ _ _ _ _ _ _ _ _ _ _ _ H Hp Hg Hk Hne) as [Hl Hr].
    rewrite !fn_lookup_insert_ne by done. destruct (Hi Hne) as [E1 E2]. rewrite E1 in Hsub. rewrite E2 in H0.
    pose proof (v_lost _ _ _ _ _ H i g Hg Hsub) as Hlo. rewrite Hk in Hlo. by apply Hlo.
Qed.

Lemma stage_dec sp G ph P st w p f : inv sp G ph P st -> workers st !! w = Some (W (SDec p) f) ->
  exists n, inv sp G (<[f := n]> ph) P (processParFrame w (SDec p) f st).
Proof using Type.
  intros H Hw. destruct (worker_frame _ _ _ _ _ _ _ _ H Hw) as (g & Hg & F & Hph & Hlt & Hk). cbn in Hph.
  destruct (v_worker _ _ _ _ _ H _ _ _ Hw) as (_ & Ht & _). destruct (Ht p eq_refl) as [b Hp]. clear Ht.
  destruct (parent_of _ _ _ _ _ _ _ _ H Hp) as (gp & l & r & Hgp & Hkp & Ef & Hlr & Hfp & Hplt).
  pose proof (v_frames _ _ _ _ _ H _ _ Hgp) as Fp. pose proof (fi_pending _ _ _ _ _ _ _ Fp) as Hpend. rewrite Hkp in Hpend.
  destruct (fi_owed _ _ _ _ _ _ _ F ltac:(lia)) as [Hev Hd].
  assert (Hc0 : counted ph P (rank (main st)) f = false) by (unfold counted; by rewrite (proj2 (Z.leb_gt 9 _)) by lia).
  assert (Hc1 : forall n, 9 <= n -> counted (<[f := n]> ph) P (rank (main st)) f = true).
  { intros n Hn. unfold counted. by rewrite fn_lookup_insert, Hev, Hd, (proj2 (Z.leb_le 9 _)) by lia. }
  assert (Hb : forall c, 0 <= b2z c <= 1) by (intros []; cbn; lia).
  assert (Hpos : 1 <= pending (frame_at st p)).
  { pose proof (Hb (counted ph P (rank (main st)) l)). pose proof (Hb (counted ph P (rank (main st)) r)).
    destruct b; subst f; rewrite Hc0 in Hpend; cbn in Hpend; lia. }
  set (n := pending (frame_at st p) - 1) in *. set (s' := if n =? 0 then SBuilt p else SDone).
  assert (Hs' : 9 <= snum s') by (unfold s'; destruct (n =? 0); cbn; lia).
  exists (snum s'). unfold processParFrame. fold n s'.
  assert (Hfr : forall i, (i < length (heap st))%nat ->
    frame_at (upd p (set_pending n) st) i = if decide (i = p) then set_pending n (frame_at st i) else frame_at st i)
    by (intros i Hi; by apply frame_upd).
  apply (worker_move sp G ph P st w (SDec p) f s'); try done.
  - by unfold s'; destruct (n =? 0).
  - apply same_ctl_upd.
  - intros i Hi. rewrite Hfr by (by rewrite (v_len _ _ _ _ _ H)). destruct (decide (i = p)) as [->|]; [|done]. split; [done|lia].
  - intros i gi Hgi. rewrite Hfr by (by eapply heap_lt). destruct (decide (i = p)) as [->|Hip].
    + rewrite Hgp in Hgi. injection Hgi as <-. pose proof Fp as [F1 F2 F3 F4 F5 F6 F7 F8 F9 F10 F11 F12 F13].
      split; rewrite ?fn_lookup_insert_ne by done; try done.
      * rewrite Hkp. cbn [pending set_pending]. unfold n. rewrite Hpend.
        destruct b; subst f; rewrite Hc1, Hc0, counted_ne by done; cbn [b2z]; lia.
      * intros _ Hsub. specialize (F8 ltac:(by rewrite Hkp) Hsub). lia.
    + destruct (decide (i = f)) as [->|Hif].
      * rewrite Hg in Hgi. injection Hgi as <-. pose proof F as [F1 F2 F3 F4 F5 F6 F7 F8 F9 F10 F11 F12 F13].
        eapply finv_self; [exact F|done|done|done|lia|lia|apply F2; lia|lia| |exact F10|lia|lia|done].
        rewrite F9, Hph, (proj2 (Z.leb_le 7 (snum s'))) by lia. done.
      * eapply finv_same; [by apply H|by apply fn_lookup_insert_ne|done..|].
        intros l' r' Hk'. destruct (kid_parent _ _ _ _ _ _ _ _ _ _ _ _ H Hp Hgi Hk' Hip). by rewrite !counted_ne.
  - intros q. unfold s'. destruct (n =? 0); [|done]. intros [= <-]. by exists b.
  - unfold s'. destruct (Z.eqb_spec n 0) as [E|]; [|done]. rewrite Hfr by done. by rewrite decide_True.
  - eapply lost_drop; [exact H|exact Hp| |].
    + intros i Hi Hip. rewrite Hfr by (by rewrite (v_len _ _ _ _ _ H)). by rewrite decide_False.
    + unfold s'. destruct (Z.eqb_spec n 0) as [E|E]; [right; right; left; cbn; lia|]. right. right. right.
      rewrite Hfr by done. by rewrite decide_True.
  - apply write_keep; [exact (v_write _ _ _ _ _ H)|lia].
  - eapply root_keep; [exact (v_root _ _ _ _ _ H)|lia].
Qed.

(** After the decrement the phase of a frame matters to nobody. *)
Lemma finv_late sp G ph P st f n : inv sp G ph P st -> (f < length G)%nat -> 9 <= ph f -> 9 <= n ->
  forall i g, G !! i = Some g -> finv G (<[f := n]> ph) P (rank (main st)) i g (frame_at st i).
Proof using Type.
  intros H Hf Hp Hn i g Hg. pose proof (v_frames _ _ _ _ _ H _ _ Hg) as F. destruct (decide (i = f)) as [->|Hif].
  - pose proof F as [F1 F2 F3 F4 F5 F6 F7 F8 F9 F10 F11 F12 F13].
    eapply finv_self; [exact F| |done|done|lia|lia|apply F2; lia|lia| |exact F10|lia|lia|lia].
    + intros l r Hk. destruct (v_kids _ _ _ _ _ H _ _ _ _ Hg Hk) as (? & ? & _). lia.
    + rewrite F9, !(proj2 (Z.leb_le 7 _)) by lia. done.
  - apply finv_others; [done|by apply counted_high|done].
Qed.

Lemma stage_built sp G ph P st w p f : inv sp G ph P st -> workers st !! w = Some (W (SBuilt p) f) ->
  exists n, inv sp G (<[f := n]> ph) P (processParFrame w (SBuilt p) f st).
Proof using Type.
  intros H Hw. destruct (worker_frame _ _ _ _ _ _ _ _ H Hw) as (g & Hg & F & Hph & Hlt & Hk). cbn in Hph.
  destruct (v_worker _ _ _ _ _ H _ _ _ Hw) as (_ & Ht & Hp0). destruct (Ht p eq_refl) as [b Hp]. clear Ht.
  destruct (parent_of _ _ _ _ _ _ _ _ H Hp) as (gp & l & r & Hgp & Hkp & Ef & Hlr & Hfp & Hplt).
  pose proof (fi_built _ _ _ _ _ _ _ (v_frames _ _ _ _ _ H _ _ Hgp) ltac:(by rewrite Hkp)) as Hbu.
  set (s' := if built (frame_at st p) then SSub p else SDone).
  exists (snum s'). unfold processParFrame. fold s'.
  assert (Hs' : 9 <= snum s') by (unfold s'; destruct (built _); cbn; lia).
  apply (worker_move sp G ph P st w (SBuilt p) f s'); try done.
  - by unfold s'; destruct (built _).
  - eapply finv_late; [exact H|by eapply lookup_lt_Some|lia|lia].
  - intros q. unfold s'. destruct (built _); [|done]. intros [= <-]. by exists b.
  - unfold s'. by destruct (built _).
  - eapply lost_drop; [exact H|exact Hp|done|]. unfold s'. destruct (built (frame_at st p)) eqn:E; [right; right; left; cbn; lia|].
    right. left. destruct (Z.leb_spec 7 (rank (main st) p)); [congruence|lia].
  - apply write_keep; [exact (v_write _ _ _ _ _ H)|lia].
  - eapply root_keep; [exact (v_root _ _ _ _ _ H)|lia].
Qed.

Lemma stage_sub_lost sp G ph P st w p f : inv sp G ph P st -> workers st !! w = Some (W (SSub p) f) ->
  submitted (frame_at st p) = true -> inv sp G (<[f := 12]> ph) P (set_worker w (W SDone f) st).
Proof using Type.
  intros H Hw Hsub. destruct (worker_frame _ _ _ _ _ _ _ _ H Hw) as (g & Hg & F & Hph & Hlt & Hk). cbn in Hph.
  destruct (v_worker _ _ _ _ _ H _ _ _ Hw) as (_ & Ht & _). destruct (Ht p eq_refl) as [b Hp]. clear Ht.
  apply (worker_move sp G ph P st w (SSub p) f SDone); try done.
  - eapply finv_late; [exact H|by eapply lookup_lt_Some|lia|cbn; lia].
  - eapply lost_drop; [exact H|exact Hp|done|]. by left.
  - apply write_keep; [exact (v_write _ _ _ _ _ H)|cbn; lia].
  - eapply root_keep; [exact (v_root _ _ _ _ _ H)|cbn; lia].
Qed.

(** *** Steps that move tokens *)

Lemma waiting_worker st w x y : workers st !! w = Some x ->
  waiting (set_worker w y st) ++ worker_wait x ≡ₚ waiting st ++ worker_wait y.
Proof using Type.
  intros Hw. unfold waiting. cbn. pose proof (concat_insert worker_wait _ _ _ y Hw) as E. rewrite <- !app_assoc. by rewrite E.
Qed.

Lemma busy_worker st w x y : workers st !! w = Some x ->
  busy (set_worker w y st) ++ worker_busy x ≡ₚ busy st ++ worker_busy y.
Proof using Type. intros Hw. unfold busy. cbn. by apply concat_insert. Qed.

Lemma len_perm {A} (l l' : list A) : l ≡ₚ l' -> len l = len l'.
Proof using Type. intros E. unfold len. by rewrite E. Qed.

(** A set of tokens after one has come or gone. *)
Lemma tokens_add (l l' : list nat) x (Q Q' : nat -> Prop) : l' ≡ₚ x :: l -> NoDup l -> (forall i, i ∈ l <-> Q i) ->
  ~ Q x -> Q' x -> (forall i, i <> x -> Q' i <-> Q i) -> NoDup l' /\ forall i, i ∈ l' <-> Q' i.
Proof using Type.
  intros E Hn Hl Hx Hx' Hq. split.
  - rewrite E. constructor; [|done]. by rewrite Hl.
  - intros i. rewrite E, elem_of_cons, Hl. destruct (decide (i = x)) as [->|Hi]; [split; [done|by left]|].
    rewrite (Hq i Hi). split; [by intros [?|?]|by right].
Qed.

Lemma tokens_remove (l l' : list nat) x (Q Q' : nat -> Prop) : l ≡ₚ x :: l' -> NoDup l -> (forall i, i ∈ l <-> Q i) ->
  ~ Q' x -> (forall i, i <> x -> Q' i <-> Q i) -> NoDup l' /\ forall i, i ∈ l' <-> Q' i.
Proof using Type.
  intros E Hn Hl Hx Hq. rewrite E in Hn. apply NoDup_cons in Hn as [Hni Hn]. split; [done|].
  intros i. destruct (decide (i = x)) as [->|Hi]; [split; [done|by intros ?]|].
  rewrite (Hq i Hi), <- Hl, E, elem_of_cons. split; [by right|by intros [?|?]].
Qed.

Lemma tokens_same (l l' : list nat) (Q Q' : nat -> Prop) : l' ≡ₚ l -> NoDup l -> (forall i, i ∈ l <-> Q i) ->
  (forall i, Q' i <-> Q i) -> NoDup l' /\ forall i, i ∈ l' <-> Q' i.
Proof using Type. intros E Hn Hl Hq. rewrite E. split; [done|]. intros i. by rewrite Hq, E. Qed.

(** What every such step of a worker leaves alone. *)
Definition same_main st st1 : Prop :=
  main st1 = main st /\ todo st1 = todo st /\ parStack st1 = parStack st /\ workers st1 = workers st /\ imp_ st1 = imp_ st /\
  length (heap st1) = length (heap st).

Definition pc_ok st ph P (x : wpc) : Prop :=
  match x with
  | W s f => ph f = snum s /\ (forall p, target s = Some p -> exists b, P f = Some (p, b)) /\
      match s with SBuilt p | SSub p => pending (frame_at st p) = 0 | _ => True end
  | WPanic => False
  | _ => True
  end.

Lemma worker_gen sp G ph ph' P st w x st1 :
  inv sp G ph P st -> (w < length (workers st))%nat -> same_main st st1 -> (hashWg st = 0 -> hashWg st1 = 0) ->
  (forall i, (i < length G)%nat -> pending (frame_at st1 i) = pending (frame_at st i)) ->
  (forall i g, G !! i = Some g -> finv G ph' P (rank (main st)) i g (frame_at st1 i)) ->
  (forall i, 0 <= ph' i <= 13 /\ ((length G <= i)%nat -> ph' i = 0)) ->
  pc_ok st1 ph' P x -> (forall w' s f, w' <> w -> workers st !! w' = Some (W s f) -> ph' f = ph f) ->
  (forall f g, main st = MLeafSub f -> G !! f = Some g -> g_kids g = None -> ph f = 0 -> submitted (frame_at st f) = false ->
    ph' f = ph f /\ submitted (frame_at st1 f) = false) ->
  let st' := set_worker w x st1 in
  NoDup (waiting st') /\ (forall i, i ∈ waiting st' <-> (i < length G)%nat /\ submitted (frame_at st1 i) = true /\ ph' i = 0) ->
  NoDup (busy st') /\ (forall i, i ∈ busy st' <-> 1 <= ph' i <= 12) -> hashWg st1 = len (waiting st') + len (busy st') ->
  (forall i, (i < length G)%nat -> submitted (frame_at st i) = true -> submitted (frame_at st1 i) = true) ->
  lost_ok G ph' (main st) st1 -> write_ok sp G ph' (writeQ st1) -> root_ok G ph' P (rootEncoded st1) ->
  inv sp G ph' P st'.
Proof using Type.
  intros H Hw (E1 & E2 & E3 & E4 & E5 & E6) Hwg0 Hpe Hfr Hph Hpc Hoth Hleaf st' Hwait Hbusy Hwg Hsub Hlost Hwr Hroot.
  assert (Efr : forall i, frame_at st' i = frame_at st1 i) by done.
  split; try setoid_rewrite Efr; unfold st' in *; cbn [set_worker heap imp_ main todo hashWg workers rootEncoded writeQ].
  - rewrite E6. apply H.
  - rewrite E5. apply H.
  - by rewrite E1.
  - exact Hph.
  - apply H.
  - apply H.
  - pose proof (v_stack _ _ _ _ _ H) as Hv. unfold vstack in *. cbn. by rewrite E1, E3.
  - pose proof (v_main _ _ _ _ _ H) as Hm. rewrite E1, E2. destruct (main st); try done.
    + destruct Hm as (g & Hg & Hk & H0 & Hs0). exists g. by destruct (Hleaf f g) as [-> ?].
    + destruct Hm as (g & Hg & Hk & H0). exists g. split_and!; try done. intros Es. etransitivity; [apply Hpe; by eapply lookup_lt_Some|auto].
    + destruct Hm. auto.
    + destruct Hm. auto.
    + destruct Hm. auto.
  - rewrite E4. intros w' s f Hw'. destruct (decide (w' = w)) as [->|Hne].
    + rewrite list_lookup_insert_eq in Hw' by done. injection Hw' as ->. exact Hpc.
    + rewrite list_lookup_insert_ne in Hw' by done. rewrite (Hoth _ _ _ Hne Hw').
      destruct (v_worker _ _ _ _ _ H _ _ _ Hw') as (A1 & A2 & A3). split_and!; [done|done|].
      assert (Htg : forall p, target s = Some p -> (p < length G)%nat).
      { intros p Etg. destruct (A2 p Etg) as [b Hb]. destruct (v_par _ _ _ _ _ H _ _ _ Hb) as (_ & g & _ & _ & Hg & _). by eapply lookup_lt_Some. }
      destruct s; try done; (etransitivity; [apply Hpe; by apply Htg|done]).
  - rewrite E4. intros w' Hw'. destruct (decide (w' = w)) as [->|Hne].
    + rewrite list_lookup_insert_eq in Hw' by done. by injection Hw' as ->.
    + rewrite list_lookup_insert_ne in Hw' by done. by apply (v_nopanic _ _ _ _ _ H w').
  - exact Hwait.
  - exact Hbusy.
  - exact Hwg.
  - rewrite E1. intros i g Hg Hs. assert (Hi : (i < length G)%nat) by (by eapply lookup_lt_Some).
    destruct (g_kids g) as [[l r]|] eqn:Ek.
    + intros H0. by eapply Hlost.
    + pose proof (v_lost _ _ _ _ _ H i g Hg) as Hl. rewrite Ek in Hl. apply Hl.
      destruct (submitted (frame_at st i)) eqn:E; [|done]. rewrite (Hsub i Hi E) in Hs. done.
  - exact Hwr.
  - exact Hroot.
Qed.
(** A worker's phase stays with the frames in hand of the others. *)
Lemma others_keep sp G ph P st w s f n : inv sp G ph P st -> workers st !! w = Some (W s f) ->
  forall w' s' f', w' <> w -> workers st !! w' = Some (W s' f') -> (<[f := n]> ph : nat -> Z) f' = ph f'.
Proof using Type.
  intros H Hw w' s' f' Hne Hw'. apply fn_lookup_insert_ne. intros <-. apply Hne. eapply busy_unique; [apply H|exact Hw'|exact Hw].
Qed.

Lemma phases_keep sp G ph P st f n : inv sp G ph P st -> (f < length G)%nat -> 0 <= n <= 13 ->
  forall i, 0 <= (<[f := n]> ph : nat -> Z) i <= 13 /\ ((length G <= i)%nat -> (<[f := n]> ph : nat -> Z) i = 0).
Proof using Type.
  intros H Hf Hn i. destruct (decide (i = f)) as [->|Hi]; [rewrite fn_lookup_insert; split; [done|lia]|].
  rewrite fn_lookup_insert_ne by done. apply H.
Qed.

Lemma unsubmitted_phase sp G ph P st i : inv sp G ph P st -> (i < length G)%nat -> submitted (frame_at st i) = false -> ph i = 0.
Proof using Type.
  intros H Hi Hs. destruct (lookup_lt_is_Some_2 _ _ Hi) as [g Hg]. pose proof (proj1 (v_ph _ _ _ _ _ H i)).
  destruct (decide (ph i = 0)) as [|Hne]; [done|]. rewrite (submitted_phase _ _ _ _ _ _ _ H Hg) in Hs by lia. done.
Qed.

(** No frame is in hand when the wait group is at zero. *)
Lemma wg_zero sp G ph P st : inv sp G ph P st -> hashWg st = 0 -> waiting st = [] /\ busy st = [].
Proof using Type.
  intros H. rewrite (v_wg _ _ _ _ _ H). pose proof (len_nonneg (waiting st)) as H1. pose proof (len_nonneg (busy st)) as H2.
  intros E. split; apply nil_length_inv; unfold len in *; lia.
Qed.

Lemma wg_busy sp G ph P st w s f : inv sp G ph P st -> workers st !! w = Some (W s f) -> hashWg st <> 0.
Proof using Type.
  intros H Hw E. destruct (wg_zero _ _ _ _ _ H E) as [_ Hb]. pose proof (busy_elem _ _ _ _ Hw) as Hin. rewrite Hb in Hin.
  by apply not_elem_of_nil in Hin.
Qed.

Lemma stage_sub_won sp G ph P st w p f : inv sp G ph P st -> workers st !! w = Some (W (SSub p) f) ->
  submitted (frame_at st p) = false ->
  inv sp G (<[f := 11]> ph) P (set_worker w (W (SEnq p) f) (set_wg (hashWg st + 1) (upd p (fun fr => set_flags (built fr) true fr) st))).
Proof using Type.
  intros H Hw Hsub. destruct (worker_frame _ _ _ _ _ _ _ _ H Hw) as (g & Hg & F & Hph & Hlt & Hk). cbn in Hph.
  destruct (v_worker _ _ _ _ _ H _ _ _ Hw) as (_ & Ht & Hp0). destruct (Ht p eq_refl) as [b Hp]. clear Ht.
  destruct (parent_of _ _ _ _ _ _ _ _ H Hp) as (gp & l & r & Hgp & Hkp & Ef & Hlr & Hfp & Hplt).
  set (st1 := set_wg (hashWg st + 1) (upd p (fun fr => set_flags (built fr) true fr) st)).
  assert (Hfr : forall i, (i < length (heap st))%nat ->
    frame_at st1 i = if decide (i = p) then set_flags (built (frame_at st i)) true (frame_at st i) else frame_at st i)
    by (intros i Hi; by apply (frame_upd p (fun fr => set_flags (built fr) true fr))).
  assert (Hlen := v_len _ _ _ _ _ H).
  assert (Hwt := waiting_worker st w _ (W (SEnq p) f) Hw). assert (Hbt := busy_worker st w _ (W (SEnq p) f) Hw).
  cbn [worker_wait worker_busy] in Hwt, Hbt. rewrite app_nil_r in Hwt. apply Permutation_app_inv_r in Hbt.
  change (waiting (set_worker w (W (SEnq p) f) st)) with (waiting (set_worker w (W (SEnq p) f) st1)) in Hwt.
  change (busy (set_worker w (W (SEnq p) f) st)) with (busy (set_worker w (W (SEnq p) f) st1)) in Hbt.
  assert (Hfb : 1 <= ph f <= 12) by lia. assert (Hp00 : ph p = 0) by (eapply unsubmitted_phase; [exact H|lia|done]).
  apply (worker_gen sp G ph (<[f := 11]> ph) P st w (W (SEnq p) f) st1); try done.
  - by eapply lookup_lt_Some.
  - unfold same_main, st1, upd. cbn. by rewrite length_alter.
  - intros E. by destruct (wg_busy _ _ _ _ _ _ _ _ H Hw).
  - intros i Hi. rewrite Hfr by lia. by destruct (decide (i = p)).
  - intros i gi Hgi. rewrite Hfr by (by eapply heap_lt).
    assert (Fi := finv_late _ _ _ _ _ f 11 H ltac:(by eapply lookup_lt_Some) ltac:(lia) ltac:(lia) i gi Hgi).
    destruct (decide (i = p)) as [->|Hip]; [|exact Fi].
    destruct Fi as [F1 F2 F3 F4 F5 F6 F7 F8 F9 F10 F11 F12 F13]. split; done.
  - eapply phases_keep; [exact H|by eapply lookup_lt_Some|lia].
  - split_and!; [apply fn_lookup_insert| |done]. intros q [= <-]. by exists b.
  - by eapply others_keep.
  - intros f0 g0 Em Hg0 Hk0 Hf0 Hs0. split; [apply fn_lookup_insert_ne; intros ->; lia|].
    rewrite Hfr by (by eapply heap_lt). destruct (decide (f0 = p)) as [->|]; [congruence|done].
  - eapply (tokens_add _ _ p); [etransitivity; [exact Hwt|symmetry; apply Permutation_cons_append]|apply H|apply H|..].
    + intros (_ & E & _). congruence.
    + rewrite Hfr by done. rewrite decide_True by done. rewrite fn_lookup_insert_ne by done. split_and!; [by eapply lookup_lt_Some|done|done].
    + intros i Hi. cbn. destruct (decide (i = f)) as [->|Hif]; [rewrite fn_lookup_insert; split; intros (_ & _ & ?); lia|].
      rewrite fn_lookup_insert_ne by done. split; intros (A1 & A2 & A3); (split_and!; [done| |done]);
        rewrite Hfr, decide_False in * by (done || lia); done.
  - eapply tokens_same; [exact Hbt|apply H|apply H|]. intros i. cbn. destruct (decide (i = f)) as [->|Hif].
    + rewrite fn_lookup_insert. lia.
    + by rewrite fn_lookup_insert_ne.
  - cbn. rewrite (len_perm _ _ Hwt), (len_perm _ _ Hbt), len_app, (v_wg _ _ _ _ _ H), len_cons, len_nil. lia.
  - intros i Hi Es. rewrite Hfr by lia. by destruct (decide (i = p)).
  - eapply lost_drop; [exact H|exact Hp| |].
    + intros i Hi Hip. rewrite Hfr by lia. by rewrite decide_False.
    + left. rewrite Hfr by done. by rewrite decide_True.
  - apply write_keep; [exact (v_write _ _ _ _ _ H)|lia].
  - eapply root_keep; [exact (v_root _ _ _ _ _ H)|lia].
Qed.

Lemma stage_enq sp G ph P st w p f : inv sp G ph P st -> workers st !! w = Some (W (SEnq p) f) ->
  inv sp G (<[f := 12]> ph) P (set_worker w (W SDone f) (set_queue (queue st ++ [p]) st)).
Proof using Type.
  intros H Hw. destruct (worker_frame _ _ _ _ _ _ _ _ H Hw) as (g & Hg & F & Hph & Hlt & Hk). cbn in Hph.
  set (st1 := set_queue (queue st ++ [p]) st).
  assert (Hwt : waiting (set_worker w (W SDone f) st1) ≡ₚ waiting st).
  { pose proof (waiting_worker st1 w _ (W SDone f) Hw) as E. cbn [worker_wait] in E. rewrite app_nil_r in E.
    apply (Permutation_app_inv_r [p]). rewrite E. unfold waiting, st1. cbn. solve_Permutation. }
  assert (Hbt : busy (set_worker w (W SDone f) st1) ≡ₚ busy st).
  { pose proof (busy_worker st1 w _ (W SDone f) Hw) as E. cbn [worker_busy] in E. by apply Permutation_app_inv_r in E. }
  apply (worker_gen sp G ph (<[f := 12]> ph) P st w (W SDone f) st1); try done.
  - by eapply lookup_lt_Some.
  - refine (finv_late sp G ph P st f 12 H _ _ _); [by eapply lookup_lt_Some|lia|lia].
  - eapply phases_keep; [exact H|by eapply lookup_lt_Some|lia].
  - split_and!; [apply fn_lookup_insert|done|done].
  - by eapply others_keep.
  - intros f0 g0 Em Hg0 Hk0 Hf0 Hs0. split; [apply fn_lookup_insert_ne; intros ->; lia|done].
  - eapply tokens_same; [exact Hwt|apply H|apply H|]. intros i. destruct (decide (i = f)) as [->|Hif].
    + rewrite fn_lookup_insert. split; intros (_ & _ & ?); lia.
    + by rewrite fn_lookup_insert_ne.
  - eapply tokens_same; [exact Hbt|apply H|apply H|]. intros i. destruct (decide (i = f)) as [->|Hif].
    + rewrite fn_lookup_insert. lia.
    + by rewrite fn_lookup_insert_ne.
  - cbn. rewrite (len_perm _ _ Hwt), (len_perm _ _ Hbt). apply H.
  - eapply lost_keep; [exact H|done|lia].
  - apply write_keep; [exact (v_write _ _ _ _ _ H)|lia].
  - eapply root_keep; [exact (v_root _ _ _ _ _ H)|lia].
Qed.

Lemma stage_done sp G ph P st w f : inv sp G ph P st -> workers st !! w = Some (W SDone f) ->
  inv sp G (<[f := 13]> ph) P (processParFrame w SDone f st).
Proof using Type.
  intros H Hw. destruct (worker_frame _ _ _ _ _ _ _ _ H Hw) as (g & Hg & F & Hph & Hlt & Hk). cbn in Hph.
  unfold processParFrame. set (st1 := set_wg (hashWg st - 1) st).
  assert (Hwt : waiting (set_worker w WIdle st1) ≡ₚ waiting st).
  { pose proof (waiting_worker st1 w _ WIdle Hw) as E. cbn [worker_wait] in E. by rewrite !app_nil_r in E. }
  assert (Hbt : busy st ≡ₚ f :: busy (set_worker w WIdle st1)).
  { pose proof (busy_worker st1 w _ WIdle Hw) as E. cbn [worker_busy] in E. rewrite app_nil_r in E.
    change (busy st1) with (busy st) in E. rewrite <- E. symmetry. apply Permutation_cons_append. }
  apply (worker_gen sp G ph (<[f := 13]> ph) P st w WIdle st1); try done.
  - by eapply lookup_lt_Some.
  - intros E. by destruct (wg_busy _ _ _ _ _ _ _ _ H Hw).
  - refine (finv_late sp G ph P st f 13 H _ _ _); [by eapply lookup_lt_Some|lia|lia].
  - eapply phases_keep; [exact H|by eapply lookup_lt_Some|lia].
  - by eapply others_keep.
  - intros f0 g0 Em Hg0 Hk0 Hf0 Hs0. split; [apply fn_lookup_insert_ne; intros ->; lia|done].
  - eapply tokens_same; [exact Hwt|apply H|apply H|]. intros i. destruct (decide (i = f)) as [->|Hif].
    + rewrite fn_lookup_insert. split; intros (_ & _ & ?); lia.
    + by rewrite fn_lookup_insert_ne.
  - eapply (tokens_remove _ _ f); [exact Hbt|apply H|apply H|rewrite fn_lookup_insert; lia|].
    intros i Hi. by rewrite fn_lookup_insert_ne.
  - cbn. rewrite (v_wg _ _ _ _ _ H), (len_perm _ _ Hwt), (len_perm _ _ Hbt), len_cons. lia.
  - eapply lost_keep; [exact H|done|lia].
  - apply write_keep; [exact (v_write _ _ _ _ _ H)|lia].
  - eapply root_keep; [exact (v_root _ _ _ _ _ H)|lia].
Qed.

Lemma worker_receive sp G ph P st w f r : inv sp G ph P st -> workers st !! w = Some WIdle -> ready st = f :: r ->
  inv sp G (<[f := 1]> ph) P (set_worker w (W SHash f) (set_disp (disp st) r st)).
Proof using Type.
  intros H Hw Hr. set (st1 := set_disp (disp st) r st).
  assert (Hwt : waiting st ≡ₚ f :: waiting (set_worker w (W SHash f) st1)).
  { pose proof (waiting_worker st1 w _ (W SHash f) Hw) as E. cbn [worker_wait] in E. rewrite !app_nil_r in E.
    rewrite E. unfold waiting, st1. cbn. rewrite Hr. solve_Permutation. }
  assert (Hbt : busy (set_worker w (W SHash f) st1) ≡ₚ f :: busy st).
  { pose proof (busy_worker st1 w _ (W SHash f) Hw) as E. cbn [worker_busy] in E. rewrite app_nil_r in E.
    rewrite E. symmetry. apply Permutation_cons_append. }
  assert (Hf : f ∈ waiting st) by (rewrite Hwt; by left). apply (v_waiting _ _ _ _ _ H) in Hf as (Hfl & Hfs & Hf0).
  assert (Hl1 : forall P R, counted (<[f := 1]> ph) P R f = counted ph P R f) by (intros; apply counted_low; lia).
  apply (worker_gen sp G ph (<[f := 1]> ph) P st w (W SHash f) st1); try done.
  - by eapply lookup_lt_Some.
  - intros i g Hg. pose proof (v_frames _ _ _ _ _ H _ _ Hg) as Fi. change (frame_at st1 i) with (frame_at st i).
    destruct (decide (i = f)) as [->|Hif]; [|by apply finv_others].
    destruct Fi as [F1 F2 F3 F4 F5 F6 F7 F8 F9 F10 F11 F12 F13].
    split; rewrite ?fn_lookup_insert; try done; try (intros; lia).
    + intros _. apply F4. lia.
    + destruct (g_kids g) as [[l r']|] eqn:Ek; [|done]. destruct (v_kids _ _ _ _ _ H _ _ _ _ Hg Ek) as (? & ? & _).
      by rewrite !counted_ne by lia.
    + by rewrite F9, Hf0.
    + intros Hl _. apply F11; [done|lia].
    + intros Hd. specialize (F13 Hd). lia.
  - by eapply phases_keep; [exact H| |].
  - split_and!; [apply fn_lookup_insert|done|done].
  - intros w' s' f' Hne Hw'. apply fn_lookup_insert_ne. intros <-.
    apply busy_elem in Hw'. apply (v_busy _ _ _ _ _ H) in Hw'. lia.
  - intros f0 g0 Em Hg0 Hk0 Hf00 Hs0. split; [apply fn_lookup_insert_ne; intros ->; congruence|done].
  - eapply (tokens_remove _ _ f); [exact Hwt|apply H|apply H|rewrite fn_lookup_insert; intros (_ & _ & ?); lia|].
    intros i Hi. by rewrite fn_lookup_insert_ne.
  - eapply (tokens_add _ _ f); [exact Hbt|apply H|apply H|cbn beta; lia|cbn beta; rewrite fn_lookup_insert; lia|].
    intros i Hi. by rewrite fn_lookup_insert_ne.
  - cbn. rewrite (v_wg _ _ _ _ _ H), (len_perm _ _ Hwt), (len_perm _ _ Hbt), !len_cons. lia.
  - eapply lost_keep; [exact H|done|lia].
  - apply write_keep; [exact (v_write _ _ _ _ _ H)|lia].
  - eapply root_keep; [exact (v_root _ _ _ _ _ H)|lia].
Qed.

Lemma worker_exit sp G ph P st w : inv sp G ph P st -> workers st !! w = Some WIdle ->
  inv sp G ph P (set_worker w WExit st).
Proof using Type.
  intros H Hw.
  pose proof (waiting_worker st w _ WExit Hw) as Hwt. pose proof (busy_worker st w _ WExit Hw) as Hbt.
  cbn in Hwt, Hbt. rewrite !app_nil_r in Hwt, Hbt.
  apply (worker_gen sp G ph ph P st w WExit st); try done; try (by apply H).
  - by eapply lookup_lt_Some.
  - eapply tokens_same; [exact Hwt|apply H|apply H|done].
  - eapply tokens_same; [exact Hbt|apply H|apply H|done].
  - rewrite (len_perm _ _ Hwt), (len_perm _ _ Hbt). apply H.
  - intros i g l r Hg Hk Hs. pose proof (v_lost _ _ _ _ _ H i g Hg Hs) as Hl. by rewrite Hk in Hl.
  - exact (v_root _ _ _ _ _ H).
Qed.

(** Every step of a worker. *)
Lemma worker_step sp G ph P st w st' : inv sp G ph P st -> parWorker w st = Some st' -> exists ph', inv sp G ph' P st'.
Proof using Type.
  intros H. unfold parWorker. destruct (workers st !! w) as [[|s f| |]|] eqn:Hw; [|intros Hs; injection Hs as <-|done..].
  - destruct (ready st) as [|f r] eqn:Hr.
    + destruct (disp st); [done..|]. intros Hs. injection Hs as <-. exists ph. by apply worker_exit.
    + intros Hs. injection Hs as <-. eexists. by apply worker_receive.
  - destruct s; cbn [processParFrame].
    + eexists. by apply stage_hash.
    + destruct (stage_root sp G ph P st w f H Hw) as [n Hn]. by exists (<[f := n]> ph).
    + eexists. by apply stage_setroot.
    + eexists. by apply stage_write.
    + eexists. by apply stage_drop.
    + destruct (stage_event sp G ph P st w f H Hw) as [n Hn]. by exists (<[f := n]> ph).
    + eexists. by apply stage_parent.
    + destruct (stage_dec sp G ph P st w p f H Hw) as [n Hn]. by exists (<[f := n]> ph).
    + destruct (stage_built sp G ph P st w p f H Hw) as [n Hn]. by exists (<[f := n]> ph).
    + unfold processParFrame, submit. destruct (submitted (frame_at st p)) eqn:E; eexists.
      * by eapply stage_sub_lost.
      * by apply stage_sub_won.
    + eexists. by apply stage_enq.
    + eexists. by apply stage_done.
Qed.

(** *** The dispatcher *)

Lemma disp_step sp G ph P st st' : inv sp G ph P st -> parDispatcher st = Some st' -> inv sp G ph P st'.
Proof using Type.
  intros H Hs.
  assert (Hgen : forall q d rd, queue st ++ disp_wait (disp st) ++ ready st ≡ₚ q ++ disp_wait d ++ rd ->
    inv sp G ph P (set_disp d rd (set_queue q st))).
  { intros q d rd E.
    assert (Ewt : waiting (set_disp d rd (set_queue q st)) ≡ₚ waiting st).
    { unfold waiting. cbn. apply Permutation_app_head. rewrite !app_assoc. apply Permutation_app_tail. rewrite <- !app_assoc. by rewrite E. }
    destruct H. split; try done.
    - eapply tokens_same; [exact Ewt|apply v_waiting0|apply v_waiting0|done].
    - cbn. by rewrite (len_perm _ _ Ewt). }
  assert (Heq : forall d rd, set_disp d rd st = set_disp d rd (set_queue (queue st) st)) by by destruct st.
  unfold parDispatcher in Hs. destruct (disp st) as [|f|] eqn:Ed; [| |done].
  - destruct (queue st) as [|f q] eqn:Eq.
    + destruct (closed st); [|done]. injection Hs as <-. rewrite Heq. by apply Hgen.
    + injection Hs as <-. apply Hgen. cbn. solve_Permutation.
  - destruct (_ <? _); [|done]. injection Hs as <-. rewrite Heq. apply Hgen. cbn. solve_Permutation.
Qed.

(** *** The main goroutine *)

Definition main_ok G ph st (m : mpc) : Prop :=
  match m with
  | MLeafSub f => exists g, G !! f = Some g /\ g_kids g = None /\ ph f = 0 /\ submitted (frame_at st f) = false
  | MInner s p l r => exists g, G !! p = Some g /\ g_kids g = Some (l, r) /\ (s = ISub -> pending (frame_at st p) = 0)
  | FWait => todo st = []
  | FClose | FJoin | FDone => todo st = [] /\ hashWg st = 0
  | _ => True
  end.

Definition lost_all G ph m st : Prop := forall i g, G !! i = Some g -> submitted (frame_at st i) = false ->
  match g_kids g with
  | None => m = MLeafSub i
  | Some (l, r) => pending (frame_at st i) = 0 -> rank m i <= 8 \/ 9 <= ph l <= 10 \/ 9 <= ph r <= 10
  end.

Lemma main_gen sp G ph P st st1 m :
  inv sp G ph P st -> length (heap st1) = length (heap st) -> si_prefix (imp_ st1) = si_prefix (imp_ st) ->
  workers st1 = workers st -> writeQ st1 = writeQ st -> rootEncoded st1 = rootEncoded st ->
  vstack (set_main m st1) = vstack st -> (forall i g, G !! i = Some g -> finv G ph P (rank m) i g (frame_at st1 i)) ->
  main_ok G ph st1 m -> (forall i, (i < length G)%nat -> pending (frame_at st i) = 0 -> pending (frame_at st1 i) = 0) ->
  NoDup (waiting (set_main m st1)) /\
    (forall i, i ∈ waiting (set_main m st1) <-> (i < length G)%nat /\ submitted (frame_at st1 i) = true /\ ph i = 0) ->
  hashWg st1 = len (waiting (set_main m st1)) + len (busy st) -> lost_all G ph m st1 ->
  inv sp G ph P (set_main m st1).
Proof using Type.
  intros H E1 E2 E3 E4 E5 E6 Hfr Hm Hp Hw Hwg Hlost.
  assert (Efr : forall i, frame_at (set_main m st1) i = frame_at st1 i) by done.
  assert (Ebusy : busy (set_main m st1) = busy st) by (unfold busy; cbn; by rewrite E3).
  split; try rewrite Ebusy; try setoid_rewrite Efr; cbn [set_main heap imp_ main todo hashWg workers rootEncoded writeQ].
  - rewrite E1. apply H.
  - rewrite E2. apply H.
  - exact Hfr.
  - apply H.
  - apply H.
  - apply H.
  - rewrite E6. apply H.
  - exact Hm.
  - rewrite E3. intros w s f Hw'. destruct (v_worker _ _ _ _ _ H _ _ _ Hw') as (A1 & A2 & A3). split_and!; [done|done|].
    assert (Htg : forall p, target s = Some p -> (p < length G)%nat).
    { intros p Etg. destruct (A2 p Etg) as [b Hb]. destruct (v_par _ _ _ _ _ H _ _ _ Hb) as (_ & g & _ & _ & Hg & _). by eapply lookup_lt_Some. }
    destruct s; try done; (apply Hp; [by apply Htg|exact A3]).
  - rewrite E3. apply H.
  - exact Hw.
  - apply H.
  - exact Hwg.
  - exact Hlost.
  - rewrite E4. apply H.
  - rewrite E5. apply H.
Qed.

(** The links of a child while main is at its parent, and away from it. *)
Lemma link_rank P s p l r c b : P c = Some (p, b) -> let R := rank (MInner s p l r) in
  linked P R c = (link_at b <? inum s) /\ main_ev P R c = (event_at b <? inum s) /\ main_dec P R c = (inum s =? dec_at b).
Proof using Type. intros Hc R. unfold R, linked, main_ev, main_dec, rank. by rewrite Hc, bool_decide_true. Qed.

Lemma link_other P R R' c : (forall p b, P c = Some (p, b) -> R p = R' p) ->
  linked P R c = linked P R' c /\ main_ev P R c = main_ev P R' c /\ main_dec P R c = main_dec P R' c.
Proof using Type. intros Hc. unfold linked, main_ev, main_dec. destruct (P c) as [[p b]|]; [|done]. by rewrite (Hc p b eq_refl). Qed.

Lemma rank_ne s p l r q : q <> p -> rank (MInner s p l r) q = 100.
Proof using Type. intros Hq. unfold rank. by rewrite bool_decide_false. Qed.

(** Main at the inner frame [p]: its children are below it and their own
    children do not see it. *)
Lemma grandkids sp G ph P st p l r s s' i gi l' r' : inv sp G ph P st -> main st = MInner s p l r ->
  G !! i = Some gi -> g_kids gi = Some (l', r') -> i <> p ->
  counted ph P (rank (MInner s' p l r)) l' = counted ph P (rank (main st)) l' /\
  counted ph P (rank (MInner s' p l r)) r' = counted ph P (rank (main st)) r'.
Proof using Type.
  intros H Em Hgi Hk Hi. destruct (v_kids _ _ _ _ _ H _ _ _ _ Hgi Hk) as (_ & _ & El & Er). rewrite Em.
  assert (Hc : forall c b, P c = Some (i, b) -> counted ph P (rank (MInner s' p l r)) c = counted ph P (rank (MInner s p l r)) c).
  { intros c b Hc. unfold counted. destruct (link_other P (rank (MInner s' p l r)) (rank (MInner s p l r)) c) as (_ & -> & ->); [|done].
    intros q b' Hq. rewrite Hc in Hq. injection Hq as <- _. by rewrite !rank_ne. }
  split; by eapply Hc.
Qed.

Lemma finv_kid sp G ph P st s s' p l r c b gc par ev : inv sp G ph P st -> main st = MInner s p l r ->
  P c = Some (p, b) -> G !! c = Some gc -> c <> p ->
  ev = b2z (7 <=? ph c) + b2z (event_at b <? inum s') ->
  par = Some p \/ par = parent (frame_at st c) ->
  (link_at b < inum s' -> ph c <= 7 -> par = Some p) ->
  (7 <= ph c <= 8 -> event_at b < inum s' /\ inum s' <> dec_at b) ->
  (inum s' = dec_at b -> 9 <= ph c) ->
  finv G ph P (rank (MInner s' p l r)) c gc (set_parent par (set_events ev (frame_at st c))).
Proof using Type.
  intros H Em Hc Hgc Hcp Hev Hpar Hl Ho Hd. pose proof (v_frames _ _ _ _ _ H _ _ Hgc) as F.
  destruct F as [F1 F2 F3 F4 F5 F6 F7 F8 F9 F10 F11 F12 F13].
  destruct (link_rank P s' p l r c b Hc) as (L1 & L2 & L3).
  split; rewrite ?L1, ?L2, ?L3; try done.
  - destruct (g_kids gc) as [[l' r']|] eqn:Ek; [|done].
    destruct (grandkids _ _ _ _ _ _ _ _ _ s' _ _ _ _ H Em Hgc Ek Hcp) as [-> ->]. exact F6.
  - intros Hk. rewrite rank_ne by done. rewrite Em, rank_ne in F7 by done. by apply F7.
  - cbn. destruct Hpar as [->| ->]; [by exists b|exact F10].
  - rewrite Z.ltb_lt. intros H1 H2. exists p, b. split; [done|by apply Hl].
  - rewrite Z.ltb_lt, Z.eqb_neq. exact Ho.
  - by rewrite Z.eqb_eq.
Qed.

Lemma finv_par sp G ph P st s s' p l r g n bu su : inv sp G ph P st -> main st = MInner s p l r ->
  G !! p = Some g -> g_kids g = Some (l, r) ->
  n = 2 - b2z (counted ph P (rank (MInner s' p l r)) l) - b2z (counted ph P (rank (MInner s' p l r)) r) ->
  bu = (7 <=? inum s') -> (su = true -> n = 0) -> (1 <= ph p -> su = true) ->
  finv G ph P (rank (MInner s' p l r)) p g (set_flags bu su (set_pending n (frame_at st p))).
Proof using Type.
  intros H Em Hg Hk Hn Hbu Hsu Hph. pose proof (v_frames _ _ _ _ _ H _ _ Hg) as F.
  destruct F as [F1 F2 F3 F4 F5 F6 F7 F8 F9 F10 F11 F12 F13].
  destruct (link_other P (rank (main st)) (rank (MInner s' p l r)) p) as (L1 & L2 & L3).
  { intros q b Hq. destruct (v_par _ _ _ _ _ H _ _ _ Hq) as (Hlt & _). rewrite Em. rewrite !rank_ne by lia. done. }
  rewrite L2 in *. rewrite L1, L3 in *.
  split; try done.
  - by rewrite Hk.
  - intros _. unfold rank. rewrite bool_decide_true by done. exact Hbu.
Qed.

(** Main's step at [p] seen frame by frame. *)
Lemma finv_inner sp G ph P st s s' p l r g st1 : inv sp G ph P st -> main st = MInner s p l r ->
  G !! p = Some g -> g_kids g = Some (l, r) ->
  (forall i, i <> p -> i <> l -> i <> r -> (i < length G)%nat -> frame_at st1 i = frame_at st i) ->
  (forall (b : bool) gc, let c := if b then r else l in G !! c = Some gc -> P c = Some (p, b) -> c <> p ->
    finv G ph P (rank (MInner s' p l r)) c gc (frame_at st1 c)) ->
  finv G ph P (rank (MInner s' p l r)) p g (frame_at st1 p) ->
  forall i gi, G !! i = Some gi -> finv G ph P (rank (MInner s' p l r)) i gi (frame_at st1 i).
Proof using Type.
  intros H Em Hg Hk Ho Hc Hp i gi Hgi. destruct (v_kids _ _ _ _ _ H _ _ _ _ Hg Hk) as (Kl & Kr & El & Er).
  destruct (decide (i = p)) as [->|Hip]; [rewrite Hg in Hgi; by injection Hgi as <-|].
  destruct (decide (i = l)) as [->|Hil]; [apply (Hc false gi); [done..|lia]|].
  destruct (decide (i = r)) as [->|Hir]; [apply (Hc true gi); [done..|lia]|].
  rewrite Ho by (done || by eapply lookup_lt_Some).
  destruct (link_other P (rank (MInner s' p l r)) (rank (main st)) i) as (L1 & L2 & L3).
  { intros q b Hq. destruct (v_par _ _ _ _ _ H _ _ _ Hq) as (_ & gq & lq & rq & Hgq & Hkq & Ei). rewrite Em, !rank_ne; [done|..];
      (intros ->; rewrite Hg in Hgq; injection Hgq as <-; rewrite Hk in Hkq; injection Hkq as <- <-; by destruct b). }
  eapply finv_same; [by apply H|done|done|exact L1|exact L2|exact L3| |].
  - intros _. by rewrite Em, !rank_ne.
  - intros l' r' Hk'. by eapply grandkids.
Qed.

(** A child that the step does not touch. *)
Lemma finv_kid_same sp G ph P st s s' p l r c b gc : inv sp G ph P st -> main st = MInner s p l r ->
  P c = Some (p, b) -> G !! c = Some gc -> c <> p ->
  (link_at b <? inum s') = (link_at b <? inum s) -> (event_at b <? inum s') = (event_at b <? inum s) ->
  (inum s' = dec_at b -> inum s = dec_at b) ->
  finv G ph P (rank (MInner s' p l r)) c gc (frame_at st c).
Proof using Type.
  intros H Em Hc Hgc Hcp El Ee Ed. pose proof (v_frames _ _ _ _ _ H _ _ Hgc) as F.
  destruct F as [F1 F2 F3 F4 F5 F6 F7 F8 F9 F10 F11 F12 F13]. rewrite Em in *.
  destruct (link_rank P s p l r c b Hc) as (L1 & L2 & L3). rewrite L1 in *. rewrite L2 in *. rewrite L3 in *.
  assert (E : frame_at st c = set_parent (parent (frame_at st c)) (set_events (events (frame_at st c)) (frame_at st c))) by by destruct (frame_at st c).
  rewrite E. eapply finv_kid; [exact H|exact Em|exact Hc|exact Hgc|exact Hcp|by rewrite F9, Ee|by right| | |].
  - intros H1 H2. destruct F11 as (q & b' & Hq & ->); [|done|congruence]. rewrite <- El. by apply Z.ltb_lt.
  - intros H1. destruct (F12 H1) as [H2 H3]. split; [apply Z.ltb_lt; by rewrite Ee|]. apply Z.eqb_neq in H3. auto.
  - intros H1. apply F13, Z.eqb_eq. auto.
Qed.

Lemma finv_par_same sp G ph P st s s' p l r g : inv sp G ph P st -> main st = MInner s p l r ->
  G !! p = Some g -> g_kids g = Some (l, r) ->
  (forall c b, P c = Some (p, b) -> counted ph P (rank (MInner s' p l r)) c = counted ph P (rank (MInner s p l r)) c) ->
  (7 <=? inum s') = (7 <=? inum s) -> finv G ph P (rank (MInner s' p l r)) p g (frame_at st p).
Proof using Type.
  intros H Em Hg Hk Hc Hb. pose proof (v_frames _ _ _ _ _ H _ _ Hg) as F. destruct F as [F1 F2 F3 F4 F5 F6 F7 F8 F9 F10 F11 F12 F13].
  destruct (v_kids _ _ _ _ _ H _ _ _ _ Hg Hk) as (_ & _ & El & Er).
  assert (E : frame_at st p = set_flags (built (frame_at st p)) (submitted (frame_at st p)) (set_pending (pending (frame_at st p)) (frame_at st p)))
    by by destruct (frame_at st p).
  rewrite E. eapply finv_par; [exact H|exact Em|exact Hg|exact Hk| | |by apply F8; rewrite Hk|exact F5].
  - rewrite Hk in F6. rewrite Em in F6. rewrite (Hc l _ El), (Hc r _ Er). exact F6.
  - rewrite F7 by by rewrite Hk. rewrite Em. unfold rank. by rewrite bool_decide_true.
Qed.

(** A step between stages of [addInnerPar] that moves no token. *)
Lemma inner_gen sp G ph P st st1 s s' p l r g : inv sp G ph P st -> main st = MInner s p l r ->
  G !! p = Some g -> g_kids g = Some (l, r) -> same_ctl st st1 -> writeQ st1 = writeQ st -> rootEncoded st1 = rootEncoded st ->
  main_wait (MInner s p l r) = [] -> main_wait (MInner s' p l r) = [] ->
  (forall i gi, G !! i = Some gi -> finv G ph P (rank (MInner s' p l r)) i gi (frame_at st1 i)) ->
  (s' = ISub -> pending (frame_at st1 p) = 0) ->
  (forall i, (i < length G)%nat -> submitted (frame_at st1 i) = submitted (frame_at st i) /\
    (i <> p -> pending (frame_at st1 i) = pending (frame_at st i)) /\ (pending (frame_at st i) = 0 -> pending (frame_at st1 i) = 0)) ->
  (inum s' <= 8 \/ submitted (frame_at st1 p) = true \/ pending (frame_at st1 p) <> 0) ->
  inv sp G ph P (set_main (MInner s' p l r) st1).
Proof using Type.
  intros H Em Hg Hk (E1 & E2 & E3 & E4 & E5 & E6 & E7 & E8 & E9 & E10 & E11) Ew Er Hw Hw' Hfr Hsub Hfl Hlost.
  assert (Ewt : waiting (set_main (MInner s' p l r) st1) = waiting st).
  { unfold waiting. cbn [main set_main queue disp ready workers]. by rewrite E4, E6, E7, E8, Em, Hw, Hw'. }
  apply (main_gen sp G ph P st st1); try done.
  - by rewrite E10.
  - unfold vstack. cbn. by rewrite Em, E3.
  - exists g. done.
  - intros i Hi. by apply Hfl.
  - rewrite Ewt. split; [apply H|]. intros i. rewrite (proj2 (v_waiting _ _ _ _ _ H) i).
    split; intros (A1 & A2 & A3); (split_and!; [done| |done]); [by rewrite (proj1 (Hfl i A1))|by rewrite <- (proj1 (Hfl i A1))].
  - rewrite Ewt, E9. apply H.
  - intros i gi Hgi Hs. destruct (Hfl i ltac:(by eapply lookup_lt_Some)) as (A1 & A2 & _). rewrite A1 in Hs.
    pose proof (v_lost _ _ _ _ _ H i gi Hgi Hs) as Hl. destruct (g_kids gi) as [[l' r']|]; [|congruence].
    destruct (decide (i = p)) as [->|Hip].
    + intros Hp. destruct Hlost as [Hc|[Hc|Hc]]; [|congruence|done]. left. unfold rank. by rewrite bool_decide_true.
    + rewrite A2 by done. intros Hp. specialize (Hl Hp). rewrite Em in Hl. rewrite rank_ne in * by done. exact Hl.
Qed.

(** What main knows at the inner frame. *)
Lemma inner_facts sp G ph P st s p l r : inv sp G ph P st -> main st = MInner s p l r ->
  exists g, G !! p = Some g /\ g_kids g = Some (l, r) /\ (p < length (heap st))%nat /\
    forall (b : bool), let c := if b then r else l in
      (c < length (heap st))%nat /\ c <> p /\ P c = Some (p, b) /\ c <> (if b then l else r) /\
      (exists gc, G !! c = Some gc /\ finv G ph P (rank (main st)) c gc (frame_at st c)) /\
      main_ev P (rank (main st)) c = (event_at b <? inum s) /\ main_dec P (rank (main st)) c = (inum s =? dec_at b) /\
      linked P (rank (main st)) c = (link_at b <? inum s).
Proof using Type.
  intros H Em. pose proof (v_main _ _ _ _ _ H) as Hm. rewrite Em in Hm. destruct Hm as (g & Hg & Hk & _).
  destruct (v_kids _ _ _ _ _ H _ _ _ _ Hg Hk) as (Kl & Kr & El & Er). pose proof (heap_lt _ _ _ _ _ _ _ H Hg) as Hp.
  exists g. split_and!; try done. intros b c. assert (Hc : P c = Some (p, b)) by by destruct b.
  assert (Hcl : (c < length (heap st))%nat) by (destruct b; unfold c; lia).
  destruct (link_rank P s p l r c b Hc) as (L1 & L2 & L3). rewrite <- Em in L1, L2, L3. split_and!; try done.
  - destruct b; unfold c; lia.
  - unfold c. destruct b; intros E; rewrite E in *; congruence.
  - rewrite (v_len _ _ _ _ _ H) in Hcl. destruct (lookup_lt_is_Some_2 _ _ Hcl) as [gc Hgc]. exists gc. split; [done|by apply H].
Qed.

Lemma counted_rank ph P s p l r c b : P c = Some (p, b) ->
  counted ph P (rank (MInner s p l r)) c = (9 <=? ph c) && (event_at b <? inum s) && negb (inum s =? dec_at b).
Proof using Type. intros Hc. unfold counted. by destruct (link_rank P s p l r c b Hc) as (_ & -> & ->). Qed.

Lemma step_link sp G ph P st b p l r : inv sp G ph P st -> main st = MInner (ILink b) p l r ->
  inv sp G ph P (set_main (MInner (if b then IEvent false else ILink true) p l r) (upd (if b then r else l) (set_parent (Some p)) st)).
Proof using Type.
  intros H Em. destruct (inner_facts _ _ _ _ _ _ _ _ _ H Em) as (g & Hg & Hk & Hp & Hkid).
  destruct (Hkid b) as (Hcl & Hcp & Hc & Hne & (gc & Hgc & F) & Lv & Ld & Ll). set (c := if b then r else l) in *.
  set (s' := if b then IEvent false else ILink true).
  assert (Hfr : forall i, (i < length (heap st))%nat ->
    frame_at (upd c (set_parent (Some p)) st) i = if decide (i = c) then set_parent (Some p) (frame_at st i) else frame_at st i)
    by (intros; by apply frame_upd).
  eapply (inner_gen sp G ph P st _ (ILink b) s' p l r g); try done.
  - apply same_ctl_upd.
  - by unfold s'; destruct b.
  - eapply finv_inner; [exact H|exact Em|exact Hg|exact Hk| | |].
    + intros i Hi Hil Hir Hlt. rewrite Hfr by by rewrite (v_len _ _ _ _ _ H). rewrite decide_False; [done|]. unfold c. by destruct b.
    + intros b' gc' c' Hgc' Hc' Hcp'. destruct (decide (b' = b)) as [->|Hb].
      * change c' with c. rewrite Hfr, decide_True by done. change c' with c in Hgc'. rewrite Hgc in Hgc'. injection Hgc' as <-.
        assert (E : set_parent (Some p) (frame_at st c) = set_parent (Some p) (set_events (events (frame_at st c)) (frame_at st c))) by by destruct (frame_at st c).
        rewrite E. eapply finv_kid; [exact H|exact Em|exact Hc|exact Hgc|done| |by left|done| |].
        -- rewrite (fi_events _ _ _ _ _ _ _ F), Lv. by destruct b.
        -- intros Hph. destruct (fi_owed _ _ _ _ _ _ _ F Hph) as [Hf _]. rewrite Lv in Hf. by destruct b.
        -- by destruct b.
      * assert (c' <> c) by (unfold c', c in *; by destruct b, b').
        rewrite Hfr, decide_False by (done || eapply heap_lt; done).
        eapply finv_kid_same; [exact H|exact Em|exact Hc'|exact Hgc'|done|..]; by destruct b, b'.
    + rewrite Hfr, decide_False by (done || congruence). eapply finv_par_same; [exact H|exact Em|exact Hg|exact Hk| |by destruct b].
      intros c0 b0 Hc0. rewrite !(counted_rank _ _ _ _ _ _ _ _ Hc0). by destruct b, b0, (9 <=? ph c0).
  - by unfold s'; destruct b.
  - intros i Hi. rewrite Hfr by by rewrite (v_len _ _ _ _ _ H). by destruct (decide (i = c)).
  - left. by unfold s'; destruct b.
Qed.

Lemma step_event sp G ph P st b p l r : inv sp G ph P st -> main st = MInner (IEvent b) p l r ->
  let c := if b then r else l in let n := events (frame_at st c) + 1 in
  inv sp G ph P (set_main (MInner (if n =? 2 then IDec b else if b then IBuilt else IEvent true) p l r) (upd c (set_events n) st)).
Proof using Type.
  intros H Em c n. destruct (inner_facts _ _ _ _ _ _ _ _ _ H Em) as (g & Hg & Hk & Hp & Hkid).
  destruct (Hkid b) as (Hcl & Hcp & Hc & Hne & (gc & Hgc & F) & Lv & Ld & Ll). fold c in Hcl, Hcp, Hc, Hgc, F, Lv, Ld, Ll.
  pose proof (fi_events _ _ _ _ _ _ _ F) as Hev. rewrite Lv in Hev. cbn [inum] in Hev.
  assert (Hn : n = b2z (7 <=? ph c) + 1) by (unfold n; rewrite Hev; destruct b; cbn; lia).
  assert (H78 : ~ 7 <= ph c <= 8).
  { intros Hph. destruct (fi_owed _ _ _ _ _ _ _ F Hph) as [Hf _]. rewrite Lv in Hf. by destruct b. }
  set (s' := if n =? 2 then IDec b else if b then IBuilt else IEvent true).
  assert (Hs' : (7 <= ph c /\ s' = IDec b) \/ (ph c < 7 /\ s' = if b then IBuilt else IEvent true)).
  { unfold s'. rewrite Hn. destruct (Z.leb_spec 7 (ph c)); [left|right]; done. }
  assert (Hfr : forall i, (i < length (heap st))%nat ->
    frame_at (upd c (set_events n) st) i = if decide (i = c) then set_events n (frame_at st i) else frame_at st i)
    by (intros; by apply frame_upd).
  eapply (inner_gen sp G ph P st _ (IEvent b) s' p l r g); try done.
  - apply same_ctl_upd.
  - by destruct Hs' as [[_ ->]|[_ ->]]; destruct b.
  - eapply finv_inner; [exact H|exact Em|exact Hg|exact Hk| | |].
    + intros i Hi Hil Hir Hlt. rewrite Hfr by by rewrite (v_len _ _ _ _ _ H). rewrite decide_False; [done|]. unfold c. by destruct b.
    + intros b' gc' c' Hgc' Hc' Hcp'. destruct (decide (b' = b)) as [->|Hb].
      * change c' with c. rewrite Hfr, decide_True by done. change c' with c in Hgc'. rewrite Hgc in Hgc'. injection Hgc' as <-.
        assert (E : set_events n (frame_at st c) = set_parent (parent (frame_at st c)) (set_events n (frame_at st c))) by by destruct (frame_at st c).
        rewrite E. eapply finv_kid; [exact H|exact Em|exact Hc|exact Hgc|done| |by right| | |].
        -- rewrite Hn. by destruct Hs' as [[_ ->]|[_ ->]]; destruct b.
        -- intros _ Hph. destruct (fi_linked _ _ _ _ _ _ _ F) as (q & b' & Hq & ->); [rewrite Ll; by destruct b|done|congruence].
        -- done.
        -- destruct Hs' as [[? _]|[_ ->]]; [lia|by destruct b].
      * assert (c' <> c) by (unfold c', c in *; by destruct b, b').
        rewrite Hfr, decide_False by (done || eapply heap_lt; done).
        eapply finv_kid_same; [exact H|exact Em|exact Hc'|exact Hgc'|done|..]; destruct Hs' as [[_ ->]|[_ ->]]; by destruct b, b'.
    + rewrite Hfr, decide_False by (done || congruence). eapply finv_par_same; [exact H|exact Em|exact Hg|exact Hk| |].
      * intros c0 b0 Hc0. rewrite !(counted_rank _ _ _ _ _ _ _ _ Hc0). destruct (decide (c0 = c)) as [->|Hc0c].
        -- rewrite Hc in Hc0. injection Hc0 as <-. destruct Hs' as [[_ ->]|[Hlt ->]]; [by destruct b, (9 <=? ph c)|].
           rewrite (proj2 (Z.leb_gt 9 (ph c))) by lia. done.
        -- assert (b0 <> b).
           { intros ->. apply Hc0c. destruct (v_par _ _ _ _ _ H _ _ _ Hc0) as (_ & g0 & l0 & r0 & Hg0 & Hk0 & ->).
             rewrite Hg in Hg0. injection Hg0 as <-. rewrite Hk in Hk0. by injection Hk0 as <- <-. }
           destruct Hs' as [[_ ->]|[_ ->]]; by destruct b, b0, (9 <=? ph c0).
      * destruct Hs' as [[_ ->]|[_ ->]]; by destruct b.
  - destruct Hs' as [[_ ->]|[_ ->]]; by destruct b.
  - intros i Hi. rewrite Hfr by by rewrite (v_len _ _ _ _ _ H). by destruct (decide (i = c)).
  - left. destruct Hs' as [[_ ->]|[_ ->]]; by destruct b.
Qed.

Lemma step_dec sp G ph P st b p l r : inv sp G ph P st -> main st = MInner (IDec b) p l r ->
  inv sp G ph P (set_main (MInner (if b then IBuilt else IEvent true) p l r) (upd p (fun f => set_pending (pending f - 1) f) st)).
Proof using Type.
  intros H Em. destruct (inner_facts _ _ _ _ _ _ _ _ _ H Em) as (g & Hg & Hk & Hp & Hkid).
  destruct (Hkid b) as (Hcl & Hcp & Hc & Hne & (gc & Hgc & F) & Lv & Ld & Ll). set (c := if b then r else l) in *.
  destruct (Hkid (negb b)) as (_ & _ & Hd & _). set (d := if negb b then r else l) in *.
  set (s' := if b then IBuilt else IEvent true).
  assert (H9 : 9 <= ph c) by (apply (fi_dec _ _ _ _ _ _ _ F); rewrite Ld; by destruct b).
  pose proof (v_frames _ _ _ _ _ H _ _ Hg) as Fp. pose proof (fi_pending _ _ _ _ _ _ _ Fp) as Hpend. rewrite Hk, Em in Hpend.
  assert (Hcs : counted ph P (rank (MInner (IDec b) p l r)) c = false /\ counted ph P (rank (MInner s' p l r)) c = true /\
    counted ph P (rank (MInner (IDec b) p l r)) d = counted ph P (rank (MInner s' p l r)) d).
  { rewrite !(counted_rank _ _ _ _ _ _ _ _ Hc), !(counted_rank _ _ _ _ _ _ _ _ Hd), (proj2 (Z.leb_le 9 _) H9).
    unfold s'. by destruct b, (9 <=? ph d). }
  destruct Hcs as (C1 & C2 & C3).
  assert (Hb : forall x, 0 <= b2z x <= 1) by (intros []; cbn; lia).
  assert (Hpos : 1 <= pending (frame_at st p) /\ pending (frame_at st p) - 1 =
    2 - b2z (counted ph P (rank (MInner s' p l r)) l) - b2z (counted ph P (rank (MInner s' p l r)) r)).
  { rewrite Hpend. pose proof (Hb (counted ph P (rank (MInner s' p l r)) d)).
    destruct b; unfold c, d in *; cbn [negb] in *; rewrite C1, C2, C3; cbn [b2z]; lia. }
  assert (Hns : submitted (frame_at st p) = false).
  { destruct (submitted (frame_at st p)) eqn:E; [|done]. rewrite (fi_ready _ _ _ _ _ _ _ Fp) in Hpos; [lia|by rewrite Hk|done]. }
  assert (Hfr : forall i, (i < length (heap st))%nat ->
    frame_at (upd p (fun f => set_pending (pending f - 1) f) st) i =
      if decide (i = p) then set_pending (pending (frame_at st i) - 1) (frame_at st i) else frame_at st i)
    by (intros; by apply (frame_upd p (fun f => set_pending (pending f - 1) f))).
  eapply (inner_gen sp G ph P st _ (IDec b) s' p l r g); try done.
  - apply same_ctl_upd.
  - by unfold s'; destruct b.
  - eapply finv_inner; [exact H|exact Em|exact Hg|exact Hk| | |].
    + intros i Hi Hil Hir Hlt. rewrite Hfr by by rewrite (v_len _ _ _ _ _ H). by rewrite decide_False.
    + intros b' gc' c' Hgc' Hc' Hcp'. rewrite Hfr, decide_False by (done || eapply heap_lt; done).
      eapply finv_kid_same; [exact H|exact Em|exact Hc'|exact Hgc'|done|..]; unfold s'; by destruct b, b'.
    + rewrite Hfr, decide_True by done.
      assert (E : set_pending (pending (frame_at st p) - 1) (frame_at st p) = set_flags (built (frame_at st p)) (submitted (frame_at st p))
        (set_pending (pending (frame_at st p) - 1) (frame_at st p))) by by destruct (frame_at st p).
      rewrite E. eapply finv_par; [exact H|exact Em|exact Hg|exact Hk|lia| |congruence|].
      * rewrite (fi_built _ _ _ _ _ _ _ Fp) by by rewrite Hk. rewrite Em. unfold rank, s'. rewrite bool_decide_true by done. by destruct b.
      * intros Hph. by apply Fp.
  - unfold s'. by destruct b.
  - intros i Hi. rewrite Hfr by by rewrite (v_len _ _ _ _ _ H). destruct (decide (i = p)) as [->|]; [|done]. split_and!; [done|done|lia].
  - left. unfold s'. by destruct b.
Qed.

Lemma step_built sp G ph P st p l r : inv sp G ph P st -> main st = MInner IBuilt p l r ->
  inv sp G ph P (set_main (MInner ICheck p l r) (upd p (fun f => set_flags true (submitted f) f) st)).
Proof using Type.
  intros H Em. destruct (inner_facts _ _ _ _ _ _ _ _ _ H Em) as (g & Hg & Hk & Hp & Hkid).
  pose proof (v_frames _ _ _ _ _ H _ _ Hg) as Fp. pose proof (fi_pending _ _ _ _ _ _ _ Fp) as Hpend. rewrite Hk, Em in Hpend.
  assert (Hfr : forall i, (i < length (heap st))%nat ->
    frame_at (upd p (fun f => set_flags true (submitted f) f) st) i =
      if decide (i = p) then set_flags true (submitted (frame_at st i)) (frame_at st i) else frame_at st i)
    by (intros; by apply (frame_upd p (fun f => set_flags true (submitted f) f))).
  eapply (inner_gen sp G ph P st _ IBuilt ICheck p l r g); try done.
  - apply same_ctl_upd.
  - eapply finv_inner; [exact H|exact Em|exact Hg|exact Hk| | |].
    + intros i Hi Hil Hir Hlt. rewrite Hfr by by rewrite (v_len _ _ _ _ _ H). by rewrite decide_False.
    + intros b' gc' c' Hgc' Hc' Hcp'. rewrite Hfr, decide_False by (done || eapply heap_lt; done).
      eapply finv_kid_same; [exact H|exact Em|exact Hc'|exact Hgc'|done|..]; by destruct b'.
    + rewrite Hfr, decide_True by done.
      assert (E : set_flags true (submitted (frame_at st p)) (frame_at st p) = set_flags true (submitted (frame_at st p))
        (set_pending (pending (frame_at st p)) (frame_at st p))) by by destruct (frame_at st p).
      rewrite E. destruct (Hkid false) as (_ & _ & Hl & _). destruct (Hkid true) as (_ & _ & Hr & _).
      eapply finv_par; [exact H|exact Em|exact Hg|exact Hk| |done|by apply Fp; rewrite Hk|intros Hph; by apply Fp].
      rewrite Hpend, !(counted_rank _ _ _ _ _ _ _ _ Hl), !(counted_rank _ _ _ _ _ _ _ _ Hr). done.
  - intros i Hi. rewrite Hfr by by rewrite (v_len _ _ _ _ _ H). by destruct (decide (i = p)) as [->|].
  - by left.
Qed.

(** From [built] on, the frames do not see main's stage. *)
Lemma finv_rank G ph P R R' i g f : (forall q, 7 <= R q) -> (forall q, 7 <= R' q) -> finv G ph P R i g f -> finv G ph P R' i g f.
Proof using Type.
  intros H1 H2 H.
  assert (Hx : forall q z, z < 7 -> (z <? R' q) = (z <? R q) /\ (R' q =? z) = (R q =? z)).
  { intros q z Hz. specialize (H1 q). specialize (H2 q). rewrite !(proj2 (Z.ltb_lt _ _)), !(proj2 (Z.eqb_neq _ _)) by lia. done. }
  assert (HL : forall c, linked P R' c = linked P R c /\ main_ev P R' c = main_ev P R c /\ main_dec P R' c = main_dec P R c).
  { intros c. unfold linked, main_ev, main_dec. destruct (P c) as [[q b]|]; [|done].
    assert (Hb : link_at b < 7 /\ event_at b < 7 /\ dec_at b < 7) by by destruct b. destruct Hb as (B1 & B2 & B3).
    by rewrite (proj1 (Hx q _ B1)), (proj1 (Hx q _ B2)), (proj2 (Hx q _ B3)). }
  eapply finv_same; [exact H|done|done|apply HL|apply HL|apply HL| |].
  - intros _. by rewrite !(proj2 (Z.leb_le 7 _)).
  - intros l r _. unfold counted. destruct (HL l) as (_ & -> & ->). by destruct (HL r) as (_ & -> & ->).
Qed.

Lemma rank_late s p l r : 7 <= inum s -> forall q, 7 <= rank (MInner s p l r) q.
Proof using Type. intros Hs q. unfold rank. destruct (bool_decide _); lia. Qed.

Lemma step_check sp G ph P st p l r : inv sp G ph P st -> main st = MInner ICheck p l r ->
  inv sp G ph P (set_main (MInner (if pending (frame_at st p) =? 0 then ISub else IPush) p l r) st).
Proof using Type.
  intros H Em. destruct (inner_facts _ _ _ _ _ _ _ _ _ H Em) as (g & Hg & Hk & Hp & _).
  assert (Hfr : forall s', 7 <= inum s' -> forall i gi, G !! i = Some gi -> finv G ph P (rank (MInner s' p l r)) i gi (frame_at st i)).
  { intros s' Hs' i gi Hgi. eapply finv_rank; [|by apply rank_late|by apply H]. rewrite Em. by apply rank_late. }
  destruct (Z.eqb_spec (pending (frame_at st p)) 0) as [E|E].
  - eapply (inner_gen sp G ph P st st ICheck ISub p l r g); try done; [by apply Hfr|by left].
  - eapply (inner_gen sp G ph P st st ICheck IPush p l r g); try done; [by apply Hfr|by right; right].
Qed.

Definition same_queues st st1 : Prop :=
  queue st1 = queue st /\ disp st1 = disp st /\ ready st1 = ready st /\ workers st1 = workers st /\ hashWg st1 = hashWg st.

(** A step of main that changes no frame and moves no token. *)
Lemma main_plain sp G ph P st st1 m : inv sp G ph P st -> same_queues st st1 ->
  heap st1 = heap st -> si_prefix (imp_ st1) = si_prefix (imp_ st) -> writeQ st1 = writeQ st -> rootEncoded st1 = rootEncoded st ->
  main_wait (main st) = [] -> main_wait m = [] -> (forall q, 7 <= rank (main st) q) -> (forall q, 7 <= rank m q) ->
  vstack (set_main m st1) = vstack st -> main_ok G ph st1 m -> (forall i, main st <> MLeafSub i) ->
  (forall i, rank m i <= 8 \/ 8 < rank (main st) i) -> inv sp G ph P (set_main m st1).
Proof using Type.
  intros H (E4 & E6 & E7 & E8 & E9) Eh Ei Ew Er Hw Hw' HR HR' Hv Hm Hml Hl.
  assert (Efr : forall i, frame_at st1 i = frame_at st i) by (intros i; unfold frame_at; by rewrite Eh).
  assert (Ewt : waiting (set_main m st1) = waiting st).
  { unfold waiting. cbn [main set_main queue disp ready workers]. by rewrite E4, E6, E7, E8, Hw, Hw'. }
  apply (main_gen sp G ph P st st1); try done.
  - by rewrite Eh.
  - intros i g Hg. rewrite Efr. eapply finv_rank; [exact HR|exact HR'|by apply H].
  - intros i _. by rewrite Efr.
  - rewrite Ewt. split; [apply H|]. intros i. rewrite Efr. apply H.
  - rewrite Ewt, E9. apply H.
  - intros i g Hg Hs. rewrite Efr in *. pose proof (v_lost _ _ _ _ _ H i g Hg Hs) as Ho.
    destruct (g_kids g) as [[l r]|]; [|by destruct (Hml i)]. intros Hp. specialize (Ho Hp). specialize (Hl i). lia.
Qed.

(** Main wins the compare-and-swap. *)
Lemma main_submit sp G ph P st f m : inv sp G ph P st -> main_wait (main st) = [] -> main_wait m = [f] ->
  (f < length G)%nat -> submitted (frame_at st f) = false ->
  (forall g, G !! f = Some g -> g_kids g <> None -> pending (frame_at st f) = 0) ->
  (forall q, 7 <= rank (main st) q) -> (forall q, 7 <= rank m q) -> (forall i, i <> f -> rank m i = rank (main st) i) ->
  (forall i, main st = MLeafSub i -> i = f) -> vstack (set_main m st) = vstack st ->
  let st1 := set_wg (hashWg st + 1) (upd f (fun fr => set_flags (built fr) true fr) st) in
  main_ok G ph st1 m -> inv sp G ph P (set_main m st1).
Proof using Type.
  intros H Hw Hw' Hf Hs Hp HR HR' Hr Hml Hv st1 Hm. pose proof (v_len _ _ _ _ _ H) as Hlen.
  assert (Hfr : forall i, (i < length (heap st))%nat ->
    frame_at st1 i = if decide (i = f) then set_flags (built (frame_at st i)) true (frame_at st i) else frame_at st i)
    by (intros i Hi; by apply (frame_upd f (fun fr => set_flags (built fr) true fr))).
  assert (Hph := unsubmitted_phase _ _ _ _ _ _ H Hf Hs).
  assert (Ewt : waiting (set_main m st1) = f :: waiting st).
  { unfold waiting. cbn [main set_main]. by rewrite Hw, Hw'. }
  apply (main_gen sp G ph P st st1); try done.
  - unfold st1, upd. cbn. by rewrite length_alter.
  - intros i g Hg. assert (Fi : finv G ph P (rank m) i g (frame_at st i)) by (eapply finv_rank; [exact HR|exact HR'|by apply H]).
    rewrite Hfr by by eapply heap_lt. destruct (decide (i = f)) as [->|]; [|done].
    destruct Fi as [F1 F2 F3 F4 F5 F6 F7 F8 F9 F10 F11 F12 F13]. split; try done.
    intros Hk _. by eapply Hp.
  - intros i Hi. rewrite Hfr by lia. by destruct (decide (i = f)).
  - rewrite Ewt. eapply (tokens_add _ _ f); [done|apply H|apply H|..].
    + intros (_ & E & _). congruence.
    + rewrite Hfr, decide_True by lia || done. done.
    + intros i Hi. cbn beta. split; intros (A1 & A2 & A3); (split_and!; [done| |done]); rewrite Hfr, decide_False in * by (done || lia); done.
  - rewrite Ewt, len_cons. cbn. rewrite (v_wg _ _ _ _ _ H). lia.
  - intros i g Hg. rewrite Hfr by by eapply heap_lt. destruct (decide (i = f)) as [->|Hi]; [done|]. intros Hsi.
    pose proof (v_lost _ _ _ _ _ H i g Hg Hsi) as Ho. destruct (g_kids g) as [[l r]|]; [by rewrite Hr|]. by destruct Hi; apply Hml.
Qed.

(** Main puts the frame in the queue. *)
Lemma main_enqueue sp G ph P st f m : inv sp G ph P st -> main_wait (main st) = [f] -> main_wait m = [] ->
  (forall q, 7 <= rank (main st) q) -> (forall q, 7 <= rank m q) -> (forall i, i <> f -> rank m i = rank (main st) i) ->
  vstack (set_main m st) = vstack st -> main_ok G ph st m -> inv sp G ph P (set_main m (set_queue (queue st ++ [f]) st)).
Proof using Type.
  intros H Hw Hw' HR HR' Hr Hv Hm. set (st1 := set_queue (queue st ++ [f]) st).
  assert (Ewt : waiting (set_main m st1) ≡ₚ waiting st).
  { unfold waiting. cbn [main set_main st1 set_queue queue disp ready workers]. rewrite Hw, Hw'. solve_Permutation. }
  apply (main_gen sp G ph P st st1); try done.
  - intros i g Hg. eapply finv_rank; [exact HR|exact HR'|by apply H].
  - eapply tokens_same; [exact Ewt|apply H|apply H|done].
  - rewrite (len_perm _ _ Ewt). apply H.
  - intros i g Hg Hsi. assert (Hif : i <> f).
    { intros ->. assert (Hin : f ∈ waiting st) by (unfold waiting; rewrite Hw; by left).
      apply (v_waiting _ _ _ _ _ H) in Hin as (_ & Hin & _). change (frame_at st1 f) with (frame_at st f) in Hsi. congruence. }
    pose proof (v_lost _ _ _ _ _ H i g Hg Hsi) as Ho. destruct (g_kids g) as [[l r]|]; [by rewrite Hr|]. by rewrite Ho in Hw.
Qed.

(** *** A new frame *)

Lemma finv_mono G G' ph P R i g f : (forall j x, G !! j = Some x -> G' !! j = Some x) -> finv G ph P R i g f -> finv G' ph P R i g f.
Proof using Type.
  intros HG [F1 F2 F3 F4 F5 F6 F7 F8 F9 F10 F11 F12 F13]. split; try done. intros Hp. specialize (F4 Hp). unfold payload_ok in *.
  destruct (g_kids g) as [[l r]|]; [|done]. destruct F4 as (? & ? & gl & gr & Hl & Hr & ?). split_and!; [done|done|].
  exists gl, gr. split_and!; [by apply HG|by apply HG|..]; tauto.
Qed.

Lemma no_parent sp G ph P st i : inv sp G ph P st -> (length G <= i)%nat -> P i = None.
Proof using Type.
  intros H Hi. destruct (P i) as [[p b]|] eqn:E; [|done]. destruct (v_par _ _ _ _ _ H _ _ _ E) as (Hlt & g & _ & _ & Hg & _).
  apply lookup_lt_Some in Hg. lia.
Qed.

Lemma grow sp G ph P P' st st1 m g fr : inv sp G ph P st -> main st = MNext -> same_queues st st1 ->
  heap st1 = heap st ++ [fr] -> si_prefix (imp_ st1) = si_prefix (imp_ st) -> writeQ st1 = writeQ st ->
  main_wait m = [] -> submitted fr = false -> let G' := G ++ [g] in P' (length G) = None ->
  (forall i gi, G' !! i = Some gi -> finv G' ph P' (rank m) i gi (frame_at st1 i)) ->
  (forall p gp l r, G' !! p = Some gp -> g_kids gp = Some (l, r) -> (l < p)%nat /\ (r < p)%nat /\ P' l = Some (p, false) /\ P' r = Some (p, true)) ->
  (forall i p b, P' i = Some (p, b) -> (i < p)%nat /\ exists gp l r, G' !! p = Some gp /\ g_kids gp = Some (l, r) /\ i = if b then r else l) ->
  NoDup (vstack (set_main m st1)) /\ (forall i, i ∈ vstack (set_main m st1) <-> (i < length G')%nat /\ P' i = None) ->
  main_ok G' ph st1 m -> (forall i, (i < length G)%nat -> rank m i = 100) ->
  match g_kids g with None => m = MLeafSub (length G) | Some _ => rank m (length G) <= 8 end ->
  inv sp G' ph P' (set_main m st1).
Proof using Type.
  intros H Em (E1 & E2 & E3 & E4 & E5) Eh Ei Ew Hw Hs G' Hnew Hfr Hkids Hpar Hst Hm Hrk Hlost.
  pose proof (v_len _ _ _ _ _ H) as Hlen.
  assert (HG : forall j x, G !! j = Some x -> G' !! j = Some x) by (intros j x Hx; unfold G'; by apply lookup_app_l_Some).
  assert (Hold : forall i, (i < length G)%nat -> frame_at st1 i = frame_at st i).
  { intros i Hi. unfold frame_at. by rewrite Eh, lookup_app_l by lia. }
  assert (Hfn : frame_at st1 (length G) = fr) by (unfold frame_at; by rewrite Eh, <- Hlen, list_lookup_middle).
  assert (Hin : forall i, (i < length G')%nat <-> (i < length G)%nat \/ i = length G) by (intros i; unfold G'; rewrite length_app; cbn; lia).
  assert (Efr : forall i, frame_at (set_main m st1) i = frame_at st1 i) by done.
  assert (Ewt : waiting (set_main m st1) = waiting st).
  { unfold waiting. cbn [main set_main queue disp ready workers]. by rewrite E1, E2, E3, E4, Em, Hw. }
  assert (Ebusy : busy (set_main m st1) = busy st) by (unfold busy; cbn; by rewrite E4).
  split; try rewrite Ebusy; try rewrite Ewt; try setoid_rewrite Efr; cbn [set_main heap imp_ main todo hashWg workers rootEncoded writeQ].
  - rewrite Eh. unfold G'. rewrite !length_app. cbn. lia.
  - rewrite Ei. apply H.
  - exact Hfr.
  - intros i. split; [apply H|]. intros Hi. apply (v_ph _ _ _ _ _ H). unfold G' in Hi. rewrite length_app in Hi. lia.
  - exact Hkids.
  - exact Hpar.
  - exact Hst.
  - exact Hm.
  - rewrite E4. intros w s f Hw'. destruct (v_worker _ _ _ _ _ H _ _ _ Hw') as (A1 & A2 & A3).
    assert (Hkeep : forall p b, P f = Some (p, b) -> P' f = Some (p, b) /\ (p < length G)%nat).
    { intros p b Hp. destruct (v_par _ _ _ _ _ H _ _ _ Hp) as (_ & gp & l & r & Hgp & Hk & Ef).
      destruct (Hkids p gp l r (HG _ _ Hgp) Hk) as (_ & _ & Hl & Hr). split; [by destruct b; rewrite Ef|by eapply lookup_lt_Some]. }
    split_and!; [done| |].
    + intros p Hp. destruct (A2 p Hp) as [b Hb]. exists b. by apply Hkeep.
    + destruct s; try done; (destruct (A2 _ eq_refl) as [b Hb]; etransitivity; [|exact A3]; f_equal; apply Hold; by eapply Hkeep).
  - rewrite E4. apply H.
  - split; [apply H|]. intros i. rewrite (proj2 (v_waiting _ _ _ _ _ H) i), Hin. split.
    + intros (A1 & A2 & A3). split_and!; [by left|by rewrite Hold|done].
    + intros ([A1| ->] & A2 & A3); [split_and!; [done|by rewrite <- Hold|done]|]. by rewrite Hfn, Hs in A2.
  - apply H.
  - rewrite E5. apply H.
  - intros i gi Hgi Hsi. destruct (proj1 (Hin i) ltac:(by eapply lookup_lt_Some)) as [Hi| ->].
    + rewrite Hold in * by done. unfold G' in Hgi. rewrite lookup_app_l in Hgi by done.
      pose proof (v_lost _ _ _ _ _ H i gi Hgi Hsi) as Ho. destruct (g_kids gi) as [[l r]|]; [|congruence]. rewrite Em in Ho. rewrite Hrk by done. intros Hp. apply Ho. rewrite <- (Hold i Hi). exact Hp.
    + unfold G' in Hgi. rewrite list_lookup_middle in Hgi by done. injection Hgi as <-.
      destruct (g_kids g) as [[l r]|]; [by left|done].
  - destruct (v_write _ _ _ _ _ H) as (wr & gs & W1 & W2 & W3 & W4). exists wr, gs. split_and!; [done|done| |by rewrite Ew].
    eapply Forall2_impl; [exact W3|exact HG].
  - intros i gi Hgi Hi [Hr Hall]. destruct (proj1 (Hin i) ltac:(by eapply lookup_lt_Some)) as [Hil| ->].
    + destruct (Hall (length G)); [apply Hin; by right|lia|done].
    + rewrite (proj2 (v_ph _ _ _ _ _ H (length G))) in Hi; lia.
Qed.

(** *** Main's steps within [addNode] *)

Lemma inner_waiting sp G ph P st p l r : inv sp G ph P st -> main st = MInner IEnq p l r ->
  submitted (frame_at st p) = true.
Proof using Type.
  intros H Em. assert (Hin : p ∈ waiting st) by (unfold waiting; rewrite Em; by left).
  by apply (v_waiting _ _ _ _ _ H) in Hin as (_ & Hin & _).
Qed.

Lemma inner_step_inv sp G ph P st st' s p l r : inv sp G ph P st -> main st = MInner s p l r ->
  inner_step s p l r st = Some st' -> inv sp G ph P st'.
Proof using Type.
  intros H Em Hs. destruct (inner_facts _ _ _ _ _ _ _ _ _ H Em) as (g & Hg & Hk & Hp & _).
  assert (Hv : forall s', vstack (set_main (MInner s' p l r) st) = vstack st) by (intros s'; unfold vstack; cbn; by rewrite Em).
  destruct s as [b|b|b| | | | |]; cbn [inner_step] in Hs.
  - injection Hs as <-. pose proof (step_link _ _ _ _ _ _ _ _ _ H Em) as Hr. by destruct b.
  - injection Hs as <-. by apply (step_event _ _ _ _ _ b).
  - injection Hs as <-. pose proof (step_dec _ _ _ _ _ _ _ _ _ H Em) as Hr. by destruct b.
  - injection Hs as <-. by apply step_built.
  - injection Hs as <-. by apply step_check.
  - pose proof (v_main _ _ _ _ _ H) as Hm. rewrite Em in Hm. destruct Hm as (g' & _ & _ & H0).
    unfold submit in Hs. destruct (submitted (frame_at st p)) eqn:E; injection Hs as <-.
    + eapply (inner_gen sp G ph P st st ISub IPush p l r g); try done; [|by right; left].
      intros i gi Hgi. eapply finv_rank; [|by apply rank_late|by apply H]. rewrite Em. by apply rank_late.
    + eapply (main_submit sp G ph P st p (MInner IEnq p l r)); try done; try (by rewrite Em).
      * by eapply lookup_lt_Some.
      * intros _ _ _. by apply H0.
      * rewrite Em. by apply rank_late.
      * by apply rank_late.
      * intros i Hi. by rewrite Em, !rank_ne.
      * by exists g.
  - destruct (enqueue p true st) as [st1|] eqn:E; [|done]. injection Hs as <-. unfold enqueue in E.
    destruct (_ && _ && _); [done|]. injection E as <-.
    eapply (main_enqueue sp G ph P st p (MInner IPush p l r)); try done; try (by rewrite Em).
    + rewrite Em. by apply rank_late.
    + by apply rank_late.
    + intros i Hi. by rewrite Em, !rank_ne.
    + by exists g.
  - injection Hs as <-. eapply (main_plain sp G ph P st); try done; try (by rewrite Em).
    + rewrite Em. by apply rank_late.
    + unfold vstack. cbn. by rewrite Em.
    + intros i. right. rewrite Em. unfold rank. by destruct (bool_decide _).
Qed.

Lemma main_step_inv sp G ph P (setFast : bytes -> bytes -> M Fast unit) st st' : inv sp G ph P st -> main st <> MNext ->
  main_step setFast st = Some st' -> inv sp G ph P st'.
Proof using Type.
  intros H Hne Hs. unfold main_step in Hs. pose proof (v_main _ _ _ _ _ H) as Hm.
  assert (Hplain : forall m st1, same_queues st st1 -> heap st1 = heap st -> imp_ st1 = imp_ st -> parStack st1 = parStack st ->
    todo st1 = todo st -> writeQ st1 = writeQ st -> rootEncoded st1 = rootEncoded st -> main_ok G ph st m ->
    main_wait (main st) = [] -> main_wait m = [] -> (forall q, rank (main st) q = 100) -> (forall q, rank m q = 100) ->
    vstack st = parStack st -> vstack (set_main m st) = parStack st -> (forall i, main st <> MLeafSub i) -> inv sp G ph P (set_main m st1)).
  { intros m st1 Q E1 E2 E3 E4 E5 E6 Hok Hw Hw' HR HR' Hv Hv' Hml. eapply (main_plain sp G ph P st); try done.
    - by rewrite E2.
    - intros q. by rewrite HR.
    - intros q. by rewrite HR'.
    - unfold vstack in *. cbn in *. rewrite E3. destruct m; congruence.
    - destruct Q as (_ & _ & _ & _ & Q). unfold frame_at in Hok. destruct m; cbn in *; unfold frame_at; by rewrite ?E1, ?E4, ?Q.
    - intros i. right. by rewrite HR. }
  destruct (main st) as [|f|f|s p l r|r| | | |] eqn:Em; try done.
  - unfold submit in Hs. destruct Hm as (g & Hg & Hk & H0 & Hsub). rewrite Hsub in Hs. injection Hs as <-.
    eapply (main_submit sp G ph P st f (MLeafEnq f)); try done; try (by rewrite Em).
    + by eapply lookup_lt_Some.
    + intros g' Hg'. rewrite Hg in Hg'. injection Hg' as <-. by rewrite Hk.
    + intros i Hi. rewrite Em in Hi. by injection Hi.
    + unfold vstack. cbn. by rewrite Em.
  - destruct (enqueue f true st) as [st1|] eqn:E; [|done]. injection Hs as <-. unfold enqueue in E.
    destruct (_ && _ && _); [done|]. injection E as <-.
    eapply (main_enqueue sp G ph P st f MNext); try done; try (by rewrite Em). unfold vstack. cbn. by rewrite Em.
  - by eapply inner_step_inv.
  - destruct (Z.eqb_spec (hashWg st) 0) as [E|]; [|done]. injection Hs as <-. apply Hplain; try done. unfold vstack. by rewrite Em.
  - injection Hs as <-. apply Hplain; try done. unfold vstack. by rewrite Em.
  - destruct (disp st); try done. destruct (all_exited st); [|done]. injection Hs as <-. apply Hplain; try done. unfold vstack. by rewrite Em.
Qed.

(** The stream is at an end, or the importer is about to fail. *)
Lemma main_leaves sp G ph P st m s w ns : inv sp G ph P st -> main st = MNext -> si_prefix s = sp ->
  (m = FWait /\ ns = [] \/ exists r, m = MFail r) -> inv sp G ph P (set_main m (set_own s w ns st)).
Proof using Type.
  intros H Em Es Hm. eapply (main_plain sp G ph P st); try done; try (by rewrite Em).
  - cbn. by rewrite (v_prefix _ _ _ _ _ H).
  - by destruct Hm as [[-> _]|[r ->]].
  - by destruct Hm as [[-> _]|[r ->]].
  - unfold vstack. cbn. rewrite Em. by destruct Hm as [[-> _]|[r ->]].
  - by destruct Hm as [[-> ->]|[r ->]].
  - intros i. right. by rewrite Em.
Qed.

Definition leaf_goal v n key value : goal := mkGoal (mkFrame (hashLeaf v key value) 1 v n 0) (encodeLeafNode key value) None.
Definition inner_goal h v n key (gl gr : goal) (l r : nat) : goal :=
  mkGoal (mkFrame (inner_hash h v (g_fr gl) (g_fr gr)) (inner_size (g_fr gl) (g_fr gr)) v n h)
    (inner_bytes h v key (g_fr gl) (g_fr gr)) (Some (l, r)).

Lemma grow_frames G (g : goal) st (fr : parFrame) i gi : length (heap st) = length G -> (G ++ [g]) !! i = Some gi ->
  (i < length G)%nat /\ G !! i = Some gi /\ default nil_frame ((heap st ++ [fr]) !! i) = frame_at st i \/
  i = length G /\ gi = g /\ default nil_frame ((heap st ++ [fr]) !! i) = fr.
Proof using Type.
  intros Hlen Hi. destruct (decide (i < length G)%nat) as [Hl|Hl].
  - left. rewrite lookup_app_l in Hi by done. split_and!; [done|done|]. unfold frame_at. by rewrite lookup_app_l by lia.
  - right. assert (i = length G) as ->.
    { apply lookup_lt_Some in Hi. rewrite length_app in Hi. cbn in Hi. lia. }
    rewrite list_lookup_middle in Hi by done. injection Hi as <-. split_and!; [done|done|]. by rewrite <- Hlen, list_lookup_middle.
Qed.

Lemma add_leaf_inv sp G ph P st s w ns v n key value : inv sp G ph P st -> main st = MNext -> si_prefix s = sp ->
  inv sp (G ++ [leaf_goal v n key value]) ph P
    (set_main (MLeafSub (length (heap st))) (set_parStack (length (heap st) :: parStack st)
      (set_heap (heap st ++ [new_leaf v n key value]) (set_own s w ns st)))).
Proof using Type.
  intros H Em Es. pose proof (v_len _ _ _ _ _ H) as Hlen. set (g := leaf_goal v n key value).
  assert (HG : forall j x, G !! j = Some x -> (G ++ [g]) !! j = Some x) by (intros j x Hx; by apply lookup_app_l_Some).
  assert (Hnew : P (length G) = None) by (by eapply no_parent).
  assert (Hph : ph (length G) = 0) by (apply (v_ph _ _ _ _ _ H); lia).
  assert (Hnk : forall p gp l r, (G ++ [g]) !! p = Some gp -> g_kids gp = Some (l, r) -> G !! p = Some gp).
  { intros p gp l r Hgp Hk. destruct (grow_frames G g st (new_leaf v n key value) p gp Hlen Hgp) as [(_ & ? & _)|(_ & -> & _)]; done. }
  eapply (grow sp G ph P P st _ (MLeafSub (length (heap st))) g (new_leaf v n key value)); try done.
  - cbn. by rewrite (v_prefix _ _ _ _ _ H).
  - intros i gi Hgi. unfold frame_at. cbn [set_parStack set_heap heap].
    destruct (grow_frames G g st (new_leaf v n key value) i gi Hlen Hgi) as [(Hi & Hg & ->)|(-> & -> & ->)].
    + eapply finv_mono; [exact HG|]. pose proof (v_frames _ _ _ _ _ H _ _ Hg) as F. by rewrite Em in F.
    + destruct (link_other P (fun _ => 0) (rank (MLeafSub (length (heap st)))) (length G)) as (L1 & L2 & L3); [by rewrite Hnew|].
      assert (L : linked P (fun _ => 0) (length G) = false /\ main_ev P (fun _ => 0) (length G) = false /\ main_dec P (fun _ => 0) (length G) = false)
        by (unfold linked, main_ev, main_dec; by rewrite Hnew).
      destruct L as (L1' & L2' & L3'). rewrite L1' in L1. rewrite L2' in L2. rewrite L3' in L3.
      split; rewrite <- ?L1, <- ?L2, <- ?L3, ?Hph; try done; try lia.
  - intros p gp l r Hgp Hk. eapply (v_kids _ _ _ _ _ H); [by eapply Hnk|done].
  - intros i p b Hp. destruct (v_par _ _ _ _ _ H _ _ _ Hp) as (? & gp & l & r & Hgp & ?). split; [done|]. exists gp, l, r. split; [by apply HG|done].
  - pose proof (v_stack _ _ _ _ _ H) as [Hn Hv]. unfold vstack in *. rewrite Em in *. cbn. split.
    + constructor; [|done]. rewrite Hv. lia.
    + intros i. rewrite elem_of_cons, Hv, length_app. cbn. split.
      * intros [->|[? ?]]; [rewrite Hlen; split; [lia|done]|split; [lia|done]].
      * intros [? ?]. destruct (decide (i = length G)); [left; lia|right; split; [lia|done]].
  - exists g. rewrite Hlen. split_and!; [by rewrite list_lookup_middle|done|done|].
    unfold frame_at. cbn. by rewrite <- Hlen, list_lookup_middle.
  - cbn. by rewrite Hlen.
Qed.

(** Two roots become the children of a new frame. *)
Definition adopt (P : nat -> option (nat * bool)) (p l r : nat) : nat -> option (nat * bool) :=
  <[l := Some (p, false)]> (<[r := Some (p, true)]> P).

Lemma adopt_l P p l r : adopt P p l r l = Some (p, false).
Proof using Type. apply fn_lookup_insert. Qed.

Lemma adopt_r P p l r : l <> r -> adopt P p l r r = Some (p, true).
Proof using Type. intros Hne. unfold adopt. rewrite fn_lookup_insert_ne by done. apply fn_lookup_insert. Qed.

Lemma adopt_ne P p l r i : i <> l -> i <> r -> adopt P p l r i = P i.
Proof using Type. intros Hl Hr. unfold adopt. by rewrite !fn_lookup_insert_ne by done. Qed.

Lemma adopt_inv P p l r i q b : l <> r -> adopt P p l r i = Some (q, b) -> (i = if b then r else l) /\ q = p \/ P i = Some (q, b).
Proof using Type.
  intros Hne. destruct (decide (i = l)) as [->|Hl]; [rewrite adopt_l; intros [= <- <-]; by left|].
  destruct (decide (i = r)) as [->|Hr]; [rewrite adopt_r by done; intros [= <- <-]; by left|]. rewrite adopt_ne by done. by right.
Qed.

(** The frames after the adoption. *)
Lemma adopt_frames sp G ph P st l r i g : inv sp G ph P st -> main st = MNext -> P l = None -> P r = None -> l <> r ->
  G !! i = Some g -> let p := length (heap st) in
  finv G ph (adopt P p l r) (rank (MInner (ILink false) p l r)) i g (frame_at st i).
Proof using Type.
  intros H Em Hl Hr Hne Hg p. set (P' := adopt P p l r). set (R' := rank (MInner (ILink false) p l r)).
  pose proof (v_frames _ _ _ _ _ H _ _ Hg) as F. rewrite Em in F.
  assert (Hi : (i < p)%nat) by (by eapply heap_lt).
  assert (Hnone : forall c, P c = None -> linked P (rank MNext) c = false /\ main_ev P (rank MNext) c = false /\ main_dec P (rank MNext) c = false)
    by (intros c Hc; unfold linked, main_ev, main_dec; by rewrite Hc).
  assert (Hlink : forall c, linked P' R' c = linked P (rank MNext) c /\ main_ev P' R' c = main_ev P (rank MNext) c /\
    main_dec P' R' c = main_dec P (rank MNext) c).
  { intros c. destruct (decide (c = l)) as [->|Hcl]; [|destruct (decide (c = r)) as [->|Hcr]].
    - destruct (Hnone l Hl) as (-> & -> & ->). by apply (link_rank P' (ILink false) p l r l false), adopt_l.
    - destruct (Hnone r Hr) as (-> & -> & ->). by apply (link_rank P' (ILink false) p l r r true), adopt_r.
    - unfold linked, main_ev, main_dec, P'. rewrite adopt_ne by done. destruct (P c) as [[q b]|] eqn:Ec; [|done].
      unfold R'. rewrite rank_ne; [done|]. destruct (v_par _ _ _ _ _ H _ _ _ Ec) as (_ & gq & _ & _ & Hgq & _).
      pose proof (heap_lt _ _ _ _ _ _ _ H Hgq). unfold p. lia. }
  destruct (Hlink i) as (L1 & L2 & L3).
  assert (Hkids : forall x y, g_kids g = Some (x, y) -> counted ph P' R' x = counted ph P (rank MNext) x /\ counted ph P' R' y = counted ph P (rank MNext) y).
  { intros x y _. unfold counted. destruct (Hlink x) as (_ & -> & ->). by destruct (Hlink y) as (_ & -> & ->). }
  assert (Hb : (7 <=? R' i) = (7 <=? rank MNext i)) by (unfold R'; rewrite rank_ne by lia; done).
  destruct (decide (P' i = P i)) as [E|E]; [by eapply finv_same|].
  assert (Ei : P i = None).
  { destruct (decide (i = l)) as [->|Hil]; [done|]. destruct (decide (i = r)) as [->|Hir]; [done|]. by destruct E; apply adopt_ne. }
  destruct F as [F1 F2 F3 F4 F5 F6 F7 F8 F9 F10 F11 F12 F13]. destruct (Hnone i Ei) as (N1 & N2 & N3).
  rewrite N1 in L1. rewrite N2 in *. rewrite N3 in *.
  split; rewrite ?L1, ?L2, ?L3; try done.
  - destruct (g_kids g) as [[x y]|]; [|done]. by destruct (Hkids x y eq_refl) as [-> ->].
  - intros Hk. rewrite Hb. by apply F7.
  - destruct (parent (frame_at st i)) as [q|]; [|done]. destruct F10 as [b Hq]. congruence.
Qed.

Lemma add_inner_inv sp G ph P st s w ns v n key h l r rest gl gr : inv sp G ph P st -> main st = MNext -> si_prefix s = sp ->
  parStack st = r :: l :: rest -> G !! l = Some gl -> G !! r = Some gr -> h <> 0 ->
  let p := length (heap st) in
  inv sp (G ++ [inner_goal h v n key gl gr l r]) ph (adopt P p l r)
    (set_main (MInner (ILink false) p l r) (set_parStack rest
      (set_heap (heap st ++ [new_inner h (i64 (size (frame_at st l) + size (frame_at st r))) v n key l r]) (set_own s w ns st)))).
Proof using Type.
  intros H Em Es Est Hgl Hgr Hh p. pose proof (v_len _ _ _ _ _ H) as Hlen. set (g := inner_goal h v n key gl gr l r).
  set (fr := new_inner h (i64 (size (frame_at st l) + size (frame_at st r))) v n key l r).
  assert (HG : forall j x, G !! j = Some x -> (G ++ [g]) !! j = Some x) by (intros j x Hx; by apply lookup_app_l_Some).
  pose proof (v_stack _ _ _ _ _ H) as [Hn Hv]. unfold vstack in Hn, Hv. rewrite Em, Est in Hn, Hv.
  apply NoDup_cons in Hn as [Hr' Hn]. apply NoDup_cons in Hn as [Hl' Hn].
  assert (Hne : l <> r) by (intros ->; apply Hr'; by left).
  assert (Hl : (l < p)%nat /\ P l = None) by (unfold p; rewrite Hlen; apply Hv; by right; left).
  assert (Hr : (r < p)%nat /\ P r = None) by (unfold p; rewrite Hlen; apply Hv; by left).
  assert (Hnew : adopt P p l r p = None) by (rewrite adopt_ne by lia; eapply no_parent; [exact H|unfold p; lia]).
  assert (Hph : ph p = 0) by (apply (v_ph _ _ _ _ _ H); unfold p; lia).
  assert (Epl : p = length G) by exact Hlen.
  assert (Hfr := fun i gi => adopt_frames sp G ph P st l r i gi H Em (proj2 Hl) (proj2 Hr) Hne).
  eapply (grow sp G ph P (adopt P p l r) st _ (MInner (ILink false) p l r) g fr); try done.
  - cbn. by rewrite (v_prefix _ _ _ _ _ H).
  - by rewrite <- Epl.
  - intros i gi Hgi. unfold frame_at. cbn [set_parStack set_heap heap].
    destruct (grow_frames G g st fr i gi Hlen Hgi) as [(Hi & Hg & ->)|(-> & -> & ->)].
    + eapply finv_mono; [exact HG|]. by apply Hfr.
    + rewrite <- Epl.
      destruct (link_other (adopt P p l r) (rank (MInner (ILink false) p l r)) (fun _ => 0) p) as (L1 & L2 & L3); [intros q b Hq; congruence|].
      assert (L : linked (adopt P p l r) (fun _ => 0) p = false /\ main_ev (adopt P p l r) (fun _ => 0) p = false /\
        main_dec (adopt P p l r) (fun _ => 0) p = false) by (unfold linked, main_ev, main_dec; by rewrite Hnew).
      destruct L as (L1' & L2' & L3'). rewrite L1' in L1. rewrite L2' in L2. rewrite L3' in L3.
      destruct (fi_static _ _ _ _ _ _ _ (v_frames _ _ _ _ _ H _ _ Hgl)) as (Sl & _).
      destruct (fi_static _ _ _ _ _ _ _ (v_frames _ _ _ _ _ H _ _ Hgr)) as (Sr & _).
      split; rewrite ?L1, ?L2, ?L3, ?Hph; try done; try lia.
      * cbn. rewrite Sl, Sr. done.
      * intros _. split_and!; [done|done|]. exists gl, gr. cbn. rewrite Sl, Sr. split_and!; [by apply HG|by apply HG|done|done].
      * cbn [g g_kids inner_goal]. rewrite (counted_rank _ _ _ _ _ _ _ _ (adopt_l P p l r)), (counted_rank _ _ _ _ _ _ _ _ (adopt_r P p l r Hne)).
        by rewrite !andb_false_r.
      * intros _. cbn. unfold rank. by rewrite bool_decide_true.
  - intros q gq x y Hgq Hk. destruct (grow_frames G g st fr q gq Hlen Hgq) as [(Hi & Hg & _)|(-> & -> & _)].
    + destruct (v_kids _ _ _ _ _ H _ _ _ _ Hg Hk) as (A1 & A2 & A3 & A4). destruct Hl as [_ Hl], Hr as [_ Hr].
      split_and!; [done|done|..]; (rewrite adopt_ne; [done|intros E; congruence..]).
    + cbn in Hk. injection Hk as <- <-. rewrite <- Epl. split_and!; [tauto|tauto|apply adopt_l|by apply adopt_r].
  - intros i q b Hq. apply adopt_inv in Hq as [(-> & ->)|Hq]; [| |done].
    + split; [destruct b; [apply Hr|apply Hl]|]. exists g, l, r. split_and!; [by rewrite Epl, list_lookup_middle|done|done].
    + destruct (v_par _ _ _ _ _ H _ _ _ Hq) as (? & gp & x & y & Hgp & ?). split; [done|]. exists gp, x, y. split; [by apply HG|done].
  - unfold vstack. cbn. split.
    + constructor; [|done]. intros Hin. assert (Hp : p ∈ r :: l :: rest) by (by right; right). apply Hv in Hp. lia.
    + intros i. rewrite elem_of_cons, length_app. cbn. split.
      * intros [->|Hi]; [split; [lia|done]|]. assert (Hin : i ∈ r :: l :: rest) by (by right; right).
        apply Hv in Hin as [A1 A2]. split; [lia|]. rewrite adopt_ne; [done|..]; (intros ->); [by apply Hl'|by apply Hr'; right].
      * intros [A1 A2]. destruct (decide (i = p)) as [|Hip]; [by left|]. right.
        destruct (decide (i = l)) as [->|Hil]; [by rewrite adopt_l in A2|]. destruct (decide (i = r)) as [->|Hir]; [by rewrite adopt_r in A2|].
        rewrite adopt_ne in A2 by done. assert (Hin : i ∈ r :: l :: rest) by (apply Hv; split; [lia|done]).
        rewrite !elem_of_cons in Hin. by destruct Hin as [|[|]].
  - exists g. split_and!; [by rewrite Epl, list_lookup_middle|done|done].
  - intros i Hi. apply rank_ne. lia.
  - cbn [g g_kids inner_goal]. rewrite <- Epl. unfold rank. rewrite bool_decide_true by done. done.
Qed.

End Global.
