(* ===== verification/ParEquiv.v ===== *)
(** * The wave-parallel importer is the sequential importer

    In any interleaving, when main of the model of ImporterPar has finished, the
    nodes emitted are those of [addNodes] of Importer, and [finalizePar] ends as
    [finalize] does; a failure of main is the sequential failure; and every
    execution comes to one of the two ends. *)

From stdpp Require Import functions.
From S2P Require Import Prelude Sha256 Varint IavlEnc Importer ImporterPar ParInv.

Section Equivalence.
Context {Fast : Type} (setFast : bytes -> bytes -> M Fast unit).
Implicit Types (st : par Fast) (s : storeImporter) (G : list goal).
#[local] Arguments frame_at : simpl never.

(** ** The sequential run *)

(** The batch of the sequential importer, kept as a log. *)
Definition seq_sink : sink (Fast * list (bytes * bytes)) :=
  mkSink (fun key v w => (Ret tt, (fst w, snd w ++ [(key, v)])))
         (fun key v w => let '(r, f) := setFast key v (fst w) in (r, (f, snd w))).

(** The fields that both importers keep. *)
Definition same_core s s' : Prop :=
  storeName s = storeName s' /\ si_prefix s = si_prefix s' /\ nonces s = nonces s' /\
  nonceCacheVersion s = nonceCacheVersion s' /\ nonceCacheCounter s = nonceCacheCounter s' /\ si_height s = si_height s' /\
  itemCount s = itemCount s' /\ leafCount s = leafCount s'.

Lemma nextNonce_core v s s' n m cv : same_core s s' -> nextNonce v s = (Ret n, set_nonces m cv n s) ->
  nextNonce v s' = (Ret n, set_nonces m cv n s').
Proof using Type.
  intros (E1 & E2 & E3 & E4 & E5 & _). unfold nextNonce. rewrite E3, E4, E5.
  destruct (v =? nonceCacheVersion s') eqn:Ev; cbn; intros Hn; rewrite ?E3, ?E4, ?E5 in Hn; by injection Hn as <- <- <-.
Qed.

Lemma addLeaf_seq v key value s f log n s1 r f' : nextNonce v s = (Ret n, s1) ->
  wrap_err "set fast node" (setFast (fastDBKeyInto [] (si_prefix s1) key) (encodeFastNodeInto [] v value)) f = (r, f') ->
  exists s', addLeaf seq_sink v key value (s, (f, log)) =
      (r, (s', (f', log ++ [(nodeDBKey (si_prefix s1) v n, encodeLeafNode key value)]))) /\
    (r = Ret tt -> s' = leaf_done v n key value s1).
Proof using Type.
  intros Hn Hf. unfold addLeaf, imp, out, get, modify, mbind, M_bind, mret, M_ret. cbn [fst snd]. rewrite Hn. cbn [fst snd].
  unfold wrap_err in *. cbn [Importer.set Importer.setFast seq_sink fst snd].
  change (keyScratch (set_scratch ?a ?b ?c)) with a. change (valueScratch (set_scratch ?a ?b ?c)) with b.
  change (valueScratch (set_last ?a ?b)) with (valueScratch b).
  change (si_prefix (set_last ?a ?b)) with (si_prefix b). change (si_prefix (set_scratch ?a ?b ?c)) with (si_prefix c).
  destruct (setFast (fastDBKeyInto [] (si_prefix s1) key) (encodeFastNodeInto [] v value) f) as [[[]| | |] f1];
    injection Hf as <- <-; cbn; (eexists; split; [reflexivity|done]).
Qed.

Lemma addInner_seq h v key s f log rgt lft rest n s1 :
  stack s = rgt :: lft :: rest -> fr_height rgt < h -> fr_height lft < h -> nextNonce v (set_stack rest s) = (Ret n, s1) ->
  addInner seq_sink h v key (s, (f, log)) =
    (Ret tt, (inner_done h v n key lft rgt s1, (f, log ++ [(nodeDBKey (si_prefix s1) v n, inner_bytes h v key lft rgt)]))).
Proof using Type. intros H1 H2 H3 H4. apply (proj2 (addInner_ret seq_sink h v key s (f, log) rgt lft rest n s1 H1 H2 H3 H4 _ _)). done. Qed.

(** ** Both at the same node *)

(** Main counts the inner node at the end of [addInnerPar]. *)
Definition inner_count (m : mpc) s : Z := match m with MInner _ _ _ _ => u64 (innerCount s + 1) | _ => innerCount s end.

Definition stack_rel G (l : list nat) (fs : list frame) : Prop := Forall2 (fun i fr => exists g, G !! i = Some g /\ g_fr g = fr) l fs.

Section Run.
Context (s0 : storeImporter) (w0 : Fast) (ns : list node).

Definition seq_at G st : Prop := exists pre s,
  ns = pre ++ todo st /\
  addNodes seq_sink pre (s0, (w0, [])) = (Ret tt, (s, (fast st, map (entry (si_prefix s0)) G))) /\
  same_core s (imp_ st) /\ innerCount s = inner_count (main st) (imp_ st) /\ stack_rel G (vstack st) (stack s) /\
  lastIavlBytes s = default [] (g_enc <$> last G).

Definition sim G st : Prop :=
  match main st with
  | MFail r => r <> Ret tt /\ exists s log, addNodes seq_sink ns (s0, (w0, [])) = (r, (s, (fast st, log)))
  | _ => seq_at G st
  end.

(** What the steps other than the additions leave alone. *)
Definition same_prog st st' : Prop :=
  todo st' = todo st /\ fast st' = fast st /\ vstack st' = vstack st /\ same_core (imp_ st) (imp_ st') /\
  inner_count (main st') (imp_ st') = inner_count (main st) (imp_ st).

Lemma sim_keep G st st' : same_prog st st' -> (forall r, main st <> MFail r) -> (forall r, main st' <> MFail r) -> sim G st -> sim G st'.
Proof using Type.
  intros (E1 & E2 & E3 & E4 & E5) H1 H2 Hs.
  assert (Hat : seq_at G st) by (unfold sim in Hs; destruct (main st) eqn:E; try done; by destruct (H1 r)).
  assert (Hat' : seq_at G st').
  { destruct Hat as (pre & s & A1 & A2 & A3 & A4 & A5 & A6). exists pre, s. rewrite E1, E2, E3, E5. split_and!; try done.
    unfold same_core in *. destruct A3 as (B1 & B2 & B3 & B4 & B5 & B6 & B7 & B8), E4 as (C1 & C2 & C3 & C4 & C5 & C6 & C7 & C8).
    split_and!; congruence. }
  unfold sim. destruct (main st') eqn:E; try done. by destruct (H2 r).
Qed.

Lemma same_core_refl s : same_core s s.
Proof using Type. done. Qed.

Lemma inner_step_prog (a : istage) p l r st st' : main st = MInner a p l r -> inner_step a p l r st = Some st' ->
  same_prog st st' /\ forall q, main st' <> MFail q.
Proof using Type.
  intros Em Hs. destruct a as [b|b|b| | | | |]; cbn [inner_step] in Hs.
  all: try (injection Hs as <-; unfold same_prog, vstack; cbn; rewrite Em; cbn; split_and!; done).
  - unfold submit in Hs. destruct (submitted _); injection Hs as <-; unfold same_prog, vstack; cbn; rewrite Em; cbn; split_and!; done.
  - unfold enqueue in Hs. destruct (_ && _ && _); [done|]. injection Hs as <-. unfold same_prog, vstack; cbn; rewrite Em; cbn; split_and!; done.
Qed.

Lemma main_step_prog st st' : main st <> MNext -> main_step setFast st = Some st' ->
  same_prog st st' /\ forall q, main st' <> MFail q.
Proof using Type.
  intros Hne Hs. unfold main_step in Hs. destruct (main st) as [|f|f|a p l r|r| | | |] eqn:Em; try done.
  - unfold submit in Hs. destruct (submitted _); injection Hs as <-; unfold same_prog, vstack; cbn; rewrite Em; cbn; split_and!; done.
  - unfold enqueue in Hs. destruct (_ && _ && _); [done|]. injection Hs as <-. unfold same_prog, vstack; cbn; rewrite Em; cbn; split_and!; done.
  - by eapply inner_step_prog.
  - destruct (_ =? _); [|done]. injection Hs as <-. unfold same_prog, vstack; cbn; rewrite Em; cbn; split_and!; done.
  - injection Hs as <-. unfold same_prog, vstack; cbn; rewrite Em; cbn; split_and!; done.
  - destruct (disp st); try done. destruct (all_exited st); [|done]. injection Hs as <-.
    unfold same_prog, vstack; cbn; rewrite Em; cbn; split_and!; done.
Qed.

Definition same_main_prog st st' : Prop := main st' = main st /\ todo st' = todo st /\ fast st' = fast st /\ parStack st' = parStack st /\ imp_ st' = imp_ st.

Lemma sim_others G st st' : same_main_prog st st' -> sim G st -> sim G st'.
Proof using Type.
  intros (E1 & E2 & E3 & E4 & E5) H. unfold sim, seq_at, vstack in *. by rewrite E1, E2, E3, E4, E5.
Qed.

Lemma disp_prog st st' : parDispatcher st = Some st' -> same_main_prog st st'.
Proof using Type.
  unfold parDispatcher. destruct (disp st); [|destruct (_ <? _); [|done]|done].
  - destruct (queue st); [destruct (closed st); [|done]|]; by intros [= <-].
  - by intros [= <-].
Qed.

Lemma worker_prog w st st' : parWorker w st = Some st' -> same_main_prog st st'.
Proof using Type.
  unfold parWorker. destruct (workers st !! w) as [[|a f| |]|]; [|intros Hs; injection Hs as <-|done..].
  - destruct (ready st); [destruct (disp st); try done|]; by intros [= <-].
  - unfold same_main_prog. destruct a; cbn [processParFrame]; try done.
    + destruct (height (frame_at st f) =? 0); [done|]. by destruct (leftChild (frame_at st f)), (rightChild (frame_at st f)).
    + by destruct (parent (frame_at st f)).
    + unfold submit. by destruct (submitted (frame_at st p)).
Qed.
(** *** The additions *)

Lemma addNode_eq {W} (k : sink W) h v key value s w : addNode k h v key value (s, w) =
  (if h =? 0 then addLeaf k v key value else addInner k h v key) (bump_items s, w).
Proof using Type. unfold addNode. by destruct (h =? 0). Qed.

Lemma addNodes_fail {W} (k : sink W) nd l x r y : addNode k (nd_height nd) (nd_version nd) (nd_key nd) (nd_value nd) x = (r, y) ->
  r <> Ret tt -> addNodes k (nd :: l) x = (r, y).
Proof using Type. intros E Hr. cbn. unfold mbind, M_bind. rewrite E. destruct r as [[]| | |]; done. Qed.

Lemma addNodes_one {W} (k : sink W) nd x y : addNode k (nd_height nd) (nd_version nd) (nd_key nd) (nd_value nd) x = (Ret tt, y) ->
  addNodes k [nd] x = (Ret tt, y).
Proof using Type. intros E. cbn. unfold mbind, M_bind. by rewrite E. Qed.

Lemma same_core_bump s s' : same_core s s' -> same_core (bump_items s') (bump_items s).
Proof using Type. unfold same_core. cbn. intros (-> & -> & -> & -> & -> & -> & -> & ->). done. Qed.

Lemma stack_rel_mono G g l fs : stack_rel G l fs -> stack_rel (G ++ [g]) l fs.
Proof using Type. intros H. eapply Forall2_impl; [exact H|]. intros i fr (x & Hx & E). exists x. split; [by apply lookup_app_l_Some|done]. Qed.

Lemma stack_rel_new G g l fs : stack_rel G l fs -> stack_rel (G ++ [g]) (length G :: l) (g_fr g :: fs).
Proof using Type.
  intros H. constructor; [|by apply stack_rel_mono]. exists g. split; [by rewrite list_lookup_middle|done].
Qed.

(** The end of a run of additions that stops here. *)
Lemma sim_fail G st s pre nd l r x f' s' log m own : ns = pre ++ nd :: l ->
  addNodes seq_sink pre (s0, (w0, [])) = (Ret tt, (s, x)) ->
  addNode seq_sink (nd_height nd) (nd_version nd) (nd_key nd) (nd_value nd) (s, x) = (r, (s', (f', log))) -> r <> Ret tt ->
  m = MFail r -> sim G (set_main m (set_own own f' l st)).
Proof using Type.
  intros Hns H1 H2 Hr ->. unfold sim. cbn [main set_main]. split; [done|]. exists s', log.
  rewrite Hns, addNodes_app, H1. by apply addNodes_fail.
Qed.

Lemma leaf_next ph P G st nd l : inv (si_prefix s0) G ph P st -> sim G st -> main st = MNext -> todo st = nd :: l ->
  nd_height nd = 0 -> let st' := addLeafPar setFast (nd_version nd) (nd_key nd) (nd_value nd) l st in
  exists G', inv (si_prefix s0) G' ph P st' /\ sim G' st'.
Proof using Type.
  intros H Hs Em Et Hh. unfold sim in Hs. rewrite Em in Hs. destruct Hs as (pre & s & A1 & A2 & A3 & A4 & A5 & A6).
  rewrite Et in A1. rewrite Em in A4. unfold vstack in A5. rewrite Em in A5. cbn in A4.
  set (v := nd_version nd). set (key := nd_key nd). set (value := nd_value nd).
  destruct (nextNonce_shape v (bump_items (imp_ st))) as (n & m & cv & Hn).
  pose proof (nextNonce_core _ _ _ _ _ _ (same_core_bump _ _ A3) Hn) as Hn'.
  assert (Hpre : si_prefix (imp_ st) = si_prefix s0) by apply H.
  assert (Hpre' : si_prefix s = si_prefix s0) by (destruct A3 as (_ & -> & _); exact Hpre).
  unfold addLeafPar, take_nonce. rewrite Hn.
  change (keyScratch (set_scratch ?a ?b ?c)) with a. change (valueScratch (set_scratch ?a ?b ?c)) with b.
  change (si_prefix (set_nonces m cv n (bump_items (imp_ st)))) with (si_prefix (imp_ st)).
  destruct (wrap_err "set fast node" (setFast (fastDBKeyInto [] (si_prefix (imp_ st)) key) (encodeFastNodeInto [] v value)) (fast st)) as [r f'] eqn:Ef.
  destruct (addLeaf_seq v key value (bump_items s) (fast st) (map (entry (si_prefix s0)) G) n _ r f' Hn') as (s' & Es & Es').
  { cbn. rewrite Hpre', <- Hpre. exact Ef. }
  assert (Ea : addNode seq_sink (nd_height nd) v key value (s, (fast st, map (entry (si_prefix s0)) G)) =
    (r, (s', (f', map (entry (si_prefix s0)) G ++ [(nodeDBKey (si_prefix s) v n, encodeLeafNode key value)])))).
  { rewrite addNode_eq, Hh. exact Es. }
  assert (Hfail : r <> Ret tt -> exists G', inv (si_prefix s0) G' ph P (set_main (MFail r)
      (set_own (set_scratch (fastDBKeyInto [] (si_prefix (imp_ st)) key) (encodeFastNodeInto [] v value) (set_nonces m cv n (bump_items (imp_ st)))) f' l st)) /\
    sim G' (set_main (MFail r) (set_own (set_scratch (fastDBKeyInto [] (si_prefix (imp_ st)) key) (encodeFastNodeInto [] v value) (set_nonces m cv n (bump_items (imp_ st)))) f' l st))).
  { intros Hr. exists G. split; [|by eapply sim_fail]. apply main_leaves; [done|done|done|right; by exists r]. }
  destruct r as [[]| | |]; [|by apply Hfail..]. clear Hfail. rewrite (Es' eq_refl) in *. clear s' Es Es'.
  exists (G ++ [leaf_goal v n key value]). split; [by apply add_leaf_inv|].
  unfold sim. cbn [main set_main]. exists (pre ++ [nd]). eexists. split_and!.
  - rewrite A1, <- app_assoc. done.
  - rewrite addNodes_app, A2. cbn [fast set_main set_parStack set_heap set_own]. rewrite map_app. cbn [map].
    unfold entry at 2. cbn. rewrite <- Hpre'. rewrite <- Hpre' in Ea. by apply addNodes_one.
  - unfold same_core in *. cbn. destruct A3 as (B1 & B2 & B3 & B4 & B5 & B6 & B7 & B8). split_and!; congruence.
  - cbn. exact A4.
  - unfold vstack. cbn. rewrite (v_len _ _ _ _ _ H). by apply (stack_rel_new _ (leaf_goal v n key value)).
  - cbn. by rewrite last_snoc.
Qed.

(** A frame of the sequential stack and the one of [parStack]. *)
Lemma stack_rel_inv sp G ph P st i l fr fs : inv sp G ph P st -> stack_rel G (i :: l) (fr :: fs) ->
  exists g, G !! i = Some g /\ g_fr g = fr /\ height (frame_at st i) = fr_height fr /\ stack_rel G l fs.
Proof using Type.
  intros H Hr. apply Forall2_cons in Hr as [(g & Hg & E) Hr]. exists g. split_and!; [done|done| |done].
  destruct (fi_static _ _ _ _ _ _ _ (v_frames _ _ _ _ _ H _ _ Hg)) as (_ & _ & _ & -> & _). by rewrite E.
Qed.

Lemma closes_eq sp G ph P st s h : inv sp G ph P st -> stack_rel G (parStack st) (stack s) -> closesPairPar h st = closesPair h s.
Proof using Type.
  intros H Hr. unfold closesPairPar, closesPair. destruct (parStack st) as [|i [|j l]], (stack s) as [|a [|b fs]]; try (by inversion Hr).
  - by inversion Hr as [|? ? ? ? _ Hx]; inversion Hx.
  - by inversion Hr as [|? ? ? ? _ Hx]; inversion Hx.
  - destruct (stack_rel_inv _ _ _ _ _ _ _ _ _ H Hr) as (_ & _ & _ & -> & Hr').
    by destruct (stack_rel_inv _ _ _ _ _ _ _ _ _ H Hr') as (_ & _ & _ & -> & _).
Qed.

Lemma inner_next ph P G st nd l : inv (si_prefix s0) G ph P st -> sim G st -> main st = MNext -> todo st = nd :: l ->
  nd_height nd <> 0 -> let st' := addInnerPar (nd_height nd) (nd_version nd) (nd_key nd) l st in
  exists G' P', inv (si_prefix s0) G' ph P' st' /\ sim G' st'.
Proof using Type.
  intros H Hs Em Et Hh. unfold sim in Hs. rewrite Em in Hs. destruct Hs as (pre & s & A1 & A2 & A3 & A4 & A5 & A6).
  rewrite Et in A1. rewrite Em in A4. unfold vstack in A5. rewrite Em in A5. cbn in A4.
  set (h := nd_height nd) in *. set (v := nd_version nd). set (key := nd_key nd).
  assert (Hpre : si_prefix (imp_ st) = si_prefix s0) by apply H.
  assert (Hpre' : si_prefix s = si_prefix s0) by (destruct A3 as (_ & -> & _); exact Hpre).
  assert (Ea : forall x, addNode seq_sink h v key (nd_value nd) (s, x) = addInner seq_sink h v key (bump_items s, x)).
  { intros x. rewrite addNode_eq. by rewrite (proj2 (Z.eqb_neq h 0) Hh). }
  unfold addInnerPar. rewrite (closes_eq _ _ _ _ _ (bump_items s) h H) by done.
  destruct (closesPair h (bump_items s)) eqn:Ec; cbn [negb].
  2: { exists G, P. split; [apply main_leaves; [done|done|done|right; by eexists]|].
       eapply (sim_fail _ _ _ _ _ _ (Err malformed)); [exact A1|exact A2| |done|done]. fold h v key. rewrite Ea. by apply addInner_malformed. }
  unfold closesPair in Ec. change (stack (bump_items s)) with (stack s) in Ec.
  destruct (stack s) as [|rgt [|lft rest]] eqn:Est; [done..|]. apply andb_prop in Ec as [Hr%Z.ltb_lt Hl%Z.ltb_lt].
  destruct (parStack st) as [|r [|l0 rest']] eqn:Ep; [by inversion A5|by inversion A5 as [|? ? ? ? _ Hx]; inversion Hx|].
  destruct (stack_rel_inv _ _ _ _ _ _ _ _ _ H A5) as (gr & Hgr & Er & _ & A5').
  destruct (stack_rel_inv _ _ _ _ _ _ _ _ _ H A5') as (gl & Hgl & El & _ & A5'').
  destruct (nextNonce_shape v (bump_items (imp_ st))) as (n & m & cv & Hn).
  pose proof (nextNonce_core _ _ _ _ _ _ (same_core_bump _ _ A3) Hn) as Hn'.
  apply (nextNonce_set_stack v rest) in Hn'.
  pose proof (addInner_seq h v key (bump_items s) (fast st) (map (entry (si_prefix s0)) G) rgt lft rest n _ Est Hr Hl Hn') as Ei.
  unfold take_nonce. rewrite Hn. rewrite <- (Ea _) in Ei. rewrite <- Er, <- El in Ei.
  exists (G ++ [inner_goal h v n key gl gr l0 r]), (adopt P (length (heap st)) l0 r).
  split; [by apply (add_inner_inv _ _ _ _ _ _ _ _ _ _ _ _ _ _ _ gl gr)|].
  unfold sim. cbn [main set_main]. exists (pre ++ [nd]). eexists. split_and!.
  - rewrite A1, <- app_assoc. done.
  - rewrite addNodes_app, A2. cbn [fast set_main set_parStack set_heap set_own]. rewrite map_app. cbn [map].
    unfold entry at 2. cbn [g_fr g_enc inner_goal fr_version fr_nonce]. rewrite <- Hpre'.
    rewrite <- Hpre' in Ei. by apply addNodes_one.
  - unfold same_core in *. cbn. destruct A3 as (B1 & B2 & B3 & B4 & B5 & B6 & B7 & B8). split_and!; congruence.
  - cbn. by rewrite A4.
  - unfold vstack. cbn. rewrite (v_len _ _ _ _ _ H). by apply (stack_rel_new _ (inner_goal h v n key gl gr l0 r)).
  - cbn. by rewrite last_snoc.
Qed.

(** *** Every step *)

Definition good st : Prop := exists G ph P, inv (si_prefix s0) G ph P st /\ sim G st.

Lemma good_init n : stack s0 = [] -> lastIavlBytes s0 = [] -> good (enableWaveParallel n s0 w0 ns).
Proof using Type.
  intros Hst Hla. exists [], (fun _ => 0), (fun _ => None). split.
  - assert (Ew : forall n, concat (map worker_wait (replicate n WIdle)) = []) by (clear; intros n; induction n; done).
    assert (Eb : forall n, concat (map worker_busy (replicate n WIdle)) = []) by (clear; intros n; induction n; done).
    assert (Hw : forall w x, replicate n WIdle !! w = Some x -> x = WIdle) by (intros w x Hx; by apply lookup_replicate in Hx as [-> _]).
    split; cbn; try done.
    + split; [constructor|]. intros i. cbn. split; [by intros ?%not_elem_of_nil|lia].
    + intros w a f Hx. by apply Hw in Hx.
    + intros w Hx. by apply Hw in Hx.
    + unfold waiting. cbn. rewrite Ew. split; [constructor|]. intros i. split; [by intros ?%not_elem_of_nil|lia].
    + unfold busy. cbn. rewrite Eb. split; [constructor|]. intros i. split; [by intros ?%not_elem_of_nil|lia].
    + unfold waiting, busy. cbn. by rewrite Ew, Eb.
    + exists [], []. split_and!; try done; [constructor|]. intros i. split; [by intros ?%not_elem_of_nil|lia].
  - exists [], s0. cbn. rewrite Hst, Hla. split_and!; try done. constructor.
Qed.

Lemma good_step st st' : good st -> par_step setFast st st' -> good st'.
Proof using Type.
  intros (G & ph & P & H & Hs) Hstep. destruct Hstep as [Hstep|Hstep|w Hstep].
  - destruct (main st) as [|f|f|a p l r|r| | | |] eqn:Em.
    { unfold main_step in Hstep. rewrite Em in Hstep. destruct (todo st) as [|nd l] eqn:Et.
      - injection Hstep as <-. exists G, ph, P.
        assert (E : set_main FWait st = set_main FWait (set_own (imp_ st) (fast st) [] st)) by (rewrite <- Et; by destruct st).
        rewrite E. split; [apply main_leaves; [done|done|apply H|by left]|].
        unfold sim in *. rewrite Em in Hs. cbn. destruct Hs as (pre & s & A). exists pre, s. unfold vstack in *. rewrite Em, Et in A. exact A.
      - destruct (Z.eqb_spec (nd_height nd) 0) as [Hh|Hh]; injection Hstep as <-.
        + destruct (leaf_next _ _ _ _ _ _ H Hs Em Et Hh) as (G' & ?). by exists G', ph, P.
        + destruct (inner_next _ _ _ _ _ _ H Hs Em Et Hh) as (G' & P' & ?). by exists G', ph, P'. }
    all: assert (Hne : main st <> MNext) by congruence; destruct (main_step_prog _ _ Hne Hstep) as [Hk Hf];
      exists G, ph, P; (split; [by eapply main_step_inv|]); (eapply sim_keep; [exact Hk| |exact Hf|exact Hs]); intros q Eq; rewrite Em in Eq; try done.
    unfold main_step in Hstep. by rewrite Em in Hstep.
  - exists G, ph, P. split; [by eapply disp_step|]. eapply sim_others; [by apply disp_prog|done].
  - destruct (worker_step _ _ _ _ _ _ _ H Hstep) as [ph' H']. exists G, ph', P. split; [done|]. eapply sim_others; [by eapply worker_prog|done].
Qed.

(** ** The end *)

(** The last frame is a root. *)
Lemma last_root sp G ph P st i : inv sp G ph P st -> vstack st = [i] -> S i = length G.
Proof using Type.
  intros H Hv. pose proof (proj2 (v_stack _ _ _ _ _ H)) as Hs. rewrite Hv in Hs.
  assert (Hi : (i < length G)%nat) by (apply Hs; by left).
  assert (Hl : (length G - 1)%nat ∈ [i]).
  { apply Hs. split; [lia|]. destruct (P (length G - 1)%nat) as [[p b]|] eqn:E; [|done].
    destruct (v_par _ _ _ _ _ H _ _ _ E) as (? & g & _ & _ & Hg & _). apply lookup_lt_Some in Hg. lia. }
  apply list_elem_of_singleton in Hl. lia.
Qed.

Lemma all_done sp G ph P st : inv sp G ph P st -> main st = FDone -> forall i, (i < length G)%nat -> ph i = 13.
Proof using Type.
  intros H Em. pose proof (v_main _ _ _ _ _ H) as Hm. rewrite Em in Hm. destruct Hm as [_ Hwg].
  destruct (wg_zero _ _ _ _ _ H Hwg) as [Hw Hb].
  assert (Hnb : forall i, ~ 1 <= ph i <= 12) by (intros i Hi; apply (v_busy _ _ _ _ _ H) in Hi; rewrite Hb in Hi; by apply not_elem_of_nil in Hi).
  assert (Hnw : forall i, (i < length G)%nat -> submitted (frame_at st i) = true -> ph i = 0 -> False).
  { intros i H1 H2 H3. assert (Hi : i ∈ waiting st) by by apply (v_waiting _ _ _ _ _ H). rewrite Hw in Hi. by apply not_elem_of_nil in Hi. }
  intros i. induction (lt_wf i) as [i _ IH]. intros Hi.
  pose proof (proj1 (v_ph _ _ _ _ _ H i)) as Hr. specialize (Hnb i) as Hbi. destruct (decide (ph i = 0)) as [H0|]; [|lia]. exfalso.
  destruct (submitted (frame_at st i)) eqn:Es; [by apply (Hnw i)|].
  destruct (lookup_lt_is_Some_2 _ _ Hi) as [g Hg]. pose proof (v_lost _ _ _ _ _ H i g Hg Es) as Hl.
  destruct (g_kids g) as [[l r]|] eqn:Ek; [|congruence].
  destruct (v_kids _ _ _ _ _ H _ _ _ _ Hg Ek) as (Kl & Kr & El & Er).
  pose proof (fi_pending _ _ _ _ _ _ _ (v_frames _ _ _ _ _ H _ _ Hg)) as Hp. rewrite Ek, Em in Hp.
  assert (Hc : forall c b, (c < i)%nat -> P c = Some (i, b) -> counted ph P (rank FDone) c = true).
  { intros c b Hc Hpc. unfold counted, main_ev, main_dec. rewrite Hpc, (IH c Hc) by lia. by destruct b. }
  rewrite (Hc l _ Kl El), (Hc r _ Kr Er) in Hp. specialize (Hl Hp). rewrite Em in Hl. cbn in Hl.
  specialize (Hnb l) as Hbl. specialize (Hnb r) as Hbr. lia.
Qed.

Lemma lookup_perm (wr : list nat) (gs G : list goal) : NoDup wr -> (forall i, i ∈ wr <-> (i < length G)%nat) ->
  Forall2 (fun i g => G !! i = Some g) wr gs -> gs ≡ₚ G.
Proof using Type.
  intros Hn Hw Hf.
  assert (Eq : forall (l : list nat) (x : list goal), Forall2 (fun i g => G !! i = Some g) l x -> x = omap (fun i => G !! i) l).
  { clear. induction 1 as [|i g l x Hi _ IH]; [done|]. cbn. by rewrite Hi, <- IH. }
  assert (Es : Forall2 (fun i g => G !! i = Some g) (seq 0 (length G)) G).
  { apply Forall2_same_length_lookup_2; [by rewrite length_seq|]. intros i j g Hi Hg. apply lookup_seq in Hi as [-> _]. done. }
  rewrite (Eq _ _ Hf). transitivity (omap (fun i => G !! i) (seq 0 (length G))); [|by rewrite <- (Eq _ _ Es)]. apply omap_Permutation.
  apply NoDup_Permutation; [done|apply NoDup_seq|]. intros i. rewrite Hw, elem_of_seq. lia.
Qed.

Lemma all_written sp G ph P st : inv sp G ph P st -> main st = FDone -> writeQ st ≡ₚ map (entry sp) G.
Proof using Type.
  intros H Em. pose proof (all_done _ _ _ _ _ H Em) as Hd. destruct (v_write _ _ _ _ _ H) as (wr & gs & W1 & W2 & W3 & ->).
  apply Permutation_map. eapply lookup_perm; [exact W1| |exact W3]. intros i. rewrite W2. split.
  - intros H5. destruct (decide (i < length G)%nat) as [|Hge]; [done|]. rewrite (proj2 (v_ph _ _ _ _ _ H i)) in H5; lia.
  - intros Hi. rewrite Hd by done. lia.
Qed.

(** What a run leaves, but for the scratch buffers. *)
Definition forget {A W} (x : outcome A * (storeImporter * W)) : outcome A * W := (fst x, snd (snd x)).

Lemma putBE64_bytes v : putBE64 v = be_bytes 8 v.
Proof using Type. unfold putBE64. cbn. by rewrite Z.shiftr_0_r. Qed.

#[local] Arguments putBE64 : simpl never.
#[local] Arguments putBE32 : simpl never.
#[local] Arguments be_bytes : simpl never.

Lemma finalize_agrees {W} (k : sink W) G ph P st s w : inv (si_prefix s0) G ph P st -> main st = FDone -> same_core s (imp_ st) ->
  stack_rel G (vstack st) (stack s) -> lastIavlBytes s = default [] (g_enc <$> last G) ->
  forget (finalizePar st k (imp_ st, w)) = forget (finalize k (s, w)).
Proof using Type.
  intros H Em (B1 & B2 & B3 & B4 & B5 & B6 & B7 & B8) Hst Hla.
  pose proof (all_done _ _ _ _ _ H Em) as Hd.
  unfold finalizePar, finalize, writeStorageVersionMarker, rootKey, imp, out, get, modify, wrap_err, fail, mbind, M_bind, mret, M_ret, forget.
  cbn [fst snd]. assert (Hv : vstack st = parStack st) by (unfold vstack; by rewrite Em). rewrite Hv in Hst.
  destruct (parStack st) as [|i [|j l]] eqn:Ep, (stack s) as [|fr [|fr' fs]] eqn:Est; try (by inversion Hst);
    try (by inversion Hst as [|? ? ? ? _ Hx]; inversion Hx).
  - cbn. rewrite ?B2, ?B6. destruct (Importer.set k _ _ w) as [[[]| | |] w1]; [|done..]. cbn. rewrite ?B2, ?B6.
    by destruct (Importer.set k _ _ w1) as [[[]| | |] w2].
  - apply Forall2_cons in Hst as [(g & Hg & <-) _].
    assert (Hlr : S i = length G) by (eapply last_root; [exact H|done]).
    assert (Hgl : last G = Some g) by (rewrite last_lookup, <- Hlr; done). rewrite Hla, Hgl. cbn [default fmap option_fmap option_map].
    assert (Hi : (i < length G)%nat) by (by eapply lookup_lt_Some).
    assert (Hlone : lone_root G P i).
    { split; [apply (v_stack _ _ _ _ _ H); rewrite Hv; by left|]. intros q Hq Hne E.
      assert (Hin : q ∈ vstack st) by by apply (v_stack _ _ _ _ _ H). rewrite Hv in Hin. by apply list_elem_of_singleton in Hin. }
    rewrite (v_root _ _ _ _ _ H i g Hg ltac:(rewrite Hd by done; lia) Hlone).
    destruct (fi_static _ _ _ _ _ _ _ (v_frames _ _ _ _ _ H _ _ Hg)) as (_ & -> & _).
    rewrite (fi_hash _ _ _ _ _ _ _ (v_frames _ _ _ _ _ H _ _ Hg)) by (rewrite Hd by done; lia).
    cbn. rewrite ?B2, ?B6. destruct (Importer.set k _ _ w) as [[[]| | |] w1]; [|done..]. cbn.
    destruct (fr_version (g_fr g) =? si_height (imp_ st)); cbn.
    + rewrite ?B2, ?B6. by destruct (Importer.set k _ _ w1) as [[[]| | |] w2].
    + pose proof putBE64_bytes as Hb. revert Hb. generalize putBE64. intros pb Hb. rewrite Hb, ?B2, ?B6. change (putBE32 1) with (be_bytes 4 1).
      destruct (Importer.set k _ _ w1) as [[[]| | |] w2]; [|done..]. cbn. rewrite ?B2, ?B6.
      by destruct (Importer.set k _ _ w2) as [[[]| | |] w3].
Qed.

End Run.

(** ** Keys of the log *)

Lemma apply_writes_perm l l' m : l ≡ₚ l' -> NoDup (map fst l) -> apply_writes l m = apply_writes l' m.
Proof using Type.
  intros E. revert m. induction E as [|x l l' E IH|x y l|l1 l2 l3 E1 IH1 E2 IH2]; intros m Hn; [done|..].
  - apply NoDup_cons in Hn as [_ Hn]. by apply IH.
  - unfold apply_writes. cbn. f_equal. apply NoDup_cons in Hn as [Hn _]. apply insert_insert_ne. cbn in Hn.
    intros Ek. apply Hn. rewrite Ek. by left.
  - rewrite IH1 by done. apply IH2. by rewrite <- E1.
Qed.

(** The keys of the log: one per nonce handed out. *)
Definition log_inv sp (hist : list Z) (log : list (bytes * bytes)) : Prop :=
  NoDup (map fst log) /\ forall key, key ∈ map fst log -> exists v n, key = nodeDBKey sp v n /\ v <> 0 /\ int64 v /\ 2 <= n <= 1 + occurrences v hist.

Lemma log_add sp hist log v e : log_inv sp hist log -> v <> 0 -> int64 v -> len hist + 2 < 2 ^ 32 ->
  log_inv sp (v :: hist) (log ++ [(nodeDBKey sp v (2 + occurrences v hist), e)]).
Proof using Type.
  intros [Hn Hk] Hv Hi Hb. pose proof (occurrences_le v hist). pose proof (occurrences_nonneg v hist). unfold log_inv.
  rewrite map_app. cbn [map fst]. split.
  - apply NoDup_app. split_and!; [done| |apply NoDup_singleton]. intros key Hin ->%list_elem_of_singleton.
    destruct (Hk _ Hin) as (v' & n' & E & Hv' & Hi' & Hn'). pose proof (occurrences_le v' hist).
    apply nodeDBKey_inj in E as [<- <-]; [lia|done|done|lia|lia].
  - intros key [Hin|Hin]%elem_of_app.
    + destruct (Hk _ Hin) as (v' & n' & E & Hv' & Hi' & Hn'). exists v', n'. split_and!; [done..|lia|].
      rewrite occurrences_snoc. destruct (Z.eq_dec v v'); lia.
    + apply list_elem_of_singleton in Hin as ->. exists v, (2 + occurrences v hist). split_and!; [done..|lia|].
      rewrite occurrences_snoc. destruct (Z.eq_dec v v); [lia|done].
Qed.

Lemma nonce_inv_eq s s' hist : nonces s' = nonces s -> nonceCacheVersion s' = nonceCacheVersion s ->
  nonceCacheCounter s' = nonceCacheCounter s -> nonce_inv s hist -> nonce_inv s' hist.
Proof using Type. intros E1 E2 E3 H v Hv. specialize (H v Hv). unfold ctr in *. by rewrite E1, E2, E3. Qed.

Lemma log_run ns : forall s f log hist s' f' log', nonce_inv s hist -> log_inv (si_prefix s) hist log ->
  Forall (fun n => nd_version n <> 0 /\ int64 (nd_version n)) ns -> len hist + len ns + 2 < 2 ^ 32 ->
  addNodes seq_sink ns (s, (f, log)) = (Ret tt, (s', (f', log'))) -> NoDup (map fst log').
Proof using Type.
  induction ns as [|nd ns IH]; intros s f log hist s' f' log' Hnon Hlog Hv Hb Hrun.
  - cbn in Hrun. injection Hrun as _ _ <-. apply Hlog.
  - apply Forall_cons in Hv as [[Hv Hi] Hvs]. rewrite len_cons in Hb. pose proof (len_nonneg ns).
    cbn [addNodes] in Hrun. unfold mbind, M_bind in Hrun.
    destruct (addNode seq_sink _ _ _ _ _) as [[[]| | |] [s1 [f1 log1]]] eqn:E; try done. rewrite addNode_eq in E.
    destruct (nextNonce_spec (nd_version nd) (bump_items s) hist) as (m & cv & En & Hnon'); [by eapply nonce_inv_eq|done|lia|].
    set (n := 2 + occurrences (nd_version nd) hist) in *.
    assert (Hstep : exists e, log1 = log ++ [(nodeDBKey (si_prefix s) (nd_version nd) n, e)] /\ si_prefix s1 = si_prefix s /\
      nonces s1 = m /\ nonceCacheVersion s1 = cv /\ nonceCacheCounter s1 = n).
    { destruct (nd_height nd =? 0).
      - destruct (wrap_err "set fast node" (setFast (fastDBKeyInto [] (si_prefix s) (nd_key nd)) (encodeFastNodeInto [] (nd_version nd) (nd_value nd))) f)
          as [r f2] eqn:Ef.
        destruct (addLeaf_seq (nd_version nd) (nd_key nd) (nd_value nd) (bump_items s) f log n _ r f2 En Ef) as (s2 & E2 & Hs2).
        rewrite E in E2. injection E2 as <- -> -> ->. rewrite (Hs2 eq_refl). by eexists.
      - destruct (closesPair (nd_height nd) (bump_items s)) eqn:Ec; [|by rewrite addInner_malformed in E].
        unfold closesPair in Ec. destruct (stack (bump_items s)) as [|rgt [|lft rest]] eqn:Est; [done..|].
        apply andb_prop in Ec as [Hr%Z.ltb_lt Hl%Z.ltb_lt]. apply (nextNonce_set_stack _ rest) in En.
        rewrite (addInner_seq _ _ _ _ _ _ _ _ _ _ _ Est Hr Hl En) in E. injection E as <- <- <-. by eexists. }
    destruct Hstep as (e & -> & Ep & En1 & En2 & En3). eapply IH; [| |exact Hvs| |exact Hrun].
    + eapply (nonce_inv_eq _ s1) in Hnon'; [exact Hnon'|done..].
    + rewrite Ep. by apply log_add; [..|lia].
    + rewrite len_cons. lia.
Qed.

(** ** No execution is stuck or goes on for ever *)

Definition main_weight (m : mpc) : nat :=
  match m with
  | MNext => 5 | MLeafSub _ => 7 | MLeafEnq _ => 50 | MInner IEnq _ _ _ => 50 | MInner s _ _ _ => 16 - Z.to_nat (inum s)
  | MFail _ => 0 | FWait => 4 | FClose => 3 | FJoin => 2 | FDone => 1
  end.
Definition frame_weight (f : parFrame) : nat := if submitted f then 0 else 60.
Definition disp_weight (d : dpc) : nat := match d with DWait => 1 | DHold _ => 39 | DExit => 0 end.
Definition worker_weight (w : wpc) : nat :=
  match w with
  | WIdle => 1 | WExit | WPanic => 0 | W SHash _ => 26 | W SRoot _ => 24 | W SSetRoot _ => 22 | W SWrite _ => 20 | W SDrop _ => 18
  | W SEvent _ => 16 | W SParent _ => 14 | W (SDec _) _ => 12 | W (SBuilt _) _ => 10 | W (SSub _) _ => 8 | W (SEnq _) _ => 50
  | W SDone _ => 4
  end.

#[local] Arguments Nat.mul : simpl never.

(** What is left to do. *)
Definition load st : nat :=
  100 * length (todo st) + main_weight (main st) + sum_list_with frame_weight (heap st) + 40 * length (queue st) +
  disp_weight (disp st) + 36 * length (ready st) + sum_list_with worker_weight (workers st).

Lemma sum_insert {A} (f : A -> nat) l i x y : l !! i = Some x -> (sum_list_with f (<[i := y]> l) + f x = sum_list_with f l + f y)%nat.
Proof using Type.
  revert i. induction l as [|z l IH]; intros [|i] Hi; [done|done|..].
  - injection Hi as ->. cbn. lia.
  - specialize (IH i Hi). change (<[S i := y]> (z :: l)) with (z :: <[i := y]> l). cbn. lia.
Qed.

Lemma load_worker st w x y : workers st !! w = Some x -> (load (set_worker w y st) + worker_weight x = load st + worker_weight y)%nat.
Proof using Type. intros Hw. unfold load. cbn. pose proof (sum_insert worker_weight _ _ _ y Hw). lia. Qed.

Lemma load_main st m : (load (set_main m st) + main_weight (main st) = load st + main_weight m)%nat.
Proof using Type. unfold load. cbn. lia. Qed.

(** Changes of frames that leave the flag do not count; a submission does. *)
Lemma load_upd st i g : (forall f, submitted (g f) = submitted f) -> load (upd i g st) = load st.
Proof using Type.
  intros Hg. unfold load, upd. cbn.
  assert (E : sum_list_with frame_weight (alter g i (heap st)) = sum_list_with frame_weight (heap st)); [|by rewrite E].
  generalize (heap st). intros h. revert i. induction h as [|f h IH]; intros [|i]; cbn; [done..| |].
  - unfold frame_weight. by rewrite Hg.
  - change (alter g (S i) (f :: h)) with (f :: alter g i h). cbn. by rewrite IH.
Qed.

Lemma load_submit st i n0 : (i < length (heap st))%nat -> submitted (frame_at st i) = false ->
  (load (set_wg n0 (upd i (fun fr => set_flags (built fr) true fr) st)) + 60 = load st)%nat.
Proof using Type.
  intros Hi Hs. unfold load, upd. cbn. destruct (lookup_lt_is_Some_2 _ _ Hi) as [f Hf]. unfold frame_at in Hs. rewrite Hf in Hs. cbn in Hs.
  assert (E : alter (fun fr => set_flags (built fr) true fr) i (heap st) = <[i := set_flags (built f) true f]> (heap st)).
  { apply list_eq. intros j. destruct (decide (i = j)) as [<-|Hne].
    - by rewrite list_lookup_alter_eq, Hf, list_lookup_insert_eq.
    - by rewrite list_lookup_alter_ne, list_lookup_insert_ne. }
  rewrite E. pose proof (sum_insert frame_weight _ _ _ (set_flags (built f) true f) Hf) as Hx.
  unfold frame_weight in Hx at 2 4. rewrite Hs in Hx. cbn [submitted set_flags] in Hx. lia.
Qed.

Lemma load_worker_lt st st1 w x y : workers st1 !! w = Some x -> (load st1 <= load st)%nat ->
  (worker_weight y < worker_weight x)%nat -> (load (set_worker w y st1) < load st)%nat.
Proof using Type. intros Hw Hl Hy. pose proof (load_worker st1 w x y Hw). lia. Qed.

Lemma load_main_lt st st1 m : main st1 = main st -> (load st1 <= load st)%nat -> (main_weight m < main_weight (main st))%nat ->
  (load (set_main m st1) < load st)%nat.
Proof using Type. intros Em Hl Hm. pose proof (load_main st1 m) as E. rewrite Em in E. lia. Qed.

Lemma worker_decreases sp G ph P st w st' : inv sp G ph P st -> parWorker w st = Some st' -> (load st' < load st)%nat.
Proof using Type.
  intros H. unfold parWorker. destruct (workers st !! w) as [[|a f| |]|] eqn:Hw; [|intros Hs; injection Hs as <-|done..].
  - destruct (ready st) as [|f r] eqn:Hr.
    + destruct (disp st); [done..|]. intros [= <-]. eapply load_worker_lt; [exact Hw|done|cbn; lia].
    + intros Hs. injection Hs as <-. pose proof (load_worker (set_disp (disp st) r st) w WIdle (W SHash f) Hw) as E.
      unfold load in *. cbn in *. rewrite Hr. cbn. lia.
  - assert (Hgo : forall st1 y, workers st1 = workers st -> (load st1 <= load st)%nat -> (worker_weight y < worker_weight (W a f))%nat ->
      (load (set_worker w y st1) < load st)%nat).
    { intros st1 y Ew Hl Hy. eapply load_worker_lt; [by rewrite Ew|done|done]. }
    destruct a; cbn [processParFrame].
    + destruct (_ =? 0).
      * apply Hgo; [done|by rewrite load_upd|cbn; lia].
      * destruct (leftChild (frame_at st f)), (rightChild (frame_at st f)); (apply Hgo; [done|try done; by rewrite load_upd|cbn; lia]).
    + apply Hgo; [done|done|]. destruct (parent (frame_at st f)); cbn; lia.
    + apply Hgo; [done|done|cbn; lia].
    + apply Hgo; [done|done|cbn; lia].
    + apply Hgo; [by destruct (parent (frame_at st f))| |cbn; lia]. destruct (parent (frame_at st f)); [by rewrite load_upd|done].
    + apply Hgo; [done|by rewrite load_upd|]. destruct (_ =? 2); cbn; lia.
    + apply Hgo; [done|by rewrite load_upd|]. destruct (parent (frame_at st f)); cbn; lia.
    + apply Hgo; [done|by rewrite load_upd|]. destruct (_ =? 0); cbn; lia.
    + apply Hgo; [done|done|]. destruct (built (frame_at st p)); cbn; lia.
    + unfold submit. destruct (submitted (frame_at st p)) eqn:Es; [apply Hgo; [done|done|cbn; lia]|].
      destruct (v_worker _ _ _ _ _ H _ _ _ Hw) as (_ & Ht & _). destruct (Ht p eq_refl) as [b Hp].
      destruct (parent_of _ _ _ _ _ _ _ _ H Hp) as (_ & _ & _ & _ & _ & _ & _ & _ & Hlt).
      pose proof (load_submit st p (hashWg st + 1) Hlt Es) as E.
      pose proof (load_worker (set_wg (hashWg st + 1) (upd p (fun fr => set_flags (built fr) true fr) st)) w _ (W (SEnq p) f) Hw) as E'.
      cbn [worker_weight] in E'. lia.
    + cbn. pose proof (load_worker (set_queue (queue st ++ [p]) st) w _ (W SDone f) Hw) as E.
      assert (Eq : load (set_queue (queue st ++ [p]) st) = (load st + 40)%nat) by (unfold load; cbn; rewrite length_app; cbn; lia).
      cbn [worker_weight] in E. lia.
    + apply Hgo; [done|done|cbn; lia].
Qed.

Lemma disp_decreases st st' : parDispatcher st = Some st' -> (load st' < load st)%nat.
Proof using Type.
  unfold parDispatcher, load. destruct (disp st) as [|f|] eqn:Ed; [|destruct (_ <? _); [|done]|done].
  - destruct (queue st) as [|f q] eqn:Eq; [destruct (closed st); [|done]|]; intros [= <-]; cbn; rewrite ?Eq; cbn; lia.
  - intros [= <-]. cbn. rewrite length_app. cbn. lia.
Qed.

Lemma inner_decreases sp G ph P st a p l r st' : inv sp G ph P st -> main st = MInner a p l r -> inner_step a p l r st = Some st' ->
  (load st' < load st)%nat.
Proof using Type.
  intros H Em Hs. destruct (inner_facts _ _ _ _ _ _ _ _ _ H Em) as (_ & _ & _ & Hp & _).
  assert (Hgo : forall st1 m, main st1 = main st -> (load st1 <= load st)%nat -> (main_weight m < main_weight (MInner a p l r))%nat ->
    (load (set_main m st1) < load st)%nat).
  { intros st1 m E Hl Hm. apply load_main_lt; [done|done|by rewrite Em]. }
  destruct a as [b|b|b| | | | |]; cbn [inner_step] in Hs.
  - injection Hs as <-. apply Hgo; [done|by rewrite load_upd|by destruct b; cbn; lia].
  - injection Hs as <-. apply Hgo; [done|by rewrite load_upd|]. destruct (_ =? 2), b; cbn; lia.
  - injection Hs as <-. apply Hgo; [done|by rewrite load_upd|]. destruct b; cbn; lia.
  - injection Hs as <-. apply Hgo; [done|by rewrite load_upd|cbn; lia].
  - injection Hs as <-. apply Hgo; [done|done|]. destruct (_ =? 0); cbn; lia.
  - unfold submit in Hs. destruct (submitted (frame_at st p)) eqn:Es; injection Hs as <-; [apply Hgo; [done|done|cbn; lia]|].
    pose proof (load_submit st p (hashWg st + 1) Hp Es) as E.
    pose proof (load_main (set_wg (hashWg st + 1) (upd p (fun fr => set_flags (built fr) true fr) st)) (MInner IEnq p l r)) as E'.
    cbn [main set_wg upd set_heap] in E'. rewrite Em in E'. cbn in E'. lia.
  - unfold enqueue in Hs. destruct (_ && _ && _); [done|]. injection Hs as <-.
    unfold load. cbn. rewrite Em, length_app. cbn. lia.
  - injection Hs as <-. unfold load. cbn. rewrite Em. cbn. lia.
Qed.

Lemma main_decreases sp G ph P st st' : inv sp G ph P st -> main_step setFast st = Some st' -> (load st' < load st)%nat.
Proof using Type.
  intros H Hs. unfold main_step in Hs. pose proof (v_main _ _ _ _ _ H) as Hm.
  destruct (main st) as [|f|f|a p l r|r| | | |] eqn:Em; try done.
  - destruct (todo st) as [|nd l] eqn:Et.
    { injection Hs as <-. apply load_main_lt; [done|done|rewrite Em; cbn; lia]. }
    injection Hs as <-. destruct (_ =? 0).
    + unfold addLeafPar. destruct (take_nonce _ _) as [n1 s1]. destruct (wrap_err _ _ _) as [[[]| | |] w1];
        unfold load; cbn; rewrite Em, Et, ?sum_list_with_app; cbn; lia.
    + unfold addInnerPar. destruct (closesPairPar _ _); cbn [negb]; [|unfold load; cbn; rewrite Em, Et; cbn; lia].
      destruct (parStack st) as [|x [|y rest]]; [unfold load; cbn; rewrite Em, Et; cbn; lia..|].
      destruct (take_nonce _ _) as [n1 s1]. unfold load; cbn; rewrite Em, Et, ?sum_list_with_app; cbn; lia.
  - destruct Hm as (g & Hg & _ & _ & Es). unfold submit in Hs. rewrite Es in Hs. injection Hs as <-.
    pose proof (load_submit st f (hashWg st + 1) ltac:(by eapply heap_lt) Es) as E.
    pose proof (load_main (set_wg (hashWg st + 1) (upd f (fun fr => set_flags (built fr) true fr) st)) (MLeafEnq f)) as E'.
    cbn [main set_wg upd set_heap] in E'. rewrite Em in E'. cbn in E'. lia.
  - unfold enqueue in Hs. destruct (_ && _ && _); [done|]. injection Hs as <-.
    unfold load. cbn. rewrite Em, length_app. cbn. lia.
  - by eapply inner_decreases.
  - destruct (_ =? 0); [|done]. injection Hs as <-. apply load_main_lt; [done|done|rewrite Em; cbn; lia].
  - injection Hs as <-. unfold load. cbn. rewrite Em. cbn. lia.
  - destruct (disp st); try done. destruct (all_exited st); [|done]. injection Hs as <-.
    apply load_main_lt; [done|done|rewrite Em; cbn; lia].
Qed.

Lemma step_decreases sp G ph P st st' : inv sp G ph P st -> par_step setFast st st' -> (load st' < load st)%nat.
Proof using Type.
  intros H [Hs|Hs|w Hs]; [by eapply main_decreases|by apply disp_decreases|by eapply worker_decreases].
Qed.

(** When the queue is closed and who has left. *)
Definition closing (m : mpc) : bool := match m with FJoin | FDone => true | _ => false end.

Record ctl (n : nat) st : Prop := {
  c_len : length (workers st) = n;
  c_closed : closed st = closing (main st);
  c_gone : disp st = DExit -> closed st = true;
  c_exit : (exists w, workers st !! w = Some WExit) -> disp st = DExit /\ ready st = []
}.

Lemma ctl_main n st st' : ctl n st -> main_step setFast st = Some st' -> ctl n st'.
Proof using Type.
  intros [C1 C2 C4 C3] Hs. unfold main_step in Hs.
  assert (Hkeep : forall m st1, workers st1 = workers st -> disp st1 = disp st -> ready st1 = ready st -> closed st1 = closing m ->
    (closed st = true -> closed st1 = true) -> ctl n (set_main m st1)).
  { intros m st1 E1 E2 E3 E4 E5. split; cbn; [by rewrite E1|done|rewrite E2; auto|]. by rewrite E1, E2, E3. }
  destruct (main st) as [|f|f|a p l r|r| | | |] eqn:Em; try done.
  - destruct (todo st) as [|nd l]; injection Hs as <-; [by apply Hkeep|]. destruct (_ =? 0).
    + unfold addLeafPar. destruct (take_nonce _ _). destruct (wrap_err _ _ _) as [[[]| | |] w1]; by apply Hkeep.
    + unfold addInnerPar. destruct (closesPairPar _ _); cbn [negb]; [|by apply Hkeep].
      destruct (parStack st) as [|x [|y rest]]; [by apply Hkeep..|]. destruct (take_nonce _ _). by apply Hkeep.
  - unfold submit in Hs. destruct (submitted _); injection Hs as <-; by apply Hkeep.
  - unfold enqueue in Hs. destruct (_ && _ && _); [done|]. injection Hs as <-. by apply Hkeep.
  - destruct a as [b|b|b| | | | |]; cbn [inner_step] in Hs.
    + injection Hs as <-. by destruct b; apply Hkeep.
    + injection Hs as <-. destruct (_ =? 2), b; by apply Hkeep.
    + injection Hs as <-. by destruct b; apply Hkeep.
    + injection Hs as <-. by apply Hkeep.
    + injection Hs as <-. destruct (_ =? 0); by apply Hkeep.
    + unfold submit in Hs. destruct (submitted _); injection Hs as <-; by apply Hkeep.
    + unfold enqueue in Hs. destruct (_ && _ && _); [done|]. injection Hs as <-. by apply Hkeep.
    + injection Hs as <-. by apply Hkeep.
  - destruct (_ =? 0); [|done]. injection Hs as <-. by apply Hkeep.
  - injection Hs as <-. by apply Hkeep.
  - destruct (disp st) eqn:Ed; try done. destruct (all_exited st); [|done]. injection Hs as <-. apply Hkeep; [done|by rewrite Ed|done|done|done].
Qed.

Lemma ctl_disp n st st' : ctl n st -> parDispatcher st = Some st' -> ctl n st'.
Proof using Type.
  intros [C1 C2 C4 C3] Hs. unfold parDispatcher in Hs. destruct (disp st) as [|f|] eqn:Ed; [|destruct (_ <? _); [|done]|done].
  - destruct (queue st); [destruct (closed st) eqn:Ec; [|done]|]; injection Hs as <-;
      (split; cbn; [done|congruence|done|intros Hx; by destruct (C3 Hx)]).
  - injection Hs as <-. split; cbn; [done|done|done|intros Hx; by destruct (C3 Hx)].
Qed.

Lemma ctl_worker n st w st' : ctl n st -> parWorker w st = Some st' -> ctl n st'.
Proof using Type.
  intros [C1 C2 C4 C3] Hs. unfold parWorker in Hs. destruct (workers st !! w) as [x|] eqn:Hw; [|done].
  assert (Hkeep : forall y st1, workers st1 = workers st -> disp st1 = disp st -> (ready st = [] -> ready st1 = []) ->
    closed st1 = closed st -> main st1 = main st -> (y = WExit -> disp st = DExit /\ ready st = []) -> ctl n (set_worker w y st1)).
  { intros y st1 E1 E2 E3 E4 E5 Hy. split; cbn; [by rewrite length_insert, E1|by rewrite E4, E5|by rewrite E2, E4|]. rewrite E1, E2. intros [w' Hx].
    assert (Hd : disp st = DExit /\ ready st = []); [|destruct Hd; auto].
    destruct (decide (w' = w)) as [->|Hne]; [rewrite list_lookup_insert_eq in Hx by (by eapply lookup_lt_Some)|rewrite list_lookup_insert_ne in Hx by done].
    - injection Hx as ->. by apply Hy.
    - apply C3. by exists w'. }
  destruct x as [|a f| |]; [|injection Hs as <-|done..].
  - destruct (ready st) as [|f r] eqn:Hr.
    + destruct (disp st) eqn:Ed; try done. injection Hs as <-. by apply Hkeep.
    + injection Hs as <-. by apply Hkeep.
  - destruct a; cbn [processParFrame]; try by apply Hkeep.
    + destruct (_ =? 0); [by apply Hkeep|]. destruct (leftChild (frame_at st f)), (rightChild (frame_at st f)); by apply Hkeep.
    + destruct (parent (frame_at st f)); by apply Hkeep.
    + unfold submit. destruct (submitted (frame_at st p)); by apply Hkeep.
Qed.

Lemma ctl_step n st st' : ctl n st -> par_step setFast st st' -> ctl n st'.
Proof using Type. intros H [Hs|Hs|w Hs]; [by eapply ctl_main|by eapply ctl_disp|by eapply ctl_worker]. Qed.

Definition main_over (m : mpc) : Prop := m = FDone \/ exists r, m = MFail r.

Lemma idle_or_step st : (forall w, workers st !! w <> Some WPanic) -> (exists st', par_step setFast st st') \/
  (forall w x, workers st !! w = Some x -> x = WIdle \/ x = WExit).
Proof using Type.
  intros Hnp. destruct (decide (Exists (fun x => x <> WIdle /\ x <> WExit) (workers st))) as [He|He].
  - left. apply Exists_exists in He as (x & Hin & H1 & H2). apply list_elem_of_lookup in Hin as [w Hw].
    destruct x as [|a f| |]; [done| |done|by destruct (Hnp w)]. eexists. apply (step_worker _ _ _ w). unfold parWorker. by rewrite Hw.
  - right. intros w x Hw. apply not_Exists_Forall in He; [|intros y; apply _].
    rewrite Forall_lookup in He. specialize (He w x Hw). destruct x; [by left| |by right|by destruct (Hnp w)]. destruct He. done.
Qed.


(** When the workers are idle and the ready channel is empty. *)
Lemma quiet_progress sp G ph P n st : inv sp G ph P st -> ctl (S n) st -> ready st = [] ->
  (forall w x, workers st !! w = Some x -> x = WIdle \/ x = WExit) -> (forall r, main st <> MFail r) -> main st <> FDone ->
  exists st', par_step setFast st st'.
Proof using Type.
  intros H [C1 C2 C4 C3] Hr Hidle Hnf Hnd.
  assert (Hnil : forall (f : wpc -> list nat), f WIdle = [] -> f WExit = [] -> concat (map f (workers st)) = []).
  { intros f F1 F2. assert (Hall : Forall (fun x => x = WIdle \/ x = WExit) (workers st)) by by apply Forall_lookup.
    revert Hall. clear - F1 F2. generalize (workers st). intros ws Hall. induction Hall as [|x ws [-> | ->] _ IH]; cbn;
      [done|by rewrite F1, IH|by rewrite F2, IH]. }
  destruct (disp st) as [|f|] eqn:Ed.
  - destruct (queue st) as [|f q] eqn:Eq; [|eexists; apply step_disp; unfold parDispatcher; by rewrite Ed, Eq].
    destruct (closed st) eqn:Ec; [eexists; apply step_disp; unfold parDispatcher; by rewrite Ed, Eq, Ec|].
    assert (Hm : exists st', main_step setFast st = Some st'); [|destruct Hm as [st' ?]; exists st'; by apply step_main].
    assert (Hen : forall g, enqueue g true st = Some (set_queue ([] ++ [g]) st)) by (intros g; unfold enqueue; by rewrite Eq).
    pose proof (v_wg _ _ _ _ _ H) as Hwg. unfold waiting, busy in Hwg. rewrite Eq, Ed, Hr, !Hnil in Hwg by done.
    unfold main_step. destruct (main st) as [|g|g|a p l r|r| | | |] eqn:Em; try done.
    + destruct (todo st); by eexists.
    + destruct (submit g st). by eexists.
    + rewrite Hen. by eexists.
    + destruct a; cbn [inner_step]; try by eexists.
      * destruct (submit p st). by eexists.
      * rewrite Hen. by eexists.
    + by destruct (Hnf r).
    + cbn in Hwg. rewrite Hwg. by eexists.
    + by eexists.
  - eexists. apply step_disp. unfold parDispatcher. rewrite Ed, Hr, (proj2 (Z.ltb_lt _ _)); [done|].
    unfold len. rewrite C1. cbn [length]. lia.
  - destruct (decide (Exists (fun x => x = WIdle) (workers st))) as [He|He].
    + apply Exists_exists in He as (x & Hin & ->). apply list_elem_of_lookup in Hin as [w Hw].
      eexists. apply (step_worker _ _ _ w). unfold parWorker. by rewrite Hw, Hr, Ed.
    + assert (Hall : all_exited st = true).
      { apply forallb_forall. intros x Hx. apply list_elem_of_In, list_elem_of_lookup in Hx as [w Hw].
        destruct (Hidle w x Hw) as [->| ->]; [|done]. destruct He. apply Exists_exists. exists WIdle. split; [by eapply list_elem_of_lookup_2|done]. }
      rewrite C2 in C4. specialize (C4 eq_refl). exists (set_main FDone st). apply step_main. unfold main_step.
      destruct (main st); try done. by rewrite Ed, Hall.
Qed.

Lemma par_progress sp G ph P n st : inv sp G ph P st -> ctl (S n) st -> main_over (main st) \/ exists st', par_step setFast st st'.
Proof using Type.
  intros H C. assert (Hd : main_over (main st) \/ ((forall r, main st <> MFail r) /\ main st <> FDone)).
  { destruct (main st) eqn:Em; try (by right). - left. right. by eexists. - by left; left. }
  destruct Hd as [|[Hnf Hnd]]; [by left|right].
  destruct (idle_or_step st (v_nopanic _ _ _ _ _ H)) as [|Hidle]; [done|].
  destruct (ready st) as [|f r] eqn:Hr; [by eapply quiet_progress|].
  destruct (workers st !! 0%nat) as [x|] eqn:Hw; [|apply lookup_ge_None in Hw; rewrite (c_len _ _ C) in Hw; lia].
  destruct (Hidle _ _ Hw) as [->| ->].
  - eexists. apply (step_worker _ _ _ 0%nat). unfold parWorker. by rewrite Hw, Hr.
  - destruct (c_exit _ _ C) as [_ E]; [by eexists|congruence].
Qed.

(** ** The importer as a whole *)

Section Main.
Context (name : bytes) (h0 : Z) (n : nat) (w0 : Fast) (ns : list node) (st : par Fast).
Context (Hrun : steps (par_step setFast) (enableWaveParallel n (newStoreImporter name h0) w0 ns) st).

Lemma reached : good (newStoreImporter name h0) w0 ns st.
Proof using Hrun.
  eapply (steps_invariant _ (good (newStoreImporter name h0) w0 ns)); [|by apply good_init|exact Hrun]. intros x y Hx Hxy. by eapply good_step.
Qed.

Lemma par_done : main st = FDone -> exists s log,
  addNodes seq_sink ns (newStoreImporter name h0, (w0, [])) = (Ret tt, (s, (fast st, log))) /\ writeQ st ≡ₚ log /\
  (itemCount (imp_ st), leafCount (imp_ st), innerCount (imp_ st)) = (itemCount s, leafCount s, innerCount s) /\
  forall W (k : sink W) w, forget (finalizePar st k (imp_ st, w)) = forget (finalize k (s, w)).
Proof using Hrun.
  intros Em. destruct reached as (G & ph & P & H & Hs). unfold sim in Hs. rewrite Em in Hs.
  destruct Hs as (pre & s & A1 & A2 & A3 & A4 & A5 & A6). exists s, (map (entry (si_prefix (newStoreImporter name h0))) G).
  pose proof (v_main _ _ _ _ _ H) as Hm. rewrite Em in Hm. destruct Hm as [Ht _]. rewrite Ht, app_nil_r in A1. subst pre.
  split_and!.
  - exact A2.
  - eapply all_written; [exact H|done].
  - rewrite Em in A4. cbn in A4. destruct A3 as (_ & _ & _ & _ & _ & _ & -> & ->). by rewrite A4.
  - intros W k w. by eapply finalize_agrees.
Qed.
Lemma reached_ctl : ctl n st.
Proof using Hrun.
  eapply steps_invariant; [|split|exact Hrun]; cbn.
  - intros x y Hx Hxy. by eapply ctl_step.
  - apply length_replicate.
  - done.
  - done.
  - intros [w Hw]. by apply lookup_replicate in Hw as [? _].
Qed.
End Main.

Lemma run_to_end name h0 n w0 ns : forall k st, (load st <= k)%nat -> good (newStoreImporter name h0) w0 ns st -> ctl (S n) st ->
  exists st', steps (par_step setFast) st st' /\ main_over (main st').
Proof using Type.
  induction k as [|k IH]; intros st Hk Hg Hc; pose proof Hg as (G & ph & P & H & _);
    (destruct (par_progress _ _ _ _ _ _ H Hc) as [Ho|[st1 Hs]]; [exists st; split; [constructor|done]|]);
    pose proof (step_decreases _ _ _ _ _ _ H Hs); [lia|].
  destruct (IH st1 ltac:(lia) (good_step _ _ _ _ _ Hg Hs) (ctl_step _ _ _ Hc Hs)) as (st' & H1 & H2).
  exists st'. split; [by econstructor|done].
Qed.

Lemma run_bounded s0 w0 ns k st st' : nsteps (par_step setFast) k st st' -> good s0 w0 ns st -> (k <= load st)%nat.
Proof using Type.
  induction 1 as [st|k st st1 st' Hs Hr IH]; intros Hg; [lia|].
  specialize (IH (good_step _ _ _ _ _ Hg Hs)). destruct Hg as (G & ph & P & H & _). pose proof (step_decreases _ _ _ _ _ _ H Hs). lia.
Qed.

Lemma load_init n s0 w0 ns : load (enableWaveParallel n s0 w0 ns) = (100 * length ns + n + 6)%nat.
Proof using Type.
  unfold load. cbn. assert (E : sum_list_with worker_weight (replicate n WIdle) = n) by (induction n as [|n IH]; cbn; [done|by rewrite IH]).
  rewrite E. lia.
Qed.
End Equivalence.

(** C9: in every interleaving of main, the dispatcher and the workers, when the importer has finished its stream
    the sequential importer accepts it too, the fast-path writes are the same, the nodes emitted are the same up to
    their order, the counters agree, and [finalizePar] gives the result and the writes of [finalize]; when main has
    failed, the sequential importer fails with the same error. *)
Theorem par_equiv {Fast} (setFast : bytes -> bytes -> M Fast unit) name h0 n w0 ns st :
  steps (par_step setFast) (enableWaveParallel n (newStoreImporter name h0) w0 ns) st ->
  match main st with
  | FDone => exists s log, addNodes (seq_sink setFast) ns (newStoreImporter name h0, (w0, [])) = (Ret tt, (s, (fast st, log))) /\
      writeQ st ≡ₚ log /\
      (itemCount (imp_ st), leafCount (imp_ st), innerCount (imp_ st)) = (itemCount s, leafCount s, innerCount s) /\
      forall W (k : sink W) w, forget (finalizePar st k (imp_ st, w)) = forget (finalize k (s, w))
  | MFail r => r <> Ret tt /\
      exists s log, addNodes (seq_sink setFast) ns (newStoreImporter name h0, (w0, [])) = (r, (s, (fast st, log)))
  | _ => True
  end.
Proof.
  intros Hrun. destruct (main st) eqn:Em; try done.
  - destruct (reached _ _ _ _ _ _ _ Hrun) as (G & ph & P & _ & Hs). unfold sim in Hs. by rewrite Em in Hs.
  - by eapply par_done.
Qed.

(** C35: the database of a store is the one of the sequential import: draining the writes of the workers in the
    order they came and then finalizing leaves the same map and returns the same root hash as emitting the nodes in
    stream order, for any stream whose versions are non-zero 64-bit integers and whose length is below 2^32 - 2. *)
Theorem par_database {Fast} (setFast : bytes -> bytes -> M Fast unit) name h0 n w0 ns st m0 :
  steps (par_step setFast) (enableWaveParallel n (newStoreImporter name h0) w0 ns) st -> main st = FDone ->
  Forall (fun nd => nd_version nd <> 0 /\ int64 (nd_version nd)) ns -> len ns + 2 < 2 ^ 32 ->
  exists s log, addNodes (seq_sink setFast) ns (newStoreImporter name h0, (w0, [])) = (Ret tt, (s, (fast st, log))) /\
    forget (finalizePar st map_sink (imp_ st, apply_writes (writeQ st) m0)) = forget (finalize map_sink (s, apply_writes log m0)).
Proof.
  intros Hrun Em Hv Hl. destruct (par_done _ _ _ _ _ _ _ Hrun Em) as (s & log & H1 & H2 & _ & H4). exists s, log. split; [done|].
  rewrite H4. f_equal. f_equal. f_equal. symmetry. apply apply_writes_perm; [done|].
  eapply (log_run setFast ns _ _ [] []); [| |exact Hv|rewrite len_nil; lia|exact H1].
  - intros v Hv0. unfold ctr. cbn. destruct (Z.eqb_spec v 0); [done|]. by rewrite lookup_empty.
  - split; [constructor|]. intros key Hin. by apply not_elem_of_nil in Hin.
Qed.

(** C34: with at least one worker no execution of the pool blocks before main is through, and none is longer than
    100 steps per node of the stream, so every execution ends, in success or in the failure of a node. *)
Theorem par_live {Fast} (setFast : bytes -> bytes -> M Fast unit) name h0 n w0 ns :
  let init := enableWaveParallel (S n) (newStoreImporter name h0) w0 ns in
  (forall st, steps (par_step setFast) init st -> exists st', steps (par_step setFast) st st' /\ main_over (main st')) /\
  (forall k st, nsteps (par_step setFast) k init st -> (k <= 100 * length ns + n + 7)%nat).
Proof.
  intros init. split.
  - intros st Hrun. eapply (run_to_end setFast name h0 n w0 ns (load st)); [done|by eapply reached|by eapply reached_ctl].
  - intros k st Hk. eapply (run_bounded _ (newStoreImporter name h0) w0 ns) in Hk; [|by apply good_init].
    unfold init in Hk. rewrite load_init in Hk. lia.
Qed.

(** ** Executions *)

Section Exec.
Context {Fast : Type} (setFast : bytes -> bytes -> M Fast unit).

(** A scheduler's choice: main, the dispatcher, or a worker. *)
Definition choose (c : nat) (st : par Fast) : option (par Fast) :=
  match c with 0 => main_step setFast st | 1 => parDispatcher st | S (S w) => parWorker w st end%nat.

(** Choices that are not enabled are passed over. *)
Fixpoint run_choices (cs : list nat) (st : par Fast) : par Fast :=
  match cs with
  | [] => st
  | c :: cs => run_choices cs (default st (choose c st))
  end.

Lemma run_choices_steps cs st : steps (par_step setFast) st (run_choices cs st).
Proof using Type.
  revert st. induction cs as [|c cs IH]; intros st; cbn; [constructor|]. destruct (choose c st) as [st1|] eqn:E; [|by apply IH].
  apply (steps_next _ _ st1); [|by apply IH]. destruct c as [|[|w]]; [by apply step_main|by apply step_disp|by apply (step_worker _ _ _ w)].
Qed.
End Exec.

Definition log_fast : bytes -> bytes -> M (list (bytes * bytes)) unit := fun key v l => (Ret tt, l ++ [(key, v)]).
Definition sample_stream : list node :=
  [mkNode 0 3 (str "a") (str "x"); mkNode 0 5 (str "b") (str "y"); mkNode 1 5 (str "b") []].
Definition sample_init : par (list (bytes * bytes)) := enableWaveParallel 2 (newStoreImporter (str "bank") 9) [] sample_stream.
Definition round_robin (n : nat) : list nat := concat (replicate n [0; 1; 2; 3]%nat).

Lemma par_equiv_witness : exists st, main st = FDone /\ exists s log,
  addNodes (seq_sink log_fast) sample_stream (newStoreImporter (str "bank") 9, ([], [])) = (Ret tt, (s, (fast st, log))) /\ writeQ st ≡ₚ log.
Proof.
  pose proof (par_equiv log_fast (str "bank") 9 2 [] sample_stream _ (run_choices_steps log_fast (round_robin 40) sample_init)) as H.
  assert (Em : main (run_choices log_fast (round_robin 40) sample_init) = FDone) by (vm_compute; reflexivity).
  rewrite Em in H. destruct H as (s & log & H1 & H2 & _). eexists. split; [exact Em|]. exists s, log. split; [exact H1|exact H2].
Defined.

Lemma par_database_witness : exists st s log,
  addNodes (seq_sink log_fast) sample_stream (newStoreImporter (str "bank") 9, ([], [])) = (Ret tt, (s, (fast st, log))) /\
  forget (finalizePar st map_sink (imp_ st, apply_writes (writeQ st) ∅)) = forget (finalize map_sink (s, apply_writes log ∅)).
Proof.
  exists (run_choices log_fast (round_robin 40) sample_init).
  apply (par_database log_fast (str "bank") 9 2 [] sample_stream _ ∅ (run_choices_steps log_fast (round_robin 40) sample_init)).
  - vm_compute. reflexivity.
  - repeat constructor; (discriminate || (split; vm_compute; congruence) || (vm_compute; congruence)).
  - vm_compute. reflexivity.
Defined.

(** The comments take the root for the only frame hashed without a parent: two
    workers can be about to write [rootEncoded] at once. *)
Lemma root_bytes_have_two_writers : exists st, steps (par_step log_fast) sample_init st /\
  workers st = [W SSetRoot 0%nat; W SSetRoot 1%nat].
Proof.
  exists (run_choices log_fast [0; 0; 0; 0; 0; 0; 1; 1; 2; 1; 1; 3; 2; 2; 3; 3]%nat sample_init).
  split; [apply run_choices_steps|vm_compute; reflexivity].
Qed.
