(* ===== verification/SnapProto.v ===== *)
(** * The snapshot item decoder (internal/snapshotimport/snapproto.go)

    [snapReader.Next] cuts the stream into length-prefixed envelopes and decodes
    each as a SnapshotItem.  The field getters walk a message with an index kept
    in a 64-bit [int]; the arithmetic on forged lengths is modelled as it wraps.
    The main theorems: the getters find a field in any well-formed message, they
    return for every message without forged lengths (and loop on one with), a
    stream of encoded items reads back item by item, and the eviction pin never
    passes the item the consumer is looking at. *)

From S2P Require Import Prelude Varint IavlEnc CommitInfo.

Definition maxEnvelopeBytes : Z := 64000000.

Definition itemTypeStore : Z := 1.
Definition itemTypeIAVL : Z := 2.
Definition itemTypeExtMeta : Z := 3.
Definition itemTypeExtPayload : Z := 4.

(** Slices that the code compares with [nil] are options. *)
Record snapItem := mkItem {
  Type_ : Z;
  StoreName : bytes;
  IAVLKey : option bytes;
  IAVLValue : option bytes;
  IAVLVersion : Z;
  IAVLHeight : Z;
  ExtName : bytes;
  ExtFormat : Z;
  ExtPayload : option bytes
}.

Definition new_item (ty : Z) : snapItem := mkItem ty [] None None 0 0 [] 0 None.

(** ** Field getters *)

(** Skipping a field whose tag was just read: the index after it, or [None]
    where the code gives up. *)
Definition skip_field (buf : bytes) (tag : Init.Byte.byte) (i : Z) : outcome (option Z) :=
  if Z.land (byte.unsigned tag) 7 =? 0 then
    rest ← go_from buf i;
    let m := snd (Uvarint rest) in
    mret (if m <=? 0 then None else Some (i + m))
  else if Z.land (byte.unsigned tag) 7 =? 2 then
    rest ← go_from buf i;
    let '(ln, m) := Uvarint rest in
    mret (if (m <=? 0) || (len buf <? i64 (i + m + i64 ln)) then None
          else Some (i64 (i + i64 (m + i64 ln))))
  else mret None.

Fixpoint getBytesField_loop (fuel : nat) (buf : bytes) (want : Z) (i : Z) : outcome (option bytes) :=
  if negb (i <? len buf) then Ret None else
  match fuel with
  | O => NoFuel
  | S fuel =>
    tag ← go_index buf i;
    let i := i + 1 in
    if byte.unsigned tag =? want then
      rest ← go_from buf i;
      let '(ln, m) := Uvarint rest in
      if (m <=? 0) || (len buf <? i64 (i + m + i64 ln)) then Ret None
      else
        let i := i + m in
        v ← go_slice buf i (i64 (i + i64 ln));
        Ret (Some v)
    else
      next ← skip_field buf tag i;
      match next with
      | None => Ret None
      | Some i => getBytesField_loop fuel buf want i
      end
  end.

Definition getBytesField (buf : bytes) (field : Z) : outcome (option bytes) :=
  getBytesField_loop (S (length buf)) buf (u8 (Z.lor (Z.shiftl field 3) 2)) 0.

(** [copy(dst, src)]. *)
Definition copy (dst src : bytes) : bytes := take (length dst) src ++ drop (length src) dst.

Definition copyBytesField (buf : bytes) (field : Z) : outcome (option bytes) :=
  v ← getBytesField buf field;
  match v with
  | None => Ret None
  | Some v => Ret (Some (copy (replicate (length v) (byte.of_Z 0)) v))
  end.

Fixpoint getVarintField_loop (fuel : nat) (buf : bytes) (want : Z) (i : Z) : outcome Z :=
  if negb (i <? len buf) then Ret 0 else
  match fuel with
  | O => NoFuel
  | S fuel =>
    tag ← go_index buf i;
    let i := i + 1 in
    if byte.unsigned tag =? want then
      rest ← go_from buf i;
      let '(v, m) := Uvarint rest in
      Ret (if m <=? 0 then 0 else v)
    else
      next ← skip_field buf tag i;
      match next with
      | None => Ret 0
      | Some i => getVarintField_loop fuel buf want i
      end
  end.

Definition getVarintField (buf : bytes) (field : Z) : outcome Z :=
  getVarintField_loop (S (length buf)) buf (u8 (Z.shiftl field 3)) 0.

(** ** Items *)

Definition decodeOneOf (item : snapItem) (buf : bytes) : outcome snapItem :=
  let ty := Type_ item in
  if ty =? itemTypeStore then
    name ← getBytesField buf 1;
    mret (mkItem ty (default [] name) None None 0 0 [] 0 None)
  else if ty =? itemTypeIAVL then
    key ← copyBytesField buf 1;
    value ← copyBytesField buf 2;
    version ← getVarintField buf 3;
    height ← getVarintField buf 4;
    let h := i8 height in
    let value := match value with
                 | None => if h =? 0 then Some [] else None
                 | Some v => Some v
                 end in
    mret (mkItem ty [] key value (i64 version) h [] 0 None)
  else if ty =? itemTypeExtMeta then
    name ← getBytesField buf 1;
    format ← getVarintField buf 2;
    mret (mkItem ty [] None None 0 0 (default [] name) (u32 format) None)
  else if ty =? itemTypeExtPayload then
    payload ← copyBytesField buf 1;
    mret (mkItem ty [] None None 0 0 [] 0 payload)
  else Err (Errorf "unknown SnapshotItem oneof field").

Fixpoint uvarintLen_loop (fuel : nat) (v n : Z) : Z :=
  match fuel with
  | O => n
  | S fuel => if 128 <=? v then uvarintLen_loop fuel (Z.shiftr v 7) (n + 1) else n
  end.

(** A uint64 is below 128 after at most nine shifts by 7. *)
Definition uvarintLen (v : Z) : Z := uvarintLen_loop 9 v 1.

(** ** The reader *)

(** What the underlying reader offers when it can pin its bytes. *)
Class RingPinner (P : Type) := {
  AdvancePin : Z -> P -> P;
  EnableManualPin : P -> P
}.

Section Reader.
Context {P : Type} `{RingPinner P}.

Record snapReader := mkReader {
  br : source;
  pinner : option P;
  lastItemBytes : Z
}.

Definition newSnapReader (s : source) (p : option P) : snapReader :=
  mkReader s (EnableManualPin <$> p) 0.

Definition advance (n : Z) : M snapReader unit := modify (fun s =>
  match pinner s with
  | Some p => mkReader (br s) (Some (AdvancePin n p)) (lastItemBytes s)
  | None => s
  end).

Definition buffered {A} (m : M source A) : M snapReader A :=
  zoom br (fun b s => mkReader b (pinner s) (lastItemBytes s)) m.

(** The pin advance for the item returned by the previous call. *)
Definition commit_last : M snapReader unit :=
  s ← get;
  match pinner s with
  | Some _ =>
      if 0 <? lastItemBytes s then
        _ ← advance (lastItemBytes s);
        modify (fun s => mkReader (br s) (pinner s) 0)
      else mret tt
  | None => mret tt
  end.

Definition lift {A} (o : outcome A) : M snapReader A := fun s => (o, s).

(** The part of [Next] after the envelope was read; the envelope is not empty
    here, so the code's second test for that never fires. *)
Definition decodeEnvelope (buf : bytes) : outcome snapItem :=
  tag ← go_index buf 0;
  let field := Z.shiftr (byte.unsigned tag) 3 in
  let wire := Z.land (byte.unsigned tag) 7 in
  if negb (wire =? 2) then Err (Errorf "unexpected wire type on oneof tag (want length-delimited)")
  else
    rest ← go_from buf 1;
    let '(innerLen, n) := Uvarint rest in
    if n <=? 0 then Err (Errorf "bad inner length varint on SnapshotItem")
    else
      body ← go_slice buf (1 + n) (i64 (1 + n + i64 innerLen));
      decodeOneOf (new_item field) body.

Fixpoint Next_loop (fuel : nat) : M snapReader snapItem :=
  match fuel with
  | O => fun s => (NoFuel, s)
  | S fuel => fun s =>
      match buffered ReadUvarint s with
      | (Ret envLen, s1) =>
          (if envLen =? 0 then _ ← advance 1; Next_loop fuel
           else if maxEnvelopeBytes <? envLen then fail (Errorf "snapshot envelope exceeds cap")
           else
             buf ← wrap_err "read envelope body" (buffered (ReadFull envLen));
             item ← lift (decodeEnvelope buf);
             _ ← modify (fun s => mkReader (br s) (pinner s) (uvarintLen envLen + envLen));
             mret item) s1
      | (Err EOF, s1) => (Err EOF, s1)
      | (Err e, s1) => (Err (Wrapf "read envelope length" e), s1)
      | (Panic w, s1) => (Panic w, s1)
      | (NoFuel, s1) => (NoFuel, s1)
      end
  end.

(** Every turn of the loop reads at least one byte, so one unit of fuel per
    byte left, and one for the end of the stream, is enough. *)
Definition Next : M snapReader snapItem := fun s =>
  (_ ← commit_last; Next_loop (S (length (src_data (br s))))) s.

(** Reading to the end: the items and the error that ended the stream. *)
Fixpoint readAll (fuel : nat) (s : snapReader) : list snapItem * outcome snapItem * snapReader :=
  match fuel with
  | O => ([], NoFuel, s)
  | S fuel =>
      match Next s with
      | (Ret it, s1) => let '(its, r, s2) := readAll fuel s1 in (it :: its, r, s2)
      | (r, s1) => ([], r, s1)
      end
  end.
End Reader.
Arguments snapReader : clear implicits.
Arguments mkReader {P}.

(** ** Well-formed messages *)

(** A protobuf message as the list of its fields. *)
Inductive pfield :=
| PVarint (num v : Z)
| PBytes (num : Z) (b : bytes).

Definition encode_field (f : pfield) : bytes :=
  match f with
  | PVarint n v => appendUvarintField [] n v
  | PBytes n b => appendBytesField [] n b
  end.

Definition encode_fields (fs : list pfield) : bytes := concat (map encode_field fs).

(** One-byte tags, 64-bit values. *)
Definition field_ok (f : pfield) : Prop :=
  match f with
  | PVarint n v => 1 <= n < 16 /\ 0 <= v < 2 ^ 64
  | PBytes n b => 1 <= n < 16
  end.

Fixpoint find_bytes (n : Z) (fs : list pfield) : option bytes :=
  match fs with
  | [] => None
  | PBytes m b :: r => if m =? n then Some b else find_bytes n r
  | _ :: r => find_bytes n r
  end.

Fixpoint find_varint (n : Z) (fs : list pfield) : Z :=
  match fs with
  | [] => 0
  | PVarint m v :: r => if m =? n then v else find_varint n r
  | _ :: r => find_varint n r
  end.

Lemma tag_bytes n : 0 <= n < 32 -> Z.lor (u8 (Z.shiftl n 3)) 2 = n * 8 + 2.
Proof.
  intros Hn. rewrite u8_small, Z.lor_comm by (rewrite Z.shiftl_mul_pow2; lia).
  by rewrite lor_shiftl_add by lia; lia.
Qed.

Lemma want_bytes n : 0 <= n < 32 -> u8 (Z.lor (Z.shiftl n 3) 2) = n * 8 + 2.
Proof.
  intros Hn. rewrite Z.lor_comm, lor_shiftl_add by lia. rewrite u8_small; lia.
Qed.

Lemma want_varint n : 0 <= n < 32 -> u8 (Z.shiftl n 3) = n * 8.
Proof. intros Hn. rewrite Z.shiftl_mul_pow2, u8_small; lia. Qed.

Lemma land7 n k : 0 <= k < 8 -> Z.land (n * 8 + k) 7 = k.
Proof.
  intros Hk. change 7 with (Z.ones 3). rewrite Z.land_ones by lia. change (2 ^ 3) with 8.
  rewrite Z.add_comm, Z_mod_plus_full. apply Z.mod_small. lia.
Qed.

Lemma encode_varint_field n v :
  1 <= n < 16 -> encode_field (PVarint n v) = byte.of_Z (n * 8) :: PutUvarint v.
Proof. intros Hn. cbn. unfold appendUvarintField. by rewrite Z.shiftl_mul_pow2 by lia. Qed.

Lemma encode_bytes_field n b :
  1 <= n < 16 -> encode_field (PBytes n b) = byte.of_Z (n * 8 + 2) :: PutUvarint (len b) ++ b.
Proof. intros Hn. cbn. unfold appendBytesField. by rewrite tag_bytes by lia. Qed.

Lemma tag_value n k : 1 <= n < 16 -> 0 <= k < 8 -> byte.unsigned (byte.of_Z (n * 8 + k)) = n * 8 + k.
Proof. intros. apply unsigned_of_Z_small. lia. Qed.

(** Skipping a whole field. *)
Lemma skip_encoded pre f post :
  field_ok f -> len (pre ++ encode_field f ++ post) < 2 ^ 62 ->
  exists t r, encode_field f = t :: r /\
    go_index (pre ++ encode_field f ++ post) (len pre) = Ret t /\
    skip_field (pre ++ encode_field f ++ post) t (len pre + 1) = Ret (Some (len (pre ++ encode_field f))).
Proof.
  intros Hf Hb. destruct f as [n v|n b]; cbn in Hf.
  - rewrite (encode_varint_field n v) by lia. eexists _, _. split; [done|].
    cbn [app]. destruct Hf as [Hn Hv].
    pose proof (varint_at pre (byte.of_Z (n * 8)) v post Hv) as (_ & H2 & H3 & H4 & H5).
    split; [exact H2|]. unfold skip_field.
    rewrite <- (Z.add_0_r (n * 8)) at 1. rewrite tag_value, land7 by lia. cbn [Z.eqb].
    cbn [app] in H3. rewrite H3. cbn [mbind outcome_bind]. rewrite H4. cbn [snd]. rewrite H5.
    do 2 f_equal. len_simpl. lia.
  - rewrite (encode_bytes_field n b) by lia. eexists _, _. split; [done|]. cbn [app].
    rewrite <- app_assoc.
    assert (Hb' : len (pre ++ byte.of_Z (n * 8 + 2) :: PutUvarint (len b) ++ b ++ post) < 2 ^ 63).
    { rewrite (encode_bytes_field n b) in Hb by lia. len_simpl. lia. }
    pose proof (field_at pre (byte.of_Z (n * 8 + 2)) b post Hb') as (_ & H2 & H3 & H4 & H5 & H6 & H7 & H8 & _).
    split; [exact H2|]. unfold skip_field. rewrite tag_value, land7 by lia. cbn [Z.eqb Pos.eqb].
    rewrite H3. cbn [mbind outcome_bind]. rewrite H4. cbv iota beta. rewrite H5, H6, H7, H8. cbn [orb].
    pose proof (len_nonneg pre). pose proof (len_nonneg b). pose proof (len_nonneg post).
    pose proof (len_PutUvarint (len b)). len_simpl.
    rewrite !i64_small; [do 2 f_equal; lia|lia|]. rewrite i64_small; lia.
Qed.

Lemma encode_fields_cons f fs : encode_fields (f :: fs) = encode_field f ++ encode_fields fs.
Proof. reflexivity. Qed.

Lemma getters_end {A} (l : bytes) (x y : A) :
  (if negb (len l <? len (l ++ encode_fields [])) then x else y) = x.
Proof. unfold encode_fields. cbn. by rewrite app_nil_r, Z.ltb_irrefl. Qed.

Lemma len_field_pos f : field_ok f -> 2 <= len (encode_field f).
Proof.
  destruct f as [n v|n b]; intros _; cbn; unfold appendUvarintField, appendBytesField; len_simpl.
  - pose proof (PutUvarint_pos v). lia.
  - pose proof (PutUvarint_pos (len b)). pose proof (len_nonneg b). lia.
Qed.

Lemma field_tag f t r :
  field_ok f -> encode_field f = t :: r ->
  byte.unsigned t = match f with PVarint n _ => n * 8 | PBytes n _ => n * 8 + 2 end.
Proof.
  destruct f as [n v|n b]; cbn [field_ok]; intros Hf.
  - rewrite encode_varint_field by lia. intros [= <- _]. rewrite <- (Z.add_0_r (n * 8)) at 1.
    rewrite tag_value; lia.
  - rewrite encode_bytes_field by lia. intros [= <- _]. apply tag_value; lia.
Qed.

Lemma getBytesField_at n fs : forall fuel pre,
  1 <= n < 16 -> Forall field_ok fs -> len (pre ++ encode_fields fs) < 2 ^ 62 ->
  (length fs < fuel)%nat ->
  getBytesField_loop fuel (pre ++ encode_fields fs) (n * 8 + 2) (len pre) = Ret (find_bytes n fs).
Proof.
  induction fs as [|f fs IH]; intros [|fuel] pre Hn Hok Hb Hfuel; try (cbn in Hfuel; lia).
  - cbn [getBytesField_loop find_bytes]. apply getters_end.
  - inversion Hok as [|? ? Hf Hfs]; subst. rewrite encode_fields_cons in *. cbn [getBytesField_loop].
    pose proof (len_field_pos f Hf). pose proof (len_nonneg (encode_fields fs)).
    rewrite (proj2 (Z.ltb_lt _ _)) by (len_simpl; lia). cbn [negb].
    destruct (skip_encoded pre f (encode_fields fs) Hf Hb) as (t & r & Et & Hi & Hskip).
    rewrite Hi. cbn [mbind outcome_bind]. pose proof (field_tag f t r Hf Et) as Ht.
    assert (Hgo : getBytesField_loop fuel (pre ++ encode_field f ++ encode_fields fs)
        (n * 8 + 2) (len (pre ++ encode_field f)) = Ret (find_bytes n fs)).
    { rewrite app_assoc. apply IH; [done|done|by rewrite <- app_assoc|cbn in Hfuel; lia]. }
    destruct f as [m v|m b]; cbn [find_bytes].
    + rewrite Ht, (proj2 (Z.eqb_neq _ _)) by lia. rewrite Hskip. exact Hgo.
    + rewrite Ht. destruct (Z.eqb_spec m n) as [->|Hne].
      * rewrite Z.eqb_refl. cbn in Hf. rewrite (encode_bytes_field n b Hf) in *. cbn [app] in *.
        rewrite <- app_assoc in *.
        pose proof (field_at pre _ b (encode_fields fs) ltac:(cbn [app] in Hb; etransitivity; [exact Hb|lia]))
          as (_ & _ & H3 & H4 & H5 & H6 & H7 & H8 & H9).
        rewrite H3. cbn [mbind outcome_bind]. rewrite H4. cbv iota beta. rewrite H6, H7, H5, H8.
        cbn [orb]. by rewrite H9.
      * rewrite (proj2 (Z.eqb_neq _ _)) by lia. rewrite Hskip. exact Hgo.
Qed.

Lemma getVarintField_at n fs : forall fuel pre,
  1 <= n < 16 -> Forall field_ok fs -> len (pre ++ encode_fields fs) < 2 ^ 62 ->
  (length fs < fuel)%nat ->
  getVarintField_loop fuel (pre ++ encode_fields fs) (n * 8) (len pre) = Ret (find_varint n fs).
Proof.
  induction fs as [|f fs IH]; intros [|fuel] pre Hn Hok Hb Hfuel; try (cbn in Hfuel; lia).
  - cbn [getVarintField_loop find_varint]. apply getters_end.
  - inversion Hok as [|? ? Hf Hfs]; subst. rewrite encode_fields_cons in *. cbn [getVarintField_loop].
    pose proof (len_field_pos f Hf). pose proof (len_nonneg (encode_fields fs)).
    rewrite (proj2 (Z.ltb_lt _ _)) by (len_simpl; lia). cbn [negb].
    destruct (skip_encoded pre f (encode_fields fs) Hf Hb) as (t & r & Et & Hi & Hskip).
    rewrite Hi. cbn [mbind outcome_bind]. pose proof (field_tag f t r Hf Et) as Ht.
    assert (Hgo : getVarintField_loop fuel (pre ++ encode_field f ++ encode_fields fs)
        (n * 8) (len (pre ++ encode_field f)) = Ret (find_varint n fs)).
    { rewrite app_assoc. apply IH; [done|done|by rewrite <- app_assoc|cbn in Hfuel; lia]. }
    destruct f as [m v|m b]; cbn [find_varint].
    + rewrite Ht. destruct (Z.eqb_spec m n) as [->|Hne].
      * rewrite Z.eqb_refl. destruct Hf as [Hm Hv]. rewrite (encode_varint_field n v Hm) in *. cbn [app] in *.
        pose proof (varint_at pre (byte.of_Z (n * 8)) v (encode_fields fs) Hv) as (_ & _ & H3 & H4 & H5).
        rewrite H3. cbn [mbind outcome_bind]. rewrite H4. cbv iota beta. by rewrite H5.
      * rewrite (proj2 (Z.eqb_neq _ _)) by lia. rewrite Hskip. exact Hgo.
    + rewrite Ht, (proj2 (Z.eqb_neq _ _)) by lia. rewrite Hskip. exact Hgo.
Qed.

Lemma length_fields fs : Forall field_ok fs -> (length fs <= length (encode_fields fs))%nat.
Proof.
  induction 1 as [|f fs Hf _ IH]; [done|]. rewrite encode_fields_cons, length_app. cbn [length].
  pose proof (len_field_pos f Hf). unfold len in *. lia.
Qed.

Lemma getBytesField_find n fs :
  1 <= n < 16 -> Forall field_ok fs -> len (encode_fields fs) < 2 ^ 62 ->
  getBytesField (encode_fields fs) n = Ret (find_bytes n fs).
Proof.
  intros Hn Hok Hb. unfold getBytesField. rewrite want_bytes by lia.
  apply (getBytesField_at n fs _ []); [done..|]. pose proof (length_fields fs Hok). cbn [app]. lia.
Qed.

Lemma copyBytesField_find n fs :
  1 <= n < 16 -> Forall field_ok fs -> len (encode_fields fs) < 2 ^ 62 ->
  copyBytesField (encode_fields fs) n = Ret (find_bytes n fs).
Proof.
  intros Hn Hok Hb. unfold copyBytesField. rewrite getBytesField_find by done. cbn [mbind outcome_bind].
  destruct (find_bytes n fs) as [v|]; [|done]. unfold copy. do 2 f_equal.
  rewrite length_replicate, firstn_all, drop_ge, app_nil_r; [done|]. by rewrite length_replicate.
Qed.

Lemma getVarintField_find n fs :
  1 <= n < 16 -> Forall field_ok fs -> len (encode_fields fs) < 2 ^ 62 ->
  getVarintField (encode_fields fs) n = Ret (find_varint n fs).
Proof.
  intros Hn Hok Hb. unfold getVarintField. rewrite want_varint by lia.
  apply (getVarintField_at n fs _ []); [done..|]. pose proof (length_fields fs Hok). cbn [app]. lia.
Qed.

(** ** Encoded items *)

Definition opt_bytes (n : Z) (b : option bytes) : list pfield :=
  match b with None | Some [] => [] | Some b => [PBytes n b] end.
Definition opt_varint (n v : Z) : list pfield := if v =? 0 then [] else [PVarint n v].

(** What a proto3 encoder writes for an item: empty and zero fields are left out. *)
Definition item_fields (it : snapItem) : list pfield :=
  if Type_ it =? itemTypeStore then opt_bytes 1 (Some (StoreName it))
  else if Type_ it =? itemTypeIAVL then
    opt_bytes 1 (IAVLKey it) ++ opt_bytes 2 (IAVLValue it) ++
    opt_varint 3 (u64 (IAVLVersion it)) ++ opt_varint 4 (u64 (IAVLHeight it))
  else if Type_ it =? itemTypeExtMeta then
    opt_bytes 1 (Some (ExtName it)) ++ opt_varint 2 (ExtFormat it)
  else opt_bytes 1 (ExtPayload it).

Definition encode_item (it : snapItem) : bytes :=
  appendBytesField [] (Type_ it) (encode_fields (item_fields it)).

Definition envelope (b : bytes) : bytes := PutUvarint (len b) ++ b.

Definition nonempty (b : option bytes) : Prop := b <> Some [].

Inductive item_ok : snapItem -> Prop :=
| ok_store name : item_ok (mkItem itemTypeStore name None None 0 0 [] 0 None)
| ok_leaf key value version : nonempty key -> int64 version ->
    item_ok (mkItem itemTypeIAVL [] key (Some value) version 0 [] 0 None)
| ok_inner key value version height : nonempty key -> nonempty value -> int64 version ->
    - 2 ^ 7 <= height < 2 ^ 7 -> height <> 0 ->
    item_ok (mkItem itemTypeIAVL [] key value version height [] 0 None)
| ok_extmeta name format : 0 <= format < 2 ^ 32 ->
    item_ok (mkItem itemTypeExtMeta [] None None 0 0 name format None)
| ok_payload payload : nonempty payload ->
    item_ok (mkItem itemTypeExtPayload [] None None 0 0 [] 0 payload).

Lemma find_bytes_app n a b :
  find_bytes n (a ++ b) = match find_bytes n a with Some v => Some v | None => find_bytes n b end.
Proof. induction a as [|[m v|m v] a IH]; cbn; [done|done|]. by destruct (m =? n). Qed.

Lemma find_bytes_opt n m b :
  find_bytes n (opt_bytes m b) =
  if m =? n then match b with Some [] => None | _ => b end else None.
Proof. destruct b as [[|x b]|]; cbn; by destruct (m =? n). Qed.

Lemma find_bytes_optv n m v : find_bytes n (opt_varint m v) = None.
Proof. unfold opt_varint. by destruct (v =? 0). Qed.

Lemma find_varint_opt n m v r :
  find_varint n (opt_varint m v ++ r) = if (m =? n) && negb (v =? 0) then v else find_varint n r.
Proof.
  unfold opt_varint. destruct (Z.eqb_spec v 0); cbn; [by rewrite andb_false_r|]. by destruct (m =? n).
Qed.

Lemma find_varint_optb n m b r : find_varint n (opt_bytes m b ++ r) = find_varint n r.
Proof. by destruct b as [[|x b]|]. Qed.

Lemma opt_bytes_ok n b : 1 <= n < 16 -> Forall field_ok (opt_bytes n b).
Proof. intros Hn. destruct b as [[|x b]|]; repeat constructor; cbn; lia. Qed.

Lemma opt_varint_ok n v : 1 <= n < 16 -> 0 <= v < 2 ^ 64 -> Forall field_ok (opt_varint n v).
Proof. intros Hn Hv. unfold opt_varint. destruct (v =? 0); repeat constructor; cbn; lia. Qed.


Lemma item_fields_ok it : item_ok it -> Forall field_ok (item_fields it).
Proof.
  destruct 1; cbn [item_fields Type_ itemTypeStore itemTypeIAVL itemTypeExtMeta itemTypeExtPayload Z.eqb Pos.eqb
      StoreName IAVLKey IAVLValue IAVLVersion IAVLHeight ExtName ExtFormat ExtPayload];
    repeat (apply Forall_app_2); first [apply opt_bytes_ok; lia|apply opt_varint_ok; [lia|]];
    first [apply u64_range|lia].
Qed.

Lemma nonempty_id b : nonempty b -> match b with Some [] => None | _ => b end = b.
Proof. intros H. destruct b as [[|]|]; [by destruct H|done..]. Qed.

Ltac item_fields_simpl :=
  unfold item_fields; cbn [Type_ itemTypeStore itemTypeIAVL itemTypeExtMeta itemTypeExtPayload Z.eqb Pos.eqb
      StoreName IAVLKey IAVLValue IAVLVersion IAVLHeight ExtName ExtFormat ExtPayload];
  rewrite ?find_bytes_app, ?find_bytes_opt, ?find_bytes_optv, ?find_varint_optb;
  cbn [Z.eqb Pos.eqb].

Lemma find_varint_last n m v : find_varint n (opt_varint m v) = if m =? n then v else 0.
Proof.
  rewrite <- (app_nil_r (opt_varint m v)), find_varint_opt. cbn [find_varint].
  destruct (m =? n); [|done]. by destruct (Z.eqb_spec v 0) as [->|].
Qed.

Lemma find_version k v ver h :
  find_varint 3 (opt_bytes 1 k ++ opt_bytes 2 v ++ opt_varint 3 ver ++ opt_varint 4 h) = ver.
Proof.
  rewrite !find_varint_optb, find_varint_opt, find_varint_last. cbn.
  by destruct (Z.eqb_spec ver 0) as [->|].
Qed.

Lemma find_height k v ver h :
  find_varint 4 (opt_bytes 1 k ++ opt_bytes 2 v ++ opt_varint 3 ver ++ opt_varint 4 h) = h.
Proof. by rewrite !find_varint_optb, find_varint_opt, find_varint_last. Qed.

Lemma find_leaf_bytes k v ver h :
  nonempty k ->
  find_bytes 1 (opt_bytes 1 k ++ opt_bytes 2 v ++ opt_varint 3 ver ++ opt_varint 4 h) = k /\
  find_bytes 2 (opt_bytes 1 k ++ opt_bytes 2 v ++ opt_varint 3 ver ++ opt_varint 4 h) =
    match v with Some [] => None | _ => v end.
Proof.
  intros Hk. rewrite !find_bytes_app, !find_bytes_opt, !find_bytes_optv. cbn [Z.eqb Pos.eqb].
  rewrite (nonempty_id k Hk). by split; [destruct k|destruct v as [[|]|]].
Qed.

Lemma decodeOneOf_encode it :
  item_ok it -> len (encode_fields (item_fields it)) < 2 ^ 62 ->
  decodeOneOf (new_item (Type_ it)) (encode_fields (item_fields it)) = Ret it.
Proof.
  intros Hit Hb. pose proof (item_fields_ok it Hit) as Hok. unfold decodeOneOf.
  destruct Hit as [name|key value version Hk Hv|key value version height Hk Hva Hv Hh Hh0|name format Hf|p Hp];
    cbn [Type_ new_item itemTypeStore itemTypeIAVL itemTypeExtMeta itemTypeExtPayload Z.eqb Pos.eqb];
    rewrite ?copyBytesField_find, ?getBytesField_find, ?getVarintField_find by (lia || done);
    cbn [mbind outcome_bind mret outcome_ret];
    unfold item_fields; cbn [Type_ itemTypeStore itemTypeIAVL itemTypeExtMeta itemTypeExtPayload Z.eqb Pos.eqb
      StoreName IAVLKey IAVLValue IAVLVersion IAVLHeight ExtName ExtFormat ExtPayload].
  - rewrite find_bytes_opt. by destruct name.
  - destruct (find_leaf_bytes key (Some value) (u64 version) (u64 0) Hk) as [-> ->].
    rewrite find_version, find_height. cbn. rewrite i64_u64 by done. by destruct value.
  - destruct (find_leaf_bytes key value (u64 version) (u64 height) Hk) as [-> ->].
    rewrite find_version, find_height, i64_u64, i8_u64, nonempty_id by done.
    rewrite (proj2 (Z.eqb_neq _ _)) by done. by destruct value.
  - rewrite find_bytes_app, find_bytes_opt, find_bytes_optv, find_varint_optb, find_varint_last.
    cbn [Z.eqb Pos.eqb]. rewrite u32_small by lia. by destruct name.
  - rewrite find_bytes_opt. cbn [Z.eqb Pos.eqb]. by rewrite nonempty_id.
Qed.

Lemma item_type_range it : item_ok it -> 1 <= Type_ it <= 4.
Proof. destruct 1; cbn; unfold itemTypeStore, itemTypeIAVL, itemTypeExtMeta, itemTypeExtPayload; lia. Qed.

Lemma decodeEnvelope_encode it :
  item_ok it -> len (encode_item it) < 2 ^ 62 -> decodeEnvelope (encode_item it) = Ret it.
Proof.
  intros Hit Hb. pose proof (item_type_range it Hit) as Ht. unfold encode_item in *.
  change (appendBytesField [] ?n ?b) with (encode_field (PBytes n b)) in *.
  rewrite encode_bytes_field in Hb by lia. rewrite encode_bytes_field by lia. set (body := encode_fields (item_fields it)) in *.
  assert (Hbody : len body < 2 ^ 62) by (len_simpl; pose proof (PutUvarint_pos (len body)); lia).
  pose proof (field_at [] (byte.of_Z (Type_ it * 8 + 2)) body []) as H. cbn [app] in H.
  rewrite app_nil_r in H. destruct H as (_ & H2 & H3 & H4 & H5 & H6 & H7 & _ & H9); [lia|].
  rewrite len_nil in *. unfold decodeEnvelope. rewrite H2. cbn [mbind outcome_bind].
  rewrite tag_value, land7 by lia. cbn [Z.eqb Pos.eqb negb]. change (0 + 1) with 1 in *.
  rewrite H3. cbn [mbind outcome_bind]. rewrite H4. cbv iota beta. rewrite H5, H6, H7, H9. cbn [mbind outcome_bind].
  replace (Z.shiftr (Type_ it * 8 + 2) 3) with (Type_ it).
  - by apply decodeOneOf_encode.
  - rewrite Z.shiftr_div_pow2 by lia. change (2 ^ 3) with 8. apply Z.div_unique with 2; lia.
Qed.

(** ** Wire size of an envelope *)

Lemma uvarintLen_put n : forall v k, 0 <= v < 2 ^ (7 * Z.of_nat (S n)) ->
  uvarintLen_loop n v k = k - 1 + len (put_uvarint_from n v).
Proof.
  induction n as [|n IH]; intros v k Hv; cbn [uvarintLen_loop put_uvarint_from]; [len_simpl; lia|].
  destruct (Z.leb_spec 128 v) as [H|H]; [|len_simpl; lia].
  rewrite IH; [rewrite len_cons; lia|]. rewrite Z.shiftr_div_pow2 by lia.
  split; [apply Z.div_pos; lia|]. apply Z.div_lt_upper_bound; [lia|].
  rewrite <- Z.pow_add_r by lia. replace (7 + 7 * Z.of_nat (S n)) with (7 * Z.of_nat (S (S n))) by lia. lia.
Qed.

(** [uvarintLen] is the length [PutUvarint] writes. *)
Lemma uvarintLen_PutUvarint v : 0 <= v < 2 ^ 64 -> uvarintLen v = len (PutUvarint v).
Proof.
  intros Hv. unfold uvarintLen. with_strategy transparent [PutUvarint] unfold PutUvarint.
  rewrite uvarintLen_put; [lia|]. change (7 * Z.of_nat 10) with 70. lia.
Qed.

(** It is the shortest encoding: a value below [2 ^ (7 k)] takes at most [k] bytes. *)
Lemma uvarintLen_shortest n : forall w k a,
  0 <= w < 2 ^ (7 * k) -> 1 <= k -> uvarintLen_loop n w a <= a - 1 + k.
Proof.
  induction n as [|n IH]; intros w k a Hw Hk; cbn [uvarintLen_loop]; [lia|].
  destruct (Z.leb_spec 128 w) as [H|H]; [|lia].
  destruct (Z.eq_dec k 1) as [->|Hk1]; [change (2 ^ (7 * 1)) with 128 in Hw; lia|].
  specialize (IH (Z.shiftr w 7) (k - 1) (a + 1)). rewrite Z.shiftr_div_pow2 in * by lia.
  assert (Hs : 0 <= w `div` 2 ^ 7 < 2 ^ (7 * (k - 1))).
  { split; [apply Z.div_pos; lia|]. apply Z.div_lt_upper_bound; [lia|]. rewrite <- Z.pow_add_r by lia.
    replace (7 + 7 * (k - 1)) with (7 * k) by lia. lia. }
  specialize (IH Hs ltac:(lia)). lia.
Qed.

Lemma read_uvarint_consumes n : forall i x st v st',
  0 <= i -> 0 <= x < 2 ^ (7 * i) ->
  read_uvarint_from n i x (7 * i) st = (Ret v, st') ->
  exists c, src_data st = c ++ src_data st' /\ src_end st' = src_end st /\ 1 <= len c /\
    0 <= v < 2 ^ (7 * (i + len c)).
Proof.
  induction n as [|n IH]; intros i x st v st' Hi Hx H; [done|].
  cbn [read_uvarint_from] in H. destruct st as [[|b r] e]; cbn [ReadByte src_data src_end] in H;
    [destruct e; discriminate H|]. cbv zeta in H. pose proof (byte_range b) as Hbr.
  assert (Hacc : forall y, 0 <= y < 128 -> 0 <= Z.lor x (u64 (Z.shiftl y (7 * i))) < 2 ^ (7 * (i + 1))).
  { intros y Hy. split; [apply Z.lor_nonneg; split; [lia|apply u64_range]|].
    assert (Hsh : 0 <= u64 (Z.shiftl y (7 * i)) < 2 ^ (7 * (i + 1))).
    { unfold u64. split; [apply Z.mod_pos_bound; lia|].
      apply Z.le_lt_trans with (Z.shiftl y (7 * i));
        [apply Z.mod_le; [apply Z.shiftl_nonneg|]; lia|].
      rewrite Z.shiftl_mul_pow2 by lia. replace (7 * (i + 1)) with (7 + 7 * i) by lia.
      rewrite Z.pow_add_r by lia. apply Z.mul_lt_mono_pos_r; [apply Z.pow_pos_nonneg; lia|]. lia. }
    apply Z.log2_lt_cancel. rewrite Z.log2_pow2 by lia.
    rewrite Z.log2_lor by lia.
    assert (Hlog : forall z, 0 <= z < 2 ^ (7 * (i + 1)) -> Z.log2 z < 7 * (i + 1)).
    { intros z Hz. destruct (Z.eq_dec z 0) as [->|]; [cbn; lia|]. apply Z.log2_lt_pow2; lia. }
    apply Z.max_lub_lt; apply Hlog; [|done].
    split; [lia|]. apply Z.lt_le_trans with (2 ^ (7 * i)); [lia|]. apply Z.pow_le_mono_r; lia. }
  destruct (Z.ltb_spec (byte.unsigned b) 128) as [Hlt|Hge].
  - destruct ((i =? MaxVarintLen64 - 1) && (1 <? byte.unsigned b)); [done|]. injection H as <- <-.
    exists [b]. change (len [b]) with 1. split_and!; [done|done|lia| |]; apply Hacc; lia.
  - replace (7 * i + 7) with (7 * (i + 1)) in H by lia.
    apply IH in H as (c & Hc & He & Hl & Hv); [|lia|apply Hacc].
    + exists (b :: c). cbn [src_data src_end] in *. rewrite len_cons. rewrite Hc.
      replace (i + (1 + len c)) with (i + 1 + len c) by lia. split_and!; [done|done|lia|lia|lia].
    + change 127 with (Z.ones 7). rewrite Z.land_ones by lia. apply (Z.mod_pos_bound _ 128). lia.
Qed.

Lemma ReadUvarint_consumes st v st' :
  ReadUvarint st = (Ret v, st') ->
  exists c, src_data st = c ++ src_data st' /\ src_end st' = src_end st /\ 1 <= len c /\ 0 <= v /\
    uvarintLen v <= len c.
Proof.
  intros H. with_strategy transparent [ReadUvarint] unfold ReadUvarint in H.
  apply (read_uvarint_consumes 10 0 0) in H as (c & Hc & He & Hl & Hv); [|lia|lia].
  exists c. split_and!; try done; [lia|]. unfold uvarintLen.
  rewrite Z.add_0_l in Hv. pose proof (uvarintLen_shortest 9 v (len c) 1 Hv Hl). lia.
Qed.

(** ** The stream of envelopes *)

(** An element of the stream: an item, or a zero-length envelope. *)
Definition wire (x : option snapItem) : bytes :=
  match x with
  | None => envelope []
  | Some it => envelope (encode_item it)
  end.

Definition wires (l : list (option snapItem)) : bytes := concat (map wire l).

Definition elem_ok (x : option snapItem) : Prop :=
  match x with
  | None => True
  | Some it => item_ok it /\ len (encode_item it) <= maxEnvelopeBytes
  end.

Lemma encode_item_pos it : item_ok it -> 1 <= len (encode_item it).
Proof.
  intros _. unfold encode_item, appendBytesField. len_simpl.
  pose proof (PutUvarint_pos (len (encode_fields (item_fields it)))).
  pose proof (len_nonneg (encode_fields (item_fields it))). lia.
Qed.

Section Stream.
Context {P : Type} `{RingPinner P}.
Implicit Types (s : snapReader P) (rest : bytes).

Definition advanced (n : Z) (p : option P) : option P := AdvancePin n <$> p.

Lemma Next_loop_zero fuel rest e p q :
  Next_loop (S fuel) (mkReader (Source (wire None ++ rest) e) p q) =
  Next_loop fuel (mkReader (Source rest e) (advanced 1 p) q).
Proof.
  cbn [Next_loop wire]. unfold buffered, zoom. cbn [br]. unfold envelope. rewrite app_nil_r, len_nil.
  rewrite (ReadUvarint_PutUvarint 0 rest e) by lia. cbn [Z.eqb].
  unfold advance, modify, mbind, M_bind. by destruct p.
Qed.

Lemma Next_loop_item fuel it rest e p q :
  elem_ok (Some it) ->
  Next_loop (S fuel) (mkReader (Source (wire (Some it) ++ rest) e) p q) =
  (Ret it, mkReader (Source rest e) p (len (wire (Some it)))).
Proof.
  intros [Hit Hmax]. pose proof (encode_item_pos it Hit). unfold maxEnvelopeBytes in Hmax.
  cbn [Next_loop wire]. unfold buffered, zoom. cbn [br]. unfold envelope. rewrite <- app_assoc.
  rewrite (ReadUvarint_PutUvarint (len (encode_item it))) by lia.
  rewrite (proj2 (Z.eqb_neq _ _)) by lia. unfold maxEnvelopeBytes.
  rewrite (proj2 (Z.ltb_ge _ _)) by lia.
  unfold wrap_err, lift, modify, mbind, M_bind, mret, M_ret. cbn [br pinner lastItemBytes].
  rewrite ReadFull_app. cbn [br pinner lastItemBytes].
  rewrite decodeEnvelope_encode by (done || lia). cbn [br pinner lastItemBytes].
  rewrite len_app, uvarintLen_PutUvarint by lia. done.
Qed.

Lemma Next_loop_end fuel p q :
  Next_loop (S fuel) (mkReader (Source [] EOF) p q) = (Err EOF, mkReader (Source [] EOF) p q).
Proof. with_strategy transparent [ReadUvarint] reflexivity. Qed.

(** [commit_last] in one equation. *)
Definition committed_pinner s : option P :=
  if 0 <? lastItemBytes s then advanced (lastItemBytes s) (pinner s) else pinner s.

Lemma Next_unfold s :
  exists q, Next s = Next_loop (S (length (src_data (br s)))) (mkReader (br s) (committed_pinner s) q).
Proof.
  destruct s as [b p q]. unfold Next, commit_last, committed_pinner, advance, get, modify, mbind, M_bind, mret, M_ret.
  cbn [br pinner lastItemBytes]. destruct p as [p|]; [|exists q; by destruct (0 <? q)].
  destruct (0 <? q); cbn [br pinner lastItemBytes advanced fmap option_fmap option_map]; by eexists.
Qed.

Lemma wires_cons x l : wires (x :: l) = wire x ++ wires l.
Proof. reflexivity. Qed.

Lemma wire_pos x : (1 <= length (wire x))%nat.
Proof.
  enough (H1 : forall b, (1 <= length (envelope b))%nat) by (destruct x; apply H1).
  intros b. unfold envelope. rewrite length_app. pose proof (PutUvarint_pos (len b)).
  unfold len at 1 in H0. lia.
Qed.

(** Zero-length envelopes in front of an item are skipped, a byte of pin each. *)
Lemma Next_loop_items k : forall fuel it l e p q,
  (k < fuel)%nat -> elem_ok (Some it) ->
  Next_loop fuel (mkReader (Source (wires (replicate k None ++ Some it :: l)) e) p q) =
  (Ret it, mkReader (Source (wires l) e) (Nat.iter k (advanced 1) p) (len (wire (Some it)))).
Proof.
  induction k as [|k IH]; intros [|fuel] it l e p q Hf Hit; try lia.
  - cbn [replicate app]. rewrite wires_cons. by apply Next_loop_item.
  - cbn [replicate app]. rewrite wires_cons, Next_loop_zero, IH by (done || lia).
    by rewrite Nat.iter_succ_r.
Qed.

Lemma Next_loop_eof k : forall fuel p q,
  (k < fuel)%nat ->
  Next_loop fuel (mkReader (Source (wires (replicate k None)) EOF) p q) =
  (Err EOF, mkReader (Source [] EOF) (Nat.iter k (advanced 1) p) q).
Proof.
  induction k as [|k IH]; intros [|fuel] p q Hf; try lia; [apply Next_loop_end|].
  cbn [replicate]. rewrite wires_cons, Next_loop_zero, IH by lia. by rewrite Nat.iter_succ_r.
Qed.

Lemma length_wires l : (length l <= length (wires l))%nat.
Proof.
  induction l as [|x l IH]; [done|]. rewrite wires_cons, length_app.
  pose proof (wire_pos x). cbn [length]. lia.
Qed.

Lemma split_nones (l : list (option snapItem)) :
  l = replicate (length l) None \/ exists k it l', l = replicate k None ++ Some it :: l'.
Proof.
  induction l as [|[it|] l IH]; [by left| |].
  - right. by exists 0%nat, it, l.
  - destruct IH as [E|(k & it & l' & E)]; [left|right].
    + cbn [length replicate]. by rewrite <- E.
    + exists (S k), it, l'. by rewrite E.
Qed.

Lemma omap_nones k (l : list (option snapItem)) : omap id (replicate k None ++ l) = omap id l.
Proof. by induction k. Qed.

Lemma readAll_wires fuel : forall l s,
  br s = Source (wires l) EOF -> Forall elem_ok l -> (length (omap id l) < fuel)%nat ->
  exists s', readAll fuel s = (omap id l, Err EOF, s').
Proof.
  induction fuel as [|fuel IH]; intros l s Hs Hok Hf; [lia|]. cbn [readAll].
  destruct (Next_unfold s) as [q ->]. rewrite Hs. cbn [src_data].
  pose proof (length_wires l) as Hl.
  destruct (split_nones l) as [E|(k & it & l' & ->)].
  - assert (Hw : wires l = wires (replicate (length l) None)) by by rewrite <- E.
    assert (Ho : omap id l = []) by (rewrite E, <- (app_nil_r (replicate _ _)); apply omap_nones).
    rewrite Hw in Hl |- *. rewrite Next_loop_eof by lia. rewrite Ho. by eexists.
  - apply Forall_app in Hok as [_ Hok]. inversion Hok as [|? ? Hit Hok']; subst.
    rewrite length_app, length_replicate in Hl. rewrite Next_loop_items by (done || lia).
    rewrite omap_nones in *. cbn in Hf |- *.
    match goal with |- context [readAll fuel ?s0] =>
      destruct (IH l' s0) as [s' ->]; [done|done|lia|by eexists] end.
Qed.
End Stream.

(** ** Messages the getters cannot handle *)

(** A length-delimited field whose declared length is out of any range. *)
Definition forged (buf : bytes) : Prop :=
  exists pre t post, buf = pre ++ t :: post /\ tag_wire t = 2 /\ 2 ^ 62 <= fst (Uvarint post).

Section Getters.
Context (buf : bytes) (Hb : len buf < 2 ^ 62).

(** The tag read at [i] and what follows it. *)
Lemma tag_at i : 0 <= i < len buf ->
  exists pre t post, buf = pre ++ t :: post /\ len pre = i /\
    go_index buf i = Ret t /\ go_from buf (i + 1) = Ret post /\ len post = len buf - (i + 1).
Proof using Type.
  intros Hi. destruct (lookup_lt_is_Some_2 buf (Z.to_nat i)) as [t Ht]; [unfold len in Hi; lia|].
  pose proof (take_drop_middle buf _ t Ht) as E.
  set (pre := take (Z.to_nat i) buf) in *. set (post := drop (S (Z.to_nat i)) buf) in *.
  assert (Hpre : len pre = i) by (unfold pre; rewrite len_take_le; unfold len in Hi; lia).
  exists pre, t, post. rewrite <- E, <- Hpre. split_and!; [done|done|apply go_index_app| |len_simpl; lia].
  apply go_from_split with (a := pre ++ [t]); [by rewrite <- app_assoc|by len_simpl].
Qed.

Lemma skip_total pre t post i :
  buf = pre ++ t :: post -> len pre = i -> go_from buf (i + 1) = Ret post ->
  len post = len buf - (i + 1) ->
  forged buf \/ skip_field buf t (i + 1) = Ret None \/
  exists j, skip_field buf t (i + 1) = Ret (Some j) /\ i < j <= len buf.
Proof using Hb.
  intros E Hpre Hfrom Hpost. unfold skip_field. rewrite Hfrom. cbn [mbind outcome_bind].
  destruct (Uvarint post) as [ln m] eqn:Eu. pose proof (Uvarint_bounds _ _ _ Eu) as [Hv Hm].
  pose proof (len_nonneg pre). cbn [snd].
  destruct (Z.eqb_spec (Z.land (byte.unsigned t) 7) 0) as [_|_];
    [|destruct (Z.eqb_spec (Z.land (byte.unsigned t) 7) 2) as [Hw|_]; [|right; by left]].
  - right. destruct (Z.leb_spec m 0); [by left|]. right. eexists. split; [done|lia].
  - destruct (Z.lt_ge_cases ln (2 ^ 62)) as [Hln|Hln]; [|left; exists pre, t, post; by rewrite Eu].
    right. destruct (Z.leb_spec m 0); [by left|]. cbn [orb].
    rewrite (i64_small ln), (i64_small (i + 1 + m + ln)) by lia.
    destruct (Z.ltb_spec (len buf) (i + 1 + m + ln)); [by left|]. right.
    eexists. split; [done|]. rewrite (i64_small (m + ln)), i64_small by lia. lia.
Qed.

Lemma getBytesField_total want : forall fuel i,
  0 <= i <= len buf -> len buf - i < Z.of_nat fuel -> (want mod 8 = 2) ->
  forged buf \/ exists r, getBytesField_loop fuel buf want i = Ret r.
Proof using Hb.
  induction fuel as [|fuel IH]; intros i Hi Hf Hw; [lia|]. cbn [getBytesField_loop].
  destruct (Z.ltb_spec i (len buf)) as [Hlt|Hge]; cbn [negb]; [|right; by eexists].
  destruct (tag_at i ltac:(lia)) as (pre & t & post & E & Hpre & -> & Hfrom & Hpost).
  cbn [mbind outcome_bind]. destruct (Z.eqb_spec (byte.unsigned t) want) as [Ht|Ht].
  - rewrite Hfrom. cbn [mbind outcome_bind]. destruct (Uvarint post) as [ln m] eqn:Eu.
    pose proof (Uvarint_bounds _ _ _ Eu) as [Hv Hm].
    destruct (Z.lt_ge_cases ln (2 ^ 62)) as [Hln|Hln].
    2:{ left. exists pre, t, post. rewrite Eu. split_and!; [done| |done]. unfold tag_wire.
        change 7 with (Z.ones 3). rewrite Z.land_ones by lia. by rewrite Ht. }
    right. destruct (Z.leb_spec m 0); [by eexists|]. cbn [orb].
    rewrite (i64_small ln), (i64_small (i + 1 + m + ln)) by lia.
    destruct (Z.ltb_spec (len buf) (i + 1 + m + ln)); [by eexists|].
    unfold go_slice. rewrite (proj2 (Z.leb_le 0 _)), (proj2 (Z.leb_le (i + 1 + m) _)), (proj2 (Z.leb_le _ (len buf))) by lia.
    by eexists.
  - destruct (skip_total pre t post i E Hpre Hfrom Hpost) as [|[->|(j & -> & Hj)]];
      [by left|right; by eexists|]. cbn [mbind outcome_bind]. apply IH; [lia|lia|done].
Qed.

Lemma getVarintField_total want : forall fuel i,
  0 <= i <= len buf -> len buf - i < Z.of_nat fuel ->
  forged buf \/ exists r, getVarintField_loop fuel buf want i = Ret r.
Proof using Hb.
  induction fuel as [|fuel IH]; intros i Hi Hf; [lia|]. cbn [getVarintField_loop].
  destruct (Z.ltb_spec i (len buf)) as [Hlt|Hge]; cbn [negb]; [|right; by eexists].
  destruct (tag_at i ltac:(lia)) as (pre & t & post & E & Hpre & -> & Hfrom & Hpost).
  cbn [mbind outcome_bind]. destruct (byte.unsigned t =? want).
  - rewrite Hfrom. cbn [mbind outcome_bind]. destruct (Uvarint post). right. by eexists.
  - destruct (skip_total pre t post i E Hpre Hfrom Hpost) as [|[->|(j & -> & Hj)]];
      [by left|right; by eexists|]. cbn [mbind outcome_bind]. apply IH; [lia|lia].
Qed.
End Getters.

(** ** Properties *)

(** On every well-formed message the getters return the first field with the
    wanted number and wire type (and the zero value when there is none), whatever
    fields, known or not, surround it. *)
Theorem getters_find_field n fs :
  1 <= n < 16 -> Forall field_ok fs -> len (encode_fields fs) < 2 ^ 62 ->
  getBytesField (encode_fields fs) n = Ret (find_bytes n fs) /\
  copyBytesField (encode_fields fs) n = Ret (find_bytes n fs) /\
  getVarintField (encode_fields fs) n = Ret (find_varint n fs).
Proof.
  intros. split_and!; [by apply getBytesField_find|by apply copyBytesField_find|by apply getVarintField_find].
Qed.

Definition sample_fields : list pfield :=
  [PVarint 9 7; PBytes 2 (str "skip"); PBytes 1 (str "key"); PVarint 1 5; PBytes 1 (str "again")].

Lemma getters_find_field_witness :
  getBytesField (encode_fields sample_fields) 1 = Ret (Some (str "key")) /\
  copyBytesField (encode_fields sample_fields) 1 = Ret (Some (str "key")) /\
  getVarintField (encode_fields sample_fields) 1 = Ret 5.
Proof.
  apply (getters_find_field 1 sample_fields).
  - lia.
  - repeat constructor; simpl; lia.
  - vm_compute. reflexivity.
Defined.

(** The getters return, without a panic and within one turn per byte, on every
    message that holds no length-delimited field with a declared length of 2^62
    or more; only such a forged length can make them fail. *)
Theorem getters_total buf n :
  1 <= n < 16 -> len buf < 2 ^ 62 -> ~ forged buf ->
  (exists v, getBytesField buf n = Ret v) /\ (exists v, getVarintField buf n = Ret v).
Proof.
  intros Hn Hb Hf. pose proof (len_nonneg buf). split.
  - destruct (getBytesField_total buf Hb (u8 (Z.lor (Z.shiftl n 3) 2)) (S (length buf)) 0) as [|?]; try done.
    + unfold len in *. lia.
    + rewrite want_bytes by lia. rewrite Z.add_comm, Z_mod_plus_full. done.
  - destruct (getVarintField_total buf Hb (u8 (Z.shiftl n 3)) (S (length buf)) 0) as [|?]; try done.
    unfold len in *. lia.
Qed.

Lemma getters_total_witness :
  (exists v, getBytesField (bs [8; 5]) 1 = Ret v) /\ (exists v, getVarintField (bs [8; 5]) 1 = Ret v).
Proof.
  apply (getters_total (bs [8; 5]) 1); [lia|vm_compute; reflexivity|].
  intros ([|t0 [|t1 [|t2 pre]]] & t & post & E & Ht & _); vm_compute in E; try discriminate E;
    injection E as; subst; vm_compute in Ht; discriminate Ht.
Defined.

(** A message with a forged length on which [getVarintField] never returns: the
    index goes back to where it was. *)
Definition looping_message : bytes := bs [10; 245; 255; 255; 255; 255; 255; 255; 255; 255; 1].

Theorem getVarintField_diverges fuel :
  getVarintField_loop fuel looping_message (u8 (Z.shiftl 3 3)) 0 = NoFuel.
Proof.
  induction fuel as [|fuel IH]; [vm_compute; reflexivity|]. cbn [getVarintField_loop].
  replace (negb (0 <? len looping_message)) with false by (vm_compute; reflexivity).
  replace (go_index looping_message 0) with (Ret (byte.of_Z 10)) by (vm_compute; reflexivity).
  cbn [mbind outcome_bind].
  replace (byte.unsigned (byte.of_Z 10) =? u8 (Z.shiftl 3 3)) with false by (vm_compute; reflexivity).
  replace (skip_field looping_message (byte.of_Z 10) (0 + 1)) with (Ret (Some 0)) by (vm_compute; reflexivity).
  exact IH.
Qed.

(** C38: A stream of encoded items, with zero-length envelopes anywhere between them,
    reads back as exactly those items in order, and then ends with io.EOF. *)
Theorem readAll_roundtrip {P} `{RingPinner P} (l : list (option snapItem)) p fuel :
  Forall elem_ok l -> (length (omap id l) < fuel)%nat ->
  exists s', readAll fuel (newSnapReader (Source (wires l) EOF) p) = (omap id l, Err EOF, s').
Proof. intros Hok Hf. by apply readAll_wires. Qed.

(** The simplest pinner: a count of the bytes committed so far. *)
Record counter := Counter { committed : Z }.

#[export] Instance counter_pinner : RingPinner counter :=
  {| AdvancePin n p := Counter (committed p + n); EnableManualPin p := p |}.

Definition sample_items : list (option snapItem) :=
  [Some (mkItem itemTypeStore (str "bank") None None 0 0 [] 0 None); None; None;
   Some (mkItem itemTypeIAVL [] (Some (str "k")) (Some []) (-1) 0 [] 0 None);
   Some (mkItem itemTypeIAVL [] (Some (str "k")) None 300 1 [] 0 None);
   Some (mkItem itemTypeExtMeta [] None None 0 0 (str "wasm") 1 None)].

Lemma sample_items_ok : Forall elem_ok sample_items.
Proof.
  repeat constructor; cbn -[len]; unfold int64; try lia; try discriminate; vm_compute; discriminate.
Qed.

Lemma readAll_roundtrip_witness :
  exists s', readAll 5 (newSnapReader (Source (wires sample_items) EOF) (Some (Counter 0))) =
    (omap id sample_items, Err EOF, s').
Proof.
  apply (readAll_roundtrip sample_items (Some (Counter 0)) 5); [exact sample_items_ok|].
  vm_compute. lia.
Defined.

Lemma iter_counter k c :
  Nat.iter k (advanced 1) (Some (Counter c)) = Some (Counter (c + Z.of_nat k)).
Proof.
  induction k as [|k IH]; [cbn; by rewrite Z.add_0_r|].
  rewrite Nat.iter_succ, IH. cbn -[Z.of_nat]. do 2 f_equal. lia.
Qed.

(** On a stream as encoders write it the eviction pin is exact: when [Next]
    returns an item, the bytes committed so far end where that item's envelope
    starts - everything before it may be evicted, none of its own bytes. *)
Theorem Next_pin_exact k it l e c q :
  elem_ok (Some it) -> 0 <= q ->
  Next (mkReader (Source (wires (replicate k None ++ Some it :: l)) e) (Some (Counter c)) q) =
  (Ret it, mkReader (Source (wires l) e)
             (Some (Counter (c + q + len (wires (replicate k None))))) (len (wire (Some it)))).
Proof.
  intros Hit Hq. destruct (Next_unfold (mkReader (Source (wires (replicate k None ++ Some it :: l)) e)
    (Some (Counter c)) q)) as [q' ->]. cbn [br src_data].
  pose proof (length_wires (replicate k None ++ Some it :: l)) as Hl.
  rewrite length_app, length_replicate in Hl. rewrite Next_loop_items by (done || lia).
  unfold committed_pinner. cbn [lastItemBytes pinner].
  assert (Hz : len (wires (replicate k None)) = Z.of_nat k).
  { clear. induction k as [|k IH]; [done|]. cbn [replicate]. rewrite wires_cons, len_app, IH.
    replace (len (wire None)) with 1 by (vm_compute; reflexivity). lia. }
  rewrite Hz. destruct (Z.ltb_spec 0 q); cbn [advanced fmap option_fmap option_map AdvancePin counter_pinner committed];
    rewrite iter_counter; do 4 f_equal; lia.
Qed.

Lemma Next_pin_exact_witness :
  Next (mkReader (Source (wires [None; Some (mkItem itemTypeStore (str "bank") None None 0 0 [] 0 None)]) EOF)
         (Some (Counter 10)) 4) =
  (Ret (mkItem itemTypeStore (str "bank") None None 0 0 [] 0 None),
   mkReader (Source [] EOF) (Some (Counter 15)) 9).
Proof.
  apply (Next_pin_exact 1 (mkItem itemTypeStore (str "bank") None None 0 0 [] 0 None) [] EOF 10 4).
  - split; [constructor|vm_compute; discriminate].
  - lia.
Defined.

Lemma ReadUvarint_extends d e v d' e' :
  ReadUvarint (Source d e) = (Ret v, Source d' e') ->
  exists c, d = c ++ d' /\ e' = e /\ 1 <= len c /\ 0 <= v /\ uvarintLen v <= len c.
Proof. intros H. apply ReadUvarint_consumes in H as (c & Hc & He & H1 & H2 & H3). exists c. by cbn in *. Qed.

Lemma ReadFull_inv n d e buf d' e' :
  0 <= n -> ReadFull n (Source d e) = (Ret buf, Source d' e') -> d = buf ++ d' /\ len buf = n /\ e' = e.
Proof.
  intros Hn. unfold ReadFull. cbn [src_data src_end]. destruct (Z.leb_spec n (len d)); [|done].
  intros [= <- <- <-]. rewrite take_drop. split_and!; [done| |done].
  rewrite len_take_le; [lia|]. unfold len in *. lia.
Qed.

(** What one run of the loop reads and commits. *)
Lemma Next_loop_safe fuel : forall d e c q it s',
  Next_loop fuel (mkReader (Source d e) (Some (Counter c)) q) = (Ret it, s') ->
  exists skipped n body d' c', d = skipped ++ n ++ body ++ d' /\
    s' = mkReader (Source d' e) (Some (Counter c')) (uvarintLen (len body) + len body) /\
    c <= c' <= c + len skipped /\ uvarintLen (len body) <= len n /\ decodeEnvelope body = Ret it.
Proof.
  induction fuel as [|fuel IH]; intros d e c q it s' H; [done|]. cbn [Next_loop] in H.
  unfold buffered at 1, zoom at 1 in H. cbn [br pinner lastItemBytes] in H.
  destruct (ReadUvarint (Source d e)) as [[v|er|w|] [d1 e1]] eqn:Er; [|by destruct er|done|done].
  apply ReadUvarint_extends in Er as (n & -> & -> & Hn1 & Hv & Hlen).
  destruct (Z.eqb_spec v 0) as [->|Hv0].
  - unfold advance, modify, mbind, M_bind in H. cbn [pinner br lastItemBytes AdvancePin counter_pinner committed] in H.
    apply IH in H as (sk & n2 & body & d' & c' & -> & -> & Hc & Hn2 & Hdec).
    exists (n ++ sk), n2, body, d', c'. rewrite <- app_assoc, len_app. pose proof (len_nonneg sk).
    split_and!; try done; lia.
  - destruct (maxEnvelopeBytes <? v); [done|]. unfold wrap_err, buffered, zoom, lift, modify, mbind, M_bind, mret, M_ret in H.
    cbn [br pinner lastItemBytes] in H.
    destruct (ReadFull v (Source d1 e)) as [[buf| | |] [d2 e2]] eqn:Ef; try done.
    apply ReadFull_inv in Ef as (-> & Hbl & ->); [|done].
    destruct (decodeEnvelope buf) as [it'| | |] eqn:Ed; try done. injection H as <- <-.
    exists [], n, buf, d2, c. rewrite Hbl. cbn [br pinner]. rewrite len_nil. split_and!; try done; lia.
Qed.

(** On any stream at all, canonical or not, the pin stays behind the consumer:
    when [Next] returns an item whose envelope starts after [skipped], the bytes
    committed do not reach into that envelope, and the amount the following call
    will commit does not reach past its end. *)
Theorem Next_pin_safe d e c q it s' :
  0 <= q -> Next (mkReader (Source d e) (Some (Counter c)) q) = (Ret it, s') ->
  exists skipped n body d' c' q', d = skipped ++ n ++ body ++ d' /\ decodeEnvelope body = Ret it /\
    s' = mkReader (Source d' e) (Some (Counter c')) q' /\
    c + q <= c' <= c + q + len skipped /\ 0 <= q' /\
    c' + q' <= c + q + len skipped + len n + len body.
Proof.
  intros Hq H. destruct (Next_unfold (mkReader (Source d e) (Some (Counter c)) q)) as [q1 E].
  rewrite E in H. cbn [br src_data] in H. unfold committed_pinner in H. cbn [lastItemBytes pinner] in H.
  assert (Hp : (if 0 <? q then advanced q (Some (Counter c)) else Some (Counter c)) = Some (Counter (c + q))).
  { destruct (Z.ltb_spec 0 q); [done|]. replace q with 0 by lia. by rewrite Z.add_0_r. }
  rewrite Hp in H. apply Next_loop_safe in H as (sk & n & body & d' & c' & -> & -> & Hc & Hn & Hdec).
  pose proof (len_nonneg body) as Hb.
  assert (Hpos : forall k v a, 1 <= a -> 1 <= uvarintLen_loop k v a).
  { clear. induction k as [|k IH]; intros v a Ha; cbn; [done|]. destruct (128 <=? v); [apply IH; lia|done]. }
  pose proof (Hpos 9%nat (len body) 1 ltac:(lia)) as H1. fold (uvarintLen (len body)) in H1.
  exists sk, n, body, d', c', (uvarintLen (len body) + len body). split_and!; try done; lia.
Qed.

Lemma Next_pin_safe_witness :
  exists it s', Next (mkReader (Source (bs [0; 136; 0; 10; 6; 10; 4; 98; 97; 110; 107; 99]) EOF)
      (Some (Counter 0)) 0) = (Ret it, s') /\ StoreName it = str "bank" /\
  exists skipped n body d' c' q',
    bs [0; 136; 0; 10; 6; 10; 4; 98; 97; 110; 107; 99] = skipped ++ n ++ body ++ d' /\
    decodeEnvelope body = Ret it /\
    s' = mkReader (Source d' EOF) (Some (Counter c')) q' /\
    0 <= c' <= len skipped /\ 0 <= q' /\ c' + q' <= len skipped + len n + len body.
Proof.
  eexists _, _. split; [vm_compute; reflexivity|]. split; [reflexivity|].
  apply (Next_pin_safe _ EOF 0 0 _ _); [lia|vm_compute; reflexivity].
Defined.
