(* ===== verification/ChunkRing.v ===== *)
(** * The decompressed-chunk ring (internal/snapshotimport/chunkring.go)

    One producer writes the decompressed stream, readers follow it at their own
    offsets, and chunks are dropped once every registered reader has let go of
    them.  Each critical section is a function; where the code waits on the
    condition variable the function says so, and is run again later.  The system
    is the step relation over those sections; the theorems are invariants of
    every state it reaches, under any interleaving. *)

From S2P Require Import Prelude SnapProto.

(** ** State *)

(** [dcap] is the capacity of the slice behind [data]. *)
Record chunkEnt := mkChunk { start : Z; data : bytes; dcap : Z }.

Record chunkRingReader := mkRd { pos : Z; pin : Z; manual : bool; endLimit : Z }.

(** Readers are pointers: [objs] holds the reader objects by identity and
    [readers] lists the identities registered with the ring.  [freeBufs] holds
    the capacities of the pooled slabs; the pool's own capacity is
    [maxBytes / chunkSize], fixed at construction. *)
Record chunkRing := mkRing {
  chunkSize : Z;
  maxBytes : Z;
  chunks : list chunkEnt;
  tail : Z;
  head : Z;
  closed : bool;
  ring_err : option goerr;
  readers : list nat;
  freeBufs : list Z;
  objs : gmap nat chunkRingReader
}.

Definition newChunkRing (chunkSize maxBytes : Z) : outcome chunkRing :=
  if chunkSize <=? 0 then Panic "chunkRing: chunkSize must be positive"
  else if maxBytes <? chunkSize then Panic "chunkRing: maxBytes must be >= chunkSize"
  else Ret (mkRing chunkSize maxBytes [] 0 0 false None [] [] ∅).

Definition maxChunks (r : chunkRing) : Z := maxBytes r / chunkSize r.

Definition set_obj (id : nat) (o : chunkRingReader) (r : chunkRing) : chunkRing :=
  mkRing (chunkSize r) (maxBytes r) (chunks r) (tail r) (head r) (closed r) (ring_err r)
    (readers r) (freeBufs r) (<[id := o]> (objs r)).
Definition set_readers ids (r : chunkRing) : chunkRing :=
  mkRing (chunkSize r) (maxBytes r) (chunks r) (tail r) (head r) (closed r) (ring_err r)
    ids (freeBufs r) (objs r).
Definition set_chunks cs t free (r : chunkRing) : chunkRing :=
  mkRing (chunkSize r) (maxBytes r) cs t (head r) (closed r) (ring_err r)
    (readers r) free (objs r).
Definition set_front h cs free (r : chunkRing) : chunkRing :=
  mkRing (chunkSize r) (maxBytes r) cs (tail r) h (closed r) (ring_err r)
    (readers r) free (objs r).

(** ** Buffers *)

(** The slab taken and the pool without it.  A slab is its capacity here: what it held
    is written over before it is read, and each slab is in the pool or in one chunk. *)
Definition allocBufLocked (r : chunkRing) : Z * list Z :=
  match last (freeBufs r) with
  | Some c => (c, removelast (freeBufs r))
  | None => (chunkSize r, freeBufs r)
  end.

Definition freeBufLocked (r : chunkRing) (cap : Z) (free : list Z) : list Z :=
  if negb (cap =? chunkSize r) then free
  else if maxChunks r <=? len free then free
  else free ++ [cap].

(** The capacity of [append(b, p...)]: unchanged while the bytes fit. *)
Definition append_cap (cap n : Z) : Z := if n <=? cap then cap else n.

(** ** Eviction *)

Definition effectivePin (o : chunkRingReader) : Z := if manual o then pin o else pos o.

Definition c_end (c : chunkEnt) : Z := start c + len (data c).

Fixpoint evict_chunks (r : chunkRing) (minPin h : Z) (cs : list chunkEnt) (free : list Z)
    : Z * list chunkEnt * list Z :=
  match cs with
  | [] => (h, [], free)
  | c :: rest =>
      if minPin <? c_end c then (h, cs, free)
      else evict_chunks r minPin (c_end c) rest (freeBufLocked r (dcap c) free)
  end.

Definition reader_pins (r : chunkRing) : list Z :=
  map effectivePin (omap (fun id => objs r !! id) (readers r)).

Definition evictLocked (r : chunkRing) : chunkRing :=
  match reader_pins r with
  | [] => r
  | p :: ps =>
      let minPin := fold_left (fun m p => if p <? m then p else m) ps p in
      let '(h, cs, free) := evict_chunks r minPin (head r) (chunks r) (freeBufs r) in
      set_front h cs free r
  end.

(** ** The producer *)

(** One turn of the loop in [Write] on the bytes not yet written. *)
Inductive wturn :=
| WWait
| WClosed
| WTook (n : Z) (r : chunkRing).

(** The second half of the turn: a new chunk, in a slab of the pool if there is one. *)
Definition write_new (r : chunkRing) (cap : Z) (rest : bytes) : wturn :=
  let take_ := len rest in
  let take_ := if chunkSize r <? take_ then chunkSize r else take_ in
  let take_ := if cap <? take_ then cap else take_ in
  if take_ =? 0 then WTook 0 r
  else
    let '(bcap, free) := allocBufLocked r in
    let c' := mkChunk (tail r) (take (Z.to_nat take_) rest) (append_cap bcap take_) in
    WTook take_ (set_chunks (chunks r ++ [c']) (tail r + take_) free r).

(** The first half: room left in the most recent chunk. *)
Definition write_grow (r : chunkRing) (cap : Z) (c : chunkEnt) (rest : bytes) : wturn :=
  let room := chunkSize r - len (data c) in
  let take_ := len rest in
  let take_ := if room <? take_ then room else take_ in
  let take_ := if cap <? take_ then cap else take_ in
  if take_ =? 0 then WTook 0 r
  else
    let c' := mkChunk (start c) (data c ++ take (Z.to_nat take_) rest)
                (append_cap (dcap c) (len (data c) + take_)) in
    WTook take_ (set_chunks (removelast (chunks r) ++ [c']) (tail r + take_) (freeBufs r) r).

Definition write_turn (r : chunkRing) (rest : bytes) : wturn :=
  if negb (closed r) && (maxBytes r <=? tail r - head r) then WWait
  else if closed r then WClosed
  else
    let cap := maxBytes r - (tail r - head r) in
    match last (chunks r) with
    | Some c => if len (data c) <? chunkSize r then write_grow r cap c rest else write_new r cap rest
    | None => write_new r cap rest
    end.

(** How a run of the loop under the lock ends: waiting, with the bytes still to
    write, or returning. *)
Inductive wresult :=
| WBlocked (rest : bytes)
| WReturned (rest : bytes) (e : option goerr)
| WNoFuel.

Definition closed_ring : goerr := Errorf "chunkRing: write to closed ring".

Fixpoint write_run (fuel : nat) (r : chunkRing) (rest : bytes) : wresult * chunkRing :=
  match rest with
  | [] => (WReturned [] None, r)
  | _ :: _ =>
      match fuel with
      | O => (WNoFuel, r)
      | S fuel =>
          match write_turn r rest with
          | WWait => (WBlocked rest, r)
          | WClosed => (WReturned rest (Some closed_ring), r)
          | WTook n r' => write_run fuel r' (drop (Z.to_nat n) rest)
          end
      end
  end.

Definition Write (r : chunkRing) (rest : bytes) : wresult * chunkRing :=
  write_run (length rest) r rest.

Definition Close (r : chunkRing) (err : option goerr) : chunkRing :=
  mkRing (chunkSize r) (maxBytes r) (chunks r) (tail r) (head r) true
    (match ring_err r with None => err | Some e => Some e end)
    (readers r) (freeBufs r) (objs r).

(** ** Readers *)

(** [id] is the identity of the object allocated. *)
Definition NewReader (r : chunkRing) (id : nat) (start endLimit : Z) : outcome chunkRing :=
  if start <? head r then Err (Wrapf "start below ring head" ErrStartEvicted)
  else Ret (set_readers (readers r ++ [id]) (set_obj id (mkRd start 0 false endLimit) r)).

Definition go_manual (o : chunkRingReader) : chunkRingReader :=
  if manual o then o else mkRd (pos o) (pos o) true (endLimit o).

Definition EnableManualPin (o : chunkRingReader) (id : nat) (r : chunkRing) : chunkRing :=
  set_obj id (go_manual o) r.

Definition AdvancePin (n : Z) (o : chunkRingReader) (id : nat) (r : chunkRing) : chunkRing :=
  if n <=? 0 then r else
  let o := go_manual o in
  let r := set_obj id o r in
  let target := pin o + n in
  let target := if pos o <? target then pos o else target in
  if target <=? pin o then r
  else evictLocked (set_obj id (mkRd (pos o) target (manual o) (endLimit o)) r).

Definition findChunkLocked (r : chunkRing) (o : chunkRingReader) : option chunkEnt :=
  List.find (fun c => (start c <=? pos o) && (pos o <? c_end c)) (chunks r).

Inductive rresult :=
| RWait
| RData (b : bytes)
| RError (e : goerr).

Definition evicted_under : goerr := Errorf "chunkRingReader: pos below ring head (evicted under reader)".

(** [Read(p)] with [n = len(p)]. *)
Definition Read (n : Z) (o : chunkRingReader) (id : nat) (r : chunkRing) : rresult * chunkRing :=
  if (0 <=? endLimit o) && (endLimit o <=? pos o) then (RError EOF, r) else
  match findChunkLocked r o with
  | Some c =>
      let off := pos o - start c in
      let avail := len (data c) - off in
      if avail <=? 0 then (RWait, r) else
      let toRead := if n <? avail then n else avail in
      let toRead := if (0 <=? endLimit o) && (endLimit o <? pos o + toRead)
                    then endLimit o - pos o else toRead in
      let b := take (Z.to_nat toRead) (drop (Z.to_nat off) (data c)) in
      (RData b, evictLocked (set_obj id (mkRd (pos o + toRead) (pin o) (manual o) (endLimit o)) r))
  | None =>
      if pos o <? head r then (RError evicted_under, r)
      else if closed r && (tail r <=? pos o) then
        (RError (match ring_err r with Some e => e | None => EOF end), r)
      else (RWait, r)
  end.

Definition SetEnd (e : Z) (o : chunkRingReader) (id : nat) (r : chunkRing) : chunkRing :=
  set_obj id (mkRd (pos o) (pin o) (manual o) e) r.

Fixpoint remove_first (id : nat) (l : list nat) : list nat :=
  match l with
  | [] => []
  | x :: r => if (x =? id)%nat then r else x :: remove_first id r
  end.

Definition CloseReader (id : nat) (r : chunkRing) : chunkRing :=
  evictLocked (set_readers (remove_first id (readers r)) r).

(** ** The invariant *)

(** The chunks are non-empty and adjoin, from [h] to [t]. *)
Fixpoint contig (h : Z) (cs : list chunkEnt) (t : Z) : Prop :=
  match cs with
  | [] => h = t
  | c :: r => start c = h /\ 0 < len (data c) /\ contig (c_end c) r t
  end.

(** Every chunk but the last is full. *)
Fixpoint full_but_last (size : Z) (cs : list chunkEnt) : Prop :=
  match cs with
  | c :: (_ :: _) as r => len (data c) = size /\ full_but_last size r
  | _ => True
  end.

Definition slab (size : Z) (c : chunkEnt) : Prop := len (data c) <= size /\ dcap c = size.

(** [hist] is everything the producer has written. *)
Record ring_ok (r : chunkRing) (hist : bytes) : Prop := {
  ok_sizes : 0 < chunkSize r <= maxBytes r;
  ok_contig : contig (head r) (chunks r) (tail r);
  ok_data : concat (map data (chunks r)) = drop (Z.to_nat (head r)) hist;
  ok_tail : tail r = len hist;
  ok_head : 0 <= head r;
  ok_cap : tail r - head r <= maxBytes r;
  ok_full : full_but_last (chunkSize r) (chunks r);
  ok_slab : Forall (slab (chunkSize r)) (chunks r);
  ok_free : Forall (fun c => c = chunkSize r) (freeBufs r) /\ len (freeBufs r) <= maxChunks r;
  ok_count : len (chunks r) + len (freeBufs r) <= maxChunks r + 1;
  ok_readers : forall id, id ∈ readers r -> exists o, objs r !! id = Some o /\
    head r <= effectivePin o <= pos o
}.

Lemma contig_le h cs t : contig h cs t -> h <= t.
Proof.
  revert h. induction cs as [|c cs IH]; intros h; cbn; [lia|]. intros (<- & Hl & Hc).
  apply IH in Hc. unfold c_end in Hc. lia.
Qed.

Lemma contig_app h a b t : contig h (a ++ b) t <-> exists m, contig h a m /\ contig m b t.
Proof.
  revert h. induction a as [|c a IH]; intros h; cbn.
  - split; [by eexists|]. by intros (m & -> & ?).
  - rewrite IH. split.
    + intros (H1 & H2 & m & H3 & H4). by exists m.
    + intros (m & (H1 & H2 & H3) & H4). split_and!; [done..|]. by exists m.
Qed.

Lemma full_app_last size a c : full_but_last size (a ++ [c]) <-> Forall (fun x => len (data x) = size) a.
Proof.
  induction a as [|x a IH]; [by split; [constructor|]|]. cbn [app].
  rewrite Forall_cons, <- IH. by destruct a.
Qed.

Lemma full_tail size c cs : full_but_last size (c :: cs) -> full_but_last size cs.
Proof. destruct cs; cbn; [done|by intros [_ ?]]. Qed.

Lemma contig_total size h cs t :
  contig h cs t -> Forall (fun x => len (data x) = size) cs -> t - h = len cs * size.
Proof.
  intros H Hf. revert h H. induction Hf as [|c cs Hc _ IH]; intros h H; cbn in H.
  - change (len (@nil chunkEnt)) with 0. lia.
  - destruct H as (<- & _ & H). apply IH in H. unfold c_end in H. rewrite len_cons. lia.
Qed.

Lemma len_concat_data h cs t : contig h cs t -> len (concat (map data cs)) = t - h.
Proof.
  revert h. induction cs as [|c cs IH]; intros h; cbn; [intros ->; unfold len; cbn; lia|].
  intros (<- & _ & H). rewrite len_app, (IH _ H). unfold c_end. lia.
Qed.

(** ** Eviction keeps it *)

Lemma freeBuf_spec r cap free :
  cap = chunkSize r -> Forall (fun c => c = chunkSize r) free -> len free <= maxChunks r ->
  let free' := freeBufLocked r cap free in
  Forall (fun c => c = chunkSize r) free' /\ len free' <= maxChunks r /\ len free' <= len free + 1.
Proof.
  intros -> Hf Hl. unfold freeBufLocked. rewrite Z.eqb_refl. cbn [negb].
  destruct (Z.leb_spec (maxChunks r) (len free)).
  - split_and!; [done|done|lia].
  - rewrite len_app, len_cons, len_nil. split_and!; [|lia|lia].
    apply Forall_app. split; [done|]. by repeat constructor.
Qed.

Lemma evict_chunks_spec r minPin hist cs : forall h free t h' cs' free',
  evict_chunks r minPin h cs free = (h', cs', free') ->
  contig h cs t -> concat (map data cs) = drop (Z.to_nat h) hist -> 0 <= h ->
  full_but_last (chunkSize r) cs -> Forall (slab (chunkSize r)) cs ->
  Forall (fun c => c = chunkSize r) free -> len free <= maxChunks r ->
  contig h' cs' t /\ concat (map data cs') = drop (Z.to_nat h') hist /\ h <= h' /\
  (h' = h \/ h' <= minPin) /\ full_but_last (chunkSize r) cs' /\ Forall (slab (chunkSize r)) cs' /\
  Forall (fun c => c = chunkSize r) free' /\ len free' <= maxChunks r /\
  len cs' + len free' <= len cs + len free /\
  (forall c, List.head cs' = Some c -> minPin < c_end c).
Proof.
  induction cs as [|c cs IH]; intros h free t h' cs' free' E Hc Hd Hh Hfull Hslab Hf Hlf; cbn in E.
  - injection E as <- <- <-. split_and!; try done; lia.
  - destruct (Z.ltb_spec minPin (c_end c)) as [Hlt|Hge].
    + injection E as <- <- <-. split_and!; try done; try lia. by intros ? [= <-].
    + destruct Hc as (<- & Hl & Hc). inversion Hslab as [|? ? [_ Hcap] Hslab']; subst.
      destruct (freeBuf_spec r (dcap c) free Hcap Hf Hlf) as (Hf' & Hlf' & Hlf'').
      eapply IH in E as (H1 & H2 & H3 & H4 & H5 & H6 & H7 & H8 & H9 & H10);
        [|exact Hc| |unfold c_end; lia|by eapply full_tail|done|done|done].
      * split_and!; try done; [unfold c_end in H3; lia|right; destruct H4; lia|].
        rewrite (len_cons c). lia.
      * cbn in Hd. unfold c_end. rewrite Z2Nat.inj_add, len_to_nat by (pose proof (len_nonneg (data c)); lia).
        by rewrite <- drop_drop, <- Hd, drop_app_length.
Qed.

Lemma fold_min_le ps : forall p, let m := fold_left (fun m p => if p <? m then p else m) ps p in
  m <= p /\ Forall (fun q => m <= q) ps /\ (m = p \/ m ∈ ps).
Proof.
  induction ps as [|q ps IH]; intros p; cbn; [split_and!; [lia|done|by left]|].
  destruct (IH (if q <? p then q else p)) as (H1 & H2 & H3).
  destruct (Z.ltb_spec q p) as [Hq|Hq]; (split_and!; [lia|constructor; [lia|done]|]).
  - right. destruct H3 as [->|H3]; [by left|by right].
  - destruct H3 as [->|H3]; [by left|right; by right].
Qed.

(** What eviction changes, and that it keeps the invariant. *)
Lemma evictLocked_spec r hist :
  ring_ok r hist -> ring_ok (evictLocked r) hist /\ readers (evictLocked r) = readers r /\
    objs (evictLocked r) = objs r /\ closed (evictLocked r) = closed r /\ tail (evictLocked r) = tail r /\
    maxBytes (evictLocked r) = maxBytes r /\ head r <= head (evictLocked r).
Proof.
  intros H. unfold evictLocked. destruct (reader_pins r) as [|p ps] eqn:Ep; [split_and!; try done; lia|].
  destruct (fold_min_le ps p) as (Hm1 & Hm2 & _).
  set (minPin := fold_left _ _ _) in *. clearbody minPin.
  destruct (evict_chunks _ _ _ _ _) as [[h cs] free] eqn:Ee. destruct (ok_free _ _ H) as [Hf Hlf].
  eapply evict_chunks_spec in Ee as (H1 & H2 & H3 & H4 & H5 & H6 & H7 & H8 & H9 & _);
    [|apply H|apply H|apply H|apply H|apply H|done|done].
  cbn. split_and!; try done. pose proof (ok_cap _ _ H). pose proof (ok_head _ _ H). pose proof (ok_count _ _ H).
  split; cbn; try done; try apply H; try lia;
    [change (maxChunks (set_front h cs free r)) with (maxChunks r); lia|].
  intros id Hid. destruct (ok_readers _ _ H id Hid) as (o & Ho & Hp). exists o. split; [done|].
  destruct H4 as [->|H4]; [done|]. split; [|lia]. transitivity minPin; [done|].
  assert (Hin : effectivePin o ∈ p :: ps).
  { rewrite <- Ep. unfold reader_pins. apply list_elem_of_fmap. exists o. split; [done|].
    apply list_elem_of_omap. by exists id. }
  apply elem_of_cons in Hin as [->|Hin]; [done|]. rewrite Forall_forall in Hm2. by apply Hm2.
Qed.

(** ** Writing *)

Lemma chunks_bound r hist :
  ring_ok r hist -> Forall (fun x => len (data x) = chunkSize r) (chunks r) ->
  tail r - head r < maxBytes r -> len (chunks r) <= maxChunks r.
Proof.
  intros H Hf Hlt. pose proof (contig_total _ _ _ _ (ok_contig _ _ H) Hf) as E.
  destruct (ok_sizes _ _ H) as [Hs _]. unfold maxChunks. apply Z.div_le_lower_bound; lia.
Qed.

Lemma chunks_end_data r hist p :
  ring_ok r hist -> 0 <= head r ->
  concat (map data (chunks r)) ++ p = drop (Z.to_nat (head r)) (hist ++ p).
Proof.
  intros H Hh. rewrite (ok_data _ _ H), drop_app_le; [done|].
  pose proof (contig_le _ _ _ (ok_contig _ _ H)). pose proof (ok_tail _ _ H) as Ht. unfold len in Ht. lia.
Qed.

Lemma len_take_nonneg {A} n (l : list A) : 0 <= n <= len l -> len (take (Z.to_nat n) l) = n.
Proof. intros Hn. rewrite len_take_le; unfold len in *; lia. Qed.

(** What both halves of a turn establish. *)
Definition took (r : chunkRing) (hist rest : bytes) (w : wturn) : Prop :=
  exists n r', w = WTook n r' /\ 0 < n <= len rest /\
    ring_ok r' (hist ++ take (Z.to_nat n) rest) /\ readers r' = readers r /\ objs r' = objs r /\
    closed r' = closed r /\ ring_err r' = ring_err r /\ head r' = head r /\ maxBytes r' = maxBytes r.

Lemma took_bound (room n cap : Z) :
  0 < room -> 0 < n -> 0 < cap ->
  let t := if room <? n then room else n in
  let t := if cap <? t then cap else t in
  0 < t /\ t <= room /\ t <= n /\ t <= cap.
Proof.
  intros ? ? ?. cbv zeta. destruct (Z.ltb_spec room n); cbv iota;
    [destruct (Z.ltb_spec cap room)|destruct (Z.ltb_spec cap n)]; cbv iota; lia.
Qed.

Lemma last_split (cs : list chunkEnt) c : last cs = Some c -> cs = removelast cs ++ [c].
Proof. intros [l ->]%last_Some. by rewrite removelast_last. Qed.

Lemma write_grow_took r hist rest c :
  ring_ok r hist -> rest <> [] -> tail r - head r < maxBytes r -> last (chunks r) = Some c ->
  len (data c) < chunkSize r ->
  took r hist rest (write_grow r (maxBytes r - (tail r - head r)) c rest).
Proof.
  intros H Hrest Hcap Hlast Hroom. unfold write_grow.
  assert (Hn : 0 < len rest) by (destruct rest; [done|rewrite len_cons; pose proof (len_nonneg rest); lia]).
  destruct (took_bound (chunkSize r - len (data c)) (len rest) (maxBytes r - (tail r - head r)))
    as (H1 & H2 & H3 & H4); [lia..|]. cbv zeta in *.
  set (t := if _ <? _ then maxBytes r - (tail r - head r) else _) in *. clearbody t.
  rewrite (proj2 (Z.eqb_neq t 0)) by lia. eexists _, _. split; [done|]. split; [lia|].
  pose proof (last_split _ _ Hlast) as Ec. set (cs := removelast (chunks r)) in *. clearbody cs.
  pose proof (len_take_nonneg t rest ltac:(lia)) as Htake.
  pose proof (ok_slab _ _ H) as Hslab. rewrite Ec in Hslab. apply Forall_app in Hslab as [Hslab Hc].
  inversion Hc as [|? ? [Hc1 Hc2] _]; subst.
  pose proof (ok_contig _ _ H) as Hcon. rewrite Ec in Hcon. apply contig_app in Hcon as (m & Hm1 & Hm2 & Hm3 & Hm4).
  cbn in Hm4. split_and!; try done. split; cbn; try apply H.
  - apply contig_app. exists m. split; [done|]. cbn. split_and!; [done|len_simpl; lia|].
    unfold c_end in *. cbn. len_simpl. lia.
  - rewrite map_app, concat_app. cbn. rewrite app_nil_r, app_assoc, <- (chunks_end_data r hist) by (done || apply H).
    f_equal. by rewrite Ec, map_app, concat_app; cbn; rewrite app_nil_r.
  - rewrite len_app, Htake, (ok_tail _ _ H). lia.
  - lia.
  - pose proof (ok_full _ _ H) as Hf. rewrite Ec, full_app_last in Hf. by apply full_app_last.
  - apply Forall_app. split; [done|]. constructor; [|done]. unfold slab, append_cap. cbn.
    rewrite Hc2. len_simpl. rewrite (proj2 (Z.leb_le _ _)) by lia. lia.
  - pose proof (ok_count _ _ H) as Hk. rewrite Ec in Hk. len_simpl. unfold maxChunks in *. cbn. lia.
Qed.

Lemma write_new_took r hist rest :
  ring_ok r hist -> rest <> [] -> tail r - head r < maxBytes r ->
  Forall (fun x => len (data x) = chunkSize r) (chunks r) ->
  took r hist rest (write_new r (maxBytes r - (tail r - head r)) rest).
Proof.
  intros H Hrest Hcap Hfull. unfold write_new.
  assert (Hn : 0 < len rest) by (destruct rest; [done|rewrite len_cons; pose proof (len_nonneg rest); lia]).
  destruct (ok_sizes _ _ H) as [Hs Hs'].
  destruct (took_bound (chunkSize r) (len rest) (maxBytes r - (tail r - head r)))
    as (H1 & H2 & H3 & H4); [lia..|]. cbv zeta in *.
  set (t := if _ <? _ then maxBytes r - (tail r - head r) else _) in *. clearbody t.
  rewrite (proj2 (Z.eqb_neq t 0)) by lia.
  destruct (ok_free _ _ H) as [Hfree Hlf]. pose proof (chunks_bound r hist H Hfull Hcap) as Hcb.
  pose proof (ok_count _ _ H) as Hk. pose proof (len_take_nonneg t rest ltac:(lia)) as Htake.
  assert (Ha : exists free, allocBufLocked r = (chunkSize r, free) /\
    Forall (fun c => c = chunkSize r) free /\ len free <= maxChunks r /\
    len (chunks r) + 1 + len free <= maxChunks r + 1).
  { unfold allocBufLocked. destruct (last (freeBufs r)) as [b|] eqn:El.
    - apply last_Some in El as [l El]. rewrite El in *. rewrite removelast_last.
      apply Forall_app in Hfree as [Hfl Hb]. inversion Hb; subst. exists l. len_simpl. split_and!; [done|done|lia|lia].
    - apply last_None in El. rewrite El in *. exists []. len_simpl. split_and!; [done|done|lia|lia]. }
  destruct Ha as (free & -> & Hfree' & Hlf' & Hk'). eexists _, _. split; [done|]. split; [lia|].
  split_and!; try done. split; cbn; try apply H; try done.
  - apply contig_app. exists (tail r). split; [apply H|]. cbn. split_and!; [done|lia|].
    unfold c_end. cbn. by rewrite Htake.
  - rewrite map_app, concat_app. cbn. rewrite app_nil_r, <- (chunks_end_data r hist) by (done || apply H). done.
  - rewrite len_app, Htake, (ok_tail _ _ H). lia.
  - lia.
  - by apply full_app_last.
  - apply Forall_app. split; [apply H|]. constructor; [|done]. unfold slab, append_cap. cbn.
    rewrite Htake, (proj2 (Z.leb_le _ _)) by lia. lia.
  - len_simpl. unfold maxChunks in *. cbn. lia.
Qed.

Lemma write_turn_spec r hist rest :
  ring_ok r hist -> rest <> [] ->
  (closed r = false /\ tail r - head r = maxBytes r /\ write_turn r rest = WWait) \/
  (closed r = true /\ write_turn r rest = WClosed) \/
  (closed r = false /\ took r hist rest (write_turn r rest)).
Proof.
  intros H Hrest. unfold write_turn. destruct (closed r) eqn:Ecl; [right; by left|].
  pose proof (ok_cap _ _ H). cbn [negb andb].
  destruct (Z.leb_spec (maxBytes r) (tail r - head r)); [left; split_and!; [done|lia|done]|].
  right. right. split; [done|]. destruct (last (chunks r)) as [c|] eqn:El.
  - destruct (Z.ltb_spec (len (data c)) (chunkSize r)); [by apply write_grow_took|].
    apply write_new_took; [done..|]. pose proof (last_split _ _ El) as Ec. rewrite Ec.
    pose proof (ok_full _ _ H) as Hf. pose proof (ok_slab _ _ H) as Hs. rewrite Ec in Hf, Hs.
    apply full_app_last in Hf. apply Forall_app in Hs as [_ Hs]. inversion Hs as [|? ? [? _] _]; subst.
    apply Forall_app. split; [done|]. constructor; [lia|done].
  - apply write_new_took; [done..|]. apply last_None in El. by rewrite El.
Qed.

(** A run of [Write] under the lock: what it appended, and why it stopped. *)
Lemma write_run_spec fuel : forall r hist rest,
  ring_ok r hist -> (length rest <= fuel)%nat ->
  exists done_ rest' r', rest = done_ ++ rest' /\ ring_ok r' (hist ++ done_) /\
    readers r' = readers r /\ objs r' = objs r /\ closed r' = closed r /\
    maxBytes r' = maxBytes r /\ head r' = head r /\
    ((write_run fuel r rest = (WReturned [] None, r') /\ rest' = []) \/
     (write_run fuel r rest = (WBlocked rest', r') /\ rest' <> [] /\ closed r = false /\
        tail r' - head r' = maxBytes r') \/
     (write_run fuel r rest = (WReturned rest' (Some closed_ring), r') /\ rest' <> [] /\ closed r = true)).
Proof.
  induction fuel as [|fuel IH]; intros r hist rest H Hf;
    (destruct rest as [|b rest];
     [exists [], [], r; rewrite (app_nil_r hist); split_and!; try done; by left|]); [cbn in Hf; lia|].
  cbn [write_run]. set (p := b :: rest) in *.
  destruct (write_turn_spec r hist p H) as [(Hc & Ht & ->)|[(Hc & ->)|(Hc & Htook)]]; [done| | |].
  - exists [], p, r. rewrite (app_nil_r hist). split_and!; try done. right. left. split_and!; try done.
  - exists [], p, r. rewrite (app_nil_r hist). split_and!; try done. by right; right.
  - destruct Htook as (n & r1 & -> & Hn & H1 & Hr1 & Ho1 & Hc1 & He1 & Hh1 & Hm1).
    destruct (IH r1 _ (drop (Z.to_nat n) p) H1) as (d & rest' & r' & Ed & H' & Hr' & Ho' & Hc' & Hm' & Hh' & Hres).
    { rewrite length_drop. unfold len in Hn. lia. }
    exists (take (Z.to_nat n) p ++ d), rest', r'. rewrite <- app_assoc, <- Ed, take_drop, app_assoc.
    split_and!; try done; try congruence.
Qed.

(** ** Reader operations *)

(** A registered reader pins no earlier than the head. *)
Definition pinned (r : chunkRing) (id : nat) (o : chunkRingReader) : Prop :=
  id ∈ readers r -> head r <= effectivePin o <= pos o.

Lemma pinned_lookup r hist id o : ring_ok r hist -> objs r !! id = Some o -> pinned r id o.
Proof. intros H Ho Hid. destruct (ok_readers _ _ H id Hid) as (o' & Ho' & Hp). by simplify_eq. Qed.

Lemma set_obj_ok r hist id o : ring_ok r hist -> pinned r id o -> ring_ok (set_obj id o r) hist.
Proof.
  intros H Hp. split; cbn; try apply H. intros id' Hid'. destruct (decide (id' = id)) as [->|Hne].
  - exists o. split; [by rewrite lookup_insert_eq|by apply Hp].
  - rewrite lookup_insert_ne by done. by apply (ok_readers _ _ H).
Qed.

Lemma go_manual_spec o : effectivePin o <= pos o ->
  effectivePin (go_manual o) = effectivePin o /\ pos (go_manual o) = pos o /\
  endLimit (go_manual o) = endLimit o /\ pin (go_manual o) = effectivePin o /\ manual (go_manual o) = true.
Proof. intros _. unfold go_manual, effectivePin. destruct (manual o) eqn:E; cbn; rewrite ?E; done. Qed.

(** The parts of a ring the clients do not see change. *)
Definition same_stream (r r' : chunkRing) : Prop :=
  tail r' = tail r /\ closed r' = closed r /\ maxBytes r' = maxBytes r.

Lemma EnableManualPin_ok r hist id o :
  ring_ok r hist -> objs r !! id = Some o ->
  ring_ok (EnableManualPin o id r) hist /\ same_stream r (EnableManualPin o id r) /\
  exists o', objs (EnableManualPin o id r) = <[id := o']> (objs r) /\ pos o' = pos o /\ endLimit o' = endLimit o.
Proof.
  intros H Ho. pose proof (pinned_lookup r hist id o H Ho) as Hp. split; [|split; [done|]].
  - apply set_obj_ok; [done|]. intros Hid. destruct (go_manual_spec o) as (-> & -> & _); [|by apply Hp].
    by apply Hp.
  - exists (go_manual o). split; [done|]. unfold go_manual. by destruct (manual o).
Qed.

Lemma AdvancePin_ok r hist n id o :
  ring_ok r hist -> objs r !! id = Some o ->
  let r' := AdvancePin n o id r in
  ring_ok r' hist /\ same_stream r r' /\ head r <= head r' /\ readers r' = readers r /\
  exists o', objs r' = <[id := o']> (objs r) /\ pos o' = pos o /\ endLimit o' = endLimit o.
Proof.
  intros H Ho. pose proof (pinned_lookup r hist id o H Ho) as Hp. cbv zeta. unfold AdvancePin.
  assert (Hg : ring_ok (set_obj id (go_manual o) r) hist) by apply (EnableManualPin_ok r hist id o H Ho).
  assert (Hgm : pos (go_manual o) = pos o /\ endLimit (go_manual o) = endLimit o /\ manual (go_manual o) = true).
  { unfold go_manual. destruct (manual o) eqn:E; cbn; by rewrite ?E. }
  destruct Hgm as (Hpos & Hend & Hman).
  set (target := if pos (go_manual o) <? pin (go_manual o) + n then pos (go_manual o) else pin (go_manual o) + n).
  destruct (Z.leb_spec n 0); [|cbv zeta; fold target; destruct (Z.leb_spec target (pin (go_manual o)))].
  - split_and!; try done. exists o. by rewrite insert_id.
  - split_and!; try done. by exists (go_manual o).
  - cbn [set_obj pos].
    assert (Ht : target <= pos (go_manual o)) by (unfold target; destruct (Z.ltb_spec (pos (go_manual o)) (pin (go_manual o) + n)); lia).
    destruct (evictLocked_spec (set_obj id (mkRd (pos (go_manual o)) target (manual (go_manual o)) (endLimit (go_manual o)))
      (set_obj id (go_manual o) r)) hist) as (E1 & E2 & E3 & E4 & E5 & E6 & E7).
    + apply set_obj_ok; [done|]. intros Hid. cbn in Hid |- *. unfold effectivePin. cbn. rewrite Hman.
      pose proof (pinned_lookup _ hist id (go_manual o) Hg) as Hp'. cbn in Hp'. rewrite lookup_insert_eq in Hp'.
      specialize (Hp' eq_refl Hid). cbn in Hp'. unfold effectivePin in Hp'. rewrite Hman in Hp'. lia.
    + split_and!; try done. eexists. rewrite E3. cbn. rewrite insert_insert_eq. split_and!; try done.
Qed.

Lemma NewReader_ok r hist id st lim r' :
  ring_ok r hist -> id ∉ readers r -> NewReader r id st lim = Ret r' ->
  ring_ok r' hist /\ same_stream r r' /\ head r' = head r /\ head r <= st /\
  readers r' = readers r ++ [id] /\ objs r' = <[id := mkRd st 0 false lim]> (objs r).
Proof.
  intros H Hid. unfold NewReader. destruct (Z.ltb_spec st (head r)) as [|Hst]; [done|]. intros [= <-].
  split; [|by split_and!]. split; cbn; try apply H. intros id' [Hin| ->%list_elem_of_singleton]%elem_of_app.
  - rewrite lookup_insert_ne by congruence. by apply (ok_readers _ _ H).
  - eexists. rewrite lookup_insert_eq. split; [done|]. cbn. lia.
Qed.

Lemma CloseReader_ok r hist id :
  ring_ok r hist ->
  ring_ok (CloseReader id r) hist /\ same_stream r (CloseReader id r) /\ objs (CloseReader id r) = objs r /\
  (forall x, x ∈ readers (CloseReader id r) -> x ∈ readers r).
Proof.
  intros H. unfold CloseReader.
  assert (Hsub : forall l x, x ∈ remove_first id l -> x ∈ l).
  { induction l as [|y l IH]; intros x Hx; [done|]. cbn in Hx. destruct (y =? id)%nat; [by right|].
    apply elem_of_cons in Hx as [->|Hx]; [by left|right; by apply IH]. }
  destruct (evictLocked_spec (set_readers (remove_first id (readers r)) r) hist) as (H1 & H2 & H3 & H4 & H5 & H6 & _).
  - split; cbn; try apply H. intros id' Hid'. by apply (ok_readers _ _ H), Hsub.
  - split_and!; try done. rewrite H2. cbn. by apply Hsub.
Qed.

(** ** Reading *)

Lemma find_chunk r hist o c :
  ring_ok r hist -> findChunkLocked r o = Some c ->
  exists pre post, hist = pre ++ data c ++ post /\ len pre = start c /\ start c <= pos o < c_end c.
Proof.
  intros H Hf. unfold findChunkLocked in Hf. apply List.find_some in Hf as [Hin Hb].
  apply andb_prop in Hb as [H1%Z.leb_le H2%Z.ltb_lt].
  apply in_split in Hin as (a & b & Eab). pose proof (ok_contig _ _ H) as Hc.
  pose proof (ok_data _ _ H) as Hd. rewrite Eab in Hc, Hd.
  apply contig_app in Hc as (m & Hm1 & Hm2 & _). rewrite map_app, concat_app in Hd. cbn in Hd.
  exists (take (Z.to_nat (head r)) hist ++ concat (map data a)), (concat (map data b)).
  rewrite <- !app_assoc, Hd, take_drop, len_app, (len_concat_data _ _ _ Hm1).
  split_and!; try done; try lia. pose proof (contig_le _ _ _ (ok_contig _ _ H)).
  pose proof (ok_tail _ _ H). pose proof (ok_head _ _ H). rewrite len_take_nonneg by lia. lia.
Qed.

Lemma find_chunk_live r hist o :
  ring_ok r hist -> head r <= pos o < tail r -> is_Some (findChunkLocked r o).
Proof.
  intros H Hp. unfold findChunkLocked. pose proof (ok_contig _ _ H) as Hc.
  revert Hc Hp. generalize (head r) as h. induction (chunks r) as [|c cs IH]; intros h Hc Hp; cbn in Hc; [lia|].
  cbn. destruct Hc as (<- & Hl & Hc). destruct (_ && _) eqn:E; [by eexists|].
  apply (IH _ Hc). apply andb_false_iff in E as [E%Z.leb_gt|E%Z.ltb_ge]; lia.
Qed.

(** What one call of [Read] returns. *)
Definition read_ok (r r' : chunkRing) (hist : bytes) (n : Z) (o : chunkRingReader) (id : nat) (res : rresult) : Prop :=
  match res with
  | RData b => exists suff o', drop (Z.to_nat (pos o)) hist = b ++ suff /\ len b <= n /\
      (0 < n -> b <> []) /\ (0 <= endLimit o -> pos o + len b <= endLimit o) /\
      objs r' = <[id := o']> (objs r) /\ pos o' = pos o + len b /\ endLimit o' = endLimit o
  | RWait => r' = r /\ tail r <= pos o /\ closed r = false
  | RError e => r' = r /\
      (e = EOF /\ 0 <= endLimit o <= pos o \/
       e = match ring_err r with Some e => e | None => EOF end /\ closed r = true /\ tail r <= pos o \/
       e = evicted_under /\ pos o < head r)
  end.

Lemma Read_spec r hist n id o res r' :
  ring_ok r hist -> objs r !! id = Some o -> 0 <= n ->
  Read n o id r = (res, r') ->
  ring_ok r' hist /\ same_stream r r' /\ read_ok r r' hist n o id res /\ head r <= head r' /\
  readers r' = readers r.
Proof.
  intros H Ho Hn. unfold Read. destruct (_ && _) eqn:Elim.
  { intros [= <- <-]. apply andb_prop in Elim as [?%Z.leb_le ?%Z.leb_le]. split; [done|]. split; [done|]. split; [|done].
    split; [done|]. left. split; [done|lia]. }
  assert (Hlim : 0 <= endLimit o -> pos o < endLimit o).
  { intros Hl. apply andb_false_iff in Elim as [?%Z.leb_gt|?%Z.leb_gt]; lia. }
  destruct (findChunkLocked r o) as [c|] eqn:Ef.
  - destruct (find_chunk r hist o c H Ef) as (pre & post & Eh & Hpre & Hpos). unfold c_end in Hpos.
    destruct (Z.leb_spec (len (data c) - (pos o - start c)) 0); [lia|].
    set (avail := len (data c) - (pos o - start c)) in *.
    set (t0 := if n <? avail then n else avail).
    assert (Ht0 : 0 <= t0 <= avail /\ t0 <= n /\ (0 < n -> 0 < t0)) by (unfold t0; destruct (Z.ltb_spec n avail); lia).
    set (t := if (0 <=? endLimit o) && (endLimit o <? pos o + t0) then endLimit o - pos o else t0).
    assert (Ht : 0 <= t <= avail /\ t <= n /\ (0 < n -> 0 < t) /\ (0 <= endLimit o -> pos o + t <= endLimit o)).
    { unfold t. destruct (Z.leb_spec 0 (endLimit o)); cbn [andb]; [|lia].
      destruct (Z.ltb_spec (endLimit o) (pos o + t0)); lia. }
    clearbody t t0. set (b := take _ _). intros [= <- <-].
    assert (Hb : len b = t).
    { unfold b. rewrite len_take_le; [lia|]. rewrite length_drop. unfold avail, len in *. lia. }
    pose proof (pinned_lookup r hist id o H Ho) as Hp.
    destruct (evictLocked_spec (set_obj id (mkRd (pos o + t) (pin o) (manual o) (endLimit o)) r) hist)
      as (H1 & H2 & H3 & H4 & H5 & H6 & H7).
    { apply set_obj_ok; [done|]. intros Hid. specialize (Hp Hid). unfold effectivePin in *. cbn.
      destruct (manual o); lia. }
    split; [done|]. split; [done|]. split; [|done]. cbn [read_ok]. rewrite Hb. eexists _, _. split.
    + rewrite Eh. unfold b. replace (Z.to_nat (pos o)) with (length pre + Z.to_nat (pos o - start c))%nat
        by (unfold len in Hpre; lia).
      rewrite <- drop_drop, drop_app_length, drop_app_le by (unfold avail, len in *; lia).
      rewrite <- (take_drop (Z.to_nat t) (drop _ (data c))) at 1. by rewrite <- app_assoc.
    + rewrite H3. split_and!; [lia| |tauto|done|done|done].
      intros Hn0 ->. rewrite len_nil in Hb. lia.
  - destruct (Z.ltb_spec (pos o) (head r)) as [Hlt|Hge].
    { intros [= <- <-]. split; [done|]. split; [done|]. split; [|done].
      split; [done|]. by right; right. }
    assert (Htail : tail r <= pos o).
    { destruct (Z.le_gt_cases (tail r) (pos o)); [done|].
      destruct (find_chunk_live r hist o H) as [? E]; [lia|congruence]. }
    destruct (closed r) eqn:Ecl; cbn [andb].
    + rewrite (proj2 (Z.leb_le _ _)) by done. intros [= <- <-]. split; [done|]. split; [done|]. split; [|done].
      split; [done|]. by right; left.
    + intros [= <- <-]. by split_and!.
Qed.

(** ** The system

    The ring with its clients: the bytes the producer still has to write in the
    current call, everything it has written so far, and for every reader object
    the offset it started at and the bytes it has received. *)
Record sys := mkSys {
  ring : chunkRing;
  pending : option bytes;
  written : bytes;
  got : gmap nat (Z * bytes)
}.

Definition with_ring (r : chunkRing) (s : sys) : sys := mkSys r (pending s) (written s) (got s).

(** Each critical section is one step; a section that waits leaves the lock and
    can be tried again later. *)
Inductive step : sys -> sys -> Prop :=
| st_write s p :
    pending s = None -> step s (mkSys (ring s) (Some p) (written s) (got s))
| st_write_blocked s p rest r' :
    pending s = Some p -> Write (ring s) p = (WBlocked rest, r') ->
    step s (mkSys r' (Some rest) (written s ++ take (length p - length rest) p) (got s))
| st_write_done s p rest e r' :
    pending s = Some p -> Write (ring s) p = (WReturned rest e, r') ->
    step s (mkSys r' None (written s ++ take (length p - length rest) p) (got s))
| st_close s e : step s (with_ring (Close (ring s) e) s)
| st_new s id st lim r' :
    objs (ring s) !! id = None -> NewReader (ring s) id st lim = Ret r' ->
    step s (mkSys r' (pending s) (written s) (<[id := (st, [])]> (got s)))
| st_read s id o n st out b r' :
    objs (ring s) !! id = Some o -> got s !! id = Some (st, out) -> 0 <= n ->
    Read n o id (ring s) = (RData b, r') ->
    step s (mkSys r' (pending s) (written s) (<[id := (st, out ++ b)]> (got s)))
| st_manual s id o :
    objs (ring s) !! id = Some o -> step s (with_ring (EnableManualPin o id (ring s)) s)
| st_advance s id o n :
    objs (ring s) !! id = Some o -> step s (with_ring (AdvancePin n o id (ring s)) s)
| st_setend s id o e :
    objs (ring s) !! id = Some o -> step s (with_ring (SetEnd e o id (ring s)) s)
| st_closereader s id : step s (with_ring (CloseReader id (ring s)) s).

Definition init_ring (cs mb : Z) : chunkRing := mkRing cs mb [] 0 0 false None [] [] ∅.
Definition init_sys (cs mb : Z) : sys := mkSys (init_ring cs mb) None [] ∅.

Definition reachable (cs mb : Z) (s : sys) : Prop := steps step (init_sys cs mb) s.

Record sys_ok (s : sys) : Prop := {
  sys_ring : ring_ok (ring s) (written s);
  sys_got : forall id st out, got s !! id = Some (st, out) ->
    exists o, objs (ring s) !! id = Some o /\ pos o = st + len out /\ 0 <= st /\
      prefix out (drop (Z.to_nat st) (written s))
}.

Lemma init_sys_ok cs mb : newChunkRing cs mb = Ret (init_ring cs mb) -> sys_ok (init_sys cs mb).
Proof.
  unfold newChunkRing. destruct (Z.leb_spec cs 0); [done|]. destruct (Z.ltb_spec mb cs); [done|]. intros _.
  assert (Hm : 0 <= mb / cs) by (apply Z.div_pos; lia).
  split; [|by intros id st out E; cbn in E; rewrite lookup_empty in E].
  split; cbn; unfold maxChunks, len; cbn; try lia; try done; try (by constructor).
  intros id Hid. by apply elem_of_nil in Hid.
Qed.

Lemma prefix_extend (out hist more : bytes) st :
  prefix out (drop st hist) -> prefix out (drop st (hist ++ more)).
Proof.
  intros [k E]. destruct (Nat.le_gt_cases st (length hist)) as [Hl|Hl].
  - rewrite drop_app_le by done. rewrite E, <- app_assoc. by exists (k ++ more).
  - rewrite (drop_ge hist) in E by lia. destruct out; [by apply prefix_nil|done].
Qed.

(** What the clients hold survives a step that only moves pins and limits. *)
Lemma got_kept s r' id o o' :
  sys_ok s -> objs (ring s) !! id = Some o -> objs r' = <[id := o']> (objs (ring s)) -> pos o' = pos o ->
  ring_ok r' (written s) -> sys_ok (with_ring r' s).
Proof.
  intros [H Hg] Ho Hobjs Hpos Hr. split; [done|]. cbn. intros x st out E.
  destruct (Hg x st out E) as (ox & Hox & H1 & H2 & H3). rewrite Hobjs.
  destruct (decide (x = id)) as [->|Hne].
  - exists o'. rewrite lookup_insert_eq. simplify_eq. split_and!; [done|congruence|done|done].
  - exists ox. by rewrite lookup_insert_ne.
Qed.

Lemma write_kept s d r' p :
  sys_ok s -> ring_ok r' (written s ++ d) -> objs r' = objs (ring s) -> sys_ok (mkSys r' p (written s ++ d) (got s)).
Proof.
  intros [H Hg] Hr Hobjs. split; [done|]. cbn. intros x st out E.
  destruct (Hg x st out E) as (ox & Hox & H1 & H2 & H3). exists ox. rewrite Hobjs.
  split_and!; try done. by apply prefix_extend.
Qed.

Lemma step_ok s s' : sys_ok s -> step s s' -> sys_ok s'.
Proof.
  intros Hs Hstep. pose proof (sys_ring s Hs) as H. inversion Hstep; subst.
  - destruct Hs as [H1 H2]. by split.
  - destruct (write_run_spec (length p) (ring s) (written s) p H (le_n _)) as
      (d & rest' & r2 & Ep & H2 & _ & Ho & _ & _ & _ & Hres). unfold Write in *.
    assert (rest' = rest /\ r2 = r') as [-> ->].
    { destruct Hres as [[E _]|[(E & _)|(E & _)]]; rewrite E in *; by simplify_eq. }
    subst p. rewrite length_app, Nat.add_sub, take_app_length. by apply write_kept.
  - destruct (write_run_spec (length p) (ring s) (written s) p H (le_n _)) as
      (d & rest' & r2 & Ep & H2 & _ & Ho & _ & _ & _ & Hres). unfold Write in *.
    assert (rest' = rest /\ r2 = r') as [-> ->].
    { destruct Hres as [[E ->]|[(E & _)|(E & _)]]; rewrite E in *; by simplify_eq. }
    subst p. rewrite length_app, Nat.add_sub, take_app_length. by apply write_kept.
  - destruct Hs as [H1 H2]. split; [|done]. split; cbn; apply H.
  - match goal with E : NewReader _ _ _ _ = _ |- _ => rename E into EN end.
    apply (NewReader_ok _ (written s)) in EN as (Hr & _ & Hh & Hst & _ & Hobjs); [|done|].
    + split; [done|]. cbn. intros x st' out E. rewrite Hobjs. destruct (decide (x = id)) as [->|Hne].
      * rewrite lookup_insert_eq in E. injection E as <- <-. eexists. cbn. pose proof (ok_head _ _ H).
        rewrite lookup_insert_eq. split_and!; [done|cbn; rewrite len_nil; lia|lia|apply prefix_nil].
      * rewrite lookup_insert_ne in E by done. rewrite lookup_insert_ne by done. by apply (sys_got s Hs).
    + intros Hin. destruct (ok_readers _ _ H _ Hin) as (? & ? & _). congruence.
  - match goal with E : Read _ _ _ _ = _ |- _ => rename E into ER end.
    match goal with E : got s !! id = _ |- _ => rename E into EG end.
    eapply Read_spec in ER as (Hr & _ & (suff & o' & Hd & _ & _ & _ & Hobjs & Hpos & _) & _); [|done..].
    destruct (sys_got s Hs _ _ _ EG) as (ox & Hox & G1 & G2 & [k G3]). simplify_eq.
    split; [done|]. cbn. intros x st' out' E. rewrite Hobjs. destruct (decide (x = id)) as [->|Hne].
    + rewrite lookup_insert_eq in E. injection E as <- <-. exists o'. rewrite lookup_insert_eq.
      split_and!; [done|rewrite len_app; lia|done|].
      exists suff. rewrite <- app_assoc, <- Hd, G1, G3.
      replace (Z.to_nat (st + len out)) with (Z.to_nat st + length out)%nat by (unfold len; lia).
      by rewrite <- drop_drop, G3, drop_app_length.
    + rewrite lookup_insert_ne in E by done. rewrite lookup_insert_ne by done. by apply (sys_got s Hs).
  - destruct (EnableManualPin_ok (ring s) (written s) id o H) as (Hr & _ & o' & Hobjs & Hpos & _); [done|].
    by eapply got_kept.
  - destruct (AdvancePin_ok (ring s) (written s) n id o H) as (Hr & _ & _ & _ & o' & Hobjs & Hpos & _); [done|].
    by eapply got_kept.
  - eapply (got_kept s _ id o _ Hs); [done|reflexivity|done|]. apply set_obj_ok; [done|].
    intros Hid. cbn in Hid |- *. pose proof (pinned_lookup _ _ id o H ltac:(done) Hid). unfold effectivePin in *.
    cbn. by destruct (manual o).
  - destruct (CloseReader_ok (ring s) (written s) id H) as (Hr & _ & Hobjs & _). destruct Hs as [_ Hg].
    split; [done|]. cbn. by rewrite Hobjs.
Qed.

Lemma reachable_ok cs mb s :
  newChunkRing cs mb = Ret (init_ring cs mb) -> reachable cs mb s -> sys_ok s.
Proof. intros Hnew. apply steps_invariant; [apply step_ok|by apply init_sys_ok]. Qed.

(** ** Executable schedules *)

Inductive op :=
| OWrite (p : bytes) | OResume | OClose (e : option goerr)
| ONew (id : nat) (st lim : Z) | ORead (id : nat) (n : Z)
| OManual (id : nat) | OAdvance (id : nat) (n : Z) | OSetEnd (id : nat) (e : Z) | OCloseReader (id : nat).

Definition exec (s : sys) (o : op) : option sys :=
  match o with
  | OWrite p =>
      match pending s with
      | Some _ => None
      | None => Some (mkSys (ring s) (Some p) (written s) (got s))
      end
  | OResume =>
      p ← pending s;
      match Write (ring s) p with
      | (WBlocked rest, r') => Some (mkSys r' (Some rest) (written s ++ take (length p - length rest) p) (got s))
      | (WReturned rest _, r') => Some (mkSys r' None (written s ++ take (length p - length rest) p) (got s))
      | (WNoFuel, _) => None
      end
  | OClose e => Some (with_ring (Close (ring s) e) s)
  | ONew id st lim =>
      match objs (ring s) !! id, NewReader (ring s) id st lim with
      | None, Ret r' => Some (mkSys r' (pending s) (written s) (<[id := (st, [])]> (got s)))
      | _, _ => None
      end
  | ORead id n =>
      o ← objs (ring s) !! id; g ← got s !! id;
      match Read n o id (ring s) with
      | (RData b, r') =>
          if 0 <=? n then Some (mkSys r' (pending s) (written s) (<[id := (fst g, snd g ++ b)]> (got s))) else None
      | _ => None
      end
  | OManual id => o ← objs (ring s) !! id; Some (with_ring (EnableManualPin o id (ring s)) s)
  | OAdvance id n => o ← objs (ring s) !! id; Some (with_ring (AdvancePin n o id (ring s)) s)
  | OSetEnd id e => o ← objs (ring s) !! id; Some (with_ring (SetEnd e o id (ring s)) s)
  | OCloseReader id => Some (with_ring (CloseReader id (ring s)) s)
  end.

Fixpoint execs (s : sys) (os : list op) : option sys :=
  match os with
  | [] => Some s
  | o :: r => s' ← exec s o; execs s' r
  end.

Lemma exec_step s o s' : exec s o = Some s' -> step s s'.
Proof.
  destruct o; cbn; intros E.
  - destruct (pending s) eqn:Ep; [done|]. injection E as <-. by constructor.
  - destruct (pending s) as [p|] eqn:Ep; [|done]. cbn in E.
    destruct (Write (ring s) p) as [[rest|rest e|] r'] eqn:Ew; [| |done]; injection E as <-; by econstructor.
  - injection E as <-. constructor.
  - destruct (objs (ring s) !! id) eqn:Eo; [done|].
    destruct (NewReader _ _ _ _) eqn:En; try done. injection E as <-. by econstructor.
  - destruct (objs (ring s) !! id) as [o|] eqn:Eo; [|done]. destruct (got s !! id) as [[st out]|] eqn:Eg; [|done].
    cbn in E. destruct (Read n o id (ring s)) as [[|b|e] r'] eqn:Er; try done.
    destruct (Z.leb_spec 0 n); [|done]. injection E as <-. by econstructor.
  - destruct (objs (ring s) !! id) eqn:Eo; [|done]. injection E as <-. by econstructor.
  - destruct (objs (ring s) !! id) eqn:Eo; [|done]. injection E as <-. by econstructor.
  - destruct (objs (ring s) !! id) eqn:Eo; [|done]. injection E as <-. by econstructor.
  - injection E as <-. constructor.
Qed.

Lemma execs_steps os : forall s s', execs s os = Some s' -> steps step s s'.
Proof.
  induction os as [|o os IH]; intros s s' E; cbn in E; [injection E as <-; constructor|].
  destruct (exec s o) as [s1|] eqn:E1; [|done]. econstructor; [by eapply exec_step|by apply IH].
Qed.

(** ** Properties *)

(** C33: Whatever the interleaving of writes, reads, evictions, pin moves and
    closes, the bytes a reader has received are exactly the produced stream from
    the offset it was created at: nothing lost, repeated or taken from a recycled
    slab. *)
Theorem reader_gets_stream cs mb s id st out :
  newChunkRing cs mb = Ret (init_ring cs mb) -> reachable cs mb s ->
  got s !! id = Some (st, out) -> prefix out (drop (Z.to_nat st) (written s)).
Proof.
  intros Hnew Hr Hg. destruct (sys_got s (reachable_ok cs mb s Hnew Hr) _ _ _ Hg) as (o & _ & _ & _ & H). done.
Qed.

(** C36: The memory bound: the bytes held never exceed [maxBytes], and the slabs -
    those in chunks and those pooled - never exceed it by more than one slab. *)
Theorem ring_memory_bounded cs mb s :
  newChunkRing cs mb = Ret (init_ring cs mb) -> reachable cs mb s ->
  let r := ring s in
  tail r - head r <= maxBytes r /\ len (concat (map data (chunks r))) = tail r - head r /\
  Forall (fun c => dcap c = chunkSize r) (chunks r) /\
  (len (chunks r) + len (freeBufs r)) * chunkSize r <= maxBytes r + chunkSize r.
Proof.
  intros Hnew Hr. pose proof (sys_ring s (reachable_ok cs mb s Hnew Hr)) as H. cbv zeta. split_and!.
  - apply H.
  - apply len_concat_data, H.
  - eapply Forall_impl; [apply H|]. by intros c [_ ?].
  - pose proof (ok_count _ _ H) as Hk. destruct (ok_sizes _ _ H) as [Hs _]. unfold maxChunks in Hk.
    pose proof (Z.mul_div_le (maxBytes (ring s)) (chunkSize (ring s)) Hs). nia.
Qed.

(** A registered reader is never evicted under, and never waits while a byte it
    wants is there: each read returns at least one byte; or it has everything
    produced so far and waits; or it has reached its end limit; or the ring is
    closed and drained. *)
Theorem registered_read_live cs mb s id o st out n res r' :
  newChunkRing cs mb = Ret (init_ring cs mb) -> reachable cs mb s ->
  id ∈ readers (ring s) -> objs (ring s) !! id = Some o -> got s !! id = Some (st, out) ->
  0 < n -> Read n o id (ring s) = (res, r') ->
  match res with
  | RData b => b <> []
  | RWait => len (written s) <= st + len out /\ closed (ring s) = false
  | RError e =>
      e = EOF /\ 0 <= endLimit o <= st + len out \/
      e = default EOF (ring_err (ring s)) /\ closed (ring s) = true /\ len (written s) <= st + len out
  end.
Proof.
  intros Hnew Hr Hid Ho Hg Hn Hread. pose proof (reachable_ok cs mb s Hnew Hr) as Hs.
  pose proof (sys_ring s Hs) as H. destruct (sys_got s Hs _ _ _ Hg) as (o' & Ho' & Hpos & _). simplify_eq.
  eapply Read_spec in Hread as (_ & _ & Hres & _); [|done|done|lia].
  rewrite <- (ok_tail _ _ H), <- Hpos. destruct res as [|b|e]; cbn in Hres.
  - tauto.
  - destruct Hres as (? & ? & _ & _ & Hne & _). by apply Hne.
  - destruct Hres as (_ & [?|[?|[_ Hlt]]]); [by left|right|].
    + by destruct (ring_err (ring s)).
    + pose proof (pinned_lookup _ _ id o H Ho Hid). lia.
Qed.

(** [Write] appends exactly the bytes it takes, in order, and stops only when
    all are written, when the ring is closed, or - waiting - when the ring holds
    [maxBytes]; its loop takes no more turns than there are bytes. *)
Theorem Write_appends cs mb s p :
  newChunkRing cs mb = Ret (init_ring cs mb) -> reachable cs mb s ->
  exists taken rest r', p = taken ++ rest /\ ring_ok r' (written s ++ taken) /\
    (Write (ring s) p = (WReturned [] None, r') /\ rest = [] \/
     Write (ring s) p = (WBlocked rest, r') /\ rest <> [] /\ tail r' - head r' = maxBytes r' \/
     Write (ring s) p = (WReturned rest (Some closed_ring), r') /\ rest <> [] /\ closed (ring s) = true).
Proof.
  intros Hnew Hr. pose proof (sys_ring s (reachable_ok cs mb s Hnew Hr)) as H.
  destruct (write_run_spec (length p) _ _ p H (le_n _)) as (d & rest & r' & E & H' & _ & _ & _ & _ & _ & Hres).
  exists d, rest, r'. split_and!; [done|done|]. unfold Write. tauto.
Qed.

(** A byte some registered reader has not committed yet can still be read by a
    reader created there: [NewReader] at or above any registered reader's
    effective pin is admitted, and finds the byte if it was produced. *)
Theorem NewReader_at_pin cs mb s id o id' st lim :
  newChunkRing cs mb = Ret (init_ring cs mb) -> reachable cs mb s ->
  id ∈ readers (ring s) -> objs (ring s) !! id = Some o -> effectivePin o <= st ->
  exists r', NewReader (ring s) id' st lim = Ret r' /\
    (st < len (written s) -> exists c, findChunkLocked r' (mkRd st 0 false lim) = Some c).
Proof.
  intros Hnew Hr Hid Ho Hst. pose proof (sys_ring s (reachable_ok cs mb s Hnew Hr)) as H.
  pose proof (pinned_lookup _ _ id o H Ho Hid) as Hp. unfold NewReader.
  rewrite (proj2 (Z.ltb_ge st _)) by lia. eexists. split; [done|]. intros Hlt.
  destruct (find_chunk_live (ring s) (written s) (mkRd st 0 false lim) H) as [c Hc].
  - cbn. rewrite (ok_tail _ _ H). lia.
  - by exists c.
Qed.

(** Nothing makes room in a ring without readers: once it is full, the producer
    waits through every step but the creation of a reader and [Close]. *)
Definition stuck_full (s : sys) : Prop :=
  readers (ring s) = [] /\ closed (ring s) = false /\ maxBytes (ring s) <= tail (ring s) - head (ring s) /\
  exists b rest, pending s = Some (b :: rest).

Lemma evict_no_readers r : readers r = [] -> evictLocked r = r.
Proof. unfold evictLocked, reader_pins. by intros ->. Qed.

Lemma stuck_write r b rest : closed r = false -> maxBytes r <= tail r - head r -> Write r (b :: rest) = (WBlocked (b :: rest), r).
Proof. intros Hc Hm. unfold Write. cbn [write_run length]. unfold write_turn. by rewrite Hc, (proj2 (Z.leb_le _ _) Hm). Qed.

Lemma stuck_step s s' : stuck_full s -> step s s' ->
  stuck_full s' \/ readers (ring s') <> [] \/ closed (ring s') = true.
Proof.
  intros (Hr & Hc & Hm & b & rest & Hp) Hs.
  destruct Hs as [s0 q E|s0 q rst r' E EW|s0 q rst x r' E EW|s0 x|s0 id st lim r' E EN|s0 id o n st out d r' E Eg En ER
    |s0 id o E|s0 id o n E|s0 id o x E|s0 id].
  - congruence.
  - rewrite Hp in E. injection E as <-. rewrite (stuck_write _ _ _ Hc Hm) in EW. injection EW as <- <-.
    left. split_and!; [done..|]. by exists b, rest.
  - rewrite Hp in E. injection E as <-. by rewrite (stuck_write _ _ _ Hc Hm) in EW.
  - by right; right.
  - right; left. unfold NewReader in EN. destruct (_ <? _); [done|]. injection EN as <-. cbn. by destruct (readers _).
  - left. unfold Read in ER. destruct (_ && _); [done|]. destruct (findChunkLocked _ _); [|by repeat case_match].
    destruct (_ <=? 0); [done|]. injection ER as _ <-. rewrite evict_no_readers by done. split_and!; [done..|]. by exists b, rest.
  - left. split_and!; [done..|]. by exists b, rest.
  - left. cbn. unfold AdvancePin. destruct (n <=? 0); [|destruct (_ <=? _); [|rewrite evict_no_readers by done]];
      (split_and!; [done..|]; by exists b, rest).
  - left. split_and!; [done..|]. by exists b, rest.
  - left. cbn. unfold CloseReader. rewrite evict_no_readers by (cbn; by rewrite Hr). unfold stuck_full. cbn. rewrite Hr.
    split_and!; [done..|]. by exists b, rest.
Qed.

(** ** A concrete schedule: the producer blocks on a full ring and goes on when
    the reader commits *)

Definition sample_ops : list op :=
  [OWrite (str "abcdefghij"); OResume; ONew 0 0 (-1); OManual 0; ORead 0 6; ORead 0 6;
   OAdvance 0 5; OResume; ORead 0 6].

Definition sample_sys : sys := default (init_sys 4 8) (execs (init_sys 4 8) sample_ops).

Lemma sample_reachable : reachable 4 8 sample_sys.
Proof.
  apply (execs_steps sample_ops). unfold sample_sys.
  destruct (execs (init_sys 4 8) sample_ops) eqn:E; [done|]. vm_compute in E. discriminate E.
Qed.

Lemma reader_gets_stream_witness :
  got sample_sys !! 0%nat = Some (0, str "abcdefghij") /\
  prefix (str "abcdefghij") (drop (Z.to_nat 0) (written sample_sys)).
Proof.
  split; [vm_compute; reflexivity|].
  apply (reader_gets_stream 4 8 sample_sys 0%nat 0 (str "abcdefghij"));
    [reflexivity|exact sample_reachable|vm_compute; reflexivity].
Defined.

Lemma ring_memory_bounded_witness :
  tail (ring sample_sys) = 10 /\ head (ring sample_sys) = 4 /\
  (len (chunks (ring sample_sys)) + len (freeBufs (ring sample_sys))) * chunkSize (ring sample_sys)
    <= maxBytes (ring sample_sys) + chunkSize (ring sample_sys).
Proof.
  split; [vm_compute; reflexivity|]. split; [vm_compute; reflexivity|].
  destruct (ring_memory_bounded 4 8 sample_sys) as (_ & _ & _ & H);
    [reflexivity|exact sample_reachable|exact H].
Defined.

Lemma registered_read_live_witness :
  exists r', Read 6 (mkRd 10 5 true (-1)) 0 (ring sample_sys) = (RWait, r') /\
    len (written sample_sys) <= 0 + len (str "abcdefghij") /\ closed (ring sample_sys) = false.
Proof.
  destruct (Read 6 (mkRd 10 5 true (-1)) 0 (ring sample_sys)) as [res r'] eqn:E. exists r'.
  assert (Hres : res = RWait) by (apply (f_equal fst) in E; vm_compute in E; symmetry; exact E). subst res.
  split; [reflexivity|].
  apply (registered_read_live 4 8 sample_sys 0%nat (mkRd 10 5 true (-1)) 0 (str "abcdefghij") 6 RWait r').
  - reflexivity.
  - exact sample_reachable.
  - vm_compute. by left.
  - vm_compute. reflexivity.
  - vm_compute. reflexivity.
  - lia.
  - exact E.
Defined.

Lemma Write_appends_witness :
  exists taken rest r', str "klmnopq" = taken ++ rest /\
    ring_ok r' (written sample_sys ++ taken) /\ Write (ring sample_sys) (str "klmnopq") = (WBlocked rest, r').
Proof.
  destruct (Write_appends 4 8 sample_sys (str "klmnopq")) as (t & rest & r' & E & H & Hres);
    [reflexivity|exact sample_reachable|].
  exists t, rest, r'. split; [exact E|]. split; [exact H|].
  destruct Hres as [[Hw _]|[[Hw _]|[Hw _]]]; [|exact Hw|];
    apply (f_equal fst) in Hw; vm_compute in Hw; discriminate Hw.
Defined.

Lemma NewReader_at_pin_witness :
  exists r', NewReader (ring sample_sys) 1 7 (-1) = Ret r' /\
    (7 < len (written sample_sys) -> exists c, findChunkLocked r' (mkRd 7 0 false (-1)) = Some c).
Proof.
  apply (NewReader_at_pin 4 8 sample_sys 0%nat (mkRd 10 5 true (-1)) 1%nat 7 (-1)).
  - reflexivity.
  - exact sample_reachable.
  - vm_compute. by left.
  - vm_compute. reflexivity.
  - vm_compute. discriminate.
Defined.
