(* ===== verification/Scheduler.v ===== *)
(** * The chunk download scheduler (internal/snapfetch/download.go)

    Event handlers over one state: which chunks are pending, in flight and
    completed, and what is known of each peer.  The switch, the reactor, the
    manager and the file system are the environment of each call ([env]); Go's
    map iteration order is an argument wherever the code ranges over a map.  The
    main theorems: whatever peers send and in whatever order, a completed chunk
    is on disk and matches its hash, every chunk is always pending, in flight or
    completed, and peers are picked within their limits. *)

From S2P Require Import Prelude Sha256.

Abbreviation peerID := (list Init.Byte.byte).

(** ** Peers *)

Record peerStat := mkStat {
  inflight_n : Z;
  failures : Z;
  banned : bool;
  provisional : bool;
  chunks_served : Z;
  wasGood : bool;
  banReason : string;
  declined : gset Z
}.

Definition new_stat : peerStat := mkStat 0 0 false false 0 false "" ∅.

Definition set_inflight n (st : peerStat) : peerStat :=
  mkStat n (failures st) (banned st) (provisional st) (chunks_served st) (wasGood st) (banReason st) (declined st).
Definition set_ban b p f (st : peerStat) : peerStat :=
  mkStat (inflight_n st) f b p (chunks_served st) (wasGood st) (banReason st) (declined st).
Definition set_reason r (st : peerStat) : peerStat :=
  mkStat (inflight_n st) (failures st) (banned st) (provisional st) (chunks_served st) (wasGood st) r (declined st).
Definition set_declined d (st : peerStat) : peerStat :=
  mkStat (inflight_n st) (failures st) (banned st) (provisional st) (chunks_served st) (wasGood st) (banReason st) d.
Definition set_served n (st : peerStat) : peerStat :=
  mkStat (inflight_n st) (failures st) (banned st) (provisional st) n (wasGood st) (banReason st) (declined st).

Definition addInflight (st : peerStat) : peerStat := set_inflight (inflight_n st + 1) st.

Definition removeInflight (st : peerStat) : peerStat :=
  if 0 <? inflight_n st then set_inflight (inflight_n st - 1) st else st.

Definition clearInflight (st : peerStat) : peerStat := set_inflight 0 st.

Definition failureLimit (proven provisional_ : Z) (st : peerStat) : Z :=
  if provisional st then provisional_ else proven.

Definition recordFailure (limit : Z) (st : peerStat) : bool * peerStat :=
  if banned st then (false, st) else
  let f := failures st + 1 in
  if limit <=? f then (true, set_ban true (provisional st) f st)
  else (false, set_ban false (provisional st) f st).

Definition promote (st : peerStat) : bool * peerStat :=
  if provisional st then (true, set_ban (banned st) false (failures st) st) else (false, st).

Definition benchIfProvisional (st : peerStat) : bool * peerStat :=
  if provisional st then (true, set_ban true (provisional st) (failures st) st) else (false, st).

(** ** The scheduler *)

Record job := mkJob {
  j_height : Z;
  j_format : Z;
  j_chunks : Z;
  chunkHashes : list bytes;
  perPeer : Z;
  chunkTimeout : Z;
  peerFailLimit : Z;
  provisionalStrikes : Z;
  provisionalInflight : Z;
  maxDiskFails : Z;
  has_mgr : bool
}.

(** What the scheduler tells the rest of the program. *)
Inductive effect :=
| EPin (p : peerID)
| EBan (p : peerID) (reason : string)
| EDrop (p : peerID) (reason : string)
| ERecord (p : peerID)
| ERequest (p : peerID) (i : Z)
| EReady (i : Z).

Record sched := mkSched {
  pending : list bool;
  completed : list bool;
  inflight : gmap Z (peerID * Z);
  stats : gmap peerID peerStat;
  bytesTotal : Z;
  doneCount : Z;
  hadEvent : bool;
  diskFails : Z;
  firstDiskErr : option goerr;
  disk : gmap bytes bytes;
  effects : list effect
}.

Definition set_pending p (s : sched) : sched :=
  mkSched p (completed s) (inflight s) (stats s) (bytesTotal s) (doneCount s) (hadEvent s)
    (diskFails s) (firstDiskErr s) (disk s) (effects s).
Definition set_inflights m (s : sched) : sched :=
  mkSched (pending s) (completed s) m (stats s) (bytesTotal s) (doneCount s) (hadEvent s)
    (diskFails s) (firstDiskErr s) (disk s) (effects s).
Definition set_stats m (s : sched) : sched :=
  mkSched (pending s) (completed s) (inflight s) m (bytesTotal s) (doneCount s) (hadEvent s)
    (diskFails s) (firstDiskErr s) (disk s) (effects s).
Definition set_event (s : sched) : sched :=
  mkSched (pending s) (completed s) (inflight s) (stats s) (bytesTotal s) (doneCount s) true
    (diskFails s) (firstDiskErr s) (disk s) (effects s).
Definition set_disk_fail e (s : sched) : sched :=
  mkSched (pending s) (completed s) (inflight s) (stats s) (bytesTotal s) (doneCount s) (hadEvent s)
    (diskFails s + 1) (match firstDiskErr s with None => Some e | Some e' => Some e' end)
    (disk s) (effects s).
Definition set_done c d i (data : bytes) (s : sched) : sched :=
  mkSched (pending s) c (inflight s) (stats s) (u64 (bytesTotal s + len data)) (u32 (doneCount s + 1))
    (hadEvent s) (diskFails s) (firstDiskErr s) d (effects s ++ [EReady i]).
Definition emit e (s : sched) : sched :=
  mkSched (pending s) (completed s) (inflight s) (stats s) (bytesTotal s) (doneCount s) (hadEvent s)
    (diskFails s) (firstDiskErr s) (disk s) (effects s ++ [e]).
Definition set_disk d (s : sched) : sched :=
  mkSched (pending s) (completed s) (inflight s) (stats s) (bytesTotal s) (doneCount s) (hadEvent s)
    (diskFails s) (firstDiskErr s) d (effects s).

(** [l[i] = v] and [l[i]] for an index in range. *)
Definition put {A} (i : Z) (v : A) (l : list A) : list A := <[Z.to_nat i := v]> l.
Definition at_ (l : list bool) (i : Z) : bool := default false (l !! Z.to_nat i).

(** ** File names *)

Definition has_prefix (p s : bytes) : bool := bool_decide (take (length p) s = p).
Definition has_suffix (p s : bytes) : bool :=
  (len p <=? len s) && bool_decide (drop (length s - length p) s = p).
Definition trim_prefix (p s : bytes) : bytes := if has_prefix p s then drop (length p) s else s.
Definition trim_suffix (p s : bytes) : bytes :=
  if has_suffix p s then take (length s - length p) s else s.

(** [strconv.ParseUint(s, 10, 32)], as an option. *)
Fixpoint parse_digits (s : bytes) (acc : Z) : option Z :=
  match s with
  | [] => Some acc
  | c :: r =>
      let d := byte.unsigned c - 48 in
      if (0 <=? d) && (d <=? 9) then
        let v := acc * 10 + d in if v <? 2 ^ 32 then parse_digits r v else None
      else None
  end.

Definition ParseUint32 (s : bytes) : option Z :=
  match s with [] => None | _ => parse_digits s 0 end.

(** [fmt.Sprintf("chunk_%05d.bin", idx)]. *)
Definition pad5 (l : bytes) : bytes := replicate (5 - length l) (byte.of_Z 48) ++ l.
Definition chunk_name (idx : Z) : bytes := str "chunk_" ++ pad5 (decimal idx) ++ str ".bin".

(** The environment of one handler call.  [connected] is [sw.Peers().Get(p) != nil]
    while peers are picked, [still_connected] the same test repeated just before
    the request; [ban_known] is the manager's answer; [order i] is the order in
    which the peer map is visited when a peer for chunk [i] is picked. *)
Record env := mkEnv {
  now : Z;
  connected : peerID -> bool;
  still_connected : peerID -> bool;
  accepts : peerID -> Z -> bool;
  ban_known : peerID -> bool;
  write_err : Z -> option goerr;
  can_read : bytes -> bool;
  can_remove : bytes -> bool;
  order : Z -> list peerID;
  peer_list : list peerID
}.

Section Scheduler.
Context (j : job).

Definition upd_stat (p : peerID) (f : peerStat -> peerStat) (s : sched) : sched :=
  match stats s !! p with
  | Some st => set_stats (<[p := f st]> (stats s)) s
  | None => s
  end.

Definition banAndDrop (e : env) (p : peerID) (reason : string) (s : sched) : sched :=
  let s := upd_stat p (fun st => if String.eqb (banReason st) "" then set_reason reason st else st) s in
  let s := if has_mgr j then emit (EBan p reason) s else s in
  if connected e p then emit (EDrop p reason) s else s.

Definition addProvisional (p : peerID) (s : sched) : sched :=
  match stats s !! p with
  | Some _ => s
  | None =>
      let s := set_stats (<[p := set_ban false true 0 new_stat]> (stats s)) s in
      if has_mgr j then emit (EPin p) s else s
  end.

(** ** Picking a peer *)

Record best := mkBest { b_proven : peerID; b_proven_n : Z; b_provis : peerID; b_provis_n : Z }.

Definition eligible (e : env) (s : sched) (i : Z) (skip : gset peerID) (p : peerID) : bool :=
  match stats s !! p with
  | None => false
  | Some st =>
      negb (banned st) && negb (bool_decide (p ∈ skip)) && negb (bool_decide (i ∈ declined st))
      && connected e p
  end.

Definition consider (e : env) (s : sched) (i : Z) (skip : gset peerID) (b : best) (p : peerID) : best :=
  match stats s !! p with
  | None => b
  | Some st =>
      if negb (eligible e s i skip p) then b
      else if provisional st then
        if inflight_n st <? b_provis_n b
        then mkBest (b_proven b) (b_proven_n b) p (inflight_n st) else b
      else
        if inflight_n st <? b_proven_n b
        then mkBest p (inflight_n st) (b_provis b) (b_provis_n b) else b
  end.

Definition pickPeer (e : env) (i : Z) (skip : gset peerID) (s : sched) : peerID :=
  let b := fold_left (consider e s i skip) (order e i)
             (mkBest [] (perPeer j + 1) [] (provisionalInflight j + 1)) in
  if b_proven_n b <? perPeer j then b_proven b
  else if b_provis_n b <=? provisionalInflight j then b_provis b
  else [].

(** ** Dispatching: one turn per chunk index *)

Fixpoint dispatch_from (e : env) (n : nat) (i : Z) (skip : gset peerID) (s : sched) : sched :=
  match n with
  | O => s
  | S n =>
      if negb (at_ (pending s) i) then dispatch_from e n (i + 1) skip s else
      let p := pickPeer e i skip s in
      if bool_decide (p = []) then s
      else if negb (still_connected e p) then
        dispatch_from e n (i + 1) skip
          (upd_stat p (fun st => set_ban true (provisional st) (failures st) st) s)
      else if negb (accepts e p i) then dispatch_from e n (i + 1) ({[p]} ∪ skip) s
      else
        let s := emit (ERequest p i) s in
        let s := set_pending (put i false (pending s)) s in
        let s := set_inflights (<[i := (p, now e)]> (inflight s)) s in
        dispatch_from e n (i + 1) skip (upd_stat p addInflight s)
  end.

Definition dispatch (e : env) (s : sched) : sched :=
  dispatch_from e (Z.to_nat (j_chunks j)) 0 ∅ s.

(** ** Events *)

Definition onConnect (e : env) (p : peerID) (s : sched) : sched :=
  dispatch e (if connected e p then addProvisional p s else s).

Definition release (idx : Z) (s : sched) : sched :=
  set_pending (put idx true (pending s)) (set_inflights (delete idx (inflight s)) s).

Definition onRemoved (e : env) (p : peerID) (visit : list Z) (s : sched) : sched :=
  let s := fold_left (fun s idx =>
      match inflight s !! idx with
      | Some (q, _) => if bool_decide (q = p) then release idx s else s
      | None => s
      end) visit s in
  dispatch e (upd_stat p clearInflight s).

(** One expired entry of the in-flight table. *)
Definition expire (e : env) (s : sched) (idx : Z) : sched :=
  match inflight s !! idx with
  | None => s
  | Some (p, sent) =>
      if now e - sent <=? chunkTimeout j then s else
      let s := upd_stat p removeInflight s in
      let s :=
        match stats s !! p with
        | Some st =>
            let '(benched, st) := benchIfProvisional st in
            let s := set_stats (<[p := st]> (stats s)) s in
            if benched then banAndDrop e p "probe timeout" s else s
        | None => s
        end in
      release idx s
  end.

Definition mirrorBans (e : env) (s : sched) : sched :=
  set_stats (map_imap (fun p st =>
    Some (if negb (banned st) && has_mgr j && ban_known e p
          then set_ban true (provisional st) (failures st) st else st)) (stats s)) s.

Definition onTimeoutTick (e : env) (visit : list Z) (s : sched) : sched :=
  let s := fold_left (expire e) visit s in
  let s := mirrorBans e s in
  dispatch e (fold_left (fun s p => addProvisional p s) (peer_list e) s).

Record chunkMsg := mkChunkMsg {
  c_height : Z; c_format : Z; c_index : Z; c_bytes : bytes; c_missing : bool
}.

(** The verified chunk is written and counted. *)
Definition storeChunk (e : env) (idx : Z) (data : bytes) (s : sched) : sched :=
  match write_err e idx with
  | Some err => dispatch e (set_pending (put idx true (pending s)) (set_disk_fail err s))
  | None =>
      dispatch e (set_done (put idx true (completed s)) (<[chunk_name idx := data]> (disk s)) idx data s)
  end.

Definition onChunk (e : env) (peer : peerID) (c : chunkMsg) (s : sched) : outcome sched :=
  if negb (c_height c =? j_height j) || negb (c_format c =? j_format j) then Ret s else
  let s := set_event s in
  let idx := c_index c in
  let s := match stats s !! peer with
           | Some _ => s
           | None => set_stats (<[peer := new_stat]> (stats s)) s
           end in
  let s := match inflight s !! idx with
           | Some (q, _) => if bool_decide (q = peer) then set_inflights (delete idx (inflight s)) s else s
           | None => s
           end in
  let s := upd_stat peer removeInflight s in
  if negb ((0 <=? idx) && (idx <? len (completed s))) then Panic "index out of range" else
  if at_ (completed s) idx then Ret s else
  let st := default new_stat (stats s !! peer) in
  let limit := failureLimit (peerFailLimit j) (provisionalStrikes j) st in
  if c_missing c || (len (c_bytes c) =? 0) then
    let s := upd_stat peer (fun st => set_declined ({[idx]} ∪ declined st) st) s in
    Ret (dispatch e (set_pending (put idx true (pending s)) s))
  else
    match chunkHashes j !! Z.to_nat idx with
    | None => Panic "index out of range"
    | Some want =>
        if negb (bool_decide (sha256 (c_bytes c) = want)) then
          _ ← go_slice want 0 8;
          let '(ban, st') := recordFailure limit st in
          let s := upd_stat peer (fun _ => st') s in
          let s := if ban then banAndDrop e peer "chunk hash mismatch" s else s in
          Ret (dispatch e (set_pending (put idx true (pending s)) s))
        else
          let s := upd_stat peer (fun st =>
            let st := snd (promote st) in
            set_ban (banned st) (provisional st) 0 (set_served (chunks_served st + 1) st)) s in
          let s := if connected e peer then emit (ERecord peer) s else s in
          Ret (storeChunk e idx (c_bytes c) s)
    end.

(** ** Start and stop *)

(** One directory entry of [resumeFromDisk]; the counters are (resumed, removed).
    A file is removed if the file system lets it. *)
Definition drop_file (e : env) (name : bytes) (x : sched * (Z * Z)) : sched * (Z * Z) :=
  let '(s, (resumed, removed)) := x in
  if can_remove e name then (set_disk (delete name (disk s)) s, (resumed, removed + 1)) else x.

Definition resumeEntry (e : env) (x : sched * (Z * Z)) (entry : bytes * bool) : sched * (Z * Z) :=
  let '(name, isDir) := entry in
  let '(s, (resumed, removed)) := x in
  if isDir then x
  else if (has_prefix (str ".chunk_") name && has_suffix (str ".tmp") name)
       || (has_prefix (str "chunk_") name && has_suffix (str ".bin.tmp") name)
  then drop_file e name x
  else if negb (has_prefix (str "chunk_") name) then x
  else if negb (has_suffix (str ".bin") name) then x
  else match ParseUint32 (trim_suffix (str ".bin") (trim_prefix (str "chunk_") name)) with
  | None => x
  | Some idx =>
      if j_chunks j <=? idx then drop_file e name x
      else if at_ (completed s) idx then x
      else match (if can_read e name then disk s !! name else None) with
      | None => x
      | Some data =>
          if bool_decide (chunkHashes j !! Z.to_nat idx = Some (sha256 data)) then
            (set_pending (put idx false (pending s))
               (set_done (put idx true (completed s)) (disk s) idx data s),
             (resumed + 1, removed))
          else drop_file e name x
      end
  end.

Definition resumeFromDisk (e : env) (entries : list (bytes * bool)) (s : sched) : sched * (Z * Z) :=
  fold_left (resumeEntry e) entries (s, (0, 0)).

Definition init_sched (files : gmap bytes bytes) : sched :=
  mkSched (replicate (Z.to_nat (j_chunks j)) true) (replicate (Z.to_nat (j_chunks j)) false)
    ∅ ∅ 0 0 false 0 None files [].

Definition init (e : env) (good : list peerID) (files : gmap bytes bytes)
    (entries : list (bytes * bool)) : sched :=
  let s := fold_left (fun s p => set_stats (<[p := mkStat 0 0 false false 0 true "" ∅]> (stats s)) s)
             good (init_sched files) in
  let s := if has_mgr j
           then fold_left (fun s p => if connected e p then emit (EPin p) s else s) good s else s in
  let s := fold_left (fun s p => addProvisional p s) (peer_list e) s in
  let '(s, _) := resumeFromDisk e entries s in
  dispatch e s.

(** The tests at the head of the run loop. *)
Inductive status := Done (bytes : Z) | DiskFailed | AllBanned | Running.

Definition alive (s : sched) : Z :=
  Z.of_nat (size (filter (fun x : peerID * peerStat => banned (snd x) = false) (stats s))).

Definition run_status (s : sched) : status :=
  if negb (doneCount s <? j_chunks j) then Done (bytesTotal s)
  else if (0 <? maxDiskFails j) && (maxDiskFails j <=? diskFails s) then DiskFailed
  else if alive s =? 0 then AllBanned
  else Running.

(** An event delivered to the loop. *)
Inductive event :=
| EvConnect (p : peerID)
| EvRemoved (p : peerID) (visit : list Z)
| EvChunk (p : peerID) (c : chunkMsg)
| EvTick (visit : list Z).

Definition handle (e : env) (ev : event) (s : sched) : outcome sched :=
  match ev with
  | EvConnect p => Ret (onConnect e p s)
  | EvRemoved p visit => Ret (onRemoved e p visit s)
  | EvChunk p c => onChunk e p c s
  | EvTick visit => Ret (onTimeoutTick e visit s)
  end.

Fixpoint run (evs : list (env * event)) (s : sched) : outcome (status * sched) :=
  match run_status s, evs with
  | Running, (e, ev) :: r => s' ← handle e ev s; run r s'
  | st, _ => Ret (st, s)
  end.
End Scheduler.

(** ** Chunk file names *)

Definition name_index (name : bytes) : option Z :=
  if has_prefix (str "chunk_") name && has_suffix (str ".bin") name
  then ParseUint32 (trim_suffix (str ".bin") (trim_prefix (str "chunk_") name)) else None.

Lemma parse_digits_go x s : Z.of_N x < 2 ^ 32 -> (0 < x)%N -> parse_digits (str (pretty_N_go x s)) 0 = parse_digits (str s) (Z.of_N x).
Proof.
  intros Hx Hpos. apply (digits_go parse_digits (2 ^ 32 - 1)); [|lia..]. intros c r acc Hc Hacc. cbn [parse_digits].
  rewrite (proj2 (Z.leb_le 0 _)), (proj2 (Z.leb_le _ 9)) by lia. cbn [andb]. by rewrite (proj2 (Z.ltb_lt _ _)) by lia.
Qed.

Lemma parse_zeros n l : parse_digits (replicate n (byte.of_Z 48) ++ l) 0 = parse_digits l 0.
Proof. induction n as [|n IH]; [done|]. exact IH. Qed.

Lemma ParseUint32_decimal i : 0 <= i < 2 ^ 32 -> ParseUint32 (pad5 (decimal i)) = Some i.
Proof.
  intros Hi. assert (H : parse_digits (pad5 (decimal i)) 0 = Some i).
  { unfold pad5, decimal. rewrite parse_zeros. destruct (Z.eq_dec i 0) as [->|Hne]; [reflexivity|].
    rewrite pretty_nonneg by lia. rewrite parse_digits_go by lia. cbn. f_equal. lia. }
  unfold ParseUint32. destruct (pad5 (decimal i)) eqn:E; [|done].
  apply (f_equal length) in E. unfold pad5 in E. rewrite length_app, length_replicate in E. cbn in E. lia.
Qed.

Lemma name_index_chunk_name i : 0 <= i < 2 ^ 32 -> name_index (chunk_name i) = Some i.
Proof.
  intros Hi. unfold name_index, chunk_name. set (d := pad5 (decimal i)).
  assert (H1 : has_prefix (str "chunk_") (str "chunk_" ++ d ++ str ".bin") = true).
  { unfold has_prefix. by rewrite take_app_length, bool_decide_true. }
  assert (Hs : forall l, has_suffix (str ".bin") (l ++ str ".bin") = true).
  { intros l. unfold has_suffix. rewrite len_app, length_app, Nat.add_sub, drop_app_length.
    rewrite (proj2 (Z.leb_le _ _)) by (pose proof (len_nonneg l); lia). by rewrite bool_decide_true. }
  rewrite H1, (app_assoc _ d), Hs. cbn [andb]. unfold trim_prefix. rewrite <- app_assoc, H1, drop_app_length.
  unfold trim_suffix. rewrite Hs, length_app, Nat.add_sub, take_app_length. by apply ParseUint32_decimal.
Qed.

(** ** The invariant *)

Definition readies (s : sched) : list Z :=
  omap (fun e => match e with EReady i => Some i | _ => None end) (effects s).

(** The invariant is stated for files whose names satisfy [Q]. *)
Section Invariant.
Context (Q : bytes -> Prop).

(** File [name] holds chunk [i] and its hash is the one wanted. *)
Definition verified (j : job) (s : sched) (i : Z) : Prop :=
  exists name data, name_index name = Some i /\ Q name /\ disk s !! name = Some data /\
    chunkHashes j !! Z.to_nat i = Some (sha256 data).

Definition job_ok (j : job) : Prop :=
  0 <= j_chunks j < 2 ^ 32 /\ len (chunkHashes j) = j_chunks j /\
  (forall i, 0 <= i < 2 ^ 32 -> Q (chunk_name i)).

Record sched_ok (j : job) (s : sched) : Prop := {
  ok_plen : len (pending s) = j_chunks j;
  ok_clen : len (completed s) = j_chunks j;
  ok_verified : forall i, 0 <= i < j_chunks j -> at_ (completed s) i = true -> verified j s i;
  ok_cover : forall i, 0 <= i < j_chunks j ->
    at_ (completed s) i = true \/ at_ (pending s) i = true \/ is_Some (inflight s !! i);
  ok_ready : NoDup (readies s) /\ (forall i, i ∈ readies s <-> 0 <= i < j_chunks j /\ at_ (completed s) i = true);
  ok_done : doneCount s = len (readies s)
}.

(** Changes that touch only peers and messages to the environment. *)
Definition same_chunks (s s' : sched) : Prop :=
  pending s' = pending s /\ completed s' = completed s /\ inflight s' = inflight s /\
  disk s' = disk s /\ doneCount s' = doneCount s /\ readies s' = readies s.

Lemma same_chunks_refl s : same_chunks s s.
Proof. done. Qed.
Lemma same_chunks_trans s1 s2 s3 : same_chunks s1 s2 -> same_chunks s2 s3 -> same_chunks s1 s3.
Proof. unfold same_chunks. intuition congruence. Qed.
#[local] Hint Resolve same_chunks_refl : core.

Lemma same_chunks_ok j s s' : same_chunks s s' -> sched_ok j s -> sched_ok j s'.
Proof.
  intros (E1 & E2 & E3 & E4 & E5 & E6) H. split; rewrite ?E1, ?E2, ?E3, ?E5, ?E6; try apply H.
  intros i Hi Hc. destruct (ok_verified _ _ H i Hi Hc) as (n & d & ? & ? & ? & ?). exists n, d. by rewrite E4.
Qed.

Lemma emit_same e s : (forall i, e <> EReady i) -> same_chunks s (emit e s).
Proof.
  intros He. split_and!; try done. unfold readies. cbn. rewrite omap_app. cbn.
  destruct e; try (by rewrite app_nil_r). by destruct (He i).
Qed.

Lemma upd_stat_same p f s : same_chunks s (upd_stat p f s).
Proof. unfold upd_stat. by destruct (stats s !! p). Qed.

Lemma banAndDrop_same j e p r s : same_chunks s (banAndDrop j e p r s).
Proof.
  unfold banAndDrop. set (s1 := upd_stat _ _ s). assert (H1 : same_chunks s s1) by apply upd_stat_same.
  clearbody s1. assert (H2 : same_chunks s (if has_mgr j then emit (EBan p r) s1 else s1)).
  { destruct (has_mgr j); [|done]. eapply same_chunks_trans; [exact H1|by apply emit_same]. }
  destruct (connected e p); [|done]. eapply same_chunks_trans; [exact H2|by apply emit_same].
Qed.

Lemma addProvisional_same j p s : same_chunks s (addProvisional j p s).
Proof.
  unfold addProvisional. destruct (stats s !! p); [done|]. destruct (has_mgr j); [|done].
  eapply same_chunks_trans; [|by apply emit_same]. done.
Qed.

Lemma mirrorBans_same j e s : same_chunks s (mirrorBans j e s).
Proof. done. Qed.

Lemma fold_same {A} (f : sched -> A -> sched) l :
  (forall s a, same_chunks s (f s a)) -> forall s, same_chunks s (fold_left f l s).
Proof.
  intros Hf. induction l as [|a l IH]; intros s; [done|]. cbn.
  eapply same_chunks_trans; [apply Hf|apply IH].
Qed.

(** ** Flags *)

Lemma at_put i k v (l : list bool) : 0 <= i -> 0 <= k -> i < len l ->
  at_ (put i v l) k = if k =? i then v else at_ l k.
Proof.
  intros Hi Hk Hl. unfold at_, put. destruct (Z.eqb_spec k i) as [->|Hne].
  - by rewrite list_lookup_insert_eq by (unfold len in Hl; lia).
  - rewrite list_lookup_insert_ne by lia. done.
Qed.

Lemma len_put {A} i (v : A) l : len (put i v l) = len l.
Proof. unfold len, put. by rewrite length_insert. Qed.

Lemma put_out {A} i (v : A) l : len l <= i -> put i v l = l.
Proof. intros H. apply list_insert_ge. unfold len in H. lia. Qed.

(** Moving a chunk between the pending flags and the in-flight table. *)
Lemma release_ok j i s : sched_ok j s -> 0 <= i -> sched_ok j (release i s).
Proof.
  intros H Hi. split; cbn; try apply H.
  - rewrite len_put. apply H.
  - intros k Hk. destruct (Z.lt_ge_cases i (j_chunks j)) as [Hlt|Hge].
    + rewrite at_put by (try lia; rewrite (ok_plen _ _ H); lia). destruct (Z.eqb_spec k i) as [->|Hne]; [by right; left|].
      rewrite lookup_delete_ne by done. by apply (ok_cover _ _ H).
    + rewrite put_out by (rewrite (ok_plen _ _ H); lia). rewrite lookup_delete_ne by lia. by apply (ok_cover _ _ H).
Qed.

Lemma set_pending_true_ok j i s : sched_ok j s -> 0 <= i -> sched_ok j (set_pending (put i true (pending s)) s).
Proof.
  intros H Hi. split; cbn; try apply H.
  - rewrite len_put. apply H.
  - intros k Hk. destruct (Z.lt_ge_cases i (j_chunks j)) as [Hlt|Hge].
    + rewrite at_put by (try lia; rewrite (ok_plen _ _ H); lia). destruct (Z.eqb_spec k i) as [->|Hne]; [by right; left|].
      by apply (ok_cover _ _ H).
    + rewrite put_out by (rewrite (ok_plen _ _ H); lia). by apply (ok_cover _ _ H).
Qed.

Lemma request_ok j e p i s :
  sched_ok j s -> 0 <= i ->
  sched_ok j (set_inflights (<[i := (p, now e)]> (inflight s)) (set_pending (put i false (pending s)) s)).
Proof.
  intros H Hi. split; cbn; try apply H.
  - rewrite len_put. apply H.
  - intros k Hk. destruct (Z.eq_dec k i) as [->|Hne].
    + right. right. rewrite lookup_insert_eq. by eexists.
    + rewrite lookup_insert_ne by done. destruct (ok_cover _ _ H k Hk) as [?|[Hp|?]]; [by left| |by right; right].
      right. left. unfold at_, put. by rewrite list_lookup_insert_ne by lia.
Qed.

Lemma dispatch_from_ok j e n : forall i skip s,
  0 <= i -> sched_ok j s -> sched_ok j (dispatch_from j e n i skip s).
Proof.
  induction n as [|n IH]; intros i skip s Hi H; cbn [dispatch_from]; [done|].
  destruct (negb (at_ (pending s) i)); [apply IH; [lia|done]|].
  destruct (bool_decide _); [done|].
  destruct (negb (still_connected e _)); [apply IH; [lia|]; eapply same_chunks_ok; [apply upd_stat_same|done]|].
  destruct (negb (accepts e _ i)); [apply IH; [lia|done]|].
  apply IH; [lia|]. eapply same_chunks_ok; [apply upd_stat_same|].
  apply (request_ok j e _ i (emit (ERequest (pickPeer j e i skip s) i) s)); [|done].
  eapply same_chunks_ok; [|exact H]. by apply emit_same.
Qed.

Lemma dispatch_ok j e s : sched_ok j s -> sched_ok j (dispatch j e s).
Proof. by apply dispatch_from_ok. Qed.

Lemma onConnect_ok j e p s : sched_ok j s -> sched_ok j (onConnect j e p s).
Proof.
  intros H. apply dispatch_ok. destruct (connected e p); [|done].
  eapply same_chunks_ok; [apply addProvisional_same|done].
Qed.

(** The in-flight table holds chunk indices only. *)
Definition inflight_range (s : sched) : Prop := forall i x, inflight s !! i = Some x -> 0 <= i.

Lemma same_range s s' : same_chunks s s' -> inflight_range s -> inflight_range s'.
Proof. intros (_ & _ & E & _) H i x. rewrite E. apply H. Qed.

Lemma release_range i s : inflight_range s -> inflight_range (release i s).
Proof. intros H k x Hk. cbn in Hk. apply lookup_delete_Some in Hk as [_ Hk]. by eapply H. Qed.

Lemma dispatch_from_range j e n : forall i skip s,
  0 <= i -> inflight_range s -> inflight_range (dispatch_from j e n i skip s).
Proof.
  induction n as [|n IH]; intros i skip s Hi H; cbn [dispatch_from]; [done|].
  destruct (negb (at_ (pending s) i)); [apply IH; [lia|done]|].
  destruct (bool_decide _); [done|].
  destruct (negb (still_connected e _)); [apply IH; [lia|]; eapply same_range; [apply upd_stat_same|done]|].
  destruct (negb (accepts e _ i)); [apply IH; [lia|done]|].
  apply IH; [lia|]. eapply same_range; [apply upd_stat_same|]. intros k x Hk. cbn in Hk.
  apply lookup_insert_Some in Hk as [[<- _]|[_ Hk]]; [done|by eapply H].
Qed.

Definition sched_inv (j : job) (s : sched) : Prop := sched_ok j s /\ inflight_range s.

Lemma same_inv j s s' : same_chunks s s' -> sched_inv j s -> sched_inv j s'.
Proof. intros E [H1 H2]. split; [by eapply same_chunks_ok|by eapply same_range]. Qed.

Lemma dispatch_inv j e s : sched_inv j s -> sched_inv j (dispatch j e s).
Proof. intros [H1 H2]. split; [by apply dispatch_ok|by apply dispatch_from_range]. Qed.

Lemma release_inv j i s : sched_inv j s -> 0 <= i -> sched_inv j (release i s).
Proof. intros [H1 H2] Hi. split; [by apply release_ok|by apply release_range]. Qed.

Lemma pending_inv j i s : sched_inv j s -> 0 <= i -> sched_inv j (set_pending (put i true (pending s)) s).
Proof. intros [H1 H2] Hi. split; [by apply set_pending_true_ok|done]. Qed.

Lemma onRemoved_inv j e p visit s : sched_inv j s -> sched_inv j (onRemoved j e p visit s).
Proof.
  intros H. unfold onRemoved. apply dispatch_inv. eapply same_inv; [apply upd_stat_same|].
  revert s H. induction visit as [|i visit IH]; intros s H; [done|]. cbn. apply IH.
  destruct (inflight s !! i) as [[q t]|] eqn:E; [|done]. case_bool_decide; [|done].
  apply release_inv; [done|]. by eapply (proj2 H).
Qed.

Lemma expire_inv j e s i : sched_inv j s -> sched_inv j (expire j e s i).
Proof.
  intros H. unfold expire. destruct (inflight s !! i) as [[p sent]|] eqn:E; [|done].
  destruct (_ <=? _); [done|]. pose proof (proj2 H _ _ E) as Hi. apply release_inv; [|done].
  set (s1 := upd_stat p removeInflight s). assert (H1 : sched_inv j s1) by (eapply same_inv; [apply upd_stat_same|done]).
  clearbody s1. destruct (stats s1 !! p) as [st|]; [|done]. destruct (benchIfProvisional st) as [b st'].
  assert (H2 : sched_inv j (set_stats (<[p:=st']> (stats s1)) s1)) by (eapply same_inv; [|exact H1]; done).
  destruct b; [|done]. eapply same_inv; [apply banAndDrop_same|done].
Qed.

Lemma onTimeoutTick_inv j e visit s : sched_inv j s -> sched_inv j (onTimeoutTick j e visit s).
Proof.
  intros H. unfold onTimeoutTick. apply dispatch_inv. eapply same_inv.
  { apply fold_same. intros. apply addProvisional_same. }
  eapply same_inv; [apply mirrorBans_same|]. revert s H. induction visit as [|i visit IH]; intros s H; [done|].
  cbn. by apply IH, expire_inv.
Qed.

(** Counting one more verified chunk, in file [name]. *)
Lemma set_done_inv j s idx name data :
  job_ok j -> sched_inv j s -> 0 <= idx < j_chunks j -> at_ (completed s) idx = false ->
  name_index name = Some idx -> Q name -> chunkHashes j !! Z.to_nat idx = Some (sha256 data) ->
  sched_inv j (set_done (put idx true (completed s)) (<[name := data]> (disk s)) idx data s).
Proof.
  intros [Hj _] [H Hr] Hi Hc Hname HQ Hhash.
  assert (Hready : forall i, i ∈ readies s ++ [idx] <-> 0 <= i < j_chunks j /\ at_ (put idx true (completed s)) i = true).
  { intros i. rewrite elem_of_app, list_elem_of_singleton, (proj2 (ok_ready _ _ H)).
    split.
    - intros [[Hin Hd]| ->].
      + split; [done|]. rewrite at_put by (try lia; rewrite (ok_clen _ _ H); lia). by destruct (i =? idx).
      + split; [done|]. rewrite at_put by (try lia; rewrite (ok_clen _ _ H); lia). by rewrite Z.eqb_refl.
    - intros [Hin Hd]. rewrite at_put in Hd by (try lia; rewrite (ok_clen _ _ H); lia).
      destruct (Z.eqb_spec i idx); [by right|by left]. }
  assert (Hnd : NoDup (readies s ++ [idx])).
  { apply NoDup_app. split; [apply H|]. split; [|repeat constructor; by apply not_elem_of_nil].
    intros x Hx ->%list_elem_of_singleton. apply (proj2 (ok_ready _ _ H)) in Hx as [_ Hx]. congruence. }
  assert (Hrd : readies (set_done (put idx true (completed s)) (<[name := data]> (disk s)) idx data s) = readies s ++ [idx]).
  { unfold readies. cbn. by rewrite omap_app. }
  split; [|done]. split; cbn [pending completed inflight disk doneCount set_done].
  - apply H.
  - rewrite len_put. apply H.
  - intros i Hin Hd. rewrite at_put in Hd by (try lia; rewrite (ok_clen _ _ H); lia).
    destruct (Z.eqb_spec i idx) as [->|Hne].
    + exists name, data. cbn. by rewrite lookup_insert_eq.
    + destruct (ok_verified _ _ H i Hin Hd) as (n & d & Hn & HQn & Hd' & Hh). exists n, d. cbn.
      rewrite lookup_insert_ne by congruence. done.
  - intros i Hin. rewrite at_put by (try lia; rewrite (ok_clen _ _ H); lia).
    destruct (i =? idx); [by left|]. by apply (ok_cover _ _ H).
  - by rewrite Hrd.
  - rewrite Hrd, (ok_done _ _ H), len_app, len_cons, len_nil. apply u32_small.
    assert (Hle : (length (readies s ++ [idx]) <= length (seqZ 0 (j_chunks j)))%nat).
    { apply NoDup_incl_length; [by apply NoDup_ListNoDup|]. intros x Hx%list_elem_of_In.
      apply list_elem_of_In, elem_of_seqZ. apply Hready in Hx. lia. }
    rewrite length_app, length_seqZ in Hle. cbn in Hle. unfold len. lia.
Qed.

Lemma storeChunk_inv j e s idx data :
  job_ok j -> sched_inv j s -> 0 <= idx < j_chunks j -> at_ (completed s) idx = false ->
  chunkHashes j !! Z.to_nat idx = Some (sha256 data) -> sched_inv j (storeChunk j e idx data s).
Proof.
  intros Hj H Hi Hc Hh. unfold storeChunk. destruct (write_err e idx) as [err|].
  - apply dispatch_inv. assert (H1 : sched_inv j (set_disk_fail err s)) by (eapply same_inv; [|exact H]; done).
    change (pending s) with (pending (set_disk_fail err s)). apply pending_inv; [done|lia].
  - apply dispatch_inv. destruct Hj as (Hj1 & Hj2 & HQ). apply set_done_inv; try done; [apply name_index_chunk_name; lia|apply HQ; lia].
Qed.

Lemma at_lookup_false (l : list bool) i : at_ l i = false -> at_ l i <> true.
Proof. congruence. Qed.

Lemma delete_inflight_inv j s idx :
  sched_inv j s -> at_ (completed s) idx = true \/ at_ (pending s) idx = true ->
  sched_inv j (set_inflights (delete idx (inflight s)) s).
Proof.
  intros [H Hr] Hflag. split.
  - split; cbn; try apply H. intros i Hi. destruct (Z.eq_dec i idx) as [->|Hne]; [tauto|].
    rewrite lookup_delete_ne by done. by apply (ok_cover _ _ H).
  - intros k x Hk. cbn in Hk. apply lookup_delete_Some in Hk as [_ Hk]. by eapply Hr.
Qed.

(** The response takes the chunk out of the table when it was this peer's. *)
Definition del (d : bool) (idx : Z) (s : sched) : sched :=
  if d then set_inflights (delete idx (inflight s)) s else s.

Lemma del_completed_inv j s d idx :
  sched_inv j s -> at_ (completed s) idx = true -> sched_inv j (del d idx s).
Proof. intros H Hc. destruct d; [|done]. apply delete_inflight_inv; [done|by left]. Qed.

Lemma del_pending_inv j s d idx :
  sched_inv j s -> 0 <= idx -> sched_inv j (set_pending (put idx true (pending (del d idx s))) (del d idx s)).
Proof. intros H Hi. destruct d; [exact (release_inv j idx s H Hi)|by apply pending_inv]. Qed.

Lemma set_pending_same s s' p : same_chunks s s' -> same_chunks (set_pending p s) (set_pending p s').
Proof. intros (E1 & E2 & E3 & E4 & E5 & E6). by split_and!. Qed.

Lemma pending_after j s s' d idx :
  sched_inv j s -> 0 <= idx -> same_chunks (del d idx s) s' ->
  sched_inv j (set_pending (put idx true (pending s')) s').
Proof.
  intros H Hi E. eapply same_inv; [|by apply (del_pending_inv j s d idx)].
  destruct E as (E1 & E). rewrite E1. apply set_pending_same. by split.
Qed.

Lemma store_after j e s s' d idx data :
  job_ok j -> sched_inv j s -> 0 <= idx < j_chunks j -> same_chunks (del d idx s) s' ->
  at_ (completed s) idx = false -> chunkHashes j !! Z.to_nat idx = Some (sha256 data) ->
  sched_inv j (storeChunk j e idx data s').
Proof.
  intros Hj H Hi E Hc Hh. unfold storeChunk. destruct (write_err e idx) as [err|].
  - apply dispatch_inv. change (pending s') with (pending (set_disk_fail err s')).
    eapply (pending_after j s _ d); [done|lia|]. eapply same_chunks_trans; [exact E|done].
  - apply dispatch_inv.
    assert (Hn : name_index (chunk_name idx) = Some idx) by (apply name_index_chunk_name; destruct Hj; lia).
    assert (HQ : Q (chunk_name idx)) by (destruct Hj as (? & _ & HQ); apply HQ; lia).
    pose proof (set_done_inv j s idx _ data Hj H Hi Hc Hn HQ Hh) as H1.
    apply (del_completed_inv j _ d idx) in H1; [|cbn; rewrite at_put by (try lia; rewrite (ok_clen _ _ (proj1 H)); lia); by rewrite Z.eqb_refl].
    eapply same_inv; [|exact H1]. destruct E as (E1 & E2 & E3 & E4 & E5 & E6). destruct d; cbn in *;
      (split_and!; cbn; [done|congruence|done|congruence|congruence|]); unfold readies in *; cbn; rewrite !omap_app; congruence.
Qed.

Lemma onChunk_inv j e peer c s s' :
  job_ok j -> sched_inv j s -> onChunk j e peer c s = Ret s' -> sched_inv j s'.
Proof.
  intros Hj H. unfold onChunk. destruct (_ || _); [by intros [= <-]|]. set (idx := c_index c).
  set (s2 := match stats (set_event s) !! peer with Some _ => set_event s | None => _ end).
  assert (E2 : same_chunks s s2) by (unfold s2; by destruct (stats (set_event s) !! peer)).
  set (s3 := match inflight s2 !! idx with Some _ => _ | None => _ end).
  assert (E3 : exists d, same_chunks (del d idx s) s3).
  { destruct E2 as (A1 & A2 & A3 & A4 & A5 & A6). unfold s3. rewrite A3.
    destruct (inflight s !! idx) as [[q t]|]; [case_bool_decide|];
      [exists true|exists false|exists false]; by split_and!. }
  destruct E3 as [d E3]. clearbody s3. clear s2 E2.
  set (s4 := upd_stat peer removeInflight s3).
  assert (E4 : same_chunks (del d idx s) s4) by (eapply same_chunks_trans; [exact E3|apply upd_stat_same]).
  clearbody s4. clear s3 E3.
  destruct ((0 <=? idx) && (idx <? len (completed s4))) eqn:Hrange; cbn [negb]; [|done].
  apply andb_prop in Hrange as [Hr1%Z.leb_le Hr2%Z.ltb_lt].
  assert (Ec : completed s4 = completed s) by (destruct E4 as (_ & -> & _); by destruct d).
  rewrite Ec, (ok_clen _ _ (proj1 H)) in *. destruct (at_ (completed s) idx) eqn:Hc.
  { intros [= <-]. eapply same_inv; [exact E4|]. by apply del_completed_inv. }
  destruct (_ || _).
  { intros [= <-]. apply dispatch_inv. eapply (pending_after j s _ d); [done|lia|].
    eapply same_chunks_trans; [exact E4|apply upd_stat_same]. }
  destruct (chunkHashes j !! Z.to_nat idx) as [want|] eqn:Hw; [|done].
  case_bool_decide as Hsha; cbn [negb].
  - intros [= <-]. subst want. eapply (store_after j e s _ d); try done. eapply same_chunks_trans; [exact E4|].
    set (s5 := upd_stat peer _ s4). assert (E5 : same_chunks s4 s5) by apply upd_stat_same. clearbody s5.
    destruct (connected e peer); [|done]. eapply same_chunks_trans; [exact E5|by apply emit_same].
  - destruct (go_slice want 0 8) eqn:Hsl; try done. cbn [mbind outcome_bind].
    destruct (recordFailure _ _) as [ban st']. intros [= <-]. apply dispatch_inv.
    eapply (pending_after j s _ d); [done|lia|]. eapply same_chunks_trans; [exact E4|].
    set (s5 := upd_stat peer _ s4). assert (E5 : same_chunks s4 s5) by apply upd_stat_same. clearbody s5.
    destruct ban; [|done]. eapply same_chunks_trans; [exact E5|apply banAndDrop_same].
Qed.

Lemma handle_inv j e ev s s' :
  job_ok j -> sched_inv j s -> handle j e ev s = Ret s' -> sched_inv j s'.
Proof.
  intros Hj H. destruct ev; cbn; [intros [= <-]..| |intros [= <-]].
  - unfold onConnect. apply dispatch_inv. destruct (connected e p); [|done].
    eapply same_inv; [apply addProvisional_same|done].
  - by apply onRemoved_inv.
  - by apply onChunk_inv.
  - by apply onTimeoutTick_inv.
Qed.

Lemma run_inv j evs : forall s st s', job_ok j -> sched_inv j s -> run j evs s = Ret (st, s') ->
  sched_inv j s' /\ run_status j s' = st.
Proof.
  induction evs as [|[e ev] evs IH]; intros s st s' Hj H; cbn [run].
  - destruct (run_status j s) eqn:E; intros [= <- <-]; done.
  - destruct (run_status j s) eqn:E; [by intros [= <- <-]..|]. intros Hr.
    destruct (handle j e ev s) as [s1| | |] eqn:Eh; try done. cbn in Hr.
    eapply IH; [done| |exact Hr]. by eapply handle_inv.
Qed.

(** ** Starting up *)

Lemma has_suffix_spec p s : has_suffix p s = true -> exists l, s = l ++ p.
Proof.
  unfold has_suffix. intros [H1%Z.leb_le H2%bool_decide_eq_true_1]%andb_prop.
  exists (take (length s - length p) s). by rewrite <- H2 at 2; rewrite take_drop.
Qed.

Lemma has_prefix_spec p s : has_prefix p s = true -> exists l, s = p ++ l.
Proof.
  unfold has_prefix. intros H%bool_decide_eq_true_1. exists (drop (length p) s).
  by rewrite <- H at 1; rewrite take_drop.
Qed.

Lemma stale_tmp_no_index name :
  (has_prefix (str ".chunk_") name && has_suffix (str ".tmp") name)
  || (has_prefix (str "chunk_") name && has_suffix (str ".bin.tmp") name) = true ->
  name_index name = None.
Proof.
  intros H. unfold name_index. destruct (has_prefix (str "chunk_") name) eqn:Ep; [|done].
  destruct (has_suffix (str ".bin") name) eqn:Es; [|done]. exfalso.
  apply has_prefix_spec in Ep as [l El]. apply has_suffix_spec in Es as [m Em].
  apply orb_prop in H as [[H1 _]%andb_prop|[_ H2]%andb_prop].
  - apply has_prefix_spec in H1 as [l' El']. subst name. discriminate El'.
  - apply has_suffix_spec in H2 as [k Ek]. rewrite Ek in Em.
    change (str ".bin.tmp") with (str ".bin" ++ str ".tmp") in Em. rewrite app_assoc in Em.
    apply app_inj_2 in Em as [_ Em]; [discriminate Em|reflexivity].
Qed.

Lemma drop_file_inv j e name s c :
  sched_inv j s ->
  (forall i, name_index name = Some i -> 0 <= i < j_chunks j -> at_ (completed s) i = false) ->
  sched_inv j (fst (drop_file e name (s, c))).
Proof.
  intros [H Hr] Hn. destruct c as [a b]. unfold drop_file. destruct (can_remove e name); [|by split].
  split; [|done]. split; cbn; try apply H. intros i Hi Hc.
  destruct (ok_verified _ _ H i Hi Hc) as (n & d & H1 & HQ & H2 & H3). exists n, d. split_and!; [done|done| |done]. cbn.
  rewrite lookup_delete_ne; [done|]. intros ->. by rewrite (Hn i H1 Hi) in Hc.
Qed.

Lemma resumeEntry_inv j e entry s c :
  job_ok j -> sched_inv j s -> (name_index (fst entry) <> None -> Q (fst entry)) ->
  sched_inv j (fst (resumeEntry j e (s, c) entry)).
Proof.
  intros Hj H HQ. destruct entry as [name isDir], c as [resumed removed]. unfold resumeEntry. destruct isDir; [done|].
  destruct (_ || _) eqn:Etmp.
  { apply drop_file_inv; [done|]. intros i Hi. by rewrite (stale_tmp_no_index _ Etmp) in Hi. }
  destruct (has_prefix (str "chunk_") name) eqn:Ep; cbn [negb]; [|done].
  destruct (has_suffix (str ".bin") name) eqn:Es; cbn [negb]; [|done].
  destruct (ParseUint32 _) as [idx|] eqn:Epi; [|done].
  assert (Hidx : name_index name = Some idx) by (unfold name_index; by rewrite Ep, Es).
  assert (Hpos : 0 <= idx).
  { assert (Hpd : forall l acc v, 0 <= acc -> parse_digits l acc = Some v -> 0 <= v).
    { clear. induction l as [|x l IH]; intros acc v Ha E; cbn in E; [by injection E as <-|].
      destruct (Z.leb_spec 0 (byte.unsigned x - 48)); [|done]. destruct (_ <=? 9); [|done]. cbn in E.
      destruct (_ <? 2 ^ 32); [|done]. eapply IH; [|exact E]. lia. }
    unfold ParseUint32 in Epi. destruct (trim_suffix _ _); [done|]. by eapply Hpd in Epi. }
  destruct (Z.leb_spec (j_chunks j) idx) as [Hge|Hlt].
  { apply drop_file_inv; [done|]. intros i Hi Hin. rewrite Hidx in Hi. injection Hi as <-. lia. }
  destruct (at_ (completed s) idx) eqn:Hc; [done|].
  destruct (if can_read e name then disk s !! name else None) as [data|] eqn:Ed; [|done].
  case_bool_decide as Hsha.
  - destruct (can_read e name); [|done]. cbn [fst].
    assert (HQn : Q name) by (apply HQ; cbn; congruence).
    pose proof (set_done_inv j s idx name data Hj H ltac:(lia) Hc Hidx HQn Hsha) as H1.
    rewrite (insert_id (disk s)) in H1 by done. destruct H1 as [H1 H2]. split; [|done].
    split; cbn; try apply H1.
    + rewrite len_put. apply H1.
    + intros i Hi. destruct (Z.eq_dec i idx) as [->|Hne].
      * left. rewrite at_put by (try lia; rewrite (ok_clen _ _ (proj1 H)); lia). by rewrite Z.eqb_refl.
      * pose proof (ok_cover _ _ H1 i Hi) as Hcov. cbn in Hcov. unfold at_ at 2, put at 2.
        by rewrite list_lookup_insert_ne by lia.
  - apply drop_file_inv; [done|]. intros i Hi Hin. rewrite Hidx in Hi. by injection Hi as <-.
Qed.

Lemma init_sched_inv j files : job_ok j -> sched_inv j (init_sched j files).
Proof.
  intros [Hj _]. assert (Hrep : forall b : bool, len (replicate (Z.to_nat (j_chunks j)) b) = j_chunks j).
  { intros b. unfold len. rewrite length_replicate. lia. }
  assert (Hat : forall (b : bool) i, 0 <= i < j_chunks j -> at_ (replicate (Z.to_nat (j_chunks j)) b) i = b).
  { intros b i Hi. unfold at_. rewrite lookup_replicate_2 by lia. done. }
  split; [|by intros i x Hx; cbn in Hx; rewrite lookup_empty in Hx].
  split; cbn; [apply Hrep|apply Hrep| | | |reflexivity].
  - intros i Hi Hc. by rewrite Hat in Hc.
  - intros i Hi. right. left. by apply Hat.
  - split; [constructor|]. intros i. split; [by intros ?%elem_of_nil|]. intros [Hi Hc]. by rewrite Hat in Hc.
Qed.

Lemma init_inv j e good files entries :
  job_ok j -> (forall en, en ∈ entries -> name_index (fst en) <> None -> Q (fst en)) ->
  sched_inv j (init j e good files entries).
Proof.
  intros Hj HE. unfold init.
  set (s1 := fold_left _ good (init_sched j files)).
  assert (H1 : sched_inv j s1).
  { eapply same_inv; [|by apply (init_sched_inv j files)]. apply (fold_same (fun s p => set_stats _ s)). done. }
  clearbody s1. set (s2 := if has_mgr j then _ else s1).
  assert (H2 : sched_inv j s2).
  { unfold s2. destruct (has_mgr j); [|done]. eapply same_inv; [|exact H1].
    apply (fold_same (fun s p => if connected e p then emit (EPin p) s else s)).
    intros s p. destruct (connected e p); [by apply emit_same|done]. }
  clearbody s2. set (s3 := fold_left _ (peer_list e) s2).
  assert (H3 : sched_inv j s3).
  { eapply same_inv; [|exact H2]. apply (fold_same (fun s p => addProvisional j p s)). intros. apply addProvisional_same. }
  clearbody s3. unfold resumeFromDisk.
  assert (H4 : forall l x, (forall en, en ∈ l -> name_index (fst en) <> None -> Q (fst en)) ->
    sched_inv j (fst x) -> sched_inv j (fst (fold_left (resumeEntry j e) l x))).
  { induction l as [|en l IH]; intros [s c] Hl Hx; [done|]. cbn. apply IH; [intros en' Hen; apply Hl; by right|].
    apply resumeEntry_inv; [done|done|apply Hl; by left]. }
  specialize (H4 entries (s3, (0, 0)) HE H3). destruct (fold_left _ _ _) as [s4 c]. by apply dispatch_inv.
Qed.

End Invariant.

(** ** The aggregate check (session.go, [verifySnapshotHash]) *)

(** [cancelled i] is [ctx.Err() != nil] when chunk [i] is reached; a file is
    either there to be read or not. *)
Fixpoint hash_chunks (cancelled : Z -> bool) (files : gmap bytes bytes) (n : nat) (i : Z) (acc : bytes)
    : outcome bytes :=
  match n with
  | O => Ret acc
  | S n =>
      if cancelled i then Err (Errorf "context canceled") else
      match files !! chunk_name i with
      | None => Err (Wrapf "open chunk" (Errorf "no such file"))
      | Some data => hash_chunks cancelled files n (i + 1) (acc ++ data)
      end
  end.

Definition verifySnapshotHash (cancelled : Z -> bool) (files : gmap bytes bytes) (chunks : Z) (want : bytes)
    : outcome unit :=
  all ← hash_chunks cancelled files (Z.to_nat chunks) 0 [];
  if bool_decide (sha256 all = want) then Ret tt else Err (Errorf "snapshot hash mismatch").

Lemma hash_chunks_all files (hs : list bytes) n : forall i acc,
  0 <= i -> (forall k, i <= k < i + Z.of_nat n -> exists data, files !! chunk_name k = Some data /\
    hs !! Z.to_nat k = Some (sha256 data)) ->
  exists l, hash_chunks (fun _ => false) files n i acc = Ret (acc ++ concat l) /\
    map sha256 l = take n (drop (Z.to_nat i) hs).
Proof.
  induction n as [|n IH]; intros i acc Hi Hall; cbn [hash_chunks].
  - exists []. by rewrite app_nil_r.
  - destruct (Hall i ltac:(lia)) as (data & -> & Hh).
    destruct (IH (i + 1) (acc ++ data)) as (l & -> & Hl); [lia|intros k Hk; apply Hall; lia|].
    exists (data :: l). cbn [concat map]. rewrite app_assoc. split; [done|]. rewrite Hl.
    rewrite (drop_S hs (sha256 data) (Z.to_nat i)) by done. cbn. by replace (Z.to_nat (i + 1)) with (S (Z.to_nat i)) by lia.
Qed.

(** A set of distinct indices in range as large as the range is all of it. *)
Lemma all_ready (l : list Z) n : NoDup l -> (forall i, i ∈ l -> 0 <= i < n) -> n <= len l ->
  forall i, 0 <= i < n -> i ∈ l.
Proof.
  intros Hnd Hin Hlen i Hi.
  assert (Hp : l ⊆+ seqZ 0 n).
  { apply NoDup_submseteq; [done|]. intros x Hx. apply elem_of_seqZ. apply Hin in Hx. lia. }
  apply submseteq_length_Permutation in Hp; [|rewrite length_seqZ; unfold len in Hlen; lia].
  rewrite Hp. apply elem_of_seqZ. lia.
Qed.

Lemma done_all Q j s : 0 <= j_chunks j -> sched_inv Q j s -> j_chunks j <= doneCount s ->
  forall i, 0 <= i < j_chunks j -> verified Q j s i.
Proof.
  intros Hj [H _] Hd i Hi. apply (ok_verified _ _ _ H); [done|].
  assert (Hin : i ∈ readies s).
  { apply (all_ready _ (j_chunks j)); [apply H| |by rewrite <- (ok_done _ _ _ H)|done].
    intros x Hx. by apply (proj2 (ok_ready _ _ _ H)) in Hx as [? _]. }
  by apply (proj2 (ok_ready _ _ _ H)) in Hin as [_ ?].
Qed.

(** ** Properties *)

(** Chunk files of earlier runs carry the names this program writes. *)
Definition canonical_entries (entries : list (bytes * bool)) : Prop :=
  forall name dir i, (name, dir) ∈ entries -> name_index name = Some i -> name = chunk_name i.

Definition canonical_name (name : bytes) : Prop := exists i, name = chunk_name i /\ 0 <= i < 2 ^ 32.

Lemma name_index_range name i : name_index name = Some i -> 0 <= i < 2 ^ 32.
Proof.
  unfold name_index. destruct (_ && _); [|done]. intros E.
  assert (Hpd : forall l acc v, 0 <= acc < 2 ^ 32 -> parse_digits l acc = Some v -> 0 <= v < 2 ^ 32).
  { clear. induction l as [|x l IH]; intros acc v Ha E; cbn in E; [by injection E as <-|].
    destruct (Z.leb_spec 0 (byte.unsigned x - 48)); [|done]. destruct (_ <=? 9); [|done]. cbn in E.
    destruct (Z.ltb_spec (acc * 10 + (byte.unsigned x - 48)) (2 ^ 32)); [|done]. eapply IH; [|exact E]. lia. }
  unfold ParseUint32 in E. destruct (trim_suffix _ _); [done|]. by eapply Hpd in E; [|lia].
Qed.

(** C10: Whatever files an earlier run left, whatever peers send, in whatever order
    events, timeouts, disconnects and disk errors come: a chunk marked completed
    is on disk with the hash the offer's metadata asks for; a chunk is marked
    completed exactly when it was announced, no chunk is announced twice, and the
    count of done chunks is the number of those announced; and every chunk is
    completed, pending or in flight - none is ever lost.  This is said of every state
    the download comes to (a message with a chunk index outside the job, or a short
    hash in the metadata, makes it panic).  The job has fewer than 2^32 chunks and as
    many chunk hashes as chunks. *)
Theorem download_invariant j e0 good files entries evs st s :
  0 <= j_chunks j < 2 ^ 32 -> len (chunkHashes j) = j_chunks j ->
  run j evs (init j e0 good files entries) = Ret (st, s) ->
  (forall i, 0 <= i < j_chunks j -> at_ (completed s) i = true ->
     exists name data, name_index name = Some i /\ disk s !! name = Some data /\
       chunkHashes j !! Z.to_nat i = Some (sha256 data)) /\
  (forall i, 0 <= i < j_chunks j ->
     at_ (completed s) i = true \/ at_ (pending s) i = true \/ is_Some (inflight s !! i)) /\
  (forall i, i ∈ readies s <-> 0 <= i < j_chunks j /\ at_ (completed s) i = true) /\
  NoDup (readies s) /\ doneCount s = len (readies s).
Proof.
  intros H1 H2 Hrun. set (Q := fun _ : bytes => True).
  assert (Hj : job_ok Q j) by done.
  destruct (run_inv Q j evs _ st s Hj (init_inv Q j e0 good files entries Hj ltac:(done)) Hrun) as [[H _] _].
  split; [|split; [|split; [|split]]].
  - intros i Hi Hc. destruct (ok_verified _ _ _ H i Hi Hc) as (n & d & ? & _ & ? & ?). eauto.
  - apply H.
  - apply H.
  - apply H.
  - apply H.
Qed.

(** C11: When the download reports success every chunk file is present under its
    own name with its own hash, and the aggregate check then accepts exactly when
    the concatenation of those chunks has the hash of the offer - provided the chunk
    files an earlier run left in the directory have the names the program itself
    writes (a leftover chunk_1.bin would count as chunk 1, but the aggregate check
    opens chunk_00001.bin), every file can be opened, and the job has fewer than 2^32
    chunks and as many chunk hashes as chunks. *)
Theorem download_done_verifies j e0 good files entries evs n s want :
  0 <= j_chunks j < 2 ^ 32 -> len (chunkHashes j) = j_chunks j -> canonical_entries entries ->
  run j evs (init j e0 good files entries) = Ret (Done n, s) ->
  exists l, map sha256 l = chunkHashes j /\
    verifySnapshotHash (fun _ => false) (disk s) (j_chunks j) want =
      if bool_decide (sha256 (concat l) = want) then Ret tt else Err (Errorf "snapshot hash mismatch").
Proof.
  intros H1 H2 Hcan Hrun.
  assert (Hj : job_ok canonical_name j) by (split; [done|split; [done|intros i Hi; by exists i]]).
  assert (HE : forall en, en ∈ entries -> name_index en.1 <> None -> canonical_name en.1).
  { intros [name d] Hen Hne. cbn in *. destruct (name_index name) as [i|] eqn:Ei; [|done].
    exists i. split; [by eapply Hcan|by eapply name_index_range]. }
  destruct (run_inv canonical_name j evs _ _ s Hj (init_inv canonical_name j e0 good files entries Hj HE) Hrun)
    as [Hs Hst].
  assert (Hd : j_chunks j <= doneCount s).
  { unfold run_status in Hst. destruct (Z.ltb_spec (doneCount s) (j_chunks j)); [|lia]. cbn in Hst.
    destruct (_ && _); [done|]. by destruct (alive s =? 0). }
  destruct (hash_chunks_all (disk s) (chunkHashes j) (Z.to_nat (j_chunks j)) 0 []) as (l & E & Hl); [lia| |].
  - intros k Hk. destruct (done_all canonical_name j s ltac:(lia) Hs Hd k ltac:(lia)) as (name & data & Hn & (i & -> & Hi) & Hdk & Hh).
    rewrite name_index_chunk_name in Hn by done. injection Hn as ->. eauto.
  - exists l. rewrite Hl. split; [cbn; apply take_ge; unfold len in H2; lia|]. unfold verifySnapshotHash. by rewrite E.
Qed.

(** ** Picking a peer *)

Section Pick.
Context (j : job) (e : env) (i : Z) (skip : gset peerID) (s : sched).

(** [b] is the best of the peers [seen] so far. *)
Record best_of (seen : list peerID) (b : best) : Prop := {
  bo_proven : (b_proven b = [] /\ b_proven_n b = perPeer j + 1) \/
    (b_proven b ∈ seen /\ eligible e s i skip (b_proven b) = true /\
     exists st, stats s !! b_proven b = Some st /\ provisional st = false /\ inflight_n st = b_proven_n b);
  bo_provis : (b_provis b = [] /\ b_provis_n b = provisionalInflight j + 1) \/
    (b_provis b ∈ seen /\ eligible e s i skip (b_provis b) = true /\ b_provis_n b <= provisionalInflight j /\
     exists st, stats s !! b_provis b = Some st /\ provisional st = true /\ inflight_n st = b_provis_n b);
  bo_min : forall p st, p ∈ seen -> eligible e s i skip p = true -> stats s !! p = Some st ->
    (if provisional st then b_provis_n b else b_proven_n b) <= inflight_n st;
  bo_cap : b_proven_n b <= perPeer j + 1 /\ b_provis_n b <= provisionalInflight j + 1
}.

(** The half of the best that does not change. *)
Ltac keep_best H :=
  let H' := fresh in destruct H as [?|[? H']];
    [by left|right; split; [apply elem_of_app; by left|exact H']].

Lemma consider_best seen b p : best_of seen b -> best_of (seen ++ [p]) (consider e s i skip b p).
Proof using Type.
  intros H. assert (Hin : forall q, q ∈ seen -> q ∈ seen ++ [p]) by (intros q Hq; apply elem_of_app; by left).
  assert (Hp : p ∈ seen ++ [p]) by (apply elem_of_app; right; by left).
  assert (Hold : forall q, q ∈ seen ++ [p] -> q = p \/ q ∈ seen).
  { intros q [?|?%list_elem_of_singleton]%elem_of_app; [by right|by left]. }
  unfold consider. destruct (stats s !! p) as [st|] eqn:Est.
  2:{ destruct H as [H1 H2 H3 H4]. split; [keep_best H1|keep_best H2| |done].
      intros q st' Hq He' Hst. destruct (Hold q Hq) as [->|]; [congruence|by eapply H3]. }
  destruct (eligible e s i skip p) eqn:Ee; cbn [negb].
  2:{ destruct H as [H1 H2 H3 H4]. split; [keep_best H1|keep_best H2| |done].
      intros q st' Hq He' Hst. destruct (Hold q Hq) as [->|]; [congruence|by eapply H3]. }
  destruct (provisional st) eqn:Epr.
  - destruct (Z.ltb_spec (inflight_n st) (b_provis_n b)) as [Hlt|Hge]; destruct H as [H1 H2 H3 H4].
    + split; cbn; [keep_best H1| | |lia].
      * right. split_and!; [done|done|lia|]. by exists st.
      * intros q st' Hq He' Hst. destruct (Hold q Hq) as [->|Hs]; [simplify_eq; rewrite Epr; lia|].
        specialize (H3 q st' Hs He' Hst). destruct (provisional st'); lia.
    + split; cbn; [keep_best H1|keep_best H2| |done].
      intros q st' Hq He' Hst. destruct (Hold q Hq) as [->|Hs]; [simplify_eq; rewrite Epr; lia|by eapply H3].
  - destruct (Z.ltb_spec (inflight_n st) (b_proven_n b)) as [Hlt|Hge]; destruct H as [H1 H2 H3 H4].
    + split; cbn; [|keep_best H2| |lia].
      * right. split_and!; [done|done|]. by exists st.
      * intros q st' Hq He' Hst. destruct (Hold q Hq) as [->|Hs]; [simplify_eq; rewrite Epr; lia|].
        specialize (H3 q st' Hs He' Hst). destruct (provisional st'); lia.
    + split; cbn; [keep_best H1|keep_best H2| |done].
      intros q st' Hq He' Hst. destruct (Hold q Hq) as [->|Hs]; [simplify_eq; rewrite Epr; lia|by eapply H3].
Qed.

Lemma fold_best l : forall seen b, best_of seen b -> best_of (seen ++ l) (fold_left (consider e s i skip) l b).
Proof using Type.
  induction l as [|p l IH]; intros seen b H; [by rewrite app_nil_r|].
  cbn. rewrite cons_middle, app_assoc. apply IH, consider_best, H.
Qed.

(** The slot rule of the two classes of peers. *)
Definition has_slot (st : peerStat) : Prop :=
  if provisional st then inflight_n st <= provisionalInflight j else inflight_n st < perPeer j.
End Pick.

(** Whatever order the peer map is visited in, [pickPeer] returns a connected
    peer that is not banned, not skipped, has not declined the chunk and has a
    free slot; it is the least loaded of its class and provisional only when no
    proven peer has a slot; and it returns no peer only if none qualifies. *)
Theorem pickPeer_spec j e i skip s :
  (forall p, p ∈ order e i <-> is_Some (stats s !! p)) -> stats s !! [] = None ->
  let p := pickPeer j e i skip s in
  (p = [] /\ forall q st, stats s !! q = Some st -> eligible e s i skip q = true -> ~ has_slot j st) \/
  (exists st, stats s !! p = Some st /\ eligible e s i skip p = true /\ has_slot j st /\
     forall q st', stats s !! q = Some st' -> eligible e s i skip q = true ->
       (provisional st' = provisional st -> inflight_n st <= inflight_n st') /\
       (provisional st = true -> provisional st' = false -> ~ has_slot j st')).
Proof.
  intros Hord Hnil. cbv zeta. unfold pickPeer.
  assert (H : best_of j e i skip s (order e i) (fold_left (consider e s i skip) (order e i)
    (mkBest [] (perPeer j + 1) [] (provisionalInflight j + 1)))).
  { apply (fold_best j e i skip s (order e i) []). split; cbn; [by left|by left| |lia].
    intros q st Hq. by apply elem_of_nil in Hq. }
  set (b := fold_left _ _ _) in *. clearbody b. destruct H as [H1 H2 H3 H4].
  assert (Hmin : forall q st, stats s !! q = Some st -> eligible e s i skip q = true ->
    (if provisional st then b_provis_n b else b_proven_n b) <= inflight_n st).
  { intros q st Hq He. eapply H3; [|done|done]. apply Hord. by eexists. }
  unfold has_slot. destruct (Z.ltb_spec (b_proven_n b) (perPeer j)) as [Hlt|Hge].
  - right. destruct H1 as [[_ ?]|(_ & He & st & Hst & Hp & Hn)]; [lia|].
    exists st. rewrite Hp. split_and!; [done|done|lia|]. intros q st' Hq He'. pose proof (Hmin q st' Hq He') as Hm.
    split; [|done]. intros E. rewrite E in Hm. lia.
  - destruct (Z.leb_spec (b_provis_n b) (provisionalInflight j)) as [Hle|Hgt].
    + right. destruct H2 as [[_ ?]|(_ & He & _ & st & Hst & Hp & Hn)]; [lia|].
      exists st. rewrite Hp. split_and!; [done|done|lia|]. intros q st' Hq He'. pose proof (Hmin q st' Hq He') as Hm.
      split; [intros E; rewrite E in Hm; lia|]. intros _ E. rewrite E in Hm |- *. lia.
    + left. split; [done|]. intros q st Hq He Hs. specialize (Hmin q st Hq He). destruct (provisional st); lia.
Qed.

(** ** Forged chunks *)

Lemma dispatch_from_files j e n : forall i skip s,
  disk (dispatch_from j e n i skip s) = disk s /\ completed (dispatch_from j e n i skip s) = completed s.
Proof.
  induction n as [|n IH]; intros i skip s; cbn [dispatch_from]; [done|].
  destruct (negb _); [apply IH|]. destruct (bool_decide _); [done|].
  assert (Hu : forall p f x, disk (upd_stat p f x) = disk x /\ completed (upd_stat p f x) = completed x).
  { intros p f x. unfold upd_stat. by destruct (stats x !! p). }
  destruct (negb _).
  { destruct (IH (i + 1) skip (upd_stat (pickPeer j e i skip s)
      (fun st => set_ban true (provisional st) (failures st) st) s)) as [-> ->]. apply Hu. }
  destruct (negb _); [apply IH|].
  match goal with |- context [dispatch_from j e n (i + 1) skip (upd_stat ?p ?f ?x)] =>
    destruct (IH (i + 1) skip (upd_stat p f x)) as [-> ->]; destruct (Hu p f x) as [-> ->] end.
  done.
Qed.

(** C39: Bytes that do not have the wanted hash never reach the disk and never
    complete a chunk; neither does any response for a chunk already completed. *)
Theorem forged_chunk_rejected j e p c s s' :
  onChunk j e p c s = Ret s' ->
  chunkHashes j !! Z.to_nat (c_index c) <> Some (sha256 (c_bytes c)) \/ at_ (completed s) (c_index c) = true ->
  disk s' = disk s /\ completed s' = completed s.
Proof.
  assert (Hsame : forall a b, same_chunks a b -> disk b = disk a /\ completed b = completed a) by
    (intros a b (_ & ? & _ & ? & _); done).
  assert (Hdis : forall x, disk (dispatch j e x) = disk x /\ completed (dispatch j e x) = completed x)
    by (intros; apply dispatch_from_files).
  unfold onChunk. intros H Hbad. destruct (_ || _); [by injection H as <-|].
  set (s2 := match stats (set_event s) !! p with Some _ => set_event s | None => _ end) in H.
  assert (E2 : disk s2 = disk s /\ completed s2 = completed s) by (unfold s2; by destruct (stats (set_event s) !! p)).
  set (s3 := match inflight s2 !! c_index c with Some _ => _ | None => _ end) in H.
  assert (E3 : disk s3 = disk s /\ completed s3 = completed s).
  { unfold s3. destruct (inflight s2 !! c_index c) as [[q t]|]; [case_bool_decide|]; done. }
  clearbody s3. clear s2 E2. set (s4 := upd_stat p removeInflight s3) in H.
  assert (E4 : disk s4 = disk s /\ completed s4 = completed s).
  { destruct (Hsame s3 s4) as [-> ->]; [apply upd_stat_same|done]. }
  clearbody s4. clear s3 E3. destruct E4 as [Ed Ec].
  destruct (negb _) in H; [done|]. rewrite Ec in H. destruct (at_ (completed s) (c_index c)) eqn:Hc.
  { injection H as <-. by split. }
  destruct Hbad as [Hbad|]; [|done]. destruct (_ || _) in H.
  { injection H as <-. destruct (Hdis (set_pending (put (c_index c) true (pending (upd_stat p
      (fun st => set_declined ({[c_index c]} ∪ declined st) st) s4))) (upd_stat p
      (fun st => set_declined ({[c_index c]} ∪ declined st) st) s4))) as [-> ->]. cbn.
    destruct (Hsame s4 (upd_stat p (fun st => set_declined ({[c_index c]} ∪ declined st) st) s4)) as [-> ->];
      [apply upd_stat_same|done]. }
  destruct (chunkHashes j !! Z.to_nat (c_index c)) as [want|]; [|done].
  case_bool_decide as Hsha; cbn [negb] in H; [congruence|].
  destruct (go_slice want 0 8); try done. cbn [mbind outcome_bind] in H.
  destruct (recordFailure _ _) as [ban st'] in H. injection H as <-.
  set (s5 := upd_stat p _ s4). assert (E5 : same_chunks s4 s5) by apply upd_stat_same. clearbody s5.
  set (s6 := if ban then _ else s5).
  assert (E6 : same_chunks s4 s6).
  { unfold s6. destruct ban; [|done]. eapply same_chunks_trans; [exact E5|apply banAndDrop_same]. }
  clearbody s6. destruct (Hdis (set_pending (put (c_index c) true (pending s6)) s6)) as [-> ->]. cbn.
  destruct (Hsame s4 s6 E6) as [-> ->]. done.
Qed.

(** A verified chunk is stored: the dual of the above. *)
Lemma good_chunk_stored j e p c s :
  c_height c = j_height j -> c_format c = j_format j -> 0 <= c_index c < len (completed s) ->
  at_ (completed s) (c_index c) = false -> c_missing c = false -> c_bytes c <> [] ->
  chunkHashes j !! Z.to_nat (c_index c) = Some (sha256 (c_bytes c)) -> write_err e (c_index c) = None ->
  exists s', onChunk j e p c s = Ret s' /\ at_ (completed s') (c_index c) = true /\
    disk s' !! chunk_name (c_index c) = Some (c_bytes c).
Proof.
  intros Hh Hf Hi Hc Hm Hb Hs Hw. unfold onChunk. rewrite Hh, Hf, !Z.eqb_refl. cbn [negb orb].
  set (s2 := match stats (set_event s) !! p with Some _ => _ | None => _ end).
  set (s3 := match inflight s2 !! c_index c with Some _ => _ | None => _ end).
  assert (E : completed (upd_stat p removeInflight s3) = completed s).
  { destruct (upd_stat_same p removeInflight s3) as (_ & -> & _). unfold s3.
    destruct (inflight s2 !! c_index c) as [[q t]|]; [case_bool_decide|]; cbn; unfold s2;
      by destruct (stats (set_event s) !! p). }
  set (s4 := upd_stat p removeInflight s3) in *. clearbody s4. clear s2 s3.
  rewrite E, (proj2 (Z.leb_le 0 _)), (proj2 (Z.ltb_lt _ _)) by lia. cbn [negb andb].
  rewrite Hc, Hm. cbn [orb]. assert (Hl : (len (c_bytes c) =? 0) = false).
  { apply Z.eqb_neq. destruct (c_bytes c) as [|x l]; [done|]. rewrite len_cons. pose proof (len_nonneg l). lia. }
  rewrite Hl, Hs, bool_decide_eq_true_2 by done. cbn [negb].
  set (s5 := upd_stat p _ s4). assert (E5 : completed s5 = completed s) by (rewrite <- E; apply upd_stat_same). clearbody s5.
  set (s6 := if connected e p then _ else s5). assert (E6 : completed s6 = completed s) by (rewrite <- E5; unfold s6; by case_match).
  clearbody s6. eexists. split; [done|]. unfold storeChunk. rewrite Hw. unfold dispatch.
  match goal with |- context [dispatch_from j e ?n 0 ∅ ?x] => destruct (dispatch_from_files j e n 0 ∅ x) as [-> ->] end.
  cbn [completed disk set_done]. rewrite E6, lookup_insert_eq, at_put by lia. by rewrite Z.eqb_refl.
Qed.

(** ** What peers can break *)

(** A response for an index past the last chunk indexes [completed] out of range. *)
Theorem onChunk_index_panics j e p c s :
  c_height c = j_height j -> c_format c = j_format j -> len (completed s) <= c_index c ->
  onChunk j e p c s = Panic "index out of range".
Proof.
  intros Hh Hf Hi. unfold onChunk. rewrite Hh, Hf, !Z.eqb_refl. cbn [negb orb].
  set (s2 := match stats (set_event s) !! p with Some _ => _ | None => _ end).
  set (s3 := match inflight s2 !! c_index c with Some _ => _ | None => _ end).
  assert (E : completed (upd_stat p removeInflight s3) = completed s).
  { destruct (upd_stat_same p removeInflight s3) as (_ & -> & _). unfold s3.
    destruct (inflight s2 !! c_index c) as [[q t]|]; [case_bool_decide|]; cbn; unfold s2;
      by destruct (stats (set_event s) !! p). }
  rewrite E, (proj2 (Z.ltb_ge _ _)) by done. by rewrite andb_false_r.
Qed.

(** The first pending chunk no peer can take stops the whole pass. *)
Theorem dispatch_head_of_line j e s i :
  0 <= i < j_chunks j -> at_ (pending s) i = true -> pickPeer j e i ∅ s = [] ->
  (forall k, 0 <= k < i -> at_ (pending s) k = false) -> dispatch j e s = s.
Proof.
  intros Hi Hp Hpick Hlow. unfold dispatch.
  assert (H : forall n k, 0 <= k <= i -> i < k + Z.of_nat n -> dispatch_from j e n k ∅ s = s).
  { induction n as [|n IH]; intros k Hk Hn; [done|]. cbn [dispatch_from].
    destruct (Z.eq_dec k i) as [->|Hne].
    - by rewrite Hp, Hpick.
    - rewrite Hlow by lia. cbn [negb]. apply IH; lia. }
  apply H; lia.
Qed.

(** ** Concrete runs *)

Definition sample_job : job :=
  mkJob 100 3 2 [sha256 (str "zero"); sha256 (str "one")] 4 30 3 1 1 5 true.

Definition peerA : peerID := str "aa".
Definition peerB : peerID := str "bb".

Definition sample_env (peers : list peerID) : env :=
  mkEnv 10 (fun p => bool_decide (p ∈ peers)) (fun p => bool_decide (p ∈ peers)) (fun _ _ => true)
    (fun _ => false) (fun _ => None) (fun _ => true) (fun _ => true) (fun _ => peers) peers.

Definition sample_events : list (env * event) :=
  [(sample_env [peerA; peerB], EvConnect peerB);
   (sample_env [peerA; peerB], EvChunk peerA (mkChunkMsg 100 3 0 (str "forged") false));
   (sample_env [peerA; peerB], EvChunk peerB (mkChunkMsg 100 3 0 (str "zero") false));
   (sample_env [peerA; peerB], EvTick [0; 1])].

(** chunk 1 is resumed from disk. *)
Definition sample_start : sched :=
  init sample_job (sample_env [peerA]) [peerA]
    {[chunk_name 1 := str "one"; str "chunk_00007.bin" := str "orphan"]}
    [(chunk_name 1, false); (str "chunk_00007.bin", false)].

Definition is_done (r : outcome (status * sched)) : bool :=
  match r with Ret (Done _, _) => true | _ => false end.

Lemma sample_run : exists n s, run sample_job sample_events sample_start = Ret (Done n, s).
Proof.
  assert (H : is_done (run sample_job sample_events sample_start) = true) by (vm_compute; reflexivity).
  destruct (run sample_job sample_events sample_start) as [[[n| | |] s]| | |]; try discriminate H.
  exists n, s. reflexivity.
Qed.

Lemma download_invariant_witness :
  exists st s, run sample_job sample_events sample_start = Ret (st, s) /\
    forall i, 0 <= i < 2 -> at_ (completed s) i = true ->
      exists name data, name_index name = Some i /\ disk s !! name = Some data /\
        chunkHashes sample_job !! Z.to_nat i = Some (sha256 data).
Proof.
  destruct sample_run as (n & s & E). exists (Done n), s. split; [exact E|].
  destruct (download_invariant sample_job (sample_env [peerA]) [peerA]
    {[chunk_name 1 := str "one"; str "chunk_00007.bin" := str "orphan"]}
    [(chunk_name 1, false); (str "chunk_00007.bin", false)] sample_events (Done n) s) as (H & _);
    [simpl; lia|reflexivity|exact E|exact H].
Defined.

Lemma sample_canonical : canonical_entries [(chunk_name 1, false); (str "chunk_00007.bin", false)].
Proof.
  intros name dir i Hin Hn. apply elem_of_cons in Hin as [E|Hin].
  - apply (f_equal fst) in E. cbn [fst] in E. subst name. rewrite name_index_chunk_name in Hn by lia.
    by injection Hn as <-.
  - apply elem_of_cons in Hin as [E|Hin]; [|by apply elem_of_nil in Hin].
    apply (f_equal fst) in E. cbn [fst] in E. subst name.
    assert (H7 : str "chunk_00007.bin" = chunk_name 7) by (vm_compute; reflexivity).
    rewrite H7 in *. rewrite name_index_chunk_name in Hn by lia. by injection Hn as <-.
Qed.

Lemma download_done_verifies_witness :
  exists n s l, run sample_job sample_events sample_start = Ret (Done n, s) /\
    map sha256 l = chunkHashes sample_job /\
    verifySnapshotHash (fun _ => false) (disk s) 2 (sha256 (str "zeroone")) =
      if bool_decide (sha256 (concat l) = sha256 (str "zeroone")) then Ret tt
      else Err (Errorf "snapshot hash mismatch").
Proof.
  destruct sample_run as (n & s & E). exists n, s.
  destruct (download_done_verifies sample_job (sample_env [peerA]) [peerA]
      {[chunk_name 1 := str "one"; str "chunk_00007.bin" := str "orphan"]}
      [(chunk_name 1, false); (str "chunk_00007.bin", false)] sample_events n s (sha256 (str "zeroone")))
    as (l & H1 & H2); [simpl; lia|reflexivity|exact sample_canonical|exact E|].
  exists l. split; [exact E|]. split; [exact H1|exact H2].
Defined.

(** A start from an empty directory. *)
Definition fresh_start : sched := init sample_job (sample_env [peerA]) [peerA] ∅ [].

Lemma pickPeer_spec_witness :
  let p := pickPeer sample_job (sample_env [peerA]) 0 ∅ fresh_start in
  (p = [] /\ forall q st, stats fresh_start !! q = Some st ->
     eligible (sample_env [peerA]) fresh_start 0 ∅ q = true -> ~ has_slot sample_job st) \/
  (exists st, stats fresh_start !! p = Some st /\
     eligible (sample_env [peerA]) fresh_start 0 ∅ p = true /\ has_slot sample_job st /\
     forall q st', stats fresh_start !! q = Some st' ->
       eligible (sample_env [peerA]) fresh_start 0 ∅ q = true ->
       (provisional st' = provisional st -> inflight_n st <= inflight_n st') /\
       (provisional st = true -> provisional st' = false -> ~ has_slot sample_job st')).
Proof.
  apply (pickPeer_spec sample_job (sample_env [peerA]) 0 ∅ fresh_start); [|vm_compute; reflexivity].
  intros p. assert (E : bool_decide (dom (stats fresh_start) = {[peerA]}) = true) by (vm_compute; reflexivity).
  apply bool_decide_eq_true_1 in E.
  rewrite <- elem_of_dom, E, elem_of_singleton. cbn. by rewrite list_elem_of_singleton.
Defined.

Definition is_ret {A} (r : outcome A) : bool := match r with Ret _ => true | _ => false end.

Lemma forged_chunk_rejected_witness :
  exists s', onChunk sample_job (sample_env [peerA]) peerA (mkChunkMsg 100 3 0 (str "forged") false)
      fresh_start = Ret s' /\ disk s' = disk fresh_start /\ completed s' = completed fresh_start.
Proof.
  assert (H : is_ret (onChunk sample_job (sample_env [peerA]) peerA
    (mkChunkMsg 100 3 0 (str "forged") false) fresh_start) = true) by (vm_compute; reflexivity).
  destruct (onChunk sample_job (sample_env [peerA]) peerA (mkChunkMsg 100 3 0 (str "forged") false) fresh_start)
    as [s'| | |] eqn:E; try discriminate H.
  exists s'. split; [reflexivity|].
  apply (forged_chunk_rejected sample_job (sample_env [peerA]) peerA
    (mkChunkMsg 100 3 0 (str "forged") false) fresh_start s' E).
  left. assert (Hne : bool_decide (chunkHashes sample_job !! 0%nat = Some (sha256 (str "forged"))) = false)
    by (vm_compute; reflexivity).
  by apply bool_decide_eq_false in Hne.
Defined.

(** A provisional peer gets [provisionalInflight + 1] slots. *)
Example provisional_peer_takes_two_slots :
  omap (fun e => match e with ERequest p i => Some (p, i) | _ => None end)
    (effects (init sample_job (sample_env [peerB]) [] ∅ [])) = [(peerB, 0); (peerB, 1)].
Proof. vm_compute. reflexivity. Qed.

(** A metadata hash shorter than eight bytes makes the mismatch log line panic. *)
Example short_hash_panics :
  exists m, onChunk (mkJob 100 3 1 [str "abc"] 4 30 3 1 1 5 true) (sample_env [peerA]) peerA
    (mkChunkMsg 100 3 0 (str "any") false)
    (init (mkJob 100 3 1 [str "abc"] 4 30 3 1 1 5 true) (sample_env [peerA]) [peerA] ∅ []) = Panic m.
Proof. eexists. vm_compute. reflexivity. Qed.
