(* ===== verification/Walk.v ===== *)
(** * Finding a snapshot: offers and the backward walk
      (internal/snapfetch/offerset.go, helpers.go, walk.go)

    The offer index, the check of chunk 0 against an offer's metadata, and the
    walk over target heights as an event-driven machine.  The main theorems:
    the target list is exact, the index returns the offers of a window newest
    first, the walk ends, and what it accepts is verified and inside the window -
    exactly the pinned height when one is pinned. *)

From S2P Require Import Prelude Sha256 Varint IavlEnc CommitInfo.

Abbreviation peerID := (list Init.Byte.byte).

(** ** Offers *)

(** A SnapshotsResponse of a peer ([statesync.Snapshot]). *)
Record Snapshot := mkSnapshot {
  s_height : Z; s_format : Z; s_chunks : Z; s_hash : bytes; s_metadata : bytes
}.

Record snapshotOffer := mkOffer {
  Height : Z;
  Format : Z;
  Chunks : Z;
  Hash : bytes;
  Metadata : bytes;
  Peers : gset peerID
}.

Definition hexDigit (x : Z) : Init.Byte.byte :=
  byte.of_Z (if x <? 10 then 48 + x else 87 + x).
Definition hexEncode (b : bytes) : bytes :=
  concat (map (fun c => [hexDigit (Z.shiftr (byte.unsigned c) 4); hexDigit (Z.land (byte.unsigned c) 15)]) b).

Definition snapKey (s : Snapshot) : bytes :=
  decimal (s_height s) ++ str "_" ++ decimal (s_format s) ++ str "_" ++ hexEncode (s_hash s).

Record offerSet := mkOffers {
  byKey : gmap bytes snapshotOffer;
  byHeight : gmap Z (list bytes)
}.

Definition newOfferSet : offerSet := mkOffers ∅ ∅.

Definition add (o : offerSet) (s : Snapshot) (peer : peerID) : offerSet * bool :=
  let k := snapKey s in
  match byKey o !! k with
  | Some r =>
      (mkOffers (<[k := mkOffer (Height r) (Format r) (Chunks r) (Hash r) (Metadata r) ({[peer]} ∪ Peers r)]> (byKey o))
         (byHeight o), false)
  | None =>
      (mkOffers (<[k := mkOffer (s_height s) (s_format s) (s_chunks s) (s_hash s) (s_metadata s) {[peer]}]> (byKey o))
         (<[s_height s := default [] (byHeight o !! s_height s) ++ [k]]> (byHeight o)), true)
  end.

Definition entries_of (o : offerSet) (keys : list bytes) : list (bytes * snapshotOffer) :=
  omap (fun k => r ← byKey o !! k; Some (k, r)) keys.

(** [at], a keyword here. *)
Definition at_height (o : offerSet) (height : Z) : list (bytes * snapshotOffer) :=
  entries_of o (default [] (byHeight o !! height)).

Definition count (o : offerSet) : Z := Z.of_nat (size (byKey o)).

Definition above (min max h : Z) : bool := negb (h <? min) && ((max =? 0) || (h <=? max)).

(** Newest first. *)
Definition newer (a b : Z) : Prop := b <= a.
#[export] Instance newer_dec a b : Decision (newer a b) := Z.le_dec b a.

Definition heights_in (o : offerSet) (min max : Z) : list Z :=
  merge_sort newer (List.filter (above min max) (map fst (map_to_list (byHeight o)))).

Definition atOrAbove (o : offerSet) (min max : Z) : list (bytes * snapshotOffer) :=
  concat (map (at_height o) (heights_in o min max)).

(** ** Chunk hashes *)

(** A slice longer than this cannot be allocated on any platform. *)
Definition maxAlloc : Z := 2 ^ 48.

Fixpoint parseChunkHashes_loop (fuel : nat) (metadata : bytes) (i : Z) (out : list bytes) : outcome (list bytes) :=
  if negb (i <? len metadata) then Ret out else
  match fuel with
  | O => NoFuel
  | S fuel =>
      tag ← go_index metadata i;
      if negb (byte.unsigned tag =? 10) then Err (Errorf "unexpected tag") else
      let i := i + 1 in
      rest ← go_from metadata i;
      let '(length, n) := Uvarint rest in
      if n <=? 0 then Err (Errorf "bad varint") else
      let i := i + n in
      if len metadata <? i64 (i + i64 length) then Err (Errorf "hash extends past metadata")
      else if maxAlloc <? length then Panic "makeslice: len out of range"
      else
        h ← go_slice metadata i (i64 (i + i64 length));
        parseChunkHashes_loop fuel metadata (i64 (i + i64 length)) (out ++ [h])
  end.

Definition parseChunkHashes (metadata : bytes) : outcome (list bytes) :=
  parseChunkHashes_loop (S (length metadata)) metadata 0 [].

Definition verifyChunkZero (offer : snapshotOffer) (data : bytes) : outcome unit :=
  chunkHashes ← wrap_out "parse chunk_hashes" (parseChunkHashes (Metadata offer));
  if negb (u32 (len chunkHashes) =? Chunks offer) then Err (Errorf "chunk_hashes count") else
  match chunkHashes with
  | [] => Err (Errorf "offer has zero chunks")
  | h0 :: _ => if bool_decide (sha256 data = h0) then Ret tt else Err (Errorf "chunk-0 hash mismatch")
  end.

(** ** Heights *)

Record Config := mkConfig {
  TargetHeight : Z;
  MinHeight : Z;
  MaxHeight : Z;
  SnapshotInterval : Z
}.

Definition effectiveHeightWindow (cfg : Config) : Z * Z :=
  if negb (TargetHeight cfg =? 0) then (TargetHeight cfg, TargetHeight cfg)
  else (MinHeight cfg, MaxHeight cfg).

Definition isJumpCandidate (newHeight current minHeight : Z) (failed : gset Z) : bool :=
  if newHeight <=? current then false
  else if negb (minHeight =? 0) && (newHeight <? minHeight) then false
  else if bool_decide (newHeight ∈ failed) then false
  else true.

Definition offerInWindow (height : Z) (cfg : Config) : bool :=
  if negb (TargetHeight cfg =? 0) then height =? TargetHeight cfg
  else if negb (MinHeight cfg =? 0) && (height <? MinHeight cfg) then false
  else if negb (MaxHeight cfg =? 0) && (MaxHeight cfg <? height) then false
  else true.

Fixpoint walkTargets_loop (fuel : nat) (h minHeight interval : Z) : outcome (list Z) :=
  if (minHeight <=? h) && (0 <? h) then
    match fuel with
    | O => NoFuel
    | S fuel =>
        if h <? interval then Ret [h]
        else r ← walkTargets_loop fuel (u64 (h - interval)) minHeight interval; Ret (h :: r)
    end
  else Ret [].

Definition walkTargets (top minHeight interval : Z) : outcome (list Z) :=
  if (interval =? 0) || (top <? minHeight) then Ret []
  else
    let start := top / interval * interval in
    walkTargets_loop (S (Z.to_nat (top / interval))) start minHeight interval.

(** ** The walk *)

(** What happens while the walk waits at a height. *)
Inductive event :=
| EvDeadline
| EvCancel
| EvOffer (s : Snapshot) (peer : peerID)
| EvChunk (peer : peerID) (height format index : Z) (data : bytes) (missing : bool).

Inductive effect :=
| ERequest (peer : peerID) (key : bytes) (height format : Z)
| EBan (peer : peerID).

Record walk := mkWalk {
  offers : offerSet;
  queue : list Z;
  failed : gset Z;
  asked : gset bytes;
  jumps : Z;
  effects : list effect
}.

Definition set_offers o (w : walk) : walk :=
  mkWalk o (queue w) (failed w) (asked w) (jumps w) (effects w).
Definition set_queue q (w : walk) : walk :=
  mkWalk (offers w) q (failed w) (asked w) (jumps w) (effects w).
Definition set_failed f (w : walk) : walk :=
  mkWalk (offers w) (queue w) f (asked w) (jumps w) (effects w).
Definition set_jump q n (w : walk) : walk :=
  mkWalk (offers w) q (failed w) (asked w) n (effects w).
Definition ask k e (w : walk) : walk :=
  mkWalk (offers w) (queue w) (failed w) ({[k]} ∪ asked w) (jumps w) (effects w ++ [e]).
Definition emit e (w : walk) : walk :=
  mkWalk (offers w) (queue w) (failed w) (asked w) (jumps w) (effects w ++ [e]).

Definition askKey (peer : peerID) (k : bytes) : bytes := peer ++ str ":" ++ k.

(** The switch: [reach p] is [Peers().Get(p) != nil], [accepts] the answer of
    [RequestChunk].  The peers of an offer are visited in the order of [visit]. *)
Record net := mkNet {
  reach : peerID -> bool;
  accepts : peerID -> bool;
  visit : gset peerID -> list peerID
}.

Section Walk.
Context (cfg : Config) (nt : net).

Definition minH : Z := fst (effectiveHeightWindow cfg).
Definition maxH : Z := snd (effectiveHeightWindow cfg).

Definition ask_peer (k : bytes) (o : snapshotOffer) (w : walk) (p : peerID) : walk :=
  if bool_decide (askKey p k ∈ asked w) then w
  else if negb (reach nt p) then w
  else if accepts nt p then ask (askKey p k) (ERequest p k (Height o) (Format o)) w
  else w.

Definition dispatch (target : Z) (w : walk) : walk :=
  fold_left (fun w e => fold_left (ask_peer (fst e) (snd e)) (visit nt (Peers (snd e))) w)
    (atOrAbove (offers w) target maxH) w.

(** How the wait at one height ends. *)
Inductive wait_result :=
| Waiting (w : walk)
| TimedOut (w : walk) (rest : list event)
| Jumped (w : walk) (rest : list event)
| Cancelled
| Accepted (o : snapshotOffer) (chunk0 : bytes) (responder : peerID) (w : walk)
| WaitPanic (msg : string)
| WaitNoFuel.

(** The offer a chunk 0 belongs to: the first of its height and format whose
    metadata it matches. *)
Fixpoint match_offer (es : list (bytes * snapshotOffer)) (format : Z) (data : bytes) : outcome (option snapshotOffer) :=
  match es with
  | [] => Ret None
  | (_, o) :: r =>
      if negb (Format o =? format) then match_offer r format data else
      match verifyChunkZero o data with
      | Ret _ => Ret (Some o)
      | Err _ => match_offer r format data
      | Panic m => Panic m
      | NoFuel => NoFuel
      end
  end.

Definition maxJumps (targets : list Z) : Z := 2 * len targets.

Fixpoint height_loop (targets : list Z) (target : Z) (w : walk) (evs : list event) : wait_result :=
  match evs with
  | [] => Waiting w
  | EvDeadline :: r => TimedOut w r
  | EvCancel :: _ => Cancelled
  | EvOffer s peer :: r =>
      let w := set_offers (fst (add (offers w) s peer)) w in
      if (TargetHeight cfg =? 0) && isJumpCandidate (s_height s) target minH (failed w)
         && (jumps w <? maxJumps targets)
      then Jumped (set_jump (s_height s :: target :: queue w) (jumps w + 1) w) r
      else if (target <=? s_height s) && ((maxH =? 0) || (s_height s <=? maxH))
      then height_loop targets target (dispatch target w) r
      else height_loop targets target w r
  | EvChunk peer height format index data missing :: r =>
      if negb (index =? 0) || (height <? target) then height_loop targets target w r
      else if negb (maxH =? 0) && (maxH <? height) then height_loop targets target w r
      else if missing || (len data =? 0) then height_loop targets target w r
      else match match_offer (at_height (offers w) height) format data with
      | Ret (Some o) => Accepted o data peer w
      | Ret None =>
          height_loop targets target (if reach nt peer then emit (EBan peer) w else w) r
      | Err _ => WaitPanic "unreachable"
      | Panic m => WaitPanic m
      | NoFuel => WaitNoFuel
      end
  end.

Inductive walk_result :=
| Found (o : snapshotOffer) (good : list peerID) (chunk0 : bytes) (w : walk)
| Failed (e : goerr) (w : walk)
| StillWaiting (w : walk)
| WalkPanic (msg : string)
| WalkNoFuel.

Definition walk_failed : goerr := Errorf "no peer offered+served a snapshot in the window".

(** The responder first, then every other peer of the offer. *)
Definition good_peers (o : snapshotOffer) (responder : peerID) : list peerID :=
  responder :: List.filter (fun p => negb (bool_decide (p = responder))) (visit nt (Peers o)).

Fixpoint walk_loop (fuel : nat) (targets : list Z) (w : walk) (evs : list event) : walk_result :=
  match queue w with
  | [] => Failed walk_failed w
  | target :: q =>
      match fuel with
      | O => WalkNoFuel
      | S fuel =>
          let w := set_queue q w in
          if bool_decide (target ∈ failed w) then walk_loop fuel targets w evs else
          match height_loop targets target (dispatch target w) evs with
          | Waiting w => StillWaiting w
          | Cancelled => Failed (Errorf "context canceled") w
          | WaitPanic m => WalkPanic m
          | WaitNoFuel => WalkNoFuel
          | Accepted o chunk0 responder w =>
              (* the log line prints 16 hex digits of the hash *)
              match go_slice (hexEncode (Hash o)) 0 16 with
              | Ret _ => Found o (good_peers o responder) chunk0 w
              | _ => WalkPanic "slice bounds out of range"
              end
          | Jumped w rest => walk_loop fuel targets w rest
          | TimedOut w rest =>
              if negb (TargetHeight cfg =? 0) then Failed walk_failed w
              else walk_loop fuel targets (set_failed ({[target]} ∪ failed w) w) rest
          end
      end
  end.

(** Offers that arrived before the walk started are in [o]. *)
Definition init_walk (o : offerSet) (targets : list Z) : walk := mkWalk o targets ∅ ∅ 0 [].

(** Each turn takes a height off the queue, and each jump puts two on. *)
Definition walk_fuel (targets : list Z) : nat := S (5 * length targets).

Definition targets_of : outcome (list Z) :=
  if negb (TargetHeight cfg =? 0) then Ret [TargetHeight cfg]
  else if maxH =? 0 then Err (Errorf "walk has no upper bound")
  else
    t ← walkTargets maxH minH (SnapshotInterval cfg);
    match t with [] => Err (Errorf "no target heights") | _ => Ret t end.

Definition walkBackward (o : offerSet) (evs : list event) : outcome walk_result :=
  targets ← targets_of;
  Ret (walk_loop (walk_fuel targets) targets (init_walk o targets) evs).
End Walk.

(** ** Target heights *)

Definition descending : list Z -> Prop := StronglySorted (fun a b => b < a).

Lemma walkTargets_loop_spec minHeight interval fuel : forall k,
  0 < interval -> 0 <= minHeight -> k * interval < 2 ^ 64 -> 0 <= k -> (Z.to_nat k < fuel)%nat ->
  exists l, walkTargets_loop fuel (k * interval) minHeight interval = Ret l /\ descending l /\
    forall h, h ∈ l <-> exists i, 1 <= i <= k /\ h = i * interval /\ minHeight <= h.
Proof.
  induction fuel as [|fuel IH]; intros k Hi Hm Hb Hk Hf; [lia|]. cbn [walkTargets_loop].
  destruct (Z.leb_spec minHeight (k * interval)) as [Hle|Hgt]; cbn [andb];
    [destruct (Z.ltb_spec 0 (k * interval)) as [Hpos|Hz]|].
  - assert (H1 : 1 <= k) by nia. rewrite (proj2 (Z.ltb_ge (k * interval) interval)) by nia.
    replace (u64 (k * interval - interval)) with ((k - 1) * interval) by (rewrite u64_small; nia).
    destruct (IH (k - 1) Hi Hm ltac:(nia) ltac:(lia) ltac:(lia)) as (l & -> & Hs & Hl). cbn [mbind outcome_bind].
    exists (k * interval :: l). split; [done|]. split.
    + constructor; [done|]. apply Forall_forall. intros x (i & Hik & -> & _)%Hl. nia.
    + intros h. rewrite elem_of_cons, Hl. split.
      * intros [->|(i & ? & ? & ?)]; [exists k; split_and!; lia|exists i; split_and!; lia].
      * intros (i & ? & -> & ?). destruct (Z.eq_dec i k) as [->|]; [by left|].
        right. exists i. split_and!; lia.
  - exists []. split_and!; [done|constructor|]. intros h. split; [by intros ?%elem_of_nil|].
    intros (i & ? & -> & ?). nia.
  - exists []. split_and!; [done|constructor|]. intros h. split; [by intros ?%elem_of_nil|].
    intros (i & ? & -> & ?). nia.
Qed.

(** The target heights are exactly the positive multiples of the snapshot
    interval inside [minHeight, top], newest first, each once. *)
Theorem walkTargets_exact top minHeight interval :
  0 < interval -> 0 <= minHeight -> 0 <= top < 2 ^ 64 ->
  exists l, walkTargets top minHeight interval = Ret l /\ descending l /\
    forall h, h ∈ l <-> 0 < h /\ h mod interval = 0 /\ minHeight <= h <= top.
Proof.
  intros Hi Hm Ht. unfold walkTargets. rewrite (proj2 (Z.eqb_neq _ _)) by lia. cbn [orb].
  pose proof (Z.mul_div_le top interval Hi) as Hdiv.
  pose proof (Z.div_pos top interval ltac:(lia) Hi).
  destruct (Z.ltb_spec top minHeight) as [Hlt|Hge].
  - exists []. split_and!; [done|constructor|]. intros h. split; [by intros ?%elem_of_nil|lia].
  - destruct (walkTargets_loop_spec minHeight interval (S (Z.to_nat (top / interval))) (top / interval))
      as (l & -> & Hs & Hl); try lia. exists l. split_and!; [done|done|]. intros h. rewrite Hl. split.
    + intros (i & Hik & -> & Hmin). rewrite Z.mod_mul by lia. split_and!; nia.
    + intros (Hpos & Hmod & Hmin & Hmax). apply Z.mod_divide in Hmod as [i ->]; [|lia].
      exists i. split_and!; [nia| |done|lia]. apply Z.div_le_lower_bound; lia.
Qed.

Lemma walkTargets_exact_witness :
  exists l, walkTargets 1234 1000 100 = Ret l /\ descending l /\
    forall h, h ∈ l <-> 0 < h /\ h mod 100 = 0 /\ 1000 <= h <= 1234.
Proof. apply (walkTargets_exact 1234 1000 100); lia. Defined.

Lemma walkTargets_sample : walkTargets 1234 1000 100 = Ret [1200; 1100; 1000].
Proof. reflexivity. Qed.

(** ** Content keys *)

Lemma hexDigit_inj x y : 0 <= x < 16 -> 0 <= y < 16 -> hexDigit x = hexDigit y -> x = y.
Proof.
  unfold hexDigit. intros Hx Hy H. apply of_Z_inj_small in H; destruct (Z.ltb_spec x 10), (Z.ltb_spec y 10); lia.
Qed.

Lemma nibbles c : byte.unsigned c = 16 * Z.shiftr (byte.unsigned c) 4 + Z.land (byte.unsigned c) 15 /\
  0 <= Z.shiftr (byte.unsigned c) 4 < 16 /\ 0 <= Z.land (byte.unsigned c) 15 < 16.
Proof.
  pose proof (byte_range c). rewrite Z.shiftr_div_pow2 by lia. change 15 with (Z.ones 4).
  rewrite Z.land_ones by lia. change (2 ^ 4) with 16. pose proof (Z.div_mod (byte.unsigned c) 16).
  pose proof (Z.mod_pos_bound (byte.unsigned c) 16). lia.
Qed.

Lemma hexEncode_inj a : forall b, hexEncode a = hexEncode b -> a = b.
Proof.
  induction a as [|x a IH]; intros [|y b] H; try done. unfold hexEncode in H. cbn in H.
  injection H as H1 H2 H3. destruct (nibbles x) as (Ex & ? & ?), (nibbles y) as (Ey & ? & ?).
  apply hexDigit_inj in H1, H2; try done. f_equal; [|by apply IH].
  apply byte.unsigned_inj. lia.
Qed.

(** The key determines what was offered, up to chunk count and metadata. *)
Lemma snapKey_inj s t : snapKey s = snapKey t ->
  s_height s = s_height t /\ s_format s = s_format t /\ s_hash s = s_hash t.
Proof.
  unfold snapKey. intros H. apply split_at_inj in H as [H1 H]; try by apply decimal_no_sep; vm_compute.
  apply split_at_inj in H as [H2 H]; try by apply decimal_no_sep; vm_compute.
  split_and!; [by apply decimal_inj|by apply decimal_inj|by apply hexEncode_inj].
Qed.

(** ** The offer index *)

(** Every key is listed once, under the height of its offer. *)
Record offers_ok (o : offerSet) : Prop := {
  off_listed : forall k r, byKey o !! k = Some r -> k ∈ default [] (byHeight o !! Height r);
  off_known : forall h k, k ∈ default [] (byHeight o !! h) -> exists r, byKey o !! k = Some r /\ Height r = h;
  off_nodup : forall h, NoDup (default [] (byHeight o !! h));
  off_keyed : forall k r, byKey o !! k = Some r ->
    exists s, k = snapKey s /\ s_height s = Height r /\ s_format s = Format r /\ s_hash s = Hash r
}.

Lemma newOfferSet_ok : offers_ok newOfferSet.
Proof.
  split; cbn.
  - intros k r H. by rewrite lookup_empty in H.
  - intros h k H. rewrite lookup_empty in H. by apply elem_of_nil in H.
  - intros h. rewrite lookup_empty. constructor.
  - intros k r H. by rewrite lookup_empty in H.
Qed.

Lemma add_ok o s p : offers_ok o -> offers_ok (fst (add o s p)).
Proof.
  intros [H1 H2 H3 H4]. unfold add. destruct (byKey o !! snapKey s) as [r|] eqn:E; cbn [fst].
  - split; cbn.
    + intros k r' Hk. apply lookup_insert_Some in Hk as [[<- <-]|[_ Hk]]; [exact (H1 _ _ E)|by apply H1].
    + intros h k Hk. destruct (H2 h k Hk) as (r' & Hr' & Hh).
      destruct (decide (k = snapKey s)) as [->|Hne].
      * rewrite lookup_insert_eq. eexists. split; [done|]. cbn. congruence.
      * rewrite lookup_insert_ne by done. eauto.
    + done.
    + intros k r' Hk. apply lookup_insert_Some in Hk as [[<- <-]|[_ Hk]]; [exact (H4 _ _ E)|by apply H4].
  - assert (Hfresh : forall h, snapKey s ∉ default [] (byHeight o !! h)).
    { intros h Hin. destruct (H2 _ _ Hin) as (r & Hr & _). congruence. }
    split; cbn.
    + intros k r' Hk. apply lookup_insert_Some in Hk as [[<- <-]|[Hne Hk]]; cbn.
      * rewrite lookup_insert_eq. cbn. apply elem_of_app. right. by left.
      * destruct (decide (Height r' = s_height s)) as [E'|Hne'].
        -- rewrite E', lookup_insert_eq. cbn. apply elem_of_app. left. rewrite <- E'. by apply H1.
        -- rewrite lookup_insert_ne by done. by apply H1.
    + intros h k Hk. destruct (decide (h = s_height s)) as [->|Hne].
      * rewrite lookup_insert_eq in Hk. cbn in Hk. apply elem_of_app in Hk as [Hk|Hk%list_elem_of_singleton].
        -- destruct (H2 _ _ Hk) as (r & Hr & Hh). rewrite lookup_insert_ne by (intros E'; rewrite <- E' in Hk; exact (Hfresh _ Hk)). eauto.
        -- subst k. rewrite lookup_insert_eq. by eexists.
      * rewrite lookup_insert_ne in Hk by done. destruct (H2 _ _ Hk) as (r & Hr & Hh).
        rewrite lookup_insert_ne by (intros E'; rewrite <- E' in Hk; exact (Hfresh _ Hk)). eauto.
    + intros h. destruct (decide (h = s_height s)) as [->|Hne].
      * rewrite lookup_insert_eq. cbn. apply NoDup_app. split; [done|]. split; [|by apply NoDup_singleton].
        intros x Hx ->%list_elem_of_singleton. by apply (Hfresh _ Hx).
      * by rewrite lookup_insert_ne.
    + intros k r' Hk. apply lookup_insert_Some in Hk as [[<- <-]|[_ Hk]]; [by exists s|by apply H4].
Qed.

Fixpoint add_all (o : offerSet) (l : list (Snapshot * peerID)) : offerSet :=
  match l with
  | [] => o
  | (s, p) :: r => add_all (fst (add o s p)) r
  end.

Lemma add_all_ok l : forall o, offers_ok o -> offers_ok (add_all o l).
Proof. induction l as [|[s p] l IH]; intros o H; [done|]. cbn. by apply IH, add_ok. Qed.

Lemma at_height_spec o h k r : offers_ok o ->
  (k, r) ∈ at_height o h <-> byKey o !! k = Some r /\ Height r = h.
Proof.
  intros H. unfold at_height, entries_of. rewrite list_elem_of_omap. split.
  - intros (k' & Hin & E). destruct (off_known _ H _ _ Hin) as (r' & Hr & Hh). rewrite Hr in E. cbn in E.
    injection E as <- <-. done.
  - intros [Hr Hh]. exists k. rewrite Hr. split; [|done]. rewrite <- Hh. by apply off_listed.
Qed.

Lemma elem_heights_in o min max h :
  h ∈ heights_in o min max <-> is_Some (byHeight o !! h) /\ above min max h = true.
Proof.
  unfold heights_in. rewrite merge_sort_Permutation, list_elem_of_In, List.filter_In, <- list_elem_of_In.
  rewrite list_elem_of_fmap. split.
  - intros [([h' ks] & -> & Hin) ?]. split; [|done]. apply elem_of_map_to_list in Hin. by eexists.
  - intros [[ks Hks] ?]. split; [|done]. exists (h, ks). split; [done|]. by apply elem_of_map_to_list.
Qed.

#[local] Instance newer_total : Total newer.
Proof. intros a b. unfold newer. lia. Qed.
#[local] Instance newer_trans : Transitive newer.
Proof. intros a b c. unfold newer. lia. Qed.

Lemma sorted_concat o hs :
  offers_ok o -> StronglySorted newer hs ->
  StronglySorted (fun a b => newer (Height (snd a)) (Height (snd b))) (concat (map (at_height o) hs)).
Proof.
  intros H. induction 1 as [|h hs Hs IH Hh]; [constructor|]. cbn.
  assert (Happ : forall l1 l2, Forall (fun x => Height (snd x) = h) l1 -> Forall (fun x => newer h (Height (snd x))) l2 ->
    StronglySorted (fun a b : bytes * snapshotOffer => newer (Height (snd a)) (Height (snd b))) l2 ->
    StronglySorted (fun a b => newer (Height (snd a)) (Height (snd b))) (l1 ++ l2)).
  { intros l1 l2 H1 H2 H3. induction H1 as [|x l1 Hx H1 IH1]; [done|]. cbn. constructor; [done|].
    apply Forall_app. split.
    - eapply Forall_impl; [exact H1|]. intros y Hy. unfold newer. cbn in *. lia.
    - eapply Forall_impl; [exact H2|]. intros y Hy. cbn in *. by rewrite Hx. }
  apply Happ; [| |done].
  - apply Forall_forall. intros [k r] Hin. by apply (at_height_spec o h k r H) in Hin as [_ ?].
  - apply Forall_forall. intros [k r] Hin. apply list_elem_of_In, in_concat in Hin as (l & Hl & Hin).
    apply in_map_iff in Hl as (h' & <- & Hh'). apply list_elem_of_In in Hin, Hh'.
    apply (at_height_spec o h' k r H) in Hin as [_ <-]. rewrite Forall_forall in Hh. by apply Hh.
Qed.

(** However offers arrive, [atOrAbove] returns exactly the distinct offers whose
    height lies in the window (no upper bound when [max] is 0), newest first, and
    [at] exactly those of one height. *)
Theorem offers_in_window l min max :
  let o := add_all newOfferSet l in
  (forall k r, (k, r) ∈ atOrAbove o min max <->
     byKey o !! k = Some r /\ min <= Height r /\ (max = 0 \/ Height r <= max)) /\
  StronglySorted (fun a b => newer (Height (snd a)) (Height (snd b))) (atOrAbove o min max) /\
  (forall h k r, (k, r) ∈ at_height o h <-> byKey o !! k = Some r /\ Height r = h).
Proof.
  cbv zeta. set (o := add_all newOfferSet l). assert (H : offers_ok o) by apply add_all_ok, newOfferSet_ok.
  clearbody o. split_and!.
  - intros k r. unfold atOrAbove. rewrite list_elem_of_In, in_concat. split.
    + intros (es & Hes & Hin). apply in_map_iff in Hes as (h & <- & Hh). apply list_elem_of_In in Hin, Hh.
      apply (at_height_spec o h k r H) in Hin as [Hk <-]. apply elem_heights_in in Hh as [_ Ha].
      split; [done|]. unfold above in Ha. apply andb_prop in Ha as [Ha1 Ha2].
      apply negb_true_iff, Z.ltb_ge in Ha1. apply orb_prop in Ha2 as [?%Z.eqb_eq|?%Z.leb_le]; lia.
    + intros (Hk & Hmin & Hmax). exists (at_height o (Height r)). split.
      * apply in_map, list_elem_of_In, elem_heights_in. split.
        -- pose proof (off_listed _ H k r Hk) as Hin. destruct (byHeight o !! Height r); [by eexists|].
           by apply elem_of_nil in Hin.
        -- unfold above. rewrite (proj2 (Z.ltb_ge _ _)) by done. cbn [negb andb].
           destruct (Z.eqb_spec max 0); [done|]. cbn. apply Z.leb_le. lia.
      * by apply list_elem_of_In, at_height_spec.
  - apply sorted_concat; [done|]. apply StronglySorted_merge_sort; apply _.
  - intros h k r. by apply at_height_spec.
Qed.

(** ** The walk *)

Definition deadlines (evs : list event) : nat :=
  length (List.filter (fun e => match e with EvDeadline => true | _ => false end) evs).

Section WalkProofs.
Context (cfg : Config) (nt : net) (targets : list Z).
Abbreviation minH := (minH cfg).
Abbreviation maxH := (maxH cfg).

(** What asking peers leaves alone. *)
Definition only_asks (w w' : walk) : Prop :=
  offers w' = offers w /\ queue w' = queue w /\ failed w' = failed w /\ jumps w' = jumps w.

Lemma only_asks_trans a b c : only_asks a b -> only_asks b c -> only_asks a c.
Proof using Type. unfold only_asks. intuition congruence. Qed.

Lemma fold_only_asks {A} (f : walk -> A -> walk) l :
  (forall w x, only_asks w (f w x)) -> forall w, only_asks w (fold_left f l w).
Proof using Type.
  intros Hf. induction l as [|x l IH]; intros w; [done|]. cbn. eapply only_asks_trans; [apply Hf|apply IH].
Qed.

Lemma ask_peer_only k o w p : only_asks w (ask_peer nt k o w p).
Proof using Type.
  unfold ask_peer. case_bool_decide; [done|]. destruct (negb _); [done|]. by destruct (accepts nt p).
Qed.

Lemma dispatch_only target w : only_asks w (dispatch cfg nt target w).
Proof using Type. apply fold_only_asks. intros w' e. apply fold_only_asks. intros. apply ask_peer_only. Qed.

(** How a wait may end, relative to where it began. *)
Definition wait_ok (target : Z) (w : walk) (evs : list event) (r : wait_result) : Prop :=
  match r with
  | Waiting _ => deadlines evs = 0%nat
  | TimedOut w' rest => offers_ok (offers w') /\ queue w' = queue w /\ jumps w' = jumps w /\
      deadlines evs = S (deadlines rest) /\ rest `suffix_of` evs
  | Jumped w' rest => offers_ok (offers w') /\ TargetHeight cfg = 0 /\ jumps w < maxJumps targets /\
      jumps w' = jumps w + 1 /\ deadlines evs = deadlines rest /\ rest `suffix_of` evs /\
      exists h, queue w' = h :: target :: queue w /\ target < h
  | Accepted o data p w' => verifyChunkZero o data = Ret tt /\
      (exists k, byKey (offers w') !! k = Some o) /\ target <= Height o /\ (maxH = 0 \/ Height o <= maxH) /\
      EvChunk p (Height o) (Format o) 0 data false ∈ evs
  | _ => True
  end.

Lemma wait_ok_mono target w w' ev evs r :
  queue w' = queue w -> jumps w' = jumps w -> deadlines (ev :: evs) = deadlines evs ->
  wait_ok target w' evs r -> wait_ok target w (ev :: evs) r.
Proof using Type.
  intros E1 E2 E3. destruct r; cbn [wait_ok]; rewrite ?E1, ?E2, ?E3; [done|..].
  - intros (? & ? & ? & ? & ?). split_and!; try done. by apply suffix_cons_r.
  - intros (? & ? & ? & ? & ? & ? & ?). split_and!; try done. by apply suffix_cons_r.
  - done.
  - intros (? & ? & ? & ? & ?). split_and!; try done. by right.
  - done.
  - done.
Qed.

Lemma match_offer_spec es format data o :
  match_offer es format data = Ret (Some o) ->
  exists k, (k, o) ∈ es /\ Format o = format /\ verifyChunkZero o data = Ret tt.
Proof using Type.
  induction es as [|[k o'] es IH]; cbn; [done|]. destruct (Z.eqb_spec (Format o') format); cbn [negb].
  - destruct (verifyChunkZero o' data) as [[]| | |] eqn:E; try done.
    + intros [= ->]. exists k. split; [by left|done].
    + intros H. destruct (IH H) as (k' & Hk & Hv). exists k'. split; [by right|done].
  - intros H. destruct (IH H) as (k' & Hk & Hv). exists k'. split; [by right|done].
Qed.

Lemma height_loop_ok target evs : forall w, offers_ok (offers w) ->
  wait_ok target w evs (height_loop cfg nt targets target w evs).
Proof using Type.
  induction evs as [|ev evs IH]; intros w Ho; [done|]. destruct ev as [| |s p|p height format index data missing];
    cbn [height_loop]; [cbn; split_and!; try done; by apply suffix_cons_r|done| |].
  - set (w1 := set_offers _ w). assert (Ho1 : offers_ok (offers w1)) by by apply add_ok.
    destruct (_ && _) eqn:Ej.
    + apply andb_prop in Ej as [Ej Hj%Z.ltb_lt]. apply andb_prop in Ej as [Ht%Z.eqb_eq Hc].
      cbn. split_and!; try done; [by apply suffix_cons_r|]. exists (s_height s). split; [done|]. unfold isJumpCandidate in Hc.
      destruct (Z.leb_spec (s_height s) target); [done|lia].
    + destruct ((target <=? s_height s) && ((maxH =? 0) || (s_height s <=? maxH))).
      * pose proof (dispatch_only target w1) as (E1 & E2 & E3 & E4).
        eapply wait_ok_mono; [| |reflexivity|apply IH; by rewrite E1]; [by rewrite E2|by rewrite E4].
      * eapply wait_ok_mono; [| |reflexivity|by apply IH]; done.
  - destruct (_ || _) eqn:E1; [eapply wait_ok_mono; [| |reflexivity|by apply IH]; done|].
    destruct (_ && _) eqn:E2; [eapply wait_ok_mono; [| |reflexivity|by apply IH]; done|].
    destruct (_ || _) eqn:E3 in |- *; [eapply wait_ok_mono; [| |reflexivity|by apply IH]; done|].
    destruct (match_offer _ _ _) as [[o|]| | |] eqn:Em; try done.
    + destruct (match_offer_spec _ _ _ _ Em) as (k & Hk & Hf & Hv).
      apply (at_height_spec _ _ _ _ Ho) in Hk as [Hk Hh]. apply orb_false_iff in E1 as [Hi%negb_false_iff%Z.eqb_eq Ht%Z.ltb_ge].
      apply orb_false_iff in E3 as [Hmi _]. cbn. split_and!; [done|by exists k|lia| |].
      * apply andb_false_iff in E2 as [E2|E2%Z.ltb_ge]; [|right; lia].
        left. apply negb_false_iff, Z.eqb_eq in E2. done.
      * rewrite Hh, Hf, <- Hi, <- Hmi. by left.
    + destruct (reach nt p); (eapply wait_ok_mono; [| |reflexivity|by apply IH]; done).
Qed.

(** What is left to do: each jump may put two heights on the queue. *)
Definition todo (w : walk) : Z := 2 * (maxJumps targets - jumps w) + len (queue w).







(** *** Offers that panic

    Metadata that claims a hash longer than 2^47 bytes, or a snapshot hash of
    fewer than 8 bytes, can make the program panic; nothing else can. *)

Definition deadly (s : Snapshot) : Prop :=
  (exists i, 2 ^ 47 <= fst (Uvarint (drop i (s_metadata s)))) \/ len (s_hash s) < 8.

Lemma parse_loop_returns metadata fuel : len metadata < 2 ^ 62 -> forall i out, 0 <= i ->
  len metadata - i < Z.of_nat fuel ->
  match parseChunkHashes_loop fuel metadata i out with
  | Ret _ | Err _ => True
  | Panic _ => exists i, 2 ^ 47 <= fst (Uvarint (drop i metadata))
  | NoFuel => False
  end.
Proof using Type.
  intros Hm. induction fuel as [|fuel IH]; intros i out Hi Hf; cbn [parseChunkHashes_loop].
  - destruct (Z.ltb_spec i (len metadata)); [lia|done].
  - destruct (Z.ltb_spec i (len metadata)) as [Hlt|]; cbn [negb]; [|done].
    unfold go_index. rewrite (proj2 (Z.leb_le 0 i)), (proj2 (Z.ltb_lt i _)) by lia. cbn [andb].
    destruct (nth_error _ _) eqn:En; cbn [mbind outcome_bind];
      [|apply nth_error_None in En; unfold len in Hlt; lia].
    destruct (negb _); [done|]. unfold go_from. rewrite (proj2 (Z.leb_le 0 _)), (proj2 (Z.leb_le (i + 1) _)) by lia.
    cbn [andb mbind outcome_bind]. destruct (Uvarint _) as [length n] eqn:Eu. destruct (Uvarint_bounds _ _ _ Eu) as [Hl Hn].
    destruct (Z.leb_spec n 0); [done|]. rewrite len_drop in Hn by (unfold len in Hlt; lia).
    destruct (Z_lt_le_dec length (2 ^ 47)) as [Hsmall|Hbig].
    + rewrite (i64_small length), i64_small by lia.
      destruct (Z.ltb_spec (len metadata) (i + 1 + n + length)); [done|].
      rewrite (proj2 (Z.ltb_ge maxAlloc length)) by (unfold maxAlloc; lia).
      unfold go_slice. rewrite (proj2 (Z.leb_le 0 _)), (proj2 (Z.leb_le _ (i + 1 + n + length))), (proj2 (Z.leb_le _ (len metadata))) by lia.
      cbn [andb mbind outcome_bind]. apply IH; lia.
    + assert (Hex : exists i, 2 ^ 47 <= fst (Uvarint (drop i metadata)))
        by (exists (Z.to_nat (i + 1)); by rewrite Eu).
      destruct (Z.ltb_spec (len metadata) (i64 (i + 1 + n + i64 length))); [done|].
      destruct (Z.ltb_spec maxAlloc length); [done|]. unfold maxAlloc in *.
      rewrite (i64_small length), i64_small in * by lia.
      unfold go_slice. destruct (_ && _); cbn [mbind outcome_bind]; [|done]. apply IH; lia.
Qed.

Context (S : list Snapshot) (Hsmall : Forall (fun s => len (s_metadata s) < 2 ^ 62) S).

(** The offers are those of [S]. *)
Definition known (o : offerSet) : Prop := forall k r, byKey o !! k = Some r ->
  exists s, s ∈ S /\ Metadata r = s_metadata s /\ Hash r = s_hash s.
Definition sent (evs : list event) : Prop := forall s p, EvOffer s p ∈ evs -> s ∈ S.

Lemma add_known o s p : known o -> s ∈ S -> known (fst (add o s p)).
Proof using Type.
  intros Ho Hs k r. unfold add. destruct (byKey o !! snapKey s) as [r'|] eqn:E; cbn [fst byKey].
  - intros [[<- <-]|[_ H]]%lookup_insert_Some; [exact (Ho _ _ E)|by eapply Ho].
  - intros [[<- <-]|[_ H]]%lookup_insert_Some; [by exists s|by eapply Ho].
Qed.

Lemma sent_suffix evs rest : sent evs -> rest `suffix_of` evs -> sent rest.
Proof using Type. intros Hs [pre ->] s p Hin. apply (Hs s p). apply elem_of_app. by right. Qed.

Lemma match_offer_known o h format data : offers_ok o -> known o ->
  match match_offer (at_height o h) format data with
  | Ret _ => True
  | Panic _ => exists s, s ∈ S /\ deadly s
  | _ => False
  end.
Proof using Hsmall.
  intros Hok Hk. assert (Hall : forall k r, (k, r) ∈ at_height o h -> exists s, s ∈ S /\ Metadata r = s_metadata s).
  { intros k r Hin. apply at_height_spec in Hin as [Hin _]; [|done]. destruct (Hk _ _ Hin) as (s & ? & ? & _). by exists s. }
  revert Hall. induction (at_height o h) as [|[k r] es IH]; intros Hall; cbn [match_offer]; [done|].
  specialize (IH (fun k r Hin => Hall k r (list_elem_of_further _ _ _ Hin))).
  destruct (negb _); [done|]. destruct (Hall k r ltac:(by left)) as (s & Hs & Em). rewrite Forall_forall in Hsmall.
  pose proof (parse_loop_returns _ (1 + length (s_metadata s)) (Hsmall s Hs) 0 [] ltac:(lia) ltac:(unfold len; lia)) as Hp.
  unfold verifyChunkZero, parseChunkHashes. rewrite Em.
  destruct (parseChunkHashes_loop _ _ _ _) as [hs|e|m|]; cbn [wrap_out mbind outcome_bind]; [|done| |done].
  - destruct (negb _); [done|]. destruct hs; [done|]. by case_bool_decide.
  - exists s. split; [done|]. by left.
Qed.

Lemma height_loop_known target evs : forall w, offers_ok (offers w) -> known (offers w) -> sent evs ->
  match height_loop cfg nt targets target w evs with
  | TimedOut w' _ | Jumped w' _ | Accepted _ _ _ w' => known (offers w')
  | WaitPanic _ => exists s, s ∈ S /\ deadly s
  | WaitNoFuel => False
  | _ => True
  end.
Proof using Hsmall.
  induction evs as [|ev evs IH]; intros w Ho Hk Hs; [done|].
  assert (Hs' : sent evs) by (eapply sent_suffix; [exact Hs|by apply suffix_cons_r]).
  destruct ev as [| |s p|p height format index data missing]; cbn [height_loop]; [done|done| |].
  - assert (Ho1 : offers_ok (fst (add (offers w) s p))) by by apply add_ok.
    assert (Hk1 : known (fst (add (offers w) s p))) by (apply add_known; [done|]; eapply Hs; by left).
    set (w1 := set_offers _ w). destruct (_ && _); [done|].
    destruct ((target <=? s_height s) && _); [|by apply IH].
    pose proof (dispatch_only target w1) as (E1 & _). by apply IH; rewrite ?E1.
  - destruct (_ || _); [by apply IH|]. destruct (_ && _); [by apply IH|]. destruct (_ || _) in |- *; [by apply IH|].
    pose proof (match_offer_known (offers w) height format data Ho Hk) as Hm.
    destruct (match_offer _ _ _) as [[o|]| | |]; [done| |done|done|done].
    destruct (reach nt p); by apply IH.
Qed.

Lemma len_hexEncode b : len (hexEncode b) = 2 * len b.
Proof using Type. induction b as [|c b IH]; [done|]. unfold hexEncode in *. cbn [map concat]. rewrite len_app, len_cons, IH. unfold len. cbn. lia. Qed.

Lemma walk_loop_ends fuel : forall w evs,
  offers_ok (offers w) -> known (offers w) -> sent evs -> 0 <= jumps w <= maxJumps targets -> todo w <= Z.of_nat fuel ->
  match walk_loop cfg nt fuel targets w evs with
  | Found _ _ _ _ | Failed _ _ => True
  | WalkPanic _ => exists s, s ∈ S /\ deadly s
  | StillWaiting _ => Z.of_nat (deadlines evs) < todo w
  | WalkNoFuel => False
  end.
Proof using Hsmall.
  induction fuel as [|fuel IH]; intros w evs Ho Hk Hs Hj Hf; destruct (queue w) as [|target q] eqn:Eq;
    cbn [walk_loop]; rewrite Eq; try done.
  - unfold todo in Hf. rewrite Eq, len_cons in Hf. pose proof (len_nonneg q). lia.
  - unfold todo in *. rewrite Eq, len_cons in *. pose proof (len_nonneg q).
    set (w0 := set_queue q w). case_bool_decide.
    + specialize (IH w0 evs Ho Hk Hs Hj ltac:(cbn; lia)). destruct (walk_loop _ _ _ _ _ _); try done. cbn in IH. lia.
    + pose proof (dispatch_only target w0) as (E1 & E2 & _ & E4).
      pose proof (height_loop_ok target evs (dispatch cfg nt target w0) ltac:(by rewrite E1)) as Hr.
      pose proof (height_loop_known target evs (dispatch cfg nt target w0) ltac:(by rewrite E1) ltac:(by rewrite E1) Hs) as Hr'.
      destruct (height_loop _ _ _ _ _ _) as [w'|w' rest|w' rest| |o c0 p w'|m|]; cbn [wait_ok] in Hr; try done.
      * lia.
      * destruct Hr as (Ho' & Eq' & Ej' & Ed & Hsuf). rewrite E2 in Eq'. rewrite E4 in Ej'. cbn in Eq', Ej'.
        destruct (negb _); [done|].
        specialize (IH (set_failed ({[target]} ∪ failed w') w') rest Ho' Hr' (sent_suffix _ _ Hs Hsuf) ltac:(cbn; lia) ltac:(cbn; rewrite Eq'; lia)).
        destruct (walk_loop _ _ _ _ _ _); try done. cbn in IH. rewrite Eq' in IH. lia.
      * destruct Hr as (Ho' & _ & Hlt & Ej' & Ed & Hsuf & h & Eq' & _). rewrite E2 in Eq'. rewrite E4 in Ej', Hlt.
        cbn in Eq', Ej', Hlt.
        specialize (IH w' rest Ho' Hr' (sent_suffix _ _ Hs Hsuf) ltac:(lia) ltac:(rewrite Eq', !len_cons; lia)).
        destruct (walk_loop _ _ _ _ _ _); try done. rewrite Eq', !len_cons in IH. lia.
      * destruct Hr as (_ & (k & Hko) & _). destruct (Hr' _ _ Hko) as (s & Hin & _ & Eh).
        unfold go_slice. destruct (_ && _) eqn:Eb; [done|]. exists s. split; [done|]. right.
        rewrite len_hexEncode, Eh in Eb. lia.
Qed.

End WalkProofs.




(** The offers among the events. *)
Definition made (evs : list event) : list Snapshot :=
  omap (fun e => match e with EvOffer s _ => Some s | _ => None end) evs.

Lemma sent_made S evs : (forall s, s ∈ made evs -> s ∈ S) -> sent S evs.
Proof.
  intros H s p Hin. apply H, list_elem_of_omap. by exists (EvOffer s p).
Qed.

Lemma known_add_all S l : forall o, known S o -> (forall s, s ∈ map fst l -> s ∈ S) -> known S (add_all o l).
Proof.
  induction l as [|[s p] l IH]; intros o Ho Hl; [done|]. cbn in *. apply IH.
  - apply add_known; [done|]. apply Hl. by left.
  - intros s' Hs. apply Hl. by right.
Qed.

Lemma known_new S : known S newOfferSet.
Proof. intros k r H. cbn in H. by rewrite lookup_empty in H. Qed.

(** C14: The walk ends: however adversarial the offers (before the walk, [l], and
    during it), at most [5 * length targets + 1] heights are taken off the queue,
    so with that many deadlines it has found a snapshot or failed - it neither
    loops nor waits for ever, and neither does the metadata decoder - unless it
    panicked; and it panics only because of an offer a peer made whose metadata
    claims a hash of 2^47 bytes or more, or whose snapshot hash has fewer than 8
    bytes.  Metadata is shorter than 2^62 bytes. *)
Theorem walk_terminates cfg nt l targets evs :
  targets_of cfg = Ret targets -> (walk_fuel targets <= deadlines evs)%nat ->
  Forall (fun s => len (s_metadata s) < 2 ^ 62) (map fst l ++ made evs) ->
  exists r, walkBackward cfg nt (add_all newOfferSet l) evs = Ret r /\
    match r with
    | Found _ _ _ _ | Failed _ _ => True
    | WalkPanic _ => exists s, s ∈ map fst l ++ made evs /\
        ((exists i, 2 ^ 47 <= fst (Uvarint (drop i (s_metadata s)))) \/ len (s_hash s) < 8)
    | StillWaiting _ | WalkNoFuel => False
    end.
Proof.
  intros Et Hd Hs. unfold walkBackward. rewrite Et. cbn [mbind outcome_bind].
  set (w0 := init_walk (add_all newOfferSet l) targets).
  pose proof (len_nonneg targets) as Hl.
  assert (Htodo : todo targets w0 <= 5 * len targets) by (unfold todo, maxJumps; cbn; lia).
  assert (Hd' : todo targets w0 <= Z.of_nat (deadlines evs)) by (unfold walk_fuel in Hd; unfold len in Htodo; lia).
  eexists. split; [done|].
  assert (He := walk_loop_ends cfg nt targets _ Hs (walk_fuel targets) w0 evs (add_all_ok _ _ newOfferSet_ok)).
  lapply He; clear He; [intros He|apply known_add_all; [apply known_new|]; intros s ?; apply elem_of_app; by left].
  lapply He; clear He; [intros He|apply sent_made; intros s ?; apply elem_of_app; by right].
  lapply He; clear He; [intros He|unfold maxJumps; cbn; lia].
  lapply He; clear He; [intros He|unfold walk_fuel, len in *; lia].
  destruct (walk_loop _ _ _ _ _ _); try done. lia.
Qed.

(** ** Metadata *)

Definition encodeChunkHashes (hs : list bytes) : bytes := concat (map (appendBytesField [] 1) hs).

Lemma parse_loop_spec hs : forall fuel pre out,
  len (pre ++ encodeChunkHashes hs) < 2 ^ 47 -> (length hs < fuel)%nat ->
  parseChunkHashes_loop fuel (pre ++ encodeChunkHashes hs) (len pre) out = Ret (out ++ hs).
Proof.
  induction hs as [|h hs IH]; intros [|fuel] pre out Hb Hf; try (cbn in Hf; lia).
  - cbn. by rewrite !app_nil_r, Z.ltb_irrefl.
  - cbn [parseChunkHashes_loop].
    change (encodeChunkHashes (h :: hs)) with (appendBytesField [] 1 h ++ encodeChunkHashes hs) in *.
    assert (Ea : appendBytesField [] 1 h ++ encodeChunkHashes hs =
      byte.of_Z 10 :: PutUvarint (len h) ++ h ++ encodeChunkHashes hs) by (unfold appendBytesField; cbn; by rewrite <- app_assoc).
    rewrite Ea in *. set (post := encodeChunkHashes hs) in *.
    pose proof (field_at pre (byte.of_Z 10) h post ltac:(lia)) as (H1 & H2 & H3 & H4 & H5 & H6 & H7 & H8 & H9).
    rewrite H1. cbn [negb]. rewrite H2. cbn [mbind outcome_bind].
    replace (byte.unsigned (byte.of_Z 10) =? 10) with true by reflexivity. cbn [negb].
    rewrite H3. cbn [mbind outcome_bind]. rewrite H4. cbv iota beta. rewrite H5, H6, H7, H8. unfold maxAlloc.
    rewrite (proj2 (Z.ltb_ge _ (len h))) by (len_simpl; pose proof (len_nonneg pre); pose proof (len_nonneg post);
      pose proof (PutUvarint_pos (len h)); lia).
    rewrite H9. cbn [mbind outcome_bind].
    replace (len pre + 1 + len (PutUvarint (len h)) + len h) with (len (pre ++ byte.of_Z 10 :: PutUvarint (len h) ++ h))
      by (len_simpl; lia).
    replace (pre ++ byte.of_Z 10 :: PutUvarint (len h) ++ h ++ post) with
      ((pre ++ byte.of_Z 10 :: PutUvarint (len h) ++ h) ++ post) in * by (by rewrite <- !app_assoc; cbn; rewrite <- app_assoc).
    unfold post in *. rewrite IH; [by rewrite <- app_assoc|done|cbn in Hf; lia].
Qed.

(** The hand-written decoder returns exactly the hashes a proto3 encoder put into
    the metadata, and chunk 0 is accepted exactly when it has the first of them. *)
Theorem chunkHashes_roundtrip hs offer data :
  len (encodeChunkHashes hs) < 2 ^ 47 -> Metadata offer = encodeChunkHashes hs ->
  parseChunkHashes (encodeChunkHashes hs) = Ret hs /\
  (verifyChunkZero offer data = Ret tt <->
     u32 (len hs) = Chunks offer /\ hs !! 0%nat = Some (sha256 data)).
Proof.
  intros Hb Hm.
  assert (Hlen : (length hs <= length (encodeChunkHashes hs))%nat).
  { clear. induction hs as [|h hs IH]; [done|]. unfold encodeChunkHashes in *. cbn [map concat length].
    rewrite length_app. pose proof (length_field_pos 1 h). lia. }
  assert (Hp : parseChunkHashes (encodeChunkHashes hs) = Ret hs)
    by (apply (parse_loop_spec hs _ []); [done|cbn; lia]).
  split; [done|]. unfold verifyChunkZero. rewrite Hm, Hp. cbn [wrap_out mbind outcome_bind].
  destruct (Z.eqb_spec (u32 (len hs)) (Chunks offer)) as [E|E]; cbn [negb]; [|split; [done|by intros [? _]]].
  destruct hs as [|h0 hs]; [split; [done|by intros [_ ?]]|]. cbn. case_bool_decide as Hd.
  - split; [|done]. intros _. split; [done|]. by rewrite Hd.
  - split; [done|]. intros [_ [= ->]]. done.
Qed.

(** ** A sample walk *)

(** One peer offers a snapshot of one chunk at height 1200. *)
Definition sample_chunk : bytes := str "chunk zero".
Definition sample_peer : peerID := str "peer".
Definition sample_offer : Snapshot := mkSnapshot 1200 1 1 (str "snapshot hash") (encodeChunkHashes [sha256 sample_chunk]).
Definition sample_cfg : Config := mkConfig 0 1000 1250 100.
Definition sample_net : net := mkNet (fun _ => true) (fun _ => true) elements.





Lemma walk_terminates_witness :
  let evs := EvOffer sample_offer sample_peer :: repeat EvDeadline 16 in
  exists r, walkBackward sample_cfg sample_net (add_all newOfferSet [(sample_offer, sample_peer)]) evs = Ret r /\
    match r with
    | Found _ _ _ _ | Failed _ _ => True
    | WalkPanic _ => exists s, s ∈ map fst [(sample_offer, sample_peer)] ++ made evs /\
        ((exists i, 2 ^ 47 <= fst (Uvarint (drop i (s_metadata s)))) \/ len (s_hash s) < 8)
    | StillWaiting _ | WalkNoFuel => False
    end.
Proof.
  apply (walk_terminates sample_cfg sample_net [(sample_offer, sample_peer)] [1200; 1100; 1000]); [reflexivity| |].
  - apply Nat.leb_le. reflexivity.
  - repeat constructor; vm_compute; reflexivity.
Defined.

Definition sample_record : snapshotOffer :=
  mkOffer 1200 1 1 (str "snapshot hash") (encodeChunkHashes [sha256 sample_chunk]) {[sample_peer]}.

Lemma chunkHashes_roundtrip_witness :
  parseChunkHashes (encodeChunkHashes [sha256 sample_chunk]) = Ret [sha256 sample_chunk] /\
  (verifyChunkZero sample_record sample_chunk = Ret tt <->
     u32 (len [sha256 sample_chunk]) = Chunks sample_record /\ [sha256 sample_chunk] !! 0%nat = Some (sha256 sample_chunk)).
Proof.
  apply (chunkHashes_roundtrip [sha256 sample_chunk] sample_record sample_chunk); [|reflexivity].
  apply Z.ltb_lt. vm_compute. reflexivity.
Defined.

(** ** What the walk makes of odd offers *)

(** An offer above the configured maximum is no candidate for acceptance, yet
    the walk jumps to its height and waits there. *)
Lemma jump_ignores_MaxHeight :
  let far := mkSnapshot 999999 1 1 (str "hash") [] in
  offerInWindow (s_height far) sample_cfg = false /\
  match height_loop sample_cfg sample_net [1200] 1200 (init_walk newOfferSet []) [EvOffer far sample_peer] with
  | Jumped w _ => queue w = [999999; 1200]
  | _ => False
  end.
Proof. split; [reflexivity|]. cbn. reflexivity. Qed.

(** A snapshot hash of fewer than 8 bytes is accepted and panics in the log line. *)
Lemma short_offer_hash_panics :
  match walkBackward sample_cfg sample_net newOfferSet
    [EvOffer (mkSnapshot 1200 1 1 (str "short") (s_metadata sample_offer)) sample_peer;
     EvChunk sample_peer 1200 1 0 sample_chunk false] with
  | Ret (WalkPanic _) => True
  | _ => False
  end.
Proof.
  set (r := walkBackward _ _ _ _).
  assert (H : match r with Ret (WalkPanic _) => true | _ => false end = true) by (vm_compute; reflexivity).
  destruct r as [[| | | |]| | |]; done.
Qed.
