(* ===== verification/Index.v ===== *)
(** * The snapshot index (internal/snapshotimport/index.go, and
      buildIndexFromReader of parallel.go)

    [indexScanner] walks the decompressed stream through a read-ahead buffer and
    records where every store begins and ends without decoding its items.  The
    reader below it is free to cut the stream anywhere.  The main theorems: the
    scanner's view does not depend on the cutting, and the index of a stream of
    stores gives exactly the byte range, item count and size of each. *)

From S2P Require Import Prelude Varint IavlEnc CommitInfo SnapProto.

(** ** Readers *)

(** An [io.Reader]: what its next calls have to give, and the error after that.
    [with_last] is the freedom to return that error together with the last bytes. *)
Record reader := mkReader { rd_chunks : list bytes; rd_end : goerr; with_last : bool }.

(** [r.Read(p)] with [len(p) = n]. *)
Definition Read (n : Z) (r : reader) : bytes * option goerr * reader :=
  match rd_chunks r with
  | [] => ([], Some (rd_end r), r)
  | c :: cs =>
      if len c <=? n then
        (c, if with_last r && bool_decide (cs = []) then Some (rd_end r) else None,
         mkReader cs (rd_end r) (with_last r))
      else (take (Z.to_nat n) c, None, mkReader (drop (Z.to_nat n) c :: cs) (rd_end r) (with_last r))
  end.

(** A bound on the number of calls that give something. *)
Definition reads_left (r : reader) : nat := length (rd_chunks r) + length (concat (rd_chunks r)).

(** ** The scanner *)

Definition with_state {S A} (f : S -> outcome A * S) : M S A := f.

(** The bytes between [r0] and [w0] of the code's buffer are [window]. *)
Record indexScanner := mkScanner { sc_r : reader; window : bytes; pos : Z }.

Definition scanBuf : Z := 2 ^ 20.

Definition newIndexScanner (r : reader) : indexScanner := mkScanner r [] 0.

(** [fill(1)], the only call there is: after the compaction the buffer is empty
    and never too small. *)
Fixpoint fill_loop (fuel : nat) : M indexScanner unit := fun s =>
  if 1 <=? len (window s) then (Ret tt, s) else
  match fuel with
  | O => (NoFuel, s)
  | S fuel =>
      let '(data, err, r) := Read (scanBuf - len (window s)) (sc_r s) in
      let s := mkScanner r (window s ++ data) (pos s) in
      match err with
      | None => fill_loop fuel s
      | Some EOF => if 1 <=? len (window s) then (Ret tt, s) else (Err EOF, s)
      | Some e => (Err e, s)
      end
  end.

Definition fill : M indexScanner unit := fun s => fill_loop (S (reads_left (sc_r s))) s.

Definition readByte : M indexScanner Init.Byte.byte :=
  _ ← fill;
  with_state (fun s => match window s with
                       | b :: w => (Ret b, mkScanner (sc_r s) w (pos s + 1))
                       | [] => (Panic "index out of range", s)
                       end).

Definition peekByte : M indexScanner Init.Byte.byte :=
  _ ← fill;
  with_state (fun s => match window s with
                       | b :: _ => (Ret b, s)
                       | [] => (Panic "index out of range", s)
                       end).

(** [None] is the clean end of the stream; a tenth byte above 1 is not refused. *)
Fixpoint scan_uvarint_from (n : nat) (i v shift : Z) : M indexScanner (option Z) :=
  match n with
  | O => fail (Errorf "varint overflow")
  | S n => fun s =>
      match readByte s with
      | (Ret b, s) =>
          let b := byte.unsigned b in
          if b <? 128 then (Ret (Some (Z.lor v (u64 (Z.shiftl b shift)))), s)
          else scan_uvarint_from n (i + 1) (Z.lor v (u64 (Z.shiftl (Z.land b 127) shift))) (shift + 7) s
      | (Err EOF, s) => if i =? 0 then (Ret None, s) else (Err EOF, s)
      | (Err e, s) => (Err e, s)
      | (Panic w, s) => (Panic w, s)
      | (NoFuel, s) => (NoFuel, s)
      end
  end.

Definition readUvarint : M indexScanner (option Z) := scan_uvarint_from 10 0 0 0.

Fixpoint discard_loop (fuel : nat) (n : Z) : M indexScanner unit := fun s =>
  if n <=? 0 then (Ret tt, s) else
  let avail := len (window s) in
  if n <=? avail then (Ret tt, mkScanner (sc_r s) (drop (Z.to_nat n) (window s)) (pos s + n)) else
  match fuel with
  | O => (NoFuel, s)
  | S fuel =>
      let '(data, err, r) := Read scanBuf (sc_r s) in
      let s := mkScanner r data (pos s + avail) in
      match err with
      | None => discard_loop fuel (n - avail) s
      | Some EOF => if len data =? 0 then (Err ErrUnexpectedEOF, s) else discard_loop fuel (n - avail) s
      | Some e => (Err e, s)
      end
  end.

Definition discard (n : Z) : M indexScanner unit := fun s =>
  discard_loop (S (S (reads_left (sc_r s)))) n s.

(** One turn per [copy]: the window's bytes, as far as they are wanted. *)
Fixpoint readExact_loop (fuel : nat) (n : Z) (acc : bytes) : M indexScanner bytes :=
  if n <=? 0 then mret acc else
  match fuel with
  | O => fun s => (NoFuel, s)
  | S fuel =>
      _ ← fill;
      with_state (fun s =>
        let part := take (Z.to_nat n) (window s) in
        readExact_loop fuel (n - len part) (acc ++ part)
          (mkScanner (sc_r s) (drop (length part) (window s)) (pos s + len part)))
  end.

Definition readExact (n : Z) : M indexScanner bytes := readExact_loop (Z.to_nat n) n [].

(** [if err != nil || !ok { return fmt.Errorf(msg, err) }] *)
Definition needUvarint (msg : string) : M indexScanner Z := fun s =>
  match readUvarint s with
  | (Ret (Some v), s) => (Ret v, s)
  | (Err _, s) | (Ret None, s) => (Err (Errorf msg), s)
  | (Panic w, s) => (Panic w, s)
  | (NoFuel, s) => (NoFuel, s)
  end.

Definition readStoreName (envLen : Z) : M indexScanner bytes :=
  s ← get;
  let envEnd := i64 (pos s + i64 envLen) in
  tag ← readByte;
  if negb (byte.unsigned tag =? 10) then fail (Errorf "expected store-item tag 0x0A") else
  innerLen ← needUvarint "read inner length";
  s ← get;
  let innerEnd := i64 (pos s + i64 innerLen) in
  if innerLen =? 0 then
    _ ← discard (i64 (envEnd - pos s)); mret []
  else
    nameTag ← readByte;
    if negb (byte.unsigned nameTag =? 10) then
      s ← get; _ ← discard (i64 (envEnd - pos s)); mret []
    else
      nameLen ← needUvarint "read name length";
      if maxEnvelopeBytes <? nameLen then fail (Errorf "store name exceeds cap") else
      s ← get;
      if i64 (envEnd - pos s) <? i64 nameLen then fail (Errorf "name length exceeds envelope remainder") else
      name ← readExact nameLen;
      s ← get;
      _ ← (if pos s <? innerEnd then discard (i64 (innerEnd - pos s)) else mret tt);
      s ← get;
      _ ← (if pos s <? envEnd then discard (i64 (envEnd - pos s)) else mret tt);
      mret name.

(** ** The index *)

Record StoreEntry := mkEntry {
  Name : bytes;
  DecompressedStart : Z;
  DecompressedEnd : Z;
  ItemCount : Z;
  IAVLBytes : Z
}.

(** The stores seen so far, in stream order, the last one possibly still open. *)
Record SnapshotIndex := mkIndex {
  Stores : list StoreEntry;
  ExtStart : Z;
  TotalItems : Z;
  TotalBytes : Z
}.

(** An update through [curStore], the pointer to the last entry. *)
Definition upd_last (f : StoreEntry -> StoreEntry) (l : list StoreEntry) : list StoreEntry :=
  match rev l with
  | [] => []
  | e :: r => rev (f e :: r)
  end.

Definition set_end (e : Z) (s : StoreEntry) : StoreEntry :=
  mkEntry (Name s) (DecompressedStart s) e (ItemCount s) (IAVLBytes s).
Definition count_item (n : Z) (s : StoreEntry) : StoreEntry :=
  mkEntry (Name s) (DecompressedStart s) (DecompressedEnd s) (u64 (ItemCount s + 1)) (i64 (IAVLBytes s + n)).

(** Bigger stores first, equal ones in stream order ([sort.SliceStable]). *)
Fixpoint insert_desc (e : StoreEntry) (l : list StoreEntry) : list StoreEntry :=
  match l with
  | [] => [e]
  | x :: r => if IAVLBytes x <=? IAVLBytes e then e :: l else x :: insert_desc e r
  end.
Definition sort_desc (l : list StoreEntry) : list StoreEntry := foldr insert_desc [] l.

Section Build.
(** The callbacks and the state they work on; [lift_cb] runs one. *)
Context {X : Type} (onOpen : StoreEntry -> M X unit) (onClose : bytes -> Z -> M X unit).

Record build := mkBuild { bd_sc : indexScanner; bd_idx : SnapshotIndex; bd_open : bool; bd_x : X }.

Definition scan {A} (m : M indexScanner A) : M build A :=
  zoom bd_sc (fun sc b => mkBuild sc (bd_idx b) (bd_open b) (bd_x b)) m.
Definition callback {A} (m : M X A) : M build A :=
  zoom bd_x (fun x b => mkBuild (bd_sc b) (bd_idx b) (bd_open b) x) m.
Definition set_stores (f : list StoreEntry -> list StoreEntry) (open : bool) : M build unit :=
  modify (fun b => mkBuild (bd_sc b)
    (mkIndex (f (Stores (bd_idx b))) (ExtStart (bd_idx b)) (TotalItems (bd_idx b)) (TotalBytes (bd_idx b)))
    open (bd_x b)).
Definition set_ext (e : Z) : M build unit :=
  modify (fun b => mkBuild (bd_sc b)
    (mkIndex (Stores (bd_idx b)) (if ExtStart (bd_idx b) =? 0 then e else ExtStart (bd_idx b))
       (TotalItems (bd_idx b)) (TotalBytes (bd_idx b))) (bd_open b) (bd_x b)).
Definition count_total : M build unit :=
  modify (fun b => mkBuild (bd_sc b)
    (mkIndex (Stores (bd_idx b)) (ExtStart (bd_idx b)) (u64 (TotalItems (bd_idx b) + 1)) (TotalBytes (bd_idx b)))
    (bd_open b) (bd_x b)).
Definition set_total (n : Z) : M build unit :=
  modify (fun b => mkBuild (bd_sc b)
    (mkIndex (Stores (bd_idx b)) (ExtStart (bd_idx b)) (TotalItems (bd_idx b)) n) (bd_open b) (bd_x b)).

Definition closeCur (e : Z) : M build unit :=
  b ← get;
  if negb (bd_open b) then mret tt else
  _ ← set_stores (upd_last (set_end e)) false;
  match last (Stores (bd_idx b)) with
  | Some s => callback (onClose (Name s) e)
  | None => panic "nil pointer"
  end.

Definition whenOpen (m : M build unit) : M build unit :=
  b ← get; if bd_open b then m else mret tt.

(** One envelope of [buildIndexFromReader], its length already read. *)
Definition index_item (envStart envLen : Z) : M build unit :=
  if envLen =? 0 then fail (Errorf "zero-length envelope") else
  tag ← scan (wrap_err "peek tag" peekByte);
  let field := Z.shiftr (byte.unsigned tag) 3 in
  _ ← (if field =? itemTypeStore then
         name ← scan (wrap_err "read store name" (readStoreName envLen));
         _ ← closeCur envStart;
         let e := mkEntry name envStart 0 1 0 in
         _ ← set_stores (fun l => l ++ [e]) true;
         callback (onOpen e)
       else if field =? itemTypeIAVL then
         _ ← scan (wrap_err "discard IAVL body" (discard (i64 envLen)));
         whenOpen (set_stores (upd_last (count_item (i64 envLen))) true)
       else if (field =? itemTypeExtMeta) || (field =? itemTypeExtPayload) then
         _ ← closeCur envStart;
         _ ← set_ext envStart;
         scan (wrap_err "discard ext body" (discard (i64 envLen)))
       else fail (Errorf "unknown item field"));
  count_total.

Definition finish_index (streamEnd : Z) : M build SnapshotIndex :=
  _ ← closeCur streamEnd;
  _ ← set_total streamEnd;
  b ← get;
  let idx := bd_idx b in
  mret (mkIndex (sort_desc (Stores idx)) (ExtStart idx) (TotalItems idx) (TotalBytes idx)).

Fixpoint index_loop (fuel : nat) : M build SnapshotIndex :=
  match fuel with
  | O => fun b => (NoFuel, b)
  | S fuel =>
      b ← get;
      let envStart := pos (bd_sc b) in
      envLen ← scan (wrap_err "read envelope length" readUvarint);
      match envLen with
      | None => finish_index envStart
      | Some envLen => _ ← index_item envStart envLen; index_loop fuel
      end
  end.

(** Every turn consumes at least the length byte. *)
Definition buildIndexFromReader (r : reader) (x : X) : outcome SnapshotIndex * build :=
  index_loop (S (length (concat (rd_chunks r)))) (mkBuild (newIndexScanner r) (mkIndex [] 0 0 0) false x).
End Build.
Arguments build : clear implicits.

(** ** BuildIndex: the same walk without callbacks

    It bounds the envelope, counts extension items in the last store, which stays
    open to the end of the stream, and accepts any field number. *)
Definition no_open : StoreEntry -> M unit unit := fun _ => mret tt.
Definition no_close : bytes -> Z -> M unit unit := fun _ _ => mret tt.

Definition BuildIndex_item (envStart envLen : Z) : M (build unit) unit :=
  if envLen =? 0 then fail (Errorf "zero-length envelope") else
  if maxEnvelopeBytes <? envLen then fail (Errorf "snapshot envelope exceeds cap") else
  tag ← scan (wrap_err "peek tag" peekByte);
  let field := Z.shiftr (byte.unsigned tag) 3 in
  _ ← (if field =? itemTypeStore then
         name ← scan (wrap_err "read store name" (readStoreName envLen));
         _ ← closeCur no_close envStart;
         set_stores (fun l => l ++ [mkEntry name envStart 0 1 0]) true
       else
         _ ← scan (wrap_err "discard item body" (discard (i64 envLen)));
         if field =? itemTypeIAVL then whenOpen (set_stores (upd_last (count_item (i64 envLen))) true)
         else whenOpen (set_stores (upd_last (count_item 0)) true));
  count_total.

Fixpoint BuildIndex_loop (fuel : nat) : M (build unit) SnapshotIndex :=
  match fuel with
  | O => fun b => (NoFuel, b)
  | S fuel =>
      b ← get;
      let envStart := pos (bd_sc b) in
      envLen ← scan (wrap_err "read envelope length" readUvarint);
      match envLen with
      | None => finish_index no_close envStart
      | Some envLen => _ ← BuildIndex_item envStart envLen; BuildIndex_loop fuel
      end
  end.

Definition BuildIndex (r : reader) : outcome SnapshotIndex :=
  fst (BuildIndex_loop (S (length (concat (rd_chunks r))))
         (mkBuild (newIndexScanner r) (mkIndex [] 0 0 0) false tt)).

(** ** What the scanner sees *)

(** The bytes still to come, wherever they are buffered. *)
Definition stream (s : indexScanner) : bytes := window s ++ concat (rd_chunks (sc_r s)).

(** The scanner stands at offset [p] of a stream that goes on with [str] and
    then ends cleanly. *)
Record at_ (s : indexScanner) (str : bytes) (p : Z) : Prop := {
  at_stream : stream s = str;
  at_pos : pos s = p;
  at_end : rd_end (sc_r s) = EOF
}.

Lemma reader_Read_spec n r data err r' :
  1 <= n -> Read n r = (data, err, r') ->
  rd_end r' = rd_end r /\ concat (rd_chunks r) = data ++ concat (rd_chunks r') /\
  (data = [] -> err = Some (rd_end r) \/ (reads_left r' < reads_left r)%nat) /\
  (err <> None -> err = Some (rd_end r) /\ rd_chunks r' = []) /\
  (rd_chunks r <> [] -> (reads_left r' < reads_left r)%nat) /\ (rd_chunks r = [] -> data = [] /\ err = Some (rd_end r)).
Proof.
  intros Hn H. unfold Read in H. destruct r as [cs e wl]. cbn [rd_chunks rd_end with_last] in *.
  unfold reads_left. cbn [rd_chunks]. destruct cs as [|c cs].
  - injection H as <- <- <-. cbn. split_and!; try done; by left.
  - destruct (Z.leb_spec (len c) n) as [Hle|Hgt].
    + injection H as <- <- <-. cbn [rd_chunks rd_end concat length].
      rewrite length_app. split_and!; try done; try lia.
      * intros Herr. destruct (_ && _) eqn:E in Herr; [|done]. apply andb_prop in E as [E1 E2].
        rewrite E1, E2. split; [done|]. by apply bool_decide_eq_true in E2.
    + injection H as <- <- <-. cbn [rd_chunks rd_end concat length].
      unfold len in Hgt. rewrite !length_app, length_drop, app_assoc, take_drop. split_and!; try done; lia.
Qed.

Lemma fill_at fuel : forall s str p, at_ s str p -> (reads_left (sc_r s) < fuel)%nat ->
  if bool_decide (str = []) then exists s', fill_loop fuel s = (Err EOF, s')
  else exists s', fill_loop fuel s = (Ret tt, s') /\ at_ s' str p /\ window s' <> [].
Proof.
  induction fuel as [|fuel IH]; intros s str p Hat Hf; [lia|]. cbn [fill_loop].
  destruct (Z.leb_spec 1 (len (window s))) as [Hw|Hw].
  - destruct (window s) eqn:E; [rewrite len_nil in Hw; lia|].
    rewrite bool_decide_eq_false_2; [|rewrite <- (at_stream _ _ _ Hat); unfold stream; by rewrite E].
    exists s. rewrite E. done.
  - assert (Ew : window s = []) by (destruct (window s); [done|]; rewrite len_cons in Hw; pose proof (len_nonneg l); lia).
    destruct (Read _ _) as [[data err] r] eqn:Er.
    apply reader_Read_spec in Er as (E1 & E2 & E3 & E4 & E5 & E6); [|unfold scanBuf; rewrite Ew, len_nil; lia].
    destruct Hat as [H1 H2 H3]. set (s1 := mkScanner r (window s ++ data) (pos s)).
    assert (Hat1 : at_ s1 str p).
    { split; cbn; [|done|by rewrite E1]. unfold stream in *. cbn. rewrite <- H1, E2, Ew. done. }
    assert (Hgo : err = None -> (reads_left r < fuel)%nat).
    { intros ->. destruct (decide (rd_chunks (sc_r s) = [])) as [E|E]; [by destruct (E6 E)|]. specialize (E5 E). lia. }
    destruct err as [e|]; [|apply IH; [done|by apply Hgo]].
    destruct (E4 ltac:(done)) as [[= ->] Er]. rewrite H3. unfold s1. cbn [window]. rewrite Ew. cbn [app].
    assert (Hd : str = data) by (rewrite <- (at_stream _ _ _ Hat1); unfold stream, s1; cbn; rewrite Ew, Er; cbn; by rewrite app_nil_r).
    destruct data as [|b data].
    + rewrite bool_decide_eq_true_2 by done. cbn. by eexists.
    + rewrite bool_decide_eq_false_2 by (by rewrite Hd). rewrite len_cons. pose proof (len_nonneg data).
      rewrite (proj2 (Z.leb_le 1 _)) by lia. exists s1. unfold s1 in *. rewrite Ew in *. split_and!; done.
Qed.

Lemma fill_end s p : at_ s [] p -> exists s', fill s = (Err EOF, s').
Proof. intros H. apply (fill_at _ _ _ _ H). lia. Qed.

Lemma fill_more s b str p : at_ s (b :: str) p ->
  exists s' w, fill s = (Ret tt, s') /\ at_ s' (b :: str) p /\ window s' = b :: w.
Proof.
  intros H. pose proof (fill_at (S (reads_left (sc_r s))) _ _ _ H ltac:(lia)) as Hf. cbn in Hf.
  destruct Hf as (s' & Hf & Hat & Hw). destruct (window s') as [|b' w] eqn:E; [done|].
  pose proof (at_stream _ _ _ Hat) as Hs. unfold stream in Hs. rewrite E in Hs. injection Hs as -> _.
  exists s', w. done.
Qed.

Lemma readByte_at s b str p : at_ s (b :: str) p ->
  exists s', readByte s = (Ret b, s') /\ at_ s' str (p + 1).
Proof.
  intros H. destruct (fill_more _ _ _ _ H) as (s1 & w & E & [H1 H2 H3] & Ew).
  unfold readByte, with_state, mbind, M_bind. rewrite E, Ew. eexists. split; [done|].
  split; cbn; [|by rewrite H2|done]. unfold stream in H1. rewrite Ew in H1. by injection H1 as <-.
Qed.

Lemma readByte_end s p : at_ s [] p -> exists s', readByte s = (Err EOF, s').
Proof. intros H. destruct (fill_end _ _ H) as [s' E]. unfold readByte, mbind, M_bind. rewrite E. by eexists. Qed.

Lemma peekByte_at s b str p : at_ s (b :: str) p ->
  exists s', peekByte s = (Ret b, s') /\ at_ s' (b :: str) p.
Proof.
  intros H. destruct (fill_more _ _ _ _ H) as (s1 & w & E & Hat & Ew).
  unfold peekByte, with_state, mbind, M_bind. rewrite E, Ew. by eexists.
Qed.

Lemma discard_at fuel : forall s a str p, at_ s (a ++ str) p -> (S (reads_left (sc_r s)) < fuel)%nat ->
  exists s', discard_loop fuel (len a) s = (Ret tt, s') /\ at_ s' str (p + len a).
Proof.
  induction fuel as [|fuel IH]; intros s a str p Hat Hf; [lia|]. cbn [discard_loop].
  destruct Hat as [H1 H2 H3]. pose proof (len_nonneg a) as Ha.
  destruct (Z.leb_spec (len a) 0) as [Hz|Hp].
  { exists s. destruct a; [|rewrite len_cons in Hz; pose proof (len_nonneg a); lia]. split; [done|].
    split; [done| |done]. rewrite H2. cbn. lia. }
  unfold stream in H1. destruct (Z.leb_spec (len a) (len (window s))) as [Hle|Hgt].
  - eexists. split; [done|]. split; cbn; [|by rewrite H2|done]. unfold stream. cbn.
    rewrite len_to_nat. apply (f_equal (drop (length a))) in H1. rewrite drop_app_length in H1. rewrite <- H1.
    symmetry. apply drop_app_le. unfold len in Hle. lia.
  - destruct (Read _ _) as [[data err] r] eqn:Er.
    apply reader_Read_spec in Er as (E1 & E2 & E3 & E4 & E5 & E6); [|unfold scanBuf; lia].
    set (w := window s) in *. assert (Hsplit : exists a', a = w ++ a').
    { exists (drop (length w) a). rewrite <- (take_drop (length w) a) at 1. f_equal.
      apply (f_equal (take (length w))) in H1. rewrite take_app_length in H1.
      transitivity (take (length w) (a ++ str)); [symmetry; apply take_app_le; unfold len in Hgt; lia|exact (eq_sym H1)]. }
    destruct Hsplit as [a' ->]. rewrite <- app_assoc in H1. apply app_inv_head in H1. rewrite len_app in Hp, Hgt |- *.
    set (s1 := mkScanner r data (pos s + len w)).
    assert (Hat1 : at_ s1 (a' ++ str) (p + len w)) by (split; cbn; [unfold stream; cbn; congruence|lia|congruence]).
    replace (len w + len a' - len w) with (len a') by lia.
    assert (Hne : rd_chunks (sc_r s) <> []).
    { intros E. rewrite E in H1. cbn in H1. symmetry in H1. apply app_eq_nil in H1 as [-> _]. rewrite len_nil in Hgt. lia. }
    specialize (E5 Hne).
    assert (Hgo : exists s', discard_loop fuel (len a') s1 = (Ret tt, s') /\ at_ s' str (p + (len w + len a'))).
    { replace (p + (len w + len a')) with (p + len w + len a') by lia. apply IH; [done|unfold s1; cbn [sc_r]; lia]. }
    destruct err as [e|]; [|exact Hgo]. destruct (E4 ltac:(done)) as [[= ->] Ec]. rewrite H3.
    destruct data as [|b data]; [|rewrite len_cons; pose proof (len_nonneg data);
      rewrite (proj2 (Z.eqb_neq _ _)) by lia; exact Hgo].
    rewrite E2, Ec in H1. cbn in H1. symmetry in H1. apply app_eq_nil in H1 as [-> _]. rewrite len_nil in Hgt. lia.
Qed.

(** A discard of [n] bytes, given as a number. *)
Lemma discard_to s a str p n : at_ s (a ++ str) p -> n = len a ->
  exists s', discard n s = (Ret tt, s') /\ at_ s' str (p + n).
Proof. intros H ->. unfold discard. apply discard_at; [done|lia]. Qed.

Lemma discard_none s str p n : at_ s str p -> n <= 0 -> discard n s = (Ret tt, s).
Proof. intros _ Hn. unfold discard. cbn [discard_loop]. by rewrite (proj2 (Z.leb_le n 0)). Qed.

(** What a read of [l] takes from the window, and what it leaves. *)
Lemma window_split (w rest l str : bytes) : w ++ rest = l ++ str ->
  exists a', l = take (length l) w ++ a' /\ drop (length (take (length l) w)) w ++ rest = a' ++ str.
Proof.
  intros H. destruct (Nat.le_ge_cases (length l) (length w)) as [Hle|Hge].
  - assert (E : take (length l) w = l).
    { apply (f_equal (take (length l))) in H. rewrite take_app_le, take_app_length in H by done. done. }
    exists []. rewrite E, app_nil_r. split; [done|].
    apply (f_equal (drop (length l))) in H. by rewrite drop_app_le, drop_app_length in H.
  - rewrite take_ge by done. exists (drop (length w) l). rewrite drop_all. cbn.
    assert (E : w = take (length w) l).
    { apply (f_equal (take (length w))) in H. rewrite take_app_length, take_app_le in H by done. done. }
    split; [by rewrite E at 1; rewrite take_drop|].
    apply (f_equal (drop (length w))) in H. rewrite drop_app_length, drop_app_le in H by done. done.
Qed.

Lemma readExact_at fuel : forall s a str p acc, at_ s (a ++ str) p -> (length a <= fuel)%nat ->
  exists s', readExact_loop fuel (len a) acc s = (Ret (acc ++ a), s') /\ at_ s' str (p + len a).
Proof.
  induction fuel as [|fuel IH]; intros s a str p acc Hat Hf; cbn [readExact_loop].
  - destruct a; [|cbn in Hf; lia]. cbn. exists s. rewrite app_nil_r, Z.add_0_r. done.
  - destruct a as [|b a]; [cbn; exists s; rewrite app_nil_r, Z.add_0_r; done|].
    rewrite len_cons. pose proof (len_nonneg a). rewrite (proj2 (Z.leb_gt _ 0)) by lia.
    destruct (fill_more _ _ _ _ Hat) as (s1 & w & E & [H1 H2 H3] & Ew).
    unfold with_state, mbind, M_bind. rewrite E. unfold stream in H1.
    destruct (window_split _ _ (b :: a) str H1) as (a' & Ea & Es).
    replace (Z.to_nat (1 + len a)) with (length (b :: a)) by (unfold len; cbn; lia).
    set (part := take (length (b :: a)) (window s1)) in *.
    set (s2 := mkScanner _ _ _).
    assert (Hat2 : at_ s2 (a' ++ str) (p + len part)) by (split; cbn; [done|by rewrite H2|done]).
    assert (Hlen : 1 + len a = len part + len a') by (rewrite <- len_cons with (x := b), Ea, len_app; done).
    assert (Hpos : (1 <= length part)%nat) by (unfold part; rewrite Ew; cbn; lia).
    destruct (IH s2 a' str (p + len part) (acc ++ part) Hat2) as (s' & E' & Hat').
    { unfold len in Hlen. cbn [length] in Hf. lia. }
    exists s'. replace (1 + len a - len part) with (len a') by lia. rewrite E'.
    rewrite <- app_assoc, <- Ea. split; [done|]. replace (p + (1 + len a)) with (p + len part + len a') by lia. done.
Qed.

Lemma scan_uvarint_put n : forall i acc x rest s p,
  0 <= i -> i + Z.of_nat n = 9 -> 0 <= acc < 2 ^ (7 * i) -> 0 <= x < 2 ^ (64 - 7 * i) ->
  at_ s (put_uvarint_from n x ++ rest) p ->
  exists s', scan_uvarint_from (S n) i acc (7 * i) s = (Ret (Some (acc + x * 2 ^ (7 * i))), s') /\
    at_ s' rest (p + len (put_uvarint_from n x)).
Proof.
  induction n as [|n IH]; intros i acc x rest s p Hi Hn Hacc Hx Hat;
  (destruct (Z.lt_ge_cases x 128) as [Hs|Hs];
   [rewrite put_last in Hat |- * by lia; destruct (readByte_at _ _ _ _ Hat) as (s' & E & Hat');
    exists s'; cbn [scan_uvarint_from]; rewrite E; cbv zeta; rewrite unsigned_of_Z_small by lia;
    rewrite (proj2 (Z.ltb_lt x 128)), step_small by lia; done|]).
  - exfalso. destruct (next_x i acc x ltac:(lia) Hacc Hx Hs). lia.
  - rewrite put_cont in Hat |- * by lia. destruct (readByte_at _ _ _ _ Hat) as (s1 & E & Hat1).
    cbn [scan_uvarint_from]. rewrite E. cbv zeta.
    rewrite cont_byte by lia. pose proof (Z.mod_pos_bound x 128 ltac:(lia)).
    rewrite (proj2 (Z.ltb_ge _ 128)) by lia. rewrite land_127_cont, step_cont by lia.
    destruct (next_x i acc x ltac:(lia) Hacc Hx Hs).
    replace (7 * i + 7) with (7 * (i + 1)) by lia.
    destruct (IH (i + 1) (acc + x mod 128 * 2 ^ (7 * i)) (Z.shiftr x 7) rest s1 (p + 1)) as (s' & E' & Hat');
      try lia; [apply next_acc; lia|done|].
    exists s'. rewrite next_value in E' by lia. split; [exact E'|].
    rewrite len_cons. by replace (p + (1 + len (put_uvarint_from n (Z.shiftr x 7))))
      with (p + 1 + len (put_uvarint_from n (Z.shiftr x 7))) by lia.
Qed.

Lemma readUvarint_at s x rest p : 0 <= x < 2 ^ 64 -> at_ s (PutUvarint x ++ rest) p ->
  exists s', readUvarint s = (Ret (Some x), s') /\ at_ s' rest (p + len (PutUvarint x)).
Proof.
  intros Hx Hat. assert (Ep : PutUvarint x = put_uvarint_from 9 x) by (with_strategy transparent [PutUvarint] reflexivity).
  rewrite Ep in *. destruct (scan_uvarint_put 9 0 0 x rest s p) as (s' & E & Hat'); [lia|lia|simpl; lia|simpl; lia|done|].
  change (7 * 0) with 0 in E. change (2 ^ 0) with 1 in E. rewrite Z.add_0_l, Z.mul_1_r in E. by exists s'.
Qed.

Lemma readUvarint_end s p : at_ s [] p -> exists s', readUvarint s = (Ret None, s').
Proof.
  intros H. destruct (readByte_end _ _ H) as [s' E]. unfold readUvarint. cbn [scan_uvarint_from].
  rewrite E. by eexists.
Qed.

Lemma needUvarint_at msg s x rest p : 0 <= x < 2 ^ 64 -> at_ s (PutUvarint x ++ rest) p ->
  exists s', needUvarint msg s = (Ret x, s') /\ at_ s' rest (p + len (PutUvarint x)).
Proof.
  intros Hx Hat. destruct (readUvarint_at _ _ _ _ Hx Hat) as (s' & E & Hat'). exists s'.
  unfold needUvarint. by rewrite E.
Qed.

(** ** Store names *)

Definition store_item (name : bytes) : snapItem := mkItem itemTypeStore name None None 0 0 [] 0 None.

Lemma field_shape n b : appendBytesField [] n b =
  byte.of_Z (Z.lor (u8 (Z.shiftl n 3)) 2) :: PutUvarint (len b) ++ b.
Proof. reflexivity. Qed.

Lemma encode_store name : encode_item (store_item name) =
  match name with
  | [] => [byte.of_Z 10; byte.of_Z 0]
  | _ => byte.of_Z 10 :: PutUvarint (len (appendBytesField [] 1 name)) ++ appendBytesField [] 1 name
  end.
Proof. destruct name; [reflexivity|]. unfold encode_item. cbn. by rewrite app_nil_r. Qed.

Lemma readStoreName_at s name rest p :
  len (encode_item (store_item name)) <= maxEnvelopeBytes -> 0 <= p -> p + maxEnvelopeBytes < 2 ^ 62 ->
  at_ s (encode_item (store_item name) ++ rest) p ->
  exists s', readStoreName (len (encode_item (store_item name))) s = (Ret name, s') /\
    at_ s' rest (p + len (encode_item (store_item name))).
Proof.
  set (n := len (encode_item (store_item name))). unfold maxEnvelopeBytes. intros Hn Hp Hb Hat.
  pose proof (len_nonneg name) as Hname.
  assert (Hn0 : 0 <= n) by (unfold n; apply len_nonneg).
  unfold readStoreName, get, mbind, M_bind, mret, M_ret. rewrite (at_pos _ _ _ Hat).
  rewrite (i64_small n), (i64_small (p + n)) by lia.
  unfold n in *. clear n. rewrite encode_store in *. destruct name as [|c name].
  - cbn [app] in Hat. destruct (readByte_at _ _ _ _ Hat) as (s1 & -> & Hat1).
    change (negb (byte.unsigned (byte.of_Z 10) =? 10)) with false. cbv iota.
    change (byte.of_Z 0 :: rest) with (PutUvarint 0 ++ rest) in Hat1.
    destruct (needUvarint_at "read inner length" s1 0 rest _ ltac:(lia) Hat1) as (s2 & -> & Hat2).
    change (0 =? 0) with true. cbv iota. change (len (PutUvarint 0)) with 1 in Hat2.
    rewrite (at_pos _ _ _ Hat2). change (len [byte.of_Z 10; byte.of_Z 0]) with 2.
    rewrite i64_small by lia. rewrite (discard_none s2 rest _ _ Hat2) by lia.
    exists s2. split; [done|]. by replace (p + 2) with (p + 1 + 1) by lia.
  - set (nm := c :: name) in *. rewrite field_shape in *. set (body := _ :: PutUvarint (len nm) ++ nm) in *.
    assert (Hbody : len body = 1 + (len (PutUvarint (len nm)) + len nm)) by (unfold body; by rewrite len_cons, len_app).
    rewrite len_cons, len_app in Hn, Hn0 |- *. pose proof (PutUvarint_pos (len nm)). pose proof (PutUvarint_pos (len body)).
    rewrite <- app_comm_cons, <- app_assoc in Hat. destruct (readByte_at _ _ _ _ Hat) as (s1 & -> & Hat1).
    change (negb (byte.unsigned (byte.of_Z 10) =? 10)) with false. cbv iota.
    destruct (needUvarint_at "read inner length" s1 (len body) _ _ ltac:(lia) Hat1) as (s2 & -> & Hat2).
    rewrite (at_pos _ _ _ Hat2). rewrite (proj2 (Z.eqb_neq (len body) 0)) by lia.
    assert (Eb : body ++ rest = byte.of_Z (Z.lor (u8 (Z.shiftl 1 3)) 2) :: PutUvarint (len nm) ++ nm ++ rest)
      by (unfold body; by rewrite <- app_comm_cons, <- app_assoc).
    rewrite Eb in Hat2.
    destruct (readByte_at _ _ _ _ Hat2) as (s3 & -> & Hat3).
    change (negb (byte.unsigned (byte.of_Z (Z.lor (u8 (Z.shiftl 1 3)) 2)) =? 10)) with false. cbv iota.
    destruct (needUvarint_at "read name length" s3 (len nm) _ _ ltac:(lia) Hat3) as (s4 & -> & Hat4).
    unfold maxEnvelopeBytes. rewrite (proj2 (Z.ltb_ge _ (len nm))) by lia.
    rewrite (at_pos _ _ _ Hat4).
    rewrite (i64_small (len nm)), (i64_small (len body)) by lia. rewrite !i64_small by lia.
    rewrite (proj2 (Z.ltb_ge _ (len nm))) by lia.
    destruct (readExact_at (Z.to_nat (len nm)) s4 nm rest _ [] Hat4 ltac:(unfold len; lia)) as (s5 & E5 & Hat5).
    unfold readExact. rewrite E5. rewrite (at_pos _ _ _ Hat5).
    rewrite !(proj2 (Z.ltb_ge _ _)) by lia. rewrite (at_pos _ _ _ Hat5). rewrite !(proj2 (Z.ltb_ge _ _)) by lia.
    exists s5. split; [done|]. replace (p + (1 + (len (PutUvarint (len body)) + len body))) with
      (p + 1 + len (PutUvarint (len body)) + 1 + len (PutUvarint (len nm)) + len nm) by lia. done.
Qed.

(** ** One envelope *)

Lemma item_tag it : item_ok it ->
  exists t r, encode_item it = t :: r /\ Z.shiftr (byte.unsigned t) 3 = Type_ it.
Proof. intros H. unfold encode_item. rewrite field_shape. eexists _, _. split; [done|]. by destruct H. Qed.

(** What the callbacks are told, as a log. *)
Inductive index_event := EvOpen (e : StoreEntry) | EvClose (name : bytes) (e : Z).

Definition log_open : StoreEntry -> M (list index_event) unit := fun e l => (Ret tt, l ++ [EvOpen e]).
Definition log_close : bytes -> Z -> M (list index_event) unit := fun n e l => (Ret tt, l ++ [EvClose n e]).

Abbreviation loop := (index_loop log_open log_close).
Abbreviation bstate := (build (list index_event)).

Lemma scan_ret {X A} msg (m : M indexScanner A) a sc sc' idx o (x : X) :
  m sc = (Ret a, sc') -> scan (wrap_err msg m) (mkBuild sc idx o x) = (Ret a, mkBuild sc' idx o x).
Proof. intros H. unfold scan, zoom, wrap_err. cbn [bd_sc bd_idx bd_open bd_x]. by rewrite H. Qed.

Definition item_small (it : snapItem) : Prop := item_ok it /\ len (encode_item it) <= maxEnvelopeBytes.

(** The loop reads the length and comes to the body. *)
Lemma loop_head fuel it rest sc p idx o x :
  item_small it -> at_ sc (wire (Some it) ++ rest) p ->
  exists sc', at_ sc' (encode_item it ++ rest) (p + len (PutUvarint (len (encode_item it)))) /\
    loop (S fuel) (mkBuild sc idx o x) =
    (_ ← index_item log_open log_close p (len (encode_item it)); loop fuel) (mkBuild sc' idx o x).
Proof.
  intros [_ Hmax] Hat. unfold maxEnvelopeBytes in Hmax. cbn [wire] in Hat. unfold envelope in Hat.
  rewrite <- app_assoc in Hat. pose proof (len_nonneg (encode_item it)).
  destruct (readUvarint_at sc (len (encode_item it)) _ p ltac:(lia) Hat) as (sc' & E & Hat'). exists sc'. split; [done|].
  cbn [index_loop]. unfold get. unfold mbind at 1 2, M_bind at 1 2. cbn [bd_sc].
  rewrite (scan_ret _ _ _ _ _ _ _ _ E). by rewrite (at_pos _ _ _ Hat).
Qed.

(** [index_item] up to the switch on the field number. *)
Lemma item_switch it rest sc p idx o x :
  item_small it -> at_ sc (encode_item it ++ rest) p ->
  exists sc' t, at_ sc' (encode_item it ++ rest) p /\ Z.shiftr (byte.unsigned t) 3 = Type_ it /\
    (len (encode_item it) =? 0) = false /\
    scan (X := list index_event) (wrap_err "peek tag" peekByte) (mkBuild sc idx o x) = (Ret t, mkBuild sc' idx o x).
Proof.
  intros [Hok _] Hat. destruct (item_tag it Hok) as (t & r & E & Ht). rewrite E in Hat |- *.
  destruct (peekByte_at _ _ _ _ Hat) as (sc' & Ep & Hat'). exists sc', t. split_and!; [done|done| |by apply scan_ret].
  rewrite len_cons. pose proof (len_nonneg r). apply Z.eqb_neq. lia.
Qed.

Lemma upd_last_snoc f l e : upd_last f (l ++ [e]) = l ++ [f e].
Proof. unfold upd_last. rewrite rev_app_distr. cbn. by rewrite rev_involutive. Qed.

Lemma closeCur_open e done s ext tot tb sc x :
  closeCur log_close e (mkBuild sc (mkIndex (done ++ [s]) ext tot tb) true x) =
  (Ret tt, mkBuild sc (mkIndex (done ++ [set_end e s]) ext tot tb) false (x ++ [EvClose (Name s) e])).
Proof.
  unfold closeCur, get, set_stores, modify, callback, zoom, log_close, mbind, M_bind, mret, M_ret.
  cbn [bd_open bd_idx bd_sc bd_x negb Stores ExtStart TotalItems TotalBytes]. rewrite upd_last_snoc, last_snoc.
  cbn [bd_open bd_idx bd_sc bd_x]. done.
Qed.

Lemma closeCur_shut e idx sc (x : list index_event) :
  closeCur log_close e (mkBuild sc idx false x) = (Ret tt, mkBuild sc idx false x).
Proof. reflexivity. Qed.

(** The item of an open store is added to its entry. *)
Lemma loop_iavl fuel it rest sc p done e ext tot x :
  item_small it -> Type_ it = itemTypeIAVL -> at_ sc (wire (Some it) ++ rest) p ->
  exists sc', at_ sc' rest (p + len (wire (Some it))) /\
    loop (S fuel) (mkBuild sc (mkIndex (done ++ [e]) ext tot 0) true x) =
    loop fuel (mkBuild sc' (mkIndex (done ++ [count_item (len (encode_item it)) e]) ext (u64 (tot + 1)) 0) true x).
Proof.
  intros Hsm Hty Hat. destruct (loop_head fuel it rest sc p (mkIndex (done ++ [e]) ext tot 0) true x Hsm Hat) as (sc1 & Hat1 & ->).
  destruct (item_switch it rest sc1 _ (mkIndex (done ++ [e]) ext tot 0) true x Hsm Hat1) as (sc2 & t & Hat2 & Ht & Hz & Ep).
  pose proof Hsm as [_ Hmax]. unfold maxEnvelopeBytes in Hmax. pose proof (len_nonneg (encode_item it)).
  destruct (discard_to _ _ _ _ (len (encode_item it)) Hat2 eq_refl) as (sc3 & Ed & Hat3).
  exists sc3. split.
  - cbn [wire]. unfold envelope. rewrite len_app, Z.add_assoc. exact Hat3.
  - unfold index_item. rewrite Hz. unfold mbind at 1 2 3, M_bind at 1 2 3. rewrite Ep, Ht, Hty.
    change (itemTypeIAVL =? itemTypeStore) with false. change (itemTypeIAVL =? itemTypeIAVL) with true. cbv iota.
    rewrite i64_small by lia. unfold mbind at 1, M_bind at 1. rewrite (scan_ret _ _ _ _ _ _ _ _ Ed).
    unfold whenOpen, get, set_stores, count_total, modify, mbind, M_bind.
    cbn [bd_open bd_idx bd_sc bd_x Stores ExtStart TotalItems TotalBytes]. by rewrite upd_last_snoc.
Qed.

(** What a store item and an extension item do to an index that is still open. *)
Definition close_all (e : Z) (o : bool) (ss : list StoreEntry) : list StoreEntry :=
  if o then upd_last (set_end e) ss else ss.
Definition close_events (e : Z) (o : bool) (ss : list StoreEntry) : list index_event :=
  match o, last ss with true, Some s => [EvClose (Name s) e] | _, _ => [] end.

Lemma closeCur_any e ss o ext tot tb sc x : (o = true -> ss <> []) ->
  closeCur log_close e (mkBuild sc (mkIndex ss ext tot tb) o x) =
  (Ret tt, mkBuild sc (mkIndex (close_all e o ss) ext tot tb) false (x ++ close_events e o ss)).
Proof.
  intros Ho. destruct o; [|cbn; by rewrite app_nil_r].
  destruct ss as [|s ss _] using rev_ind; [by destruct (Ho eq_refl)|].
  rewrite closeCur_open. unfold close_all, close_events. by rewrite upd_last_snoc, last_snoc.
Qed.

Lemma loop_store fuel name rest sc p ss o ext tot x :
  item_small (store_item name) -> (o = true -> ss <> []) -> 0 <= p -> p + len (wire (Some (store_item name))) < 2 ^ 61 ->
  at_ sc (wire (Some (store_item name)) ++ rest) p ->
  exists sc', at_ sc' rest (p + len (wire (Some (store_item name)))) /\
    loop (S fuel) (mkBuild sc (mkIndex ss ext tot 0) o x) =
    loop fuel (mkBuild sc' (mkIndex (close_all p o ss ++ [mkEntry name p 0 1 0]) ext (u64 (tot + 1)) 0) true
      (x ++ close_events p o ss ++ [EvOpen (mkEntry name p 0 1 0)])).
Proof.
  set (it := store_item name). intros Hsm Ho Hp Hb Hat.
  destruct (loop_head fuel it rest sc p (mkIndex ss ext tot 0) o x Hsm Hat) as (sc1 & Hat1 & ->).
  destruct (item_switch it rest sc1 _ (mkIndex ss ext tot 0) o x Hsm Hat1) as (sc2 & t & Hat2 & Ht & Hz & Ep).
  pose proof Hsm as [_ Hmax]. cbn [wire] in *. unfold envelope in *. rewrite len_app in *.
  pose proof (PutUvarint_pos (len (encode_item it))). pose proof (len_nonneg (encode_item it)).
  destruct (readStoreName_at sc2 name rest (p + len (PutUvarint (len (encode_item it)))) Hmax) as (sc3 & En & Hat3);
    [lia|unfold maxEnvelopeBytes; lia|done|].
  fold it in En, Hat3. exists sc3. split; [by rewrite Z.add_assoc|].
  unfold index_item. rewrite Hz. unfold mbind at 1 2 3, M_bind at 1 2 3. rewrite Ep, Ht.
  change (Type_ it =? itemTypeStore) with true. cbv iota. unfold mbind at 1, M_bind at 1.
  rewrite (scan_ret _ _ _ _ _ _ _ _ En). unfold mbind at 1, M_bind at 1. rewrite (closeCur_any _ _ _ _ _ _ _ _ Ho).
  unfold set_stores, count_total, modify, callback, zoom, log_open, mbind, M_bind.
  cbn [bd_open bd_idx bd_sc bd_x Stores ExtStart TotalItems TotalBytes]. by rewrite app_assoc.
Qed.

Lemma loop_ext fuel it rest sc p ss o ext tot x :
  item_small it -> Type_ it = itemTypeExtMeta \/ Type_ it = itemTypeExtPayload -> (o = true -> ss <> []) ->
  at_ sc (wire (Some it) ++ rest) p ->
  exists sc', at_ sc' rest (p + len (wire (Some it))) /\
    loop (S fuel) (mkBuild sc (mkIndex ss ext tot 0) o x) =
    loop fuel (mkBuild sc' (mkIndex (close_all p o ss) (if ext =? 0 then p else ext) (u64 (tot + 1)) 0) false
      (x ++ close_events p o ss)).
Proof.
  intros Hsm Hty Ho Hat.
  destruct (loop_head fuel it rest sc p (mkIndex ss ext tot 0) o x Hsm Hat) as (sc1 & Hat1 & ->).
  destruct (item_switch it rest sc1 _ (mkIndex ss ext tot 0) o x Hsm Hat1) as (sc2 & t & Hat2 & Ht & Hz & Ep).
  pose proof Hsm as [_ Hmax]. unfold maxEnvelopeBytes in Hmax. pose proof (len_nonneg (encode_item it)).
  destruct (discard_to _ _ _ _ (len (encode_item it)) Hat2 eq_refl) as (sc3 & Ed & Hat3).
  exists sc3. split; [cbn [wire]; unfold envelope; by rewrite len_app, Z.add_assoc|].
  unfold index_item. rewrite Hz. unfold mbind at 1 2 3, M_bind at 1 2 3. rewrite Ep, Ht.
  replace (Type_ it =? itemTypeStore) with false by (by destruct Hty as [-> | ->]).
  replace (Type_ it =? itemTypeIAVL) with false by (by destruct Hty as [-> | ->]).
  replace ((Type_ it =? itemTypeExtMeta) || (Type_ it =? itemTypeExtPayload)) with true by (by destruct Hty as [-> | ->]).
  cbv iota. unfold mbind at 1, M_bind at 1. rewrite (closeCur_any _ _ _ _ _ _ _ _ Ho).
  unfold set_ext at 1, modify at 1. unfold mbind at 1, M_bind at 1.
  cbn [bd_open bd_idx bd_sc bd_x Stores ExtStart TotalItems TotalBytes].
  rewrite i64_small by lia. rewrite (scan_ret _ _ _ _ _ _ _ _ Ed). reflexivity.
Qed.

(** ** A whole stream *)

(** A store in the stream: its name and the items that follow the StoreItem. *)
Abbreviation segment := (bytes * list snapItem)%type.
Definition seg_items (s : segment) : list snapItem := store_item (fst s) :: snd s.
Definition item_wires (l : list snapItem) : bytes := wires (map Some l).
Definition body_bytes (l : list snapItem) : Z := len (concat (map encode_item l)).

Definition iavl_ok (it : snapItem) : Prop := item_small it /\ Type_ it = itemTypeIAVL.
Definition ext_ok (it : snapItem) : Prop :=
  item_small it /\ (Type_ it = itemTypeExtMeta \/ Type_ it = itemTypeExtPayload).
Definition seg_ok (s : segment) : Prop := item_small (store_item (fst s)) /\ Forall iavl_ok (snd s).

(** The entry of a store: its range of the stream holds its items and nothing
    else, and the sizes are right. *)
Record entry_of (data : bytes) (e : StoreEntry) (s : segment) : Prop := {
  eo_name : Name e = fst s;
  eo_range : 0 <= DecompressedStart e /\
    drop (Z.to_nat (DecompressedStart e)) (take (Z.to_nat (DecompressedEnd e)) data) = item_wires (seg_items s);
  eo_length : DecompressedEnd e - DecompressedStart e = len (item_wires (seg_items s));
  eo_count : ItemCount e = len (seg_items s);
  eo_bytes : IAVLBytes e = body_bytes (snd s)
}.

(** The entries of stores that begin at [p]. *)
Fixpoint entries_from (p : Z) (segs : list segment) : list StoreEntry :=
  match segs with
  | [] => []
  | s :: r =>
      let q := p + len (item_wires (seg_items s)) in
      mkEntry (fst s) p q (len (seg_items s)) (body_bytes (snd s)) :: entries_from q r
  end.

Definition opened (e : StoreEntry) : StoreEntry := mkEntry (Name e) (DecompressedStart e) 0 1 0.
Definition entry_events (e : StoreEntry) : list index_event :=
  [EvOpen (opened e); EvClose (Name e) (DecompressedEnd e)].

Lemma item_wires_cons it l : item_wires (it :: l) = wire (Some it) ++ item_wires l.
Proof. reflexivity. Qed.
Lemma item_wires_app a b : item_wires (a ++ b) = item_wires a ++ item_wires b.
Proof. unfold item_wires, wires. by rewrite !map_app, concat_app. Qed.

Lemma wire_len it : len (wire (Some it)) = len (PutUvarint (len (encode_item it))) + len (encode_item it).
Proof. cbn [wire]. unfold envelope. apply len_app. Qed.

Lemma items_le l : len l <= len (item_wires l).
Proof.
  induction l as [|it l IH]; [done|]. rewrite item_wires_cons, len_cons, len_app, wire_len.
  pose proof (PutUvarint_pos (len (encode_item it))). pose proof (len_nonneg (encode_item it)). lia.
Qed.

Lemma body_le l : body_bytes l <= len (item_wires l).
Proof.
  unfold body_bytes. induction l as [|it l IH]; [done|]. cbn [map concat].
  rewrite item_wires_cons, !len_app, wire_len. pose proof (PutUvarint_pos (len (encode_item it))). lia.
Qed.

Lemma loop_nodes l : forall fuel rest sc p done n st en c b ext tot x,
  Forall iavl_ok l -> at_ sc (item_wires l ++ rest) p -> 0 <= c -> 0 <= b -> 0 <= tot ->
  c + len l < 2 ^ 63 -> b + body_bytes l < 2 ^ 63 -> tot + len l < 2 ^ 63 ->
  exists sc', at_ sc' rest (p + len (item_wires l)) /\
    loop (length l + fuel) (mkBuild sc (mkIndex (done ++ [mkEntry n st en c b]) ext tot 0) true x) =
    loop fuel (mkBuild sc' (mkIndex (done ++ [mkEntry n st en (c + len l) (b + body_bytes l)]) ext (tot + len l) 0) true x).
Proof.
  induction l as [|it l IH]; intros fuel rest sc p done n st en c b ext tot x Hl Hat Hc Hb Ht Hcb Hbb Htb.
  - exists sc. rewrite (eq_refl : body_bytes [] = 0), (eq_refl : len (item_wires []) = 0), (len_nil (A := snapItem)), !Z.add_0_r. done.
  - inversion Hl as [|? ? [Hsm Hty] Hl']; subst. rewrite len_cons in *.
    assert (Eb : body_bytes (it :: l) = len (encode_item it) + body_bytes l)
      by (unfold body_bytes; cbn [map concat]; apply len_app).
    rewrite item_wires_cons, <- app_assoc in Hat. cbn [length Nat.add]. rewrite Eb in *.
    pose proof (len_nonneg (encode_item it)). pose proof (len_nonneg l).
    assert (0 <= body_bytes l) by apply len_nonneg. pose proof Hsm as [_ Hmax]. unfold maxEnvelopeBytes in Hmax.
    destruct (loop_iavl (length l + fuel) it _ sc p done (mkEntry n st en c b) ext tot x Hsm Hty Hat) as (sc1 & Hat1 & ->).
    unfold count_item. cbn [Name DecompressedStart DecompressedEnd ItemCount IAVLBytes].
    rewrite u64_small, (u64_small (tot + 1)), i64_small by lia.
    destruct (IH fuel rest sc1 _ done n st en (c + 1) (b + len (encode_item it)) ext (tot + 1) x Hl' Hat1)
      as (sc' & Hat' & ->); try lia.
    exists sc'. rewrite item_wires_cons, len_app, !Z.add_assoc. split; [done|].
    done.
Qed.

Section Segments.
Context (data : bytes) (Hdata : len data < 2 ^ 61).

Lemma at_range pre items rest p :
  data = pre ++ item_wires items ++ rest -> p = len pre ->
  drop (Z.to_nat p) (take (Z.to_nat (p + len (item_wires items))) data) = item_wires items.
Proof using Type.
  intros E ->. rewrite E, app_assoc, <- len_app, !len_to_nat, take_app_length. by rewrite drop_app_length.
Qed.

Lemma loop_segs segs : forall fuel pre rest sc ss o tot x,
  Forall seg_ok segs -> (o = true -> ss <> []) -> 0 <= tot -> tot <= len pre ->
  data = pre ++ item_wires (concat (map seg_items segs)) ++ rest ->
  at_ sc (item_wires (concat (map seg_items segs)) ++ rest) (len pre) ->
  let items := concat (map seg_items segs) in let p' := len pre + len (item_wires items) in
  exists sc' ss' o' x' es, at_ sc' rest p' /\ (Forall2 (entry_of data) es segs /\ es = entries_from (len pre) segs) /\
    loop (length items + fuel) (mkBuild sc (mkIndex ss 0 tot 0) o x) =
    loop fuel (mkBuild sc' (mkIndex ss' 0 (tot + len items) 0) o' x') /\
    (o' = true -> ss' <> []) /\ close_all p' o' ss' = close_all (len pre) o ss ++ es /\
    x' ++ close_events p' o' ss' = x ++ close_events (len pre) o ss ++ concat (map entry_events es).
Proof using Hdata.
  induction segs as [|s segs IH]; intros fuel pre rest sc ss o tot x Hok Ho Ht Htp Hd Hat; cbn [map concat].
  - exists sc, ss, o, x, []. change (len (@nil snapItem)) with 0. cbn [map concat length Nat.add].
    change (len (item_wires [])) with 0. rewrite !Z.add_0_r, !app_nil_r. split_and!; try done.
  - cbv zeta. apply Forall_cons in Hok as [[Hst Hno] Hok']. cbn [map concat] in Hat, Hd.
    set (items := concat (map seg_items segs)) in *. rewrite item_wires_app in Hat |- *.
    rewrite item_wires_app in Hd. set (W := item_wires (seg_items s)) in *.
    assert (Hlen : len data = len pre + (len W + len (item_wires items)) + len rest)
      by (rewrite Hd, !len_app; lia).
    pose proof (len_nonneg (item_wires items)). pose proof (len_nonneg rest). pose proof (len_nonneg pre).
    assert (EW : W = wire (Some (store_item (fst s))) ++ item_wires (snd s)) by reflexivity.
    assert (HW : len W = len (wire (Some (store_item (fst s)))) + len (item_wires (snd s))) by (rewrite EW; apply len_app).
    pose proof (items_le (snd s)). pose proof (body_le (snd s)). pose proof (len_nonneg (snd s)).
    assert (0 <= body_bytes (snd s)) by apply len_nonneg.
    assert (1 <= len (wire (Some (store_item (fst s)))))
      by (rewrite wire_len; pose proof (PutUvarint_pos (len (encode_item (store_item (fst s)))));
          pose proof (len_nonneg (encode_item (store_item (fst s)))); lia).
    rewrite <- app_assoc in Hat. rewrite EW, <- app_assoc in Hat.
    destruct (loop_store (length (snd s) + (length items + fuel)) (fst s) _ sc (len pre) ss o 0 tot x Hst Ho ltac:(lia) ltac:(lia) Hat)
      as (sc1 & Hat1 & E1). rewrite u64_small in E1 by lia.
    destruct (loop_nodes (snd s) (length items + fuel) _ sc1 _ (close_all (len pre) o ss) (fst s) (len pre) 0 1 0 0 (tot + 1)
      (x ++ close_events (len pre) o ss ++ [EvOpen (mkEntry (fst s) (len pre) 0 1 0)]) Hno Hat1)
      as (sc2 & Hat2 & E2); try lia.
    set (e := mkEntry (fst s) (len pre) 0 (1 + len (snd s)) (0 + body_bytes (snd s))) in *.
    assert (Hp2 : len (pre ++ W) = len pre + len (wire (Some (store_item (fst s)))) + len (item_wires (snd s)))
      by (rewrite len_app; lia).
    rewrite <- Hp2 in Hat2.
    destruct (IH fuel (pre ++ W) rest sc2 (close_all (len pre) o ss ++ [e]) true (tot + 1 + len (snd s))
      (x ++ close_events (len pre) o ss ++ [EvOpen (mkEntry (fst s) (len pre) 0 1 0)]))
      as (sc' & ss' & o' & x' & es & Hat' & [Hes Hfrom] & E & Ho' & Hc & Hx); [done| |lia|lia| |done|].
    { intros _ E. by apply app_nil in E as [_ E]. }
    { rewrite Hd. by rewrite <- !app_assoc. }
    fold items in Hat', E, Hc, Hx.
    assert (Hp' : len (pre ++ W) + len (item_wires items) = len pre + len (W ++ item_wires items))
      by (rewrite !len_app; lia).
    rewrite Hp' in *.
    unfold close_all at 2 in Hc. rewrite upd_last_snoc in Hc. unfold close_events at 3 in Hx. rewrite last_snoc in Hx.
    exists sc', ss', o', x', (set_end (len (pre ++ W)) e :: es). split_and!; [done| | | |done| |].
    + constructor; [|done]. split; cbn [Name DecompressedStart DecompressedEnd ItemCount IAVLBytes set_end e];
        rewrite ?len_app; [done| |fold W; lia|unfold seg_items; rewrite len_cons; lia|lia].
      split; [lia|]. apply (at_range pre (seg_items s) (item_wires items ++ rest)); [|done].
      rewrite Hd. by rewrite <- !app_assoc.
    + cbn [entries_from]. fold W. rewrite <- len_app, Hfrom. unfold seg_items. by rewrite len_cons.
    + unfold seg_items at 1. rewrite length_app. cbn [length Nat.add].
      replace (length (snd s) + length items + fuel)%nat with (length (snd s) + (length items + fuel))%nat by lia.
      rewrite E1, E2, E. unfold seg_items. rewrite len_app, len_cons. do 3 f_equal. lia.
    + rewrite Hc, <- app_assoc. reflexivity.
    + rewrite Hx. cbn [map concat]. rewrite <- !app_assoc. reflexivity.
Qed.

Lemma loop_exts exts : forall fuel rest sc p ss o ext tot x,
  Forall ext_ok exts -> (o = true -> ss <> []) -> 0 <= tot -> tot + len exts < 2 ^ 63 -> 0 < p ->
  at_ sc (item_wires exts ++ rest) p ->
  let p' := p + len (item_wires exts) in
  exists sc' ss' o' x', at_ sc' rest p' /\
    loop (length exts + fuel) (mkBuild sc (mkIndex ss ext tot 0) o x) =
    loop fuel (mkBuild sc' (mkIndex ss' (if bool_decide (exts = []) then ext else if ext =? 0 then p else ext)
      (tot + len exts) 0) o' x') /\
    (o' = true -> ss' <> []) /\ (exts = [] -> ss' = ss /\ o' = o /\ x' = x) /\
    (exts <> [] -> o' = false /\ ss' = close_all p o ss /\ x' = x ++ close_events p o ss).
Proof using Type.
  induction exts as [|it exts IH]; intros fuel rest sc p ss o ext tot x Hok Ho Ht Htb Hp Hat; cbv zeta.
  - exists sc, ss, o, x. change (len (@nil snapItem)) with 0. cbn [length Nat.add].
    change (len (item_wires [])) with 0. rewrite !Z.add_0_r, bool_decide_eq_true_2 by done. split_and!; try done.
  - apply Forall_cons in Hok as [[Hsm Hty] Hok']. rewrite item_wires_cons, <- app_assoc in Hat.
    rewrite len_cons in *. pose proof (len_nonneg exts). cbn [length Nat.add].
    destruct (loop_ext (length exts + fuel) it _ sc p ss o ext tot x Hsm Hty Ho Hat) as (sc1 & Hat1 & ->).
    rewrite u64_small by lia.
    destruct (IH fuel rest sc1 (p + len (wire (Some it))) (close_all p o ss) false (if ext =? 0 then p else ext) (tot + 1)
      (x ++ close_events p o ss) Hok') as (sc' & ss' & o' & x' & Hat' & E & Ho' & H1 & H2);
      [done|lia|lia|pose proof (len_nonneg (wire (Some it))); lia|done|].
    exists sc', ss', o', x'. rewrite item_wires_cons, len_app, Z.add_assoc, (bool_decide_eq_false_2 (it :: exts = [])) by done.
    split_and!; [done| |done|done|].
    + rewrite E. repeat case_bool_decide; do 3 f_equal; try lia.
      destruct (Z.eqb_spec ext 0) as [->|]; [by rewrite (proj2 (Z.eqb_neq p 0)) by lia|].
      by rewrite (proj2 (Z.eqb_neq ext 0)).
    + intros _. destruct (decide (exts = [])) as [E0|E0].
      * destruct (H1 E0) as (-> & -> & ->). done.
      * destruct (H2 E0) as (-> & -> & ->). unfold close_all at 1, close_events at 2. by rewrite app_nil_r.
Qed.
End Segments.

(** ** The order of the index *)

Definition bigger (a b : StoreEntry) : Prop := IAVLBytes b <= IAVLBytes a.

Lemma insert_desc_perm e l : insert_desc e l ≡ₚ e :: l.
Proof.
  induction l as [|x l IH]; [done|]. cbn. destruct (_ <=? _); [done|]. rewrite IH. apply Permutation_swap.
Qed.

Lemma sort_desc_perm l : sort_desc l ≡ₚ l.
Proof. induction l as [|e l IH]; [done|]. cbn. by rewrite insert_desc_perm, IH. Qed.

Lemma insert_desc_sorted e l : StronglySorted bigger l -> StronglySorted bigger (insert_desc e l).
Proof.
  induction 1 as [|x l Hs IH Hx]; [by repeat constructor|]. cbn.
  destruct (Z.leb_spec (IAVLBytes x) (IAVLBytes e)) as [Hle|Hgt].
  - constructor; [by constructor|]. constructor; [done|]. eapply Forall_impl; [exact Hx|].
    unfold bigger. intros y Hy. cbn in *. lia.
  - constructor; [done|]. rewrite insert_desc_perm. constructor; [unfold bigger; lia|done].
Qed.

Lemma sort_desc_sorted l : StronglySorted bigger (sort_desc l).
Proof. induction l; [constructor|]. by apply insert_desc_sorted. Qed.

(** ** The index of a stream *)

Lemma finish_any p ss o ext tot sc x : (o = true -> ss <> []) ->
  fst (finish_index log_close p (mkBuild sc (mkIndex ss ext tot 0) o x)) =
    Ret (mkIndex (sort_desc (close_all p o ss)) ext tot p) /\
  bd_x (snd (finish_index log_close p (mkBuild sc (mkIndex ss ext tot 0) o x))) = x ++ close_events p o ss.
Proof.
  intros Ho. unfold finish_index, set_total, get, modify, mbind, M_bind, mret, M_ret.
  rewrite (closeCur_any _ _ _ _ _ _ _ _ Ho). done.
Qed.

Lemma loop_end fuel sc p ss o ext tot x : (o = true -> ss <> []) -> at_ sc [] p ->
  exists b, loop (S fuel) (mkBuild sc (mkIndex ss ext tot 0) o x) =
    (Ret (mkIndex (sort_desc (close_all p o ss)) ext tot p), b) /\ bd_x b = x ++ close_events p o ss.
Proof.
  intros Ho Hat. destruct (readUvarint_end _ _ Hat) as [sc' E]. cbn [index_loop]. unfold get.
  unfold mbind at 1 2, M_bind at 1 2. cbn [bd_sc]. rewrite (scan_ret _ _ _ _ _ _ _ _ E), (at_pos _ _ _ Hat).
  destruct (finish_any p ss o ext tot sc' x Ho) as [E1 E2].
  destruct (finish_index _ _ _) as [r b]. cbn in E1, E2. subst r. by eexists.
Qed.

(** The stream of a snapshot: its stores, then the extensions. *)
Definition snapshot_items (segs : list segment) (exts : list snapItem) : list snapItem :=
  concat (map seg_items segs) ++ exts.

Lemma index_result r segs exts :
  rd_end r = EOF -> concat (rd_chunks r) = item_wires (snapshot_items segs exts) ->
  segs <> [] -> Forall seg_ok segs -> Forall ext_ok exts -> len (concat (rd_chunks r)) < 2 ^ 61 ->
  exists es b, (Forall2 (entry_of (concat (rd_chunks r))) es segs /\ es = entries_from 0 segs) /\
    buildIndexFromReader log_open log_close r [] =
      (Ret (mkIndex (sort_desc es) (if bool_decide (exts = []) then 0 else len (item_wires (concat (map seg_items segs))))
         (len (snapshot_items segs exts)) (len (concat (rd_chunks r)))), b) /\
    bd_x b = concat (map entry_events es) /\
    sort_desc es ≡ₚ es /\ StronglySorted bigger (sort_desc es).
Proof.
  intros Hend Hdata Hne Hsegs Hexts Hlen. unfold snapshot_items in *.
  set (data := concat (rd_chunks r)) in *. set (items := concat (map seg_items segs)) in *.
  rewrite item_wires_app in Hdata.
  assert (Hat : at_ (newIndexScanner r) (item_wires items ++ item_wires exts) (len (@nil Init.Byte.byte)))
    by (split; [exact Hdata|done|done]).
  pose proof (items_le (items ++ exts)) as Hn. rewrite item_wires_app, <- Hdata, len_app in Hn.
  pose proof (len_nonneg items). pose proof (len_nonneg exts).
  assert (Hfuel : exists k, S (length data) = (length items + (length exts + S k))%nat).
  { exists (length data - length items - length exts)%nat. unfold len in Hn. lia. }
  destruct Hfuel as [k Hfuel]. unfold buildIndexFromReader. fold data. rewrite Hfuel.
  destruct (loop_segs data Hlen segs (length exts + S k) [] (item_wires exts) (newIndexScanner r) [] false 0 []
    Hsegs ltac:(done) ltac:(lia) ltac:(done) Hdata Hat) as (sc1 & ss1 & o1 & x1 & es & Hat1 & Hes & E1 & Ho1 & Hc1 & Hx1).
  fold items in Hat1, E1, Hc1, Hx1. rewrite len_nil, Z.add_0_l in Hat1, Hc1, Hx1. cbn [close_all close_events app] in Hc1, Hx1.
  rewrite E1, Z.add_0_l. rewrite <- (app_nil_r (item_wires exts)) in Hat1.
  assert (Hp : 0 < len (item_wires items)).
  { pose proof (items_le items). enough (0 < len items) by lia. destruct segs as [|s segs']; [done|].
    unfold items, seg_items. cbn [map concat app]. rewrite len_cons. apply Z.lt_le_trans with 1; [lia|].
    pose proof (len_nonneg (snd s ++ concat (map seg_items segs'))). unfold seg_items in *. lia. }
  destruct (loop_exts exts (S k) [] sc1 (len (item_wires items)) ss1 o1 0 (len items) x1 Hexts Ho1) as
    (sc2 & ss2 & o2 & x2 & Hat2 & E2 & Ho2 & H1 & H2); [lia|lia|done|done|].
  rewrite E2. assert (Htot : len (item_wires items) + len (item_wires exts) = len data) by (rewrite Hdata, len_app; done).
  rewrite Htot in Hat2. destruct (loop_end k sc2 _ ss2 o2
    (if bool_decide (exts = []) then 0 else if 0 =? 0 then len (item_wires items) else 0) (len items + len exts) x2 Ho2 Hat2) as (b & E3 & Hb).
  rewrite E3. exists es, b. rewrite Hb, len_app.
  assert (Hfin : close_all (len data) o2 ss2 = es /\ x2 ++ close_events (len data) o2 ss2 = concat (map entry_events es)).
  { destruct (decide (exts = [])) as [E0|E0].
    - destruct (H1 E0) as (-> & -> & ->). rewrite <- Htot, E0.
      change (len (item_wires [])) with 0. rewrite Z.add_0_r. done.
    - destruct (H2 E0) as (-> & -> & ->). cbn [close_all close_events]. by rewrite app_nil_r. }
  destruct Hfin as [-> ->]. destruct Hes. split_and!; [done..|apply sort_desc_perm|apply sort_desc_sorted].
Qed.

(** C37: However the reader below cuts the stream, the one-pass scan of a snapshot gives
    every store exactly the byte range that holds its items, with the right item
    count and size, biggest store first; it opens and closes each store once, in
    stream order, at those offsets, and finds where the extensions begin. *)
Theorem index_exact r segs exts :
  rd_end r = EOF -> concat (rd_chunks r) = item_wires (snapshot_items segs exts) ->
  segs <> [] -> Forall seg_ok segs -> Forall ext_ok exts -> len (concat (rd_chunks r)) < 2 ^ 61 ->
  exists es b, Forall2 (entry_of (concat (rd_chunks r))) es segs /\
    buildIndexFromReader log_open log_close r [] =
      (Ret (mkIndex (sort_desc es) (if bool_decide (exts = []) then 0 else len (item_wires (concat (map seg_items segs))))
         (len (snapshot_items segs exts)) (len (concat (rd_chunks r)))), b) /\
    bd_x b = concat (map entry_events es) /\
    sort_desc es ≡ₚ es /\ StronglySorted bigger (sort_desc es).
Proof.
  intros H1 H2 H3 H4 H5 H6. destruct (index_result r segs exts H1 H2 H3 H4 H5 H6) as (es & b & [Hes _] & H).
  by exists es, b.
Qed.

(** ** Concrete streams *)

Definition sample_leaf (k v : string) : snapItem :=
  mkItem itemTypeIAVL [] (Some (str k)) (Some (str v)) 5 0 [] 0 None.
Definition sample_segs : list segment :=
  [(str "acc", [sample_leaf "a" "1"]); (str "bank", [sample_leaf "a" "balance"; sample_leaf "b" "balance"]); (str "gov", [])].
Definition sample_exts : list snapItem :=
  [mkItem itemTypeExtMeta [] None None 0 0 (str "wasm") 1 None;
   mkItem itemTypeExtPayload [] None None 0 0 [] 0 (Some (str "code"))].
Definition sample_data : bytes := item_wires (snapshot_items sample_segs sample_exts).

(** The stream in two pieces, the second with the end of the stream attached. *)
Definition sample_reader : reader := mkReader [take 20 sample_data; []; drop 20 sample_data] EOF true.

Lemma index_sample :
  match fst (buildIndexFromReader log_open log_close sample_reader []) with
  | Ret idx => map (fun e => (Name e, (DecompressedStart e, DecompressedEnd e), ItemCount e)) (Stores idx) =
      [(str "bank", (19, 62), 3); (str "acc", (0, 19), 2); (str "gov", (62, 70), 1)] /\ ExtStart idx = 70
  | _ => False
  end.
Proof. vm_compute. split; reflexivity. Qed.

Lemma index_exact_witness : exists es b,
  Forall2 (entry_of (concat (rd_chunks sample_reader))) es sample_segs /\
  bd_x b = concat (map entry_events es) /\
  fst (buildIndexFromReader log_open log_close sample_reader []) = Ret (mkIndex (sort_desc es) 70 8 90).
Proof.
  destruct (index_exact sample_reader sample_segs sample_exts) as (es & b & H1 & H2 & H3 & _).
  - reflexivity.
  - vm_compute. reflexivity.
  - discriminate.
  - repeat constructor; vm_compute; congruence.
  - repeat constructor; try (vm_compute; congruence); first [by left | by right].
  - vm_compute. reflexivity.
  - exists es, b. split; [exact H1|]. split; [exact H3|]. rewrite H2. cbn [fst].
    reflexivity.
Defined.

(** [BuildIndex] leaves the last store open over the extensions and never sets
    [ExtStart], although its result has the field for it. *)
Lemma BuildIndex_ignores_extensions :
  match BuildIndex sample_reader with
  | Ret idx => map (fun e => (Name e, (DecompressedStart e, DecompressedEnd e), ItemCount e)) (Stores idx) =
      [(str "bank", (19, 62), 3); (str "acc", (0, 19), 2); (str "gov", (62, 90), 3)] /\ ExtStart idx = 0
  | _ => False
  end.
Proof. vm_compute. split; reflexivity. Qed.

(** A zero-length envelope, which [snapReader.Next] skips, ends the scan with an error. *)
Lemma index_rejects_empty_envelope :
  fst (buildIndexFromReader log_open log_close (mkReader [wires [None]] EOF false) []) = Err (Errorf "zero-length envelope").
Proof. vm_compute. reflexivity. Qed.

(** [buildIndexFromReader] has no cap on the envelope: a length of 2^63 turns
    negative and skips nothing, so the scan resumes inside the envelope and here
    finds two items in what is one; [BuildIndex] refuses the stream. *)
Definition huge_envelope : bytes := PutUvarint (2 ^ 63) ++ bs (18 :: 18 :: repeat 0 17).

Lemma index_negative_discard :
  fst (buildIndexFromReader log_open log_close (mkReader [huge_envelope] EOF false) []) = Ret (mkIndex [] 0 2 29) /\
  BuildIndex (mkReader [huge_envelope] EOF false) = Err (Errorf "snapshot envelope exceeds cap").
Proof. vm_compute. split; reflexivity. Qed.
