(* ===== verification/Streams.v ===== *)
(** * Stream sources (prefetch.go, tailread.go, chunkreader.go)

    What the importers read from.  The prefetch reader runs a producer goroutine
    ahead of its consumer over a bounded channel; the tailing reader opens the
    chunk files as the download marks them ready.  Both are step relations: one
    step per action of a goroutine between two synchronisation points.  The main
    theorems: whatever the interleaving, the consumer gets the bytes of the
    source, in order, and their end; it is never stuck. *)

From S2P Require Import Prelude Varint Index Scheduler.

(** ** [io.ReadFull] *)

Definition norm (e : goerr) : goerr := match e with ErrUnexpectedEOF => EOF | _ => e end.

Definition rd_bytes (r : reader) : bytes := concat (rd_chunks r).

(** [io.ReadAtLeast(r, buf, len(buf))] with [len(buf) = n]. *)
Fixpoint ReadFull_loop (fuel : nat) (n : Z) (acc : bytes) (r : reader) : outcome (bytes * option goerr * reader) :=
  if n <=? len acc then Ret (acc, None, r) else
  match fuel with
  | O => NoFuel
  | S fuel =>
      let '(data, err, r) := Read (n - len acc) r in
      let acc := acc ++ data in
      match err with
      | None => ReadFull_loop fuel n acc r
      | Some e =>
          Ret (acc,
            if n <=? len acc then None
            else if (0 <? len acc) && bool_decide (e = EOF) then Some ErrUnexpectedEOF else Some e, r)
      end
  end.

Definition ReadFull (n : Z) (r : reader) : outcome (bytes * option goerr * reader) :=
  ReadFull_loop (S (reads_left r)) n [] r.

(** ** The prefetch reader *)

Record readChunk := mkChunk { c_data : bytes; c_err : option goerr }.

(** Where the producer is: before [io.ReadFull], at the select that sends data
    (with the error that came with it), at the select that sends the error, gone. *)
Inductive producer :=
| PRead
| PData (data : bytes) (err : option goerr)
| PErr (e : goerr)
| PExit.

#[export] Instance producer_eq_dec : EqDecision producer.
Proof. solve_decision. Defined.

Record prefetchReader := mkPf {
  p_cap : Z;
  p_buf : Z;
  p_src : reader;
  p_pc : producer;
  p_ch : list readChunk;
  p_cancelled : bool;
  p_cur : bytes;
  p_err : option goerr
}.

Definition newPrefetchReader (src : reader) (numBufs bufSize : Z) : prefetchReader :=
  mkPf (if numBufs <? 1 then 1 else numBufs) (if bufSize <? 1 then 4096 else bufSize) src PRead [] false [] None.

Definition with_producer src pc ch (s : prefetchReader) : prefetchReader :=
  mkPf (p_cap s) (p_buf s) src pc ch (p_cancelled s) (p_cur s) (p_err s).
Definition with_consumer ch cur err (s : prefetchReader) : prefetchReader :=
  mkPf (p_cap s) (p_buf s) (p_src s) (p_pc s) ch (p_cancelled s) cur err.

(** After the error has been looked at: what the loop does next. *)
Definition after_data (err : option goerr) : producer :=
  match err with None => PRead | Some e => PErr (norm e) end.

(** One action of the producer that does not depend on the context. *)
Definition run (s : prefetchReader) : option prefetchReader :=
  match p_pc s with
  | PRead =>
      match ReadFull (p_buf s) (p_src s) with
      | Ret (data, err, src) =>
          Some (with_producer src (if 0 <? len data then PData data err else after_data err) (p_ch s) s)
      | _ => None
      end
  | PData data err =>
      if len (p_ch s) <? p_cap s
      then Some (with_producer (p_src s) (after_data err) (p_ch s ++ [mkChunk data None]) s) else None
  | PErr e =>
      if len (p_ch s) <? p_cap s
      then Some (with_producer (p_src s) PExit (p_ch s ++ [mkChunk [] (Some e)]) s) else None
  | PExit => None
  end.

(** The other branch of the two selects. *)
Definition run_done (s : prefetchReader) : option prefetchReader :=
  match p_pc s with
  | PData _ _ | PErr _ => if p_cancelled s then Some (with_producer (p_src s) PExit (p_ch s) s) else None
  | _ => None
  end.

Definition is_exit (pc : producer) : bool := match pc with PExit => true | _ => false end.

(** [Read] with [len(dst) = n], along the chunks that are in the channel; [None]
    when the receive blocks (the producer closes the channel as it leaves). *)
Definition give (n : Z) (ch : list readChunk) (cur : bytes) (err : option goerr) (s : prefetchReader)
    : option (bytes * option goerr * prefetchReader) :=
  Some (take (Z.to_nat n) cur, None, with_consumer ch (drop (Z.to_nat n) cur) err s).

Fixpoint pf_Read_from (n : Z) (ch : list readChunk) (cur : bytes) (s : prefetchReader)
    : option (bytes * option goerr * prefetchReader) :=
  if negb (bool_decide (cur = [])) then give n ch cur (p_err s) s else
  match p_err s with
  | Some e => Some ([], Some e, with_consumer ch cur (Some e) s)
  | None =>
      match ch with
      | [] => if is_exit (p_pc s) then Some ([], Some EOF, with_consumer [] cur (Some EOF) s) else None
      | c :: ch =>
          match c_err c with
          | Some e =>
              if len (c_data c) =? 0 then Some ([], Some e, with_consumer ch cur (Some e) s)
              else give n ch (c_data c) (Some e) s
          | None => pf_Read_from n ch (c_data c) s
          end
      end
  end.

Definition pf_Read (n : Z) (s : prefetchReader) := pf_Read_from n (p_ch s) (p_cur s) s.

(** [Close] cancels and then waits for the producer to leave. *)
Definition pf_cancel (s : prefetchReader) : prefetchReader :=
  mkPf (p_cap s) (p_buf s) (p_src s) (p_pc s) (p_ch s) true (p_cur s) (p_err s).
Definition pf_closed (s : prefetchReader) : bool := p_cancelled s && is_exit (p_pc s).

(** The state with the bytes that [Read] has returned so far. *)
Inductive pf_step : prefetchReader * bytes -> prefetchReader * bytes -> Prop :=
| step_run s s' d : run s = Some s' -> pf_step (s, d) (s', d)
| step_done s s' d : run_done s = Some s' -> pf_step (s, d) (s', d)
| step_Read n s data err s' d : 0 <= n -> pf_Read n s = Some (data, err, s') -> pf_step (s, d) (s', d ++ data)
| step_Close s d : pf_step (s, d) (pf_cancel s, d).

(** What the consumer sees of a source behind a prefetch reader. *)
Definition prefetched (s : source) : source := Source (src_data s) (norm (src_end s)).

(** *** [io.ReadFull] *)

Lemma Read_len n r data err r' : 1 <= n -> Read n r = (data, err, r') -> len data <= n.
Proof.
  intros Hn. unfold Read. destruct (rd_chunks r) as [|c cs]; [intros [= <- _ _]; rewrite len_nil; lia|].
  destruct (Z.leb_spec (len c) n); intros [= <- _ _]; [done|]. rewrite len_take_le; unfold len in *; lia.
Qed.

Lemma norm_norm e : norm (norm e) = norm e.
Proof. by destruct e. Qed.

Lemma ReadFull_loop_spec fuel : forall n acc r, len acc <= n -> (reads_left r < fuel)%nat ->
  exists data err r', ReadFull_loop fuel n acc r = Ret (acc ++ data, err, r') /\
    rd_bytes r = data ++ rd_bytes r' /\ rd_end r' = rd_end r /\ len (acc ++ data) <= n /\
    match err with
    | None => len (acc ++ data) = n
    | Some e => rd_bytes r' = [] /\ norm e = norm (rd_end r) /\ len (acc ++ data) < n
    end.
Proof.
  induction fuel as [|fuel IH]; intros n acc r Hle Hf; [lia|]. cbn [ReadFull_loop].
  destruct (Z.leb_spec n (len acc)) as [Hge|Hlt].
  { exists [], None, r. rewrite app_nil_r. split_and!; try done; lia. }
  destruct (Read (n - len acc) r) as [[data err] r1] eqn:Er.
  pose proof (Read_len (n - len acc) r data err r1 ltac:(lia) Er) as Hd.
  apply reader_Read_spec in Er as (E1 & E2 & _ & E4 & E5 & E6); [|lia]. fold (rd_bytes r) (rd_bytes r1) in E2.
  destruct err as [e|].
  - destruct (E4 ltac:(done)) as [[= ->] E]. exists data. eexists _, r1. split; [done|]. split_and!; [done|done|rewrite len_app; lia|].
    assert (Hr : rd_bytes r1 = []) by (unfold rd_bytes; by rewrite E).
    destruct (Z.leb_spec n (len (acc ++ data))); [by rewrite len_app in *; lia|].
    destruct (_ && _) eqn:Ee; (split_and!; [done| |done]); [|done].
    apply andb_prop in Ee as [_ Ee%bool_decide_eq_true]. by rewrite Ee.
  - assert (Hlt' : (reads_left r1 < fuel)%nat).
    { destruct (decide (rd_chunks r = [])) as [E|E]; [by destruct (E6 E)|]. specialize (E5 E). lia. }
    destruct (IH n (acc ++ data) r1 ltac:(rewrite len_app; lia) Hlt') as (data' & err & r' & E & E7 & E8 & E9 & E10).
    exists (data ++ data'), err, r'. rewrite !app_assoc, E8, E2, E7, app_assoc. split_and!; try done.
    destruct err; [by rewrite E1 in E10|done].
Qed.

Lemma ReadFull_spec n r : 1 <= n ->
  exists data err r', ReadFull n r = Ret (data, err, r') /\ rd_bytes r = data ++ rd_bytes r' /\ rd_end r' = rd_end r /\
    len data <= n /\
    match err with
    | None => len data = n
    | Some e => rd_bytes r' = [] /\ norm e = norm (rd_end r)
    end.
Proof.
  intros Hn. destruct (ReadFull_loop_spec (S (reads_left r)) n [] r ltac:(rewrite len_nil; lia) ltac:(lia))
    as (data & err & r' & E & E1 & E2 & E3 & E4).
  exists data, err, r'. split_and!; try done. destruct err; [|done]. by destruct E4 as (? & ? & _).
Qed.

(** *** The invariant of the prefetch reader *)

Section Prefetch.
Context (all : bytes) (fin : goerr).

(** What the producer has not put into the channel yet. *)
Definition upstream (s : prefetchReader) : bytes :=
  match p_pc s with
  | PRead => rd_bytes (p_src s)
  | PData data _ => data ++ rd_bytes (p_src s)
  | PErr _ | PExit => []
  end.

Definition buffered_ (s : prefetchReader) : bytes := p_cur s ++ concat (map c_data (p_ch s)).

(** The producer knows the end of the source only once it has all its bytes. *)
Definition pc_ok (s : prefetchReader) : Prop :=
  match p_pc s with
  | PRead => norm (rd_end (p_src s)) = fin
  | PData data err =>
      data <> [] /\ len data <= p_buf s /\
      match err with
      | None => norm (rd_end (p_src s)) = fin
      | Some e => rd_bytes (p_src s) = [] /\ norm e = fin
      end
  | PErr e => rd_bytes (p_src s) = [] /\ e = fin
  | PExit => True
  end.

Definition data_chunk (n : Z) (c : readChunk) : Prop := c_err c = None /\ c_data c <> [] /\ len (c_data c) <= n.

(** The error travels behind the last bytes: it is still with the producer, last
    in the channel, or with the consumer. *)
Inductive err_at (s : prefetchReader) : Prop :=
| err_producer : p_pc s <> PExit -> Forall (data_chunk (p_buf s)) (p_ch s) -> p_err s = None -> err_at s
| err_channel cs : p_pc s = PExit -> p_ch s = cs ++ [mkChunk [] (Some fin)] -> Forall (data_chunk (p_buf s)) cs ->
    p_err s = None -> err_at s
| err_consumer : p_pc s = PExit -> p_ch s = [] -> p_cur s = [] -> p_err s = Some fin -> err_at s.

Definition chunk_ok (n : Z) (c : readChunk) : Prop := len (c_data c) <= n /\ (c_err c <> None -> c_data c = []).

Record pf_inv (s : prefetchReader) (d : bytes) : Prop := {
  pi_buf : 1 <= p_buf s;
  pi_cap : 1 <= p_cap s /\ len (p_ch s) <= p_cap s;
  pi_cur : len (p_cur s) <= p_buf s;
  pi_chunks : Forall (chunk_ok (p_buf s)) (p_ch s);
  pi_pc : pc_ok s;
  pi_rest : exists rest, d ++ buffered_ s ++ rest = all /\
    (p_pc s <> PExit \/ p_cancelled s = false -> rest = upstream s);
  pi_live : p_cancelled s = false -> err_at s
}.

Lemma pf_inv_init src numBufs bufSize : rd_bytes src = all -> norm (rd_end src) = fin ->
  pf_inv (newPrefetchReader src numBufs bufSize) [].
Proof using Type.
  intros Hall Hfin. unfold newPrefetchReader. split; cbn.
  - destruct (Z.ltb_spec bufSize 1); lia.
  - rewrite len_nil. destruct (Z.ltb_spec numBufs 1); lia.
  - rewrite len_nil. destruct (Z.ltb_spec bufSize 1); lia.
  - constructor.
  - done.
  - by exists all.
  - intros _. by apply err_producer.
Qed.

Lemma data_chunk_ok n c : data_chunk n c -> chunk_ok n c.
Proof using Type. intros (H1 & H2 & H3). split; [done|]. by rewrite H1. Qed.

Lemma buffered_snoc s src pc c :
  buffered_ (with_producer src pc (p_ch s ++ [c]) s) = buffered_ s ++ c_data c.
Proof using Type. unfold buffered_. cbn. rewrite map_app, concat_app. cbn. by rewrite app_nil_r, app_assoc. Qed.

(** The producer's actions while nobody has cancelled. *)
Lemma run_live s s' : 1 <= p_buf s -> pc_ok s -> run s = Some s' ->
  pc_ok s' /\ buffered_ s' ++ upstream s' = buffered_ s ++ upstream s /\
  p_buf s' = p_buf s /\ p_cap s' = p_cap s /\ p_cur s' = p_cur s /\ p_err s' = p_err s /\ p_cancelled s' = p_cancelled s /\
  (p_ch s' = p_ch s /\ p_pc s' <> PExit \/
   (exists c, p_ch s' = p_ch s ++ [c] /\ len (p_ch s) < p_cap s /\ p_pc s' <> PExit /\ data_chunk (p_buf s) c) \/
   (p_ch s' = p_ch s ++ [mkChunk [] (Some fin)] /\ len (p_ch s) < p_cap s /\ p_pc s' = PExit)).
Proof using Type.
  intros Hb Hpc. unfold run. destruct (p_pc s) as [|data err|e|] eqn:Epc; try done.
  - destruct (ReadFull_spec (p_buf s) (p_src s) Hb) as (data & err & r & -> & E1 & E2 & E3 & E4). intros [= <-].
    unfold pc_ok in Hpc. rewrite Epc in Hpc. unfold upstream at 2. rewrite Epc. unfold pc_ok, upstream. cbn.
    destruct (Z.ltb_spec 0 (len data)) as [Hd|Hd]; cbn.
    + assert (Hne : data <> []) by (intros E; rewrite E in Hd; unfold len in Hd; cbn in Hd; lia).
      split_and!; try done.
      * destruct err; [destruct E4; split; congruence|congruence].
      * by rewrite E1.
      * by left.
    + assert (data = []) as -> by (destruct data; [done|rewrite len_cons in Hd; pose proof (len_nonneg data); lia]).
      destruct err as [e|]; [|rewrite len_nil in E4; lia]. destruct E4 as [E4 E5]. cbn.
      rewrite E1, E4. split_and!; try done; [congruence|by left].
  - destruct (Z.ltb_spec (len (p_ch s)) (p_cap s)) as [Hlt|]; [|done]. intros [= <-].
    unfold pc_ok in Hpc. rewrite Epc in Hpc. destruct Hpc as (Hd & Hl & Hpc).
    rewrite buffered_snoc. unfold upstream. rewrite Epc. cbn. rewrite <- app_assoc.
    split_and!; try done.
    + unfold pc_ok. cbn. destruct err as [e|]; [|done]. cbn. by destruct Hpc.
    + do 2 f_equal. destruct err; [|done]. by destruct Hpc as [-> _].
    + right. left. exists (mkChunk data None). split_and!; try done. by destruct err.
  - destruct (Z.ltb_spec (len (p_ch s)) (p_cap s)) as [Hlt|]; [|done]. intros [= <-].
    unfold pc_ok in Hpc. rewrite Epc in Hpc. destruct Hpc as [Hr ->].
    rewrite buffered_snoc. unfold upstream. rewrite Epc. cbn. rewrite !app_nil_r.
    split_and!; try done. by right; right.
Qed.

Lemma run_inv_pf s s' d : pf_inv s d -> run s = Some s' -> pf_inv s' d.
Proof using Type.
  intros [I1 I2 I3 I4 I5 (rest & I6 & I6') I7] Hr.
  assert (Hne : p_pc s <> PExit) by (intros E; unfold run in Hr; by rewrite E in Hr).
  rewrite (I6' (or_introl Hne)) in I6. clear I6'.
  destruct (run_live s s' I1 I5 Hr) as (H1 & H2 & H3 & H4 & H5 & H6 & H7 & Hch).
  split; rewrite ?H3, ?H4, ?H5, ?H7; try done.
  - destruct Hch as [[-> _]|[(c & -> & Hl & _)|(-> & Hl & _)]]; rewrite ?len_app, ?len_cons, ?len_nil; lia.
  - destruct Hch as [[-> _]|[(c & -> & Hl & _ & Hc)|(-> & Hl & _)]]; [done|..];
      (apply Forall_app; split; [done|]; constructor; [|constructor]).
    + by apply data_chunk_ok.
    + split; [unfold len; cbn; lia|done].
  - exists (upstream s'). by rewrite H2.
  - intros Hc. destruct (I7 Hc) as [E1 E2 E3|cs E1 _ _ _|E1 _ _ _]; [|done..].
    destruct Hch as [[Ec Hp]|[(c & Ec & _ & Hp & Hd)|(Ec & _ & Hp)]].
    + apply err_producer; [done|by rewrite Ec, H3|by rewrite H6].
    + apply err_producer; [done| |by rewrite H6]. rewrite Ec, H3. apply Forall_app. split; [done|]. by constructor.
    + eapply err_channel; [done|exact Ec|by rewrite H3|by rewrite H6].
Qed.

Lemma run_done_inv s s' d : pf_inv s d -> run_done s = Some s' -> pf_inv s' d.
Proof using Type.
  intros [I1 I2 I3 I4 I5 (rest & I6 & _) I7]. unfold run_done.
  assert (Hgo : p_cancelled s = true -> pf_inv (with_producer (p_src s) PExit (p_ch s) s) d).
  { intros Hc. split; cbn; try done; [|by rewrite Hc]. exists rest. split; [exact I6|]. rewrite Hc. by intros [?|?]. }
  destruct (p_pc s); try done; (destruct (p_cancelled s) eqn:Hc; [|done]); intros [= <-]; by apply Hgo.
Qed.

Lemma cancel_inv s d : pf_inv s d -> pf_inv (pf_cancel s) d.
Proof using Type.
  intros [I1 I2 I3 I4 I5 (rest & I6 & I6') I7]. split; cbn; try done.
  exists rest. split; [exact I6|]. intros [H|H]; [|done]. apply I6'. by left.
Qed.

(** *** The consumer *)

Definition same_producer (s s' : prefetchReader) : Prop :=
  p_cap s' = p_cap s /\ p_buf s' = p_buf s /\ p_src s' = p_src s /\ p_pc s' = p_pc s /\ p_cancelled s' = p_cancelled s.

Lemma take_drop_bytes (n : Z) (l : bytes) : take (Z.to_nat n) l ++ drop (Z.to_nat n) l = l.
Proof using Type. apply take_drop. Qed.

Lemma pf_Read_from_spec n s ch : forall cur data err s',
  Forall (chunk_ok (p_buf s)) ch -> len cur <= p_buf s ->
  pf_Read_from n ch cur s = Some (data, err, s') ->
  same_producer s s' /\ data ++ buffered_ s' = cur ++ concat (map c_data ch) /\ len (p_cur s') <= p_buf s /\
  exists pre, ch = pre ++ p_ch s' /\
  match err with
  | None => p_err s' = p_err s /\ (1 <= n -> data <> []) /\ Forall (fun c => c_err c = None) pre
  | Some e => data = [] /\ p_err s' = Some e /\ p_cur s' = [] /\
      (p_err s = Some e /\ pre = [] \/
       p_err s = None /\ p_ch s' = [] /\ p_pc s = PExit /\ e = EOF /\ Forall (fun c => c_err c = None) pre \/
       p_err s = None /\ exists pre' c, pre = pre' ++ [c] /\ c_err c = Some e /\ Forall (fun c => c_err c = None) pre')
  end.
Proof using Type.
  assert (Hgive : forall ch cur data err s', cur <> [] -> len cur <= p_buf s -> give n ch cur (p_err s) s = Some (data, err, s') ->
    same_producer s s' /\ data ++ buffered_ s' = cur ++ concat (map c_data ch) /\ len (p_cur s') <= p_buf s /\
    p_ch s' = ch /\ err = None /\ p_err s' = p_err s /\ (1 <= n -> data <> [])).
  { intros ch0 cur data err s' Hne Hl [= <- <- <-]. unfold buffered_. cbn. rewrite app_assoc, take_drop. split_and!; try done.
    - unfold len in *. rewrite length_drop. lia.
    - intros Hn E. apply (f_equal length) in E. rewrite length_take in E. destruct cur; [done|]. cbn in E. lia. }
  induction ch as [|c ch IH]; intros cur data err s' Hch Hl; cbn [pf_Read_from].
  - destruct (bool_decide_reflect (cur = [])) as [->|Hne]; cbn [negb].
    + destruct (p_err s) as [e|] eqn:Ee.
      * intros [= <- <- <-]. split_and!; try done. exists []. split_and!; try done. by left.
      * destruct (p_pc s) eqn:Epc; try done. intros [= <- <- <-]. split_and!; try done.
        exists []. split_and!; try done. right. left. by split_and!.
    + intros H. apply Hgive in H as (H1 & H2 & H3 & H4 & -> & H5 & H6); [|done|done].
      split_and!; try done. exists []. by rewrite H4.
  - destruct (bool_decide_reflect (cur = [])) as [->|Hne]; cbn [negb].
    2: { intros H. apply Hgive in H as (H1 & H2 & H3 & H4 & -> & H5 & H6); [|done|done].
         split_and!; try done. exists []. by rewrite H4. }
    apply Forall_cons in Hch as [[Hcl Hce] Hch].
    destruct (p_err s) as [e|] eqn:Ee.
    + intros [= <- <- <-]. split_and!; try done. exists []. split_and!; try done. by left.
    + destruct (c_err c) as [e|] eqn:Ece.
      * rewrite (Hce ltac:(done)). cbn. intros [= <- <- <-]. split_and!; try done.
        -- unfold buffered_. cbn. by rewrite (Hce ltac:(done)).
        -- exists [c]. split_and!; try done. right. right. split; [done|]. by exists [], c.
      * intros H. apply IH in H as (H1 & H2 & H3 & pre & -> & H4); [|done|done].
        split_and!; try done. exists (c :: pre). split; [done|]. destruct err as [e|].
        -- destruct H4 as (-> & H5 & H6 & [[? _]|[(H7 & H8 & H9 & -> & H10)|(H7 & pre' & c' & -> & H8 & H9)]]); [done|..];
             (split_and!; try done).
           ++ right. left. split_and!; try done. by constructor.
           ++ right. right. split; [done|]. exists (c :: pre'), c'. split_and!; try done. by constructor.
        -- destruct H4 as (H5 & H6 & H7). split_and!; try done. by constructor.
Qed.

(** Where the error chunk is when a prefix has been received. *)
Lemma err_received n cs pre c post e : Forall (data_chunk n) cs ->
  cs ++ [mkChunk [] (Some fin)] = (pre ++ [c]) ++ post -> c_err c = Some e -> e = fin /\ post = [].
Proof using Type.
  intros Hcs E He. destruct post as [|c' post _] using rev_ind.
  - rewrite app_nil_r in E. apply app_inj_tail in E as [_ <-]. by injection He as <-.
  - exfalso. rewrite app_assoc in E. apply app_inj_tail in E as [-> _].
    apply Forall_app in Hcs as [[_ [[Hc _] _]%Forall_cons]%Forall_app _]. congruence.
Qed.

Lemma err_left n cs pre post : Forall (data_chunk n) cs -> Forall (fun c => c_err c = None) pre ->
  cs ++ [mkChunk [] (Some fin)] = pre ++ post ->
  exists cs', post = cs' ++ [mkChunk [] (Some fin)] /\ Forall (data_chunk n) cs'.
Proof using Type.
  intros Hcs Hpre E. destruct post as [|c' post _] using rev_ind.
  - rewrite app_nil_r in E. subst pre. by apply Forall_app in Hpre as [_ [? _]%Forall_cons].
  - rewrite app_assoc in E. apply app_inj_tail in E as [-> <-]. exists post. split; [done|]. by apply Forall_app in Hcs as [_ ?].
Qed.

Lemma no_err_received n pre c post e : Forall (data_chunk n) ((pre ++ [c]) ++ post) -> c_err c = Some e -> False.
Proof using Type. intros [[_ [[Hc _] _]%Forall_cons]%Forall_app _]%Forall_app He. congruence. Qed.

(** A read that fails has met the error, behind everything else. *)
Lemma read_err s s' e pre : err_at s -> p_ch s = pre ++ p_ch s' ->
  (p_err s = Some e /\ pre = [] \/
   p_err s = None /\ p_ch s' = [] /\ p_pc s = PExit /\ e = EOF /\ Forall (fun c => c_err c = None) pre \/
   p_err s = None /\ exists pre' c, pre = pre' ++ [c] /\ c_err c = Some e /\ Forall (fun c => c_err c = None) pre') ->
  e = fin /\ p_pc s = PExit /\ p_ch s' = [].
Proof using Type.
  intros [A1 A2 A3|cs A1 A2 A3 A4|A1 A2 A3 A4] Hpre [[H3 ->]|[(H3 & H4 & H5 & -> & H6)|(H3 & pre' & c & -> & H4 & H5)]]; try congruence.
  - rewrite Hpre in A2. destruct (no_err_received _ _ _ _ _ A2 H4).
  - rewrite Hpre in A2. destruct (err_left _ _ _ _ A3 H6 (eq_sym A2)) as (cs' & E & _). rewrite H4 in E. by destruct cs'.
  - rewrite Hpre in A2. by destruct (err_received _ _ _ _ _ _ A3 (eq_sym A2) H4) as [-> ->].
  - split_and!; [congruence|done|]. rewrite A2 in Hpre. by destruct (p_ch s').
Qed.

Lemma read_ok s s' n pre data : err_at s -> p_ch s = pre ++ p_ch s' -> same_producer s s' -> p_err s' = p_err s ->
  pf_Read n s = Some (data, None, s') -> Forall (fun c => c_err c = None) pre -> err_at s'.
Proof using Type.
  intros [A1 A2 A3|cs A1 A2 A3 A4|A1 A2 A3 A4] Hpre (E1 & E2 & E3 & E4 & E5) He H Hn.
  - apply err_producer; [congruence| |congruence]. rewrite E2. rewrite Hpre in A2. by apply Forall_app in A2 as [_ ?].
  - rewrite Hpre in A2. destruct (err_left _ _ _ _ A3 Hn (eq_sym A2)) as (cs' & E & Hcs).
    eapply err_channel; [congruence|exact E|by rewrite E2|congruence].
  - exfalso. unfold pf_Read in H. rewrite A2, A3 in H. cbn in H. by rewrite A4 in H.
Qed.

Lemma pf_Read_inv n s data err s' d : pf_inv s d -> pf_Read n s = Some (data, err, s') ->
  pf_inv s' (d ++ data) /\ (p_cancelled s = false -> forall e, err = Some e -> e = fin /\ data = [] /\ d = all).
Proof using Type.
  intros [I1 I2 I3 I4 I5 (rest & I6 & I6') I7] H. pose proof H as H'. unfold pf_Read in H.
  destruct (pf_Read_from_spec n s (p_ch s) (p_cur s) data err s' I4 I3 H) as (Hsame & Hb & Hl & pre & Hpre & Herr).
  pose proof Hsame as (E1 & E2 & E3 & E4 & E5).
  fold (buffered_ s) in Hb. rewrite <- Hb in I6.
  assert (Hup : upstream s' = upstream s) by (unfold upstream; by rewrite E3, E4).
  split.
  - split; rewrite ?E1, ?E2, ?E4, ?E5; try done.
    + rewrite Hpre, len_app in I2. pose proof (len_nonneg pre). lia.
    + rewrite Hpre in I4. by apply Forall_app in I4 as [_ ?].
    + unfold pc_ok in *. by rewrite E2, E3, E4.
    + exists rest. rewrite Hup. split; [|done]. by rewrite <- I6, <- !app_assoc.
    + intros Hc. specialize (I7 Hc). destruct err as [e|]; [|by destruct Herr as (? & _ & ?); eapply read_ok].
      destruct Herr as (-> & H1 & H2 & Hcase). destruct (read_err s s' e pre I7 Hpre Hcase) as (-> & Hp & Hch).
      by apply err_consumer; [congruence|..].
  - intros Hc e ->. destruct Herr as (-> & H1 & H2 & Hcase). rewrite (I6' (or_intror Hc)) in I6.
    destruct (read_err s s' e pre (I7 Hc) Hpre Hcase) as (-> & Hp & Hch). split_and!; try done.
    unfold buffered_, upstream in I6. rewrite Hp, Hch, H2 in I6. cbn in I6. by rewrite app_nil_r in I6.
Qed.

Lemma pf_steps_inv x y : steps pf_step x y -> pf_inv (fst x) (snd x) -> pf_inv (fst y) (snd y).
Proof using Type.
  intros H Hx. apply (steps_invariant pf_step (fun x => pf_inv (fst x) (snd x)) x y); [|done|done].
  intros a b Ha Hst. destruct Hst as [s s' d E|s s' d E|n s data err s' d Hn E|s d]; cbn in *.
  - by eapply run_inv_pf.
  - by eapply run_done_inv.
  - by eapply pf_Read_inv.
  - by apply cancel_inv.
Qed.

(** *** Progress *)

(** A blocked consumer: the channel is empty and the producer is at work. *)
Lemma blocked_empty n s d : pf_inv s d -> p_cancelled s = false -> pf_Read n s = None ->
  p_ch s = [] /\ p_cur s = [] /\ p_err s = None /\ p_pc s <> PExit.
Proof using Type.
  intros [_ _ _ _ _ _ I7] Hc. specialize (I7 Hc). unfold pf_Read.
  destruct I7 as [A1 A2 A3|cs A1 A2 A3 A4|A1 A2 A3 A4].
  - destruct (p_ch s) as [|c ch] eqn:Ech; cbn; (destruct (bool_decide_reflect (p_cur s = [])); [|done]); cbn; rewrite A3; [done|].
    apply Forall_cons in A2 as [(-> & Hd & _) _]. destruct ch; cbn; by rewrite bool_decide_false.
  - rewrite A2. destruct cs as [|c cs]; cbn; (destruct (bool_decide_reflect (p_cur s = [])); [|done]); cbn; rewrite A4; [done|].
    apply Forall_cons in A3 as [(-> & Hd & _) _]. destruct cs; cbn; by rewrite bool_decide_false.
  - rewrite A2, A3. cbn. by rewrite A4.
Qed.

Lemma run_room s d : pf_inv s d -> p_ch s = [] -> p_pc s <> PExit -> exists s', run s = Some s'.
Proof using Type.
  intros [I1 [I2 _] _ _ _ _ _] Hc Hp. unfold run. rewrite Hc. change (len []) with 0. destruct (p_pc s); [|..|done].
  - destruct (ReadFull_spec (p_buf s) (p_src s) I1) as (data & err & r & -> & _). by eexists.
  - destruct (Z.ltb_spec 0 (p_cap s)); [by eexists|lia].
  - destruct (Z.ltb_spec 0 (p_cap s)); [by eexists|lia].
Qed.

(** At the select, one more action of the producer unblocks the consumer. *)
Lemma sent_unblocks n s s' d : pf_inv s d -> p_ch s = [] -> p_err s = None -> p_pc s <> PRead -> run s = Some s' ->
  pf_Read n s' <> None.
Proof using Type.
  intros [I1 _ _ _ I5 _ _] Hch He Hp. unfold run. destruct (p_pc s) as [|data err|e|] eqn:Epc; try done.
  - unfold pc_ok in I5. rewrite Epc in I5. destruct I5 as (Hd & _). rewrite Hch. destruct (_ <? _); [|done]. intros [= <-].
    unfold pf_Read. cbn. rewrite He. destruct (bool_decide (p_cur s = [])); [|done]. cbn. by rewrite bool_decide_false.
  - rewrite Hch. destruct (_ <? _); [|done]. intros [= <-]. unfold pf_Read. cbn. rewrite He. by destruct (bool_decide (p_cur s = [])).
Qed.

Lemma unblocks n s d : pf_inv s d -> p_cancelled s = false ->
  exists s', steps (fun a b => run a = Some b) s s' /\ pf_Read n s' <> None.
Proof using Type.
  intros Hs Hc. destruct (pf_Read n s) eqn:E; [exists s; split; [constructor|by rewrite E]|].
  destruct (blocked_empty n s d Hs Hc E) as (Hch & Hcur & He & Hp).
  destruct (run_room s d Hs Hch Hp) as [s1 E1]. pose proof (run_inv_pf s s1 d Hs E1) as Hs1.
  destruct (decide (p_pc s = PRead)) as [Er|Hr].
  2: { exists s1. split; [by apply steps_one|]. by apply (sent_unblocks n s s1 d). }
  pose proof E1 as E1'. unfold run in E1'. rewrite Er in E1'.
  destruct (ReadFull_spec (p_buf s) (p_src s) (pi_buf _ _ Hs)) as (data & err & r & Ef & _ & _ & _ & Hend).
  rewrite Ef in E1'. injection E1' as <-.
  set (s1 := with_producer _ _ _ _) in *.
  assert (Hp1 : p_pc s1 <> PRead /\ p_pc s1 <> PExit).
  { unfold s1. cbn. destruct (Z.ltb_spec 0 (len data)) as [|Hd]; [done|]. destruct err; [done|].
    pose proof (pi_buf _ _ Hs). pose proof (len_nonneg data). lia. }
  destruct (run_room s1 d Hs1 Hch (proj2 Hp1)) as [s2 E2].
  exists s2. split; [eapply steps_next; [exact E1|by apply steps_one]|].
  by apply (sent_unblocks n s1 s2 d Hs1); destruct Hp1.
Qed.

(** [Close] returns: once cancelled the producer leaves at its next select. *)
Lemma producer_leaves s d : pf_inv s d -> p_cancelled s = true ->
  exists s', steps (fun a b => run a = Some b \/ run_done a = Some b) s s' /\ pf_closed s' = true.
Proof using Type.
  intros Hs Hc. unfold pf_closed.
  assert (Hsel : forall s, p_cancelled s = true -> p_pc s <> PRead ->
    exists s', steps (fun a b => run a = Some b \/ run_done a = Some b) s s' /\ p_cancelled s' && is_exit (p_pc s') = true).
  { intros s1 Hc1 Hp. destruct (p_pc s1) eqn:E; [done|..].
    - eexists. split; [apply steps_one; right; unfold run_done; rewrite E, Hc1; reflexivity|]. cbn. by rewrite Hc1.
    - eexists. split; [apply steps_one; right; unfold run_done; rewrite E, Hc1; reflexivity|]. cbn. by rewrite Hc1.
    - exists s1. split; [constructor|]. by rewrite Hc1, E. }
  destruct (decide (p_pc s = PRead)) as [Er|Hr]; [|by apply Hsel].
  destruct (ReadFull_spec (p_buf s) (p_src s) (pi_buf _ _ Hs)) as (data & err & r & Ef & _ & _ & _ & Hend).
  assert (E1 : run s = Some (with_producer r (if 0 <? len data then PData data err else after_data err) (p_ch s) s))
    by (unfold run; by rewrite Er, Ef).
  destruct (Hsel (with_producer r (if 0 <? len data then PData data err else after_data err) (p_ch s) s)) as (s' & Hst & Hx); [done| |].
  - cbn. destruct (Z.ltb_spec 0 (len data)) as [|Hd]; [done|]. destruct err; [done|].
    pose proof (pi_buf _ _ Hs). pose proof (len_nonneg data). lia.
  - exists s'. split; [|done]. eapply steps_next; [left; exact E1|done].
Qed.

(** *** Memory *)

Definition pc_data (pc : producer) : bytes := match pc with PData data _ => data | _ => [] end.

Lemma concat_bound n l : Forall (chunk_ok n) l -> len (concat (map c_data l)) <= len l * n.
Proof using Type.
  induction 1 as [|c l [Hc _] _ IH]; [done|]. cbn [map concat]. rewrite len_app, len_cons. lia.
Qed.

Lemma held_bound s d : pf_inv s d -> len (buffered_ s ++ pc_data (p_pc s)) <= (p_cap s + 2) * p_buf s.
Proof using Type.
  intros [I1 [_ I2] I3 I4 I5 _ _]. unfold buffered_. rewrite !len_app.
  pose proof (concat_bound _ _ I4). unfold pc_ok in I5.
  assert (len (pc_data (p_pc s)) <= p_buf s) by (destruct (p_pc s); cbn; [..|]; try apply I5; unfold len; cbn; lia).
  nia.
Qed.
End Prefetch.

(** C40: Behind a prefetch reader the consumer sees its source with the end
    normalised, whatever the interleaving of producer and consumer: what [Read]
    has returned is always a prefix of the source; an error comes only after all
    of it, with no data, and is the source's; a read of at least one byte returns
    one; and the bytes held are at most [(numBufs + 2) * bufSize]. *)
Theorem prefetch_refines src numBufs bufSize s d : let want := prefetched (Source (rd_bytes src) (rd_end src)) in
  steps pf_step (newPrefetchReader src numBufs bufSize, []) (s, d) ->
  (exists rest, d ++ rest = src_data want) /\
  len (buffered_ s ++ pc_data (p_pc s)) <= (p_cap s + 2) * p_buf s /\
  (forall n data e s', pf_Read n s = Some (data, Some e, s') -> p_cancelled s = false ->
    d = src_data want /\ data = [] /\ e = src_end want) /\
  (forall n data s', 1 <= n -> pf_Read n s = Some (data, None, s') -> data <> []).
Proof.
  intros want H%(pf_steps_inv (rd_bytes src) (norm (rd_end src))); [|by apply pf_inv_init]. cbn [fst snd] in H. split_and!.
  - destruct (pi_rest _ _ _ _ H) as (rest & E & _). by exists (buffered_ s ++ rest).
  - by eapply held_bound.
  - intros n data e s' E Hc. destruct (pf_Read_inv _ _ n s data (Some e) s' d H E) as [_ Hfin].
    by destruct (Hfin Hc e eq_refl) as (-> & -> & ->).
  - intros n data s' Hn E. unfold pf_Read in E.
    destruct (pf_Read_from_spec n s _ _ _ _ _ (pi_chunks _ _ _ _ H) (pi_cur _ _ _ _ H) E) as (_ & _ & _ & pre & _ & _ & Hd & _).
    by apply Hd.
Qed.

(** The prefetch reader never deadlocks: while it is open, the producer alone can
    always bring a blocked [Read] to return; once [Close] has cancelled it, the
    producer leaves by itself and [Close] returns. *)
Theorem prefetch_live src numBufs bufSize s d n :
  steps pf_step (newPrefetchReader src numBufs bufSize, []) (s, d) ->
  (p_cancelled s = false -> exists s', steps (fun a b => run a = Some b) s s' /\ pf_Read n s' <> None) /\
  (p_cancelled s = true -> exists s', steps (fun a b => run a = Some b \/ run_done a = Some b) s s' /\ pf_closed s' = true).
Proof.
  intros H%(pf_steps_inv (rd_bytes src) (norm (rd_end src))); [|by apply pf_inv_init]. cbn [fst snd] in H.
  split; intros Hc; [by eapply unblocks|by eapply producer_leaves].
Qed.

(** ** The tailing reader *)

Record tailingRawReader := mkTail {
  t_total : Z;
  t_ready : list bool;
  t_fail : option goerr;
  t_closed : bool;
  t_cur : Z;
  t_f : option bytes
}.

Definition with_ready l (t : tailingRawReader) : tailingRawReader :=
  mkTail (t_total t) l (t_fail t) (t_closed t) (t_cur t) (t_f t).
Definition with_fail e (t : tailingRawReader) : tailingRawReader :=
  mkTail (t_total t) (t_ready t) e (t_closed t) (t_cur t) (t_f t).
Definition with_file c f (t : tailingRawReader) : tailingRawReader :=
  mkTail (t_total t) (t_ready t) (t_fail t) (t_closed t) c f.

Definition newTailingRawReader (total : Z) : tailingRawReader :=
  mkTail total (replicate (Z.to_nat total) false) None false 0 None.

Definition MarkReady (idx : Z) (t : tailingRawReader) : tailingRawReader :=
  if len (t_ready t) <=? idx then t else with_ready (put idx true (t_ready t)) t.

Definition Fail_ (err : option goerr) (t : tailingRawReader) : tailingRawReader :=
  let err := default ErrUnexpectedEOF err in
  match t_fail t with None => with_fail (Some err) t | Some _ => t end.

(** An error of [f.Close] is the last thing the reader reports; it owns nothing then. *)
Definition t_Close (t : tailingRawReader) : tailingRawReader :=
  mkTail (t_total t) (t_ready t) (t_fail t) true (t_cur t) None.

Inductive turn :=
| Blocked
| Again (t : tailingRawReader)
| Done (data : bytes) (err : option goerr) (t : tailingRawReader).

(** The chunk files on disk. *)
Definition openCurrent (disk : gmap bytes bytes) (t : tailingRawReader) : turn :=
  if negb (at_ (t_ready t) (t_cur t)) && bool_decide (t_fail t = None) && negb (t_closed t) then Blocked else
  match t_fail t with
  | Some e => Done [] (Some e) t
  | None =>
      if t_closed t then Done [] (Some ErrClosedPipe) t else
      match disk !! chunk_name (t_cur t) with
      | None => Done [] (Some (Wrapf "open chunk" (Errorf "no such file"))) t
      | Some data => Again (with_file (t_cur t) (Some data) t)
      end
  end.

(** One turn of the loop of [Read] with [len(p) = n]; [f.Read] returns up to [k]
    bytes of what the file has left.  The reader does not change while it waits,
    so a wait is a turn that is not taken. *)
Definition t_Read (disk : gmap bytes bytes) (n k : Z) (t : tailingRawReader) : turn :=
  match t_f t with
  | None => if t_total t <=? t_cur t then Done [] (Some EOF) t else openCurrent disk t
  | Some rest =>
      if n =? 0 then Done [] None t
      else if bool_decide (rest = []) then Again (with_file (u32 (t_cur t + 1)) None t)
      else Done (take (Z.to_nat k) rest) None (with_file (t_cur t) (Some (drop (Z.to_nat k) rest)) t)
  end.

(** The reader with the disk and the bytes it has returned. *)
Record tail_state := mkTS { ts_t : tailingRawReader; ts_disk : gmap bytes bytes; ts_out : bytes }.

#[local] Arguments chunk_name : simpl never.

Section Tail.
Context (chunks : list bytes).

(** The download writes a chunk file before it marks it, and never changes it after;
    it may write chunks in any order, also a partial file that is not marked. *)
Inductive tail_step : tail_state -> tail_state -> Prop :=
| tail_write t disk out i data : at_ (t_ready t) i = false -> 0 <= i < len chunks ->
    tail_step (mkTS t disk out) (mkTS t (<[chunk_name i := data]> disk) out)
| tail_mark t disk out i : 0 <= i < len chunks -> disk !! chunk_name i = chunks !! Z.to_nat i ->
    tail_step (mkTS t disk out) (mkTS (MarkReady i t) disk out)
| tail_mark_stale t disk out i : len chunks <= i -> tail_step (mkTS t disk out) (mkTS (MarkReady i t) disk out)
| tail_fail t disk out e : tail_step (mkTS t disk out) (mkTS (Fail_ e t) disk out)
| tail_close t disk out : tail_step (mkTS t disk out) (mkTS (t_Close t) disk out)
| tail_again t disk out n k t' : 0 <= n -> 1 <= k <= n \/ n = 0 -> t_Read disk n k t = Again t' ->
    tail_step (mkTS t disk out) (mkTS t' disk out)
| tail_done t disk out n k data err t' : 0 <= n -> 1 <= k <= n \/ n = 0 -> t_Read disk n k t = Done data err t' ->
    tail_step (mkTS t disk out) (mkTS t' disk (out ++ data)).

Definition tail_start (disk : gmap bytes bytes) : tail_state := mkTS (newTailingRawReader (len chunks)) disk [].

Definition chunk_at (i : Z) : bytes := default [] (chunks !! Z.to_nat i).

(** The bytes of the chunks before [cur], and of [cur] up to what its file has left. *)
Record tail_inv (s : tail_state) : Prop := {
  ti_total : t_total (ts_t s) = len chunks;
  ti_ready : len (t_ready (ts_t s)) = len chunks;
  ti_cur : 0 <= t_cur (ts_t s) <= len chunks;
  ti_disk : forall i, 0 <= i < len chunks -> at_ (t_ready (ts_t s)) i = true ->
    ts_disk s !! chunk_name i = chunks !! Z.to_nat i;
  ti_marked : forall i, 0 <= i < t_cur (ts_t s) -> at_ (t_ready (ts_t s)) i = true;
  ti_out : exists x rest, ts_out s = concat (take (Z.to_nat (t_cur (ts_t s))) chunks) ++ x /\
    (t_cur (ts_t s) < len chunks -> chunk_at (t_cur (ts_t s)) = x ++ rest) /\
    (t_cur (ts_t s) = len chunks -> x = []) /\
    match t_f (ts_t s) with
    | Some r => r = rest /\ t_cur (ts_t s) < len chunks /\ at_ (t_ready (ts_t s)) (t_cur (ts_t s)) = true
    | None => t_closed (ts_t s) = true \/ x = []
    end;
  ti_fail : t_closed (ts_t s) = true -> t_f (ts_t s) = None
}.

Context (Hcount : len chunks < 2 ^ 32).

Lemma tail_inv_start disk : tail_inv (tail_start disk).
Proof using Type.
  pose proof (len_nonneg chunks) as Hn.
  assert (Hat : forall i, at_ (replicate (Z.to_nat (len chunks)) false) i = false).
  { intros i. unfold at_. destruct (_ !! _) eqn:E; [|done]. by apply lookup_replicate in E as [-> _]. }
  split; cbn; try done.
  - unfold len. rewrite length_replicate. lia.
  - intros i _ H. by rewrite Hat in H.
  - intros i Hi. lia.
  - exists [], (chunk_at 0). split_and!; try done. by right.
Qed.

Lemma at_put_true l i j : len l = len chunks -> 0 <= i < len chunks -> 0 <= j -> at_ (put i true l) j = bool_decide (i = j) || at_ l j.
Proof using Type.
  intros Hl Hi Hj. unfold at_, put. case_bool_decide as E.
  - subst j. rewrite list_lookup_insert_eq; [done|]. unfold len in *. lia.
  - rewrite list_lookup_insert_ne by lia. done.
Qed.

Lemma take_chunk_S i : 0 <= i < len chunks ->
  concat (take (Z.to_nat (i + 1)) chunks) = concat (take (Z.to_nat i) chunks) ++ chunk_at i.
Proof using Type.
  intros Hi. unfold chunk_at. replace (Z.to_nat (i + 1)) with (S (Z.to_nat i)) by lia.
  destruct (chunks !! Z.to_nat i) as [c|] eqn:E.
  - erewrite take_S_r by exact E. by rewrite concat_app; cbn; rewrite app_nil_r.
  - apply lookup_ge_None in E. unfold len in Hi. lia.
Qed.

Lemma tail_inv_reads t t' disk out : t_total t' = t_total t -> t_ready t' = t_ready t -> t_cur t' = t_cur t -> t_f t' = t_f t ->
  (t_closed t' = t_closed t) -> tail_inv (mkTS t disk out) -> tail_inv (mkTS t' disk out).
Proof using Type.
  intros E1 E2 E3 E4 E5 [I1 I2 I3 I4 I5 I6 I7]. cbn in *. split; cbn; rewrite ?E1, ?E2, ?E3, ?E4, ?E5; done.
Qed.

Lemma tail_inv_mark t disk out i : 0 <= i < len chunks -> disk !! chunk_name i = chunks !! Z.to_nat i ->
  tail_inv (mkTS t disk out) -> tail_inv (mkTS (MarkReady i t) disk out).
Proof using Type.
  intros Hi Hd H. unfold MarkReady. destruct H as [I1 I2 I3 I4 I5 I6 I7]. cbn in *.
  destruct (Z.leb_spec (len (t_ready t)) i); [lia|]. split; cbn; try done.
  - unfold put, len in *. by rewrite length_insert.
  - intros j Hj. rewrite at_put_true by (done || lia). case_bool_decide as E; [by subst|]. by apply I4.
  - intros j Hj. rewrite at_put_true by (done || lia). rewrite I5 by lia. apply orb_true_r.
  - destruct I6 as (x & rest & A1 & A2 & A3 & A4). exists x, rest. split_and!; try done.
    destruct (t_f t); [|done]. destruct A4 as (B1 & B2 & B3). split_and!; try done.
    rewrite at_put_true by (done || lia). rewrite B3. apply orb_true_r.
Qed.

Lemma chunk_name_inj i j : 0 <= i < 2 ^ 32 -> 0 <= j < 2 ^ 32 -> chunk_name i = chunk_name j -> i = j.
Proof using Type.
  intros Hi Hj E. apply (f_equal name_index) in E. rewrite !name_index_chunk_name in E by done. by injection E.
Qed.

Lemma tail_inv_write t disk out i data : at_ (t_ready t) i = false -> 0 <= i < len chunks ->
  tail_inv (mkTS t disk out) -> tail_inv (mkTS t (<[chunk_name i := data]> disk) out).
Proof using Hcount.
  intros Hi Hr [I1 I2 I3 I4 I5 I6 I7]. split; cbn in *; try done. intros j Hj Ht.
  rewrite lookup_insert_ne; [by apply I4|]. intros E. apply chunk_name_inj in E; [|lia..]. congruence.
Qed.

Lemma tail_inv_turn t disk out n k : 0 <= n -> 1 <= k <= n \/ n = 0 -> tail_inv (mkTS t disk out) ->
  match t_Read disk n k t with
  | Blocked => at_ (t_ready t) (t_cur t) = false /\ t_fail t = None /\ t_closed t = false
  | Again t' => tail_inv (mkTS t' disk out)
  | Done data err t' => tail_inv (mkTS t' disk (out ++ data)) /\
      match err with
      | None => 1 <= n -> data <> []
      | Some e => data = [] /\ (e = EOF /\ out = concat chunks \/ t_fail t = Some e \/ e = ErrClosedPipe /\ t_closed t = true)
      end
  end.
Proof using Hcount.
  intros Hn Hk H. pose proof H as [I1 I2 I3 I4 I5 I6 I7]. cbn in *. destruct I6 as (x & rest & A1 & A2 & A3 & A4).
  unfold t_Read. destruct (t_f t) as [r|] eqn:Ef.
  - destruct A4 as (-> & A4 & A5). assert (Hcl : t_closed t = false) by (destruct (t_closed t); [by specialize (I7 eq_refl)|done]).
    destruct (Z.eqb_spec n 0) as [->|Hn0]; [rewrite app_nil_r; split; [done|lia]|].
    destruct (bool_decide_reflect (rest = [])) as [->|Hne].
    + specialize (A2 A4). rewrite app_nil_r in A2. unfold u32. rewrite Z.mod_small by lia.
      split; cbn; try done; [lia|..].
      * intros i Hi. destruct (decide (i = t_cur t)) as [->|]; [done|]. apply I5. lia.
      * exists [], (chunk_at (t_cur t + 1)). rewrite app_nil_r, take_chunk_S by lia. rewrite A2. split_and!; try done. by right.
    + split.
      * split; cbn; try done; [|by rewrite Hcl]. exists (x ++ take (Z.to_nat k) rest), (drop (Z.to_nat k) rest).
        rewrite A1, <- !app_assoc, take_drop. split_and!; try done. lia.
      * intros _ E. apply (f_equal length) in E. rewrite length_take in E. destruct rest; [done|]. cbn in E. lia.
  - destruct (Z.leb_spec (t_total t) (t_cur t)) as [Hle|Hlt].
    + rewrite app_nil_r. split; [done|]. split; [done|]. left. split; [done|].
      rewrite A1, (A3 ltac:(lia)), app_nil_r, take_ge; [done|]. unfold len in *. lia.
    + unfold openCurrent. destruct (_ && _ && _) eqn:Eb.
      { apply andb_prop in Eb as [[E1%negb_true_iff E2%bool_decide_eq_true]%andb_prop E3%negb_true_iff]. done. }
      destruct (t_fail t) as [e|] eqn:Efail.
      { rewrite app_nil_r. split; [done|]. split; [done|]. right. by left. }
      destruct (t_closed t) eqn:Ecl.
      { rewrite app_nil_r. split; [done|]. split; [done|]. right. by right. }
      cbn in Eb. rewrite andb_true_r in Eb. apply andb_false_iff in Eb as [Eb%negb_false_iff|Eb]; [|done].
      rewrite (I4 (t_cur t)) by (done || lia).
      destruct (chunks !! Z.to_nat (t_cur t)) as [c|] eqn:Ec.
      2: { apply lookup_ge_None in Ec. unfold len in *. lia. }
      split; cbn; try done; [|by rewrite Ecl]. exists [], c. destruct A4 as [?|Hx]; [done|]. subst x.
      split_and!; try done; [|lia]. intros _. unfold chunk_at. by rewrite Ec.
Qed.

Lemma tail_step_inv a b : tail_inv a -> tail_step a b -> tail_inv b.
Proof using Hcount.
  intros Ha Hs. destruct Hs as [t disk out i data Hi Hr|t disk out i Hi Hd|t disk out i Hi|t disk out e|t disk out
    |t disk out n k t' Hn Hk E|t disk out n k data err t' Hn Hk E].
  - by apply tail_inv_write.
  - by apply tail_inv_mark.
  - unfold MarkReady. pose proof (ti_ready _ Ha) as E. cbn in E. by rewrite (proj2 (Z.leb_le _ _)) by lia.
  - unfold Fail_. destruct (t_fail t); [done|]. by eapply tail_inv_reads, Ha.
  - destruct Ha as [I1 I2 I3 I4 I5 (x & rest & A1 & A2 & A3 & A4) I7]. split; cbn in *; try done.
    exists x, rest. split_and!; try done. by left.
  - pose proof (tail_inv_turn t disk out n k Hn Hk Ha) as H. by rewrite E in H.
  - pose proof (tail_inv_turn t disk out n k Hn Hk Ha) as H. rewrite E in H. by destruct H.
Qed.

Lemma tail_reach disk s : steps tail_step (tail_start disk) s -> tail_inv s.
Proof using Hcount. intros H. eapply steps_invariant; [apply tail_step_inv|apply tail_inv_start|exact H]. Qed.

Lemma tail_inv_prefix s : tail_inv s -> exists rest, ts_out s ++ rest = concat chunks.
Proof using Type.
  intros [_ _ Hc _ _ (x & rest & -> & A2 & A3 & _) _]. set (c := t_cur (ts_t s)) in *.
  assert (concat chunks = concat (take (Z.to_nat c) chunks) ++ concat (drop (Z.to_nat c) chunks)) as ->
    by (by rewrite <- concat_app, take_drop).
  destruct (decide (c = len chunks)) as [E|Hne].
  - rewrite (A3 E). exists []. rewrite !app_nil_r, drop_ge by (unfold len in *; lia). cbn. by rewrite app_nil_r.
  - specialize (A2 ltac:(lia)). unfold chunk_at in A2.
    destruct (chunks !! Z.to_nat c) as [w|] eqn:E; [|apply lookup_ge_None in E; unfold len in *; lia].
    cbn in A2. subst w. rewrite (drop_S _ _ _ E). cbn. exists (rest ++ concat (drop (S (Z.to_nat c)) chunks)).
    by rewrite <- !app_assoc.
Qed.

(** The number of turns that are left once every chunk is there. *)
Definition turns_left (t : tailingRawReader) : Z :=
  2 * (len chunks - t_cur t) + len (concat (drop (Z.to_nat (t_cur t + 1)) chunks)) +
  match t_f t with Some r => len r | None => if t_cur t <? len chunks then 1 + len (chunk_at (t_cur t)) else 0 end.

Lemma later_bytes i : 0 <= i < len chunks ->
  len (concat (drop (Z.to_nat i) chunks)) = len (chunk_at i) + len (concat (drop (Z.to_nat (i + 1)) chunks)).
Proof using Type.
  intros Hi. unfold chunk_at. destruct (chunks !! Z.to_nat i) as [c|] eqn:E.
  - rewrite (drop_S _ _ _ E). cbn [concat default from_option]. rewrite len_app.
    by replace (S (Z.to_nat i)) with (Z.to_nat (i + 1)) by lia.
  - apply lookup_ge_None in E. unfold len in Hi. lia.
Qed.

Lemma turn_measure t disk out n k : 1 <= k <= n -> tail_inv (mkTS t disk out) ->
  match t_Read disk n k t with
  | Again t' | Done _ None t' => 0 <= turns_left t' < turns_left t
  | _ => True
  end.
Proof using Hcount.
  intros Hk [I1 I2 I3 I4 I5 I6 I7]. cbn in *. destruct I6 as (x & rest & A1 & A2 & A3 & A4).
  unfold t_Read, turns_left. set (L := fun i => len (concat (drop (Z.to_nat i) chunks))).
  assert (HL : forall i, 0 <= L i) by (intros i; apply len_nonneg).
  destruct (t_f t) as [r|] eqn:Ef.
  - destruct A4 as (-> & A4 & A5). rewrite (proj2 (Z.eqb_neq n 0)) by lia.
    destruct (bool_decide_reflect (rest = [])) as [->|Hne]; cbn [with_file t_cur t_f].
    + unfold u32. rewrite Z.mod_small by lia. fold (L (t_cur t + 1)) (L (t_cur t + 1 + 1)). change (@len Init.Byte.byte []) with 0.
      pose proof (HL (t_cur t + 1 + 1)). pose proof (HL (t_cur t + 1)). pose proof (len_nonneg (chunk_at (t_cur t + 1))).
      destruct (Z.ltb_spec (t_cur t + 1) (len chunks)).
      * assert (L (t_cur t + 1) = len (chunk_at (t_cur t + 1)) + L (t_cur t + 1 + 1)) by (apply later_bytes; lia). lia.
      * assert (L (t_cur t + 1 + 1) = 0) by (unfold L; rewrite drop_ge by (unfold len in *; lia); done). lia.
    + fold (L (t_cur t + 1)). pose proof (HL (t_cur t + 1)).
      assert (0 <= len (drop (Z.to_nat k) rest) < len rest); [|lia].
      unfold len. rewrite length_drop. destruct rest; [done|]. cbn. lia.
  - destruct (_ <=? _) eqn:Ele; [done|]. apply Z.leb_gt in Ele. unfold openCurrent. destruct (_ && _ && _) eqn:Eb; [done|].
    destruct (t_fail t); [done|]. destruct (t_closed t) eqn:Ecl; [done|].
    cbn in Eb. rewrite andb_true_r in Eb. apply andb_false_iff in Eb as [Eb%negb_false_iff|Eb]; [|done].
    rewrite (I4 (t_cur t)) by (done || lia).
    assert (Hc : chunks !! Z.to_nat (t_cur t) = Some (chunk_at (t_cur t))).
    { unfold chunk_at. destruct (_ !! _) eqn:E; [done|]. apply lookup_ge_None in E. unfold len in *. lia. }
    rewrite Hc. cbn [with_file t_cur t_f]. fold (L (t_cur t + 1)). pose proof (HL (t_cur t + 1)).
    pose proof (len_nonneg (chunk_at (t_cur t))). rewrite (proj2 (Z.ltb_lt _ _)) by lia. lia.
Qed.
End Tail.

(** The tailing reader returns the chunks in order, whenever their files land:
    what it has returned is a prefix of their concatenation, made of marked chunks
    only; EOF means all of it; any other error is the one [Fail] was given, or
    comes after [Close]; and it waits only for the chunk that is next. *)
Theorem tail_in_order chunks disk s : len chunks < 2 ^ 32 -> steps (tail_step chunks) (tail_start chunks disk) s ->
  (exists rest, ts_out s ++ rest = concat chunks) /\
  (forall i, 0 <= i < t_cur (ts_t s) -> at_ (t_ready (ts_t s)) i = true) /\
  forall n k, 0 <= n -> 1 <= k <= n \/ n = 0 ->
    match t_Read (ts_disk s) n k (ts_t s) with
    | Blocked => at_ (t_ready (ts_t s)) (t_cur (ts_t s)) = false /\ t_fail (ts_t s) = None /\ t_closed (ts_t s) = false
    | Again _ => True
    | Done data None _ => 1 <= n -> data <> []
    | Done data (Some e) _ => data = [] /\
        (e = EOF /\ ts_out s = concat chunks \/ t_fail (ts_t s) = Some e \/ e = ErrClosedPipe /\ t_closed (ts_t s) = true)
    end.
Proof.
  intros Hc H%tail_reach; [|done]. split; [|split].
  - by apply tail_inv_prefix.
  - apply (ti_marked _ _ H).
  - intros n k Hn Hk. destruct s as [t d out]. pose proof (tail_inv_turn chunks Hc t d out n k Hn Hk H) as Ht.
    cbn [ts_disk ts_t ts_out]. destruct (t_Read d n k t) as [|t'|data [e|] t']; [done|done|by destruct Ht|by destruct Ht].
Qed.

(** Reading ends: every turn of [Read] that waits for nothing and reports no error
    lowers a measure that starts at two per chunk plus the bytes, so once all the
    chunks are marked the consumer reaches EOF. *)
Theorem tail_ends chunks disk s n k : len chunks < 2 ^ 32 -> steps (tail_step chunks) (tail_start chunks disk) s -> 1 <= k <= n ->
  match t_Read (ts_disk s) n k (ts_t s) with
  | Again t' | Done _ None t' => 0 <= turns_left chunks t' < turns_left chunks (ts_t s)
  | Done _ (Some e) _ => e = EOF \/ t_fail (ts_t s) <> None \/ t_closed (ts_t s) = true
  | Blocked => exists i, 0 <= i < len chunks /\ at_ (t_ready (ts_t s)) i = false
  end.
Proof.
  intros Hc H%tail_reach Hk; [|done]. destruct s as [t d out]. cbn [ts_disk ts_t ts_out].
  pose proof (tail_inv_turn chunks Hc t d out n k ltac:(lia) ltac:(lia) H) as Ht.
  pose proof (turn_measure chunks Hc t d out n k Hk H) as Hm.
  destruct (t_Read d n k t) as [|t'|data [e|] t'] eqn:E; [|done| |done].
  - exists (t_cur t). destruct Ht as [Ht _]. split; [|done]. pose proof (ti_cur _ _ H) as Hi. cbn in Hi.
    unfold t_Read in E. pose proof (ti_total _ _ H) as Hto. cbn in Hto.
    destruct (t_f t); [destruct (n =? 0); [done|]; by destruct (bool_decide _)|].
    destruct (Z.leb_spec (t_total t) (t_cur t)); [done|lia].
  - destruct Ht as (_ & _ & [[-> _]|[Hf|[_ ?]]]); [by left|right; left; congruence|by right; right].
Qed.

(** ** A directory of chunks *)

(** [strconv.Atoi], as an option. *)
Fixpoint digits63 (s : bytes) (acc : Z) : option Z :=
  match s with
  | [] => Some acc
  | c :: r =>
      let d := byte.unsigned c - 48 in
      if (0 <=? d) && (d <=? 9) then
        let v := acc * 10 + d in if v <=? 2 ^ 63 then digits63 r v else None
      else None
  end.

Definition Atoi (s : bytes) : option Z :=
  let neg := has_prefix (str "-") s in
  let ds := if neg || has_prefix (str "+") s then drop 1 s else s in
  if bool_decide (ds = []) then None else
  v ← digits63 ds 0;
  if neg then Some (- v) else if v <? 2 ^ 63 then Some v else None.

Definition chunk_of (n : bytes) : option (Z * bytes) :=
  if negb (has_prefix (str "chunk_") n) || negb (has_suffix (str ".bin") n) then None else
  match Atoi (trim_suffix (str ".bin") (trim_prefix (str "chunk_") n)) with
  | None => None
  | Some idx => Some (idx, n)
  end.

Definition idx_le (a b : Z * bytes) : Prop := fst a <= fst b.
#[export] Instance idx_le_dec : RelDecision idx_le.
Proof. intros a b. unfold idx_le. apply _. Defined.
#[export] Instance idx_le_total : Total idx_le.
Proof. intros a b. unfold idx_le. lia. Qed.
#[export] Instance idx_le_trans : Transitive idx_le.
Proof. intros a b c. unfold idx_le. lia. Qed.

(** [sort.Slice] is not stable: entries with the same number come in any order,
    and nothing below depends on which. *)
Definition listChunks (entries : list bytes) : list bytes :=
  map snd (merge_sort idx_le (omap chunk_of entries)).

Fixpoint open_all (disk : gmap bytes bytes) (paths : list bytes) : outcome (list bytes) :=
  match paths with
  | [] => mret []
  | p :: r =>
      match disk !! p with
      | None => Err (Wrapf "open" (Errorf "no such file"))
      | Some data => rest ← open_all disk r; mret (data :: rest)
      end
  end.

(** [inflate] is [zlib.NewReader] on the concatenation of the files. *)
Definition openChunkDir (inflate : bytes -> outcome reader) (disk : gmap bytes bytes) (entries : list bytes) : outcome reader :=
  let paths := listChunks entries in
  if bool_decide (paths = []) then Err (Errorf "no chunk_*.bin files") else
  files ← open_all disk paths;
  wrap_out "zlib" (inflate (concat files)).

Lemma digits63_digits l : forall acc v, parse_digits l acc = Some v -> digits63 l acc = Some v.
Proof.
  induction l as [|c l IH]; intros acc v; cbn [parse_digits digits63]; [done|].
  destruct (_ && _); [|done]. destruct (Z.ltb_spec (acc * 10 + (byte.unsigned c - 48)) (2 ^ 32)); [|done].
  rewrite (proj2 (Z.leb_le _ (2 ^ 63))) by lia. apply IH.
Qed.

(** A digit first: no sign is looked for in a canonical number. *)
Lemma Atoi_ParseUint s v : ParseUint32 s = Some v -> v < 2 ^ 63 -> Atoi s = Some v.
Proof.
  unfold ParseUint32, Atoi. destruct s as [|c s]; [done|]. intros E Hv.
  assert (Hc : 48 <= byte.unsigned c).
  { cbn [parse_digits] in E. destruct (_ && _) eqn:Eb in E; [|done]. apply andb_prop in Eb as [?%Z.leb_le _]. lia. }
  assert (Hno : forall x, byte.unsigned x < 48 -> has_prefix [x] (c :: s) = false).
  { intros x Hx. unfold has_prefix. cbn. apply bool_decide_eq_false. intros [= ->]. lia. }
  change (str "-") with [Byte.x2d]. change (str "+") with [Byte.x2b].
  rewrite !Hno by (vm_compute; reflexivity). cbn [orb]. rewrite bool_decide_eq_false_2 by done.
  rewrite (digits63_digits _ _ _ E). cbn. by rewrite (proj2 (Z.ltb_lt _ _)).
Qed.

Lemma chunk_of_name i : 0 <= i < 2 ^ 32 -> chunk_of (chunk_name i) = Some (i, chunk_name i).
Proof.
  intros Hi. pose proof (name_index_chunk_name i Hi) as H. unfold name_index in H. unfold chunk_of.
  destruct (has_prefix _ (chunk_name i)); [|done]. destruct (has_suffix _ (chunk_name i)); [|done]. cbn in H |- *.
  rewrite (Atoi_ParseUint _ i); [done| |lia]. exact H.
Qed.

Lemma sorted_names n : StronglySorted idx_le (map (fun i => (i, chunk_name i)) (seqZ 0 n)).
Proof.
  assert (H : forall k a, StronglySorted idx_le (map (fun i => (i, chunk_name i)) (seqZ a (Z.of_nat k)))).
  { induction k as [|k IH]; intros a; [constructor|].
    rewrite seqZ_cons by lia. cbn [map]. replace (Z.pred (Z.of_nat (S k))) with (Z.of_nat k) by lia.
    constructor; [apply IH|]. apply Forall_map, Forall_forall. intros j [Hj _]%elem_of_seqZ. unfold idx_le. cbn. lia. }
  destruct (Z.le_gt_cases 0 n); [|rewrite seqZ_nil by lia; constructor].
  rewrite <- (Z2Nat.id n) by lia. apply H.
Qed.

Lemma omap_names l : Forall (fun i => 0 <= i < 2 ^ 32) l ->
  omap chunk_of (map chunk_name l) = map (fun i => (i, chunk_name i)) l.
Proof. induction 1 as [|i l Hi _ IH]; [done|]. cbn. rewrite chunk_of_name by done. by rewrite IH. Qed.

Lemma omap_others l : Forall (fun n => chunk_of n = None) l -> omap chunk_of l = [].
Proof. induction 1 as [|n l Hn _ IH]; [done|]. cbn. by rewrite Hn. Qed.

(** However the directory is listed and whatever else is in it. *)
Lemma listChunks_names n others entries : 0 <= n < 2 ^ 32 -> Forall (fun x => chunk_of x = None) others ->
  entries ≡ₚ map chunk_name (seqZ 0 n) ++ others -> listChunks entries = map chunk_name (seqZ 0 n).
Proof.
  intros Hn Ho Hp. unfold listChunks.
  assert (Hr : Forall (fun i => 0 <= i < 2 ^ 32) (seqZ 0 n)) by (apply Forall_forall; intros i ?%elem_of_seqZ; lia).
  assert (E : merge_sort idx_le (omap chunk_of entries) = map (fun i => (i, chunk_name i)) (seqZ 0 n)).
  { apply (StronglySorted_unique_strong idx_le).
    - intros [i x] [k y] H1 (k' & [= -> ->] & _)%list_elem_of_fmap H3 H4. unfold idx_le in *. cbn in *.
      rewrite (merge_sort_Permutation idx_le), Hp, omap_app, omap_names, omap_others, app_nil_r in H1 by done.
      apply list_elem_of_fmap in H1 as (i' & [= -> ->] & _). assert (i' = k') as -> by lia. done.
    - apply StronglySorted_merge_sort; apply _.
    - apply sorted_names.
    - rewrite merge_sort_Permutation, Hp, omap_app, omap_names, omap_others, app_nil_r by done. done. }
  rewrite E, map_map. done.
Qed.

Lemma open_all_chunks disk chunks : forall a, (forall i, a <= i < a + len chunks -> disk !! chunk_name i = chunks !! Z.to_nat (i - a)) ->
  open_all disk (map chunk_name (seqZ a (len chunks))) = Ret chunks.
Proof.
  induction chunks as [|c chunks IH]; intros a H; [done|]. rewrite len_cons in *. pose proof (len_nonneg chunks).
  rewrite seqZ_cons by lia. cbn [map open_all]. rewrite (H a) by lia. rewrite Z.sub_diag. cbn [Z.to_nat lookup list_lookup].
  replace (Z.pred (1 + len chunks)) with (len chunks) by lia. rewrite IH; [done|].
  intros i Hi. rewrite H by lia. replace (Z.to_nat (i - a)) with (S (Z.to_nat (i - Z.succ a))) by lia. done.
Qed.

(** A directory that holds the chunks of a snapshot under their names, listed in
    any order and among other files, opens as the decompression of their
    concatenation in numeric order. *)
Theorem openChunkDir_exact inflate disk entries chunks others :
  chunks <> [] -> len chunks < 2 ^ 32 -> entries ≡ₚ map chunk_name (seqZ 0 (len chunks)) ++ others ->
  Forall (fun x => chunk_of x = None) others ->
  (forall i, 0 <= i < len chunks -> disk !! chunk_name i = chunks !! Z.to_nat i) ->
  openChunkDir inflate disk entries = wrap_out "zlib" (inflate (concat chunks)).
Proof.
  intros Hne Hlen Hp Ho Hd. unfold openChunkDir.
  rewrite (listChunks_names (len chunks) others) by (done || pose proof (len_nonneg chunks); lia).
  rewrite bool_decide_eq_false_2.
  - rewrite open_all_chunks; [done|]. intros i Hi. rewrite Hd by lia. by rewrite Z.sub_0_r.
  - intros E. destruct chunks; [done|]. by rewrite len_cons, seqZ_cons in E by (pose proof (len_nonneg chunks); lia).
Qed.

(** ** Concrete runs *)

Definition sample_reader : reader := mkReader [str "ab"; str "c"] ErrUnexpectedEOF false.

(** The consumer has taken one byte; everything else is on its way. *)
Lemma sample_prefetch :
  exists s, steps pf_step (newPrefetchReader sample_reader 1 2, []) (s, str "a") /\ p_cancelled s = false /\
    p_pc s = PErr EOF /\ len (buffered_ s) = 2.
Proof.
  eexists. split.
  - eapply steps_next; [apply step_run; vm_compute; reflexivity|].
    eapply steps_next; [apply step_run; vm_compute; reflexivity|].
    eapply steps_next; [apply step_run; vm_compute; reflexivity|].
    eapply steps_next; [apply (step_Read 1 _ (str "a") None); [lia|vm_compute; reflexivity]|].
    eapply steps_next; [apply step_run; vm_compute; reflexivity|]. apply steps_refl.
  - split_and!; reflexivity.
Defined.

Lemma prefetch_refines_witness :
  exists s, steps pf_step (newPrefetchReader sample_reader 1 2, []) (s, str "a") /\
    (exists rest, str "a" ++ rest = str "abc") /\ len (buffered_ s ++ pc_data (p_pc s)) <= (p_cap s + 2) * p_buf s.
Proof.
  destruct sample_prefetch as (s & H & _). exists s.
  destruct (prefetch_refines sample_reader 1 2 s (str "a") H) as (H1 & H2 & _). split_and!; [exact H|exact H1|exact H2].
Defined.

Lemma prefetch_live_witness :
  exists s, steps pf_step (newPrefetchReader sample_reader 1 2, []) (s, str "a") /\
    exists s', steps (fun a b => run a = Some b) s s' /\ pf_Read 4 s' <> None.
Proof.
  destruct sample_prefetch as (s & H & Hc & _). exists s. split; [exact H|].
  destruct (prefetch_live sample_reader 1 2 s (str "a") 4 H) as [H1 _]. exact (H1 Hc).
Defined.

(** More is held than [numBufs * bufSize] bytes: the consumer's and the producer's
    buffers come on top of the channel's. *)
Lemma prefetch_holds_more :
  exists s d, steps pf_step (newPrefetchReader (mkReader [str "abcdef"] EOF false) 1 2, []) (s, d) /\
    len (buffered_ s ++ pc_data (p_pc s)) = 6 /\ p_cap s * p_buf s = 2.
Proof.
  eexists _, _. split.
  - eapply steps_next; [apply step_run; vm_compute; reflexivity|].
    eapply steps_next; [apply step_run; vm_compute; reflexivity|].
    eapply steps_next; [apply (step_Read 0 _ [] None); [lia|vm_compute; reflexivity]|].
    eapply steps_next; [apply step_run; vm_compute; reflexivity|].
    eapply steps_next; [apply step_run; vm_compute; reflexivity|].
    eapply steps_next; [apply step_run; vm_compute; reflexivity|]. apply steps_refl.
  - split; reflexivity.
Qed.

Definition sample_chunks : list bytes := [str "ab"; []; str "c"].
Definition sample_disk : gmap bytes bytes := <[chunk_name 0 := str "ab"]> ∅.

(** Chunk 0 has landed, has been marked and is half read. *)
Lemma sample_tail :
  exists s, steps (tail_step sample_chunks) (tail_start sample_chunks sample_disk) s /\ ts_out s = str "a" /\
    t_f (ts_t s) = Some (str "b").
Proof.
  eexists. split.
  - eapply steps_next; [apply (tail_mark _ _ _ _ 0); [unfold len; cbn; lia|vm_compute; reflexivity]|].
    eapply steps_next; [apply (tail_again _ _ _ _ 1 1); [lia|lia|vm_compute; reflexivity]|].
    eapply steps_next; [apply (tail_done _ _ _ _ 1 1 (str "a") None); [lia|lia|vm_compute; reflexivity]|]. apply steps_refl.
  - split; reflexivity.
Defined.

Lemma tail_in_order_witness :
  exists s, steps (tail_step sample_chunks) (tail_start sample_chunks sample_disk) s /\ ts_out s = str "a" /\
    exists rest, ts_out s ++ rest = str "abc".
Proof.
  destruct sample_tail as (s & H & Ho & _). exists s. split; [exact H|]. split; [exact Ho|].
  destruct (tail_in_order sample_chunks sample_disk s ltac:(vm_compute; reflexivity) H) as (H1 & _). exact H1.
Defined.

Lemma tail_ends_witness :
  exists s, steps (tail_step sample_chunks) (tail_start sample_chunks sample_disk) s /\
    match t_Read (ts_disk s) 1 1 (ts_t s) with
    | Again t' | Done _ None t' => 0 <= turns_left sample_chunks t' < turns_left sample_chunks (ts_t s)
    | Done _ (Some e) _ => e = EOF \/ t_fail (ts_t s) <> None \/ t_closed (ts_t s) = true
    | Blocked => exists i, 0 <= i < len sample_chunks /\ at_ (t_ready (ts_t s)) i = false
    end.
Proof.
  destruct sample_tail as (s & H & _). exists s. split; [exact H|].
  exact (tail_ends sample_chunks sample_disk s 1 1 ltac:(vm_compute; reflexivity) H ltac:(lia)).
Defined.

Lemma openChunkDir_exact_witness :
  openChunkDir (fun b => Ret (mkReader [b] EOF false))
    (<[chunk_name 0 := str "ab"]> (<[chunk_name 1 := str "c"]> ∅)) [chunk_name 1; str "metadata.bin"; chunk_name 0]
  = Ret (mkReader [str "abc"] EOF false).
Proof.
  apply (openChunkDir_exact (fun b => Ret (mkReader [b] EOF false)) _ _ [str "ab"; str "c"] [str "metadata.bin"]).
  - discriminate.
  - vm_compute. reflexivity.
  - apply (bool_decide_eq_true_1 _). vm_compute. reflexivity.
  - constructor; [reflexivity|constructor].
  - intros i Hi. assert (i = 0 \/ i = 1) as [-> | ->] by (unfold len in Hi; cbn in Hi; lia); reflexivity.
Defined.
