(* ===== verification/RunImport.v ===== *)
(** * The serial import (importer.go runImport, ingester.go, extensions.go)

    [runImport] reads the snapshot item by item, feeds each store to its own
    [storeImporter], and ends with the rootmulti records.  Node entries go
    through a batch that is committed whenever it holds 64 MiB; fast-storage
    entries go to one SSTable per store, which is ingested when the store is
    closed.  The database (pebble) is third-party code: its operations and what
    they promise are the classes [Pebble] and [PebbleLaws].  The main theorems:
    an import that succeeds has built exactly the trees of the stream, and the
    export of well-formed trees imports with their hashes. *)

From S2P Require Import Prelude Sha256 Varint IavlEnc CommitInfo Importer SnapProto Streams.

(** ** The database *)

Abbreviation write := (bytes * bytes)%type.

(** A batch is the list of its writes, and [batch.Set] on an open batch does not fail;
    an SSTable writer is of type [SST]; file names are relative to the directory
    for temporary files. *)
Class Pebble (DB SST : Type) := {
  contents : DB -> gmap bytes bytes;
  entries : SST -> list write;
  BatchCommit : list write -> M DB unit;
  SstCreate : bytes -> M DB SST;
  SstSet : bytes -> bytes -> M SST unit;
  SstClose : SST -> outcome unit;
  Ingest : SST -> M DB unit
}.

(** The writer takes keys in increasing order only. *)
Definition above_all (key : bytes) (ws : list write) : Prop :=
  forall k v, (k, v) ∈ ws -> bytes_ltb k key = true.

(** What pebble documents of batches and SSTable writers, and that no I/O error occurs. *)
Class BatchLaws (DB SST : Type) `{Pebble DB SST} := {
  commit_sound b d d' : BatchCommit b d = (Ret tt, d') -> contents d' = apply_writes b (contents d);
  commit_live b d : exists d', BatchCommit b d = (Ret tt, d');
  sst_sound k v w w' : SstSet k v w = (Ret tt, w') -> entries w' = entries w ++ [(k, v)] /\ above_all k (entries w);
  sst_live k v w : above_all k (entries w) -> exists w', SstSet k v w = (Ret tt, w')
}.

(** The same of the files: creating and ingesting them. *)
Class PebbleLaws (DB SST : Type) `{Pebble DB SST} := {
  pebble_batch :: BatchLaws DB SST;
  create_sound p d w d' : SstCreate p d = (Ret w, d') -> entries w = [] /\ contents d' = contents d;
  create_live p d : exists w d', SstCreate p d = (Ret w, d');
  close_live w : entries w <> [] -> SstClose w = Ret tt;
  ingest_sound w d d' : Ingest w d = (Ret tt, d') -> contents d' = apply_writes (entries w) (contents d);
  ingest_live w d : exists d', Ingest w d = (Ret tt, d')
}.

(** ** The bulk-ingest path (ingester.go) *)

Definition sanitize (s : bytes) : bytes :=
  map (fun c =>
    let x := byte.unsigned c in
    if ((97 <=? x) && (x <=? 122)) || ((65 <=? x) && (x <=? 90)) || ((48 <=? x) && (x <=? 57))
       || (x =? 45) || (x =? 95) || (x =? 46)
    then c else byte.of_Z 95) s.

Section Driver.
Context {DB SST : Type} `{PB : Pebble DB SST}.

Record fastIngester := mkIngester {
  curWriter : option SST;
  curPath : bytes;
  ing_name : bytes;
  curCount : Z
}.

Definition newFastIngester : fastIngester := mkIngester None [] [] 0.

(** The batch of the import, the database below it and the ingester. *)
Record bstate := mkB { b_db : DB; b_batch : list write; batchBytes : Z; b_ing : fastIngester }.

Definition set_db d (b : bstate) : bstate := mkB d (b_batch b) (batchBytes b) (b_ing b).
Definition set_batch ws n (b : bstate) : bstate := mkB (b_db b) ws n (b_ing b).
Definition set_ing i (b : bstate) : bstate := mkB (b_db b) (b_batch b) (batchBytes b) i.

Definition on_db {A} (m : M DB A) : M bstate A := zoom b_db set_db m.

Definition openStore (name : bytes) : M bstate unit :=
  b ← get;
  match curWriter (b_ing b) with
  | Some _ => fail (Errorf "openStore: previous store still open")
  | None =>
      let path := str "fast-" ++ sanitize name ++ str ".sst" in
      w ← wrap_err "create" (on_db (SstCreate path));
      modify (set_ing (mkIngester (Some w) path name 0))
  end.

(** The uint64 count of the entries of one file does not wrap. *)
Definition ing_set (key value : bytes) : M bstate unit := fun b =>
  let i := b_ing b in
  match curWriter i with
  | None => (Err (Errorf "fastIngester.set: no writer open"), b)
  | Some w =>
      match wrap_err "fastWriter.Set" (SstSet key value) w with
      | (Ret tt, w') => (Ret tt, set_ing (mkIngester (Some w') (curPath i) (ing_name i) (curCount i + 1)) b)
      | (r, w') => (r, set_ing (mkIngester (Some w') (curPath i) (ing_name i) (curCount i)) b)
      end
  end.

(** Removing the temporary file is best effort and leaves nothing the import reads. *)
Definition ingestStore (name : bytes) : M bstate unit :=
  b ← get;
  match curWriter (b_ing b) with
  | None => mret tt
  | Some w =>
      if negb (bool_decide (ing_name (b_ing b) = name)) then fail (Errorf "ingestStore: current store differs") else
      let count := curCount (b_ing b) in
      _ ← modify (set_ing (mkIngester None [] [] 0));
      if count =? 0 then mret tt else
      match SstClose w with
      | Ret _ => wrap_err "db.Ingest" (on_db (Ingest w))
      | Err e => fail (Wrapf "close fast SSTable" e)
      | Panic m => panic m
      | NoFuel => fun b => (NoFuel, b)
      end
  end.

(** ** The batch *)

Definition flushBytes : Z := 64 * 2 ^ 20.

Definition flush : M bstate unit :=
  b ← get;
  if batchBytes b =? 0 then mret tt else
  fun b => let '(r, b') := on_db (BatchCommit (b_batch b)) b in (r, set_batch [] 0 b').

Definition bset (key value : bytes) : M bstate unit :=
  _ ← modify (fun b => set_batch (b_batch b ++ [(key, value)]) (batchBytes b + (len key + len value)) b);
  b ← get;
  if flushBytes <=? batchBytes b then flush else mret tt.

Definition driver_sink : sink bstate := mkSink bset ing_set.

(** ** Extensions (extensions.go) *)

(** Files are named by what the path is joined from. *)
Record extFile := mkExtFile { xf_name : bytes; xf_index : Z; xf_format : Z }.

Record extensionWriter := mkExt { x_enabled : bool; x_name : bytes; x_format : Z; x_index : Z }.

Record Stats := mkStats { Items : Z; Extensions : Z; ExtensionPayloads : Z }.

(** The file system below the extension directory: which calls fail. *)
Record extFS := mkFS { mkdir_err : bytes -> option goerr; write_err : extFile -> option goerr }.

(** ** The driver *)

Record driver := mkDriver {
  d_b : bstate;
  d_current : option storeImporter;
  curName : bytes;
  d_stores : list StoreInfo;
  d_ext : extensionWriter;
  d_files : list (extFile * bytes);
  d_stats : Stats
}.

Definition with_b b (d : driver) : driver :=
  mkDriver b (d_current d) (curName d) (d_stores d) (d_ext d) (d_files d) (d_stats d).
Definition with_current c n (d : driver) : driver :=
  mkDriver (d_b d) c n (d_stores d) (d_ext d) (d_files d) (d_stats d).
Definition with_store si n (d : driver) : driver :=
  mkDriver (d_b d) None (curName d) (d_stores d ++ [si]) (d_ext d) (d_files d)
    (mkStats (u64 (Items (d_stats d) + n)) (Extensions (d_stats d)) (ExtensionPayloads (d_stats d))).
Definition with_ext x fs st (d : driver) : driver :=
  mkDriver (d_b d) (d_current d) (curName d) (d_stores d) x (d_files d ++ fs) st.

Definition on_b {A} (m : M bstate A) : M driver A := zoom d_b with_b m.

(** Run an operation of the importer on [current]. *)
Definition on_current {A} (s : storeImporter) (m : M (storeImporter * bstate) A) : M driver A := fun d =>
  let '(r, (s', b')) := m (s, d_b d) in (r, with_b b' (with_current (Some s') (curName d) d)).

Definition openMeta (fs : extFS) (name : bytes) (format : Z) : M driver unit := fun d =>
  let st := d_stats d in
  let d := with_ext (mkExt (x_enabled (d_ext d)) name format 0) []
             (mkStats (Items st) (Extensions st + 1) (ExtensionPayloads st)) d in
  if negb (x_enabled (d_ext d)) then (Ret tt, d) else
  match mkdir_err fs name with
  | None => (Ret tt, d)
  | Some e => (Err (Wrapf "mkdir extension" e), d)
  end.

Definition writePayload (fs : extFS) (payload : bytes) : M driver unit := fun d =>
  let st := d_stats d in let x := d_ext d in
  let st := mkStats (Items st) (Extensions st) (ExtensionPayloads st + 1) in
  let next := mkExt (x_enabled x) (x_name x) (x_format x) (u32 (x_index x + 1)) in
  if negb (x_enabled x) || bool_decide (x_name x = []) then (Ret tt, with_ext next [] st d) else
  let f := mkExtFile (x_name x) (x_index x) (x_format x) in
  match write_err fs f with
  | None => (Ret tt, with_ext next [(f, payload)] st d)
  | Some e => (Err (Wrapf "write extension payload" e), with_ext x [] st d)
  end.

Definition closeCurrent : M driver unit :=
  d ← get;
  match d_current d with
  | None => mret tt
  | Some s =>
      hash ← wrap_err "finalize store" (on_current s (finalize driver_sink));
      d ← get;
      let s := default s (d_current d) in
      _ ← wrap_err "ingest fast SSTable" (on_b (ingestStore (storeName s)));
      modify (with_store (mkStoreInfo (curName d) hash) (itemCount s))
  end.

Definition handleItem (fs : extFS) (height : Z) (item : snapItem) : M driver unit :=
  if Type_ item =? itemTypeStore then
    _ ← closeCurrent;
    _ ← modify (with_current (Some (newStoreImporter (StoreName item) height)) (StoreName item));
    wrap_err "open fast SSTable" (on_b (openStore (StoreName item)))
  else if Type_ item =? itemTypeIAVL then
    d ← get;
    match d_current d with
    | None => fail (Errorf "IAVL item before any StoreItem")
    | Some s =>
        wrap_err "add node" (on_current s (addNode driver_sink (IAVLHeight item) (IAVLVersion item)
          (default [] (IAVLKey item)) (default [] (IAVLValue item))))
    end
  else if Type_ item =? itemTypeExtMeta then
    _ ← closeCurrent;
    openMeta fs (ExtName item) (ExtFormat item)
  else if Type_ item =? itemTypeExtPayload then writePayload fs (default [] (ExtPayload item))
  else fail (Errorf "unknown SnapshotItem type").

(** The end of the stream: the last store, then the rootmulti records. *)
Definition finishImport (height : Z) : M driver (list StoreInfo) :=
  _ ← closeCurrent;
  d ← get;
  let stores := d_stores d in
  _ ← wrap_err "write commit-info" (on_b (bset (commitInfoKey height) (commitInfoBytes height stores)));
  _ ← wrap_err "write latest-version" (on_b (bset latestVersionKey (latestVersionBytes height)));
  d ← get;
  _ ← (if 0 <? batchBytes (d_b d) then
         wrap_err "flush final batch" (on_b (on_db (BatchCommit (b_batch (d_b d)))))
       else mret tt);
  mret stores.

Context {P : Type} `{RP : RingPinner P}.

Fixpoint importLoop (fuel : nat) (fs : extFS) (height : Z) (rd : snapReader P) : M driver (list StoreInfo) :=
  match fuel with
  | O => fun d => (NoFuel, d)
  | S fuel =>
      match Next rd with
      | (Err EOF, _) => finishImport height
      | (Err e, _) => fail (Wrapf "read item" e)
      | (Ret item, rd) => _ ← handleItem fs height item; importLoop fuel fs height rd
      | (Panic m, _) => panic m
      | (NoFuel, _) => fun d => (NoFuel, d)
      end
  end.

Definition newDriver (db : DB) (ext : bool) : driver :=
  mkDriver (mkB db [] 0 newFastIngester) None [] [] (mkExt ext [] 0 0) [] (mkStats 0 0 0).

(** The reader is the stream behind a prefetch reader, as Streams.v shows it to its
    consumer.  Every item takes at least one byte of the stream. *)
Definition runImport (s : source) (db : DB) (height : Z) (ext : bool) (fs : extFS)
    : outcome (list StoreInfo) * driver :=
  importLoop (S (length (src_data s))) fs height (newSnapReader (prefetched s) None) (newDriver db ext).
End Driver.
Arguments fastIngester : clear implicits.
Arguments bstate : clear implicits.
Arguments driver : clear implicits.

(** ** Writes *)

Lemma apply_writes_insert_comm ws k v m :
  (forall v', (k, v') ∉ ws) -> apply_writes ws (<[k := v]> m) = <[k := v]> (apply_writes ws m).
Proof.
  induction ws as [|[k' v'] ws IH] using rev_ind; intros Hk; [done|].
  rewrite !apply_writes_app, IH; [|intros x Hx; apply (Hk x), elem_of_app; by left]. cbn.
  apply insert_insert_ne. intros ->. apply (Hk v'), elem_of_app. right. by left.
Qed.

Lemma apply_writes_comm a b m :
  (forall k v v', (k, v) ∈ a -> (k, v') ∉ b) ->
  apply_writes a (apply_writes b m) = apply_writes b (apply_writes a m).
Proof.
  induction a as [|[k v] a IH] using rev_ind; intros Hd; [done|].
  rewrite !apply_writes_app, IH.
  - cbn. symmetry. apply apply_writes_insert_comm. intros v'. apply (Hd k v), elem_of_app. right. by left.
  - intros k' v' w' Hin. apply (Hd k' v'), elem_of_app. by left.
Qed.

Definition wsize (ws : list write) : Z := foldr (fun kv n => len (fst kv) + len (snd kv) + n) 0 ws.

Lemma wsize_snoc ws k v : wsize (ws ++ [(k, v)]) = wsize ws + (len k + len v).
Proof.
  induction ws as [|kv ws IH]; [cbn; lia|].
  cbn [app wsize foldr fst snd] in *. fold (wsize (ws ++ [(k, v)])) (wsize ws) in *. lia.
Qed.

Lemma wsize_zero ws : Forall (fun kv => fst kv <> []) ws -> wsize ws <= 0 -> ws = [].
Proof.
  intros Hk Hz. assert (Hpos : forall l : list write, 0 <= wsize l).
  { clear. induction l as [|[k v] l IH]; cbn [wsize foldr fst snd]; [lia|]. fold (wsize l).
    pose proof (len_nonneg k). pose proof (len_nonneg v). lia. }
  destruct ws as [|[k v] ws]; [done|]. apply Forall_cons in Hk as [Hk _]. cbn [wsize foldr fst snd] in *. fold (wsize ws) in Hz.
  pose proof (Hpos ws). pose proof (len_nonneg v). destruct k as [|c k]; [done|].
  rewrite len_cons in Hz. pose proof (len_nonneg k). lia.
Qed.

(** A write to a store whose name is no trouble. *)
Definition own (kv : write) : Prop := exists n, no_slash n /\ slow_key (storePrefix n) (fst kv).

Lemma storePrefix_nonempty n r : storePrefix n ++ r <> [].
Proof. done. Qed.

Lemma own_nonempty kv : own kv -> fst kv <> [].
Proof. intros (n & _ & [[r ->] _]). apply storePrefix_nonempty. Qed.

Lemma fast_key_shape sp k : fast_key sp k -> exists r, k = sp ++ Byte.x66 :: r.
Proof. intros [u ->]. unfold fastDBKeyInto. rewrite app_nil_l. by eexists. Qed.

Lemma own_not_fast name kv : no_slash name -> own kv -> ~ fast_key (storePrefix name) (fst kv).
Proof.
  intros Hn (n & Hn' & [[r E] Hs]) Hf. pose proof Hf as [r' E']%fast_key_shape. rewrite E in E'.
  by apply storePrefix_inj in E' as [-> _].
Qed.

(** ** The batch and the ingester as a sink *)

#[local] Arguments fastDBKeyInto : simpl never.

Section Batch.
Context {DB SST : Type} `{BL : BatchLaws DB SST}.
Implicit Types (b : bstate DB SST).

(** What the database will hold when the batch is committed. *)
Definition db_view b : gmap bytes bytes := apply_writes (b_batch b) (contents (b_db b)).

Record batch_ok b : Prop := {
  bo_keys : Forall (fun kv => fst kv <> []) (b_batch b);
  bo_bytes : batchBytes b = wsize (b_batch b)
}.

Definition sst_writes b : list write := from_option entries [] (curWriter (b_ing b)).

Lemma flush_spec b : batch_ok b ->
  exists b', flush b = (Ret tt, b') /\ batch_ok b' /\ db_view b' = db_view b /\ b_ing b' = b_ing b /\
    (b_batch b' = [] \/ b_batch b' = b_batch b).
Proof using BL.
  intros [Hk Hb]. unfold flush, get, mbind, M_bind. destruct (Z.eqb_spec (batchBytes b) 0) as [Hz|Hz].
  - exists b. split_and!; [done|by split|done|done|by right].
  - unfold on_db, zoom. destruct (commit_live (b_batch b) (b_db b)) as [d E]. rewrite E.
    eexists. split; [done|]. split_and!; [by split|..|done|by left].
    unfold db_view. cbn. by apply commit_sound in E.
Qed.

Lemma bset_spec key v b : batch_ok b -> key <> [] ->
  exists b', bset key v b = (Ret tt, b') /\ batch_ok b' /\ db_view b' = <[key := v]> (db_view b) /\
    b_ing b' = b_ing b /\ (b_batch b' = [] \/ b_batch b' = b_batch b ++ [(key, v)]).
Proof using BL.
  intros [Hk Hb] Hne. unfold bset, modify, get, mbind, M_bind.
  set (b1 := set_batch _ _ b).
  assert (H1 : batch_ok b1).
  { split; cbn; [by apply Forall_app; split; [|constructor]|]. by rewrite wsize_snoc, Hb. }
  assert (V1 : db_view b1 = <[key := v]> (db_view b)) by (unfold db_view; cbn; by rewrite apply_writes_app).
  destruct (flushBytes <=? batchBytes b1).
  - destruct (flush_spec b1 H1) as (b' & -> & H' & V' & Hi & Hbt). exists b'.
    split_and!; [done|done|by rewrite V'|by rewrite Hi|done].
  - exists b1. split_and!; [done|done|done|done|by right].
Qed.

Section Store.
Context (name : bytes) (Hname : no_slash name).
Abbreviation sp := (storePrefix name).

Record sink_inv b : Prop := {
  si_batch : batch_ok b;
  si_own : Forall own (b_batch b);
  si_writer : exists w, curWriter (b_ing b) = Some w /\ ing_name (b_ing b) = name /\
    curCount (b_ing b) = len (entries w) /\ Forall (fun kv => fast_key sp (fst kv)) (entries w)
}.

Definition store_view b : gmap bytes bytes := apply_writes (sst_writes b) (db_view b).
Definition store_fast_ok b (u : bytes) : Prop := above_all (fastDBKeyInto [] sp u) (sst_writes b).

Lemma bset_sink key v b : sink_inv b -> slow_key sp key ->
  exists b', bset key v b = (Ret tt, b') /\ sink_inv b' /\ store_view b' = <[key := v]> (store_view b) /\
    (forall u, store_fast_ok b u -> store_fast_ok b' u).
Proof using BL Hname.
  intros [H1 H2 (w & Hw & Hn & Hc & Hf)] Hs.
  destruct (bset_spec key v b H1) as (b' & E & H1' & V & Hi & Hb).
  { destruct Hs as [[r ->] _]. apply storePrefix_nonempty. }
  exists b'. split; [done|]. unfold store_view, store_fast_ok, sst_writes. rewrite Hi, Hw. split_and!; [|..|done].
  - split; [done| |rewrite Hi; eauto]. destruct Hb as [-> | ->]; [constructor|].
    apply Forall_app. split; [done|]. constructor; [|constructor]. by exists name.
  - rewrite V. apply apply_writes_insert_comm. intros v' Hin. cbn in Hin. rewrite Forall_forall in Hf.
    specialize (Hf _ Hin). by destruct Hs.
Qed.

Lemma ing_set_sound u v b b' : sink_inv b -> ing_set (fastDBKeyInto [] sp u) v b = (Ret tt, b') ->
  sink_inv b' /\ store_view b' = <[fastDBKeyInto [] sp u := v]> (store_view b) /\
  (forall u', bytes_ltb u u' = true -> store_fast_ok b' u').
Proof using BL.
  intros [H1 H2 (w & Hw & Hn & Hc & Hf)]. unfold ing_set, wrap_err. rewrite Hw.
  destruct (SstSet _ v w) as [[[]| | |] w'] eqn:E; try done. intros [_ <-]%ret_inj.
  apply sst_sound in E as [E Hab]. unfold store_fast_ok, store_view, sst_writes, db_view. cbn. rewrite Hw, E. cbn.
  split_and!.
  - split; [by destruct H1|done|]. exists w'. cbn. split_and!; [done|done| |].
    + rewrite E, len_app, Hc. done.
    + rewrite E. apply Forall_app. split; [done|]. constructor; [|constructor]. by exists u.
  - by rewrite apply_writes_app.
  - intros u' Hu k' v' [Hin|[= -> ->]%list_elem_of_singleton]%elem_of_app.
    + eapply bytes_ltb_trans; [by eapply Hab|]. by rewrite fastDBKey_ltb.
    + by rewrite fastDBKey_ltb.
Qed.

Lemma ing_set_live u v b : sink_inv b -> store_fast_ok b u ->
  exists b', ing_set (fastDBKeyInto [] sp u) v b = (Ret tt, b').
Proof using BL.
  intros [H1 H2 (w & Hw & _)] Hok. unfold ing_set, wrap_err, store_fast_ok, sst_writes in *. rewrite Hw in *.
  destruct (sst_live _ v _ Hok) as [w' ->]. by eexists.
Qed.

#[export] Program Instance driver_ImportSink : ImportSink driver_sink sp := {
  view := store_view; sink_ok := sink_inv; fast_ok := store_fast_ok
}.
Next Obligation.
  intros key v b b' Hb Hs E. destruct (bset_sink key v b Hb Hs) as (b1 & E1 & HH).
  unfold driver_sink in E. cbn in E. rewrite E1 in E. by apply ret_inj in E as [_ <-].
Qed.
Next Obligation.
  intros key v b Hb Hs. destruct (bset_sink key v b Hb Hs) as (b1 & E1 & HH). by exists b1.
Qed.
Next Obligation. apply ing_set_sound. Qed.
Next Obligation. apply ing_set_live. Qed.

End Store.
End Batch.

Section Laws.
Context {DB SST : Type} `{PL : PebbleLaws DB SST}.
Implicit Types (b : bstate DB SST).

Section Store.
Context (name : bytes) (Hname : no_slash name).
Abbreviation sp := (storePrefix name).

(** ** Opening and closing a store *)

(** Between stores: no writer is open. *)
Record idle b : Prop := {
  id_batch : batch_ok b;
  id_own : Forall own (b_batch b);
  id_closed : curWriter (b_ing b) = None
}.

Lemma openStore_live b : idle b -> exists b', openStore name b = (Ret tt, b').
Proof using PL.
  intros [_ _ Hcl]. unfold openStore, mbind, M_bind, get. rewrite Hcl.
  unfold wrap_err, on_db, zoom. destruct (create_live (str "fast-" ++ sanitize name ++ str ".sst") (b_db b)) as (w & d & ->).
  by eexists.
Qed.

Lemma openStore_spec b b' : idle b -> openStore name b = (Ret tt, b') ->
  sink_inv name b' /\ store_view b' = db_view b /\ forall u, store_fast_ok name b' u.
Proof using PL.
  intros [H1 H2 Hcl]. unfold openStore, mbind, M_bind, get. rewrite Hcl.
  unfold wrap_err, on_db, zoom.
  destruct (SstCreate _ (b_db b)) as [[w| | |] d] eqn:E; try done. intros [_ <-]%ret_inj.
  apply create_sound in E as [Ew Ed]. unfold store_view, store_fast_ok, db_view, sst_writes. cbn. rewrite Ew, Ed.
  split_and!; [|done|by intros u k v ?%elem_of_nil].
  split; [by destruct H1|done|]. exists w. cbn. by rewrite Ew.
Qed.

Lemma ingestStore_live b : sink_inv name b -> exists b', ingestStore name b = (Ret tt, b').
Proof using PL.
  intros [_ _ (w & Hw & Hn & Hc & _)]. unfold ingestStore, mbind, M_bind, get, modify. rewrite Hw, Hn, Hc.
  rewrite bool_decide_true by done. cbn. destruct (Z.eqb_spec (len (entries w)) 0) as [|Hne]; [by eexists|].
  rewrite close_live by (intros E; by rewrite E in Hne).
  unfold wrap_err, on_db, zoom. cbn. destruct (ingest_live w (b_db b)) as [d ->]. by eexists.
Qed.

(** Ingesting commutes with the writes still in the batch: they have other keys. *)
Lemma ingestStore_spec b b' : sink_inv name b -> ingestStore name b = (Ret tt, b') ->
  idle b' /\ db_view b' = store_view b.
Proof using PL Hname.
  intros [H1 H2 (w & Hw & Hn & Hc & Hf)]. unfold ingestStore, mbind, M_bind, get, modify. rewrite Hw, Hn, Hc.
  rewrite bool_decide_true by done. cbn. unfold store_view, sst_writes. rewrite Hw. cbn [from_option].
  destruct (Z.eqb_spec (len (entries w)) 0) as [Hz|_].
  - intros [_ <-]%ret_inj. split; [by destruct H1|].
    destruct (entries w); [done|rewrite len_cons in Hz; pose proof (len_nonneg l); lia].
  - destruct (SstClose w); try done. unfold wrap_err, on_db, zoom. cbn.
    destruct (Ingest w (b_db b)) as [[[]| | |] d] eqn:E; try done. intros [_ <-]%ret_inj.
    apply ingest_sound in E. split; [by destruct H1|]. unfold db_view. cbn. rewrite E.
    apply apply_writes_comm. intros k v v' Hin Hin'. rewrite Forall_forall in Hf, H2.
    by apply (own_not_fast name (k, v) Hname); [apply H2|apply (Hf (k, v'))].
Qed.
End Store.
End Laws.

(** ** The stores of a stream *)

(** A store of the stream: its name and the nodes that follow it. *)
Abbreviation input := (bytes * list node)%type.

Definition item_node (it : snapItem) : node :=
  mkNode (IAVLHeight it) (IAVLVersion it) (default [] (IAVLKey it)) (default [] (IAVLValue it)).

(** The stores closed so far and the one that is open. *)
Definition group_item (g : list input * option input) (it : snapItem) : list input * option input :=
  if Type_ it =? itemTypeStore then (fst g ++ option_list (snd g), Some (StoreName it, []))
  else if Type_ it =? itemTypeIAVL then (fst g, (fun i => (fst i, snd i ++ [item_node it])) <$> snd g)
  else if Type_ it =? itemTypeExtMeta then (fst g ++ option_list (snd g), None)
  else g.

Definition stores_in (its : list snapItem) : list input :=
  let g := fold_left group_item its ([], None) in fst g ++ option_list (snd g).

(** What the import may do with one store: the record it makes and its writes. *)
Inductive store_result (h0 : Z) : input -> StoreInfo -> list write -> Prop :=
| result_empty name :
    store_result h0 (name, []) (mkStoreInfo name emptyIAVLTreeHash) (empty_writes (storePrefix name) h0)
| result_tree name ns t : wf_tree t -> Forall2 node_of ns (subtrees t) -> nonced (subtrees t) ->
    versions_ok (subtrees t) -> len (subtrees t) + 2 < 2 ^ 32 ->
    store_result h0 (name, ns) (mkStoreInfo name (thash t)) (tree_writes (storePrefix name) h0 t).

Definition node_fine (n : node) : Prop := nd_version n <> 0 /\ int64 (nd_version n).

(** Store names are as the SDK has them; versions are those of committed nodes. *)
Definition item_fine (it : snapItem) : Prop :=
  (Type_ it = itemTypeStore -> no_slash (StoreName it)) /\
  (Type_ it = itemTypeIAVL -> node_fine (item_node it)).

(** ** Runs of the driver *)

Section Runs.
Context {DB SST : Type} `{PL : PebbleLaws DB SST} {P : Type} `{RP : RingPinner P}.
Context (fs : extFS) (h0 : Z).
Implicit Types (d : driver DB SST).

Fixpoint feed (its : list snapItem) : M (driver DB SST) unit :=
  match its with
  | [] => mret tt
  | it :: r => _ ← handleItem fs h0 it; feed r
  end.

Lemma feed_app a b d :
  feed (a ++ b) d = match feed a d with (Ret tt, d') => feed b d' | r => r end.
Proof using Type.
  revert d. induction a as [|it a IH]; intros d; [done|]. cbn [app feed].
  unfold mbind, M_bind. destruct (handleItem fs h0 it d) as [[[]| | |] d1]; [apply IH|done..].
Qed.

Definition conclude (r : outcome snapItem) : M (driver DB SST) (list StoreInfo) :=
  match r with
  | Err EOF => finishImport h0
  | Err e => fail (Wrapf "read item" e)
  | Panic m => panic m
  | _ => fun d => (NoFuel, d)
  end.

(** The loop handles the items of the stream, then looks at how it ended. *)
Lemma importLoop_readAll fuel : forall (rd : snapReader P) d,
  importLoop fuel fs h0 rd d =
  (let '(its, r, _) := readAll fuel rd in
   mbind (M := M (driver DB SST)) (fun _ => conclude r) (feed its) d).
Proof using Type.
  induction fuel as [|fuel IH]; intros rd d; [done|]. cbn [importLoop readAll].
  destruct (Next rd) as [[it|e|m|] rd1]; [|by destruct e|done|done].
  destruct (readAll fuel rd1) as [[its r] rd2] eqn:E. unfold mbind at 1, M_bind at 1.
  cbn [feed]. unfold mbind at 1 2, M_bind at 1 2.
  destruct (handleItem fs h0 it d) as [[[]| | |] d1]; [|done..]. rewrite IH, E. done.
Qed.

(** *** Closing a store *)

(** Store [name] is open and has taken [ns], starting from the sink [b0]. *)
Record open_at name ns b0 d : Prop := {
  op_name : curName d = name;
  op_sink : sink_inv name b0;
  op_run : exists s, d_current d = Some s /\
    addNodes driver_sink ns (newStoreImporter name h0, b0) = (Ret tt, (s, d_b d))
}.

Lemma closeCurrent_open name ns b0 d d' : open_at name ns b0 d ->
  closeCurrent d = (Ret tt, d') <->
  exists h s' b1 b2, run_store driver_sink name h0 ns b0 = (Ret h, (s', b1)) /\
    ingestStore (storeName s') b1 = (Ret tt, b2) /\
    d' = mkDriver b2 None name (d_stores d ++ [mkStoreInfo name h]) (d_ext d) (d_files d)
           (mkStats (u64 (Items (d_stats d) + itemCount s')) (Extensions (d_stats d)) (ExtensionPayloads (d_stats d))).
Proof using Type.
  intros [Hname _ (s & Hc & Hrun)]. unfold closeCurrent, run_store, get, modify, wrap_err, mbind, M_bind.
  rewrite Hc, Hrun. unfold on_current, on_b, zoom.
  destruct (finalize driver_sink (s, d_b d)) as [[h|e|m|] [s1 b1]]; cbn; [|split; [done|by intros (? & ? & ? & ? & [= ] & _)]..].
  destruct (ingestStore (storeName s1) b1) as [[[]|e|m|] b2] eqn:E; cbn; rewrite ?Hname.
  - split.
    + intros [_ <-]%ret_inj. by exists h, s1, b1, b2.
    + intros (? & ? & ? & ? & [<- [<- <-]%pair_equal_spec]%ret_inj & E' & ->).
      rewrite E in E'. by apply ret_inj in E' as [_ ->].
  - split; [done|]. intros (? & ? & ? & ? & [<- [<- <-]%pair_equal_spec]%ret_inj & E' & _). by rewrite E in E'.
  - split; [done|]. intros (? & ? & ? & ? & [<- [<- <-]%pair_equal_spec]%ret_inj & E' & _). by rewrite E in E'.
  - split; [done|]. intros (? & ? & ? & ? & [<- [<- <-]%pair_equal_spec]%ret_inj & E' & _). by rewrite E in E'.
Qed.

(** [ingestStore] refuses a name other than the one opened. *)
Lemma ingestStore_name name n b b' : sink_inv name b -> ingestStore n b = (Ret tt, b') -> n = name.
Proof using Type.
  intros [_ _ (w & Hw & Hn & _)]. unfold ingestStore, get, mbind, M_bind. rewrite Hw, Hn.
  destruct (bool_decide_reflect (name = n)) as [->|]; [done|]. by intros [= ].
Qed.

(** *** Soundness *)

(** What has happened when the stores [done] are imported and [cur] is open. *)
Record drv_inv (m0 : gmap bytes bytes) (g : list input * option input) d : Prop := {
  di_inv : exists wss, Forall3 (store_result h0) (fst g) (d_stores d) wss /\
    match snd g with
    | None => idle (d_b d) /\ d_current d = None /\ db_view (d_b d) = apply_writes (concat wss) m0
    | Some (name, ns) => no_slash name /\ Forall node_fine ns /\
        exists b0, open_at name ns b0 d /\ store_view b0 = apply_writes (concat wss) m0
    end
}.

Lemma run_store_result name ns b0 h s' b1 :
  no_slash name -> sink_inv name b0 -> Forall node_fine ns -> len ns + 2 < 2 ^ 32 ->
  run_store driver_sink name h0 ns b0 = (Ret h, (s', b1)) ->
  sink_inv name b1 /\ exists ws, store_result h0 (name, ns) (mkStoreInfo name h) ws /\
    store_view b1 = apply_writes ws (store_view b0).
Proof using PL.
  intros Hn Hs Hv Hb E.
  assert (Hv0 : Forall (fun n => nd_version n <> 0) ns) by (eapply Forall_impl; [exact Hv|]; by intros n [? _]).
  destruct (run_store_sound driver_sink name (SL := driver_ImportSink name Hn) h0 b0 ns h s' b1 Hs Hv0 Hb E)
    as [H1 [(-> & -> & V)|(t & Hwf & Hns & Hnc & -> & V)]]; (split; [exact H1|]); eexists; (split; [|exact V]).
  - constructor.
  - constructor; try done; [by eapply nodes_versions|]. apply Forall2_length in Hns. unfold len in *. lia.
Qed.

Definition cur_len (g : list input * option input) : Z := from_option (fun i => len (snd i)) 0 (snd g).

Lemma closeCurrent_inv m0 g d d' : drv_inv m0 g d -> cur_len g + 2 < 2 ^ 32 ->
  closeCurrent d = (Ret tt, d') -> drv_inv m0 (fst g ++ option_list (snd g), None) d'.
Proof using PL.
  destruct g as [done_ [[name ns]|]]; intros [(wss & HF & Hg)] Hb; cbn in HF, Hg, Hb.
  - destruct Hg as (Hn & Hv & b0 & Ho & V). rewrite (closeCurrent_open _ _ _ _ _ Ho).
    intros (h & s' & b1 & b2 & E1 & E2 & ->).
    destruct (run_store_result name ns b0 h s' b1 Hn (op_sink _ _ _ _ Ho) Hv Hb E1) as (H1 & ws & Hr & V1).
    pose proof (ingestStore_name _ _ _ _ H1 E2) as Es. rewrite Es in E2.
    destruct (ingestStore_spec name Hn b1 b2 H1 E2) as [H2 V2].
    split. exists (wss ++ [ws]). cbn. split_and!; [|done|done|].
    + apply Forall3_app; [done|]. by repeat constructor.
    + by rewrite V2, V1, V, concat_app, apply_writes_app; cbn; rewrite app_nil_r.
  - destruct Hg as (Hi & Hc & V). unfold closeCurrent, get, mbind, M_bind. rewrite Hc. intros [_ <-]%ret_inj.
    split. exists wss. cbn. by rewrite app_nil_r.
Qed.

(** The extension writer leaves the stores alone. *)
Definition same_stores d d' : Prop :=
  d_b d' = d_b d /\ d_current d' = d_current d /\ curName d' = curName d /\ d_stores d' = d_stores d.

Lemma openMeta_same name format d r d' : openMeta fs name format d = (r, d') -> same_stores d d'.
Proof using Type. unfold openMeta. repeat case_match; by intros [= <- <-]. Qed.

Lemma writePayload_same payload d r d' : writePayload fs payload d = (r, d') -> same_stores d d'.
Proof using Type. unfold writePayload. repeat case_match; by intros [= <- <-]. Qed.

Lemma drv_inv_same m0 g d d' : same_stores d d' -> drv_inv m0 g d -> drv_inv m0 g d'.
Proof using Type.
  intros (E1 & E2 & E3 & E4) [(wss & HF & Hg)]. split. exists wss. rewrite E4. split; [done|].
  destruct (snd g) as [[name ns]|]; [|by rewrite E1, E2].
  destruct Hg as (Hn & Hv & b0 & [O1 O2 O3] & V). split_and!; [done..|]. exists b0. split; [|done].
  split; rewrite ?E1, ?E2, ?E3; done.
Qed.

Lemma handleItem_inv m0 g d it d' : drv_inv m0 g d -> cur_len g + 2 < 2 ^ 32 -> item_fine it ->
  handleItem fs h0 it d = (Ret tt, d') -> drv_inv m0 (group_item g it) d'.
Proof using PL.
  intros Hd Hb [Hst Hiavl]. unfold handleItem, group_item.
  destruct (Z.eqb_spec (Type_ it) itemTypeStore) as [E|_];
    [|destruct (Z.eqb_spec (Type_ it) itemTypeIAVL) as [E|_];
      [|destruct (Z.eqb_spec (Type_ it) itemTypeExtMeta) as [E|_];
        [|destruct (Z.eqb_spec (Type_ it) itemTypeExtPayload) as [E|_]]]].
  - unfold mbind, M_bind. destruct (closeCurrent d) as [[[]| | |] d1] eqn:E1; try done.
    apply (closeCurrent_inv m0 g d d1 Hd Hb) in E1 as [(wss & HF & Hi & _ & V)]. cbn in HF.
    unfold modify, wrap_err, on_b, zoom. cbn.
    destruct (openStore (StoreName it) (d_b d1)) as [[[]| | |] b2] eqn:E2; try done. intros [_ <-]%ret_inj.
    apply (openStore_spec (StoreName it)) in E2 as (Hs & V2 & _); [|done].
    split. exists wss. cbn. split_and!; [done|by apply Hst|done|].
    exists b2. split; [|by rewrite V2, V]. split; [done|done|]. by eexists.
  - destruct Hd as [(wss & HF & Hg)]. unfold get, mbind, M_bind. destruct (snd g) as [[name ns]|] eqn:Eg; cbn.
    2: { destruct Hg as (_ & -> & _). done. }
    destruct Hg as (Hn & Hv & b0 & [O1 O2 (s & O3 & O4)] & V). rewrite O3. unfold wrap_err, on_current.
    destruct (addNode driver_sink _ _ _ _ _) as [[[]| | |] [s1 b1]] eqn:E1; try done. intros [_ <-]%ret_inj.
    split. exists wss. cbn. split_and!; [done|done| |].
    + apply Forall_app. split; [done|]. constructor; [by apply Hiavl|constructor].
    + exists b0. split; [|done]. split; [done|done|]. exists s1. cbn. split; [done|].
      rewrite addNodes_app, O4. cbn [addNodes item_node nd_height nd_version nd_key nd_value].
      unfold mbind, M_bind. by rewrite E1.
  - unfold mbind, M_bind. destruct (closeCurrent d) as [[[]| | |] d1] eqn:E1; try done.
    apply (closeCurrent_inv m0 g d d1 Hd Hb) in E1. intros E2%openMeta_same. by eapply drv_inv_same.
  - intros E2%writePayload_same. by eapply drv_inv_same.
  - done.
Qed.

Lemma group_item_len g it : cur_len (group_item g it) <= cur_len g + 1.
Proof using Type.
  unfold group_item, cur_len. destruct g as [l [[n ns]|]]; cbn; repeat case_match; cbn; rewrite ?len_app, ?len_cons, ?len_nil;
    try (pose proof (len_nonneg ns)); lia.
Qed.

Lemma feed_inv m0 its : forall g d d', drv_inv m0 g d -> cur_len g + len its + 2 < 2 ^ 32 -> Forall item_fine its ->
  feed its d = (Ret tt, d') ->
  drv_inv m0 (fold_left group_item its g) d' /\ cur_len (fold_left group_item its g) + 2 < 2 ^ 32.
Proof using PL.
  induction its as [|it its IH]; intros g d d' Hd Hb Hf; cbn [feed fold_left].
  - intros [_ <-]%ret_inj. rewrite len_nil in Hb. split; [done|lia].
  - rewrite len_cons in Hb. pose proof (len_nonneg its). apply Forall_cons in Hf as [Hit Hf].
    unfold mbind, M_bind. destruct (handleItem fs h0 it d) as [[[]| | |] d1] eqn:E; try done.
    apply (handleItem_inv m0 g) in E; [|done|lia|done]. apply IH; [done| |done].
    pose proof (group_item_len g it). lia.
Qed.

(** *** The end of the import *)

Definition tail_writes (infos : list StoreInfo) : list write :=
  [(commitInfoKey h0, commitInfoBytes h0 infos); (latestVersionKey, latestVersionBytes h0)].

(** The two rootmulti records and the last commit of the batch. *)
Lemma finish_writes b infos : idle b ->
  exists b1 b2 b3, bset (commitInfoKey h0) (commitInfoBytes h0 infos) b = (Ret tt, b1) /\
    bset latestVersionKey (latestVersionBytes h0) b1 = (Ret tt, b2) /\
    (if 0 <? batchBytes b2 then wrap_err "flush final batch" (on_db (BatchCommit (b_batch b2))) else mret tt) b2
      = (Ret tt, b3) /\
    contents (b_db b3) = apply_writes (tail_writes infos) (db_view b).
Proof using PL.
  intros [Hb _ _].
  destruct (bset_spec (commitInfoKey h0) (commitInfoBytes h0 infos) b Hb) as (b1 & E1 & H1 & V1 & _); [done|].
  destruct (bset_spec latestVersionKey (latestVersionBytes h0) b1 H1) as (b2 & E2 & [H2 Hz] & V2 & _); [done|].
  assert (V : db_view b2 = apply_writes (tail_writes infos) (db_view b)) by (by rewrite V2, V1).
  exists b1, b2. destruct (Z.ltb_spec 0 (batchBytes b2)) as [_|Hle].
  - destruct (commit_live (b_batch b2) (b_db b2)) as [dd Ed].
    exists (set_db dd b2). split_and!; [done|done| |].
    + unfold wrap_err, on_db, zoom. by rewrite Ed.
    + apply commit_sound in Ed. rewrite <- V. cbn. by rewrite Ed.
  - exists b2. split_and!; [done|done|done|]. rewrite Hz in Hle. apply wsize_zero in Hle; [|done].
    rewrite <- V. unfold db_view. by rewrite Hle.
Qed.

Lemma wrap_on_b {A} msg (m : M _ A) d a b' :
  m (d_b d) = (Ret a, b') -> wrap_err msg (on_b m) d = (Ret a, with_b b' d).
Proof using Type. intros E. unfold wrap_err, on_b, zoom. by rewrite E. Qed.

Lemma unwrap_ret {S A} msg (m : M S A) s a s' : wrap_err msg m s = (Ret a, s') -> m s = (Ret a, s').
Proof using Type. unfold wrap_err. by destruct (m s) as [[]?]. Qed.

Lemma finishImport_closed d d1 : closeCurrent d = (Ret tt, d1) -> idle (d_b d1) ->
  exists d', finishImport h0 d = (Ret (d_stores d1), d') /\
    contents (b_db (d_b d')) = apply_writes (tail_writes (d_stores d1)) (db_view (d_b d1)).
Proof using PL.
  intros E Hi. destruct (finish_writes (d_b d1) (d_stores d1) Hi) as (b1 & b2 & b3 & E1 & E2 & E3 & V).
  exists (with_b b3 (with_b b2 (with_b b1 d1))). split; [|exact V].
  unfold finishImport, mbind, M_bind, get. rewrite E.
  rewrite (wrap_on_b _ _ d1 _ _ E1). cbv beta iota. rewrite (wrap_on_b _ _ (with_b b1 d1) _ _ E2). cbv beta iota. cbn [d_b with_b].
  destruct (0 <? batchBytes b2).
  - apply unwrap_ret in E3. rewrite (wrap_on_b _ _ (with_b b2 (with_b b1 d1)) _ _ E3). done.
  - apply ret_inj in E3 as [_ <-]. done.
Qed.

Lemma finishImport_inv m0 g d infos d' : drv_inv m0 g d -> cur_len g + 2 < 2 ^ 32 ->
  finishImport h0 d = (Ret infos, d') ->
  exists wss, Forall3 (store_result h0) (fst g ++ option_list (snd g)) infos wss /\
    contents (b_db (d_b d')) = apply_writes (concat wss ++ tail_writes infos) m0.
Proof using PL.
  intros Hd Hb E. destruct (closeCurrent d) as [r d1] eqn:E1.
  assert (r = Ret tt) as ->.
  { unfold finishImport, mbind, M_bind in E. rewrite E1 in E. by destruct r as [[]| | |]. }
  pose proof (closeCurrent_inv m0 g d d1 Hd Hb E1) as [(wss & HF & Hi & _ & V)]. cbn in HF.
  destruct (finishImport_closed d d1 E1 Hi) as (d2 & E2 & V2). rewrite E in E2.
  apply ret_inj in E2 as [-> ->]. exists wss. split; [done|]. by rewrite V2, V, apply_writes_app.
Qed.
End Runs.

(** ** What the database holds *)

(** What the database [m] holds for one store of the stream. *)
Inductive imported_as (m : gmap bytes bytes) (h0 : Z) : input -> StoreInfo -> Prop :=
| imported_empty name :
    m !! nodeDBKey (storePrefix name) h0 1 = Some [] -> m !! marker_key (storePrefix name) = Some (marker h0) ->
    imported_as m h0 (name, []) (mkStoreInfo name emptyIAVLTreeHash)
| imported_tree name ns t :
    wf_tree t -> Forall2 node_of ns (subtrees t) -> nonced (subtrees t) -> store_holds m (storePrefix name) h0 t ->
    imported_as m h0 (name, ns) (mkStoreInfo name (thash t)).

Lemma result_keys h0 i info ws : store_result h0 i info ws ->
  forall k v, (k, v) ∈ ws -> exists r, k = storePrefix (fst i) ++ r.
Proof.
  intros Hr k v Hin. destruct Hr as [name|name ns t]; cbn [fst].
  - apply elem_of_cons in Hin as [[= -> ->]|[= -> ->]%list_elem_of_singleton];
      unfold nodeDBKey, nodeDBKeyInto, marker_key, metadataDBKeyInto; rewrite app_nil_l; by eexists.
  - apply elem_of_app in Hin as [Hin|Hin]; [by eapply prefixed_writes|].
    apply root_writes_elem in Hin as [[-> _]|[(_ & -> & _)|[-> _]]];
      unfold nodeDBKey, nodeDBKeyInto, marker_key, metadataDBKeyInto; rewrite app_nil_l; by eexists.
Qed.

Lemma imported_agree m m' h0 i info : (forall r, m' !! (storePrefix (fst i) ++ r) = m !! (storePrefix (fst i) ++ r)) ->
  imported_as m h0 i info -> imported_as m' h0 i info.
Proof.
  intros Hag Hi. destruct Hi as [name E1 E2|name ns t H1 H2 H3 H4]; cbn [fst] in Hag.
  - unfold nodeDBKey, nodeDBKeyInto, marker_key, metadataDBKeyInto in E1, E2. rewrite app_nil_l in E1, E2.
    apply imported_empty; unfold nodeDBKey, nodeDBKeyInto, marker_key, metadataDBKeyInto; rewrite app_nil_l, Hag; [exact E1|exact E2].
  - constructor; [done..|]. by eapply store_holds_agree.
Qed.

Lemma result_imported h0 i info ws m : int64 h0 -> store_result h0 i info ws -> imported_as (apply_writes ws m) h0 i info.
Proof.
  intros Hh [name|name ns t Hwf Hns Hnc Hv Hb].
  - constructor; unfold empty_writes; apply apply_writes_lookup.
    + by left.
    + intros v [[_ ->]%pair_equal_spec|[E _]%list_elem_of_singleton%pair_equal_spec]%elem_of_cons; [done|].
      by apply eq_sym, marker_not_node in E.
    + right. by left.
    + intros v [[E _]%pair_equal_spec|[_ ->]%list_elem_of_singleton%pair_equal_spec]%elem_of_cons; [|done].
      by apply marker_not_node in E.
  - constructor; [done..|]. apply (im_holds m). by apply tree_image.
Qed.

Definition other_key (name k : bytes) : Prop := forall r, k <> storePrefix name ++ r.

Lemma imports_hold h0 dn infos wss tl : int64 h0 -> Forall3 (store_result h0) dn infos wss ->
  NoDup (map fst dn) -> Forall (fun i => no_slash (fst i)) dn ->
  (forall name k v, (k, v) ∈ tl -> other_key name k) ->
  forall m0, Forall2 (imported_as (apply_writes (concat wss ++ tl) m0) h0) dn infos.
Proof.
  intros Hh HF. induction HF as [|i info ws dn infos wss Hr HF IH]; intros Hnd Hns Htl m0; [constructor|].
  apply NoDup_cons in Hnd as [Hni Hnd]. apply Forall_cons in Hns as [Hi Hns].
  cbn [concat]. rewrite <- app_assoc, apply_writes_app. constructor; [|by apply IH].
  eapply imported_agree; [|by apply result_imported]. intros r. apply apply_writes_other.
  intros v [Hin|Hin]%elem_of_app; [|by eapply Htl].
  apply list_elem_of_In, in_concat in Hin as (ws' & Hws & Hin%list_elem_of_In). apply list_elem_of_In in Hws.
  apply list_elem_of_lookup in Hws as [j Hj].
  destruct (Forall3_lookup_r _ _ _ _ j ws' HF Hj) as (i' & info' & Hi' & _ & Hr').
  destruct (result_keys _ _ _ _ Hr' _ _ Hin) as [r' E].
  pose proof (list_elem_of_lookup_2 _ _ _ Hi') as Hel. rewrite Forall_forall in Hns.
  apply storePrefix_inj in E as [E _]; [|done|by apply Hns]. apply Hni. rewrite E. by apply list_elem_of_fmap_2.
Qed.

Lemma stores_in_names its : Forall item_fine its -> Forall (fun i => no_slash (fst i)) (stores_in its).
Proof.
  intros Hf. unfold stores_in.
  assert (H : forall g, Forall (fun i => no_slash (fst i)) (fst g ++ option_list (snd g)) ->
    let g' := fold_left group_item its g in Forall (fun i => no_slash (fst i)) (fst g' ++ option_list (snd g'))).
  2: { by apply H. }
  induction Hf as [|it its [Hit _] Hf IH]; intros g Hg; [done|]. cbn [fold_left]. apply IH.
  unfold group_item. apply Forall_app in Hg as [Hg1 Hg2].
  destruct (Z.eqb_spec (Type_ it) itemTypeStore) as [E|_]; [|repeat case_match]; cbn [fst snd option_list].
  - rewrite !Forall_app. split_and!; [done|done|]. constructor; [by apply Hit|constructor].
  - apply Forall_app. split; [done|]. destruct (snd g) as [[n ns]|]; [|constructor].
    apply Forall_cons in Hg2 as [Hn _]. constructor; [exact Hn|constructor].
  - by rewrite app_nil_r, Forall_app.
  - by apply Forall_app.
Qed.

Lemma tail_not_store h0 infos name k v : (k, v) ∈ tail_writes h0 infos -> other_key name k.
Proof.
  intros [[= -> ->]|[= -> ->]%list_elem_of_singleton]%elem_of_cons r E; by apply eq_sym, rootmulti_not_store in E.
Qed.

Lemma result_writes h0 dn infos wss k v : Forall3 (store_result h0) dn infos wss -> (k, v) ∈ concat wss ->
  exists i r, i ∈ dn /\ k = storePrefix (fst i) ++ r.
Proof.
  intros HF (ws & Hws & Hin%list_elem_of_In)%list_elem_of_In%in_concat.
  apply list_elem_of_In, list_elem_of_lookup in Hws as [j Hj].
  destruct (Forall3_lookup_r _ _ _ _ j ws HF Hj) as (i & info & Hi & _ & Hr).
  destruct (result_keys _ _ _ _ Hr _ _ Hin) as [r E]. exists i, r. split; [by eapply list_elem_of_lookup_2|done].
Qed.

(** ** What a node exports

    A snapshot is the stores, each the post-order of its tree, and the
    extensions with their payloads. *)
Inductive segment :=
| SegStore (name : bytes) (t : option tree)
| SegExt (name : bytes) (format : Z) (payloads : list bytes).

Definition opt (b : bytes) : option bytes := match b with [] => None | _ => Some b end.

Definition tree_item (t : tree) : snapItem :=
  match t with
  | Leaf v _ key value => mkItem itemTypeIAVL [] (opt key) (Some value) v 0 [] 0 None
  | Inner h v _ key _ _ => mkItem itemTypeIAVL [] (opt key) None v h [] 0 None
  end.

Definition post_order (t : option tree) : list tree := from_option subtrees [] t.

Definition segment_items (g : segment) : list snapItem :=
  match g with
  | SegStore name t =>
      mkItem itemTypeStore name None None 0 0 [] 0 None :: map tree_item (post_order t)
  | SegExt name format ps =>
      mkItem itemTypeExtMeta [] None None 0 0 name format None ::
      map (fun p => mkItem itemTypeExtPayload [] None None 0 0 [] 0 (opt p)) ps
  end.

Definition segment_infos (g : segment) : list StoreInfo :=
  match g with
  | SegStore name t => [mkStoreInfo name (from_option thash emptyIAVLTreeHash t)]
  | SegExt _ _ _ => []
  end.

Definition segment_ok (g : segment) : Prop :=
  match g with
  | SegStore name t => no_slash name /\
      forall u, t = Some u -> wf_tree u /\ Forall (fun x => tversion x <> 0) (subtrees u) /\
        len (subtrees u) + 2 < 2 ^ 32 /\ sorted_keys (leaf_keys u)
  | SegExt _ _ _ => True
  end.

Lemma item_node_tree t : item_node (tree_item t) = tnode t.
Proof. destruct t as [v n [|c key] value|h v n [|c key] l r]; done. Qed.

Section Complete.
Context {DB SST : Type} `{PL : PebbleLaws DB SST}.
Context (fs : extFS) (h0 : Z).
Context (Hmk : forall n, mkdir_err fs n = None) (Hwr : forall f, write_err fs f = None).
Implicit Types (d : driver DB SST).

(** Closing the store that is open, if any, succeeds and leaves these records. *)
Definition ready (infos : list StoreInfo) d : Prop :=
  exists d', closeCurrent d = (Ret tt, d') /\ idle (d_b d') /\ d_stores d' = infos.

Lemma ready_closed d : idle (d_b d) -> d_current d = None -> ready (d_stores d) d.
Proof using Type. intros Hi Hc. exists d. unfold closeCurrent, get, mbind, M_bind. by rewrite Hc. Qed.

Lemma closeCurrent_none d d' : closeCurrent d = (Ret tt, d') -> d_current d' = None.
Proof using Type.
  unfold closeCurrent, get, modify, mbind, M_bind. destruct (d_current d) eqn:Hc; [|by intros [_ <-]%ret_inj].
  unfold wrap_err, on_current. destruct (finalize _ _) as [[]  [s1 b1]]; try done. cbn.
  unfold on_b, zoom. cbn. destruct (ingestStore _ b1) as [[] b2]; try done. by intros [_ <-]%ret_inj.
Qed.

Lemma ready_same infos d d' : same_stores d d' -> ready infos d -> d_current d = None -> ready infos d'.
Proof using Type.
  intros (E1 & E2 & E3 & E4) (d1 & E & Hi & Hs) Hc. unfold closeCurrent, get, mbind, M_bind in E.
  rewrite Hc in E. apply ret_inj in E as [_ <-]. rewrite <- Hs, <- E4.
  apply ready_closed; [by rewrite E1|by rewrite E2].
Qed.

Lemma feed_nodes ts : forall d s s' b', d_current d = Some s ->
  addNodes driver_sink (map tnode ts) (s, d_b d) = (Ret tt, (s', b')) ->
  exists d', feed fs h0 (map tree_item ts) d = (Ret tt, d') /\ d_b d' = b' /\ d_current d' = Some s' /\
    curName d' = curName d /\ d_stores d' = d_stores d.
Proof using Type.
  induction ts as [|t ts IH]; intros d s s' b' Hc E.
  - cbn [map addNodes] in E. apply ret_inj in E as [_ [<- <-]%pair_equal_spec]. by exists d.
  - cbn [map addNodes feed] in *. unfold mbind, M_bind in *. rewrite <- item_node_tree in E. cbn [item_node nd_height nd_version nd_key nd_value] in E.
    destruct (addNode _ _ _ _ _ _) as [[[]| | |] [s1 b1]] eqn:E1; try done.
    assert (E2 : handleItem fs h0 (tree_item t) d = (Ret tt, with_b b1 (with_current (Some s1) (curName d) d))).
    { replace (handleItem fs h0 (tree_item t) d) with
        (wrap_err "add node" (on_current s (addNode driver_sink (IAVLHeight (tree_item t)) (IAVLVersion (tree_item t))
          (default [] (IAVLKey (tree_item t))) (default [] (IAVLValue (tree_item t))))) d).
      - unfold wrap_err, on_current. by rewrite E1.
      - destruct t; unfold handleItem, get, mbind, M_bind; cbn; by rewrite Hc. }
    rewrite E2. by apply (IH (with_b b1 (with_current (Some s1) (curName d) d)) s1 s' b').
Qed.

Lemma store_live name t b0 : no_slash name -> segment_ok (SegStore name t) ->
  sink_inv name b0 -> (forall u, store_fast_ok name b0 u) ->
  exists s' b1, run_store driver_sink name h0 (map tnode (post_order t)) b0
      = (Ret (from_option thash emptyIAVLTreeHash t), (s', b1)) /\
    sink_inv name b1 /\ storeName s' = name.
Proof using PL.
  intros Hn [_ Ht] Hs Hf. pose (SL := driver_ImportSink name Hn).
  destruct t as [t|]; cbn [post_order from_option].
  - destruct (Ht t eq_refl) as (Hwf & Hv & Hb & Hk).
    destruct (run_store_tree driver_sink name (SL := SL) h0 b0 t) as (s' & b1 & t' & E & H1 & _ & _ & _ & _ & H2);
      [exact Hs|done..|intros u _; apply Hf|]. by exists s', b1.
  - destruct (finalize_none driver_sink (storePrefix name) (SL := SL) b0 h0 (newStoreImporter name h0) b0 [])
      as (s' & b1 & E & H1 & _ & H2 & _); [by apply run_inv_init|].
    exists s', b1. split_and!; [exact E|done|done].
Qed.

Lemma store_segment_live name t infos d : segment_ok (SegStore name t) -> ready infos d ->
  exists d', feed fs h0 (segment_items (SegStore name t)) d = (Ret tt, d') /\
    ready (infos ++ segment_infos (SegStore name t)) d'.
Proof using PL.
  intros Hok (d1 & E1 & Hi & Hs). destruct (openStore_live name (d_b d1) Hi) as [b0 E2].
  destruct (openStore_spec name (d_b d1) b0 Hi E2) as (H0 & _ & Hf). pose proof Hok as [Hn _].
  destruct (store_live name t b0 Hn Hok H0 Hf) as (s' & b1 & E3 & H1 & Es).
  destruct (ingestStore_live name b1 H1) as [b2 E4].
  pose proof (ingestStore_spec name Hn b1 b2 H1 E4) as [H2 _].
  pose proof E3 as E3'. unfold run_store in E3'. unfold mbind, M_bind in E3'.
  destruct (addNodes driver_sink _ _) as [[[]| | |] [s1 b1']] eqn:E5; try done.
  set (d2 := with_b b0 (with_current (Some (newStoreImporter name h0)) name d1)).
  destruct (feed_nodes (post_order t) d2 _ s1 b1' eq_refl E5) as (d3 & E6 & Hb3 & Hc3 & Hn3 & Hs3).
  exists d3. split.
  - cbn [segment_items feed]. unfold mbind at 1, M_bind at 1.
    replace (handleItem fs h0 _ d) with (@Ret unit tt, d2); [exact E6|].
    unfold handleItem. cbn. unfold mbind, M_bind, modify. rewrite E1. unfold wrap_err, on_b, zoom. cbn. by rewrite E2.
  - assert (Ho : open_at h0 name (map tnode (post_order t)) b0 d3).
    { split; [by rewrite Hn3|done|]. exists s1. rewrite Hc3, Hb3. done. }
    eexists. split; [|split].
    + apply (closeCurrent_open h0 name (map tnode (post_order t)) b0 d3 _ Ho). exists (from_option thash emptyIAVLTreeHash t), s', b1, b2. rewrite Es. split_and!; [exact E3|exact E4|reflexivity].
    + exact H2.
    + cbn. by rewrite Hs3, <- Hs.
Qed.

Lemma ext_segment_live name format ps infos d : ready infos d ->
  exists d', feed fs h0 (segment_items (SegExt name format ps)) d = (Ret tt, d') /\ ready infos d'.
Proof using Hmk Hwr.
  intros (d1 & E1 & Hi & Hs). pose proof (closeCurrent_none _ _ E1) as Hc1.
  destruct (openMeta fs name format d1) as [r d2] eqn:E2. pose proof (openMeta_same _ _ _ _ _ _ E2) as Hm.
  assert (r = Ret tt) as ->.
  { unfold openMeta in E2. rewrite Hmk in E2. case_match; by injection E2. }
  assert (H2 : ready infos d2) by (eapply ready_same; [done| |done]; rewrite <- Hs; by apply ready_closed).
  assert (Hc2 : d_current d2 = None) by (destruct Hm as (_ & -> & _); done).
  cbn [segment_items feed]. unfold mbind at 1, M_bind at 1.
  replace (handleItem fs h0 _ d) with (@Ret unit tt, d2).
  2: { unfold handleItem. cbn. unfold mbind, M_bind. by rewrite E1. }
  clear E1 E2 Hm. revert d2 H2 Hc2. induction ps as [|p ps IH]; intros d2 H2 Hc2; [by exists d2|].
  cbn [map feed]. unfold mbind at 1, M_bind at 1.
  destruct (writePayload fs (default [] (opt p)) d2) as [r d3] eqn:E3. pose proof (writePayload_same _ _ _ _ _ E3) as Hm.
  assert (r = Ret tt) as ->.
  { unfold writePayload in E3. rewrite Hwr in E3. case_match; by injection E3. }
  change (handleItem fs h0 _ d2) with (writePayload fs (default [] (opt p)) d2). rewrite E3.
  apply IH; [by eapply ready_same|]. by destruct Hm as (_ & -> & _).
Qed.

Lemma segments_live segs : forall infos d, Forall segment_ok segs -> ready infos d ->
  exists d', feed fs h0 (concat (map segment_items segs)) d = (Ret tt, d') /\
    ready (infos ++ concat (map segment_infos segs)) d'.
Proof using PL Hmk Hwr.
  induction segs as [|g segs IH]; intros infos d Hok Hr; cbn [map concat].
  - exists d. by rewrite app_nil_r.
  - apply Forall_cons in Hok as [Hg Hok]. rewrite feed_app, app_assoc.
    assert (Hg' : exists d1, feed fs h0 (segment_items g) d = (Ret tt, d1) /\ ready (infos ++ segment_infos g) d1).
    { destruct g as [name t|name format ps]; [by apply store_segment_live|].
      cbn [segment_infos]. rewrite app_nil_r. by apply ext_segment_live. }
    destruct Hg' as (d1 & -> & H1). by apply IH.
Qed.
End Complete.

(** ** Properties *)

(** The database after an import whose commit info lists [listed]. *)
Lemma import_holds h0 dn infos listed wss m0 : int64 h0 -> Forall3 (store_result h0) dn infos wss ->
  NoDup (map fst dn) -> Forall (fun i => no_slash (fst i)) dn ->
  let m := apply_writes (concat wss ++ tail_writes h0 listed) m0 in
  Forall2 (imported_as m h0) dn infos /\
  m !! commitInfoKey h0 = Some (commitInfoBytes h0 listed) /\ m !! latestVersionKey = Some (latestVersionBytes h0) /\
  (forall k, (forall i, i ∈ dn -> other_key (fst i) k) ->
    k <> commitInfoKey h0 -> k <> latestVersionKey -> m !! k = m0 !! k).
Proof.
  intros Hh HF Hnd Hns. cbv zeta.
  split_and!.
  - apply imports_hold; [done..|]. intros name k v. apply tail_not_store.
  - apply apply_writes_lookup; [apply elem_of_app; right; by left|].
    intros v [(i & q & _ & E)%(result_writes _ _ _ _ _ _ HF)|[[_ ->]%pair_equal_spec|[E _]%list_elem_of_singleton%pair_equal_spec]%elem_of_cons]%elem_of_app.
    + by apply eq_sym, rootmulti_not_store in E.
    + done.
    + by apply commitInfo_not_latest in E.
  - apply apply_writes_lookup; [apply elem_of_app; right; right; by left|].
    intros v [(i & q & _ & E)%(result_writes _ _ _ _ _ _ HF)|[[E _]%pair_equal_spec|[_ ->]%list_elem_of_singleton%pair_equal_spec]%elem_of_cons]%elem_of_app.
    + by eapply eq_sym, (proj2 (rootmulti_not_store _ _ 0)) in E.
    + by apply eq_sym, commitInfo_not_latest in E.
    + done.
  - intros k Hk H1k H2k. apply apply_writes_other. intros v [(i & q & Hi & E)%(result_writes _ _ _ _ _ _ HF)|[[E _]%pair_equal_spec|[E _]%list_elem_of_singleton%pair_equal_spec]%elem_of_cons]%elem_of_app; [|done..].
    by eapply Hk.
Qed.

(** A successful import handled the items of the stream and came to its end. *)
Lemma runImport_feed {DB SST} `{PB : Pebble DB SST} {P} `{RP : RingPinner P}
    (fs : extFS) h0 s (db : DB) ext its r rd infos d' :
  readAll (S (length (src_data s))) (newSnapReader (prefetched s) None) = (its, r, rd) ->
  runImport s db h0 ext fs = (Ret infos, d') ->
  r = Err EOF /\ exists d1, feed fs h0 its (newDriver db ext) = (Ret tt, d1) /\ finishImport h0 d1 = (Ret infos, d').
Proof.
  intros Hread. unfold runImport. rewrite importLoop_readAll, Hread. intros ([] & d1 & E1 & E2)%bind_ret.
  destruct r as [|[]| |]; try done. split; [done|]. by exists d1.
Qed.

(** What a successful import has written. *)
Lemma runImport_writes {DB SST} `{PL : PebbleLaws DB SST} {P} `{RP : RingPinner P}
    (fs : extFS) h0 s (db : DB) ext its r rd infos d' :
  readAll (S (length (src_data s))) (newSnapReader (prefetched s) None) = (its, r, rd) ->
  Forall item_fine its -> len its + 2 < 2 ^ 32 ->
  runImport s db h0 ext fs = (Ret infos, d') ->
  r = Err EOF /\ exists wss, Forall3 (store_result h0) (stores_in its) infos wss /\
    contents (b_db (d_b d')) = apply_writes (concat wss ++ tail_writes h0 infos) (contents db).
Proof.
  intros Hread Hf Hb Hrun. destruct (runImport_feed fs h0 s db ext its r rd infos d' Hread Hrun) as (-> & d1 & E1 & E2).
  split; [done|]. assert (H0 : drv_inv h0 (contents db) ([], None) (newDriver (SST := SST) db ext)).
  { split. exists []. cbn. split_and!; [constructor|by repeat constructor|done|done]. }
  destruct (feed_inv fs h0 (contents db) its _ _ _ H0 Hb Hf E1) as [H1 Hb1].
  exact (finishImport_inv h0 (contents db) _ _ _ _ H1 Hb1 E2).
Qed.

(** C1: An import that succeeds read the whole stream and built exactly what is in it,
    for a stream whose IAVL items have a version that is a non-zero int64 (an item of
    version 0 makes the importer reuse a nonce), whose store names have no slash and
    are all different, with fewer than 2^32 - 2 items, imported at a height that is an
    int64, on a database whose operations do not fail:
    each store of the stream is empty or the post-order of a well-formed tree,
    the record returned has that tree's Merkle hash, and at the end, with all the
    other stores imported after it, the database holds the tree, its fast index
    and its storage marker; the commit-info record of the height lists the
    records, the latest version is the height, and no other key has changed. *)
Theorem runImport_sound {DB SST} `{PL : PebbleLaws DB SST} {P} `{RP : RingPinner P}
    (fs : extFS) h0 s (db : DB) ext its r rd infos d' :
  readAll (S (length (src_data s))) (newSnapReader (prefetched s) None) = (its, r, rd) ->
  Forall item_fine its -> len its + 2 < 2 ^ 32 -> int64 h0 -> NoDup (map fst (stores_in its)) ->
  runImport s db h0 ext fs = (Ret infos, d') ->
  r = Err EOF /\
  let m := contents (b_db (d_b d')) in
  Forall2 (imported_as m h0) (stores_in its) infos /\
  m !! commitInfoKey h0 = Some (commitInfoBytes h0 infos) /\ m !! latestVersionKey = Some (latestVersionBytes h0) /\
  (forall k, (forall i, i ∈ stores_in its -> other_key (fst i) k) ->
    k <> commitInfoKey h0 -> k <> latestVersionKey -> m !! k = contents db !! k).
Proof.
  intros Hread Hf Hb Hh Hnd Hrun.
  destruct (runImport_writes fs h0 s db ext its r rd infos d' Hread Hf Hb Hrun) as (-> & wss & HF & ->).
  split; [done|]. by apply import_holds; [|..|apply stores_in_names].
Qed.

Lemma omap_length {A} (l : list (option A)) : (length (omap id l) <= length l)%nat.
Proof. induction l as [|[x|] l IH]; cbn; lia. Qed.

Lemma import_live {DB SST} `{PL : PebbleLaws DB SST} {P} `{RP : RingPinner P} (fs : extFS) h0 (db : DB) ext segs l :
  (forall n, mkdir_err fs n = None) -> (forall f, write_err fs f = None) ->
  omap id l = concat (map segment_items segs) -> Forall elem_ok l -> Forall segment_ok segs ->
  exists d', runImport (Source (wires l) EOF) db h0 ext fs = (Ret (concat (map segment_infos segs)), d').
Proof.
  intros Hmk Hwr Hl Hok Hseg. unfold runImport. rewrite importLoop_readAll.
  assert (Hlen : (length (omap id l) < S (length (wires l)))%nat).
  { pose proof (length_wires l). pose proof (omap_length l). lia. }
  destruct (readAll_wires (S (length (wires l))) l (newSnapReader (Source (wires l) EOF) None) eq_refl Hok Hlen) as [rd E].
  change (prefetched (Source (wires l) EOF)) with (Source (wires l) EOF). cbn [src_data]. rewrite E, Hl. unfold mbind, M_bind.
  assert (H0 : ready (SST := SST) [] (newDriver db ext)).
  { apply (ready_closed (newDriver db ext)); [by repeat constructor|done]. }
  destruct (segments_live fs h0 Hmk Hwr segs [] _ Hseg H0) as (d1 & -> & d2 & E2 & Hi & Hs).
  destruct (finishImport_closed h0 d1 d2 E2 Hi) as (d' & E3 & _). exists d'. cbn [conclude]. by rewrite E3, Hs.
Qed.

(** C2: The snapshot a node exports imports: whatever empty envelopes are interleaved,
    the stores (at most one tree each, its leaves in key order) and extensions of
    the export are taken without error and the records returned carry the trees'
    Merkle hashes, in the order of the stream. *)
Theorem runImport_complete {DB SST} `{PL : PebbleLaws DB SST} {P} `{RP : RingPinner P} (fs : extFS) h0 (db : DB) ext segs l :
  (forall n, mkdir_err fs n = None) -> (forall f, write_err fs f = None) ->
  omap id l = concat (map segment_items segs) -> Forall elem_ok l -> Forall segment_ok segs ->
  exists d', runImport (Source (wires l) EOF) db h0 ext fs = (Ret (concat (map segment_infos segs)), d').
Proof. apply import_live. Qed.

(** A stream that zlib reports as truncated is imported as if it ended there. *)
Lemma truncation_is_a_clean_end {DB SST} `{Pebble DB SST} {P} `{RP : RingPinner P} (fs : extFS) h0 (db : DB) ext data :
  runImport (Source data ErrUnexpectedEOF) db h0 ext fs = runImport (Source data EOF) db h0 ext fs.
Proof. reflexivity. Qed.

(** ** A concrete database *)

Definition above_allb (key : bytes) (ws : list write) : bool := forallb (fun kv => bytes_ltb (fst kv) key) ws.

Lemma above_allb_spec key ws : above_allb key ws = true <-> above_all key ws.
Proof.
  unfold above_allb, above_all. rewrite forallb_forall. split.
  - intros H k v Hin. by apply (H (k, v)), list_elem_of_In.
  - intros H [k v] Hin. by apply (H k v), list_elem_of_In.
Qed.

(** A map for the database, a list for the SSTable. *)
#[export] Instance map_pebble : Pebble (gmap bytes bytes) (list write) := {
  contents m := m;
  entries ws := ws;
  BatchCommit ws := modify (apply_writes ws);
  SstCreate _ m := (Ret [], m);
  SstSet k v ws := if above_allb k ws then (Ret tt, ws ++ [(k, v)]) else (Err (Errorf "keys must be in order"), ws);
  SstClose _ := Ret tt;
  Ingest ws := modify (apply_writes ws)
}.

#[export] Instance map_pebble_laws : PebbleLaws (gmap bytes bytes) (list write).
Proof.
  split; [split|..]; cbn.
  - by intros b d d' [_ <-]%ret_inj.
  - by eexists.
  - intros k v w w'. destruct (above_allb k w) eqn:E; [|done]. intros [_ <-]%ret_inj.
    split; [done|]. by apply above_allb_spec.
  - intros k v w H%above_allb_spec. rewrite H. by eexists.
  - by intros p d w d' [<- <-]%ret_inj.
  - by eexists _, _.
  - done.
  - by intros w d d' [_ <-]%ret_inj.
  - by eexists.
Qed.

Definition good_fs : extFS := mkFS (fun _ => None) (fun _ => None).

Definition sample_segments : list segment :=
  [SegStore (str "bank") (Some sample_tree); SegStore (str "gov") None; SegExt (str "wasm") 1 [str "code"]].

Definition sample_stream : list (option snapItem) := None :: map Some (concat (map segment_items sample_segments)).

Ltac by_compute := apply (bool_decide_eq_true_1 _); vm_compute; reflexivity.

Lemma sample_segments_ok : Forall segment_ok sample_segments.
Proof.
  apply Forall_cons; split; [|apply Forall_cons; split; [|by repeat constructor]].
  - split; [unfold no_slash; by_compute|]. intros u [= <-]. split_and!.
    + simpl. lia.
    + repeat constructor; simpl; lia.
    + vm_compute. reflexivity.
    + repeat constructor.
  - split; [unfold no_slash; by_compute|]. done.
Qed.

Lemma sample_stream_ok : Forall elem_ok sample_stream.
Proof.
  assert (H : forall it, item_ok it -> (len (encode_item it) <=? maxEnvelopeBytes) = true -> elem_ok (Some it))
    by (intros it Hit Hl%Z.leb_le; by split).
  repeat (apply Forall_cons; split; [first [exact I | apply H; [|vm_compute; reflexivity]]|]); [..|apply Forall_nil; exact I];
    constructor; try discriminate; unfold int64; lia.
Qed.

Lemma runImport_complete_witness :
  exists d', runImport (P := counter) (Source (wires sample_stream) EOF) ∅ 7 true good_fs
    = (Ret (concat (map segment_infos sample_segments)), d').
Proof.
  apply (runImport_complete good_fs 7 ∅ true sample_segments sample_stream).
  - done.
  - done.
  - reflexivity.
  - exact sample_stream_ok.
  - exact sample_segments_ok.
Defined.

Lemma runImport_sound_witness :
  exists infos d', runImport (P := counter) (Source (wires sample_stream) EOF) (∅ : gmap bytes bytes) 7 true good_fs = (Ret infos, d') /\
    contents (b_db (d_b d')) !! latestVersionKey = Some (latestVersionBytes 7) /\
    Forall2 (imported_as (contents (b_db (d_b d'))) 7)
      [(str "bank", map tnode (subtrees sample_tree)); (str "gov", [])] infos.
Proof.
  destruct (readAll (P := counter) (S (length (wires sample_stream))) (newSnapReader (Source (wires sample_stream) EOF) None))
    as [[its r] rd] eqn:E1.
  assert (Hi : its = concat (map segment_items sample_segments)).
  { change its with (fst (fst (its, r, rd))). rewrite <- E1. vm_compute. reflexivity. }
  destruct (runImport (P := counter) (Source (wires sample_stream) EOF) (∅ : gmap bytes bytes) 7 true good_fs) as [o d'] eqn:E2.
  assert (Ho : match o with Ret _ => True | _ => False end).
  { change o with (fst (o, d')). rewrite <- E2. vm_compute. exact I. }
  destruct o as [infos| | |]; try destruct Ho. exists infos, d'.
  destruct (runImport_sound good_fs 7 (Source (wires sample_stream) EOF) ∅ true its r rd infos d') as (_ & H1 & _ & H2 & _).
  - exact E1.
  - rewrite Hi. repeat (apply Forall_cons; split); [..|apply Forall_nil; exact I];
      (split; intros Ht; try discriminate Ht; first [unfold no_slash; by_compute | split; cbn; unfold int64; lia]).
  - rewrite Hi. vm_compute. reflexivity.
  - unfold int64. lia.
  - rewrite Hi. by_compute.
  - exact E2.
  - rewrite Hi in H1. split_and!; [reflexivity|exact H2|exact H1].
Defined.
