(* ===== verification/Segment.v ===== *)
(** * One store of a parallel import (parallel.go, processStoreSegment)

    A worker reads the items of its store through a ring reader, feeds them to
    the importer of [Importer] and hands filled batches to the store's
    [asyncBatchWriter].  A run of it never looks at the database, so it is a
    function of the bytes the reader delivers; its batches are collected in a
    [queue], which stands where [RunImport] has the database.  [Parallel] plays
    those batches against the shared database.  This is the synchronous branch;
    what the wave-parallel branch does with the same nodes is in [ImporterPar].

    The main lemmas: whatever the ring reader delivers of a snapshot, a run that
    succeeds has processed exactly the items of its store, and its writes are
    those of one store of the serial import. *)

From S2P Require Import Prelude Sha256 Varint IavlEnc CommitInfo Importer SnapProto Index RunImport.

(** ** What a ring reader delivers *)

(** A reader that starts at [start] of the stream and learns at some point that its
    store ends at [stop]: the bytes it gives go at least that far if it ends
    cleanly, and further if it read ahead before it learned (the reader asks for
    a whole buffer at a time); any other end is an error of the ring. *)
Inductive delivered (stream : bytes) (start stop : Z) : source -> Prop :=
| del_end n : stop <= start + Z.of_nat n ->
    delivered stream start stop (Source (take n (drop (Z.to_nat start) stream)) EOF)
| del_fail d e : d `prefix_of` drop (Z.to_nat start) stream -> e <> EOF ->
    delivered stream start stop (Source d e).

(** ** The batches of a segment *)

(** The batches given to [submit] so far, in order.  [DB] is the database they are
    meant for. *)
Record queue (DB : Type) := Queue { sent : list (list write) }.
Arguments Queue {DB} sent.
Arguments sent {DB} q.

Section Segment.
Context {DB SST : Type} `{PB : Pebble DB SST} {P : Type} `{RP : RingPinner P}.

(** [submit] takes the batch; the error it may report is that of a commit, which
    [Parallel] adds. *)
Definition submit (b : list write) : M (queue DB) unit := modify (fun q => Queue (sent q ++ [b])).

(** Opening and ingesting SSTables is done on the real database. *)
#[local] Instance queue_pebble : Pebble (queue DB) SST := {
  contents q := apply_writes (concat (sent q)) ∅;
  entries := entries (DB := DB);
  BatchCommit := submit;
  SstCreate _ := fail (Errorf "not a database");
  SstSet := SstSet (DB := DB);
  SstClose := SstClose (DB := DB);
  Ingest _ := fail (Errorf "not a database")
}.

Definition seg_sink (fastIngest : bool) : sink (bstate (queue DB) SST) :=
  mkSink bset (if fastIngest then ing_set else bset).

Fixpoint syncLoop (fuel : nat) (k : sink (bstate (queue DB) SST)) (name : bytes) (rd : snapReader P)
    (first : bool) (items : Z) : M (storeImporter * bstate (queue DB) SST) Z :=
  match fuel with
  | O => fun st => (NoFuel, st)
  | S fuel =>
      match Next rd with
      | (Err EOF, _) => mret items
      | (Err e, _) => fail (Wrapf "read item" e)
      | (Panic m, _) => panic m
      | (NoFuel, _) => fun st => (NoFuel, st)
      | (Ret item, rd) =>
          if Type_ item =? itemTypeStore then
            if negb first then mret items
            else if negb (bool_decide (StoreName item = name)) then fail (Errorf "expected StoreItem of the store")
            else syncLoop fuel k name rd false (u64 (items + 1))
          else if Type_ item =? itemTypeIAVL then
            if first then fail (Errorf "first item not StoreItem") else
            _ ← wrap_err "add node" (addNode k (IAVLHeight item) (IAVLVersion item)
                  (default [] (IAVLKey item)) (default [] (IAVLValue item)));
            syncLoop fuel k name rd false (u64 (items + 1))
          else if (Type_ item =? itemTypeExtMeta) || (Type_ item =? itemTypeExtPayload) then mret items
          else fail (Errorf "unexpected item type in store segment")
      end
  end.

(** From the opened SSTable to the last [flush]: the root hash and the number of items. *)
Definition segment_steps (fastIngest : bool) (name : bytes) (src : source) (p : option P)
    : M (storeImporter * bstate (queue DB) SST) (bytes * Z) :=
  let k := seg_sink fastIngest in
  items ← syncLoop (S (length (src_data src))) k name (newSnapReader src p) true 0;
  hash ← wrap_err "finalize" (finalize k);
  _ ← out (wrap_err "flush final" flush);
  mret (hash, items).

Definition segment_body (fastIngest : bool) (name : bytes) (height : Z) (src : source) (p : option P)
    (ing : fastIngester SST) : outcome (bytes * Z) * list (list write) * fastIngester SST :=
  let '(r, (_, b)) := segment_steps fastIngest name src p
                        (newStoreImporter name height, mkB (Queue []) [] 0 ing) in
  (r, sent (b_db b), b_ing b).
End Segment.

(** ** Reading what was delivered *)

Section Decode.
Context {P : Type} `{RP : RingPinner P}.
Abbreviation rdr := (SnapProto.mkReader (P := P)).

Lemma Next_wire it rest e p q : elem_ok (Some it) ->
  exists p' q', Next (rdr (Source (wire (Some it) ++ rest) e) p q) = (Ret it, rdr (Source rest e) p' q').
Proof using Type.
  intros H. destruct (Next_unfold (rdr (Source (wire (Some it) ++ rest) e) p q)) as [q1 ->].
  cbn [br src_data]. rewrite Next_loop_item by done. by eexists _, _.
Qed.

Lemma Next_nothing e p q :
  exists x rd, Next (rdr (Source [] e) p q) = (Err x, rd) /\ (e = EOF <-> x = EOF).
Proof using Type.
  destruct (Next_unfold (rdr (Source [] e) p q)) as [q1 ->]. cbn [br src_data length Next_loop].
  unfold buffered, zoom. cbn [br]. destruct (ReadUvarint (Source [] e)) as [r st] eqn:E.
  assert (H : r = Err e).
  { with_strategy transparent [ReadUvarint] cbn in E. by destruct e; injection E as <- _. }
  subst r. destruct e; by eexists _, _.
Qed.

Lemma ReadFull_short n d e : len d < n -> exists x st, ReadFull n (Source d e) = (Err x, st).
Proof using Type.
  intros H. unfold ReadFull. cbn [src_data]. rewrite (proj2 (Z.leb_gt _ _)) by done. by eexists _, _.
Qed.

(** An envelope that is cut short is an error, and never a clean end. *)
Lemma Next_cut it k e p q : elem_ok (Some it) -> (0 < k < length (wire (Some it)))%nat ->
  exists x rd, Next (rdr (Source (take k (wire (Some it))) e) p q) = (Err x, rd) /\ x <> EOF.
Proof using Type.
  intros [Hit Hmax] Hk. set (d := take k (wire (Some it))).
  destruct (Next_unfold (rdr (Source d e) p q)) as [q1 ->]. cbn [br src_data Next_loop].
  unfold buffered, zoom, wrap_err, lift, modify, mbind, M_bind. cbn [br pinner lastItemBytes].
  pose proof (encode_item_pos it Hit) as Hpos. unfold maxEnvelopeBytes in Hmax.
  assert (Ed : d ++ drop k (wire (Some it)) = PutUvarint (len (encode_item it)) ++ encode_item it) by apply take_drop.
  assert (Hd : d <> []) by (intros E; apply (f_equal length) in E; unfold d in E; rewrite length_take, length_nil in E; lia).
  destruct (ReadUvarint (Source d e)) as [r [d1 e1]] eqn:E. pose proof (ReadUvarint_ends _ _ _ _ E) as Hend.
  destruct r as [v|er| |]; try done.
  - apply (ReadUvarint_app _ _ _ _ _ (drop k (wire (Some it)))) in E as [-> E]. rewrite Ed, ReadUvarint_PutUvarint in E by lia.
    apply ret_inj in E as [<- [= E]].
    rewrite (proj2 (Z.eqb_neq _ _)) by lia. unfold maxEnvelopeBytes. rewrite (proj2 (Z.ltb_ge _ _)) by lia.
    assert (Hl : len d1 < len (encode_item it)).
    { rewrite E, len_app. unfold len. rewrite (length_drop (wire (Some it))). lia. }
    destruct (ReadFull_short _ _ e Hl) as (x & st & ER). cbn [br]. rewrite ER. by eexists _, _.
  - destruct er; [by destruct Hend|by eexists _, _..].
Qed.

(** A stream that goes on with an envelope, cut anywhere: the envelope is read, or
    the cut is inside it, which is a clean end only if nothing of it is there. *)
Lemma Next_prefix it more d e p q : elem_ok (Some it) -> d `prefix_of` wire (Some it) ++ more ->
  (exists d' p' q', d = wire (Some it) ++ d' /\ d' `prefix_of` more /\
     Next (rdr (Source d e) p q) = (Ret it, rdr (Source d' e) p' q')) \/
  ((length d < length (wire (Some it)))%nat /\
   exists x rd, Next (rdr (Source d e) p q) = (Err x, rd) /\ (x = EOF -> e = EOF)).
Proof using Type.
  intros Hit [r E]. destruct (Nat.le_gt_cases (length (wire (Some it))) (length d)) as [Hl|Hl].
  - left. assert (Ed : d = wire (Some it) ++ drop (length (wire (Some it))) d).
    { rewrite <- (take_app_length (wire (Some it)) more) at 1. rewrite E, take_app_le by done. by rewrite take_drop. }
    set (d' := drop _ d) in Ed. destruct (Next_wire it d' e p q Hit) as (p' & q' & EN).
    exists d', p', q'. rewrite Ed. split_and!; [done| |done].
    rewrite Ed, <- app_assoc in E. apply app_inv_head in E. by exists r.
  - right. split; [done|]. destruct d as [|b d0] eqn:Ed.
    + destruct (Next_nothing e p q) as (x & rd & EN & Hx). exists x, rd. split; [done|]. apply Hx.
    + rewrite <- Ed in *. assert (Et : d = take (length d) (wire (Some it))).
      { transitivity (take (length d) (wire (Some it) ++ more)); [|apply take_app_le; lia].
        by rewrite E, take_app_length. }
      destruct (Next_cut it (length d) e p q Hit) as (x & rd & EN & Hx).
      { rewrite Ed in Hl |- *. cbn [length] in *. lia. }
      rewrite <- Et in EN. exists x, rd. by split.
Qed.
End Decode.

(** ** A run on what was delivered *)

Section Runs.
Context {DB SST : Type} `{PB : Pebble DB SST} {P : Type} `{RP : RingPinner P}.
Context (k : sink (bstate (queue DB) SST)) (name : bytes) (e : goerr).
Abbreviation rdr := (SnapProto.mkReader (P := P)).
Abbreviation loop := (syncLoop (DB := DB) (SST := SST)).

(** What may follow a store: another one, the extensions, or nothing. *)
Definition boundary (rest : list snapItem) : Prop :=
  match rest with
  | [] => True
  | it :: _ => item_small it /\ Type_ it <> itemTypeIAVL
  end.

Lemma segment_boundary rest fuel d p q n st n' st' : boundary rest -> d `prefix_of` item_wires rest ->
  loop fuel k name (rdr (Source d e) p q) false n st = (Ret n', st') -> n' = n /\ st' = st.
Proof using Type.
  intros Hb Hd. destruct fuel as [|fuel]; [done|]. cbn [syncLoop].
  assert (Hend : forall x rd, Next (rdr (Source d e) p q) = (Err x, rd) ->
    (match Next (rdr (Source d e) p q) with
     | (Err EOF, _) => mret n
     | (Err e, _) => fail (Wrapf "read item" e)
     | _ => fail EOF
     end) st = (Ret n', st') -> n' = n /\ st' = st).
  { intros x rd ->. destruct x; intros EE; try done. by apply ret_inj in EE as [-> ->]. }
  destruct rest as [|it rest].
  - apply prefix_nil_inv in Hd as ->. destruct (Next_nothing e p q) as (x & rd & EN & _).
    intros EE. apply (Hend x rd EN). rewrite EN in *. by destruct x.
  - rewrite item_wires_cons in Hd. destruct Hb as [Hit Hty].
    destruct (Next_prefix it _ d e p q Hit Hd) as [(d' & p' & q' & _ & _ & EN)|(_ & x & rd & EN & _)].
    + rewrite EN. rewrite (proj2 (Z.eqb_neq _ _) Hty). cbn [negb].
      destruct (Type_ it =? itemTypeStore); [|destruct (_ || _); [|done]];
        intros EE; by apply ret_inj in EE as [-> ->].
    + intros EE. apply (Hend x rd EN). rewrite EN in *. by destruct x.
Qed.

(** The nodes of the store, whatever the cut, as long as a clean end is not inside it. *)
Lemma segment_nodes its : forall rest fuel d p q n st n' st', Forall iavl_ok its -> boundary rest ->
  d `prefix_of` item_wires its ++ item_wires rest -> (e = EOF -> (length (item_wires its) <= length d)%nat) ->
  0 <= n -> n + len its < 2 ^ 64 ->
  loop fuel k name (rdr (Source d e) p q) false n st = (Ret n', st') ->
  addNodes k (map item_node its) st = (Ret tt, st') /\ n' = n + len its.
Proof using Type.
  induction its as [|it its IH]; intros rest fuel d p q n st n' st' Hits Hb Hd He Hn Hbd E.
  - destruct (segment_boundary rest fuel d p q n st n' st' Hb Hd E) as [-> ->]. split; [done|]. rewrite len_nil. lia.
  - apply Forall_cons in Hits as [[Hit Hty] Hits]. rewrite item_wires_cons, <- app_assoc in Hd. rewrite len_cons in *.
    pose proof (len_nonneg its). destruct fuel as [|fuel]; [done|]. cbn [syncLoop] in E.
    destruct (Next_prefix it _ d e p q Hit Hd) as [(d' & p' & q' & -> & Hd' & EN)|(Hl & x & rd & EN & Hx)].
    + rewrite EN, Hty in E. cbn [Z.eqb Pos.eqb itemTypeIAVL itemTypeStore] in E. cbn [map addNodes].
      unfold mbind, M_bind, wrap_err in E |- *. cbn [item_node nd_height nd_version nd_key nd_value].
      destruct (addNode k _ _ _ _ st) as [[[]| | |] st1]; try done. rewrite u64_small in E by lia.
      apply (IH rest) in E as [-> ->]; [split; [done|lia]|done|done|done| |lia|lia].
      intros Ee. specialize (He Ee). rewrite item_wires_cons, !length_app in He. lia.
    + exfalso. rewrite EN in E. destruct x; try done.
      specialize (He (Hx eq_refl)). rewrite item_wires_cons, length_app in He. lia.
Qed.

Lemma segment_store its rest fuel d p q st n st' : item_small (store_item name) -> Forall iavl_ok its -> boundary rest ->
  d `prefix_of` item_wires (seg_items (name, its)) ++ item_wires rest ->
  (e = EOF -> (length (item_wires (seg_items (name, its))) <= length d)%nat) -> len its + 1 < 2 ^ 64 ->
  loop fuel k name (rdr (Source d e) p q) true 0 st = (Ret n, st') ->
  addNodes k (map item_node its) st = (Ret tt, st') /\ n = 1 + len its.
Proof using Type.
  intros Hst Hits Hb Hd He Hlen E. unfold seg_items in *. cbn [fst snd] in *. rewrite item_wires_cons, <- app_assoc in Hd.
  pose proof (len_nonneg its). destruct fuel as [|fuel]; [done|]. cbn [syncLoop] in E.
  destruct (Next_prefix (store_item name) _ d e p q Hst Hd) as [(d' & p' & q' & -> & Hd' & EN)|(Hl & x & rd & EN & Hx)].
  - rewrite EN in E. cbn -[len u64 bool_decide] in E. rewrite bool_decide_true in E by done. cbn [negb] in E.
    change (u64 (0 + 1)) with 1 in E. apply (segment_nodes its rest) in E; [exact E|done|done|done| |lia|lia].
    intros Ee. specialize (He Ee). rewrite item_wires_cons, !length_app in He. lia.
  - exfalso. rewrite EN in E. destruct x; try done.
    specialize (He (Hx eq_refl)). rewrite item_wires_cons, length_app in He. lia.
Qed.
End Runs.

(** ** What a run writes *)

#[local] Existing Instance queue_pebble.

#[local] Instance queue_batch {DB SST} `{BL : BatchLaws DB SST} : BatchLaws (queue DB) SST.
Proof.
  split.
  - intros b d d' [_ <-]%ret_inj. cbn. rewrite concat_app, apply_writes_app. cbn. by rewrite app_nil_r.
  - intros b d. by eexists.
  - apply (sst_sound (DB := DB)).
  - apply (sst_live (DB := DB)).
Qed.

Section Results.
Context {DB SST : Type} `{BL : BatchLaws DB SST}.
Implicit Types (b : bstate (queue DB) SST).

(** Without an SSTable every write goes to the batch. *)
Record plain_inv b : Prop := {
  pl_batch : batch_ok b;
  pl_closed : curWriter (b_ing b) = None
}.

Lemma bset_plain key v b : plain_inv b -> key <> [] ->
  exists b', bset key v b = (Ret tt, b') /\ plain_inv b' /\ db_view b' = <[key := v]> (db_view b).
Proof using BL.
  intros [H1 H2] Hk. destruct (bset_spec key v b H1 Hk) as (b' & E & H1' & V & Hi & _).
  exists b'. split_and!; [done| |done]. split; [done|by rewrite Hi].
Qed.

#[local] Program Instance plain_ImportSink name : ImportSink (seg_sink (DB := DB) (SST := SST) false) (storePrefix name) := {
  view := db_view; sink_ok := plain_inv; fast_ok _ _ := True
}.
Next Obligation.
  intros name key v b b' Hb [[r ->] _] E. change (bset (storePrefix name ++ r) v b = (Ret tt, b')) in E.
  destruct (bset_plain _ v b Hb (storePrefix_nonempty name r)) as (b1 & E1 & H1 & V1). rewrite E1 in E.
  by apply ret_inj in E as [_ <-].
Qed.
Next Obligation.
  intros name key v b Hb [[r ->] _]. destruct (bset_plain _ v b Hb (storePrefix_nonempty name r)) as (b1 & E1 & _).
  by exists b1.
Qed.
Next Obligation.
  intros name u v b b' Hb E. change (bset (fastDBKeyInto [] (storePrefix name) u) v b = (Ret tt, b')) in E.
  destruct (bset_plain (fastDBKeyInto [] (storePrefix name) u) v b Hb) as (b1 & E1 & H1 & V1); [done|].
  rewrite E1 in E. by apply ret_inj in E as [_ <-].
Qed.
Next Obligation.
  intros name u v b Hb _. destruct (bset_plain (fastDBKeyInto [] (storePrefix name) u) v b Hb) as (b1 & E1 & _); [done|]. by exists b1.
Qed.

(** The SSTable of a segment: open for [name] when there is one at all. *)
Definition ing_open (fastIngest : bool) (name : bytes) (i : fastIngester SST) : Prop :=
  if fastIngest then exists w, curWriter i = Some w /\ ing_name i = name /\ curCount i = len (entries (DB := DB) w)
  else curWriter i = None.

Definition ing_writes (i : fastIngester SST) : list write := from_option (entries (DB := DB)) [] (curWriter i).

Definition seg_inv (fastIngest : bool) (name : bytes) b : Prop :=
  if fastIngest then sink_inv name b else plain_inv b.
Definition seg_view (fastIngest : bool) b : gmap bytes bytes :=
  if fastIngest then store_view b else db_view b.

(** What a sink that follows the importer's contract holds after a run. *)
Lemma run_result {W} (k : sink W) name `{SL : !ImportSink k (storePrefix name)} h0 ns w h s w' :
  sink_ok w -> Forall node_fine ns -> len ns + 2 < 2 ^ 32 -> run_store k name h0 ns w = (Ret h, (s, w')) ->
  sink_ok w' /\ exists ws, store_result h0 (name, ns) (mkStoreInfo name h) ws /\ view w' = apply_writes ws (view w).
Proof using Type.
  intros Hs Hv Hb E.
  assert (Hv0 : Forall (fun n => nd_version n <> 0) ns) by (eapply Forall_impl; [exact Hv|]; by intros n [? _]).
  destruct (run_store_sound k name h0 w ns h s w' Hs Hv0 Hb E) as [H1 [(-> & -> & V)|(t & Hwf & Hns & Hnc & -> & V)]];
    (split; [exact H1|]); eexists; (split; [|exact V]).
  - constructor.
  - constructor; try done; [by eapply nodes_versions|]. apply Forall2_length in Hns. unfold len in *. lia.
Qed.

Lemma seg_run_result fast name h0 ns b h s b' : no_slash name -> seg_inv fast name b -> Forall node_fine ns ->
  len ns + 2 < 2 ^ 32 -> run_store (seg_sink fast) name h0 ns b = (Ret h, (s, b')) ->
  seg_inv fast name b' /\ exists ws, store_result h0 (name, ns) (mkStoreInfo name h) ws /\
    seg_view fast b' = apply_writes ws (seg_view fast b).
Proof using BL.
  intros Hn Hs Hv Hb E. destruct fast.
  - exact (run_result _ name (SL := driver_ImportSink (DB := queue DB) name Hn) h0 ns b h s b' Hs Hv Hb E).
  - exact (run_result _ name (SL := plain_ImportSink name) h0 ns b h s b' Hs Hv Hb E).
Qed.

(** The last flush leaves nothing in the batch. *)
Lemma flush_empties b : batch_ok b -> exists b', flush b = (Ret tt, b') /\ b_batch b' = [] /\
  db_view b' = db_view b /\ b_ing b' = b_ing b.
Proof using BL.
  intros Hb. destruct (flush_spec b Hb) as (b' & E & H1 & V & Hi & Hbt). exists b'. split_and!; try done.
  destruct Hbt as [|Hsame]; [done|]. unfold flush, get, mbind, M_bind in E. destruct (Z.eqb_spec (batchBytes b) 0) as [Hz|Hz].
  - apply ret_inj in E as [_ <-]. apply wsize_zero; [apply H1|]. destruct H1 as [_ <-]. lia.
  - cbn in E. by apply ret_inj in E as [_ <-].
Qed.
End Results.

(** ** The result of a segment *)

(** Where a store lies in the stream and what it holds. *)
Record store_at (stream : bytes) (start stop : Z) (name : bytes) (its rest : list snapItem) : Prop := {
  sa_range : drop (Z.to_nat start) stream = item_wires (seg_items (name, its)) ++ item_wires rest;
  sa_stop : stop = start + len (item_wires (seg_items (name, its)));
  sa_store : seg_ok (name, its);
  sa_rest : boundary rest;
  sa_name : no_slash name;
  sa_fine : Forall node_fine (map item_node its);
  sa_small : len its + 2 < 2 ^ 32
}.

Lemma delivered_prefix stream start stop d e name its rest : store_at stream start stop name its rest ->
  delivered stream start stop (Source d e) ->
  d `prefix_of` item_wires (seg_items (name, its)) ++ item_wires rest /\
  (e = EOF -> (length (item_wires (seg_items (name, its))) <= length d)%nat).
Proof.
  intros [Hr Hs _ _ _ _ _]. inversion 1 as [n Hn Ed|d' e' Hd He Ed]; subst.
  - rewrite Hr. split; [eexists; symmetry; apply take_drop|]. intros _. rewrite length_take, length_app. unfold len in *. lia.
  - rewrite Hr in Hd. by split.
Qed.

Section Body.
Context {DB SST : Type} `{BL : BatchLaws DB SST} {P : Type} `{RP : RingPinner P}.

Lemma segment_steps_sound fast name h0 src (p : option P) its rest stream start stop b h n s b' :
  store_at stream start stop name its rest -> delivered stream start stop src -> seg_inv fast name b ->
  segment_steps fast name src p (newStoreImporter name h0, b) = (Ret (h, n), (s, b')) ->
  n = 1 + len its /\ b_batch b' = [] /\ (exists b1, seg_inv fast name b1 /\ b_ing b' = b_ing b1) /\
  exists ws, store_result h0 (name, map item_node its) (mkStoreInfo name h) ws /\
    seg_view fast b' = apply_writes ws (seg_view fast b).
Proof using BL.
  intros Hat Hdel Hb E. destruct src as [d e].
  destruct (delivered_prefix _ _ _ _ _ _ _ _ Hat Hdel) as [Hd He].
  destruct Hat as [Hr Hs [Hst Hits] Hrest Hname Hfine Hsmall]. cbn [fst snd] in *.
  unfold segment_steps in E. unfold mbind, M_bind, wrap_err in E. unfold newSnapReader in E.
  destruct (syncLoop _ _ _ _ _ _ _) as [[n1| | |] st1] eqn:E1; try done.
  apply (segment_store (seg_sink fast) name e its rest) in E1 as [E1 ->]; [|done|done|done|done|done|lia].
  destruct (finalize _ st1) as [[h1| | |] [s2 b2]] eqn:E2; try done. unfold out in E. cbn [fst snd] in E.
  assert (Erun : run_store (seg_sink fast) name h0 (map item_node its) b = (Ret h1, (s2, b2))).
  { unfold run_store, mbind, M_bind. by rewrite E1. }
  destruct (seg_run_result fast name h0 _ b h1 s2 b2 Hname Hb Hfine ltac:(by rewrite len_map) Erun) as (Hinv & ws & Hres & V).
  assert (Hbo : batch_ok b2) by (destruct fast; by destruct Hinv).
  destruct (flush_empties b2 Hbo) as (b3 & E3 & Hemp & V3 & Hi). rewrite E3 in E.
  apply ret_inj in E as [[= -> <-] [= <- <-]]. split_and!; [done|done|by exists b2|].
  exists ws. split; [done|]. rewrite <- V. destruct fast; cbn [seg_view] in *; [|done].
  unfold store_view, sst_writes. by rewrite V3, Hi.
Qed.

Lemma segment_body_sound fast name h0 src (p : option P) its rest stream start stop ing h n bs ing' :
  store_at stream start stop name its rest -> delivered stream start stop src ->
  ing_open fast name ing -> ing_writes ing = [] ->
  segment_body fast name h0 src p ing = (Ret (h, n), bs, ing') ->
  n = 1 + len its /\ ing_open fast name ing' /\
  exists ws, store_result h0 (name, map item_node its) (mkStoreInfo name h) ws /\
    apply_writes (concat bs ++ ing_writes ing') ∅ = apply_writes ws ∅.
Proof using BL.
  intros Hat Hdel Hop Hempty E. unfold segment_body in E.
  destruct (segment_steps _ _ _ _ _) as [r [s b']] eqn:E1.
  injection E as -> <- <-. assert (Hb : seg_inv fast name (mkB (Queue []) [] 0 ing)).
  { destruct fast; cbn in *.
    - destruct Hop as (w & Hw & Hn & Hc). unfold ing_writes in Hempty. rewrite Hw in Hempty. cbn in Hempty.
      split; [by repeat constructor|constructor|]. exists w. cbn. rewrite Hempty. split_and!; try done.
      by rewrite Hc, Hempty.
    - split; [by repeat constructor|done]. }
  eapply segment_steps_sound in E1 as (-> & Hemp & (b1 & Hb1 & Hi) & ws & Hres & V); [|done..].
  split; [done|]. split.
  - destruct fast; cbn in *.
    + destruct Hb1 as [_ _ (w & Hw & Hn & Hc & _)]. exists w. by rewrite Hi, Hw.
    + destruct Hb1 as [_ Hw]. by rewrite Hi.
  - exists ws. split; [done|]. destruct fast; cbn [seg_view] in V; unfold store_view, db_view, sst_writes, ing_writes in *; cbn in V.
    + rewrite Hemp in V. cbn in V. rewrite apply_writes_app. rewrite V. by rewrite Hempty.
    + destruct Hb1 as [_ Hw]. rewrite Hi, Hw. cbn. rewrite app_nil_r. rewrite Hemp in V. exact V.
Qed.
End Body.
