(* ===== verification/Parallel.v ===== *)
(** * The parallel import (internal/snapshotimport/parallel.go)

    Stage 1 scans the stream and hands every store to stage 2 as soon as it opens;
    [numWorkers] workers import the stores side by side, each with a goroutine that
    commits its batches; a collector gathers the results; when both stages are
    through, the main goroutine sorts the records by name, extracts the extensions
    (stage 3) and writes the rootmulti records.

    A step of the system is what happens between two points where another
    goroutine can look: a send or receive on a channel, an operation of the
    database, the end of a goroutine.  What the ring readers deliver is chosen when
    a store is taken, among all that [delivered] allows. *)

From S2P Require Import Prelude Sha256 Varint IavlEnc CommitInfo Importer SnapProto ChunkRing Index RunImport Segment.

(** ** Workers *)

(** [asyncBatchWriter]: its channel of two batches and the batch being committed. *)
Record asyncBatchWriter := mkWriter {
  aw_ch : list (list write);
  aw_cur : option (list write);
  aw_err : option goerr
}.

Definition newAsyncBatchWriter : asyncBatchWriter := mkWriter [] None None.

(** [workerOut]: the record of a store, with its number of items, or an error. *)
Abbreviation workerOut := (StoreInfo * Z + goerr)%type.

(** Where a worker is: waiting for a store; about to open its SSTable; submitting a
    batch; looking at the writer's error after that; in [drain]; ingesting; sending
    its result; gone; or stopped by a panic, which ends the program. *)
Inductive wpc : Type :=
| WTake
| WOpen (src : source)
| WSubmit (todo : list (list write)) (r : outcome (bytes * Z))
| WCheck (todo : list (list write)) (r : outcome (bytes * Z))
| WDrain (r : outcome (bytes * Z))
| WIngest (hash : bytes) (items : Z)
| WSend (r : workerOut)
| WExit
| WCrash.

Record worker (SST : Type) := mkWorker {
  wk_pc : wpc;
  wk_name : bytes;
  wk_ing : fastIngester SST;
  wk_writer : asyncBatchWriter
}.
Arguments mkWorker {SST}.
Arguments wk_pc {SST}.
Arguments wk_name {SST}.
Arguments wk_ing {SST}.
Arguments wk_writer {SST}.

Definition set_pc {SST} pc (w : worker SST) : worker SST := mkWorker pc (wk_name w) (wk_ing w) (wk_writer w).
Definition set_writer {SST} wr (w : worker SST) : worker SST := mkWorker (wk_pc w) (wk_name w) (wk_ing w) wr.
Definition set_wing {SST} pc i (w : worker SST) : worker SST := mkWorker pc (wk_name w) i (wk_writer w).

Section System.
Context {DB SST : Type} `{PB : Pebble DB SST} {P : Type} `{RP : RingPinner P}.
(** [fast] is the FastIngest option; [p] what the readers pin through. *)
Context (fast : bool) (h0 : Z) (p : option P).

Definition openSegment (name : bytes) : M (bstate DB SST) unit :=
  if fast then wrap_err "open fast SSTable" (openStore name) else mret tt.

Definition ingestSegment (name : bytes) : M (bstate DB SST) unit :=
  if fast then wrap_err "ingest fast" (ingestStore name) else mret tt.

(** The worker's next action on its own.  A segment that fails still submits the
    batches it filled, and its deferred [drain] waits for them.  The error of a
    commit is reported as the writer made it: what the code wraps around it on the
    way out of [set] depends on where in [addNode] the batch filled. *)
Definition main_next (w : worker SST) (db : DB) : option (worker SST * DB) :=
  match wk_pc w with
  | WOpen src =>
      let '(r, b) := openSegment (wk_name w) (mkB db [] 0 (wk_ing w)) in
      match r with
      | Ret _ =>
          let '(r, bs, ing) := segment_body (DB := DB) fast (wk_name w) h0 src p (b_ing b) in
          Some (set_wing (WSubmit bs r) ing w, b_db b)
      | Err e => Some (set_wing (WDrain (Err e)) (b_ing b) w, b_db b)
      | _ => Some (set_pc WCrash w, b_db b)
      end
  | WSubmit (bt :: todo) r =>
      let wr := wk_writer w in
      if 2 <=? len (aw_ch wr) then None else
      Some (set_writer (mkWriter (aw_ch wr ++ [bt]) (aw_cur wr) (aw_err wr)) (set_pc (WCheck todo r) w), db)
  | WSubmit [] r =>
      match r with
      | Ret _ | Err _ => Some (set_pc (WDrain r) w, db)
      | _ => Some (set_pc WCrash w, db)
      end
  | WCheck todo r =>
      match aw_err (wk_writer w) with
      | Some e => Some (set_pc (WDrain (Err e)) w, db)
      | None => Some (set_pc (WSubmit todo r) w, db)
      end
  | WDrain r =>
      match aw_ch (wk_writer w), aw_cur (wk_writer w) with
      | [], None =>
          match r, aw_err (wk_writer w) with
          | Ret (hash, items), None => Some (set_pc (WIngest hash items) w, db)
          | Ret _, Some e => Some (set_pc (WSend (inr (Wrapf "store" (Wrapf "drain async writer" e)))) w, db)
          | Err e, _ => Some (set_pc (WSend (inr (Wrapf "store" e))) w, db)
          | _, _ => Some (set_pc WCrash w, db)
          end
      | _, _ => None
      end
  | WIngest hash items =>
      let '(r, b) := ingestSegment (wk_name w) (mkB db [] 0 (wk_ing w)) in
      match r with
      | Ret _ => Some (set_wing (WSend (inl (mkStoreInfo (wk_name w) hash, items))) (b_ing b) w, b_db b)
      | Err e => Some (set_wing (WSend (inr (Wrapf "store" e))) (b_ing b) w, b_db b)
      | _ => Some (set_pc WCrash w, b_db b)
      end
  | _ => None
  end.

(** The goroutine of [asyncBatchWriter.run]: take a batch, commit it. *)
Definition writer_next (w : worker SST) (db : DB) : option (worker SST * DB) :=
  let wr := wk_writer w in
  match aw_cur wr, aw_ch wr with
  | Some bt, _ =>
      let '(r, db) := BatchCommit bt db in
      match r with
      | Ret _ => Some (set_writer (mkWriter (aw_ch wr) None (aw_err wr)) w, db)
      | Err e =>
          let err := match aw_err wr with None => Some (Wrapf "async batch commit" e) | Some e => Some e end in
          Some (set_writer (mkWriter (aw_ch wr) None err) w, db)
      | _ => Some (set_pc WCrash w, db)
      end
  | None, bt :: rest => Some (set_writer (mkWriter rest (Some bt) (aw_err wr)) w, db)
  | None, [] => None
  end.

(** ** Stage 3 and the end *)

Definition stage3Item (fs : extFS) (item : snapItem) : M (driver DB SST) unit :=
  if Type_ item =? itemTypeExtMeta then openMeta fs (ExtName item) (ExtFormat item)
  else if Type_ item =? itemTypeExtPayload then writePayload fs (default [] (ExtPayload item))
  else fail (Errorf "unexpected item type in extension tail").

Fixpoint stage3Loop (fuel : nat) (fs : extFS) (rd : snapReader P) : M (driver DB SST) unit :=
  match fuel with
  | O => fun d => (NoFuel, d)
  | S fuel =>
      match Next rd with
      | (Err EOF, _) => mret tt
      | (Err e, _) => fail (Wrapf "read ext item" e)
      | (Panic m, _) => panic m
      | (NoFuel, _) => fun d => (NoFuel, d)
      | (Ret item, rd) =>
          _ ← stage3Item fs item; stage3Loop fuel fs rd
      end
  end.

Definition stage3ExtensionsFromRing (fs : extFS) (src : source) : M (driver DB SST) unit :=
  stage3Loop (S (length (src_data src))) fs (newSnapReader src p).

(** [sort.SliceStable] by name. *)
Definition sortStores (stores : list StoreInfo) : list StoreInfo := merge_sort name_le stores.

(** What the main goroutine does once stage 2 has returned and stage 1 is through.
    The reader of stage 3 delivers [src]; [None]: it could not be created. *)
Definition finishParallel (fs : extFS) (ext : bool) (firstErr : option goerr) (s1 : outcome SnapshotIndex)
    (stores : list StoreInfo) (src : option source) : M (driver DB SST) (list StoreInfo) :=
  match firstErr, s1 with
  | Some e, _ => fail (Wrapf "stage 2" e)
  | None, Err e => fail (Wrapf "stage 1" e)
  | None, Panic m => panic m
  | None, NoFuel => fun d => (NoFuel, d)
  | None, Ret idx =>
      let stores := sortStores stores in
      _ ← (if ext && (0 <? ExtStart idx) then
             match src with
             | Some src => wrap_err "stage 3" (stage3ExtensionsFromRing fs src)
             | None => fail (Wrapf "open extension reader" ErrStartEvicted)
             end
           else mret tt);
      _ ← wrap_err "commit final batch" (on_b (on_db (BatchCommit
            [(commitInfoKey h0, commitInfoBytes h0 stores); (latestVersionKey, latestVersionBytes h0)])));
      mret stores
  end.

(** ** The system *)

Record psys := mkP {
  p_db : DB;
  p_events : list index_event;
  p_ch : list StoreEntry;
  p_s1 : option (outcome SnapshotIndex);
  p_workers : list (worker SST);
  p_results : list workerOut;
  p_stores : list StoreInfo;
  p_items : Z;
  p_firstErr : option goerr
}.

Definition upd_worker i w (db : DB) (s : psys) : psys :=
  mkP db (p_events s) (p_ch s) (p_s1 s) (<[i := w]> (p_workers s)) (p_results s) (p_stores s) (p_items s) (p_firstErr s).
Definition set_stage1 evs ch s1 (s : psys) : psys :=
  mkP (p_db s) evs ch s1 (p_workers s) (p_results s) (p_stores s) (p_items s) (p_firstErr s).
Definition set_results rs (s : psys) : psys :=
  mkP (p_db s) (p_events s) (p_ch s) (p_s1 s) (p_workers s) rs (p_stores s) (p_items s) (p_firstErr s).

(** The offset sent on [EndCh] of a store: the close event that follows its open. *)
Fixpoint close_of (name : bytes) (evs : list index_event) : option Z :=
  match evs with
  | [] => None
  | EvClose n e :: r => if bool_decide (n = name) then Some e else close_of name r
  | _ :: r => close_of name r
  end.

Fixpoint end_of (e : StoreEntry) (evs : list index_event) : option Z :=
  match evs with
  | [] => None
  | EvOpen x :: r =>
      if bool_decide (Name x = Name e /\ DecompressedStart x = DecompressedStart e)
      then close_of (Name e) r else end_of e r
  | _ :: r => end_of e r
  end.

(** [main] collects the result of one store. *)
Definition collect (r : workerOut) (s : psys) : psys :=
  match r with
  | inl (info, n) =>
      mkP (p_db s) (p_events s) (p_ch s) (p_s1 s) (p_workers s) (p_results s)
        (p_stores s ++ [info]) (p_items s) (p_firstErr s)
  | inr e =>
      mkP (p_db s) (p_events s) (p_ch s) (p_s1 s) (p_workers s) (p_results s)
        (p_stores s) (p_items s) (match p_firstErr s with None => Some e | f => f end)
  end.

Definition count_items (r : workerOut) (s : psys) : psys :=
  match r with
  | inl (_, n) => mkP (p_db s) (p_events s) (p_ch s) (p_s1 s) (p_workers s) (p_results s)
                    (p_stores s) (u64 (p_items s + n)) (p_firstErr s)
  | inr _ => s
  end.

(** The stream, the events stage 1 raises on it and how its scan ends. *)
Context (stream : bytes) (evs : list index_event) (scan : outcome SnapshotIndex) (fs : extFS) (ext : bool).

Definition reader_end (e : StoreEntry) : Z := default (len stream) (end_of e evs).

Definition mainDriver (s : psys) : driver DB SST :=
  mkDriver (mkB (p_db s) [] 0 newFastIngester) None [] (p_stores s) (mkExt ext [] 0 0) [] (mkStats (p_items s) 0 0).

Inductive pstep : psys -> psys -> Prop :=
(** stage 1: [onOpen] pins a reader and sends the store, [onClose] sends its end; a
    reader that cannot be pinned, or a stream that cannot be read, ends it *)
| ps_open s e r : p_s1 s = None -> p_events s = EvOpen e :: r -> len (p_ch s) < 64 ->
    pstep s (set_stage1 r (p_ch s ++ [e]) None s)
| ps_fail s e : p_s1 s = None -> pstep s (set_stage1 [] (p_ch s) (Some (Err e)) s)
| ps_close s n e r : p_s1 s = None -> p_events s = EvClose n e :: r ->
    pstep s (set_stage1 r (p_ch s) None s)
| ps_scanned s : p_s1 s = None -> p_events s = [] ->
    pstep s (set_stage1 [] (p_ch s) (Some scan) s)
(** stage 2 *)
| ps_take s i w e r src : p_workers s !! i = Some w -> wk_pc w = WTake -> p_ch s = e :: r ->
    delivered stream (DecompressedStart e) (reader_end e) src ->
    pstep s (upd_worker i (mkWorker (WOpen src) (Name e) (wk_ing w) newAsyncBatchWriter) (p_db s)
               (set_stage1 (p_events s) r (p_s1 s) s))
| ps_exit s i w : p_workers s !! i = Some w -> wk_pc w = WTake -> p_ch s = [] -> p_s1 s <> None ->
    pstep s (upd_worker i (set_pc WExit w) (p_db s) s)
| ps_main s i w w' db : p_workers s !! i = Some w -> main_next w (p_db s) = Some (w', db) ->
    pstep s (upd_worker i w' db s)
| ps_writer s i w w' db : p_workers s !! i = Some w -> writer_next w (p_db s) = Some (w', db) ->
    pstep s (upd_worker i w' db s)
| ps_send s i w r : p_workers s !! i = Some w -> wk_pc w = WSend r ->
    len (p_results s) < 4 * len (p_workers s) ->
    pstep s (count_items r (upd_worker i (set_pc WTake w) (p_db s) (set_results (p_results s ++ [r]) s)))
| ps_collect s r rs : p_results s = r :: rs -> pstep s (collect r (set_results rs s)).

Definition init_par (db : DB) (numWorkers : nat) : psys :=
  mkP db evs [] None (replicate numWorkers (mkWorker WTake [] newFastIngester newAsyncBatchWriter)) [] [] 0 None.

(** How a call of ImportParallel can end: all workers are gone and their results
    drained, stage 1 is through, and the main goroutine does the rest.  [src] is what
    its own ring reader delivers, [None] if that cannot be created. *)
Inductive ImportParallel (db : DB) (numWorkers : nat) : outcome (list StoreInfo) * driver DB SST -> Prop :=
| par_returns s s1 src : steps pstep (init_par db numWorkers) s ->
    Forall (fun w => wk_pc w = WExit) (p_workers s) -> p_results s = [] -> p_s1 s = Some s1 ->
    match s1, src with
    | Ret idx, Some src => delivered stream (ExtStart idx) (TotalBytes idx) src
    | _, _ => True
    end ->
    ImportParallel db numWorkers (finishParallel fs ext (p_firstErr s) s1 (p_stores s) src (mainDriver s)).
End System.
Arguments psys : clear implicits.

(** ** The writes of one store *)

Definition in_store (n : bytes) (kv : write) : Prop := storePrefix n `prefix_of` fst kv.

#[export] Instance in_store_dec n kv : Decision (in_store n kv).
Proof. unfold in_store. apply _. Defined.

Definition of_store (n : bytes) (ws : list write) : list write := filter (in_store n) ws.

Lemma of_store_app n a b : of_store n (a ++ b) = of_store n a ++ of_store n b.
Proof. apply filter_app. Qed.

Lemma of_store_own n ws : Forall (in_store n) ws -> of_store n ws = ws.
Proof.
  induction 1 as [|kv ws Hkv _ IH]; [done|]. unfold of_store in *. rewrite filter_cons_True by done. by rewrite IH.
Qed.

Lemma of_store_other n n' ws : n <> n' -> no_slash n -> no_slash n' -> Forall (in_store n') ws -> of_store n ws = [].
Proof.
  intros Hne Hn Hn'. induction 1 as [|kv ws [r Hr] _ IH]; [done|]. unfold of_store in *.
  rewrite filter_cons_False; [done|]. intros [r' Hr']. rewrite Hr in Hr'.
  apply storePrefix_inj in Hr' as [-> _]; done.
Qed.

Lemma of_store_keep n n' L ws : n <> n' -> no_slash n -> no_slash n' -> Forall (in_store n') ws ->
  of_store n (L ++ ws) = of_store n L.
Proof. intros. rewrite of_store_app, (of_store_other n n' ws) by done. apply app_nil_r. Qed.

Lemma apply_writes_of_store n L k m : storePrefix n `prefix_of` k ->
  apply_writes L m !! k = apply_writes (of_store n L) m !! k.
Proof.
  intros Hk. induction L as [|[k' v] L IH] using rev_ind; [done|]. rewrite of_store_app, !apply_writes_app. cbn.
  change (of_store n [(k', v)]) with (filter (in_store n) [(k', v)]). destruct (decide (in_store n (k', v))) as [Hin|Hin].
  - cbn. destruct (decide (k' = k)) as [->|Hne]; [by rewrite !lookup_insert_eq|].
    by rewrite !lookup_insert_ne.
  - cbn. rewrite lookup_insert_ne; [done|]. intros ->. by apply Hin.
Qed.

Lemma apply_writes_union ws m : apply_writes ws m = apply_writes ws ∅ ∪ m.
Proof.
  induction ws as [|[k v] ws IH] using rev_ind; [cbn; by rewrite (left_id_L ∅ (∪))|].
  rewrite !apply_writes_app. cbn. by rewrite IH, insert_union_l.
Qed.

Lemma apply_writes_keys ws k : is_Some (apply_writes ws ∅ !! k) <-> exists v, (k, v) ∈ ws.
Proof.
  induction ws as [|[k' v'] ws IH] using rev_ind.
  - cbn. rewrite lookup_empty. split; [by intros []|]. by intros [v ?%elem_of_nil].
  - rewrite apply_writes_app. cbn. destruct (decide (k' = k)) as [->|Hne].
    + rewrite lookup_insert_eq. split; [|by eexists]. intros _. exists v'. apply elem_of_app. right. by left.
    + rewrite lookup_insert_ne, IH by done. split; intros [v Hv]; exists v; [apply elem_of_app; by left|].
      apply elem_of_app in Hv as [Hv|Hv]; [done|]. apply list_elem_of_singleton in Hv as [= <- _]. done.
Qed.

(** Writes with the same effect on the empty map are to the same keys. *)
Lemma same_keys W ws (Q : bytes -> Prop) : apply_writes W ∅ = apply_writes ws ∅ ->
  Forall (fun kv => Q (fst kv)) ws -> Forall (fun kv => Q (fst kv)) W.
Proof.
  intros E HQ. apply Forall_forall. intros [k v] Hin. cbn.
  assert (Hs : is_Some (apply_writes W ∅ !! k)) by (apply apply_writes_keys; by exists v).
  rewrite E in Hs. apply apply_writes_keys in Hs as [v' Hv]. rewrite Forall_forall in HQ. by apply (HQ (k, v')).
Qed.

Lemma same_stores_same_db (names : list bytes) L1 L2 m0 :
  (forall kv, kv ∈ L1 -> exists n, n ∈ names /\ in_store n kv) ->
  (forall kv, kv ∈ L2 -> exists n, n ∈ names /\ in_store n kv) ->
  (forall n, n ∈ names -> apply_writes (of_store n L1) ∅ = apply_writes (of_store n L2) ∅) ->
  apply_writes L1 m0 = apply_writes L2 m0.
Proof.
  intros H1 H2 Hs. apply map_eq. intros k.
  destruct (decide (Exists (fun n => storePrefix n `prefix_of` k) names)) as [[n [Hn Hk]]%Exists_exists|Hno].
  - rewrite (apply_writes_of_store n L1 k _ Hk), (apply_writes_of_store n L2 k _ Hk).
    rewrite (apply_writes_union (of_store n L1)), (apply_writes_union (of_store n L2)). by rewrite (Hs n Hn).
  - assert (Hout : forall L, (forall kv, kv ∈ L -> exists n, n ∈ names /\ in_store n kv) -> apply_writes L m0 !! k = m0 !! k).
    { intros L HL. apply apply_writes_other. intros v Hin. destruct (HL _ Hin) as (n & Hn & Hk).
      apply Hno, Exists_exists. exists n. exact (conj Hn Hk). }
    by rewrite (Hout L1 H1), (Hout L2 H2).
Qed.

(** ** What holds of every state *)

Section Invariant.
Context {DB SST : Type} `{PL : PebbleLaws DB SST} {P : Type} `{RP : RingPinner P}.
Context (fast : bool) (h0 : Z) (p : option P).
Context (stream : bytes) (evs : list index_event) (scan : outcome SnapshotIndex) (fs : extFS) (ext : bool).
Context (segs : list Index.segment) (m0 : gmap bytes bytes).
Implicit Types (w : worker SST) (s : psys DB SST) (L : list write).

Abbreviation names := (map fst segs).

(** The stores and where they are; the events of stage 1 only name such stores. *)
Definition entry_ok (e : StoreEntry) : Prop := exists its rest, (Name e, its) ∈ segs /\
  store_at stream (DecompressedStart e) (reader_end stream evs e) (Name e) its rest.

(** The writes [W] are all of the store [n], whose root hash is [h]. *)
Definition seg_done (n h : bytes) (W : list write) : Prop := exists its ws,
  (n, its) ∈ segs /\ store_result h0 (n, map item_node its) (mkStoreInfo n h) ws /\
  apply_writes W ∅ = apply_writes ws ∅.

(** What the store's writer has been given and not yet committed. *)
Definition pending w : list write := default [] (aw_cur (wk_writer w)) ++ concat (aw_ch (wk_writer w)).

(** A worker whose store will not be imported. *)
Definition doomed w : Prop :=
  match wk_pc w with
  | WSubmit _ r | WCheck _ r | WDrain r => match r with Ret _ => False | _ => True end
  | WSend r => match r with inl _ => False | inr _ => True end
  | WCrash => True
  | _ => False
  end.

(** The store a worker has in hand. *)
Definition in_hand w : list bytes :=
  match wk_pc w with WTake | WExit | WCrash => [] | _ => [wk_name w] end.

(** [L] is what has been written to the database so far. *)
Definition worker_ok L w : Prop :=
  match wk_pc w with
  | WTake | WExit => ing_open (DB := DB) false (wk_name w) (wk_ing w) /\ wk_writer w = newAsyncBatchWriter
  | WOpen src => ing_open (DB := DB) false (wk_name w) (wk_ing w) /\ wk_writer w = newAsyncBatchWriter /\
      of_store (wk_name w) L = [] /\
      exists e, Name e = wk_name w /\ entry_ok e /\
        delivered stream (DecompressedStart e) (reader_end stream evs e) src
  | WSubmit todo (Ret (h, n)) | WCheck todo (Ret (h, n)) =>
      ing_open (DB := DB) fast (wk_name w) (wk_ing w) /\ aw_err (wk_writer w) = None /\
      seg_done (wk_name w) h (of_store (wk_name w) L ++ pending w ++ concat todo ++ ing_writes (DB := DB) (wk_ing w))
  | WDrain (Ret (h, n)) =>
      ing_open (DB := DB) fast (wk_name w) (wk_ing w) /\ aw_err (wk_writer w) = None /\
      seg_done (wk_name w) h (of_store (wk_name w) L ++ pending w ++ ing_writes (DB := DB) (wk_ing w))
  | WIngest h n =>
      ing_open (DB := DB) fast (wk_name w) (wk_ing w) /\ wk_writer w = newAsyncBatchWriter /\
      seg_done (wk_name w) h (of_store (wk_name w) L ++ ing_writes (DB := DB) (wk_ing w))
  | WSend (inl (info, n)) =>
      ing_open (DB := DB) false (wk_name w) (wk_ing w) /\ wk_writer w = newAsyncBatchWriter /\
      si_name info = wk_name w /\ seg_done (wk_name w) (si_hash info) (of_store (wk_name w) L)
  | _ => False
  end.

(** A worker's view of the database is its own store's. *)
Lemma worker_ok_ext L L' w : (in_hand w <> [] -> of_store (wk_name w) L' = of_store (wk_name w) L) ->
  worker_ok L w -> worker_ok L' w.
Proof using Type.
  unfold worker_ok, in_hand. destruct (wk_pc w) as [| |? [[]| | |]|? [[]| | |]|[[]| | |]|?|[[]|]| |]; try done;
    intros E; by rewrite E.
Qed.

Lemma seg_done_own n h W : seg_done n h W -> Forall (in_store n) W /\ n ∈ names.
Proof using Type.
  intros (its & ws & Hin & Hr & E). split; [|by apply (list_elem_of_fmap_2 fst _ _ Hin)].
  eapply Forall_impl; [eapply (same_keys W ws (fun k => storePrefix n `prefix_of` k) E)|done].
  apply Forall_forall. intros [k v] Hkv. destruct (result_keys _ _ _ _ Hr k v Hkv) as [r ->]. by exists r.
Qed.

(** *** The operations on the database *)

Lemma openSegment_spec name db ing b : ing_open (DB := DB) false name ing ->
  openSegment fast name (mkB db [] 0 ing) = (Ret tt, b) ->
  ing_open (DB := DB) fast name (b_ing b) /\ ing_writes (DB := DB) (b_ing b) = [] /\ contents (b_db b) = contents db.
Proof using PL.
  unfold openSegment, ing_open, ing_writes. intros Hcl. destruct fast.
  - unfold openStore, wrap_err, mbind, M_bind, get. cbn [b_ing]. rewrite Hcl. unfold on_db, zoom. cbn [b_db].
    destruct (SstCreate (str "fast-" ++ sanitize name ++ str ".sst") db) as [[w|?|?|] d] eqn:E; [|done..]. intros [_ <-]%ret_inj.
    apply create_sound in E as [Ew Ed]. cbn. rewrite Ew. split; [|by split]. by exists w; rewrite Ew.
  - intros [_ <-]%ret_inj. cbn. by rewrite Hcl.
Qed.

Lemma ingestSegment_spec name db ing b : ing_open (DB := DB) fast name ing ->
  ingestSegment fast name (mkB db [] 0 ing) = (Ret tt, b) ->
  ing_open (DB := DB) false name (b_ing b) /\ contents (b_db b) = apply_writes (ing_writes (DB := DB) ing) (contents db).
Proof using PL.
  unfold ingestSegment, ing_open, ing_writes. destruct fast.
  - intros (w & Hw & Hn & Hc). unfold ingestStore, wrap_err, mbind, M_bind, get, modify. cbn [b_ing].
    rewrite Hw, Hn, Hc, bool_decide_true by done. cbn [negb from_option].
    destruct (Z.eqb_spec (len (entries w)) 0) as [Hz|_].
    + intros [_ <-]%ret_inj. split; [done|]. destruct (entries w) as [|x l]; [done|].
      rewrite len_cons in Hz. pose proof (len_nonneg l). lia.
    + destruct (SstClose w); try done. unfold on_db, zoom. cbn.
      destruct (Ingest w db) as [[[]| | |] d] eqn:E; try done. intros [_ <-]%ret_inj.
      split; [done|]. by apply ingest_sound in E.
  - intros Hcl [_ <-]%ret_inj. cbn. by rewrite Hcl.
Qed.

(** *** One worker *)

(** What an action of the worker or of its writer may do: the store is lost, or its
    writes go on as planned. *)
Definition kept L w w' db' : Prop := doomed w' \/
  (in_hand w = [wk_name w] /\ in_hand w' = [wk_name w] /\ wk_name w' = wk_name w /\
   exists ws, Forall (in_store (wk_name w)) ws /\ worker_ok (L ++ ws) w' /\ contents db' = apply_writes (L ++ ws) m0).

Lemma kept_quiet L w w' db' : in_hand w = [wk_name w] -> in_hand w' = [wk_name w] -> wk_name w' = wk_name w -> worker_ok L w' ->
  contents db' = apply_writes L m0 -> kept L w w' db'.
Proof using Type. intros. right. split_and!; [done..|]. exists []. rewrite app_nil_r. split_and!; [constructor|done|done]. Qed.

Lemma open_ok L w src db w' db' : wk_pc w = WOpen src -> worker_ok L w -> contents db = apply_writes L m0 ->
  main_next fast h0 p w db = Some (w', db') -> kept L w w' db'.
Proof using PL.
  unfold main_next. intros Epc Hok Hdb. unfold worker_ok in Hok. rewrite Epc in *.
  destruct Hok as (Hcl & Hwr & Hnone & e & Hname & (its & rest & Hin & Hat) & Hdel).
  destruct (openSegment _ _ _) as [[[]| | |] b] eqn:E; [|intros [= <- <-]; by left..].
  destruct (openSegment_spec _ _ _ _ Hcl E) as (H1 & H2 & H3).
  destruct (segment_body _ _ _ _ _ _) as [[r bs] ing] eqn:E2. intros [= <- <-].
  destruct r as [[h n]| | |]; [|by left..]. rewrite Hname in *.
  destruct (segment_body_sound fast (wk_name w) h0 src p its rest _ _ _ _ _ _ _ _ Hat Hdel H1 H2 E2) as (_ & H4 & ws & Hres & V).
  apply kept_quiet; [unfold in_hand; by rewrite Epc|done|done| |by rewrite H3].
  cbn. unfold pending. cbn. rewrite Hwr, Hnone. split; [done|]. split; [done|]. exists its, ws. by split.
Qed.

Lemma ingest_ok L w h n db w' db' : wk_pc w = WIngest h n -> worker_ok L w -> contents db = apply_writes L m0 ->
  main_next fast h0 p w db = Some (w', db') -> kept L w w' db'.
Proof using PL.
  unfold main_next. intros Epc Hok Hdb. unfold worker_ok in Hok. rewrite Epc in *. destruct Hok as (Hop & Hwr & Hd).
  destruct (ingestSegment _ _ _) as [[[]| | |] b] eqn:E; [|intros [= <- <-]; by left..].
  destruct (ingestSegment_spec _ _ _ _ Hop E) as [H1 H2]. intros [= <- <-]. right.
  split_and!; [unfold in_hand; by rewrite Epc|done|done|]. pose proof (proj1 (seg_done_own _ _ _ Hd)) as Hown.
  apply Forall_app in Hown as [_ Hown]. exists (ing_writes (DB := DB) (wk_ing w)). split_and!; [done| |].
  - cbn. rewrite of_store_app, (of_store_own _ (ing_writes _)) by done. by split_and!.
  - by rewrite H2, Hdb, apply_writes_app.
Qed.

Lemma main_ok L w db w' db' : ~ doomed w -> worker_ok L w -> contents db = apply_writes L m0 ->
  main_next fast h0 p w db = Some (w', db') -> kept L w w' db'.
Proof using PL.
  intros Hnd Hok Hdb E. destruct (wk_pc w) as [|src|todo r|todo r|r|h n|r| |] eqn:Epc;
    try (unfold main_next in E; rewrite Epc in E; discriminate E).
  - by eapply open_ok.
  - unfold main_next, worker_ok, doomed in *. rewrite Epc in *. destruct r as [[h n]| | |]; try done.
    destruct Hok as (H1 & H2 & H3). destruct todo as [|bt todo].
    + injection E as <- <-. apply kept_quiet; [unfold in_hand; by rewrite Epc|done|done| |done]. by cbn.
    + destruct (2 <=? _); [done|]. injection E as <- <-.
      apply kept_quiet; [unfold in_hand; by rewrite Epc|done|done| |done]. cbn. split_and!; [done|done|].
      unfold pending in *. cbn in *. rewrite concat_app. cbn. by rewrite app_nil_r, <- !app_assoc in *.
  - unfold main_next, worker_ok, doomed in *. rewrite Epc in *. destruct r as [[h n]| | |]; try done.
    destruct Hok as (H1 & H2 & H3). rewrite H2 in E. injection E as <- <-.
    apply kept_quiet; [unfold in_hand; by rewrite Epc|done|done| |done]. by cbn.
  - unfold main_next, worker_ok, doomed in *. rewrite Epc in *. destruct r as [[h n]| | |]; try done.
    destruct Hok as (H1 & H2 & H3). destruct (wk_writer w) as [ch cur er] eqn:Ew. cbn in *. subst er.
    destruct ch; [|done]. destruct cur; [done|]. injection E as <- <-.
    apply kept_quiet; [unfold in_hand; by rewrite Epc|done|done| |done]. cbn. rewrite Ew. split_and!; [done|done|].
    unfold pending in H3. rewrite Ew in H3. exact H3.
  - by eapply ingest_ok.
Qed.

(** A batch taken off the channel, or committed, is the first of those pending. *)
Lemma writer_next_spec w db w' db' : writer_next w db = Some (w', db') -> aw_err (wk_writer w) = None ->
  wk_pc w' = wk_pc w /\ wk_name w' = wk_name w /\ wk_ing w' = wk_ing w /\ aw_err (wk_writer w') = None /\
  exists bt, pending w = bt ++ pending w' /\ contents db' = apply_writes bt (contents db).
Proof using PL.
  unfold writer_next, pending. destruct w as [pc name ing [ch cur er]]. cbn. intros E ->. destruct cur as [bt|].
  - destruct (commit_live bt db) as [d Ed]. rewrite Ed in E. injection E as <- <-. cbn. split_and!; try done.
    exists bt. split; [done|]. by apply commit_sound in Ed.
  - destruct ch as [|bt ch]; [done|]. injection E as <- <-. cbn. split_and!; try done. by exists [].
Qed.

(** The worker is between its run and its [drain], with [X] still to hand over. *)
Lemma commit_kept L w db w' db' h X : writer_next w db = Some (w', db') -> contents db = apply_writes L m0 ->
  aw_err (wk_writer w) = None -> seg_done (wk_name w) h (of_store (wk_name w) L ++ pending w ++ X) ->
  in_hand w = [wk_name w] ->
  (forall L', aw_err (wk_writer w') = None -> seg_done (wk_name w) h (of_store (wk_name w) L' ++ pending w' ++ X) ->
     wk_pc w' = wk_pc w -> wk_name w' = wk_name w -> wk_ing w' = wk_ing w -> worker_ok L' w') ->
  kept L w w' db'.
Proof using PL.
  intros E Hdb Herr Hd Hin Hok. destruct (writer_next_spec _ _ _ _ E Herr) as (H1 & H2 & H3 & H4 & bt & Hp & Hc).
  right. split_and!; [done|rewrite <- Hin; unfold in_hand; by rewrite H1, H2|done|].
  pose proof (proj1 (seg_done_own _ _ _ Hd)) as Hown. rewrite Hp, !Forall_app in Hown. destruct Hown as (_ & [Hbt _] & _).
  exists bt. split_and!; [done| |by rewrite Hc, Hdb, apply_writes_app].
  apply Hok; try done. rewrite of_store_app, (of_store_own _ bt Hbt), <- !app_assoc.
  by rewrite Hp, <- app_assoc in Hd.
Qed.

Lemma writer_ok L w db w' db' : ~ doomed w -> worker_ok L w -> contents db = apply_writes L m0 ->
  writer_next w db = Some (w', db') -> kept L w w' db'.
Proof using PL.
  intros Hnd Hok Hdb E. unfold worker_ok, doomed in Hnd, Hok.
  assert (Hnew : wk_writer w = newAsyncBatchWriter -> False) by (intros Ew; unfold writer_next in E; by rewrite Ew in E).
  destruct (wk_pc w) as [|src|todo [[h n]| | |]|todo [[h n]| | |]|[[h n]| | |]|h n|[[info n]|e]| |] eqn:Epc; try done;
    try (exfalso; apply Hnew; tauto); destruct Hok as (H1 & H2 & H3);
    [eapply (commit_kept L w db w' db' h (concat todo ++ ing_writes (DB := DB) (wk_ing w)) E Hdb H2 H3)
    |eapply (commit_kept L w db w' db' h (concat todo ++ ing_writes (DB := DB) (wk_ing w)) E Hdb H2 H3)
    |eapply (commit_kept L w db w' db' h (ing_writes (DB := DB) (wk_ing w)) E Hdb H2 H3)];
    try (intros L' A B C1 C2 C3; unfold worker_ok; rewrite C1, Epc, C2, C3; by split_and!);
    unfold in_hand; by rewrite Epc.
Qed.

(** *** The system *)

Definition result_names (r : workerOut) : list bytes :=
  match r with inl (info, _) => [si_name info] | inr _ => [] end.
Definition open_names (ev : index_event) : list bytes :=
  match ev with EvOpen e => [Name e] | _ => [] end.

(** Every store is in one place. *)
Definition places (s : psys DB SST) : list bytes :=
  map si_name (p_stores s) ++ concat (map result_names (p_results s)) ++ concat (map in_hand (p_workers s)) ++
  map Name (p_ch s) ++ concat (map open_names (p_events s)).

Definition lost (r : workerOut) : Prop := match r with inl _ => False | inr _ => True end.

(** The import cannot succeed any more. *)
Definition failed (s : psys DB SST) : Prop :=
  p_firstErr s <> None \/ Exists lost (p_results s) \/ Exists doomed (p_workers s) \/
  exists r, p_s1 s = Some r /\ forall idx, r <> Ret idx.

Record good (s : psys DB SST) (L : list write) : Prop := {
  g_db : contents (p_db s) = apply_writes L m0;
  g_keys : forall kv, kv ∈ L -> exists n, n ∈ names /\ in_store n kv;
  g_places : places s ≡ₚ names;
  g_workers : Forall (worker_ok L) (p_workers s);
  g_new : forall e, e ∈ p_ch s \/ EvOpen e ∈ p_events s -> entry_ok e /\ of_store (Name e) L = [];
  g_done : forall info, info ∈ p_stores s \/ (exists n, inl (info, n) ∈ p_results s) ->
    seg_done (si_name info) (si_hash info) (of_store (si_name info) L);
  g_s1 : p_s1 s = None \/ (p_s1 s = Some scan /\ p_events s = []);
  g_exit : Exists (fun w => wk_pc w = WExit) (p_workers s) -> p_ch s = [] /\ p_s1 s <> None
}.

Lemma worker_split (ws : list (worker SST)) i w : ws !! i = Some w ->
  exists l1 l2, ws = l1 ++ w :: l2 /\ forall w', <[i := w']> ws = l1 ++ w' :: l2.
Proof using Type.
  intros Hi. exists (take i ws), (drop (S i) ws). split; [by rewrite take_drop_middle|].
  intros w'. apply insert_take_drop. by eapply lookup_lt_Some.
Qed.

Lemma Exists_mid {A} (Q : A -> Prop) l1 x l2 : Exists Q (l1 ++ x :: l2) <-> Exists Q (l1 ++ l2) \/ Q x.
Proof using Type. rewrite !Exists_app, Exists_cons. tauto. Qed.

Lemma Forall_mid {A} (Q : A -> Prop) l1 x l2 : Forall Q (l1 ++ x :: l2) <-> Forall Q (l1 ++ l2) /\ Q x.
Proof using Type. rewrite !Forall_app, Forall_cons. tauto. Qed.

(** A lost store stays lost. *)
Lemma doomed_main w db w' db' : doomed w -> main_next fast h0 p w db = Some (w', db') -> doomed w'.
Proof using Type.
  unfold main_next, doomed. destruct (wk_pc w) as [|src|todo r|todo r|r|h n|r| |]; try done; intros Hd.
  - destruct todo as [|bt todo]; [destruct r|destruct (2 <=? _)]; try done; by intros [= <- <-].
  - destruct (aw_err (wk_writer w)); by intros [= <- <-].
  - destruct (aw_ch (wk_writer w)), (aw_cur (wk_writer w)); try done. destruct r as [[]| | |]; try done; by intros [= <- <-].
Qed.

Lemma doomed_writer w db w' db' : doomed w -> writer_next w db = Some (w', db') -> doomed w'.
Proof using Type.
  unfold writer_next. intros Hd. destruct (aw_cur (wk_writer w)) as [bt|], (aw_ch (wk_writer w)) as [|bt' ch]; try done;
    try (destruct (BatchCommit bt db) as [[] ?]); intros [= <- <-]; exact Hd || exact I.
Qed.

Lemma failed_worker s i w w' db : p_workers s !! i = Some w -> failed s -> (doomed w -> doomed w') ->
  failed (upd_worker i w' db s).
Proof using Type.
  intros Hi Hf Hd. destruct (worker_split _ _ _ Hi) as (l1 & l2 & E1 & E2). unfold failed in *. cbn. rewrite E2.
  rewrite E1, Exists_mid in Hf. rewrite Exists_mid. tauto.
Qed.

Abbreviation step := (pstep (SST := SST) fast h0 p stream evs scan).

Lemma psys_failed s s' : failed s -> step s s' -> failed s'.
Proof using Type.
  intros Hf Hs. destruct Hs as [s e r H1 H2 H3|s e H1|s n e r H1 H2|s H1 H2|s i w e r src H1 H2 H3 H4
    |s i w H1 H2 H3 H4|s i w w' db H1 H2|s i w w' db H1 H2|s i w r H1 H2 H3|s r rs H1].
  - unfold failed in *. cbn. destruct Hf as [|[|[|(r1 & E & _)]]]; try tauto. congruence.
  - right; right; right. cbn. by eexists.
  - unfold failed in *. cbn. destruct Hf as [|[|[|(r1 & E & _)]]]; try tauto. congruence.
  - unfold failed in *. cbn. destruct Hf as [|[|[|(r1 & E & _)]]]; try tauto. congruence.
  - eapply (failed_worker (set_stage1 _ r _ s)); [done|exact Hf|]. unfold doomed. by rewrite H2.
  - eapply failed_worker; [done|done|]. unfold doomed. by rewrite H2.
  - eapply failed_worker; [done..|]. intros. by eapply doomed_main.
  - eapply failed_worker; [done..|]. intros. by eapply doomed_writer.
  - destruct (worker_split _ _ _ H1) as (l1 & l2 & E1 & E2). unfold failed in *. rewrite E1, Exists_mid in Hf.
    unfold doomed at 2 in Hf. rewrite H2 in Hf.
    destruct r as [[info n]|e]; cbn; rewrite E2, (Exists_mid doomed), (Exists_app lost), (Exists_cons lost), Exists_nil; cbn; tauto.
  - unfold failed in *. cbn in *. rewrite H1, Exists_cons in Hf. destruct r as [[info n]|e]; cbn in *; [tauto|].
    left. by destruct (p_firstErr s).
Qed.

Context (Hnd : NoDup names) (Hslash : Forall no_slash names).

Lemma concat_mid (f : worker SST -> list bytes) l1 w l2 :
  concat (map f (l1 ++ w :: l2)) ≡ₚ f w ++ concat (map f (l1 ++ l2)).
Proof using Type. rewrite !map_app, !concat_app. cbn. solve_Permutation. Qed.

(** The places of the others when worker [w] holds [n]. *)
Lemma places_others s L l1 w l2 n : good s L -> p_workers s = l1 ++ w :: l2 -> in_hand w = [n] ->
  exists rest, places s ≡ₚ (n :: rest) /\ (n ∉ rest) /\ n ∈ names /\
    (forall x, x ∈ rest -> x ∈ names) /\
    rest = map si_name (p_stores s) ++ concat (map result_names (p_results s)) ++ concat (map in_hand (l1 ++ l2)) ++
           map Name (p_ch s) ++ concat (map open_names (p_events s)).
Proof using Hnd.
  intros Hg Ew Hin. eexists. assert (Hp : places s ≡ₚ n :: map si_name (p_stores s) ++ concat (map result_names (p_results s)) ++
    concat (map in_hand (l1 ++ l2)) ++ map Name (p_ch s) ++ concat (map open_names (p_events s))).
  { unfold places. rewrite Ew, concat_mid, Hin. solve_Permutation. }
  split; [exact Hp|]. rewrite (g_places _ _ Hg) in Hp.
  assert (Hn : NoDup (n :: map si_name (p_stores s) ++ concat (map result_names (p_results s)) ++
    concat (map in_hand (l1 ++ l2)) ++ map Name (p_ch s) ++ concat (map open_names (p_events s)))) by by rewrite <- Hp.
  apply NoDup_cons in Hn as [Hn _]. split_and!; [done| | |done].
  - rewrite Hp. by left.
  - intros x Hx. rewrite Hp. by right.
Qed.

Lemma elem_in_hand l w : w ∈ l -> in_hand w <> [] -> wk_name w ∈ concat (map in_hand l).
Proof using Type.
  intros Hin Hne. apply list_elem_of_In, in_concat. exists (in_hand w). split.
  - by apply in_map, list_elem_of_In.
  - unfold in_hand in *. destruct (wk_pc w); try done; by left.
Qed.

(** An action of one worker leaves the others' stores alone. *)
Lemma good_kept s L i w w' db' : good s L -> p_workers s !! i = Some w -> kept L w w' db' ->
  wk_pc w <> WExit -> wk_pc w' <> WExit ->
  failed (upd_worker i w' db' s) \/ exists L', good (upd_worker i w' db' s) L'.
Proof using Hnd Hslash.
  intros Hg Hi Hk Hne Hne'. destruct (worker_split _ _ _ Hi) as (l1 & l2 & E1 & E2).
  destruct Hk as [Hd|(Hin & Hin' & Hname & ws & Hown & Hok & Hdb)].
  { left. right; right; left. cbn. rewrite E2, Exists_mid. by right. }
  right. exists (L ++ ws). destruct (places_others s L l1 w l2 _ Hg E1 Hin) as (rest & Hp & Hnot & Hn & Hrest & Er).
  assert (Hkeep : forall x, x ∈ rest -> of_store x (L ++ ws) = of_store x L).
  { intros x Hx. rewrite Forall_forall in Hslash. apply (of_store_keep x (wk_name w)); [by intros ->|by apply Hslash, Hrest|by apply Hslash|done]. }
  rewrite Er in Hkeep. destruct Hg as [G1 G2 G3 G4 G5 G6 G7 G8]. split; cbn.
  - done.
  - intros kv [Hkv|Hkv]%elem_of_app; [by apply G2|]. exists (wk_name w). split; [done|]. by rewrite Forall_forall in Hown; apply Hown.
  - rewrite <- G3. unfold places. cbn. by rewrite E2, E1, !concat_mid, Hin, Hin'.
  - rewrite E2, Forall_mid. rewrite E1, Forall_mid in G4. destruct G4 as [G4 _]. split; [|done].
    apply Forall_forall. intros x Hx. rewrite Forall_forall in G4. apply (worker_ok_ext L); [|by apply G4].
    intros Hne1. apply Hkeep. rewrite !elem_of_app. right; right; left. by apply elem_in_hand.
  - intros e He. destruct (G5 e He) as [He1 He2]. split; [done|]. rewrite Hkeep; [done|]. rewrite !elem_of_app.
    destruct He as [He|He]; [right; right; right; left; by apply list_elem_of_fmap_2|right; right; right; right].
    apply list_elem_of_In, in_concat. exists [Name e]. split; [|by left]. apply (in_map open_names _ (EvOpen e)). by apply list_elem_of_In.
  - intros info Hinfo. pose proof (G6 info Hinfo) as Hd. rewrite Hkeep; [done|]. rewrite !elem_of_app.
    destruct Hinfo as [Hinfo|[n Hinfo]]; [left; by apply list_elem_of_fmap_2|right; left].
    apply list_elem_of_In, in_concat. exists [si_name info]. split; [|by left]. apply (in_map result_names _ (inl (info, n))). by apply list_elem_of_In.
  - done.
  - intros Hex. apply G8. rewrite E2, Exists_mid in Hex. rewrite E1, Exists_mid. tauto.
Qed.

(** A step that touches neither the database nor what was written. *)
Lemma good_quiet s s' L : good s L -> p_db s' = p_db s -> places s' ≡ₚ places s -> Forall (worker_ok L) (p_workers s') ->
  (forall e, e ∈ p_ch s' \/ EvOpen e ∈ p_events s' -> e ∈ p_ch s \/ EvOpen e ∈ p_events s) ->
  (forall info, info ∈ p_stores s' \/ (exists n, inl (info, n) ∈ p_results s') ->
     seg_done (si_name info) (si_hash info) (of_store (si_name info) L)) ->
  (p_s1 s' = None \/ (p_s1 s' = Some scan /\ p_events s' = [])) ->
  (Exists (fun w => wk_pc w = WExit) (p_workers s') -> p_ch s' = [] /\ p_s1 s' <> None) -> good s' L.
Proof using Type.
  intros [G1 G2 G3 G4 G5 G6 G7 G8] E1 E2 E4 E5 E6 E7 E8. split; try done.
  - by rewrite E1.
  - by rewrite E2.
  - intros e He. by apply G5, E5.
Qed.

Lemma exit_no_worker s i w : p_workers s !! i = Some w -> wk_pc w = WExit -> Exists (fun w => wk_pc w = WExit) (p_workers s).
Proof using Type. intros Hi He. apply Exists_exists. exists w. split; [by eapply list_elem_of_lookup_2|done]. Qed.

Lemma good_stage1 s L evs' ch o : good s L ->
  map Name ch ++ concat (map open_names evs') ≡ₚ map Name (p_ch s) ++ concat (map open_names (p_events s)) ->
  (forall e, e ∈ ch \/ EvOpen e ∈ evs' -> e ∈ p_ch s \/ EvOpen e ∈ p_events s) ->
  (o = None \/ (o = Some scan /\ evs' = [])) -> p_s1 s = None -> good (set_stage1 evs' ch o s) L.
Proof using Type.
  intros Hg E1 E2 E3 Hs1. eapply (good_quiet s); [done|done| |apply Hg|done|apply Hg|done|].
  - unfold places. cbn. by rewrite E1.
  - intros Hex. destruct (g_exit _ _ Hg Hex) as [_ Hn]. done.
Qed.

Lemma good_take s L i w e r src : good s L -> p_workers s !! i = Some w -> wk_pc w = WTake -> p_ch s = e :: r ->
  delivered stream (DecompressedStart e) (reader_end stream evs e) src ->
  good (upd_worker i (mkWorker (WOpen src) (Name e) (wk_ing w) newAsyncBatchWriter) (p_db s)
          (set_stage1 (p_events s) r (p_s1 s) s)) L.
Proof using Type.
  intros Hg Hi Hpc Hch Hdel. destruct (worker_split _ _ _ Hi) as (l1 & l2 & E1 & E2).
  destruct (g_new _ _ Hg e) as [He Hnone]; [left; rewrite Hch; by left|].
  pose proof (g_workers _ _ Hg) as Hw. rewrite E1, Forall_mid in Hw. destruct Hw as [Hw Hok].
  unfold worker_ok in Hok. rewrite Hpc in Hok. destruct Hok as [Hcl _].
  eapply (good_quiet s); [done|done| | | |apply Hg|apply Hg|]; cbn.
  - unfold places. cbn. rewrite E2, E1, Hch, !concat_mid. unfold in_hand at 1 3. rewrite Hpc. cbn. solve_Permutation.
  - rewrite E2, Forall_mid. split; [done|]. cbn. split_and!; [done|done|done|]. by exists e.
  - rewrite Hch. intros x [Hx|Hx]; [left; by right|by right].
  - intros Hex. exfalso. rewrite E2, Exists_mid in Hex. destruct Hex as [Hex|Hex]; [|done].
    destruct (g_exit _ _ Hg) as [Hc _]; [rewrite E1, Exists_mid; by left|]. congruence.
Qed.

Lemma good_exit s L i w : good s L -> p_workers s !! i = Some w -> wk_pc w = WTake -> p_ch s = [] -> p_s1 s <> None ->
  good (upd_worker i (set_pc WExit w) (p_db s) s) L.
Proof using Type.
  intros Hg Hi Hpc Hch Hs1. destruct (worker_split _ _ _ Hi) as (l1 & l2 & E1 & E2).
  pose proof (g_workers _ _ Hg) as Hw. rewrite E1, Forall_mid in Hw. destruct Hw as [Hw Hok].
  eapply (good_quiet s); [done|done| | |done|apply Hg|apply Hg|done]; cbn.
  - unfold places. cbn. rewrite E2, E1, !concat_mid. unfold in_hand at 1 3. by rewrite Hpc.
  - rewrite E2, Forall_mid. split; [done|]. unfold worker_ok in *. by rewrite Hpc in Hok.
Qed.

Lemma good_send s L i w r : good s L -> p_workers s !! i = Some w -> wk_pc w = WSend r ->
  good (count_items r (upd_worker i (set_pc WTake w) (p_db s) (set_results (p_results s ++ [r]) s))) L.
Proof using Type.
  intros Hg Hi Hpc. destruct (worker_split _ _ _ Hi) as (l1 & l2 & E1 & E2).
  pose proof (g_workers _ _ Hg) as Hw. rewrite E1, Forall_mid in Hw. destruct Hw as [Hw Hok].
  unfold worker_ok in Hok. rewrite Hpc in Hok. destruct r as [[info n]|e]; [|done].
  destruct Hok as (Hcl & Hwr & Hname & Hd).
  eapply (good_quiet s); [done|done| | |done| |apply Hg|]; cbn.
  - unfold places. cbn. rewrite E2, E1, !concat_mid, map_app, concat_app. unfold in_hand at 1 3. rewrite Hpc. cbn.
    rewrite Hname. solve_Permutation.
  - rewrite E2, Forall_mid. by split.
  - intros info' [Hin|[n' [Hin|Hin]%elem_of_app]].
    + apply (g_done _ _ Hg). by left.
    + apply (g_done _ _ Hg). right. by exists n'.
    + apply list_elem_of_singleton in Hin as [= -> ->]. by rewrite Hname.
  - intros Hex. apply (g_exit _ _ Hg). rewrite E2, Exists_mid in Hex. rewrite E1, Exists_mid. destruct Hex; [by left|done].
Qed.

Lemma good_collect s L info n rs : good s L -> p_results s = inl (info, n) :: rs ->
  good (collect (inl (info, n)) (set_results rs s)) L.
Proof using Type.
  intros Hg Hr. eapply (good_quiet s); [done|done| |apply Hg|done| |apply Hg|apply Hg]; cbn.
  - unfold places. cbn. rewrite Hr, map_app. cbn. solve_Permutation.
  - intros info' [[Hin|Hin]%elem_of_app|[n' Hin]]; apply (g_done _ _ Hg).
    + by left.
    + right. exists n. rewrite Hr. apply list_elem_of_singleton in Hin as ->. by left.
    + right. exists n'. rewrite Hr. by right.
Qed.

Lemma psys_step s s' L : good s L -> step s s' -> failed s' \/ exists L', good s' L'.
Proof using PL Hnd Hslash.
  intros Hg Hs. destruct Hs as [s e r H1 H2 H3|s e H1|s n e r H1 H2|s H1 H2|s i w e r src H1 H2 H3 H4
    |s i w H1 H2 H3 H4|s i w w' db H1 H2|s i w w' db H1 H2|s i w r H1 H2 H3|s r rs H1].
  - right. exists L. apply good_stage1; [done| | |by left|done].
    + rewrite H2, map_app. cbn. solve_Permutation.
    + rewrite H2. intros x [[Hx|Hx]%elem_of_app|Hx]; [by left|right|right; by right].
      apply list_elem_of_singleton in Hx as ->. by left.
  - left. right; right; right. cbn. by eexists.
  - right. exists L. apply good_stage1; [done| | |by left|done].
    + by rewrite H2.
    + rewrite H2. intros x [Hx|Hx]; [by left|right; by right].
  - right. exists L. apply good_stage1; [done| | |by right|done].
    + by rewrite H2.
    + intros x [Hx|Hx]; [by left|by apply elem_of_nil in Hx].
  - right. exists L. by apply good_take.
  - right. exists L. by apply good_exit.
  - pose proof (g_workers _ _ Hg) as Hw. rewrite Forall_forall in Hw. pose proof (Hw w (list_elem_of_lookup_2 _ _ _ H1)) as Hok.
    assert (Hne : wk_pc w <> WExit) by (intros E; unfold main_next in H2; by rewrite E in H2).
    apply (good_kept s L i w w' db Hg H1); [|done|].
    + eapply main_ok; [|done|apply Hg|done]. intros Hd. unfold doomed, worker_ok in *. by repeat case_match.
    + unfold main_next in H2. repeat case_match; try discriminate H2; injection H2 as <- _; discriminate.
  - pose proof (g_workers _ _ Hg) as Hw. rewrite Forall_forall in Hw. pose proof (Hw w (list_elem_of_lookup_2 _ _ _ H1)) as Hok.
    assert (Hne : wk_pc w <> WExit).
    { intros E. unfold worker_ok in Hok. rewrite E in Hok. destruct Hok as [_ Hwr]. unfold writer_next in H2. by rewrite Hwr in H2. }
    apply (good_kept s L i w w' db Hg H1); [|done|].
    + eapply writer_ok; [|done|apply Hg|done]. intros Hd. unfold doomed, worker_ok in *. by repeat case_match.
    + unfold writer_next in H2. repeat case_match; try discriminate H2; injection H2 as <- _; cbn; done.
  - right. exists L. by apply good_send.
  - destruct r as [[info n]|e].
    + right. exists L. by apply good_collect.
    + left. left. cbn. by destruct (p_firstErr s).
Qed.

(** *** The end of stage 2 *)

Definition inputs : list input := map (fun sg => (fst sg, map item_node (snd sg))) segs.

Lemma of_store_concat ns wss : Forall2 (fun n ws => Forall (in_store n) ws) ns wss -> NoDup ns -> Forall no_slash ns ->
  forall i n ws, ns !! i = Some n -> wss !! i = Some ws -> of_store n (concat wss) = ws.
Proof using Type.
  induction 1 as [|n0 ws0 ns wss Hown HF IH]; intros Hn Hs i n ws Hi Hw; [done|].
  apply NoDup_cons in Hn as [Hni Hn]. apply Forall_cons in Hs as [Hs0 Hs].
  cbn [concat]. rewrite of_store_app. destruct i as [|i]; cbn in Hi, Hw.
  - injection Hi as <-. injection Hw as <-. rewrite (of_store_own _ _ Hown).
    assert (E : of_store n0 (concat wss) = []); [|by rewrite E, app_nil_r]. clear IH.
    induction HF as [|n1 ws1 ns wss H1 HF IH]; [done|]. cbn [concat]. rewrite of_store_app.
    apply not_elem_of_cons in Hni as [Hne Hni]. apply NoDup_cons in Hn as [_ Hn]. apply Forall_cons in Hs as [Hs1 Hs].
    rewrite (of_store_other n0 n1), (IH Hni Hn Hs) by done. done.
  - assert (Hin : n ∈ ns) by by eapply list_elem_of_lookup_2. rewrite Forall_forall in Hs.
    rewrite (of_store_other n n0 ws0); [|by intros ->|by apply Hs|done|done].
    cbn [app]. rewrite <- Forall_forall in Hs. by eapply IH.
Qed.

(** The stores whose writes are [wss] leave the database as [L] does. *)
Lemma done_same_db L infos wss : Forall3 (store_result h0) inputs infos wss ->
  (forall kv, kv ∈ L -> exists n, n ∈ names /\ in_store n kv) ->
  Forall2 (fun n ws => apply_writes (of_store n L) ∅ = apply_writes ws ∅) names wss ->
  apply_writes L m0 = apply_writes (concat wss) m0.
Proof using Hnd Hslash.
  intros HF Hkeys Hsame.
  assert (Hown : Forall2 (fun n ws => Forall (in_store n) ws) names wss).
  { assert (En : names = map fst inputs) by (unfold inputs; by rewrite map_map). rewrite En. apply Forall2_fmap_l.
    clear -HF. induction HF as [|i info ws dn infos wss Hr HF IH]; constructor; [|done].
    apply Forall_forall. intros [k v] Hkv. destruct (result_keys _ _ _ _ Hr k v Hkv) as [r ->]. by exists r. }
  apply (same_stores_same_db names); [done| |].
  - intros kv (ws & Hws & Hin)%list_elem_of_In%in_concat. apply list_elem_of_In, list_elem_of_lookup in Hws as [i Hi].
    destruct (Forall2_lookup_r _ _ _ _ _ Hown Hi) as (n & Hn & Hw). exists n. split; [by eapply list_elem_of_lookup_2|].
    rewrite Forall_forall in Hw. by apply Hw, list_elem_of_In.
  - intros n [i Hi]%list_elem_of_lookup. destruct (Forall2_lookup_l _ _ _ _ _ Hsame Hi) as (ws & Hw & E).
    by rewrite E, (of_store_concat names wss Hown Hnd Hslash i n ws Hi Hw).
Qed.

Lemma names_inj n a b : (n, a) ∈ segs -> (n, b) ∈ segs -> a = b.
Proof using Hnd.
  intros [i Hi]%list_elem_of_lookup [j Hj]%list_elem_of_lookup.
  assert (i = j) as <-; [|congruence]. eapply (NoDup_lookup names i j n Hnd).
  - by rewrite list_lookup_fmap, Hi.
  - by rewrite list_lookup_fmap, Hj.
Qed.

Lemma done_results L infos : map si_name infos = names ->
  (forall info, info ∈ infos -> seg_done (si_name info) (si_hash info) (of_store (si_name info) L)) ->
  exists wss, Forall3 (store_result h0) inputs infos wss /\
    Forall2 (fun n ws => apply_writes (of_store n L) ∅ = apply_writes ws ∅) names wss.
Proof using Hnd.
  intros En Hd. unfold inputs.
  assert (Hsub : forall sg, sg ∈ segs -> sg ∈ segs) by done. revert En Hsub. generalize segs at 1 2 4 5 as l.
  induction infos as [|info infos IH]; intros [|[n its] l] En Hsub; try discriminate En.
  - exists []. by repeat constructor.
  - injection En as En1 En. destruct (IH ltac:(intros; apply Hd; by right) l En) as (wss & H1 & H2);
      [intros; apply Hsub; by right|].
    destruct (Hd info) as (its' & ws & Hin & Hr & V); [by left|]. rewrite En1 in *.
    assert (its' = its) as -> by (eapply names_inj; [exact Hin|apply Hsub; by left]).
    exists (ws :: wss). cbn. split; constructor; try done. destruct info. cbn in *. by subst.
Qed.

Lemma stage2_done s L : good s L -> Forall (fun w => wk_pc w = WExit) (p_workers s) -> p_workers s <> [] -> p_results s = [] ->
  p_s1 s = Some scan /\ exists infos wss, Forall3 (store_result h0) inputs infos wss /\ p_stores s ≡ₚ infos /\
    map si_name infos = names /\ contents (p_db s) = apply_writes (concat wss) m0.
Proof using Hnd Hslash.
  intros Hg Hall Hne Hres.
  assert (Hex : Exists (fun w => wk_pc w = WExit) (p_workers s)).
  { destruct (p_workers s) as [|w ws]; [done|]. apply Forall_cons in Hall as [Hw _]. by left. }
  destruct (g_exit _ _ Hg Hex) as [Hch Hs1]. destruct (g_s1 _ _ Hg) as [|[Es Ev]]; [done|]. split; [done|].
  assert (Hhand : concat (map in_hand (p_workers s)) = []).
  { clear -Hall. induction Hall as [|w ws Hw _ IH]; [done|]. cbn. unfold in_hand at 1. by rewrite Hw. }
  pose proof (g_places _ _ Hg) as Hp. unfold places in Hp. rewrite Hres, Hhand, Hch, Ev in Hp. cbn in Hp. rewrite app_nil_r in Hp.
  symmetry in Hp. destruct (Permutation_map_inv _ _ Hp) as (infos & En & Hperm).
  destruct (done_results L infos (eq_sym En)) as (wss & H1 & H2).
  { intros info Hin. apply (g_done _ _ Hg). left. by rewrite Hperm. }
  exists infos, wss. split_and!; [done|done|done|]. rewrite (g_db _ _ Hg). eapply done_same_db; [done|apply Hg|done].
Qed.
End Invariant.
