(* ===== verification/ParallelEquiv.v ===== *)
(** * The parallel import against the serial one

    [Parallel] says how the goroutines of ImportParallel can interleave.  Here are
    its guarantees for the stream of a snapshot: the events that stage 1 raises are
    those the invariant of [Parallel] asks for, so an import that succeeds, under
    whatever schedule, built what is in the stream; and a store has one tree only,
    so the result is that of the serial import, up to the order of the records. *)

From S2P Require Import Prelude Sha256 Varint IavlEnc CommitInfo Importer SnapProto ChunkRing Index Streams RunImport Segment Parallel.

(** ** What the ring delivers *)

(** C6: [delivered] is what the ring keeps: when a read of a ring reader ends, what the
    reader has received together with the error is a delivery of its store, if
    the bytes written are of [stream], the reader has been given no other end than
    [stop], and the ring is closed without error only after the whole stream. *)
Theorem ring_delivers cs mb s id o st out n e r' (stream : bytes) stop :
  newChunkRing cs mb = Ret (init_ring cs mb) -> reachable cs mb s ->
  objs (ring s) !! id = Some o -> got s !! id = Some (st, out) -> 0 <= n ->
  written s `prefix_of` stream -> stop <= len stream ->
  (0 <= endLimit o -> endLimit o = stop) ->
  ring_err (ring s) <> Some EOF -> (closed (ring s) = true -> ring_err (ring s) = None -> written s = stream) ->
  ChunkRing.Read n o id (ring s) = (RError e, r') -> delivered stream st stop (Source out e).
Proof.
  intros Hnew Hr Ho Hg Hn Hpre Hstop Hlim Herr Hcl Hread.
  pose proof (reachable_ok cs mb s Hnew Hr) as Hs. pose proof (sys_ring s Hs) as Hring.
  destruct (sys_got s Hs _ _ _ Hg) as (o' & Ho' & Hpos & Hst & Hout). rewrite Ho in Ho'. injection Ho' as <-.
  assert (Hpo : out `prefix_of` drop (Z.to_nat st) stream).
  { destruct Hpre as [more ->]. destruct Hout as [x Hx]. rewrite drop_app, Hx. rewrite <- app_assoc. by eexists. }
  assert (Hend : stop <= st + len out -> delivered stream st stop (Source out EOF)).
  { intros Hle. destruct Hpo as [x Hx]. assert (E : out = take (length out) (drop (Z.to_nat st) stream)) by by rewrite Hx, take_app_length.
    rewrite E. apply del_end. exact Hle. }
  eapply ChunkRing.Read_spec in Hread as (_ & _ & [_ Hres] & _ & _); [|done|done|done].
  destruct Hres as [[-> Hl]|[(-> & Hc & Ht)|[-> Hlt]]].
  - apply Hend. rewrite <- Hpos, <- Hlim; lia.
  - destruct (ring_err (ring s)) as [x|] eqn:Ex; [by apply del_fail; [|congruence]|].
    apply Hend. rewrite (ok_tail _ _ Hring), (Hcl Hc eq_refl) in Ht. lia.
  - by apply del_fail.
Qed.

Definition ring_ops : list op := [ONew 0 0 4; OWrite (str "abcdef"); OResume; ORead 0 6].
Definition ring_sys : sys := default (init_sys 8 8) (execs (init_sys 8 8) ring_ops).

Lemma ring_delivers_witness : delivered (str "abcdef") 0 4 (Source (str "abcd") EOF).
Proof.
  destruct (ChunkRing.Read 6 (mkRd 4 0 false 4) 0 (ring ring_sys)) as [res r'] eqn:E.
  assert (Hres : res = RError EOF) by (apply (f_equal fst) in E; vm_compute in E; symmetry; exact E). subst res.
  apply (ring_delivers 8 8 ring_sys 0%nat (mkRd 4 0 false 4) 0 (str "abcd") 6 EOF r' (str "abcdef") 4).
  - reflexivity.
  - apply (execs_steps ring_ops). vm_compute. reflexivity.
  - vm_compute. reflexivity.
  - vm_compute. reflexivity.
  - lia.
  - exists []. vm_compute. reflexivity.
  - vm_compute. discriminate.
  - intros _. reflexivity.
  - vm_compute. discriminate.
  - vm_compute. discriminate.
  - exact E.
Defined.

(** ** The events of stage 1 *)

Section Entries.
Implicit Types (es : list StoreEntry) (segs : list Index.segment).

Abbreviation events es := (concat (map entry_events es)).

Lemma events_names es : concat (map open_names (events es)) = map Name es.
Proof. induction es as [|e es IH]; [done|]. cbn. by rewrite IH. Qed.

Lemma entries_names segs : forall p, map Name (entries_from p segs) = map fst segs.
Proof. induction segs as [|sg segs IH]; intros p; [done|]. cbn. by rewrite IH. Qed.

Lemma events_opened es e : EvOpen e ∈ events es -> exists e', e' ∈ es /\ e = opened e'.
Proof.
  induction es as [|x es IH]; [by intros ?%elem_of_nil|]. cbn [map concat entry_events app].
  intros [[= ->]|[[=]|Hin]%elem_of_cons]%elem_of_cons.
  - exists x. split; [by left|done].
  - destruct (IH Hin) as (e' & He & ->). exists e'. split; [by right|done].
Qed.

Lemma end_of_entry es e : NoDup (map Name es) -> e ∈ es -> end_of (opened e) (events es) = Some (DecompressedEnd e).
Proof.
  induction es as [|x es IH]; [by intros _ ?%elem_of_nil|]. cbn [map concat entry_events app end_of].
  intros [Hni Hnd]%NoDup_cons [->|Hin]%elem_of_cons.
  - rewrite bool_decide_true by done. cbn [close_of opened Name]. by rewrite bool_decide_true.
  - rewrite bool_decide_false; [by apply IH|]. intros [Hname _]. cbn in Hname. apply Hni. rewrite Hname.
    by apply list_elem_of_fmap_2.
Qed.

(** What the parallel import asks of the stores of a snapshot. *)
Definition seg_fine (sg : Index.segment) : Prop :=
  seg_ok sg /\ no_slash (fst sg) /\ Forall node_fine (map item_node (snd sg)) /\ len (snd sg) + 2 < 2 ^ 32.

Lemma snapshot_boundary segs exts : Forall seg_ok segs -> Forall ext_ok exts ->
  boundary (snapshot_items segs exts).
Proof.
  intros Hs He. destruct segs as [|sg segs]; cbn.
  - destruct exts as [|it exts]; [done|]. apply Forall_cons in He as [[H1 H2] _]. split; [done|].
    unfold itemTypeExtMeta, itemTypeExtPayload, itemTypeIAVL in *. lia.
  - apply Forall_cons in Hs as [[H1 _] _]. by split.
Qed.

Lemma entries_at data exts segs : Forall seg_fine segs -> Forall ext_ok exts ->
  forall pre, data = pre ++ item_wires (snapshot_items segs exts) ->
  forall e, e ∈ entries_from (len pre) segs ->
  exists its rest, (Name e, its) ∈ segs /\
    store_at data (DecompressedStart e) (DecompressedEnd e) (Name e) its rest.
Proof.
  intros Hs He. induction Hs as [|[n its] segs (H1 & H2 & H3 & H4) Hs IH]; intros pre Ed e Hin; [by apply elem_of_nil in Hin|].
  assert (E : data = pre ++ item_wires (seg_items (n, its)) ++ item_wires (snapshot_items segs exts)).
  { rewrite Ed. unfold snapshot_items. cbn [map concat]. by rewrite <- app_assoc, item_wires_app. }
  cbn [entries_from] in Hin. apply elem_of_cons in Hin as [->|Hin]; cbn [Name DecompressedStart DecompressedEnd].
  - exists its, (snapshot_items segs exts). split; [by left|]. split; try done.
    + rewrite len_to_nat, E. by rewrite drop_app_length.
    + apply snapshot_boundary; [|done]. eapply Forall_impl; [exact Hs|]. by intros ? [].
  - rewrite <- len_app in Hin. destruct (IH (pre ++ item_wires (seg_items (n, its)))) with (e := e) as (its' & rest & Hi & Hat);
      [by rewrite <- app_assoc|done|]. exists its', rest. split; [by right|done].
Qed.
End Entries.

(** ** Stage 2 on a snapshot *)

Section Snapshot.
Context {DB SST : Type} `{PL : PebbleLaws DB SST} {P : Type} `{RP : RingPinner P}.
Context (fast : bool) (h0 : Z) (p : option P) (scan : outcome SnapshotIndex) (db : DB).
Context (segs : list Index.segment) (exts : list snapItem).
Context (Hnd : NoDup (map fst segs)) (Hfine : Forall seg_fine segs) (Hexts : Forall ext_ok exts).
Abbreviation data := (item_wires (snapshot_items segs exts)).
Abbreviation evs := (concat (map entry_events (entries_from 0 segs))).
Abbreviation ok := (good (SST := SST) fast h0 data evs scan segs (contents db)).

Lemma opened_ok e : EvOpen e ∈ evs -> entry_ok data evs segs e.
Proof using Hnd Hfine Hexts.
  intros (e' & Hin & ->)%events_opened. unfold entry_ok, reader_end.
  rewrite end_of_entry by (rewrite ?entries_names; done). cbn [default].
  destruct (entries_at data exts segs Hfine Hexts [] eq_refl e' Hin) as (its & rest & H1 & H2). by exists its, rest.
Qed.

Lemma init_good n : ok (init_par evs db n) [].
Proof using Hnd Hfine Hexts.
  split; cbn.
  - done.
  - by intros kv ?%elem_of_nil.
  - unfold places. cbn. rewrite events_names, entries_names.
    assert (E : concat (map in_hand (replicate n (mkWorker (SST := SST) WTake [] newFastIngester newAsyncBatchWriter))) = []).
    { induction n; [done|]. by cbn. }
    by rewrite E.
  - apply Forall_replicate. cbn. done.
  - intros e [He|He]; [by apply elem_of_nil in He|]. split; [by apply opened_ok|done].
  - intros info [Hi|[? Hi]]; by apply elem_of_nil in Hi.
  - by left.
  - intros Hex. exfalso. induction n; cbn in Hex; [by apply Exists_nil in Hex|]. apply Exists_cons in Hex as [Hex|Hex]; [done|tauto].
Qed.

Lemma snapshot_steps n s : steps (pstep (SST := SST) fast h0 p data evs scan) (init_par evs db n) s ->
  failed s \/ exists L, ok s L.
Proof using PL Hnd Hfine Hexts.
  assert (Hslash : Forall no_slash (map fst segs)).
  { apply Forall_fmap. eapply Forall_impl; [exact Hfine|]. by intros ? (_ & ? & _). }
  apply (steps_invariant _ (fun s => failed s \/ exists L, ok s L)).
  - intros s1 s2 [Hf|[L HL]] Hstep; [left; by eapply psys_failed|by eapply psys_step].
  - right. exists []. apply init_good.
Qed.
End Snapshot.

(** ** Extensions *)

(** The files an extension writer makes of a run of items. *)
Definition ext_step (x : extensionWriter) (it : snapItem) : extensionWriter * list (extFile * bytes) :=
  if Type_ it =? itemTypeExtMeta then (mkExt (x_enabled x) (ExtName it) (ExtFormat it) 0, [])
  else if Type_ it =? itemTypeExtPayload then
    (mkExt (x_enabled x) (x_name x) (x_format x) (u32 (x_index x + 1)),
     if negb (x_enabled x) || bool_decide (x_name x = []) then []
     else [(mkExtFile (x_name x) (x_index x) (x_format x), default [] (ExtPayload it))])
  else (x, []).

Fixpoint ext_run (x : extensionWriter) (its : list snapItem) : extensionWriter * list (extFile * bytes) :=
  match its with
  | [] => (x, [])
  | it :: its => let '(x1, f1) := ext_step x it in let '(x2, f2) := ext_run x1 its in (x2, f1 ++ f2)
  end.

Section Extensions.
Context {DB SST : Type} `{PB : Pebble DB SST} {P : Type} `{RP : RingPinner P}.
Context (fs : extFS) (h0 : Z).
Implicit Types (d : driver DB SST).

(** [d'] is what [d] has become when the extension writer saw [its]. *)
Definition ext_after (its : list snapItem) d d' : Prop :=
  d_ext d' = fst (ext_run (d_ext d) its) /\ d_files d' = d_files d ++ snd (ext_run (d_ext d) its).

Lemma ext_after_none d d' : d_ext d' = d_ext d -> d_files d' = d_files d -> ext_after [] d d'.
Proof using Type. intros E1 E2. split; cbn; by rewrite ?app_nil_r. Qed.

Lemma ext_after_cons it its d d1 d' : ext_after [it] d d1 -> ext_after its d1 d' -> ext_after (it :: its) d d'.
Proof using Type.
  unfold ext_after. cbn. destruct (ext_step (d_ext d) it) as [x1 f1]. cbn. rewrite app_nil_r.
  intros [-> ->] [-> ->]. destruct (ext_run x1 its) as [x2 f2]. cbn. by rewrite app_assoc.
Qed.

Lemma openMeta_ext it d d' : Type_ it = itemTypeExtMeta -> openMeta fs (ExtName it) (ExtFormat it) d = (Ret tt, d') ->
  ext_after [it] d d'.
Proof using Type.
  intros Hty E. unfold ext_after. cbn. unfold ext_step. rewrite Hty, Z.eqb_refl. cbn.
  unfold openMeta in E. cbn in E. repeat case_match; try done; by apply ret_inj in E as [_ <-].
Qed.

Lemma writePayload_ext it d d' : Type_ it = itemTypeExtPayload -> writePayload fs (default [] (ExtPayload it)) d = (Ret tt, d') ->
  ext_after [it] d d'.
Proof using Type.
  intros Hty E. unfold ext_after. cbn. unfold ext_step. rewrite Hty. cbn -[u32]. unfold writePayload in E.
  destruct (_ || _); [|destruct (write_err _ _); [done|]]; apply ret_inj in E as [_ <-]; split; done.
Qed.

Lemma stage3Item_ext it d d' : stage3Item fs it d = (Ret tt, d') -> ext_after [it] d d'.
Proof using Type.
  unfold stage3Item. destruct (Z.eqb_spec (Type_ it) itemTypeExtMeta); [by apply openMeta_ext|].
  destruct (Z.eqb_spec (Type_ it) itemTypeExtPayload); [by apply writePayload_ext|done].
Qed.

(** Stage 3, whatever its reader delivers of the extensions: all of them, or an error. *)
Lemma stage3_exact exts : forall fuel dt e p q d d', Forall item_small exts -> dt `prefix_of` item_wires exts ->
  (e = EOF -> (length (item_wires exts) <= length dt)%nat) ->
  stage3Loop fuel fs (SnapProto.mkReader (P := P) (Source dt e) p q) d = (Ret tt, d') -> ext_after exts d d'.
Proof using Type.
  induction exts as [|it exts IH]; intros [|fuel] dt e p q d d' Hits Hd He E; try done; cbn [stage3Loop] in E.
  - apply prefix_nil_inv in Hd as ->. destruct (Next_nothing e p q) as (x & rd & EN & _). rewrite EN in E.
    destruct x; try done. apply ret_inj in E as [_ <-]. by apply ext_after_none.
  - apply Forall_cons in Hits as [Hit Hits]. rewrite item_wires_cons in Hd, He.
    destruct (Next_prefix it _ dt e p q Hit Hd) as [(d1 & p' & q' & -> & Hd1 & EN)|(Hl & x & rd & EN & Hx)].
    + rewrite EN in E. apply bind_ret in E as ([] & d2 & E1 & E2). eapply ext_after_cons; [by apply stage3Item_ext|].
      eapply IH; [done|exact Hd1| |exact E2]. intros Ee. specialize (He Ee). rewrite !length_app in He. lia.
    + exfalso. rewrite EN in E. destruct x; try done. specialize (He (Hx eq_refl)). rewrite length_app in He. lia.
Qed.

Lemma on_b_ext {A} (m : M (bstate DB SST) A) a d d' : on_b m d = (Ret a, d') -> ext_after [] d d'.
Proof using Type. unfold on_b, zoom. destruct (m (d_b d)) as [r b]. intros [_ <-]%pair_equal_spec. by apply ext_after_none. Qed.

Lemma ext_after_trans its d d1 d' : ext_after [] d d1 -> ext_after its d1 d' -> ext_after its d d'.
Proof using Type. unfold ext_after. cbn. rewrite app_nil_r. intros [E1 E2]. by rewrite E1, E2. Qed.

Lemma closeCurrent_ext d d' : closeCurrent d = (Ret tt, d') -> ext_after [] d d'.
Proof using Type.
  unfold closeCurrent. intros (d0 & d1 & [<- <-]%ret_inj & E)%bind_ret.
  destruct (d_current d); [|apply ret_inj in E as [_ <-]; by apply ext_after_none].
  apply bind_ret in E as (hash & d2 & E1%unwrap_ret & (d3 & d4 & [<- <-]%ret_inj & ([] & d5 & E2%unwrap_ret & E3)%bind_ret)%bind_ret).
  unfold on_current in E1. destruct (finalize _ _) as [r1 [s1 b1]]. injection E1 as -> <-.
  apply on_b_ext in E2. apply ret_inj in E3 as [_ <-].
  assert (H1 : ext_after [] d (with_b b1 (with_current (Some s1) (curName d) d))) by by apply ext_after_none.
  eapply ext_after_trans; [exact H1|]. eapply ext_after_trans; [exact E2|]. by apply ext_after_none.
Qed.

Lemma handleItem_ext it d d' : handleItem fs h0 it d = (Ret tt, d') -> ext_after [it] d d'.
Proof using Type.
  assert (Hplain : Type_ it <> itemTypeExtMeta -> Type_ it <> itemTypeExtPayload -> ext_after [] d d' -> ext_after [it] d d').
  { intros H1 H2. unfold ext_after. cbn. unfold ext_step. by rewrite !(proj2 (Z.eqb_neq _ _)). }
  unfold handleItem. destruct (Z.eqb_spec (Type_ it) itemTypeStore) as [E|_].
  { intros ([] & d1 & E1%closeCurrent_ext & ([] & d2 & [_ <-]%ret_inj & E2%unwrap_ret%on_b_ext)%bind_ret)%bind_ret.
    apply Hplain; [by rewrite E|by rewrite E|]. eapply ext_after_trans; [exact E1|].
    eapply ext_after_trans; [|exact E2]. by apply ext_after_none. }
  destruct (Z.eqb_spec (Type_ it) itemTypeIAVL) as [E|_].
  { intros (d0 & d1 & [<- <-]%ret_inj & E1)%bind_ret. apply Hplain; [by rewrite E|by rewrite E|].
    destruct (d_current d); [|done]. apply unwrap_ret in E1. unfold on_current in E1.
    destruct (addNode _ _ _ _ _ _) as [r1 [s1 b1]]. injection E1 as _ <-. by apply ext_after_none. }
  destruct (Z.eqb_spec (Type_ it) itemTypeExtMeta) as [E|_].
  { intros ([] & d1 & E1%closeCurrent_ext & E2%openMeta_ext)%bind_ret; [|done]. by eapply ext_after_trans. }
  destruct (Z.eqb_spec (Type_ it) itemTypeExtPayload) as [E|_]; [by apply writePayload_ext|done].
Qed.

Lemma feed_ext its : forall d d', feed fs h0 its d = (Ret tt, d') -> ext_after its d d'.
Proof using Type.
  induction its as [|it its IH]; intros d d' E; cbn [feed] in E; [apply ret_inj in E as [_ <-]; by apply ext_after_none|].
  apply bind_ret in E as ([] & d1 & E1%handleItem_ext & E2%IH). by eapply ext_after_cons.
Qed.

Lemma finishImport_ext d infos d' : finishImport h0 d = (Ret infos, d') -> ext_after [] d d'.
Proof using Type.
  intros ([] & d1 & E1%closeCurrent_ext & (d0 & d2 & [<- <-]%ret_inj & ([] & d3 & E2%unwrap_ret%on_b_ext &
    ([] & d4 & E3%unwrap_ret%on_b_ext & (d6 & d7 & [<- <-]%ret_inj & ([] & d8 & E4 & [_ <-]%ret_inj)%bind_ret)%bind_ret)%bind_ret)%bind_ret)%bind_ret)%bind_ret.
  do 3 (eapply ext_after_trans; [eassumption|]).
  destruct (0 <? _); [by apply unwrap_ret, on_b_ext in E4|apply ret_inj in E4 as [_ <-]; by apply ext_after_none].
Qed.
End Extensions.

Lemma ext_run_disabled its : forall x, x_enabled x = false -> snd (ext_run x its) = [].
Proof.
  induction its as [|it its IH]; intros x Hx; [done|]. cbn [ext_run].
  destruct (ext_step x it) as [x1 f1] eqn:E. assert (x_enabled x1 = false /\ f1 = []) as [H1 ->].
  { unfold ext_step in E. rewrite Hx in E. repeat case_match; by injection E as <- <-. }
  specialize (IH x1 H1). destruct (ext_run x1 its) as [x2 f2]. cbn in *. by subst.
Qed.

(** The files of a snapshot are those of its extensions. *)
Lemma ext_run_snapshot segs exts x : Forall seg_ok segs -> ext_run x (snapshot_items segs exts) = ext_run x exts.
Proof.
  assert (Hplain : forall its x, Forall (fun it => Type_ it <> itemTypeExtMeta /\ Type_ it <> itemTypeExtPayload) its ->
    forall r, ext_run x (its ++ r) = ext_run x r).
  { induction its as [|it its IH]; intros y Hits r; [done|]. apply Forall_cons in Hits as [[H1 H2] Hits].
    cbn [app ext_run]. unfold ext_step. rewrite !(proj2 (Z.eqb_neq _ _)), (IH y Hits r) by done. by destruct (ext_run y r). }
  intros Hs. apply Hplain. apply Forall_forall. intros it (l & Hl & Hit)%list_elem_of_In%in_concat.
  apply in_map_iff in Hl as (sg & <- & Hsg). apply list_elem_of_In in Hsg, Hit. rewrite Forall_forall in Hs.
  destruct (Hs sg Hsg) as [_ Hno]. unfold seg_items in Hit. apply elem_of_cons in Hit as [->|Hit]; [done|].
  rewrite Forall_forall in Hno. destruct (Hno it Hit) as [_ ->]. done.
Qed.

(** ** The end of the import *)

Section Finish.
Context {DB SST : Type} `{PL : PebbleLaws DB SST} {P : Type} `{RP : RingPinner P}.
Context (fast : bool) (h0 : Z) (p : option P) (fs : extFS) (ext : bool).

(** Stage 3 does not touch the database. *)
Lemma stage3Item_same item (d d' : driver DB SST) r : stage3Item fs item d = (r, d') -> d_b d' = d_b d.
Proof using Type.
  unfold stage3Item. destruct (_ =? itemTypeExtMeta); [by intros (-> & _)%openMeta_same|].
  destruct (_ =? itemTypeExtPayload); [by intros (-> & _)%writePayload_same|by intros [= _ <-]].
Qed.

Lemma stage3_same fuel : forall (rd : snapReader P) (d d' : driver DB SST) r,
  stage3Loop fuel fs rd d = (r, d') -> d_b d' = d_b d.
Proof using Type.
  induction fuel as [|fuel IH]; intros rd d d' r E; [by injection E as _ <-|]. cbn [stage3Loop] in E.
  destruct (Next rd) as [[item|e|m|] rd']; [|by repeat (case_match; try done); injection E as _ <-..].
  unfold mbind, M_bind in E.
  destruct (stage3Item fs item d) as [[[]| | |] d1] eqn:E1; apply stage3Item_same in E1; [|by injection E as _ <-..].
  by rewrite (IH _ _ _ _ E).
Qed.

Lemma finishParallel_ret firstErr s1 stores (src : option source) (d d' : driver DB SST) infos :
  finishParallel h0 p fs ext firstErr s1 stores src d = (Ret infos, d') ->
  firstErr = None /\ infos = sortStores stores /\
  contents (b_db (d_b d')) = apply_writes (tail_writes h0 infos) (contents (b_db (d_b d))) /\
  exists idx d1, s1 = Ret idx /\ ext_after [] d1 d' /\
    if ext && (0 <? ExtStart idx)
    then exists src', src = Some src' /\ stage3ExtensionsFromRing p fs src' d = (Ret tt, d1)
    else d1 = d.
Proof using PL.
  unfold finishParallel. destruct firstErr; [done|]. destruct s1 as [idx| | |]; [|done..].
  intros ([] & d1 & E1 & ([] & d2 & E2%unwrap_ret & E)%bind_ret)%bind_ret. apply ret_inj in E as [<- <-].
  split_and!; [done|done| |].
  - assert (H1 : d_b d1 = d_b d).
    { destruct (ext && _); [|by apply ret_inj in E1 as [_ <-]]. destruct src as [src|]; [|done].
      apply unwrap_ret in E1. by eapply stage3_same. }
    unfold on_b, on_db, zoom in E2.
    destruct (BatchCommit _ _) as [r db'] eqn:E3. injection E2 as -> <-. apply commit_sound in E3. cbn. by rewrite E3, H1.
  - exists idx, d1. split; [done|]. split; [by eapply on_b_ext|].
    destruct (ext && _); [|by apply ret_inj in E1 as [_ <-]]. destruct src as [src|]; [|done].
    exists src. by apply unwrap_ret in E1.
Qed.

(** Stage 3 writes the files of the extensions. *)
Lemma stage3_files segs exts idx src (d d1 : driver DB SST) : segs <> [] -> Forall ext_ok exts ->
  ExtStart idx = (if bool_decide (exts = []) then 0 else len (item_wires (concat (map seg_items segs)))) ->
  TotalBytes idx = len (item_wires (snapshot_items segs exts)) ->
  match src with Some src => delivered (item_wires (snapshot_items segs exts)) (ExtStart idx) (TotalBytes idx) src | None => True end ->
  d_ext d = mkExt ext [] 0 0 -> d_files d = [] ->
  (if ext && (0 <? ExtStart idx) then exists src', src = Some src' /\ stage3ExtensionsFromRing p fs src' d = (Ret tt, d1) else d1 = d) ->
  d_files d1 = snd (ext_run (mkExt ext [] 0 0) exts).
Proof using Type.
  intros Hne Hexts Est Etot Hsrc Hx Hf H3. destruct ext; cbn [andb] in H3.
  2: { by rewrite H3, Hf, ext_run_disabled. }
  destruct (decide (exts = [])) as [->|He].
  { rewrite Est in H3. cbn in H3. by subst d1. }
  rewrite bool_decide_false in Est by done.
  assert (Hpos : 0 < ExtStart idx).
  { rewrite Est. pose proof (items_le (concat (map seg_items segs))) as Hle. destruct segs as [|sg segs]; [done|].
    cbn [map concat] in Hle |- *. unfold seg_items at 1 in Hle. cbn [app] in Hle. rewrite len_cons in Hle.
    pose proof (len_nonneg (snd sg ++ concat (map seg_items segs))). lia. }
  rewrite (proj2 (Z.ltb_lt _ _) Hpos) in H3. destruct H3 as (src' & -> & E).
  assert (Edrop : drop (Z.to_nat (ExtStart idx)) (item_wires (snapshot_items segs exts)) = item_wires exts).
  { unfold snapshot_items. by rewrite item_wires_app, Est, len_to_nat, drop_app_length. }
  unfold stage3ExtensionsFromRing, newSnapReader in E. destruct src' as [dt e].
  apply (stage3_exact (DB := DB) fs exts) in E as [_ ->].
  - by rewrite Hx, Hf.
  - eapply Forall_impl; [exact Hexts|]. by intros ? [].
  - inversion Hsrc as [n Hn Ed|d' e' Hd Hee Ed]; subst; rewrite Edrop in *; [|done]. eexists. symmetry. apply take_drop.
  - intros ->. inversion Hsrc as [n Hn Ed|d' e' Hd Hee Ed]; subst; [|done]. rewrite Edrop, length_take.
    rewrite Etot, Est in Hn. unfold snapshot_items in Hn. rewrite item_wires_app, len_app in Hn. unfold len in Hn. lia.
Qed.

(** The import of a stream: stage 1 scans what the prefetch reader delivers. *)
Definition importParallel (r : reader) (db : DB) (numWorkers : nat) (res : outcome (list StoreInfo) * driver DB SST) : Prop :=
  let '(scan, b) := buildIndexFromReader log_open log_close r [] in
  ImportParallel fast h0 p (concat (rd_chunks r)) (bd_x b) scan fs ext db numWorkers res.
End Finish.

(** A reader over the stream of a snapshot. *)
Record snapshot_reader (r : reader) (segs : list Index.segment) (exts : list snapItem) : Prop := {
  sr_end : rd_end r = EOF;
  sr_data : concat (rd_chunks r) = item_wires (snapshot_items segs exts);
  sr_len : len (concat (rd_chunks r)) < 2 ^ 61;
  sr_some : segs <> [];
  sr_names : NoDup (map fst segs);
  sr_segs : Forall seg_fine segs;
  sr_exts : Forall ext_ok exts
}.

(** The pool keeps its size. *)
Lemma step_workers {DB SST} `{PB : Pebble DB SST} {P} `{RP : RingPinner P} fast h0 (p : option P) stream evs scan (s s' : psys DB SST) :
  pstep fast h0 p stream evs scan s s' -> length (p_workers s') = length (p_workers s).
Proof.
  intros Hstep. destruct Hstep as [a e r _ _ _|a e _|a n e r _ _|a _ _|a i w e r src _ _ _ _
    |a i w _ _ _ _|a i w w' d _ _|a i w w' d _ _|a i w r _ _ _|a r rs _]; cbn; rewrite ?length_insert; try done;
    destruct r as [[]|]; cbn; by rewrite ?length_insert.
Qed.

Lemma workers_kept {DB SST} `{PB : Pebble DB SST} {P} `{RP : RingPinner P} fast h0 (p : option P) stream evs scan db n (s : psys DB SST) :
  steps (pstep fast h0 p stream evs scan) (init_par evs db n) s -> length (p_workers s) = n.
Proof.
  apply (steps_invariant _ (fun s => length (p_workers s) = n)); [|by apply length_replicate].
  intros a b <- Hst. by eapply step_workers.
Qed.

(** An import that succeeds has written the stores of the snapshot, each as the
    serial import may, and the records sorted by name. *)
Lemma importParallel_writes {DB SST} `{PL : PebbleLaws DB SST} {P} `{RP : RingPinner P} fast h0 (p : option P) fs ext
    r segs exts (db : DB) numWorkers infos (d' : driver DB SST) :
  snapshot_reader r segs exts -> (0 < numWorkers)%nat ->
  importParallel fast h0 p fs ext r db numWorkers (Ret infos, d') ->
  exists infos0 wss, Forall3 (store_result h0) (inputs segs) infos0 wss /\ map si_name infos0 = map fst segs /\
    infos = sortStores infos0 /\
    contents (b_db (d_b d')) = apply_writes (concat wss ++ tail_writes h0 infos) (contents db) /\
    d_files d' = snd (ext_run (mkExt ext [] 0 0) exts).
Proof.
  intros [H1 H2 H3 H4 H5 H6 H7] Hn. unfold importParallel.
  assert (Hok : Forall seg_ok segs) by (eapply Forall_impl; [exact H6|]; by intros ? [? _]).
  destruct (index_result r segs exts H1 H2 H4 Hok H7 H3) as (es & b & [_ Hes] & Eb & Hx & _).
  rewrite Eb, Hx, Hes, H2. set (idx0 := mkIndex _ _ _ _). set (scan := Ret _). intros Hret.
  remember (Ret infos, d') as res eqn:Eres. destruct Hret as [s s1 src Hs Hexit Hres Es1 Hsrc].
  destruct (finishParallel_ret h0 p fs ext _ _ _ _ _ _ _ Eres) as (Hfe & -> & Hc & idx & d1 & -> & Hext & H3s).
  destruct (snapshot_steps fast h0 p scan db segs exts H5 H6 H7 _ _ Hs) as [Hf|[L HL]].
  { exfalso. destruct Hf as [Hf|[Hf|[Hf|(r1 & E & Hr1)]]].
    - done.
    - rewrite Hres in Hf. by apply Exists_nil in Hf.
    - apply Exists_exists in Hf as (w & Hw & Hd). rewrite Forall_forall in Hexit. unfold doomed in Hd. by rewrite (Hexit w Hw) in Hd.
    - rewrite Es1 in E. injection E as <-. by apply (Hr1 idx). }
  assert (Hslash : Forall no_slash (map fst segs)).
  { apply Forall_fmap. eapply Forall_impl; [exact H6|]. by intros ? (_ & ? & _). }
  pose proof (workers_kept _ _ _ _ _ _ _ _ _ Hs) as Hlen.
  destruct (stage2_done fast h0 _ _ _ segs (contents db) H5 Hslash s L HL Hexit) as (Escan & infos0 & wss & HF & Hp & Hnames & V);
    [intros E; rewrite E in Hlen; cbn in Hlen; lia|done|].
  exists infos0, wss. split_and!; [done|done| | |].
  - unfold sortStores. apply sorted_by_name_unique; [|apply (StronglySorted_merge_sort name_le)..|].
    + by rewrite merge_sort_Permutation, Hp, Hnames.
    + by rewrite !merge_sort_Permutation.
  - rewrite Hc. cbn [mainDriver d_b b_db]. by rewrite V, apply_writes_app.
  - rewrite Es1 in Escan. injection Escan as ->. destruct Hext as [_ ->]. cbn [ext_run snd]. rewrite app_nil_r.
by apply (stage3_files p fs ext segs exts idx0 src (mainDriver ext s)).
Qed.

Lemma inputs_names segs : map fst (inputs segs) = map fst segs.
Proof. unfold inputs. by rewrite map_map. Qed.

Lemma fine_slash segs : Forall seg_fine segs -> Forall no_slash (map fst segs).
Proof. intros H. apply Forall_fmap. eapply Forall_impl; [exact H|]. by intros ? (_ & ? & _). Qed.

(** C3: Whatever the schedule of stage 1, the workers and their writers, and however
    far the ring readers run ahead before they learn where their store ends, a
    parallel import that succeeds built exactly what is in the snapshot: every
    store with its tree, Merkle hash and fast index, the records sorted by name in
    the commit info, the height as latest version, and no other key changed. *)
Theorem parallel_sound {DB SST} `{PL : PebbleLaws DB SST} {P} `{RP : RingPinner P} fast h0 (p : option P) fs ext
    r segs exts (db : DB) numWorkers infos (d' : driver DB SST) :
  snapshot_reader r segs exts -> (0 < numWorkers)%nat -> int64 h0 ->
  importParallel fast h0 p fs ext r db numWorkers (Ret infos, d') ->
  let m := contents (b_db (d_b d')) in
  exists infos0, infos = sortStores infos0 /\ map si_name infos0 = map fst segs /\
  Forall2 (imported_as m h0) (inputs segs) infos0 /\
  m !! commitInfoKey h0 = Some (commitInfoBytes h0 infos) /\ m !! latestVersionKey = Some (latestVersionBytes h0) /\
  (forall k, (forall i, i ∈ inputs segs -> other_key (fst i) k) ->
    k <> commitInfoKey h0 -> k <> latestVersionKey -> m !! k = contents db !! k).
Proof.
  intros Hr Hn Hh E. destruct (importParallel_writes fast h0 p fs ext r segs exts db numWorkers infos d' Hr Hn E)
    as (infos0 & wss & HF & Hnames & -> & -> & _).
  cbv zeta. exists infos0. split; [done|]. split; [done|].
  apply import_holds; [done|done|rewrite inputs_names; apply Hr|].
  apply (Forall_fmap fst no_slash). change (fst <$> inputs segs) with (map fst (inputs segs)). rewrite inputs_names.
  apply fine_slash, Hr.
Qed.

(** ** One tree per store *)

(** From the last node of a post-order backwards, the tree is read off without choice. *)
Lemma post_order_unique t : wf_tree t -> forall u a b ns, wf_tree u ->
  Forall2 node_of ns (a ++ subtrees t) -> Forall2 node_of ns (b ++ subtrees u) ->
  erase t = erase u /\ length a = length b.
Proof.
  assert (Hsnoc : forall ns ts t, Forall2 node_of ns (ts ++ [t]) ->
    exists ns' n, ns = ns' ++ [n] /\ Forall2 node_of ns' ts /\ node_of n t).
  { intros ns ts x HF. apply Forall2_app_inv_r in HF as (n1 & n2 & H1 & H2 & ->).
    apply Forall2_cons_inv_r in H2 as (n & l & Hn & H2 & ->). apply Forall2_nil_inv_r in H2 as ->. by exists n1, n. }
  induction t as [v n k x|h v n k l IHl r IHr]; intros Hwf u a b ns Hwu Ht Hu.
  - destruct u as [v' n' k' x'|h' v' n' k' l' r']; cbn [subtrees] in *; rewrite ?app_assoc in Ht; rewrite ?app_assoc in Hu.
    + apply Hsnoc in Ht as (n1 & m1 & -> & H1 & E1), Hu as (n2 & m2 & E2 & H2 & E3).
      apply app_inj_tail in E2 as [-> ->]. cbn in E1, E3. rewrite E1 in E3. injection E3 as -> -> ->. split; [done|].
      apply Forall2_length in H1, H2. lia.
    + exfalso. apply Hsnoc in Ht as (n1 & m1 & -> & _ & E1), Hu as (n2 & m2 & E2 & _ & E3 & _).
      apply app_inj_tail in E2 as [-> ->]. cbn in E1. subst m2. cbn in E3. destruct Hwu as (Hh & _ & Hwl & _).
      pose proof (wf_height_nonneg _ Hwl). lia.
  - destruct u as [v' n' k' x'|h' v' n' k' l' r']; cbn [subtrees] in *; rewrite ?app_assoc in Ht; rewrite ?app_assoc in Hu.
    + exfalso. apply Hsnoc in Hu as (n1 & m1 & -> & _ & E1), Ht as (n2 & m2 & E2 & _ & E3 & _).
      apply app_inj_tail in E2 as [-> ->]. cbn in E1. subst m2. cbn in E3. destruct Hwf as (Hh & _ & Hwl & _).
      pose proof (wf_height_nonneg _ Hwl). lia.
    + apply Hsnoc in Ht as (n1 & m1 & -> & H1 & E1 & E2 & E3), Hu as (n2 & m2 & E & H2 & E4 & E5 & E6).
      apply app_inj_tail in E as [-> ->]. destruct Hwf as (_ & _ & Wl & Wr), Hwu as (_ & _ & Wl' & Wr').
      destruct (IHr Wr r' _ _ _ Wr' H1 H2) as [Er Hlen].
      apply Forall2_app_inv_r in H1 as (x1 & x2 & H1 & _ & ->). apply Forall2_app_inv_r in H2 as (y1 & y2 & H2 & _ & E).
      pose proof (Forall2_length _ _ _ H1). pose proof (Forall2_length _ _ _ H2).
      apply app_inj_1 in E as [-> ->]; [|lia]. destruct (IHl Wl l' _ _ _ Wl' H1 H2) as [El Hab].
      split; [|done]. cbn. by rewrite El, Er, <- E1, <- E2, <- E3, E4, E5, E6.
Qed.

Lemma erase_nonces t : forall u, erase t = erase u -> map tnonce (subtrees t) = map tnonce (subtrees u) -> t = u.
Proof.
  induction t as [v n k x|h v n k l IHl r IHr]; intros [v' n' k' x'|h' v' n' k' l' r'] E En; try done.
  - cbn in *. by simplify_eq.
  - cbn [erase] in E. injection E as -> -> -> El Er. cbn [subtrees] in En. rewrite !map_app in En.
    apply app_inj_1 in En as [Enl En].
    + apply app_inj_tail in En as [Enr Enn]. cbn in Enn. by rewrite (IHl _ El Enl), (IHr _ Er Enr), Enn.
    + by rewrite !length_map, <- (erase_subtrees_length l), El, erase_subtrees_length.
Qed.

Lemma nonced_nonces ts us : nonced ts -> nonced us -> map tversion ts = map tversion us -> map tnonce ts = map tnonce us.
Proof.
  intros Ht Hu E. apply list_eq. intros i. rewrite !list_lookup_fmap.
  pose proof (f_equal (fun l => l !! i) E) as Ei. cbn in Ei. rewrite !list_lookup_fmap in Ei.
  destruct (ts !! i) as [t|] eqn:E1, (us !! i) as [u|] eqn:E2; try done. cbn in *. injection Ei as Ei.
  rewrite (Ht i t E1), (Hu i u E2), Ei. do 3 f_equal. by rewrite <- !firstn_map, E.
Qed.

Lemma store_result_unique h0 i a ws b ws' : store_result h0 i a ws -> store_result h0 i b ws' -> a = b /\ ws = ws'.
Proof.
  intros [name|name ns t Hwf Hns Hnc _ _] Hb; inversion Hb as [n|n ns' u Hwu Hnu Hncu _ _]; subst.
  - done.
  - apply Forall2_nil_inv_l in Hnu. by pose proof (last_subtrees u) as E; rewrite Hnu in E.
  - apply Forall2_nil_inv_l in Hns. by pose proof (last_subtrees t) as E; rewrite Hns in E.
  - destruct (post_order_unique t Hwf u [] [] ns Hwu Hns Hnu) as [E _].
    assert (t = u) as ->; [|done]. apply erase_nonces; [done|]. apply nonced_nonces; [done|done|].
    by rewrite <- erase_subtrees_versions, E, erase_subtrees_versions.
Qed.

Lemma store_results_unique h0 dn a wss : Forall3 (store_result h0) dn a wss ->
  forall b wss', Forall3 (store_result h0) dn b wss' -> a = b /\ wss = wss'.
Proof.
  induction 1 as [|i x ws dn a wss Hr _ IH]; intros b wss' Hb; inversion Hb as [|i' y ws' dn' b' wss1 Hr' HF']; subst; [done|].
  destruct (store_result_unique _ _ _ _ _ _ Hr Hr') as [-> ->]. by destruct (IH _ _ HF') as [-> ->].
Qed.

(** ** The two imports *)

(** The stores of the snapshot are the stores the serial import sees. *)
Lemma stores_in_snapshot segs exts : Forall seg_ok segs -> Forall ext_ok exts ->
  stores_in (snapshot_items segs exts) = inputs segs.
Proof.
  assert (Hnodes : forall its g n ns, snd g = Some (n, ns) -> Forall iavl_ok its ->
    fold_left group_item its g = (fst g, Some (n, ns ++ map item_node its))).
  { induction its as [|it its IH]; intros g n ns Eg Hits; cbn.
    - rewrite app_nil_r, <- Eg. by destruct g.
    - apply Forall_cons in Hits as [[_ Hty] Hits]. rewrite (IH _ n (ns ++ [item_node it])); [|by unfold group_item; rewrite Hty; cbn; rewrite Eg|done].
      unfold group_item. rewrite Hty. cbn. by rewrite <- app_assoc. }
  assert (Hsegs : forall l g, Forall seg_ok l ->
    let g' := fold_left group_item (concat (map seg_items l)) g in
    fst g' ++ option_list (snd g') = (fst g ++ option_list (snd g)) ++ inputs l).
  { induction l as [|[n its] l IH]; intros g Hs; cbn [map concat]; [by rewrite app_nil_r|].
    apply Forall_cons in Hs as [[_ Hits] Hs]. cbv zeta. rewrite fold_left_app. rewrite IH by done. unfold seg_items. cbn [fst snd fold_left].
    rewrite (Hnodes its (group_item g (store_item n)) n []) by done. cbn. by rewrite <- !app_assoc. }
  assert (Hexts : forall l g, Forall ext_ok l ->
    let g' := fold_left group_item l g in fst g' ++ option_list (snd g') = fst g ++ option_list (snd g)).
  { induction l as [|it l IH]; intros g He; [done|]. apply Forall_cons in He as [[_ Hty] He]. cbn [fold_left]. cbv zeta in *.
    rewrite IH by done. unfold group_item. destruct Hty as [-> | ->]; cbn; [by rewrite app_nil_r|done]. }
  intros Hs He. unfold stores_in, snapshot_items. cbv zeta. rewrite fold_left_app, Hexts by done. rewrite Hsegs by done. done.
Qed.

Lemma omap_some {A} (l : list A) : omap id (map Some l) = l.
Proof. induction l as [|x l IH]; [done|]. cbn. by rewrite IH. Qed.

(** Every item of a snapshot is one the serial import takes. *)
Lemma snapshot_fine segs exts : Forall seg_fine segs -> Forall ext_ok exts ->
  Forall item_small (snapshot_items segs exts) /\ Forall item_fine (snapshot_items segs exts).
Proof.
  intros Hs He. rewrite <- Forall_and. unfold snapshot_items. apply Forall_app. split.
  - induction Hs as [|[n its] segs ([H1 H2] & H3 & H4 & _) Hs IH]; [constructor|]. cbn [map concat].
    apply Forall_app. split; [|done]. constructor.
    { split; [exact H1|]. split; [intros _; exact H3|done]. }
    cbn [fst snd] in *.
    clear -H2 H4. induction H2 as [|it its [Hit Hty] H2 IH]; [constructor|]. apply Forall_cons in H4 as [H4 H5].
    constructor; [|by apply IH]. split; [done|]. split; by rewrite Hty.
  - eapply Forall_impl; [exact He|]. intros it [Hit Hty]. split; [done|].
    destruct Hty as [E | E]; split; by rewrite E.
Qed.

Lemma serial_writes {DB SST} `{PL : PebbleLaws DB SST} {P} `{RP : RingPinner P} h0 fs ext segs exts (db : DB) infos (d' : driver DB SST) :
  Forall seg_fine segs -> Forall ext_ok exts -> len (snapshot_items segs exts) + 2 < 2 ^ 32 ->
  runImport (P := P) (Source (item_wires (snapshot_items segs exts)) EOF) db h0 ext fs = (Ret infos, d') ->
  exists wss, Forall3 (store_result h0) (inputs segs) infos wss /\
    contents (b_db (d_b d')) = apply_writes (concat wss ++ tail_writes h0 infos) (contents db) /\
    d_files d' = snd (ext_run (mkExt ext [] 0 0) exts).
Proof.
  intros Hs He Hlen E. set (its := snapshot_items segs exts) in *.
  assert (Hok : Forall seg_ok segs) by (eapply Forall_impl; [exact Hs|]; by intros ? []).
  destruct (snapshot_fine segs exts Hs He) as [Hsmall Hfine].
  assert (Eo : omap id (map Some its) = its) by apply omap_some.
  destruct (readAll_wires (P := P) (S (length (item_wires its))) (map Some its)
    (newSnapReader (prefetched (Source (item_wires its) EOF)) None) eq_refl) as [rd Hread]; [by apply Forall_fmap| |].
  { pose proof (length_wires (map Some its)) as Hl. rewrite length_map in Hl. rewrite Eo. unfold item_wires. lia. }
  rewrite Eo in Hread.
  destruct (runImport_writes fs h0 _ db ext its _ rd infos d' Hread Hfine Hlen E) as (_ & wss & HF & V).
  destruct (runImport_feed fs h0 _ db ext its _ rd infos d' Hread E) as (_ & d1 & E1 & E2).
  exists wss. unfold its in HF. rewrite stores_in_snapshot in HF by done. split_and!; [done|done|].
  apply feed_ext in E1. apply finishImport_ext in E2. destruct E1 as [E1 E3], E2 as [_ E4].
  rewrite E4, E3. cbn. unfold its. rewrite app_nil_r. by rewrite ext_run_snapshot.
Qed.

(** C4: The parallel import of a snapshot gives what the serial import gives: when
    both succeed, its records are the serial ones sorted by name, the databases
    differ at most in the commit info of the height (the same records in another
    order), and the same extension files with the same contents are written. *)
Theorem parallel_agrees {DB SST} `{PL : PebbleLaws DB SST} {P} `{RP : RingPinner P} fast h0 (p : option P) fs ext
    r segs exts (db : DB) numWorkers infos infos1 (d' d1 : driver DB SST) :
  snapshot_reader r segs exts -> (0 < numWorkers)%nat -> len (snapshot_items segs exts) + 2 < 2 ^ 32 ->
  importParallel fast h0 p fs ext r db numWorkers (Ret infos, d') ->
  runImport (P := P) (Source (concat (rd_chunks r)) EOF) db h0 ext fs = (Ret infos1, d1) ->
  infos = sortStores infos1 /\ d_files d' = d_files d1 /\
  (forall k, k <> commitInfoKey h0 -> contents (b_db (d_b d')) !! k = contents (b_db (d_b d1)) !! k).
Proof.
  intros Hr Hn Hlen E E1. pose proof Hr as [_ H2 _ _ _ Hs He]. rewrite H2 in E1.
  destruct (importParallel_writes fast h0 p fs ext r segs exts db numWorkers infos d' Hr Hn E)
    as (infos0 & wss & HF & _ & -> & V & ->).
  destruct (serial_writes h0 fs ext segs exts db infos1 d1 Hs He Hlen E1) as (wss1 & HF1 & V1 & ->).
  destruct (store_results_unique _ _ _ _ HF _ _ HF1) as [-> ->]. split; [done|]. split; [done|].
  intros k Hk. rewrite V, V1, !apply_writes_app. cbn.
  destruct (decide (k = latestVersionKey)) as [->|Hk2]; [by rewrite !lookup_insert_eq|].
  by rewrite !lookup_insert_ne.
Qed.
