(* ===== verification/ParallelLive.v ===== *)
(** * The goroutines of the parallel import do not get stuck

    A scheduler for the system of [Parallel], total but for the states in which
    nothing is left to do, and a measure that every step makes smaller: all runs are
    finite, and one that cannot go on has all workers gone and all results taken
    (or a worker that panicked).  Commits may fail.  The channels with their
    capacities are in the system; the ring's memory is not: what is shown here is for
    an import whose ring readers never wait for room, and [ChunkRing.stuck_step] shows
    that an import can block for ever when the ring is full. *)

From S2P Require Import Prelude Sha256 Varint IavlEnc CommitInfo Importer SnapProto ChunkRing Index Streams RunImport Segment Parallel ParallelEquiv.

(** A commit returns, with or without an error. *)
Class CommitReturns (DB SST : Type) `{Pebble DB SST} :=
  commit_returns b (d : DB) : exists r d', BatchCommit b d = (r, d') /\ (r = Ret tt \/ exists e, r = Err e).

#[export] Instance batch_commit_returns {DB SST} `{BL : BatchLaws DB SST} : CommitReturns DB SST.
Proof. intros b d. destruct (commit_live b d) as [d' E]. exists (Ret tt), d'. split; [done|by left]. Qed.

Section Live.
Context {DB SST : Type} `{PB : Pebble DB SST} `{CR : !CommitReturns DB SST} {P : Type} `{RP : RingPinner P}.
Context (fast : bool) (h0 : Z) (p : option P).
Context (stream : bytes) (evs : list index_event) (scan : outcome SnapshotIndex).
Implicit Types (w : worker SST) (s : psys DB SST).
Abbreviation step := (pstep (SST := SST) fast h0 p stream evs scan).

(** ** A scheduler *)

(** A reader that stops exactly where its store does. *)
Definition exact_source (e : StoreEntry) : source :=
  let n := Z.to_nat (reader_end stream evs e - DecompressedStart e) in
  Source (take n (drop (Z.to_nat (DecompressedStart e)) stream)) EOF.

Definition worker_turn s (i : nat) w : option (psys DB SST) :=
  match wk_pc w with
  | WTake =>
      match p_ch s, p_s1 s with
      | e :: r, _ => Some (upd_worker i (mkWorker (WOpen (exact_source e)) (Name e) (wk_ing w) newAsyncBatchWriter) (p_db s)
                             (set_stage1 (p_events s) r (p_s1 s) s))
      | [], Some _ => Some (upd_worker i (set_pc WExit w) (p_db s) s)
      | [], None => None
      end
  | WSend r =>
      if len (p_results s) <? 4 * len (p_workers s)
      then Some (count_items r (upd_worker i (set_pc WTake w) (p_db s) (set_results (p_results s ++ [r]) s)))
      else None
  | _ =>
      match main_next fast h0 p w (p_db s), writer_next w (p_db s) with
      | Some (w', db), _ | None, Some (w', db) => Some (upd_worker i w' db s)
      | None, None => None
      end
  end.

Fixpoint first_turn s (i : nat) (ws : list (worker SST)) : option (psys DB SST) :=
  match ws with
  | [] => None
  | w :: ws => match worker_turn s i w with Some s' => Some s' | None => first_turn s (S i) ws end
  end.

Definition stage1_turn s : option (psys DB SST) :=
  match p_s1 s, p_events s with
  | None, [] => Some (set_stage1 [] (p_ch s) (Some scan) s)
  | None, EvClose _ _ :: r => Some (set_stage1 r (p_ch s) None s)
  | None, EvOpen e :: r => if len (p_ch s) <? 64 then Some (set_stage1 r (p_ch s ++ [e]) None s) else None
  | Some _, _ => None
  end.

Definition schedule s : option (psys DB SST) :=
  match p_results s with
  | r :: rs => Some (collect r (set_results rs s))
  | [] => match first_turn s 0 (p_workers s) with Some s' => Some s' | None => stage1_turn s end
  end.

Fixpoint run_schedule (fuel : nat) s : psys DB SST :=
  match fuel with
  | O => s
  | S fuel => match schedule s with Some s' => run_schedule fuel s' | None => s end
  end.

Lemma worker_turn_step s i w s' : p_workers s !! i = Some w -> worker_turn s i w = Some s' -> step s s'.
Proof using Type.
  intros Hi E. unfold worker_turn in E. destruct (wk_pc w) eqn:Epc.
  2-6, 8-9: destruct (main_next _ _ _ _ _) as [[w' db]|] eqn:E1;
    [injection E as <-; by apply (ps_main _ _ _ _ _ _ s i w)|destruct (writer_next _ _) as [[w' db]|] eqn:E2; [|done];
     injection E as <-; by apply (ps_writer _ _ _ _ _ _ s i w)].
  - destruct (p_ch s) as [|e r] eqn:Ech.
    + destruct (p_s1 s) eqn:Es1; [|done]. injection E as <-. apply ps_exit; [done..|]. congruence.
    + injection E as <-. apply (ps_take _ _ _ _ _ _ s i w e r); try done. apply del_end. lia.
  - destruct (Z.ltb_spec (len (p_results s)) (4 * len (p_workers s))); [|done]. injection E as <-. by apply ps_send.
Qed.

Lemma first_turn_step s s' ws : forall i, (forall j w, ws !! j = Some w -> p_workers s !! (i + j)%nat = Some w) ->
  first_turn s i ws = Some s' -> step s s'.
Proof using Type.
  induction ws as [|w ws IH]; intros i Hws E; [done|]. cbn [first_turn] in E.
  destruct (worker_turn s i w) eqn:E1.
  - injection E as <-. eapply worker_turn_step; [|done]. rewrite <- (Nat.add_0_r i). by apply (Hws 0%nat).
  - apply (IH (S i)); [|done]. intros j w' Hj. rewrite Nat.add_succ_l, <- Nat.add_succ_r. by apply Hws.
Qed.

Lemma schedule_step s s' : schedule s = Some s' -> step s s'.
Proof using Type.
  unfold schedule. destruct (p_results s) as [|r rs] eqn:Er; [|intros [= <-]; by apply ps_collect].
  destruct (first_turn _ _ _) as [s1|] eqn:E1; [intros [= <-]; by apply (first_turn_step s _ (p_workers s) 0)|].
  unfold stage1_turn. destruct (p_s1 s) eqn:Es; [done|]. destruct (p_events s) as [|[e|n e] r] eqn:Ee.
  - intros [= <-]. by apply ps_scanned.
  - destruct (Z.ltb_spec (len (p_ch s)) 64); [|done]. intros [= <-]. by apply ps_open.
  - intros [= <-]. by eapply ps_close.
Qed.

Lemma run_schedule_steps fuel : forall s, steps step s (run_schedule fuel s).
Proof using Type.
  induction fuel as [|fuel IH]; intros s; [constructor|]. cbn. destruct (schedule s) as [s'|] eqn:E; [|constructor].
  econstructor; [by apply schedule_step|apply IH].
Qed.

(** ** Nobody waits for ever *)

Definition gone w : Prop := wk_pc w = WExit.
Definition crashed w : Prop := wk_pc w = WCrash.

#[export] Instance crashed_dec w : Decision (crashed w).
Proof using Type. unfold crashed. destruct (wk_pc w); first [by left | by right]. Defined.

(** A worker leaves only when stage 1 is through and its channel is empty. *)
Definition exits s : Prop := Exists gone (p_workers s) -> p_ch s = [] /\ p_s1 s <> None.

Lemma gone_main w db w' db' : main_next fast h0 p w db = Some (w', db') -> gone w' -> gone w.
Proof using Type.
  unfold main_next, gone. intros E Hg. exfalso. repeat case_match; try discriminate E; injection E as <- _; discriminate Hg.
Qed.

Lemma gone_writer w db w' db' : writer_next w db = Some (w', db') -> gone w' -> gone w.
Proof using Type.
  unfold writer_next, gone. intros E Hg. repeat case_match; try discriminate E; injection E as <- _; try discriminate Hg; exact Hg.
Qed.

Lemma exits_worker s i w w' db : p_workers s !! i = Some w -> (gone w' -> gone w) -> exits s -> exits (upd_worker i w' db s).
Proof using Type.
  intros Hi Hg Hs. destruct (worker_split _ _ _ Hi) as (l1 & l2 & E1 & E2). unfold exits in *. cbn.
  rewrite E2, Exists_mid. rewrite E1, Exists_mid in Hs. intros Hex. apply Hs. tauto.
Qed.

Lemma exits_step s s' : exits s -> step s s' -> exits s'.
Proof using Type.
  intros Hs Hstep. destruct Hstep as [s e r H1 H2 H3|s e H1|s n e r H1 H2|s H1 H2|s i w e r src H1 H2 H3 H4
    |s i w H1 H2 H3 H4|s i w w' db H1 H2|s i w w' db H1 H2|s i w r H1 H2 H3|s r rs H1].
  - intros Hex. by destruct (Hs Hex).
  - intros Hex. by destruct (Hs Hex).
  - intros Hex. by destruct (Hs Hex).
  - intros Hex. by destruct (Hs Hex).
  - intros Hex. exfalso. destruct (worker_split _ _ _ H1) as (l1 & l2 & E1 & E2). unfold exits in Hs. cbn in Hex.
    rewrite E2, Exists_mid in Hex. rewrite E1, Exists_mid, H3 in Hs. destruct Hex as [Hex|Hex]; [|done].
    by destruct Hs; [left|].
  - by intros _.
  - eapply exits_worker; [done|by eapply gone_main|done].
  - eapply exits_worker; [done|by eapply gone_writer|done].
  - assert (Hu : exits (upd_worker i (set_pc WTake w) (p_db s) (set_results (p_results s ++ [r]) s))).
    { by eapply (exits_worker (set_results _ s)); [done| |done]. }
    destruct r as [[info n]|e]; exact Hu.
  - destruct r as [[info n]|e]; exact Hs.
Qed.

(** A worker that cannot move, its writer included, waits for stage 1 or is gone;
    a worker with a result always finds room once the results are taken. *)
Lemma worker_stuck s i w : worker_turn s i w = None -> p_results s = [] -> p_workers s <> [] ->
  gone w \/ crashed w \/ (wk_pc w = WTake /\ p_ch s = [] /\ p_s1 s = None).
Proof using Type.
  intros E Hr Hne. unfold worker_turn, gone, crashed in *. destruct (wk_pc w) as [|src|todo r|todo r|r|h n|r| |] eqn:Epc.
  - destruct (p_ch s); [|done]. destruct (p_s1 s); [done|]. by right; right.
  - exfalso. unfold main_next in E. rewrite Epc in E. repeat (case_match; try done).
  - exfalso. unfold main_next, writer_next in E. rewrite Epc in E. destruct todo; [by repeat case_match|].
    destruct (wk_writer w) as [ch [cur|] er]; cbn in E.
    + repeat (case_match; try done).
    + destruct ch; [done|]. repeat (case_match; try done).
  - exfalso. unfold main_next in E. rewrite Epc in E. repeat (case_match; try done).
  - exfalso. unfold main_next, writer_next in E. rewrite Epc in E. destruct (wk_writer w) as [ch [cur|] er]; cbn in E.
    + repeat (case_match; try done).
    + destruct ch; [|discriminate E]. repeat (case_match; try done).
  - exfalso. unfold main_next in E. rewrite Epc in E. repeat (case_match; try done).
  - exfalso. rewrite Hr in E. destruct (p_workers s) as [|w0 ws]; [done|]. rewrite len_cons in E.
    pose proof (len_nonneg ws). change (len (@nil workerOut)) with 0 in E. rewrite (proj2 (Z.ltb_lt _ _)) in E by lia. done.
  - by left.
  - by right; left.
Qed.

Lemma first_turn_none s ws : forall i, first_turn s i ws = None -> Forall (fun w => exists j, worker_turn s j w = None) ws.
Proof using Type.
  induction ws as [|w ws IH]; intros i E; [constructor|]. cbn in E. destruct (worker_turn s i w) eqn:E1; [done|].
  constructor; [by exists i|by eapply IH].
Qed.

(** What ImportParallel waits for. *)
Definition finished s : Prop := Forall gone (p_workers s) /\ p_results s = [] /\ p_s1 s <> None.

Lemma schedule_none s : schedule s = None -> exits s -> p_workers s <> [] -> finished s \/ Exists crashed (p_workers s).
Proof using Type.
  intros E Hex Hne. unfold schedule in E. destruct (p_results s) eqn:Er; [|done].
  destruct (first_turn s 0 (p_workers s)) eqn:E1; [done|]. apply first_turn_none in E1.
  destruct (decide (Exists crashed (p_workers s))) as [Hc|Hc]; [by right|left].
  apply not_Exists_Forall in Hc; [|apply _].
  assert (Hall : Forall (fun w => gone w \/ (wk_pc w = WTake /\ p_ch s = [] /\ p_s1 s = None)) (p_workers s)).
  { apply Forall_forall. intros w Hw. rewrite Forall_forall in E1, Hc. destruct (E1 w Hw) as [j Hj].
    destruct (worker_stuck s j w Hj Er Hne) as [|[|]]; [by left|by destruct (Hc w Hw)|by right]. }
  assert (Hs1 : p_s1 s <> None).
  { intros Hs1. unfold stage1_turn in E. rewrite Hs1 in E. destruct (p_events s) as [|[e|n e] r]; try done.
    destruct (Z.ltb_spec (len (p_ch s)) 64) as [|Hfull]; [done|]. destruct (p_workers s) as [|w ws] eqn:Ew; [done|].
    apply Forall_cons in Hall as [[Hw|(_ & Hch & _)] _].
    - destruct Hex as [_ Hn]; [rewrite Ew; by left|done].
    - rewrite Hch in Hfull. change (len (@nil StoreEntry)) with 0 in Hfull. lia. }
  split_and!; [|done|done]. eapply Forall_impl; [exact Hall|]. by intros w [|(_ & _ & ?)].
Qed.

(** ** Every run is finite *)

(** Stores that have not been run yet, then what is left to do for the others. *)
Definition unopened w : nat := match wk_pc w with WOpen _ => 1 | _ => 0 end.
Definition to_do w : nat :=
  match wk_pc w with
  | WTake => 1
  | WOpen _ => 0
  | WSubmit todo _ => (7 + 5 * length todo)%nat
  | WCheck todo _ => (8 + 5 * length todo)%nat
  | WDrain _ => 6
  | WIngest _ _ => 5
  | WSend _ => 4
  | WExit | WCrash => 0
  end.
Definition to_commit w : nat :=
  (2 * length (aw_ch (wk_writer w)) + match aw_cur (wk_writer w) with Some _ => 1 | None => 0 end)%nat.

Definition sum_of (f : worker SST -> nat) (ws : list (worker SST)) : nat := list_sum (map f ws).
#[local] Arguments sum_of : simpl never.

Definition stores_left s : nat :=
  (match p_s1 s with None => 1 | Some _ => 0 end + 3 * length (p_events s) + 2 * length (p_ch s) +
   sum_of unopened (p_workers s))%nat.
Definition work_left s : nat :=
  (sum_of (fun w => to_do w + to_commit w)%nat (p_workers s) + 2 * length (p_results s))%nat.

Definition smaller s' s : Prop :=
  (stores_left s' < stores_left s)%nat \/ (stores_left s' = stores_left s /\ (work_left s' < work_left s)%nat).

Lemma sum_mid f l1 w l2 : sum_of f (l1 ++ w :: l2) = (f w + sum_of f (l1 ++ l2))%nat.
Proof using Type.
  unfold sum_of. rewrite !map_app, map_cons, !list_sum_app.
  change (list_sum (f w :: map f l2)) with (f w + list_sum (map f l2))%nat. lia.
Qed.

Lemma smaller_worker s i w w' db : p_workers s !! i = Some w ->
  (unopened w' < unopened w)%nat \/ (unopened w' = unopened w /\ (to_do w' + to_commit w' < to_do w + to_commit w)%nat) ->
  smaller (upd_worker i w' db s) s.
Proof using Type.
  intros Hi Hw. destruct (worker_split _ _ _ Hi) as (l1 & l2 & E1 & E2). unfold smaller, stores_left, work_left.
  cbn -[to_commit to_do unopened Nat.mul]. rewrite E2, E1, !sum_mid. lia.
Qed.

Lemma to_commit_pc pc w : to_commit (set_pc pc w) = to_commit w.
Proof using Type. reflexivity. Qed.
Lemma to_commit_wing pc i w : to_commit (set_wing pc i w) = to_commit w.
Proof using Type. reflexivity. Qed.

Lemma main_smaller w db w' db' : main_next fast h0 p w db = Some (w', db') ->
  (unopened w' < unopened w)%nat \/ (unopened w' = unopened w /\ (to_do w' + to_commit w' < to_do w + to_commit w)%nat).
Proof using Type.
  unfold main_next. intros E.
  assert (Hu : unopened w = match wk_pc w with WOpen _ => 1%nat | _ => 0%nat end) by done. unfold to_do at 2.
  destruct (wk_pc w) as [|src|todo r|todo r|r|h n|r| |] eqn:Epc; try done; rewrite Hu.
  - left. repeat (case_match; try discriminate E); injection E as <- _; cbn; lia.
  - right. destruct todo as [|bt todo].
    + destruct r; injection E as <- _; rewrite to_commit_pc; cbn -[to_commit]; lia.
    + destruct (2 <=? _); [done|]. injection E as <- _. unfold to_commit. cbn. rewrite length_app. cbn. lia.
  - right. destruct (aw_err _); injection E as <- _; rewrite to_commit_pc; cbn -[to_commit]; lia.
  - right. repeat (case_match; try discriminate E); injection E as <- _; rewrite to_commit_pc; cbn -[to_commit]; lia.
  - right. repeat (case_match; try discriminate E); injection E as <- _; rewrite ?to_commit_pc, ?to_commit_wing; cbn -[to_commit]; lia.
Qed.

Lemma writer_smaller w db w' db' : writer_next w db = Some (w', db') ->
  unopened w' = unopened w /\ (to_do w' + to_commit w' < to_do w + to_commit w)%nat.
Proof using CR.
  unfold writer_next, unopened, to_do, to_commit. destruct w as [pc name ing [ch cur er]]. cbn. intros E. destruct cur as [bt|].
  - destruct (commit_returns bt db) as (r & d & Ed & Hr). rewrite Ed in E.
    destruct Hr as [->|[e ->]]; injection E as <- _; cbn; lia.
  - destruct ch as [|bt ch]; [done|]. injection E as <- _. cbn. lia.
Qed.

Lemma step_smaller s s' : step s s' -> smaller s' s.
Proof using CR.
  intros Hstep. destruct Hstep as [s e r H1 H2 H3|s e H1|s n e r H1 H2|s H1 H2|s i w e r src H1 H2 H3 H4
    |s i w H1 H2 H3 H4|s i w w' db H1 H2|s i w w' db H1 H2|s i w r H1 H2 H3|s r rs H1].
  - left. unfold stores_left. cbn. rewrite H1, H2, length_app. cbn. lia.
  - left. unfold stores_left. cbn. rewrite H1. lia.
  - left. unfold stores_left. cbn. rewrite H1, H2. cbn. lia.
  - left. unfold stores_left. cbn. rewrite H1, H2. cbn. lia.
  - left. destruct (worker_split _ _ _ H1) as (l1 & l2 & E1 & E2). unfold stores_left. cbn.
    rewrite E2, E1, !sum_mid, H3. unfold unopened at 1 3. rewrite H2. cbn. lia.
  - apply (smaller_worker s i w); [done|]. right. unfold unopened, to_do, to_commit. rewrite H2. cbn. lia.
  - eapply smaller_worker; [done|by eapply main_smaller].
  - eapply smaller_worker; [done|]. right. by eapply writer_smaller.
  - right. destruct (worker_split _ _ _ H1) as (l1 & l2 & E1 & E2).
    destruct r as [[info n]|e]; unfold stores_left, work_left; cbn; rewrite E2, E1, !sum_mid, length_app;
      unfold unopened at 1 3, to_do at 1 3; rewrite H2; cbn; split; try done; unfold to_commit; cbn; lia.
  - right. destruct r as [[info n]|e]; unfold stores_left, work_left; cbn; rewrite H1; cbn; split; try done; lia.
Qed.

Lemma step_terminates s : Acc (fun a b => step b a) s.
Proof using CR.
  assert (H1 : forall n m s, (stores_left s < n)%nat \/ (stores_left s = n /\ (work_left s < m)%nat) -> Acc (fun a b => step b a) s).
  { intros n. induction n as [n IHn] using lt_wf_ind. intros m. induction m as [m IHm] using lt_wf_ind.
    intros x Hx. constructor. intros y Hy%step_smaller. destruct Hx as [Hx|[Hx1 Hx2]].
    - apply (IHn (stores_left x) Hx (S (work_left y))). destruct Hy as [Hy|[Hy _]]; [by left|right; lia].
    - destruct Hy as [Hy|[Hy1 Hy2]].
      + apply (IHn (stores_left y) ltac:(lia) (S (work_left y))). right. lia.
      + apply (IHm (S (work_left y))); [lia|]. right. lia. }
  apply (H1 (stores_left s) (S (work_left s))). right. lia.
Qed.

Lemma exits_reach db n s : steps step (init_par evs db n) s -> exits s /\ length (p_workers s) = n.
Proof using Type.
  intros Hs. split.
  - apply (steps_invariant step (fun s => exits s) _ _) in Hs; [done|intros; by eapply exits_step|].
    intros Hex. exfalso. cbn in Hex. apply Exists_exists in Hex as (w & Hw & Hg). by apply elem_of_replicate in Hw as [-> _].
  - by apply (workers_kept fast h0 p stream evs scan db n s).
Qed.

(** Running the scheduler long enough reaches the end. *)
Lemma schedule_ends s : exits s -> p_workers s <> [] ->
  exists fuel, finished (run_schedule fuel s) \/ Exists crashed (p_workers (run_schedule fuel s)).
Proof using CR.
  induction (step_terminates s) as [s _ IH]. intros Hex Hne. destruct (schedule s) as [s1|] eqn:E.
  - pose proof (schedule_step s s1 E) as Hst. destruct (IH s1 Hst) as [fuel Hf]; [by eapply exits_step| |].
    + intros E1. apply Hne, length_zero_iff_nil. rewrite <- (step_workers fast h0 p stream evs scan s s1 Hst). by rewrite E1.
    + exists (S fuel). cbn. by rewrite E.
  - exists 0%nat. by apply schedule_none.
Qed.
End Live.

(** ** Workers that do not crash *)

Definition returned {A} (r : outcome A) : Prop := match r with Ret _ | Err _ => True | _ => False end.

Section Calm.
Context {DB SST : Type} `{PB : Pebble DB SST} {P : Type} `{RP : RingPinner P}.
Context (fast : bool) (h0 : Z) (p : option P).
Context (stream : bytes) (evs : list index_event) (scan : outcome SnapshotIndex).
Implicit Types (w : worker SST) (s : psys DB SST).

(** What the reader of a store of this import may deliver. *)
Definition store_source (src : source) : Prop := exists e, EvOpen e ∈ evs /\
  delivered stream (DecompressedStart e) (reader_end stream evs e) src.

(** Opening an SSTable, ingesting it and reading a store return, none of them by a panic. *)
Definition calm : Prop :=
  (forall name (b : bstate DB SST), returned (fst (openSegment fast name b))) /\
  (forall name (b : bstate DB SST), returned (fst (ingestSegment fast name b))) /\
  (forall name src (ing : fastIngester SST), store_source src ->
     returned (fst (fst (segment_body (DB := DB) fast name h0 src p ing)))).

Definition calm_worker w : Prop :=
  match wk_pc w with
  | WOpen src => store_source src
  | WSubmit _ r | WCheck _ r | WDrain r => returned r
  | WCrash => False
  | _ => True
  end.

Definition calm_state s : Prop :=
  Forall calm_worker (p_workers s) /\ (forall e, e ∈ p_ch s -> EvOpen e ∈ evs) /\ p_events s ⊆ evs.

Lemma calm_main w db w' db' : calm -> calm_worker w -> main_next fast h0 p w db = Some (w', db') -> calm_worker w'.
Proof using Type.
  intros (Ho & Hi & Hs) Hw E. unfold main_next in E. unfold calm_worker in Hw |- *. revert Hw E.
  destruct (wk_pc w) as [|src|todo r|todo r|r|h n|r| |]; try done; intros Hw E.
  - specialize (Ho (wk_name w) (mkB db [] 0 (wk_ing w))). destruct (openSegment _ _ _) as [[[]|e|m|] b]; try done.
    + specialize (Hs (wk_name w) src (b_ing b) Hw). destruct (segment_body _ _ _ _ _ _) as [[r bs] ing].
      injection E as <- _. exact Hs.
    + by injection E as <- _.
  - destruct todo as [|bt todo]; [destruct r|destruct (2 <=? _)]; try done; by injection E as <- _.
  - destruct (aw_err _); by injection E as <- _.
  - destruct (aw_ch (wk_writer w)), (aw_cur (wk_writer w)); try done.
    destruct r as [[]|e|m|], (aw_err (wk_writer w)); try done; by injection E as <- _.
  - specialize (Hi (wk_name w) (mkB db [] 0 (wk_ing w))). destruct (ingestSegment _ _ _) as [[[]|e|m|] b]; try done;
      by injection E as <- _.
Qed.

Lemma calm_writer `{!CommitReturns DB SST} w db w' db' :
  calm_worker w -> writer_next w db = Some (w', db') -> calm_worker w'.
Proof using Type.
  intros Hw E. unfold writer_next in E. destruct (aw_cur (wk_writer w)) as [bt|], (aw_ch (wk_writer w)); try done.
  all: try (destruct (commit_returns bt db) as (r & d & Ed & [->|[e ->]]); rewrite Ed in E).
  all: by injection E as <- _.
Qed.

Lemma calm_upd s i w db : calm_state s -> calm_worker w -> calm_state (upd_worker i w db s).
Proof using Type. intros (Hw & He & Hc) H. split_and!; [by apply Forall_insert|done|done]. Qed.

Lemma calm_step `{!CommitReturns DB SST} s s' : calm -> calm_state s -> pstep fast h0 p stream evs scan s s' -> calm_state s'.
Proof using Type.
  intros Hc Hs Hstep. pose proof Hs as (Hw & Hch & He). rewrite Forall_lookup in Hw.
  destruct Hstep as [s e r H1 H2 H3|s e H1|s n e r H1 H2|s H1 H2|s i w e r src H1 H2 H3 H4
    |s i w H1 H2 H3 H4|s i w w' db H1 H2|s i w w' db H1 H2|s i w r H1 H2 H3|s r rs H1].
  - rewrite H2 in He. split_and!; [apply Hs| |set_solver]. cbn. set_solver.
  - split_and!; [apply Hs|done|cbn; set_solver].
  - rewrite H2 in He. split_and!; [apply Hs|done|set_solver].
  - split_and!; [apply Hs|done|cbn; set_solver].
  - apply (calm_upd (set_stage1 (p_events s) r (p_s1 s) s)).
    + split_and!; [apply Hs| |done]. cbn. intros e' He'. apply Hch. rewrite H3. by right.
    + exists e. split; [apply Hch; rewrite H3; by left|done].
  - by apply calm_upd.
  - apply calm_upd; [done|]. eapply calm_main; [done|by eapply Hw|done].
  - apply calm_upd; [done|]. eapply calm_writer; [by eapply Hw|done].
  - assert (Hu : calm_state (upd_worker i (set_pc WTake w) (p_db s) (set_results (p_results s ++ [r]) s)))
      by by apply (calm_upd (set_results _ s)).
    destruct r as [[info n]|e]; exact Hu.
  - destruct r as [[info n]|e]; exact Hs.
Qed.

Lemma calm_reach `{!CommitReturns DB SST} db n s :
  calm -> steps (pstep fast h0 p stream evs scan) (init_par evs db n) s -> ~ Exists crashed (p_workers s).
Proof using Type.
  intros Hc Hs. assert (H : calm_state s).
  { eapply (steps_invariant _ calm_state); [intros a b Ha Hab; by eapply calm_step| |exact Hs].
    split_and!; [by apply Forall_replicate|by intros e ?%elem_of_nil|done]. }
  destruct H as (Hw & _). intros (w & Hin & Hcr)%Exists_exists. rewrite Forall_forall in Hw. specialize (Hw w Hin).
  unfold calm_worker in Hw. by rewrite Hcr in Hw.
Qed.
End Calm.

(** C5: Whatever the ring readers deliver and whichever commits fail, the goroutines
    of the parallel import cannot deadlock on its channels and cannot run for ever,
    as long as a commit returns and the ring has room: from every state the import
    reaches, all runs are finite; there is a run to the end, and a run that cannot be
    continued has all its workers gone, every result taken and stage 1 through, which
    is what ImportParallel waits for, or has a worker stopped by a panic, or by the
    item decoder that does not return on a forged item.  If opening an SSTable,
    ingesting it and reading a store of this stream all return without a panic, no
    worker is stopped so.  The ring's memory is not part of this system: a ring reader
    is a source that never waits, and stage 1 never waits for room in the ring (a
    full ring can block the import for ever). *)
Theorem parallel_terminates {DB SST} `{PB : Pebble DB SST} `{CR : !CommitReturns DB SST} {P} `{RP : RingPinner P}
    fast h0 (p : option P) stream evs scan (db : DB) numWorkers (s : psys DB SST) :
  (0 < numWorkers)%nat -> steps (pstep fast h0 p stream evs scan) (init_par evs db numWorkers) s ->
  Acc (fun a b => pstep fast h0 p stream evs scan b a) s /\
  (exists s', steps (pstep fast h0 p stream evs scan) s s' /\ (finished s' \/ Exists crashed (p_workers s'))) /\
  ((forall s', ~ pstep fast h0 p stream evs scan s s') -> finished s \/ Exists crashed (p_workers s)) /\
  (calm (DB := DB) (SST := SST) fast h0 p stream evs -> ~ Exists crashed (p_workers s)).
Proof.
  intros Hn Hs. destruct (exits_reach fast h0 p stream evs scan db numWorkers s Hs) as [Hex Hlen].
  assert (Hne : p_workers s <> []) by (intros E; rewrite E in Hlen; cbn in Hlen; lia).
  split; [by apply step_terminates|]. split; [|split; [|intros; by eapply calm_reach]].
  - destruct (schedule_ends fast h0 p stream evs scan s Hex Hne) as [fuel Hf].
    exists (run_schedule fast h0 p stream evs scan fuel s). split; [apply run_schedule_steps|done].
  - intros Hno. apply (schedule_none fast h0 p stream evs scan); [|done|done].
    destruct (schedule fast h0 p stream evs scan s) as [s'|] eqn:E; [|done]. by destruct (Hno s'); eapply schedule_step.
Qed.

(** ** A concrete import *)

Definition par_segs : list Index.segment := [(str "gov", [sample_leaf "a" "1"]); (str "acc", [])].
Definition par_reader : reader := mkReader [item_wires (snapshot_items par_segs sample_exts)] EOF true.

Lemma par_reader_ok : snapshot_reader par_reader par_segs sample_exts.
Proof.
  split.
  - reflexivity.
  - vm_compute. reflexivity.
  - vm_compute. reflexivity.
  - discriminate.
  - by_compute.
  - repeat constructor; try (vm_compute; congruence); unfold no_slash; by_compute.
  - repeat constructor; try (vm_compute; congruence); first [by left | by right].
Qed.

Definition par_index := buildIndexFromReader log_open log_close par_reader [].
Abbreviation map_psys := (psys (gmap bytes bytes) (list write)).

Definition par_final (fast : bool) (n : nat) : map_psys :=
  run_schedule (P := counter) fast 7 None (concat (rd_chunks par_reader)) (bd_x (snd par_index)) (fst par_index) 200
    (init_par (bd_x (snd par_index)) ∅ n).

Definition all_gone (s : map_psys) : bool :=
  forallb (fun w => match wk_pc w with WExit => true | _ => false end) (p_workers s).

Definition par_rest : source := Source (item_wires sample_exts) EOF.

Definition par_ext : Z := len (item_wires (concat (map seg_items par_segs))).

Lemma par_rest_eq : par_rest = Source (take 20 (drop (Z.to_nat par_ext) (concat (rd_chunks par_reader)))) EOF.
Proof. vm_compute. reflexivity. Qed.

(** Two workers import the sample under the scheduler above. *)
Lemma par_run : exists infos d', importParallel (P := counter) true 7 None good_fs true par_reader
    (∅ : gmap bytes bytes) 2 (Ret infos, d') /\ map si_name infos = [str "acc"; str "gov"] /\
    d_files d' = [(mkExtFile (str "wasm") 0 1, str "code")].
Proof.
  unfold importParallel. change (buildIndexFromReader log_open log_close par_reader []) with par_index.
  destruct par_index as [scan b] eqn:Ei. set (s := par_final true 2).
  destruct (finishParallel (DB := gmap bytes bytes) (SST := list write) (P := counter) 7 None good_fs true (p_firstErr s) scan (p_stores s)
    (Some par_rest) (mainDriver true s)) as [o d'] eqn:Ef.
  assert (Es : scan = fst par_index) by by rewrite Ei.
  assert (Ho : match o with Ret infos => map si_name infos = [str "acc"; str "gov"] | _ => False end /\
    d_files d' = [(mkExtFile (str "wasm") 0 1, str "code")]).
  { change o with (fst (o, d')). change d' with (snd (o, d')) at 2. rewrite <- Ef, Es. vm_compute. by split. }
  destruct Ho as [Ho Hf]. destruct o as [infos|e|m|]; [|destruct Ho..]. exists infos, d'.
  split; [|exact (conj Ho Hf)].
  rewrite <- Ef. apply par_returns.
  - unfold s, par_final. rewrite Ei. apply run_schedule_steps.
  - apply Forall_forall. intros w Hw. assert (Hg : all_gone s = true) by (vm_compute; reflexivity).
    unfold all_gone in Hg. rewrite forallb_forall in Hg. apply list_elem_of_In, Hg in Hw. by destruct (wk_pc w).
  - vm_compute. reflexivity.
  - rewrite Es. vm_compute. reflexivity.
  - destruct scan as [idx| | |]; [|exact I..].
    assert (Hx : ExtStart idx = par_ext /\ TotalBytes idx = par_ext + 20).
    { enough (Hr : match fst par_index with Ret i => ExtStart i = par_ext /\ TotalBytes i = par_ext + 20 | _ => False end)
        by by rewrite <- Es in Hr. vm_compute. split; reflexivity. }
    destruct Hx as [-> ->]. rewrite par_rest_eq. apply del_end. vm_compute. discriminate.
Qed.

Lemma parallel_sound_witness : exists infos d', importParallel (P := counter) true 7 None good_fs true par_reader
    (∅ : gmap bytes bytes) 2 (Ret infos, d') /\
  contents (b_db (d_b d')) !! latestVersionKey = Some (latestVersionBytes 7) /\
  exists infos0, infos = sortStores infos0 /\ Forall2 (imported_as (contents (b_db (d_b d'))) 7) (inputs par_segs) infos0.
Proof.
  destruct par_run as (infos & d' & E & _). exists infos, d'.
  destruct (parallel_sound true 7 None good_fs true par_reader par_segs sample_exts ∅ 2 infos d') as (infos0 & H1 & _ & H2 & _ & H3 & _).
  - exact par_reader_ok.
  - lia.
  - unfold int64. lia.
  - exact E.
  - split; [exact E|]. split; [exact H3|]. exists infos0. split; [exact H1|exact H2].
Defined.

Lemma parallel_agrees_witness : exists infos infos1 d' d1,
  importParallel (P := counter) true 7 None good_fs true par_reader (∅ : gmap bytes bytes) 2 (Ret infos, d') /\
  runImport (P := counter) (Source (concat (rd_chunks par_reader)) EOF) ∅ 7 true good_fs = (Ret infos1, d1) /\
  map si_name infos1 = [str "gov"; str "acc"] /\ infos = sortStores infos1 /\ d_files d' = d_files d1.
Proof.
  destruct par_run as (infos & d' & E & _).
  destruct (runImport (P := counter) (Source (concat (rd_chunks par_reader)) EOF) (∅ : gmap bytes bytes) 7 true good_fs) as [o d1] eqn:E1.
  assert (Ho : match o with Ret infos => map si_name infos = [str "gov"; str "acc"] | _ => False end).
  { change o with (fst (o, d1)). rewrite <- E1. vm_compute. reflexivity. }
  destruct o as [infos1|e|m|]; [|destruct Ho..]. exists infos, infos1, d', d1.
  destruct (parallel_agrees true 7 None good_fs true par_reader par_segs sample_exts ∅ 2 infos infos1 d' d1) as (H1 & H2 & _).
  - exact par_reader_ok.
  - lia.
  - vm_compute. reflexivity.
  - exact E.
  - exact E1.
  - split; [exact E|]. split; [reflexivity|]. split; [exact Ho|]. split; [exact H1|exact H2].
Defined.

(** A database on which no commit succeeds. *)
Record broken_db := BrokenDB { broken_contents : gmap bytes bytes }.

#[export] Instance broken_pebble : Pebble broken_db (list write) := {
  contents := broken_contents;
  entries ws := ws;
  BatchCommit _ := fail (Errorf "disk full");
  SstCreate _ m := (Ret [], m);
  SstSet k v ws := (Ret tt, ws ++ [(k, v)]);
  SstClose _ := Ret tt;
  Ingest _ := mret tt
}.

#[export] Instance broken_returns : CommitReturns broken_db (list write).
Proof. intros b d. eexists _, _. split; [reflexivity|]. right. by eexists. Qed.

Lemma parallel_terminates_witness :
  Acc (fun a b => pstep false 7 (None : option counter) (concat (rd_chunks par_reader)) (bd_x (snd par_index)) (fst par_index) b a)
    (init_par (bd_x (snd par_index)) (BrokenDB ∅) 2 : psys broken_db (list write)).
Proof.
  apply (parallel_terminates false 7 None (concat (rd_chunks par_reader)) (bd_x (snd par_index)) (fst par_index) (BrokenDB ∅) 2).
  - lia.
  - apply steps_refl.
Defined.

(** A reader that read ahead, and then learned where its store ends, sees a cut
    envelope after the store: the store fails although all its items are there. *)
Lemma read_ahead_fails :
  let e := mkEntry (str "acc") 19 par_ext 1 0 in
  let src := Source (take 13 (drop 19 (concat (rd_chunks par_reader)))) EOF in
  delivered (concat (rd_chunks par_reader)) (DecompressedStart e) (DecompressedEnd e) src /\
  fst (fst (segment_body (DB := gmap bytes bytes) (SST := list write) (P := counter) false (Name e) 7 src None newFastIngester))
    = Err (Wrapf "read item" (Wrapf "read envelope body" ErrUnexpectedEOF)) /\
  exists h, fst (fst (segment_body (DB := gmap bytes bytes) (SST := list write) (P := counter) false (Name e) 7
    (Source (take 8 (drop 19 (concat (rd_chunks par_reader)))) EOF) None newFastIngester)) = Ret (h, 1).
Proof.
  cbv zeta. split; [|split].
  - apply del_end. vm_compute. discriminate.
  - vm_compute. reflexivity.
  - eexists. vm_compute. reflexivity.
Qed.
