(* ===== verification/Manager.v ===== *)
(** * The connection manager (internal/connect/manager.go)

    All outbound dials go through one Manager.  Callers pin, unpin and ban peers;
    a loop goroutine redials the pinned peers and refills the connections from the
    static pool and the address book; every dial runs in a goroutine of its own.
    The state is behind one mutex, so the system is a step relation whose steps are
    the regions under the lock: callers, the loop and the dials interleave between
    them.  [exec] runs one step, with what the switch, the book and the clock
    answer in its environment.  The main theorems: the invariant of the state, the
    pace and number of redials of a peer, and that a banned peer is not dialled
    unless it is pinned again. *)

From S2P Require Import Prelude.

Abbreviation ID := bytes.

(** What the code reads of a [p2p.NetAddress]: its ID and [String()]. *)
Record netAddr := mkNA { na_ID : ID; na_String : bytes }.

#[export] Instance netAddr_eq_dec : EqDecision netAddr.
Proof. solve_decision. Defined.

(** ** Configuration *)

Definition SourceBootstrap : bytes := str "bootstrap".

Record PeerAddr := mkPA { Addr : bytes; Source : bytes }.

(** Durations are nanoseconds.  [has_book] and [has_banlist] say that the field is
    not nil; [BookBias], [RefreshTick] and [BanDuration] only reach third-party
    calls and the ticker. *)
Record Config := mkConfig {
  has_switch : bool;
  has_book : bool;
  has_banlist : bool;
  Pool : list PeerAddr;
  WarmTarget : Z;
  DialBatch : Z;
  RefreshTick : Z;
  BookBias : Z;
  Backoff : Z;
  MaxBackoff : Z;
  MaxRedials : Z;
  StabilityWindow : Z;
  MaxDialFailures : Z;
  BookDisabled : bool;
  BanDuration : Z
}.

Definition second : Z := 1000000000.

Definition or_default (z d : Z) : Z := if z =? 0 then d else z.

Definition defaults (c : Config) : Config :=
  mkConfig (has_switch c) (has_book c) (has_banlist c) (Pool c) (WarmTarget c)
    (or_default (DialBatch c) 4) (or_default (RefreshTick c) (2 * second))
    (or_default (BookBias c) 50) (or_default (Backoff c) (5 * second))
    (or_default (MaxBackoff c) (300 * second)) (MaxRedials c)
    (or_default (StabilityWindow c) (30 * second)) (MaxDialFailures c)
    (BookDisabled c) (or_default (BanDuration c) (3600 * second)).

(** ** State *)

(** The zero [time.Time] of [connectedSince] is [None]. *)
Record peerBackoff := mkBO { disconnects : Z; nextDialAt : Z; connectedSince : option Z }.

Record counters := mkCnt {
  dialsFired : Z;
  dialSuccesses : Z;
  dialFailures : Z;
  addrBans : Z;
  peerBans : Z;
  manualBans : Z
}.

(** The values of the map [banned] are always true: it is a set. *)
Record Manager := mkMgr {
  pinned : gmap ID bytes;
  backoffs : gmap ID peerBackoff;
  banned : gset ID;
  banReasons : gmap ID bytes;
  dialFail : gmap bytes Z;
  pool : list PeerAddr;
  cursor : Z;
  cnt : counters
}.

Definition set_pins p b (m : Manager) : Manager :=
  mkMgr p b (banned m) (banReasons m) (dialFail m) (pool m) (cursor m) (cnt m).
Definition set_backoffs b (m : Manager) : Manager := set_pins (pinned m) b m.
Definition set_dialFail f (m : Manager) : Manager :=
  mkMgr (pinned m) (backoffs m) (banned m) (banReasons m) f (pool m) (cursor m) (cnt m).
Definition set_cursor c (m : Manager) : Manager :=
  mkMgr (pinned m) (backoffs m) (banned m) (banReasons m) (dialFail m) (pool m) c (cnt m).
Definition set_cnt c (m : Manager) : Manager :=
  mkMgr (pinned m) (backoffs m) (banned m) (banReasons m) (dialFail m) (pool m) (cursor m) c.
Definition set_banned p reason c (m : Manager) : Manager :=
  mkMgr (delete p (pinned m)) (delete p (backoffs m)) ({[p]} ∪ banned m)
    (<[p := reason]> (banReasons m)) (dialFail m) (pool m) (cursor m) c.

Definition fired_cnt (c : counters) : counters :=
  mkCnt (dialsFired c + 1) (dialSuccesses c) (dialFailures c) (addrBans c) (peerBans c) (manualBans c).
Definition success_cnt (c : counters) : counters :=
  mkCnt (dialsFired c) (dialSuccesses c + 1) (dialFailures c) (addrBans c) (peerBans c) (manualBans c).
Definition failure_cnt (c : counters) : counters :=
  mkCnt (dialsFired c) (dialSuccesses c) (dialFailures c + 1) (addrBans c) (peerBans c) (manualBans c).
Definition addr_ban_cnt (c : counters) : counters :=
  mkCnt (dialsFired c) (dialSuccesses c) (dialFailures c) (addrBans c + 1) (peerBans c) (manualBans c).
Definition peer_ban_cnt (c : counters) : counters :=
  mkCnt (dialsFired c) (dialSuccesses c) (dialFailures c) (addrBans c) (peerBans c + 1) (manualBans c).
Definition manual_ban_cnt (c : counters) : counters :=
  mkCnt (dialsFired c) (dialSuccesses c) (dialFailures c) (addrBans c) (peerBans c) (manualBans c + 1).

(** The loop [for split < len(pool) && pool[split].Source == SourceBootstrap]. *)
Fixpoint boot_split (l : list PeerAddr) : nat :=
  match l with
  | p :: r => if bool_decide (Source p = SourceBootstrap) then S (boot_split r) else 0%nat
  | [] => 0%nat
  end.

(** [shuffle] is the permutation that math/rand draws. *)
Definition buildPool (shuffle : list PeerAddr -> list PeerAddr) (l : list PeerAddr) : list PeerAddr :=
  take (boot_split l) l ++ shuffle (drop (boot_split l) l).

Definition New (shuffle : list PeerAddr -> list PeerAddr) (c : Config) : Manager :=
  mkMgr ∅ ∅ ∅ ∅ ∅ (buildPool shuffle (Pool c)) 0 (mkCnt 0 0 0 0 0 0).

(** ** The calls of other goroutines *)

Definition Pin (p : ID) (addr : bytes) (m : Manager) : Manager :=
  if bool_decide (p = []) || bool_decide (addr = []) then m
  else set_pins (<[p := addr]> (pinned m)) (backoffs m) m.

Definition Unpin (p : ID) (m : Manager) : Manager :=
  set_pins (delete p (pinned m)) (delete p (backoffs m)) m.

Definition Ban (p : ID) (reason : bytes) (m : Manager) : Manager :=
  if bool_decide (p ∈ banned m) then m
  else set_banned p reason (manual_ban_cnt (cnt m)) m.

Definition IsBanned (p : ID) (m : Manager) : bool := bool_decide (p ∈ banned m).

Definition BanReason (p : ID) (m : Manager) : bytes := default [] (banReasons m !! p).

Record Stats := mkStats { s_cnt : counters; s_pinned : Z; s_banned : Z }.

Definition stats_of (m : Manager) : Stats :=
  mkStats (cnt m) (Z.of_nat (size (pinned m))) (Z.of_nat (size (banned m))).

(** ** What the surroundings answer during a step

    [lookup_addr] is p2p.NewNetAddressString, which resolves host names. *)
Record env := mkEnv {
  now : Z;
  connected : ID -> bool;
  lookup_addr : bytes -> option netAddr
}.

(** What the manager does to the rest of the program: a redial of the tick at [t],
    the [k]-th of the peer's schedule, with the address it fires a dial at; the other
    dials; the calls to the book and the ban list.  [ESeen] and [EGone] say what the
    switch answered at a pinned peer's turn of the tick at [t], [EUnpin] and [EBanned]
    that the peer was unpinned or became banned. *)
Inductive event :=
| ERedial (p : ID) (addr : bytes) (t : Z) (k : Z) (na : option netAddr)
| ESeen (p : ID) (t : Z)
| EGone (p : ID)
| EUnpin (p : ID)
| EBanned (p : ID)
| EPoolDial (na : netAddr)
| EBookDial (na : netAddr)
| EMarkBad (na : netAddr)
| ERemoveAddress (na : netAddr)
| EBanlistAdd (key : bytes).

(** ** The tick *)

Section Tick.
Context (c : Config).

Definition computeBackoff (disc : Z) : Z :=
  if disc <=? 1 then Backoff c else
  let shift := disc - 1 in
  let shift := if 10 <? shift then 10 else shift in
  let d := i64 (Z.shiftl (Backoff c) shift) in
  if (d <=? 0) || (MaxBackoff c <? d) then MaxBackoff c else d.

Definition markBadByAddr (e : env) (addr : bytes) : list event :=
  if negb (has_book c) || bool_decide (addr = []) then [] else
  match lookup_addr e addr with
  | Some na => [EMarkBad na]
  | None => []
  end.

(** [fireDial]: the goroutines it starts. *)
Definition fireDial (e : env) (addr : bytes) : list netAddr :=
  match lookup_addr e addr with Some na => [na] | None => [] end.

(** One pinned peer of the tick that began at [t]: the events, the dials started
    and the state. *)
Definition redial_connected (t : Z) (p : ID) (addr : bytes) (m : Manager) : Manager :=
  match backoffs m !! p with
  | None => set_dialFail (delete addr (dialFail m)) m
  | Some bo =>
      let since := default t (connectedSince bo) in
      if StabilityWindow c <=? t - since
      then set_dialFail (delete addr (dialFail m)) (set_backoffs (delete p (backoffs m)) m)
      else set_backoffs (<[p := mkBO (disconnects bo) (nextDialAt bo) (Some since)]> (backoffs m)) m
  end.

Definition redial (e : env) (t : Z) (p : ID) (addr : bytes) (m : Manager) : list event * list netAddr * Manager :=
  if connected e p then ([ESeen p t], [], redial_connected t p addr m) else
  let found := backoffs m !! p in
  let bo := match found with Some b => mkBO (disconnects b) (nextDialAt b) None | None => mkBO 0 0 None end in
  let m := match found with Some _ => set_backoffs (<[p := bo]> (backoffs m)) m | None => m end in
  if bool_decide (is_Some found) && (t <? nextDialAt bo) then ([EGone p], [], m)
  else if (0 <? MaxRedials c) && bool_decide (is_Some found) && (MaxRedials c <=? disconnects bo)
  then (EGone p :: EBanned p :: markBadByAddr e addr, [], set_banned p (str "max-redials") (peer_ban_cnt (cnt m)) m)
  else
    let k := disconnects bo + 1 in
    let bo := mkBO k (t + computeBackoff k) (connectedSince bo) in
    ([EGone p; ERedial p addr t k (lookup_addr e addr)], fireDial e addr, set_backoffs (<[p := bo]> (backoffs m)) m).

(** How many peers the tick wants: [None] when it returns. *)
Definition warm_need (out dialing : Z) : option Z :=
  if WarmTarget c <=? out + dialing then None else
  let need := WarmTarget c - out - dialing in
  let need := if DialBatch c <? need then DialBatch c else need in
  if need <=? 0 then None else Some need.

Definition pool_share (need : Z) : Z := if BookDisabled c then need else need - Z.quot need 2.

(** The loop of dialFromPool, [tries] counting down. *)
Definition pool_skip (e : env) (m : Manager) (na : netAddr) : bool :=
  bool_decide (na_ID na ∈ banned m) || bool_decide (is_Some (pinned m !! na_ID na)) || connected e (na_ID na).

Fixpoint pool_loop (e : env) (need : Z) (tries : nat) (acc : list netAddr) (m : Manager) : outcome (list netAddr * Manager) :=
  match tries with
  | O => Ret (acc, m)
  | S tries =>
      if negb (len acc <? need) then Ret (acc, m) else
      match (if cursor m <? 0 then None else pool m !! Z.to_nat (cursor m)) with
      | None => Panic "index out of range"
      | Some s =>
          let m := set_cursor (Z.rem (cursor m + 1) (len (pool m))) m in
          match lookup_addr e (Addr s) with
          | None => pool_loop e need tries acc m
          | Some na => pool_loop e need tries (if pool_skip e m na then acc else acc ++ [na]) m
          end
      end
  end.

Definition dialFromPool (e : env) (need : Z) (m : Manager) : outcome (list netAddr * Manager) :=
  if bool_decide (pool m = []) then Ret ([], m)
  else if need <? 0 then Panic "makeslice: cap out of range"
  else pool_loop e need (length (pool m)) [] m.

(** One turn of dialFromBook: whether the picked address is dialled. *)
Definition book_turn (m : Manager) (existing : bool) (na : netAddr) : bool :=
  negb existing && negb (bool_decide (na_ID na ∈ banned m)) && negb (bool_decide (is_Some (pinned m !! na_ID na))).
End Tick.

(** ** The system *)

(** Where the loop goroutine is: waiting for the ticker or a kick, at the pinned
    peers of a tick that began at [t], before the warm-fill, or in dialFromBook. *)
Inductive pos :=
| Waiting
| Redialing (t : Z) (rest : list (ID * bytes))
| Filling
| Drawing (need fired tries : Z)
| Stopped
| Crashed (w : string).

(** A dial goroutine: started, in DialPeerWithAddress, or past MaxDialFailures. *)
Inductive dialing :=
| DNew (na : netAddr)
| DCall (na : netAddr)
| DEvict (na : netAddr).

Inductive dial_result := Connected | AlreadyDialing | DialFailed.

(** [refused] counts the dials that ended in ErrCurrentlyDialingOrExistingAddress;
    the code does not keep it. *)
Record sys := mkSys {
  mgr : Manager;
  kickCh : bool;
  cancelled : bool;
  at_pos : pos;
  dials : list dialing;
  refused : Z;
  log : list event
}.

Inductive action :=
| APin (p : ID) (addr : bytes)
| AUnpin (p : ID)
| ABan (p : ID) (reason : bytes)
| AKick
| AStop
| AExit
| ATick (kick : bool) (order : list (ID * bytes))
| ARedial
| AFill (out dialing : Z)
| ADraw (pick : option netAddr) (existing : bool)
| ADial (i : nat)
| AResult (i : nat) (r : dial_result)
| AEvict (i : nat).

Definition upd_mgr m (s : sys) : sys :=
  mkSys m (kickCh s) (cancelled s) (at_pos s) (dials s) (refused s) (log s).
Definition set_pos p (s : sys) : sys :=
  mkSys (mgr s) (kickCh s) (cancelled s) p (dials s) (refused s) (log s).
Definition set_kick k (s : sys) : sys :=
  mkSys (mgr s) k (cancelled s) (at_pos s) (dials s) (refused s) (log s).
Definition set_cancelled (s : sys) : sys :=
  mkSys (mgr s) (kickCh s) true (at_pos s) (dials s) (refused s) (log s).
Definition set_dials d (s : sys) : sys :=
  mkSys (mgr s) (kickCh s) (cancelled s) (at_pos s) d (refused s) (log s).
Definition set_refused n (s : sys) : sys :=
  mkSys (mgr s) (kickCh s) (cancelled s) (at_pos s) (dials s) n (log s).
Definition add_log l (s : sys) : sys :=
  mkSys (mgr s) (kickCh s) (cancelled s) (at_pos s) (dials s) (refused s) (log s ++ l).

(** [go m.dial(na)] for each of [l]. *)
Definition launch (l : list netAddr) (s : sys) : sys := set_dials (dials s ++ map DNew l) s.

Definition drop_dial (i : nat) (s : sys) : sys := set_dials (delete i (dials s)) s.

Section System.
Context (c : Config).

(** [pinned] in tick is a copy of the map; Go visits it in any order. *)
Definition visits (order : list (ID * bytes)) (m : gmap ID bytes) : bool :=
  bool_decide (NoDup order.*1) && bool_decide (list_to_map order = m).

(** After the pool: the book, if it may be used. *)
Definition after_pool (need fired : Z) : pos :=
  if has_book c && negb (BookDisabled c) then Drawing (need - fired) 0 0 else Waiting.

Definition fill (e : env) (out dialing : Z) (s : sys) : sys :=
  match warm_need c out dialing with
  | None => set_pos Waiting s
  | Some need =>
      match dialFromPool e (pool_share c need) (mgr s) with
      | Ret (l, m) =>
          set_pos (after_pool need (len l)) (add_log (map EPoolDial l) (launch l (upd_mgr m s)))
      | Panic w => set_pos (Crashed w) s
      | _ => s
      end
  end.

(** [tries < need*4 && fired < need] *)
Definition draw (need fired tries : Z) (pick : option netAddr) (existing : bool) (s : sys) : sys :=
  if negb ((tries <? need * 4) && (fired <? need)) then set_pos Waiting s else
  match pick with
  | None => set_pos Waiting s
  | Some na =>
      if book_turn (mgr s) existing na
      then set_pos (Drawing need (fired + 1) (tries + 1)) (add_log [EBookDial na] (launch [na] s))
      else set_pos (Drawing need fired (tries + 1)) s
  end.

(** The end of a dial: dial's sections after the call, and the first section of
    recordDialFail. *)
Definition dial_done (i : nat) (na : netAddr) (r : dial_result) (s : sys) : sys :=
  let m := mgr s in
  match r with
  | Connected =>
      drop_dial i (upd_mgr (set_dialFail (delete (na_String na) (dialFail m)) (set_cnt (success_cnt (cnt m)) m)) s)
  | AlreadyDialing => set_refused (refused s + 1) (drop_dial i s)
  | DialFailed =>
      let count := default 0 (dialFail m !! na_String na) + 1 in
      let s := upd_mgr (set_dialFail (<[na_String na := count]> (dialFail m)) (set_cnt (failure_cnt (cnt m)) m)) s in
      if (0 <? MaxDialFailures c) && (MaxDialFailures c <=? count)
      then set_dials (<[i := DEvict na]> (dials s)) s else drop_dial i s
  end.

(** The rest of recordDialFail. *)
Definition evict (i : nat) (na : netAddr) (s : sys) : sys :=
  let m := mgr s in
  add_log ((if has_book c then [ERemoveAddress na] else []) ++ (if has_banlist c then [EBanlistAdd (na_String na)] else []))
    (drop_dial i (upd_mgr (set_dialFail (delete (na_String na) (dialFail m)) (set_cnt (addr_ban_cnt (cnt m)) m)) s)).

Definition exec (e : env) (a : action) (s : sys) : option sys :=
  match a with
  | APin p addr => Some (upd_mgr (Pin p addr (mgr s)) s)
  | AUnpin p => Some (add_log [EUnpin p] (upd_mgr (Unpin p (mgr s)) s))
  | ABan p reason =>
      Some (add_log (if IsBanned p (mgr s) then [] else [EBanned p]) (upd_mgr (Ban p reason (mgr s)) s))
  | AKick => Some (set_kick true s)
  | AStop => Some (set_cancelled s)
  | AExit => match at_pos s with
             | Waiting => if cancelled s then Some (set_pos Stopped s) else None
             | _ => None
             end
  | ATick kick order =>
      match at_pos s with
      | Waiting =>
          if kick && negb (kickCh s) then None
          else if negb (has_switch c) then Some (if kick then set_kick false s else s)
          else if negb (visits order (pinned (mgr s))) then None
          else Some (set_pos (Redialing (now e) order) (if kick then set_kick false s else s))
      | _ => None
      end
  | ARedial =>
      match at_pos s with
      | Redialing t [] => Some (set_pos Filling s)
      | Redialing t ((p, addr) :: rest) =>
          let '(evs, l, m) := redial c e t p addr (mgr s) in
          Some (set_pos (Redialing t rest) (add_log evs (launch l (upd_mgr m s))))
      | _ => None
      end
  | AFill out dialing =>
      match at_pos s with Filling => Some (fill e out dialing s) | _ => None end
  | ADraw pick existing =>
      match at_pos s with Drawing need fired tries => Some (draw need fired tries pick existing s) | _ => None end
  | ADial i =>
      match dials s !! i with
      | Some (DNew na) =>
          Some (set_dials (<[i := DCall na]> (dials s)) (upd_mgr (set_cnt (fired_cnt (cnt (mgr s))) (mgr s)) s))
      | _ => None
      end
  | AResult i r =>
      match dials s !! i with Some (DCall na) => Some (dial_done i na r s) | _ => None end
  | AEvict i =>
      match dials s !! i with Some (DEvict na) => Some (evict i na s) | _ => None end
  end.

Fixpoint execs (l : list (env * action)) (s : sys) : option sys :=
  match l with
  | [] => Some s
  | (e, a) :: l => match exec e a s with Some s => execs l s | None => None end
  end.
End System.

Definition init_sys (shuffle : list PeerAddr -> list PeerAddr) (c : Config) : sys :=
  mkSys (New shuffle c) false false Waiting [] 0 [].

(** What a run can reach from [New], the configuration with its defaults. *)
Definition reaches (shuffle : list PeerAddr -> list PeerAddr) (c : Config) (l : list (env * action)) (s : sys) : Prop :=
  execs (defaults c) l (init_sys shuffle (defaults c)) = Some s.

(** ** The invariant *)

Definition is_call (d : dialing) : bool := match d with DCall _ => true | _ => false end.
Definition is_new (d : dialing) : bool := match d with DNew _ => true | _ => false end.
Definition count (f : dialing -> bool) (l : list dialing) : Z := len (List.filter f l).

(** The addresses that an event starts a dial at. *)
Definition launched (ev : event) : list netAddr :=
  match ev with
  | ERedial _ _ _ _ (Some na) => [na]
  | EPoolDial na | EBookDial na => [na]
  | _ => []
  end.

Definition launches (l : list event) : list netAddr := l ≫= launched.
#[global] Arguments launches : simpl never.

Lemma count_cons f x l : count f (x :: l) = (if f x then 1 else 0) + count f l.
Proof. unfold count. cbn. case_match; rewrite ?len_cons; lia. Qed.

Lemma count_app f l1 l2 : count f (l1 ++ l2) = count f l1 + count f l2.
Proof. induction l1 as [|x l1 IH]; cbn [app]; [done|]. rewrite !count_cons. lia. Qed.

Lemma count_delete f i x l : l !! i = Some x ->
  count f (delete i l) = count f l - (if f x then 1 else 0).
Proof.
  intros Hi. rewrite delete_take_drop. rewrite <- (take_drop_middle l i x Hi) at 3.
  rewrite !count_app, count_cons. lia.
Qed.

Lemma count_insert f i x y l : l !! i = Some x ->
  count f (<[i := y]> l) = count f l - (if f x then 1 else 0) + (if f y then 1 else 0).
Proof.
  intros Hi. rewrite insert_take_drop by (by eapply lookup_lt_Some).
  rewrite <- (take_drop_middle l i x Hi) at 3. rewrite !count_app, !count_cons. lia.
Qed.

Lemma count_launch f l : (forall na, f (DNew na) = true) -> count f (map DNew l) = len l.
Proof. intros Hf. induction l as [|x l IH]; cbn [map]; [done|]. rewrite count_cons, Hf, len_cons. lia. Qed.

Lemma count_none f l : (forall na, f (DNew na) = false) -> count f (map DNew l) = 0.
Proof. intros Hf. induction l as [|x l IH]; cbn [map]; [done|]. rewrite count_cons, Hf. lia. Qed.

(** An element other than the one at [i] stays when [i] is dropped or replaced. *)
Lemma elem_delete_other (i : nat) (x y : dialing) (l : list dialing) : l !! i = Some y -> x <> y -> x ∈ l -> x ∈ delete i l.
Proof.
  intros Hi Hne Hx. rewrite <- (take_drop_middle l i y Hi) in Hx. rewrite delete_take_drop.
  apply elem_of_app in Hx as [Hx|[->|Hx]%elem_of_cons]; set_solver.
Qed.

Lemma elem_insert_other (i : nat) (x y z : dialing) (l : list dialing) : l !! i = Some y -> x <> y -> x ∈ l -> x ∈ <[i := z]> l.
Proof.
  intros Hi Hne Hx. rewrite <- (take_drop_middle l i y Hi) in Hx.
  rewrite insert_take_drop by (by eapply lookup_lt_Some).
  apply elem_of_app in Hx as [Hx|[->|Hx]%elem_of_cons]; set_solver.
Qed.

Lemma launches_app l1 l2 : launches (l1 ++ l2) = launches l1 ++ launches l2.
Proof. apply bind_app. Qed.

Lemma launches_dials (f : netAddr -> event) l :
  (forall na, launched (f na) = [na]) -> launches (map f l) = l.
Proof. intros Hf. induction l as [|x l IH]; [done|]. unfold launches in *. cbn. by rewrite Hf, IH. Qed.

Section Invariant.
Context (c : Config).

Definition pos_ok (p : pos) : Prop :=
  match p with
  | Crashed _ => False
  | Drawing need fired tries => 0 <= fired /\ need <= DialBatch c /\ fired <= Z.max 0 need
  | _ => True
  end.

Definition fail_ok (f : gmap bytes Z) (d : list dialing) : Prop := forall key n, f !! key = Some n ->
  1 <= n /\ (0 < MaxDialFailures c <= n -> exists na, DEvict na ∈ d /\ na_String na = key).

(** Every failure count below the limit, unless the goroutine that reached it is
    about to evict the address; a schedule within its budget of redials; a reason
    for every ban; every dial accounted for. *)
Record mgr_ok (s : sys) : Prop := mkOk {
  ok_pos : pos_ok (at_pos s);
  ok_cursor : pool (mgr s) <> [] -> 0 <= cursor (mgr s) < len (pool (mgr s));
  ok_back : forall p bo, backoffs (mgr s) !! p = Some bo ->
    1 <= disconnects bo /\ (0 < MaxRedials c -> disconnects bo <= MaxRedials c);
  ok_fail : fail_ok (dialFail (mgr s)) (dials s);
  ok_ban : dom (banReasons (mgr s)) = banned (mgr s);
  ok_fired : len (launches (log s)) = dialsFired (cnt (mgr s)) + count is_new (dials s);
  ok_ended : dialsFired (cnt (mgr s)) =
    dialSuccesses (cnt (mgr s)) + dialFailures (cnt (mgr s)) + refused s + count is_call (dials s)
}.

(** *** The pieces of the tick *)

(** The branches of a pinned peer's turn. *)
Definition seen_gone (p : ID) (bo : peerBackoff) (m : Manager) : Manager :=
  set_backoffs (<[p := mkBO (disconnects bo) (nextDialAt bo) None]> (backoffs m)) m.

Inductive redial_spec (e : env) (t : Z) (p : ID) (addr : bytes) (m : Manager) :
  list event * list netAddr * Manager -> Prop :=
| rd_first : connected e p = true -> backoffs m !! p = None ->
    redial_spec e t p addr m ([ESeen p t], [], set_dialFail (delete addr (dialFail m)) m)
| rd_stable bo : connected e p = true -> backoffs m !! p = Some bo ->
    StabilityWindow c <= t - default t (connectedSince bo) ->
    redial_spec e t p addr m
      ([ESeen p t], [], set_dialFail (delete addr (dialFail m)) (set_backoffs (delete p (backoffs m)) m))
| rd_seen bo : connected e p = true -> backoffs m !! p = Some bo ->
    t - default t (connectedSince bo) < StabilityWindow c ->
    redial_spec e t p addr m
      ([ESeen p t], [], set_backoffs (<[p := mkBO (disconnects bo) (nextDialAt bo) (Some (default t (connectedSince bo)))]> (backoffs m)) m)
| rd_early bo : connected e p = false -> backoffs m !! p = Some bo -> t < nextDialAt bo ->
    redial_spec e t p addr m ([EGone p], [], seen_gone p bo m)
| rd_ban bo : connected e p = false -> backoffs m !! p = Some bo -> nextDialAt bo <= t ->
    0 < MaxRedials c <= disconnects bo ->
    redial_spec e t p addr m
      (EGone p :: EBanned p :: markBadByAddr c e addr, [], set_banned p (str "max-redials") (peer_ban_cnt (cnt m)) (seen_gone p bo m))
| rd_dial k : connected e p = false ->
    match backoffs m !! p with
    | Some bo => nextDialAt bo <= t /\ k = disconnects bo + 1 /\ (0 < MaxRedials c -> disconnects bo < MaxRedials c)
    | None => k = 1
    end ->
    redial_spec e t p addr m
      ([EGone p; ERedial p addr t k (lookup_addr e addr)], fireDial e addr,
       set_backoffs (<[p := mkBO k (t + computeBackoff c k) None]> (backoffs m)) m).

Lemma fail_ok_keep f f' d d' : fail_ok f d -> f' ⊆ f -> (forall x, DEvict x ∈ d -> DEvict x ∈ d') -> fail_ok f' d'.
Proof.
  intros Hok Hf Hd key n Hk. destruct (Hok key n) as [? He]; [by eapply lookup_weaken|].
  split; [done|]. intros Hm. destruct (He Hm) as (x & ? & ?). eauto.
Qed.

Lemma fail_ok_insert f d key n : fail_ok f d -> 1 <= n ->
  (0 < MaxDialFailures c <= n -> exists x, DEvict x ∈ d /\ na_String x = key) -> fail_ok (<[key := n]> f) d.
Proof. intros Hok Hn He q k [[<- <-]|[_ Hq]]%lookup_insert_Some; [done|by apply Hok]. Qed.

Lemma fail_ok_next f d key : fail_ok f d -> 1 <= default 0 (f !! key) + 1.
Proof. intros Hok. destruct (f !! key) as [n|] eqn:E; cbn; [|lia]. destruct (Hok key n E). lia. Qed.

Lemma redial_cases e t p addr m : redial_spec e t p addr m (redial c e t p addr m).
Proof.
  unfold redial, redial_connected.
  destruct (connected e p) eqn:Ec, (backoffs m !! p) as [bo|] eqn:Eb; cbn -[set_backoffs set_banned].
  - destruct (Z.leb_spec (StabilityWindow c) (t - default t (connectedSince bo))); by econstructor.
  - by constructor.
  - destruct (Z.ltb_spec t (nextDialAt bo)); [by apply rd_early|].
    destruct (Z.ltb_spec 0 (MaxRedials c)), (Z.leb_spec (MaxRedials c) (disconnects bo)); cbn -[set_backoffs set_banned];
      try (by apply (rd_ban e t p addr m bo)).
    all: unfold set_backoffs at 1 2; cbn; rewrite insert_insert_eq; apply (rd_dial e t p addr m (disconnects bo + 1)); rewrite ?Eb; split_and?; try done; lia.
  - rewrite andb_false_r. apply (rd_dial e t p addr m 1); by rewrite ?Eb.
Qed.

(** The loop of dialFromPool visits consecutive entries, wrapping around. *)
Definition candidate (e : env) (m : Manager) (s : PeerAddr) : option netAddr :=
  match lookup_addr e (Addr s) with
  | Some na => if pool_skip e m na then None else Some na
  | None => None
  end.

Definition entries_from (i : Z) (n : nat) (l : list PeerAddr) : list PeerAddr :=
  take n (drop (Z.to_nat i) (l ++ l)).

Lemma entries_next (i : Z) (n : nat) l x : 0 <= i < len l -> (S n <= length l)%nat -> l !! Z.to_nat i = Some x ->
  entries_from i (S n) l = x :: entries_from (Z.rem (i + 1) (len l)) n l.
Proof.
  intros Hi Hn Hx. unfold entries_from. rewrite Z.rem_mod_nonneg by lia.
  rewrite (drop_S (l ++ l) x (Z.to_nat i)) by (by apply lookup_app_l_Some). cbn. f_equal.
  destruct (decide (i + 1 = len l)) as [E|E].
  - rewrite E, Z.mod_same by lia. replace (S (Z.to_nat i)) with (length l) by (unfold len in *; lia).
    rewrite drop_app_length, drop_0. by rewrite take_app_le by lia.
  - rewrite Z.mod_small by lia. do 2 f_equal. lia.
Qed.

Lemma pool_loop_spec e need m tries : forall i acc,
  0 <= i < len (pool m) -> (tries <= length (pool m))%nat -> len acc <= need ->
  exists n l, (n <= tries)%nat /\ l = acc ++ omap (candidate e m) (entries_from i n (pool m)) /\
    pool_loop e need tries acc (set_cursor i m) =
      Ret (l, set_cursor (Z.rem (i + Z.of_nat n) (len (pool m))) m) /\
    len l <= need /\ (n = tries \/ len l = need).
Proof.
  induction tries as [|tries IH]; intros i acc Hi Ht Ha.
  { exists 0%nat, acc. unfold entries_from. cbn. rewrite app_nil_r, Z.add_0_r, Z.rem_small by lia.
    by split_and!; [|..|left]. }
  cbn [pool_loop]. destruct (Z.ltb_spec (len acc) need) as [Hlt|Hge]; cbn [negb].
  2:{ exists 0%nat, acc. unfold entries_from. cbn. rewrite app_nil_r, Z.add_0_r, Z.rem_small by lia.
      split_and!; [lia|done..|right; lia]. }
  destruct (lookup_lt_is_Some_2 (pool m) (Z.to_nat i)) as [x Hx]; [unfold len in *; lia|].
  cbn -[pool_loop Z.rem]. rewrite (proj2 (Z.ltb_ge i 0)), Hx by lia.
  set (i' := Z.rem (i + 1) (len (pool m))).
  assert (Hi' : 0 <= i' < len (pool m)) by (apply Z.rem_bound_pos; lia).
  assert (Hnext : forall n, Z.rem (i' + Z.of_nat n) (len (pool m)) = Z.rem (i + Z.of_nat (S n)) (len (pool m))).
  { intros n. unfold i'. rewrite Z.add_rem_idemp_l by nia. f_equal. lia. }
  assert (Hcons : forall n acc', (n <= tries)%nat ->
    acc' = acc ++ match candidate e m x with Some na => [na] | None => [] end ->
    acc' ++ omap (candidate e m) (entries_from i' n (pool m)) =
    acc ++ omap (candidate e m) (entries_from i (S n) (pool m))).
  { intros n acc' Hn ->. rewrite (entries_next i n _ x) by (done || lia). cbn.
    rewrite <- app_assoc. by destruct (candidate e m x). }
  set (acc' := acc ++ match candidate e m x with Some na => [na] | None => [] end).
  assert (Ha' : len acc' <= need).
  { unfold acc'. rewrite len_app. destruct (candidate e m x); rewrite ?len_cons, ?len_nil; lia. }
  destruct (IH i' acc' Hi' ltac:(lia) Ha') as (n & l & Hn & Hl & Hrun & Hle & Hend).
  exists (S n), l. rewrite <- Hnext. split_and!; [lia|by rewrite Hl; apply Hcons| |done|destruct Hend; [left; lia|by right]].
  rewrite <- Hrun. unfold acc', candidate.
  destruct (lookup_addr e (Addr x)) as [na|]; [|by rewrite (right_id_L [] (++))].
  change (pool_skip e (set_cursor _ _) na) with (pool_skip e m na).
  destruct (pool_skip e m na); [by rewrite (right_id_L [] (++))|done].
Qed.

Lemma dialFromPool_spec e need m :
  0 <= need -> (pool m <> [] -> 0 <= cursor m < len (pool m)) ->
  exists n l, (n <= length (pool m))%nat /\ l = omap (candidate e m) (entries_from (cursor m) n (pool m)) /\
    dialFromPool e need m = Ret (l, set_cursor (if bool_decide (pool m = []) then cursor m else Z.rem (cursor m + Z.of_nat n) (len (pool m))) m) /\
    len l <= need /\ (n = length (pool m) \/ len l = need).
Proof.
  intros Hn Hc. unfold dialFromPool. case_bool_decide as Hp.
  - exists 0%nat, []. rewrite Hp. cbn. split_and!; [lia|done|by destruct m|rewrite len_nil; lia|by left].
  - rewrite (proj2 (Z.ltb_ge need 0)) by done.
    destruct (pool_loop_spec e need m (length (pool m)) (cursor m) []) as (n & l & ? & Hl & Hr & ? & ?); [auto|lia|done|].
    exists n, l. rewrite <- Hr. split_and!; try done. by destruct m.
Qed.

(** A whole round visits the whole pool. *)
Lemma entries_all (i : Z) l : 0 <= i < len l -> entries_from i (length l) l ≡ₚ l.
Proof.
  intros Hi. unfold entries_from. rewrite drop_app_le by (unfold len in *; lia).
  rewrite take_app, length_drop, take_ge by (rewrite length_drop; lia).
  replace (length l - (length l - Z.to_nat i))%nat with (Z.to_nat i) by (unfold len in *; lia).
  rewrite Permutation_app_comm. by rewrite take_drop.
Qed.

Lemma warm_need_bound out dialing need : warm_need c out dialing = Some need ->
  0 < need <= DialBatch c.
Proof. unfold warm_need. repeat case_match; intros [= <-]; lia. Qed.

Lemma pool_share_bound need : 0 < need -> 0 < pool_share c need <= need.
Proof. intros Hn. unfold pool_share. case_match; [lia|]. Z.to_euclidean_division_equations. lia. Qed.

(** *** Every step keeps it *)

Lemma init_ok shuffle : mgr_ok (init_sys shuffle c).
Proof.
  split; cbn; try done.
  destruct (buildPool shuffle (Pool c)) as [|x l]; [done|].
  intros _. pose proof (len_nonneg l). rewrite len_cons. lia.
Qed.

Lemma fill_ok e out dialing s : mgr_ok s -> mgr_ok (fill c e out dialing s).
Proof.
  intros Hok. unfold fill. destruct (warm_need c out dialing) as [need|] eqn:En.
  2:{ destruct Hok. by split. }
  pose proof (warm_need_bound _ _ _ En) as Hb. pose proof (pool_share_bound need ltac:(lia)).
  destruct (dialFromPool_spec e (pool_share c need) (mgr s)) as (n & l & ? & -> & -> & Hl & _);
    [lia|apply Hok|]. destruct Hok. split; cbn; try done.
  - unfold after_pool. case_match; [|done]. cbn. pose proof (len_nonneg (omap (candidate e (mgr s)) (entries_from (cursor (mgr s)) n (pool (mgr s))))). lia.
  - intros Hp. rewrite bool_decide_eq_false_2 by done. specialize (ok_cursor0 Hp). apply Z.rem_bound_pos; lia.
  - eapply fail_ok_keep; [done..|]. intros x ?. rewrite elem_of_app. by auto.
  - rewrite launches_app, launches_dials, len_app, count_app, count_launch by done. lia.
  - rewrite count_app, count_none by done. lia.
Qed.

Lemma markBad_launches e addr : launches (markBadByAddr c e addr) = [].
Proof. unfold markBadByAddr. by repeat case_match. Qed.

Lemma fireDial_launches e p addr t k : launches [EGone p; ERedial p addr t k (lookup_addr e addr)] = fireDial e addr.
Proof. unfold launches, fireDial. cbn. by destruct (lookup_addr e addr). Qed.

(** What a pinned peer's turn leaves as it was, and what it starts. *)
Lemma redial_frame e t p addr m evs l m' : redial c e t p addr m = (evs, l, m') ->
  pool m' = pool m /\ cursor m' = cursor m /\ launches evs = l /\
  dialsFired (cnt m') = dialsFired (cnt m) /\ dialSuccesses (cnt m') = dialSuccesses (cnt m) /\
  dialFailures (cnt m') = dialFailures (cnt m) /\
  (dialFail m' = dialFail m \/ dialFail m' = delete addr (dialFail m)) /\
  (dom (banReasons m) = banned m -> dom (banReasons m') = banned m').
Proof.
  intros E. pose proof (redial_cases e t p addr m) as Hr. rewrite E in Hr.
  inversion Hr; subst; cbn; rewrite ?dom_insert_L; split_and!; auto.
  - change (launches ([EGone p; EBanned p] ++ markBadByAddr c e addr) = []). by rewrite launches_app, markBad_launches.
  - by intros ->.
  - apply (fireDial_launches e p addr t k).
Qed.

Lemma redial_budget e t p addr m evs l m' : redial c e t p addr m = (evs, l, m') ->
  (forall q bo, backoffs m !! q = Some bo -> 1 <= disconnects bo /\ (0 < MaxRedials c -> disconnects bo <= MaxRedials c)) ->
  forall q bo, backoffs m' !! q = Some bo -> 1 <= disconnects bo /\ (0 < MaxRedials c -> disconnects bo <= MaxRedials c).
Proof.
  intros E Hok q bo'. pose proof (redial_cases e t p addr m) as Hr. rewrite E in Hr.
  inversion Hr; subst; cbn; rewrite ?lookup_insert_Some, ?lookup_delete_Some, ?lookup_insert_Some;
    try solve [naive_solver].
  intros [[<- <-]|[_ Hq]]; [cbn|by eapply Hok].
  destruct (backoffs m !! p) as [bo|] eqn:Eb; [|lia]. pose proof (Hok p bo Eb). naive_solver lia.
Qed.

Lemma turn_ok e t p addr rest s evs l m : mgr_ok s -> redial c e t p addr (mgr s) = (evs, l, m) ->
  mgr_ok (set_pos (Redialing t rest) (add_log evs (launch l (upd_mgr m s)))).
Proof.
  intros Hok E. pose proof (redial_frame _ _ _ _ _ _ _ _ E) as (Hp & Hc & Hl & Hf & Hs & Hx & Hd & Hb).
  destruct Hok. split; cbn; rewrite ?Hp, ?Hc, ?Hf, ?Hs, ?Hx; auto.
  - by eapply redial_budget.
  - eapply fail_ok_keep; [done| |intros x ?; rewrite elem_of_app; by auto].
    destruct Hd as [-> | ->]; [done|]. apply delete_subseteq.
  - rewrite launches_app, len_app, Hl, count_app, count_launch by done. lia.
  - rewrite count_app, count_none by done. lia.
Qed.

Lemma draw_ok need fired tries pick existing s : mgr_ok s -> at_pos s = Drawing need fired tries ->
  mgr_ok (draw need fired tries pick existing s).
Proof.
  intros Hok Hpos. destruct Hok. rewrite Hpos in ok_pos0. cbn in ok_pos0. unfold draw.
  destruct ((tries <? need * 4) && (fired <? need)) eqn:Et; cbn [negb]; [|by split].
  apply andb_true_iff in Et as [_ Hf%Z.ltb_lt].
  destruct pick as [na|]; [|by split]. destruct (book_turn _ _ _); [|by split; cbn; [lia|..]].
  split; cbn; try done; [lia|..].
  - eapply fail_ok_keep; [done..|]. intros x ?. rewrite elem_of_app. by auto.
  - rewrite launches_app, len_app, count_app.
    change (len (launches [EBookDial na])) with 1. change (count is_new [DNew na]) with 1. lia.
  - rewrite count_app. change (count is_call [DNew na]) with 0. lia.
Qed.

Lemma done_ok i na r s : mgr_ok s -> dials s !! i = Some (DCall na) -> mgr_ok (dial_done c i na r s).
Proof.
  intros Hok Hi. destruct Hok.
  assert (Hdrop : forall x, DEvict x ∈ dials s -> DEvict x ∈ delete i (dials s)).
  { intros x. by eapply elem_delete_other. }
  destruct r; unfold dial_done;
    [| |destruct ((0 <? MaxDialFailures c) && (MaxDialFailures c <=? default 0 (dialFail (mgr s) !! na_String na) + 1)) eqn:E];
    split; cbn; rewrite ?(count_delete _ _ _ _ Hi), ?(count_insert _ _ _ _ _ Hi); cbn; try done; try lia.
  - eapply fail_ok_keep; [done|apply delete_subseteq|done].
  - by eapply fail_ok_keep.
  - apply fail_ok_insert; [|by eapply fail_ok_next|].
    + eapply fail_ok_keep; [done..|]. intros x. by eapply elem_insert_other.
    + intros _. exists na. split; [|done]. apply list_elem_of_lookup. exists i.
      apply list_lookup_insert_eq. by eapply lookup_lt_Some.
  - apply fail_ok_insert; [by eapply fail_ok_keep|by eapply fail_ok_next|]. intros. lia.
Qed.

Lemma evict_ok i na s : mgr_ok s -> dials s !! i = Some (DEvict na) -> mgr_ok (evict c i na s).
Proof.
  intros Hok Hi. destruct Hok.
  split; cbn; rewrite ?(count_delete _ _ _ _ Hi); cbn; try done; try lia.
  - intros key n [Hne Hk]%lookup_delete_Some. destruct (ok_fail0 key n Hk) as [? He].
    split; [done|]. intros Hm. destruct (He Hm) as (x & Hx & Hs). exists x. split; [|done].
    eapply elem_delete_other; [done| |done]. by intros [= ->].
  - rewrite launches_app, len_app. replace (len (launches (_ ++ _))) with 0; [lia|].
    by destruct (has_book c), (has_banlist c).
Qed.

Lemma exec_ok e a s s' : mgr_ok s -> exec c e a s = Some s' -> mgr_ok s'.
Proof.
  intros Hok. destruct a as [p addr|p|p reason| | | |kick order| |out dialing|pick existing|i|i r|i]; cbn [exec].
  - intros [= <-]. unfold Pin. destruct Hok. case_match; by split.
  - intros [= <-]. destruct Hok. split; cbn; try done.
    + intros q bo [_ Hq]%lookup_delete_Some. by eapply ok_back0.
    + rewrite launches_app, len_app. change (len (launches [EUnpin p])) with 0. lia.
  - intros [= <-]. unfold Ban, IsBanned. destruct Hok. case_bool_decide; split; cbn; try done.
    + by rewrite app_nil_r.
    + intros q bo [_ Hq]%lookup_delete_Some. by eapply ok_back0.
    + rewrite dom_insert_L. by f_equal.
    + rewrite launches_app, len_app. change (len (launches [EBanned p])) with 0. lia.
  - intros [= <-]. by destruct Hok.
  - intros [= <-]. by destruct Hok.
  - repeat case_match; intros [= <-]. by destruct Hok.
  - destruct Hok. destruct (at_pos s) eqn:Ep; try done. destruct kick; repeat case_match; intros E; try done; injection E as <-; split; cbn; rewrite ?Ep; done.
  - destruct (at_pos s) as [|t [|[p addr] rest]| | | |] eqn:Ep; try done.
    + intros [= <-]. by destruct Hok.
    + destruct (redial c e t p addr (mgr s)) as [[evs l] m] eqn:E. intros [= <-]. by eapply turn_ok.
  - destruct (at_pos s); try done. intros [= <-]. by apply fill_ok.
  - destruct (at_pos s) as [| | |need fired tries| |] eqn:Ep; try done. intros [= <-]. by eapply draw_ok.
  - destruct (dials s !! i) as [[na|na|na]|] eqn:Ei; try done. intros [= <-]. destruct Hok.
    split; cbn; rewrite ?(count_insert _ _ _ _ _ Ei); cbn; try done; try lia.
    eapply fail_ok_keep; [done..|]. intros x. by eapply elem_insert_other.
  - destruct (dials s !! i) as [[na|na|na]|] eqn:Ei; try done. intros [= <-]. by eapply done_ok.
  - destruct (dials s !! i) as [[na|na|na]|] eqn:Ei; try done. intros [= <-]. by eapply evict_ok.
Qed.
End Invariant.

(** ** The pace of redials *)

(** What the events say of a peer: its redials (time and number) since it was last
    unpinned, banned, or connected at all its turns over a stability window, and
    the first turn of those in a row, up to now, at which it was connected. *)
Definition note_event (window : Z) (p : ID) (acc : list (Z * Z) * option Z) (ev : event) : list (Z * Z) * option Z :=
  let '(l, up) := acc in
  match ev with
  | ERedial q _ t k _ => if bool_decide (q = p) then (l ++ [(t, k)], up) else acc
  | ESeen q t =>
      if bool_decide (q = p) then (if window <=? t - default t up then [] else l, Some (default t up)) else acc
  | EGone q => if bool_decide (q = p) then (l, None) else acc
  | EUnpin q | EBanned q => if bool_decide (q = p) then ([], up) else acc
  | _ => acc
  end.

Definition history (window : Z) (p : ID) (lg : list event) : list (Z * Z) * option Z :=
  fold_left (note_event window p) lg ([], None).

Definition since_reset (window : Z) (p : ID) (lg : list event) : list (Z * Z) := fst (history window p lg).

Section Pace.
Context (c : Config).
Abbreviation history := (history (StabilityWindow c)).

(** Numbered from 1, each at least its backoff after the one before. *)
Definition ladder (l : list (Z * Z)) : Prop :=
  forall i t k, l !! i = Some (t, k) ->
    k = Z.of_nat i + 1 /\ (forall t' k', l !! S i = Some (t', k') -> t + computeBackoff c k <= t').

Definition paced (b : gmap ID peerBackoff) (lg : list event) (p : ID) : Prop :=
  let '(l, up) := history p lg in
  ladder l /\
  match b !! p with
  | None => l = []
  | Some bo => connectedSince bo = up /\
      exists t, last l = Some (t, disconnects bo) /\ nextDialAt bo = t + computeBackoff c (disconnects bo)
  end.

Lemma history_app p l1 l2 : history p (l1 ++ l2) = fold_left (note_event (StabilityWindow c) p) l2 (history p l1).
Proof using Type. apply fold_left_app. Qed.

Definition about (p : ID) (ev : event) : bool :=
  match ev with
  | ERedial q _ _ _ _ | ESeen q _ | EGone q | EUnpin q | EBanned q => bool_decide (q = p)
  | _ => false
  end.

Lemma history_other p l1 l2 : forallb (fun ev => negb (about p ev)) l2 = true ->
  history p (l1 ++ l2) = history p l1.
Proof using Type.
  rewrite history_app. generalize (history p l1). induction l2 as [|ev l2 IH]; intros [l up]; cbn; [done|].
  intros [He Hl]%andb_true_iff. destruct ev; cbn in He |- *; try (by apply IH); case_bool_decide; try done; by apply IH.
Qed.

Lemma paced_keep b b' lg evs p : paced b lg p -> b' !! p = b !! p ->
  forallb (fun ev => negb (about p ev)) evs = true -> paced b' (lg ++ evs) p.
Proof. unfold paced. intros Hp -> Hl. by rewrite history_other. Qed.

(** Unpinned or banned, after [evs1] of the same peer. *)
Lemma paced_reset b lg ev evs p : b !! p = None -> ev = EUnpin p \/ ev = EBanned p ->
  forallb (fun ev => negb (about p ev)) evs = true -> paced b (lg ++ ev :: evs) p.
Proof.
  intros Hb Hev Hl. unfold paced. change (lg ++ ev :: evs) with (lg ++ [ev] ++ evs). rewrite app_assoc, history_other by done.
  rewrite history_app, Hb. destruct (history p lg) as [l up].
  destruct Hev as [-> | ->]; cbn; rewrite bool_decide_eq_true_2 by done; by split.
Qed.

Lemma ladder_snoc l t k : ladder l -> k = len l + 1 ->
  (forall t0 k0, last l = Some (t0, k0) -> t0 + computeBackoff c k0 <= t) -> ladder (l ++ [(t, k)]).
Proof.
  intros Hl Hk Ht i t1 k1 [Hi|[Hi Hx]]%lookup_app_Some.
  - destruct (Hl i t1 k1 Hi) as [? Hn]. split; [done|]. intros t' k' [Hs|[Hge Hs]]%lookup_app_Some; [by eapply Hn|].
    apply list_lookup_singleton_Some in Hs as [Hz [= -> ->]]. apply (Ht t1 k1).
    rewrite last_lookup. pose proof (lookup_lt_Some _ _ _ Hi). by replace (pred (length l)) with i by lia.
  - apply list_lookup_singleton_Some in Hx as [Hz [= <- <-]]. split; [unfold len in *; lia|].
    intros t' k' Hs. apply lookup_lt_Some in Hs. rewrite length_app in Hs. cbn in Hs. lia.
Qed.

Lemma ladder_last l t k : ladder l -> last l = Some (t, k) -> k = len l.
Proof.
  intros Hl Hx. rewrite last_lookup in Hx. destruct (Hl _ _ _ Hx) as [-> _].
  pose proof (lookup_lt_Some _ _ _ Hx). unfold len. lia.
Qed.

Lemma markBad_about p e addr : forallb (fun ev => negb (about p ev)) (markBadByAddr c e addr) = true.
Proof. unfold markBadByAddr. by repeat case_match. Qed.

Lemma paced_redial e t p addr m evs l m' lg : redial c e t p addr m = (evs, l, m') ->
  paced (backoffs m) lg p -> paced (backoffs m') (lg ++ evs) p.
Proof.
  intros E Hp. pose proof (redial_cases c e t p addr m) as Hr. rewrite E in Hr. unfold paced in Hp.
  inversion Hr as [Ec Eb|bo Ec Eb Hw|bo Ec Eb Hw|bo Ec Eb|bo Ec Eb|k Ec Hk]; subst; cbn.
  1-4: unfold paced; rewrite history_app; destruct (history p lg) as [hl up]; rewrite Eb in Hp; cbn;
    rewrite bool_decide_eq_true_2 by done.
  - rewrite Eb. destruct Hp as [Hl ->]. split; [by destruct (_ <=? _)|by destruct (_ <=? _)].
  - rewrite lookup_delete_eq. destruct Hp as (Hl & <- & _). by rewrite (proj2 (Z.leb_le _ _)).
  - rewrite lookup_insert_eq. destruct Hp as (Hl & <- & Hlast). rewrite (proj2 (Z.leb_gt _ _)) by done. by split_and!.
  - rewrite lookup_insert_eq. by destruct Hp as (Hl & _ & Hlast).
  - change (lg ++ EGone p :: EBanned p :: markBadByAddr c e addr) with (lg ++ [EGone p] ++ EBanned p :: markBadByAddr c e addr).
    rewrite app_assoc. apply paced_reset; [apply lookup_delete_eq|by right|apply markBad_about].
  - unfold paced. rewrite lookup_insert_eq, history_app. destruct (history p lg) as [hl up]. cbn.
    do 2 (rewrite bool_decide_eq_true_2 by done; cbn). destruct Hp as [Hl Hb]. split.
    + destruct (backoffs m !! p) as [bo|].
      * destruct Hb as (_ & t0 & Hlast & Hnext), Hk as (Ht & -> & _). apply ladder_snoc; [done|by rewrite (ladder_last _ _ _ Hl Hlast)|].
        intros t1 k1. rewrite Hlast. intros [= <- <-]. lia.
      * subst hl k. by apply ladder_snoc.
    + split; [done|]. exists t. by rewrite last_snoc.
Qed.

Lemma redial_others e t p addr m evs l m' q : redial c e t p addr m = (evs, l, m') -> q <> p ->
  backoffs m' !! q = backoffs m !! q /\ forallb (fun ev => negb (about q ev)) evs = true.
Proof.
  intros E Hq. pose proof (redial_cases c e t p addr m) as Hr. rewrite E in Hr.
  inversion Hr; subst; cbn; rewrite ?lookup_insert_ne, ?lookup_delete_ne, ?lookup_insert_ne by done;
    rewrite ?bool_decide_eq_false_2, ?markBad_about by done; done.
Qed.

Lemma redial_paced e t p addr m evs l m' lg q : redial c e t p addr m = (evs, l, m') ->
  paced (backoffs m) lg q -> paced (backoffs m') (lg ++ evs) q.
Proof.
  intros E Hp. destruct (decide (q = p)) as [->|Hne]; [by eapply paced_redial|].
  destruct (redial_others _ _ _ _ _ _ _ _ q E Hne). by eapply paced_keep.
Qed.

Lemma about_map p (f : netAddr -> event) l : (forall na, about p (f na) = false) ->
  forallb (fun ev => negb (about p ev)) (map f l) = true.
Proof using Type. intros Hf. induction l as [|x l IH]; cbn; [done|]. by rewrite Hf, IH. Qed.

Lemma exec_paced e a s s' p : paced (backoffs (mgr s)) (log s) p -> mgr_ok c s -> exec c e a s = Some s' ->
  paced (backoffs (mgr s')) (log s') p.
Proof.
  intros Hp Hok. destruct a as [q addr|q|q reason| | | |kick order| |out dialing|pick existing|i|i r|i]; cbn [exec].
  - intros [= <-]. unfold Pin. by case_match.
  - intros [= <-]. destruct (decide (p = q)) as [->|]; cbn.
    + apply paced_reset; [apply lookup_delete_eq|by left|done].
    + eapply paced_keep; [done|by rewrite lookup_delete_ne|cbn; by rewrite bool_decide_eq_false_2].
  - intros [= <-]. unfold Ban, IsBanned. case_bool_decide; cbn; [by rewrite app_nil_r|].
    destruct (decide (p = q)) as [->|]; cbn.
    + apply paced_reset; [apply lookup_delete_eq|by right|done].
    + eapply paced_keep; [done|by rewrite lookup_delete_ne|cbn; by rewrite bool_decide_eq_false_2].
  - by intros [= <-].
  - by intros [= <-].
  - repeat case_match; by intros [= <-].
  - destruct (at_pos s); try done. destruct kick; repeat case_match; intros E; try done; by injection E as <-.
  - destruct (at_pos s) as [|t [|[q addr] rest]| | | |]; try done; [by intros [= <-]|].
    destruct (redial c e t q addr (mgr s)) as [[evs l] m] eqn:E. intros [= <-]. by eapply redial_paced.
  - destruct (at_pos s); try done. intros [= <-]. unfold fill.
    destruct (warm_need c out dialing) as [need|] eqn:En; [|done]. pose proof (warm_need_bound _ _ _ _ En).
    pose proof (pool_share_bound c need ltac:(lia)).
    destruct (dialFromPool_spec e (pool_share c need) (mgr s)) as (n & l & _ & _ & -> & _); [lia|apply Hok|].
    eapply paced_keep; [done|done|by apply about_map].
  - destruct (at_pos s); try done. intros [= <-]. unfold draw. repeat case_match; try done.
    by eapply paced_keep.
  - destruct (dials s !! i) as [[na|na|na]|]; try done. by intros [= <-].
  - destruct (dials s !! i) as [[na|na|na]|]; try done. intros [= <-]. unfold dial_done. by repeat case_match.
  - destruct (dials s !! i) as [[na|na|na]|]; try done. intros [= <-]. eapply paced_keep; [done|done|].
    by destruct (has_book c), (has_banlist c).
Qed.

Definition ban_logged (p : ID) (s : sys) : Prop := EBanned p ∈ log s -> p ∈ banned (mgr s).

Lemma ban_logged_keep p s s' evs : ban_logged p s -> log s' = log s ++ evs -> banned (mgr s) ⊆ banned (mgr s') ->
  (EBanned p ∈ evs -> p ∈ banned (mgr s')) -> ban_logged p s'.
Proof using Type. unfold ban_logged. intros Hs -> Hb He [H|H]%elem_of_app; auto. Qed.

Lemma redial_banned e t q addr m evs l m' p : redial c e t q addr m = (evs, l, m') ->
  banned m ⊆ banned m' /\ (EBanned p ∈ evs -> p ∈ banned m').
Proof.
  intros E. pose proof (redial_cases c e t q addr m) as Hr. rewrite E in Hr.
  inversion Hr; subst; cbn; try (split; [done|set_solver]). split; [set_solver|].
  unfold markBadByAddr. repeat case_match; set_solver.
Qed.

Lemma exec_ban_logged e a s s' p : ban_logged p s -> mgr_ok c s -> exec c e a s = Some s' -> ban_logged p s'.
Proof.
  intros Hs Hok. assert (Hsame : forall s', log s' = log s -> banned (mgr s') = banned (mgr s) -> ban_logged p s').
  { unfold ban_logged. by intros s1 -> ->. }
  destruct a as [q addr|q|q reason| | | |kick order| |out dialing|pick existing|i|i r|i]; cbn [exec].
  - intros [= <-]. unfold Pin. case_match; by apply Hsame.
  - intros [= <-]. eapply ban_logged_keep; [done..|set_solver].
  - intros [= <-]. unfold Ban, IsBanned. case_bool_decide; cbn.
    + apply Hsame; [cbn; by rewrite app_nil_r|done].
    + eapply ban_logged_keep; [done..|cbn; set_solver|cbn; set_solver].
  - intros [= <-]. by apply Hsame.
  - intros [= <-]. by apply Hsame.
  - repeat case_match; intros E; try done; injection E as <-; by apply Hsame.
  - destruct (at_pos s); try done. destruct kick; repeat case_match; intros E; try done; injection E as <-; by apply Hsame.
  - destruct (at_pos s) as [|t [|[q addr] rest]| | | |]; try done; [intros [= <-]; by apply Hsame|].
    destruct (redial c e t q addr (mgr s)) as [[evs l] m] eqn:E. intros [= <-].
    destruct (redial_banned _ _ _ _ _ _ _ _ p E). by eapply ban_logged_keep.
  - destruct (at_pos s); try done. intros [= <-]. unfold fill.
    destruct (warm_need c out dialing) as [need|] eqn:En; [|by apply Hsame]. pose proof (warm_need_bound _ _ _ _ En).
    pose proof (pool_share_bound c need ltac:(lia)).
    destruct (dialFromPool_spec e (pool_share c need) (mgr s)) as (n & l & _ & _ & -> & _); [lia|apply Hok|].
    eapply ban_logged_keep; [done..|]. by intros (x & ? & _)%list_elem_of_fmap.
  - destruct (at_pos s); try done. intros [= <-]. unfold draw. repeat case_match; try by apply Hsame.
    eapply ban_logged_keep; [done..|set_solver].
  - destruct (dials s !! i) as [[na|na|na]|]; try done. intros [= <-]. by apply Hsame.
  - destruct (dials s !! i) as [[na|na|na]|]; try done. intros [= <-]. unfold dial_done. repeat case_match; by apply Hsame.
  - destruct (dials s !! i) as [[na|na|na]|]; try done. intros [= <-]. eapply ban_logged_keep; [done..|].
    destruct (has_book c), (has_banlist c); cbn; set_solver.
Qed.
End Pace.

(** ** Runs *)

Lemma execs_invariant c (P : sys -> Prop) (A : env * action -> Prop) :
  (forall e a s s', A (e, a) -> P s -> exec c e a s = Some s' -> P s') ->
  forall l s s', Forall A l -> P s -> execs c l s = Some s' -> P s'.
Proof.
  intros Hstep l. induction l as [|[e a] l IH]; intros s s' Hl Hs Hrun; cbn in Hrun; [by injection Hrun as <-|].
  apply Forall_cons in Hl as [Ha Hl]. destruct (exec c e a s) as [s1|] eqn:E; [|done]. eauto.
Qed.

Lemma reaches_ok shuffle c l s : reaches shuffle c l s ->
  mgr_ok (defaults c) s /\ forall p, paced (defaults c) (backoffs (mgr s)) (log s) p /\ ban_logged p s.
Proof.
  intros Hr. eapply (execs_invariant (defaults c)
      (fun s => mgr_ok (defaults c) s /\ forall p, paced (defaults c) (backoffs (mgr s)) (log s) p /\ ban_logged p s) (fun _ => True));
    [|by apply Forall_true| |exact Hr].
  - intros e a s1 s2 _ [Hok Hp] E. split; [by eapply exec_ok|]. intros p.
    split; [by eapply exec_paced; [apply Hp|..]|by eapply exec_ban_logged; [apply Hp|..]].
  - split; [apply init_ok|]. intros p. by split; [|intros ?%elem_of_nil].
Qed.

(** ** Banned peers *)

(** [id_of] is the ID that NewNetAddressString finds in a dial string; pins carry an
    address of the peer they pin. *)
Definition action_ok (id_of : bytes -> ID) (x : env * action) : Prop :=
  (forall ad na, lookup_addr x.1 ad = Some na -> na_ID na = id_of ad) /\
  match x.2 with APin p ad => id_of ad = p | _ => True end.

Definition snapshot (s : sys) : list (ID * bytes) :=
  match at_pos s with Redialing _ rest => rest | _ => [] end.

Section Bans.
Context (c : Config) (id_of : bytes -> ID).
Abbreviation action_ok := (action_ok id_of).

Record pins_ok (s : sys) : Prop := mkPins {
  pins_match : forall q ad, pinned (mgr s) !! q = Some ad -> id_of ad = q;
  snap_match : forall q ad, (q, ad) ∈ snapshot s -> id_of ad = q
}.

(** Banned, and neither pinned nor in the copy of the pins a tick goes through. *)
Definition out_of_reach (p : ID) (s : sys) : Prop :=
  p ∈ banned (mgr s) /\ pinned (mgr s) !! p = None /\ p ∉ (snapshot s).*1.

Lemma redial_pins e t p addr m evs l m' : redial c e t p addr m = (evs, l, m') ->
  pinned m' ⊆ pinned m /\ banned m ⊆ banned m'.
Proof.
  intros E. pose proof (redial_cases c e t p addr m) as Hr. rewrite E in Hr.
  inversion Hr; subst; cbn; split; try done; [apply delete_subseteq|set_solver].
Qed.

Lemma pins_keep s s' : pinned (mgr s') ⊆ pinned (mgr s) -> snapshot s' ⊆ snapshot s -> pins_ok s -> pins_ok s'.
Proof.
  intros Hm Hs [Hp Hr]. split; intros q ad Hq; [apply Hp; by eapply lookup_weaken|apply Hr; by apply Hs].
Qed.

Lemma visits_elem (order : list (ID * bytes)) (m : gmap ID bytes) q ad : visits order m = true -> (q, ad) ∈ order -> m !! q = Some ad.
Proof.
  intros [Hnd Hm]%andb_true_iff Hq. apply bool_decide_eq_true in Hnd, Hm. rewrite <- Hm.
  by apply elem_of_list_to_map_1.
Qed.

(** The steps other than pinning and the start of a tick add no pin and no visit. *)
Definition adds_pins (a : action) : bool :=
  match a with APin _ _ | ATick _ _ => true | _ => false end.

Lemma exec_shrinks e a s s' : adds_pins a = false -> mgr_ok c s -> exec c e a s = Some s' ->
  pinned (mgr s') ⊆ pinned (mgr s) /\ snapshot s' ⊆ snapshot s /\ banned (mgr s) ⊆ banned (mgr s').
Proof.
  intros Ha Hok. destruct a as [q addr|q|q reason| | | |kick order| |out dialing|pick existing|i|i r|i]; cbn [exec]; try done.
  - intros [= <-]. cbn. by split_and!; [apply delete_subseteq|..].
  - intros [= <-]. unfold Ban, IsBanned. case_bool_decide; [by split_and!|]. cbn. split_and!; [apply delete_subseteq|done|set_solver].
  - intros [= <-]. by split_and!.
  - intros [= <-]. by split_and!.
  - unfold snapshot. destruct (at_pos s) eqn:E; try done. case_match; [|done]. intros [= <-]. cbn. split_and!; [done|set_solver|done].
  - destruct (at_pos s) as [|t [|[q addr] rest]| | | |] eqn:Epos; try done; unfold snapshot; rewrite Epos; [intros [= <-]; cbn; split_and!; [done|set_solver|done]|].
    destruct (redial c e t q addr (mgr s)) as [[evs l] m] eqn:E. intros [= <-].
    destruct (redial_pins _ _ _ _ _ _ _ _ E). cbn. split_and!; [done|set_solver|done].
  - destruct (at_pos s) eqn:Epos; try done. intros [= <-]. unfold snapshot, fill. rewrite Epos.
    destruct (warm_need c out dialing) as [need|] eqn:En; [|by split_and!]. pose proof (warm_need_bound _ _ _ _ En).
    pose proof (pool_share_bound c need ltac:(lia)).
    destruct (dialFromPool_spec e (pool_share c need) (mgr s)) as (n & l & _ & _ & -> & _); [lia|apply Hok|].
    cbn. unfold after_pool. split_and!; [done|by destruct (has_book c && _)|done].
  - destruct (at_pos s) eqn:Epos; try done. intros [= <-]. unfold snapshot, draw. rewrite Epos. repeat case_match; by split_and!.
  - destruct (dials s !! i) as [[na|na|na]|]; try done. intros [= <-]. by split_and!.
  - destruct (dials s !! i) as [[na|na|na]|]; try done. intros [= <-]. unfold dial_done. repeat case_match; by split_and!.
  - destruct (dials s !! i) as [[na|na|na]|]; try done. intros [= <-]. by split_and!.
Qed.

Lemma tick_start e kick order s s' : exec c e (ATick kick order) s = Some s' ->
  mgr s' = mgr s /\ log s' = log s /\
  (snapshot s' = [] \/ snapshot s' = order /\ visits order (pinned (mgr s)) = true).
Proof.
  cbn. unfold snapshot. destruct (at_pos s) eqn:Epos; try done. destruct (kick && negb (kickCh s)); [done|].
  destruct (negb (has_switch c)); [intros [= <-]; destruct kick; cbn; rewrite Epos; auto|].
  destruct (visits order (pinned (mgr s))) eqn:Ev; cbn; [|done]. intros [= <-]. destruct kick; cbn; auto.
Qed.

Lemma exec_pins e a s s' : action_ok (e, a) -> mgr_ok c s -> pins_ok s -> exec c e a s = Some s' -> pins_ok s'.
Proof.
  intros [_ Ha] Hok Hp E. destruct (adds_pins a) eqn:Eadd.
  2:{ destruct (exec_shrinks e a s s' Eadd Hok E) as (? & ? & _). by eapply pins_keep. }
  destruct Hp as [Hp Hs]. destruct a; try done.
  - injection E as <-. unfold Pin. destruct (_ || _); [by split|]. split; cbn; [|done].
    intros q ad [[<- <-]|[_ Hq]]%lookup_insert_Some; [done|by apply Hp].
  - destruct (tick_start _ _ _ _ _ E) as (Hm & _ & Hsn). split; [by rewrite Hm|].
    destruct Hsn as [->|[-> Hv]]; [set_solver|]. intros q ad Hq. apply Hp. by eapply visits_elem.
Qed.

(** One step keeps a peer out of reach and starts no dial at it. *)
Definition no_dial (p : ID) (s s' : sys) : Prop :=
  exists new, log s' = log s ++ new /\ forall na, na ∈ launches new -> na_ID na <> p.

Lemma no_dial_same p s s' : log s' = log s -> no_dial p s s'.
Proof. exists []. rewrite app_nil_r. split; [done|]. set_solver. Qed.

Lemma no_dial_trans p s1 s2 s3 : no_dial p s1 s2 -> no_dial p s2 s3 -> no_dial p s1 s3.
Proof.
  intros (n1 & E1 & H1) (n2 & E2 & H2). exists (n1 ++ n2). rewrite E2, E1, app_assoc. split; [done|].
  intros na. rewrite launches_app, elem_of_app. naive_solver.
Qed.

Lemma exec_reach e a s s' p : (forall ad, a <> APin p ad) -> mgr_ok c s -> out_of_reach p s ->
  exec c e a s = Some s' -> out_of_reach p s'.
Proof.
  intros Hpin Hok (Hb & Hn & Hs) E. destruct (adds_pins a) eqn:Eadd.
  - destruct a; try done.
    + injection E as <-. unfold Pin. destruct (_ || _); [done|]. split_and!; try done. cbn.
      rewrite lookup_insert_ne; [done|]. naive_solver.
    + destruct (tick_start _ _ _ _ _ E) as (Hm & _ & Hsn). unfold out_of_reach. rewrite Hm. split_and!; try done.
      destruct Hsn as [->|[-> Hv]]; [set_solver|]. intros ([q ad] & Hq & Hel)%list_elem_of_fmap. cbn in Hq. subst q.
      rewrite (visits_elem _ _ _ _ Hv Hel) in Hn. done.
  - destruct (exec_shrinks e a s s' Eadd Hok E) as (Hm & Hsn & Hbn). split_and!; [by apply Hbn| |].
    + destruct (pinned (mgr s') !! p) as [ad|] eqn:Ep; [|done].
      by rewrite (lookup_weaken _ _ _ _ Ep Hm) in Hn.
    + intros (x & -> & Hx)%list_elem_of_fmap. apply Hs, list_elem_of_fmap. eauto.
Qed.

Lemma exec_no_dial e a s s' p : action_ok (e, a) -> mgr_ok c s -> pins_ok s -> out_of_reach p s ->
  exec c e a s = Some s' -> no_dial p s s'.
Proof.
  intros [Henv _] Hok Hp (Hb & Hn & Hs).
  destruct a as [q addr|q|q reason| | | |kick order| |out dialing|pick existing|i|i r|i]; cbn [exec].
  - intros [= <-]. by apply no_dial_same.
  - intros [= <-]. exists [EUnpin q]. split; [done|]. set_solver.
  - intros [= <-]. exists (if IsBanned q (mgr s) then [] else [EBanned q]). split; [done|]. case_match; set_solver.
  - intros [= <-]. by apply no_dial_same.
  - intros [= <-]. by apply no_dial_same.
  - repeat case_match; intros E; try done; injection E as <-; by apply no_dial_same.
  - intros E. apply no_dial_same. by eapply (tick_start e kick order).
  - destruct (at_pos s) as [|t [|[q addr] rest]| | | |] eqn:Epos; try done; [intros [= <-]; by apply no_dial_same|].
    destruct (redial c e t q addr (mgr s)) as [[evs l] m] eqn:E. intros [= <-]. exists evs. split; [done|].
    destruct (redial_frame _ _ _ _ _ _ _ _ _ E) as (_ & _ & -> & _). intros na Hna Heq. apply Hs.
    pose proof (redial_cases c e t q addr (mgr s)) as Hr. rewrite E in Hr.
    assert (Hq : q ∈ (snapshot s).*1) by (unfold snapshot; rewrite Epos; left).
    assert (Had : id_of addr = q) by (apply (snap_match s Hp); unfold snapshot; rewrite Epos; left).
    inversion Hr; subst l; try set_solver. unfold fireDial in Hna. destruct (lookup_addr e addr) as [x|] eqn:El; [|set_solver].
    apply list_elem_of_singleton in Hna as ->. rewrite <- Heq, (Henv addr x El), Had. exact Hq.
  - destruct (at_pos s) eqn:Epos; try done. intros [= <-]. unfold fill.
    destruct (warm_need c out dialing) as [need|] eqn:En; [|by apply no_dial_same]. pose proof (warm_need_bound _ _ _ _ En).
    pose proof (pool_share_bound c need ltac:(lia)).
    destruct (dialFromPool_spec e (pool_share c need) (mgr s)) as (n & l & _ & -> & -> & _); [lia|apply Hok|].
    eexists. split; [done|]. rewrite launches_dials by done.
    intros na (x & _ & Hx)%list_elem_of_omap Heq. unfold candidate, pool_skip in Hx.
    destruct (lookup_addr e (Addr x)) as [y|]; [|done].
    destruct (_ || _) eqn:Eskip in Hx; [done|]. injection Hx as ->.
    by rewrite Heq, bool_decide_eq_true_2 in Eskip.
  - destruct (at_pos s) eqn:Epos; try done. intros [= <-]. unfold draw.
    destruct (negb _); [by apply no_dial_same|]. destruct pick as [na|]; [|by apply no_dial_same].
    destruct (book_turn (mgr s) existing na) eqn:Eb; [|by apply no_dial_same].
    exists [EBookDial na]. split; [done|]. intros x Hx Heq. apply list_elem_of_singleton in Hx as ->.
    unfold book_turn in Eb. rewrite Heq, (bool_decide_eq_true_2 (p ∈ _)) in Eb by done.
    by rewrite andb_false_r in Eb.
  - destruct (dials s !! i) as [[na|na|na]|]; try done. intros [= <-]. by apply no_dial_same.
  - destruct (dials s !! i) as [[na|na|na]|]; try done. intros [= <-]. unfold dial_done. repeat case_match; by apply no_dial_same.
  - destruct (dials s !! i) as [[na|na|na]|]; try done. intros [= <-]. eexists. split; [done|].
    intros x. destruct (has_book c), (has_banlist c); intros Hx; by apply elem_of_nil in Hx.
Qed.

Lemma run_no_dial l p : forall s s', Forall action_ok l -> (forall e ad, (e, APin p ad) ∉ l) ->
  mgr_ok c s -> pins_ok s -> out_of_reach p s -> execs c l s = Some s' -> no_dial p s s'.
Proof.
  induction l as [|[e a] l IH]; intros s s' Hl Hpin Hok Hp Hr Hrun; cbn in Hrun.
  - injection Hrun as <-. by apply no_dial_same.
  - apply Forall_cons in Hl as [Ha Hl]. destruct (exec c e a s) as [s1|] eqn:E; [|done].
    apply no_dial_trans with s1; [by eapply exec_no_dial|].
    eapply IH; [done| |by eapply exec_ok|by eapply exec_pins|eapply exec_reach; [|done..]|done].
    + intros e' ad Hel. apply (Hpin e' ad). by right.
    + intros ad ->. apply (Hpin e ad). by left.
Qed.
End Bans.

(** ** Properties *)

(** C15: in every reachable state, whatever the callers, the switch and the
    schedule do: the loop has not panicked, no failure count stands at the limit
    except for a goroutine about to evict the address, no redial schedule exceeds
    MaxRedials, every ban has its reason, and every dial that was started is
    waiting, under way, or counted as a success, a failure or refused. *)
Theorem manager_invariant shuffle c l s : reaches shuffle c l s -> mgr_ok (defaults c) s.
Proof. intros Hr. by apply (reaches_ok shuffle c l s). Qed.

(** C16: take the redials of a peer since it was last unpinned, banned, or connected at
    every one of its turns over a whole StabilityWindow: each came at least the
    backoff of the one before after it, and if MaxRedials is positive (0 means no
    limit) there are at most MaxRedials of them.  A peer that was connected for less
    than the window keeps its count, and an event that reports a ban is about a peer
    that is banned. *)
Theorem redial_schedule shuffle c l s p : reaches shuffle c l s ->
  ladder (defaults c) (since_reset (StabilityWindow (defaults c)) p (log s)) /\
  (0 < MaxRedials c -> len (since_reset (StabilityWindow (defaults c)) p (log s)) <= MaxRedials c) /\
  (EBanned p ∈ log s -> IsBanned p (mgr s) = true).
Proof.
  intros Hr. destruct (reaches_ok shuffle c l s Hr) as [Hok Hp]. destruct (Hp p) as [Hpace Hban].
  split_and!; [| |intros Hin; by apply bool_decide_eq_true, Hban].
  - unfold since_reset, paced in *. by destruct (history _ p (log s)), Hpace.
  - intros Hm. unfold since_reset, paced in *. destruct (history _ p (log s)) as [hl up]. destruct Hpace as [Hl Hb]. cbn.
    destruct (backoffs (mgr s) !! p) as [bo|] eqn:Eb; [|rewrite Hb, len_nil; lia].
    destruct Hb as (_ & t & Hlast & _). rewrite <- (ladder_last _ _ _ _ Hl Hlast). by apply (ok_back _ _ Hok p bo Eb).
Qed.

(** C17: a banned peer that is neither pinned nor in the copy of the pins of
    the tick under way is never dialled again, by no source, unless it is pinned;
    provided that the ID NewNetAddressString finds in a dial string depends on the
    string alone ([id_of]), and that every pin, earlier or later, carries an address of
    the peer it pins. *)
Theorem banned_not_dialed id_of shuffle c l0 l s s' p :
  reaches shuffle c l0 s -> execs (defaults c) l s = Some s' -> Forall (action_ok id_of) (l0 ++ l) ->
  out_of_reach p s -> (forall e ad, (e, APin p ad) ∉ l) ->
  exists new, log s' = log s ++ new /\ forall na, na ∈ launches new -> na_ID na <> p.
Proof.
  intros Hr Hrun [H0 Hl]%Forall_app Hout Hpin.
  assert (Hs : mgr_ok (defaults c) s /\ pins_ok id_of s).
  { eapply (execs_invariant (defaults c) (fun s => mgr_ok (defaults c) s /\ pins_ok id_of s) (action_ok id_of)); [|exact H0| |exact Hr].
    - intros e a s1 s2 Ha [Hok Hp] E. split; [by eapply exec_ok|by eapply exec_pins].
    - split; [apply init_ok|]. by split; [|set_solver]. }
  destruct Hs. by eapply run_no_dial.
Qed.

(** The warm-fill dials the eligible entries of the pool in order from
    the cursor, up to its share, and moves the cursor behind the last entry seen;
    when it finds fewer, it has dialled every eligible entry of the pool. *)
Theorem dialFromPool_exact e need m :
  0 <= need -> (pool m <> [] -> 0 <= cursor m < len (pool m)) ->
  exists n l m', dialFromPool e need m = Ret (l, m') /\
    l = omap (candidate e m) (entries_from (cursor m) n (pool m)) /\
    cursor m' = (if bool_decide (pool m = []) then cursor m else Z.rem (cursor m + Z.of_nat n) (len (pool m))) /\
    len l <= need /\
    (len l < need -> forall x na, x ∈ pool m -> candidate e m x = Some na -> na ∈ l).
Proof.
  intros Hn Hc. destruct (dialFromPool_spec e need m Hn Hc) as (n & l & _ & Hl & Hr & Hle & Hend).
  exists n, l. eexists. split_and!; [exact Hr|done|done|done|].
  intros Hlt x na Hx Hna. destruct Hend as [->|?]; [|lia]. rewrite Hl. apply list_elem_of_omap. exists x. split; [|done].
  assert (Hp : pool m <> []) by (intros E; rewrite E in Hx; by apply elem_of_nil in Hx).
  by rewrite (entries_all (cursor m) (pool m) (Hc Hp)).
Qed.

(** From the second disconnect on, the backoff is the base doubled with
    every further disconnect, ten times at most, and never above MaxBackoff; the
    shift does not overflow for a base below 2^53 ns (104 days). *)
Theorem computeBackoff_exact c disc : 0 < Backoff c < 2 ^ 53 -> 2 <= disc ->
  computeBackoff c disc = Z.min (MaxBackoff c) (Backoff c * 2 ^ Z.min (disc - 1) 10).
Proof.
  intros Hb Hd. unfold computeBackoff. rewrite (proj2 (Z.leb_gt disc 1)) by lia.
  replace (if 10 <? disc - 1 then 10 else disc - 1) with (Z.min (disc - 1) 10) by (case_match; lia).
  rewrite Z.shiftl_mul_pow2 by lia.
  assert (Hp : 2 ^ 1 <= 2 ^ Z.min (disc - 1) 10 <= 2 ^ 10) by (split; apply Z.pow_le_mono_r; lia).
  rewrite i64_small by nia. rewrite (proj2 (Z.leb_gt _ 0)) by nia. cbn [orb].
  case_match; lia.
Qed.

(** ** A run *)

(** The ID of a dial string: what stands before the [@], after a [scheme://] if there
    is one. *)
Fixpoint before_at (a : bytes) : ID :=
  match a with
  | [] => []
  | x :: r => if bool_decide (x = byte.of_Z 64) then [] else x :: before_at r
  end.

Fixpoint after_scheme (a : bytes) : option bytes :=
  match a with
  | [] => None
  | _ :: r => if bool_decide (take 3 a = str "://") then Some (drop 3 a) else after_scheme r
  end.

Definition addr_id (a : bytes) : ID := before_at (default a (after_scheme a)).

Example addr_id_scheme : addr_id (str "tcp://q@3") = str "q" /\ addr_id (str "q@3") = str "q".
Proof. split; reflexivity. Qed.

Definition sample_lookup (ad : bytes) : option netAddr :=
  if bool_decide (ad = []) then None else Some (mkNA (addr_id ad) ad).
Definition sample_env (t : Z) (up : list ID) : env :=
  mkEnv t (fun p => bool_decide (p ∈ up)) sample_lookup.
Definition sample_config : Config :=
  mkConfig true true true [mkPA (str "a@1") (str "bootstrap"); mkPA (str "b@2") (str "addrbook")]
    3 0 0 0 0 0 2 0 1 false 0.

(** Two redials of the pinned peer q, at 0 s and 5 s; a dial that fails and evicts its
    address; a third tick, which bans q. *)
Definition tick_of (t : Z) (order : list (ID * bytes)) : list (env * action) :=
  (sample_env (t * second) [], ATick false order) ::
  map (fun _ => (sample_env (t * second) [], ARedial)) order ++
  [(sample_env 0 [], ARedial); (sample_env 0 [], AFill 0 1);
   (sample_env 0 [], ADraw None false)].
Definition sample_q : list (ID * bytes) := [(str "q", str "q@3")].
Definition sample_start : list (env * action) := (sample_env 0 [], APin (str "q") (str "q@3")) :: tick_of 0 sample_q.
Definition sample_more : list (env * action) :=
  [(sample_env 0 [], ADial 0); (sample_env 0 [], AResult 0 DialFailed); (sample_env 0 [], AEvict 0)] ++
  tick_of 4 sample_q ++ tick_of 5 sample_q.
Definition sample_ban : list (env * action) := tick_of 15 sample_q.
Definition sample_after : list (env * action) := tick_of 60 [].

Definition run_of (l : list (env * action)) : sys :=
  default (init_sys id sample_config) (execs (defaults sample_config) l (init_sys id (defaults sample_config))).

Definition runs (l : list (env * action)) : bool :=
  match execs (defaults sample_config) l (init_sys id (defaults sample_config)) with Some _ => true | None => false end.

Lemma run_reaches l : runs l = true -> reaches id sample_config l (run_of l).
Proof. unfold runs, reaches, run_of. by destruct (execs _ l _). Qed.

Lemma execs_app c l1 l2 : forall s, execs c (l1 ++ l2) s = execs c l1 s ≫= execs c l2.
Proof. induction l1 as [|[e a] l1 IH]; intros s; cbn; [done|]. destruct (exec c e a s); [apply IH|done]. Qed.

Lemma run_from l1 l2 : runs l1 = true -> runs (l1 ++ l2) = true ->
  execs (defaults sample_config) l2 (run_of l1) = Some (run_of (l1 ++ l2)).
Proof.
  unfold runs, run_of. rewrite execs_app. destruct (execs _ l1 _) as [s1|]; [|done]. cbn.
  by destruct (execs _ l2 s1).
Qed.

Example sample_schedule :
  since_reset (30 * second) (str "q") (log (run_of (sample_start ++ sample_more))) = [(0, 1); (5 * second, 2)] /\
  IsBanned (str "q") (mgr (run_of (sample_start ++ sample_more ++ sample_ban))) = true.
Proof. vm_compute. split; reflexivity. Qed.

Lemma manager_invariant_witness : mgr_ok (defaults sample_config) (run_of (sample_start ++ sample_more ++ sample_ban)).
Proof. apply (manager_invariant id sample_config (sample_start ++ sample_more ++ sample_ban)), run_reaches. vm_compute. reflexivity. Defined.

Lemma redial_schedule_witness : let r := since_reset (30 * second) (str "q") (log (run_of (sample_start ++ sample_more))) in
  ladder (defaults sample_config) r /\ len r <= 2.
Proof.
  destruct (redial_schedule id sample_config (sample_start ++ sample_more) (run_of (sample_start ++ sample_more)) (str "q"))
    as (Hl & Hm & _); [apply run_reaches; vm_compute; reflexivity|].
  split; [exact Hl|apply Hm; reflexivity].
Defined.

Lemma sample_actions_ok l : forallb (fun x => match x.2 with APin p ad => bool_decide (addr_id ad = p) | _ => true end) l = true ->
  Forall (fun x => exists t up, x.1 = sample_env t up) l -> Forall (action_ok addr_id) l.
Proof.
  intros Hl Hf. rewrite forallb_forall in Hl. rewrite Forall_forall in *. intros x Hx. split.
  - destruct (Hf x Hx) as (t & up & ->). cbn. unfold sample_lookup. intros ad na. case_bool_decide; [done|]. by intros [= <-].
  - apply list_elem_of_In, Hl in Hx. destruct x.2; try done. by apply bool_decide_eq_true in Hx.
Qed.

Lemma banned_not_dialed_witness :
  exists new, log (run_of ((sample_start ++ sample_more ++ sample_ban) ++ sample_after)) =
    log (run_of (sample_start ++ sample_more ++ sample_ban)) ++ new /\
    forall na, na ∈ launches new -> na_ID na <> str "q".
Proof.
  apply (banned_not_dialed addr_id id sample_config (sample_start ++ sample_more ++ sample_ban) sample_after).
  - apply run_reaches. vm_compute. reflexivity.
  - apply (run_from (sample_start ++ sample_more ++ sample_ban) sample_after); vm_compute; reflexivity.
  - apply sample_actions_ok; [vm_compute; reflexivity|].
    repeat constructor; by eexists _, _.
  - split_and!; [by apply (bool_decide_unpack _); vm_compute|vm_compute; reflexivity|].
    by apply (bool_decide_unpack _); vm_compute.
  - intros e ad Hel. apply list_elem_of_In in Hel. cbn in Hel. naive_solver.
Defined.

Lemma dialFromPool_exact_witness : exists n l m', dialFromPool (sample_env 0 []) 1 (New id sample_config) = Ret (l, m') /\
  l = omap (candidate (sample_env 0 []) (New id sample_config)) (entries_from 0 n (Pool sample_config)).
Proof.
  destruct (dialFromPool_exact (sample_env 0 []) 1 (New id sample_config)) as (n & l & m' & Hr & Hl & _).
  - lia.
  - intros _. split; [reflexivity|vm_compute; reflexivity].
  - exists n, l, m'. split; [exact Hr|exact Hl].
Defined.

Lemma computeBackoff_exact_witness : computeBackoff (defaults sample_config) 7 = 300 * second.
Proof. rewrite (computeBackoff_exact (defaults sample_config) 7); [reflexivity|split; vm_compute; reflexivity|lia]. Defined.

(** Pin does not look at the bans: a banned peer that is pinned again is redialled. *)
Example pin_revives_banned :
  let s := run_of ([(sample_env 0 [], ABan (str "q") []); (sample_env 0 [], APin (str "q") (str "q@3"))] ++ tick_of 0 sample_q) in
  IsBanned (str "q") (mgr s) = true /\ mkNA (str "q") (str "q@3") ∈ launches (log s).
Proof. split; [vm_compute; reflexivity|]. by apply (bool_decide_unpack _); vm_compute. Qed.

(** A ban that lands while the tick goes through its copy of the pins: the peer is
    still dialled, and its schedule is stored again although it is no longer pinned. *)
Example ban_races_tick :
  let s := run_of [(sample_env 0 [], APin (str "q") (str "q@3")); (sample_env 0 [], ATick false sample_q);
                   (sample_env 0 [], ABan (str "q") []); (sample_env 0 [], ARedial)] in
  mkNA (str "q") (str "q@3") ∈ launches (log s) /\ size (pinned (mgr s)) = 0%nat /\ size (backoffs (mgr s)) = 1%nat.
Proof.
  split; [by apply (bool_decide_unpack _); vm_compute|]. split; vm_compute; reflexivity.
Qed.

(** The first backoff is not capped. *)
Example first_backoff_uncapped :
  computeBackoff (mkConfig true true true [] 0 0 0 0 (600 * second) (300 * second) 0 0 0 false 0) 1 = 600 * second.
Proof. reflexivity. Qed.
