(* ===== verification/Reactor.v ===== *)
(** * The state-sync reactor (internal/statesync/reactor.go)

    The reactor speaks the two state-sync channels.  For the fetching side it
    forwards what peers send on two bounded queues and drops what does not fit; for
    the serving side it answers requests from a provider, within a token bucket per
    peer and one for all.  A handler call ([AddPeer], [RemovePeer], [Receive]) is one
    step: handlers of different peers run in parallel, but share only the two
    channels, counters that are only added to, and the buckets, which have their own
    locks.  The buckets are golang.org/x/time/rate, a class here with the laws of a
    token bucket.  The main theorems: the queues deliver in order and count what
    they lose; a peer gets no more chunks than its bucket allows, however often it
    reconnects. *)

From Stdlib Require Import QArith Qround Qminmax Lqa.
From S2P Require Import Prelude.
#[local] Open Scope Z_scope.

Abbreviation ID := bytes.

(** ** Messages *)

Record Snapshot := mkSnapshot {
  Height : Z;
  Format : Z;
  Chunks : Z;
  Hash : bytes;
  Metadata : bytes
}.

Record ChunkInfo := mkChunkInfo {
  c_Height : Z;
  c_Format : Z;
  c_Index : Z;
  c_Size : Z;
  c_Bytes : bytes;
  c_Missing : bool
}.

Record Event := mkEvent {
  PeerID : ID;
  e_Snapshot : option Snapshot;
  e_Chunk : option ChunkInfo;
  Connected : bool;
  Removed : bool
}.

(** The protobuf messages of the two channels. *)
Inductive message :=
| SnapshotsRequest
| SnapshotsResponse (s : Snapshot)
| ChunkRequest (height format index : Z)
| ChunkResponse (height format index : Z) (chunk : bytes) (missing : bool)
| OtherMessage.

(** ** Rate limiters: golang.org/x/time/rate *)

Class RateLimiter (Lim : Type) := {
  NewLimiter : Q -> Z -> Lim;
  Allow : Z -> Lim -> bool * Lim
}.

(** A bucket of [b] tokens, full at first, refilled at [r] tokens per second; a
    request takes one token or is refused.  Times are nanoseconds; [idle_since l t]
    says that [l] was not used after [t]. *)
Class TokenBucket (Lim : Type) `{RateLimiter Lim} := {
  bucket : Q -> Z -> Lim -> Prop;
  idle_since : Lim -> Z -> Prop;
  tokens : Lim -> Z -> Q;
  tb_new r b : (0 < r)%Q -> 0 < b -> bucket r b (NewLimiter r b) /\
    forall t, idle_since (NewLimiter r b) t /\ (tokens (NewLimiter r b) t == inject_Z b)%Q;
  tb_later l t t' : idle_since l t -> t <= t' -> idle_since l t';
  tb_range r b l t : bucket r b l -> idle_since l t -> (0 <= tokens l t <= inject_Z b)%Q;
  tb_fill r b l t t' : bucket r b l -> idle_since l t -> t <= t' ->
    (tokens l t' == Qmin (inject_Z b) (tokens l t + r * (inject_Z (t' - t) / inject_Z 1000000000)))%Q;
  tb_allow r b l t ok l' : bucket r b l -> idle_since l t -> Allow t l = (ok, l') ->
    bucket r b l' /\ idle_since l' t /\ ok = Qle_bool 1 (tokens l t) /\
    (tokens l' t == tokens l t - if ok then 1 else 0)%Q
}.

(** ** float64

    [rnd] rounds a number to the nearest float64; [to_int64] is the conversion of a
    float64 to an int64, which truncates what fits and is up to the platform beyond. *)
Class Float64 := { rnd : Q -> Q; to_int64 : Q -> Z }.

(** Far from the ends of the range the rounding error is below one part in 2^50. *)
Definition eps : Q := 1 # 1125899906842624.
Class Float64Laws `{Float64} := {
  rnd_near x : ((1 # 1099511627776) <= x <= inject_Z (2 ^ 70))%Q -> (x * (1 - eps) <= rnd x <= x * (1 + eps))%Q;
  to_int64_trunc x : (0 <= x)%Q -> (x < inject_Z (2 ^ 63))%Q -> to_int64 x = Qfloor x
}.

Section Reactor.
Context {Lim : Type} `{RateLimiter Lim} `{F64 : Float64}.
(** The file system the provider reads, and the encoded size of a message. *)
Context {FS : Type} (proto_Size : message -> Z).

Record SnapshotProvider := mkProvider {
  ListSnapshots : list Snapshot;
  LoadChunk : FS -> Z -> Z -> Z -> bytes * bool * option goerr
}.

(** ** State *)

(** [removedAt] is 0 while the peer is connected. *)
Record peerLimiterEntry := mkEntry { lim : Lim; removedAt : Z }.

Record counters := mkCounters {
  bytesRecv : Z;
  bytesSent : Z;
  dropsCtrl : Z;
  dropsChunk : Z;
  snapshotsServed : Z;
  chunksServed : Z;
  chunksMissing : Z;
  chunksDrained : Z;
  droppedRatePeer : Z;
  droppedRateGlobal : Z
}.

Record Reactor := mkReactor {
  Out : list Event;
  OutChunks : list Event;
  provider : option SnapshotProvider;
  probe : bool;
  shuttingDown : bool;
  globalLim : option Lim;
  peerLimiters : gmap ID peerLimiterEntry;
  chunkRatePerPeer : Q;
  chunkBurstPerPeer : Z;
  setRateCalled : bool;
  cnt : counters
}.

Definition outCapacity : Z := 256.
Definition outChunksCapacity : Z := 8.

Definition NewReactor : Reactor :=
  mkReactor [] [] None true false None ∅ 0 0 false (mkCounters 0 0 0 0 0 0 0 0 0 0).

Definition set_queues o oc (r : Reactor) : Reactor :=
  mkReactor o oc (provider r) (probe r) (shuttingDown r) (globalLim r) (peerLimiters r)
    (chunkRatePerPeer r) (chunkBurstPerPeer r) (setRateCalled r) (cnt r).
Definition set_cnt c (r : Reactor) : Reactor :=
  mkReactor (Out r) (OutChunks r) (provider r) (probe r) (shuttingDown r) (globalLim r) (peerLimiters r)
    (chunkRatePerPeer r) (chunkBurstPerPeer r) (setRateCalled r) c.
Definition set_limits g p (r : Reactor) : Reactor :=
  mkReactor (Out r) (OutChunks r) (provider r) (probe r) (shuttingDown r) g p
    (chunkRatePerPeer r) (chunkBurstPerPeer r) (setRateCalled r) (cnt r).
Definition set_rates q b g (r : Reactor) : Reactor :=
  mkReactor (Out r) (OutChunks r) (provider r) (probe r) (shuttingDown r) g (peerLimiters r) q b true (cnt r).
Definition set_mode p pr sh (r : Reactor) : Reactor :=
  mkReactor (Out r) (OutChunks r) p pr sh (globalLim r) (peerLimiters r)
    (chunkRatePerPeer r) (chunkBurstPerPeer r) (setRateCalled r) (cnt r).

Definition add_recv n (c : counters) : counters :=
  mkCounters (bytesRecv c + n) (bytesSent c) (dropsCtrl c) (dropsChunk c) (snapshotsServed c) (chunksServed c)
    (chunksMissing c) (chunksDrained c) (droppedRatePeer c) (droppedRateGlobal c).
Definition add_sent n (c : counters) : counters :=
  mkCounters (bytesRecv c) (bytesSent c + n) (dropsCtrl c) (dropsChunk c) (snapshotsServed c) (chunksServed c)
    (chunksMissing c) (chunksDrained c) (droppedRatePeer c) (droppedRateGlobal c).
Definition add_drops a b (c : counters) : counters :=
  mkCounters (bytesRecv c) (bytesSent c) (dropsCtrl c + a) (dropsChunk c + b) (snapshotsServed c) (chunksServed c)
    (chunksMissing c) (chunksDrained c) (droppedRatePeer c) (droppedRateGlobal c).
Definition add_served sn ch mi dr (c : counters) : counters :=
  mkCounters (bytesRecv c) (bytesSent c) (dropsCtrl c) (dropsChunk c) (snapshotsServed c + sn) (chunksServed c + ch)
    (chunksMissing c + mi) (chunksDrained c + dr) (droppedRatePeer c) (droppedRateGlobal c).
Definition add_limited p g (c : counters) : counters :=
  mkCounters (bytesRecv c) (bytesSent c) (dropsCtrl c) (dropsChunk c) (snapshotsServed c) (chunksServed c)
    (chunksMissing c) (chunksDrained c) (droppedRatePeer c + p) (droppedRateGlobal c + g).

Definition upd_cnt (f : counters -> counters) (r : Reactor) : Reactor := set_cnt (f (cnt r)) r.

(** ** Set-up *)

Definition SetProvider (p : option SnapshotProvider) (r : Reactor) : Reactor :=
  set_mode p (probe r) (shuttingDown r) r.
Definition loadProvider (r : Reactor) : option SnapshotProvider := provider r.
Definition SetProbe (b : bool) (r : Reactor) : Reactor := set_mode (provider r) b (shuttingDown r) r.
Definition BeginShutdown (r : Reactor) : Reactor := set_mode (provider r) (probe r) true r.
Definition IsShuttingDown (r : Reactor) : bool := shuttingDown r.

Record ChunkRateLimit := mkRates { PerPeerRate : Q; PerPeerBurst : Z; GlobalRate : Q; GlobalBurst : Z }.

Definition Qpos (q : Q) : bool := negb (Qle_bool q 0).

Definition SetChunkRateLimit (c : ChunkRateLimit) (r : Reactor) : Reactor :=
  if setRateCalled r then r else
  let '(q, b) := if Qpos (PerPeerRate c) && (0 <? PerPeerBurst c)
                 then (PerPeerRate c, PerPeerBurst c) else (chunkRatePerPeer r, chunkBurstPerPeer r) in
  let g := if Qpos (GlobalRate c) && (0 <? GlobalBurst c)
           then Some (NewLimiter (GlobalRate c) (GlobalBurst c)) else globalLim r in
  set_rates q b g r.

(** ** Limiters *)

Definition limits_peers (r : Reactor) : bool := Qpos (chunkRatePerPeer r) && (0 <? chunkBurstPerPeer r).

(** The limiter of a peer, created on first use: [LoadOrStore]. *)
Definition peerLimiter (p : ID) (r : Reactor) : option Lim * Reactor :=
  if negb (limits_peers r) then (None, r) else
  match peerLimiters r !! p with
  | Some e => (Some (lim e), r)
  | None =>
      let l := NewLimiter (chunkRatePerPeer r) (chunkBurstPerPeer r) in
      (Some l, set_limits (globalLim r) (<[p := mkEntry l 0]> (peerLimiters r)) r)
  end.

(** The time an empty bucket takes to fill, a [time.Duration]. *)
Definition refill (r : Reactor) : Z :=
  to_int64 (rnd (rnd (rnd (inject_Z (chunkBurstPerPeer r)) / chunkRatePerPeer r) * inject_Z 1000000000)).

#[global] Arguments refill : simpl never.

Definition stale (cutoff : Z) (e : peerLimiterEntry) : bool :=
  (0 <? removedAt e) && (removedAt e <? cutoff).

Definition sweepStaleLimiters (now : Z) (r : Reactor) : Reactor :=
  if negb (limits_peers r) then r else
  let cutoff := i64 (now + i64 (-2 * refill r)) in
  set_limits (globalLim r)
    (map_imap (fun _ e => if stale cutoff e then None else Some e) (peerLimiters r)) r.

(** The [Delete] of one entry. *)
Definition delete_limiter (p : ID) (r : Reactor) : Reactor :=
  set_limits (globalLim r) (delete p (peerLimiters r)) r.

Definition set_removedAt (p : ID) (t : Z) (r : Reactor) : Reactor :=
  match peerLimiters r !! p with
  | Some e => set_limits (globalLim r) (<[p := mkEntry (lim e) t]> (peerLimiters r)) r
  | None => r
  end.

(** [Allow] on the global bucket and on a peer's: their new state is kept in place. *)
Definition allow_global (now : Z) (r : Reactor) : bool * Reactor :=
  match globalLim r with
  | None => (true, r)
  | Some l => let '(ok, l) := Allow now l in (ok, set_limits (Some l) (peerLimiters r) r)
  end.

Definition allow_peer (now : Z) (p : ID) (r : Reactor) : bool * Reactor :=
  match peerLimiter p r with
  | (None, r) => (true, r)
  | (Some l, r) =>
      let '(ok, l) := Allow now l in
      let t := match peerLimiters r !! p with Some e => removedAt e | None => 0 end in
      (ok, set_limits (globalLim r) (<[p := mkEntry l t]> (peerLimiters r)) r)
  end.

(** ** Handlers *)

(** What surrounds a handler call: the clock, whether [peer.Send] queues a message,
    the file system. *)
Record env := mkEnv { now : Z; accepts : message -> bool; fs : FS }.

(** What a handler does to the outside. *)
Inductive call :=
| CSend (p : ID) (m : message) (queued : bool)
| CLoad (p : ID) (height format index : Z).

(** [select { case ch <- ev: default: drops++ }] *)
Definition offer_out (ev : Event) (r : Reactor) : Reactor :=
  if len (Out r) <? outCapacity then set_queues (Out r ++ [ev]) (OutChunks r) r
  else upd_cnt (add_drops 1 0) r.

Definition offer_chunk (ev : Event) (r : Reactor) : Reactor :=
  if len (OutChunks r) <? outChunksCapacity then set_queues (Out r) (OutChunks r ++ [ev]) r
  else upd_cnt (add_drops 0 1) r.

Definition AddPeer (e : env) (p : ID) (r : Reactor) : list call * Reactor :=
  let r := offer_out (mkEvent p None None true false) r in
  let r := set_removedAt p 0 r in
  if negb (probe r) then ([], r) else
  let ok := accepts e SnapshotsRequest in
  ([CSend p SnapshotsRequest ok], if ok then upd_cnt (add_sent (proto_Size SnapshotsRequest)) r else r).

Definition RemovePeer (e : env) (p : ID) (r : Reactor) : list call * Reactor :=
  let r := offer_out (mkEvent p None None false true) r in
  ([], sweepStaleLimiters (now e) (set_removedAt p (now e) r)).

Definition RequestChunk (e : env) (p : ID) (height format index : Z) (r : Reactor) : bool * list call * Reactor :=
  let m := ChunkRequest height format index in
  let ok := accepts e m in
  (ok, [CSend p m ok], if ok then upd_cnt (add_sent (proto_Size m)) r else r).

(** Send a response and count it if it was queued. *)
Definition respond (e : env) (p : ID) (m : message) (f : counters -> counters) (r : Reactor) : list call * Reactor :=
  let ok := accepts e m in
  ([CSend p m ok], if ok then upd_cnt f (upd_cnt (add_sent (proto_Size m)) r) else r).

Definition serve_snapshots (e : env) (src : ID) (l : list Snapshot) (r : Reactor) : list call * Reactor :=
  fold_left (fun x s =>
    let '(cs, r) := x in
    let '(cs', r) := respond e src (SnapshotsResponse s) (add_served 1 0 0 0) r in (cs ++ cs', r)) l ([], r).

Definition serve_chunk (e : env) (src : ID) (prov : SnapshotProvider) (h f i : Z) (r : Reactor) : list call * Reactor :=
  if shuttingDown r then respond e src (ChunkResponse h f i [] true) (add_served 0 0 0 1) r else
  let '(ok, r) := allow_global (now e) r in
  if negb ok then ([], upd_cnt (add_limited 0 1) r) else
  let '(ok, r) := allow_peer (now e) src r in
  if negb ok then ([], upd_cnt (add_limited 1 0) r) else
  let '(data, found, err) := LoadChunk prov (fs e) h f i in
  let '(data, found) := match err with Some _ => ([], false) | None => (data, found) end in
  let '(cs, r) := respond e src (ChunkResponse h f i data (negb found))
                    (if found then add_served 0 1 0 0 else add_served 0 0 1 0) r in
  (CLoad src h f i :: cs, r).

Definition Receive (e : env) (src : ID) (m : message) (r : Reactor) : list call * Reactor :=
  let r := upd_cnt (add_recv (proto_Size m)) r in
  match m with
  | SnapshotsResponse s => ([], offer_out (mkEvent src (Some s) None false false) r)
  | ChunkResponse h f i data missing =>
      ([], offer_chunk (mkEvent src None (Some (mkChunkInfo h f i (len data) data missing)) false false) r)
  | SnapshotsRequest =>
      match loadProvider r with
      | None => ([], r)
      | Some p => serve_snapshots e src (ListSnapshots p) r
      end
  | ChunkRequest h f i =>
      match loadProvider r with
      | None => ([], r)
      | Some p => serve_chunk e src p h f i r
      end
  | OtherMessage => ([], r)
  end.

Definition Served (r : Reactor) : Z * Z * Z := (snapshotsServed (cnt r), chunksServed (cnt r), chunksMissing (cnt r)).
Definition Drained (r : Reactor) : Z := chunksDrained (cnt r).
Definition RateDropped (r : Reactor) : Z * Z := (droppedRatePeer (cnt r), droppedRateGlobal (cnt r)).
Definition Bytes (r : Reactor) : Z * Z := (bytesRecv (cnt r), bytesSent (cnt r)).
Definition Drops (r : Reactor) : Z * Z := (dropsCtrl (cnt r), dropsChunk (cnt r)).

(** ** The system *)

Inductive action :=
| AAddPeer (p : ID)
| ARemovePeer (p : ID)
| AReceive (p : ID) (m : message)
| ARequestChunk (p : ID) (height format index : Z)
| ASetProvider (p : option SnapshotProvider)
| AShutdown
| ATakeOut
| ATakeChunk.

(** The reactor, what its consumers have taken from the queues, the calls made, and
    when: [taken] and [calls] are not kept by the code. *)
Record sys := mkSys {
  reactor : Reactor;
  taken : list Event;
  takenChunks : list Event;
  calls : list (Z * call)
}.

Definition act (e : env) (a : action) (r : Reactor) : list call * Reactor :=
  match a with
  | AAddPeer p => AddPeer e p r
  | ARemovePeer p => RemovePeer e p r
  | AReceive p m => Receive e p m r
  | ARequestChunk p h f i => let '(_, cs, r) := RequestChunk e p h f i r in (cs, r)
  | ASetProvider p => ([], SetProvider p r)
  | AShutdown => ([], BeginShutdown r)
  | _ => ([], r)
  end.

(** A handler is one step.  In the code handlers run in parallel; their effects on the
    queues, the counters and one bucket are single operations on locked or atomic
    objects, but the sweep of [RemovePeer] looks at an entry and deletes it in two
    (see [sweep_races_reconnect]). *)
Definition exec (e : env) (a : action) (s : sys) : option sys :=
  match a with
  | ATakeOut =>
      match Out (reactor s) with
      | [] => None
      | ev :: q => Some (mkSys (set_queues q (OutChunks (reactor s)) (reactor s)) (taken s ++ [ev]) (takenChunks s) (calls s))
      end
  | ATakeChunk =>
      match OutChunks (reactor s) with
      | [] => None
      | ev :: q => Some (mkSys (set_queues (Out (reactor s)) q (reactor s)) (taken s) (takenChunks s ++ [ev]) (calls s))
      end
  | _ =>
      let '(cs, r) := act e a (reactor s) in
      Some (mkSys r (taken s) (takenChunks s) (calls s ++ map (pair (now e)) cs))
  end.

Fixpoint execs (l : list (env * action)) (s : sys) : option sys :=
  match l with
  | [] => Some s
  | (e, a) :: l => match exec e a s with Some s => execs l s | None => None end
  end.

(** A reactor as RunServe or the fetch session set it up. *)
Definition start (c : ChunkRateLimit) (prov : option SnapshotProvider) (pr : bool) : sys :=
  mkSys (SetProbe pr (SetProvider prov (SetChunkRateLimit c NewReactor))) [] [] [].

Definition reaches (c : ChunkRateLimit) prov pr (l : list (env * action)) (s : sys) : Prop :=
  execs l (start c prov pr) = Some s.

(** ** Queues *)

(** The event that an action puts on the control queue, and on the chunk queue. *)
Definition control_event (a : action) : option Event :=
  match a with
  | AAddPeer p => Some (mkEvent p None None true false)
  | ARemovePeer p => Some (mkEvent p None None false true)
  | AReceive p (SnapshotsResponse s) => Some (mkEvent p (Some s) None false false)
  | _ => None
  end.

Definition chunk_event (a : action) : option Event :=
  match a with
  | AReceive p (ChunkResponse h f i data missing) =>
      Some (mkEvent p None (Some (mkChunkInfo h f i (len data) data missing)) false false)
  | _ => None
  end.

Definition arrived (f : action -> option Event) (l : list (env * action)) : list Event := omap (fun x => f x.2) l.

(** What a queue of capacity [cap] has done with the events [evs]: those taken and
    those waiting are a part of them, in order, and the rest is counted. *)
Definition queue_ok (cap : Z) (evs taken queue : list Event) (drops : Z) : Prop :=
  (taken ++ queue) `sublist_of` evs /\ len evs = len taken + len queue + drops /\ len queue <= cap.

(** Handlers change the queues only by [offer]. *)
Definition queues (r : Reactor) : list Event * list Event * Z * Z :=
  (Out r, OutChunks r, dropsCtrl (cnt r), dropsChunk (cnt r)).

Lemma respond_queues e p m f r : (forall c, dropsCtrl (f c) = dropsCtrl c /\ dropsChunk (f c) = dropsChunk c) ->
  queues (respond e p m f r).2 = queues r.
Proof.
  intros Hf. unfold respond, queues. destruct (accepts e m); [|done].
  unfold upd_cnt. cbn. destruct (Hf (add_sent (proto_Size m) (cnt r))) as [-> ->]. done.
Qed.

Lemma serve_snapshots_queues e src l r : queues (serve_snapshots e src l r).2 = queues r.
Proof.
  unfold serve_snapshots. cut (forall cs, queues (fold_left (fun x s =>
    let '(cs, r) := x in
    let '(cs', r) := respond e src (SnapshotsResponse s) (add_served 1 0 0 0) r in (cs ++ cs', r)) l (cs, r)).2 = queues r); [auto|].
  revert r. induction l as [|s l IH]; intros r cs; cbn [fold_left]; [done|].
  destruct (respond e src (SnapshotsResponse s) (add_served 1 0 0 0) r) as [cs' r'] eqn:E. rewrite IH.
  pose proof (respond_queues e src (SnapshotsResponse s) (add_served 1 0 0 0) r) as Hq. rewrite E in Hq. by apply Hq.
Qed.

Lemma peerLimiter_queues p r : queues (peerLimiter p r).2 = queues r.
Proof. unfold peerLimiter. destruct (negb (limits_peers r)); [done|]. by destruct (peerLimiters r !! p). Qed.

Lemma allow_global_queues t r : queues (allow_global t r).2 = queues r.
Proof. unfold allow_global. destruct (globalLim r) as [l|]; [|done]. by destruct (Allow t l). Qed.

Lemma allow_peer_queues t p r : queues (allow_peer t p r).2 = queues r.
Proof.
  unfold allow_peer. pose proof (peerLimiter_queues p r) as Hq.
  destruct (peerLimiter p r) as [[l|] r']; [|exact Hq]. by destruct (Allow t l).
Qed.

Lemma set_removedAt_queues p t r : queues (set_removedAt p t r) = queues r.
Proof. unfold set_removedAt. by destruct (peerLimiters r !! p). Qed.

Lemma sweep_queues t r : queues (sweepStaleLimiters t r) = queues r.
Proof. unfold sweepStaleLimiters. by destruct (negb (limits_peers r)). Qed.

Lemma serve_chunk_queues e src prov h f i r : queues (serve_chunk e src prov h f i r).2 = queues r.
Proof.
  unfold serve_chunk. destruct (shuttingDown r); [by apply respond_queues|].
  pose proof (allow_global_queues (now e) r) as Hg. destruct (allow_global (now e) r) as [[|] r1]; cbn [negb]; [|exact Hg].
  pose proof (allow_peer_queues (now e) src r1) as Hp. destruct (allow_peer (now e) src r1) as [[|] r2]; cbn [negb].
  - destruct (LoadChunk prov (fs e) h f i) as [[data found] err].
    cbn [snd] in Hg, Hp. rewrite <- Hg, <- Hp. destruct (match err with Some _ => ([], false) | None => (data, found) end) as [d fd].
    rewrite <- (respond_queues e src (ChunkResponse h f i d (negb fd)) (if fd then add_served 0 1 0 0 else add_served 0 0 1 0) r2)
      by (intros c; by destruct fd).
    by destruct (respond _ _ _ _ _).
  - cbn [snd] in Hg, Hp. rewrite <- Hg, <- Hp. done.
Qed.

(** The queues after an action. *)
Definition after_control (o : option Event) (q : list Event) (d : Z) : list Event * Z :=
  match o with
  | None => (q, d)
  | Some ev => if len q <? outCapacity then (q ++ [ev], d) else (q, d + 1)
  end.
Definition after_chunk (o : option Event) (q : list Event) (d : Z) : list Event * Z :=
  match o with
  | None => (q, d)
  | Some ev => if len q <? outChunksCapacity then (q ++ [ev], d) else (q, d + 1)
  end.

Definition offered (a : action) (r : Reactor) : list Event * list Event * Z * Z :=
  let '(q, d) := after_control (control_event a) (Out r) (dropsCtrl (cnt r)) in
  let '(qc, dc) := after_chunk (chunk_event a) (OutChunks r) (dropsChunk (cnt r)) in
  (q, qc, d, dc).

Lemma offer_out_queues ev r : queues (offer_out ev r) =
  let '(q, d) := after_control (Some ev) (Out r) (dropsCtrl (cnt r)) in (q, OutChunks r, d, dropsChunk (cnt r)).
Proof. unfold offer_out, after_control, queues, upd_cnt. case_match; cbn; by rewrite ?Z.add_0_r. Qed.

Lemma offer_chunk_queues ev r : queues (offer_chunk ev r) =
  let '(q, d) := after_chunk (Some ev) (OutChunks r) (dropsChunk (cnt r)) in (Out r, q, dropsCtrl (cnt r), d).
Proof. unfold offer_chunk, after_chunk, queues, upd_cnt. case_match; cbn; by rewrite ?Z.add_0_r. Qed.

Lemma act_queues e a r : queues (act e a r).2 = offered a r.
Proof.
  unfold offered. destruct a as [p|p|p m|p h f i|p| | |]; try done.
  - transitivity (queues (set_removedAt p 0 (offer_out (mkEvent p None None true false) r))).
    + cbn [act]. unfold AddPeer. case_match; [done|]. cbn. by destruct (accepts e SnapshotsRequest).
    + rewrite set_removedAt_queues. apply offer_out_queues.
  - cbn [act]. unfold RemovePeer. cbn -[after_control]. rewrite sweep_queues, set_removedAt_queues. apply offer_out_queues.
  - destruct m; cbn -[after_control after_chunk]; try done.
    + case_match; [|done]. by rewrite serve_snapshots_queues.
    + by rewrite offer_out_queues.
    + case_match; [|done]. by rewrite serve_chunk_queues.
    + by rewrite offer_chunk_queues.
  - cbn. by destruct (accepts e (ChunkRequest h f i)).
Qed.

Lemma queue_offer cap evs tk q d o : queue_ok cap evs tk q d -> 0 <= cap ->
  let '(q', d') := match o with
                   | None => (q, d)
                   | Some ev => if len q <? cap then (q ++ [ev], d) else (q, d + 1)
                   end in
  queue_ok cap (evs ++ match o with Some ev => [ev] | None => [] end) tk q' d'.
Proof.
  intros (Hs & Hn & Hc) Hcap. destruct o as [ev|]; [|by rewrite app_nil_r].
  destruct (Z.ltb_spec (len q) cap); split_and!.
  - rewrite app_assoc. by apply sublist_app.
  - len_simpl. lia.
  - len_simpl. lia.
  - by apply sublist_inserts_r.
  - len_simpl. lia.
  - lia.
Qed.

Definition sys_queues_ok (l : list (env * action)) (s : sys) : Prop :=
  queue_ok outCapacity (arrived control_event l) (taken s) (Out (reactor s)) (dropsCtrl (cnt (reactor s))) /\
  queue_ok outChunksCapacity (arrived chunk_event l) (takenChunks s) (OutChunks (reactor s)) (dropsChunk (cnt (reactor s))).

Lemma arrived_snoc f l e a : arrived f (l ++ [(e, a)]) = arrived f l ++ match f a with Some ev => [ev] | None => [] end.
Proof. unfold arrived. rewrite omap_app. cbn. by destruct (f a). Qed.

Lemma take_front cap evs tk ev q d : queue_ok cap evs tk (ev :: q) d -> queue_ok cap evs (tk ++ [ev]) q d.
Proof. intros (Hs & Hn & Hc). rewrite len_cons in *. split_and!; [by rewrite <- app_assoc|len_simpl; lia|lia]. Qed.

Lemma exec_queues l e a s s' : sys_queues_ok l s -> exec e a s = Some s' -> sys_queues_ok (l ++ [(e, a)]) s'.
Proof.
  intros [Hc Hk] E. unfold sys_queues_ok. rewrite !arrived_snoc.
  assert (Hact : forall cs r, act e a (reactor s) = (cs, r) -> taken s' = taken s -> takenChunks s' = takenChunks s -> reactor s' = r ->
    queue_ok outCapacity (arrived control_event l ++ match control_event a with Some ev => [ev] | None => [] end) (taken s') (Out (reactor s')) (dropsCtrl (cnt (reactor s'))) /\
    queue_ok outChunksCapacity (arrived chunk_event l ++ match chunk_event a with Some ev => [ev] | None => [] end) (takenChunks s') (OutChunks (reactor s')) (dropsChunk (cnt (reactor s')))).
  { intros cs r Ha -> -> ->. pose proof (act_queues e a (reactor s)) as Hq. rewrite Ha in Hq. unfold offered in Hq. cbn [snd] in Hq.
    pose proof (queue_offer _ _ _ _ _ (control_event a) Hc ltac:(done)) as H1.
    pose proof (queue_offer _ _ _ _ _ (chunk_event a) Hk ltac:(done)) as H2.
    unfold after_control, after_chunk in Hq.
    destruct (match control_event a with Some _ => _ | None => _ end) as [q d].
    destruct (match chunk_event a with Some _ => _ | None => _ end) as [qc dc].
    unfold queues in Hq. injection Hq as -> -> -> ->. done. }
  destruct a; cbn [exec] in E;
    try (eapply Hact; [apply surjective_pairing|..]; destruct (act e _ (reactor s)); by injection E as <-).
  - destruct (Out (reactor s)) as [|ev q] eqn:Eo; [done|]. injection E as <-. cbn. rewrite !app_nil_r. split; [by apply take_front|exact Hk].
  - destruct (OutChunks (reactor s)) as [|ev q] eqn:Eo; [done|]. injection E as <-. cbn. rewrite !app_nil_r. split; [exact Hc|by apply take_front].
Qed.

Lemma execs_snoc l e a : forall s, execs (l ++ [(e, a)]) s = execs l s ≫= exec e a.
Proof.
  induction l as [|[e' a'] l IH]; intros s; cbn; [by destruct (exec e a s)|].
  destruct (exec e' a' s); [apply IH|done].
Qed.

(** Induction on a run from its end. *)
Lemma execs_ind (P : list (env * action) -> sys -> Prop) s0 :
  P [] s0 -> (forall l e a s s', execs l s0 = Some s -> P l s -> exec e a s = Some s' -> P (l ++ [(e, a)]) s') ->
  forall l s, execs l s0 = Some s -> P l s.
Proof.
  intros H0 Hstep l. induction l as [|[e a] l IH] using rev_ind; intros s Hrun.
  - by injection Hrun as <-.
  - rewrite execs_snoc in Hrun. destruct (execs l s0) as [s1|] eqn:E; [|done]. eapply Hstep; eauto.
Qed.

Lemma start_queues c prov pr : sys_queues_ok [] (start c prov pr).
Proof. unfold start, SetChunkRateLimit. cbn -[Qpos]. by repeat case_match. Qed.
End Reactor.

(** ** The budget of a peer *)

Section Budget.
Context {Lim : Type} {RL : RateLimiter Lim} {TB : TokenBucket Lim} `{FL : Float64Laws} {FS : Type} (proto_Size : message -> Z).
Implicit Types r : Reactor (Lim := Lim) (FS := FS).
Implicit Types s : sys (Lim := Lim) (FS := FS).

Definition is_load (p : ID) (x : Z * call) : bool :=
  match x.2 with CLoad q _ _ _ => bool_decide (q = p) | _ => false end.

(** The chunks read for a peer. *)
Definition loads (p : ID) (l : list (Z * call)) : Z := len (List.filter (is_load p) l).

Lemma loads_app p l1 l2 : loads p (l1 ++ l2) = loads p l1 + loads p l2.
Proof using Type. unfold loads. by rewrite List.filter_app, len_app. Qed.

(** Tokens that arrive between two times. *)
Definition gain (q : Q) (t t' : Z) : Q := q * (inject_Z (t' - t) / inject_Z 1000000000).

Lemma gain_add q t1 t2 t3 : (gain q t1 t2 + gain q t2 t3 == gain q t1 t3)%Q.
Proof using Type. unfold gain. replace (t3 - t1) with (t2 - t1 + (t3 - t2)) by lia. rewrite inject_Z_plus. field. Qed.

Lemma gain_self q t : (gain q t t == 0)%Q.
Proof using Type. unfold gain. rewrite Z.sub_diag. change (inject_Z 0) with 0%Q. unfold Qdiv. ring. Qed.

Lemma gain_nonneg q t t' : (0 < q)%Q -> t <= t' -> (0 <= gain q t t')%Q.
Proof using Type.
  intros Hq Ht. unfold gain. apply Qmult_le_0_compat; [by apply Qlt_le_weak|].
  apply Qle_shift_div_l; [reflexivity|]. rewrite Qmult_0_l. change 0%Q with (inject_Z 0). rewrite <- Zle_Qle. lia.
Qed.

Context (q : Q) (b : Z) (Hq : (0 < q)%Q) (Hb : 0 < b).

(** The nanoseconds that [b] tokens take to arrive. *)
Definition fill_time : Q := inject_Z b / q * inject_Z 1000000000.
Context (Hb63 : b < 2 ^ 63) (Hfill : (2 <= fill_time <= inject_Z (2 ^ 61))%Q).

(** What the code computes of it. *)
Lemma refill_enough r : chunkRatePerPeer r = q -> chunkBurstPerPeer r = b ->
  0 <= refill r <= 2 ^ 61 + 2 ^ 20 /\ (fill_time <= inject_Z (2 * refill r + 1))%Q.
Proof using Hq Hb Hb63 Hfill FL.
  intros Er Eb. unfold refill. rewrite Er, Eb. set (g := inject_Z 1000000000).
  assert (Hg : (g == 1000000000)%Q) by reflexivity. assert (Heps : (eps == 1 # 1125899906842624)%Q) by reflexivity.
  assert (H61 : (inject_Z (2 ^ 61) == 2305843009213693952)%Q) by reflexivity.
  assert (H70 : (inject_Z (2 ^ 70) == 1180591620717411303424)%Q) by reflexivity.
  assert (Hb0 : (1 <= inject_Z b)%Q) by (change 1%Q with (inject_Z 1); rewrite <- Zle_Qle; lia).
  assert (Hb1 : (inject_Z b <= 9223372036854775808)%Q)
    by (change 9223372036854775808%Q with (inject_Z 9223372036854775808); rewrite <- Zle_Qle; lia).
  destruct (rnd_near (inject_Z b)) as [Ha1 Ha2]; [lra|]. set (x0 := rnd (inject_Z b)) in *.
  assert (Hi : (0 < / q)%Q) by by apply Qinv_lt_0_compat.
  assert (Ey : (inject_Z b * / q * 1000000000 == fill_time)%Q) by (unfold fill_time, Qdiv; fold g; rewrite Hg; reflexivity).
  set (y := (inject_Z b * / q)%Q) in *.
  assert (Hx1 : (y * (1 - eps) <= x0 / q <= y * (1 + eps))%Q).
  { unfold y, Qdiv. split.
    - setoid_replace (inject_Z b * / q * (1 - eps))%Q with (inject_Z b * (1 - eps) * / q)%Q using relation Qeq by ring.
      apply Qmult_le_compat_r; [done|by apply Qlt_le_weak].
    - setoid_replace (inject_Z b * / q * (1 + eps))%Q with (inject_Z b * (1 + eps) * / q)%Q using relation Qeq by ring.
      apply Qmult_le_compat_r; [done|by apply Qlt_le_weak]. }
  set (x1 := (x0 / q)%Q) in *. clearbody y x0 x1. rewrite <- Ey in Hfill.
  destruct (rnd_near x1) as [Hc1 Hc2]; [rewrite H70, Heps in *; lra|]. set (x2 := rnd x1) in *.
  assert (Hx3 : (x2 * g == x2 * 1000000000)%Q) by (by rewrite Hg). set (x3 := (x2 * g)%Q) in *.
  destruct (rnd_near x3) as [Hd1 Hd2]; [rewrite H70, Heps in *; lra|]. set (x4 := rnd x3) in *.
  assert (Hlo : (y * 1000000000 * (1 - (1 # 100)) <= x4)%Q) by (rewrite Heps in *; lra).
  assert (Hhi : (x4 <= inject_Z (2 ^ 61 + 2 ^ 20))%Q).
  { change (inject_Z (2 ^ 61 + 2 ^ 20)) with 2305843009214742528%Q. rewrite Heps in *; lra. }
  assert (H63 : (x4 < inject_Z (2 ^ 63))%Q).
  { change (inject_Z (2 ^ 63)) with 9223372036854775808%Q. change (inject_Z (2 ^ 61 + 2 ^ 20)) with 2305843009214742528%Q in Hhi. lra. }
  rewrite to_int64_trunc by (done || lra). split.
  - split.
    + rewrite <- (Qfloor_Z 0). apply Qfloor_resp_le. change (inject_Z 0) with 0%Q. lra.
    + rewrite <- (Qfloor_Z (2 ^ 61 + 2 ^ 20)). by apply Qfloor_resp_le.
  - pose proof (Qlt_floor x4) as Hf. rewrite inject_Z_plus in *. rewrite inject_Z_mult. change (inject_Z 2) with 2%Q.
    change (inject_Z 1) with 1%Q in *. rewrite <- Ey. lra.
Qed.

Lemma tokens_later l t t' : bucket q b l -> idle_since l t -> t <= t' ->
  (tokens l t' <= tokens l t + gain q t t')%Q.
Proof using Type. intros Hl Hi Ht. rewrite (tb_fill q b l t t') by done. apply Q.le_min_r. Qed.

(** A bucket left alone for its refill time is full. *)
Lemma tokens_full l t t' : bucket q b l -> idle_since l t -> t <= t' -> (fill_time <= inject_Z (t' - t))%Q ->
  (tokens l t' == inject_Z b)%Q.
Proof using Hq TB.
  intros Hl Hi Ht Hf. rewrite (tb_fill q b l t t') by done. apply Q.min_l.
  destruct (tb_range q b l t Hl Hi) as [H0 _].
  assert (Hg : (inject_Z b <= gain q t t')%Q); [|unfold gain in Hg; lra]. unfold gain.
  assert (E : (inject_Z b == q * (fill_time / inject_Z 1000000000))%Q).
  { unfold fill_time. field. intros E. rewrite E in Hq. by apply (Qlt_irrefl 0). }
  rewrite E. apply Qmult_le_l; [done|]. by apply Qmult_le_compat_r.
Qed.

(** What is known of the bucket of [p] at time [t], of a run that began at [t0]:
    what was loaded and what is left is no more than what arrived. *)
Definition spent_ok (t0 t : Z) (p : ID) (conn : bool) r (cs : list (Z * call)) : Prop :=
  chunkRatePerPeer r = q /\ chunkBurstPerPeer r = b /\
  match peerLimiters r !! p with
  | None => (inject_Z (loads p cs) <= gain q t0 t)%Q
  | Some e =>
      bucket q b (lim e) /\ idle_since (lim e) t /\
      (inject_Z (loads p cs) + tokens (lim e) t <= inject_Z b + gain q t0 t)%Q /\
      (0 < removedAt e -> conn = false /\ idle_since (lim e) (removedAt e))
  end.

Lemma spent_later t0 t t' p conn r cs : spent_ok t0 t p conn r cs -> t0 <= t -> t <= t' -> spent_ok t0 t' p conn r cs.
Proof.
  intros (Hr & Hbu & Hp) H0 Ht. split_and!; [done|done|]. pose proof (gain_add q t0 t t') as Hg.
  pose proof (gain_nonneg q t t' Hq Ht). destruct (peerLimiters r !! p) as [e|]; [|lra].
  destruct Hp as (Hl & Hi & Hs & Hd). split_and!; [done|by eapply tb_later| |done].
  pose proof (tokens_later (lim e) t t' Hl Hi Ht). lra.
Qed.

Lemma spent_bound t0 t p conn r cs : spent_ok t0 t p conn r cs ->
  (inject_Z (loads p cs) <= inject_Z b + gain q t0 t)%Q.
Proof.
  intros (_ & _ & Hp). assert (Hb' : (0 <= inject_Z b)%Q) by (change 0%Q with (inject_Z 0); rewrite <- Zle_Qle; lia).
  destruct (peerLimiters r !! p) as [e|]; [|lra]. destruct Hp as (Hl & Hi & Hs & _).
  destruct (tb_range q b (lim e) t Hl Hi). lra.
Qed.

(** *** What the handlers do to the bucket of a peer *)

Definition rates r : Q * Z := (chunkRatePerPeer r, chunkBurstPerPeer r).

Lemma respond_limits e p m f r : let r' := (respond proto_Size e p m f r).2 in
  rates r' = rates r /\ peerLimiters r' = peerLimiters r /\
  forall p', loads p' (map (pair (now e)) (respond proto_Size e p m f r).1) = 0.
Proof using Type. unfold respond. by destruct (accepts e m). Qed.

Lemma serve_snapshots_limits e src l r : let x := serve_snapshots proto_Size e src l r in
  rates x.2 = rates r /\ peerLimiters x.2 = peerLimiters r /\ forall p', loads p' (map (pair (now e)) x.1) = 0.
Proof using Type.
  unfold serve_snapshots. cut (forall cs, (forall p', loads p' (map (pair (now e)) cs) = 0) -> let x := fold_left (fun x (sn : Snapshot) =>
    let '(cs, r) := x in
    let '(cs', r) := respond proto_Size e src (SnapshotsResponse sn) (add_served 1 0 0 0) r in (cs ++ cs', r)) l (cs, r) in
    rates x.2 = rates r /\ peerLimiters x.2 = peerLimiters r /\ forall p', loads p' (map (pair (now e)) x.1) = 0);
    [intros Hc; by apply Hc|].
  revert r. induction l as [|sn l IH]; intros r cs Hcs; cbn [fold_left]; [done|].
  pose proof (respond_limits e src (SnapshotsResponse sn) (add_served 1 0 0 0) r) as (Hr & Hp & Hl).
  destruct (respond _ _ _ _ _ r) as [cs' r'] eqn:E. cbn [fst snd] in *. rewrite <- Hr, <- Hp. apply IH.
  intros p'. by rewrite map_app, loads_app, Hcs, Hl.
Qed.

Lemma allow_global_limits t r : rates (allow_global t r).2 = rates r /\ peerLimiters (allow_global t r).2 = peerLimiters r.
Proof using Type. unfold allow_global. destruct (globalLim r) as [l|]; [|done]. by destruct (Allow t l). Qed.

(** The bucket of [p] when a request of [p] asks it: the one there, or a new one. *)
Definition bucket_of (p : ID) r : peerLimiterEntry :=
  default (mkEntry (NewLimiter (chunkRatePerPeer r) (chunkBurstPerPeer r)) 0) (peerLimiters r !! p).

Lemma allow_peer_limits t p r : limits_peers r = true ->
  let e := bucket_of p r in
  allow_peer t p r = ((Allow t (lim e)).1,
    set_limits (globalLim r) (<[p := mkEntry (Allow t (lim e)).2 (removedAt e)]> (peerLimiters r)) r).
Proof using Type.
  intros Hl. unfold allow_peer, peerLimiter, bucket_of. rewrite Hl. cbn [negb].
  destruct (peerLimiters r !! p) as [e|] eqn:Ep; cbn.
  - rewrite Ep. by destruct (Allow t (lim e)).
  - rewrite lookup_insert_eq. cbn. destruct (Allow t _). by rewrite insert_insert_eq.
Qed.

(** How a chunk request of [src] ends: refused before its bucket is asked, or after. *)
Lemma serve_chunk_limits e src prov h f i r : limits_peers r = true ->
  let x := serve_chunk proto_Size e src prov h f i r in
  let en := bucket_of src r in
  let ok := (Allow (now e) (lim en)).1 in
  rates x.2 = rates r /\
  (peerLimiters x.2 = peerLimiters r /\ (forall p', loads p' (map (pair (now e)) x.1) = 0) \/
   peerLimiters x.2 = <[src := mkEntry (Allow (now e) (lim en)).2 (removedAt en)]> (peerLimiters r) /\
   forall p', loads p' (map (pair (now e)) x.1) = if ok && bool_decide (src = p') then 1 else 0).
Proof using Type.
  intros Hl. unfold serve_chunk. destruct (shuttingDown r).
  { pose proof (respond_limits e src (ChunkResponse h f i [] true) (add_served 0 0 0 1) r) as (? & ? & ?). auto. }
  pose proof (allow_global_limits (now e) r) as [Hr Hp]. destruct (allow_global (now e) r) as [[|] r1]; cbn [negb]; [|by auto].
  cbn [snd] in Hr, Hp. injection Hr as Hr1 Hr2.
  assert (Hb1 : bucket_of src r1 = bucket_of src r) by (unfold bucket_of; by rewrite Hp, Hr1, Hr2).
  rewrite (allow_peer_limits (now e) src r1) by (unfold limits_peers; by rewrite Hr1, Hr2). rewrite Hb1.
  destruct (Allow (now e) (lim (bucket_of src r))) as [[|] l] eqn:Ea; cbn [negb fst snd andb].
  - set (r2 := set_limits _ _ r1). destruct (LoadChunk prov (fs e) h f i) as [[data found] err].
    destruct (match err with Some _ => ([], false) | None => (data, found) end) as [d fd].
    pose proof (respond_limits e src (ChunkResponse h f i d (negb fd)) (if fd then add_served 0 1 0 0 else add_served 0 0 1 0) r2) as (Hr3 & Hp3 & Hl3).
    destruct (respond _ _ _ _ _ r2) as [cs r3]. cbn [fst snd] in *. split; [rewrite Hr3; unfold rates; cbn; by rewrite Hr1, Hr2|].
    right. split; [rewrite Hp3; cbn; by rewrite Hp|]. intros p'. cbn [map]. unfold loads in *. cbn [List.filter].
    change (is_load p' (now e, CLoad src h f i)) with (bool_decide (src = p')).
    case_bool_decide; [rewrite len_cons, Hl3; done|apply Hl3].
  - split; [unfold rates; cbn; by rewrite Hr1, Hr2|]. right. split; [cbn; by rewrite Hp|]. done.
Qed.

(** *** Runs *)

Definition connects (p : ID) (a : action (FS := FS)) (conn : bool) : bool :=
  match a with
  | AAddPeer p' => if bool_decide (p' = p) then true else conn
  | ARemovePeer p' => if bool_decide (p' = p) then false else conn
  | _ => conn
  end.

(** The requests of [p] come while it is connected, and the clock goes on. *)
Definition requests (p : ID) (a : action (FS := FS)) : bool :=
  match a with AReceive p' (ChunkRequest _ _ _) => bool_decide (p' = p) | _ => false end.

Fixpoint orderly (p : ID) (t : Z) (conn : bool) (l : list (env (FS := FS) * action (FS := FS))) : bool :=
  match l with
  | [] => true
  | (e, a) :: l => (t <=? now e) && (negb (requests p a) || conn) && orderly p (now e) (connects p a conn) l
  end.

Definition end_time (t : Z) (l : list (env (FS := FS) * action (FS := FS))) : Z := fold_left (fun _ x => now x.1) l t.

Lemma spent_same t0 t p conn r r' cs cs' : spent_ok t0 t p conn r cs -> rates r' = rates r ->
  peerLimiters r' !! p = peerLimiters r !! p -> loads p cs' = 0 -> spent_ok t0 t p conn r' (cs ++ cs').
Proof using Type. unfold spent_ok, rates. rewrite loads_app. intros Hp [= -> ->] -> ->. by rewrite Z.add_0_r. Qed.

Lemma limited t0 t p conn r cs : spent_ok t0 t p conn r cs -> limits_peers r = true.
Proof using Hq Hb.
  intros (Er & Ebu & _). unfold limits_peers, Qpos. rewrite Er, Ebu, (proj2 (Z.ltb_lt 0 b)) by done.
  destruct (Qle_bool q 0) eqn:E; [|done]. apply Qle_bool_iff in E. lra.
Qed.

Lemma spent_sweep t0 t p conn r cs : 0 <= t < 2 ^ 63 -> spent_ok t0 t p conn r cs ->
  spent_ok t0 t p conn (sweepStaleLimiters t r) cs.
Proof using Hq Hb Hb63 Hfill FL.
  intros Ht Hs. pose proof (limited _ _ _ _ _ _ Hs) as Hlim. destruct Hs as (Er & Ebu & Hp).
  unfold sweepStaleLimiters. rewrite Hlim. cbn [negb]. unfold spent_ok. cbn. split_and!; [done..|].
  rewrite map_lookup_imap. destruct (peerLimiters r !! p) as [e|] eqn:Ep; cbn; [|done].
  destruct (refill_enough r Er Ebu) as [Hrange Henough]. rewrite !i64_small by (rewrite ?i64_small; lia).
  destruct (stale (t + -2 * refill r) e) eqn:Est; [|done].
  apply andb_true_iff in Est as [Hpos%Z.ltb_lt Hcut%Z.ltb_lt]. destruct Hp as (Hl & Hi & Hs & Hd).
  destruct (Hd Hpos) as [_ Hidle].
  assert (Hz : (inject_Z (2 * refill r + 1) <= inject_Z (t - removedAt e))%Q) by (rewrite <- Zle_Qle; lia).
  pose proof (tokens_full (lim e) (removedAt e) t Hl Hidle ltac:(lia) ltac:(lra)). lra.
Qed.

Lemma spent_mark t0 t p p' conn conn' r cs tm : spent_ok t0 t p conn r cs ->
  (p' = p -> 0 < tm -> conn' = false /\ tm = t) -> (p' <> p -> conn' = conn) ->
  spent_ok t0 t p conn' (set_removedAt p' tm r) cs.
Proof using Type.
  intros (Er & Ebu & Hp) Heq Hne. unfold spent_ok, set_removedAt.
  destruct (decide (p' = p)) as [->|Hd].
  - destruct (peerLimiters r !! p) as [e|] eqn:Ep; cbn; rewrite ?lookup_insert_eq; [|by rewrite Ep].
    cbn. destruct Hp as (? & Hi & ? & ?). split_and!; try done. intros Htm. destruct (Heq eq_refl Htm) as [-> ->]. by split.
  - rewrite (Hne Hd). destruct (peerLimiters r !! p') as [e|]; cbn; rewrite ?lookup_insert_ne by done; done.
Qed.

Lemma spent_allow t0 t p conn r r' cs cs' : spent_ok t0 t p conn r cs -> conn = true ->
  let en := bucket_of p r in
  let ok := (Allow t (lim en)).1 in
  rates r' = rates r ->
  peerLimiters r' = <[p := mkEntry (Allow t (lim en)).2 (removedAt en)]> (peerLimiters r) ->
  loads p cs' = (if ok then 1 else 0) ->
  spent_ok t0 t p conn r' (cs ++ cs').
Proof using Hq Hb.
  intros (Er & Ebu & Hp) -> en ok Hr Hpl Hcs. unfold spent_ok. rewrite Hpl, lookup_insert_eq, loads_app, Hcs.
  unfold rates in Hr. injection Hr as -> ->. split; [done|]. split; [done|].
  assert (Hen : bucket q b (lim en) /\ idle_since (lim en) t /\
    (inject_Z (loads p cs) + tokens (lim en) t <= inject_Z b + gain q t0 t)%Q /\ removedAt en <= 0).
  { unfold en, bucket_of. destruct (peerLimiters r !! p) as [e|]; cbn.
    - destruct Hp as (? & ? & ? & Hd). split_and!; [done..|]. destruct (Z.ltb_spec 0 (removedAt e)) as [Hx|]; [|lia].
      by destruct (Hd Hx).
    - rewrite Er, Ebu. destruct (tb_new q b Hq Hb) as [Hbk Hfull]. destruct (Hfull t) as [Hi Htk]. split_and!; [done..|lra|lia]. }
  destruct Hen as (Hl & Hi & Hs & Hrm). cbn.
  destruct (tb_allow q b (lim en) t ok (Allow t (lim en)).2 Hl Hi) as (Hl' & Hi' & _ & Htk); [by destruct (Allow t (lim en))|].
  split_and!; [done|done| |lia]. rewrite inject_Z_plus. fold ok. destruct ok; change (inject_Z 1) with 1%Q; change (inject_Z 0) with 0%Q; lra.
Qed.

Lemma spent_nothing t0 t p conn r r' cs : spent_ok t0 t p conn r cs -> rates r' = rates r ->
  peerLimiters r' !! p = peerLimiters r !! p -> spent_ok t0 t p conn r' cs.
Proof using Type. intros Hs Hr Hp. rewrite <- (app_nil_r cs). by eapply spent_same. Qed.

Lemma offer_out_limits ev r : rates (offer_out ev r) = rates r /\ peerLimiters (offer_out ev r) = peerLimiters r.
Proof using Type. unfold offer_out. by destruct (_ <? _). Qed.

Lemma offer_chunk_limits ev r : rates (offer_chunk ev r) = rates r /\ peerLimiters (offer_chunk ev r) = peerLimiters r.
Proof using Type. unfold offer_chunk. by destruct (_ <? _). Qed.

Lemma spent_receive t0 p p' m conn e r cs : spent_ok t0 (now e) p conn r cs ->
  negb (requests p (AReceive p' m)) || conn = true ->
  let x := Receive proto_Size e p' m r in spent_ok t0 (now e) p conn x.2 (cs ++ map (pair (now e)) x.1).
Proof using Hq Hb.
  intros Hs Hreq. unfold Receive. set (r0 := upd_cnt (add_recv (proto_Size m)) r).
  assert (H0 : spent_ok t0 (now e) p conn r0 cs) by exact Hs. clearbody r0. clear Hs.
  destruct m as [|sn|h f i|h f i data missing|]; cbn.
  - unfold loadProvider. destruct (provider r0) as [pr|]; [|by eapply spent_same].
    destruct (serve_snapshots_limits e p' (ListSnapshots pr) r0) as (Hr & Hp & Hl).
    eapply spent_same; [done|done|by rewrite Hp|done].
  - destruct (offer_out_limits (mkEvent p' (Some sn) None false false) r0) as [Hr Hp].
    eapply spent_same; [done|done|by rewrite Hp|done].
  - unfold loadProvider. destruct (provider r0) as [pr|]; [|by eapply spent_same].
    destruct (serve_chunk_limits e p' pr h f i r0) as (Hr & [[Hp Hl]|[Hp Hl]]); [by eapply limited| |].
    + eapply spent_same; [done|done|by rewrite Hp|done].
    + destruct (decide (p' = p)) as [->|Hne].
      * cbn in Hreq. rewrite bool_decide_eq_true_2 in Hreq by done.
        eapply spent_allow; [done|done|done|done|]. rewrite Hl, bool_decide_eq_true_2 by done. by rewrite andb_true_r.
      * eapply spent_same; [done|done|by rewrite Hp, lookup_insert_ne|]. rewrite Hl, bool_decide_eq_false_2 by done.
        by rewrite andb_false_r.
  - destruct (offer_chunk_limits (mkEvent p' None (Some (mkChunkInfo h f i (len data) data missing)) false false) r0) as [Hr Hp].
    eapply spent_same; [done|done|by rewrite Hp|done].
  - by eapply spent_same.
Qed.

(** An action keeps the account of a peer. *)
Lemma exec_spent t0 t p conn e a s s' : spent_ok t0 t p conn (reactor s) (calls s) -> t0 <= t -> t <= now e ->
  0 <= t0 -> now e < 2 ^ 63 -> negb (requests p a) || conn = true -> exec proto_Size e a s = Some s' ->
  spent_ok t0 (now e) p (connects p a conn) (reactor s') (calls s').
Proof using Hq Hb Hb63 Hfill FL TB.
  intros Hs H0 Ht Hz Hn Hreq E. assert (Hrange : 0 <= now e < 2 ^ 63) by lia.
  apply (spent_later t0 t (now e)) in Hs; [|done..]. clear Ht. destruct a as [p'|p'|p' m|p' h f i|pr| | |]; cbn [connects] in *.
  - pose proof (offer_out_limits (mkEvent p' None None true false) (reactor s)) as [Hr Hp].
    apply (spent_nothing _ _ _ _ _ (offer_out (mkEvent p' None None true false) (reactor s))) in Hs; [|done|by rewrite Hp].
    apply (spent_mark _ _ _ p' conn (if bool_decide (p' = p) then true else conn) _ _ 0) in Hs;
      [|lia|intros; by rewrite bool_decide_eq_false_2].
    cbn in E. unfold AddPeer in E. set (r1 := set_removedAt p' 0 _) in *.
    destruct (negb (probe r1)); injection E as <-; cbn; [by rewrite app_nil_r|].
    eapply spent_same; [exact Hs|by destruct (accepts e SnapshotsRequest)..|done].
  - pose proof (offer_out_limits (mkEvent p' None None false true) (reactor s)) as [Hr Hp].
    apply (spent_nothing _ _ _ _ _ (offer_out (mkEvent p' None None false true) (reactor s))) in Hs; [|done|by rewrite Hp].
    apply (spent_mark _ _ _ p' conn (if bool_decide (p' = p) then false else conn) _ _ (now e)) in Hs;
      [|intros; by rewrite bool_decide_eq_true_2|intros; by rewrite bool_decide_eq_false_2].
    injection E as <-. cbn. rewrite app_nil_r. by apply spent_sweep.
  - cbn [exec act] in E. pose proof (spent_receive t0 p p' m conn e (reactor s) (calls s) Hs Hreq) as Hx.
    destruct (Receive proto_Size e p' m (reactor s)) as [cs r]. injection E as <-. exact Hx.
  - cbn in E. injection E as <-. cbn. eapply spent_same; [exact Hs|by destruct (accepts e (ChunkRequest h f i))..|done].
  - injection E as <-. cbn. rewrite app_nil_r. exact Hs.
  - injection E as <-. cbn. rewrite app_nil_r. exact Hs.
  - cbn in E. destruct (Out (reactor s)); [done|]. injection E as <-. exact Hs.
  - cbn in E. destruct (OutChunks (reactor s)); [done|]. injection E as <-. exact Hs.
Qed.

Lemma orderly_end p l : forall t conn, orderly p t conn l = true -> t <= end_time t l.
Proof using Type.
  induction l as [|[e a] l IH]; intros t conn Ho; cbn in *; [lia|].
  apply andb_true_iff in Ho as [[Hle%Z.leb_le _]%andb_true_iff Ho]. specialize (IH _ _ Ho). unfold end_time in IH. lia.
Qed.

Lemma execs_spent t0 p l : 0 <= t0 -> forall t conn s s', spent_ok t0 t p conn (reactor s) (calls s) -> t0 <= t ->
  orderly p t conn l = true -> end_time t l < 2 ^ 63 -> execs proto_Size l s = Some s' ->
  exists conn', spent_ok t0 (end_time t l) p conn' (reactor s') (calls s').
Proof using Hq Hb Hb63 Hfill FL TB.
  intros Hz. induction l as [|[e a] l IH]; intros t conn s s' Hs Ht Ho Hend Hrun; cbn in *.
  - injection Hrun as <-. eauto.
  - apply andb_true_iff in Ho as [[Hle%Z.leb_le Hreq]%andb_true_iff Ho].
    destruct (exec proto_Size e a s) as [s1|] eqn:E; [|done].
    pose proof (orderly_end _ _ _ _ Ho) as Hle'. unfold end_time in Hle'.
    apply (IH (now e) (connects p a conn) s1 s'); [eapply exec_spent; [exact Hs|lia..|done|done]|lia|done|done|done].
Qed.
End Budget.

(** C32: the events on each queue come out in the order they arrived, without
    repetition, and those that do not come out are counted: every event is taken,
    waiting or counted as dropped, and a queue never exceeds its capacity. *)
Theorem events_in_order {Lim FS : Type} `{RateLimiter Lim} `{Float64} (proto_Size : message -> Z) c
    (prov : option (SnapshotProvider (FS := FS))) pr l s :
  reaches proto_Size c prov pr l s -> sys_queues_ok l s.
Proof.
  intros Hr. refine (execs_ind proto_Size sys_queues_ok (start c prov pr) _ _ l s Hr).
  - apply start_queues.
  - intros l1 e a s1 s2 _ Hok E. by eapply exec_queues.
Qed.

(** C29: however often a peer disconnects and reconnects, the chunks read for
    it in a run are at most its burst plus what its rate brought in since the start;
    this takes a clock that does not go back and is within int64 nanoseconds, requests
    that come while the peer is connected, and a rate and a burst for which the bucket
    takes between 2 ns and 2^61 ns (73 years) to fill, so that the durations of the
    code do not overflow; float64 rounds to within one part in 2^50.  A handler call is
    one step: in particular no other call comes between the test and the deletion of
    an entry by the sweep of the limiters. *)
Theorem chunk_rate_limited {Lim FS : Type} {RL : RateLimiter Lim} {TB : TokenBucket Lim} `{FL : Float64Laws} (proto_Size : message -> Z) c
    (prov : option (SnapshotProvider (FS := FS))) pr l (s : sys (Lim := Lim)) p t0 :
  reaches proto_Size c prov pr l s -> (0 < PerPeerRate c)%Q -> 0 < PerPeerBurst c < 2 ^ 63 ->
  (2 <= fill_time (PerPeerRate c) (PerPeerBurst c) <= inject_Z (2 ^ 61))%Q ->
  0 <= t0 -> end_time t0 l < 2 ^ 63 -> orderly p t0 false l = true ->
  (inject_Z (loads p (calls s)) <= inject_Z (PerPeerBurst c) + gain (PerPeerRate c) t0 (end_time t0 l))%Q.
Proof.
  intros Hr Hq [Hb Hb63] Hfill Hz Hend Ho.
  destruct (execs_spent proto_Size (PerPeerRate c) (PerPeerBurst c) Hq Hb Hb63 Hfill t0 p l Hz t0 false (start c prov pr) s) as [conn Hs];
    [|lia|done|done|done|by eapply spent_bound].
  assert (E : Qpos (PerPeerRate c) = true).
  { unfold Qpos. destruct (Qle_bool (PerPeerRate c) 0) eqn:E; [|done]. apply Qle_bool_iff in E. lra. }
  unfold start, SetChunkRateLimit. cbn -[Qpos]. rewrite E, (proj2 (Z.ltb_lt 0 _)) by done. cbn.
  split; [done|]. split; [done|]. cbn. rewrite lookup_empty. by rewrite gain_self.
Qed.

(** ** A token bucket, and a run *)

Record tbucket := mkTB { tb_rate : Q; tb_burst : Z; tb_tokens : Q; tb_last : option Z }.

Definition tb_now (l : tbucket) (t : Z) : Q :=
  match tb_last l with
  | None => inject_Z (tb_burst l)
  | Some t0 => Qmin (inject_Z (tb_burst l)) (tb_tokens l + gain (tb_rate l) t0 t)
  end.

#[export] Instance tb_limiter : RateLimiter tbucket := {
  NewLimiter r b := mkTB r b (inject_Z b) None;
  Allow t l :=
    if Qle_bool 1 (tb_now l t) then (true, mkTB (tb_rate l) (tb_burst l) (tb_now l t - 1) (Some t))
    else (false, mkTB (tb_rate l) (tb_burst l) (tb_now l t) (Some t))
}.

Definition tb_ok (r : Q) (b : Z) (l : tbucket) : Prop :=
  tb_rate l = r /\ tb_burst l = b /\ (0 < r)%Q /\ 0 < b /\ (0 <= tb_tokens l <= inject_Z b)%Q.
Definition tb_idle (l : tbucket) (t : Z) : Prop := match tb_last l with None => True | Some t0 => t0 <= t end.

Lemma burst_nonneg b : 0 < b -> (0 <= inject_Z b)%Q.
Proof. intros Hb. change 0%Q with (inject_Z 0). rewrite <- Zle_Qle. lia. Qed.

Lemma tb_now_range r b l t : tb_ok r b l -> tb_idle l t -> (0 <= tb_now l t <= inject_Z b)%Q.
Proof.
  intros (<- & <- & Hr & Hb & Ht) Hi. pose proof (burst_nonneg _ Hb) as H0. unfold tb_now, tb_idle in *.
  destruct (tb_last l) as [t0|]; [|lra]. pose proof (gain_nonneg (tb_rate l) t0 t Hr Hi).
  split; [apply Q.min_glb; lra|apply Q.le_min_l].
Qed.

Lemma Qmin_self (a x : Q) : (x <= a)%Q -> (Qmin a x == x)%Q.
Proof. intros Hx. by apply Q.min_r. Qed.

#[export] Program Instance tb_token_bucket : TokenBucket tbucket := {
  bucket := tb_ok;
  idle_since := tb_idle;
  tokens := tb_now
}.
Next Obligation. intros r b Hr Hb. pose proof (burst_nonneg b Hb). split; [split_and!; cbn; try done; lra|]. intros t. split; [done|]. cbn. lra. Qed.
Next Obligation. intros l t t' Hi Ht. unfold tb_idle in *. destruct (tb_last l); [lia|done]. Qed.
Next Obligation. intros r b l t Hl Hi. exact (tb_now_range r b l t Hl Hi). Qed.
Next Obligation.
  intros r b l t t' Hl Hi Ht. destruct Hl as (<- & <- & Hr & Hb & Htk). unfold tb_now, tb_idle in *. fold (gain (tb_rate l) t t').
  pose proof (gain_nonneg (tb_rate l) t t' Hr Ht). set (bq := inject_Z (tb_burst l)) in *.
  destruct (tb_last l) as [t0|]; cbn.
  - pose proof (gain_add (tb_rate l) t0 t t') as Hg.
    destruct (Q.min_spec bq (tb_tokens l + gain (tb_rate l) t0 t)) as [[Hc ->]|[Hc ->]].
    + rewrite !Q.min_l; lra.
    + rewrite <- Hg, Qplus_assoc. reflexivity.
  - rewrite Q.min_l; lra.
Qed.
Next Obligation.
  intros r b l t ok l' Hl Hi Ha. pose proof (tb_now_range r b l t Hl Hi) as Hrange.
  destruct Hl as (<- & <- & Hr & Hb & Htk). cbn in Ha.
  assert (Hnow : forall k, (0 <= k <= inject_Z (tb_burst l))%Q -> (tb_now (mkTB (tb_rate l) (tb_burst l) k (Some t)) t == k)%Q).
  { intros k Hk. unfold tb_now. cbn -[gain]. rewrite Q.min_r; rewrite gain_self; lra. }
  destruct (Qle_bool 1 (tb_now l t)) eqn:E; injection Ha as <- <-.
  - apply Qle_bool_iff in E. split; [split_and!; cbn -[tb_now]; try done; lra|].
    split; [unfold tb_idle; cbn; lia|]. split; [done|]. rewrite Hnow; lra.
  - split; [split_and!; cbn -[tb_now]; try done; lra|].
    split; [unfold tb_idle; cbn; lia|]. split; [done|]. rewrite Hnow; lra.
Qed.

(** Exact numbers, and the conversion as amd64 does it. *)
#[export] Instance exact_float : Float64 := {|
  rnd x := x;
  to_int64 x := let z := if Qle_bool 0 x then Qfloor x else Qceiling x in
    if (- 2 ^ 63 <=? z) && (z <? 2 ^ 63) then z else - 2 ^ 63
|}.

#[export] Instance exact_float_laws : Float64Laws.
Proof.
  split.
  - intros x Hx. cbn. assert (Heps : (eps == 1 # 1125899906842624)%Q) by reflexivity. rewrite Heps. lra.
  - intros x Hx Hx'. cbn -[Z.pow]. rewrite (proj2 (Qle_bool_iff 0 x) Hx).
    assert (H0 : 0 <= Qfloor x) by (rewrite <- (Qfloor_Z 0); by apply Qfloor_resp_le).
    assert (H1 : Qfloor x < 2 ^ 63).
    { rewrite Zlt_Qlt. eapply Qle_lt_trans; [apply Qfloor_le|done]. }
    by rewrite (proj2 (Z.leb_le _ _)), (proj2 (Z.ltb_lt _ _)) by lia.
Qed.

Definition sample_size (m : message) : Z := match m with ChunkResponse _ _ _ d _ => 10 + len d | _ => 10 end.
Definition sample_provider : SnapshotProvider (FS := unit) :=
  mkProvider [mkSnapshot 100 3 2 (str "hash") (str "meta")]
    (fun _ h f i => if (h =? 100) && (f =? 3) && (i <? 2) then (str "data", true, None) else ([], false, None)).
Definition sample_env (t : Z) : env (FS := unit) := mkEnv t (fun _ => true) tt.
Definition sample_rates : ChunkRateLimit := mkRates 1 2 0 0.
Definition second : Z := 1000000000.
Definition ask (t : Z) (i : Z) : env (FS := unit) * action (FS := unit) := (sample_env (t * second), AReceive (str "p") (ChunkRequest 100 3 i)).

(** Three requests in the first second, a reconnection, one more, and one later. *)
Definition sample_run : list (env (FS := unit) * action (FS := unit)) :=
  [(sample_env second, AAddPeer (str "p")); ask 1 0; ask 1 1; ask 1 7;
   (sample_env second, ARemovePeer (str "p")); (sample_env second, AAddPeer (str "p")); ask 1 0; ask 3 0;
   (sample_env (3 * second), ATakeOut)].

Definition run_of (l : list (env (FS := unit) * action (FS := unit))) : sys (Lim := tbucket) (FS := unit) :=
  default (start sample_rates None false) (execs sample_size l (start sample_rates (Some sample_provider) false)).

Example sample_served : loads (str "p") (calls (run_of sample_run)) = 3 /\ RateDropped (reactor (run_of sample_run)) = (2, 0).
Proof. vm_compute. split; reflexivity. Qed.

Lemma sample_reaches l : (if execs sample_size l (start (Lim := tbucket) sample_rates (Some sample_provider) false) is Some _ then true else false) = true ->
  reaches sample_size sample_rates (Some sample_provider) false l (run_of l).
Proof. unfold reaches, run_of. by destruct (execs _ l _). Qed.

Lemma events_in_order_witness : sys_queues_ok sample_run (run_of sample_run).
Proof. apply (events_in_order sample_size sample_rates (Some sample_provider) false), sample_reaches. vm_compute. reflexivity. Defined.

Lemma chunk_rate_limited_witness : (inject_Z 3 <= inject_Z 2 + gain 1 second (3 * second))%Q.
Proof.
  apply (chunk_rate_limited sample_size sample_rates (Some sample_provider) false sample_run (run_of sample_run) (str "p") second).
  - apply sample_reaches. vm_compute. reflexivity.
  - reflexivity.
  - split; reflexivity.
  - split; vm_compute; discriminate.
  - vm_compute. discriminate.
  - vm_compute. reflexivity.
  - vm_compute. reflexivity.
Defined.

(** With a rate of one token in 10^9 seconds and a burst of 8 the durations overflow:
    an entry is swept at once, and a peer that reconnects has a fresh burst. *)
Definition slow_rates : ChunkRateLimit := mkRates (1 # 1000000000) 8 0 0.
Definition burst_of (n : nat) : list (env (FS := unit) * action (FS := unit)) :=
  [(sample_env second, AAddPeer (str "p"))] ++ repeat (ask 1 0) n ++
  [(sample_env second, ARemovePeer (str "p")); (sample_env (2 * second), AAddPeer (str "q")); (sample_env (2 * second), ARemovePeer (str "q"))].

Example slow_rate_overflows :
  match execs sample_size (burst_of 9 ++ burst_of 9) (start (Lim := tbucket) slow_rates (Some sample_provider) false) with
  | Some s => loads (str "p") (calls s) = 16
  | None => False
  end.
Proof. vm_compute. reflexivity. Qed.

(** The sweep tests an entry and then deletes it.  A peer that comes back in between
    loses the bucket it has just used: four chunks at one time with a burst of two. *)
Example sweep_races_reconnect :
  match execs sample_size [(sample_env second, AAddPeer (str "p")); ask 1 0; (sample_env second, ARemovePeer (str "p"));
      (sample_env (9 * second), AAddPeer (str "p")); ask 9 0; ask 9 1; ask 9 0]
      (start (Lim := tbucket) sample_rates (Some sample_provider) false) with
  | Some s =>
      match execs sample_size [ask 9 0; ask 9 1; ask 9 0]
          (mkSys (delete_limiter (str "p") (reactor s)) (taken s) (takenChunks s) (calls s)) with
      | Some s' => loads (str "p") (calls s') = loads (str "p") (calls s) + 2 /\ loads (str "p") (calls s) = 3
      | None => False
      end
  | None => False
  end.
Proof. vm_compute. split; reflexivity. Qed.

(** A request handled after RemovePeer makes an entry that has no removal time: it is
    never swept, however much later. *)
Example late_request_leaks :
  size (peerLimiters (reactor (run_of ([(sample_env second, AAddPeer (str "p")); (sample_env second, ARemovePeer (str "p")); ask 1 0] ++
    [(sample_env (1000000 * second), AAddPeer (str "q")); (sample_env (1000000 * second), ARemovePeer (str "q"))])))) = 1%nat.
Proof. vm_compute. reflexivity. Qed.
