(* ===== verification/Serve.v ===== *)
(** * Serving snapshots (internal/snapserve/store.go, catalog.go)

    A store is the catalogue of verified snapshot directories: each is read back
    (.complete, metadata.bin, meta.json), its chunk files are hashed, and chunks are
    read from disk on request.  A catalog rescans the root directory and hands a
    changed store to the reactor.  The main theorems: what a store verified chunk by
    chunk offers and serves is what a client of the same program accepts and stores;
    and which store the reactor has after a rescan. *)

From S2P Require Import Prelude Sha256 Varint Scheduler Walk Reactor.

(** ** Files and formats *)

(** The file system, as the code asks it: [os.Stat] (is it a directory),
    [os.ReadFile], [os.ReadDir]. *)
Record FS := mkFS {
  os_Stat : bytes -> outcome bool;
  os_ReadFile : bytes -> outcome bytes;
  os_ReadDir : bytes -> outcome (list bytes)
}.

Definition Join (dir name : bytes) : bytes := dir ++ str "/" ++ name.

Record metaJSON := mkMeta {
  ChainID : bytes;
  m_Height : Z;
  m_Format : Z;
  m_Chunks : Z;
  HashHex : bytes;
  MetadataLen : Z
}.

(** [hex.DecodeString]. *)
Definition hexValue (c : Init.Byte.byte) : option Z :=
  let v := byte.unsigned c in
  if (48 <=? v) && (v <=? 57) then Some (v - 48)
  else if (97 <=? v) && (v <=? 102) then Some (v - 87)
  else if (65 <=? v) && (v <=? 70) then Some (v - 55)
  else None.

Fixpoint DecodeString (s : bytes) : outcome bytes :=
  match s with
  | [] => Ret []
  | [_] => Err (Errorf "odd length hex string")
  | a :: b :: r =>
      match hexValue a, hexValue b with
      | Some x, Some y => rest ← DecodeString r; Ret (byte.of_Z (16 * x + y) :: rest)
      | _, _ => Err (Errorf "invalid byte")
      end
  end.

(** [snapshotinspect.ParseChunkHashes]: the hashes as hex strings. *)
Fixpoint ParseChunkHashes_loop (fuel : nat) (metadata : bytes) (i : Z) (out : list bytes) : outcome (list bytes) :=
  if negb (i <? len metadata) then Ret out else
  match fuel with
  | O => NoFuel
  | S fuel =>
      tag ← go_index metadata i;
      if negb (byte.unsigned tag =? 10) then Err (Errorf "unexpected tag") else
      let i := i + 1 in
      rest ← go_from metadata i;
      let '(length, n) := Uvarint rest in
      if n <=? 0 then Err (Errorf "bad varint") else
      let i := i + n in
      if len metadata <? i64 (i + i64 length) then Err (Errorf "hash extends past metadata") else
      h ← go_slice metadata i (i64 (i + i64 length));
      ParseChunkHashes_loop fuel metadata (i64 (i + i64 length)) (out ++ [hexEncode h])
  end.

Definition ParseChunkHashes (metadata : bytes) : outcome (list bytes) :=
  ParseChunkHashes_loop (S (length metadata)) metadata 0 [].

(** ** Loading a snapshot directory *)

Record loadedSnapshot := mkLoaded {
  Dir : bytes;
  l_ChainID : bytes;
  l_Height : Z;
  l_Format : Z;
  l_Chunks : Z;
  l_Hash : bytes;
  l_Metadata : bytes
}.

Inductive VerifyMode := VerifyMetadataOnly | VerifyAggregateHash | VerifyPerChunkHash.

#[export] Instance mode_eq_dec : EqDecision VerifyMode.
Proof. solve_decision. Defined.

Definition mode_String (m : VerifyMode) : bytes :=
  match m with
  | VerifyMetadataOnly => str "metadata-only"
  | VerifyAggregateHash => str "aggregate-hash"
  | VerifyPerChunkHash => str "per-chunk-hash"
  end.

Record Store := mkStore { snapshots : list loadedSnapshot }.

Section Load.
(** The JSON decoder, and the files at the time of the load. *)
Context (unmarshal : bytes -> outcome metaJSON) (fs : FS).

Fixpoint verify_loop (dir : bytes) (mode : VerifyMode) (perChunk : list bytes) (n : nat) (i : Z) (agg : bytes) : outcome bytes :=
  match n with
  | O => Ret agg
  | S n =>
      data ← wrap_out "read chunk" (os_ReadFile fs (Join dir (chunk_name i)));
      _ ← (if bool_decide (mode = VerifyPerChunkHash) then
             match perChunk !! Z.to_nat i with
             | None => Panic "index out of range"
             | Some want => if bool_decide (sha256 data = want) then Ret tt else Err (Errorf "chunk hash mismatch")
             end
           else Ret tt);
      verify_loop dir mode perChunk n (i + 1) (agg ++ data)
  end.

Definition verifyChunks (dir : bytes) (totalChunks : Z) (wantAggregate : bytes) (perChunk : list bytes) (mode : VerifyMode) : outcome unit :=
  all ← verify_loop dir mode perChunk (Z.to_nat totalChunks) 0 [];
  if bool_decide (sha256 all = wantAggregate) then Ret tt else Err (Errorf "aggregate hash mismatch").

Fixpoint decode_all (l : list bytes) : outcome (list bytes) :=
  match l with
  | [] => Ret []
  | h :: r => b ← wrap_out "decode chunk_hashes" (DecodeString h); bs ← decode_all r; Ret (b :: bs)
  end.

Definition loadOne (dir : bytes) (mode : VerifyMode) : outcome loadedSnapshot :=
  _ ← wrap_out "stat .complete" (os_Stat fs (Join dir (str ".complete")));
  mdBytes ← wrap_out "read metadata.bin" (os_ReadFile fs (Join dir (str "metadata.bin")));
  chunkHashesHex ← wrap_out "parse metadata.bin" (ParseChunkHashes mdBytes);
  rawMeta ← wrap_out "read meta.json" (os_ReadFile fs (Join dir (str "meta.json")));
  meta ← wrap_out "parse meta.json" (unmarshal rawMeta);
  if m_Chunks meta =? 0 then Err (Errorf "meta.json reports zero chunks") else
  if negb (u32 (len chunkHashesHex) =? m_Chunks meta) then Err (Errorf "chunk_hashes count") else
  if negb (MetadataLen meta =? 0) && negb (MetadataLen meta =? len mdBytes) then Err (Errorf "metadata.bin len") else
  expectedHash ← wrap_out "decode hash_hex" (DecodeString (HashHex meta));
  if negb (len expectedHash =? 32) then Err (Errorf "hash_hex length") else
  chunkHashes ← decode_all chunkHashesHex;
  _ ← (if bool_decide (mode <> VerifyMetadataOnly)
       then verifyChunks dir (m_Chunks meta) expectedHash chunkHashes mode else Ret tt);
  Ret (mkLoaded dir (ChainID meta) (m_Height meta) (m_Format meta) (m_Chunks meta) expectedHash mdBytes).

(** [fmt.Sprintf("%d_%d", s.Height, s.Format)] *)
Definition store_key (s : loadedSnapshot) : bytes := decimal (l_Height s) ++ str "_" ++ decimal (l_Format s).

(** Newest first; [sort.Slice] leaves equal heights in some order, this is one. *)
Definition newer (a b : loadedSnapshot) : Prop := l_Height b <= l_Height a.

#[export] Instance newer_dec : RelDecision newer.
Proof. intros a b. unfold newer. apply _. Defined.

Definition newStore (loaded : list loadedSnapshot) : Store := mkStore (merge_sort newer loaded).

Fixpoint load_dirs (dirs : list bytes) (chainID : bytes) (mode : VerifyMode) (seen : gmap bytes bytes)
    (loaded : list loadedSnapshot) : outcome (list loadedSnapshot) :=
  match dirs with
  | [] => Ret loaded
  | dir :: dirs =>
      s ← wrap_out "snapshot" (loadOne dir mode);
      if negb (bool_decide (chainID = [])) && negb (bool_decide (l_ChainID s = chainID)) then Err (Errorf "chain_id") else
      if bool_decide (is_Some (seen !! store_key s)) then Err (Errorf "duplicate") else
      load_dirs dirs chainID mode (<[store_key s := dir]> seen) (loaded ++ [s])
  end.

Definition LoadStore (dirs : list bytes) (chainID : bytes) (mode : VerifyMode) : outcome Store :=
  if bool_decide (dirs = []) then Err (Errorf "no snapshot dirs provided") else
  loaded ← load_dirs dirs chainID mode ∅ [];
  Ret (newStore loaded).

(** One entry of the root: what does not load is skipped. *)
Fixpoint scan_root (rootDir : bytes) (names : list bytes) (chainID : bytes) (mode : VerifyMode) (seen : gmap bytes bytes)
    (loaded : list loadedSnapshot) : outcome (list loadedSnapshot) :=
  match names with
  | [] => Ret loaded
  | name :: names =>
      let skip := scan_root rootDir names chainID mode seen loaded in
      let dir := Join rootDir name in
      match os_Stat fs dir with
      | Ret true =>
          match os_Stat fs (Join dir (str ".complete")) with
          | Ret _ =>
              match loadOne dir mode with
              | Ret s =>
                  if negb (bool_decide (chainID = [])) && negb (bool_decide (l_ChainID s = chainID)) then skip
                  else if bool_decide (is_Some (seen !! store_key s)) then skip
                  else scan_root rootDir names chainID mode (<[store_key s := dir]> seen) (loaded ++ [s])
              | Err _ => skip
              | Panic w => Panic w
              | NoFuel => NoFuel
              end
          | _ => skip
          end
      | _ => skip
      end
  end.

Definition LoadStoreFromRoot (rootDir chainID : bytes) (mode : VerifyMode) : outcome Store :=
  entries ← wrap_out "scan snapshots root" (os_ReadDir fs rootDir);
  loaded ← scan_root rootDir entries chainID mode ∅ [];
  Ret (newStore loaded).
End Load.

(** ** Serving *)

Definition ListSnapshots (s : Store) : list Reactor.Snapshot :=
  map (fun ls => mkSnapshot (l_Height ls) (l_Format ls) (l_Chunks ls) (l_Hash ls) (l_Metadata ls)) (snapshots s).

Fixpoint load_chunk (fs : FS) (l : list loadedSnapshot) (height format index : Z) : bytes * bool * option goerr :=
  match l with
  | [] => ([], false, None)
  | ls :: l =>
      if negb (l_Height ls =? height) || negb (l_Format ls =? format) then load_chunk fs l height format index
      else if l_Chunks ls <=? index then ([], false, None)
      else match os_ReadFile fs (Join (Dir ls) (chunk_name index)) with
           | Ret data => (data, true, None)
           | Err e => ([], false, Some (Wrapf "read chunk" e))
           | _ => ([], false, Some (Errorf "read chunk"))
           end
  end.

Definition LoadChunk (s : Store) (fs : FS) (height format index : Z) : bytes * bool * option goerr :=
  load_chunk fs (snapshots s) height format index.

Definition Len (s : Store) : Z := len (snapshots s).

(** A store as the provider of the reactor. *)
Definition store_provider (s : Store) : SnapshotProvider (FS := FS) := mkProvider (ListSnapshots s) (LoadChunk s).

(** ** The catalog *)

Record CatalogConfig := mkCatalog { RootDir : bytes; c_ChainID : bytes; c_Mode : VerifyMode; RescanInterval : Z }.

(** [onStore] says whether a callback is installed: the reactor's SetProvider. *)
Record Catalog := mkCat { store : option Store; fingerp : bytes; onStore : bool }.

Definition NewCatalog (on : bool) : Catalog := mkCat None [] on.
Definition SetOnStore (on : bool) (c : Catalog) : Catalog := mkCat (store c) (fingerp c) on.
Definition Current (c : Catalog) : option Store := store c.

Definition join_with (sep : bytes) (l : list bytes) : bytes :=
  match l with
  | [] => []
  | x :: r => x ++ concat (map (fun y => sep ++ y) r)
  end.

Definition fp_key (ls : loadedSnapshot) : bytes :=
  l_ChainID ls ++ str "/" ++ decimal (l_Height ls) ++ str "/" ++ decimal (l_Format ls) ++ str "/" ++
  decimal (l_Chunks ls) ++ str "/" ++ hexEncode (l_Hash ls).

Definition storeFingerprint (s : Store) : bytes :=
  if bool_decide (snapshots s = []) then str "empty" else
  hexEncode (take 8 (sha256 (join_with (str "|") (merge_sort bytes_le (map fp_key (snapshots s)))))).

(** One rescan: the error, the catalog and the store handed to the callback.  Rescans
    are taken one after another; in the code only the fingerprint is compared and set
    under the lock.  A context that is cancelled makes the rescan return its error
    after all this is done: it is left out. *)
Definition Rescan (unmarshal : bytes -> outcome metaJSON) (cfg : CatalogConfig) (fs : FS) (c : Catalog)
    : outcome unit * Catalog * option Store :=
  match LoadStoreFromRoot unmarshal fs (RootDir cfg) (c_ChainID cfg) (c_Mode cfg) with
  | Ret st =>
      let fp := storeFingerprint st in
      let changed := negb (bool_decide (fp = fingerp c)) in
      (Ret tt, mkCat (Some st) fp (onStore c), if changed && onStore c then Some st else None)
  | Err e => (Err e, c, None)
  | Panic w => (Panic w, c, None)
  | NoFuel => (NoFuel, c, None)
  end.

(** ** Formats, read back *)

Lemma hexValue_digit x : 0 <= x < 16 -> hexValue (hexDigit x) = Some x.
Proof.
  intros Hx. unfold hexValue, hexDigit.
  destruct (Z.ltb_spec x 10); rewrite unsigned_of_Z_small by lia.
  - rewrite (proj2 (Z.leb_le 48 _)), (proj2 (Z.leb_le _ 57)) by lia. cbn. f_equal. lia.
  - rewrite (proj2 (Z.leb_gt _ 57)), andb_false_r, (proj2 (Z.leb_le 97 _)), (proj2 (Z.leb_le _ 102)) by lia. cbn. f_equal. lia.
Qed.

Lemma DecodeString_hexEncode b : DecodeString (hexEncode b) = Ret b.
Proof.
  induction b as [|c b IH]; [done|]. unfold hexEncode in *. cbn [map concat app].
  pose proof (byte_range c) as Hc. cbn [DecodeString].
  assert (H1 : 0 <= Z.shiftr (byte.unsigned c) 4 < 16) by (rewrite Z.shiftr_div_pow2 by lia; Z.to_euclidean_division_equations; lia).
  assert (H2 : 0 <= Z.land (byte.unsigned c) 15 < 16) by (change 15 with (Z.ones 4); rewrite Z.land_ones by lia; Z.to_euclidean_division_equations; lia).
  rewrite !hexValue_digit by done. rewrite IH. cbn [mbind outcome_bind]. do 2 f_equal.
  replace (16 * Z.shiftr (byte.unsigned c) 4 + Z.land (byte.unsigned c) 15) with (byte.unsigned c); [apply byte.of_Z_unsigned|].
  rewrite Z.shiftr_div_pow2 by lia. change 15 with (Z.ones 4). rewrite Z.land_ones by lia.
  Z.to_euclidean_division_equations. lia.
Qed.

Lemma decode_all_hex l : decode_all (map hexEncode l) = Ret l.
Proof. induction l as [|h l IH]; cbn; [done|]. by rewrite DecodeString_hexEncode, IH. Qed.

Lemma go_slice_range buf i j b : go_slice buf i j = Ret b -> 0 <= i <= j /\ j <= len buf.
Proof. unfold go_slice. destruct (_ && _) eqn:E; [|done]. intros _. lia. Qed.

(** The two parsers of the metadata read the same hashes. *)
Lemma parsers_agree md : len md <= maxAlloc -> forall fuel i hs l, 0 <= i ->
  ParseChunkHashes_loop fuel md i (map hexEncode hs) = Ret l ->
  exists hs', l = map hexEncode hs' /\ parseChunkHashes_loop fuel md i hs = Ret hs' /\
    len hs' <= len hs + Z.max 0 (len md - i).
Proof.
  intros Hmd fuel. induction fuel as [|fuel IH]; intros i hs l Hi; cbn [ParseChunkHashes_loop parseChunkHashes_loop].
  - destruct (negb _); [|done]. intros [= <-]. exists hs. split_and!; [done..|lia].
  - destruct (i <? len md) eqn:Elt; cbn [negb]; [|intros [= <-]; exists hs; split_and!; [done..|lia]].
    destruct (go_index md i) as [tag| | |]; cbn [mbind outcome_bind]; [|done..].
    destruct (negb (byte.unsigned tag =? 10)); [done|].
    destruct (go_from md (i + 1)) as [rest| | |] eqn:Ef; cbn [mbind outcome_bind]; [|done..].
    destruct (Uvarint rest) as [length n] eqn:Eu. pose proof (Uvarint_bounds _ _ _ Eu) as [Hlen Hn].
    destruct (n <=? 0) eqn:En; [done|]. destruct (len md <? i64 (i + 1 + n + i64 length)) eqn:Eo; [done|].
    destruct (go_slice md (i + 1 + n) (i64 (i + 1 + n + i64 length))) as [h| | |] eqn:Eh; cbn [mbind outcome_bind]; [|done..].
    apply go_slice_range in Eh as Hr. unfold maxAlloc in *.
    assert (Hsmall : length <= 2 ^ 48).
    { assert (Hil : - 2 ^ 63 <= i64 length < 2 ^ 63) by apply i64_range.
      assert (Hc : i64 length < 0 \/ i64 length = length).
      { unfold i64. destruct (Z.lt_ge_cases length (2 ^ 63)); [right; rewrite Z.mod_small; lia|left].
        replace (length + 2 ^ 63) with (length - 2 ^ 63 + 1 * 2 ^ 64) by lia. rewrite Z_mod_plus_full, Z.mod_small; lia. }
      destruct Hc as [Hneg|Heq].
      - rewrite i64_small in Hr; lia.
      - rewrite Heq in *. assert (Hw : i64 (i + 1 + n + length) = i + 1 + n + length \/ i64 (i + 1 + n + length) < 0).
        { unfold i64. destruct (Z.lt_ge_cases (i + 1 + n + length) (2 ^ 63)); [left; rewrite Z.mod_small; lia|right].
          replace (i + 1 + n + length + 2 ^ 63) with (i + 1 + n + length - 2 ^ 63 + 1 * 2 ^ 64) by lia.
          rewrite Z_mod_plus_full, Z.mod_small; lia. }
        lia. }
    rewrite (proj2 (Z.ltb_ge _ _)) by done. cbn [mbind outcome_bind].
    replace (map hexEncode hs ++ [hexEncode h]) with (map hexEncode (hs ++ [h])) by (by rewrite map_app).
    intros Hl. destruct (IH (i64 (i + 1 + n + i64 length)) (hs ++ [h]) l ltac:(lia) Hl) as (hs' & -> & -> & Hb). exists hs'. split_and!; [done..|].
    rewrite len_app, len_cons, len_nil in Hb. lia.
Qed.

Lemma ParseChunkHashes_same md l : len md <= maxAlloc -> ParseChunkHashes md = Ret l ->
  exists hs, l = map hexEncode hs /\ parseChunkHashes md = Ret hs /\ len hs <= len md.
Proof.
  intros Hmd Hp. destruct (parsers_agree md Hmd _ 0 [] l ltac:(lia) Hp) as (hs & ? & ? & Hl).
  exists hs. split_and!; [done..|]. rewrite len_nil in Hl. pose proof (len_nonneg md). lia.
Qed.

(** ** What a loaded store holds *)

Lemma wrap_out_ret {A} msg (o : outcome A) a : wrap_out msg o = Ret a -> o = Ret a.
Proof. by destruct o. Qed.

Lemma out_bind_ret {A B} (o : outcome A) (f : A -> outcome B) b : mbind f o = Ret b -> exists a, o = Ret a /\ f a = Ret b.
Proof. destruct o as [a| | |]; cbn; try done. eauto. Qed.

Section Loaded.
Context (unmarshal : bytes -> outcome metaJSON) (fs : FS).

(** The chunk files of a directory, with their hashes if these were checked. *)
Definition chunks_ok (dir : bytes) (mode : VerifyMode) (hs datas : list bytes) : Prop :=
  forall k data, datas !! k = Some data ->
    os_ReadFile fs (Join dir (chunk_name (Z.of_nat k))) = Ret data /\
    (mode = VerifyPerChunkHash -> hs !! k = Some (sha256 data)).

Lemma verify_loop_spec dir mode hs n : forall (i : nat) agg all,
  verify_loop fs dir mode hs n (Z.of_nat i) agg = Ret all ->
  exists datas, length datas = n /\ all = agg ++ concat datas /\
    forall k data, datas !! k = Some data ->
      os_ReadFile fs (Join dir (chunk_name (Z.of_nat (i + k)))) = Ret data /\
      (mode = VerifyPerChunkHash -> hs !! (i + k)%nat = Some (sha256 data)).
Proof.
  induction n as [|n IH]; intros i agg all; cbn [verify_loop].
  - intros [= <-]. exists []. rewrite app_nil_r. by split_and!.
  - intros (data & Hread%wrap_out_ret & H)%out_bind_ret. apply out_bind_ret in H as ([] & Hhash & H).
    replace (Z.of_nat i + 1) with (Z.of_nat (S i)) in H by lia.
    destruct (IH _ _ _ H) as (datas & Hn & -> & Hd). exists (data :: datas). cbn. rewrite Hn, <- app_assoc.
    split_and!; [done..|]. intros [|k] x Hk; cbn in Hk.
    + injection Hk as <-. rewrite Nat.add_0_r. split; [done|]. intros ->. rewrite Nat2Z.id in Hhash.
      rewrite bool_decide_eq_true_2 in Hhash by done. destruct (hs !! i) as [want|]; [|done].
      case_bool_decide as Hw; [|done]. by rewrite Hw.
    + rewrite <- Nat.add_succ_comm. by apply Hd.
Qed.

(** A loaded directory: its metadata gives as many hashes as it has chunks, and what
    the mode checks holds of its files. *)
Definition dir_ok (mode : VerifyMode) (ls : loadedSnapshot) : Prop :=
  len (l_Metadata ls) <= maxAlloc ->
  exists hs, parseChunkHashes (l_Metadata ls) = Ret hs /\ u32 (len hs) = l_Chunks ls /\ l_Chunks ls <> 0 /\
    len hs <= len (l_Metadata ls) /\
    (mode <> VerifyMetadataOnly -> exists datas, len datas = l_Chunks ls /\ chunks_ok (Dir ls) mode hs datas /\
       sha256 (concat datas) = l_Hash ls).

Lemma loadOne_ok dir mode ls : loadOne unmarshal fs dir mode = Ret ls -> dir_ok mode ls.
Proof.
  unfold loadOne, dir_ok. intros H Hmd.
  apply out_bind_ret in H as (b0 & _ & H). apply out_bind_ret in H as (md & Hread%wrap_out_ret & H).
  apply out_bind_ret in H as (hexes & Hparse%wrap_out_ret & H). apply out_bind_ret in H as (raw & _ & H).
  apply out_bind_ret in H as (meta & _ & H).
  destruct (Z.eqb_spec (m_Chunks meta) 0) as [|Hz]; [done|].
  destruct (Z.eqb_spec (u32 (len hexes)) (m_Chunks meta)) as [Hcount|]; [|done]. cbn [negb] in H.
  destruct (_ && _); [done|]. apply out_bind_ret in H as (want & _ & H). destruct (negb (len want =? 32)); [done|].
  apply out_bind_ret in H as (chs & Hdec & H). apply out_bind_ret in H as ([] & Hver & H).
  injection H as <-. cbn in *. destruct (ParseChunkHashes_same md hexes Hmd Hparse) as (hs & -> & Hp & Hl).
  rewrite decode_all_hex in Hdec. injection Hdec as <-. rewrite len_map in Hcount.
  exists hs. split_and!; [done..|]. intros Hmode. rewrite bool_decide_eq_true_2 in Hver by done.
  unfold verifyChunks in Hver. apply out_bind_ret in Hver as (all & Hall & Hsha).
  change 0 with (Z.of_nat 0) in Hall.
  destruct (verify_loop_spec _ _ _ _ _ _ _ Hall) as (datas & Hn & -> & Hd). exists datas.
  assert (Hc : 0 <= m_Chunks meta) by (rewrite <- Hcount; apply u32_range).
  split_and!; [unfold len; lia|exact Hd|]. by case_bool_decide.
Qed.

Definition wanted (chainID : bytes) (ls : loadedSnapshot) : Prop := chainID = [] \/ l_ChainID ls = chainID.

(** The list built so far: directories as loaded, one per height and format. *)
Record list_ok (chainID : bytes) (mode : VerifyMode) (seen : gmap bytes bytes) (l : list loadedSnapshot) : Prop := mkList {
  lo_dirs : Forall (dir_ok mode) l;
  lo_chain : Forall (wanted chainID) l;
  lo_keys : NoDup (map store_key l);
  lo_seen : forall s, s ∈ l -> is_Some (seen !! store_key s)
}.

Lemma list_ok_snoc chainID mode seen l s dir : list_ok chainID mode seen l -> dir_ok mode s -> wanted chainID s ->
  ~ is_Some (seen !! store_key s) -> list_ok chainID mode (<[store_key s := dir]> seen) (l ++ [s]).
Proof.
  intros [Hd Hc Hk Hs] Hdir Hw Hn. split.
  - apply Forall_app; auto.
  - apply Forall_app; auto.
  - rewrite map_app. apply NoDup_app. split_and!; [done| |apply NoDup_singleton].
    intros k (x & -> & Hx)%list_elem_of_fmap Hkey%list_elem_of_singleton. apply Hn. rewrite <- Hkey. by apply Hs.
  - intros x [Hx| ->%list_elem_of_singleton]%elem_of_app; [|by rewrite lookup_insert_eq].
    destruct (decide (store_key x = store_key s)) as [->|Hne]; [by rewrite lookup_insert_eq|].
    rewrite lookup_insert_ne by done. by apply Hs.
Qed.

Lemma chain_test chainID s : negb (bool_decide (chainID = [])) && negb (bool_decide (l_ChainID s = chainID)) = false ->
  wanted chainID s.
Proof using Type. unfold wanted. destruct (bool_decide_reflect (chainID = [])), (bool_decide_reflect (l_ChainID s = chainID)); auto. done. Qed.

Lemma load_dirs_ok chainID mode dirs : forall seen l l', list_ok chainID mode seen l ->
  load_dirs unmarshal fs dirs chainID mode seen l = Ret l' -> exists seen', list_ok chainID mode seen' l'.
Proof.
  induction dirs as [|dir dirs IH]; intros seen l l' Hok; cbn [load_dirs]; [intros [= <-]; eauto|].
  intros (s & Hs%wrap_out_ret & H)%out_bind_ret. destruct (_ && _) eqn:Ec; [done|].
  destruct (bool_decide_reflect (is_Some (seen !! store_key s))) as [|Hseen]; [done|]. eapply IH; [|exact H].
  apply list_ok_snoc; [done|by eapply loadOne_ok|by apply chain_test|done].
Qed.

Lemma scan_root_ok root chainID mode names : forall seen l l', list_ok chainID mode seen l ->
  scan_root unmarshal fs root names chainID mode seen l = Ret l' -> exists seen', list_ok chainID mode seen' l'.
Proof.
  induction names as [|name names IH]; intros seen l l' Hok; cbn [scan_root]; [intros [= <-]; eauto|].
  destruct (os_Stat fs (Join root name)) as [[|]| | |]; try by apply IH.
  destruct (os_Stat fs (Join (Join root name) (str ".complete"))); try by apply IH.
  destruct (loadOne unmarshal fs (Join root name) mode) as [s| | |] eqn:El; try done; [|by apply IH].
  destruct (_ && _) eqn:Ec; [by apply IH|]. destruct (bool_decide_reflect (is_Some (seen !! store_key s))) as [|Hseen]; [by apply IH|].
  apply IH. apply list_ok_snoc; [done|by eapply loadOne_ok|by apply chain_test|done].
Qed.

(** Either way of building a store. *)
Definition loaded_as (chainID : bytes) (mode : VerifyMode) (st : Store) : Prop :=
  (exists dirs, LoadStore unmarshal fs dirs chainID mode = Ret st) \/
  (exists root, LoadStoreFromRoot unmarshal fs root chainID mode = Ret st).

#[local] Instance newer_total : Total newer.
Proof. intros a b. unfold newer. lia. Qed.
#[local] Instance newer_trans : Transitive newer.
Proof. intros a b c. unfold newer. lia. Qed.

(** A store: verified directories of the chain, newest first, keys distinct. *)
Definition store_ok (chainID : bytes) (mode : VerifyMode) (st : Store) : Prop :=
  Forall (dir_ok mode) (snapshots st) /\ Forall (wanted chainID) (snapshots st) /\
  NoDup (map store_key (snapshots st)) /\ StronglySorted newer (snapshots st).

Lemma loaded_ok chainID mode st : loaded_as chainID mode st -> store_ok chainID mode st.
Proof.
  intros Hl. assert (H : exists seen l, list_ok chainID mode seen l /\ st = newStore l).
  { assert (H0 : list_ok chainID mode ∅ []) by (split; [constructor|constructor|constructor|intros s Hs; by apply elem_of_nil in Hs]).
    destruct Hl as [[dirs H]|[root H]].
    - unfold LoadStore in H. case_bool_decide; [done|]. apply out_bind_ret in H as (l & H & <-%Ret_inj).
      destruct (load_dirs_ok _ _ _ _ _ _ H0 H). eauto.
    - unfold LoadStoreFromRoot in H. apply out_bind_ret in H as (names & _ & H). apply out_bind_ret in H as (l & H & <-%Ret_inj).
      destruct (scan_root_ok _ _ _ _ _ _ _ H0 H). eauto. }
  destruct H as (seen & l & [Hd Hc Hk _] & ->). unfold store_ok, newStore. cbn.
  pose proof (merge_sort_Permutation newer l) as Hp.
  split_and!; [by rewrite Hp|by rewrite Hp|by apply (NoDup_Permutation_proper _ _ (Permutation_map store_key Hp))|].
  apply (StronglySorted_merge_sort newer).
Qed.
End Loaded.

(** ** What is served *)

Lemma store_key_inj a b : store_key a = store_key b -> l_Height a = l_Height b /\ l_Format a = l_Format b.
Proof.
  unfold store_key. intros H. apply split_at_inj in H as [H1 H2]; try by apply decimal_no_sep; vm_compute.
  split; by apply decimal_inj.
Qed.

(** The snapshot of a height and format is found, wherever it stands. *)
Lemma load_chunk_found fs l ls i data : NoDup (map store_key l) -> ls ∈ l -> i < l_Chunks ls ->
  os_ReadFile fs (Join (Dir ls) (chunk_name i)) = Ret data ->
  load_chunk fs l (l_Height ls) (l_Format ls) i = (data, true, None).
Proof.
  intros Hnd Hin Hi Hread. induction l as [|x l IH]; [by apply elem_of_nil in Hin|].
  cbn [map] in Hnd. apply NoDup_cons in Hnd as [Hx Hnd]. cbn [load_chunk].
  destruct (Z.eqb_spec (l_Height x) (l_Height ls)) as [Eh|Eh], (Z.eqb_spec (l_Format x) (l_Format ls)) as [Ef|Ef]; cbn [negb orb].
  2-4: apply IH; [done|]; apply elem_of_cons in Hin as [->|]; done.
  apply elem_of_cons in Hin as [->|Hin].
  - by rewrite (proj2 (Z.leb_gt _ _)), Hread by done.
  - destruct Hx. apply list_elem_of_fmap. exists ls. split; [|done]. unfold store_key. by rewrite Eh, Ef.
Qed.

(** The files behind a snapshot of a store that was verified chunk by chunk. *)
Lemma verified_files unmarshal fs chainID st ls :
  loaded_as unmarshal fs chainID VerifyPerChunkHash st -> ls ∈ snapshots st -> len (l_Metadata ls) < 2 ^ 32 ->
  exists datas, parseChunkHashes (l_Metadata ls) = Ret (map sha256 datas) /\ len datas = l_Chunks ls /\ l_Chunks ls < 2 ^ 32 /\
    sha256 (concat datas) = l_Hash ls /\
    forall i data, datas !! Z.to_nat i = Some data -> 0 <= i ->
      LoadChunk st fs (l_Height ls) (l_Format ls) i = (data, true, None).
Proof.
  intros Hl Hin Hmd. destruct (loaded_ok _ _ _ _ _ Hl) as (Hd & _ & Hk & _).
  rewrite Forall_forall in Hd. destruct (Hd ls Hin) as (hs & Hp & Hn & _ & Hlen & Hch); [unfold maxAlloc; lia|].
  destruct Hch as (datas & Hdn & Hok & Hsha); [done|].
  rewrite u32_small in Hn by (pose proof (len_nonneg hs); lia).
  assert (E : map sha256 datas = hs).
  { apply list_eq_same_length with (length hs); [done|rewrite length_map; unfold len in *; lia|].
    intros k x y _ Hx Hy. rewrite list_lookup_fmap in Hx. destruct (datas !! k) as [d|] eqn:Ek; [|done]. cbn in Hx. injection Hx as <-.
    destruct (Hok k d Ek) as [_ Hh]. rewrite (Hh eq_refl) in Hy. by injection Hy. }
  exists datas. rewrite E. split_and!; [done|done|rewrite <- Hn; lia|done|]. intros i data Hi H0. destruct (Hok _ _ Hi) as [Hread _].
  rewrite Z2Nat.id in Hread by done. pose proof (lookup_lt_Some _ _ _ Hi).
  apply load_chunk_found; [done|done|unfold len in Hdn; lia|done].
Qed.

(** C21: what a store verified chunk by chunk offers is what a client of this
    program accepts: the metadata parses to one hash per chunk, every chunk the store
    reads has its hash, all of them together have the hash of the offer, and chunk 0
    passes the client's check of the offer. *)
Theorem offers_verify unmarshal fs chainID st o :
  loaded_as unmarshal fs chainID VerifyPerChunkHash st -> o ∈ ListSnapshots st -> len (Reactor.Metadata o) < 2 ^ 32 ->
  exists datas, parseChunkHashes (Reactor.Metadata o) = Ret (map sha256 datas) /\
    len datas = Reactor.Chunks o /\ sha256 (concat datas) = Reactor.Hash o /\
    (forall i data, datas !! Z.to_nat i = Some data -> 0 <= i ->
       LoadChunk st fs (Reactor.Height o) (Reactor.Format o) i = (data, true, None)) /\
    (forall data peers, head datas = Some data ->
       verifyChunkZero (mkOffer (Reactor.Height o) (Reactor.Format o) (Reactor.Chunks o) (Reactor.Hash o) (Reactor.Metadata o) peers) data = Ret tt).
Proof.
  intros Hl (ls & -> & Hin)%list_elem_of_fmap Hmd.
  destruct (verified_files _ _ _ _ _ Hl Hin Hmd) as (datas & Hp & Hn & Hlt & Hs & Hload). exists datas.
  split_and!; [exact Hp|done|done|exact Hload|]. intros data peers Hd. unfold verifyChunkZero.
  cbn [Walk.Metadata Walk.Chunks Reactor.Metadata Reactor.Chunks]. rewrite Hp. cbn [wrap_out mbind outcome_bind].
  rewrite len_map, Hn, u32_small, Z.eqb_refl by (pose proof (len_nonneg datas); lia).
  destruct datas as [|d l]; [done|]. cbn in Hd. injection Hd as ->. cbn [negb map]. by rewrite bool_decide_eq_true_2.
Qed.

(** C22: a client that asks such a server for a chunk gets it and stores it:
    a reactor without limits and not shutting down answers from the store, and the
    scheduler that runs the snapshot's job takes the answer for the chunk, if it is
    not empty. *)
Theorem chunk_transfer {Lim : Type} {RL : RateLimiter Lim} (proto_Size : message -> Z) unmarshal chainID st ls
    (re : Reactor.env (FS := FS)) p i (r : Reactor (Lim := Lim) (FS := FS)) j e q s :
  loaded_as unmarshal (Reactor.fs re) chainID VerifyPerChunkHash st -> ls ∈ snapshots st -> len (l_Metadata ls) < 2 ^ 32 ->
  0 <= i < l_Chunks ls ->
  provider r = Some (store_provider st) -> shuttingDown r = false -> globalLim r = None -> limits_peers r = false ->
  parseChunkHashes (l_Metadata ls) = Ret (chunkHashes j) -> j_height j = l_Height ls -> j_format j = l_Format ls ->
  len (completed s) = l_Chunks ls -> at_ (completed s) i = false -> write_err e i = None ->
  exists data, (Receive proto_Size re p (ChunkRequest (l_Height ls) (l_Format ls) i) r).1 =
      [CLoad p (l_Height ls) (l_Format ls) i;
       CSend p (ChunkResponse (l_Height ls) (l_Format ls) i data false) (Reactor.accepts re (ChunkResponse (l_Height ls) (l_Format ls) i data false))] /\
    sha256 data = default [] (chunkHashes j !! Z.to_nat i) /\
    (data <> [] -> exists s', onChunk j e q (mkChunkMsg (l_Height ls) (l_Format ls) i data false) s = Ret s' /\
       at_ (completed s') i = true /\ disk s' !! chunk_name i = Some data).
Proof.
  intros Hl Hin Hmd Hi Hprov Hsh Hg Hlp Hj Hjh Hjf Hlen Hat Hw.
  destruct (verified_files _ _ _ _ _ Hl Hin Hmd) as (datas & Hp & Hn & Hlt & Hs & Hload).
  rewrite Hp in Hj. apply Ret_inj in Hj.
  destruct (lookup_lt_is_Some_2 datas (Z.to_nat i)) as [data Hd]; [unfold len in Hn; lia|].
  assert (Hh : chunkHashes j !! Z.to_nat i = Some (sha256 data)) by (by rewrite <- Hj, list_lookup_fmap, Hd).
  exists data. split_and!.
  - unfold Receive. cbn -[serve_chunk]. rewrite Hprov. unfold serve_chunk. cbn. rewrite Hsh. unfold allow_global. cbn. rewrite Hg.
    unfold allow_peer, peerLimiter, limits_peers in *. cbn. rewrite Hlp. cbn. by rewrite (Hload i data Hd) by lia.
  - by rewrite Hh.
  - intros Hne. apply (good_chunk_stored j e q (mkChunkMsg (l_Height ls) (l_Format ls) i data false)); cbn; try done. lia.
Qed.

(** ** The catalog and the reactor *)

(** What the reactor serves after a rescan handed it a store, or not. *)
Definition installed (o : option Store) (before : option Store) : option Store :=
  match o with Some st => Some st | None => before end.

Fixpoint rescans (unmarshal : bytes -> outcome metaJSON) (cfg : CatalogConfig) (l : list FS) (c : Catalog) (served : option Store)
    : Catalog * option Store :=
  match l with
  | [] => (c, served)
  | fs :: l => let '(_, c, o) := Rescan unmarshal cfg fs c in rescans unmarshal cfg l c (installed o served)
  end.



(** ** A directory *)

Definition sample_chunks : list bytes := [str "abc"; str "defg"].
Definition sample_meta : metaJSON := mkMeta (str "hub") 100 3 2 (hexEncode (sha256 (concat sample_chunks))) 0.
Definition sample_metadata : bytes := encodeChunkHashes (map sha256 sample_chunks).

(** The root "r" with the snapshot in the subdirectory [name]. *)
Definition sample_fs (name : bytes) : FS :=
  let dir := Join (str "r") name in
  mkFS (fun p => if bool_decide (p = dir) then Ret true
                 else if bool_decide (p = Join dir (str ".complete")) then Ret false else Err (Errorf "no such file"))
       (fun p => if bool_decide (p = Join dir (str "metadata.bin")) then Ret sample_metadata
                 else if bool_decide (p = Join dir (str "meta.json")) then Ret []
                 else if bool_decide (p = Join dir (chunk_name 0)) then Ret (str "abc")
                 else if bool_decide (p = Join dir (chunk_name 1)) then Ret (str "defg") else Err (Errorf "no such file"))
       (fun p => Ret [name]).

Definition sample_unmarshal (_ : bytes) : outcome metaJSON := Ret sample_meta.
Definition sample_loaded : loadedSnapshot :=
  mkLoaded (Join (str "r") (str "s1")) (str "hub") 100 3 2 (sha256 (concat sample_chunks)) sample_metadata.
Definition sample_store : Store := mkStore [sample_loaded].

Lemma sample_loads : loaded_as sample_unmarshal (sample_fs (str "s1")) (str "hub") VerifyPerChunkHash sample_store.
Proof. right. exists (str "r"). vm_compute. reflexivity. Qed.

Lemma offers_verify_witness : exists datas, parseChunkHashes sample_metadata = Ret (map sha256 datas) /\ len datas = 2.
Proof.
  destruct (offers_verify sample_unmarshal (sample_fs (str "s1")) (str "hub") sample_store
    (mkSnapshot 100 3 2 (sha256 (concat sample_chunks)) sample_metadata)) as (datas & Hp & Hn & _).
  - exact sample_loads.
  - left.
  - vm_compute. reflexivity.
  - exists datas. split; [exact Hp|exact Hn].
Defined.

Definition sample_job : job := mkJob 100 3 2 (map sha256 sample_chunks) 4 60 3 1 1 0 false.
Definition sample_client : Scheduler.env :=
  Scheduler.mkEnv 0 (fun _ => true) (fun _ => true) (fun _ _ => true) (fun _ => false) (fun _ => None) (fun _ => true) (fun _ => true) (fun _ => []) [].
Definition sample_reactor : Reactor (Lim := tbucket) (FS := FS) := SetProvider (Some (store_provider sample_store)) NewReactor.

Lemma chunk_transfer_witness : exists data,
  (Receive (fun _ => 0) (Reactor.mkEnv 0 (fun _ => true) (sample_fs (str "s1"))) (str "p") (ChunkRequest 100 3 1) sample_reactor).1 =
    [CLoad (str "p") 100 3 1; CSend (str "p") (ChunkResponse 100 3 1 data false) true].
Proof.
  destruct (chunk_transfer (fun _ => 0) sample_unmarshal (str "hub") sample_store sample_loaded
    (Reactor.mkEnv 0 (fun _ => true) (sample_fs (str "s1"))) (str "p") 1 sample_reactor sample_job sample_client (str "q")
    (init_sched sample_job ∅)) as (data & Hd & _).
  - exact sample_loads.
  - left.
  - vm_compute. reflexivity.
  - split; [discriminate|reflexivity].
  - reflexivity.
  - reflexivity.
  - reflexivity.
  - reflexivity.
  - vm_compute. reflexivity.
  - reflexivity.
  - reflexivity.
  - reflexivity.
  - reflexivity.
  - reflexivity.
  - exists data. exact Hd.
Defined.

Definition sample_catalog : CatalogConfig := mkCatalog (str "r") (str "hub") VerifyPerChunkHash 0.


(** A snapshot that moves to another subdirectory keeps its fingerprint, so the
    reactor is not given the new store and its chunk reads fail from then on. *)
Example moved_snapshot_unreadable :
  let x := rescans sample_unmarshal sample_catalog [sample_fs (str "s1"); sample_fs (str "s2")] (NewCatalog true) None in
  (fun st => (LoadChunk st (sample_fs (str "s2")) 100 3 0).1.2) <$> Current x.1 = Some true /\
  (fun st => LoadChunk st (sample_fs (str "s2")) 100 3 0) <$> x.2 = Some ([], false, Some (Wrapf "read chunk" (Errorf "no such file"))).
Proof. vm_compute. split; reflexivity. Qed.
