(* ===== verification/PeerWatch.v ===== *)
(** * Event fan-out and peer churn (internal/snapfetch/eventmux.go, peerwatch.go)

    The multiplexer copies the reactor's two queues to its subscribers, each with
    queues of its own; what does not fit is dropped for that subscriber only.  The
    peer watch is one of them: it notes who connects and what they offer, and on a
    tick evicts the connected peers that are of no use.  The main theorems: every
    subscriber gets its events in order, whatever the others do; a tick evicts
    exactly the peers that fail a test; a peer that has offered a usable snapshot is
    never evicted, and evicted peers stay undialled. *)

From S2P Require Import Prelude Reactor Manager.

(** ** The multiplexer *)

Definition subCtrlBuffer : Z := 256.
Definition subChunkBuffer : Z := 8.

(** A subscriber's queues; no chunk queue for a control-only one.  What it took is
    kept along. *)
Record subEntry := mkSub {
  ctrl : list Event;
  chunk : option (list Event);
  got : list Event;
  gotChunks : list Event
}.

Definition subscribe : subEntry := mkSub [] (Some []) [] [].
Definition subscribeCtrl : subEntry := mkSub [] None [] [].

(** [select { case s.ctrl <- ev: default: }] *)
Definition send_ctrl (ev : Event) (s : subEntry) : subEntry :=
  if len (ctrl s) <? subCtrlBuffer
  then mkSub (ctrl s ++ [ev]) (chunk s) (got s) (gotChunks s) else s.

Definition send_chunk (ev : Event) (s : subEntry) : subEntry :=
  match chunk s with
  | None => s
  | Some q =>
      if len q <? subChunkBuffer
      then mkSub (ctrl s) (Some (q ++ [ev])) (got s) (gotChunks s) else s
  end.

Definition fanoutCtrl (ev : Event) (subs : list subEntry) : list subEntry := map (send_ctrl ev) subs.
Definition fanoutChunk (ev : Event) (subs : list subEntry) : list subEntry := map (send_chunk ev) subs.

(** A step of the multiplexer or of a subscriber. *)
Inductive mux_action :=
| MSubscribe (chunks : bool)
| MCtrl (ev : Event)
| MChunk (ev : Event)
| MTake (i : nat)
| MTakeChunk (i : nat)
| MStop.

(** The subscribers, and whether the goroutine still runs. *)
Record eventMux := mkMux { subs : list subEntry; running : bool }.

Definition take_ctrl (s : subEntry) : option subEntry :=
  match ctrl s with
  | [] => None
  | ev :: q => Some (mkSub q (chunk s) (got s ++ [ev]) (gotChunks s))
  end.
Definition take_chunk (s : subEntry) : option subEntry :=
  match chunk s with
  | Some (ev :: q) => Some (mkSub (ctrl s) (Some q) (got s) (gotChunks s ++ [ev]))
  | _ => None
  end.

Definition mux_step (a : mux_action) (m : eventMux) : option eventMux :=
  match a with
  | MSubscribe chunks => Some (mkMux (subs m ++ [if chunks then subscribe else subscribeCtrl]) (running m))
  | MCtrl ev => if running m then Some (mkMux (fanoutCtrl ev (subs m)) true) else None
  | MChunk ev => if running m then Some (mkMux (fanoutChunk ev (subs m)) true) else None
  | MTake i => s ← subs m !! i; s' ← take_ctrl s; Some (mkMux (<[i := s']> (subs m)) (running m))
  | MTakeChunk i => s ← subs m !! i; s' ← take_chunk s; Some (mkMux (<[i := s']> (subs m)) (running m))
  | MStop => Some (mkMux (subs m) false)
  end.

Fixpoint mux_run (l : list mux_action) (m : eventMux) : option eventMux :=
  match l with
  | [] => Some m
  | a :: l => m' ← mux_step a m; mux_run l m'
  end.

Definition newEventMux : eventMux := mkMux [] true.

(** ** What a subscriber is due *)

Inductive qop := QOffer (ev : Event) | QTake.

(** What the actions mean to the two queues of the [i]th subscriber: it does not matter
    to them what the other subscribers do. *)
Definition ctrl_op (i : nat) (a : mux_action) : option qop :=
  match a with
  | MCtrl ev => Some (QOffer ev)
  | MTake j => if decide (j = i) then Some QTake else None
  | _ => None
  end.
Definition chunk_op (i : nat) (a : mux_action) : option qop :=
  match a with
  | MChunk ev => Some (QOffer ev)
  | MTakeChunk j => if decide (j = i) then Some QTake else None
  | _ => None
  end.

Definition offered (o : qop) : option Event := match o with QOffer ev => Some ev | QTake => None end.

(** The events offered while fewer than [cap] accepted ones waited, and how many wait. *)
Definition queue_op (cap : Z) (x : list Event * Z) (o : qop) : list Event * Z :=
  match o with
  | QOffer ev => if x.2 <? cap then (x.1 ++ [ev], x.2 + 1) else x
  | QTake => (x.1, x.2 - 1)
  end.

Definition bounded (cap : Z) (l : list qop) : list Event * Z := fold_left (queue_op cap) l ([], 0).
Definition accepted (cap : Z) (l : list qop) : list Event := (bounded cap l).1.

Lemma bounded_snoc cap l o : bounded cap (l ++ [o]) = queue_op cap (bounded cap l) o.
Proof. apply fold_left_app. Qed.

Lemma fold_accepted cap l : forall x, exists new, (fold_left (queue_op cap) l x).1 = x.1 ++ new /\
  new `sublist_of` omap offered l /\ (x.2 + len (omap offered l) <= cap -> new = omap offered l).
Proof.
  induction l as [|o l IH]; intros x; cbn; [exists []; rewrite app_nil_r; by split_and!|].
  destruct (IH (queue_op cap x o)) as (new & E & Hs & Ha). rewrite E. destruct o as [ev|]; cbn -[len] in *.
  - pose proof (len_nonneg (omap offered l)). rewrite len_cons. destruct (Z.ltb_spec (x.2) cap); cbn -[len] in *.
    + exists (ev :: new). rewrite <- app_assoc. split_and!; [done|by constructor|]. intros ?. rewrite Ha by lia. done.
    + exists new. split_and!; [done|by constructor|lia].
  - exists new. split_and!; [done|done|]. intros ?. apply Ha. lia.
Qed.

(** What is accepted is in the order of the offers, each at most once; and all of it
    when there are no more offers than room. *)
Lemma accepted_in_order cap l : accepted cap l `sublist_of` omap offered l /\
  (len (omap offered l) <= cap -> accepted cap l = omap offered l).
Proof.
  destruct (fold_accepted cap l ([], 0)) as (new & E & Hs & Ha). unfold accepted, bounded. rewrite E. by split.
Qed.

(** ** The peer watch *)

Record watchConfig := mkWatchConfig {
  w_has_book : bool;
  w_has_mgr : bool;
  minHeight : Z;
  grace : Z;
  requireStateSyncChannel : bool
}.

Record peerWatch := mkWatch {
  firstSeen : gmap ID Z;
  useful : gset ID;
  outOfRange : gset ID;
  w_banned : gset ID
}.

Definition newPeerWatch : peerWatch := mkWatch ∅ ∅ ∅ ∅.

Definition markOutOfRange (p : ID) (w : peerWatch) : peerWatch :=
  mkWatch (firstSeen w) (useful w) ({[p]} ∪ outOfRange w) (w_banned w).
Definition isBanned (p : ID) (w : peerWatch) : bool := bool_decide (p ∈ w_banned w).
Definition markUseful (p : ID) (w : peerWatch) : peerWatch :=
  mkWatch (firstSeen w) ({[p]} ∪ useful w) (outOfRange w) (w_banned w).
Definition onConnect (now : Z) (p : ID) (w : peerWatch) : peerWatch :=
  match firstSeen w !! p with
  | Some _ => w
  | None => mkWatch (<[p := now]> (firstSeen w)) (useful w) (outOfRange w) (w_banned w)
  end.
Definition onDisconnect (p : ID) (w : peerWatch) : peerWatch :=
  mkWatch (delete p (firstSeen w)) (useful w) (outOfRange w ∖ {[p]}) (w_banned w).

(** What the watch does to the switch, the book and the manager. *)
Inductive effect :=
| FStop (p : ID)
| FMarkBad (p : ID)
| FBan (p : ID) (reason : bytes).

(** What the switch answers during a sweep: the two lookups of a peer, and the
    channels in its node info ([None]: not a DefaultNodeInfo). *)
Record watch_env := mkWEnv {
  t_now : Z;
  there : ID -> bool;
  there_again : ID -> bool;
  snapshot_channel : ID -> option bool
}.

(** The loop of [run]: waiting, or evicting what a sweep has found.  [effects] is
    all that was done so far, and [by_tick] the evictions of the tick among it. *)
Record wsys := mkWsys {
  watch : peerWatch;
  pending : list (ID * bytes);
  effects : list effect;
  by_tick : list (ID * bytes)
}.

Definition start : wsys := mkWsys newPeerWatch [] [] [].

(** A step: an event or a tick taken by [run] when it is waiting; the next eviction of
    a tick, with what the switch answers; a ban by the download or the walk, which run
    in goroutines of their own. *)
Inductive input :=
| IEvent (now : Z) (ev : Event)
| ITick (e : watch_env) (order : list ID)
| IEvict (there_still : bool)
| IBan (p : ID) (reason : bytes).

Section Watch.
Context (c : watchConfig).

Definition banPeer (p : ID) (reason : bytes) (w : peerWatch) : list effect * peerWatch :=
  (FStop p :: (if w_has_book c then [FMarkBad p] else []) ++ (if w_has_mgr c then [FBan p reason] else []),
   mkWatch (delete p (firstSeen w)) (useful w) (outOfRange w) ({[p]} ∪ w_banned w)).

(** Why a peer seen first at [first] is to go, if it is. *)
Definition verdict (e : watch_env) (w : peerWatch) (p : ID) (first : Z) : option bytes :=
  if bool_decide (p ∈ useful w) then None else
  match (if requireStateSyncChannel c && there_again e p then snapshot_channel e p else Some true) with
  | None => Some (str "non-default NodeInfo")
  | Some false => Some (str "no state-sync channel")
  | Some true =>
      if bool_decide (p ∈ outOfRange w) then Some (str "offered only out-of-range snapshot")
      else if t_now e - first <? grace c then None
      else Some (str "no useful offer in window")
  end.

Definition forget (p : ID) (w : peerWatch) : peerWatch :=
  mkWatch (delete p (firstSeen w)) (useful w) (outOfRange w) (w_banned w).

(** The sweep of firstSeen under the lock: the peers to evict, and the entries of
    peers that are gone dropped.  [order] is the order in which Go visits the map. *)
Definition sweep_one (e : watch_env) (x : list (ID * bytes) * peerWatch) (p : ID) : list (ID * bytes) * peerWatch :=
  let '(pending, w) := x in
  match firstSeen w !! p with
  | None => x
  | Some first =>
      if negb (there e p) then (pending, forget p w)
      else match verdict e w p first with
           | Some reason => (pending ++ [(p, reason)], w)
           | None => x
           end
  end.

Definition sweep (e : watch_env) (order : list ID) (w : peerWatch) : list (ID * bytes) * peerWatch :=
  if minHeight c =? 0 then ([], w) else fold_left (sweep_one e) order ([], w).

Definition on_event (now : Z) (ev : Event) (w : peerWatch) : peerWatch :=
  if Reactor.Connected ev then onConnect now (PeerID ev) w
  else if Reactor.Removed ev then onDisconnect (PeerID ev) w
  else match e_Snapshot ev with
       | Some s =>
           if (minHeight c =? 0) || (minHeight c <=? Height s) then markUseful (PeerID ev) w
           else markOutOfRange (PeerID ev) w
       | None => w
       end.

Definition do_ban (p : ID) (reason : bytes) (rest : list (ID * bytes)) (tk : list (ID * bytes)) (s : wsys) : wsys :=
  let '(effs, w) := banPeer p reason (watch s) in mkWsys w rest (effects s ++ effs) (by_tick s ++ tk).

(** Go visits every key of the map once. *)
Definition visit_ok (order : list ID) (w : peerWatch) : bool :=
  bool_decide (NoDup order /\ list_to_set order =@{gset ID} dom (firstSeen w)).

Definition watch_step (i : input) (s : wsys) : option wsys :=
  match i, pending s with
  | IEvent now ev, [] => Some (mkWsys (on_event now ev (watch s)) [] (effects s) (by_tick s))
  | ITick e order, [] =>
      if visit_ok order (watch s)
      then let '(out, w) := sweep e order (watch s) in Some (mkWsys w out (effects s) (by_tick s))
      else None
  | IEvict true, (p, reason) :: rest => Some (do_ban p reason rest [(p, reason)] s)
  | IEvict false, _ :: rest => Some (mkWsys (watch s) rest (effects s) (by_tick s))
  | IBan p reason, rest => Some (do_ban p reason rest [] s)
  | _, _ => None
  end.

Fixpoint watch_run (l : list input) (s : wsys) : option wsys :=
  match l with
  | [] => Some s
  | i :: l => s' ← watch_step i s; watch_run l s'
  end.
End Watch.

(** ** The multiplexer: what a subscriber gets *)

(** The actions after the [i]th subscription. *)
Fixpoint since (i : nat) (l : list mux_action) : list mux_action :=
  match l with
  | [] => []
  | MSubscribe _ :: l => match i with O => l | S i => since i l end
  | _ :: l => since i l
  end.

Definition sub_of (a : mux_action) : option bool := match a with MSubscribe b => Some b | _ => None end.

(** The queue holds what was accepted and not taken yet. *)
Definition queue_holds (cap : Z) (l : list qop) (taken q : list Event) : Prop :=
  bounded cap l = (taken ++ q, len q) /\ len q <= cap.

(** The [i]th subscriber, after the actions [l] since it subscribed. *)
Record sub_ok (i : nat) (chunks : bool) (l : list mux_action) (s : subEntry) : Prop := {
  ctrl_ok : queue_holds subCtrlBuffer (omap (ctrl_op i) l) (got s) (ctrl s);
  chunk_ok : match chunk s with
             | Some q => chunks = true /\ queue_holds subChunkBuffer (omap (chunk_op i) l) (gotChunks s) q
             | None => chunks = false /\ gotChunks s = []
             end
}.

Definition mux_ok (l : list mux_action) (m : eventMux) : Prop :=
  len (subs m) = len (omap sub_of l) /\
  forall i s b, subs m !! i = Some s -> omap sub_of l !! i = Some b -> sub_ok i b (since i l) s.

Lemma since_snoc a l : forall i, (i < length (omap sub_of l))%nat -> since i (l ++ [a]) = since i l ++ [a].
Proof.
  induction l as [|x l IH]; intros i Hi; cbn in Hi; [lia|].
  destruct x; cbn in Hi |- *; try (by apply IH).
  destruct i as [|i]; [done|]. apply IH. lia.
Qed.

Lemma since_new b l : since (length (omap sub_of l)) (l ++ [MSubscribe b]) = [].
Proof. induction l as [|x l IH]; [done|]. destruct x; cbn; done. Qed.

Lemma new_sub_ok i b : sub_ok i b [] (if b then subscribe else subscribeCtrl).
Proof. by destruct b; split. Qed.

Lemma holds_offer cap l tk q ev : queue_holds cap l tk q ->
  queue_holds cap (l ++ [QOffer ev]) tk (if len q <? cap then q ++ [ev] else q).
Proof.
  intros [Hb Hq]. unfold queue_holds. rewrite bounded_snoc, Hb. cbn -[len]. destruct (Z.ltb_spec (len q) cap); [|done].
  rewrite len_app, len_cons, len_nil. split; [by rewrite app_assoc|lia].
Qed.

Lemma holds_take cap l tk ev q : queue_holds cap l tk (ev :: q) -> queue_holds cap (l ++ [QTake]) (tk ++ [ev]) q.
Proof.
  intros [Hb Hq]. unfold queue_holds. rewrite bounded_snoc, Hb. rewrite len_cons in *. cbn -[len].
  split; [rewrite <- app_assoc; f_equal; lia|lia].
Qed.

Lemma send_ctrl_ok i b l ev s : sub_ok i b l s -> sub_ok i b (l ++ [MCtrl ev]) (send_ctrl ev s).
Proof.
  intros [Hc Hk]. pose proof (holds_offer _ _ _ _ ev Hc) as Hq. unfold send_ctrl.
  destruct (len (ctrl s) <? subCtrlBuffer); split; cbn; rewrite !omap_app; cbn; rewrite ?app_nil_r; done.
Qed.

Lemma send_chunk_ok i b l ev s : sub_ok i b l s -> sub_ok i b (l ++ [MChunk ev]) (send_chunk ev s).
Proof.
  intros [Hc Hk]. unfold send_chunk. destruct (chunk s) as [q|] eqn:E.
  - destruct Hk as [-> Hk]. pose proof (holds_offer _ _ _ _ ev Hk) as Hq.
    destruct (len q <? subChunkBuffer); split; cbn; rewrite ?E, !omap_app; cbn; rewrite ?app_nil_r; done.
  - split; rewrite ?omap_app; cbn; rewrite ?app_nil_r; [done|by rewrite E].
Qed.

Lemma idle_ok i a b l s : ctrl_op i a = None -> chunk_op i a = None -> sub_ok i b l s -> sub_ok i b (l ++ [a]) s.
Proof. intros Ha Hb [Hc Hk]. split; rewrite !omap_app; cbn; rewrite ?Ha, ?Hb, !app_nil_r; done. Qed.

Lemma take_ctrl_ok i b l s s' : take_ctrl s = Some s' -> sub_ok i b l s -> sub_ok i b (l ++ [MTake i]) s'.
Proof.
  unfold take_ctrl. destruct (ctrl s) as [|ev q] eqn:E; [done|]. intros [= <-] [Hc Hk].
  split; cbn; rewrite !omap_app; cbn; rewrite ?decide_True by done; rewrite ?app_nil_r; [|done].
  rewrite E in Hc. by apply holds_take.
Qed.

Lemma take_chunk_ok i b l s s' : take_chunk s = Some s' -> sub_ok i b l s -> sub_ok i b (l ++ [MTakeChunk i]) s'.
Proof.
  unfold take_chunk. destruct (chunk s) as [[|ev q]|] eqn:E; [done| |done]. intros [= <-] [Hc Hk].
  split; cbn; rewrite !omap_app; cbn; rewrite ?decide_True by done; rewrite ?app_nil_r; [done|].
  rewrite E in Hk. destruct Hk. split; [done|]. by apply holds_take.
Qed.

Lemma mux_keep l a m (f : nat -> subEntry -> subEntry) r : sub_of a = None -> mux_ok l m ->
  (forall i s b, subs m !! i = Some s -> sub_ok i b (since i l) s -> sub_ok i b (since i l ++ [a]) (f i s)) ->
  mux_ok (l ++ [a]) (mkMux (imap f (subs m)) r).
Proof.
  intros Ha [Hn Hs] Hf. unfold mux_ok. rewrite !omap_app. cbn. rewrite Ha, app_nil_r. split; [unfold len in *; by rewrite length_imap|].
  intros i s b Hi Hb. apply list_lookup_imap_Some in Hi as (s0 & Hi & ->).
  rewrite since_snoc by (by apply lookup_lt_Some in Hb). apply Hf; [done|by eapply Hs].
Qed.

Lemma imap_map {A B} (f : A -> B) (l : list A) : imap (fun _ => f) l = map f l.
Proof. induction l as [|x l IH]; [done|]. cbn. f_equal. exact IH. Qed.

Lemma imap_same {A} (l : list A) : imap (fun _ x => x) l = l.
Proof. induction l as [|x l IH]; [done|]. cbn. f_equal. exact IH. Qed.

Lemma imap_insert_at {A} (i : nat) (y : A) (l : list A) :
  imap (fun j x => if decide (j = i) then y else x) l = <[i := y]> l.
Proof.
  apply list_eq. intros j. rewrite list_lookup_imap. destruct (decide (j = i)) as [->|Hj].
  - destruct (decide (i < length l)%nat) as [Hi|Hi].
    + rewrite list_lookup_insert_eq by done. apply lookup_lt_is_Some in Hi as [x Hx]. by rewrite Hx.
    + rewrite list_insert_ge by lia. by rewrite lookup_ge_None_2 by lia.
  - rewrite list_lookup_insert_ne by done. by destruct (l !! j).
Qed.

Lemma mux_step_ok l a m m' : mux_ok l m -> mux_step a m = Some m' -> mux_ok (l ++ [a]) m'.
Proof.
  intros Hok E. destruct a as [b|ev|ev|i|i|]; cbn [mux_step] in E.
  - injection E as <-. destruct Hok as [Hn Hs]. unfold mux_ok. rewrite omap_app. cbn. split; [len_simpl; lia|].
    assert (Hlen : length (subs m) = length (omap sub_of l)) by (unfold len in Hn; lia).
    intros i s b' Hi Hb. apply lookup_app_Some in Hi as [Hi|[Hge Hi]].
    + pose proof (lookup_lt_Some _ _ _ Hi). rewrite lookup_app_l in Hb by lia.
      rewrite since_snoc by lia. apply idle_ok; [done..|]. by eapply Hs.
    + rewrite lookup_app_r in Hb by lia. apply list_lookup_singleton_Some in Hi as [Hz Hi]. subst s.
      apply list_lookup_singleton_Some in Hb as [_ Hb]. subst b'. replace i with (length (omap sub_of l)) by lia.
      rewrite since_new. apply new_sub_ok.
  - destruct (running m); [|done]. injection E as <-. unfold fanoutCtrl. rewrite <- imap_map.
    apply mux_keep; [done..|]. intros i s b _. apply send_ctrl_ok.
  - destruct (running m); [|done]. injection E as <-. unfold fanoutChunk. rewrite <- imap_map.
    apply mux_keep; [done..|]. intros i s b _. apply send_chunk_ok.
  - destruct (subs m !! i) as [s0|] eqn:Ei; [|done]. cbn in E. destruct (take_ctrl s0) as [s'|] eqn:Et; [|done].
    injection E as <-. rewrite <- imap_insert_at. apply mux_keep; [done..|]. intros j s b Hj Hs.
    destruct (decide (j = i)) as [->|]; [|apply idle_ok; [cbn; by rewrite decide_False|done|done]].
    rewrite Ei in Hj. injection Hj as ->. by eapply take_ctrl_ok.
  - destruct (subs m !! i) as [s0|] eqn:Ei; [|done]. cbn in E. destruct (take_chunk s0) as [s'|] eqn:Et; [|done].
    injection E as <-. rewrite <- imap_insert_at. apply mux_keep; [done..|]. intros j s b Hj Hs.
    destruct (decide (j = i)) as [->|]; [|apply idle_ok; [done|cbn; by rewrite decide_False|done]].
    rewrite Ei in Hj. injection Hj as ->. by eapply take_chunk_ok.
  - injection E as <-. rewrite <- (imap_same (subs m)). apply mux_keep; [done..|]. intros j s b _ Hs. by apply idle_ok.
Qed.

Lemma mux_run_ok l : forall l0 m m', mux_ok l0 m -> mux_run l m = Some m' -> mux_ok (l0 ++ l) m'.
Proof.
  induction l as [|a l IH]; intros l0 m m' Hok E; cbn in E; [injection E as <-; by rewrite app_nil_r|].
  destruct (mux_step a m) as [m1|] eqn:Es; [|done]. replace (l0 ++ a :: l) with ((l0 ++ [a]) ++ l) by by rewrite <- app_assoc.
  eapply IH; [by eapply mux_step_ok|done].
Qed.

Lemma new_mux_ok : mux_ok [] newEventMux.
Proof. by split. Qed.

(** ** The peer watch: what a sweep finds *)

(** Why a peer is to go, as the comments of tick have it: no usable snapshot, and no
    snapshot channel, or an offer below the floor, or no offer in its grace. *)
Definition useless (c : watchConfig) (e : watch_env) (w : peerWatch) (p : ID) : Prop :=
  exists first, firstSeen w !! p = Some first /\ there e p = true /\ p ∉ useful w /\
    ((requireStateSyncChannel c = true /\ there_again e p = true /\ snapshot_channel e p <> Some true) \/
     p ∈ outOfRange w \/ grace c <= t_now e - first).

Section Sweeps.
Context (c : watchConfig) (e : watch_env).

Lemma verdict_useless w p first : firstSeen w !! p = Some first -> there e p = true ->
  (exists reason, verdict c e w p first = Some reason) <-> useless c e w p.
Proof.
  intros Hf Ht. unfold useless. split.
  - intros [reason Hv]. exists first. do 2 (split; [done|]). unfold verdict in Hv.
    destruct (bool_decide_reflect (p ∈ useful w)); [done|]. split; [done|].
    destruct (requireStateSyncChannel c && there_again e p) eqn:Er.
    + apply andb_true_iff in Er as [Hr Ha].
      destruct (snapshot_channel e p) as [[]|] eqn:Es; [|by left|by left]. right.
      destruct (bool_decide_reflect (p ∈ outOfRange w)); [by left|]. right. destruct (Z.ltb_spec (t_now e - first) (grace c)); [done|lia].
    + right. destruct (bool_decide_reflect (p ∈ outOfRange w)); [by left|]. right. destruct (Z.ltb_spec (t_now e - first) (grace c)); [done|lia].
  - intros (first' & Hf' & _ & Hu & Hwhy). rewrite Hf in Hf'. injection Hf' as <-. unfold verdict.
    rewrite bool_decide_eq_false_2 by done.
    destruct (if requireStateSyncChannel c && there_again e p then _ else _) as [[]|] eqn:Er; [|by eexists..].
    destruct Hwhy as [(Hr & Ha & Hs)|Hwhy].
    { rewrite Hr, Ha in Er. done. }
    destruct (bool_decide_reflect (p ∈ outOfRange w)) as [|Ho]; [by eexists|].
    destruct Hwhy as [|Hw]; [done|]. destruct (Z.ltb_spec (t_now e - first) (grace c)); [lia|]. by eexists.
Qed.

(** The state of a sweep after it visited [done]. *)
Record swept (w0 : peerWatch) (visited : list ID) (x : list (ID * bytes) * peerWatch) : Prop := {
  sw_same : useful x.2 = useful w0 /\ outOfRange x.2 = outOfRange w0 /\ w_banned x.2 = w_banned w0;
  sw_seen : forall p, firstSeen x.2 !! p = if decide (p ∈ visited /\ there e p = false) then None else firstSeen w0 !! p;
  sw_pending : x.1 = omap (fun p => first ← firstSeen w0 !! p;
                                    if there e p then pair p <$> verdict c e w0 p first else None) visited
}.

Lemma verdict_same w w' p first : useful w = useful w' -> outOfRange w = outOfRange w' ->
  verdict c e w p first = verdict c e w' p first.
Proof. unfold verdict. by intros -> ->. Qed.

Lemma sweep_one_ok w0 visited x p : p ∉ visited -> swept w0 visited x -> swept w0 (visited ++ [p]) (sweep_one c e x p).
Proof.
  intros Hp [(Hu & Ho & Hb) Hs Hx]. destruct x as [out w]. cbn in *. unfold sweep_one.
  rewrite Hs. rewrite decide_False by naive_solver.
  assert (Hv : forall q, (q ∈ visited ++ [p]) <-> q ∈ visited \/ q = p) by (intros; rewrite elem_of_app, list_elem_of_singleton; done).
  destruct (firstSeen w0 !! p) as [first|] eqn:Ef.
  2: { split; [done| |rewrite omap_app; cbn; by rewrite Ef, app_nil_r]. intros q. cbn. rewrite Hs.
       repeat destruct (decide _); rewrite Hv in *; try done; naive_solver. }
  destruct (there e p) eqn:Et; cbn.
  - rewrite (verdict_same w w0) by done.
    assert (Hseen : forall q, firstSeen w !! q = if decide (q ∈ visited ++ [p] /\ there e q = false) then None else firstSeen w0 !! q).
    { intros q. rewrite Hs. repeat destruct (decide _); rewrite Hv in *; try done; naive_solver congruence. }
    destruct (verdict c e w0 p first) as [reason|] eqn:Ev; split; try done; cbn; rewrite omap_app; cbn; rewrite Ef; cbn; rewrite Et, Ev; cbn; [by f_equal|by rewrite app_nil_r].
  - split; cbn; [done| |rewrite omap_app; cbn; rewrite Ef; cbn; by rewrite Et, app_nil_r].
    intros q. destruct (decide (q = p)) as [->|Hq].
    + rewrite lookup_delete_eq, decide_True; [done|]. by rewrite Hv; auto.
    + rewrite lookup_delete_ne, Hs by done. repeat destruct (decide _); rewrite Hv in *; try done; naive_solver.
Qed.

Lemma sweep_ok w0 order : forall visited x, NoDup (visited ++ order) -> swept w0 visited x ->
  swept w0 (visited ++ order) (fold_left (sweep_one c e) order x).
Proof.
  induction order as [|p order IH]; intros visited x Hnd Hok; cbn; [by rewrite app_nil_r|].
  replace (visited ++ p :: order) with ((visited ++ [p]) ++ order) by by rewrite <- app_assoc.
  apply IH; [by rewrite <- app_assoc|]. apply sweep_one_ok; [|done].
  apply NoDup_app in Hnd as (_ & Hd & _). intros Hin. apply (Hd p Hin). by left.
Qed.

Lemma sweep_spec w order : minHeight c <> 0 -> visit_ok order w = true ->
  swept w order (sweep c e order w).
Proof.
  intros Hm Hv. apply bool_decide_eq_true_1 in Hv as [Hnd _]. unfold sweep.
  destruct (Z.eqb_spec (minHeight c) 0) as [|]; [done|]. apply (sweep_ok w order [] ([], w)); [done|].
  by split.
Qed.

Lemma pending_fst w order : (omap (fun p => first ← firstSeen w !! p;
    if there e p then pair p <$> verdict c e w p first else None) order).*1 `sublist_of` order.
Proof.
  induction order as [|p order IH]; [done|]. cbn.
  destruct (firstSeen w !! p) as [first|]; cbn; [|by constructor].
  destruct (there e p); [|by constructor]. destruct (verdict c e w p first); cbn; by constructor.
Qed.
End Sweeps.

(** ** The peer watch: runs *)

(** The event is an offer at the floor or above. *)
Definition usable (c : watchConfig) (ev : Event) : Prop :=
  Reactor.Connected ev = false /\ Reactor.Removed ev = false /\
  exists s, e_Snapshot ev = Some s /\ (minHeight c = 0 \/ minHeight c <= Height s).

(** The peer is marked, and no eviction of it is on the way. *)
Definition spared (p : ID) (s : wsys) : Prop := p ∈ useful (watch s) /\ p ∉ (pending s).*1.

Section Runs.
Context (c : watchConfig).

Lemma on_event_usable now ev w : usable c ev -> on_event c now ev w = markUseful (PeerID ev) w.
Proof.
  intros (Hc & Hr & s & Hs & Hh). unfold on_event. rewrite Hc, Hr, Hs.
  assert ((minHeight c =? 0) || (minHeight c <=? Height s) = true) as ->; [|done].
  apply orb_true_iff. destruct Hh; [left|right]; lia.
Qed.

Lemma on_event_useful now ev w : useful w ⊆ useful (on_event c now ev w).
Proof.
  unfold on_event, onConnect. repeat case_match; try done; apply union_subseteq_r.
Qed.

Lemma pending_useless e order w p reason : minHeight c <> 0 -> visit_ok order w = true ->
  (p, reason) ∈ (sweep c e order w).1 -> useless c e w p.
Proof.
  intros Hm Hv Hin. rewrite (sw_pending _ _ _ _ _ (sweep_spec c e w order Hm Hv)) in Hin.
  apply list_elem_of_omap in Hin as (q & Hq & Hx).
  destruct (firstSeen w !! q) as [first|] eqn:Ef; [|done]. cbn in Hx.
  destruct (there e q) eqn:Et; [|done]. destruct (verdict c e w q first) as [r|] eqn:Ev; [|done].
  injection Hx as -> ->. eapply verdict_useless; eauto.
Qed.

(** A tick leaves the marks alone. *)
Lemma sweep_keeps e order w : useful (sweep c e order w).2 = useful w /\ w_banned (sweep c e order w).2 = w_banned w.
Proof.
  unfold sweep. case_match; [done|]. change (useful w) with (useful ([] : list (ID * bytes), w).2).
  change (w_banned w) with (w_banned ([] : list (ID * bytes), w).2).
  generalize ([] : list (ID * bytes), w). induction order as [|p order IH]; intros x; [done|]. cbn.
  assert (Hone : useful (sweep_one c e x p).2 = useful x.2 /\ w_banned (sweep_one c e x p).2 = w_banned x.2).
  { unfold sweep_one. destruct x as [out w0]. repeat case_match; done. }
  destruct (IH (sweep_one c e x p)) as [-> ->]. exact Hone.
Qed.

Lemma spared_step i s s' p : spared p s -> watch_step c i s = Some s' ->
  spared p s' /\ exists new, by_tick s' = by_tick s ++ new /\ p ∉ new.*1.
Proof.
  intros [Hu Hp] E. destruct i as [now ev|e order|there_still|q reason]; cbn [watch_step] in E.
  - destruct (pending s) eqn:Ep; [|done]. injection E as <-. split; [|exists []; rewrite app_nil_r; cbn; split; [done|set_solver]].
    split; cbn; [by apply on_event_useful|set_solver].
  - destruct (pending s) eqn:Ep; [|done]. destruct (visit_ok order (watch s)) eqn:Ev; [|done].
    destruct (sweep c e order (watch s)) as [out w] eqn:Es. injection E as <-.
    split; [|exists []; rewrite app_nil_r; cbn; split; [done|set_solver]]. pose proof (sweep_keeps e order (watch s)) as [Hk _].
    rewrite Es in Hk. split; cbn in *; [by rewrite Hk|].
    intros ([q reason] & -> & Hin)%list_elem_of_fmap. cbn in Hu.
    destruct (decide (minHeight c = 0)) as [Hz|Hz].
    + unfold sweep in Es. rewrite Hz in Es. cbn in Es. injection Es as <- <-. set_solver.
    + destruct (pending_useless e order (watch s) q reason Hz Ev) as (first & _ & _ & Hn & _); [by rewrite Es|done].
  - destruct there_still; destruct (pending s) as [|[q reason] rest] eqn:Ep; try done; injection E as <-.
    + split; [split; cbn in *; set_solver|]. exists [(q, reason)]. split; [done|]. set_solver.
    + split; [split; cbn in *; set_solver|]. exists []. rewrite app_nil_r. split; [done|set_solver].
  - injection E as <-. split; [by split|]. exists []. split; [done|set_solver].
Qed.

Lemma spared_run l : forall s s' p, spared p s -> watch_run c l s = Some s' ->
  exists new, by_tick s' = by_tick s ++ new /\ p ∉ new.*1.
Proof.
  induction l as [|i l IH]; intros s s' p Hs E; cbn in E.
  - injection E as <-. exists []. rewrite app_nil_r. split; [done|set_solver].
  - destruct (watch_step c i s) as [s1|] eqn:E1; [|done]. destruct (spared_step _ _ _ _ Hs E1) as (Hs1 & n1 & H1 & Hn1).
    destruct (IH _ _ _ Hs1 E) as (n2 & H2 & Hn2). exists (n1 ++ n2). split; [by rewrite H2, H1, app_assoc|].
    rewrite fmap_app. set_solver.
Qed.

(** Everyone the watch has banned was stopped, marked in the book and reported. *)
Definition bans_done (s : wsys) : Prop := forall p, p ∈ w_banned (watch s) ->
  FStop p ∈ effects s /\ (w_has_book c = true -> FMarkBad p ∈ effects s) /\
  (w_has_mgr c = true -> exists reason, FBan p reason ∈ effects s).

Lemma do_ban_done p reason rest tk s : bans_done s -> bans_done (do_ban c p reason rest tk s).
Proof.
  intros Hok q. unfold do_ban. cbn. intros [<-%elem_of_singleton|Hq]%elem_of_union.
  - split_and!; [set_solver|intros ->; set_solver|intros ->]. exists reason. set_solver.
  - destruct (Hok q Hq) as (Hs & Hb & Hm). split_and!; [set_solver|intros; set_solver|].
    intros H. destruct (Hm H) as [r Hr]. exists r. set_solver.
Qed.

Lemma bans_done_step i s s' : bans_done s -> watch_step c i s = Some s' -> bans_done s'.
Proof.
  intros Hok E. destruct i as [now ev|e order|[]|q reason]; cbn [watch_step] in E.
  - destruct (pending s); [|done]. injection E as <-. intros p Hp. apply Hok. cbn in Hp.
    unfold on_event, onConnect in Hp. repeat case_match; done.
  - destruct (pending s); [|done]. destruct (visit_ok order (watch s)); [|done].
    pose proof (sweep_keeps e order (watch s)) as [_ Hk]. destruct (sweep c e order (watch s)) as [out w].
    injection E as <-. intros p Hp. apply Hok. cbn in *. by rewrite <- Hk.
  - destruct (pending s) as [|[q reason] rest]; [done|]. injection E as <-. by apply do_ban_done.
  - destruct (pending s) as [|x rest]; [done|]. injection E as <-. exact Hok.
  - injection E as <-. by apply do_ban_done.
Qed.

Lemma bans_done_run l : forall s s', bans_done s -> watch_run c l s = Some s' -> bans_done s'.
Proof.
  induction l as [|i l IH]; intros s s' Hs E; cbn in E; [by injection E as <-|].
  destruct (watch_step c i s) as [s1|] eqn:E1; [|done]. eapply IH; [|done]. by eapply bans_done_step.
Qed.
End Runs.

(** ** Main theorems *)

(** C30: Each subscriber gets, on each of its queues, exactly the events that were fanned
    out to it since it subscribed while its own queue had room - fewer than 256 control
    events, or 8 chunk events, accepted and not yet taken - whatever the other
    subscribers do: what it has taken, followed by what still waits, is the list of
    those events, in the order of the fan-out and each once.  So nothing is lost as
    long as no more events come than its queue holds.  A control-only subscriber gets
    no chunk. *)
Theorem events_fanned_out l m i s b :
  mux_run l newEventMux = Some m -> subs m !! i = Some s -> omap sub_of l !! i = Some b ->
  let ctrl_ops := omap (ctrl_op i) (since i l) in
  let chunk_ops := omap (chunk_op i) (since i l) in
  got s ++ ctrl s = accepted 256 ctrl_ops /\ len (ctrl s) <= 256 /\
  (got s ++ ctrl s) `sublist_of` omap offered ctrl_ops /\
  (len (omap offered ctrl_ops) <= 256 -> got s ++ ctrl s = omap offered ctrl_ops) /\
  match chunk s with
  | Some q => b = true /\ gotChunks s ++ q = accepted 8 chunk_ops /\ len q <= 8 /\
      (gotChunks s ++ q) `sublist_of` omap offered chunk_ops /\
      (len (omap offered chunk_ops) <= 8 -> gotChunks s ++ q = omap offered chunk_ops)
  | None => b = false /\ gotChunks s = []
  end.
Proof.
  change 256 with subCtrlBuffer. change 8 with subChunkBuffer. intros E Hi Hb. destruct (mux_run_ok l [] _ _ new_mux_ok E) as [_ Hs]. cbn in Hs.
  destruct (Hs i s b Hi Hb) as [[Ec Hc] Hk]. cbv zeta.
  assert (Eg : got s ++ ctrl s = accepted subCtrlBuffer (omap (ctrl_op i) (since i l))) by (unfold accepted; by rewrite Ec).
  rewrite Eg. destruct (accepted_in_order subCtrlBuffer (omap (ctrl_op i) (since i l))). split_and!; try done.
  destruct (chunk s) as [q|]; [|done]. destruct Hk as [-> [Ek Hk]].
  assert (Eq : gotChunks s ++ q = accepted subChunkBuffer (omap (chunk_op i) (since i l))) by (unfold accepted; by rewrite Ek).
  rewrite Eq. by destruct (accepted_in_order subChunkBuffer (omap (chunk_op i) (since i l))).
Qed.

(** A tick puts up for eviction exactly the connected peers without a
    usable offer that lack the snapshot channel, or have offered something below the
    floor, or have used up their grace; each once, whatever the order of the map; it
    forgets the peers that are gone and no other. *)
Theorem tick_evicts_useless c e order s s' :
  minHeight c <> 0 -> watch_step c (ITick e order) s = Some s' ->
  (forall p, p ∈ (pending s').*1 <-> useless c e (watch s) p) /\ NoDup (pending s').*1 /\
  (forall p, firstSeen (watch s') !! p = (if there e p then firstSeen (watch s) !! p else None)) /\
  w_banned (watch s') = w_banned (watch s).
Proof.
  intros Hm E. cbn in E. destruct (pending s); [|done]. destruct (visit_ok order (watch s)) eqn:Hv; [|done].
  destruct (sweep_spec c e (watch s) order Hm Hv) as [(_ & _ & Hb) Hs Hp].
  destruct (sweep c e order (watch s)) as [out w] eqn:Es. injection E as <-. cbn in *.
  pose proof (bool_decide_eq_true_1 _ Hv) as [Hnd Hdom].
  assert (Hin : forall p first, firstSeen (watch s) !! p = Some first -> p ∈ order).
  { intros p first Hf. apply elem_of_dom_2 in Hf. rewrite <- Hdom in Hf. by apply elem_of_list_to_set in Hf. }
  split_and!; [..|done].
  - intros p. split.
    + intros ([q reason] & -> & Hq)%list_elem_of_fmap.
      apply (pending_useless c e order (watch s) q reason Hm Hv). by rewrite Es.
    + intros Hu. destruct Hu as (first & Hf & Ht & Hrest).
      assert (Hu : useless c e (watch s) p) by (by exists first).
      destruct (proj2 (verdict_useless c e (watch s) p first Hf Ht) Hu) as [reason Hr].
      apply list_elem_of_fmap. exists (p, reason). split; [done|]. rewrite Hp. apply list_elem_of_omap.
      exists p. split; [by eapply Hin|]. rewrite Hf. cbn. by rewrite Ht, Hr.
  - rewrite Hp. eapply sublist_NoDup; [exact Hnd|apply pending_fst].
  - intros p. rewrite Hs. destruct (decide _) as [[Hi Ht]|Hn]; [by rewrite Ht|].
    destruct (there e p) eqn:Et; [done|]. destruct (firstSeen (watch s) !! p) as [first|] eqn:Ef; [|done].
    destruct Hn. split; [by eapply Hin|done].
Qed.

(** C31: A peer that has made an offer at the floor or above is never evicted
    by a tick afterwards, through reconnects and later offers below the floor. *)
Theorem useful_never_evicted c l1 now ev l2 s s' :
  watch_run c (l1 ++ [IEvent now ev]) start = Some s -> usable c ev -> watch_run c l2 s = Some s' ->
  exists new, by_tick s' = by_tick s ++ new /\ PeerID ev ∉ new.*1.
Proof.
  intros H1 Hu H2. apply (spared_run c l2 s s'); [|done].
  assert (Hsplit : forall l s0, watch_run c (l ++ [IEvent now ev]) s0 = Some s -> exists s1, watch_step c (IEvent now ev) s1 = Some s).
  { induction l as [|i l IH]; intros s0 E; cbn [app watch_run] in E.
    - destruct (watch_step c (IEvent now ev) s0) as [s1|] eqn:Es; [|done]. exists s0. by injection E as <-.
    - destruct (watch_step c i s0); [by eapply IH|done]. }
  destruct (Hsplit l1 start H1) as [s1 Hs]. cbn in Hs. destruct (pending s1) eqn:Ep; [|done]. injection Hs as <-.
  split; cbn; [|set_solver]. rewrite on_event_usable by done. cbn. set_solver.
Qed.

(** Everything the watch has banned was disconnected, marked bad in the
    book and reported to the manager; and a ban the manager takes in (for a peer it
    has not banned and is not visiting) ends the dials: in every run that follows
    without a new pin of the peer, no dial goes to it. *)
Theorem evicted_not_dialed id_of shuffle c lw w p mc l0 m l m' reason :
  w_has_mgr c = true -> watch_run c lw start = Some w -> p ∈ w_banned (watch w) ->
  reaches shuffle mc l0 m -> p ∉ banned (mgr m) -> p ∉ (snapshot m).*1 ->
  forall e, execs (defaults mc) ((e, ABan p reason) :: l) m = Some m' ->
  Forall (action_ok id_of) (l0 ++ (e, ABan p reason) :: l) -> (forall e ad, (e, APin p ad) ∉ l) ->
  (FStop p ∈ effects w /\ exists r, FBan p r ∈ effects w) /\
  exists new, log m' = log m ++ new /\ forall na, na ∈ launches new -> na_ID na <> p.
Proof.
  intros Hmgr Hw Hp Hr Hnb Hns e Hrun Hall Hpin. split.
  { destruct (bans_done_run c lw start w) with (p := p) as (Hs & _ & Hm); [intros ? ?; set_solver|done..|]. auto. }
  apply Forall_app in Hall as [H0 [Ha Hl]%Forall_cons].
  assert (Hs : mgr_ok (defaults mc) m /\ pins_ok id_of m).
  { eapply (execs_invariant (defaults mc) (fun s => mgr_ok (defaults mc) s /\ pins_ok id_of s) (action_ok id_of)); [|exact H0| |exact Hr].
    - intros e' a s1 s2 Hact [Hok Hpi] E. split; [by eapply exec_ok|by eapply exec_pins].
    - split; [apply init_ok|]. by split; [|set_solver]. }
  destruct Hs as [Hok Hpins]. cbn [execs] in Hrun. destruct (exec (defaults mc) e (ABan p reason) m) as [m1|] eqn:E1; [|done].
  assert (Hout : out_of_reach p m1).
  { cbn in E1. unfold Ban in E1. rewrite bool_decide_eq_false_2 in E1 by done. injection E1 as <-.
    split_and!; cbn; [set_solver|apply lookup_delete_eq|done]. }
  assert (Hlog : exists x, log m1 = log m ++ x /\ launches x = []).
  { cbn in E1. injection E1 as <-. eexists. split; [done|]. by case_match. }
  destruct (run_no_dial (defaults mc) id_of l p m1 m' Hl Hpin) as (new & Hnew & Hd); [by eapply exec_ok|by eapply exec_pins|done..|].
  destruct Hlog as (x & Hx & Hlx). exists (x ++ new). split; [by rewrite Hnew, Hx, app_assoc|].
  intros na. rewrite launches_app, Hlx. apply Hd.
Qed.

(** ** Samples *)

Definition joins (p : ID) : Event := mkEvent p None None true false.
Definition leaves (p : ID) : Event := mkEvent p None None false true.
Definition offers (p : ID) (h : Z) : Event := mkEvent p (Some (mkSnapshot h 1 1 [] [])) None false false.
Definition chunk_ev (p : ID) : Event := mkEvent p None (Some (mkChunkInfo 1 1 0 0 [] false)) false false.

(** A slow chunk consumer loses chunks of its own only. *)
Definition sample_mux : list mux_action :=
  [MCtrl (joins (str "z")); MSubscribe true; MSubscribe false; MCtrl (joins (str "p"))] ++
  repeat (MChunk (chunk_ev (str "p"))) 9 ++ [MTake 1; MTakeChunk 0; MCtrl (leaves (str "p"))].

Definition mux_of (l : list mux_action) : eventMux := default newEventMux (mux_run l newEventMux).

Definition sample_sub : subEntry := default subscribe (subs (mux_of sample_mux) !! 0%nat).

Lemma events_fanned_out_witness :
  got sample_sub ++ ctrl sample_sub = [joins (str "p"); leaves (str "p")] /\
  got sample_sub ++ ctrl sample_sub = omap offered (omap (ctrl_op 0) (since 0 sample_mux)) /\
  len (gotChunks sample_sub ++ default [] (chunk sample_sub)) = 8.
Proof.
  split; [vm_compute; reflexivity|].
  destruct (events_fanned_out sample_mux (mux_of sample_mux) 0 sample_sub true) as (_ & _ & _ & H & _); [vm_compute; reflexivity..|].
  split; [apply H; vm_compute; discriminate|vm_compute; reflexivity].
Defined.

Definition floor100 : watchConfig := mkWatchConfig true true 100 30 false.
Definition all_there : watch_env := mkWEnv 10 (fun _ => true) (fun _ => true) (fun _ => Some true).

Definition sample_watch : list input :=
  [IEvent 0 (joins (str "p")); IEvent 1 (joins (str "q")); IEvent 2 (joins (str "r"));
   IEvent 3 (offers (str "q") 50); IEvent 4 (offers (str "p") 50); IEvent 5 (offers (str "p") 200)].
Definition sample_order : list ID := [str "r"; str "q"; str "p"].
Definition sample_later : list input :=
  [ITick all_there sample_order; IEvict true; IEvent 11 (offers (str "p") 60);
   ITick (mkWEnv 99 (fun _ => true) (fun _ => true) (fun _ => Some true)) [str "p"; str "r"]; IEvict true].

Definition watch_of (l : list input) : wsys := default start (watch_run floor100 l start).

Example sample_evictions : (by_tick (watch_of (sample_watch ++ sample_later))).*1 = [str "q"; str "r"].
Proof. vm_compute. reflexivity. Qed.

Lemma watch_run_app c l1 l2 : forall s, watch_run c (l1 ++ l2) s = watch_run c l1 s ≫= watch_run c l2.
Proof. induction l1 as [|i l1 IH]; intros s; cbn; [done|]. destruct (watch_step c i s); [apply IH|done]. Qed.

Definition watches (l : list input) : bool := match watch_run floor100 l start with Some _ => true | None => false end.

Lemma watch_of_run l : watches l = true -> watch_run floor100 l start = Some (watch_of l).
Proof. unfold watches, watch_of. by destruct (watch_run _ l _). Qed.

Lemma watch_of_app l1 l2 : watches l1 = true -> watches (l1 ++ l2) = true ->
  watch_run floor100 l2 (watch_of l1) = Some (watch_of (l1 ++ l2)).
Proof.
  unfold watches, watch_of. rewrite watch_run_app. destruct (watch_run _ l1 _) as [s1|]; [|done]. cbn.
  by destruct (watch_run _ l2 s1).
Qed.

Lemma tick_evicts_useless_witness :
  (pending (watch_of (sample_watch ++ [ITick all_there sample_order]))).*1 = [str "q"] /\
  forall p, p ∈ (pending (watch_of (sample_watch ++ [ITick all_there sample_order]))).*1 <->
            useless floor100 all_there (watch (watch_of sample_watch)) p.
Proof.
  split; [vm_compute; reflexivity|].
  apply (tick_evicts_useless floor100 all_there sample_order (watch_of sample_watch)); [done|].
  assert (H : watch_run floor100 [ITick all_there sample_order] (watch_of sample_watch) = Some (watch_of (sample_watch ++ [ITick all_there sample_order])))
    by (apply watch_of_app; vm_compute; reflexivity).
  cbn [watch_run] in H. by destruct (watch_step _ _ _).
Defined.

Lemma useful_never_evicted_witness :
  exists new, by_tick (watch_of (sample_watch ++ sample_later)) = by_tick (watch_of sample_watch) ++ new /\ str "p" ∉ new.*1.
Proof.
  apply (useful_never_evicted floor100 (take 5 sample_watch) 5 (offers (str "p") 200) sample_later).
  - apply (watch_of_run sample_watch). vm_compute. reflexivity.
  - split_and!; [done..|]. exists (mkSnapshot 200 1 1 [] []). split; [done|]. right. cbn. lia.
  - apply watch_of_app; vm_compute; reflexivity.
Defined.

Definition sample_banned : list (env * action) := (sample_env 0 [], ABan (str "q") []) :: sample_after.

Lemma evicted_not_dialed_witness :
  exists new, log (run_of ((sample_start ++ sample_more) ++ sample_banned)) = log (run_of (sample_start ++ sample_more)) ++ new /\
    forall na, na ∈ launches new -> na_ID na <> str "q".
Proof.
  apply (evicted_not_dialed addr_id id floor100 (sample_watch ++ sample_later) (watch_of (sample_watch ++ sample_later))
    (str "q") sample_config (sample_start ++ sample_more) (run_of (sample_start ++ sample_more)) sample_after
    (run_of ((sample_start ++ sample_more) ++ sample_banned)) [] eq_refl) with (e := sample_env 0 []).
  - apply watch_of_run. vm_compute. reflexivity.
  - by apply (bool_decide_unpack _); vm_compute.
  - apply run_reaches. vm_compute. reflexivity.
  - by apply (bool_decide_unpack _); vm_compute.
  - by apply (bool_decide_unpack _); vm_compute.
  - apply (run_from (sample_start ++ sample_more) sample_banned); vm_compute; reflexivity.
  - apply sample_actions_ok; [vm_compute; reflexivity|]. repeat constructor; by eexists _, _.
  - intros e ad Hel. apply list_elem_of_In in Hel. cbn in Hel. naive_solver.
Defined.

(** A peer whose Connected event was lost is not watched: it is never evicted, however
    long it stays and whatever it offers. *)
Example unseen_peer_stays :
  by_tick (watch_of [IEvent 0 (offers (str "q") 50);
    ITick (mkWEnv 1000 (fun _ => true) (fun _ => true) (fun _ => Some false)) []]) = [] /\
  firstSeen (watch (watch_of [IEvent 0 (offers (str "q") 50)])) !! str "q" = None.
Proof. by vm_compute. Qed.
