(* ===== verification/DiffSync.v ===== *)
(** * The state-sync diff (internal/snapshotdiff: format.go, statesync*.go, and the chunk writer of apply.go)

    A CSDS diff is the item stream of a target snapshot written as references into
    the items of a base snapshot, by hash, and literals.  The main theorems: the
    headers of both diff formats read back; applying a diff to its base writes the
    target's stream again, cut into the same chunk files with the same hashes; a
    body that stops early is never taken for a whole one; how the compressor's
    output is split over writes does not change the chunk files. *)

From S2P Require Import Prelude Sha256 Varint IavlEnc CommitInfo Importer SnapProto Walk Serve RunImport.
From S2P Require Streams Scheduler.

(** ** Headers *)

Definition Magic : bytes := str "CSDF".
Definition FormatVersion : Z := 1.
Definition StateSyncMagic : bytes := str "CSDS".
Definition StateSyncFormatVersion : Z := 1.
Definition OpRef : Z := 0.
Definition OpLiteral : Z := 1.
Definition CosmosSDKChunkSize : Z := Z.shiftl 10 20.

(** [binary.LittleEndian]. *)
Definition le_bytes (n : nat) (v : Z) : bytes := rev (be_bytes n v).
Definition le_value (b : bytes) : Z := be_value (rev b).

Record FileHeader := mkHeader {
  BaseHeight : Z;
  TargetHeight : Z;
  BaseHashHex : bytes;
  TargetHashHex : bytes
}.

Record StateSyncHeader := mkSSHeader { ss_file : FileHeader; TargetItemCount : Z }.

Definition writeLenPrefixed (b : bytes) : bytes := le_bytes 4 (u32 (len b)) ++ b.

Definition WriteHeader (h : FileHeader) : bytes :=
  Magic ++ [byte.of_Z FormatVersion] ++ le_bytes 8 (BaseHeight h) ++ le_bytes 8 (TargetHeight h) ++
  writeLenPrefixed (BaseHashHex h) ++ writeLenPrefixed (TargetHashHex h).

Definition WriteStateSyncHeader (h : StateSyncHeader) : bytes :=
  StateSyncMagic ++ [byte.of_Z StateSyncFormatVersion] ++ le_bytes 8 (BaseHeight (ss_file h)) ++ le_bytes 8 (TargetHeight (ss_file h)) ++
  writeLenPrefixed (BaseHashHex (ss_file h)) ++ writeLenPrefixed (TargetHashHex (ss_file h)) ++
  le_bytes 8 (TargetItemCount h).

Definition readLenPrefixed : M source bytes :=
  buf ← ReadFull 4;
  let n := le_value buf in
  if Z.shiftl 1 20 <? n then fail (Errorf "len-prefix unreasonably large") else ReadFull n.

Definition ReadHeader : M source FileHeader :=
  magic ← wrap_err "read magic" (ReadFull 4);
  if negb (bool_decide (magic = Magic)) then fail (Errorf "bad magic") else
  ver ← wrap_err "read version" (ReadFull 1);
  if negb (bool_decide (ver = [byte.of_Z FormatVersion])) then fail (Errorf "unknown diff format version") else
  b ← ReadFull 8;
  t ← ReadFull 8;
  bh ← readLenPrefixed;
  th ← readLenPrefixed;
  mret (mkHeader (le_value b) (le_value t) bh th).

Definition ReadStateSyncHeader : M source StateSyncHeader :=
  magic ← wrap_err "read magic" (ReadFull 4);
  if negb (bool_decide (magic = StateSyncMagic)) then fail (Errorf "bad magic") else
  ver ← ReadFull 1;
  if negb (bool_decide (ver = [byte.of_Z StateSyncFormatVersion])) then fail (Errorf "unknown CSDS format version") else
  b ← ReadFull 8;
  t ← ReadFull 8;
  bh ← readLenPrefixed;
  th ← readLenPrefixed;
  n ← ReadFull 8;
  mret (mkSSHeader (mkHeader (le_value b) (le_value t) bh th) (le_value n)).

(** ** The output directory: chunk files *)

(** A directory is a map from file names to contents; writes to it succeed. *)
Abbreviation dir := (gmap bytes bytes).

Record chunkWriter := mkCW {
  cw_dir : dir;
  chunkSize : Z;
  cur : option bytes;
  hasher : bytes;
  curWritten : Z;
  chunkIdx : Z;
  chunkHashes : list bytes;
  totalWritten : Z
}.

Definition newChunkWriter (d : dir) (size : Z) : chunkWriter := mkCW d size None [] 0 0 [] 0.

(** [os.Create] truncates; the hash is of everything written since. *)
Definition openNext (c : chunkWriter) : chunkWriter :=
  let name := Scheduler.chunk_name (chunkIdx c) in
  mkCW (<[name := []]> (cw_dir c)) (chunkSize c) (Some name) [] 0 (chunkIdx c) (chunkHashes c) (totalWritten c).

Definition closeCurrent (c : chunkWriter) : chunkWriter :=
  match cur c with
  | None => c
  | Some _ => mkCW (cw_dir c) (chunkSize c) None (hasher c) (curWritten c) (chunkIdx c + 1)
                (chunkHashes c ++ [sha256 (hasher c)]) (totalWritten c)
  end.

Definition append_file (name p : bytes) (d : dir) : dir := <[name := default [] (d !! name) ++ p]> d.

Definition opened (c : chunkWriter) : chunkWriter :=
  match cur c with None => openNext c | Some _ => c end.

(** One turn of the loop in [Write]: what is left of [p]. *)
Definition write_some (p : bytes) (c : chunkWriter) : bytes * chunkWriter :=
  let c := opened c in
  let room := chunkSize c - curWritten c in
  let n := Z.to_nat (if room <? len p then room else len p) in
  let q := take n p in
  let c := mkCW (append_file (default [] (cur c)) q (cw_dir c)) (chunkSize c) (cur c) (hasher c ++ q)
             (curWritten c + Z.of_nat n) (chunkIdx c) (chunkHashes c) (totalWritten c + Z.of_nat n) in
  (drop n p, if chunkSize c <=? curWritten c then closeCurrent c else c).

(** A turn writes at least a byte when the chunk size is positive. *)
Fixpoint Write_loop (fuel : nat) (p : bytes) (c : chunkWriter) : outcome chunkWriter :=
  match p with
  | [] => Ret c
  | _ => match fuel with
         | O => NoFuel
         | S fuel => let '(p, c) := write_some p c in Write_loop fuel p c
         end
  end.

Definition Write (p : bytes) (c : chunkWriter) : outcome chunkWriter := Write_loop (length p) p c.

Fixpoint write_all (ps : list bytes) (c : chunkWriter) : outcome chunkWriter :=
  match ps with
  | [] => Ret c
  | p :: ps => c ← Write p c; write_all ps c
  end.

Definition computeSnapshotHash (hs : list bytes) : bytes := hexEncode (sha256 (concat hs)).
Definition hexHashes (hs : list bytes) : list bytes := map hexEncode hs.

Definition encodeMetadataProto (hs : list bytes) : bytes :=
  concat (map (fun h => byte.of_Z 10 :: PutUvarint (len h) ++ h) hs).

(** ** Reading a snapshot directory *)

(** What the code relies on of zlib: what the writer hands down, write by write,
    inflates to what it was given, with a clean end. *)
Class Zlib := {
  deflate : bytes -> list bytes;
  inflate : bytes -> outcome source;
  inflate_deflate d : inflate (concat (deflate d)) = Ret (Source d EOF)
}.

(** [make([]byte, n)] above the address space of the run time. *)
Definition maxAlloc : Z := 2 ^ 48.
Definition go_make (n : Z) : M source unit :=
  if maxAlloc <? n then panic "makeslice: len out of range" else mret tt.

Definition listChunkPaths (d : dir) : outcome (list bytes) :=
  let out := Streams.listChunks (merge_sort bytes_le (map fst (map_to_list d))) in
  if bool_decide (out = []) then Err (Errorf "no chunk files") else Ret out.

Fixpoint open_files (d : dir) (paths : list bytes) : outcome (list bytes) :=
  match paths with
  | [] => mret []
  | p :: r =>
      match d !! p with
      | None => Err (Errorf "no such file")
      | Some data => rest ← open_files d r; mret (data :: rest)
      end
  end.

Section Readers.
Context `{Zlib}.

(** [newSnapItemReader] and [newStoreReader] open the files alike. *)
Definition newSnapItemReader (d : dir) : outcome source :=
  chunks ← listChunkPaths d;
  files ← open_files d chunks;
  inflate (concat files).
End Readers.

(** [Next] of snapItemReader: [None] at the end of the stream. *)
Fixpoint item_Next_loop (fuel : nat) : M source (option bytes) :=
  match fuel with
  | O => fun s => (NoFuel, s)
  | S fuel => fun s =>
      match ReadUvarint s with
      | (Ret length, s1) =>
          (if length =? 0 then item_Next_loop fuel
           else _ ← go_make length; buf ← ReadFull length; mret (Some buf)) s1
      | (Err EOF, s1) => (Ret None, s1)
      | (Err e, s1) => (Err e, s1)
      | (Panic w, s1) => (Panic w, s1)
      | (NoFuel, s1) => (NoFuel, s1)
      end
  end.
Definition item_Next : M source (option bytes) := fun s => item_Next_loop (S (length (src_data s))) s.

(** ** meta.json *)

Record outMeta := mkOutMeta {
  o_Height : Z;
  o_Format : Z;
  o_Chunks : Z;
  o_HashHex : bytes;
  o_BytesTotal : Z;
  o_ChunkHashesHex : list bytes
}.

(** The strings of a meta.json are hexadecimal; encoding/json keeps printable ASCII
    (it replaces what is not UTF-8).  The numbers are those of the Go fields. *)
Definition plain_text (b : bytes) : bool := forallb (fun c => (32 <=? byte.unsigned c) && (byte.unsigned c <=? 126)) b.
Definition meta_texts (m : outMeta) : bool := plain_text (o_HashHex m) && forallb plain_text (o_ChunkHashesHex m).
Definition meta_numbers (m : outMeta) : bool :=
  forallb (fun z => (0 <=? z) && (z <? 2 ^ 64)) [o_Height m; o_Format m; o_Chunks m; o_BytesTotal m].

(** What the code relies on of encoding/json: the struct, with the metadata length when
    it was added, reads back, into a map and as the one field [readSnapHashFromMeta] wants. *)
Class MetaCodec := {
  MarshalIndent : outMeta -> option Z -> bytes;
  Unmarshal : bytes -> outcome (outMeta * option Z);
  DecodeHash : bytes -> outcome bytes;
  Unmarshal_Marshal m n : meta_texts m = true -> meta_numbers m = true -> Unmarshal (MarshalIndent m n) = Ret (m, n);
  DecodeHash_Marshal m n : meta_texts m = true -> DecodeHash (MarshalIndent m n) = Ret (o_HashHex m)
}.

(** A number read into an [interface{}] is a float64: 53 bits, to nearest, ties to even.
    Written again, a number above 2^53 keeps this value but not always its digits. *)
Definition float64 (z : Z) : Z :=
  if z <? 2 ^ 53 then z else
  let p := 2 ^ (Z.log2 z - 52) in
  let q := z / p in
  let r := z mod p in
  (if 2 * r <? p then q else if p <? 2 * r then q + 1 else if Z.even q then q else q + 1) * p.

Definition as_floats (m : outMeta) : outMeta :=
  mkOutMeta (float64 (o_Height m)) (float64 (o_Format m)) (float64 (o_Chunks m)) (o_HashHex m)
    (float64 (o_BytesTotal m)) (o_ChunkHashesHex m).

Lemma hexEncode_plain b : plain_text (hexEncode b) = true.
Proof.
  unfold plain_text, hexEncode. induction b as [|c b IH]; [done|]. cbn [map concat app forallb]. rewrite IH.
  destruct c; reflexivity.
Qed.

Lemma hex_texts hs h f c n : meta_texts (mkOutMeta h f c (computeSnapshotHash hs) n (hexHashes hs)) = true.
Proof.
  unfold meta_texts, computeSnapshotHash, hexHashes. cbn [o_HashHex o_ChunkHashesHex]. rewrite hexEncode_plain. cbn [andb].
  apply forallb_forall. intros x (y & <- & _)%in_map_iff. apply hexEncode_plain.
Qed.

Section Meta.
Context `{MetaCodec}.

Definition readSnapHashFromMeta (d : dir) : outcome bytes :=
  match d !! str "meta.json" with
  | None => Err (Errorf "no such file")
  | Some b => DecodeHash b
  end.

Definition patchMetaWithMetadataLen (metadataLen : Z) (d : dir) : outcome dir :=
  match d !! str "meta.json" with
  | None => Err (Errorf "no such file")
  | Some b =>
      x ← Unmarshal b;
      Ret (<[str "meta.json" := MarshalIndent (as_floats (fst x)) (Some metadataLen)]> d)
  end.

(** The check at the head of both Apply functions: no readable meta.json, no check. *)
Definition check_base (d : dir) (want : bytes) : outcome unit :=
  match readSnapHashFromMeta d with
  | Ret h => if bool_decide (h = want) then Ret tt else Err (Errorf "base hash mismatch")
  | _ => Ret tt
  end.
End Meta.

(** ** Compute and apply *)

Record StateSyncStats := mkSSStats {
  BaseItems : Z;
  TargetItems : Z;
  Refs : Z;
  Literals : Z;
  LiteralBytes : Z;
  BodyBytesRaw : Z;
  BodyBytesGz : Z
}.

Record StateSyncApplyStats := mkSSApply {
  a_BaseItems : Z;
  a_TargetItems : Z;
  a_Refs : Z;
  a_Literals : Z;
  a_Chunks : Z;
  a_BytesUncompressed : Z;
  a_BytesCompressed : Z;
  a_MetadataBytes : Z
}.

Definition lift_out {S A} (o : outcome A) : M S A := fun s => (o, s).

(** An item with its length in front, as it is in the stream. *)
Definition frame (item : bytes) : bytes := PutUvarint (len item) ++ item.

Definition add_ref (s : StateSyncStats) : StateSyncStats :=
  mkSSStats (BaseItems s) (TargetItems s + 1) (Refs s + 1) (Literals s) (LiteralBytes s) 0 0.
Definition add_literal (n : Z) (s : StateSyncStats) : StateSyncStats :=
  mkSSStats (BaseItems s) (TargetItems s + 1) (Refs s) (Literals s + 1) (LiteralBytes s + n) 0 0.
Definition applied_ref (s : StateSyncApplyStats) : StateSyncApplyStats :=
  mkSSApply (a_BaseItems s) (a_TargetItems s + 1) (a_Refs s + 1) (a_Literals s) 0 0 0 0.
Definition applied_literal (s : StateSyncApplyStats) : StateSyncApplyStats :=
  mkSSApply (a_BaseItems s) (a_TargetItems s + 1) (a_Refs s) (a_Literals s + 1) 0 0 0 0.

Section Sync.
Context {DB SST : Type} `{PB : Pebble DB SST} `{ZL : Zlib} `{MC : MetaCodec}.
(** [Batch.Len]. *)
Context (batchLen : list write -> Z).

Definition on_src {A} (m : M source A) : M (source * DB) A := zoom fst (fun s x => (s, snd x)) m.
Definition on_db {A} (m : M DB A) : M (source * DB) A := zoom snd (fun d x => (fst x, d)) m.

(** [db.Get]; the error that is not ErrNotFound does not occur. *)
Definition db_get (k : bytes) : M (source * DB) (option bytes) := fun x => (Ret (contents (snd x) !! k), x).

(** Phase 1 of both directions: the items of the base go into the database, under
    their hash or under their index, a batch at a time. *)
Fixpoint index_loop (flushEvery : Z) (entry : Z -> bytes -> write) (fuel : nat) (batch : list write) (idx : Z)
    : M (source * DB) Z :=
  match fuel with
  | O => fun x => (NoFuel, x)
  | S fuel =>
      next ← wrap_err "read base" (on_src item_Next);
      match next with
      | None => _ ← (if 0 <? batchLen batch then on_db (BatchCommit batch) else mret tt); mret idx
      | Some item =>
          let batch := batch ++ [entry idx item] in
          if flushEvery <? batchLen batch
          then _ ← on_db (BatchCommit batch); index_loop flushEvery entry fuel [] (u64 (idx + 1))
          else index_loop flushEvery entry fuel batch (u64 (idx + 1))
      end
  end.

(** The two indexes. *)
Definition by_hash (idx : Z) (item : bytes) : write := (sha256 item, le_bytes 8 idx).
Definition by_index (idx : Z) (item : bytes) : write := (be_bytes 8 idx, item).

Definition in_source {A} (s : source) (m : M (source * DB) A) : M DB A := fun d =>
  let '(r, x) := m (s, d) in (r, snd x).

Definition fuel_of (s : source) : nat := S (length (src_data s)).

Definition index_base (flushEvery : Z) (entry : Z -> bytes -> write) (s : source) : M DB Z :=
  in_source s (index_loop flushEvery entry (fuel_of s) [] 0).

(** Phase 2 of the compute side: what is written to the body so far, and the stats. *)
Fixpoint emit_loop (fuel : nat) (body : bytes) (st : StateSyncStats) : M (source * DB) (bytes * StateSyncStats) :=
  match fuel with
  | O => fun x => (NoFuel, x)
  | S fuel =>
      next ← wrap_err "read target" (on_src item_Next);
      match next with
      | None => mret (body, st)
      | Some item =>
          found ← db_get (sha256 item);
          match found with
          | Some val =>
              if len val <? 8 then panic "index out of range" else
              emit_loop fuel (body ++ byte.of_Z OpRef :: PutUvarint (le_value (take 8 val))) (add_ref st)
          | None =>
              emit_loop fuel (body ++ byte.of_Z OpLiteral :: PutUvarint (len item) ++ item) (add_literal (len item) st)
          end
      end
  end.

(** [Seek] to the start and write: the file is longer than the header. *)
Definition rewriteStateSyncHeader (h : StateSyncHeader) (file : bytes) : bytes :=
  let b := WriteStateSyncHeader h in b ++ drop (length b) file.

Definition writeStateSyncHeaderPlaceholder (h : FileHeader) : bytes := WriteStateSyncHeader (mkSSHeader h 0).

Definition ComputeStateSync (baseDir targetDir : dir) (h : FileHeader) : M DB (bytes * StateSyncStats) :=
  baseRdr ← lift_out (wrap_out "open base" (newSnapItemReader baseDir));
  idx ← index_base (Z.shiftl 4 20) by_hash baseRdr;
  targetRdr ← lift_out (newSnapItemReader targetDir);
  x ← in_source targetRdr (emit_loop (fuel_of targetRdr) [] (mkSSStats idx 0 0 0 0 0 0));
  let '(body, st) := x in
  let gz := concat (deflate body) in
  let file := writeStateSyncHeaderPlaceholder h ++ gz in
  mret (rewriteStateSyncHeader (mkSSHeader h (TargetItems st)) file,
        mkSSStats (BaseItems st) (TargetItems st) (Refs st) (Literals st) (LiteralBytes st) (len body) (len gz)).

(** The operations of the body, from the byte where one starts. *)
Fixpoint ops_loop (fuel : nat) (raw : bytes) (st : StateSyncApplyStats) : M (source * DB) (bytes * StateSyncApplyStats) :=
  match fuel with
  | O => fun x => (NoFuel, x)
  | S fuel => fun x =>
      match on_src ReadByte x with
      | (Ret op, x1) =>
          (if byte.unsigned op =? OpRef then
             baseIdx ← on_src (wrap_err "read REF index" ReadUvarint);
             found ← db_get (be_bytes 8 baseIdx);
             match found with
             | None => fail (Errorf "base index not found")
             | Some val => ops_loop fuel (raw ++ frame val) (applied_ref st)
             end
           else if byte.unsigned op =? OpLiteral then
             lenU ← on_src (wrap_err "read LITERAL length" ReadUvarint);
             _ ← on_src (go_make lenU);
             item ← on_src (wrap_err "read LITERAL bytes" (ReadFull lenU));
             ops_loop fuel (raw ++ frame item) (applied_literal st)
           else fail (Errorf "unknown op tag")) x1
      | (Err EOF, x1) => (Ret (raw, st), x1)
      | (Err e, x1) => (Err e, x1)
      | (Panic w, x1) => (Panic w, x1)
      | (NoFuel, x1) => (NoFuel, x1)
      end
  end.

(** What a stream is cut into on disk. *)
Definition write_chunks (d : dir) (size : Z) (raw : bytes) : outcome chunkWriter :=
  c ← write_all (deflate raw) (newChunkWriter d size);
  Ret (closeCurrent c).

Definition meta_of (height : Z) (c : chunkWriter) : outMeta :=
  mkOutMeta height 3 (chunkIdx c) (computeSnapshotHash (chunkHashes c)) (totalWritten c) (hexHashes (chunkHashes c)).

Definition write_meta (m : outMeta) (d : dir) : dir := <[str "meta.json" := MarshalIndent m None]> d.

(** The rest of the diff file is the compressed body. *)
Definition ApplyStateSync (baseDir : dir) (diff : bytes) (outDir : dir) : M DB (dir * StateSyncApplyStats) :=
  let '(r, rest) := ReadStateSyncHeader (Source diff EOF) in
  hdr ← lift_out (wrap_out "read CSDS header" r);
  _ ← lift_out (check_base baseDir (BaseHashHex (ss_file hdr)));
  baseRdr ← lift_out (wrap_out "open base" (newSnapItemReader baseDir));
  idx ← index_base (Z.shiftl 16 20) by_index baseRdr;
  zr ← lift_out (wrap_out "open zlib body" (inflate (src_data rest)));
  x ← in_source zr (ops_loop (fuel_of zr) [] (mkSSApply idx 0 0 0 0 0 0 0));
  let '(raw, st) := x in
  c ← lift_out (write_chunks outDir CosmosSDKChunkSize raw);
  let mb := encodeMetadataProto (chunkHashes c) in
  let d := write_meta (meta_of (TargetHeight (ss_file hdr)) c) (<[str "metadata.bin" := mb]> (cw_dir c)) in
  d ← lift_out (patchMetaWithMetadataLen (len mb) d);
  mret (d, mkSSApply (a_BaseItems st) (a_TargetItems st) (a_Refs st) (a_Literals st) (chunkIdx c) (len raw) (totalWritten c) (len mb)).
End Sync.

(** ** Headers read back *)

Lemma le_value_bytes n v : 0 <= v < 2 ^ (8 * Z.of_nat n) -> le_value (le_bytes n v) = v.
Proof. intros. unfold le_value, le_bytes. rewrite rev_involutive, be_value_bytes. by apply Z.mod_small. Qed.

Lemma len_le_bytes n v : len (le_bytes n v) = Z.of_nat n.
Proof. unfold le_bytes, len. rewrite length_rev, length_be_bytes. done. Qed.

Lemma read_bytes n a rest e : len a = n -> ReadFull n (Source (a ++ rest) e) = (Ret a, Source rest e).
Proof. intros <-. apply ReadFull_app. Qed.

Lemma readLenPrefixed_write b rest e : len b <= 2 ^ 20 ->
  readLenPrefixed (Source (writeLenPrefixed b ++ rest) e) = (Ret b, Source rest e).
Proof.
  intros Hb. unfold readLenPrefixed, writeLenPrefixed. pose proof (len_nonneg b). rewrite <- app_assoc.
  unfold mbind, M_bind. rewrite (read_bytes 4) by apply len_le_bytes.
  rewrite u32_small, le_value_bytes by (cbn; lia). change (Z.shiftl 1 20) with (2 ^ 20).
  destruct (Z.ltb_spec (2 ^ 20) (len b)); [lia|]. by apply read_bytes.
Qed.

Definition header_ok (h : FileHeader) : Prop :=
  0 <= BaseHeight h < 2 ^ 64 /\ 0 <= TargetHeight h < 2 ^ 64 /\
  len (BaseHashHex h) <= 2 ^ 20 /\ len (TargetHashHex h) <= 2 ^ 20.

(** One field after the other. *)
Ltac read_field :=
  lazymatch goal with
  | |- context [ReadFull ?n (Source (?a ++ ?r) ?e)] => rewrite (read_bytes n a r e) by (done || apply len_le_bytes)
  | |- context [readLenPrefixed (Source (writeLenPrefixed ?b ++ ?r) ?e)] => rewrite (readLenPrefixed_write b r e) by done
  end.

Lemma ReadHeader_write h rest e : header_ok h ->
  ReadHeader (Source (WriteHeader h ++ rest) e) = (Ret h, Source rest e).
Proof.
  intros (Hb & Ht & Hbh & Hth). unfold ReadHeader, WriteHeader. rewrite <- !app_assoc.
  unfold wrap_err, mbind, M_bind. read_field. rewrite bool_decide_eq_true_2 by done. cbn [negb].
  read_field. rewrite bool_decide_eq_true_2 by done. cbn [negb]. do 4 read_field.
  rewrite !le_value_bytes by done. unfold mret, M_ret. by destruct h.
Qed.

Lemma ReadStateSyncHeader_write h rest e : header_ok (ss_file h) -> 0 <= TargetItemCount h < 2 ^ 64 ->
  ReadStateSyncHeader (Source (WriteStateSyncHeader h ++ rest) e) = (Ret h, Source rest e).
Proof.
  intros (Hb & Ht & Hbh & Hth) Hn. unfold ReadStateSyncHeader, WriteStateSyncHeader. rewrite <- !app_assoc.
  unfold wrap_err, mbind, M_bind. read_field. rewrite bool_decide_eq_true_2 by done. cbn [negb].
  read_field. rewrite bool_decide_eq_true_2 by done. cbn [negb]. do 5 read_field.
  rewrite !le_value_bytes by done. unfold mret, M_ret. by destruct h as [[]].
Qed.

(** ** Chunk files *)

(** The pieces of [size] bytes, the last one shorter. *)
Fixpoint cut_loop (fuel : nat) (size : Z) (data : bytes) : list bytes :=
  match fuel, data with
  | S fuel, _ :: _ => take (Z.to_nat size) data :: cut_loop fuel size (drop (Z.to_nat size) data)
  | _, _ => []
  end.
Definition cut (size : Z) (data : bytes) : list bytes := cut_loop (length data) size data.

Fixpoint put_chunks (d : dir) (i : Z) (ps : list bytes) : dir :=
  match ps with
  | [] => d
  | p :: ps => put_chunks (<[Scheduler.chunk_name i := p]> d) (i + 1) ps
  end.

Lemma put_chunks_snoc ps p : forall d i,
  put_chunks d i (ps ++ [p]) = <[Scheduler.chunk_name (i + len ps) := p]> (put_chunks d i ps).
Proof.
  induction ps as [|q ps IH]; intros d i; cbn [app put_chunks]; [by rewrite len_nil, Z.add_0_r|].
  rewrite IH, len_cons. do 2 f_equal. lia.
Qed.

(** After some writes: the full chunks, and what is in the open one. *)
Record cut_into (d : dir) (size : Z) (full : list bytes) (tail : bytes) (c : chunkWriter) : Prop := {
  ci_size : chunkSize c = size;
  ci_full : Forall (fun p => len p = size) full;
  ci_tail : len tail < size;
  ci_idx : chunkIdx c = len full;
  ci_hash : chunkHashes c = map sha256 full;
  ci_total : totalWritten c = len (concat full ++ tail);
  ci_cur : match cur c with
           | None => tail = [] /\ cw_dir c = put_chunks d 0 full
           | Some name => tail <> [] /\ name = Scheduler.chunk_name (len full) /\ hasher c = tail /\
                          curWritten c = len tail /\ cw_dir c = put_chunks d 0 (full ++ [tail])
           end
}.

Section Cutting.
Context (d : dir) (size : Z) (Hsize : 1 <= size).

Lemma write_some_cut p full tail c : p <> [] -> cut_into d size full tail c ->
  exists p' full' tail' c', write_some p c = (p', c') /\ (length p' < length p)%nat /\
    cut_into d size full' tail' c' /\ concat full' ++ tail' ++ p' = concat full ++ tail ++ p.
Proof using Hsize.
  intros Hp [Hs Hf Ht Hi Hh Htot Hc].
  set (c1 := opened c).
  assert (H1 : chunkSize c1 = size /\ cur c1 = Some (Scheduler.chunk_name (len full)) /\ hasher c1 = tail /\
    curWritten c1 = len tail /\ chunkIdx c1 = len full /\ chunkHashes c1 = map sha256 full /\
    totalWritten c1 = len (concat full ++ tail) /\ cw_dir c1 = put_chunks d 0 (full ++ [tail])).
  { unfold c1, opened. destruct (cur c) as [name|] eqn:Ec; [|unfold openNext; cbn].
    - destruct Hc as (Hne & -> & Hha & Hw & Hd). by rewrite Ec.
    - destruct Hc as [-> Hd]. rewrite put_chunks_snoc, Hi, Hd. by split_and!. }
  destruct H1 as (Hs1 & Hc1 & Hh1 & Hw1 & Hi1 & Hhs1 & Ht1 & Hd1).
  unfold write_some. fold c1. cbv zeta. rewrite Hc1, Hs1, Hw1, Hh1, Hd1, Hi1, Hhs1, Ht1. cbn [chunkSize curWritten default].
  set (n := Z.to_nat _).
  assert (Hn : (1 <= n <= length p)%nat /\ Z.of_nat n = Z.min (size - len tail) (len p)).
  { unfold n. assert (0 < len p) by (destruct p; [done|rewrite len_cons; pose proof (len_nonneg p); lia]).
    destruct (Z.ltb_spec (size - len tail) (len p)); unfold len in *; lia. }
  destruct Hn as [Hn1 Hn2].
  assert (Hdir : append_file (id (Scheduler.chunk_name (len full))) (take n p) (put_chunks d 0 (full ++ [tail])) =
    put_chunks d 0 (full ++ [tail ++ take n p])).
  { unfold append_file. rewrite !put_chunks_snoc, Z.add_0_l. cbn [id]. rewrite lookup_insert_eq. cbn. by rewrite insert_insert_eq. }
  rewrite Hdir. assert (Hlt : len (take n p) = Z.of_nat n) by (apply len_take_le; lia).
  assert (Hld : (length (drop n p) < length p)%nat) by (rewrite length_drop; lia).
  destruct (Z.leb_spec size (len tail + Z.of_nat n)).
  - exists (drop n p), (full ++ [tail ++ take n p]), []. eexists. split; [done|]. split; [done|]. split.
    + unfold closeCurrent. cbn. split; cbn; try done.
      * apply Forall_app. split; [done|]. constructor; [|done]. len_simpl. lia.
      * rewrite len_nil. lia.
      * len_simpl. lia.
      * by rewrite map_app.
      * rewrite concat_app. cbn. rewrite !app_nil_r. len_simpl. lia.
    + rewrite concat_app. cbn. by rewrite app_nil_r, <- !app_assoc, take_drop.
  - exists (drop n p), full, (tail ++ take n p). eexists. split; [done|]. split; [done|]. split.
    + split; cbn; try done.
      * len_simpl. lia.
      * len_simpl. lia.
      * split_and!; try done; [|len_simpl; lia]. intros [_ E0]%app_nil. rewrite E0, len_nil in Hlt. lia.
    + by rewrite <- !app_assoc, take_drop.
Qed.

Lemma Write_cut fuel : forall p full tail c, (length p <= fuel)%nat -> cut_into d size full tail c ->
  exists full' tail' c', Write_loop fuel p c = Ret c' /\ cut_into d size full' tail' c' /\
    concat full' ++ tail' = concat full ++ tail ++ p.
Proof using Hsize.
  induction fuel as [|fuel IH]; intros p full tail c Hl Hc.
  - destruct p; [|cbn in Hl; lia]. exists full, tail, c. by rewrite app_nil_r.
  - destruct p as [|b p]; [exists full, tail, c; by rewrite app_nil_r|].
    destruct (write_some_cut (b :: p) full tail c ltac:(done) Hc) as (p1 & f1 & t1 & c1 & E & Hl1 & Hc1 & He).
    cbn [Write_loop]. rewrite E. destruct (IH p1 f1 t1 c1 ltac:(cbn in *; lia) Hc1) as (f2 & t2 & c2 & E2 & Hc2 & He2).
    exists f2, t2, c2. split_and!; [done|done|by rewrite He2].
Qed.

Lemma write_all_cut ps : forall full tail c, cut_into d size full tail c ->
  exists full' tail' c', write_all ps c = Ret c' /\ cut_into d size full' tail' c' /\
    concat full' ++ tail' = concat full ++ tail ++ concat ps.
Proof using Hsize.
  induction ps as [|p ps IH]; intros full tail c Hc; cbn [write_all concat].
  - exists full, tail, c. by rewrite app_nil_r.
  - destruct (Write_cut (length p) p full tail c ltac:(done) Hc) as (f1 & t1 & c1 & E & Hc1 & He).
    unfold Write. rewrite E. cbn. destruct (IH f1 t1 c1 Hc1) as (f2 & t2 & c2 & E2 & Hc2 & He2).
    exists f2, t2, c2. split_and!; [done|done|]. by rewrite He2, app_assoc, He, <- !app_assoc.
Qed.

Lemma cut_loop_full full tail : forall fuel, Forall (fun p => len p = size) full -> len tail < size ->
  (length (concat full ++ tail) <= fuel)%nat ->
  cut_loop fuel size (concat full ++ tail) = full ++ (if bool_decide (tail = []) then [] else [tail]).
Proof using Hsize.
  induction full as [|p full IH]; intros fuel Hf Ht Hl; cbn [concat app] in *.
  - destruct tail as [|b tail]; [by destruct fuel|]. destruct fuel as [|fuel]; [cbn in Hl; lia|].
    rewrite bool_decide_eq_false_2 by done. cbn [cut_loop]. unfold len in Ht.
    rewrite take_ge, drop_ge by lia. by destruct fuel.
  - apply Forall_cons in Hf as [Hp Hf]. destruct p as [|b p]; [rewrite len_nil in Hp; lia|].
    destruct fuel as [|fuel]; [cbn in Hl; lia|]. rewrite <- app_assoc in *. cbn [cut_loop app].
    change (b :: p ++ concat full ++ tail) with ((b :: p) ++ concat full ++ tail).
    assert (E : Z.to_nat size = length (b :: p)) by (unfold len in Hp; lia).
    rewrite E, take_app_length, drop_app_length. f_equal. apply IH; [done|done|]. cbn [app length] in Hl.
    rewrite !length_app in *. lia.
Qed.

Lemma write_all_spec ps : exists c, write_all ps (newChunkWriter d size) = Ret c /\
  let pieces := cut size (concat ps) in
  cw_dir (closeCurrent c) = put_chunks d 0 pieces /\ chunkHashes (closeCurrent c) = map sha256 pieces /\
  chunkIdx (closeCurrent c) = len pieces /\ totalWritten (closeCurrent c) = len (concat ps).
Proof using Hsize.
  destruct (write_all_cut ps [] [] (newChunkWriter d size)) as (full & tail & c & E & [Hs Hf Ht Hi Hh Htot Hc] & He).
  { split; try done. rewrite len_nil. lia. }
  exists c. split; [done|]. cbn [concat app] in He. cbv zeta. unfold cut. rewrite <- He, (cut_loop_full full tail) by done.
  unfold closeCurrent. destruct (cur c) as [name|].
  - destruct Hc as (Hne & -> & Hha & Hw & Hd). rewrite bool_decide_eq_false_2 by done. cbn.
    rewrite Hha, Hh, Hi, Htot, Hd, map_app. cbn. split_and!; try done. len_simpl. lia.
  - destruct Hc as [-> Hd]. cbn. rewrite Hd, Hh, Hi, Htot, !app_nil_r. done.
Qed.
End Cutting.

(** ** Reading items *)

Definition frames (items : list bytes) : bytes := concat (map frame items).

(** An item of the stream: not empty, and no larger than memory. *)
Definition item_fits (item : bytes) : Prop := 0 < len item <= maxAlloc.

Lemma fits_u64 item : item_fits item -> 0 <= len item < 2 ^ 64.
Proof. unfold item_fits, maxAlloc. lia. Qed.

Lemma item_Next_frame item rest e : item_fits item ->
  item_Next (Source (frame item ++ rest) e) = (Ret (Some item), Source rest e).
Proof.
  intros Hi. unfold item_Next, frame. cbn [item_Next_loop]. rewrite <- app_assoc.
  rewrite ReadUvarint_PutUvarint by (by apply fits_u64). destruct Hi as [H0 Hm].
  destruct (Z.eqb_spec (len item) 0); [lia|]. unfold go_make, mbind, M_bind.
  destruct (Z.ltb_spec maxAlloc (len item)); [lia|]. cbn. by rewrite ReadFull_app.
Qed.

Lemma item_Next_end : item_Next (Source [] EOF) = (Ret None, Source [] EOF).
Proof. reflexivity. Qed.

Lemma frame_pos item : (1 <= length (frame item))%nat.
Proof. unfold frame. rewrite length_app. pose proof (PutUvarint_pos (len item)). unfold len in *. lia. Qed.

Lemma length_frames items : (length items <= length (frames items))%nat.
Proof.
  induction items as [|i items IH]; [done|]. unfold frames in *. cbn [map concat]. rewrite length_app. cbn.
  pose proof (frame_pos i). lia.
Qed.

(** The writes of an index over consecutive items. *)
Fixpoint entries_of (entry : Z -> bytes -> write) (idx : Z) (items : list bytes) : list write :=
  match items with
  | [] => []
  | item :: items => entry idx item :: entries_of entry (idx + 1) items
  end.

Section Indexing.
Context {DB SST : Type} `{BL : BatchLaws DB SST}.
Context (batchLen : list write -> Z) (Hblen : forall b, b <> [] -> 0 < batchLen b).

Lemma commit_some b (s : source) (d : DB) :
  exists d', (if 0 <? batchLen b then on_db (BatchCommit b) else mret tt) (s, d) = (Ret tt, (s, d')) /\
    contents d' = apply_writes b (contents d).
Proof using Hblen BL.
  destruct (Z.ltb_spec 0 (batchLen b)).
  - destruct (commit_live b d) as [d' E]. exists d'. split; [unfold on_db, zoom; cbn; by rewrite E|by apply commit_sound].
  - exists d. split; [done|]. destruct b as [|w b]; [done|]. specialize (Hblen (w :: b) ltac:(done)). lia.
Qed.

(** Whatever the batches are, the database ends with all entries in order. *)
Lemma index_loop_spec flushEvery entry items : forall fuel batch idx (d : DB),
  (length items < fuel)%nat -> 0 <= idx -> idx + len items < 2 ^ 64 -> Forall item_fits items ->
  exists d', index_loop batchLen flushEvery entry fuel batch idx (Source (frames items) EOF, d) =
      (Ret (idx + len items), (Source [] EOF, d')) /\
    contents d' = apply_writes (batch ++ entries_of entry idx items) (contents d).
Proof using Hblen BL.
  induction items as [|item items IH]; intros [|fuel] batch idx d Hf Hi Hn Hok; try (cbn in Hf; lia); cbn [index_loop].
  - destruct (commit_some batch (Source [] EOF) d) as (d' & E & Hd). exists d'. cbn [entries_of]. rewrite app_nil_r.
    split; [|done]. unfold mbind at 1, M_bind at 1. unfold wrap_err, on_src, zoom. cbn [fst snd]. unfold frames. cbn [map concat]. rewrite item_Next_end.
    unfold mbind, M_bind. rewrite E. unfold mret, M_ret. by rewrite len_nil, Z.add_0_r.
  - apply Forall_cons in Hok as [Hit Hok]. rewrite len_cons in Hn. pose proof (len_nonneg items).
    unfold mbind at 1, M_bind at 1. unfold wrap_err, on_src, zoom. cbn [fst snd]. unfold frames in *. cbn [map concat].
    rewrite item_Next_frame by done. cbn [fst snd]. rewrite u64_small by lia.
    replace (idx + len (item :: items)) with (idx + 1 + len items) by (rewrite len_cons; lia).
    destruct (flushEvery <? batchLen (batch ++ [entry idx item])).
    + destruct (commit_live (batch ++ [entry idx item]) d) as [d1 E1].
      destruct (IH fuel [] (idx + 1) d1 ltac:(cbn in Hf; lia) ltac:(lia) ltac:(lia) Hok) as (d' & E & Hd).
      exists d'. unfold mbind, M_bind, on_db, zoom. cbn [fst snd]. rewrite E1. cbn [fst snd]. split; [exact E|].
      rewrite Hd. cbn [entries_of app]. rewrite (commit_sound _ _ _ E1), <- apply_writes_app, <- app_assoc. done.
    + destruct (IH fuel (batch ++ [entry idx item]) (idx + 1) d ltac:(cbn in Hf; lia) ltac:(lia) ltac:(lia) Hok) as (d' & E & Hd).
      exists d'. split; [exact E|]. rewrite Hd. cbn [entries_of]. by rewrite <- app_assoc.
Qed.

Lemma index_base_spec flushEvery entry items (d : DB) : len items < 2 ^ 64 -> Forall item_fits items ->
  exists d', index_base batchLen flushEvery entry (Source (frames items) EOF) d = (Ret (len items), d') /\
    contents d' = apply_writes (entries_of entry 0 items) (contents d).
Proof using Hblen BL.
  intros Hn Hok. pose proof (length_frames items).
  destruct (index_loop_spec flushEvery entry items (fuel_of (Source (frames items) EOF)) [] 0 d) as (d' & E & Hd);
    [unfold fuel_of; cbn; lia|lia|lia|done|].
  exists d'. split; [|done]. unfold index_base, in_source. by rewrite E.
Qed.
End Indexing.

(** *** Looking up the indexes *)

Lemma entries_keep entry items : forall idx m k, (forall i item, item ∈ items -> fst (entry i item) <> k) ->
  apply_writes (entries_of entry idx items) m !! k = m !! k.
Proof.
  induction items as [|item items IH]; intros idx m k Hk; [done|]. cbn [entries_of]. unfold apply_writes in *. cbn [fold_left].
  rewrite IH by (intros; apply Hk; by right). apply lookup_insert_ne. apply Hk. by left.
Qed.

(** By index: each item under its own. *)
Lemma by_index_other items : forall idx m i, 0 <= idx -> idx + len items <= 2 ^ 64 -> 0 <= i < 2 ^ 64 ->
  i < idx \/ idx + len items <= i ->
  apply_writes (entries_of by_index idx items) m !! be_bytes 8 i = m !! be_bytes 8 i.
Proof.
  induction items as [|item items IH]; intros idx m i Hi Hn Hr Ho; [done|]. rewrite len_cons in *. pose proof (len_nonneg items).
  cbn [entries_of]. unfold apply_writes in *. cbn [fold_left]. rewrite IH by lia.
  apply lookup_insert_ne. intros E%be_bytes_inj; cbn; lia.
Qed.

Lemma by_index_lookup items : forall idx m i, 0 <= idx -> idx + len items <= 2 ^ 64 -> idx <= i < idx + len items ->
  apply_writes (entries_of by_index idx items) m !! be_bytes 8 i = items !! Z.to_nat (i - idx).
Proof.
  induction items as [|item items IH]; intros idx m i Hi Hn Hr; [rewrite len_nil in Hr; lia|].
  rewrite len_cons in *. pose proof (len_nonneg items). cbn [entries_of].
    destruct (Z.eq_dec i idx) as [->|Hne].
  - rewrite Z.sub_diag. change (apply_writes (entries_of by_index (idx + 1) items) (<[be_bytes 8 idx := item]> m) !! be_bytes 8 idx = Some item).
    rewrite by_index_other by lia. apply lookup_insert_eq.
  - change (apply_writes (entries_of by_index (idx + 1) items) (<[be_bytes 8 idx := item]> m) !! be_bytes 8 i = (item :: items) !! Z.to_nat (i - idx)).
    rewrite IH by lia. replace (Z.to_nat (i - idx)) with (S (Z.to_nat (i - (idx + 1)))) by lia. done.
Qed.

(** By hash: some index at which an item of that hash stands, and none otherwise. *)
Lemma by_hash_lookup items : forall idx m h, 
  match apply_writes (entries_of by_hash idx items) m !! h with
  | Some val => m !! h = Some val \/
      exists i item, idx <= i < idx + len items /\ items !! Z.to_nat (i - idx) = Some item /\ sha256 item = h /\ val = le_bytes 8 i
  | None => m !! h = None /\ forall item, item ∈ items -> sha256 item <> h
  end.
Proof.
  induction items as [|item items IH]; intros idx m h; cbn [entries_of].
  - unfold apply_writes. cbn. destruct (m !! h); [by left|]. split; [done|]. intros ? []%elem_of_nil.
  - specialize (IH (idx + 1) (<[sha256 item := le_bytes 8 idx]> m) h). unfold apply_writes in *. cbn [fold_left by_hash fst snd].
    rewrite len_cons. pose proof (len_nonneg items).
    destruct (fold_left _ _ _ !! h) as [val|].
    + destruct IH as [IH|(i & it & Hi & Hit & Hs & ->)].
      * apply lookup_insert_Some in IH as [[<- <-]|[_ IH]]; [|by left]. right. exists idx, item.
        rewrite Z.sub_diag. split_and!; try done; lia.
      * right. exists i, it. replace (Z.to_nat (i - idx)) with (S (Z.to_nat (i - (idx + 1)))) by lia. split_and!; try done; lia.
    + destruct IH as [[Hm Hne]%lookup_insert_None IH]. split; [done|]. intros it [->|Hit]%elem_of_cons; [done|by apply IH].
Qed.

(** ** The body *)

Definition op_of (m : gmap bytes bytes) (item : bytes) : bytes :=
  match m !! sha256 item with
  | Some val => byte.of_Z OpRef :: PutUvarint (le_value (take 8 val))
  | None => byte.of_Z OpLiteral :: PutUvarint (len item) ++ item
  end.

Definition ops_of (m : gmap bytes bytes) (items : list bytes) : bytes := concat (map (op_of m) items).

(** How many of the items are references. *)
Fixpoint refs_of (m : gmap bytes bytes) (items : list bytes) : Z :=
  match items with
  | [] => 0
  | item :: items => (match m !! sha256 item with Some _ => 1 | None => 0 end) + refs_of m items
  end.

(** What the index says of an item is true. *)
Definition ref_ok (base : list bytes) (m : gmap bytes bytes) (item : bytes) : Prop :=
  forall val, m !! sha256 item = Some val ->
  exists i, 0 <= i < len base /\ base !! Z.to_nat i = Some item /\ val = le_bytes 8 i.

Lemma ref_value i : 0 <= i < 2 ^ 64 -> le_value (take 8 (le_bytes 8 i)) = i.
Proof.
  intros Hi. rewrite take_ge; [by apply le_value_bytes|]. pose proof (len_le_bytes 8 i). unfold len in *. lia.
Qed.

Section Bodies.
Context {DB SST : Type} `{PB : Pebble DB SST}.
Context (base : list bytes) (Hbase : len base < 2 ^ 64) (m : gmap bytes bytes).

Lemma emit_loop_spec items : forall fuel body st (d : DB), contents d = m ->
  (length items < fuel)%nat -> Forall item_fits items -> Forall (ref_ok base m) items ->
  exists st', emit_loop fuel body st (Source (frames items) EOF, d) = (Ret (body ++ ops_of m items, st'), (Source [] EOF, d)) /\
    BaseItems st' = BaseItems st /\ TargetItems st' = TargetItems st + len items /\
    Refs st' = Refs st + refs_of m items /\ Literals st' = Literals st + (len items - refs_of m items).
Proof using Type.
  induction items as [|item items IH]; intros [|fuel] body st d Hd Hf Hok Hr; try (cbn in Hf; lia); cbn [emit_loop].
  - exists st. unfold mbind, M_bind, wrap_err, on_src, zoom, frames, ops_of. cbn [map concat fst snd]. rewrite item_Next_end.
    unfold mret, M_ret. cbn [fst snd refs_of]. rewrite app_nil_r, len_nil. split_and!; (done || lia).
  - apply Forall_cons in Hok as [Hit Hok]. apply Forall_cons in Hr as [Hri Hr].
    unfold mbind at 1, M_bind at 1. unfold wrap_err, on_src, zoom. cbn [fst snd]. unfold frames, ops_of in *. cbn [map concat refs_of].
    rewrite item_Next_frame by done. unfold mbind, M_bind, db_get. cbn [fst snd]. rewrite Hd. unfold op_of at 1.
    destruct (m !! sha256 item) as [val|] eqn:E.
    + destruct (Hri val E) as (i & Hi & _ & ->). rewrite len_le_bytes. change (Z.of_nat 8 <? 8) with false. cbv iota.
      destruct (IH fuel (body ++ byte.of_Z OpRef :: PutUvarint (le_value (take 8 (le_bytes 8 i)))) (add_ref st) d Hd ltac:(cbn in Hf; lia) Hok Hr)
        as (st' & E' & H1 & H2 & H3 & H4).
      exists st'. rewrite E', <- app_assoc, len_cons. cbn in *. split_and!; (done || lia).
    + destruct (IH fuel (body ++ byte.of_Z OpLiteral :: PutUvarint (len item) ++ item) (add_literal (len item) st) d Hd ltac:(cbn in Hf; lia) Hok Hr)
        as (st' & E' & H1 & H2 & H3 & H4).
      exists st'. rewrite E', <- app_assoc, len_cons. cbn in *. split_and!; (done || lia).
Qed.

Lemma ops_loop_spec items : forall fuel raw st (d : DB),
  (forall i, 0 <= i < len base -> contents d !! be_bytes 8 i = base !! Z.to_nat i) ->
  (length items < fuel)%nat -> Forall item_fits items -> Forall (ref_ok base m) items ->
  exists st', ops_loop fuel raw st (Source (ops_of m items) EOF, d) = (Ret (raw ++ frames items, st'), (Source [] EOF, d)) /\
    a_BaseItems st' = a_BaseItems st /\ a_TargetItems st' = a_TargetItems st + len items /\
    a_Refs st' = a_Refs st + refs_of m items /\ a_Literals st' = a_Literals st + (len items - refs_of m items).
Proof using Hbase.
  induction items as [|item items IH]; intros [|fuel] raw st d Hd Hf Hok Hr; try (cbn in Hf; lia); cbn [ops_loop].
  - exists st. unfold on_src, zoom, frames, ops_of. cbn [map concat fst snd ReadByte src_data src_end refs_of]. rewrite app_nil_r, len_nil. split_and!; (done || lia).
  - apply Forall_cons in Hok as [Hit Hok]. apply Forall_cons in Hr as [Hri Hr]. unfold ops_of. cbn [map concat refs_of].
    change (concat (map (op_of m) items)) with (ops_of m items).
    change (frames (item :: items)) with (frame item ++ frames items). unfold op_of.
    unfold on_src at 1, zoom. cbn [fst snd]. destruct (m !! sha256 item) as [val|] eqn:E.
    + destruct (Hri val E) as (i & Hi & Hb & ->). rewrite ref_value by lia. cbn [app ReadByte src_data src_end].
      change (byte.unsigned (byte.of_Z OpRef) =? OpRef) with true. cbv iota.
      unfold mbind, M_bind, wrap_err, on_src, zoom, db_get. cbn [fst snd]. rewrite ReadUvarint_PutUvarint by lia. cbn [fst snd].
      rewrite Hd, Hb by lia.
      destruct (IH fuel (raw ++ frame item) (applied_ref st) d Hd ltac:(cbn in Hf; lia) Hok Hr) as (st' & E' & H1 & H2 & H3 & H4).
      exists st'. rewrite E', <- app_assoc, len_cons. cbn in *. split_and!; (done || lia).
    + cbn [app ReadByte src_data src_end].
      change (byte.unsigned (byte.of_Z OpLiteral) =? OpRef) with false. change (byte.unsigned (byte.of_Z OpLiteral) =? OpLiteral) with true. cbv iota.
      unfold mbind, M_bind, wrap_err, on_src, zoom. cbn [fst snd]. rewrite <- app_assoc, ReadUvarint_PutUvarint by (by apply fits_u64).
      unfold go_make. destruct Hit as [H0 Hm]. destruct (Z.ltb_spec maxAlloc (len item)); [lia|]. cbn [fst snd mret M_ret].
      unfold mret, M_ret. rewrite ReadFull_app.
      destruct (IH fuel (raw ++ frame item) (applied_literal st) d Hd ltac:(cbn in Hf; lia) Hok Hr) as (st' & E' & H1 & H2 & H3 & H4).
      exists st'. rewrite E', <- app_assoc, len_cons. cbn in *. split_and!; (done || lia).
Qed.
End Bodies.

Lemma length_ops m items : (length items <= length (ops_of m items))%nat.
Proof.
  induction items as [|i items IH]; [done|]. unfold ops_of in *. cbn [map concat]. rewrite length_app. cbn.
  unfold op_of at 1. destruct (m !! sha256 i); cbn; lia.
Qed.

(** ** Snapshot directories *)

(** The chunk files of the directory are exactly these. *)
Definition holds_chunks (d : dir) (ps : list bytes) : Prop :=
  (forall i, 0 <= i < len ps -> d !! Scheduler.chunk_name i = ps !! Z.to_nat i) /\
  (forall n, is_Some (d !! n) -> Streams.chunk_of n = None \/ exists i, 0 <= i < len ps /\ n = Scheduler.chunk_name i).

(** No chunk file at all. *)
Definition no_chunks (d : dir) : Prop := forall n, is_Some (d !! n) -> Streams.chunk_of n = None.

Lemma put_chunks_lookup ps : forall d i n, 0 <= i -> i + len ps <= 2 ^ 32 ->
  put_chunks d i ps !! n =
    match Streams.chunk_of n with
    | Some (k, _) => if bool_decide (n = Scheduler.chunk_name k) && (i <=? k) && (k <? i + len ps) then ps !! Z.to_nat (k - i) else d !! n
    | None => d !! n
    end.
Proof.
  induction ps as [|p ps IH]; intros d i n Hi Hn; cbn [put_chunks].
  - destruct (Streams.chunk_of n) as [[k x]|]; [|done]. rewrite len_nil. case_match; [|done].
    apply andb_true_iff in H as [[_ ?%Z.leb_le]%andb_true_iff ?%Z.ltb_lt]. lia.
  - rewrite len_cons in *. pose proof (len_nonneg ps). rewrite IH by lia.
    assert (Hc : Streams.chunk_of (Scheduler.chunk_name i) = Some (i, Scheduler.chunk_name i)) by (apply Streams.chunk_of_name; lia).
    destruct (decide (n = Scheduler.chunk_name i)) as [->|Hne].
    + rewrite Hc, lookup_insert_eq, bool_decide_eq_true_2 by done. cbn [andb].
      destruct (Z.leb_spec (i + 1) i); [lia|]. destruct (Z.leb_spec i i); [|lia]. destruct (Z.ltb_spec i (i + (1 + len ps))); [|lia].
      cbn [andb]. by rewrite Z.sub_diag.
    + rewrite lookup_insert_ne by done. destruct (Streams.chunk_of n) as [[k x]|]; [|done].
      destruct (bool_decide_reflect (n = Scheduler.chunk_name k)) as [->|]; [|done]. cbn [andb].
      assert (k <> i) by congruence.
      destruct (Z.leb_spec (i + 1) k), (Z.leb_spec i k); try lia; cbn [andb]; [|done].
      destruct (Z.ltb_spec k (i + 1 + len ps)), (Z.ltb_spec k (i + (1 + len ps))); try lia; [|done].
      replace (Z.to_nat (k - i)) with (S (Z.to_nat (k - (i + 1)))) by lia. done.
Qed.

Lemma names_unique n : n < 2 ^ 32 -> NoDup (map Scheduler.chunk_name (seqZ 0 n)).
Proof.
  intros Hn. change (NoDup (Scheduler.chunk_name <$> seqZ 0 n)). apply NoDup_fmap_2_strong; [|apply NoDup_seqZ].
  intros i j Hi%elem_of_seqZ Hj%elem_of_seqZ. apply Streams.chunk_name_inj; lia.
Qed.

(** However many other files there are, the chunk files are listed in order. *)
Lemma listChunkPaths_holds d ps : holds_chunks d ps -> ps <> [] -> len ps < 2 ^ 32 ->
  listChunkPaths d = Ret (map Scheduler.chunk_name (seqZ 0 (len ps))).
Proof.
  intros [Hp Ho] Hne Hn. unfold listChunkPaths. pose proof (len_nonneg ps).
  set (K := map fst (map_to_list d)).
  assert (HK : forall n, n ∈ K <-> is_Some (d !! n)).
  { intros n. unfold K. change (n ∈ (map_to_list d).*1 <-> is_Some (d !! n)). rewrite list_elem_of_fmap. split.
    - intros ([n' v] & -> & Hin%elem_of_map_to_list). by exists v.
    - intros [v Hv]. exists (n, v). split; [done|]. by apply elem_of_map_to_list. }
  assert (Hchunk : forall i, 0 <= i < len ps -> Streams.chunk_of (Scheduler.chunk_name i) = Some (i, Scheduler.chunk_name i))
    by (intros; apply Streams.chunk_of_name; lia).
  rewrite (Streams.listChunks_names (len ps) (filter (fun n => Streams.chunk_of n = None) K)).
  - rewrite bool_decide_eq_false_2; [done|]. destruct ps; [done|]. rewrite len_cons, seqZ_cons by (pose proof (len_nonneg ps); lia). done.
  - lia.
  - apply Forall_forall. by intros n [? _]%list_elem_of_filter.
  - rewrite merge_sort_Permutation. apply NoDup_Permutation.
    + apply NoDup_fst_map_to_list.
    + apply NoDup_app. split_and!; [by apply names_unique| |apply NoDup_filter, NoDup_fst_map_to_list].
      intros n (i & -> & Hi%elem_of_seqZ)%list_elem_of_fmap [Hc _]%list_elem_of_filter. by rewrite Hchunk in Hc by lia.
    + intros n. rewrite elem_of_app, list_elem_of_filter. change (n ∈ K <-> n ∈ Scheduler.chunk_name <$> seqZ 0 (len ps) \/ Streams.chunk_of n = None /\ n ∈ K).
      rewrite HK. split.
      * intros Hs. destruct (Ho n Hs) as [Hc|(i & Hi & ->)]; [by right|]. left. apply list_elem_of_fmap.
        exists i. split; [done|]. by apply elem_of_seqZ.
      * intros [(i & -> & Hi%elem_of_seqZ)%list_elem_of_fmap|[_ Hs]]; [|done]. rewrite Hp by lia. apply lookup_lt_is_Some_2. unfold len in Hi. lia.
Qed.

Lemma open_files_holds d ps : forall a, (forall i, a <= i < a + len ps -> d !! Scheduler.chunk_name i = ps !! Z.to_nat (i - a)) ->
  open_files d (map Scheduler.chunk_name (seqZ a (len ps))) = Ret ps.
Proof.
  induction ps as [|c ps IH]; intros a Hd; [done|]. rewrite len_cons in *. pose proof (len_nonneg ps).
  rewrite seqZ_cons by lia. cbn [map open_files]. rewrite (Hd a) by lia. rewrite Z.sub_diag. cbn [Z.to_nat lookup list_lookup].
  replace (Z.pred (1 + len ps)) with (len ps) by lia. rewrite IH; [done|].
  intros i Hi. rewrite Hd by lia. replace (Z.to_nat (i - a)) with (S (Z.to_nat (i - Z.succ a))) by lia. done.
Qed.

Lemma concat_cut_loop size : 1 <= size -> forall fuel data, (length data <= fuel)%nat -> concat (cut_loop fuel size data) = data.
Proof.
  intros Hs. induction fuel as [|fuel IH]; intros data Hl; [destruct data; [done|cbn in Hl; lia]|]. destruct data as [|b data]; [done|].
  cbn [cut_loop concat]. rewrite IH; [apply take_drop|]. cbn in Hl. rewrite length_drop. cbn. lia.
Qed.

Lemma concat_cut size data : 1 <= size -> concat (cut size data) = data.
Proof. intros. by apply concat_cut_loop. Qed.

Lemma cut_loop_pieces size : 1 <= size -> forall fuel data, (length (cut_loop fuel size data) <= length data)%nat.
Proof.
  intros Hs. induction fuel as [|fuel IH]; intros [|b data]; cbn; try lia. specialize (IH (drop (Z.to_nat size) (b :: data))).
  rewrite length_drop in IH. cbn in IH. lia.
Qed.

Lemma cut_pieces size data : 1 <= size -> len (cut size data) <= len data.
Proof. intros Hs. pose proof (cut_loop_pieces size Hs (length data) data). unfold len, cut. lia. Qed.

Lemma cut_nonempty size data : data <> [] -> cut size data <> [].
Proof. unfold cut. by destruct data. Qed.

Section Snapshots.
Context `{Zlib}.

(** The directory holds this item stream, compressed by the compressor that the program
    uses itself and cut at the default size of the cosmos-sdk.  A producer with another
    compressor makes other chunks of the same items. *)
Definition snapshot_dir (d : dir) (items : list bytes) : Prop :=
  holds_chunks d (cut CosmosSDKChunkSize (concat (deflate (frames items)))).

(** A directory with a stream in pieces of any size reads back as the stream. *)
Lemma pieces_read d size data : 1 <= size -> holds_chunks d (cut size (concat (deflate data))) ->
  concat (deflate data) <> [] -> len (cut size (concat (deflate data))) < 2 ^ 32 -> newSnapItemReader d = Ret (Source data EOF).
Proof.
  intros Hs Hd Hne Hn. unfold newSnapItemReader. rewrite (listChunkPaths_holds d _ Hd) by (by apply cut_nonempty || lia). cbn [mbind outcome_bind].
  rewrite open_files_holds by (intros i Hi; rewrite Z.sub_0_r; apply Hd; lia). cbn [mbind outcome_bind].
  by rewrite concat_cut, inflate_deflate.
Qed.

Lemma snapshot_reads d items : snapshot_dir d items ->
  concat (deflate (frames items)) <> [] -> len (concat (deflate (frames items))) < 2 ^ 32 ->
  newSnapItemReader d = Ret (Source (frames items) EOF).
Proof.
  intros Hd Hne Hn. pose proof (cut_pieces CosmosSDKChunkSize (concat (deflate (frames items))) ltac:(done)).
  apply (pieces_read d CosmosSDKChunkSize); [done|done|done|lia].
Qed.

Lemma put_chunks_holds d ps : no_chunks d -> len ps <= 2 ^ 32 -> holds_chunks (put_chunks d 0 ps) ps.
Proof using Type.
  intros Hd Hn. split.
  - intros i Hi. rewrite put_chunks_lookup, Streams.chunk_of_name, bool_decide_eq_true_2 by (done || lia).
    destruct (Z.leb_spec 0 i), (Z.ltb_spec i (0 + len ps)); try lia. cbn [andb]. by rewrite Z.sub_0_r.
  - intros n. rewrite put_chunks_lookup by lia. destruct (Streams.chunk_of n) as [[k x]|] eqn:Hc; [|by left].
    destruct (bool_decide_reflect (n = Scheduler.chunk_name k)) as [->|]; cbn [andb].
    + destruct (Z.leb_spec 0 k), (Z.ltb_spec k (0 + len ps)); cbn [andb]; intros Hs; try (by left; rewrite <- Hc; apply Hd in Hs).
      right. exists k. split; [lia|done].
    + intros Hs. apply Hd in Hs. by rewrite Hc in Hs.
Qed.

Lemma holds_insert d ps n v : holds_chunks d ps -> Streams.chunk_of n = None -> len ps <= 2 ^ 32 -> holds_chunks (<[n := v]> d) ps.
Proof using Type.
  intros [Hp Ho] Hn Hl. split.
  - intros i Hi. rewrite lookup_insert_ne; [by apply Hp|]. intros ->. by rewrite Streams.chunk_of_name in Hn by lia.
  - intros k Hk. destruct (decide (k = n)) as [->|]; [by left|]. apply Ho. by rewrite lookup_insert_ne in Hk by done.
Qed.
End Snapshots.

(** ** The two directions together *)

Section RoundTrip.
Context {DB SST : Type} `{BL : BatchLaws DB SST} `{ZL : Zlib} `{MC : MetaCodec}.
Context (batchLen : list write -> Z) (Hblen : forall b, b <> [] -> 0 < batchLen b).

(** No two of these items have the same hash. *)
Definition no_collision (base target : list bytes) : Prop :=
  forall x y, x ∈ base -> y ∈ target -> sha256 x = sha256 y -> x = y.

Lemma index_refs base target : no_collision base target ->
  Forall (ref_ok base (apply_writes (entries_of by_hash 0 base) ∅)) target.
Proof using Type.
  intros Hc. apply Forall_forall. intros y Hy val Hv. pose proof (by_hash_lookup base 0 ∅ (sha256 y)) as Hl. rewrite Hv in Hl.
  destruct Hl as [Hl|(i & x & Hi & Hx & Hs & ->)]; [done|]. exists i. rewrite Z.sub_0_r in Hx. rewrite <- (Hc x y); [|by eapply list_elem_of_lookup_2|done..].
  split_and!; [lia|lia|done|done].
Qed.

(** The stream reads back from the file: what ComputeStateSync writes. *)
Lemma compute_spec baseDir targetDir h base target (d : DB) :
  newSnapItemReader baseDir = Ret (Source (frames base) EOF) ->
  newSnapItemReader targetDir = Ret (Source (frames target) EOF) ->
  len base < 2 ^ 64 -> Forall item_fits base -> Forall item_fits target -> no_collision base target -> contents d = ∅ ->
  let m := apply_writes (entries_of by_hash 0 base) ∅ in
  exists st d', ComputeStateSync batchLen baseDir targetDir h d =
      (Ret (WriteStateSyncHeader (mkSSHeader h (len target)) ++ concat (deflate (ops_of m target)), st), d') /\
    BaseItems st = len base /\ TargetItems st = len target /\ Refs st = refs_of m target /\ Literals st = len target - refs_of m target.
Proof using Hblen BL.
  intros Hb Ht Hlb Hob Hot Hc Hd m.
  destruct (index_base_spec batchLen Hblen (Z.shiftl 4 20) by_hash base d Hlb Hob) as (d1 & E1 & Hd1). rewrite Hd in Hd1. fold m in Hd1.
  pose proof (length_frames target). pose proof (index_refs base target Hc) as Hr. fold m in Hr.
  destruct (emit_loop_spec base m target (fuel_of (Source (frames target) EOF)) [] (mkSSStats (len base) 0 0 0 0 0 0) d1 Hd1
    ltac:(unfold fuel_of; cbn; lia) Hot Hr) as (st & E2 & H1 & H2 & H3 & H4).
  assert (Hfile : forall gz, rewriteStateSyncHeader (mkSSHeader h (TargetItems st)) (writeStateSyncHeaderPlaceholder h ++ gz) =
    WriteStateSyncHeader (mkSSHeader h (len target)) ++ gz).
  { intros gz. unfold rewriteStateSyncHeader, writeStateSyncHeaderPlaceholder. rewrite H2. cbn [TargetItems].
    change (0 + len target) with (len target).
    replace (length (WriteStateSyncHeader (mkSSHeader h (len target)))) with (length (WriteStateSyncHeader (mkSSHeader h 0))).
    { by rewrite drop_app_length. }
    unfold WriteStateSyncHeader, le_bytes. cbn [ss_file TargetItemCount]. by rewrite !length_app, !length_rev, !length_be_bytes. }
  eexists _, d1. unfold ComputeStateSync, lift_out, mbind, M_bind. rewrite Hb, Ht. cbn [wrap_out]. rewrite E1. unfold in_source. rewrite E2. cbn [snd app].
  unfold mret, M_ret. rewrite Hfile. split; [reflexivity|]. cbn in *. split_and!; (done || lia).
Qed.

Lemma hash_keys_not_chunks : Streams.chunk_of (str "metadata.bin") = None /\ Streams.chunk_of (str "meta.json") = None.
Proof using Type. by split; vm_compute. Qed.

(** What ApplyStateSync makes of such a file. *)
Lemma apply_spec baseDir h base target out m (d : DB) :
  newSnapItemReader baseDir = Ret (Source (frames base) EOF) ->
  len base < 2 ^ 64 -> len target < 2 ^ 64 -> Forall item_fits base -> Forall item_fits target -> Forall (ref_ok base m) target ->
  header_ok h -> check_base baseDir (BaseHashHex h) = Ret tt -> len (concat (deflate (frames target))) < 2 ^ 32 ->
  let gz := concat (deflate (frames target)) in
  let ps := cut CosmosSDKChunkSize gz in
  let mb := encodeMetadataProto (map sha256 ps) in
  let meta := mkOutMeta (TargetHeight h) 3 (len ps) (computeSnapshotHash (map sha256 ps)) (len gz) (hexHashes (map sha256 ps)) in
  exists st d', ApplyStateSync batchLen baseDir (WriteStateSyncHeader (mkSSHeader h (len target)) ++ concat (deflate (ops_of m target))) out d =
      (Ret (<[str "meta.json" := MarshalIndent (as_floats meta) (Some (len mb))]> (<[str "metadata.bin" := mb]> (put_chunks out 0 ps)), st), d') /\
    a_BaseItems st = len base /\ a_TargetItems st = len target /\ a_Refs st = refs_of m target /\ a_Literals st = len target - refs_of m target /\
    a_Chunks st = len ps /\ a_BytesUncompressed st = len (frames target) /\ a_BytesCompressed st = len gz /\ a_MetadataBytes st = len mb.
Proof using Hblen BL.
  intros Hb Hlb Hlt Hob Hot Hr Hh Hck Hgz gz ps mb meta.
  destruct (index_base_spec batchLen Hblen (Z.shiftl 16 20) by_index base d Hlb Hob) as (d1 & E1 & Hd1).
  assert (Hget : forall i, 0 <= i < len base -> contents d1 !! be_bytes 8 i = base !! Z.to_nat i).
  { intros i Hi. rewrite Hd1, by_index_lookup, Z.sub_0_r by lia. done. }
  pose proof (length_ops m target).
  destruct (ops_loop_spec base Hlb m target (fuel_of (Source (ops_of m target) EOF)) [] (mkSSApply (len base) 0 0 0 0 0 0 0) d1 Hget
    ltac:(unfold fuel_of; cbn; lia) Hot Hr) as (st & E2 & H1 & H2 & H3 & H4).
  destruct (write_all_spec out CosmosSDKChunkSize ltac:(done) (deflate (frames target))) as (c & E3 & Hdir & Hhs & Hidx & Htot).
  fold gz in Hdir, Hhs, Hidx, Htot. fold ps in Hdir, Hhs, Hidx.
  eexists _, d1. unfold ApplyStateSync. rewrite ReadStateSyncHeader_write by (done || cbn; pose proof (len_nonneg target); lia).
  unfold lift_out, mbind, M_bind. cbn [wrap_out ss_file src_data]. rewrite Hck, Hb. cbn [wrap_out]. rewrite E1. rewrite inflate_deflate. cbn [wrap_out].
  unfold in_source. rewrite E2. cbn [snd app]. unfold write_chunks. unfold mbind, outcome_bind. rewrite E3.
  unfold write_meta, meta_of. rewrite Hdir, Hhs, Hidx, Htot. fold gz mb meta.
  assert (Hnum : meta_numbers meta = true).
  { pose proof (cut_pieces CosmosSDKChunkSize gz ltac:(done)) as Hc. fold ps in Hc. destruct Hh as (_ & HT & _). fold gz in Hgz.
    pose proof (len_nonneg ps). pose proof (len_nonneg gz).
    unfold meta_numbers, meta. cbn [forallb o_Height o_Format o_Chunks o_BytesTotal]. lia. }
  unfold patchMetaWithMetadataLen. rewrite lookup_insert_eq, Unmarshal_Marshal by (exact Hnum || apply hex_texts). cbn [mbind outcome_bind fst]. rewrite insert_insert_eq.
  split; [reflexivity|]. cbn in *. split_and!; (done || lia).
Qed.
End RoundTrip.

(** ** A body that is cut short *)

Lemma ReadUvarint_end st v st' : ReadUvarint st = (Ret v, st') -> src_end st' = src_end st.
Proof. destruct st as [b e], st' as [b' e']. by intros [-> _]%(ReadUvarint_app b e v b' e' []). Qed.

Lemma ReadFull_end n st v st' : ReadFull n st = (Ret v, st') -> src_end st' = src_end st.
Proof. unfold ReadFull. destruct (n <=? len (src_data st)); intros E; [by injection E as _ <-|done]. Qed.

Lemma wrap_err_ret {S A} msg (m : M S A) s a s' : wrap_err msg m s = (Ret a, s') -> m s = (Ret a, s').
Proof. unfold wrap_err. destruct (m s) as [[] ?]; by intros. Qed.

Section Truncated.
Context {DB SST : Type} `{PB : Pebble DB SST}.

Lemma on_src_ret {A} (m : M source A) (x : source * DB) a x' : on_src m x = (Ret a, x') -> m (fst x) = (Ret a, fst x') /\ snd x' = snd x.
Proof using Type. unfold on_src, zoom. destruct (m (fst x)) as [r s] eqn:E. intros [= -> <-]. done. Qed.

Lemma go_make_ret n s u s' : go_make n s = (Ret u, s') -> s' = s.
Proof using Type. unfold go_make. destruct (maxAlloc <? n); [done|]. by intros [_ ->]%ret_inj. Qed.

Lemma ops_loop_ends fuel : forall raw st x r x', ops_loop fuel raw st x = (Ret r, x') -> src_end (fst x) = EOF.
Proof using Type.
  induction fuel as [|fuel IH]; intros raw st x r x' E; [done|]. cbn [ops_loop] in E.
  destruct (on_src ReadByte x) as [[op|e| |] x1] eqn:Eb; [|destruct e; try done|done..].
  2: { unfold on_src, zoom, ReadByte in Eb. destruct (src_data (fst x)); [|done]. by injection Eb as ->. }
  apply on_src_ret in Eb as [Eb _]. assert (H1 : src_end (fst x1) = src_end (fst x)).
  { unfold ReadByte in Eb. destruct (src_data (fst x)); [done|]. by injection Eb as _ <-. }
  rewrite <- H1. destruct (byte.unsigned op =? OpRef).
  - apply bind_ret in E as (i & x2 & E2 & E). apply on_src_ret in E2 as [E2%wrap_err_ret _].
    apply ReadUvarint_end in E2. apply bind_ret in E as (v & x3 & E3 & E). unfold db_get in E3. apply ret_inj in E3 as [_ <-].
    destruct v; [|done]. rewrite <- E2. by eapply IH.
  - destruct (byte.unsigned op =? OpLiteral); [|done].
    apply bind_ret in E as (n & x2 & E2 & E). apply on_src_ret in E2 as [E2%wrap_err_ret _]. apply ReadUvarint_end in E2.
    apply bind_ret in E as (u & x3 & E3 & E). apply on_src_ret in E3 as [E3%go_make_ret _].
    apply bind_ret in E as (item & x4 & E4 & E). apply on_src_ret in E4 as [E4%wrap_err_ret _]. apply ReadFull_end in E4.
    rewrite <- E2, <- E3, <- E4. by eapply IH.
Qed.
End Truncated.

(** ** Main theorems *)

(** The headers of both diff formats read back as they were written, and
    leave the reader at the body; neither is taken for the other. *)
Theorem headers_roundtrip h n rest e : header_ok h -> 0 <= n < 2 ^ 64 ->
  ReadHeader (Source (WriteHeader h ++ rest) e) = (Ret h, Source rest e) /\
  ReadStateSyncHeader (Source (WriteStateSyncHeader (mkSSHeader h n) ++ rest) e) = (Ret (mkSSHeader h n), Source rest e) /\
  fst (ReadHeader (Source (WriteStateSyncHeader (mkSSHeader h n) ++ rest) e)) = Err (Errorf "bad magic") /\
  fst (ReadStateSyncHeader (Source (WriteHeader h ++ rest) e)) = Err (Errorf "bad magic").
Proof.
  intros Hh Hn. split_and!; [by apply ReadHeader_write|by apply ReadStateSyncHeader_write|..].
  - unfold ReadHeader, WriteStateSyncHeader. rewrite <- !app_assoc. unfold wrap_err, mbind, M_bind. read_field. by rewrite bool_decide_eq_false_2.
  - unfold ReadStateSyncHeader, WriteHeader. rewrite <- !app_assoc. unfold wrap_err, mbind, M_bind. read_field. by rewrite bool_decide_eq_false_2.
Qed.

(** C26: A state-sync diff computed between two snapshots and applied to the base gives
    the target back: the output directory holds the target's item stream in exactly
    the target's chunk files, with a metadata.bin of their hashes and a meta.json with
    the snapshot hash; every target item is a reference or a literal, and both sides
    count them alike.  This takes a target whose chunks are the output of the very
    compressor of the program, cut at 10 MiB (the source only assumes it, in
    statesync.go), and compressed to less than 2^32 bytes; an empty index database to
    compute with (ComputeStateSync opens what it finds in tmpDir) whose batches commit;
    an output directory without chunk files of before; fewer than 2^64 items on both
    sides, each of a length that the readers take; a header with hashes of at most
    1 MiB, of which that of the base is the one in its meta.json, if it has one; and
    items of which no two collide under sha256.  Batching of the indexes and the splitting of writes do not
    matter. *)
Theorem statesync_roundtrip {DB SST : Type} `{BL : BatchLaws DB SST} `{ZL : Zlib} `{MC : MetaCodec} batchLen
    baseDir targetDir outDir h base target (d1 d2 : DB) :
  (forall b, b <> [] -> 0 < batchLen b) ->
  newSnapItemReader baseDir = Ret (Source (frames base) EOF) -> snapshot_dir targetDir target -> no_chunks outDir ->
  len base < 2 ^ 64 -> Forall item_fits base -> Forall item_fits target -> no_collision base target ->
  0 < len (concat (deflate (frames target))) < 2 ^ 32 -> len target < 2 ^ 64 ->
  header_ok h -> check_base baseDir (BaseHashHex h) = Ret tt -> contents d1 = ∅ ->
  exists diff st d1' out st' d2',
    ComputeStateSync batchLen baseDir targetDir h d1 = (Ret (diff, st), d1') /\
    ApplyStateSync batchLen baseDir diff outDir d2 = (Ret (out, st'), d2') /\
    snapshot_dir out target /\
    (forall i, 0 <= i < a_Chunks st' -> out !! Scheduler.chunk_name i = targetDir !! Scheduler.chunk_name i) /\
    (let hs := map sha256 (cut CosmosSDKChunkSize (concat (deflate (frames target)))) in
     out !! str "metadata.bin" = Some (encodeMetadataProto hs) /\
     readSnapHashFromMeta out = Ret (computeSnapshotHash hs)) /\
    TargetItems st = len target /\ a_TargetItems st' = len target /\
    Refs st + Literals st = len target /\ a_Refs st' = Refs st /\ a_Literals st' = Literals st.
Proof.
  intros Hblen Hb Ht Hout Hlb Hob Hot Hc Hgz Hlt Hh Hck Hd.
  assert (Hne : concat (deflate (frames target)) <> []).
  { intros E. apply (f_equal len) in E. rewrite len_nil in E. lia. }
  pose proof (snapshot_reads targetDir target Ht Hne ltac:(lia)) as Htr.
  destruct (compute_spec batchLen Hblen baseDir targetDir h base target d1 Hb Htr Hlb Hob Hot Hc Hd) as (st & d1' & E1 & _ & H2 & H3 & H4).
  set (m := apply_writes _ _) in *.
  destruct (apply_spec batchLen Hblen baseDir h base target outDir m d2 Hb Hlb Hlt Hob Hot (index_refs base target Hc) Hh Hck ltac:(lia))
    as (st' & d2' & E2 & K1 & K2 & K3 & K4 & K5 & _).
  set (ps := cut CosmosSDKChunkSize (concat (deflate (frames target)))) in *.
  assert (Hps : len ps <= 2 ^ 32) by (pose proof (cut_pieces CosmosSDKChunkSize (concat (deflate (frames target))) ltac:(done)); unfold ps; lia).
  destruct hash_keys_not_chunks as [Hk1 Hk2].
  eexists _, st, d1', _, st', d2'. split; [exact E1|]. split; [exact E2|].
  assert (Hold : forall v, snapshot_dir (<[str "meta.json" := v]> (<[str "metadata.bin" := encodeMetadataProto (map sha256 ps)]> (put_chunks outDir 0 ps))) target).
  { intros v. apply holds_insert; [apply holds_insert; [apply put_chunks_holds; done|done..]|done..]. }
  split; [apply Hold|]. split; [|split; [split|]].
  - intros i Hi. rewrite K5 in Hi. destruct Ht as [Ht _]. rewrite Ht by exact Hi. by apply (proj1 (Hold _)).
  - by rewrite lookup_insert_ne, lookup_insert_eq.
  - unfold readSnapHashFromMeta. by rewrite lookup_insert_eq, DecodeHash_Marshal by apply hex_texts.
  - split_and!; (done || lia).
Qed.

(** C27: A diff whose compressed body stops early, however much of it was read
    (zlib then ends the stream with an error and not with io.EOF), is never applied:
    ApplyStateSync does not return a directory. *)
Theorem truncated_diff_rejected {DB SST : Type} `{PB : Pebble DB SST} `{ZL : Zlib} `{MC : MetaCodec} batchLen
    baseDir diff outDir (d d' : DB) r hdr rest body e :
  ReadStateSyncHeader (Source diff EOF) = (Ret hdr, rest) -> inflate (src_data rest) = Ret (Source body e) -> e <> EOF ->
  ApplyStateSync batchLen baseDir diff outDir d <> (Ret r, d').
Proof.
  intros Hh Hz He E. unfold ApplyStateSync in E. rewrite Hh, Hz in E.
  apply bind_ret in E as (hdr' & x1 & _ & E). apply bind_ret in E as (u & x2 & _ & E).
  apply bind_ret in E as (rd & x3 & _ & E). apply bind_ret in E as (idx & x4 & _ & E).
  apply bind_ret in E as (zr & x5 & Ez & E). apply ret_inj in Ez as [<- _].
  apply bind_ret in E as (x & x6 & Eo & _). unfold in_source in Eo.
  destruct (ops_loop _ _ _ _) as [r' x'] eqn:El. apply (f_equal fst) in Eo. cbn in Eo. subst r'.
  apply ops_loop_ends in El. done.
Qed.

(** ** Concrete instances *)

(** A marker byte in front, written on its own. *)
#[export] Instance marked : Zlib.
Proof.
  refine {| deflate d := [[byte.of_Z 120]; d];
            inflate b := match b with
                         | c :: d => if bool_decide (c = byte.of_Z 120) then Ret (Source d EOF) else Err (Errorf "zlib: invalid header")
                         | [] => Err EOF
                         end |}.
  intros d. cbn. by rewrite app_nil_r.
Defined.

(** Numbers in binary, one digit to a byte. *)
Fixpoint digits_of (p : positive) : bytes :=
  match p with xH => [] | xO p => byte.of_Z 48 :: digits_of p | xI p => byte.of_Z 49 :: digits_of p end.
Fixpoint of_digits (b : bytes) : positive :=
  match b with [] => xH | c :: b => if bool_decide (c = byte.of_Z 49) then xI (of_digits b) else xO (of_digits b) end.

Lemma of_digits_of p : of_digits (digits_of p) = p.
Proof. induction p as [p IH|p IH|]; cbn; by rewrite ?IH. Qed.

Definition meta_tuple (m : outMeta) (n : option Z) : Z * Z * Z * bytes * Z * list bytes * option Z :=
  (o_Height m, o_Format m, o_Chunks m, o_HashHex m, o_BytesTotal m, o_ChunkHashesHex m, n).

Definition decode_meta (b : bytes) : outcome (outMeta * option Z) :=
  match countable.decode (of_digits b) : option (Z * Z * Z * bytes * Z * list bytes * option Z) with
  | Some (h, f, c, x, t, l, n) => Ret (mkOutMeta h f c x t l, n)
  | None => Err (Errorf "invalid character")
  end.

#[export] Instance counted_meta : MetaCodec.
Proof.
  refine {| MarshalIndent m n := digits_of (countable.encode (meta_tuple m n));
            Unmarshal := decode_meta;
            DecodeHash b := x ← decode_meta b; mret (o_HashHex (fst x)) |}.
  - intros [] n _ _. unfold decode_meta. by rewrite of_digits_of, countable.decode_encode.
  - intros [] n _. unfold decode_meta. by rewrite of_digits_of, countable.decode_encode.
Defined.

Definition sample_header : FileHeader := mkHeader 100 200 (str "aa") (str "bb").
Definition sample_base : list bytes := [str "one"; str "two"].
Definition sample_target : list bytes := [str "two"; str "three"; str "one"].

Definition sample_dir (items : list bytes) : dir := put_chunks ∅ 0 (cut CosmosSDKChunkSize (concat (deflate (frames items)))).

Lemma headers_roundtrip_witness :
  ReadHeader (Source (WriteHeader sample_header ++ str "xyz") EOF) = (Ret sample_header, Source (str "xyz") EOF).
Proof. apply (headers_roundtrip sample_header 7 (str "xyz") EOF); [|lia]. by repeat split. Defined.

Lemma len_compressed items : len (concat (deflate (frames items))) = 1 + len (frames items).
Proof. cbn. rewrite app_nil_r. apply len_cons. Qed.

Lemma empty_no_chunks : no_chunks ∅.
Proof. intros n [? Hn]. by rewrite lookup_empty in Hn. Qed.

Lemma sample_dir_ok items : len (frames items) < 2 ^ 20 -> snapshot_dir (sample_dir items) items.
Proof.
  intros Hi. apply put_chunks_holds.
  - exact empty_no_chunks.
  - pose proof (cut_pieces CosmosSDKChunkSize (concat (deflate (frames items))) ltac:(done)). rewrite len_compressed in *. lia.
Qed.

Definition collision_free (base target : list bytes) : bool :=
  forallb (fun x => forallb (fun y => bool_decide (x = y) || negb (bool_decide (sha256 x = sha256 y))) target) base.

Lemma collision_free_ok base target : collision_free base target = true -> no_collision base target.
Proof.
  unfold collision_free. rewrite forallb_forall. intros H x y Hx%list_elem_of_In Hy%list_elem_of_In E.
  specialize (H x Hx). rewrite forallb_forall in H. specialize (H y Hy).
  apply orb_true_iff in H as [H|H]; [by apply bool_decide_eq_true_1 in H|].
  apply negb_true_iff, bool_decide_eq_false_1 in H. done.
Qed.

Lemma sample_no_meta items : len (frames items) < 2 ^ 20 -> check_base (sample_dir items) (str "aa") = Ret tt.
Proof.
  intros Hi. unfold check_base, readSnapHashFromMeta, sample_dir.
  pose proof (cut_pieces CosmosSDKChunkSize (concat (deflate (frames items))) ltac:(done)). rewrite len_compressed in *.
  rewrite put_chunks_lookup by lia. destruct hash_keys_not_chunks as [_ ->]. by rewrite lookup_empty.
Qed.

Lemma len_batch (b : list write) : b <> [] -> 0 < len b.
Proof. destruct b as [|w b]; [done|]. intros _. rewrite len_cons. pose proof (len_nonneg b). lia. Qed.

Lemma sample_reads items : len (frames items) < 2 ^ 20 -> newSnapItemReader (sample_dir items) = Ret (Source (frames items) EOF).
Proof.
  intros Hi. apply snapshot_reads; [by apply sample_dir_ok|done|]. rewrite len_compressed. lia.
Qed.

Lemma statesync_roundtrip_witness :
  exists diff st d1 out st' d2,
    ComputeStateSync (SST := list write) len (sample_dir sample_base) (sample_dir sample_target) sample_header (∅ : dir) = (Ret (diff, st), d1) /\
    ApplyStateSync (SST := list write) len (sample_dir sample_base) diff ∅ (∅ : dir) = (Ret (out, st'), d2) /\
    snapshot_dir out sample_target.
Proof.
  destruct (statesync_roundtrip (DB := dir) (SST := list write) len (sample_dir sample_base) (sample_dir sample_target) ∅ sample_header
    sample_base sample_target ∅ ∅) as (diff & st & d1 & out & st' & d2 & E1 & E2 & E3 & _).
  - exact len_batch.
  - by apply sample_reads.
  - by apply sample_dir_ok.
  - exact empty_no_chunks.
  - vm_compute. reflexivity.
  - repeat (constructor; [by split; vm_compute|]). constructor.
  - repeat (constructor; [by split; vm_compute|]). constructor.
  - apply collision_free_ok. vm_compute. reflexivity.
  - by rewrite len_compressed.
  - done.
  - by repeat split.
  - by apply sample_no_meta.
  - done.
  - exists diff, st, d1, out, st', d2. exact (conj E1 (conj E2 E3)).
Defined.

(** The same zlib, but for a stream that was cut off: after the two bytes of the file
    there is no checksum. *)
Definition cut_off : Zlib.
Proof.
  refine {| deflate d := [[byte.of_Z 120]; d];
            inflate b := match b with
                         | c :: d => if bool_decide (c = byte.of_Z 120) then Ret (Source d EOF) else Ret (Source d ErrUnexpectedEOF)
                         | [] => Err EOF
                         end |}.
  intros d. cbn. by rewrite app_nil_r.
Defined.

Lemma truncated_diff_rejected_witness :
  match fst (ApplyStateSync (ZL := cut_off) (SST := list write) len (sample_dir sample_base)
    (WriteStateSyncHeader (mkSSHeader sample_header 1) ++ bs [99; 1; 3]) ∅ (∅ : dir)) with Ret _ => False | _ => True end.
Proof.
  destruct (ApplyStateSync _ _ _ _ _) as [[r|e|w|] d'] eqn:E; try exact I.
  revert E. apply (truncated_diff_rejected (ZL := cut_off) (SST := list write)) with (hdr := mkSSHeader sample_header 1)
    (rest := Source (bs [99; 1; 3]) EOF) (body := bs [1; 3]) (e := ErrUnexpectedEOF); [|reflexivity|done].
  apply ReadStateSyncHeader_write; [by repeat split|done].
Defined.
