(* ===== verification/Diff.v ===== *)
(** * The key-value diff (internal/snapshotdiff: diff.go, apply.go, verify.go)

    A CSDF diff lists, store by store, the keys inserted, updated and deleted between
    two snapshots, and the extension payloads added and removed.  This file is the
    model: the snapshot reader with one item of lookahead, the differ that merges two
    readers, the reader of the diff, the applier and the verifier.  [DiffProof] has
    the theorems. *)

From S2P Require Import Prelude Sha256 Varint CommitInfo SnapProto Serve DiffSync.

(** ** Records of the diff *)

Definition tagStoreEnter : Z := 1.
Definition tagStoreLeave : Z := 2.
Definition tagInsert : Z := 3.
Definition tagUpdate : Z := 4.
Definition tagDelete : Z := 5.
Definition tagExtEnter : Z := 6.
Definition tagExtLeave : Z := 7.
Definition tagExtAdd : Z := 8.
Definition tagExtRemove : Z := 9.

Definition encBytesField (field : Z) (b : bytes) : bytes := appendBytesField [] field b.
Definition encStringField (field : Z) (s : bytes) : bytes := encBytesField field s.
Definition encVarintField (field v : Z) : bytes := appendUvarintField [] field v.
Definition buildOneOfMessage (oneofTag : Z) (innerFields : list bytes) : bytes :=
  appendBytesField [] oneofTag (concat innerFields).

Definition bytesEqual (a b : bytes) : bool := bool_decide (a = b).

Fixpoint bytesCompare (a b : bytes) : Z :=
  match a, b with
  | [], [] => 0
  | [], _ => -1
  | _, [] => 1
  | x :: a, y :: b =>
      if byte.unsigned x <? byte.unsigned y then -1
      else if byte.unsigned y <? byte.unsigned x then 1
      else bytesCompare a b
  end.

(** ** Parsing items *)

Definition parseStoreName (buf : bytes) : outcome bytes :=
  match buf with
  | [] => Ret []
  | c :: r =>
      if negb (byte.unsigned c =? 10) then Ret [] else
      let '(nameLen, m) := Uvarint r in
      if (m <=? 0) || (len buf <? i64 (1 + m + i64 nameLen)) then Ret []
      else go_slice buf (1 + m) (i64 (1 + m + i64 nameLen))
  end.

Definition parseExtPayload (buf : bytes) : outcome bytes :=
  match buf with
  | [] => Ret []
  | c :: r =>
      if negb (byte.unsigned c =? 10) then Ret [] else
      let '(ln, m) := Uvarint r in
      if (m <=? 0) || (len buf <? i64 (1 + m + i64 ln)) then Ret []
      else go_slice buf (1 + m) (i64 (1 + m + i64 ln))
  end.

(** A length-delimited field at [i], after its tag: the bytes and the index after
    them, or [None] where the code gives up. *)
Definition take_field (buf : bytes) (i : Z) : outcome (option (bytes * Z)) :=
  rest ← go_from buf i;
  let '(ln, m) := Uvarint rest in
  if (m <=? 0) || (len buf <? i64 (i + m + i64 ln)) then Ret None
  else
    v ← go_slice buf (i + m) (i64 (i + m + i64 ln));
    Ret (Some (v, i64 (i + m + i64 ln))).

Fixpoint parseIAVLKeyValue_loop (fuel : nat) (buf : bytes) (i : Z) (key value : bytes) : outcome (bytes * bytes) :=
  if negb (i <? len buf) then Ret (key, value) else
  match fuel with
  | O => NoFuel
  | S fuel =>
      tag ← go_index buf i;
      let i := i + 1 in
      if byte.unsigned tag =? 10 then
        f ← take_field buf i;
        match f with
        | None => Ret (key, value)
        | Some (v, i) => parseIAVLKeyValue_loop fuel buf i v value
        end
      else if byte.unsigned tag =? 18 then
        f ← take_field buf i;
        match f with
        | None => Ret (key, value)
        | Some (v, i) => parseIAVLKeyValue_loop fuel buf i key v
        end
      else
        next ← skip_field buf tag i;
        match next with
        | None => Ret (key, value)
        | Some i => parseIAVLKeyValue_loop fuel buf i key value
        end
  end.
Definition parseIAVLKeyValue (buf : bytes) : outcome (bytes * bytes) :=
  parseIAVLKeyValue_loop (S (length buf)) buf 0 [] [].

Fixpoint parseExtMeta_loop (fuel : nat) (buf : bytes) (i : Z) (name : bytes) (format : Z) : outcome (bytes * Z) :=
  if negb (i <? len buf) then Ret (name, format) else
  match fuel with
  | O => NoFuel
  | S fuel =>
      tag ← go_index buf i;
      let i := i + 1 in
      if byte.unsigned tag =? 10 then
        f ← take_field buf i;
        match f with
        | None => Ret (name, format)
        | Some (v, i) => parseExtMeta_loop fuel buf i v format
        end
      else if byte.unsigned tag =? 16 then
        rest ← go_from buf i;
        let '(v, m) := Uvarint rest in
        if m <=? 0 then Ret (name, format) else parseExtMeta_loop fuel buf (i + m) name (u32 v)
      else
        next ← skip_field buf tag i;
        match next with
        | None => Ret (name, format)
        | Some i => parseExtMeta_loop fuel buf i name format
        end
  end.
Definition parseExtMeta (buf : bytes) : outcome (bytes * Z) :=
  parseExtMeta_loop (S (length buf)) buf 0 [] 0.

Fixpoint isLeafIAVL_loop (fuel : nat) (body : bytes) (i : Z) : outcome bool :=
  if negb (i <? len body) then Ret true else
  match fuel with
  | O => NoFuel
  | S fuel =>
      tag ← go_index body i;
      let i := i + 1 in
      if byte.unsigned tag =? 32 then
        rest ← go_from body i;
        let '(v, m) := Uvarint rest in
        Ret (if m <=? 0 then true else v =? 0)
      else
        next ← skip_field body tag i;
        match next with
        | None => Ret true
        | Some i => isLeafIAVL_loop fuel body i
        end
  end.
Definition isLeafIAVL (body : bytes) : outcome bool := isLeafIAVL_loop (S (length body)) body 0.

(** parseProtoBytes and parseProtoVarint are the getters of the importer once more,
    line by line; [nil] and the empty slice are used alike. *)
Definition parseProtoBytes (buf : bytes) (field : Z) : outcome bytes :=
  v ← getBytesField buf field; Ret (default [] v).
Definition parseProtoVarint (buf : bytes) (field : Z) : outcome Z := getVarintField buf field.

(** ** The snapshot reader *)

Record extData := mkExtData { x_format : Z; payloads : list bytes }.

Record storeReader := mkSR {
  br : source;
  curStore : bytes;
  currentName : bytes;
  currentFormat : Z;
  all : gmap bytes extData;
  cached : option (Z * bytes)
}.

Definition set_src (b : source) (s : storeReader) : storeReader := mkSR b (curStore s) (currentName s) (currentFormat s) (all s) (cached s).
Definition set_cur (n : bytes) (s : storeReader) : storeReader := mkSR (br s) n (currentName s) (currentFormat s) (all s) (cached s).
Definition set_cached (c : option (Z * bytes)) (s : storeReader) : storeReader := mkSR (br s) (curStore s) (currentName s) (currentFormat s) (all s) c.
Definition set_ext (n : bytes) (f : Z) (a : gmap bytes extData) (s : storeReader) : storeReader := mkSR (br s) (curStore s) n f a (cached s).

Definition newStoreReader `{Zlib} (d : dir) : outcome storeReader :=
  src ← newSnapItemReader d; Ret (mkSR src [] [] 0 ∅ None).

(** The item of an envelope: its field number and its body; a malformed one is kept whole. *)
Definition split_item (buf : bytes) : outcome (Z * bytes) :=
  c ← go_index buf 0;
  let t := Z.shiftr (byte.unsigned c) 3 in
  rest ← go_from buf 1;
  let '(innerLen, n) := Uvarint rest in
  if (n <=? 0) || (len buf - 1 - n <? i64 innerLen) then Ret (t, buf)
  else
    body ← go_slice buf (1 + n) (i64 (1 + n + i64 innerLen));
    Ret (t, body).

(** The envelope is what snapItemReader returns. *)
Definition peekItem : M storeReader (option (Z * bytes)) := fun s =>
  match cached s with
  | Some it => (Ret (Some it), s)
  | None =>
      (x ← zoom br set_src item_Next;
       match x with
       | None => mret None
       | Some buf => it ← lift_out (split_item buf); _ ← modify (set_cached (Some it)); mret (Some it)
       end) s
  end.
Definition consumeItem : M storeReader unit := modify (set_cached None).

(** Every turn of a loop over items uses one up: what is left of the stream, the
    cached item and one for the end are enough. *)
Definition items_left (s : storeReader) : nat := S (S (length (src_data (br s)))).

(** [(name, done)]. *)
Fixpoint peekStore_loop (fuel : nat) : M storeReader (bytes * bool) :=
  match fuel with
  | O => fun s => (NoFuel, s)
  | S fuel =>
      it ← peekItem;
      match it with
      | None => mret ([], true)
      | Some (tag, body) =>
          if tag =? 1 then
            storeName ← lift_out (parseStoreName body);
            _ ← modify (set_cur storeName); _ ← consumeItem;
            s ← get; mret (curStore s, false)
          else if (tag =? 3) || (tag =? 4) then mret ([], true)
          else _ ← consumeItem; peekStore_loop fuel
      end
  end.
Definition peekStore : M storeReader (bytes * bool) := fun s =>
  if negb (bool_decide (curStore s = [])) then (Ret (curStore s, false), s) else peekStore_loop (items_left s) s.

(** [done], and the record the callback was given, if any. *)
Definition readNextItemInStoreRaw (expectStore : bytes) : M storeReader (bool * option bytes) :=
  s ← get;
  if negb (bool_decide (curStore s = expectStore)) then mret (true, None) else
  it ← peekItem;
  match it with
  | None => _ ← modify (set_cur []); mret (true, None)
  | Some (tag, body) =>
      if tag =? 2 then _ ← consumeItem; mret (false, Some body)
      else if tag =? 1 then _ ← modify (set_cur []); mret (true, None)
      else if (tag =? 3) || (tag =? 4) then _ ← modify (set_cur []); mret (true, None)
      else _ ← consumeItem; mret (false, None)
  end.

(** The loop of the [advance] closures: the next leaf of the store, if there is one. *)
Fixpoint next_leaf_loop (fuel : nat) (name : bytes) : M storeReader (option bytes) :=
  match fuel with
  | O => fun s => (NoFuel, s)
  | S fuel =>
      x ← readNextItemInStoreRaw name;
      match x with
      | (true, _) => mret None
      | (false, None) => next_leaf_loop fuel name
      | (false, Some rec) =>
          leaf ← lift_out (isLeafIAVL rec);
          if leaf : bool then mret (Some rec) else next_leaf_loop fuel name
      end
  end.
Definition next_leaf (name : bytes) : M storeReader (option bytes) := fun s => next_leaf_loop (items_left s) name s.

Definition add_payload (n p : bytes) (a : gmap bytes extData) : gmap bytes extData :=
  match a !! n with
  | None => a
  | Some x => <[n := mkExtData (x_format x) (payloads x ++ [p])]> a
  end.

Fixpoint readAllExtensions_loop (fuel : nat) : M storeReader (gmap bytes extData) :=
  match fuel with
  | O => fun s => (NoFuel, s)
  | S fuel =>
      it ← peekItem;
      match it with
      | None => s ← get; mret (all s)
      | Some (tag, body) =>
          _ ← (if tag =? 3 then
                 x ← lift_out (parseExtMeta body);
                 let '(name, format) := x in
                 modify (fun s => set_ext name format
                   (match all s !! name with None => <[name := mkExtData format []]> (all s) | Some _ => all s end) s)
               else if tag =? 4 then
                 payload ← lift_out (parseExtPayload body);
                 modify (fun s => if bool_decide (currentName s = []) then s
                                  else set_ext (currentName s) (currentFormat s) (add_payload (currentName s) payload (all s)) s)
               else mret tt);
          _ ← consumeItem;
          readAllExtensions_loop fuel
      end
  end.
Definition readAllExtensions : M storeReader (gmap bytes extData) := fun s => readAllExtensions_loop (items_left s) s.

(** ** Computing *)

Record StoreStats := mkStoreStats { s_BaseItems : Z; s_TargetItems : Z; s_Inserts : Z; s_Updates : Z; s_Deletes : Z }.
Definition noStats : StoreStats := mkStoreStats 0 0 0 0 0.

Record Stats := mkStats {
  Stores : Z;
  Extensions : Z;
  Inserts : Z;
  Updates : Z;
  Deletes : Z;
  ExtAdds : Z;
  ExtRemoves : Z;
  PerStore : gmap bytes StoreStats
}.

(** The differ: both readers, the records written, the stats, those of the store. *)
Record differ := mkDiffer {
  baseRdr : storeReader;
  targetRdr : storeReader;
  d_out : list bytes;
  stats : Stats;
  ss : StoreStats
}.

Definition in_base {A} (m : M storeReader A) : M differ A :=
  zoom baseRdr (fun b d => mkDiffer b (targetRdr d) (d_out d) (stats d) (ss d)) m.
Definition in_target {A} (m : M storeReader A) : M differ A :=
  zoom targetRdr (fun t d => mkDiffer (baseRdr d) t (d_out d) (stats d) (ss d)) m.
Definition emit (record : bytes) : M differ unit :=
  modify (fun d => mkDiffer (baseRdr d) (targetRdr d) (d_out d ++ [record]) (stats d) (ss d)).
Definition upd_stats (f : Stats -> Stats) : M differ unit :=
  modify (fun d => mkDiffer (baseRdr d) (targetRdr d) (d_out d) (f (stats d)) (ss d)).
Definition upd_ss (f : StoreStats -> StoreStats) : M differ unit :=
  modify (fun d => mkDiffer (baseRdr d) (targetRdr d) (d_out d) (stats d) (f (ss d))).

Definition count_base (s : StoreStats) := mkStoreStats (s_BaseItems s + 1) (s_TargetItems s) (s_Inserts s) (s_Updates s) (s_Deletes s).
Definition count_target (s : StoreStats) := mkStoreStats (s_BaseItems s) (s_TargetItems s + 1) (s_Inserts s) (s_Updates s) (s_Deletes s).

(** A reader may be nil; then its side stays empty. *)
Definition advanceBase (has : bool) (name : bytes) : M differ (option bytes) :=
  if has then
    r ← in_base (next_leaf name);
    _ ← (match r with Some _ => upd_ss count_base | None => mret tt end);
    mret r
  else mret None.
Definition advanceTarget (has : bool) (name : bytes) : M differ (option bytes) :=
  if has then
    r ← in_target (next_leaf name);
    _ ← (match r with Some _ => upd_ss count_target | None => mret tt end);
    mret r
  else mret None.

Definition emit_insert (k v : bytes) : M differ unit :=
  _ ← upd_ss (fun s => mkStoreStats (s_BaseItems s) (s_TargetItems s) (s_Inserts s + 1) (s_Updates s) (s_Deletes s));
  _ ← upd_stats (fun s => mkStats (Stores s) (Extensions s) (Inserts s + 1) (Updates s) (Deletes s) (ExtAdds s) (ExtRemoves s) (PerStore s));
  emit (buildOneOfMessage tagInsert [encBytesField 1 k; encBytesField 2 v]).
Definition emit_delete (k : bytes) : M differ unit :=
  _ ← upd_ss (fun s => mkStoreStats (s_BaseItems s) (s_TargetItems s) (s_Inserts s) (s_Updates s) (s_Deletes s + 1));
  _ ← upd_stats (fun s => mkStats (Stores s) (Extensions s) (Inserts s) (Updates s) (Deletes s + 1) (ExtAdds s) (ExtRemoves s) (PerStore s));
  emit (buildOneOfMessage tagDelete [encBytesField 1 k]).
Definition emit_update (k v : bytes) : M differ unit :=
  _ ← upd_ss (fun s => mkStoreStats (s_BaseItems s) (s_TargetItems s) (s_Inserts s) (s_Updates s + 1) (s_Deletes s));
  _ ← upd_stats (fun s => mkStats (Stores s) (Extensions s) (Inserts s) (Updates s + 1) (Deletes s) (ExtAdds s) (ExtRemoves s) (PerStore s));
  emit (buildOneOfMessage tagUpdate [encBytesField 1 k; encBytesField 2 v]).

(** The merge of the leaves of one store, by whole records. *)
Fixpoint diff_loop (fuel : nat) (hasB hasT : bool) (name : bytes) (b t : option bytes) : M differ unit :=
  match fuel with
  | O => fun s => (NoFuel, s)
  | S fuel =>
      let go := diff_loop fuel hasB hasT name in
      match b, t with
      | None, None => mret tt
      | None, Some targetRec =>
          kv ← lift_out (parseIAVLKeyValue targetRec);
          _ ← emit_insert (fst kv) (snd kv);
          t ← advanceTarget hasT name; go None t
      | Some baseRec, None =>
          kv ← lift_out (parseIAVLKeyValue baseRec);
          _ ← emit_delete (fst kv);
          b ← advanceBase hasB name; go b None
      | Some baseRec, Some targetRec =>
          let cmp := bytesCompare baseRec targetRec in
          if cmp =? 0 then
            b ← advanceBase hasB name; t ← advanceTarget hasT name; go b t
          else
            bkv ← lift_out (parseIAVLKeyValue baseRec);
            tkv ← lift_out (parseIAVLKeyValue targetRec);
            if bytesEqual (fst bkv) (fst tkv) then
              _ ← emit_update (fst bkv) (snd tkv);
              b ← advanceBase hasB name; t ← advanceTarget hasT name; go b t
            else if cmp <? 0 then
              _ ← emit_delete (fst bkv);
              b ← advanceBase hasB name; go b t
            else
              _ ← emit_insert (fst tkv) (snd tkv);
              t ← advanceTarget hasT name; go b t
      end
  end.

(** A turn of the merge uses up a leaf of one side. *)
Definition leaves_left (d : differ) : nat := S (items_left (baseRdr d) + items_left (targetRdr d)).

Definition diffStore (hasB hasT : bool) (name : bytes) : M differ unit :=
  _ ← emit (buildOneOfMessage tagStoreEnter [encStringField 1 name]);
  _ ← upd_stats (fun s => mkStats (Stores s + 1) (Extensions s) (Inserts s) (Updates s) (Deletes s) (ExtAdds s) (ExtRemoves s) (PerStore s));
  d ← get;
  _ ← upd_ss (fun _ => default noStats (PerStore (stats d) !! name));
  b ← advanceBase hasB name;
  t ← advanceTarget hasT name;
  _ ← diff_loop (leaves_left d) hasB hasT name b t;
  _ ← emit (buildOneOfMessage tagStoreLeave []);
  d ← get;
  upd_stats (fun s => mkStats (Stores s) (Extensions s) (Inserts s) (Updates s) (Deletes s) (ExtAdds s) (ExtRemoves s) (<[name := ss d]> (PerStore s))).

(** The stores of both sides, in the order of their names; a turn leaves one behind. *)
Fixpoint stores_loop (fuel : nat) : M differ unit :=
  match fuel with
  | O => fun s => (NoFuel, s)
  | S fuel =>
      b ← in_base peekStore;
      t ← in_target peekStore;
      let '(baseStore, baseDone) := b in
      let '(targetStore, targetDone) := t in
      if (baseDone && targetDone) : bool then mret tt else
      _ ← (if (baseDone : bool) then diffStore false true targetStore
           else if (targetDone : bool) then diffStore true false baseStore
           else if bytes_ltb baseStore targetStore then diffStore true false baseStore
           else if bytes_ltb targetStore baseStore then diffStore false true targetStore
           else diffStore true true baseStore);
      stores_loop fuel
  end.

Section Computing.
(** The order in which Go visits a set of hashes: some permutation of it, different at
    every place. *)
Context (visit : bytes -> bool -> list bytes -> list bytes).

(** A map from hash to payload, the last payload of a hash. *)
Definition by_payload_hash (ps : list bytes) : gmap bytes bytes :=
  fold_left (fun m p => <[sha256 p := p]> m) ps ∅.

Definition sorted_names (a b : gmap bytes extData) : list bytes :=
  merge_sort bytes_le (elements (dom a ∪ dom b : gset bytes)).

Definition ext_format (base target : option extData) : Z :=
  match base, target with
  | Some b, _ => x_format b
  | None, Some t => x_format t
  | None, None => 1
  end.
Definition ext_payloads (x : option extData) : list bytes := match x with Some x => payloads x | None => [] end.

Definition count_remove (s : Stats) := mkStats (Stores s) (Extensions s) (Inserts s) (Updates s) (Deletes s) (ExtAdds s) (ExtRemoves s + 1) (PerStore s).
Definition count_add (s : Stats) := mkStats (Stores s) (Extensions s) (Inserts s) (Updates s) (Deletes s) (ExtAdds s + 1) (ExtRemoves s) (PerStore s).

(** A hash of the base that the target lacks: the first payload that has it. *)
Definition emit_remove (base : list bytes) (targetByHash : gmap bytes bytes) (h : bytes) : M differ unit :=
  match targetByHash !! h with
  | Some _ => mret tt
  | None =>
      match list_find (fun p => sha256 p = h) base with
      | Some (_, p) => _ ← upd_stats count_remove; emit (buildOneOfMessage tagExtRemove [encBytesField 1 p])
      | None => mret tt
      end
  end.
Definition emit_add (baseHashes : gset bytes) (targetByHash : gmap bytes bytes) (h : bytes) : M differ unit :=
  match targetByHash !! h with
  | Some p => if bool_decide (h ∈ baseHashes) then mret tt
              else _ ← upd_stats count_add; emit (buildOneOfMessage tagExtAdd [encBytesField 1 p])
  | None => mret tt
  end.

Fixpoint each {S A} (f : A -> M S unit) (l : list A) : M S unit :=
  match l with
  | [] => mret tt
  | x :: l => _ ← f x; each f l
  end.

Definition diff_ext (baseExt targetExt : gmap bytes extData) (name : bytes) : M differ unit :=
  _ ← upd_stats (fun s => mkStats (Stores s) (Extensions s + 1) (Inserts s) (Updates s) (Deletes s) (ExtAdds s) (ExtRemoves s) (PerStore s));
  let base := baseExt !! name in
  let target := targetExt !! name in
  _ ← emit (buildOneOfMessage tagExtEnter [encStringField 1 name; encVarintField 2 (ext_format base target)]);
  let baseHashes := list_to_set (map sha256 (ext_payloads base)) : gset bytes in
  let targetByHash := by_payload_hash (ext_payloads target) in
  _ ← each (emit_remove (ext_payloads base) targetByHash) (visit name false (elements baseHashes));
  _ ← each (emit_add baseHashes targetByHash) (visit name true (elements (dom targetByHash : gset bytes)));
  emit (buildOneOfMessage tagExtLeave []).

Definition diffExtensions : M differ unit :=
  baseExt ← in_base readAllExtensions;
  targetExt ← in_target readAllExtensions;
  each (diff_ext baseExt targetExt) (sorted_names baseExt targetExt).

Definition computeStream : M differ unit :=
  d ← get;
  _ ← stores_loop (leaves_left d);
  diffExtensions.

(** The file, and the stats with the sizes of the body before and after compression. *)
Definition Compute `{Zlib} (baseDir targetDir : dir) (h : FileHeader) : outcome (bytes * Stats * Z * Z) :=
  b ← wrap_out "open base" (newStoreReader baseDir);
  t ← wrap_out "open target" (newStoreReader targetDir);
  let '(r, d) := computeStream (mkDiffer b t [] (mkStats 0 0 0 0 0 0 0 ∅) noStats) in
  _ ← r;
  let body := frames (d_out d) in
  let gz := concat (deflate body) in
  Ret (WriteHeader h ++ gz, stats d, len body, len gz).
End Computing.

(** ** Reading a diff *)

Definition sectionStore : Z := 1.
Definition sectionExt : Z := 2.

Record diffReader := mkDR {
  dr : source;
  pending : option (Z * bytes);
  eof : bool
}.

Definition newDiffReader (s : source) : diffReader := mkDR s None false.

(** A body that breaks off anywhere counts as ended: [io.ErrUnexpectedEOF] is taken for
    the end like [io.EOF]. *)
Definition peekRecord_read (d : diffReader) (r : outcome (option bytes)) (s : source) : outcome (option (Z * bytes)) * diffReader :=
  match r with
  | Ret None | Err EOF | Err ErrUnexpectedEOF => (Ret None, mkDR s None true)
  | Ret (Some rec) =>
      match (c ← go_index rec 0;
             rest ← go_from rec 1;
             let outerTag := Z.shiftr (byte.unsigned c) 3 in
             let '(innerLen, n) := Uvarint rest in
             if (n <=? 0) || (len rec - 1 - n <? i64 innerLen) then Err (Errorf "malformed diff record")
             else body ← go_slice rec (1 + n) (i64 (1 + n + i64 innerLen)); Ret (outerTag, body)) with
      | Ret x => (Ret (Some x), mkDR s (Some x) false)
      | Err e => (Err e, mkDR s None false)
      | Panic w => (Panic w, mkDR s None false)
      | NoFuel => (NoFuel, mkDR s None false)
      end
  | Err e => (Err e, mkDR s None false)
  | Panic w => (Panic w, mkDR s None false)
  | NoFuel => (NoFuel, mkDR s None false)
  end.

(** The read is that of an item: a length, zero lengths skipped, and the bytes. *)
Definition peekRecord : M diffReader (option (Z * bytes)) := fun d =>
  if eof d then (Ret None, d) else
  match pending d with
  | Some x => (Ret (Some x), d)
  | None => let '(r, s) := item_Next (dr d) in peekRecord_read d r s
  end.
Definition consumeRecord : M diffReader unit := modify (fun d => mkDR (dr d) None (eof d)).

Definition records_left (d : diffReader) : nat := S (S (length (src_data (dr d)))).

(** [(kind, name, format)], or [None] at the end. *)
Fixpoint peekSection_loop (fuel : nat) : M diffReader (option (Z * bytes * Z)) :=
  match fuel with
  | O => fun s => (NoFuel, s)
  | S fuel =>
      r ← peekRecord;
      match r with
      | None => mret None
      | Some (tag, body) =>
          if tag =? tagStoreEnter then
            name ← lift_out (parseProtoBytes body 1); mret (Some (sectionStore, name, 0))
          else if tag =? tagExtEnter then
            name ← lift_out (parseProtoBytes body 1);
            format ← lift_out (parseProtoVarint body 2);
            mret (Some (sectionExt, name, u32 format))
          else _ ← consumeRecord; peekSection_loop fuel
      end
  end.
Definition peekSection : M diffReader (option (Z * bytes * Z)) := fun d => peekSection_loop (records_left d) d.
Definition consumeSection : M diffReader unit := consumeRecord.

Record storeChanges := mkChanges {
  deletes : gset bytes;
  updates : gmap bytes bytes;
  inserts : gmap bytes bytes
}.
Definition newStoreChanges : storeChanges := mkChanges ∅ ∅ ∅.

Fixpoint readStoreChanges_loop (fuel : nat) (ch : storeChanges) : M diffReader storeChanges :=
  match fuel with
  | O => fun s => (NoFuel, s)
  | S fuel =>
      r ← peekRecord;
      match r with
      | None => mret ch
      | Some (tag, body) =>
          if tag =? tagStoreLeave then _ ← consumeRecord; mret ch
          else if tag =? tagInsert then
            _ ← consumeRecord;
            k ← lift_out (parseProtoBytes body 1);
            v ← lift_out (parseProtoBytes body 2);
            readStoreChanges_loop fuel (mkChanges (deletes ch) (updates ch) (<[k := v]> (inserts ch)))
          else if tag =? tagUpdate then
            _ ← consumeRecord;
            k ← lift_out (parseProtoBytes body 1);
            v ← lift_out (parseProtoBytes body 2);
            readStoreChanges_loop fuel (mkChanges (deletes ch) (<[k := v]> (updates ch)) (inserts ch))
          else if tag =? tagDelete then
            _ ← consumeRecord;
            k ← lift_out (parseProtoBytes body 1);
            readStoreChanges_loop fuel (mkChanges ({[k]} ∪ deletes ch) (updates ch) (inserts ch))
          else if (tag =? tagStoreEnter) || (tag =? tagExtEnter) then mret ch
          else _ ← consumeRecord; readStoreChanges_loop fuel ch
      end
  end.
Definition readStoreChanges : M diffReader storeChanges := fun d => readStoreChanges_loop (records_left d) newStoreChanges d.

Record extChangeSet := mkExtChanges { format : Z; removes : gset bytes; adds : list bytes }.

Fixpoint readExtChanges_loop (fuel : nat) (ch : extChangeSet) : M diffReader extChangeSet :=
  match fuel with
  | O => fun s => (NoFuel, s)
  | S fuel =>
      r ← peekRecord;
      match r with
      | None => mret ch
      | Some (tag, body) =>
          if tag =? tagExtLeave then _ ← consumeRecord; mret ch
          else if tag =? tagExtAdd then
            _ ← consumeRecord;
            p ← lift_out (parseProtoBytes body 1);
            readExtChanges_loop fuel (mkExtChanges (format ch) (removes ch) (adds ch ++ [p]))
          else if tag =? tagExtRemove then
            _ ← consumeRecord;
            p ← lift_out (parseProtoBytes body 1);
            readExtChanges_loop fuel (mkExtChanges (format ch) ({[sha256 p]} ∪ removes ch) (adds ch))
          else if (tag =? tagStoreEnter) || (tag =? tagExtEnter) then mret ch
          else _ ← consumeRecord; readExtChanges_loop fuel ch
      end
  end.
Definition readExtChanges (fmt : Z) : M diffReader extChangeSet := fun d =>
  readExtChanges_loop (records_left d) (mkExtChanges fmt ∅ []) d.

(** ** Applying *)

Record ApplyStats := mkApplyStats {
  p_Stores : Z;
  p_Extensions : Z;
  ItemsEmitted : Z;
  PayloadsEmitted : Z
}.

(** The applier: the base, the diff, the items written, the stats. *)
Record applier := mkApplier {
  a_base : storeReader;
  a_diff : diffReader;
  a_out : list bytes;
  a_stats : ApplyStats
}.

Definition in_snap {A} (m : M storeReader A) : M applier A :=
  zoom a_base (fun b a => mkApplier b (a_diff a) (a_out a) (a_stats a)) m.
Definition in_diff {A} (m : M diffReader A) : M applier A :=
  zoom a_diff (fun d a => mkApplier (a_base a) d (a_out a) (a_stats a)) m.
Definition put_item (item : bytes) : M applier unit :=
  modify (fun a => mkApplier (a_base a) (a_diff a) (a_out a ++ [item]) (a_stats a)).
Definition upd_astats (f : ApplyStats -> ApplyStats) : M applier unit :=
  modify (fun a => mkApplier (a_base a) (a_diff a) (a_out a) (f (a_stats a))).

Definition count_store (s : ApplyStats) := mkApplyStats (p_Stores s + 1) (p_Extensions s) (ItemsEmitted s) (PayloadsEmitted s).
Definition count_item (s : ApplyStats) := mkApplyStats (p_Stores s) (p_Extensions s) (ItemsEmitted s + 1) (PayloadsEmitted s).
Definition count_payload (s : ApplyStats) := mkApplyStats (p_Stores s) (p_Extensions s) (ItemsEmitted s) (PayloadsEmitted s + 1).
Definition count_extension (s : ApplyStats) := mkApplyStats (p_Stores s) (p_Extensions s + 1) (ItemsEmitted s) (PayloadsEmitted s).

Definition put_kv (k v : bytes) : M applier unit :=
  _ ← put_item (buildOneOfMessage 2 [encBytesField 1 k; encBytesField 2 v]);
  upd_astats count_item.

Definition processBaseItem (ch : option storeChanges) (k v : bytes) : M applier unit :=
  match ch with
  | None => put_kv k v
  | Some ch =>
      if bool_decide (k ∈ deletes ch) then mret tt
      else match updates ch !! k with
           | Some upd => put_kv k upd
           | None => put_kv k v
           end
  end.

(** The keys of a Go map, sorted, with their values. *)
Definition key_le (a b : bytes * bytes) : Prop := bytes_le a.1 b.1.
#[export] Instance key_le_dec : RelDecision key_le.
Proof. intros a b. unfold key_le. apply _. Defined.
#[export] Instance key_le_total : Total key_le.
Proof. intros a b. apply bytes_le_total. Qed.
#[export] Instance key_le_trans : Transitive key_le.
Proof. intros a b c. apply bytes_le_trans. Qed.

Definition sorted_entries (m : gmap bytes bytes) : list (bytes * bytes) := merge_sort key_le (map_to_list m).

(** nextBase: the key and value of the next leaf. *)
Definition nextBase (name : bytes) : M applier (option (bytes * bytes)) :=
  r ← in_snap (next_leaf name);
  match r with
  | None => mret None
  | Some rec =>
      k ← lift_out (parseProtoBytes rec 1);
      v ← lift_out (parseProtoBytes rec 2);
      mret (Some (k, v))
  end.

(** The merge of the base's leaves with the sorted inserts. *)
Fixpoint emit_merge (fuel : nat) (name : bytes) (ch : option storeChanges) (b : option (bytes * bytes))
    (ins : list (bytes * bytes)) : M applier unit :=
  match fuel with
  | O => fun s => (NoFuel, s)
  | S fuel =>
      match b, ins with
      | None, [] => mret tt
      | None, (ik, iv) :: ins => _ ← put_kv ik iv; emit_merge fuel name ch None ins
      | Some (k, v), [] =>
          _ ← processBaseItem ch k v;
          b ← nextBase name; emit_merge fuel name ch b []
      | Some (k, v), (ik, iv) :: ins' =>
          let cmp := bytesCompare k ik in
          if cmp <? 0 then
            _ ← processBaseItem ch k v;
            b ← nextBase name; emit_merge fuel name ch b ins
          else if 0 <? cmp then
            _ ← put_kv ik iv; emit_merge fuel name ch b ins'
          else
            _ ← processBaseItem ch k v;
            b ← nextBase name;
            _ ← put_kv ik iv;
            emit_merge fuel name ch b ins'
      end
  end.

Definition emitStoreFromBase (name : bytes) (ch : option storeChanges) : M applier unit :=
  let ins := match ch with Some ch => sorted_entries (inserts ch) | None => [] end in
  a ← get;
  b ← nextBase name;
  match b, ins with
  | None, [] => mret tt
  | _, _ =>
      _ ← put_item (buildOneOfMessage 1 [encStringField 1 name]);
      _ ← upd_astats count_store;
      emit_merge (S (items_left (a_base a)) + length ins) name ch b ins
  end.

Definition emitTargetOnlyStore (name : bytes) (ins : gmap bytes bytes) : M applier unit :=
  if bool_decide (ins = ∅) then mret tt else
  _ ← put_item (buildOneOfMessage 1 [encStringField 1 name]);
  _ ← upd_astats count_store;
  each (fun kv => put_kv kv.1 kv.2) (sorted_entries ins).

(** The stores of the base and of the diff, by name; a turn leaves one of either behind. *)
Fixpoint apply_stores (fuel : nat) : M applier unit :=
  match fuel with
  | O => fun s => (NoFuel, s)
  | S fuel =>
      b ← in_snap peekStore;
      let '(baseStore, baseDone) := b in
      sec ← in_diff peekSection;
      let '(diffKind, diffName) := match sec with Some (k, n, _) => (k, n) | None => (0, []) end in
      let diffEOF := match sec with Some _ => false | None => true end in
      let diffStoresOver := diffEOF || (diffKind =? sectionExt) in
      if baseDone && diffStoresOver then mret tt else
      _ ← (if baseDone || (negb diffStoresOver && bytes_ltb diffName baseStore) then
             _ ← in_diff consumeSection;
             ch ← in_diff readStoreChanges;
             if negb (bool_decide (deletes ch = ∅)) || negb (bool_decide (updates ch = ∅))
             then fail (Errorf "diff says target-only store has updates/deletes")
             else emitTargetOnlyStore diffName (inserts ch)
           else if diffStoresOver || bytes_ltb baseStore diffName then emitStoreFromBase baseStore None
           else
             _ ← in_diff consumeSection;
             ch ← in_diff readStoreChanges;
             emitStoreFromBase baseStore (Some ch));
      apply_stores fuel
  end.

(** The rest of the diff: a later section of a name replaces an earlier one. *)
Fixpoint ext_sections (fuel : nat) (perExt : gmap bytes extChangeSet) : M diffReader (gmap bytes extChangeSet) :=
  match fuel with
  | O => fun s => (NoFuel, s)
  | S fuel =>
      sec ← peekSection;
      match sec with
      | None => mret perExt
      | Some (kind, name, format) =>
          if negb (kind =? sectionExt) then mret perExt else
          _ ← consumeSection;
          ch ← readExtChanges format;
          ext_sections fuel (<[name := ch]> perExt)
      end
  end.

(** emitMetaOnce before every payload: the state is whether it was written. *)
Definition put_payload (meta p : bytes) (emitted : bool) : M applier bool :=
  _ ← (if emitted then mret tt else put_item meta);
  _ ← put_item (buildOneOfMessage 4 [encBytesField 1 p]);
  _ ← upd_astats count_payload;
  mret true.

Fixpoint put_payloads (meta : bytes) (ps : list bytes) (emitted : bool) : M applier bool :=
  match ps with
  | [] => mret emitted
  | p :: ps => emitted ← put_payload meta p emitted; put_payloads meta ps emitted
  end.

Definition dropped (ch : option extChangeSet) (p : bytes) : bool :=
  match ch with Some ch => bool_decide (sha256 p ∈ removes ch) | None => false end.

Definition apply_ext (extData : gmap bytes extData) (perExt : gmap bytes extChangeSet) (name : bytes) : M applier unit :=
  let baseExt := extData !! name in
  let ch := perExt !! name in
  let fmt := match ch with Some ch => format ch | None => match baseExt with Some b => x_format b | None => 0 end end in
  let meta := buildOneOfMessage 3 [encStringField 1 name; encVarintField 2 fmt] in
  let kept := List.filter (fun p => negb (dropped ch p)) (ext_payloads baseExt) in
  emitted ← put_payloads meta kept false;
  emitted ← put_payloads meta (match ch with Some ch => adds ch | None => [] end) emitted;
  if (emitted : bool) then upd_astats count_extension else mret tt.

Definition applyStream : M applier unit :=
  a ← get;
  _ ← apply_stores (items_left (a_base a) + records_left (a_diff a));
  extData ← in_snap readAllExtensions;
  a ← get;
  perExt ← in_diff (ext_sections (records_left (a_diff a)) ∅);
  each (apply_ext extData perExt) (merge_sort bytes_le (elements (dom extData ∪ dom perExt : gset bytes))).

(** The directory written and the stats, with the chunks and the sizes. *)
Definition Apply `{Zlib} `{MetaCodec} (baseDir : dir) (diff : bytes) (outDir : dir) : outcome (dir * ApplyStats * Z * Z * Z) :=
  let '(r, rest) := ReadHeader (Source diff EOF) in
  hdr ← wrap_out "read diff header" r;
  _ ← check_base baseDir (BaseHashHex hdr);
  zr ← wrap_out "open zlib body" (inflate (src_data rest));
  b ← wrap_out "open base" (newStoreReader baseDir);
  let '(r, a) := applyStream (mkApplier b (newDiffReader zr) [] (mkApplyStats 0 0 0 0)) in
  _ ← r;
  let raw := frames (a_out a) in
  c ← write_chunks outDir (Z.shiftl 16 20) raw;
  Ret (write_meta (meta_of (TargetHeight hdr) c) (cw_dir c), a_stats a, chunkIdx c, len raw, totalWritten c).

(** ** Verifying *)

Record VerifyStoreStats := mkVStats { ItemsA : Z; ItemsB : Z; ExtraInA : Z; ExtraInB : Z; ValueDiffs : Z }.
Record VerifyResult := mkVResult {
  v_Stores : Z;
  ItemsCompared : Z;
  v_ExtraInA : Z;
  v_ExtraInB : Z;
  v_ValueDiffs : Z;
  ExtensionDiff : Z;
  v_PerStore : gmap bytes VerifyStoreStats
}.

Record verifier := mkVerifier { rA : storeReader; rB : storeReader; vs : VerifyStoreStats }.

Definition in_A {A} (m : M storeReader A) : M verifier A := zoom rA (fun r v => mkVerifier r (rB v) (vs v)) m.
Definition in_B {A} (m : M storeReader A) : M verifier A := zoom rB (fun r v => mkVerifier (rA v) r (vs v)) m.
Definition upd_vs (f : VerifyStoreStats -> VerifyStoreStats) : M verifier unit :=
  modify (fun v => mkVerifier (rA v) (rB v) (f (vs v))).

Definition key_value (rec : bytes) : outcome (bytes * bytes) :=
  k ← parseProtoBytes rec 1; v ← parseProtoBytes rec 2; Ret (k, v).

Definition advA (inA : bool) (name : bytes) : M verifier (option (bytes * bytes)) :=
  if inA then
    r ← in_A (next_leaf name);
    match r with
    | None => mret None
    | Some rec =>
        kv ← lift_out (key_value rec);
        _ ← upd_vs (fun s => mkVStats (ItemsA s + 1) (ItemsB s) (ExtraInA s) (ExtraInB s) (ValueDiffs s));
        mret (Some kv)
    end
  else mret None.
Definition advB (inB : bool) (name : bytes) : M verifier (option (bytes * bytes)) :=
  if inB then
    r ← in_B (next_leaf name);
    match r with
    | None => mret None
    | Some rec =>
        kv ← lift_out (key_value rec);
        _ ← upd_vs (fun s => mkVStats (ItemsA s) (ItemsB s + 1) (ExtraInA s) (ExtraInB s) (ValueDiffs s));
        mret (Some kv)
    end
  else mret None.

Definition extra_A (s : VerifyStoreStats) := mkVStats (ItemsA s) (ItemsB s) (ExtraInA s + 1) (ExtraInB s) (ValueDiffs s).
Definition extra_B (s : VerifyStoreStats) := mkVStats (ItemsA s) (ItemsB s) (ExtraInA s) (ExtraInB s + 1) (ValueDiffs s).
Definition value_diff (s : VerifyStoreStats) := mkVStats (ItemsA s) (ItemsB s) (ExtraInA s) (ExtraInB s) (ValueDiffs s + 1).

Fixpoint compare_loop (fuel : nat) (inA inB : bool) (name : bytes) (a b : option (bytes * bytes)) : M verifier unit :=
  match fuel with
  | O => fun s => (NoFuel, s)
  | S fuel =>
      let go := compare_loop fuel inA inB name in
      match a, b with
      | None, None => mret tt
      | Some _, None => _ ← upd_vs extra_A; a ← advA inA name; go a None
      | None, Some _ => _ ← upd_vs extra_B; b ← advB inB name; go None b
      | Some (keyA, valA), Some (keyB, valB) =>
          let cmp := bytesCompare keyA keyB in
          if cmp <? 0 then _ ← upd_vs extra_A; a ← advA inA name; go a b
          else if 0 <? cmp then _ ← upd_vs extra_B; b ← advB inB name; go a b
          else
            _ ← (if bytesEqual valA valB then mret tt else upd_vs value_diff);
            a ← advA inA name; b ← advB inB name; go a b
      end
  end.

Definition items_of (v : verifier) : nat := S (items_left (rA v) + items_left (rB v)).

(** The stats of one store, from scratch. *)
Definition compareStore (name : bytes) (inA inB : bool) : M verifier VerifyStoreStats :=
  v ← get;
  _ ← upd_vs (fun _ => mkVStats 0 0 0 0 0);
  a ← advA inA name;
  b ← advB inB name;
  _ ← compare_loop (items_of v) inA inB name a b;
  v ← get; mret (vs v).

Definition add_store (name : bytes) (s : VerifyStoreStats) (r : VerifyResult) : VerifyResult :=
  mkVResult (v_Stores r + 1) (ItemsCompared r + (ItemsA s + ItemsB s)) (v_ExtraInA r + ExtraInA s) (v_ExtraInB r + ExtraInB s)
    (v_ValueDiffs r + ValueDiffs s) (ExtensionDiff r) (<[name := s]> (v_PerStore r)).

Fixpoint verify_stores (fuel : nat) (res : VerifyResult) : M verifier VerifyResult :=
  match fuel with
  | O => fun s => (NoFuel, s)
  | S fuel =>
      a ← in_A peekStore;
      b ← in_B peekStore;
      let '(sA, dA) := a in
      let '(sB, dB) := b in
      if (dA && dB) : bool then mret res else
      let '(name, inA, inB) :=
        if (dA : bool) then (sB, false, true)
        else if (dB : bool) then (sA, true, false)
        else if bytesEqual sA sB then (sA, true, true)
        else if bytes_ltb sA sB then (sA, true, false)
        else (sB, false, true) in
      s ← compareStore name inA inB;
      verify_stores fuel (add_store name s res)
  end.

Definition hash_set (x : option extData) : gset bytes := list_to_set (map sha256 (ext_payloads x)).

(** A sum over the names and hashes: the order of the maps does not matter. *)
Definition compareExtensions (a b : gmap bytes extData) : Z :=
  fold_left (fun n name =>
    let setA := hash_set (a !! name) in
    let setB := hash_set (b !! name) in
    n + Z.of_nat (size (setA ∖ setB)) + Z.of_nat (size (setB ∖ setA)))
    (elements (dom a ∪ dom b : gset bytes)) 0.

Definition verifyStream : M verifier VerifyResult :=
  v ← get;
  res ← verify_stores (items_of v) (mkVResult 0 0 0 0 0 0 ∅);
  extA ← in_A readAllExtensions;
  extB ← in_B readAllExtensions;
  mret (mkVResult (v_Stores res) (ItemsCompared res) (v_ExtraInA res) (v_ExtraInB res) (v_ValueDiffs res)
          (compareExtensions extA extB) (v_PerStore res)).

Definition VerifyEquivalent `{Zlib} (dirA dirB : dir) : outcome VerifyResult :=
  a ← wrap_out "open A" (newStoreReader dirA);
  b ← wrap_out "open B" (newStoreReader dirB);
  fst (verifyStream (mkVerifier a b (mkVStats 0 0 0 0 0))).
