(* ===== verification/DiffProof.v ===== *)
(** * The key-value diff: theorems

    Snapshots are described by what they hold (stores with their records, extensions
    with their payloads) and the reader, the differ, the applier and the verifier of
    [Diff] are shown to do to that description what they should.  The main theorems:
    a diff applied to its base gives a snapshot that the verifier finds equivalent to
    the target; its leaves are the target's, in order.  Then: what the diff loses. *)

From S2P Require Import Prelude Sha256 Varint CommitInfo SnapProto DiffSync Diff.

(** ** Messages *)

Lemma appendBytesField_eq n b : 1 <= n < 16 -> appendBytesField [] n b = encode_field (PBytes n b).
Proof. done. Qed.

Lemma concat_two (a b : bytes) : concat [a; b] = a ++ b.
Proof. cbn. by rewrite app_nil_r. Qed.

(** The fields of a message, each number once. *)
Definition fields_ok (fs : list pfield) : Prop :=
  Forall field_ok fs /\ NoDup (map (fun f => match f with PVarint n _ | PBytes n _ => n end) fs) /\ len (encode_fields fs) < 2 ^ 62.

Lemma parseProtoBytes_find n fs : 1 <= n < 16 -> fields_ok fs ->
  parseProtoBytes (encode_fields fs) n = Ret (default [] (find_bytes n fs)).
Proof. intros Hn (Hf & _ & Hl). unfold parseProtoBytes. by rewrite getBytesField_find. Qed.

Lemma parseProtoVarint_find n fs : 1 <= n < 16 -> fields_ok fs -> parseProtoVarint (encode_fields fs) n = Ret (find_varint n fs).
Proof. intros Hn (Hf & _ & Hl). unfold parseProtoVarint. by rewrite getVarintField_find. Qed.

(** One turn of a parsing loop: the field at the index, and the rest. *)
Section Turn.
Context (pre : bytes) (fs : list pfield).

Lemma take_field_at n b : 1 <= n < 16 -> len (pre ++ encode_fields (PBytes n b :: fs)) < 2 ^ 62 ->
  go_index (pre ++ encode_fields (PBytes n b :: fs)) (len pre) = Ret (byte.of_Z (n * 8 + 2)) /\
  take_field (pre ++ encode_fields (PBytes n b :: fs)) (len pre + 1) = Ret (Some (b, len (pre ++ encode_field (PBytes n b)))).
Proof using Type.
  intros Hn Hl. rewrite encode_fields_cons, (encode_bytes_field n b Hn) in *. cbn [app] in *. rewrite <- app_assoc in *.
  pose proof (field_at pre (byte.of_Z (n * 8 + 2)) b (encode_fields fs) ltac:(etransitivity; [exact Hl|lia])) as (_ & H2 & H3 & H4 & H5 & H6 & H7 & H8 & H9).
  split; [exact H2|]. unfold take_field. rewrite H3. cbn [mbind outcome_bind]. rewrite H4. rewrite H5, H6, H7, H8. cbn [orb]. rewrite H9. cbn [mbind outcome_bind].
  do 3 f_equal. len_simpl. lia.
Qed.

Lemma varint_field_at n v : 1 <= n < 16 -> 0 <= v < 2 ^ 64 ->
  go_index (pre ++ encode_fields (PVarint n v :: fs)) (len pre) = Ret (byte.of_Z (n * 8)) /\
  exists rest, go_from (pre ++ encode_fields (PVarint n v :: fs)) (len pre + 1) = Ret rest /\
    Uvarint rest = (v, len (PutUvarint v)) /\ (len (PutUvarint v) <=? 0) = false /\
    len pre + 1 + len (PutUvarint v) = len (pre ++ encode_field (PVarint n v)).
Proof using Type.
  intros Hn Hv. rewrite encode_fields_cons, (encode_varint_field n v Hn). cbn [app].
  pose proof (varint_at pre (byte.of_Z (n * 8)) v (encode_fields fs) Hv) as (_ & H2 & H3 & H4 & H5).
  split; [exact H2|]. eexists. split; [exact H3|]. split_and!; [done|done|]. len_simpl. lia.
Qed.

Lemma fields_left f : field_ok f -> (len pre <? len (pre ++ encode_fields (f :: fs))) = true.
Proof using Type.
  intros Hf. rewrite encode_fields_cons. pose proof (len_field_pos f Hf). pose proof (len_nonneg (encode_fields fs)).
  apply Z.ltb_lt. len_simpl. lia.
Qed.
End Turn.

Definition fnum (f : pfield) : Z := match f with PVarint n _ | PBytes n _ => n end.

Lemma tag_is n k c : 1 <= n < 16 -> 0 <= k < 8 -> 0 <= c -> (byte.unsigned (byte.of_Z (n * 8 + k)) =? c) = (n * 8 + k =? c).
Proof. intros. by rewrite tag_value. Qed.

(** The key and the value of a record; the last field of a number, and there is one only. *)
Definition rkey (fs : list pfield) : bytes := default [] (find_bytes 1 fs).
Definition rvalue (fs : list pfield) : bytes := default [] (find_bytes 2 fs).
Definition rleaf (fs : list pfield) : bool := find_varint 4 fs =? 0.

Lemma find_bytes_absent n fs : n ∉ map fnum fs -> find_bytes n fs = None.
Proof.
  induction fs as [|[m v|m b] fs IH]; cbn; [done|intros H..].
  - apply IH. set_solver.
  - destruct (Z.eqb_spec m n) as [->|]; [set_solver|]. apply IH. set_solver.
Qed.

Lemma parseIAVLKeyValue_at fs : forall fuel pre k v,
  Forall field_ok fs -> NoDup (map fnum fs) -> len (pre ++ encode_fields fs) < 2 ^ 62 -> (length fs < fuel)%nat ->
  parseIAVLKeyValue_loop fuel (pre ++ encode_fields fs) (len pre) k v =
  Ret (default k (find_bytes 1 fs), default v (find_bytes 2 fs)).
Proof.
  induction fs as [|f fs IH]; intros [|fuel] pre k v Hok Hnd Hb Hf; try (cbn in Hf; lia).
  - cbn [parseIAVLKeyValue_loop]. by rewrite getters_end.
  - apply Forall_cons in Hok as [Hfo Hok]. cbn [map] in Hnd. apply NoDup_cons in Hnd as [Hnin Hnd].
    cbn [parseIAVLKeyValue_loop]. rewrite fields_left by done. cbn [negb].
    assert (Hgo : forall k v, parseIAVLKeyValue_loop fuel (pre ++ encode_fields (f :: fs)) (len (pre ++ encode_field f)) k v =
      Ret (default k (find_bytes 1 fs), default v (find_bytes 2 fs))).
    { intros k' v'. rewrite encode_fields_cons, app_assoc. apply IH; [done|done|by rewrite <- app_assoc, <- encode_fields_cons|cbn in Hf; lia]. }
    destruct (skip_encoded pre f (encode_fields fs) Hfo ltac:(by rewrite <- encode_fields_cons)) as (t & r & Et & Hi & Hskip).
    rewrite <- encode_fields_cons in Hi, Hskip. rewrite Hi. cbn [mbind outcome_bind]. pose proof (field_tag f t r Hfo Et) as Ht.
    destruct f as [n w|n b]; cbn [field_ok fnum] in *.
    + rewrite Ht. destruct (Z.eqb_spec (n * 8) 10); [lia|]. destruct (Z.eqb_spec (n * 8) 18); [lia|]. rewrite Hskip. cbn [mbind outcome_bind].
      rewrite Hgo. done.
    + destruct (take_field_at pre fs n b Hfo Hb) as [_ Htf]. rewrite Ht. cbn [find_bytes].
      destruct (Z.eqb_spec (n * 8 + 2) 10); [|destruct (Z.eqb_spec (n * 8 + 2) 18)].
      * assert (n = 1) as -> by lia. rewrite Htf. cbn [mbind outcome_bind Z.eqb Pos.eqb]. rewrite Hgo, (find_bytes_absent 1 fs) by done. done.
      * assert (n = 2) as -> by lia. rewrite Htf. cbn [mbind outcome_bind Z.eqb Pos.eqb]. rewrite Hgo, (find_bytes_absent 2 fs) by done. done.
      * rewrite Hskip. cbn [mbind outcome_bind]. rewrite Hgo. destruct (Z.eqb_spec n 1); [lia|]. destruct (Z.eqb_spec n 2); [lia|]. done.
Qed.

Lemma parseIAVLKeyValue_fields fs : fields_ok fs -> parseIAVLKeyValue (encode_fields fs) = Ret (rkey fs, rvalue fs).
Proof.
  intros (Hf & Hnd & Hl). unfold parseIAVLKeyValue. pose proof (length_fields fs Hf).
  apply (parseIAVLKeyValue_at fs _ [] [] []); [done|done|done|lia].
Qed.

Lemma isLeaf_at fs : forall fuel pre,
  Forall field_ok fs -> len (pre ++ encode_fields fs) < 2 ^ 62 -> (length fs < fuel)%nat ->
  isLeafIAVL_loop fuel (pre ++ encode_fields fs) (len pre) = Ret (rleaf fs).
Proof.
  induction fs as [|f fs IH]; intros [|fuel] pre Hok Hb Hf; try (cbn in Hf; lia).
  - cbn [isLeafIAVL_loop]. by rewrite getters_end.
  - apply Forall_cons in Hok as [Hfo Hok]. cbn [isLeafIAVL_loop]. rewrite fields_left by done. cbn [negb].
    assert (Hgo : isLeafIAVL_loop fuel (pre ++ encode_fields (f :: fs)) (len (pre ++ encode_field f)) = Ret (rleaf fs)).
    { rewrite encode_fields_cons, app_assoc. apply IH; [done|by rewrite <- app_assoc, <- encode_fields_cons|cbn in Hf; lia]. }
    destruct (skip_encoded pre f (encode_fields fs) Hfo ltac:(by rewrite <- encode_fields_cons)) as (t & r & Et & Hi & Hskip).
    rewrite <- encode_fields_cons in Hi, Hskip. rewrite Hi. cbn [mbind outcome_bind]. pose proof (field_tag f t r Hfo Et) as Ht. rewrite Ht.
    destruct f as [n w|n b]; cbn [field_ok] in *; unfold rleaf in *; cbn [find_varint].
    + destruct (Z.eqb_spec (n * 8) 32).
      * assert (n = 4) as -> by lia. destruct (varint_field_at pre fs 4 w ltac:(lia) ltac:(lia)) as (_ & rest & Hr & Hu & Hm & _).
        rewrite Hr. cbn [mbind outcome_bind Z.eqb Pos.eqb]. by rewrite Hu, Hm.
      * rewrite Hskip. cbn [mbind outcome_bind]. destruct (Z.eqb_spec n 4); [lia|]. exact Hgo.
    + destruct (Z.eqb_spec (n * 8 + 2) 32); [lia|]. rewrite Hskip. exact Hgo.
Qed.

Lemma isLeafIAVL_fields fs : fields_ok fs -> isLeafIAVL (encode_fields fs) = Ret (rleaf fs).
Proof.
  intros (Hf & Hnd & Hl). unfold isLeafIAVL. pose proof (length_fields fs Hf). apply (isLeaf_at fs _ []); [done|done|lia].
Qed.

(** ** Items *)

Lemma first_field b : len b < 2 ^ 62 ->
  encBytesField 1 b = byte.of_Z 10 :: PutUvarint (len b) ++ b /\
  Uvarint (PutUvarint (len b) ++ b) = (len b, len (PutUvarint (len b))) /\
  (len (PutUvarint (len b)) <=? 0) = false /\ i64 (len b) = len b /\
  i64 (1 + len (PutUvarint (len b)) + len b) = 1 + len (PutUvarint (len b)) + len b /\
  (len (byte.of_Z 10 :: PutUvarint (len b) ++ b) <? 1 + len (PutUvarint (len b)) + len b) = false /\
  go_slice (byte.of_Z 10 :: PutUvarint (len b) ++ b) (1 + len (PutUvarint (len b))) (1 + len (PutUvarint (len b)) + len b) = Ret b.
Proof.
  intros Hb. pose proof (len_nonneg b). pose proof (len_PutUvarint (len b) ltac:(lia)). split; [done|].
  split_and!.
  - rewrite <- (app_nil_r b) at 2. apply Uvarint_PutUvarint. lia.
  - apply Z.leb_gt. lia.
  - apply i64_small. lia.
  - apply i64_small. lia.
  - apply Z.ltb_ge. len_simpl. lia.
  - apply (go_slice_split _ (byte.of_Z 10 :: PutUvarint (len b)) b []); [by rewrite app_nil_r|len_simpl; lia..].
Qed.

Lemma parseStoreName_enc n : len n < 2 ^ 62 -> parseStoreName (encStringField 1 n) = Ret n.
Proof.
  intros Hn. destruct (first_field n Hn) as (E & H1 & H2 & H3 & H4 & H5 & H6). unfold encStringField. rewrite E. unfold parseStoreName.
  change (byte.unsigned (byte.of_Z 10) =? 10) with true. cbn [negb]. rewrite H1. by rewrite H2, H3, H4, H5, H6.
Qed.

Lemma parseExtPayload_enc p : len p < 2 ^ 62 -> parseExtPayload (encBytesField 1 p) = Ret p.
Proof.
  intros Hn. destruct (first_field p Hn) as (E & H1 & H2 & H3 & H4 & H5 & H6). rewrite E. unfold parseExtPayload.
  change (byte.unsigned (byte.of_Z 10) =? 10) with true. cbn [negb]. rewrite H1. by rewrite H2, H3, H4, H5, H6.
Qed.

Definition meta_fields (name : bytes) (f : Z) : list pfield := [PBytes 1 name; PVarint 2 f].
Definition meta_body (name : bytes) (f : Z) : bytes := encode_fields (meta_fields name f).

Lemma meta_fields_ok name f : len name < 2 ^ 61 -> 0 <= f < 2 ^ 32 -> fields_ok (meta_fields name f).
Proof.
  intros Hn Hf. pose proof (len_nonneg name). split_and!.
  - repeat constructor; cbn; lia.
  - cbn. repeat constructor; set_solver.
  - pose proof (len_PutUvarint (len name) ltac:(lia)). pose proof (len_PutUvarint f ltac:(lia)).
    unfold meta_fields. rewrite !encode_fields_cons, encode_bytes_field, encode_varint_field by lia. cbn [encode_fields map concat]. len_simpl. lia.
Qed.

Lemma parseExtMeta_enc name f : len name < 2 ^ 61 -> 0 <= f < 2 ^ 32 -> parseExtMeta (meta_body name f) = Ret (name, f).
Proof.
  intros Hn Hf. destruct (meta_fields_ok name f Hn Hf) as (Hok & _ & Hl). unfold parseExtMeta, meta_body.
  assert (Hlen : (3 <= length (encode_fields (meta_fields name f)))%nat).
  { pose proof (length_fields _ Hok) as H. unfold meta_fields in *. rewrite !encode_fields_cons, !length_app.
    pose proof (len_field_pos (PBytes 1 name) ltac:(cbn; lia)). pose proof (len_field_pos (PVarint 2 f) ltac:(cbn; lia)). unfold len in *. lia. }
  destruct (length (encode_fields (meta_fields name f))) as [|[|n]] eqn:En; try lia.
  set (buf := encode_fields (meta_fields name f)) in *. unfold meta_fields in *.
  destruct (take_field_at [] [PVarint 2 f] 1 name ltac:(lia) Hl) as [H1 H2]. cbn [app] in H1, H2. change (len (@nil Init.Byte.byte)) with 0 in H1, H2. fold buf in H1, H2.
  cbn [parseExtMeta_loop]. destruct (Z.ltb_spec 0 (len buf)); [|unfold len in *; lia]. cbn [negb]. rewrite H1. cbn [mbind outcome_bind].
  change (byte.unsigned (byte.of_Z (1 * 8 + 2)) =? 10) with true. cbv iota. rewrite H2. cbn [mbind outcome_bind].
  destruct (varint_field_at (encode_field (PBytes 1 name)) [] 2 f ltac:(lia) ltac:(lia)) as (H3 & rest & H4 & H5 & H6 & H7).
  assert (Eb : buf = encode_field (PBytes 1 name) ++ encode_fields [PVarint 2 f]) by done. rewrite <- Eb in H3, H4.
  pose proof (fields_left (encode_field (PBytes 1 name)) [] (PVarint 2 f) ltac:(cbn; lia)) as H8. rewrite <- Eb in H8. rewrite H8. cbn [negb].
  rewrite H3. cbn [mbind outcome_bind]. change (byte.unsigned (byte.of_Z (2 * 8)) =? 10) with false. change (byte.unsigned (byte.of_Z (2 * 8)) =? 16) with true. cbv iota.
  rewrite H4. cbn [mbind outcome_bind]. rewrite H5, H6, H7, u32_small by lia.
  assert (Ee : len (encode_field (PBytes 1 name) ++ encode_field (PVarint 2 f)) = len buf) by (rewrite Eb; unfold encode_fields; cbn [map concat]; by rewrite app_nil_r).
  rewrite Ee. destruct n as [|n]; cbn [parseExtMeta_loop]; by rewrite Z.ltb_irrefl.
Qed.

(** An envelope. *)
Definition env (it : Z * bytes) : bytes := buildOneOfMessage (fst it) [snd it].

Definition env_ok (it : Z * bytes) : Prop := 1 <= fst it < 16 /\ len (env it) <= maxAlloc.

Lemma env_eq t b : 1 <= t < 16 -> env (t, b) = byte.of_Z (t * 8 + 2) :: PutUvarint (len b) ++ b.
Proof. intros Ht. unfold env, buildOneOfMessage. cbn [fst snd concat]. rewrite app_nil_r. by apply encode_bytes_field. Qed.

Lemma env_body_small it : env_ok it -> len (snd it) < 2 ^ 49.
Proof.
  destruct it as [t b]. intros [Ht Hl]. cbn [fst snd] in *. rewrite env_eq in Hl by done. unfold maxAlloc in Hl. pose proof (len_nonneg (PutUvarint (len b))). len_simpl. lia.
Qed.

Lemma env_fits it : env_ok it -> item_fits (env it).
Proof. destruct it as [t b]. intros [Ht Hl]. split; [|done]. cbn in Ht. rewrite env_eq by done. pose proof (len_nonneg (PutUvarint (len b) ++ b)). len_simpl. lia. Qed.

(** Both decoders of an envelope. *)
Lemma env_parts t b : env_ok (t, b) ->
  go_index (env (t, b)) 0 = Ret (byte.of_Z (t * 8 + 2)) /\ Z.shiftr (byte.unsigned (byte.of_Z (t * 8 + 2))) 3 = t /\
  exists rest, go_from (env (t, b)) 1 = Ret rest /\
  let n := len (PutUvarint (len b)) in
  Uvarint rest = (len b, n) /\ (n <=? 0) || (len (env (t, b)) - 1 - n <? i64 (len b)) = false /\
  go_slice (env (t, b)) (1 + n) (i64 (1 + n + i64 (len b))) = Ret b.
Proof.
  intros Hok. pose proof (env_body_small _ Hok) as Hb. destruct Hok as [Ht _]. cbn [fst snd] in *. rewrite env_eq by done.
  pose proof (len_nonneg b). pose proof (len_PutUvarint (len b) ltac:(lia)). split; [apply (go_index_app [])|]. split.
  { rewrite tag_value, Z.shiftr_div_pow2 by lia. change (2 ^ 3) with 8. rewrite Z.div_add_l by lia. change (2 / 8) with 0. lia. }
  exists (PutUvarint (len b) ++ b). split; [by apply (go_from_split _ [byte.of_Z (t * 8 + 2)])|]. cbv zeta. rewrite !i64_small by (try rewrite i64_small; lia).
  split_and!.
  - rewrite <- (app_nil_r b) at 2. apply Uvarint_PutUvarint. lia.
  - apply orb_false_iff. split; [apply Z.leb_gt; lia|]. apply Z.ltb_ge. len_simpl. lia.
  - apply (go_slice_split _ (byte.of_Z (t * 8 + 2) :: PutUvarint (len b)) b []); [by rewrite app_nil_r|len_simpl; lia..].
Qed.

Lemma split_item_env it : env_ok it -> split_item (env it) = Ret it.
Proof.
  destruct it as [t b]. intros Hok. destruct (env_parts t b Hok) as (H1 & H2 & rest & H3 & H4 & H5 & H6). unfold split_item.
  rewrite H1. cbn [mbind outcome_bind]. rewrite H3. cbn [mbind outcome_bind]. rewrite H2, H4, H5, H6. done.
Qed.

(** ** Reading a snapshot *)

(** A reader with the items [l] left, the first one cached or not. *)
Section AtItems.
Context (cur n : bytes) (f : Z) (a : gmap bytes extData).

Definition at_items (c : bool) (l : list (Z * bytes)) : storeReader :=
  mkSR (Source (frames (map env (if c then tail l else l))) EOF) cur n f a (if c then head l else None).

Lemma peekItem_at c l : Forall env_ok l -> peekItem (at_items c l) = (Ret (head l), at_items true l).
Proof using Type.
  intros Hok. unfold peekItem, at_items. destruct c; cbn [cached].
  - destruct l as [|it l]; cbn [head tail]; [|done].
    unfold mbind, M_bind, zoom. cbn [br map]. unfold frames. cbn [map concat]. rewrite item_Next_end. done.
  - destruct l as [|it l]; cbn [head tail map].
    + unfold mbind, M_bind, zoom. cbn [br]. unfold frames. cbn [map concat]. rewrite item_Next_end. done.
    + apply Forall_cons in Hok as [Hit Hok]. unfold mbind, M_bind, zoom. cbn [br]. unfold frames. cbn [map concat].
      rewrite item_Next_frame by (by apply env_fits). unfold lift_out. rewrite split_item_env by done. done.
Qed.

Lemma consumeItem_at it l : consumeItem (at_items true (it :: l)) = (Ret tt, at_items false l).
Proof using Type. done. Qed.

Lemma items_left_at c l : (length l < items_left (at_items c l))%nat.
Proof using Type.
  unfold items_left, at_items. cbn [br src_data]. pose proof (length_frames (map env l)). pose proof (length_frames (map env (tail l))).
  rewrite length_map in *. destruct c; [|lia]. destruct l; cbn in *; lia.
Qed.
End AtItems.

Definition rec_item (r : list pfield) : Z * bytes := (2, encode_fields r).
Definition store_items (s : bytes * list (list pfield)) : list (Z * bytes) :=
  (1, encStringField 1 s.1) :: map rec_item s.2.
Definition stores_items (l : list (bytes * list (list pfield))) : list (Z * bytes) := l ≫= store_items.

(** Leaves are found past inner nodes. *)
Fixpoint to_leaf (recs : list (list pfield)) : list (list pfield) :=
  match recs with
  | [] => []
  | r :: rest => if rleaf r then recs else to_leaf rest
  end.

Definition leaves (recs : list (list pfield)) : list (list pfield) := List.filter rleaf recs.

Lemma leaves_to_leaf recs : leaves (to_leaf recs) = leaves recs.
Proof. induction recs as [|r recs IH]; [done|]. cbn. destruct (rleaf r) eqn:E; cbn; by rewrite ?E. Qed.

(** What follows the records of a store. *)
Definition store_over (l : list (Z * bytes)) : Prop :=
  match l with [] => True | it :: _ => fst it = 1 \/ fst it = 3 \/ fst it = 4 end.

Lemma stores_over_items S rest : store_over rest -> store_over (stores_items S ++ rest).
Proof. destruct S as [|[n recs] S]; [done|]. cbn. auto. Qed.

Section Reading.
Context (n : bytes) (f : Z) (a : gmap bytes extData).

(** Runs the first step of a loop at a known position. *)
Ltac step_items := rewrite peekItem_at by done; cbn [head fst snd].

Lemma peekStore_here c name recs rest : name <> [] -> len name < 2 ^ 62 -> Forall env_ok (store_items (name, recs) ++ rest) ->
  peekStore (at_items [] n f a c (store_items (name, recs) ++ rest)) =
  (Ret (name, false), at_items name n f a false (map rec_item recs ++ rest)).
Proof using Type.
  intros Hne Hl Hok. unfold peekStore. cbn [curStore at_items]. rewrite bool_decide_eq_true_2 by done. cbn [negb].
  unfold items_left. cbn [peekStore_loop]. unfold mbind, M_bind. fold (at_items [] n f a c (store_items (name, recs) ++ rest)).
  rewrite peekItem_at by done. cbn [head store_items app fst snd]. change (1 =? 1) with true. cbv iota.
  unfold lift_out. rewrite parseStoreName_enc by done. done.
Qed.

Lemma peekStore_over c l : Forall env_ok l -> match l with [] => True | it :: _ => fst it = 3 \/ fst it = 4 end ->
  peekStore (at_items [] n f a c l) = (Ret ([], true), at_items [] n f a true l).
Proof using Type.
  intros Hok Hl. unfold peekStore. cbn [curStore at_items]. rewrite bool_decide_eq_true_2 by done. cbn [negb].
  unfold items_left. cbn [peekStore_loop]. unfold mbind, M_bind. fold (at_items [] n f a c l). rewrite peekItem_at by done.
  destruct l as [|[t b] l]; [done|]. cbn [head fst] in *. destruct Hl as [-> | ->]; done.
Qed.

Lemma peekStore_again c name l : name <> [] -> peekStore (at_items name n f a c l) = (Ret (name, false), at_items name n f a c l).
Proof using Type. intros Hne. unfold peekStore. cbn [curStore at_items]. by rewrite bool_decide_eq_false_2. Qed.

Lemma next_leaf_elsewhere c name cur l : cur <> name -> next_leaf name (at_items cur n f a c l) = (Ret None, at_items cur n f a c l).
Proof using Type.
  intros Hne. unfold next_leaf, items_left. cbn [next_leaf_loop]. unfold readNextItemInStoreRaw, mbind, M_bind, get. cbn [curStore at_items].
  by rewrite bool_decide_eq_false_2.
Qed.

Lemma next_leaf_here name recs rest : forall fuel c, (length (map rec_item recs ++ rest) < fuel)%nat ->
  Forall env_ok (map rec_item recs ++ rest) -> Forall fields_ok recs -> store_over rest ->
  next_leaf_loop fuel name (at_items name n f a c (map rec_item recs ++ rest)) =
  match to_leaf recs with
  | r :: recs => (Ret (Some (encode_fields r)), at_items name n f a false (map rec_item recs ++ rest))
  | [] => (Ret None, at_items [] n f a true rest)
  end.
Proof using Type.
  induction recs as [|r recs IH]; intros [|fuel] c Hf Hok Hrec Hover; try (cbn in Hf; lia); cbn [next_leaf_loop].
  - unfold readNextItemInStoreRaw, mbind, M_bind, get. cbn [curStore at_items]. rewrite bool_decide_eq_true_2 by done. cbn [negb map app].
    fold (at_items name n f a c rest). rewrite peekItem_at by done. cbn [to_leaf].
    destruct rest as [|[t b] rest]; [done|]. cbn [head store_over fst] in *. by destruct Hover as [-> |[-> | ->]].
  - apply Forall_cons in Hrec as [Hr Hrec]. cbn [map app] in *. unfold readNextItemInStoreRaw, mbind at 1, M_bind at 1.
    unfold mbind at 1, M_bind at 1, get. cbn [curStore at_items]. rewrite bool_decide_eq_true_2 by done. cbn [negb].
    fold (at_items name n f a c (rec_item r :: map rec_item recs ++ rest)).
    unfold mbind at 1, M_bind at 1. rewrite peekItem_at by done. cbn [head rec_item]. change (2 =? 2) with true. cbv iota.
    unfold mbind at 1, M_bind at 1. rewrite consumeItem_at. unfold mret at 1, M_ret at 1. unfold mbind, M_bind, lift_out.
    rewrite isLeafIAVL_fields by done. cbn [to_leaf]. destruct (rleaf r) eqn:E; [done|]. apply Forall_cons in Hok as [_ Hok].
    apply (IH fuel false); [cbn in Hf; lia|done..].
Qed.

Lemma next_leaf_at c name recs rest : Forall env_ok (map rec_item recs ++ rest) -> Forall fields_ok recs -> store_over rest ->
  next_leaf name (at_items name n f a c (map rec_item recs ++ rest)) =
  match to_leaf recs with
  | r :: recs => (Ret (Some (encode_fields r)), at_items name n f a false (map rec_item recs ++ rest))
  | [] => (Ret None, at_items [] n f a true rest)
  end.
Proof using Type. intros Hok Hrec Hover. apply next_leaf_here; [apply items_left_at|done..]. Qed.
End Reading.

(** *** Extensions *)

Definition ext := (bytes * Z * list bytes)%type.
Definition ext_name (x : ext) : bytes := x.1.1.
Definition payload_item (p : bytes) : Z * bytes := (4, encBytesField 1 p).
Definition ext_items (x : ext) : list (Z * bytes) := (3, meta_body (ext_name x) x.1.2) :: map payload_item x.2.
Definition exts_items (l : list ext) : list (Z * bytes) := l ≫= ext_items.

Definition ext_data (x : ext) : bytes * extData := (ext_name x, mkExtData x.1.2 x.2).
Definition ext_map (l : list ext) : gmap bytes extData := list_to_map (map ext_data l).

Definition ext_ok (x : ext) : Prop :=
  ext_name x <> [] /\ len (ext_name x) < 2 ^ 61 /\ 0 <= x.1.2 < 2 ^ 32 /\ Forall (fun p => len p < 2 ^ 62) x.2.

Section ReadingExts.

Lemma read_payloads name fmt ps : forall fuel c n f0 a qs rest, name <> [] -> name = n ->
  Forall env_ok (map payload_item ps ++ rest) -> Forall (fun p => len p < 2 ^ 62) ps ->
  a !! name = Some (mkExtData fmt qs) -> (length (map payload_item ps ++ rest) < fuel)%nat ->
  exists fuel' c', (length rest < fuel')%nat /\
  readAllExtensions_loop fuel (at_items [] n f0 a c (map payload_item ps ++ rest)) =
  readAllExtensions_loop fuel' (at_items [] n f0 (<[name := mkExtData fmt (qs ++ ps)]> a) c' rest).
Proof using Type.
  induction ps as [|p ps IH]; intros [|fuel] c n f0 a qs rest Hne -> Hok Hps Ha Hf; try (cbn in Hf; lia).
  - exists (S fuel), c. rewrite app_nil_r, insert_id by done. by split.
  - apply Forall_cons in Hps as [Hp Hps]. cbn [map app] in *. apply Forall_cons in Hok as [Hit Hok].
    destruct (IH fuel false n f0 (<[n := mkExtData fmt (qs ++ [p])]> a) (qs ++ [p]) rest Hne eq_refl Hok Hps) as (fuel' & c' & Hf' & E);
      [apply lookup_insert_eq|cbn in Hf; lia|].
    exists fuel', c'. split; [done|]. rewrite <- app_assoc in E. cbn [app] in E. rewrite insert_insert_eq in E. rewrite <- E.
    cbn [readAllExtensions_loop]. unfold mbind, M_bind. rewrite peekItem_at by (by constructor).
    cbn [head payload_item Z.eqb Pos.eqb]. unfold lift_out. rewrite parseExtPayload_enc by done. unfold modify. cbn [at_items currentName].
    rewrite bool_decide_eq_false_2 by done. unfold at_items at 1 2 3 4. cbn [all currentFormat]. unfold add_payload. rewrite Ha. done.
Qed.

Lemma meta_step fuel c n f0 a name fmt l : Forall env_ok ((3, meta_body name fmt) :: l) -> len name < 2 ^ 61 -> 0 <= fmt < 2 ^ 32 ->
  readAllExtensions_loop (S fuel) (at_items [] n f0 a c ((3, meta_body name fmt) :: l)) =
  readAllExtensions_loop fuel (at_items [] name fmt (match a !! name with None => <[name := mkExtData fmt []]> a | Some _ => a end) false l).
Proof using Type.
  intros Hok Hl Hf. cbn [readAllExtensions_loop]. unfold mbind, M_bind. rewrite peekItem_at by done. cbn [head Z.eqb Pos.eqb].
  unfold lift_out. by rewrite parseExtMeta_enc.
Qed.

Lemma read_exts E : forall fuel c n f0 a, Forall env_ok (exts_items E) -> Forall ext_ok E ->
  NoDup (map ext_name E) -> Forall (fun x => a !! ext_name x = None) E -> (length (exts_items E) < fuel)%nat ->
  exists n' f', readAllExtensions_loop fuel (at_items [] n f0 a c (exts_items E)) = (Ret (ext_map E ∪ a), at_items [] n' f' (ext_map E ∪ a) true []).
Proof using Type.
  induction E as [|[[name fmt] ps] E IH]; intros [|fuel] c n f0 a Hok HE Hnd Ha Hf; try (cbn in Hf; lia).
  - exists n, f0. cbn [readAllExtensions_loop exts_items mbind list_bind]. unfold mbind, M_bind. rewrite peekItem_at by done. cbn [head].
    unfold get, mret, M_ret, ext_map. cbn [map list_to_map foldr]. by rewrite (left_id_L ∅ (∪)).
  - apply Forall_cons in HE as [(Hne & Hl & Hfmt & Hps) HE]. apply Forall_cons in Ha as [Hn Ha]. cbn [map] in Hnd. apply NoDup_cons in Hnd as [Hnin Hnd].
    unfold ext_name in *. cbn [fst snd] in *.
    change (exts_items ((name, fmt, ps) :: E)) with (((3, meta_body name fmt) :: map payload_item ps) ++ exts_items E) in *.
    cbn [app] in *. apply Forall_cons in Hok as [Hit Hok].
    destruct (read_payloads name fmt ps fuel false name fmt (<[name := mkExtData fmt []]> a) [] (exts_items E) Hne eq_refl Hok Hps) as (fuel' & c' & Hf' & E1);
      [apply lookup_insert_eq|cbn in Hf; lia|].
    rewrite insert_insert_eq in E1. cbn [app] in E1.
    destruct (IH fuel' c' name fmt (<[name := mkExtData fmt ps]> a)) as (n' & f' & E2); [by apply Forall_app in Hok as [_ ?]|done|done| |done|].
    { apply Forall_forall. intros x Hx. rewrite lookup_insert_ne; [by eapply Forall_forall in Ha|].
      intros ->. apply Hnin. apply list_elem_of_fmap. by exists x. }
    exists n', f'. rewrite (meta_step fuel c n f0 a name fmt) by (done || by constructor). rewrite Hn.
    rewrite E1, E2.
    assert (Hm : ext_map E ∪ <[name := mkExtData fmt ps]> a = ext_map ((name, fmt, ps) :: E) ∪ a).
    { unfold ext_map. cbn [map ext_data list_to_map foldr fst snd ext_name]. rewrite <- insert_union_l, insert_union_r; [done|].
      apply not_elem_of_list_to_map_1. intros (x & Hx & Hin)%list_elem_of_fmap. apply Hnin. apply list_elem_of_fmap in Hin as (y & -> & Hy).
      apply list_elem_of_fmap. exists y. by split. }
    by rewrite Hm.
Qed.

Lemma readAllExtensions_at E c n f0 : Forall env_ok (exts_items E) -> Forall ext_ok E -> NoDup (map ext_name E) ->
  exists n' f', readAllExtensions (at_items [] n f0 ∅ c (exts_items E)) = (Ret (ext_map E), at_items [] n' f' (ext_map E) true []).
Proof using Type.
  intros Hok HE Hnd. destruct (read_exts E (items_left (at_items [] n f0 ∅ c (exts_items E))) c n f0 ∅ Hok HE Hnd) as (n' & f' & E1).
  - apply Forall_forall. intros. apply lookup_empty.
  - apply items_left_at.
  - exists n', f'. unfold readAllExtensions. rewrite E1. by rewrite (right_id_L ∅ (∪)).
Qed.
End ReadingExts.

(** ** One store compared *)

Lemma bytesCompare_eq a : forall b, bytesCompare a b = 0 <-> a = b.
Proof.
  induction a as [|x a IH]; intros [|y b]; cbn; try (split; congruence).
  destruct (Z.ltb_spec (byte.unsigned x) (byte.unsigned y)); [split; [done|intros [= -> ->]; lia]|].
  destruct (Z.ltb_spec (byte.unsigned y) (byte.unsigned x)); [split; [done|intros [= -> ->]; lia]|].
  assert (x = y) as -> by (rewrite <- (byte.of_Z_unsigned x), <- (byte.of_Z_unsigned y); f_equal; lia).
  rewrite IH. split; congruence.
Qed.

Lemma bytesCompare_ltb a : forall b, bytesCompare a b = if bytes_ltb a b then -1 else if bytes_ltb b a then 1 else 0.
Proof.
  induction a as [|x a IH]; intros [|y b]; cbn; try done.
  destruct (Z.ltb_spec (byte.unsigned x) (byte.unsigned y)), (Z.ltb_spec (byte.unsigned y) (byte.unsigned x)),
    (Z.eqb_spec (byte.unsigned x) (byte.unsigned y)), (Z.eqb_spec (byte.unsigned y) (byte.unsigned x)); try lia; cbn; done.
Qed.

(** What the merge finds of a key: kept, deleted, updated (with the old value and the new), inserted. *)
Inductive event :=
| EKeep (k v : bytes)
| EDel (k v : bytes)
| EUpd (k v0 v : bytes)
| EIns (k v : bytes).

Definition base_side (e : event) : option (bytes * bytes) :=
  match e with EKeep k v | EDel k v | EUpd k v _ => Some (k, v) | EIns _ _ => None end.
Definition target_side (e : event) : option (bytes * bytes) :=
  match e with EKeep k v | EUpd k _ v | EIns k v => Some (k, v) | EDel _ _ => None end.

Definition record_of (e : event) : option bytes :=
  match e with
  | EKeep _ _ => None
  | EDel k _ => Some (buildOneOfMessage tagDelete [encBytesField 1 k])
  | EUpd k _ v => Some (buildOneOfMessage tagUpdate [encBytesField 1 k; encBytesField 2 v])
  | EIns k v => Some (buildOneOfMessage tagInsert [encBytesField 1 k; encBytesField 2 v])
  end.

Definition kv_of (r : list pfield) : bytes * bytes := (rkey r, rvalue r).

Fixpoint merge_events (fuel : nat) (B T : list (list pfield)) : list event :=
  match fuel with
  | O => []
  | S fuel =>
      match B, T with
      | [], [] => []
      | [], t :: T => EIns (rkey t) (rvalue t) :: merge_events fuel [] T
      | b :: B, [] => EDel (rkey b) (rvalue b) :: merge_events fuel B []
      | b :: B', t :: T' =>
          let cmp := bytesCompare (encode_fields b) (encode_fields t) in
          if cmp =? 0 then EKeep (rkey t) (rvalue t) :: merge_events fuel B' T'
          else if bytesEqual (rkey b) (rkey t) then EUpd (rkey b) (rvalue b) (rvalue t) :: merge_events fuel B' T'
          else if cmp <? 0 then EDel (rkey b) (rvalue b) :: merge_events fuel B' T
          else EIns (rkey t) (rvalue t) :: merge_events fuel B T'
      end
  end.

(** Each side is accounted for, in order. *)
Lemma merge_sides fuel : forall B T, (length B + length T < fuel)%nat -> Forall fields_ok B -> Forall fields_ok T ->
  omap base_side (merge_events fuel B T) = map kv_of B /\ omap target_side (merge_events fuel B T) = map kv_of T.
Proof.
  induction fuel as [|fuel IH]; intros B T Hf HB HT; [lia|]. cbn [merge_events]. destruct B as [|b B], T as [|t T]; [done|..].
  - apply Forall_cons in HT as [_ HT]. destruct (IH [] T ltac:(cbn in *; lia) HB HT) as [H1 H2]. cbn [omap list_omap base_side target_side map]. by rewrite H1, H2.
  - apply Forall_cons in HB as [_ HB]. destruct (IH B [] ltac:(cbn in *; lia) HB HT) as [H1 H2]. cbn [omap list_omap base_side target_side map]. by rewrite H1, H2.
  - apply Forall_cons in HB as [Hb HB']. apply Forall_cons in HT as [Ht HT']. cbn in Hf.
    destruct (Z.eqb_spec (bytesCompare (encode_fields b) (encode_fields t)) 0) as [E|_].
    { apply bytesCompare_eq in E. pose proof (parseIAVLKeyValue_fields b Hb) as P. rewrite E, parseIAVLKeyValue_fields in P by done.
      injection P as P1 P2. destruct (IH B T ltac:(lia) HB' HT') as [H1 H2]. cbn [omap list_omap base_side target_side map]. rewrite H1, H2. assert (Ekv : kv_of b = (rkey t, rvalue t)) by (unfold kv_of; by rewrite P1, P2). by rewrite Ekv. }
    unfold bytesEqual. destruct (bool_decide_reflect (rkey b = rkey t)) as [E|_].
    { destruct (IH B T ltac:(lia) HB' HT') as [H1 H2]. cbn [omap list_omap base_side target_side map]. rewrite H1, H2. assert (Ekv : kv_of t = (rkey b, rvalue t)) by (unfold kv_of; by rewrite E). by rewrite Ekv. }
    destruct (_ <? 0).
    + destruct (IH B (t :: T) ltac:(cbn; lia) HB' ltac:(by constructor)) as [H1 H2]. cbn [omap list_omap base_side target_side map]. by rewrite H1, H2.
    + destruct (IH (b :: B) T ltac:(cbn; lia) ltac:(by constructor) HT') as [H1 H2]. cbn [omap list_omap base_side target_side map]. by rewrite H1, H2.
Qed.

(** A reader inside a store, with these leaves ahead, or past its end. *)
Definition at0 (cur : bytes) (c : bool) (l : list (Z * bytes)) : storeReader := at_items cur [] 0 ∅ c l.

Definition inside (name : bytes) (rest : list (Z * bytes)) (L : list (list pfield)) (s : storeReader) : Prop :=
  exists c, (exists recs, s = at0 name c (map rec_item recs ++ rest) /\ leaves recs = L /\ Forall fields_ok recs /\ Forall env_ok (map rec_item recs ++ rest)) \/
            (s = at0 [] c rest /\ L = []).

Section OneStore.
Context (name : bytes) (Hname : name <> []).

Lemma next_leaf_inside rest L s : Forall env_ok rest -> store_over rest -> inside name rest L s ->
  exists s', next_leaf name s = (Ret (encode_fields <$> head L), s') /\ inside name rest (tail L) s' /\ (L = [] -> exists c, s' = at0 [] c rest).
Proof using Hname.
  intros Hok Hover (c & [(recs & -> & <- & Hrec & Henv)|[-> ->]]).
  - unfold at0. rewrite next_leaf_at by done. rewrite <- (leaves_to_leaf recs). pose proof (eq_refl (to_leaf recs)) as E.
    assert (Hsub : exists pre, recs = pre ++ to_leaf recs).
    { clear. induction recs as [|r recs [pre IH]]; [by exists []|]. cbn. destruct (rleaf r); [by exists []|]. exists (r :: pre). cbn. by f_equal. }
    destruct Hsub as [pre Hsub]. assert (Hhd : match to_leaf recs with r :: _ => rleaf r = true | [] => True end).
    { clear. induction recs as [|r recs IH]; [done|]. cbn. destruct (rleaf r) eqn:Er; [exact Er|exact IH]. }
    destruct (to_leaf recs) as [|r recs'] eqn:Et; cbn [leaves List.filter].
    + eexists. split; [done|]. split; [exists true; by right|]. intros _. by exists true.
    + unfold leaves. cbn [List.filter]. rewrite Hhd. cbn [head tail]. eexists. split; [done|]. split; [|done]. exists false. left. exists recs'.
      rewrite Hsub in Hrec, Henv. apply Forall_app in Hrec as [_ Hrec]. apply Forall_cons in Hrec as [_ Hrec].
      rewrite map_app, <- app_assoc in Henv. apply Forall_app in Henv as [_ Henv]. cbn in Henv. by apply Forall_cons in Henv as [_ Henv].
  - unfold at0. rewrite next_leaf_elsewhere by done. eexists. split; [done|]. split; [exists c; by right|]. intros _. by exists c.
Qed.

(** A side that has the store reads on in it; the other does not move. *)
Definition side (has : bool) (rest : list (Z * bytes)) (s0 : storeReader) (L : list (list pfield)) (s : storeReader) : Prop :=
  if has then inside name rest L s else L = [] /\ s = s0.
Definition finished (has : bool) (rest : list (Z * bytes)) (s0 s : storeReader) : Prop :=
  if has then exists c, s = at0 [] c rest else s = s0.

Context (hasB hasT : bool) (restB restT : list (Z * bytes)) (b0 t0 : storeReader).
Context (HokB : Forall env_ok restB) (HokT : Forall env_ok restT) (HoverB : store_over restB) (HoverT : store_over restT).

Lemma advanceBase_spec L d : side hasB restB b0 L (baseRdr d) ->
  exists d', advanceBase hasB name d = (Ret (encode_fields <$> head L), d') /\ side hasB restB b0 (tail L) (baseRdr d') /\
    (L = [] -> finished hasB restB b0 (baseRdr d')) /\ targetRdr d' = targetRdr d /\ d_out d' = d_out d.
Proof using Hname HokB HoverB.
  unfold side, finished, advanceBase. destruct hasB; intros Hs.
  - destruct (next_leaf_inside restB L (baseRdr d) HokB HoverB Hs) as (s' & E & Hs' & Hend). unfold mbind, M_bind, in_base, zoom. rewrite E.
    destruct L as [|r L]; cbn [head fmap option_fmap option_map tail]; eexists; split_and!; try done; cbn; auto.
  - destruct Hs as [-> Hs]. exists d. by split_and!.
Qed.

Lemma advanceTarget_spec L d : side hasT restT t0 L (targetRdr d) ->
  exists d', advanceTarget hasT name d = (Ret (encode_fields <$> head L), d') /\ side hasT restT t0 (tail L) (targetRdr d') /\
    (L = [] -> finished hasT restT t0 (targetRdr d')) /\ baseRdr d' = baseRdr d /\ d_out d' = d_out d.
Proof using Hname HokT HoverT.
  unfold side, finished, advanceTarget. destruct hasT; intros Hs.
  - destruct (next_leaf_inside restT L (targetRdr d) HokT HoverT Hs) as (s' & E & Hs' & Hend). unfold mbind, M_bind, in_target, zoom. rewrite E.
    destruct L as [|r L]; cbn [head fmap option_fmap option_map tail]; eexists; split_and!; try done; cbn; auto.
  - destruct Hs as [-> Hs]. exists d. by split_and!.
Qed.
End OneStore.

(** The current leaf and those ahead. *)
Definition current (r : option (list pfield)) (L : list (list pfield)) : list (list pfield) :=
  match r with Some r => r :: L | None => [] end.

Section Merging.
Context (name : bytes) (Hname : name <> []).
Context (hasB hasT : bool) (restB restT : list (Z * bytes)) (b0 t0 : storeReader).
Context (HokB : Forall env_ok restB) (HokT : Forall env_ok restT) (HoverB : store_over restB) (HoverT : store_over restT).

(** A side with the head [r] read out. *)
Definition ready (has : bool) (rest : list (Z * bytes)) (s0 : storeReader) (r : option (list pfield)) (L : list (list pfield)) (s : storeReader) : Prop :=
  side name has rest s0 L s /\ (r = None -> L = [] /\ finished has rest s0 s).

Lemma advanced has rest s0 L s : side name has rest s0 (tail L) s -> (L = [] -> finished has rest s0 s) ->
  ready has rest s0 (head L) (tail L) s.
Proof using Type. intros Hs Hf. split; [done|]. destruct L; [auto|done]. Qed.

Lemma current_head L : current (head L) (tail L) = L.
Proof using Type. by destruct L. Qed.

Definition records (ev : list event) : list bytes := omap record_of ev.

Lemma diff_loop_spec fuel : forall b t LB LT d,
  ready hasB restB b0 b LB (baseRdr d) -> ready hasT restT t0 t LT (targetRdr d) ->
  Forall fields_ok (current b LB) -> Forall fields_ok (current t LT) -> (length (current b LB) + length (current t LT) < fuel)%nat ->
  exists d', diff_loop fuel hasB hasT name (encode_fields <$> b) (encode_fields <$> t) d = (Ret tt, d') /\
    d_out d' = d_out d ++ records (merge_events fuel (current b LB) (current t LT)) /\
    finished hasB restB b0 (baseRdr d') /\ finished hasT restT t0 (targetRdr d').
Proof using Hname HokB HokT HoverB HoverT.
  induction fuel as [|fuel IH]; intros b t LB LT d Hb Ht HB HT Hf; [lia|].
  assert (goB : forall d r LT, side name hasB restB b0 LB (baseRdr d) -> ready hasT restT t0 r LT (targetRdr d) -> Forall fields_ok LB ->
      Forall fields_ok (current r LT) -> (length LB + length (current r LT) < fuel)%nat ->
      exists d', (b ← advanceBase hasB name; diff_loop fuel hasB hasT name b (encode_fields <$> r)) d = (Ret tt, d') /\
        d_out d' = d_out d ++ records (merge_events fuel LB (current r LT)) /\ finished hasB restB b0 (baseRdr d') /\ finished hasT restT t0 (targetRdr d')).
  { intros d1 r LT1 Hs Hr HB1 HT1 Hf1.
    destruct (advanceBase_spec name Hname hasB restB b0 HokB HoverB LB d1 Hs) as (d2 & E & Hs2 & Hfin & Ht2 & Ho).
    destruct (IH (head LB) r (tail LB) LT1 d2 (advanced _ _ _ _ _ Hs2 Hfin) ltac:(by rewrite Ht2) ltac:(by rewrite current_head) HT1 ltac:(by rewrite current_head))
      as (d3 & E3 & Ho3 & Hfin3). rewrite current_head in Ho3.
    exists d3. unfold mbind, M_bind. rewrite E. split; [exact E3|]. by rewrite Ho3, Ho. }
  assert (goT : forall d r LB, ready hasB restB b0 r LB (baseRdr d) -> side name hasT restT t0 LT (targetRdr d) -> Forall fields_ok (current r LB) ->
      Forall fields_ok LT -> (length (current r LB) + length LT < fuel)%nat ->
      exists d', (t ← advanceTarget hasT name; diff_loop fuel hasB hasT name (encode_fields <$> r) t) d = (Ret tt, d') /\
        d_out d' = d_out d ++ records (merge_events fuel (current r LB) LT) /\ finished hasB restB b0 (baseRdr d') /\ finished hasT restT t0 (targetRdr d')).
  { intros d1 r LB1 Hr Hs HB1 HT1 Hf1.
    destruct (advanceTarget_spec name Hname hasT restT t0 HokT HoverT LT d1 Hs) as (d2 & E & Hs2 & Hfin & Hb2 & Ho).
    destruct (IH r (head LT) LB1 (tail LT) d2 ltac:(by rewrite Hb2) (advanced _ _ _ _ _ Hs2 Hfin) HB1 ltac:(by rewrite current_head) ltac:(by rewrite current_head))
      as (d3 & E3 & Ho3 & Hfin3). rewrite current_head in Ho3.
    exists d3. unfold mbind, M_bind. rewrite E. split; [exact E3|]. by rewrite Ho3, Ho. }
  assert (goBT : forall d, side name hasB restB b0 LB (baseRdr d) -> side name hasT restT t0 LT (targetRdr d) -> Forall fields_ok LB ->
      Forall fields_ok LT -> (length LB + length LT < fuel)%nat ->
      exists d', (b ← advanceBase hasB name; t ← advanceTarget hasT name; diff_loop fuel hasB hasT name b t) d = (Ret tt, d') /\
        d_out d' = d_out d ++ records (merge_events fuel LB LT) /\ finished hasB restB b0 (baseRdr d') /\ finished hasT restT t0 (targetRdr d')).
  { intros d1 Hs Hs' HB1 HT1 Hf1.
    destruct (advanceBase_spec name Hname hasB restB b0 HokB HoverB LB d1 Hs) as (d2 & E & Hs2 & Hfin & Ht2 & Ho).
    destruct (goT d2 (head LB) (tail LB) (advanced _ _ _ _ _ Hs2 Hfin) ltac:(by rewrite Ht2) ltac:(by rewrite current_head) HT1 ltac:(by rewrite current_head))
      as (d3 & E3 & Ho3 & Hfin3). rewrite current_head in Ho3.
    exists d3. unfold mbind at 1, M_bind at 1. rewrite E. split; [exact E3|]. by rewrite Ho3, Ho. }
  destruct Hb as [Hsb Hnb], Ht as [Hst Hnt]. cbn [diff_loop]. destruct b as [b|], t as [t|]; cbn [fmap option_fmap option_map current] in *.
  - apply Forall_cons in HB as [Hfb HB]. apply Forall_cons in HT as [Hft HT]. cbn [merge_events].
    destruct (Z.eqb_spec (bytesCompare (encode_fields b) (encode_fields t)) 0) as [_|_].
    { destruct (goBT d Hsb Hst HB HT ltac:(cbn in Hf; lia)) as (d' & E & Ho & Hfin). by exists d'. }
    unfold mbind at 1, M_bind at 1, lift_out. rewrite parseIAVLKeyValue_fields by done.
    unfold mbind at 1, M_bind at 1. rewrite parseIAVLKeyValue_fields by done. cbn [fst snd].
    destruct (bytesEqual (rkey b) (rkey t)).
    { unfold mbind at 1, M_bind at 1. unfold emit_update at 1. unfold upd_ss, upd_stats, emit, modify. unfold mbind at 1 2, M_bind at 1 2.
      match goal with |- context [_ ?d1 = (Ret tt, _)] => destruct (goBT d1 Hsb Hst HB HT ltac:(cbn in Hf; lia)) as (d' & E & Ho & Hfin) end.
      exists d'. split; [exact E|]. split; [|exact Hfin]. rewrite Ho. cbn [d_out records omap list_omap record_of]. by rewrite <- app_assoc. }
    destruct (_ <? 0).
    + unfold mbind at 1, M_bind at 1. unfold emit_delete at 1. unfold upd_ss, upd_stats, emit, modify. unfold mbind at 1 2, M_bind at 1 2.
      match goal with |- context [_ ?d1 = (Ret tt, _)] =>
        destruct (goB d1 (Some t) LT Hsb (conj Hst Hnt) HB ltac:(by constructor) ltac:(cbn in *; lia)) as (d' & E & Ho & Hfin) end.
      exists d'. split; [exact E|]. split; [|exact Hfin]. rewrite Ho. cbn [d_out records omap list_omap record_of]. by rewrite <- app_assoc.
    + unfold mbind at 1, M_bind at 1. unfold emit_insert at 1. unfold upd_ss, upd_stats, emit, modify. unfold mbind at 1 2, M_bind at 1 2.
      match goal with |- context [_ ?d1 = (Ret tt, _)] =>
        destruct (goT d1 (Some b) LB (conj Hsb Hnb) Hst ltac:(by constructor) HT ltac:(cbn in *; lia)) as (d' & E & Ho & Hfin) end.
      exists d'. split; [exact E|]. split; [|exact Hfin]. rewrite Ho. cbn [d_out records omap list_omap record_of]. by rewrite <- app_assoc.
  - apply Forall_cons in HB as [Hfb HB]. unfold mbind at 1, M_bind at 1, lift_out. rewrite parseIAVLKeyValue_fields by done. cbn [fst snd merge_events].
    unfold mbind at 1, M_bind at 1. unfold emit_delete at 1. unfold upd_ss, upd_stats, emit, modify. unfold mbind at 1 2, M_bind at 1 2.
    match goal with |- context [_ ?d1 = (Ret tt, _)] =>
      destruct (goB d1 None LT Hsb (conj Hst Hnt) HB ltac:(done) ltac:(cbn in *; lia)) as (d' & E & Ho & Hfin) end.
    exists d'. split; [exact E|]. split; [|exact Hfin]. rewrite Ho. cbn [d_out records omap list_omap record_of]. by rewrite <- app_assoc.
  - apply Forall_cons in HT as [Hft HT]. unfold mbind at 1, M_bind at 1, lift_out. rewrite parseIAVLKeyValue_fields by done. cbn [fst snd merge_events].
    unfold mbind at 1, M_bind at 1. unfold emit_insert at 1. unfold upd_ss, upd_stats, emit, modify. unfold mbind at 1 2, M_bind at 1 2.
    match goal with |- context [_ ?d1 = (Ret tt, _)] =>
      destruct (goT d1 None LB (conj Hsb Hnb) Hst ltac:(done) HT ltac:(cbn in *; lia)) as (d' & E & Ho & Hfin) end.
    exists d'. split; [exact E|]. split; [|exact Hfin]. rewrite Ho. cbn [d_out records omap list_omap record_of]. by rewrite <- app_assoc.
  - exists d. cbn [merge_events records omap list_omap]. rewrite app_nil_r. destruct (Hnb eq_refl), (Hnt eq_refl). by split_and!.
Qed.
End Merging.

(** ** All stores compared *)

Definition store := (bytes * list (list pfield))%type.

Definition store_ok (s : store) : Prop := s.1 <> [] /\ len s.1 < 2 ^ 61 /\ Forall fields_ok s.2 /\ Forall env_ok (store_items s).

Definition leaf_kvs (s : store) : list (bytes * bytes) := map kv_of (leaves s.2).

(** What follows the stores. *)
Definition exts_ahead (l : list (Z * bytes)) : Prop := match l with [] => True | it :: _ => fst it = 3 \/ fst it = 4 end.

Lemma exts_ahead_over l : exts_ahead l -> store_over l.
Proof. destruct l; [done|]. cbn. auto. Qed.

Lemma stores_env S rest : Forall store_ok S -> Forall env_ok rest -> Forall env_ok (stores_items S ++ rest).
Proof. intros HS Hr. apply Forall_app. split; [|done]. apply Forall_bind. eapply Forall_impl; [exact HS|]. by intros s (_ & _ & _ & ?). Qed.

(** A reader in front of these stores: not looked at yet, or with the first one entered. *)
Definition before (S : list store) (rest : list (Z * bytes)) (s : storeReader) : Prop :=
  (exists c, s = at0 [] c (stores_items S ++ rest)) \/
  (exists c n recs S', S = (n, recs) :: S' /\ s = at0 n c (map rec_item recs ++ stores_items S' ++ rest)).

Lemma before_items S rest s : before S rest s -> (length (stores_items S) <= items_left s)%nat.
Proof.
  intros [[c ->]|(c & n & recs & S' & -> & ->)].
  - pose proof (items_left_at [] [] 0 ∅ c (stores_items S ++ rest)). unfold at0. rewrite length_app in *. lia.
  - pose proof (items_left_at n [] 0 ∅ c (map rec_item recs ++ stores_items S' ++ rest)) as H. unfold at0. rewrite !length_app, length_map in H.
    assert (E : length (stores_items ((n, recs) :: S')) = S (length recs + length (stores_items S'))).
    { unfold stores_items. cbn [mbind list_bind]. rewrite length_app. unfold store_items. cbn [length snd]. by rewrite length_map. }
    lia.
Qed.

Lemma peekStore_before S rest s : Forall store_ok S -> Forall env_ok rest -> exts_ahead rest -> before S rest s ->
  match S with
  | [] => exists c, peekStore s = (Ret ([], true), at0 [] c rest)
  | (n, recs) :: S' => exists c, peekStore s = (Ret (n, false), at0 n c (map rec_item recs ++ stores_items S' ++ rest))
  end.
Proof.
  intros HS Hr Hx Hs. pose proof (stores_env S rest HS Hr) as Henv. destruct S as [|[n recs] S'].
  - destruct Hs as [[c ->]|(c & n & recs & S' & [=] & _)]. exists true. by apply peekStore_over.
  - apply Forall_cons in HS as [(Hne & Hl & _) _]. cbn [fst] in Hne, Hl. destruct Hs as [[c ->]|(c & m & recs' & S'' & [= <- <- <-] & ->)].
    + exists false. unfold at0, stores_items in *. cbn [mbind list_bind] in *. rewrite <- app_assoc in *. apply peekStore_here; [done|lia|done].
    + exists c. by apply peekStore_again.
Qed.

Lemma entered_inside n recs S' rest c : Forall store_ok ((n, recs) :: S') -> Forall env_ok rest ->
  inside n (stores_items S' ++ rest) (leaves recs) (at0 n c (map rec_item recs ++ stores_items S' ++ rest)).
Proof.
  intros [(_ & _ & Hrec & Henv) HS]%Forall_cons Hr. cbn [fst snd] in *. exists c. left. exists recs. split_and!; [done|done|done|].
  apply Forall_app. split; [|by apply stores_env]. unfold store_items in Henv. by apply Forall_cons in Henv as [_ Henv].
Qed.

Lemma finished_before S' rest s s0 : finished true (stores_items S' ++ rest) s0 s -> before S' rest s.
Proof. intros [c ->]. left. by exists c. Qed.

Lemma leaves_ok recs : Forall fields_ok recs -> Forall fields_ok (leaves recs).
Proof. intros H. apply Forall_forall. intros r Hr. apply list_elem_of_In, filter_In in Hr as [Hr _]. apply list_elem_of_In in Hr. by eapply Forall_forall in H. Qed.

Lemma leaves_length recs : (length (leaves recs) <= length recs)%nat.
Proof. unfold leaves. induction recs as [|r recs IH]; [done|]. cbn [List.filter]. destruct (rleaf r); cbn [length]; lia. Qed.

(** The records of a section of the diff. *)
Definition section_records (x : bytes * list event) : list bytes :=
  buildOneOfMessage tagStoreEnter [encStringField 1 x.1] :: records x.2 ++ [buildOneOfMessage tagStoreLeave []].

Lemma inside_fuel name rest L s : inside name rest L s -> (length L < items_left s)%nat.
Proof.
  intros (c & [(recs & -> & <- & _)|[-> ->]]).
  - assert (H : (length (map rec_item recs ++ rest) < items_left (at0 name c (map rec_item recs ++ rest)))%nat) by apply items_left_at.
    rewrite length_app, length_map in H. pose proof (leaves_length recs). lia.
  - unfold items_left. cbn. lia.
Qed.

Lemma diffStore_spec name hasB hasT restB restT LB LT d : name <> [] ->
  Forall env_ok restB -> Forall env_ok restT -> store_over restB -> store_over restT -> Forall fields_ok LB -> Forall fields_ok LT ->
  side name hasB restB (baseRdr d) LB (baseRdr d) -> side name hasT restT (targetRdr d) LT (targetRdr d) ->
  exists d' ev, diffStore hasB hasT name d = (Ret tt, d') /\ d_out d' = d_out d ++ section_records (name, ev) /\
    omap base_side ev = map kv_of LB /\ omap target_side ev = map kv_of LT /\
    finished hasB restB (baseRdr d) (baseRdr d') /\ finished hasT restT (targetRdr d) (targetRdr d').
Proof.
  intros Hne HeB HeT HoB HoT HfB HfT HB HT.
  assert (Hfuel : (length LB + length LT < leaves_left d)%nat).
  { unfold leaves_left. assert ((length LB <= items_left (baseRdr d))%nat) by (destruct hasB; [apply Nat.lt_le_incl; by eapply inside_fuel|destruct HB as [-> _]; cbn; lia]).
    assert ((length LT <= items_left (targetRdr d))%nat) by (destruct hasT; [apply Nat.lt_le_incl; by eapply inside_fuel|destruct HT as [-> _]; cbn; lia]). lia. }
  destruct (merge_sides (leaves_left d) LB LT Hfuel HfB HfT) as [HsB HsT].
  unfold diffStore. unfold mbind at 1, M_bind at 1. unfold emit at 1, modify at 1.
  unfold mbind at 1, M_bind at 1. unfold upd_stats at 1, modify at 1. unfold mbind at 1, M_bind at 1. unfold get at 1.
  unfold mbind at 1, M_bind at 1. unfold upd_ss at 1, modify at 1.
  unfold mbind at 1, M_bind at 1.
  match goal with |- context [advanceBase hasB name ?d1] =>
    destruct (advanceBase_spec name Hne hasB restB (baseRdr d) HeB HoB LB d1 HB) as (d2 & E1 & S1 & F1 & T1 & O1) end.
  rewrite E1. unfold mbind at 1, M_bind at 1. cbn [targetRdr] in T1.
  destruct (advanceTarget_spec name Hne hasT restT (targetRdr d) HeT HoT LT d2 ltac:(by rewrite T1)) as (d3 & E2 & S2 & F2 & B2 & O2).
  rewrite E2. unfold mbind at 1, M_bind at 1.
  match goal with |- context [diff_loop ?fl] => change fl with (leaves_left d) end.
  destruct (diff_loop_spec name Hne hasB hasT restB restT (baseRdr d) (targetRdr d) HeB HeT HoB HoT (leaves_left d) (head LB) (head LT) (tail LB) (tail LT) d3)
    as (d4 & E3 & O3 & F3 & F4).
  { rewrite B2. by apply advanced. }
  { by apply advanced. }
  { by rewrite current_head. }
  { by rewrite current_head. }
  { by rewrite !current_head. }
  rewrite E3. eexists _, (merge_events (leaves_left d) LB LT). split; [reflexivity|]. cbn [d_out baseRdr targetRdr]. split_and!; try done.
  rewrite O3, O2, O1, !current_head. cbn [d_out]. unfold section_records. cbn [fst snd]. rewrite <- !app_assoc. done.
Qed.

(** The first of these stores, if any, is named after [n]. *)
Definition ahead (n : bytes) (S : list store) : Prop := match S with [] => True | s :: _ => bytes_ltb n s.1 = true end.

(** The sections of a diff: one for every store of either side, by name. *)
Inductive sections : list store -> list store -> list (bytes * list event) -> Prop :=
| sections_none : sections [] [] []
| sections_base n recs ev SB ST secs : ahead n ST -> omap base_side ev = leaf_kvs (n, recs) -> omap target_side ev = [] ->
    sections SB ST secs -> sections ((n, recs) :: SB) ST ((n, ev) :: secs)
| sections_target n recs ev SB ST secs : ahead n SB -> omap base_side ev = [] -> omap target_side ev = leaf_kvs (n, recs) ->
    sections SB ST secs -> sections SB ((n, recs) :: ST) ((n, ev) :: secs)
| sections_both n recsB recsT ev SB ST secs : omap base_side ev = leaf_kvs (n, recsB) -> omap target_side ev = leaf_kvs (n, recsT) ->
    sections SB ST secs -> sections ((n, recsB) :: SB) ((n, recsT) :: ST) ((n, ev) :: secs).

Section StoresLoop.
Context (restB restT : list (Z * bytes)).
Context (HokB : Forall env_ok restB) (HokT : Forall env_ok restT) (HxB : exts_ahead restB) (HxT : exts_ahead restT).

Lemma over_ahead S rest : exts_ahead rest -> store_over (stores_items S ++ rest).
Proof using Type. intros. by apply stores_over_items, exts_ahead_over. Qed.

(** One store, whichever sides have it: [SB'] and [ST'] are the stores behind it there. *)
Lemma store_turn (hasB hasT : bool) n recsB recsT SB' ST' d : n <> [] ->
  Forall store_ok SB' -> Forall store_ok ST' -> (if hasB then Forall fields_ok recsB else recsB = []) -> (if hasT then Forall fields_ok recsT else recsT = []) ->
  side n hasB (stores_items SB' ++ restB) (baseRdr d) (leaves recsB) (baseRdr d) ->
  side n hasT (stores_items ST' ++ restT) (targetRdr d) (leaves recsT) (targetRdr d) ->
  (hasB = false -> before SB' restB (baseRdr d)) -> (hasT = false -> before ST' restT (targetRdr d)) ->
  exists d' ev, diffStore hasB hasT n d = (Ret tt, d') /\ d_out d' = d_out d ++ section_records (n, ev) /\
    omap base_side ev = leaf_kvs (n, recsB) /\ omap target_side ev = leaf_kvs (n, recsT) /\
    before SB' restB (baseRdr d') /\ before ST' restT (targetRdr d').
Proof using HokB HokT HxB HxT.
  intros Hn HSB HST HfB HfT HsB HsT HnB HnT.
  assert (Hlv : forall (has : bool) recs, (if has then Forall fields_ok recs else recs = []) -> Forall fields_ok (leaves recs)).
  { intros [] recs H; [by apply leaves_ok|]. subst. constructor. }
  destruct (diffStore_spec n hasB hasT (stores_items SB' ++ restB) (stores_items ST' ++ restT) (leaves recsB) (leaves recsT) d Hn
    (stores_env _ _ HSB HokB) (stores_env _ _ HST HokT) (over_ahead _ _ HxB) (over_ahead _ _ HxT) (Hlv _ _ HfB) (Hlv _ _ HfT) HsB HsT)
    as (d' & ev & E & Ho & H1 & H2 & F1 & F2).
  exists d', ev. split_and!; try done.
  - destruct hasB; [by eapply finished_before|]. rewrite F1. by apply HnB.
  - destruct hasT; [by eapply finished_before|]. rewrite F2. by apply HnT.
Qed.

Lemma bytes_ltb_neither a b : bytes_ltb a b = false -> bytes_ltb b a = false -> a = b.
Proof using Type. intros. destruct (bytes_ltb_total a b) as [|[]]; congruence. Qed.

Lemma entered_before n recs S' rest c : before ((n, recs) :: S') rest (at0 n c (map rec_item recs ++ stores_items S' ++ rest)).
Proof using Type. right. exists c, n, recs, S'. done. Qed.

Lemma stores_loop_spec fuel : forall SB ST d, Forall store_ok SB -> Forall store_ok ST ->
  before SB restB (baseRdr d) -> before ST restT (targetRdr d) -> (length SB + length ST < fuel)%nat ->
  exists d' secs cB cT, stores_loop fuel d = (Ret tt, d') /\ d_out d' = d_out d ++ (secs ≫= section_records) /\ sections SB ST secs /\
    baseRdr d' = at0 [] cB restB /\ targetRdr d' = at0 [] cT restT.
Proof using HokB HokT HxB HxT.
  induction fuel as [|fuel IH]; intros SB ST d HSB HST HB HT Hf; [lia|].
  pose proof (peekStore_before SB restB _ HSB HokB HxB HB) as PB. pose proof (peekStore_before ST restT _ HST HokT HxT HT) as PT.
  cbn [stores_loop]. unfold mbind at 1, M_bind at 1, in_base, zoom.
  (* the rest of the loop, once a store is done *)
  assert (go : forall SB' ST' n ev d1 d2 (run : M differ unit), Forall store_ok SB' -> Forall store_ok ST' ->
      run d1 = (Ret tt, d2) -> d_out d1 = d_out d -> d_out d2 = d_out d1 ++ section_records (n, ev) -> before SB' restB (baseRdr d2) -> before ST' restT (targetRdr d2) ->
      (length SB' + length ST' < fuel)%nat ->
      exists d' secs cB cT, (_ ← run; stores_loop fuel) d1 = (Ret tt, d') /\ d_out d' = d_out d ++ (((n, ev) :: secs) ≫= section_records) /\ sections SB' ST' secs /\
        baseRdr d' = at0 [] cB restB /\ targetRdr d' = at0 [] cT restT).
  { intros SB' ST' n ev d1 d2 run H1 H2 E Ho1 Ho HB' HT' Hf'. destruct (IH SB' ST' d2 H1 H2 HB' HT' Hf') as (d' & secs & cB & cT & E' & Ho' & Hs & R).
    exists d', secs, cB, cT. unfold mbind at 1, M_bind at 1. rewrite E. split; [exact E'|]. split; [|by split].
    rewrite Ho', Ho, Ho1. cbn [mbind list_bind]. by rewrite <- app_assoc. }
  destruct SB as [|[n recsB] SB].
  - destruct PB as (cB & ->). unfold mbind at 1, M_bind at 1, in_target, zoom. cbn [targetRdr]. destruct ST as [|[m recsT] ST].
    + destruct PT as (cT & ->). cbn [andb]. eexists _, [], cB, cT. split; [reflexivity|]. cbn [d_out mbind list_bind baseRdr targetRdr]. rewrite app_nil_r.
      split_and!; [done|constructor|done|done].
    + destruct PT as (cT & ->). cbn [andb]. pose proof HST as [Hok HST']%Forall_cons. destruct Hok as (Hm & _ & Hrec & _). cbn [fst snd] in *.
      match goal with |- context [_ ?d1 = _] => set (d1' := d1) end.
      destruct (store_turn false true m [] recsT [] ST d1' Hm HSB HST' eq_refl Hrec) as (d2 & ev & E & Ho & H1 & H2 & B1 & B2).
      { by split. }
      { by apply entered_inside. }
      { intros _. left. by exists cB. }
      { done. }
      destruct (go [] ST m ev d1' d2 _ HSB HST' E eq_refl Ho B1 B2 ltac:(cbn in *; lia)) as (d' & secs & c1 & c2 & E' & Ho' & Hs & R).
      exists d', ((m, ev) :: secs), c1, c2. split; [exact E'|]. split; [exact Ho'|]. split; [by constructor|done].
  - destruct PB as (cB & ->). unfold mbind at 1, M_bind at 1, in_target, zoom. cbn [targetRdr]. pose proof HSB as [Hok HSB']%Forall_cons.
    destruct Hok as (Hn & _ & HrecB & _). cbn [fst snd] in *. destruct ST as [|[m recsT] ST].
    + destruct PT as (cT & ->). cbn [andb].
      match goal with |- context [_ ?d1 = _] => set (d1' := d1) end.
      destruct (store_turn true false n recsB [] SB [] d1' Hn HSB' HST HrecB eq_refl) as (d2 & ev & E & Ho & H1 & H2 & B1 & B2).
      { by apply entered_inside. }
      { by split. }
      { done. }
      { intros _. left. by exists cT. }
      destruct (go SB [] n ev d1' d2 _ HSB' HST E eq_refl Ho B1 B2 ltac:(cbn in *; lia)) as (d' & secs & c1 & c2 & E' & Ho' & Hs & R).
      exists d', ((n, ev) :: secs), c1, c2. split; [exact E'|]. split; [exact Ho'|]. split; [by constructor|done].
    + destruct PT as (cT & ->). cbn [andb]. pose proof HST as [Hok HST']%Forall_cons. destruct Hok as (Hm & _ & HrecT & _). cbn [fst snd] in *.
      match goal with |- context [_ ?d1 = _] => set (d1' := d1) end.
      destruct (bytes_ltb n m) eqn:Lnm; [|destruct (bytes_ltb m n) eqn:Lmn].
      * destruct (store_turn true false n recsB [] SB ((m, recsT) :: ST) d1' Hn HSB' HST HrecB eq_refl) as (d2 & ev & E & Ho & H1 & H2 & B1 & B2).
        { by apply entered_inside. }
        { by split. }
        { done. }
        { intros _. apply entered_before. }
        destruct (go SB ((m, recsT) :: ST) n ev d1' d2 _ HSB' HST E eq_refl Ho B1 B2 ltac:(cbn in *; lia)) as (d' & secs & c1 & c2 & E' & Ho' & Hs & R).
        exists d', ((n, ev) :: secs), c1, c2. split; [exact E'|]. split; [exact Ho'|]. split; [by constructor|done].
      * destruct (store_turn false true m [] recsT ((n, recsB) :: SB) ST d1' Hm HSB HST' eq_refl HrecT) as (d2 & ev & E & Ho & H1 & H2 & B1 & B2).
        { by split. }
        { by apply entered_inside. }
        { intros _. apply entered_before. }
        { done. }
        destruct (go ((n, recsB) :: SB) ST m ev d1' d2 _ HSB HST' E eq_refl Ho B1 B2 ltac:(cbn in *; lia)) as (d' & secs & c1 & c2 & E' & Ho' & Hs & R).
        exists d', ((m, ev) :: secs), c1, c2. split; [exact E'|]. split; [exact Ho'|]. split; [by constructor|done].
      * pose proof (bytes_ltb_neither n m Lnm Lmn) as <-.
        destruct (store_turn true true n recsB recsT SB ST d1' Hn HSB' HST' HrecB HrecT) as (d2 & ev & E & Ho & H1 & H2 & B1 & B2).
        { by apply entered_inside. }
        { by apply entered_inside. }
        { done. }
        { done. }
        destruct (go SB ST n ev d1' d2 _ HSB' HST' E eq_refl Ho B1 B2 ltac:(cbn in *; lia)) as (d' & secs & c1 & c2 & E' & Ho' & Hs & R).
        exists d', ((n, ev) :: secs), c1, c2. split; [exact E'|]. split; [exact Ho'|]. split; [by constructor|done].
Qed.
End StoresLoop.
