(* ===== verification/DiffApply.v ===== *)
(** * The key-value diff: applying it

    The reader of a diff and the applier of [Diff], over the descriptions of
    [DiffProof]: a diff is the sections of its stores and those of its extensions,
    and applied to its base it gives the target's leaves, in order, and the target's
    payloads. *)

From S2P Require Import Prelude Sha256 Varint CommitInfo SnapProto DiffSync Diff DiffProof.

(** ** Sizes *)

(** A key and a value, or a name, that fit into a record with room to spare. *)
Definition kv_fits (kv : bytes * bytes) : Prop := len kv.1 + len kv.2 <= 2 ^ 47.

Definition kv_fields (k v : bytes) : list pfield := [PBytes 1 k; PBytes 2 v].

Lemma bytes_field_bound n b : 1 <= n < 16 -> len b < 2 ^ 64 -> len (encode_field (PBytes n b)) <= 11 + len b.
Proof.
  intros Hn Hb. rewrite encode_bytes_field by done. pose proof (len_PutUvarint (len b) ltac:(pose proof (len_nonneg b); lia)). len_simpl. lia.
Qed.

Lemma kv_fields_ok k v : kv_fits (k, v) -> fields_ok (kv_fields k v) /\ len (encode_fields (kv_fields k v)) <= 2 ^ 47 + 22.
Proof.
  unfold kv_fits. cbn [fst snd]. intros H. pose proof (len_nonneg k). pose proof (len_nonneg v).
  pose proof (bytes_field_bound 1 k ltac:(lia) ltac:(lia)). pose proof (bytes_field_bound 2 v ltac:(lia) ltac:(lia)).
  assert (Hl : len (encode_fields (kv_fields k v)) <= 2 ^ 47 + 22).
  { unfold kv_fields. rewrite !encode_fields_cons. change (encode_fields []) with (@nil Init.Byte.byte). len_simpl. lia. }
  split; [|done]. split_and!; [repeat constructor; cbn; lia|cbn; repeat constructor; set_solver|lia].
Qed.

Lemma name_field_ok n : len n <= 2 ^ 47 -> fields_ok [PBytes 1 n] /\ len (encode_fields [PBytes 1 n]) <= 2 ^ 47 + 22.
Proof.
  intros H. pose proof (len_nonneg n). pose proof (bytes_field_bound 1 n ltac:(lia) ltac:(lia)).
  assert (Hl : len (encode_fields [PBytes 1 n]) <= 2 ^ 47 + 22).
  { rewrite !encode_fields_cons. change (encode_fields []) with (@nil Init.Byte.byte). len_simpl. lia. }
  split; [|done]. split_and!; [repeat constructor; cbn; lia|cbn; repeat constructor; set_solver|lia].
Qed.

Lemma env_ok_small t b : 1 <= t < 16 -> len b <= 2 ^ 47 + 50 -> env_ok (t, b).
Proof.
  intros Ht Hb. split; [done|]. rewrite env_eq by done. pose proof (len_PutUvarint (len b) ltac:(pose proof (len_nonneg b); lia)).
  unfold maxAlloc. len_simpl. lia.
Qed.

(** ** The records of a diff *)

Definition rec_env (e : event) : option (Z * bytes) :=
  match e with
  | EKeep _ _ => None
  | EDel k _ => Some (tagDelete, encode_fields [PBytes 1 k])
  | EUpd k _ v => Some (tagUpdate, encode_fields (kv_fields k v))
  | EIns k v => Some (tagInsert, encode_fields (kv_fields k v))
  end.

Definition section_items (x : bytes * list event) : list (Z * bytes) :=
  (tagStoreEnter, encode_fields [PBytes 1 x.1]) :: omap rec_env x.2 ++ [(tagStoreLeave, [])].

Lemma build_env t fs : buildOneOfMessage t (map encode_field fs) = env (t, encode_fields fs).
Proof. unfold env, buildOneOfMessage, encode_fields. cbn [fst snd concat]. by rewrite app_nil_r. Qed.

Lemma record_env e : record_of e = env <$> rec_env e.
Proof. destruct e; cbn [record_of rec_env fmap option_fmap option_map]; try done; by rewrite <- build_env. Qed.

Lemma records_env ev : records ev = map env (omap rec_env ev).
Proof.
  unfold records. induction ev as [|e ev IH]; [done|]. cbn [omap list_omap]. rewrite record_env. destruct (rec_env e); cbn; [by f_equal|done].
Qed.

Lemma section_records_env x : section_records x = map env (section_items x).
Proof.
  unfold section_records, section_items. cbn [map]. rewrite map_app, records_env. cbn [map].
  rewrite <- (build_env tagStoreEnter [PBytes 1 x.1]). done.
Qed.

(** What the events change: the accumulation of readStoreChanges. *)
Definition change (ch : storeChanges) (e : event) : storeChanges :=
  match e with
  | EKeep _ _ => ch
  | EDel k _ => mkChanges ({[k]} ∪ deletes ch) (updates ch) (inserts ch)
  | EUpd k _ v => mkChanges (deletes ch) (<[k := v]> (updates ch)) (inserts ch)
  | EIns k v => mkChanges (deletes ch) (updates ch) (<[k := v]> (inserts ch))
  end.
Definition changes_of (ev : list event) : storeChanges := fold_left change ev newStoreChanges.

(** ** Reading a diff *)

(** A diff reader with these records left, the first one pending or not. *)
Definition at_recs (c : bool) (l : list (Z * bytes)) : diffReader :=
  match l with
  | [] => mkDR (Source [] EOF) None c
  | it :: l' =>
      if c then mkDR (Source (frames (map env l')) EOF) (Some it) false
      else mkDR (Source (frames (map env l)) EOF) None false
  end.

Lemma peekRecord_at c l : Forall env_ok l -> peekRecord (at_recs c l) = (Ret (head l), at_recs true l).
Proof.
  intros Hok. unfold peekRecord, at_recs. destruct l as [|[t b] l]; cbn [eof pending dr].
  - destruct c; [done|]. by rewrite item_Next_end.
  - destruct c; cbn [eof pending dr]; [done|]. apply Forall_cons in Hok as [Hit Hok]. unfold frames. cbn [map concat].
    rewrite item_Next_frame by (by apply env_fits). unfold peekRecord_read.
    destruct (env_parts t b Hit) as (H1 & H2 & rest & H3 & H4 & H5 & H6).
    rewrite H1. cbn [mbind outcome_bind]. rewrite H3. cbn [mbind outcome_bind]. rewrite H2, H4, H5, H6. done.
Qed.

Lemma consumeRecord_at it l : consumeRecord (at_recs true (it :: l)) = (Ret tt, at_recs false l).
Proof. by destruct l. Qed.

Lemma records_left_at c l : (length l < records_left (at_recs c l))%nat.
Proof.
  unfold records_left, at_recs. destruct l as [|it l]; cbn [dr src_data length]; [lia|].
  destruct c; cbn [dr src_data]; [pose proof (length_frames (map env l)) as H|pose proof (length_frames (map env (it :: l))) as H];
    rewrite length_map in H; cbn [length] in H; lia.
Qed.

Lemma newDiffReader_at l : newDiffReader (Source (frames (map env l)) EOF) = at_recs false l.
Proof. by destruct l. Qed.

Ltac peek_record := unfold mbind at 1, M_bind at 1; rewrite peekRecord_at by done; cbn [head fst snd].
Ltac eat_record := unfold mbind at 1, M_bind at 1; rewrite consumeRecord_at.
Ltac step_out := unfold mbind at 1, M_bind at 1, lift_out.

Lemma peekSection_store c n l : len n <= 2 ^ 47 -> Forall env_ok ((tagStoreEnter, encode_fields [PBytes 1 n]) :: l) ->
  peekSection (at_recs c ((tagStoreEnter, encode_fields [PBytes 1 n]) :: l)) =
  (Ret (Some (sectionStore, n, 0)), at_recs true ((tagStoreEnter, encode_fields [PBytes 1 n]) :: l)).
Proof.
  intros Hn Hok. destruct (name_field_ok n Hn) as [Hf _]. unfold peekSection. generalize (S (length (src_data (dr (at_recs c ((tagStoreEnter, encode_fields [PBytes 1 n]) :: l)))))).
  intros m. change (records_left _) with (S (S (length (src_data (dr (at_recs c ((tagStoreEnter, encode_fields [PBytes 1 n]) :: l))))))). cbn [peekSection_loop].
  peek_record. change (tagStoreEnter =? tagStoreEnter) with true. cbv iota. step_out. by rewrite parseProtoBytes_find by done.
Qed.

Lemma peekSection_ext c n f l : len n < 2 ^ 61 -> 0 <= f < 2 ^ 32 -> Forall env_ok ((tagExtEnter, meta_body n f) :: l) ->
  peekSection (at_recs c ((tagExtEnter, meta_body n f) :: l)) =
  (Ret (Some (sectionExt, n, f)), at_recs true ((tagExtEnter, meta_body n f) :: l)).
Proof.
  intros Hn Hf Hok. pose proof (meta_fields_ok n f Hn Hf) as Hm. unfold peekSection.
  change (records_left _) with (S (S (length (src_data (dr (at_recs c ((tagExtEnter, meta_body n f) :: l))))))). cbn [peekSection_loop].
  peek_record. change (tagExtEnter =? tagStoreEnter) with false. change (tagExtEnter =? tagExtEnter) with true. cbv iota.
  step_out. unfold meta_body at 1. rewrite parseProtoBytes_find by done. step_out. unfold meta_body at 1. rewrite parseProtoVarint_find by done.
  cbn. by rewrite u32_small.
Qed.

Lemma peekSection_end c : peekSection (at_recs c []) = (Ret None, at_recs true []).
Proof. unfold peekSection. change (records_left _) with 2%nat. cbn [peekSection_loop]. by peek_record. Qed.

(** The sizes of what the events say. *)
Definition event_fits (e : event) : Prop :=
  match e with EKeep _ _ => True | EDel k v => kv_fits (k, v) | EUpd k v0 v => kv_fits (k, v) | EIns k v => kv_fits (k, v) end.

Lemma event_env_ok ev : Forall event_fits ev -> Forall env_ok (omap rec_env ev).
Proof.
  induction 1 as [|e ev He _ IH]; [constructor|]. destruct e; cbn [omap list_omap rec_env]; [done|constructor; [|done]..].
  - apply env_ok_small; [done|]. unfold event_fits, kv_fits in He. cbn [fst snd] in He. pose proof (len_nonneg v). destruct (name_field_ok k ltac:(lia)) as [_ Hk]. lia.
  - apply env_ok_small; [done|]. destruct (kv_fields_ok k v He) as [_ Hk]. lia.
  - apply env_ok_small; [done|]. destruct (kv_fields_ok k v He) as [_ Hk]. lia.
Qed.

Lemma read_changes ev rest : Forall event_fits ev -> Forall env_ok rest ->
  forall fuel ch c, (length (omap rec_env ev) < fuel)%nat ->
  readStoreChanges_loop fuel ch (at_recs c (omap rec_env ev ++ (tagStoreLeave, []) :: rest)) = (Ret (fold_left change ev ch), at_recs false rest).
Proof.
  intros Hev Hr. assert (Hleave : env_ok (tagStoreLeave, [])) by (apply env_ok_small; [done|by vm_compute]).
  induction ev as [|e ev IH]; intros [|fuel] ch c Hf; try (cbn in Hf; lia).
  - cbn [omap list_omap app readStoreChanges_loop]. unfold mbind at 1, M_bind at 1. rewrite peekRecord_at by (by constructor). cbn [head].
    change (tagStoreLeave =? tagStoreLeave) with true. cbv iota. by eat_record.
  - pose proof (event_env_ok _ Hev) as Henv. apply Forall_cons in Hev as [He Hev].
    assert (Hall : Forall env_ok (omap rec_env (e :: ev) ++ (tagStoreLeave, []) :: rest)) by (apply Forall_app; split; [done|by constructor]).
    destruct e as [k v|k v|k v0 v|k v]; cbn [omap list_omap rec_env app fold_left change] in *.
    + by apply IH.
    + cbn [readStoreChanges_loop]. peek_record. change (tagDelete =? tagStoreLeave) with false. change (tagDelete =? tagInsert) with false.
      change (tagDelete =? tagUpdate) with false. change (tagDelete =? tagDelete) with true. cbv iota. eat_record. step_out.
      rewrite parseProtoBytes_find; [|done|]. { cbn [find_bytes Z.eqb Pos.eqb default]. apply IH; [done|]. cbn in Hf. lia. }
      apply name_field_ok. unfold event_fits, kv_fits in He. cbn in He. pose proof (len_nonneg v). lia.
    + destruct (kv_fields_ok k v He) as [Hk _].
      cbn [readStoreChanges_loop]. peek_record. change (tagUpdate =? tagStoreLeave) with false. change (tagUpdate =? tagInsert) with false.
      change (tagUpdate =? tagUpdate) with true. cbv iota. eat_record. step_out. rewrite parseProtoBytes_find by done.
      step_out. rewrite parseProtoBytes_find by done. cbn [kv_fields find_bytes Z.eqb Pos.eqb default]. apply IH; [done|]. cbn in Hf. lia.
    + destruct (kv_fields_ok k v He) as [Hk _].
      cbn [readStoreChanges_loop]. peek_record. change (tagInsert =? tagStoreLeave) with false. change (tagInsert =? tagInsert) with true.
      cbv iota. eat_record. step_out. rewrite parseProtoBytes_find by done.
      step_out. rewrite parseProtoBytes_find by done. cbn [kv_fields find_bytes Z.eqb Pos.eqb default]. apply IH; [done|]. cbn in Hf. lia.
Qed.

Lemma readStoreChanges_at ev rest c : Forall event_fits ev -> Forall env_ok rest ->
  readStoreChanges (at_recs c (omap rec_env ev ++ (tagStoreLeave, []) :: rest)) = (Ret (changes_of ev), at_recs false rest).
Proof.
  intros Hev Hr. unfold readStoreChanges. apply read_changes; [done|done|].
  pose proof (records_left_at c (omap rec_env ev ++ (tagStoreLeave, []) :: rest)) as H. rewrite length_app in H. cbn [length] in H. lia.
Qed.

(** ** What the changes do to the leaves of the base *)

Definition key_lt (a b : bytes * bytes) : Prop := bytes_ltb a.1 b.1 = true.
#[export] Instance key_lt_trans : Transitive key_lt.
Proof. intros a b c. apply bytes_ltb_trans. Qed.

(** Leaves in the order of their keys, each key once. *)
Definition by_key : list (bytes * bytes) -> Prop := StronglySorted key_lt.

Lemma key_lt_irrefl a : ~ key_lt a a.
Proof. unfold key_lt. by rewrite bytes_ltb_irrefl. Qed.

Lemma by_key_NoDup l : by_key l -> NoDup l.*1.
Proof.
  induction 1 as [|x l _ IH Hx]; [constructor|]. cbn. apply NoDup_cons. split; [|done].
  intros (y & E & Hy)%list_elem_of_fmap. eapply Forall_forall in Hx; [|exact Hy]. unfold key_lt in Hx. rewrite E, bytes_ltb_irrefl in Hx. done.
Qed.

(** Two such lists with the same elements are the same. *)
Lemma by_key_ext l1 : forall l2, by_key l1 -> by_key l2 -> (forall x, x ∈ l1 <-> x ∈ l2) -> l1 = l2.
Proof.
  induction l1 as [|x l1 IH]; intros [|y l2] H1 H2 Hext.
  - done.
  - exfalso. by apply (not_elem_of_nil y), Hext, list_elem_of_here.
  - exfalso. by apply (not_elem_of_nil x), Hext, list_elem_of_here.
  - apply StronglySorted_inv in H1 as [H1 F1]. apply StronglySorted_inv in H2 as [H2 F2].
    assert (x = y) as <-.
    { pose proof (proj1 (Hext x) (list_elem_of_here x l1)) as [->|Hx]%elem_of_cons; [done|].
      pose proof (proj2 (Hext y) (list_elem_of_here y l2)) as [->|Hy]%elem_of_cons; [done|].
      eapply Forall_forall in F1; [|exact Hy]. eapply Forall_forall in F2; [|exact Hx].
      by destruct (key_lt_irrefl x (key_lt_trans _ _ _ F1 F2)). }
    f_equal. apply IH; [done|done|]. intros z. split; intros Hz.
    + pose proof (proj1 (Hext z) (list_elem_of_further _ _ _ Hz)) as [->|]%elem_of_cons; [|done].
      eapply Forall_forall in F1; [|exact Hz]. by destruct (key_lt_irrefl x).
    + pose proof (proj2 (Hext z) (list_elem_of_further _ _ _ Hz)) as [->|]%elem_of_cons; [|done].
      eapply Forall_forall in F2; [|exact Hz]. by destruct (key_lt_irrefl x).
Qed.

Lemma sorted_entries_elem m k v : (k, v) ∈ sorted_entries m <-> m !! k = Some v.
Proof. unfold sorted_entries. by rewrite merge_sort_Permutation, elem_of_map_to_list. Qed.

Lemma sorted_entries_by_key m : by_key (sorted_entries m).
Proof.
  assert (Hle : StronglySorted key_le (sorted_entries m)) by (apply StronglySorted_merge_sort; apply _).
  assert (Hnd : NoDup (sorted_entries m).*1) by (unfold sorted_entries; rewrite merge_sort_Permutation; apply NoDup_fst_map_to_list).
  induction Hle as [|x l Hl IH Hx]; [constructor|]. cbn in Hnd. apply NoDup_cons in Hnd as [Hni Hnd]. constructor; [by apply IH|].
  apply Forall_forall. intros y Hy. eapply Forall_forall in Hx; [|exact Hy]. unfold key_le, bytes_le in Hx. unfold key_lt.
  destruct (bytes_ltb_total x.1 y.1) as [H|[H|H]]; [done| |congruence].
  destruct Hni. apply list_elem_of_fmap. by exists y.
Qed.

Lemma length_sorted_entries m : length (sorted_entries m) = size m.
Proof. unfold sorted_entries. by rewrite merge_sort_Permutation, length_map_to_list. Qed.

(** A leaf of the base after its deletion or update: processBaseItem. *)
Definition processed (ch : option storeChanges) (kv : bytes * bytes) : option (bytes * bytes) :=
  match ch with
  | None => Some kv
  | Some ch => if bool_decide (kv.1 ∈ deletes ch) then None else Some (kv.1, default kv.2 (updates ch !! kv.1))
  end.

Definition deleted (ch : option storeChanges) (k : bytes) : Prop := match ch with Some ch => k ∈ deletes ch | None => False end.

Fixpoint merged (fuel : nat) (ch : option storeChanges) (B ins : list (bytes * bytes)) : list (bytes * bytes) :=
  match fuel with
  | O => []
  | S fuel =>
      match B, ins with
      | [], [] => []
      | [], x :: ins => x :: merged fuel ch [] ins
      | b :: B, [] => option_list (processed ch b) ++ merged fuel ch B []
      | b :: B', x :: ins' =>
          let cmp := bytesCompare b.1 x.1 in
          if cmp <? 0 then option_list (processed ch b) ++ merged fuel ch B' ins
          else if 0 <? cmp then x :: merged fuel ch B ins'
          else option_list (processed ch b) ++ x :: merged fuel ch B' ins'
      end
  end.

Lemma processed_key ch b x : processed ch b = Some x -> x.1 = b.1.
Proof. destruct ch; cbn; [case_bool_decide; [done|]|]; by intros [= <-]. Qed.

Lemma option_list_elem {A} (o : option A) x : x ∈ option_list o <-> o = Some x.
Proof. destruct o; cbn; [rewrite list_elem_of_singleton; split; [by intros ->|by intros [= ->]]|]. split; [by intros ?%not_elem_of_nil|done]. Qed.

Lemma omap_cons_elem ch b B x : x ∈ omap (processed ch) (b :: B) <-> processed ch b = Some x \/ x ∈ omap (processed ch) B.
Proof. cbn [omap list_omap]. destruct (processed ch b); [rewrite elem_of_cons; naive_solver|naive_solver]. Qed.

Lemma merged_elem fuel ch : forall B ins x, (length B + length ins < fuel)%nat ->
  x ∈ merged fuel ch B ins <-> x ∈ omap (processed ch) B \/ x ∈ ins.
Proof.
  induction fuel as [|fuel IH]; intros B ins x Hf; [lia|]. destruct B as [|b B], ins as [|i ins]; cbn [merged length] in *.
  - split; [by left|]. by intros [|].
  - rewrite elem_of_cons, IH by (cbn; lia). rewrite elem_of_cons. naive_solver.
  - rewrite elem_of_app, option_list_elem, omap_cons_elem, IH by (cbn; lia). naive_solver.
  - destruct (_ <? 0); [|destruct (0 <? _)].
    + rewrite elem_of_app, option_list_elem, omap_cons_elem, IH by (cbn; lia). naive_solver.
    + rewrite elem_of_cons, IH by (cbn; lia). rewrite elem_of_cons. naive_solver.
    + rewrite elem_of_app, option_list_elem, omap_cons_elem, elem_of_cons, IH by (cbn; lia). rewrite elem_of_cons. naive_solver.
Qed.

(** All that a merge yields lies behind what both lists lie behind. *)
Lemma merged_above fuel ch B ins a : (length B + length ins < fuel)%nat ->
  Forall (key_lt a) B -> Forall (key_lt a) ins -> Forall (key_lt a) (merged fuel ch B ins).
Proof.
  intros Hf HB Hi. apply Forall_forall. intros x [Hx|Hx]%merged_elem; [| |done].
  - apply list_elem_of_omap in Hx as (b & Hb & Hp). eapply Forall_forall in HB; [|exact Hb]. unfold key_lt in *. by rewrite (processed_key _ _ _ Hp).
  - by eapply Forall_forall in Hi.
Qed.

Lemma cons_processed ch b l : by_key l -> Forall (key_lt b) l -> by_key (option_list (processed ch b) ++ l).
Proof.
  intros Hl Hb. destruct (processed ch b) as [x|] eqn:E; [|done]. cbn. constructor; [done|]. eapply Forall_impl; [exact Hb|].
  intros y. unfold key_lt. by rewrite (processed_key _ _ _ E).
Qed.

Lemma above_trans a b l : key_lt a b -> Forall (key_lt b) l -> Forall (key_lt a) l.
Proof. intros Hab H. eapply Forall_impl; [exact H|]. intros c Hc. by etransitivity. Qed.

Lemma merged_by_key fuel ch : forall B ins, (length B + length ins < fuel)%nat -> by_key B -> by_key ins ->
  (forall b i, b ∈ B -> i ∈ ins -> b.1 = i.1 -> deleted ch b.1) -> by_key (merged fuel ch B ins).
Proof.
  induction fuel as [|fuel IH]; intros B ins Hf HB Hi Hd; [lia|]. destruct B as [|b B], ins as [|i ins]; cbn [merged length] in *.
  - constructor.
  - apply StronglySorted_inv in Hi as [Hi Fi]. constructor; [apply IH; (done || cbn; lia || set_solver)|]. by apply merged_above; [cbn; lia|..].
  - apply StronglySorted_inv in HB as [HB FB]. apply cons_processed; [apply IH; (done || cbn; lia || set_solver)|]. by apply merged_above; [cbn; lia|..].
  - pose proof HB as [HB' FB]%StronglySorted_inv. pose proof Hi as [Hi' Fi]%StronglySorted_inv.
    rewrite bytesCompare_ltb. destruct (bytes_ltb b.1 i.1) eqn:L1; [|destruct (bytes_ltb i.1 b.1) eqn:L2]; cbn [Z.ltb Z.compare].
    + apply cons_processed.
      * apply IH; [cbn; lia|done|done|]. intros b' i' Hb' Hi2. apply Hd; [by apply list_elem_of_further|done].
      * apply merged_above; [cbn; lia|done|]. constructor; [done|]. by eapply above_trans.
    + constructor.
      * apply IH; [cbn; lia|done|done|]. intros b' i' Hb' Hi2. apply Hd; [done|by apply list_elem_of_further].
      * apply merged_above; [cbn; lia| |done]. constructor; [done|]. by eapply above_trans.
    + pose proof (bytes_ltb_neither _ _ L1 L2) as E.
      assert (Hp : processed ch b = None).
      { pose proof (Hd b i (list_elem_of_here _ _) (list_elem_of_here _ _) E) as Hdel. destruct ch as [ch|]; cbn in *; [|done]. by rewrite bool_decide_eq_true_2. }
      rewrite Hp. cbn [option_list app]. constructor.
      * apply IH; [cbn; lia|done|done|]. intros b' i' Hb' Hi2. apply Hd; by apply list_elem_of_further.
      * apply merged_above; [cbn; lia| |done]. eapply Forall_impl; [exact FB|]. intros c. unfold key_lt. by rewrite E.
Qed.

(** *** The changes of a list of events *)

Definition del_of (e : event) : option (bytes * bytes) := match e with EDel k v => Some (k, v) | _ => None end.
Definition upd_of (e : event) : option (bytes * bytes) := match e with EUpd k _ v => Some (k, v) | _ => None end.
Definition ins_of (e : event) : option (bytes * bytes) := match e with EIns k v => Some (k, v) | _ => None end.

Definition put_event (g : event -> option (bytes * bytes)) (m : gmap bytes bytes) (e : event) : gmap bytes bytes :=
  match g e with Some (k, v) => <[k := v]> m | None => m end.

Lemma changes_inserts ev : forall ch, inserts (fold_left change ev ch) = fold_left (put_event ins_of) ev (inserts ch).
Proof. induction ev as [|e ev IH]; intros ch; [done|]. cbn [fold_left]. rewrite IH. by destruct e. Qed.

Lemma changes_updates ev : forall ch, updates (fold_left change ev ch) = fold_left (put_event upd_of) ev (updates ch).
Proof. induction ev as [|e ev IH]; intros ch; [done|]. cbn [fold_left]. rewrite IH. by destruct e. Qed.

Lemma changes_deletes ev k : forall ch, k ∈ deletes (fold_left change ev ch) <-> k ∈ deletes ch \/ exists v, EDel k v ∈ ev.
Proof.
  induction ev as [|e ev IH]; intros ch; cbn [fold_left].
  - split; [by left|]. intros [|[v []%not_elem_of_nil]]. done.
  - rewrite IH. setoid_rewrite elem_of_cons. destruct e; cbn [change deletes]; [naive_solver| |naive_solver..].
    rewrite elem_of_union, elem_of_singleton. naive_solver.
Qed.

(** The last event of a key would win; here each key has one. *)
Lemma put_events_lookup g k v ev : forall m, NoDup (omap g ev).*1 -> (forall kv, kv ∈ omap g ev -> m !! kv.1 = None) ->
  fold_left (put_event g) ev m !! k = Some v <-> (k, v) ∈ omap g ev \/ m !! k = Some v.
Proof.
  induction ev as [|e ev IH]; intros m Hnd Hm; cbn [fold_left omap list_omap].
  - split; [by right|]. intros [[]%not_elem_of_nil|]. done.
  - unfold put_event at 2. cbn [omap list_omap] in *. destruct (g e) as [[k' v']|].
    + cbn in Hnd. apply NoDup_cons in Hnd as [Hni Hnd]. rewrite IH; [|done|].
      * rewrite elem_of_cons. destruct (decide (k = k')) as [->|Hk].
        -- rewrite lookup_insert_eq. pose proof (Hm (k', v') (list_elem_of_here _ _)) as H. cbn in H. rewrite H.
           split; [|intros [[[= ->]|]|]; by auto]. intros [|[= ->]]; [by left; right|by left; left].
        -- rewrite lookup_insert_ne by done. naive_solver.
      * intros kv Hkv. rewrite lookup_insert_ne; [by apply Hm, list_elem_of_further|]. intros ->. apply Hni, list_elem_of_fmap. by exists kv.
    + by apply IH.
Qed.

Lemma omap_sublist {A B} (f g : A -> option B) l : (forall x y, f x = Some y -> g x = Some y) -> omap f l `sublist_of` omap g l.
Proof.
  intros H. induction l as [|x l IH]; [constructor|]. cbn [omap list_omap]. destruct (f x) as [y|] eqn:E.
  - rewrite (H _ _ E). by constructor.
  - destruct (g x); [by constructor|done].
Qed.

Lemma omap_keys_NoDup {A} (f g : A -> option (bytes * bytes)) l : (forall x y, f x = Some y -> g x = Some y) -> NoDup (omap g l).*1 -> NoDup (omap f l).*1.
Proof. intros H Hnd. eapply sublist_NoDup; [exact Hnd|]. by apply fmap_sublist, omap_sublist. Qed.

(** Two events with the same key on a side are the same. *)
Lemma event_unique (f : event -> option (bytes * bytes)) ev e1 e2 k v1 v2 : NoDup (omap f ev).*1 -> e1 ∈ ev -> e2 ∈ ev ->
  f e1 = Some (k, v1) -> f e2 = Some (k, v2) -> e1 = e2.
Proof.
  intros Hnd H1 H2 E1 E2. induction ev as [|e ev IH]; [by apply not_elem_of_nil in H1|]. cbn [omap list_omap] in Hnd.
  assert (Hin : forall e' v, e' ∈ ev -> f e' = Some (k, v) -> k ∈ (omap f ev).*1).
  { intros e' v He' E'. apply list_elem_of_fmap. exists (k, v). split; [done|]. apply list_elem_of_omap. by exists e'. }
  apply elem_of_cons in H1 as [->|H1], H2 as [->|H2]; [done|..].
  - rewrite E1 in Hnd. cbn in Hnd. apply NoDup_cons in Hnd as [Hni _]. by destruct (Hni (Hin _ _ H2 E2)).
  - rewrite E2 in Hnd. cbn in Hnd. apply NoDup_cons in Hnd as [Hni _]. by destruct (Hni (Hin _ _ H1 E1)).
  - apply IH; [|done|done]. destruct (f e); [cbn in Hnd; by apply NoDup_cons in Hnd as [_ ?]|done].
Qed.

Section Events.
Context (ev : list event) (HB : by_key (omap base_side ev)) (HT : by_key (omap target_side ev)).

Lemma inserts_lookup k v : inserts (changes_of ev) !! k = Some v <-> EIns k v ∈ ev.
Proof using HT.
  unfold changes_of. rewrite changes_inserts, put_events_lookup.
  - cbn [inserts newStoreChanges]. rewrite lookup_empty, list_elem_of_omap. split; [|by intros He; left; exists (EIns k v)].
    intros [(e & He & E)|]; [|done]. destruct e; try done. injection E as -> ->. done.
  - apply (omap_keys_NoDup _ target_side); [|by apply by_key_NoDup]. by intros [] y [= <-].
  - intros. apply lookup_empty.
Qed.

Lemma updates_lookup k v : updates (changes_of ev) !! k = Some v <-> exists v0, EUpd k v0 v ∈ ev.
Proof using HT.
  unfold changes_of. rewrite changes_updates, put_events_lookup.
  - cbn [updates newStoreChanges]. rewrite lookup_empty, list_elem_of_omap. split; [|by intros [v0 He]; left; exists (EUpd k v0 v)].
    intros [(e & He & E)|]; [|done]. destruct e; try done. injection E as -> ->. by eexists.
  - apply (omap_keys_NoDup _ target_side); [|by apply by_key_NoDup]. by intros [] y [= <-].
  - intros. apply lookup_empty.
Qed.

Lemma deletes_elem k : k ∈ deletes (changes_of ev) <-> exists v, EDel k v ∈ ev.
Proof using Type. unfold changes_of. rewrite changes_deletes. cbn. split; [by intros [[]%not_elem_of_empty|]|by right]. Qed.

(** A leaf of the base comes out as its event says. *)
Lemma processed_event e k v0 : e ∈ ev -> base_side e = Some (k, v0) ->
  processed (Some (changes_of ev)) (k, v0) = match e with EDel _ _ => None | _ => target_side e end.
Proof using HB HT.
  intros He Eb. pose proof (by_key_NoDup _ HB) as Hnd.
  assert (Hone : forall e', e' ∈ ev -> (exists v, base_side e' = Some (k, v)) -> e' = e).
  { intros e' He' [v E']. by eapply event_unique. }
  cbn [processed fst snd]. case_bool_decide as Hdel.
  - apply deletes_elem in Hdel as [v Hdel]. by rewrite <- (Hone _ Hdel ltac:(by eexists)).
  - destruct (updates (changes_of ev) !! k) as [v|] eqn:Hu; cbn [default].
    + apply updates_lookup in Hu as [v1 Hu]. by rewrite <- (Hone _ Hu ltac:(by eexists)).
    + destruct e as [k' v'|k' v'|k' v1 v'|k' v']; cbn in Eb; try done; injection Eb as -> ->.
      * destruct Hdel. apply deletes_elem. by exists v0.
      * exfalso. assert (E : updates (changes_of ev) !! k = Some v') by (apply updates_lookup; by exists v0). congruence.
Qed.

(** The changes turn the leaves of the base into those of the target. *)
Lemma changes_apply fuel : (length (omap base_side ev) + size (inserts (changes_of ev)) < fuel)%nat ->
  merged fuel (Some (changes_of ev)) (omap base_side ev) (sorted_entries (inserts (changes_of ev))) = omap target_side ev.
Proof using HB HT.
  intros Hf. rewrite <- length_sorted_entries in Hf. apply by_key_ext; [|done|].
  - apply merged_by_key; [done|done|apply sorted_entries_by_key|]. intros [k v0] [k' v] Hb Hi [= <-]. cbn [deleted fst].
    apply sorted_entries_elem, inserts_lookup in Hi. apply list_elem_of_omap in Hb as (e & He & Eb).
    destruct e as [k1 v1|k1 v1|k1 v1 v2|k1 v1]; cbn in Eb; try done; injection Eb as -> ->.
    + by pose proof (event_unique target_side ev _ _ k v0 v (by_key_NoDup _ HT) He Hi eq_refl eq_refl).
    + apply deletes_elem. by eexists.
    + by pose proof (event_unique target_side ev _ _ k v2 v (by_key_NoDup _ HT) He Hi eq_refl eq_refl).
  - intros [k v]. rewrite merged_elem by done. rewrite sorted_entries_elem, inserts_lookup, !list_elem_of_omap. split.
    + intros [([k0 v0] & (e & He & Eb)%list_elem_of_omap & Hp)|Hi]; [|by exists (EIns k v)].
      rewrite (processed_event e k0 v0 He Eb) in Hp. exists e. split; [done|]. by destruct e.
    + intros (e & He & Et). destruct e as [k1 v1|k1 v1|k1 v1 v2|k1 v1]; cbn in Et; try done; injection Et as -> ->; [left..|by right].
      * exists (k, v). rewrite (processed_event _ _ _ He eq_refl). split; [|done]. apply list_elem_of_omap. by exists (EKeep k v).
      * exists (k, v1). rewrite (processed_event _ _ _ He eq_refl). split; [|done]. apply list_elem_of_omap. by exists (EUpd k v1 v).
Qed.
End Events.

(** A store the base lacks: its changes are inserts only. *)
Lemma target_only_changes ev : omap base_side ev = [] -> deletes (changes_of ev) = ∅ /\ updates (changes_of ev) = ∅.
Proof.
  intros HB. assert (Hno : forall e, e ∈ ev -> base_side e = None).
  { intros e He. destruct (base_side e) as [kv|] eqn:E; [|done]. assert (Hin : kv ∈ omap base_side ev) by (apply list_elem_of_omap; by exists e).
    rewrite HB in Hin. by apply not_elem_of_nil in Hin. }
  split.
  - apply leibniz_equiv, elem_of_equiv_empty. intros k [v He%Hno]%deletes_elem. done.
  - unfold changes_of. rewrite changes_updates. cbn [updates newStoreChanges]. clear HB. induction ev as [|e ev IH]; [done|]. cbn [fold_left].
    pose proof (Hno e (list_elem_of_here _ _)) as He. destruct e; try done. cbn. apply IH. intros e' He'. by apply Hno, list_elem_of_further.
Qed.

Lemma merged_nil ch ins : forall fuel, (length ins < fuel)%nat -> merged fuel ch [] ins = ins.
Proof. induction ins as [|i ins IH]; intros [|fuel] Hf; try (cbn in Hf; lia); [done|]. cbn [merged]. f_equal. apply IH. cbn in Hf. lia. Qed.

Lemma target_only_inserts ev : omap base_side ev = [] -> by_key (omap target_side ev) ->
  sorted_entries (inserts (changes_of ev)) = omap target_side ev.
Proof.
  intros HB HT. assert (HB' : by_key (omap base_side ev)) by (rewrite HB; constructor).
  rewrite <- (changes_apply ev HB' HT (S (size (inserts (changes_of ev))))); rewrite HB; [|cbn; lia].
  rewrite merged_nil; [done|]. rewrite length_sorted_entries. lia.
Qed.

(** ** Writing a store *)

Definition kv_item (kv : bytes * bytes) : Z * bytes := rec_item (kv_fields kv.1 kv.2).

(** A step of the applier that writes items and moves neither reader. *)
Definition wrote (items : list (Z * bytes)) (a a' : applier) : Prop :=
  a_base a' = a_base a /\ a_diff a' = a_diff a /\ a_out a' = a_out a ++ map env items.

Lemma wrote_trans l1 l2 a b c : wrote l1 a b -> wrote l2 b c -> wrote (l1 ++ l2) a c.
Proof. intros (H1 & H2 & H3) (K1 & K2 & K3). unfold wrote. rewrite K1, K2, K3, H1, H2, H3, map_app, app_assoc. done. Qed.

Lemma put_kv_spec k v a : exists a', put_kv k v a = (Ret tt, a') /\ wrote [kv_item (k, v)] a a'.
Proof.
  eexists. split; [reflexivity|]. split_and!; [done|done|]. cbn [a_out map]. do 2 f_equal.
  unfold kv_item, rec_item. by rewrite <- build_env.
Qed.

Lemma processBaseItem_spec ch k v a : exists a', processBaseItem ch k v a = (Ret tt, a') /\
  wrote (map kv_item (option_list (processed ch (k, v)))) a a'.
Proof.
  destruct ch as [ch|]; cbn [processBaseItem processed fst snd]; [|apply put_kv_spec].
  destruct (bool_decide_reflect (k ∈ deletes ch)).
  - exists a. split; [done|]. split_and!; [done|done|]. cbn. by rewrite app_nil_r.
  - destruct (updates ch !! k); cbn [default option_list map]; apply put_kv_spec.
Qed.

Lemma emit_list_spec kvs : forall a, exists a', each (fun kv => put_kv kv.1 kv.2) kvs a = (Ret tt, a') /\ wrote (map kv_item kvs) a a'.
Proof.
  induction kvs as [|[k v] kvs IH]; intros a.
  - exists a. split; [done|]. split_and!; [done|done|]. cbn. by rewrite app_nil_r.
  - cbn [each fst snd]. destruct (put_kv_spec k v a) as (a1 & E1 & W1). destruct (IH a1) as (a2 & E2 & W2).
    exists a2. unfold mbind at 1, M_bind at 1. rewrite E1. split; [exact E2|]. by apply (wrote_trans [kv_item (k, v)] (map kv_item kvs) a a1).
Qed.

Lemma put_header_spec n a : exists a', (_ ← put_item (buildOneOfMessage 1 [encStringField 1 n]); upd_astats count_store) a = (Ret tt, a') /\
  wrote [(1, encStringField 1 n)] a a'.
Proof. eexists. split; [reflexivity|]. by split_and!. Qed.

Section OneStore.
Context (name : bytes) (Hname : name <> []) (rest : list (Z * bytes)) (Hok : Forall env_ok rest) (Hover : store_over rest).

(** The base moves to the next leaf. *)
Lemma nextBase_spec L a : Forall fields_ok L -> inside name rest L (a_base a) ->
  exists a', nextBase name a = (Ret (kv_of <$> head L), a') /\ inside name rest (tail L) (a_base a') /\
    (L = [] -> exists c, a_base a' = at0 [] c rest) /\ a_diff a' = a_diff a /\ a_out a' = a_out a.
Proof using Hname Hok Hover.
  intros HL Hs. destruct (next_leaf_inside name Hname rest L (a_base a) Hok Hover Hs) as (s' & E & Hs' & Hend).
  unfold nextBase. unfold mbind at 1, M_bind at 1, in_snap, zoom. rewrite E. destruct L as [|r L]; cbn [head fmap option_fmap option_map tail] in *.
  - eexists. split; [reflexivity|]. by split_and!.
  - apply Forall_cons in HL as [Hr _]. unfold mbind at 1, M_bind at 1, lift_out. rewrite parseProtoBytes_find by done.
    unfold mbind at 1, M_bind at 1. rewrite parseProtoBytes_find by done. eexists. split; [reflexivity|]. by split_and!.
Qed.

(** What is left of a store: its leaves [B], the first one read. *)
Definition at_leaves (B : list (list pfield)) (a : applier) : Prop :=
  inside name rest (tail B) (a_base a) /\ (B = [] -> exists c, a_base a = at0 [] c rest).

Lemma at_leaves_wrote B items a a' : wrote items a a' -> at_leaves B a -> at_leaves B a'.
Proof using Type. intros (Hb & _) H. unfold at_leaves. by rewrite Hb. Qed.

(** A store done: these items written, the base behind it. *)
Definition done_with (items : list (Z * bytes)) (a a' : applier) : Prop :=
  (exists c, a_base a' = at0 [] c rest) /\ a_diff a' = a_diff a /\ a_out a' = a_out a ++ map env items.

Lemma done_after l1 l2 a b c : a_diff b = a_diff a -> a_out b = a_out a ++ map env l1 -> done_with l2 b c -> done_with (l1 ++ l2) a c.
Proof using Type. intros H1 H2 (K1 & K2 & K3). unfold done_with. rewrite K2, K3, H1, H2, map_app, app_assoc. done. Qed.

Lemma emit_merge_spec ch fuel : forall B ins a, Forall fields_ok B -> at_leaves B a -> (length B + length ins < fuel)%nat ->
  exists a', emit_merge fuel name ch (kv_of <$> head B) ins a = (Ret tt, a') /\
    done_with (map kv_item (merged fuel ch (map kv_of B) ins)) a a'.
Proof using Hname Hok Hover.
  induction fuel as [|fuel IH]; intros B ins a HB Hat Hf; [lia|].
  (* once the head is dealt with, the base moves on *)
  assert (go : forall r B' ins' items (run : M applier unit), B = r :: B' -> (length B' + length ins' < fuel)%nat ->
      (forall b : option (bytes * bytes), exists a1, run a = (Ret tt, a1) /\ wrote items a a1) ->
      exists a', (_ ← run; b ← nextBase name; emit_merge fuel name ch b ins') a = (Ret tt, a') /\
        done_with (items ++ map kv_item (merged fuel ch (map kv_of B') ins')) a a').
  { intros r B' ins' items run -> Hf' Hrun. destruct (Hrun None) as (a1 & E1 & W1). apply Forall_cons in HB as [_ HB].
    destruct W1 as (Wb & Wd & Wo). destruct Hat as [Hin _]. cbn [tail] in Hin. rewrite <- Wb in Hin.
    destruct (nextBase_spec B' a1 HB Hin) as (a2 & E2 & Hin2 & Hend2 & Hd2 & Ho2).
    destruct (IH B' ins' a2 HB (conj Hin2 Hend2) Hf') as (a3 & E3 & D3). exists a3. unfold mbind at 1, M_bind at 1. rewrite E1.
    unfold mbind at 1, M_bind at 1. rewrite E2. split; [exact E3|]. eapply done_after; [by rewrite Hd2|by rewrite Ho2|done]. }
  destruct B as [|r B], ins as [|[ik iv] ins]; cbn [emit_merge head fmap option_fmap option_map map merged].
  - exists a. split; [done|]. destruct Hat as [_ Hend]. split_and!; [by apply Hend|done|]. by rewrite app_nil_r.
  - destruct (put_kv_spec ik iv a) as (a1 & E1 & W1). destruct (IH [] ins a1 HB (at_leaves_wrote _ _ _ _ W1 Hat) ltac:(cbn in *; lia)) as (a2 & E2 & D2).
    exists a2. unfold mbind at 1, M_bind at 1. rewrite E1. split; [exact E2|]. destruct W1 as (_ & Wd & Wo). by apply (done_after [kv_item (ik, iv)] _ a a1).
  - unfold kv_of at 1. rewrite map_app. eapply go; [done|cbn in *; lia|]. intros _. apply processBaseItem_spec.
  - unfold kv_of at 1 2. cbn [fst]. destruct (_ <? 0); [|destruct (0 <? _)].
    + rewrite map_app. eapply go; [done|cbn in *; lia|]. intros _. apply processBaseItem_spec.
    + destruct (put_kv_spec ik iv a) as (a1 & E1 & W1). destruct (IH (r :: B) ins a1 HB (at_leaves_wrote _ _ _ _ W1 Hat) ltac:(cbn in *; lia)) as (a2 & E2 & D2).
      exists a2. unfold mbind at 1, M_bind at 1. rewrite E1. split; [exact E2|]. destruct W1 as (_ & Wd & Wo). by apply (done_after [kv_item (ik, iv)] _ a a1).
    + destruct (processBaseItem_spec ch (rkey r) (rvalue r) a) as (a1 & E1 & W1). unfold mbind at 1, M_bind at 1. rewrite E1.
      destruct W1 as (Wb & Wd & Wo). destruct Hat as [Hin _]. cbn [tail] in Hin. rewrite <- Wb in Hin. apply Forall_cons in HB as [_ HB].
      destruct (nextBase_spec B a1 HB Hin) as (a2 & E2 & Hin2 & Hend2 & Hd2 & Ho2). unfold mbind at 1, M_bind at 1. rewrite E2.
      destruct (put_kv_spec ik iv a2) as (a3 & E3 & W3). unfold mbind at 1, M_bind at 1. rewrite E3.
      destruct (IH B ins a3 HB (at_leaves_wrote _ _ _ _ W3 (conj Hin2 Hend2)) ltac:(cbn in *; lia)) as (a4 & E4 & D4). exists a4. split; [exact E4|].
      rewrite map_app. cbn [map]. destruct W3 as (_ & Wd3 & Wo3). eapply done_after; [|exact Wo|].
      { exact Wd. }
      apply (done_after [kv_item (ik, iv)] _ a1 a3); [by rewrite Wd3|by rewrite Wo3, Ho2|done].
Qed.

(** The items a store comes to: none where there is nothing to say. *)
Definition written_store (none : bool) (kvs : list (bytes * bytes)) : list (Z * bytes) :=
  if none then [] else (1, encStringField 1 name) :: map kv_item kvs.

Lemma emitStoreFromBase_spec ch L a : Forall fields_ok L -> inside name rest L (a_base a) ->
  let ins := match ch with Some ch => sorted_entries (inserts ch) | None => [] end in
  exists fuel a', emitStoreFromBase name ch a = (Ret tt, a') /\ (length L + length ins < fuel)%nat /\
    done_with (written_store (match L, ins with [], [] => true | _, _ => false end) (merged fuel ch (map kv_of L) ins)) a a'.
Proof using Hname Hok Hover.
  intros HL Hin ins. unfold emitStoreFromBase. fold ins. unfold mbind at 1, M_bind at 1, get.
  destruct (nextBase_spec L a HL Hin) as (a1 & E1 & Hin1 & Hend1 & Hd1 & Ho1). unfold mbind at 1, M_bind at 1. rewrite E1.
  pose proof (inside_fuel name rest L (a_base a) Hin) as Hfuel.
  exists (S (items_left (a_base a)) + length ins)%nat.
  assert (Hf : (length L + length ins < S (items_left (a_base a)) + length ins)%nat) by lia.
  revert Hf. generalize (S (items_left (a_base a)) + length ins)%nat as fuel. intros fuel Hf.
  assert (Hrun : exists a', (_ ← put_item (buildOneOfMessage 1 [encStringField 1 name]); _ ← upd_astats count_store;
      emit_merge fuel name ch (kv_of <$> head L) ins) a1 = (Ret tt, a') /\
      done_with (written_store false (merged fuel ch (map kv_of L) ins)) a a').
  { unfold mbind at 1 2, M_bind at 1 2. unfold put_item, upd_astats, modify at 1 2.
    match goal with |- context [emit_merge _ _ _ _ _ ?a2] => destruct (emit_merge_spec ch fuel L ins a2 HL (conj Hin1 Hend1) Hf) as (a3 & E3 & D3) end.
    exists a3. split; [exact E3|]. apply (done_after [(1, encStringField 1 name)] _ a _ a3) in D3; [exact D3|exact Hd1|]. cbn [a_out map]. by rewrite Ho1. }
  destruct L as [|r L], ins as [|i ins]; cbn [head fmap option_fmap option_map] in *; try (destruct Hrun as (a' & E & D); by exists a').
  exists a1. split; [done|]. split; [exact Hf|]. split_and!; [by apply Hend1|done|]. cbn. by rewrite Ho1, app_nil_r.
Qed.
End OneStore.

(** ** All stores applied *)

Definition store_wf (s : store) : Prop :=
  store_ok s /\ len s.1 <= 2 ^ 47 /\ by_key (leaf_kvs s) /\ Forall kv_fits (leaf_kvs s).
Definition by_name : list store -> Prop := StronglySorted (fun s s' => bytes_ltb s.1 s'.1 = true).

Lemma by_name_ahead s S : by_name (s :: S) -> ahead s.1 S.
Proof. intros [_ H]%StronglySorted_inv. destruct S; [done|]. by apply Forall_cons in H as [H _]. Qed.

Lemma by_name_tail s S : by_name (s :: S) -> by_name S.
Proof. by intros [H _]%StronglySorted_inv. Qed.

(** Two snapshots with the same leaves, up to stores without any. *)
Inductive same_leaves : list store -> list store -> Prop :=
| same_none : same_leaves [] []
| same_left n recs SA SB : leaf_kvs (n, recs) = [] -> ahead n SB -> same_leaves SA SB -> same_leaves ((n, recs) :: SA) SB
| same_right n recs SA SB : leaf_kvs (n, recs) = [] -> ahead n SA -> same_leaves SA SB -> same_leaves SA ((n, recs) :: SB)
| same_both n recsA recsB SA SB : leaf_kvs (n, recsA) = leaf_kvs (n, recsB) -> same_leaves SA SB ->
    same_leaves ((n, recsA) :: SA) ((n, recsB) :: SB).

(** A store as Apply writes it: keys and values only. *)
Definition out_store (n : bytes) (kvs : list (bytes * bytes)) : store := (n, map (fun kv => kv_fields kv.1 kv.2) kvs).

Lemma out_store_items n kvs : store_items (out_store n kvs) = (1, encStringField 1 n) :: map kv_item kvs.
Proof. unfold store_items, out_store. cbn [fst snd]. by rewrite map_map. Qed.

Lemma out_store_leaves n kvs : leaf_kvs (out_store n kvs) = kvs.
Proof.
  unfold leaf_kvs, out_store. cbn [snd]. induction kvs as [|[k v] kvs IH]; [done|]. unfold leaves in *. cbn [map fst snd List.filter].
  change (rleaf (kv_fields k v)) with true. cbv iota. cbn [map]. by rewrite IH.
Qed.

Lemma kv_item_ok kv : kv_fits kv -> env_ok (kv_item kv).
Proof. destruct kv as [k v]. intros H. apply env_ok_small; [done|]. destruct (kv_fields_ok k v H) as [_ Hl]. cbn [fst snd]. lia. Qed.

Lemma len_name_field n : len n <= 2 ^ 47 -> len (encStringField 1 n) <= 2 ^ 47 + 11.
Proof. intros H. pose proof (len_nonneg n). pose proof (bytes_field_bound 1 n ltac:(lia) ltac:(lia)). change (encStringField 1 n) with (encode_field (PBytes 1 n)). lia. Qed.

Lemma out_store_ok n kvs : n <> [] -> len n <= 2 ^ 47 -> Forall kv_fits kvs -> store_ok (out_store n kvs).
Proof.
  intros Hn Hl Hk. split_and!; [done|cbn; lia| |].
  - cbn [out_store snd]. apply Forall_map. eapply Forall_impl; [exact Hk|]. intros [k v] H. cbn. by apply kv_fields_ok.
  - rewrite out_store_items. constructor.
    + apply env_ok_small; [done|]. pose proof (len_name_field n Hl). lia.
    + apply Forall_map. eapply Forall_impl; [exact Hk|]. apply kv_item_ok.
Qed.

(** The extension sections that may follow. *)
Definition ext_sections_ahead (l : list (Z * bytes)) : Prop :=
  match l with [] => True | it :: _ => exists n f, it = (tagExtEnter, meta_body n f) /\ len n < 2 ^ 61 /\ 0 <= f < 2 ^ 32 end.

Lemma peekSection_over c l : Forall env_ok l -> ext_sections_ahead l ->
  exists sec, peekSection (at_recs c l) = (Ret sec, at_recs true l) /\ (sec = None \/ exists n f, sec = Some (sectionExt, n, f)).
Proof.
  intros Hok Hx. destruct l as [|it l].
  - exists None. split; [apply peekSection_end|by left].
  - destruct Hx as (n & f & -> & Hn & Hf). eexists. split; [by apply peekSection_ext|]. right. by do 2 eexists.
Qed.

Lemma events_fit ev KB KT : omap base_side ev = KB -> omap target_side ev = KT -> Forall kv_fits KB -> Forall kv_fits KT -> Forall event_fits ev.
Proof.
  intros <- <- HB HT. apply Forall_forall. intros e He.
  assert (Hin : forall (f : event -> option (bytes * bytes)) kv, f e = Some kv -> kv ∈ omap f ev) by (intros f kv E; apply list_elem_of_omap; by exists e).
  destruct e as [k v|k v|k v0 v|k v]; cbn; [done|..].
  - eapply Forall_forall in HB; [exact HB|]. by apply Hin.
  - eapply Forall_forall in HT; [exact HT|]. by apply Hin.
  - eapply Forall_forall in HT; [exact HT|]. by apply Hin.
Qed.

Section ApplyStores.
Context (restB : list (Z * bytes)) (HokB : Forall env_ok restB) (HxB : exts_ahead restB).
Context (restD : list (Z * bytes)) (HokD : Forall env_ok restD) (HxD : ext_sections_ahead restD).

Definition diff_items (secs : list (bytes * list event)) : list (Z * bytes) := (secs ≫= section_items) ++ restD.

Lemma diff_items_cons n ev secs :
  diff_items ((n, ev) :: secs) = (tagStoreEnter, encode_fields [PBytes 1 n]) :: omap rec_env ev ++ (tagStoreLeave, []) :: diff_items secs.
Proof using Type. unfold diff_items. cbn [mbind list_bind]. unfold section_items at 1. cbn [fst snd app]. by rewrite <- !app_assoc. Qed.

Lemma section_env_ok n ev : len n <= 2 ^ 47 -> Forall event_fits ev -> Forall env_ok (section_items (n, ev)).
Proof using Type.
  intros Hn Hev. constructor; [apply env_ok_small; [done|]; pose proof (proj2 (name_field_ok n Hn)); cbn [fst snd] in *; lia|].
  apply Forall_app. split; [by apply event_env_ok|]. constructor; [|constructor]. apply env_ok_small; [done|by vm_compute].
Qed.

(** Every section of these fits. *)
Definition sections_fit (secs : list (bytes * list event)) : Prop := Forall (fun x => len x.1 <= 2 ^ 47 /\ Forall event_fits x.2) secs.

Lemma diff_items_ok secs : sections_fit secs -> Forall env_ok (diff_items secs).
Proof using HokD.
  intros H. apply Forall_app. split; [|done]. apply Forall_bind. eapply Forall_impl; [exact H|]. intros [n ev] [Hn Hev]. by apply section_env_ok.
Qed.

(** Reading the changes of the section at hand. *)
Lemma read_section n ev secs c a : Forall event_fits ev -> sections_fit secs ->
  a_diff a = at_recs c ((tagStoreEnter, encode_fields [PBytes 1 n]) :: omap rec_env ev ++ (tagStoreLeave, []) :: diff_items secs) -> c = true ->
  forall (k : storeChanges -> M applier unit), exists a1, (_ ← in_diff consumeSection; ch ← in_diff readStoreChanges; k ch) a = k (changes_of ev) a1 /\
    a_base a1 = a_base a /\ a_out a1 = a_out a /\ a_diff a1 = at_recs false (diff_items secs).
Proof using HokD.
  intros Hev Hs Hd -> k. unfold mbind at 1, M_bind at 1, in_diff at 1, zoom, consumeSection. rewrite Hd, consumeRecord_at. cbn [fst snd].
  unfold mbind at 1, M_bind at 1, in_diff at 1, zoom. cbn [a_diff]. rewrite readStoreChanges_at by (done || by apply diff_items_ok).
  eexists. split; [reflexivity|]. by split_and!.
Qed.

Lemma sections_fits SB ST secs : sections SB ST secs -> Forall store_wf SB -> Forall store_wf ST -> sections_fit secs.
Proof using Type.
  induction 1 as [|n recs ev SB ST secs Ha HB HT Hs IH|n recs ev SB ST secs Ha HB HT Hs IH|n recsB recsT ev SB ST secs HB HT Hs IH]; intros WB WT.
  - constructor.
  - apply Forall_cons in WB as [(Ho & Hl & Hk & Hf) WB]. constructor; [|by apply IH]. split; [done|]. by eapply events_fit.
  - apply Forall_cons in WT as [(Ho & Hl & Hk & Hf) WT]. constructor; [|by apply IH]. split; [done|]. by eapply events_fit.
  - apply Forall_cons in WB as [(Ho & Hl & Hk & Hf) WB]. apply Forall_cons in WT as [(Ho' & Hl' & Hk' & Hf') WT]. constructor; [|by apply IH].
    split; [done|]. by eapply events_fit.
Qed.

(** What a section writes: nothing only where the target has nothing. *)
Definition section_out (n : bytes) (kvs : list (bytes * bytes)) (O : list store) : Prop := O = [out_store n kvs] \/ (O = [] /\ kvs = []).

Lemma section_out_ok n kvs O : section_out n kvs O -> n <> [] -> len n <= 2 ^ 47 -> Forall kv_fits kvs -> Forall store_ok O.
Proof using Type. intros [->|[-> _]] Hn Hl Hk; [|constructor]. constructor; [by apply out_store_ok|constructor]. Qed.

(** A store the base has, changed as its section says. *)
Lemma base_turn n recs ev SB' secs c a : n <> [] -> Forall fields_ok recs -> Forall store_ok SB' ->
  inside n (stores_items SB' ++ restB) (leaves recs) (a_base a) -> a_diff a = at_recs c (diff_items ((n, ev) :: secs)) -> c = true ->
  omap base_side ev = leaf_kvs (n, recs) -> by_key (omap base_side ev) -> by_key (omap target_side ev) -> Forall event_fits ev -> sections_fit secs ->
  exists a' O, (_ ← in_diff consumeSection; ch ← in_diff readStoreChanges; emitStoreFromBase n (Some ch)) a = (Ret tt, a') /\
    section_out n (omap target_side ev) O /\ before SB' restB (a_base a') /\ a_diff a' = at_recs false (diff_items secs) /\
    a_out a' = a_out a ++ map env (stores_items O).
Proof using HokB HxB HokD.
  intros Hn Hrec HSB Hin Hd Hc HB KB KT Hev Hs. rewrite diff_items_cons in Hd.
  destruct (read_section n ev secs c a Hev Hs Hd Hc (fun ch => emitStoreFromBase n (Some ch))) as (a1 & E1 & Hb1 & Ho1 & Hd1). rewrite E1.
  rewrite <- Hb1 in Hin.
  destruct (emitStoreFromBase_spec n Hn (stores_items SB' ++ restB) (stores_env _ _ HSB HokB) (over_ahead _ _ HxB) (Some (changes_of ev)) (leaves recs) a1
    (leaves_ok _ Hrec) Hin) as (fuel & a2 & E2 & Hf & (c2 & Hb2) & Hd2 & Ho2). cbn beta iota in *.
  assert (Hm : merged fuel (Some (changes_of ev)) (map kv_of (leaves recs)) (sorted_entries (inserts (changes_of ev))) = omap target_side ev).
  { change (map kv_of (leaves recs)) with (leaf_kvs (n, recs)). rewrite <- HB. apply changes_apply; [done|done|].
    rewrite HB, <- length_sorted_entries. unfold leaf_kvs. by rewrite length_map. }
  rewrite Hm in Ho2. exists a2. rewrite Hd2, Ho2, Ho1, Hd1. unfold section_out, written_store in *.
  destruct (match leaves recs, sorted_entries (inserts (changes_of ev)) with [], [] => true | _, _ => false end) eqn:Hnone.
  - exists []. split; [exact E2|]. split_and!; [right; split; [done|]|by left; exists c2|done|done].
    rewrite <- Hm. destruct (leaves recs), (sorted_entries _); try done. by destruct fuel.
  - exists [out_store n (omap target_side ev)]. split; [exact E2|]. split_and!; [by left|by left; exists c2|done|].
    unfold stores_items. cbn [mbind list_bind]. by rewrite app_nil_r, out_store_items.
Qed.

(** A store the base lacks. *)
Lemma target_turn n ev secs c a : omap base_side ev = [] -> by_key (omap target_side ev) -> Forall event_fits ev -> sections_fit secs ->
  a_diff a = at_recs c (diff_items ((n, ev) :: secs)) -> c = true ->
  exists a' O, (_ ← in_diff consumeSection; ch ← in_diff readStoreChanges;
      if negb (bool_decide (deletes ch = ∅)) || negb (bool_decide (updates ch = ∅))
      then fail (Errorf "diff says target-only store has updates/deletes")
      else emitTargetOnlyStore n (inserts ch)) a = (Ret tt, a') /\
    section_out n (omap target_side ev) O /\ a_base a' = a_base a /\ a_diff a' = at_recs false (diff_items secs) /\
    a_out a' = a_out a ++ map env (stores_items O).
Proof using HokD.
  intros HB KT Hev Hs Hd Hc. rewrite diff_items_cons in Hd.
  destruct (read_section n ev secs c a Hev Hs Hd Hc (fun ch => if negb (bool_decide (deletes ch = ∅)) || negb (bool_decide (updates ch = ∅))
      then fail (Errorf "diff says target-only store has updates/deletes") else emitTargetOnlyStore n (inserts ch))) as (a1 & E1 & Hb1 & Ho1 & Hd1).
  rewrite E1. clear E1. destruct (target_only_changes ev HB) as [Hdel Hupd]. rewrite Hdel, Hupd, !bool_decide_eq_true_2 by done. cbn [negb orb].
  pose proof (target_only_inserts ev HB KT) as Hins. unfold emitTargetOnlyStore. case_bool_decide as Hempty.
  - exists a1, []. split; [done|]. rewrite Hempty in Hins. split_and!; [right; split; [done|]|done|done|]; [by rewrite <- Hins|].
    cbn. by rewrite app_nil_r.
  - destruct (put_header_spec n a1) as (a2 & E2 & W2). destruct (emit_list_spec (sorted_entries (inserts (changes_of ev))) a2) as (a3 & E3 & W3).
    destruct (wrote_trans _ _ _ _ _ W2 W3) as (Wb & Wd & Wo). exists a3, [out_store n (omap target_side ev)]. split.
    + unfold mbind at 1, M_bind at 1 in E2. unfold mbind at 1, M_bind at 1. destruct (put_item _ a1) as [[[]|?|?|] x]; try done.
      unfold mbind at 1, M_bind at 1. rewrite E2. exact E3.
    + split_and!; [by left|by rewrite Wb|by rewrite Wd|]. rewrite Wo, Ho1. unfold stores_items. cbn [mbind list_bind].
      by rewrite app_nil_r, out_store_items, Hins.
Qed.
(** The stores written, together. *)
Lemma ahead_section_out n m kvs O OS : section_out m kvs O -> bytes_ltb n m = true -> ahead n OS -> ahead n (O ++ OS).
Proof using Type. intros [->|[-> _]] H1 H2; [exact H1|exact H2]. Qed.

Lemma ahead_trans n m (S : list store) : bytes_ltb n m = true -> ahead m S -> ahead n S.
Proof using Type. intros H. destruct S; [done|]. cbn. by apply bytes_ltb_trans. Qed.

Lemma same_base n kvs O OS ST : section_out n kvs O -> kvs = [] -> ahead n ST -> same_leaves OS ST -> same_leaves (O ++ OS) ST.
Proof using Type. intros [->|[-> _]] -> Ha H; [|done]. constructor; [exact (out_store_leaves n [])|done|done]. Qed.

Lemma same_target n recs O OS ST : section_out n (leaf_kvs (n, recs)) O -> ahead n OS -> same_leaves OS ST -> same_leaves (O ++ OS) ((n, recs) :: ST).
Proof using Type.
  intros [->|[-> E]] Ha H; [|by constructor]. cbn [app]. apply same_both; [exact (out_store_leaves n _)|done].
Qed.

Lemma stores_items_app O OS : stores_items (O ++ OS) = stores_items O ++ stores_items OS.
Proof using Type. unfold stores_items. apply bind_app. Qed.

Lemma store_wf_ok S : Forall store_wf S -> Forall store_ok S.
Proof using Type. intros H. eapply Forall_impl; [exact H|]. by intros s [? _]. Qed.

(** What apply_stores reaches from a state. *)
Definition applied_stores (SB ST OS : list store) (a a' : applier) : Prop :=
  same_leaves OS ST /\ Forall store_ok OS /\ (forall n, ahead n SB -> ahead n ST -> ahead n OS) /\
  (exists cB, a_base a' = at0 [] cB restB) /\ a_diff a' = at_recs true restD /\ a_out a' = a_out a ++ map env (stores_items OS).

Lemma applied_more SB ST SB' ST' O OS a a2 a3 : applied_stores SB' ST' OS a2 a3 -> a_out a2 = a_out a ++ map env (stores_items O) ->
  same_leaves (O ++ OS) ST -> Forall store_ok O -> (forall n, ahead n SB -> ahead n ST -> ahead n (O ++ OS)) -> applied_stores SB ST (O ++ OS) a a3.
Proof using Type.
  intros (_ & H2 & _ & H4 & H5 & H6) Ho Hsame HO Hah. split_and!; try done.
  - apply Forall_app. by split.
  - by rewrite H6, Ho, stores_items_app, map_app, app_assoc.
Qed.

Ltac peek_base := unfold mbind at 1, M_bind at 1, in_snap at 1, zoom at 1.
Ltac peek_diff := unfold mbind at 1, M_bind at 1, in_diff at 1, zoom at 1; cbn [a_diff].

Lemma apply_stores_spec SB ST secs : sections SB ST secs -> Forall store_wf SB -> Forall store_wf ST -> by_name SB -> by_name ST ->
  forall fuel a c, before SB restB (a_base a) -> a_diff a = at_recs c (diff_items secs) -> (length secs < fuel)%nat ->
  exists a' OS, apply_stores fuel a = (Ret tt, a') /\ applied_stores SB ST OS a a'.
Proof using HokB HxB HokD HxD.
  intros Hsec. induction Hsec as [|n recs ev SB ST secs Ha HB HT Hs IH|n recs ev SB ST secs Ha HB HT Hs IH|n recsB recsT ev SB ST secs HB HT Hs IH];
    intros WB WT NB NT [|fuel] a c Hbef Hd Hf; try (cbn in Hf; lia).
  all: pose proof (store_wf_ok _ WB) as OB; pose proof (store_wf_ok _ WT) as OT.
  - cbn [apply_stores]. peek_base. pose proof (peekStore_before [] restB _ OB HokB HxB Hbef) as (cB & PB). rewrite PB.
    peek_diff. rewrite Hd. destruct (peekSection_over c (diff_items []) HokD HxD) as (sec & PD & Hsec). rewrite PD.
    eexists _, []. split.
    { destruct Hsec as [->|(m & f & ->)]; reflexivity. }
    split_and!; [constructor|constructor|done|by exists cB|done|]. cbn. by rewrite app_nil_r.
  - (* only the base has the store *)
    pose proof WB as [(_ & Hl & KB & FB) WB']%Forall_cons. pose proof OB as [(Hn & _ & Hrec & _) OB']%Forall_cons. cbn [fst snd] in *.
    assert (Hev : Forall event_fits ev) by (eapply (events_fit ev _ _ HB HT); [done|constructor]).
    pose proof (sections_fits _ _ _ Hs WB' WT) as Hfit.
    cbn [apply_stores]. peek_base. pose proof (peekStore_before _ restB _ OB HokB HxB Hbef) as (cB & PB). rewrite PB.
    peek_diff. rewrite Hd. pose proof (diff_items_ok ((n, ev) :: secs) ltac:(by constructor)) as Hall. rewrite diff_items_cons in *.
    rewrite peekSection_store by done. change (sectionStore =? sectionExt) with false. cbn [orb andb negb]. rewrite bytes_ltb_irrefl.
    match goal with |- context [_ ?x = (Ret tt, _)] => set (a1 := x) end.
    destruct (base_turn n recs ev SB secs true a1 Hn Hrec OB') as (a2 & O & E2 & HO & Hb2 & Hd2 & Ho2); try done.
    { by apply entered_inside. }
    { by rewrite diff_items_cons. }
    { by rewrite HB. }
    { rewrite HT. constructor. }
    destruct (IH WB' WT (by_name_tail _ _ NB) NT fuel a2 false Hb2 Hd2 ltac:(cbn in Hf; lia)) as (a3 & OS & E3 & A3).
    exists a3, (O ++ OS). unfold mbind at 1, M_bind at 1. rewrite E2. split; [exact E3|]. rewrite HT in HO. pose proof A3 as (Hsame & _ & Hah & _).
    eapply applied_more; [exact A3|exact Ho2|by eapply same_base| |].
    + eapply section_out_ok; [exact HO|done|done|constructor].
    + intros m Hm HmT. eapply ahead_section_out; [exact HO|exact Hm|]. apply Hah; [|done]. eapply ahead_trans; [exact Hm|]. by apply (by_name_ahead (n, recs)).
  - (* only the target *)
    pose proof WT as [(_ & Hl & KT & FT) WT']%Forall_cons. pose proof OT as [(Hn & _ & Hrec & _) OT']%Forall_cons. cbn [fst snd] in *.
    assert (Hev : Forall event_fits ev) by (eapply (events_fit ev _ _ HB HT); [constructor|done]).
    pose proof (sections_fits _ _ _ Hs WB WT') as Hfit.
    cbn [apply_stores]. peek_base. pose proof (peekStore_before _ restB _ OB HokB HxB Hbef) as PB.
    assert (PB' : exists x b', peekStore (a_base a) = (Ret x, b') /\ before SB restB b' /\ (snd x = true \/ (snd x = false /\ bytes_ltb n (fst x) = true))).
    { destruct SB as [|[m recs'] SB']; destruct PB as (cB & ->); do 2 eexists; (split; [reflexivity|]).
      - split; [left; by exists cB|by left].
      - split; [apply entered_before|by right]. }
    destruct PB' as ([m done] & b' & -> & Hb' & Hm). cbn [fst snd] in Hm.
    peek_diff. rewrite Hd. pose proof (diff_items_ok ((n, ev) :: secs) ltac:(by constructor)) as Hall. rewrite diff_items_cons in *.
    rewrite peekSection_store by done. change (sectionStore =? sectionExt) with false. cbn [orb andb negb].
    rewrite andb_false_r. replace (done || bytes_ltb n m) with true by (destruct Hm as [->|[-> ->]]; done).
    match goal with |- context [_ ?x = (Ret tt, _)] => set (a1 := x) end.
    destruct (target_turn n ev secs true a1 HB) as (a2 & O & E2 & HO & Hb2 & Hd2 & Ho2); try done.
    { by rewrite HT. }
    { by rewrite diff_items_cons. }
    destruct (IH WB WT' NB (by_name_tail _ _ NT) fuel a2 false ltac:(by rewrite Hb2) Hd2 ltac:(cbn in Hf; lia)) as (a3 & OS & E3 & A3).
    exists a3, (O ++ OS). unfold mbind at 1, M_bind at 1. rewrite E2. split; [exact E3|]. rewrite HT in HO. pose proof A3 as (Hsame & _ & Hah & _).
    pose proof (by_name_ahead (n, recs) _ NT) as HnT. cbn [fst] in HnT.
    eapply applied_more; [exact A3|exact Ho2|eapply same_target; [done|by apply Hah|done]| |].
    + by eapply section_out_ok.
    + intros k Hk Hkn. eapply ahead_section_out; [exact HO|exact Hkn|]. apply Hah; [done|]. by eapply ahead_trans.
  - (* both *)
    pose proof WB as [(_ & Hl & KB & FB) WB']%Forall_cons. pose proof OB as [(Hn & _ & Hrec & _) OB']%Forall_cons.
    pose proof WT as [(_ & _ & KT & FT) WT']%Forall_cons. cbn [fst snd] in *.
    assert (Hev : Forall event_fits ev) by (by eapply (events_fit ev _ _ HB HT)).
    pose proof (sections_fits _ _ _ Hs WB' WT') as Hfit.
    cbn [apply_stores]. peek_base. pose proof (peekStore_before _ restB _ OB HokB HxB Hbef) as (cB & PB). rewrite PB.
    peek_diff. rewrite Hd. pose proof (diff_items_ok ((n, ev) :: secs) ltac:(by constructor)) as Hall. rewrite diff_items_cons in *.
    rewrite peekSection_store by done. change (sectionStore =? sectionExt) with false. cbn [orb andb negb]. rewrite bytes_ltb_irrefl.
    match goal with |- context [_ ?x = (Ret tt, _)] => set (a1 := x) end.
    destruct (base_turn n recsB ev SB secs true a1 Hn Hrec OB') as (a2 & O & E2 & HO & Hb2 & Hd2 & Ho2); try done.
    { by apply entered_inside. }
    { by rewrite diff_items_cons. }
    { by rewrite HB. }
    { by rewrite HT. }
    destruct (IH WB' WT' (by_name_tail _ _ NB) (by_name_tail _ _ NT) fuel a2 false Hb2 Hd2 ltac:(cbn in Hf; lia)) as (a3 & OS & E3 & A3).
    exists a3, (O ++ OS). unfold mbind at 1, M_bind at 1. rewrite E2. split; [exact E3|]. rewrite HT in HO. pose proof A3 as (Hsame & _ & Hah & _).
    pose proof (by_name_ahead _ _ NB) as HnB. pose proof (by_name_ahead _ _ NT) as HnT. cbn [fst] in HnB, HnT.
    eapply applied_more; [exact A3|exact Ho2|eapply same_target; [done|by apply Hah|done]| |].
    + by eapply section_out_ok.
    + intros k Hk _. eapply ahead_section_out; [exact HO|exact Hk|]. by apply Hah; eapply ahead_trans.
Qed.
End ApplyStores.
