(* ===== verification/DiffExt.v ===== *)
(** * The key-value diff: extensions

    Extensions are compared and changed as sets of payloads, by their hashes.  The
    records a diff has for them, how they are read back, what the applier writes, and
    that it comes to the target's payloads. *)

From S2P Require Import Prelude Sha256 Varint CommitInfo SnapProto DiffSync Diff DiffProof DiffApply.

(** An extension with room to spare. *)
Definition ext_wf (x : ext) : Prop :=
  ext_name x <> [] /\ len (ext_name x) <= 2 ^ 47 /\ 0 <= x.1.2 < 2 ^ 32 /\ Forall (fun p => len p <= 2 ^ 47) x.2.

Lemma ext_wf_ok x : ext_wf x -> ext_ok x.
Proof. intros (H1 & H2 & H3 & H4). split_and!; [done|lia|lia|lia|]. eapply Forall_impl; [exact H4|]. cbn. lia. Qed.

Lemma len_payload_field p : len p <= 2 ^ 47 -> len (encBytesField 1 p) <= 2 ^ 47 + 11.
Proof. apply len_name_field. Qed.

Lemma len_meta_body n f : len n <= 2 ^ 47 -> 0 <= f < 2 ^ 32 -> len (meta_body n f) <= 2 ^ 47 + 22.
Proof.
  intros Hn Hf. unfold meta_body, meta_fields. rewrite !encode_fields_cons, encode_varint_field by lia. change (encode_fields []) with (@nil Init.Byte.byte).
  pose proof (len_nonneg n). pose proof (bytes_field_bound 1 n ltac:(lia) ltac:(lia)). pose proof (len_PutUvarint f ltac:(lia)). len_simpl. lia.
Qed.

Lemma payload_items_ok t ps : 1 <= t < 16 -> Forall (fun p => len p <= 2 ^ 47) ps -> Forall env_ok (map (fun p => (t, encBytesField 1 p)) ps).
Proof.
  intros Ht Hp. apply Forall_map. eapply Forall_impl; [exact Hp|]. intros p H. apply env_ok_small; [done|]. pose proof (len_payload_field p H). lia.
Qed.

Lemma meta_item_ok t n f : 1 <= t < 16 -> len n <= 2 ^ 47 -> 0 <= f < 2 ^ 32 -> env_ok (t, meta_body n f).
Proof. intros Ht Hn Hf. apply env_ok_small; [done|]. pose proof (len_meta_body n f Hn Hf). lia. Qed.

Lemma ext_items_ok x : ext_wf x -> Forall env_ok (ext_items x).
Proof. intros (H1 & H2 & H3 & H4). constructor; [by apply meta_item_ok|]. by apply payload_items_ok. Qed.

Lemma exts_items_ok E : Forall ext_wf E -> Forall env_ok (exts_items E).
Proof. intros H. apply Forall_bind. eapply Forall_impl; [exact H|]. apply ext_items_ok. Qed.

Lemma exts_items_ahead E : exts_ahead (exts_items E).
Proof. destruct E as [|x E]; [done|]. by left. Qed.

(** ** What the differ writes *)

Definition hashes (ps : list bytes) : gset bytes := list_to_set (map sha256 ps).

Lemma hashes_elem ps h : h ∈ hashes ps <-> exists p, p ∈ ps /\ sha256 p = h.
Proof. unfold hashes. rewrite elem_of_list_to_set, list_elem_of_fmap. naive_solver. Qed.

Lemma hashes_app ps qs : hashes (ps ++ qs) = hashes ps ∪ hashes qs.
Proof. unfold hashes. by rewrite map_app, list_to_set_app_L. Qed.

Lemma by_payload_hash_lookup ps h : match (by_payload_hash ps : gmap bytes bytes) !! h with Some p => p ∈ ps /\ sha256 p = h | None => h ∉ hashes ps end.
Proof.
  unfold by_payload_hash. assert (Hgen : forall m : gmap bytes bytes, match fold_left (fun m p => <[sha256 p := p]> m) ps m !! h with
    | Some p => (p ∈ ps /\ sha256 p = h) \/ m !! h = Some p | None => h ∉ hashes ps /\ m !! h = None end).
  { induction ps as [|q ps IH]; intros m; cbn [fold_left].
    - destruct (m !! h); [by right|]. split; [|done]. intros (p & []%not_elem_of_nil & _)%hashes_elem.
    - specialize (IH (<[sha256 q := q]> m)). destruct (fold_left _ ps _ !! h) as [p|].
      + destruct IH as [[Hp E]|E]; [left; split; [by apply list_elem_of_further|done]|]. destruct (decide (sha256 q = h)) as [Hq|Hq].
        * rewrite Hq, lookup_insert_eq in E. injection E as <-. left. split; [apply list_elem_of_here|done].
        * rewrite lookup_insert_ne in E by done. by right.
      + destruct IH as [Hn E]. destruct (decide (sha256 q = h)) as [Hq|Hq]; [by rewrite Hq, lookup_insert_eq in E|].
        rewrite lookup_insert_ne in E by done. split; [|done]. intros (p & [->|Hp]%elem_of_cons & Hh)%hashes_elem; [done|].
        apply Hn, hashes_elem. by exists p. }
  specialize (Hgen ∅). rewrite lookup_empty in Hgen. destruct (_ !! h); [by destruct Hgen as [|]|by destruct Hgen].
Qed.

Lemma by_payload_hash_dom ps : dom (by_payload_hash ps) = hashes ps.
Proof.
  apply set_eq. intros h. rewrite elem_of_dom. pose proof (by_payload_hash_lookup ps h) as H. destruct (by_payload_hash ps !! h) as [p|].
  - split; [|by eexists]. intros _. apply hashes_elem. by exists p.
  - split; [by intros []|done].
Qed.

Definition rem_item (p : bytes) : Z * bytes := (tagExtRemove, encBytesField 1 p).
Definition add_item (p : bytes) : Z * bytes := (tagExtAdd, encBytesField 1 p).

(** A step of the differ that writes records and moves neither reader. *)
Definition noted (items : list (Z * bytes)) (d d' : differ) : Prop :=
  baseRdr d' = baseRdr d /\ targetRdr d' = targetRdr d /\ d_out d' = d_out d ++ map env items.

Lemma noted_trans l1 l2 a b c : noted l1 a b -> noted l2 b c -> noted (l1 ++ l2) a c.
Proof. intros (H1 & H2 & H3) (K1 & K2 & K3). unfold noted. rewrite K1, K2, K3, H1, H2, H3, map_app, app_assoc. done. Qed.

Lemma noted_nil d : noted [] d d.
Proof. split_and!; [done|done|]. cbn. by rewrite app_nil_r. Qed.

(** Payloads written for a list of hashes: all of [ps], and of each hash that is wanted. *)
Definition picks (ps : list bytes) (want : bytes -> Prop) (qs : list bytes) : Prop :=
  (forall p, p ∈ qs -> p ∈ ps) /\ (forall h, h ∈ hashes qs <-> want h).

Lemma picks_none ps want : (forall h, ~ want h) -> picks ps want [].
Proof. intros H. split; [by intros p []%not_elem_of_nil|]. intros h. split; [by intros (p & []%not_elem_of_nil & _)%hashes_elem|]. by intros []%H. Qed.

Lemma picks_one ps p want : p ∈ ps -> (forall h, want h <-> h = sha256 p) -> picks ps want [p].
Proof.
  intros Hp H. split; [by intros q ->%list_elem_of_singleton|]. intros h. rewrite H, hashes_elem. split.
  - by intros (q & ->%list_elem_of_singleton & <-).
  - intros ->. exists p. by rewrite list_elem_of_singleton.
Qed.

Lemma each_picks (f : bytes -> M differ unit) (item : bytes -> Z * bytes) ps (want : bytes -> Prop) (l : list bytes) :
  (forall h d, exists d' qs, f h d = (Ret tt, d') /\ noted (map item qs) d d' /\ picks ps (fun h' => h' = h /\ want h) qs) ->
  forall d, exists d' qs, each f l d = (Ret tt, d') /\ noted (map item qs) d d' /\ picks ps (fun h => h ∈ l /\ want h) qs.
Proof.
  intros Hf. induction l as [|h l IH]; intros d.
  - exists d, []. split; [done|]. split; [apply noted_nil|]. apply picks_none. by intros h [[]%not_elem_of_nil _].
  - destruct (Hf h d) as (d1 & q1 & E1 & N1 & S1 & H1). destruct (IH d1) as (d2 & q2 & E2 & N2 & S2 & H2).
    exists d2, (q1 ++ q2). cbn [each]. unfold mbind at 1, M_bind at 1. rewrite E1. split; [exact E2|]. split; [rewrite map_app; by eapply noted_trans|].
    split; [intros p [?|?]%elem_of_app; auto|]. intros h'. rewrite hashes_app, elem_of_union, H1, H2, elem_of_cons. naive_solver.
Qed.

Lemma emit_remove_spec base tbh h d : exists d' qs, emit_remove base tbh h d = (Ret tt, d') /\ noted (map rem_item qs) d d' /\
  picks base (fun h' => h' = h /\ (tbh !! h = None /\ h ∈ hashes base)) qs.
Proof.
  unfold emit_remove. destruct (tbh !! h) as [q|].
  - exists d, []. split; [done|]. split; [apply noted_nil|]. apply picks_none. by intros h' (_ & ? & _).
  - destruct (list_find (fun p => sha256 p = h) base) as [[i p]|] eqn:E.
    + apply list_find_Some in E as (Hi & Hp & _). apply list_elem_of_lookup_2 in Hi. eexists _, [p]. split; [reflexivity|]. split; [by split_and!|].
      apply picks_one; [done|]. intros h'. rewrite Hp. split; [by intros []|]. intros ->. split_and!; [done|done|]. apply hashes_elem. by exists p.
    + exists d, []. split; [done|]. split; [apply noted_nil|]. apply picks_none. intros h' (_ & _ & (p & Hp & Hh)%hashes_elem).
      apply list_find_None in E. eapply Forall_forall in E; [|exact Hp]. done.
Qed.

Lemma emit_add_spec bhs target h d : exists d' qs, emit_add bhs (by_payload_hash target) h d = (Ret tt, d') /\ noted (map add_item qs) d d' /\
  picks target (fun h' => h' = h /\ (h ∈ hashes target /\ h ∉ bhs)) qs.
Proof.
  unfold emit_add. pose proof (by_payload_hash_lookup target h) as Hl. destruct (by_payload_hash target !! h) as [p|].
  - destruct Hl as [Hp Hh]. case_bool_decide as Hb.
    + exists d, []. split; [done|]. split; [apply noted_nil|]. apply picks_none. by intros h' (_ & _ & ?).
    + eexists _, [p]. split; [reflexivity|]. split; [by split_and!|]. apply picks_one; [done|]. intros h'. rewrite Hh. split; [by intros []|].
      intros ->. split_and!; [done| |done]. apply hashes_elem. by exists p.
  - exists d, []. split; [done|]. split; [apply noted_nil|]. apply picks_none. by intros h' (_ & ? & _).
Qed.

(** The section of an extension: its name and format, the payloads removed and added. *)
Record xsection := mkX { xs_name : bytes; xs_format : Z; xs_rems : list bytes; xs_adds : list bytes }.

Definition xsection_items (x : xsection) : list (Z * bytes) :=
  (tagExtEnter, meta_body (xs_name x) (xs_format x)) :: map rem_item (xs_rems x) ++ map add_item (xs_adds x) ++ [(tagExtLeave, [])].

Section DiffExts.
Context (visit : bytes -> bool -> list bytes -> list bytes) (Hvisit : forall n b l, visit n b l ≡ₚ l).
Context (be te : gmap bytes extData).

(** The section says what to do to the base's payloads to have the target's. *)
Definition section_says (x : xsection) : Prop :=
  let base := ext_payloads (be !! xs_name x) in
  let target := ext_payloads (te !! xs_name x) in
  xs_format x = ext_format (be !! xs_name x) (te !! xs_name x) /\
  picks base (fun h => h ∈ hashes base /\ h ∉ hashes target) (xs_rems x) /\
  picks target (fun h => h ∈ hashes target /\ h ∉ hashes base) (xs_adds x).

Lemma picks_ext ps want want' qs : (forall h, want h <-> want' h) -> picks ps want qs -> picks ps want' qs.
Proof using Type. intros H [H1 H2]. split; [done|]. intros h. by rewrite H2. Qed.

Lemma diff_ext_spec name d : exists d' x, diff_ext visit be te name d = (Ret tt, d') /\ xs_name x = name /\ section_says x /\
  noted (xsection_items x) d d'.
Proof using Hvisit.
  unfold diff_ext. set (base := ext_payloads (be !! name)). set (target := ext_payloads (te !! name)).
  unfold mbind at 1 2, M_bind at 1 2. unfold upd_stats at 1, emit at 1, modify at 1 2.
  match goal with |- context [_ ?x = (Ret tt, _)] => set (d1 := x) end.
  assert (N1 : noted [(tagExtEnter, meta_body name (ext_format (be !! name) (te !! name)))] d d1).
  { split_and!; [done|done|]. cbn [d1 d_out map]. do 2 f_equal. unfold meta_body, meta_fields. by rewrite <- build_env. }
  destruct (each_picks (emit_remove base (by_payload_hash target)) rem_item base (fun h => by_payload_hash target !! h = None /\ h ∈ hashes base)
    (visit name false (elements (hashes base))) ltac:(intros; apply emit_remove_spec) d1) as (d2 & R & E2 & N2 & P2).
  destruct (each_picks (emit_add (hashes base) (by_payload_hash target)) add_item target (fun h => h ∈ hashes target /\ h ∉ hashes base)
    (visit name true (elements (dom (by_payload_hash target)))) ltac:(intros; apply emit_add_spec) d2) as (d3 & A & E3 & N3 & P3).
  unfold mbind at 1, M_bind at 1. change (list_to_set (map sha256 base)) with (hashes base). rewrite E2. unfold mbind at 1, M_bind at 1. rewrite E3.
  eexists _, (mkX name (ext_format (be !! name) (te !! name)) R A). split; [reflexivity|]. split; [done|]. split.
  - split; [done|]. cbn [xs_name xs_rems xs_adds]. fold base target. split.
    + eapply picks_ext; [|exact P2]. intros h. cbn beta. rewrite Hvisit, elem_of_elements. pose proof (by_payload_hash_lookup target h) as Hl.
      rewrite <- (by_payload_hash_dom target), not_elem_of_dom. naive_solver.
    + eapply picks_ext; [|exact P3]. intros h. cbn beta. rewrite Hvisit, elem_of_elements, by_payload_hash_dom. naive_solver.
  - unfold xsection_items. cbn [xs_name xs_format xs_rems xs_adds].
    apply (noted_trans [_] _ d d1); [done|]. eapply noted_trans; [exact N2|]. eapply noted_trans; [exact N3|]. by split_and!.
Qed.

Lemma diff_exts_spec names : forall d, exists d' xs, each (diff_ext visit be te) names d = (Ret tt, d') /\ map xs_name xs = names /\
  Forall section_says xs /\ noted (xs ≫= xsection_items) d d'.
Proof using Hvisit.
  induction names as [|n names IH]; intros d.
  - exists d, []. split; [done|]. split; [done|]. split; [constructor|apply noted_nil].
  - destruct (diff_ext_spec n d) as (d1 & x & E1 & Hn & Hx & N1). destruct (IH d1) as (d2 & xs & E2 & Hns & Hxs & N2).
    exists d2, (x :: xs). cbn [each]. unfold mbind at 1, M_bind at 1. rewrite E1. split; [exact E2|]. cbn [map]. split; [by rewrite Hn, Hns|].
    split; [by constructor|]. cbn [mbind list_bind]. by eapply noted_trans.
Qed.
End DiffExts.

(** ** Reading the sections back *)

Definition xsection_fits (x : xsection) : Prop :=
  len (xs_name x) <= 2 ^ 47 /\ 0 <= xs_format x < 2 ^ 32 /\
  Forall (fun p => len p <= 2 ^ 47) (xs_rems x) /\ Forall (fun p => len p <= 2 ^ 47) (xs_adds x).

Lemma xsection_items_ok x : xsection_fits x -> Forall env_ok (xsection_items x).
Proof.
  intros (H1 & H2 & H3 & H4). constructor; [by apply meta_item_ok|]. rewrite !Forall_app. split_and!; [by apply payload_items_ok..|].
  constructor; [|constructor]. apply env_ok_small; [done|by vm_compute].
Qed.

Definition xsections_items (xs : list xsection) : list (Z * bytes) := xs ≫= xsection_items.

Lemma xsections_ok xs : Forall xsection_fits xs -> Forall env_ok (xsections_items xs).
Proof. intros H. apply Forall_bind. eapply Forall_impl; [exact H|]. apply xsection_items_ok. Qed.

Lemma xsections_ahead xs : Forall xsection_fits xs -> ext_sections_ahead (xsections_items xs).
Proof. intros H. destruct xs as [|x xs]; [done|]. apply Forall_cons in H as [(H1 & H2 & _) _]. do 2 eexists. split; [done|]. split; [lia|done]. Qed.

Lemma payload_fields_ok p : len p <= 2 ^ 47 -> parseProtoBytes (encBytesField 1 p) 1 = Ret p.
Proof.
  intros Hp. destruct (name_field_ok p Hp) as [Hf _]. assert (E : encBytesField 1 p = encode_fields [PBytes 1 p]) by (unfold encode_fields; cbn [map concat]; by rewrite app_nil_r).
  rewrite E. exact (parseProtoBytes_find 1 [PBytes 1 p] ltac:(lia) Hf).
Qed.

Lemma read_adds A rest : Forall (fun p => len p <= 2 ^ 47) A -> Forall env_ok rest -> forall fuel ch c, (length A < fuel)%nat ->
  readExtChanges_loop fuel ch (at_recs c (map add_item A ++ (tagExtLeave, []) :: rest)) =
  (Ret (mkExtChanges (format ch) (removes ch) (adds ch ++ A)), at_recs false rest).
Proof.
  intros HA Hr. assert (Hleave : env_ok (tagExtLeave, [])) by (apply env_ok_small; [done|by vm_compute]).
  induction A as [|p A IH]; intros [|fuel] ch c Hf; try (cbn in Hf; lia).
  - cbn [map app readExtChanges_loop]. unfold mbind at 1, M_bind at 1. rewrite peekRecord_at by (by constructor). cbn [head].
    change (tagExtLeave =? tagExtLeave) with true. cbv iota. eat_record. rewrite app_nil_r. by destruct ch.
  - assert (Hall : Forall env_ok (map add_item (p :: A) ++ (tagExtLeave, []) :: rest)).
    { apply Forall_app. split; [by apply payload_items_ok|by constructor]. }
    apply Forall_cons in HA as [Hp HA]. cbn [map app readExtChanges_loop] in *. peek_record. unfold add_item at 1. 
    change (tagExtAdd =? tagExtLeave) with false. change (tagExtAdd =? tagExtAdd) with true. cbv iota. eat_record. step_out.
    rewrite payload_fields_ok by done. rewrite IH by (done || cbn in Hf; lia). cbn [format removes adds]. by rewrite <- app_assoc.
Qed.

Lemma read_rems R A rest : Forall (fun p => len p <= 2 ^ 47) R -> Forall (fun p => len p <= 2 ^ 47) A -> Forall env_ok rest ->
  forall fuel ch c, (length R + length A < fuel)%nat ->
  readExtChanges_loop fuel ch (at_recs c (map rem_item R ++ map add_item A ++ (tagExtLeave, []) :: rest)) =
  (Ret (mkExtChanges (format ch) (hashes R ∪ removes ch) (adds ch ++ A)), at_recs false rest).
Proof.
  intros HR HA Hr. assert (Hleave : env_ok (tagExtLeave, [])) by (apply env_ok_small; [done|by vm_compute]).
  induction R as [|p R IH]; intros [|fuel] ch c Hf; try (cbn in Hf; lia).
  - cbn [map app]. rewrite read_adds by (done || cbn in Hf; lia). do 3 f_equal. set_solver.
  - assert (Hall : Forall env_ok (map rem_item (p :: R) ++ map add_item A ++ (tagExtLeave, []) :: rest)).
    { rewrite !Forall_app. split_and!; [by apply payload_items_ok..|by constructor]. }
    apply Forall_cons in HR as [Hp HR]. cbn [map app readExtChanges_loop] in *. peek_record. unfold rem_item at 1.
    change (tagExtRemove =? tagExtLeave) with false. change (tagExtRemove =? tagExtAdd) with false. change (tagExtRemove =? tagExtRemove) with true.
    cbv iota. eat_record. step_out. rewrite payload_fields_ok by done. rewrite IH by (done || cbn in Hf; lia). cbn [format removes adds].
    do 3 f_equal. unfold hashes. cbn [map list_to_set]. set_solver.
Qed.

Definition xchange (x : xsection) : extChangeSet := mkExtChanges (xs_format x) (hashes (xs_rems x)) (xs_adds x).

Lemma readExtChanges_at x rest c : xsection_fits x -> Forall env_ok rest ->
  readExtChanges (xs_format x) (at_recs c (map rem_item (xs_rems x) ++ map add_item (xs_adds x) ++ (tagExtLeave, []) :: rest)) =
  (Ret (xchange x), at_recs false rest).
Proof.
  intros (_ & _ & HR & HA) Hr. unfold readExtChanges. rewrite read_rems; [|done..|].
  - unfold xchange. cbn [format removes adds app]. do 3 f_equal. set_solver.
  - pose proof (records_left_at c (map rem_item (xs_rems x) ++ map add_item (xs_adds x) ++ (tagExtLeave, []) :: rest)) as H.
    rewrite !length_app, !length_map in H. cbn [length] in H. lia.
Qed.

Lemma ext_sections_spec xs : Forall xsection_fits xs -> forall fuel c m, (length xs < fuel)%nat ->
  ext_sections fuel m (at_recs c (xsections_items xs)) =
  (Ret (fold_left (fun m x => <[xs_name x := xchange x]> m) xs m), at_recs true []).
Proof.
  induction xs as [|x xs IH]; intros Hxs [|fuel] c m Hf; try (cbn in Hf; lia).
  - cbn [ext_sections xsections_items mbind list_bind fold_left]. unfold mbind at 1, M_bind at 1. by rewrite peekSection_end.
  - pose proof (xsections_ok _ Hxs) as Hall. apply Forall_cons in Hxs as [Hx Hxs]. pose proof Hx as (Hn & Hfm & _).
    assert (Hcons : xsections_items (x :: xs) = (tagExtEnter, meta_body (xs_name x) (xs_format x)) ::
      map rem_item (xs_rems x) ++ map add_item (xs_adds x) ++ (tagExtLeave, []) :: xsections_items xs).
    { unfold xsections_items. cbn [mbind list_bind]. unfold xsection_items at 1. cbn [app]. by rewrite <- !app_assoc. }
    rewrite Hcons in *. cbn [ext_sections fold_left]. unfold mbind at 1, M_bind at 1. rewrite peekSection_ext by (done || lia).
    change (sectionExt =? sectionExt) with true. cbn [negb]. unfold mbind at 1, M_bind at 1, consumeSection. rewrite consumeRecord_at.
    unfold mbind at 1, M_bind at 1. rewrite readExtChanges_at; [|done|by apply xsections_ok]. apply IH; [done|]. cbn in Hf. lia.
Qed.

(** The change sets by name. *)
Definition changes_map (xs : list xsection) : gmap bytes extChangeSet := fold_left (fun m x => <[xs_name x := xchange x]> m) xs ∅.

Lemma changes_map_lookup n xs : NoDup (map xs_name xs) ->
  (forall x, x ∈ xs -> xs_name x = n -> changes_map xs !! n = Some (xchange x)) /\ (n ∉ map xs_name xs -> changes_map xs !! n = None).
Proof.
  unfold changes_map. assert (Hgen : forall m : gmap bytes extChangeSet, NoDup (map xs_name xs) ->
    (forall x, x ∈ xs -> xs_name x = n -> fold_left (fun m x => <[xs_name x := xchange x]> m) xs m !! n = Some (xchange x)) /\
    (n ∉ map xs_name xs -> fold_left (fun m x => <[xs_name x := xchange x]> m) xs m !! n = m !! n)).
  { induction xs as [|x xs IH]; intros m Hnd; cbn [fold_left map] in *.
    - split; [by intros x []%not_elem_of_nil|done].
    - apply NoDup_cons in Hnd as [Hni Hnd]. destruct (IH (<[xs_name x := xchange x]> m) Hnd) as [H1 H2]. split.
      + intros y [->|Hy]%elem_of_cons Hn; [|by apply H1]. rewrite H2 by (by rewrite <- Hn). rewrite Hn. by rewrite lookup_insert_eq.
      + intros [Hne Hnin]%not_elem_of_cons. rewrite H2 by done. by rewrite lookup_insert_ne by done. }
  intros Hnd. destruct (Hgen ∅ Hnd) as [H1 H2]. split; [done|]. intros H. rewrite H2 by done. apply lookup_empty.
Qed.

Lemma changes_map_dom xs : dom (changes_map xs) = list_to_set (map xs_name xs).
Proof.
  unfold changes_map. assert (Hgen : forall m : gmap bytes extChangeSet, dom (fold_left (fun m x => <[xs_name x := xchange x]> m) xs m) = list_to_set (map xs_name xs) ∪ dom m).
  { induction xs as [|x xs IH]; intros m; cbn [fold_left map list_to_set]; [set_solver|]. rewrite IH, dom_insert_L. set_solver. }
  rewrite Hgen. set_solver.
Qed.

(** ** Writing the extensions *)

Lemma put_payloads_spec meta ps : forall b a, exists a', put_payloads meta ps b a = (Ret (b || negb (bool_decide (ps = []))), a') /\
  a_base a' = a_base a /\ a_diff a' = a_diff a /\
  a_out a' = a_out a ++ (if b || bool_decide (ps = []) then [] else [meta]) ++ map env (map payload_item ps).
Proof.
  induction ps as [|p ps IH]; intros b a.
  - exists a. rewrite bool_decide_eq_true_2 by done. rewrite !orb_true_r, orb_false_r. split; [done|]. split_and!; [done|done|]. cbn. by rewrite app_nil_r.
  - cbn [put_payloads]. unfold mbind at 1, M_bind at 1, put_payload.
    assert (Hp : exists a1, (_ ← (if b : bool then mret tt else put_item meta); _ ← put_item (buildOneOfMessage 4 [encBytesField 1 p]); _ ← upd_astats count_payload; mret true) a = (Ret true, a1) /\
      a_base a1 = a_base a /\ a_diff a1 = a_diff a /\ a_out a1 = a_out a ++ (if b then [] else [meta]) ++ [env (payload_item p)]).
    { destruct b; eexists; (split; [reflexivity|]); split_and!; try done. cbn. by rewrite <- app_assoc. }
    destruct Hp as (a1 & -> & Hb1 & Hd1 & Ho1). destruct (IH true a1) as (a2 & E2 & Hb2 & Hd2 & Ho2). exists a2. rewrite E2.
    rewrite (bool_decide_eq_false_2 (p :: ps = [])) by done. cbn [negb]. rewrite orb_true_r, orb_false_r. split; [done|].
    rewrite Hb2, Hd2, Ho2, Ho1. split_and!; [done|done|]. cbn [orb map app]. by rewrite <- !app_assoc.
Qed.

Section ApplyExts.
Context (be : gmap bytes extData) (pe : gmap bytes extChangeSet).

(** The payloads an extension ends up with, and the extension written for them. *)
Definition final (n : bytes) : list bytes :=
  List.filter (fun p => negb (dropped (pe !! n) p)) (ext_payloads (be !! n)) ++ match pe !! n with Some ch => adds ch | None => [] end.
Definition final_format (n : bytes) : Z :=
  match pe !! n with Some ch => format ch | None => match be !! n with Some b => x_format b | None => 0 end end.
Definition out_ext (n : bytes) : option ext := if bool_decide (final n = []) then None else Some (n, final_format n, final n).

Lemma meta_item_env n f : buildOneOfMessage 3 [encStringField 1 n; encVarintField 2 f] = env (3, meta_body n f).
Proof using Type. unfold meta_body, meta_fields. by rewrite <- build_env. Qed.

Lemma exts_items_one x : exts_items (option_list (Some x)) = ext_items x.
Proof using Type. unfold exts_items. simpl. by rewrite app_nil_r. Qed.

Lemma apply_ext_spec n a : exists a', apply_ext be pe n a = (Ret tt, a') /\ wrote (exts_items (option_list (out_ext n))) a a'.
Proof using Type.
  unfold apply_ext, out_ext, final. rewrite meta_item_env. fold (final_format n).
  set (kept := List.filter _ _). set (added := match pe !! n with Some ch => adds ch | None => [] end).
  destruct (put_payloads_spec (env (3, meta_body n (final_format n))) kept false a) as (a1 & E1 & Hb1 & Hd1 & Ho1).
  unfold mbind at 1, M_bind at 1. rewrite E1. cbn [orb].
  destruct (put_payloads_spec (env (3, meta_body n (final_format n))) added (negb (bool_decide (kept = []))) a1) as (a2 & E2 & Hb2 & Hd2 & Ho2).
  unfold mbind at 1, M_bind at 1. rewrite E2.
  assert (Hout : a_out a2 = a_out a ++ map env (exts_items (option_list (if bool_decide (kept ++ added = []) then None else Some (n, final_format n, kept ++ added))))).
  { rewrite Ho2, Ho1. rewrite <- app_assoc. f_equal. destruct (bool_decide_reflect (kept = [])) as [->|Hk].
    - cbn [negb orb map app]. destruct (bool_decide_reflect (added = [])) as [->|Ha]; [done|].
      rewrite exts_items_one. done.
    - rewrite (bool_decide_eq_false_2 (kept ++ added = [])) by (intros [? _]%app_eq_nil; done). cbn [negb orb]. rewrite exts_items_one. unfold ext_items.
      cbn [ext_name fst snd map app]. by rewrite !map_app. }
  destruct (negb (bool_decide (kept = [])) || negb (bool_decide (added = []))).
  - eexists. split; [reflexivity|]. split_and!; [by rewrite <- Hb1, <- Hb2|by rewrite <- Hd1, <- Hd2|done].
  - exists a2. split; [done|]. split_and!; [congruence|congruence|done].
Qed.

Lemma apply_exts_spec names : forall a, exists a', each (apply_ext be pe) names a = (Ret tt, a') /\ wrote (exts_items (omap out_ext names)) a a'.
Proof using Type.
  induction names as [|n names IH]; intros a.
  - exists a. split; [done|]. split_and!; [done|done|]. cbn. by rewrite app_nil_r.
  - destruct (apply_ext_spec n a) as (a1 & E1 & W1). destruct (IH a1) as (a2 & E2 & W2). exists a2. cbn [each]. unfold mbind at 1, M_bind at 1.
    rewrite E1. split; [exact E2|]. pose proof (wrote_trans _ _ _ _ _ W1 W2) as W. cbn [omap list_omap].
    destruct (out_ext n) as [x|]; [|exact W]. by rewrite exts_items_one in W.
Qed.

(** Read back, each name has its payloads, an empty list of them being no extension. *)
Lemma out_ext_names names : map ext_name (omap out_ext names) = List.filter (fun n => negb (bool_decide (final n = []))) names.
Proof using Type. induction names as [|n names IH]; [done|]. cbn. unfold out_ext at 1. case_bool_decide; cbn; by rewrite IH. Qed.

Lemma out_ext_lookup names n : NoDup names ->
  hashes (ext_payloads (ext_map (omap out_ext names) !! n)) = if bool_decide (n ∈ names) then hashes (final n) else ∅.
Proof using Type.
  intros Hnd. unfold ext_map. induction names as [|m names IH]; cbn [omap list_omap map].
  - by rewrite bool_decide_eq_false_2 by apply not_elem_of_nil.
  - apply NoDup_cons in Hnd as [Hni Hnd]. specialize (IH Hnd). destruct (decide (n = m)) as [->|Hne].
    + rewrite (bool_decide_eq_true_2 (m ∈ m :: names)) by apply list_elem_of_here. rewrite bool_decide_eq_false_2 in IH by done.
      unfold out_ext. case_bool_decide as Hf; cbn [map ext_data ext_name fst snd list_to_map foldr].
      * rewrite Hf. exact IH.
      * by rewrite lookup_insert_eq.
    + rewrite (bool_decide_ext (n ∈ m :: names) (n ∈ names)) by (rewrite elem_of_cons; naive_solver).
      rewrite <- IH. destruct (out_ext m) as [x|] eqn:E; [|done]. unfold out_ext in E. case_bool_decide; [done|]. injection E as <-.
      cbn [map ext_data ext_name fst snd list_to_map foldr]. by rewrite lookup_insert_ne.
Qed.
End ApplyExts.

(** ** What comes out *)

Lemma ext_map_lookup E n d : NoDup (map ext_name E) -> ext_map E !! n = Some d <-> exists x, x ∈ E /\ ext_name x = n /\ d = mkExtData x.1.2 x.2.
Proof.
  intros Hnd. unfold ext_map. assert (Hnd' : NoDup (map ext_data E).*1) by (change ((map ext_data E).*1) with (map fst (map ext_data E)); by rewrite map_map).
  rewrite <- elem_of_list_to_map by done. rewrite list_elem_of_fmap. unfold ext_data. split.
  - intros (x & [= -> ->] & Hx). by exists x.
  - intros (x & Hx & <- & ->). by exists x.
Qed.

Lemma ext_map_absent E n : NoDup (map ext_name E) -> n ∉ dom (ext_map E) -> ext_payloads (ext_map E !! n) = [].
Proof. intros _ H. apply not_elem_of_dom in H. by rewrite H. Qed.

Lemma sorted_names_elem be te n : n ∈ sorted_names be te <-> n ∈ dom be \/ n ∈ dom te.
Proof. unfold sorted_names. by rewrite merge_sort_Permutation, elem_of_elements, elem_of_union. Qed.

Lemma sorted_names_NoDup be te : NoDup (sorted_names be te).
Proof. unfold sorted_names. rewrite merge_sort_Permutation. apply NoDup_elements. Qed.

Section Outcome.
Context (EB ET : list ext) (HwB : Forall ext_wf EB) (HwT : Forall ext_wf ET) (HnB : NoDup (map ext_name EB)) (HnT : NoDup (map ext_name ET)).
Let be := ext_map EB.
Let te := ext_map ET.
Context (xs : list xsection) (Hnames : map xs_name xs = sorted_names be te) (Hsays : Forall (section_says be te) xs).
Let pe := changes_map xs.

Lemma payloads_wf E n : Forall ext_wf E -> NoDup (map ext_name E) -> Forall (fun p => len p <= 2 ^ 47) (ext_payloads (ext_map E !! n)).
Proof using Type.
  intros Hw Hnd. destruct (ext_map E !! n) as [d|] eqn:Hd; [|constructor]. apply ext_map_lookup in Hd as (x & Hx & _ & ->); [|done].
  eapply Forall_forall in Hx; [|exact Hw]. by destruct Hx as (_ & _ & _ & ?).
Qed.

Lemma named_wf n : n ∈ sorted_names be te -> n <> [] /\ len n <= 2 ^ 47 /\ 0 <= ext_format (be !! n) (te !! n) < 2 ^ 32.
Proof using HwB HwT HnB HnT.
  intros Hn%sorted_names_elem. assert (Hd : forall E d, Forall ext_wf E -> NoDup (map ext_name E) -> ext_map E !! n = Some d -> n <> [] /\ len n <= 2 ^ 47 /\ 0 <= x_format d < 2 ^ 32).
  { intros E d Hw Hnd (x & Hx & <- & ->)%ext_map_lookup; [|done]. eapply Forall_forall in Hx; [|exact Hw]. destruct Hx as (H1 & H2 & H3 & _). done. }
  rewrite !elem_of_dom in Hn. destruct (be !! n) as [d|] eqn:Eb.
  - destruct (Hd EB d HwB HnB Eb) as (H1 & H2 & H3). done.
  - destruct Hn as [[? [=]]|[d Et]]. destruct (Hd ET d HwT HnT Et) as (H1 & H2 & H3). rewrite Et. done.
Qed.

Lemma xs_NoDup : NoDup (map xs_name xs).
Proof using Hnames. rewrite Hnames. apply sorted_names_NoDup. Qed.

Lemma xs_fit : Forall xsection_fits xs.
Proof using HwB HwT HnB HnT Hnames Hsays.
  apply Forall_forall. intros x Hx. eapply Forall_forall in Hsays; [|exact Hx]. destruct Hsays as (Hf & [HR _] & [HA _]).
  assert (Hn : xs_name x ∈ sorted_names be te) by (rewrite <- Hnames; apply list_elem_of_fmap; by exists x).
  destruct (named_wf _ Hn) as (_ & Hl & Hfm). split_and!; [done|rewrite Hf; by apply Hfm|rewrite Hf; by apply Hfm| |].
  - apply Forall_forall. intros p Hp%HR. pose proof (payloads_wf EB (xs_name x) HwB HnB) as H. by eapply Forall_forall in H.
  - apply Forall_forall. intros p Hp%HA. pose proof (payloads_wf ET (xs_name x) HwT HnT) as H. by eapply Forall_forall in H.
Qed.

Lemma named_section n : n ∈ sorted_names be te -> exists x, x ∈ xs /\ xs_name x = n /\ pe !! n = Some (xchange x) /\ section_says be te x.
Proof using Hnames Hsays.
  intros Hn. rewrite <- Hnames in Hn. apply list_elem_of_fmap in Hn as (x & -> & Hx). exists x. split; [done|]. split; [done|].
  split; [|by eapply Forall_forall in Hsays]. by eapply changes_map_lookup; [apply xs_NoDup|..].
Qed.

(** Applied, every name has the target's payloads. *)
Lemma final_hashes n : n ∈ sorted_names be te -> hashes (final be pe n) = hashes (ext_payloads (te !! n)).
Proof using Hnames Hsays.
  intros Hn. destruct (named_section n Hn) as (x & Hx & <- & Hpe & _ & [_ HR] & [_ HA]). unfold final. rewrite Hpe. cbn [adds xchange]. rewrite hashes_app.
  apply set_eq. intros h. rewrite elem_of_union, HA. rewrite hashes_elem. setoid_rewrite list_elem_of_In at 1. setoid_rewrite filter_In. setoid_rewrite <- list_elem_of_In.
  cbn [dropped xchange removes]. split.
  - intros [(p & [Hp Hd] & <-)|[? _]]; [|done]. apply negb_true_iff, bool_decide_eq_false in Hd.
    destruct (decide (sha256 p ∈ hashes (ext_payloads (te !! xs_name x)))) as [|Hnot]; [done|]. destruct Hd. apply HR. split; [|done]. apply hashes_elem. by exists p.
  - intros Ht. destruct (decide (h ∈ hashes (ext_payloads (be !! xs_name x)))) as [Hb|]; [left|by right].
    pose proof Hb as (p & Hp & <-)%hashes_elem. exists p. split; [|done]. split; [done|]. apply negb_true_iff, bool_decide_eq_false. rewrite HR. by intros [_ ?].
Qed.

Definition exts_out : list ext := omap (out_ext be pe) (sorted_names be te).

Lemma exts_out_NoDup : NoDup (map ext_name exts_out).
Proof using Type. unfold exts_out. rewrite out_ext_names. by apply NoDup_ListNoDup, List.NoDup_filter, NoDup_ListNoDup, sorted_names_NoDup. Qed.

Lemma exts_out_wf : Forall ext_wf exts_out.
Proof using HwB HwT HnB HnT Hnames Hsays.
  apply Forall_forall. intros y (n & Hn & Hy)%list_elem_of_omap. unfold out_ext in Hy. case_bool_decide; [done|]. injection Hy as <-.
  destruct (named_wf n Hn) as (H1 & H2 & H3). destruct (named_section n Hn) as (x & Hx & E & Hpe & Hf & _). pose proof xs_fit as Hfit.
  eapply Forall_forall in Hfit; [|exact Hx]. destruct Hfit as (_ & Hfm & _ & HA).
  split_and!; cbn [ext_name fst snd]; try done.
  - unfold final_format. rewrite Hpe. cbn. lia.
  - unfold final_format. rewrite Hpe. cbn. lia.
  - unfold final. rewrite Hpe. apply Forall_app. split; [|done]. apply Forall_forall. intros p Hp%list_elem_of_In%filter_In. destruct Hp as [Hp%list_elem_of_In _].
    pose proof (payloads_wf EB n HwB HnB) as H0. by eapply Forall_forall in H0.
Qed.

Lemma hash_set_hashes d : hash_set d = hashes (ext_payloads d).
Proof using Type. done. Qed.

Lemma exts_out_hashes n : hash_set (ext_map exts_out !! n) = hash_set (te !! n).
Proof using Hnames Hsays HnT.
  rewrite !hash_set_hashes. unfold exts_out. rewrite out_ext_lookup by apply sorted_names_NoDup. case_bool_decide as Hn; [by apply final_hashes|].
  destruct (te !! n) as [d|] eqn:Ht; [|done]. destruct Hn. apply sorted_names_elem. right. apply elem_of_dom. by exists d.
Qed.
End Outcome.

(** No difference is counted exactly when every extension has the same payloads. *)
Lemma set_diff_zero (x y : gset bytes) : Z.of_nat (size (x ∖ y)) + Z.of_nat (size (y ∖ x)) = 0 <-> x = y.
Proof.
  split; [|by intros ->; rewrite difference_diag_L, size_empty]. intros H.
  assert (H1 : x ∖ y = ∅) by (apply leibniz_equiv, size_empty_inv; lia). assert (H2 : y ∖ x = ∅) by (apply leibniz_equiv, size_empty_inv; lia).
  apply (anti_symm (⊆)); by apply empty_difference_subseteq_L.
Qed.

Lemma sum_zero {A} (f g : A -> nat) l : forall s, 
  s <= fold_left (fun n x => n + Z.of_nat (f x) + Z.of_nat (g x)) l s /\
  (fold_left (fun n x => n + Z.of_nat (f x) + Z.of_nat (g x)) l s = s <-> forall x, x ∈ l -> Z.of_nat (f x) + Z.of_nat (g x) = 0).
Proof.
  induction l as [|x l IH]; intros s; cbn [fold_left].
  - split; [lia|]. split; [|done]. by intros _ x []%not_elem_of_nil.
  - destruct (IH (s + Z.of_nat (f x) + Z.of_nat (g x))) as [H1 H2]. split; [lia|]. split.
    + intros E. assert (E' : Z.of_nat (f x) + Z.of_nat (g x) = 0) by lia. intros y [->|Hy]%elem_of_cons; [done|]. apply H2; [lia|done].
    + intros H. pose proof (H x (list_elem_of_here _ _)). assert (E : fold_left (fun n x => n + Z.of_nat (f x) + Z.of_nat (g x)) l (s + Z.of_nat (f x) + Z.of_nat (g x)) = s + Z.of_nat (f x) + Z.of_nat (g x)).
      { apply H2. intros y Hy. by apply H, list_elem_of_further. }
      lia.
Qed.

Lemma compareExtensions_zero a b : compareExtensions a b = 0 <-> forall n, hash_set (a !! n) = hash_set (b !! n).
Proof.
  unfold compareExtensions. cbv zeta. destruct (sum_zero (fun n => size (hash_set (a !! n) ∖ hash_set (b !! n))) (fun n => size (hash_set (b !! n) ∖ hash_set (a !! n)))
    (elements (dom a ∪ dom b : gset bytes)) 0) as [_ H]. rewrite H. split.
  - intros Hall n. destruct (decide (n ∈ dom a ∪ dom b)) as [Hn|Hn]; [by apply set_diff_zero, Hall, elem_of_elements|].
    apply not_elem_of_union in Hn as [Ha%not_elem_of_dom Hb%not_elem_of_dom]. by rewrite Ha, Hb.
  - intros Hall n _. by apply set_diff_zero.
Qed.
