(* ===== verification/DiffEquiv.v ===== *)
(** * The key-value diff: computing, applying and verifying together

    The verifier on two snapshots with the same content, and the composition: a diff
    computed from two snapshots and applied to the first gives one that the verifier
    finds equivalent to the second. *)

From S2P Require Import Prelude Sha256 Varint CommitInfo SnapProto DiffSync Diff DiffProof DiffApply DiffExt.

(** ** The verifier *)

(** What the merge of two lists of leaves counts: keys only in the first, only in the
    second, values that differ. *)
Record counts := mkCounts { only_A : Z; only_B : Z; values : Z }.
Definition no_counts : counts := mkCounts 0 0 0.
Definition add_counts (a b : counts) : counts := mkCounts (only_A a + only_A b) (only_B a + only_B b) (values a + values b).

Fixpoint diffs (fuel : nat) (KA KB : list (bytes * bytes)) : counts :=
  match fuel with
  | O => no_counts
  | S fuel =>
      match KA, KB with
      | [], [] => no_counts
      | _ :: KA, [] => add_counts (mkCounts 1 0 0) (diffs fuel KA [])
      | [], _ :: KB => add_counts (mkCounts 0 1 0) (diffs fuel [] KB)
      | a :: KA', b :: KB' =>
          let cmp := bytesCompare a.1 b.1 in
          if cmp <? 0 then add_counts (mkCounts 1 0 0) (diffs fuel KA' KB)
          else if 0 <? cmp then add_counts (mkCounts 0 1 0) (diffs fuel KA KB')
          else add_counts (if bytesEqual a.2 b.2 then no_counts else mkCounts 0 0 1) (diffs fuel KA' KB')
      end
  end.

Definition counts_pos (c : counts) : Prop := 0 <= only_A c /\ 0 <= only_B c /\ 0 <= values c.

Lemma add_counts_pos a b : counts_pos a -> counts_pos b -> counts_pos (add_counts a b).
Proof. unfold counts_pos. cbn. lia. Qed.

Lemma add_counts_zero a b : counts_pos a -> counts_pos b -> add_counts a b = no_counts <-> a = no_counts /\ b = no_counts.
Proof.
  destruct a, b. unfold counts_pos, add_counts, no_counts. cbn. intros H1 H2. split; [intros [= E1 E2 E3]|by intros [[= -> -> ->] [= -> -> ->]]].
  split; f_equal; lia.
Qed.

Lemma add_no_counts a : add_counts no_counts a = a.
Proof. by destruct a. Qed.

Lemma add_counts_assoc a b c : add_counts a (add_counts b c) = add_counts (add_counts a b) c.
Proof. destruct a, b, c. unfold add_counts. cbn. f_equal; lia. Qed.

Lemma diffs_pos fuel : forall KA KB, counts_pos (diffs fuel KA KB).
Proof.
  assert (Hp : forall a b c, 0 <= a -> 0 <= b -> 0 <= c -> counts_pos (mkCounts a b c)) by done.
  induction fuel as [|fuel IH]; intros [|a KA] [|b KB]; cbn [diffs]; try by apply Hp.
  - apply add_counts_pos; [by apply Hp|apply IH].
  - apply add_counts_pos; [by apply Hp|apply IH].
  - destruct (_ <? 0); [|destruct (0 <? _)]; (apply add_counts_pos; [|apply IH]); try by apply Hp. destruct (bytesEqual _ _); by apply Hp.
Qed.

(** No difference is counted exactly when the lists are the same. *)
Lemma diffs_zero fuel : forall KA KB, (length KA + length KB < fuel)%nat -> diffs fuel KA KB = no_counts <-> KA = KB.
Proof.
  assert (Hp : forall a b c, 0 <= a -> 0 <= b -> 0 <= c -> counts_pos (mkCounts a b c)) by done.
  induction fuel as [|fuel IH]; intros [|[ka va] KA] [|[kb vb] KB] Hf; try (cbn in Hf; lia); cbn [diffs fst snd].
  - done.
  - rewrite add_counts_zero by (try apply diffs_pos; by apply Hp). by split; [intros [[=] _]|].
  - rewrite add_counts_zero by (try apply diffs_pos; by apply Hp). by split; [intros [[=] _]|].
  - rewrite bytesCompare_ltb. destruct (bytes_ltb ka kb) eqn:L1; [|destruct (bytes_ltb kb ka) eqn:L2]; cbn [Z.ltb Z.compare].
    + rewrite add_counts_zero by (try apply diffs_pos; by apply Hp). split; [by intros [[=] _]|]. intros [= -> -> ->]. by rewrite bytes_ltb_irrefl in L1.
    + rewrite add_counts_zero by (try apply diffs_pos; by apply Hp). split; [by intros [[=] _]|]. intros [= -> -> ->]. by rewrite bytes_ltb_irrefl in L2.
    + pose proof (bytes_ltb_neither _ _ L1 L2) as ->. unfold bytesEqual. destruct (bool_decide_reflect (va = vb)) as [->|Hv].
      * rewrite add_no_counts, IH by (cbn in Hf; lia). split; [by intros ->|by intros [=]].
      * rewrite add_counts_zero by (try apply diffs_pos; by apply Hp). split; [by intros [[=] _]|]. by intros [=].
Qed.

(** The differences a store's stats say. *)
Definition counted (s : VerifyStoreStats) : counts := mkCounts (ExtraInA s) (ExtraInB s) (ValueDiffs s).

Section Comparing.
Context (name : bytes) (Hname : name <> []).
Context (inA inB : bool) (restA restB : list (Z * bytes)) (a0 b0 : storeReader).
Context (HokA : Forall env_ok restA) (HokB : Forall env_ok restB) (HoverA : store_over restA) (HoverB : store_over restB).

Lemma key_value_spec r : fields_ok r -> key_value (encode_fields r) = Ret (kv_of r).
Proof using Type. intros H. unfold key_value. rewrite parseProtoBytes_find by done. cbn [mbind outcome_bind]. by rewrite parseProtoBytes_find. Qed.

Lemma advA_spec L v : Forall fields_ok L -> side name inA restA a0 L (rA v) ->
  exists v', advA inA name v = (Ret (kv_of <$> head L), v') /\ side name inA restA a0 (tail L) (rA v') /\
    (L = [] -> finished inA restA a0 (rA v')) /\ rB v' = rB v /\ counted (vs v') = counted (vs v).
Proof using Hname HokA HoverA.
  unfold side, finished, advA. intros HL. destruct inA; intros Hs.
  - destruct (next_leaf_inside name Hname restA L (rA v) HokA HoverA Hs) as (s' & E & Hs' & Hend). unfold mbind at 1, M_bind at 1, in_A, zoom. rewrite E.
    destruct L as [|r L]; cbn [head fmap option_fmap option_map tail] in *.
    + eexists. split; [reflexivity|]. by split_and!.
    + apply Forall_cons in HL as [Hr _]. unfold mbind at 1, M_bind at 1, lift_out. rewrite key_value_spec by done. eexists. split; [reflexivity|]. by split_and!.
  - destruct Hs as [-> Hs]. exists v. by split_and!.
Qed.

Lemma advB_spec L v : Forall fields_ok L -> side name inB restB b0 L (rB v) ->
  exists v', advB inB name v = (Ret (kv_of <$> head L), v') /\ side name inB restB b0 (tail L) (rB v') /\
    (L = [] -> finished inB restB b0 (rB v')) /\ rA v' = rA v /\ counted (vs v') = counted (vs v).
Proof using Hname HokB HoverB.
  unfold side, finished, advB. intros HL. destruct inB; intros Hs.
  - destruct (next_leaf_inside name Hname restB L (rB v) HokB HoverB Hs) as (s' & E & Hs' & Hend). unfold mbind at 1, M_bind at 1, in_B, zoom. rewrite E.
    destruct L as [|r L]; cbn [head fmap option_fmap option_map tail] in *.
    + eexists. split; [reflexivity|]. by split_and!.
    + apply Forall_cons in HL as [Hr _]. unfold mbind at 1, M_bind at 1, lift_out. rewrite key_value_spec by done. eexists. split; [reflexivity|]. by split_and!.
  - destruct Hs as [-> Hs]. exists v. by split_and!.
Qed.

(** A side with the head of [L] read out. *)
Definition read_to (has : bool) (rest : list (Z * bytes)) (s0 : storeReader) (L : list (list pfield)) (s : storeReader) : Prop :=
  side name has rest s0 (tail L) s /\ (L = [] -> finished has rest s0 s).

Lemma compare_loop_spec fuel : forall LA LB v, Forall fields_ok LA -> Forall fields_ok LB ->
  read_to inA restA a0 LA (rA v) -> read_to inB restB b0 LB (rB v) -> (length LA + length LB < fuel)%nat ->
  exists v', compare_loop fuel inA inB name (kv_of <$> head LA) (kv_of <$> head LB) v = (Ret tt, v') /\
    finished inA restA a0 (rA v') /\ finished inB restB b0 (rB v') /\
    counted (vs v') = add_counts (counted (vs v)) (diffs fuel (map kv_of LA) (map kv_of LB)).
Proof using Hname HokA HokB HoverA HoverB.
  induction fuel as [|fuel IH]; intros LA LB v HA HB HsA HsB Hf; [lia|].
  (* the three ways on: the first side moves, the second, both *)
  assert (goA : forall ra LA' v1, LA = ra :: LA' -> rA v1 = rA v -> rB v1 = rB v -> exists v', (a ← advA inA name; compare_loop fuel inA inB name a (kv_of <$> head LB)) v1 = (Ret tt, v') /\
      finished inA restA a0 (rA v') /\ finished inB restB b0 (rB v') /\ counted (vs v') = add_counts (counted (vs v1)) (diffs fuel (map kv_of LA') (map kv_of LB))).
  { intros ra LA' v1 -> Ea Eb. apply Forall_cons in HA as [_ HA]. destruct HsA as [HsA _]. cbn [tail] in HsA. rewrite <- Ea in HsA.
    destruct (advA_spec LA' v1 HA HsA) as (v2 & E2 & S2 & F2 & R2 & N2).
    destruct (IH LA' LB v2 HA HB (conj S2 F2) ltac:(by rewrite R2, Eb) ltac:(cbn in Hf; lia)) as (v3 & E3 & FA & FB & N3).
    exists v3. unfold mbind at 1, M_bind at 1. rewrite E2. split; [exact E3|]. by rewrite N3, N2. }
  assert (goB : forall rb LB' v1, LB = rb :: LB' -> rA v1 = rA v -> rB v1 = rB v -> exists v', (b ← advB inB name; compare_loop fuel inA inB name (kv_of <$> head LA) b) v1 = (Ret tt, v') /\
      finished inA restA a0 (rA v') /\ finished inB restB b0 (rB v') /\ counted (vs v') = add_counts (counted (vs v1)) (diffs fuel (map kv_of LA) (map kv_of LB'))).
  { intros rb LB' v1 -> Ea Eb. apply Forall_cons in HB as [_ HB]. destruct HsB as [HsB _]. cbn [tail] in HsB. rewrite <- Eb in HsB.
    destruct (advB_spec LB' v1 HB HsB) as (v2 & E2 & S2 & F2 & R2 & N2).
    destruct (IH LA LB' v2 HA HB ltac:(by rewrite R2, Ea) (conj S2 F2) ltac:(cbn in Hf; lia)) as (v3 & E3 & FA & FB & N3).
    exists v3. unfold mbind at 1, M_bind at 1. rewrite E2. split; [exact E3|]. by rewrite N3, N2. }
  destruct LA as [|ra LA], LB as [|rb LB]; cbn [compare_loop head fmap option_fmap option_map map diffs] in *.
  - exists v. destruct HsA as [_ FA], HsB as [_ FB]. split_and!; [done|by apply FA|by apply FB|]. by destruct (vs v); cbn; unfold counted, add_counts; cbn; rewrite !Z.add_0_r.
  - unfold mbind at 1, M_bind at 1, upd_vs at 1, modify at 1. cbv beta iota.
    match goal with |- context [mkVerifier ?a ?b ?c] => destruct (goB rb LB (mkVerifier a b c) eq_refl eq_refl eq_refl) as (v' & E & FA & FB & N) end.
    exists v'. split; [exact E|]. split_and!; [done|done|]. rewrite N. unfold counted, add_counts. cbn. f_equal; lia.
  - unfold mbind at 1, M_bind at 1, upd_vs at 1, modify at 1. cbv beta iota. unfold kv_of at 1. cbv beta iota.
    match goal with |- context [mkVerifier ?a ?b ?c] => destruct (goA ra LA (mkVerifier a b c) eq_refl eq_refl eq_refl) as (v' & E & FA & FB & N) end.
    exists v'. split; [exact E|]. split_and!; [done|done|]. rewrite N. unfold counted, add_counts. cbn. f_equal; lia.
  - unfold kv_of at 1 2. cbv iota. change (kv_of ra).1 with (rkey ra). change (kv_of rb).1 with (rkey rb).
    destruct (bytesCompare (rkey ra) (rkey rb) <? 0); [|destruct (0 <? bytesCompare (rkey ra) (rkey rb))].
    + unfold mbind at 1, M_bind at 1, upd_vs at 1, modify at 1. cbv beta iota.
      match goal with |- context [mkVerifier ?a ?b ?c] => destruct (goA ra LA (mkVerifier a b c) eq_refl eq_refl eq_refl) as (v' & E & FA & FB & N) end.
      exists v'. split; [exact E|]. split_and!; [done|done|]. rewrite N. unfold counted, add_counts. cbn. f_equal; lia.
    + unfold mbind at 1, M_bind at 1, upd_vs at 1, modify at 1. cbv beta iota.
      match goal with |- context [mkVerifier ?a ?b ?c] => destruct (goB rb LB (mkVerifier a b c) eq_refl eq_refl eq_refl) as (v' & E & FA & FB & N) end.
      exists v'. split; [exact E|]. split_and!; [done|done|]. rewrite N. unfold counted, add_counts. cbn. f_equal; lia.
    + change (kv_of ra).2 with (rvalue ra). change (kv_of rb).2 with (rvalue rb).
      assert (Hv : exists v1, (if bytesEqual (rvalue ra) (rvalue rb) then mret tt else upd_vs value_diff) v = (Ret tt, v1) /\ rA v1 = rA v /\ rB v1 = rB v /\
        counted (vs v1) = add_counts (counted (vs v)) (if bytesEqual (rvalue ra) (rvalue rb) then no_counts else mkCounts 0 0 1)).
      { destruct (bytesEqual _ _); eexists; (split; [reflexivity|]); split_and!; try done; unfold counted, add_counts; cbn; f_equal; lia. }
      destruct Hv as (v1 & E1 & Ea & Eb & N1). unfold mbind at 1, M_bind at 1. rewrite E1.
      apply Forall_cons in HA as [_ HA]. apply Forall_cons in HB as [_ HB]. destruct HsA as [HsA _], HsB as [HsB _]. cbn [tail] in HsA, HsB.
      destruct (advA_spec LA v1 HA ltac:(by rewrite Ea)) as (v2 & E2 & SA & FA & RB & N2). unfold mbind at 1, M_bind at 1. rewrite E2.
      destruct (advB_spec LB v2 HB ltac:(by rewrite RB, Eb)) as (v3 & E3 & SB & FB & RA & N3). unfold mbind at 1, M_bind at 1. rewrite E3.
      destruct (IH LA LB v3 HA HB ltac:(by rewrite RA) (conj SB FB) ltac:(cbn in Hf; lia)) as (v4 & E4 & F1 & F2 & N4).
      exists v4. split; [exact E4|]. split_and!; [done|done|]. by rewrite N4, N3, N2, N1, add_counts_assoc.
Qed.
End Comparing.

Section VerifyStores.
Context (restA restB : list (Z * bytes)).
Context (HokA : Forall env_ok restA) (HokB : Forall env_ok restB) (HxA : exts_ahead restA) (HxB : exts_ahead restB).

(** A store, whichever sides have it: its stats tell whether its leaves are the same. *)
Lemma compare_turn (inA inB : bool) n recsA recsB SA' SB' v : n <> [] ->
  Forall store_ok SA' -> Forall store_ok SB' -> Forall fields_ok recsA -> Forall fields_ok recsB ->
  side n inA (stores_items SA' ++ restA) (rA v) (leaves recsA) (rA v) -> side n inB (stores_items SB' ++ restB) (rB v) (leaves recsB) (rB v) ->
  (inA = false -> before SA' restA (rA v)) -> (inB = false -> before SB' restB (rB v)) ->
  exists v' s, compareStore n inA inB v = (Ret s, v') /\ counts_pos (counted s) /\
    (counted s = no_counts <-> leaf_kvs (n, recsA) = leaf_kvs (n, recsB)) /\ before SA' restA (rA v') /\ before SB' restB (rB v').
Proof using HokA HokB HxA HxB.
  intros Hn HSA HSB HrA HrB HsA HsB HnA HnB.
  pose proof (stores_env _ _ HSA HokA) as EA. pose proof (stores_env _ _ HSB HokB) as EB.
  pose proof (over_ahead SA' restA HxA) as OA. pose proof (over_ahead SB' restB HxB) as OB.
  pose proof (leaves_ok _ HrA) as LA. pose proof (leaves_ok _ HrB) as LB.
  assert (Hle : forall (has : bool) rest s L, side n has rest s L s -> (length L <= items_left s)%nat).
  { intros [] rest s L Hs; [pose proof (inside_fuel _ _ _ _ Hs); lia|]. destruct Hs as [-> _]. cbn. lia. }
  assert (Hfuel : (length (leaves recsA) + length (leaves recsB) < items_of v)%nat).
  { unfold items_of. pose proof (Hle _ _ _ _ HsA). pose proof (Hle _ _ _ _ HsB). lia. }
  unfold compareStore. unfold mbind at 1, M_bind at 1, get at 1. unfold mbind at 1, M_bind at 1, upd_vs at 1, modify at 1.
  match goal with |- context [mkVerifier ?a ?b ?c] => set (v0 := mkVerifier a b c) end.
  destruct (advA_spec n Hn inA (stores_items SA' ++ restA) (rA v) EA OA (leaves recsA) v0 LA HsA) as (v1 & E1 & S1 & F1 & R1 & N1).
  unfold mbind at 1, M_bind at 1. rewrite E1.
  destruct (advB_spec n Hn inB (stores_items SB' ++ restB) (rB v) EB OB (leaves recsB) v1 LB ltac:(by rewrite R1)) as (v2 & E2 & S2 & F2 & R2 & N2).
  unfold mbind at 1, M_bind at 1. rewrite E2. rewrite <- R2 in S1, F1.
  destruct (compare_loop_spec n Hn inA inB (stores_items SA' ++ restA) (stores_items SB' ++ restB) (rA v) (rB v) EA EB OA OB (items_of v)
    (leaves recsA) (leaves recsB) v2 LA LB (conj S1 F1) (conj S2 F2) Hfuel) as (v3 & E3 & FA & FB & N3).
  unfold mbind at 1, M_bind at 1. rewrite E3. exists v3, (vs v3). split; [reflexivity|].
  rewrite N2, N1 in N3. change (counted (vs v0)) with no_counts in N3. rewrite add_no_counts in N3. rewrite N3.
  split; [apply diffs_pos|]. split; [unfold leaf_kvs; apply diffs_zero; by rewrite !length_map|]. split.
  - destruct inA; [by eapply finished_before|]. rewrite FA. by apply HnA.
  - destruct inB; [by eapply finished_before|]. rewrite FB. by apply HnB.
Qed.

(** The totals. *)
Definition total (r : VerifyResult) : counts := mkCounts (v_ExtraInA r) (v_ExtraInB r) (v_ValueDiffs r).

Lemma total_add n s r : total (add_store n s r) = add_counts (total r) (counted s).
Proof using Type. done. Qed.

Lemma same_left_iff n recs SA SB : ahead n SB -> same_leaves ((n, recs) :: SA) SB <-> leaf_kvs (n, recs) = [] /\ same_leaves SA SB.
Proof using Type.
  intros Ha. split; [|by intros []; constructor]. intros H. inversion H as [|? ? ? ? Hk Ha' Hs|m recs' ? SB' Hk Ha' Hs|? ? recsB ? SB' Hk Hs]; subst.
  - done.
  - cbn in Ha, Ha'. pose proof (bytes_ltb_trans _ _ _ Ha Ha') as C. by rewrite bytes_ltb_irrefl in C.
  - cbn in Ha. by rewrite bytes_ltb_irrefl in Ha.
Qed.

Lemma same_right_iff n recs SA SB : ahead n SA -> same_leaves SA ((n, recs) :: SB) <-> leaf_kvs (n, recs) = [] /\ same_leaves SA SB.
Proof using Type.
  intros Ha. split; [|by intros []; constructor]. intros H. inversion H as [|m recs' SA' ? Hk Ha' Hs|? ? ? ? Hk Ha' Hs|? recsA ? SA' ? Hk Hs]; subst.
  - cbn in Ha, Ha'. pose proof (bytes_ltb_trans _ _ _ Ha Ha') as C. by rewrite bytes_ltb_irrefl in C.
  - done.
  - cbn in Ha. by rewrite bytes_ltb_irrefl in Ha.
Qed.

Lemma same_both_iff n recsA recsB SA SB :
  same_leaves ((n, recsA) :: SA) ((n, recsB) :: SB) <-> leaf_kvs (n, recsA) = leaf_kvs (n, recsB) /\ same_leaves SA SB.
Proof using Type.
  split; [|by intros []; constructor]. intros H. inversion H as [|? ? ? ? Hk Ha' Hs|? ? ? ? Hk Ha' Hs|? ? ? ? ? Hk Hs]; subst; [..|done].
  - cbn in Ha'. by rewrite bytes_ltb_irrefl in Ha'.
  - cbn in Ha'. by rewrite bytes_ltb_irrefl in Ha'.
Qed.

(** What the loop reaches: totals that grow by nothing exactly when the leaves agree. *)
Definition verified (SA SB : list store) (res : VerifyResult) (x : outcome VerifyResult * verifier) : Prop :=
  exists v' res' c, x = (Ret res', v') /\ total res' = add_counts (total res) c /\ counts_pos c /\ (c = no_counts <-> same_leaves SA SB) /\
    (exists cA, rA v' = at0 [] cA restA) /\ (exists cB, rB v' = at0 [] cB restB).

Lemma verified_store n s SA SB SA' SB' res x (P : Prop) : verified SA' SB' (add_store n s res) x -> counts_pos (counted s) ->
  (counted s = no_counts <-> P) -> (same_leaves SA SB <-> P /\ same_leaves SA' SB') -> verified SA SB res x.
Proof using Type.
  intros (v' & res' & c & E & Ht & Hp & Hz & R) Hps Hzs Hiff. exists v', res', (add_counts (counted s) c). split; [done|].
  split; [by rewrite Ht, total_add, add_counts_assoc|]. split; [by apply add_counts_pos|]. split; [|done].
  rewrite add_counts_zero by done. by rewrite Hzs, Hz, Hiff.
Qed.

Lemma verify_stores_spec fuel : forall SA SB res v, Forall store_ok SA -> Forall store_ok SB ->
  before SA restA (rA v) -> before SB restB (rB v) -> (length SA + length SB < fuel)%nat -> verified SA SB res (verify_stores fuel res v).
Proof using HokA HokB HxA HxB.
  induction fuel as [|fuel IH]; intros SA SB res v OA OB HbA HbB Hf; [lia|].
  pose proof (peekStore_before _ restA _ OA HokA HxA HbA) as PA. pose proof (peekStore_before _ restB _ OB HokB HxB HbB) as PB.
  cbn [verify_stores]. unfold mbind at 1, M_bind at 1, in_A at 1, zoom at 1.
  destruct SA as [|[n recsA] SA], SB as [|[m recsB] SB]; destruct PA as (cA & ->); unfold mbind at 1, M_bind at 1, in_B at 1, zoom at 1; cbn [rB];
    destruct PB as (cB & ->); cbn [andb];
    (match goal with |- context [mkVerifier ?a ?b ?c] => set (v1 := mkVerifier a b c) end).
  - eexists _, res, no_counts. split; [reflexivity|]. split; [by destruct (total res); unfold add_counts; cbn; rewrite !Z.add_0_r|]. split; [done|].
    split; [split; [constructor|done]|]. split; [by exists cA|by exists cB].
  - pose proof OB as [(Hn & _ & Hrec & _) OB']%Forall_cons. cbn [fst snd] in *.
    destruct (compare_turn false true m [] recsB [] SB v1 Hn OA OB' ltac:(constructor) Hrec) as (v2 & s & E2 & D1 & D2 & B1 & B2).
    { by split. }
    { by apply entered_inside. }
    { intros _. left. by exists cA. }
    { done. }
    unfold mbind at 1, M_bind at 1. rewrite E2. eapply verified_store; [apply (IH [] SB); (done || cbn in *; lia)|done|exact D2|].
    rewrite same_right_iff by done. by split; intros [Hk ?]; split.
  - pose proof OA as [(Hn & _ & Hrec & _) OA']%Forall_cons. cbn [fst snd] in *.
    destruct (compare_turn true false n recsA [] SA [] v1 Hn OA' OB Hrec ltac:(constructor)) as (v2 & s & E2 & D1 & D2 & B1 & B2).
    { by apply entered_inside. }
    { by split. }
    { done. }
    { intros _. left. by exists cB. }
    unfold mbind at 1, M_bind at 1. rewrite E2. eapply verified_store; [apply (IH SA []); (done || cbn in *; lia)|done|exact D2|]. by rewrite same_left_iff.
  - pose proof OA as [(HnA & _ & HrecA & _) OA']%Forall_cons. pose proof OB as [(HnB & _ & HrecB & _) OB']%Forall_cons. cbn [fst snd] in *.
    unfold bytesEqual at 1. destruct (bool_decide_reflect (n = m)) as [<-|Hne]; [|destruct (bytes_ltb n m) eqn:L1].
    + destruct (compare_turn true true n recsA recsB SA SB v1 HnA OA' OB' HrecA HrecB) as (v2 & s & E2 & D1 & D2 & B1 & B2).
      { by apply entered_inside. }
      { by apply entered_inside. }
      { done. }
      { done. }
      unfold mbind at 1, M_bind at 1. rewrite E2. eapply verified_store; [apply (IH SA SB); (done || cbn in *; lia)|done|exact D2|]. by rewrite same_both_iff.
    + destruct (compare_turn true false n recsA [] SA ((m, recsB) :: SB) v1 HnA OA' OB HrecA ltac:(constructor)) as (v2 & s & E2 & D1 & D2 & B1 & B2).
      { by apply entered_inside. }
      { by split. }
      { done. }
      { intros _. apply entered_before. }
      unfold mbind at 1, M_bind at 1. rewrite E2. eapply verified_store; [apply (IH SA ((m, recsB) :: SB)); (done || cbn in *; lia)|done|exact D2|]. by rewrite same_left_iff.
    + assert (L2 : bytes_ltb m n = true) by (destruct (bytes_ltb_total n m) as [|[]]; congruence).
      destruct (compare_turn false true m [] recsB ((n, recsA) :: SA) SB v1 HnB OA OB' ltac:(constructor) HrecB) as (v2 & s & E2 & D1 & D2 & B1 & B2).
      { by split. }
      { by apply entered_inside. }
      { intros _. apply entered_before. }
      { done. }
      unfold mbind at 1, M_bind at 1. rewrite E2. eapply verified_store; [apply (IH ((n, recsA) :: SA) SB); (done || cbn in *; lia)|done|exact D2|].
      rewrite same_right_iff by done. by split; intros [Hk ?]; split.
Qed.
End VerifyStores.

(** ** Whole snapshots *)

Record snapshot := mkSnap { sn_stores : list store; sn_exts : list ext }.

Definition snap_items (s : snapshot) : list (Z * bytes) := stores_items (sn_stores s) ++ exts_items (sn_exts s).
Definition stream (s : snapshot) : bytes := frames (map env (snap_items s)).

(** What can be read back: items that fit, no extension twice. *)
Definition readable (s : snapshot) : Prop :=
  Forall store_ok (sn_stores s) /\ Forall ext_wf (sn_exts s) /\ NoDup (map ext_name (sn_exts s)).

(** What the diff is for: stores by name, the leaves of each by key. *)
Definition snap_wf (s : snapshot) : Prop :=
  Forall store_wf (sn_stores s) /\ by_name (sn_stores s) /\ Forall ext_wf (sn_exts s) /\ NoDup (map ext_name (sn_exts s)).

Definition has_leaf (s : snapshot) (n k v : bytes) : Prop := exists recs, (n, recs) ∈ sn_stores s /\ (k, v) ∈ leaf_kvs (n, recs).
Definition has_payload (s : snapshot) (n p : bytes) : Prop := exists f ps, (n, f, ps) ∈ sn_exts s /\ p ∈ ps.

(** The same payloads for every extension, as far as sha256 tells. *)
Definition same_payloads (a b : snapshot) : Prop := forall n h,
  (exists p, has_payload a n p /\ sha256 p = h) <-> (exists p, has_payload b n p /\ sha256 p = h).

(** The same leaves in the same stores in the same order, and the same sets of
    payloads; for snapshots in order, the same sets of leaves. *)
Definition same_content (a b : snapshot) : Prop := same_leaves (sn_stores a) (sn_stores b) /\ same_payloads a b.
Definition same_sets (a b : snapshot) : Prop := (forall n k v, has_leaf a n k v <-> has_leaf b n k v) /\ same_payloads a b.

Lemma hash_set_payload s n h : readable s -> h ∈ hash_set (ext_map (sn_exts s) !! n) <-> exists p, has_payload s n p /\ sha256 p = h.
Proof.
  intros (_ & _ & Hnd). rewrite hash_set_hashes, hashes_elem. split.
  - intros (p & Hp & <-). exists p. split; [|done]. destruct (ext_map (sn_exts s) !! n) as [d|] eqn:Ed; [|by apply not_elem_of_nil in Hp].
    apply ext_map_lookup in Ed as ([[n' f] ps] & Hx & <- & ->); [|done]. by exists f, ps.
  - intros (p & (f & ps & Hx & Hp) & <-). exists p. split; [|done].
    assert (E : ext_map (sn_exts s) !! n = Some (mkExtData f ps)) by (apply ext_map_lookup; [done|]; by exists (n, f, ps)).
    by rewrite E.
Qed.

Lemma same_hash_sets a b : readable a -> readable b ->
  (forall n, hash_set (ext_map (sn_exts a) !! n) = hash_set (ext_map (sn_exts b) !! n)) <-> same_payloads a b.
Proof.
  intros Ha Hb. unfold same_payloads. setoid_rewrite set_eq. by setoid_rewrite hash_set_payload.
Qed.

(** *** Leaves as sets *)

Definition leaf_in (S : list store) (n k v : bytes) : Prop := exists recs, (n, recs) ∈ S /\ (k, v) ∈ leaf_kvs (n, recs).

Lemma leaf_in_cons s S n k v : leaf_in (s :: S) n k v <-> (s.1 = n /\ (k, v) ∈ leaf_kvs s) \/ leaf_in S n k v.
Proof.
  unfold leaf_in. split.
  - intros (recs & [<-|Hr]%elem_of_cons & Hl); [by left|right; eauto].
  - intros [[<- Hl]|(recs & Hr & Hl)]; [|exists recs; split; [by right|done]]. exists s.2. destruct s. split; [by left|done].
Qed.

Lemma leaf_in_ahead n S k v : by_name S -> ahead n S -> ~ leaf_in S n k v.
Proof.
  intros Hs Ha (recs & Hr & _). destruct S as [|s S]; [by apply not_elem_of_nil in Hr|].
  assert (Hlt : bytes_ltb n n = true); [|by rewrite bytes_ltb_irrefl in Hlt].
  apply elem_of_cons in Hr as [<-|Hr]; [done|]. apply StronglySorted_inv in Hs as [_ Hall]. rewrite Forall_forall in Hall.
  exact (bytes_ltb_trans _ _ _ Ha (Hall _ Hr)).
Qed.

Lemma no_leaves n recs : (forall k v, (k, v) ∉ leaf_kvs (n, recs)) -> leaf_kvs (n, recs) = [].
Proof. intros H. destruct (leaf_kvs (n, recs)) as [|[k v] l]; [done|]. destruct (H k v). by left. Qed.

Lemma same_leaves_in SA SB : same_leaves SA SB -> forall n k v, leaf_in SA n k v <-> leaf_in SB n k v.
Proof.
  induction 1 as [|n recs SA SB E _ _ IH|n recs SA SB E _ _ IH|n recsA recsB SA SB E _ IH]; intros x k v; [done|..];
    rewrite !leaf_in_cons, ?IH, E; [| |done]; split; try tauto; intros [[_ []%not_elem_of_nil]|?]; done.
Qed.

Lemma in_same_leaves m : forall SA SB, (length SA + length SB < m)%nat -> by_name SA -> by_name SB ->
  Forall (fun s => by_key (leaf_kvs s)) SA -> Forall (fun s => by_key (leaf_kvs s)) SB ->
  (forall n k v, leaf_in SA n k v <-> leaf_in SB n k v) -> same_leaves SA SB.
Proof.
  induction m as [|m IH]; intros SA SB Hm HA HB KA KB Heq; [lia|].
  assert (Hdrop : forall n recs S S', by_name ((n, recs) :: S) -> ahead n S' -> by_name S' ->
    (forall x k v, leaf_in ((n, recs) :: S) x k v <-> leaf_in S' x k v) ->
    leaf_kvs (n, recs) = [] /\ forall x k v, leaf_in S x k v <-> leaf_in S' x k v).
  { intros n recs S S' HS Ha HS' He. assert (E : leaf_kvs (n, recs) = []).
    { apply no_leaves. intros k v Hl. apply (leaf_in_ahead n S' k v HS' Ha), He, leaf_in_cons. by left. }
    split; [done|]. intros x k v. rewrite <- He, leaf_in_cons, E. split; [tauto|]. intros [[_ []%not_elem_of_nil]|?]; done. }
  destruct SA as [|[a ra] SA], SB as [|[b rb] SB]; cbn [length] in Hm.
  - constructor.
  - destruct (Hdrop b rb SB [] HB I (SSorted_nil _)) as [E Ht]; [by intros; symmetry|].
    constructor; [done|done|]. apply IH; [cbn; lia|done|by eapply by_name_tail|done|by inversion KB|]. intros. by rewrite Ht.
  - destruct (Hdrop a ra SA [] HA I (SSorted_nil _)) as [E Ht]; [done|].
    constructor; [done|done|]. apply IH; [cbn; lia|by eapply by_name_tail|done|by inversion KA|done|done].
  - destruct (bytes_ltb_total a b) as [Hlt|[->|Hlt]].
    + destruct (Hdrop a ra SA ((b, rb) :: SB) HA Hlt HB Heq) as [E Ht].
      constructor; [done|done|]. apply IH; [cbn; lia|by eapply by_name_tail|done|by inversion KA|done|done].
    + pose proof (by_name_ahead _ _ HA) as Aa. pose proof (by_name_ahead _ _ HB) as Ab. cbn [fst] in *.
      pose proof (by_name_tail _ _ HA) as TA. pose proof (by_name_tail _ _ HB) as TB.
      apply Forall_cons in KA as [KA KA']. apply Forall_cons in KB as [KB KB'].
      apply same_both.
      * apply by_key_ext; [done|done|]. intros [k v]. specialize (Heq b k v). rewrite !leaf_in_cons in Heq. cbn [fst] in Heq.
        pose proof (leaf_in_ahead b SA k v TA Aa). pose proof (leaf_in_ahead b SB k v TB Ab). tauto.
      * apply IH; [lia|done..|]. intros x k v. specialize (Heq x k v). rewrite !leaf_in_cons in Heq. cbn [fst] in Heq.
        destruct (decide (x = b)) as [->|Hne].
        -- pose proof (leaf_in_ahead b SA k v TA Aa). pose proof (leaf_in_ahead b SB k v TB Ab). tauto.
        -- split; intros H; destruct Heq as [H1 H2]; [destruct H1 as [[? _]|?]|destruct H2 as [[? _]|?]]; auto; congruence.
    + destruct (Hdrop b rb SB ((a, ra) :: SA) HB Hlt HA) as [E Ht]; [by intros; symmetry|].
      apply same_right; [done|done|]. apply IH; [cbn; lia|done|by eapply by_name_tail|done|by inversion KB|]. intros. by rewrite Ht.
Qed.

Lemma same_content_sets a b : snap_wf a -> snap_wf b -> same_content a b <-> same_sets a b.
Proof.
  intros (Wa & Na & _) (Wb & Nb & _).
  assert (Hk : forall S, Forall store_wf S -> Forall (fun s => by_key (leaf_kvs s)) S)
    by (intros S HS; eapply Forall_impl; [exact HS|]; intros s (_ & _ & ? & _); done).
  unfold same_content, same_sets. split; intros [H1 H2]; (split; [|exact H2]).
  - exact (same_leaves_in _ _ H1).
  - eapply in_same_leaves; [apply Nat.lt_succ_diag_r|done|done|by apply Hk|by apply Hk|exact H1].
Qed.

Lemma wf_readable s : snap_wf s -> readable s.
Proof. intros (H1 & _ & H2 & H3). split_and!; [by apply store_wf_ok|done|done]. Qed.

Definition opened (s : snapshot) : storeReader := at0 [] false (snap_items s).

Lemma newStoreReader_opened `{Zlib} d s : newSnapItemReader d = Ret (Source (stream s) EOF) -> newStoreReader d = Ret (opened s).
Proof. intros E. unfold newStoreReader. by rewrite E. Qed.

Lemma opened_before s : before (sn_stores s) (exts_items (sn_exts s)) (opened s).
Proof. left. by exists false. Qed.

Lemma length_stores_items (S : list store) : (length S <= length (stores_items S))%nat.
Proof. induction S as [|s S IH]; [done|]. unfold stores_items in *. cbn [mbind list_bind]. rewrite length_app.
  assert (H : (1 <= length (store_items s))%nat) by (unfold store_items; cbn [length]; lia). cbn [length]. lia.
Qed.

Lemma stores_fuel s : (length (sn_stores s) < items_left (opened s))%nat.
Proof.
  assert (H : (length (snap_items s) < items_left (opened s))%nat) by apply items_left_at. unfold snap_items in H. rewrite length_app in H.
  pose proof (length_stores_items (sn_stores s)). lia.
Qed.

Lemma exts_readable s : readable s -> Forall env_ok (exts_items (sn_exts s)) /\ Forall ext_ok (sn_exts s).
Proof. intros (_ & H & _). split; [by apply exts_items_ok|]. eapply Forall_impl; [exact H|]. apply ext_wf_ok. Qed.

Lemma read_all_exts s c : readable s -> exists s', readAllExtensions (at0 [] c (exts_items (sn_exts s))) = (Ret (ext_map (sn_exts s)), s').
Proof.
  intros Hs. destruct (exts_readable s Hs) as [He Hx]. destruct Hs as (_ & _ & Hnd).
  destruct (readAllExtensions_at (sn_exts s) c [] 0 He Hx Hnd) as (n & f & E). eexists. exact E.
Qed.

Lemma computeStream_spec visit B T st ss : (forall n b l, visit n b l ≡ₚ l) -> snap_wf B -> snap_wf T ->
  exists d secs xs, computeStream visit (mkDiffer (opened B) (opened T) [] st ss) = (Ret tt, d) /\
    d_out d = map env (diff_items (xsections_items xs) secs) /\ sections (sn_stores B) (sn_stores T) secs /\
    map xs_name xs = sorted_names (ext_map (sn_exts B)) (ext_map (sn_exts T)) /\
    Forall (section_says (ext_map (sn_exts B)) (ext_map (sn_exts T))) xs.
Proof.
  intros Hv HB HT. pose proof (wf_readable B HB) as RB. pose proof (wf_readable T HT) as RT.
  destruct (exts_readable B RB) as [EB _]. destruct (exts_readable T RT) as [ET _].
  unfold computeStream. unfold mbind at 1, M_bind at 1, get. pose proof (stores_fuel B). pose proof (stores_fuel T).
  destruct (stores_loop_spec (exts_items (sn_exts B)) (exts_items (sn_exts T)) EB ET (exts_items_ahead _) (exts_items_ahead _)
    (leaves_left (mkDiffer (opened B) (opened T) [] st ss)) (sn_stores B) (sn_stores T) (mkDiffer (opened B) (opened T) [] st ss)
    (proj1 RB) (proj1 RT) (opened_before B) (opened_before T) ltac:(unfold leaves_left; cbn [baseRdr targetRdr]; lia))
    as (d1 & secs & cB & cT & E1 & Ho1 & Hsec & Hb1 & Ht1).
  unfold mbind at 1, M_bind at 1. rewrite E1. unfold diffExtensions.
  destruct (read_all_exts B cB RB) as (b' & XB). destruct (read_all_exts T cT RT) as (t' & XT).
  unfold mbind at 1, M_bind at 1, in_base at 1, zoom at 1. rewrite Hb1, XB. unfold mbind at 1, M_bind at 1, in_target at 1, zoom at 1. cbn [targetRdr]. rewrite Ht1, XT.
  match goal with |- context [each (diff_ext visit ?be ?te) ?ns ?x] =>
    destruct (diff_exts_spec visit Hv be te ns x) as (d2 & xs & E2 & Hns & Hsays & _ & _ & Ho2) end.
  rewrite E2. exists d2, secs, xs. split; [done|]. split_and!; try done. rewrite Ho2. cbn [d_out]. rewrite Ho1. cbn [d_out app].
  unfold diff_items, xsections_items. rewrite map_app. f_equal. clear. induction secs as [|x secs IH]; [done|].
  cbn [mbind list_bind]. rewrite map_app. f_equal; [apply section_records_env|exact IH].
Qed.

Lemma length_secs restD secs : (length secs <= length (diff_items restD secs))%nat.
Proof.
  induction secs as [|[n ev] secs IH]; [cbn; lia|]. rewrite diff_items_cons. cbn [length]. rewrite length_app. cbn [length]. lia.
Qed.

Lemma applyStream_spec B T secs xs st : snap_wf B -> snap_wf T -> sections (sn_stores B) (sn_stores T) secs ->
  map xs_name xs = sorted_names (ext_map (sn_exts B)) (ext_map (sn_exts T)) ->
  Forall (section_says (ext_map (sn_exts B)) (ext_map (sn_exts T))) xs ->
  exists a O, applyStream (mkApplier (opened B) (at_recs false (diff_items (xsections_items xs) secs)) [] st) = (Ret tt, a) /\
    a_out a = map env (snap_items O) /\ readable O /\ same_content O T.
Proof.
  intros HB HT Hsec Hns Hsays. pose proof (wf_readable B HB) as RB. pose proof (wf_readable T HT) as RT. destruct (exts_readable B RB) as [EB _].
  destruct HB as (WB & NB & XB & DB). destruct HT as (WT & NT & XT & DT).
  pose proof (xs_fit (sn_exts B) (sn_exts T) XB XT DB DT xs Hns Hsays) as Hfit.
  unfold applyStream. unfold mbind at 1, M_bind at 1, get at 1. cbn [a_base a_diff].
  pose proof (records_left_at false (diff_items (xsections_items xs) secs)). pose proof (length_secs (xsections_items xs) secs).
  destruct (apply_stores_spec (exts_items (sn_exts B)) EB (exts_items_ahead _) (xsections_items xs) (xsections_ok xs Hfit) (xsections_ahead xs Hfit)
    _ _ _ Hsec WB WT NB NT (items_left (opened B) + records_left (at_recs false (diff_items (xsections_items xs) secs)))
    (mkApplier (opened B) (at_recs false (diff_items (xsections_items xs) secs)) [] st) false (opened_before B) eq_refl ltac:(lia))
    as (a1 & OS & E1 & Hsame & Hok & _ & (cB & Hb1) & Hd1 & Ho1).
  unfold mbind at 1, M_bind at 1. rewrite E1. destruct (read_all_exts B cB RB) as (b' & YB).
  unfold mbind at 1, M_bind at 1, in_snap at 1, zoom at 1. rewrite Hb1, YB. unfold mbind at 1, M_bind at 1, get at 1. cbn [a_diff].
  unfold mbind at 1, M_bind at 1, in_diff at 1, zoom at 1. cbn [a_diff]. rewrite Hd1.
  pose proof (records_left_at true (xsections_items xs)) as Hl.
  assert (Hxl : (length xs <= length (xsections_items xs))%nat).
  { clear. induction xs as [|x xs IH]; [done|]. unfold xsections_items in *. cbn [mbind list_bind]. rewrite length_app.
    assert (H : (1 <= length (xsection_items x))%nat) by (unfold xsection_items; cbn [length]; lia). cbn [length]. lia. }
  rewrite (ext_sections_spec xs Hfit) by lia. change (fold_left _ xs ∅) with (changes_map xs).
  assert (Hall : merge_sort bytes_le (elements (dom (ext_map (sn_exts B)) ∪ dom (changes_map xs) : gset bytes)) = sorted_names (ext_map (sn_exts B)) (ext_map (sn_exts T))).
  { unfold sorted_names. do 2 f_equal. rewrite changes_map_dom, Hns. apply set_eq. intros n. rewrite !elem_of_union, elem_of_list_to_set, sorted_names_elem. naive_solver. }
  rewrite Hall. match goal with |- context [each (apply_ext ?be ?pe) ?ns ?x] => destruct (apply_exts_spec be pe ns x) as (a2 & E2 & _ & _ & Ho2) end.
  rewrite E2. exists a2, (mkSnap OS (exts_out (sn_exts B) (sn_exts T) xs)). split; [done|]. split.
  - rewrite Ho2. cbn [a_out]. rewrite Ho1. unfold snap_items. cbn [sn_stores sn_exts a_out app]. by rewrite map_app.
  - assert (RO : readable (mkSnap OS (exts_out (sn_exts B) (sn_exts T) xs)))
      by (split_and!; cbn [sn_stores sn_exts]; [done|by apply exts_out_wf|apply exts_out_NoDup]).
    split; [exact RO|]. split; cbn [sn_stores sn_exts]; [done|]. apply same_hash_sets; [done|done|]. intros n. by apply exts_out_hashes.
Qed.

(** No difference of any kind in a result. *)
Definition no_difference (res : VerifyResult) : Prop :=
  v_ExtraInA res = 0 /\ v_ExtraInB res = 0 /\ v_ValueDiffs res = 0 /\ ExtensionDiff res = 0.

Lemma verifyStream_spec A B s : readable A -> readable B ->
  exists res v', verifyStream (mkVerifier (opened A) (opened B) s) = (Ret res, v') /\ (no_difference res <-> same_content A B).
Proof.
  intros HA HB. destruct (exts_readable A HA) as [EA _]. destruct (exts_readable B HB) as [EB _].
  unfold verifyStream. unfold mbind at 1, M_bind at 1, get at 1. pose proof (stores_fuel A). pose proof (stores_fuel B).
  destruct (verify_stores_spec (exts_items (sn_exts A)) (exts_items (sn_exts B)) EA EB (exts_items_ahead _) (exts_items_ahead _)
    (items_of (mkVerifier (opened A) (opened B) s)) (sn_stores A) (sn_stores B) (mkVResult 0 0 0 0 0 0 ∅) (mkVerifier (opened A) (opened B) s) (proj1 HA) (proj1 HB)
    (opened_before A) (opened_before B) ltac:(unfold items_of; cbn [rA rB]; lia)) as (v1 & res & c & E1 & Ht & _ & Hz & (cA & RA) & (cB & RB)).
  unfold mbind at 1, M_bind at 1. rewrite E1. destruct (read_all_exts A cA HA) as (a' & XA). destruct (read_all_exts B cB HB) as (b' & XB).
  unfold mbind at 1, M_bind at 1, in_A at 1, zoom at 1. rewrite RA, XA. unfold mbind at 1, M_bind at 1, in_B at 1, zoom at 1. cbn [rB]. rewrite RB, XB.
  do 2 eexists. split; [reflexivity|]. unfold no_difference, same_content. cbn [v_ExtraInA v_ExtraInB v_ValueDiffs ExtensionDiff].
  rewrite compareExtensions_zero, same_hash_sets, <- Hz by done. change (total (mkVResult 0 0 0 0 0 0 ∅)) with no_counts in Ht. rewrite add_no_counts in Ht.
  rewrite <- Ht. unfold total, no_counts. split.
  - intros (-> & -> & -> & H'). done.
  - intros [[= -> -> ->] H']. done.
Qed.

(** ** Directories *)

Lemma cut_loop_bound size : 1 <= size -> forall fuel data, (len (cut_loop fuel size data) - 1) * size <= len data.
Proof.
  intros Hs. assert (Hnil : forall data : bytes, (len (@nil bytes) - 1) * size <= len data) by (intros data; pose proof (len_nonneg data); rewrite len_nil; nia).
  induction fuel as [|fuel IH]; intros data; cbn [cut_loop]; [apply Hnil|]. destruct data as [|x data]; [apply Hnil|].
  specialize (IH (drop (Z.to_nat size) (x :: data))). rewrite len_cons.
  set (rest := cut_loop fuel size (drop (Z.to_nat size) (x :: data))) in *. pose proof (len_nonneg rest).
  destruct (Z.le_gt_cases (len (x :: data)) size) as [Hle|Hgt].
  - assert (E : drop (Z.to_nat size) (x :: data) = []) by (apply drop_ge; unfold len in Hle; lia).
    assert (Er : rest = []) by (unfold rest; rewrite E; by destruct fuel). rewrite Er. pose proof (Hnil (x :: data)) as Hn. pose proof (len_nonneg (x :: data)). change (len (@nil bytes)) with 0 in *. lia.
  - assert (El : len (drop (Z.to_nat size) (x :: data)) = len (x :: data) - size) by (unfold len in *; rewrite length_drop; lia). nia.
Qed.

Lemma cut_bound data : len data < 2 ^ 55 -> len (cut (Z.shiftl 16 20) data) < 2 ^ 32.
Proof. intros H. pose proof (cut_loop_bound (Z.shiftl 16 20) ltac:(done) (length data) data) as Hb. change (Z.shiftl 16 20) with 16777216 in *. unfold cut. lia. Qed.

Section EndToEnd.
Context `{ZL : Zlib} `{MC : MetaCodec}.
Context (visit : bytes -> bool -> list bytes -> list bytes) (Hvisit : forall n b l, visit n b l ≡ₚ l).

Lemma stream_records l : Source (frames (map env l)) EOF = dr (at_recs false l).
Proof using Type. by destruct l. Qed.

(** The file that Compute writes, and what Apply makes of it. *)
Lemma compute_apply baseDir targetDir outDir h B T :
  newSnapItemReader baseDir = Ret (Source (stream B) EOF) -> newSnapItemReader targetDir = Ret (Source (stream T) EOF) ->
  snap_wf B -> snap_wf T -> header_ok h -> check_base baseDir (BaseHashHex h) = Ret tt ->
  exists diff st raw gz O st',
    Compute visit baseDir targetDir h = Ret (diff, st, raw, gz) /\ readable O /\ same_content O T /\
    let z := concat (deflate (stream O)) in
    let ps := cut (Z.shiftl 16 20) z in
    let meta := mkOutMeta (TargetHeight h) 3 (len ps) (computeSnapshotHash (map sha256 ps)) (len z) (hexHashes (map sha256 ps)) in
    Apply baseDir diff outDir = Ret (<[str "meta.json" := MarshalIndent meta None]> (put_chunks outDir 0 ps), st', len ps, len (stream O), len z).
Proof using Hvisit.
  intros Hb Ht HB HT Hh Hck. destruct (computeStream_spec visit B T (mkStats 0 0 0 0 0 0 0 ∅) noStats Hvisit HB HT) as (d & secs & xs & E1 & Ho & Hsec & Hns & Hsays).
  destruct (applyStream_spec B T secs xs (mkApplyStats 0 0 0 0) HB HT Hsec Hns Hsays) as (a & O & E2 & Hout & HO & Hsame).
  exists (WriteHeader h ++ concat (deflate (frames (d_out d)))), (stats d), (len (frames (d_out d))), (len (concat (deflate (frames (d_out d))))), O, (a_stats a).
  split.
  { unfold Compute. rewrite (newStoreReader_opened _ _ Hb), (newStoreReader_opened _ _ Ht). cbn [wrap_out mbind outcome_bind]. by rewrite E1. }
  split; [done|]. split; [done|]. cbv zeta.
  destruct (write_all_spec outDir (Z.shiftl 16 20) ltac:(done) (deflate (stream O))) as (c & E3 & Hdir & Hhs & Hidx & Htot).
  unfold Apply. rewrite ReadHeader_write by done. cbn [wrap_out mbind outcome_bind src_data]. rewrite Hck. cbn [mbind outcome_bind].
  rewrite inflate_deflate. cbn [wrap_out mbind outcome_bind]. rewrite (newStoreReader_opened _ _ Hb). cbn [wrap_out mbind outcome_bind].
  rewrite Ho, newDiffReader_at, E2. cbn [mbind outcome_bind]. rewrite Hout. fold (stream O).
  unfold write_chunks. unfold mbind at 1 2, outcome_bind at 1 2. rewrite E3. cbv iota beta. unfold write_meta, meta_of. by rewrite Hdir, Hhs, Hidx, Htot.
Qed.
End EndToEnd.

(** C24: A diff computed from two snapshots and applied to the first gives a snapshot
    equivalent to the second: Compute and Apply both succeed, the directory written
    reads back as a stream with the target's leaves (the same keys with the same
    values, store by store, in order) and the target's sets of extension payloads, and
    VerifyEquivalent finds no difference between it and the target.  This holds for
    whatever order Go visits its maps in, and for any two snapshots whose stores are
    in the order of their names with their leaves in the order of their keys. *)
Theorem diff_roundtrip `{ZL : Zlib} `{MC : MetaCodec} visit baseDir targetDir outDir h B T :
  (forall n b l, visit n b l ≡ₚ l) -> (forall data, concat (deflate data) <> []) ->
  newSnapItemReader baseDir = Ret (Source (stream B) EOF) -> newSnapItemReader targetDir = Ret (Source (stream T) EOF) ->
  snap_wf B -> snap_wf T -> header_ok h -> check_base baseDir (BaseHashHex h) = Ret tt -> no_chunks outDir ->
  exists diff st raw gz out st' chunks raw' written,
    Compute visit baseDir targetDir h = Ret (diff, st, raw, gz) /\
    Apply baseDir diff outDir = Ret (out, st', chunks, raw', written) /\
    (written < 2 ^ 55 -> exists O res,
      newSnapItemReader out = Ret (Source (stream O) EOF) /\ same_content O T /\
      VerifyEquivalent out targetDir = Ret res /\ no_difference res).
Proof.
  intros Hv Hne Hb Ht HB HT Hh Hck Hout.
  destruct (compute_apply visit Hv baseDir targetDir outDir h B T Hb Ht HB HT Hh Hck) as (diff & st & raw & gz & O & st' & E1 & HO & Hsame & E2).
  do 9 eexists. split; [exact E1|]. split; [exact E2|]. intros Hw.
  set (z := concat (deflate (stream O))) in *. pose proof (cut_bound z Hw) as Hn.
  assert (Hr : newSnapItemReader (<[str "meta.json" := MarshalIndent (mkOutMeta (TargetHeight h) 3 (len (cut (Z.shiftl 16 20) z))
      (computeSnapshotHash (map sha256 (cut (Z.shiftl 16 20) z))) (len z) (hexHashes (map sha256 (cut (Z.shiftl 16 20) z)))) None]>
      (put_chunks outDir 0 (cut (Z.shiftl 16 20) z))) = Ret (Source (stream O) EOF)).
  { apply (pieces_read _ (Z.shiftl 16 20)); [done| |apply Hne|done].
    apply holds_insert; [apply put_chunks_holds; [done|by apply Z.lt_le_incl]|by vm_compute|by apply Z.lt_le_incl]. }
  destruct (verifyStream_spec O T (mkVStats 0 0 0 0 0) HO (wf_readable T HT)) as (res & v' & E3 & D).
  exists O, res. split; [exact Hr|]. split; [done|]. split; [|by apply D].
  unfold VerifyEquivalent. rewrite (newStoreReader_opened _ _ Hr), (newStoreReader_opened _ _ Ht). cbn [wrap_out mbind outcome_bind]. by rewrite E3.
Qed.

(** C25: VerifyEquivalent decides equivalence.  On any two snapshots that can be read it
    returns a result, and that result counts no difference exactly when both stream the
    same leaves in the same order in the same stores (a store without leaves counts as
    absent) and every extension has the same set of payloads, as far as sha256 tells.
    When both have their stores in the order of the names and the leaves of each in
    that of the keys, as an export has them, the result counts no difference exactly
    when they have the same set of leaves, by store, key and value, and of payloads. *)
Theorem verify_decides `{ZL : Zlib} dirA dirB A B :
  newSnapItemReader dirA = Ret (Source (stream A) EOF) -> newSnapItemReader dirB = Ret (Source (stream B) EOF) -> readable A -> readable B ->
  exists res, VerifyEquivalent dirA dirB = Ret res /\ (no_difference res <-> same_content A B) /\
    (snap_wf A -> snap_wf B -> (no_difference res <-> same_sets A B)).
Proof.
  intros EA EB HA HB. destruct (verifyStream_spec A B (mkVStats 0 0 0 0 0) HA HB) as (res & v' & E & D). exists res.
  split; [|split; [exact D|intros WA WB; by rewrite D, same_content_sets]].
  unfold VerifyEquivalent. rewrite (newStoreReader_opened _ _ EA), (newStoreReader_opened _ _ EB). cbn [wrap_out mbind outcome_bind]. by rewrite E.
Qed.

(** ** Concrete instances *)

Definition sample_rec (k v : string) (version : Z) : list pfield := [PBytes 1 (str k); PBytes 2 (str v); PVarint 3 version].
Definition sample_inner (k : string) (version : Z) : list pfield := [PBytes 1 (str k); PVarint 3 version; PVarint 4 1].

Definition snap_one : snapshot := mkSnap
  [(str "acc", [sample_rec "a" "1" 5; sample_inner "b" 5; sample_rec "b" "2" 5; sample_rec "d" "2" 5]); (str "gov", [sample_rec "p" "x" 4])]
  [(str "wasm", 1, [str "one"; str "two"])].
Definition snap_two : snapshot := mkSnap
  [(str "acc", [sample_rec "b" "3" 7; sample_inner "c" 7; sample_rec "c" "4" 7; sample_rec "d" "2" 5]); (str "bank", [sample_rec "x" "9" 7])]
  [(str "wasm", 1, [str "two"; str "six"]); (str "ibc", 2, [str "one"])].

Ltac small_fields := split_and!; [repeat constructor; cbn; lia|cbn; repeat constructor; set_solver|by vm_compute].
Ltac small_store :=
  split_and!; [split_and!; [done|by vm_compute|repeat (constructor; [small_fields|]); constructor|repeat (constructor; [split; [cbn; lia|by vm_compute]|]); constructor]
    |by vm_compute|vm_compute; repeat constructor|repeat (constructor; [by vm_compute|]); constructor].
Ltac small_ext := split_and!; [done|by vm_compute|cbn; lia|cbn; lia|repeat (constructor; [by vm_compute|]); constructor].
Ltac small_snapshot :=
  split_and!; [repeat (constructor; [small_store|]); constructor|repeat constructor|repeat (constructor; [small_ext|]); constructor|vm_compute; repeat constructor; set_solver].

Lemma snap_one_wf : snap_wf snap_one.
Proof. small_snapshot. Qed.

Lemma snap_two_wf : snap_wf snap_two.
Proof. small_snapshot. Qed.

Definition dir_of (s : snapshot) : dir := sample_dir (map env (snap_items s)).

Lemma dir_of_reads s : len (stream s) < 2 ^ 20 -> newSnapItemReader (dir_of s) = Ret (Source (stream s) EOF).
Proof. apply sample_reads. Qed.

Lemma diff_roundtrip_witness :
  exists diff st raw gz out st' chunks raw' written,
    Compute (fun _ _ l => rev l) (dir_of snap_one) (dir_of snap_two) sample_header = Ret (diff, st, raw, gz) /\
    Apply (dir_of snap_one) diff ∅ = Ret (out, st', chunks, raw', written) /\
    (written < 2 ^ 55 -> exists O res,
      newSnapItemReader out = Ret (Source (stream O) EOF) /\ same_content O snap_two /\
      VerifyEquivalent out (dir_of snap_two) = Ret res /\ no_difference res).
Proof.
  apply (diff_roundtrip (fun _ _ l => rev l) (dir_of snap_one) (dir_of snap_two) ∅ sample_header snap_one snap_two).
  - intros n b l. symmetry. apply Permutation_rev.
  - done.
  - apply dir_of_reads. by vm_compute.
  - apply dir_of_reads. by vm_compute.
  - exact snap_one_wf.
  - exact snap_two_wf.
  - by repeat split.
  - apply sample_no_meta. by vm_compute.
  - exact empty_no_chunks.
Defined.

(** The sample changes something, and the result is equivalent to the second snapshot
    but not to the first. *)
Definition differences (o : outcome VerifyResult) : option (Z * Z * Z * Z) :=
  match o with Ret r => Some (v_ExtraInA r, v_ExtraInB r, v_ValueDiffs r, ExtensionDiff r) | _ => None end.

Example diff_roundtrip_runs :
  match Compute (fun _ _ l => l) (dir_of snap_one) (dir_of snap_two) sample_header with
  | Ret (diff, st, _, _) =>
      (Stores st, Inserts st, Updates st, Deletes st, ExtAdds st, ExtRemoves st) = (3, 2, 1, 2, 2, 1) /\
      match Apply (dir_of snap_one) diff ∅ with
      | Ret (out, _, _, _, _) =>
          differences (VerifyEquivalent out (dir_of snap_two)) = Some (0, 0, 0, 0) /\
          differences (VerifyEquivalent out (dir_of snap_one)) = Some (2, 2, 1, 3)
      | _ => False
      end
  | _ => False
  end.
Proof. vm_compute. by repeat split. Qed.

Lemma verify_decides_witness :
  exists res, VerifyEquivalent (dir_of snap_one) (dir_of snap_two) = Ret res /\ (no_difference res <-> same_sets snap_one snap_two).
Proof.
  destruct (verify_decides (dir_of snap_one) (dir_of snap_two) snap_one snap_two) as (res & E & _ & H).
  - apply dir_of_reads. by vm_compute.
  - apply dir_of_reads. by vm_compute.
  - apply wf_readable, snap_one_wf.
  - apply wf_readable, snap_two_wf.
  - exact (ex_intro _ res (conj E (H snap_one_wf snap_two_wf))).
Defined.

(** ** What the diff does not do *)

(** A diff whose body breaks off is applied as far as it goes, without an error: here
    the body of the sample loses its last 60 bytes, zlib reports the missing end, and
    the snapshot written is not the target. *)
Definition cut_short (n : nat) (h : FileHeader) (diff : bytes) : bytes :=
  let body := drop (S (length (WriteHeader h))) diff in
  WriteHeader h ++ [byte.of_Z 99] ++ take (length body - n) body.

Example truncated_diff_applied :
  match Compute (fun _ _ l => l) (dir_of snap_one) (dir_of snap_two) sample_header with
  | Ret (diff, _, _, _) =>
      match @Apply cut_off _ (dir_of snap_one) (cut_short 60 sample_header diff) ∅ with
      | Ret (out, _, _, _, _) => differences (VerifyEquivalent out (dir_of snap_two)) = Some (1, 0, 0, 3)
      | _ => False
      end
  | _ => False
  end.
Proof. vm_compute. reflexivity. Qed.

(** Leaves are compared as encoded records, whose second byte is the length of the
    key: in the order of the keys they are not sorted, and a leaf that both sides have
    is sent once more where a key of another length is gone before it. *)
Definition snap_longer : snapshot := mkSnap [(str "acc", [sample_rec "aa" "1" 5; sample_rec "b" "2" 5])] [].
Definition snap_shorter : snapshot := mkSnap [(str "acc", [sample_rec "b" "2" 5])] [].

Example unchanged_leaf_resent :
  match Compute (fun _ _ l => l) (dir_of snap_longer) (dir_of snap_shorter) sample_header with
  | Ret (_, st, _, _) => (Inserts st, Updates st, Deletes st) = (1, 0, 2)
  | _ => False
  end.
Proof. vm_compute. reflexivity. Qed.

(** The leaves Apply writes have no version: whoever reads one finds 0. *)
Lemma applied_leaf_unversioned k v : kv_fits (k, v) -> parseProtoVarint (snd (kv_item (k, v))) 3 = Ret 0.
Proof. intros H. destruct (kv_fields_ok k v H) as [Hf _]. exact (parseProtoVarint_find 3 (kv_fields k v) ltac:(lia) Hf). Qed.

(** An extension whose format changes keeps the base's, and the verifier does not look
    at formats. *)
Definition snap_format (f : Z) : snapshot := mkSnap [] [(str "wasm", f, [str "one"])].

Example format_change_lost :
  match Compute (fun _ _ l => l) (dir_of (snap_format 1)) (dir_of (snap_format 2)) sample_header with
  | Ret (diff, _, _, _) =>
      match Apply (dir_of (snap_format 1)) diff ∅ with
      | Ret (out, _, _, _, _) =>
          newSnapItemReader out = Ret (Source (stream (snap_format 1)) EOF) /\
          differences (VerifyEquivalent out (dir_of (snap_format 2))) = Some (0, 0, 0, 0)
      | _ => False
      end
  | _ => False
  end.
Proof. vm_compute. by split. Qed.
