(* ===== verification/Durable.v ===== *)
(** * Files that survive a crash (internal/durable/durable.go)

    The file system is a tree of inodes in which every directory entry keeps the
    values it had since the directory was last synced, and every file knows
    whether its contents were synced: [crash] picks, entry by entry, what is left
    after a power failure.  A program is a computation over the disk that logs
    every disk it passes through, and in which every system call may fail; the
    triples below speak of the result and of all the disks on the way.  The main
    theorem: whatever fails, and wherever the power goes, a file written by
    [WriteFileFrom] holds what it held or all of the new contents, and after a
    successful return the new contents. *)

From S2P Require Import Prelude.

(** ** The disk *)

(** A file: what a read returns; the modes a crash can leave, the current one
    first; and whether a crash leaves the contents alone. *)
Record file := mkFile { f_data : bytes; f_modes : list Z; f_synced : bool }.

(** An entry is named by the inode of its directory and its name there.  Its
    history has the current value first, the one of the last sync last. *)
Abbreviation entry := (Z * bytes)%type.

Record fs := mkFs {
  fs_files : gmap Z file;
  fs_dirs : gset Z;
  fs_entries : gmap entry (list (option Z));
  fs_next : Z
}.

Definition root : Z := 0.

Definition hist (d : fs) (k : entry) : list (option Z) := default [None] (fs_entries d !! k).
Definition bound (d : fs) (k : entry) : option Z := default None (head (hist d k)).

Definition set_file (i : Z) (f : file) (d : fs) : fs :=
  mkFs (<[i := f]> (fs_files d)) (fs_dirs d) (fs_entries d) (fs_next d).
Definition bind_entry (k : entry) (v : option Z) (d : fs) : fs :=
  mkFs (fs_files d) (fs_dirs d) (<[k := v :: hist d k]> (fs_entries d)) (fs_next d).
(** A sync of directory [i] forgets the older values of its entries. *)
Definition settle (i : Z) (d : fs) : fs :=
  mkFs (fs_files d) (fs_dirs d)
    (map_imap (fun k h => Some (if k.1 =? i then take 1 h else h)) (fs_entries d)) (fs_next d).

(** Paths are cleaned: the list of their components. *)
Abbreviation path := (list bytes).

Fixpoint resolve_from (d : fs) (i : Z) (p : path) : option Z :=
  match p with
  | [] => Some i
  | n :: p => j ← bound d (i, n); resolve_from d j p
  end.
Definition resolve (d : fs) (p : path) : option Z := resolve_from d root p.

(** [filepath.Dir] and [filepath.Base]. *)
Definition Dir (p : path) : path := removelast p.
Definition Base (p : path) : bytes := default (str "/") (last p).

(** ** After a crash

    Everything that is left has been on disk: no entry has a past, all files are
    synced.  Entries are lost independently; contents and modes that were not
    synced are arbitrary and one of the pending ones. *)
Record crash (d c : fs) : Prop := {
  crash_dirs : fs_dirs c = fs_dirs d;
  crash_next : fs_next c = fs_next d;
  crash_entries : forall k, exists v, v ∈ hist d k /\ hist c k = [v];
  crash_files : forall i,
    match fs_files d !! i, fs_files c !! i with
    | Some f, Some f' => f_synced f' = true /\ (exists m, m ∈ f_modes f /\ f_modes f' = [m]) /\
        (f_synced f = true -> f_data f' = f_data f)
    | None, None => True
    | _, _ => False
    end
}.

(** What is found at an entry: the contents of a file, or no file. *)
Definition content (d : fs) (k : entry) : option bytes :=
  i ← bound d k; f ← fs_files d !! i; Some (f_data f).

(** ** Programs

    The random numbers and the failures to come are part of the machine: a system
    call fails with the error that is next, if there is one.  [m_past] has every
    disk that was there before a system call. *)
Record mach := Mach {
  m_disk : fs;
  m_past : list fs;
  m_faults : list (option goerr);
  m_rand : list Z
}.

Definition sys {A} (call : fs -> outcome A * fs) : M mach A := fun m =>
  match m_faults m with
  | Some e :: fl => (Err e, Mach (m_disk m) (m_disk m :: m_past m) fl (m_rand m))
  | fl => let '(r, d) := call (m_disk m) in (r, Mach d (m_disk m :: m_past m) (tail fl) (m_rand m))
  end.

Definition next_rand : M mach Z := fun m =>
  (Ret (default 0 (head (m_rand m))), Mach (m_disk m) (m_past m) (m_faults m) (tail (m_rand m))).

(** [if err := c(); err != nil { h; return fmt.Errorf("msg: %w", err) }]; the
    errors of [h] are dropped. *)
Definition or_else {A B} (c : M mach A) (h : M mach B) (msg : string) : M mach A := fun m =>
  match c m with
  | (Err e, m') => (Err (Wrapf msg e), (h m').2)
  | r => r
  end.

Definition nothing : M mach unit := mret tt.
(** [_ = c()]. *)
Definition ignore {A} (c : M mach A) : M mach unit := fun m => (Ret tt, (c m).2).

(** ** System calls *)

Definition ENOENT : goerr := Errorf "no such file or directory".
Definition EEXIST : goerr := Errorf "file exists".
Definition ENOTDIR : goerr := Errorf "not a directory".
Definition EISDIR : goerr := Errorf "is a directory".
Definition ENOTEMPTY : goerr := Errorf "directory not empty".
Definition EINVAL : goerr := Errorf "invalid argument".

Definition is_dir (d : fs) (i : Z) : bool := bool_decide (i ∈ fs_dirs d).

(** The directory a path lies in, and the entry. *)
Definition locate (d : fs) (p : path) : outcome entry :=
  match last p with
  | None => Err EINVAL
  | Some n =>
      match resolve d (Dir p) with
      | None => Err ENOENT
      | Some i => if is_dir d i then Ret (i, n) else Err ENOTDIR
      end
  end.

Definition pure_call {A} (r : outcome A) (d : fs) : outcome A * fs := (r, d).

Definition Open (p : path) : M mach Z := sys (fun d =>
  match resolve d p with Some i => (Ret i, d) | None => (Err ENOENT, d) end).

(** [open(O_CREAT|O_EXCL)] with mode 0600. *)
Definition create_excl (dir : path) (n : bytes) : M mach Z := sys (fun d =>
  match locate d (dir ++ [n]) with
  | Ret k =>
      match bound d k with
      | Some _ => (Err EEXIST, d)
      | None =>
          let i := fs_next d in
          (Ret i, mkFs (<[i := mkFile [] [384] false]> (fs_files d)) (fs_dirs d)
                    (<[k := Some i :: hist d k]> (fs_entries d)) (i + 1))
      end
  | Err e => (Err e, d)
  | _ => (Err EINVAL, d)
  end).

Definition write (i : Z) (b : bytes) : M mach unit := sys (fun d =>
  match fs_files d !! i with
  | Some f => (Ret tt, set_file i (mkFile (f_data f ++ b) (f_modes f) false) d)
  | None => (Err EISDIR, d)
  end).

Definition read (i : Z) : M mach bytes := sys (fun d =>
  match fs_files d !! i with Some f => (Ret (f_data f), d) | None => (Err EISDIR, d) end).

Definition Sync (i : Z) : M mach unit := sys (fun d =>
  match fs_files d !! i with
  | Some f => (Ret tt, set_file i (mkFile (f_data f) (take 1 (f_modes f)) true) d)
  | None => (Ret tt, settle i d)
  end).

Definition Close (i : Z) : M mach unit := sys (pure_call (Ret tt)).

Definition Chmod (p : path) (mode : Z) : M mach unit := sys (fun d =>
  match resolve d p with
  | None => (Err ENOENT, d)
  | Some i =>
      (Ret tt, match fs_files d !! i with
               | Some f => set_file i (mkFile (f_data f) (mode :: f_modes f) (f_synced f)) d
               | None => d
               end)
  end).

(** The permission bits and whether it is a directory. *)
Definition Stat (i : Z) : M mach Z := sys (fun d =>
  match fs_files d !! i with
  | Some f => (Ret (default 0 (head (f_modes f))), d)
  | None => (Ret 0, d)
  end).

Definition entries_of (d : fs) (i : Z) : list bytes :=
  omap (fun kh : entry * list (option Z) =>
    if (kh.1.1 =? i) && bool_decide (is_Some (bound d kh.1)) then Some kh.1.2 else None)
    (map_to_list (fs_entries d)).

Definition Remove (p : path) : M mach unit := sys (fun d =>
  match locate d p with
  | Ret k =>
      match bound d k with
      | None => (Err ENOENT, d)
      | Some i =>
          if is_dir d i && negb (bool_decide (entries_of d i = [])) then (Err ENOTEMPTY, d)
          else (Ret tt, bind_entry k None d)
      end
  | Err e => (Err e, d)
  | _ => (Err EINVAL, d)
  end).

Definition is_prefix (p q : path) : bool := bool_decide (take (length p) q = p).

(** [rename]: a file replaces a file, a directory an empty directory. *)
Definition os_rename (p q : path) : M mach unit := sys (fun d =>
  match locate d p, locate d q with
  | Ret k, Ret k' =>
      match bound d k with
      | None => (Err ENOENT, d)
      | Some i =>
          if is_prefix p q && negb (bool_decide (p = q)) then (Err EINVAL, d) else
          match bound d k' with
          | Some j =>
              if is_dir d j then
                if negb (is_dir d i) then (Err EISDIR, d)
                else if negb (bool_decide (entries_of d j = [])) then (Err ENOTEMPTY, d)
                else (Ret tt, bind_entry k' (Some i) (bind_entry k None d))
              else if is_dir d i then (Err ENOTDIR, d)
              else if i =? j then (Ret tt, d)
              else (Ret tt, bind_entry k' (Some i) (bind_entry k None d))
          | None => (Ret tt, bind_entry k' (Some i) (bind_entry k None d))
          end
      end
  | Err e, _ | _, Err e => (Err e, d)
  | _, _ => (Err EINVAL, d)
  end).

(** ** durable.go *)

(** [os.CreateTemp(dir, "." + base + ".*.tmp")]: a random number replaces the
    last star; a name that exists is tried again with another number. *)
Definition tmp_name (base : bytes) (r : Z) : bytes := str "." ++ base ++ str "." ++ decimal (u32 r) ++ str ".tmp".

Definition slash : Init.Byte.byte := byte.of_Z 47.

(** Try again when the file exists. *)
Definition on_exist {A} (c again : M mach A) : M mach A := fun m =>
  match c m with
  | (Err e, m') => if bool_decide (e = EEXIST) then again m' else (Err e, m')
  | r => r
  end.

Fixpoint create_temp (dir : path) (base : bytes) (tries : nat) : M mach (Z * path) :=
  r ← next_rand;
  let n := tmp_name base r in
  let once : M mach (Z * path) := i ← create_excl dir n; mret (i, dir ++ [n]) in
  match tries with
  | O => once
  | S tries => on_exist once (create_temp dir base tries)
  end.

Definition CreateTemp (dir : path) (base : bytes) : M mach (Z * path) :=
  if bool_decide (slash ∈ base) then fail (Errorf "pattern contains path separator")
  else create_temp dir base (Z.to_nat 9999).

(** A source: the slices its reads return, then the end or an error. *)
Record source := mkSource { src_pieces : list bytes; src_end : option goerr }.

Fixpoint copy_pieces (i : Z) (ps : list bytes) : M mach unit :=
  match ps with
  | [] => mret tt
  | b :: ps => write i b;; copy_pieces i ps
  end.

Definition Copy (i : Z) (src : source) : M mach unit :=
  copy_pieces i (src_pieces src);;
  match src_end src with None => mret tt | Some e => fail e end.

(** The error of [c] as it is, after [h], whose own errors are dropped. *)
Definition or_close {A B} (c : M mach A) (h : M mach B) : M mach A := fun m =>
  match c m with
  | (Err e, m') => (Err e, (h m').2)
  | r => r
  end.

Definition FsyncDir (dir : path) : M mach unit :=
  d ← Open dir;
  or_close (Sync d) (Close d);;
  Close d.

Definition WriteFileFrom (p : path) (src : source) (mode : Z) : M mach unit :=
  let dir := Dir p in
  let base := Base p in
  '(tmp, tmpPath) ← wrap_err "durable: create tmp" (CreateTemp dir base);
  let cleanup := ignore (Remove tmpPath) in
  or_else (Copy tmp src) (ignore (Close tmp);; cleanup) "durable: write";;
  or_else (Sync tmp) (ignore (Close tmp);; cleanup) "durable: sync";;
  or_else (Close tmp) cleanup "durable: close";;
  or_else (Chmod tmpPath mode) cleanup "durable: chmod";;
  or_else (os_rename tmpPath p) cleanup "durable: rename";;
  wrap_err "durable: fsync dir" (FsyncDir dir).

Definition WriteFile (p : path) (data : bytes) (mode : Z) : M mach unit :=
  WriteFileFrom p (mkSource [data] None) mode.

(** The reads of a file: 32 KiB at a time. *)
Fixpoint pieces_of (fuel : nat) (b : bytes) : list bytes :=
  match fuel, b with
  | S fuel, _ :: _ => take (Z.to_nat 32768) b :: pieces_of fuel (drop (Z.to_nat 32768) b)
  | _, _ => []
  end.

(** [defer h()]. *)
Definition deferred {A B} (h : M mach B) (c : M mach A) : M mach A := fun m =>
  let '(r, m') := c m in (r, (h m').2).

(** What reads of an open file give. *)
Definition source_of (i : Z) : M mach source := fun m =>
  match read i m with
  | (Ret b, m') => (Ret (mkSource (pieces_of (length b) b) None), m')
  | (Err e, m') => (Ret (mkSource [] (Some e)), m')
  | (Panic w, m') => (Panic w, m')
  | (NoFuel, m') => (NoFuel, m')
  end.

Definition CopyFile (src dst : path) : M mach unit :=
  sf ← wrap_err "durable: open src" (Open src);
  deferred (Close sf) (
    mode ← wrap_err "durable: stat src" (Stat sf);
    from ← source_of sf;
    WriteFileFrom dst from mode).

(** [durable.Rename]. *)
Definition Rename (src dst : path) : M mach unit :=
  wrap_err "durable: rename" (os_rename src dst);;
  FsyncDir (Dir dst).

(** [os.MkdirAll]: the components from the top; one that exists must be a
    directory. *)
Definition mkdir (p : path) : M mach unit := sys (fun d =>
  match locate d p with
  | Ret k =>
      match bound d k with
      | Some i => (if is_dir d i then Ret tt else Err ENOTDIR, d)
      | None =>
          let i := fs_next d in
          (Ret tt, mkFs (fs_files d) ({[i]} ∪ fs_dirs d) (<[k := Some i :: hist d k]> (fs_entries d)) (i + 1))
      end
  | Err e => (Err e, d)
  | _ => (Err EINVAL, d)
  end).

Fixpoint mkdirs (done todo : path) : M mach unit :=
  match todo with
  | [] => mret tt
  | n :: todo => mkdir (done ++ [n]);; mkdirs (done ++ [n]) todo
  end.

Definition MkdirAll (p : path) : M mach unit := mkdirs [] p.

(** [os.Lstat]: is it a directory, and the permission bits. *)
Definition Lstat (p : path) : M mach (bool * Z) := sys (fun d =>
  match resolve d p with
  | None => (Err ENOENT, d)
  | Some i =>
      (Ret match fs_files d !! i with
           | Some f => (false, default 0 (head (f_modes f)))
           | None => (true, 493)
           end, d)
  end).

Definition readDirNames (p : path) : M mach (list bytes) := sys (fun d =>
  match resolve d p with
  | None => (Err ENOENT, d)
  | Some i => (if is_dir d i then Ret (merge_sort bytes_le (entries_of d i)) else Err ENOTDIR, d)
  end).

Fixpoint fold_m {A B} (f : B -> A -> M mach B) (b : B) (l : list A) : M mach B :=
  match l with
  | [] => mret b
  | a :: l => b' ← f b a; fold_m f b' l
  end.

(** [filepath.Walk] with the callback of [CloneTree]: the names of a directory in
    order, the directory itself before what is in it.  [rel] is the path below
    [srcDir], [made] the directories made so far.  [fuel] bounds the depth. *)
Fixpoint walk (fuel : nat) (srcDir dstDir rel : path) (made : list path) (info : bool * Z) : M mach (list path) :=
  if info.1 then
    match fuel with
    | O => fun m => (NoFuel, m)
    | S fuel =>
        names ← readDirNames (srcDir ++ rel);
        made ← match rel with
               | [] => mret made
               | _ => MkdirAll (dstDir ++ rel);; mret (made ++ [dstDir ++ rel])
               end;
        fold_m (fun made n =>
          info ← Lstat (srcDir ++ rel ++ [n]);
          walk fuel srcDir dstDir (rel ++ [n]) made info) made names
    end
  else CopyFile (srcDir ++ rel) (dstDir ++ rel);; mret made.

Definition CloneTree (fuel : nat) (srcDir dstDir : path) : M mach unit :=
  wrap_err "durable: mkdir" (MkdirAll dstDir);;
  made ← wrap_err "durable: clone" (info ← Lstat srcDir; walk fuel srcDir dstDir [] [dstDir] info);
  fold_m (fun _ dir => wrap_err "durable: fsync" (FsyncDir dir)) tt (rev made).

(** ** Reading *)

Definition lift {A} (o : outcome A) : M mach A := fun m => (o, m).

(** [os.ReadFile]. *)
Definition ReadFile (p : path) : M mach bytes :=
  i ← Open p;
  deferred (Close i) (read i).

(** The result of a call whose error only matters as such. *)
Definition attempt {A} (c : M mach A) : M mach (option A) := fun m =>
  match c m with
  | (Ret a, m') => (Ret (Some a), m')
  | (Err _, m') => (Ret None, m')
  | (Panic w, m') => (Panic w, m')
  | (NoFuel, m') => (NoFuel, m')
  end.

(** ** Triples

    [triple P c Q E I]: from a disk in [P], every disk [c] passes through is in
    [I], and [c] ends with a result and a disk in [Q] or an error and a disk in
    [E].  A crash happens at a disk in [I]. *)
Definition triple {A} (P : fs -> Prop) (c : M mach A) (Q : A -> fs -> Prop) (E I : fs -> Prop) : Prop :=
  forall m, P (m_disk m) -> I (m_disk m) ->
    match (c m).1 with Ret a => Q a (m_disk (c m).2) | Err _ => E (m_disk (c m).2) | _ => False end /\
    I (m_disk (c m).2) /\ exists seen, m_past (c m).2 = seen ++ m_past m /\ Forall I seen.

Section Triples.
Context {A : Type}.
Implicit Types (P E I : fs -> Prop) (c : M mach A) (Q : A -> fs -> Prop).

Lemma triple_weaken P P' c Q Q' E E' I :
  triple P c Q E I -> (forall d, P' d -> P d) -> (forall a d, Q a d -> Q' a d) -> (forall d, E d -> E' d) ->
  triple P' c Q' E' I.
Proof.
  intros H HP HQ HE m Hm HI. destruct (H m (HP _ Hm) HI) as (Hr & ? & ?). split; [|done].
  destruct (c m).1; auto.
Qed.

Lemma triple_pure (p : Prop) P c Q E I :
  (p -> triple P c Q E I) -> triple (fun d => p /\ P d) c Q E I.
Proof. intros H m [Hp Hm] HI. by apply H. Qed.

Lemma triple_ret P (a : A) Q E I : (forall d, P d -> Q a d) -> triple P (mret a) Q E I.
Proof. intros H m Hm HI. cbn. split; [auto|]. split; [done|]. by exists []. Qed.

Lemma triple_fail P e Q E I : (forall d, P d -> E d) -> triple P (fail e) Q E I.
Proof. intros H m Hm HI. cbn. split; [auto|]. split; [done|]. by exists []. Qed.

(** A system call fails and leaves the disk, or runs. *)
Lemma triple_sys P (call : fs -> outcome A * fs) Q E I :
  (forall d, P d -> I d ->
    match (call d).1 with Ret a => Q a (call d).2 | Err _ => E (call d).2 | _ => False end /\ I (call d).2) ->
  (forall d, P d -> E d) ->
  triple P (sys call) Q E I.
Proof.
  intros H He m Hm HI. unfold sys. destruct (H _ Hm HI) as [HQ HI'].
  destruct (m_faults m) as [|[e|] fl]; [|cbn|]; try destruct (call (m_disk m)) as [r d]; cbn in *;
    (split; [auto|]; split; [done|]; exists [m_disk m]; by split; [|repeat constructor]).
Qed.

(** Two runs in a row. *)
Lemma seen_app I (l0 l1 l2 s1 s2 : list fs) :
  l1 = s1 ++ l0 -> Forall I s1 -> l2 = s2 ++ l1 -> Forall I s2 -> exists s, l2 = s ++ l0 /\ Forall I s.
Proof. intros -> H1 -> H2. exists (s2 ++ s1). rewrite <- app_assoc. by split; [|apply Forall_app]. Qed.

Lemma triple_bind {B} P (c : M mach B) (k : B -> M mach A) R Q E I :
  triple P c R E I -> (forall b, triple (R b) (k b) Q E I) -> triple P (mbind k c) Q E I.
Proof.
  intros Hc Hk m Hm HI. destruct (Hc m Hm HI) as (HR & HI1 & s1 & E1 & H1).
  unfold mbind, M_bind. destruct (c m) as [[b|e|w|] m1]; cbn in *; [|by eauto 10..].
  destruct (Hk b m1 HR HI1) as (? & ? & s2 & E2 & H2). split; [done|]. split; [done|]. by eapply seen_app.
Qed.

Lemma triple_wrap P c msg Q E I : triple P c Q E I -> triple P (wrap_err msg c) Q E I.
Proof.
  intros Hc m Hm HI. destruct (Hc m Hm HI) as (HR & HI1 & Hs). unfold wrap_err. by destruct (c m) as [[| | |] m1].
Qed.

Lemma triple_or_close {B} P c (h : M mach B) R Q E I :
  triple P c Q R I -> triple R h (fun _ => E) E I -> triple P (or_close c h) Q E I.
Proof.
  intros Hc Hh m Hm HI. destruct (Hc m Hm HI) as (HR & HI1 & s1 & E1 & H1).
  unfold or_close. destruct (c m) as [[b|e|w|] m1]; cbn in *; [by eauto 10| |by eauto 10..].
  destruct (Hh m1 HR HI1) as (Hr & ? & s2 & E2 & H2). split; [by destruct (h m1).1|]. split; [done|].
  by eapply seen_app.
Qed.

Lemma triple_or_else {B} P c (h : M mach B) msg R Q E I :
  triple P c Q R I -> triple R h (fun _ => E) E I -> triple P (or_else c h msg) Q E I.
Proof.
  intros Hc Hh m Hm HI. destruct (triple_or_close _ _ _ _ _ _ _ Hc Hh m Hm HI) as (HR & HI1 & Hs).
  unfold or_else, or_close in *. by destruct (c m) as [[b|e|w|] m1].
Qed.

Lemma triple_ex {X} (P : X -> fs -> Prop) c Q E I :
  (forall x, triple (P x) c Q E I) -> triple (fun d => exists x, P x d) c Q E I.
Proof. intros H m [x Hx] HI. by apply (H x). Qed.

Lemma triple_ignore P c (R E : fs -> Prop) I :
  triple P c (fun _ => R) R I -> triple P (ignore c) (fun _ => R) E I.
Proof.
  intros Hc m Hm HI. destruct (Hc m Hm HI) as (HR & HI1 & Hs). unfold ignore. cbn. split; [|done].
  by destruct (c m).1.
Qed.
End Triples.

(** ** Well-formed disks *)

Record wf (d : fs) : Prop := {
  wf_root : root ∈ fs_dirs d;
  wf_dir : forall i, i ∈ fs_dirs d -> fs_files d !! i = None /\ i < fs_next d;
  wf_file : forall i f, fs_files d !! i = Some f -> i < fs_next d /\ f_modes f <> [];
  wf_entry : forall k h, fs_entries d !! k = Some h ->
    k.1 ∈ fs_dirs d /\ h <> [] /\
    forall i, Some i ∈ h -> i ∈ fs_dirs d \/ is_Some (fs_files d !! i)
}.

Lemma hist_bind d k v k' : hist (bind_entry k v d) k' = if decide (k' = k) then v :: hist d k else hist d k'.
Proof.
  unfold hist, bind_entry. cbn. case_decide as E; [subst; by rewrite lookup_insert_eq|by rewrite lookup_insert_ne].
Qed.

Lemma bound_bind d k v k' : bound (bind_entry k v d) k' = if decide (k' = k) then v else bound d k'.
Proof. unfold bound. rewrite hist_bind. by case_decide. Qed.

Lemma hist_settle d i k : hist (settle i d) k = if k.1 =? i then take 1 (hist d k) else hist d k.
Proof.
  unfold hist, settle. cbn. rewrite map_lookup_imap. destruct (fs_entries d !! k); cbn; by destruct (_ =? _).
Qed.

Lemma bound_settle d i k : bound (settle i d) k = bound d k.
Proof. unfold bound. rewrite hist_settle. destruct (_ =? _); [|done]. by destruct (hist d k). Qed.

Lemma hist_inode d k i : wf d -> Some i ∈ hist d k -> i < fs_next d.
Proof.
  intros Hwf Hi. unfold hist in Hi. destruct (fs_entries d !! k) as [h|] eqn:E; cbn in Hi.
  - destruct (wf_entry d Hwf _ _ E) as (_ & _ & H). destruct (H _ Hi) as [Hd|[f Hf]].
    + by apply (wf_dir d Hwf).
    + by apply (wf_file d Hwf _ _ Hf).
  - by apply list_elem_of_singleton in Hi.
Qed.

Lemma hist_nonempty d k : wf d -> hist d k <> [].
Proof.
  intros Hwf. unfold hist. destruct (fs_entries d !! k) as [h|] eqn:E; [|done]. by apply (wf_entry d Hwf _ _ E).
Qed.

Lemma bound_in d k v : bound d k = Some v -> Some v ∈ hist d k.
Proof. unfold bound. destruct (hist d k) as [|[?|] h]; cbn; [done| |done]. intros [= ->]. by left. Qed.

(** What a directory's descendants are found through. *)
Lemma bound_parent d i n j : wf d -> bound d (i, n) = Some j -> i ∈ fs_dirs d.
Proof.
  intros Hwf E. unfold bound, hist in E. destruct (fs_entries d !! (i, n)) eqn:Hk; [|done].
  by apply (wf_entry d Hwf _ _ Hk).
Qed.

(** Changing an entry that holds no directory with something in it does not move
    the other directories. *)
Lemma resolve_same_gen d d' p i :
  (forall k, bound d' k = bound d k \/
    (forall j, bound d k = Some j -> j <> i /\ forall n, bound d (j, n) = None)) ->
  resolve d p = Some i -> resolve d' p = Some i.
Proof.
  intros Hk. unfold resolve. generalize root as s. induction p as [|n p IH]; intros s E; cbn in *; [done|].
  destruct (bound d (s, n)) as [j|] eqn:Hb; [|done]. cbn in E.
  destruct (Hk (s, n)) as [->|H]; [rewrite Hb; cbn; by apply IH|]. exfalso. destruct (H j Hb) as [Hj Hn].
  destruct p as [|n' p]; cbn in E; [by injection E as ->|]. by rewrite Hn in E.
Qed.

Lemma resolve_same d d' p i :
  wf d -> (forall k, bound d' k = bound d k \/ (forall j, bound d k = Some j -> j ∉ fs_dirs d)) ->
  resolve d p = Some i -> i ∈ fs_dirs d -> resolve d' p = Some i.
Proof.
  intros Hwf Hk E Hi. eapply resolve_same_gen; [|done]. intros k. destruct (Hk k) as [?|H]; [by left|right].
  intros j Hj. specialize (H j Hj). split; [congruence|]. intros n. destruct (bound d (j, n)) eqn:Hb; [|done].
  by apply bound_parent in Hb.
Qed.

Lemma is_dir_true d i : is_dir d i = true <-> i ∈ fs_dirs d.
Proof. unfold is_dir. apply bool_decide_eq_true. Qed.

Lemma locate_spec d p k : locate d p = Ret k ->
  exists i, resolve d (Dir p) = Some i /\ i ∈ fs_dirs d /\ last p = Some k.2 /\ k.1 = i.
Proof.
  unfold locate. destruct (last p) as [n|]; [|done]. destruct (resolve d (Dir p)) as [i|]; [|done].
  destruct (is_dir d i) eqn:E; [|done]. intros [= <-]. apply is_dir_true in E. by exists i.
Qed.

Lemma locate_dir d p i n : resolve d (Dir p) = Some i -> i ∈ fs_dirs d -> last p = Some n -> locate d p = Ret (i, n).
Proof. intros E Hi Hl. unfold locate. rewrite Hl, E. by rewrite (proj2 (is_dir_true d i) Hi). Qed.

Lemma Dir_snoc p n : Dir (p ++ [n]) = p.
Proof. unfold Dir. by rewrite removelast_last. Qed.

Lemma wf_bind d k v : wf d -> k.1 ∈ fs_dirs d ->
  (forall j, v = Some j -> j ∈ fs_dirs d \/ is_Some (fs_files d !! j)) -> wf (bind_entry k v d).
Proof.
  intros Hwf Hk Hv. constructor; cbn; [apply Hwf..|]. intros k' h E. apply lookup_insert_Some in E as [[<- <-]|[_ E]].
  - split; [done|]. split; [done|]. intros i Hi. apply elem_of_cons in Hi as [E|Hi]; [by apply Hv|].
    unfold hist in Hi. destruct (fs_entries d !! k) eqn:E; cbn in Hi.
    + by eapply (wf_entry d Hwf).
    + by apply list_elem_of_singleton in Hi.
  - by apply (wf_entry d Hwf).
Qed.

Lemma wf_set_file d i f : wf d -> is_Some (fs_files d !! i) -> f_modes f <> [] -> wf (set_file i f d).
Proof.
  intros Hwf [f0 Hf] Hm. constructor; cbn; [apply Hwf| | |].
  - intros j Hj. rewrite lookup_insert_ne; [by apply (wf_dir d Hwf)|].
    intros ->. apply (wf_dir d Hwf) in Hj as [Hj _]. congruence.
  - intros j g E. apply lookup_insert_Some in E as [[<- <-]|[_ E]]; [|by apply (wf_file d Hwf) in E].
    split; [|done]. by apply (wf_file d Hwf _ _ Hf).
  - intros k h E. destruct (wf_entry d Hwf _ _ E) as (? & ? & H). repeat split; [done..|].
    intros j Hj. destruct (H _ Hj) as [?|?]; [by left|right]. by apply lookup_insert_is_Some'; right.
Qed.

Lemma wf_settle d i : wf d -> wf (settle i d).
Proof.
  intros Hwf. constructor; cbn; [apply Hwf..|]. intros k h E. rewrite map_lookup_imap in E.
  destruct (fs_entries d !! k) as [h0|] eqn:Hk; [|done]. cbn in E. injection E as <-.
  destruct (wf_entry d Hwf _ _ Hk) as (? & Hn & H). split; [done|]. destruct (_ =? _); [|done].
  split; [by destruct h0|]. intros j Hj. apply H. rewrite <- (take_drop 1 h0). apply elem_of_app. by left.
Qed.

(** A new file in an entry. *)
Definition add_file (k : entry) (d : fs) : fs :=
  mkFs (<[fs_next d := mkFile [] [384] false]> (fs_files d)) (fs_dirs d)
    (<[k := Some (fs_next d) :: hist d k]> (fs_entries d)) (fs_next d + 1).

Lemma hist_add_file d k k' :
  hist (add_file k d) k' = if decide (k' = k) then Some (fs_next d) :: hist d k else hist d k'.
Proof.
  unfold hist, add_file. cbn. case_decide as E; [subst; by rewrite lookup_insert_eq|by rewrite lookup_insert_ne].
Qed.

Lemma wf_add_file d k : wf d -> k.1 ∈ fs_dirs d -> wf (add_file k d).
Proof.
  intros Hwf Hk. constructor; cbn; [apply Hwf| | |].
  - intros j Hj. destruct (wf_dir d Hwf _ Hj) as [? ?]. split; [|lia]. by rewrite lookup_insert_ne by lia.
  - intros j g E. apply lookup_insert_Some in E as [[<- <-]|[_ E]]; [split; [lia|done]|].
    apply (wf_file d Hwf) in E as [? ?]. split; [lia|done].
  - assert (Hin : forall k h j, fs_entries d !! k = Some h -> Some j ∈ h ->
      j ∈ fs_dirs d \/ is_Some (<[fs_next d := mkFile [] [384] false]> (fs_files d) !! j)).
    { intros k1 h j E Hj. destruct (wf_entry d Hwf _ _ E) as (_ & _ & H).
      destruct (H _ Hj); [by left|right]. by apply lookup_insert_is_Some'; right. }
    intros k' h E. apply lookup_insert_Some in E as [[<- <-]|[_ E]].
    + split; [done|]. split; [done|]. intros i Hi. apply elem_of_cons in Hi as [[= ->]|Hi].
      * right. rewrite lookup_insert_eq. by eexists.
      * unfold hist in Hi. destruct (fs_entries d !! k) eqn:E; cbn in Hi; [by eapply Hin|].
        by apply list_elem_of_singleton in Hi.
    + destruct (wf_entry d Hwf _ _ E) as (? & ? & ?). split; [done|]. split; [done|]. intros. by eapply Hin.
Qed.

(** ** Writing a file *)

Definition is_tmp (n : bytes) : Prop := exists x, n = str "." ++ x ++ str ".tmp".

Lemma tmp_name_is_tmp base r : is_tmp (tmp_name base r) /\ tmp_name base r <> base.
Proof.
  split; [exists (base ++ str "." ++ decimal (u32 r)); unfold tmp_name; by rewrite <- !app_assoc|].
  intros E. apply (f_equal length) in E. unfold tmp_name in E. rewrite !length_app in E. cbn in E. lia.
Qed.

(** What was there at [d0] is still there. *)
Record kept (d0 d : fs) : Prop := {
  kept_wf : wf d;
  kept_dirs : fs_dirs d = fs_dirs d0;
  kept_next : fs_next d0 <= fs_next d;
  kept_files : forall j, j < fs_next d0 -> fs_files d !! j = fs_files d0 !! j
}.

Lemma kept_refl d : wf d -> kept d d.
Proof. intros. by constructor. Qed.

Lemma kept_trans d1 d2 d3 : kept d1 d2 -> kept d2 d3 -> kept d1 d3.
Proof.
  intros [? E1 ? F1] [? E2 ? F2]. constructor; [done|congruence|lia|]. intros j Hj. rewrite F2, F1 by lia. done.
Qed.

Lemma kept_bind d0 d k v : kept d0 d -> k.1 ∈ fs_dirs d ->
  (forall j, v = Some j -> j ∈ fs_dirs d \/ is_Some (fs_files d !! j)) -> kept d0 (bind_entry k v d).
Proof. intros [] Hk Hv. constructor; [by apply wf_bind|done..]. Qed.

Lemma kept_settle d0 d i : kept d0 d -> kept d0 (settle i d).
Proof. intros []. constructor; [by apply wf_settle|done..]. Qed.

Lemma kept_set_file d0 d i f : kept d0 d -> fs_next d0 <= i -> is_Some (fs_files d !! i) -> f_modes f <> [] ->
  kept d0 (set_file i f d).
Proof.
  intros [] Hi Hs Hm. constructor; [by apply wf_set_file|done..|]. intros j Hj. cbn.
  rewrite lookup_insert_ne by lia. auto.
Qed.

Lemma kept_add_file d0 d k : kept d0 d -> k.1 ∈ fs_dirs d -> kept d0 (add_file k d).
Proof.
  intros [] Hk. constructor; [by apply wf_add_file|done|cbn; lia|]. intros j Hj. cbn.
  rewrite lookup_insert_ne by lia. auto.
Qed.

Lemma triple_on_exist {A} P (c again : M mach A) Q (E I : fs -> Prop) :
  triple P c Q P I -> triple P again Q E I -> (forall d, P d -> E d) -> triple P (on_exist c again) Q E I.
Proof.
  intros Hc Ha HE m Hm HI. destruct (Hc m Hm HI) as (HR & HI1 & s1 & E1 & H1).
  unfold on_exist. destruct (c m) as [[b|e|w|] m1]; cbn in *; [by eauto 10| |by eauto 10..].
  case_bool_decide; [|cbn; by eauto 10].
  destruct (Ha m1 HR HI1) as (? & ? & s2 & E2 & H2). split; [done|]. split; [done|]. by eapply seen_app.
Qed.

Lemma triple_rand P (E I : fs -> Prop) : triple P next_rand (fun _ => P) E I.
Proof. intros m Hm HI. cbn. split; [done|]. split; [done|]. by exists []. Qed.

Section WriteFile.
Context (d0 : fs) (Hwf : wf d0) (p : path) (di : Z) (base : bytes) (src : source) (mode : Z).
Context (Hdir : resolve d0 (Dir p) = Some di) (Hdi : di ∈ fs_dirs d0) (Hlast : last p = Some base).

Definition whole : file := mkFile (concat (src_pieces src)) [mode; 384] true.

(** The temporary file is there, and only it is new. *)
Record staged (n : bytes) (i : Z) (f : file) (d : fs) : Prop := {
  st_kept : kept d0 d;
  st_tmp : is_tmp n /\ n <> base;
  st_new : fs_next d0 <= i;
  st_file : fs_files d !! i = Some f;
  st_bound : bound d (di, n) = Some i;
  st_free : bound d0 (di, n) = None;
  st_hist : forall k, k <> (di, n) -> hist d k = hist d0 k
}.

(** A disk of a call to [WriteFileFrom]: other entries are as they were, but for
    temporary names and a sync; the entry itself has its old history, or the new
    file on top of it. *)
Record under_way (d : fs) : Prop := {
  uw_kept : kept d0 d;
  uw_dir : resolve d (Dir p) = Some di;
  uw_other : forall k, k <> (di, base) -> ~ (k.1 = di /\ is_tmp k.2) ->
    hist d k = hist d0 k \/ (k.1 = di /\ hist d k = take 1 (hist d0 k));
  uw_entry : hist d (di, base) = hist d0 (di, base) \/
    (src_end src = None /\ exists i, fs_next d0 <= i /\ fs_files d !! i = Some whole /\
     (hist d (di, base) = Some i :: hist d0 (di, base) \/ hist d (di, base) = [Some i]))
}.

(** The file is in place. *)
Definition in_place (d : fs) : Prop :=
  under_way d /\ exists i, fs_next d0 <= i /\ fs_files d !! i = Some whole /\ hist d (di, base) = [Some i].

Lemma staged_dir n i f d : staged n i f d -> resolve d (Dir p) = Some di /\ di ∈ fs_dirs d.
Proof using Hwf Hdir Hdi.
  intros H. split; [|by rewrite (kept_dirs _ _ (st_kept _ _ _ _ H))].
  apply (resolve_same d0); [done| |done..]. intros k. destruct (decide (k = (di, n))) as [->|Hk].
  - right. intros j E. by rewrite (st_free _ _ _ _ H) in E.
  - left. unfold bound. by rewrite (st_hist _ _ _ _ H).
Qed.

Lemma staged_under_way n i f d : staged n i f d -> under_way d.
Proof using Hwf Hdir Hdi.
  intros H. destruct (st_tmp _ _ _ _ H) as [Ht Hn]. constructor; [apply H|by apply (staged_dir n i f)| |].
  - intros k Hk Hf. left. apply (st_hist _ _ _ _ H). intros ->. by destruct Hf.
  - left. apply (st_hist _ _ _ _ H). congruence.
Qed.

Lemma staged_locate n i f d : staged n i f d -> locate d (Dir p ++ [n]) = Ret (di, n).
Proof using Hwf Hdir Hdi.
  intros H. destruct (staged_dir _ _ _ _ H). apply locate_dir; [by rewrite Dir_snoc|done|by rewrite last_snoc].
Qed.

Lemma staged_resolve n i f d : staged n i f d -> resolve d (Dir p ++ [n]) = Some i.
Proof using Hwf Hdir Hdi.
  intros H. destruct (staged_dir _ _ _ _ H) as [E _]. unfold resolve in *.
  assert (Happ : forall q r s j, resolve_from d s q = Some j -> resolve_from d s (q ++ r) = resolve_from d j r).
  { clear. induction q as [|x q IH]; intros r s j; cbn; [by intros [= ->]|].
    destruct (bound d (s, x)); [|done]. apply IH. }
  rewrite (Happ _ _ _ _ E). cbn. by rewrite (st_bound _ _ _ _ H).
Qed.

Lemma staged_set_file n i f f' d : staged n i f d -> f_modes f' <> [] -> staged n i f' (set_file i f' d).
Proof using .
  intros H Hm. pose proof (st_file _ _ _ _ H) as Hf. constructor; try apply H.
  - apply kept_set_file; [apply H..| |done]. by eexists.
  - cbn. by rewrite lookup_insert_eq.
Qed.

Lemma start_under_way : under_way d0.
Proof using Hwf Hdir. constructor; [by apply kept_refl|done|by left|by left]. Qed.

Lemma Remove_staged n i f :
  triple (staged n i f) (Remove (Dir p ++ [n])) (fun _ => under_way) under_way under_way.
Proof using Hwf Hdir Hdi.
  apply triple_sys; [|intros; by eapply staged_under_way]. intros d H HI.
  rewrite (staged_locate _ _ _ _ H). pose proof (st_bound _ _ _ _ H) as Hb. rewrite Hb.
  destruct (is_dir d i) eqn:E.
  { apply is_dir_true in E. apply (wf_dir d (kept_wf _ _ (st_kept _ _ _ _ H))) in E as [E _].
    rewrite (st_file _ _ _ _ H) in E. done. }
  cbn [andb fst snd]. destruct (staged_dir _ _ _ _ H) as [_ Hd]. destruct (st_tmp _ _ _ _ H) as [Ht Hn].
  assert (HJ : under_way (bind_entry (di, n) None d)); [|done].
  constructor.
  - apply kept_bind; [apply H|done|done].
  - apply (resolve_same d); [apply H| |by apply (staged_dir n i f)|done]. intros k. rewrite bound_bind.
    destruct (decide (k = (di, n))) as [->|]; [right|by left]. intros j E'. rewrite Hb in E'. injection E' as <-.
    intros Hi. apply is_dir_true in Hi. congruence.
  - intros k Hk Hf. rewrite hist_bind. destruct (decide (k = (di, n))) as [->|]; [by destruct Hf|].
    left. by apply (st_hist _ _ _ _ H).
  - left. rewrite hist_bind. destruct (decide ((di, base) = (di, n))); [congruence|].
    by apply (st_hist _ _ _ _ H).
Qed.

Lemma cleanup_staged n i f :
  triple (staged n i f) (ignore (Remove (Dir p ++ [n]))) (fun _ => under_way) under_way under_way.
Proof using Hwf Hdir Hdi. apply triple_ignore, Remove_staged. Qed.

Lemma Close_same P (i : Z) (I : fs -> Prop) : triple P (Close i) (fun _ => P) P I.
Proof using . by apply triple_sys. Qed.

Lemma close_and_cleanup n i f (j : Z) :
  triple (staged n i f) (ignore (Close j);; ignore (Remove (Dir p ++ [n]))) (fun _ => under_way) under_way under_way.
Proof using Hwf Hdir Hdi.
  eapply triple_bind; [apply triple_ignore, Close_same|]. intros []. apply cleanup_staged.
Qed.

Lemma create_excl_new r : let n := tmp_name base r in
  triple (fun d => d = d0) (create_excl (Dir p) n) (fun i => staged n i (mkFile [] [384] false))
    (fun d => d = d0) under_way.
Proof using Hwf Hdir Hdi.
  intros n. apply triple_sys; [|done]. intros d -> HI.
  rewrite (locate_dir d0 (Dir p ++ [n]) di n) by (by rewrite ?Dir_snoc, ?last_snoc).
  destruct (bound d0 (di, n)) eqn:Hb; [by split|]. cbn [fst snd].
  change (mkFs _ _ _ _) with (add_file (di, n) d0).
  assert (Hs : staged n (fs_next d0) (mkFile [] [384] false) (add_file (di, n) d0)).
  { constructor; [by apply kept_add_file; [apply kept_refl|]|apply tmp_name_is_tmp|lia| | |done|].
    - cbn. by rewrite lookup_insert_eq.
    - unfold bound. by rewrite hist_add_file, decide_True.
    - intros k Hk. by rewrite hist_add_file, decide_False. }
  split; [done|]. by eapply staged_under_way.
Qed.

Definition created (ip : Z * path) (d : fs) : Prop :=
  exists n, ip.2 = Dir p ++ [n] /\ staged n ip.1 (mkFile [] [384] false) d.

Lemma create_temp_spec tries :
  triple (fun d => d = d0) (create_temp (Dir p) base tries) created (fun d => d = d0) under_way.
Proof using Hwf Hdir Hdi.
  induction tries as [|tries IH]; cbn [create_temp]; (eapply triple_bind; [apply triple_rand|]; intros r).
  2: apply triple_on_exist; [|apply IH|done].
  all: eapply triple_bind; [apply create_excl_new|]; intros i; apply triple_ret; intros d Hd; by eexists.
Qed.

Lemma CreateTemp_spec :
  triple (fun d => d = d0) (CreateTemp (Dir p) base) created (fun d => d = d0) under_way.
Proof using Hwf Hdir Hdi.
  unfold CreateTemp. case_bool_decide; [by apply triple_fail|]. apply create_temp_spec.
Qed.

(** Any prefix of the data is in the file while it is written. *)
Definition partly (n : bytes) (i : Z) (d : fs) : Prop := exists b s, staged n i (mkFile b [384] s) d.

Lemma partly_under_way n i d : partly n i d -> under_way d.
Proof using Hwf Hdir Hdi. intros (b & s & H). by eapply staged_under_way. Qed.

Lemma copy_pieces_spec n i ps : forall b s,
  triple (staged n i (mkFile b [384] s)) (copy_pieces i ps)
    (fun _ d => exists s, staged n i (mkFile (b ++ concat ps) [384] s) d) (partly n i) under_way.
Proof using Hwf Hdir Hdi.
  induction ps as [|x ps IH]; intros b s; cbn [copy_pieces concat].
  - apply triple_ret. intros d Hd. rewrite app_nil_r. by exists s.
  - eapply triple_bind with (R := fun _ => staged n i (mkFile (b ++ x) [384] false)).
    + apply triple_sys; [|intros d e; by exists b, s]. intros d H HI. rewrite (st_file _ _ _ _ H). cbn [fst snd].
      pose proof (staged_set_file _ _ _ (mkFile (b ++ x) [384] false) _ H ltac:(done)) as H'.
      split; [done|]. by eapply staged_under_way.
    + intros []. eapply triple_weaken; [apply (IH (b ++ x) false)|done| |done]. intros ? d. by rewrite <- app_assoc.
Qed.

Lemma Copy_spec n i s :
  triple (staged n i (mkFile [] [384] s)) (Copy i src)
    (fun _ d => src_end src = None /\ exists s, staged n i (mkFile (concat (src_pieces src)) [384] s) d)
    (partly n i) under_way.
Proof using Hwf Hdir Hdi.
  unfold Copy. eapply triple_bind; [apply copy_pieces_spec|]. intros []. apply triple_ex. intros s'.
  destruct (src_end src); [apply triple_fail|apply triple_ret]; intros d H; [by eexists _, _|].
  split; [done|]. by exists s'.
Qed.

Lemma Sync_spec n i b s :
  triple (staged n i (mkFile b [384] s)) (Sync i) (fun _ => staged n i (mkFile b [384] true))
    (staged n i (mkFile b [384] s)) under_way.
Proof using Hwf Hdir Hdi.
  apply triple_sys; [|done]. intros d H HI. rewrite (st_file _ _ _ _ H). cbn [fst snd f_modes f_data take].
  pose proof (staged_set_file _ _ _ (mkFile b [384] true) _ H ltac:(done)) as H'.
  split; [done|]. by eapply staged_under_way.
Qed.

Lemma Chmod_spec n i b :
  triple (staged n i (mkFile b [384] true)) (Chmod (Dir p ++ [n]) mode) (fun _ => staged n i (mkFile b [mode; 384] true))
    (staged n i (mkFile b [384] true)) under_way.
Proof using Hwf Hdir Hdi.
  apply triple_sys; [|done]. intros d H HI. rewrite (staged_resolve _ _ _ _ H).
  rewrite (st_file _ _ _ _ H). cbn [fst snd f_modes f_data f_synced].
  pose proof (staged_set_file _ _ _ (mkFile b [mode; 384] true) _ H ltac:(done)) as H'.
  split; [done|]. by eapply staged_under_way.
Qed.

(** After the rename, before the sync of the directory. *)
Definition renamed (d : fs) : Prop :=
  under_way d /\ src_end src = None /\
  exists i, fs_next d0 <= i /\ fs_files d !! i = Some whole /\ hist d (di, base) = Some i :: hist d0 (di, base).

Lemma path_split : p = Dir p ++ [base].
Proof using Hlast. destruct (proj1 (last_Some _ _) Hlast) as [l E]. by rewrite E, Dir_snoc. Qed.

Lemma not_below n : n <> base -> is_prefix (Dir p ++ [n]) p = false.
Proof using Hlast.
  intros Hn. apply bool_decide_eq_false. intros E.
  assert (H : last p = Some n).
  { rewrite <- (take_drop (length (Dir p ++ [n])) p), E, drop_ge by (rewrite path_split at 1; by rewrite !length_app).
    by rewrite app_nil_r, last_snoc. }
  congruence.
Qed.

Lemma rename_hist n i f d : staged n i f d ->
  let d' := bind_entry (di, base) (Some i) (bind_entry (di, n) None d) in
  forall k, hist d' k = if decide (k = (di, base)) then Some i :: hist d0 k
                        else if decide (k = (di, n)) then None :: hist d k else hist d0 k.
Proof using .
  intros H d' k. destruct (st_tmp _ _ _ _ H) as [_ Hn]. unfold d'. rewrite !hist_bind.
  destruct (decide (k = (di, base))) as [->|].
  - rewrite decide_False by congruence. f_equal. apply (st_hist _ _ _ _ H). congruence.
  - destruct (decide (k = (di, n))) as [->|]; [done|]. by apply (st_hist _ _ _ _ H).
Qed.

Lemma renamed_now n i d : staged n i whole d -> src_end src = None ->
  (forall j, bound d (di, base) = Some j -> j ∉ fs_dirs d) ->
  renamed (bind_entry (di, base) (Some i) (bind_entry (di, n) None d)).
Proof using Hwf Hdir Hdi.
  intros H Hend Hj. destruct (staged_dir _ _ _ _ H) as [Hr Hd]. pose proof (rename_hist _ _ _ _ H) as Hh. cbn zeta in Hh.
  set (d' := bind_entry _ _ _) in *. pose proof (st_kept _ _ _ _ H) as Hk. pose proof (st_file _ _ _ _ H) as Hf.
  assert (Hnew : hist d' (di, base) = Some i :: hist d0 (di, base)) by (by rewrite Hh, decide_True).
  assert (Hi : fs_next d0 <= i) by apply H.
  split; [|split; [done|by exists i]].
  - constructor.
    + unfold d'. apply kept_bind; [by apply kept_bind|done|]. intros j [= <-]. right. by eexists.
    + apply (resolve_same d); [apply Hk| |done..]. intros k. unfold d'. rewrite !bound_bind.
      destruct (decide (k = (di, base))) as [->|]; [by right|].
      destruct (decide (k = (di, n))) as [->|]; [right|by left].
      intros j E Hjd. rewrite (st_bound _ _ _ _ H) in E. injection E as <-.
      apply (wf_dir d (kept_wf _ _ Hk)) in Hjd as [Hjd _]. congruence.
    + intros k Hne Htmp. left. rewrite Hh, decide_False by done. rewrite decide_False; [done|]. intros ->.
      apply Htmp. split; [done|]. apply H.
    + right. split; [done|]. exists i. split; [done|]. split; [done|]. by left.
Qed.

Lemma os_rename_spec n i : src_end src = None ->
  triple (staged n i whole) (os_rename (Dir p ++ [n]) p) (fun _ => renamed) (staged n i whole) under_way.
Proof using Hwf Hdir Hdi Hlast.
  intros Hend. apply triple_sys; [|done]. intros d H HI. rewrite (staged_locate _ _ _ _ H).
  destruct (staged_dir _ _ _ _ H) as [Hr Hd]. rewrite (locate_dir d p di base) by done.
  rewrite (st_bound _ _ _ _ H), not_below by apply H. cbn [andb].
  pose proof (st_kept _ _ _ _ H) as Hk. pose proof (st_file _ _ _ _ H) as Hf.
  assert (Hi : is_dir d i = false).
  { destruct (is_dir d i) eqn:E; [|done]. apply is_dir_true, (wf_dir d (kept_wf _ _ Hk)) in E as [E _]. congruence. }
  rewrite Hi. destruct (bound d (di, base)) as [j|] eqn:Hb.
  - destruct (is_dir d j) eqn:Hj; [done|]. destruct (Z.eqb_spec i j) as [<-|].
    + exfalso. apply bound_in in Hb. rewrite (st_hist _ _ _ _ H) in Hb by (intros [= E]; by destruct (st_tmp _ _ _ _ H)).
      apply hist_inode in Hb; [|done]. pose proof (st_new _ _ _ _ H). lia.
    + cbn [fst snd]. assert (Hn : renamed (bind_entry (di, base) (Some i) (bind_entry (di, n) None d))).
      { apply renamed_now; [done..|]. intros j' E. rewrite Hb in E. injection E as <-. intros C.
        apply is_dir_true in C. congruence. }
      split; [done|apply Hn].
  - cbn [fst snd]. assert (Hn : renamed (bind_entry (di, base) (Some i) (bind_entry (di, n) None d))).
    { apply renamed_now; [done..|]. intros j' E. by rewrite Hb in E. }
    split; [done|apply Hn].
Qed.

Lemma settled_in_place d : renamed d -> in_place (settle di d).
Proof using .
  intros (H & Hend & i & Hi & Hf & Hh).
  assert (Hnew : hist (settle di d) (di, base) = [Some i]) by (rewrite hist_settle; cbn [fst]; by rewrite Z.eqb_refl, Hh).
  split; [|by exists i]. constructor.
  - apply kept_settle, H.
  - eapply resolve_same_gen; [|apply H]. intros k. left. apply bound_settle.
  - intros k Hne Htmp. rewrite hist_settle. destruct (uw_other _ H k Hne Htmp) as [E|[E1 E]]; rewrite E.
    + destruct (Z.eqb_spec k.1 di); [by right|by left].
    + right. split; [done|]. destruct (k.1 =? di); [|done]. by destruct (hist d0 k).
  - right. split; [done|]. exists i. split; [done|]. split; [done|]. by right.
Qed.

Lemma FsyncDir_renamed : triple renamed (FsyncDir (Dir p)) (fun _ => in_place) under_way under_way.
Proof using Hdi.
  unfold FsyncDir. eapply triple_bind with (R := fun i d => i = di /\ renamed d).
  { apply triple_sys; [|intros d H; apply H]. intros d H HI. pose proof H as [Hu _]. by rewrite (uw_dir _ Hu). }
  intros i. apply triple_pure. intros ->. eapply triple_bind with (R := fun _ => in_place).
  - apply triple_or_close with (R := renamed).
    + apply triple_sys; [|done]. intros d H HI.
      assert (Hn : fs_files d !! di = None).
      { destruct H as (H & _). pose proof (uw_kept _ H) as Hk. apply (wf_dir d (kept_wf _ _ Hk)).
        by rewrite (kept_dirs _ _ Hk). }
      rewrite Hn. cbn [fst snd]. apply settled_in_place in H. split; [done|apply H].
    + eapply triple_weaken; [apply Close_same|done|intros ? d H; apply H|intros d H; apply H].
  - intros []. eapply triple_weaken; [apply Close_same|done|done|intros d H; apply H].
Qed.

Lemma WriteFileFrom_spec :
  triple (fun d => d = d0) (WriteFileFrom p src mode) (fun _ => in_place) under_way under_way.
Proof using Hwf Hdir Hdi Hlast.
  unfold WriteFileFrom. assert (Hbase : Base p = base) by (unfold Base; by rewrite Hlast). rewrite Hbase.
  eapply triple_bind.
  { apply triple_wrap. eapply triple_weaken; [apply CreateTemp_spec|done|done|]. intros d ->. apply start_under_way. }
  intros [i tp]. cbn beta iota. unfold created. cbn [fst snd].
  apply triple_ex. intros n. apply triple_pure. intros ->.
  eapply triple_bind.
  { eapply triple_or_else; [apply Copy_spec|]. do 2 (apply triple_ex; intros ?). apply close_and_cleanup. }
  intros []. apply triple_pure. intros Hend. apply triple_ex. intros s.
  eapply triple_bind; [eapply triple_or_else; [apply Sync_spec|apply close_and_cleanup]|]. intros [].
  eapply triple_bind; [eapply triple_or_else; [apply Close_same|apply cleanup_staged]|]. intros [].
  eapply triple_bind; [eapply triple_or_else; [apply Chmod_spec|apply cleanup_staged]|]. intros [].
  eapply triple_bind; [eapply triple_or_else; [by apply os_rename_spec|apply cleanup_staged]|]. intros [].
  apply triple_wrap, FsyncDir_renamed.
Qed.
End WriteFile.

(** ** Copying a file *)

Lemma pieces_of_concat fuel : forall b, (length b <= fuel)%nat -> concat (pieces_of fuel b) = b.
Proof.
  induction fuel as [|fuel IH]; intros [|x b] Hl; cbn [length] in Hl; [done|lia|done|].
  cbn [pieces_of concat]. rewrite IH; [apply take_drop|]. rewrite length_drop. cbn [length]. lia.
Qed.

Lemma triple_deferred {A B} P (h : M mach B) (c : M mach A) Q (E I : fs -> Prop) :
  triple P c Q E I ->
  (forall a, triple (Q a) h (fun _ => Q a) (Q a) I) -> triple E h (fun _ => E) E I ->
  triple P (deferred h c) Q E I.
Proof.
  intros Hc Hq He m Hm HI. destruct (Hc m Hm HI) as (HR & HI1 & s1 & E1 & H1). unfold deferred.
  destruct (c m) as [[a|e|w|] m1]; cbn [fst snd] in *; [|  |done..].
  - destruct (Hq a m1 HR HI1) as (Hr & ? & s2 & E2 & H2). split; [by destruct (h m1).1|]. split; [done|]. by eapply seen_app.
  - destruct (He m1 HR HI1) as (Hr & ? & s2 & E2 & H2). split; [by destruct (h m1).1|]. split; [done|]. by eapply seen_app.
Qed.

Lemma triple_at {A} P (c : M mach A) Q (E I I' : fs -> Prop) :
  triple P c Q E I -> (forall d, P d -> I d) -> (forall d, I d -> I' d) -> triple P c Q E I'.
Proof.
  intros H HP HI m Hm _. destruct (H m Hm (HP _ Hm)) as (? & ? & seen & ? & HF). split; [done|]. split; [auto|].
  exists seen. split; [done|]. eapply Forall_impl; [exact HF|done].
Qed.

Definition quiet {A} (o : outcome A) : Prop := match o with Ret _ | Err _ => True | _ => False end.

Lemma triple_lift {A} (o : outcome A) P (I : fs -> Prop) : quiet o ->
  triple P (lift o) (fun a d => o = Ret a /\ P d) P I.
Proof. intros Hq m Hm HI. unfold lift. destruct o; [|by split; [|split; [|exists []]]|done..]. by split; [|split; [|exists []]]. Qed.

Lemma triple_attempt {A} P (c : M mach A) Q (E E' I : fs -> Prop) : triple P c Q E I ->
  triple P (attempt c) (fun o d => match o with Some a => Q a d | None => E d end) E' I.
Proof.
  intros H m Hm HI. destruct (H m Hm HI) as (Hr & HI1 & Hs). unfold attempt.
  by destruct (c m) as [[a|e|w|] m1].
Qed.

Lemma triple_here {A} P (c : M mach A) Q (E I : fs -> Prop) :
  (forall d1, P d1 -> triple (fun d => d = d1) c Q E I) -> triple P c Q E I.
Proof. intros H m Hm. by apply (H _ Hm). Qed.

(** [FsyncDir] settles the directory, even when closing it fails. *)
Lemma FsyncDir_spec d1 p i (I : fs -> Prop) : wf d1 -> resolve d1 p = Some i -> i ∈ fs_dirs d1 ->
  I (settle i d1) ->
  triple (fun d => d = d1) (FsyncDir p) (fun _ d => d = settle i d1) (fun d => d = d1 \/ d = settle i d1) I.
Proof.
  intros Hwf Hp Hi HI1. unfold FsyncDir. eapply triple_bind with (R := fun j d => j = i /\ d = d1).
  { apply triple_sys; [|by left]. intros d -> HI. by rewrite Hp. }
  intros j. apply triple_pure. intros ->. eapply triple_bind with (R := fun _ d => d = settle i d1).
  - apply triple_or_close with (R := fun d => d = d1).
    + apply triple_sys; [|done]. intros d -> HI. by rewrite (proj1 (wf_dir d1 Hwf i Hi)).
    + eapply triple_weaken; [apply (Close_same (fun d => d = d1))|done|intros ? d H; by left|intros d H; by left].
  - intros []. eapply triple_weaken; [apply (Close_same (fun d => d = settle i d1))|done|done|intros d H; by right].
Qed.

(** The copy has the contents and the mode of the source, or what was there. *)
Lemma CopyFile_spec d0 from to si f m0 ms di base : wf d0 ->
  resolve d0 from = Some si -> fs_files d0 !! si = Some f -> f_modes f = m0 :: ms ->
  resolve d0 (Dir to) = Some di -> di ∈ fs_dirs d0 -> last to = Some base ->
  let src := mkSource (pieces_of (length (f_data f)) (f_data f)) None in
  let fails d := under_way d0 to di base src m0 d \/ exists e, under_way d0 to di base (mkSource [] (Some e)) m0 d in
  concat (src_pieces src) = f_data f /\
  triple (fun d => d = d0) (CopyFile from to) (fun _ => in_place d0 to di base src m0) fails fails.
Proof.
  intros Hwf Hs Hf Hm Hdir Hdi Hlast src fails. split; [by apply pieces_of_concat|].
  assert (H0 : fails d0) by (left; by apply start_under_way).
  eapply triple_bind with (R := fun i d => i = si /\ d = d0).
  { apply triple_wrap, triple_sys; [|by intros d ->]. intros d -> HI. by rewrite Hs. }
  intros i. apply triple_pure. intros ->. apply triple_deferred; [|intros []; apply Close_same|apply Close_same].
  eapply triple_bind with (R := fun m d => m = m0 /\ d = d0).
  { apply triple_wrap, triple_sys; [|by intros d ->]. intros d -> HI. by rewrite Hf, Hm. }
  intros m. apply triple_pure. intros ->.
  eapply triple_bind with (R := fun sr d => (sr = src \/ exists e, sr = mkSource [] (Some e)) /\ d = d0).
  - assert (Hr : triple (fun d => d = d0) (read si) (fun b d => b = f_data f /\ d = d0) (fun d => d = d0) fails).
    { apply triple_sys; [|done]. intros d -> HI. by rewrite Hf. }
    intros m Hmd HI. destruct (Hr m Hmd HI) as (HR & HI1 & HS). unfold source_of.
    destruct (read si m) as [[b|e|w|] m1]; cbn [fst snd] in *; [|  |done..].
    + destruct HR as [-> ->]. split; [|done]. split; [by left|done].
    + split; [|done]. split; [right; by exists e|done].
  - intros sr. apply triple_pure. intros [->|[e ->]].
    + eapply triple_at; [eapply triple_weaken; [by apply (WriteFileFrom_spec d0 Hwf to di base src m0)|done|done|]|..].
      * intros d H. by left.
      * intros d ->. by apply start_under_way.
      * intros d H. by left.
    + eapply triple_at; [eapply triple_weaken; [by apply (WriteFileFrom_spec d0 Hwf to di base (mkSource [] (Some e)) m0)|done| |]|..].
      * intros [] d H. exfalso. destruct H as [Hu (i & Hi & Hfi & Hh)].
        destruct (uw_entry _ _ _ _ _ _ _ Hu) as [E|[C _]]; [|done]. rewrite Hh in E.
        assert (Some i ∈ hist d0 (di, base)) as Hin by (rewrite <- E; by left). apply hist_inode in Hin; [lia|done].
      * intros d H. right. by exists e.
      * intros d ->. by apply start_under_way.
      * intros d H. right. by exists e.
Qed.

Lemma resolve_app d p q s : resolve_from d s (p ++ q) = (j ← resolve_from d s p; resolve_from d j q).
Proof.
  revert s. induction p as [|n p IH]; intros s; cbn; [done|]. destruct (bound d (s, n)); [|done]. apply IH.
Qed.

Lemma resolve_last d p di n : resolve d (Dir p) = Some di -> last p = Some n -> resolve d p = bound d (di, n).
Proof.
  intros Hd [l ->]%last_Some. rewrite Dir_snoc in Hd. unfold resolve in *. rewrite resolve_app, Hd. cbn.
  by destruct (bound d (di, n)).
Qed.

Lemma ReadFile_spec d1 p di n (I : fs -> Prop) : resolve d1 (Dir p) = Some di -> last p = Some n ->
  triple (fun d => d = d1) (ReadFile p) (fun b d => d = d1 /\ content d1 (di, n) = Some b) (fun d => d = d1) I.
Proof.
  intros Hd Hl. unfold ReadFile. eapply triple_bind with (R := fun i d => bound d1 (di, n) = Some i /\ d = d1).
  - apply triple_sys; [|done]. intros d -> HI. rewrite (resolve_last _ _ _ _ Hd Hl). by destruct (bound d1 (di, n)).
  - intros i. apply triple_pure. intros Hb. apply triple_deferred; [|intros b; apply Close_same|apply Close_same].
    apply triple_sys; [|done]. intros d -> HI. destruct (fs_files d1 !! i) as [f|] eqn:Hf; [|done].
    cbn [fst snd]. split; [|done]. split; [done|]. unfold content. by rewrite Hb; cbn; rewrite Hf.
Qed.

(** ** Crashes during a call *)

(** [d] is a disk of the run from [m] to [m']. *)
Definition during (m m' : mach) (d : fs) : Prop :=
  d = m_disk m' \/ exists seen, m_past m' = seen ++ m_past m /\ d ∈ seen.

Lemma triple_during {A} P (c : M mach A) Q (E I : fs -> Prop) m d :
  triple P c Q E I -> P (m_disk m) -> I (m_disk m) -> during m (c m).2 d -> I d.
Proof.
  intros H Hm HI [->|(seen & E1 & Hd)]; destruct (H m Hm HI) as (_ & ? & seen' & E2 & HF); [done|].
  rewrite E2 in E1. apply app_inv_tail in E1 as ->. rewrite Forall_forall in HF. by apply HF.
Qed.

(** What is left after a crash at [d] could be left after one at [d0], as far as
    one entry goes. *)
Definition left_at (d : fs) (k : entry) (o : option bytes) : Prop := exists c, crash d c /\ content c k = o.

Lemma bound_hist c k v : hist c k = [v] -> bound c k = v.
Proof. unfold bound. by intros ->. Qed.

Lemma crash_back d0 d c k : wf d0 -> kept d0 d -> crash d c ->
  bound c k ∈ hist d0 k -> left_at d0 k (content c k).
Proof.
  intros Hwf Hk Hc Hv. destruct (crash_entries _ _ Hc k) as (v & _ & Hcv). rewrite (bound_hist _ _ _ Hcv) in Hv.
  pose (pick := fun k' : entry => if decide (k' = k) then v else bound d0 k').
  pose (c0 := mkFs (filter (fun jf => jf.1 < fs_next d0) (fs_files c)) (fs_dirs d0)
                (map_imap (fun k' _ => Some [pick k']) (fs_entries d0)) (fs_next d0)).
  assert (Hh : forall k', hist c0 k' = [pick k']).
  { intros k'. unfold hist, c0. cbn. rewrite map_lookup_imap. unfold pick.
    destruct (fs_entries d0 !! k') as [h|] eqn:E; cbn; [done|].
    case_decide as Ek; [subst|]; unfold bound, hist in *; rewrite E in *; cbn in *; [|done].
    by apply list_elem_of_singleton in Hv as ->. }
  assert (Hfile : forall i, i < fs_next d0 -> fs_files c0 !! i = fs_files c !! i).
  { intros i Hi. cbn. destruct (fs_files c !! i) eqn:E; [by apply map_lookup_filter_Some|].
    apply map_lookup_filter_None. by left. }
  exists c0. split.
  - constructor; cbn; [done|done| |].
    + intros k'. exists (pick k'). split; [|done]. unfold pick. case_decide as Ek; [by subst|].
      unfold bound. pose proof (hist_nonempty d0 k' Hwf). destruct (hist d0 k'); [done|]. by left.
    + intros i. destruct (decide (i < fs_next d0)) as [Hi|Hi].
      * change (filter _ _ !! i) with (fs_files c0 !! i). rewrite Hfile by done.
        pose proof (crash_files _ _ Hc i) as H. by rewrite (kept_files _ _ Hk) in H.
      * destruct (fs_files d0 !! i) eqn:E; [by apply (wf_file d0 Hwf) in E as [? _]|].
        replace (filter _ _ !! i) with (None : option file); [done|]. symmetry.
        apply map_lookup_filter_None. right. intros x _. cbn. done.
  - unfold content. rewrite (bound_hist c0 k v), (bound_hist c k v) by (rewrite ?Hh; unfold pick; by rewrite ?decide_True).
    destruct v as [i|]; [|done]. cbn. rewrite Hfile; [done|]. by eapply hist_inode.
Qed.

Lemma crash_content d c k i f : crash d c -> hist d k = [Some i] -> fs_files d !! i = Some f -> f_synced f = true ->
  content c k = Some (f_data f).
Proof.
  intros Hc Hh Hf Hs. destruct (crash_entries _ _ Hc k) as (v & Hv & Hcv). rewrite Hh in Hv.
  apply list_elem_of_singleton in Hv as ->. unfold content. rewrite (bound_hist _ _ _ Hcv). cbn.
  pose proof (crash_files _ _ Hc i) as H. rewrite Hf in H. destruct (fs_files c !! i); [|done].
  destruct H as (_ & _ & H). cbn. by rewrite H.
Qed.

Lemma crash_bound d c k : crash d c -> bound c k ∈ hist d k.
Proof. intros Hc. destruct (crash_entries _ _ Hc k) as (v & Hv & Hcv). by rewrite (bound_hist _ _ _ Hcv). Qed.

Lemma in_take_1 {A} (x : A) l : x ∈ take 1 l -> x ∈ l.
Proof. intros H. rewrite <- (take_drop 1 l). apply elem_of_app. by left. Qed.

Lemma under_way_left d0 p di base src mode d c k : wf d0 -> under_way d0 p di base src mode d -> crash d c ->
  ~ (k.1 = di /\ is_tmp k.2) \/ k = (di, base) ->
  left_at d0 k (content c k) \/
  (k = (di, base) /\ src_end src = None /\ content c k = Some (concat (src_pieces src))).
Proof.
  intros Hwf H Hc Hk. pose proof (crash_bound _ _ k Hc) as Hb.
  destruct (decide (k = (di, base))) as [->|Hne].
  - destruct (uw_entry _ _ _ _ _ _ _ H) as [E|(Hend & i & Hi & Hf & E)].
    + left. eapply crash_back; [done|apply H|done|]. by rewrite E in Hb.
    + destruct (decide (bound c (di, base) = Some i)) as [Hbi|Hbi].
      * right. split; [done|]. split; [done|]. unfold content. rewrite Hbi. cbn.
        pose proof (crash_files _ _ Hc i) as Hfi. rewrite Hf in Hfi. destruct (fs_files c !! i); [|done].
        cbn in *. destruct Hfi as (_ & _ & ->); done.
      * left. eapply crash_back; [done|apply H|done|].
        destruct E as [E|E]; rewrite E in Hb; apply elem_of_cons in Hb as [?|Hb]; [done..|by apply elem_of_nil in Hb].
  - left. destruct Hk as [Hk|]; [|done]. eapply crash_back; [done|apply H|done|].
    destruct (uw_other _ _ _ _ _ _ _ H k Hne Hk) as [E|[_ E]]; rewrite E in Hb; [done|by apply in_take_1].
Qed.

(** ** Properties *)

(** C19: [WriteFileFrom] is atomic and durable, whatever fails: if the power
    goes at any moment of the call, the file has one of the contents it could have
    had before, or all of the new contents and then the source was read to its end;
    no other entry is touched, but for names of temporary files; and once the call
    has returned nil, a crash leaves the new contents. *)
Theorem write_atomic p di base src mode m d c :
  wf (m_disk m) -> resolve (m_disk m) (Dir p) = Some di -> di ∈ fs_dirs (m_disk m) -> last p = Some base ->
  let '(r, m') := WriteFileFrom p src mode m in
  during m m' d -> crash d c ->
  (forall k, ~ (k.1 = di /\ is_tmp k.2) \/ k = (di, base) ->
    left_at (m_disk m) k (content c k) \/
    (k = (di, base) /\ src_end src = None /\ content c k = Some (concat (src_pieces src)))) /\
  (r = Ret tt -> d = m_disk m' -> content c (di, base) = Some (concat (src_pieces src))).
Proof.
  intros Hwf Hdir Hdi Hlast. pose proof (WriteFileFrom_spec _ Hwf p di base src mode Hdir Hdi Hlast) as H.
  pose proof (start_under_way _ Hwf p di base src mode Hdir) as H0.
  pose proof (triple_during _ _ _ _ _ m d H eq_refl H0) as Hd. destruct (H m eq_refl H0) as [Hr _].
  destruct (WriteFileFrom p src mode m) as [r m']. cbn [fst snd] in *. intros Hdur Hc. split.
  - intros k Hk. eapply under_way_left; [done|by apply Hd|done|done].
  - intros -> ->. destruct Hr as (_ & i & _ & Hf & Hh). by rewrite (crash_content _ _ _ _ _ Hc Hh Hf).
Qed.

(** ** Concrete disks *)

Definition wfb (d : fs) : bool :=
  is_dir d root &&
  forallb (fun i => bool_decide (fs_files d !! i = None) && (i <? fs_next d)) (elements (fs_dirs d)) &&
  forallb (fun jf : Z * file => (jf.1 <? fs_next d) && negb (bool_decide (f_modes jf.2 = []))) (map_to_list (fs_files d)) &&
  forallb (fun kh : entry * list (option Z) =>
    is_dir d kh.1.1 && negb (bool_decide (kh.2 = [])) &&
    forallb (fun v => match v with
                      | Some i => is_dir d i || bool_decide (is_Some (fs_files d !! i))
                      | None => true
                      end) kh.2) (map_to_list (fs_entries d)).

Lemma wfb_wf d : wfb d = true -> wf d.
Proof.
  unfold wfb. rewrite !andb_true_iff, !forallb_forall. intros [[[Hr Hd] Hf] He]. constructor.
  - by apply is_dir_true.
  - intros i Hi. specialize (Hd i). rewrite <- list_elem_of_In, elem_of_elements in Hd. apply Hd in Hi.
    apply andb_true_iff in Hi as [H1 H2]. apply bool_decide_eq_true in H1. apply Z.ltb_lt in H2. done.
  - intros i f E. specialize (Hf (i, f)). rewrite <- list_elem_of_In, elem_of_map_to_list in Hf. apply Hf in E.
    apply andb_true_iff in E as [H1 H2]. apply Z.ltb_lt in H1. apply negb_true_iff, bool_decide_eq_false in H2. done.
  - intros k h E. specialize (He (k, h)). rewrite <- list_elem_of_In, elem_of_map_to_list in He. apply He in E.
    apply andb_true_iff in E as [E H3]. apply andb_true_iff in E as [H1 H2]. cbn in *.
    apply is_dir_true in H1. apply negb_true_iff, bool_decide_eq_false in H2. split; [done|]. split; [done|].
    intros i Hi. rewrite forallb_forall in H3. apply list_elem_of_In in Hi. specialize (H3 _ Hi). cbn in H3.
    apply orb_true_iff in H3 as [H3|H3]; [left; by apply is_dir_true|right; by apply bool_decide_eq_true in H3].
Qed.

(** The crash that leaves [pick] of every entry, and the files as they are. *)
Definition crash_pick (pick : entry -> list (option Z) -> option Z) (d : fs) : fs :=
  mkFs ((fun f => mkFile (f_data f) (take 1 (f_modes f)) true) <$> fs_files d) (fs_dirs d)
    (map_imap (fun k h => Some [pick k h]) (fs_entries d)) (fs_next d).

Lemma crash_pick_ok pick d : wf d -> (forall k h, h <> [] -> pick k h ∈ h) -> crash d (crash_pick pick d).
Proof.
  intros Hwf Hp. constructor; cbn; [done|done| |].
  - intros k. unfold hist. cbn. rewrite map_lookup_imap. destruct (fs_entries d !! k) as [h|] eqn:E; cbn.
    + exists (pick k h). split; [|done]. apply Hp. by apply (wf_entry d Hwf _ _ E).
    + exists None. split; [by left|done].
  - intros i. rewrite lookup_fmap. destruct (fs_files d !! i) as [f|] eqn:E; cbn; [|done].
    split; [done|]. split; [|done]. apply (wf_file d Hwf) in E as [_ E]. destruct (f_modes f) as [|x l]; [done|].
    exists x. split; [by left|done].
Qed.

(** The crash that loses nothing. *)
Definition keep_all (k : entry) (h : list (option Z)) : option Z := default None (head h).

Lemma keep_all_ok d : wf d -> crash d (crash_pick keep_all d).
Proof. intros Hwf. apply crash_pick_ok; [done|]. intros k [|v h] Hh; [done|]. by left. Qed.

(** The directories "data" and "src", a file in each. *)
Definition sample_disk : fs :=
  mkFs (list_to_map [(3, mkFile (str "old") [420] true); (4, mkFile (str "payload") [420] true)])
    {[0; 1; 2]}
    (list_to_map [((0, str "data"), [Some 1]); ((0, str "src"), [Some 2]);
                  ((1, str "f"), [Some 3]); ((2, str "g"), [Some 4])]) 5.

Definition sample_machine (faults : list (option goerr)) : mach := Mach sample_disk [] faults [7; 7; 8].

(** A write that goes through; one that fails at the sync of the directory, after
    the rename: the error is returned, the new contents are there. *)
Example write_runs :
  let '(r, m) := WriteFile [str "data"; str "f"] (str "new") 420 (sample_machine []) in
  r = Ret tt /\ content (m_disk m) (1, str "f") = Some (str "new") /\ hist (m_disk m) (1, str "f") = [Some 5] /\
  entries_of (m_disk m) 1 = [str "f"].
Proof. vm_compute. auto. Qed.

Example write_fails_late :
  let ok := @None goerr in
  let '(r, m) := WriteFile [str "data"; str "f"] (str "new") 420
                   (sample_machine [ok; ok; ok; ok; ok; ok; ok; Some (Errorf "input/output error")]) in
  r = Err (Wrapf "durable: fsync dir" (Errorf "input/output error")) /\
  hist (m_disk m) (1, str "f") = [Some 5; Some 3].
Proof. vm_compute. auto. Qed.

Lemma write_atomic_witness :
  content (crash_pick keep_all (m_disk (WriteFile [str "data"; str "f"] (str "new") 420 (sample_machine [])).2)) (1, str "f") =
  Some (str "new").
Proof.
  pose proof (fun d c => write_atomic [str "data"; str "f"] 1 (str "f") (mkSource [str "new"] None) 420 (sample_machine []) d c
    (wfb_wf sample_disk eq_refl) eq_refl ltac:(cbn; set_solver) eq_refl) as H.
  change (WriteFileFrom _ _ _ (sample_machine [])) with (WriteFile [str "data"; str "f"] (str "new") 420 (sample_machine [])) in H.
  assert (Hr : (WriteFile [str "data"; str "f"] (str "new") 420 (sample_machine [])).1 = Ret tt) by (vm_compute; reflexivity).
  assert (Hwf : wfb (m_disk (WriteFile [str "data"; str "f"] (str "new") 420 (sample_machine [])).2) = true) by (vm_compute; reflexivity).
  destruct (WriteFile _ _ _ (sample_machine [])) as [r m']. cbn [fst snd] in *.
  destruct (H (m_disk m') _ (or_introl eq_refl) (keep_all_ok _ (wfb_wf _ Hwf))) as [_ H']. by apply H'.
Defined.

(** A crash may leave the mode of the temporary file: [Chmod] comes after the sync
    of the contents. *)
Example mode_not_synced :
  let '(r, m) := WriteFile [str "data"; str "f"] (str "new") 420 (sample_machine []) in
  r = Ret tt /\ fs_files (m_disk m) !! 5 = Some (mkFile (str "new") [420; 384] true).
Proof. vm_compute. auto. Qed.

(** [CloneTree] syncs the directories it made, but not the one its destination is
    in: after a call that returned nil, a crash can take the whole copy. *)
Theorem clone_root_lost :
  let '(r, m) := CloneTree 3 [str "src"] [str "data"; str "app"] (sample_machine []) in
  r = Ret tt /\ resolve (m_disk m) [str "data"; str "app"; str "g"] <> None /\
  exists c, crash (m_disk m) c /\ resolve c [str "data"; str "app"] = None.
Proof.
  set (run := CloneTree 3 [str "src"] [str "data"; str "app"] (sample_machine [])).
  pose (pick := fun (k : entry) (h : list (option Z)) =>
                  if decide (k = (1, str "app")) then default None (last h) else default None (head h)).
  assert (H : run.1 = Ret tt /\ wfb (m_disk run.2) = true /\ resolve (m_disk run.2) [str "data"; str "app"; str "g"] = Some 6 /\
    resolve (crash_pick pick (m_disk run.2)) [str "data"; str "app"] = None) by (vm_compute; auto).
  destruct run as [r m]. cbn [fst snd] in H. destruct H as (Hr & Hwf & Hg & Hl).
  split; [done|]. split; [by rewrite Hg|]. exists (crash_pick pick (m_disk m)). split; [|done].
  apply crash_pick_ok; [by apply wfb_wf|]. intros k h Hh. unfold pick. case_decide.
  - destruct (last h) as [v|] eqn:E; [|by apply last_None in E]. apply last_Some in E as [l ->]. cbn. set_solver.
  - destruct h; [done|]. cbn. set_solver.
Qed.
