(* ===== verification/Fetch.v ===== *)
(** * The snapshot directory of a fetch (internal/snapfetch: runfetch.go, session.go)

    A fetch writes metadata.bin, the chunks, meta.json and at last the empty file
    .complete, which tells the importer and the server that the rest is there.
    The writes are those of [Durable], over its disks; what the download writes and
    removes, chunk by chunk, is an argument ([Scheduler] says what that is).  The
    main theorem: wherever the power goes, a directory found with .complete holds
    the offer's metadata, the chunks whose hash was checked and meta.json - if it
    did not have a .complete before; the last theorem is about one that did. *)

From S2P Require Import Prelude Sha256 Walk Scheduler Durable.

(** ** meta.json *)

(** [savedMeta]; the human-readable size is a function of [m_BytesTotal]. *)
Record savedMeta := mkMeta {
  m_ChainID : bytes; m_Height : Z; m_Format : Z; m_Chunks : Z; m_HashHex : bytes; m_MetadataLen : Z;
  m_GoodPeers : list bytes; m_OfferedBy : list bytes; m_DownloadedAt : Z; m_BytesTotal : Z
}.

Definition ErrDiskFailed : string := "disk failed".
Definition ErrDownloadFailed : string := "download failed".

(** [errors.Is(err, ErrDiskFailed)]. *)
Fixpoint is_disk_failed (e : goerr) : bool :=
  match e with
  | Wrapf msg e => bool_decide (msg = ErrDiskFailed) || is_disk_failed e
  | _ => false
  end.

(** The files of a directory. *)
Definition view (d : fs) (i : Z) : gmap bytes bytes :=
  list_to_map (omap (fun kh : entry * list (option Z) =>
    if kh.1.1 =? i then (fun b => (kh.1.2, b)) <$> content d kh.1 else None) (map_to_list (fs_entries d))).

Definition complete_name : bytes := str ".complete".
Definition metadata_name : bytes := str "metadata.bin".
Definition meta_name : bytes := str "meta.json".

(** What a download does in the directory: it writes chunks, and removes files
    that an earlier one left ([e.IsDir()] entries are skipped). *)
Inductive dl := Wrote (idx : Z) (data : bytes) | Removed (name : bytes).

Section Fetch.
Context (chainID : bytes) (offer : snapshotOffer) (outRoot : path).
(** The JSON encoder of [writeJSONAtomic]. *)
Context (json : savedMeta -> outcome bytes).

Definition snapDir : path := outRoot ++ [str "snapshot_" ++ chainID ++ str "_" ++ decimal (Height offer)].

Definition prepareSnapshotDir : M mach (list bytes) :=
  chunkHashes ← lift (wrap_out "parse chunk_hashes" (parseChunkHashes (Metadata offer)));
  if negb (u32 (len chunkHashes) =? Chunks offer) then fail (Errorf "metadata mismatch: chunk_hashes")
  else
    wrap_err ErrDiskFailed (MkdirAll snapDir);;
    wrap_err ErrDiskFailed (FsyncDir outRoot);;
    existing ← attempt (ReadFile (snapDir ++ [metadata_name]));
    (if bool_decide (existing = Some (Metadata offer)) then mret tt
     else wrap_err ErrDiskFailed (WriteFile (snapDir ++ [metadata_name]) (Metadata offer) 420));;
    mret chunkHashes.

Definition run_dl (op : dl) : M mach unit :=
  match op with
  | Wrote idx data => ignore (WriteFile (snapDir ++ [chunk_name idx]) data 420)
  | Removed name =>
      ignore ('(dir, _) ← Lstat (snapDir ++ [name]);
              if dir : bool then mret tt else Remove (snapDir ++ [name]))
  end.

(** [writeJSONAtomic]. *)
Definition writeJSONAtomic (p : path) (meta : savedMeta) : M mach unit :=
  buf ← lift (json meta);
  WriteFile p buf 420.

Definition meta_of (good : list peerID) (bytesTotal now : Z) : savedMeta :=
  mkMeta chainID (Height offer) (Format offer) (Chunks offer) (hexEncode (Hash offer)) (len (Metadata offer))
    (merge_sort bytes_le good) (merge_sort bytes_le (elements (Peers offer))) now bytesTotal.

Definition writeMeta (good : list peerID) (bytesTotal now : Z) : M mach unit :=
  wrap_err ErrDiskFailed (writeJSONAtomic (snapDir ++ [meta_name]) (meta_of good bytesTotal now));;
  wrap_err ErrDiskFailed (FsyncDir snapDir);;
  wrap_err ErrDiskFailed (WriteFile (snapDir ++ [complete_name]) [] 420);;
  wrap_err ErrDiskFailed (FsyncDir snapDir).

(** [verifySnapshotHash] of [Scheduler] on the files that are there. *)
Definition verifyOnDisk (cancelled : Z -> bool) : M mach unit := sys (fun d =>
  match resolve d snapDir with
  | None => (Err ENOENT, d)
  | Some i => (verifySnapshotHash cancelled (view d i) (Chunks offer) (Hash offer), d)
  end).

(** What [RunFetch] does once the walk has found the offer, who is good and chunk 0;
    [ready] is the answer of the OnDownloadReady callback, [downloaded] that of the
    download. *)
Record fetch_env := mkFetch {
  fe_good : list peerID; fe_chunk0 : bytes; fe_ready : option goerr; fe_ops : list dl;
  fe_downloaded : outcome Z; fe_skip : bool; fe_cancelled : Z -> bool; fe_now : Z
}.

Definition download_err (e : goerr) : goerr := if is_disk_failed e then e else Wrapf ErrDownloadFailed e.

Definition RunFetch (e : fetch_env) : M mach unit :=
  _ ← prepareSnapshotDir;
  (match fe_chunk0 e with
   | [] => mret tt
   | chunk0 => ignore (WriteFile (snapDir ++ [chunk_name 0]) chunk0 420)
   end);;
  (match fe_ready e with Some err => fail (Wrapf "on-download-ready" err) | None => mret tt end);;
  fold_m (fun _ op => run_dl op) tt (fe_ops e);;
  bytesTotal ← lift (match fe_downloaded e with Err err => Err (download_err err) | r => r end);
  (if fe_skip e then mret tt else wrap_err "snapshot hash verify" (verifyOnDisk (fe_cancelled e)));;
  writeMeta (fe_good e) bytesTotal (fe_now e).
End Fetch.

(** ** Lookups *)

Lemma view_lookup d i n : view d i !! n = content d (i, n).
Proof.
  unfold view. set (f := fun kh : entry * list (option Z) => _).
  assert (Hin : forall b, (n, b) ∈ omap f (map_to_list (fs_entries d)) <-> content d (i, n) = Some b).
  { intros b. rewrite list_elem_of_omap. split.
    - intros ([[j n'] h] & _ & Hf). unfold f in Hf. cbn in Hf. destruct (Z.eqb_spec j i) as [->|]; [|done].
      destruct (content d (i, n')) eqn:E; [|done]. cbn in Hf. injection Hf as <- <-. done.
    - intros Hc. pose proof Hc as Hb. unfold content, bound, hist in Hb.
      destruct (fs_entries d !! (i, n)) as [h|] eqn:E; [|done].
      exists (i, n, h). split; [by apply elem_of_map_to_list|]. unfold f. cbn. by rewrite Z.eqb_refl, Hc. }
  destruct (content d (i, n)) as [b|] eqn:E.
  - apply elem_of_list_to_map; [|by apply Hin].
    assert (Hnd : forall l : list (entry * list (option Z)), NoDup (l.*1) -> NoDup ((omap f l).*1)).
    { assert (Hf : forall kh n2 b2, f kh = Some (n2, b2) -> kh.1 = (i, n2)).
      { intros [[j n'] h] n2 b2. unfold f. cbn. destruct (Z.eqb_spec j i) as [->|]; [|done].
        destruct (content d (i, n')); [|done]. cbn. by intros [= <- <-]. }
      induction l as [|kh l IH]; cbn; [constructor|]. intros [Hn Hl]%NoDup_cons. specialize (IH Hl).
      destruct (f kh) as [[n2 b2]|] eqn:E2; [|done].
      cbn. constructor; [|done]. intros C. apply Hn. apply list_elem_of_fmap in C as ([n3 b3] & E3 & C).
      cbn in E3. subst n3. apply list_elem_of_omap in C as (kh' & C & E3).
      rewrite (Hf _ _ _ E2), <- (Hf _ _ _ E3). apply list_elem_of_fmap. by exists kh'. }
    apply Hnd, NoDup_fst_map_to_list.
  - apply not_elem_of_list_to_map_1. intros C. apply list_elem_of_fmap in C as ([n' b] & -> & C).
    apply Hin in C. cbn in *. congruence.
Qed.

(** A verified directory: the chunk files, in order, hash to the offer's hash. *)
Definition chunks_match (offer : snapshotOffer) (find : bytes -> option bytes) : Prop :=
  exists l, length l = Z.to_nat (Chunks offer) /\
    (forall i, 0 <= i < Chunks offer -> find (chunk_name i) = l !! Z.to_nat i) /\ sha256 (concat l) = Hash offer.

Lemma hash_chunks_read cancelled fs n : forall i acc out, 0 <= i ->
  hash_chunks cancelled fs n i acc = Ret out ->
  exists l, length l = n /\ out = acc ++ concat l /\
    forall k, i <= k < i + Z.of_nat n -> fs !! chunk_name k = l !! Z.to_nat (k - i).
Proof.
  induction n as [|n IH]; intros i acc out Hi E; cbn [hash_chunks] in E.
  - injection E as <-. exists []. rewrite app_nil_r. split; [done|]. split; [done|]. lia.
  - destruct (cancelled i); [done|]. destruct (fs !! chunk_name i) as [b|] eqn:Hb; [|done].
    apply IH in E as (l & Hl & -> & Hk); [|lia]. exists (b :: l). cbn [length concat]. rewrite <- app_assoc, Hl.
    split; [done|]. split; [done|]. intros k Hr. destruct (Z.eq_dec k i) as [->|].
    + by rewrite Z.sub_diag.
    + rewrite Hk by lia. replace (Z.to_nat (k - i)) with (S (Z.to_nat (k - (i + 1)))) by lia. done.
Qed.

Lemma verify_match offer cancelled fs : verifySnapshotHash cancelled fs (Chunks offer) (Hash offer) = Ret tt ->
  chunks_match offer (fun n => fs !! n).
Proof.
  unfold verifySnapshotHash. intros E. destruct (hash_chunks _ _ _ _ _) as [out| | |] eqn:Hh; [|done..].
  cbn in E. case_bool_decide as Hs; [|done]. apply hash_chunks_read in Hh as (l & Hl & -> & Hk); [|lia].
  exists l. split; [done|]. split; [|done]. intros i Hi. cbn beta. rewrite Hk by lia. by rewrite Z.sub_0_r.
Qed.

Lemma chunks_match_ext offer f g : (forall i, 0 <= i < Chunks offer -> f (chunk_name i) = g (chunk_name i)) ->
  chunks_match offer f -> chunks_match offer g.
Proof. intros H (l & Hl & Hf & Hs). exists l. split; [done|]. split; [|done]. intros i Hi. rewrite <- H by done. auto. Qed.

(** ** Names *)

Lemma not_tmp_head (c : Init.Byte.byte) n : c <> byte.of_Z 46 -> ~ is_tmp (c :: n).
Proof. intros Hc (x & E). injection E as E _. apply Hc. by rewrite E. Qed.

Lemma chunk_name_head i : exists n, chunk_name i = byte.of_Z 99 :: n.
Proof. by eexists. Qed.

Lemma chunk_not_tmp i : ~ is_tmp (chunk_name i).
Proof. destruct (chunk_name_head i) as [n ->]. by apply not_tmp_head. Qed.

Lemma metadata_not_tmp : ~ is_tmp metadata_name.
Proof. by apply not_tmp_head. Qed.

Lemma meta_not_tmp : ~ is_tmp meta_name.
Proof. by apply not_tmp_head. Qed.

Lemma complete_not_tmp : ~ is_tmp complete_name.
Proof.
  intros (x & E). apply (f_equal (@rev _)) in E. rewrite !rev_app_distr in E. discriminate E.
Qed.

Lemma chunk_name_other i : chunk_name i <> metadata_name /\ chunk_name i <> meta_name /\ chunk_name i <> complete_name.
Proof. destruct (chunk_name_head i) as [n ->]. done. Qed.

(** ** A directory without the sentinel *)

Section Directory.
Context (S : path) (di : Z) (old : entry -> list (option Z)).

(** The entries of the other directories are as they were, [old], but for syncs. *)
Definition others_kept (d : fs) : Prop :=
  forall k, k.1 <> di -> hist d k = old k \/ hist d k = take 1 (old k).

Lemma others_settle o d : others_kept d -> others_kept (settle o d).
Proof using.
  intros H k Hk. rewrite hist_settle. destruct (_ =? _); [|by apply H].
  right. destruct (H k Hk) as [-> | ->]; [done|by destruct (old k)].
Qed.

Lemma others_under_way d1 n src mode d : others_kept d1 -> under_way d1 (S ++ [n]) di n src mode d -> others_kept d.
Proof using.
  intros H1 H k Hk. destruct (uw_other _ _ _ _ _ _ _ H k) as [-> |[? _]]; [|by intros [? _]|by apply H1|done].
  intros ->. done.
Qed.

(** The files are synced, but for temporary ones. *)
Definition all_synced (d : fs) : Prop :=
  forall n i f, bound d (di, n) = Some i -> ~ is_tmp n -> fs_files d !! i = Some f -> f_synced f = true.

(** No crash can bring a .complete; and the files are synced, but for temporary
    ones. *)
Record unsealed (d : fs) : Prop := {
  us_wf : wf d;
  us_path : resolve d S = Some di;
  us_dir : di ∈ fs_dirs d;
  us_none : forall v, v ∈ hist d (di, complete_name) -> v = None;
  us_synced : all_synced d;
  us_others : others_kept d
}.

(** The same files, but for [n] and temporary ones. *)
Definition same_but (n : bytes) (d1 d : fs) : Prop :=
  forall n', ~ is_tmp n' -> n' <> n -> content d (di, n') = content d1 (di, n').

Lemma same_but_trans n d1 d2 d3 : same_but n d1 d2 -> same_but n d2 d3 -> same_but n d1 d3.
Proof using. intros H1 H2 n' Ht Hn. by rewrite H2, H1. Qed.

Lemma bound_take (d1 d : fs) k : hist d k = hist d1 k \/ hist d k = take 1 (hist d1 k) -> bound d k = bound d1 k.
Proof using. unfold bound. intros [-> | ->]; [done|]. by destruct (hist d1 k). Qed.

Lemma content_settle o d k : content (settle o d) k = content d k.
Proof using. unfold content. by rewrite bound_settle. Qed.

Lemma Dir_in n : Dir (S ++ [n]) = S.
Proof using. apply Dir_snoc. Qed.

Lemma under_way_other d1 n src mode d n' : under_way d1 (S ++ [n]) di n src mode d -> ~ is_tmp n' -> n' <> n ->
  bound d (di, n') = bound d1 (di, n').
Proof using.
  intros H Ht Hn. apply bound_take.
  destruct (uw_other _ _ _ _ _ _ _ H (di, n')) as [E|[_ E]]; [congruence|by intros [_ ?]|by left|by right].
Qed.

Lemma under_way_same d1 n src mode d : wf d1 -> under_way d1 (S ++ [n]) di n src mode d -> same_but n d1 d.
Proof using.
  intros Hwf H n' Ht Hn. unfold content. rewrite (under_way_other _ _ _ _ _ _ H Ht Hn).
  destruct (bound d1 (di, n')) as [i|] eqn:Hb; [|done]. cbn.
  rewrite (kept_files _ _ (uw_kept _ _ _ _ _ _ _ H)); [done|]. by eapply hist_inode; [|apply bound_in].
Qed.

(** During and after a write they still are. *)
Lemma under_way_synced d1 n src mode d : wf d1 -> all_synced d1 -> under_way d1 (S ++ [n]) di n src mode d ->
  all_synced d.
Proof using.
  intros Hwf H1 H n' i f Hb Ht Hf.
  assert (Hold : bound d1 (di, n') = Some i -> f_synced f = true).
  { intros Hb1. eapply H1; [done..|].
    rewrite <- (kept_files _ _ (uw_kept _ _ _ _ _ _ _ H)); [done|]. by eapply hist_inode; [|apply bound_in]. }
  destruct (decide (n' = n)) as [->|Hn].
  - destruct (uw_entry _ _ _ _ _ _ _ H) as [E|(_ & j & _ & Hj & E)].
    + apply Hold. unfold bound in *. by rewrite <- E.
    + assert (i = j) as ->; [|rewrite Hj in Hf; by injection Hf as <-].
      unfold bound in Hb. destruct E as [E|E]; rewrite E in Hb; by injection Hb.
  - apply Hold. by rewrite <- (under_way_other _ _ _ _ _ _ H Ht Hn).
Qed.

Lemma unsealed_under_way d1 n src mode d : unsealed d1 -> n <> complete_name ->
  under_way d1 (S ++ [n]) di n src mode d -> unsealed d.
Proof using.
  intros H1 Hn H. pose proof (uw_kept _ _ _ _ _ _ _ H) as Hk. pose proof (uw_dir _ _ _ _ _ _ _ H) as Hd.
  rewrite Dir_in in Hd. constructor; [apply Hk|done| | | |eapply others_under_way; [apply H1|done]].
  - rewrite (kept_dirs _ _ Hk). apply H1.
  - intros v Hv. apply (us_none _ H1).
    destruct (uw_other _ _ _ _ _ _ _ H (di, complete_name)) as [E|[_ E]].
    + congruence.
    + intros [_ C]. by apply complete_not_tmp in C.
    + by rewrite <- E.
    + rewrite E in Hv. by apply in_take_1.
  - eapply under_way_synced; [apply H1..|done].
Qed.

Lemma unsealed_settle o d : unsealed d -> unsealed (settle o d).
Proof using.
  intros [Hwf Hp Hd Hn Hs Ho]. constructor; [by apply wf_settle| |done| | |by apply others_settle].
  - eapply resolve_same_gen; [|done]. intros k. left. apply bound_settle.
  - intros v Hv. apply Hn. rewrite hist_settle in Hv. destruct (_ =? _); [by apply in_take_1|done].
  - intros n i f. rewrite bound_settle. apply Hs.
Qed.

Lemma unsealed_no_sentinel d c : unsealed d -> crash d c -> content c (di, complete_name) = None.
Proof using.
  intros H Hc. unfold content. apply (crash_bound _ _ (di, complete_name)) in Hc. apply (us_none _ H) in Hc.
  by rewrite Hc.
Qed.

(** [WriteFile] in the directory. *)
Lemma write_unsealed d1 n data mode (I : fs -> Prop) : unsealed d1 -> n <> complete_name ->
  (forall d, unsealed d -> I d) ->
  triple (fun d => d = d1) (WriteFile (S ++ [n]) data mode)
    (fun _ d => unsealed d /\ same_but n d1 d /\ content d (di, n) = Some data)
    (fun d => unsealed d /\ same_but n d1 d) I.
Proof using.
  intros H1 Hn HI.
  assert (Hu : forall d, under_way d1 (S ++ [n]) di n (mkSource [data] None) mode d -> unsealed d /\ same_but n d1 d).
  { intros d H. split; [by eapply unsealed_under_way|]. eapply under_way_same; [apply H1|done]. }
  assert (Hp : resolve d1 (Dir (S ++ [n])) = Some di) by (rewrite Dir_in; apply H1).
  eapply triple_at; [eapply triple_weaken|..].
  - apply (WriteFileFrom_spec d1 (us_wf _ H1) (S ++ [n]) di n (mkSource [data] None) mode Hp (us_dir _ H1)).
    by rewrite last_snoc.
  - done.
  - intros [] d [H (i & Hi & Hf & Hh)]. destruct (Hu d H). split; [done|]. split; [done|].
    unfold content. rewrite (bound_hist _ _ _ Hh). cbn. rewrite Hf. cbn. by rewrite app_nil_r.
  - apply Hu.
  - intros d ->. apply start_under_way; [apply H1|done].
  - intros d H. apply HI. by apply Hu.
Qed.

(** Removing a file of the directory. *)
Lemma remove_unsealed d1 n (I : fs -> Prop) : unsealed d1 -> n <> complete_name ->
  (forall d, unsealed d -> I d) ->
  triple (fun d => d = d1) (Remove (S ++ [n])) (fun _ d => unsealed d /\ same_but n d1 d)
    (fun d => d = d1) I.
Proof using.
  intros H1 Hn HI. apply triple_sys; [|done]. intros d -> HI1.
  pose proof (us_wf _ H1) as Hwf. pose proof (us_path _ H1) as Hp.
  rewrite (locate_dir d1 (S ++ [n]) di n); [|by rewrite Dir_in|apply H1|by rewrite last_snoc].
  destruct (bound d1 (di, n)) as [i|] eqn:Hb; [|done].
  destruct (is_dir d1 i && _) eqn:E; [done|]. cbn [fst snd].
  assert (Hu : unsealed (bind_entry (di, n) None d1)); [|split; [|by apply HI]; split; [done|]].
  - constructor; [by apply wf_bind; [|apply H1|]| |apply H1| | |
      intros k Hk; rewrite hist_bind, decide_False by (intros ->; done); by apply H1].
    + eapply resolve_same_gen; [|done]. intros k. rewrite bound_bind. destruct (decide (k = (di, n))) as [->|]; [right|by left].
      intros j Ej. rewrite Hb in Ej. injection Ej as <-. destruct (is_dir d1 i) eqn:Hi; cbn in E.
      * apply negb_false_iff, bool_decide_eq_true in E.
        assert (Hempty : forall n', bound d1 (i, n') = None).
        { intros n'. destruct (bound d1 (i, n')) eqn:Hb'; [|done]. exfalso.
          assert (Hin : n' ∈ entries_of d1 i); [|rewrite E in Hin; by apply elem_of_nil in Hin].
          unfold entries_of. apply list_elem_of_omap. pose proof Hb' as Hb2. unfold bound, hist in Hb2.
          destruct (fs_entries d1 !! (i, n')) as [h|] eqn:Hh; [|by cbn in Hb2].
          exists (i, n', h). split; [by apply elem_of_map_to_list|]. cbn. rewrite Z.eqb_refl, Hb'. by rewrite bool_decide_true by (by eexists). }
        split; [|done]. intros ->. by rewrite Hempty in Hb.
      * split; [intros ->; by rewrite (proj2 (is_dir_true d1 di) (us_dir _ H1)) in Hi|]. intros n'.
        destruct (bound d1 (i, n')) eqn:Hb'; [|done]. apply bound_parent in Hb'; [|done]. apply is_dir_true in Hb'. congruence.
    + intros v. rewrite hist_bind, decide_False by congruence. apply H1.
    + intros n' j f. rewrite bound_bind. destruct (decide ((di, n') = (di, n))); [done|]. apply H1.
  - intros n' _ Hne. unfold content. rewrite bound_bind, decide_False by congruence. done.
Qed.

(** ** A directory that is sealed

    After the sync the entries have one value each: what a crash leaves is what is
    there, whatever happens to .complete. *)
Record sealed (g : bytes -> option bytes) (d : fs) : Prop := {
  se_wf : wf d;
  se_path : resolve d S = Some di;
  se_dir : di ∈ fs_dirs d;
  se_one : forall n, ~ is_tmp n -> n <> complete_name -> exists v, hist d (di, n) = [v];
  se_files : forall n, ~ is_tmp n -> n <> complete_name -> content d (di, n) = g n;
  se_synced : all_synced d;
  se_others : others_kept d
}.

Lemma sealed_crash g d c n : sealed g d -> crash d c -> ~ is_tmp n -> n <> complete_name -> content c (di, n) = g n.
Proof using.
  intros H Hc Ht Hn. rewrite <- (se_files _ _ H n Ht Hn). destruct (se_one _ _ H n Ht Hn) as [v Hv].
  pose proof (crash_bound _ _ (di, n) Hc) as Hb. rewrite Hv in Hb. apply list_elem_of_singleton in Hb.
  unfold content. rewrite Hb, (bound_hist _ _ _ Hv). destruct v as [i|]; [|done]. cbn.
  pose proof (crash_files _ _ Hc i) as Hf. destruct (fs_files d !! i) as [f|] eqn:E, (fs_files c !! i); [|done..].
  cbn. destruct Hf as (_ & _ & Hf). rewrite Hf; [done|]. eapply (se_synced _ _ H); [|done|done].
  by apply bound_hist in Hv.
Qed.

Lemma sealed_settle g d : sealed g d -> sealed g (settle di d).
Proof using.
  intros [Hwf Hp Hd Ho Hc Hs Hk]. constructor; [by apply wf_settle| |done| | | |by apply others_settle].
  - eapply resolve_same_gen; [|done]. intros k. left. apply bound_settle.
  - intros n Ht Hn. destruct (Ho n Ht Hn) as [v Hv]. exists v. rewrite hist_settle, Hv. by destruct (_ =? _).
  - intros n Ht Hn. rewrite content_settle. auto.
  - intros n i f. rewrite bound_settle. apply Hs.
Qed.

Lemma seal g d : unsealed d -> (forall n, ~ is_tmp n -> n <> complete_name -> content d (di, n) = g n) ->
  sealed g (settle di d).
Proof using.
  intros H Hg. pose proof (unsealed_settle di d H) as [Hwf Hp Hd _ Hs Ho]. constructor; [done..| | |done|done].
  - intros n _ _. rewrite hist_settle. cbn [fst]. rewrite Z.eqb_refl.
    pose proof (hist_nonempty d (di, n) (us_wf _ H)). destruct (hist d (di, n)) as [|v l]; [done|]. by exists v.
  - intros n Ht Hn. rewrite content_settle. auto.
Qed.

Lemma sealed_under_way g d1 src mode d : sealed g d1 -> under_way d1 (S ++ [complete_name]) di complete_name src mode d ->
  sealed g d.
Proof using.
  intros H1 H. pose proof (uw_kept _ _ _ _ _ _ _ H) as Hk. pose proof (uw_dir _ _ _ _ _ _ _ H) as Hd.
  rewrite Dir_in in Hd. constructor; [apply Hk|done| | | | |eapply others_under_way; [apply H1|done]].
  - rewrite (kept_dirs _ _ Hk). apply H1.
  - intros n Ht Hn. destruct (se_one _ _ H1 n Ht Hn) as [v Hv]. exists v.
    destruct (uw_other _ _ _ _ _ _ _ H (di, n)) as [E|[_ E]]; [congruence|by intros [_ ?]| |]; by rewrite E, Hv.
  - intros n Ht Hn. rewrite (under_way_same _ _ _ _ _ (se_wf _ _ H1) H n Ht Hn). by apply H1.
  - eapply under_way_synced; [apply H1..|done].
Qed.

(** The sentinel is there to stay. *)
Definition marked (d : fs) : Prop :=
  exists i, hist d (di, complete_name) = [Some i] /\ fs_files d !! i = Some (mkFile [] [420; 384] true).

Lemma write_sentinel g d1 (I : fs -> Prop) : sealed g d1 -> (forall d, sealed g d -> I d) ->
  triple (fun d => d = d1) (WriteFile (S ++ [complete_name]) [] 420)
    (fun _ d => sealed g d /\ marked d) (sealed g) I.
Proof using.
  intros H1 HI.
  assert (Hp : resolve d1 (Dir (S ++ [complete_name])) = Some di) by (rewrite Dir_in; apply H1).
  eapply triple_at; [eapply triple_weaken|..].
  - apply (WriteFileFrom_spec d1 (se_wf _ _ H1) (S ++ [complete_name]) di complete_name (mkSource [[]] None) 420 Hp (se_dir _ _ H1)).
    by rewrite last_snoc.
  - done.
  - intros [] d [H (i & Hi & Hf & Hh)]. split; [by eapply sealed_under_way|]. by exists i.
  - intros d H. by eapply sealed_under_way.
  - intros d ->. apply start_under_way; [apply H1|done].
  - intros d H. apply HI. by eapply sealed_under_way.
Qed.

Lemma marked_settle d : marked d -> marked (settle di d).
Proof using. intros (i & Hh & Hf). exists i. split; [|done]. rewrite hist_settle, Hh. by destruct (_ =? _). Qed.

Lemma sync_sealed g d1 (I : fs -> Prop) : sealed g d1 -> (forall d, sealed g d -> I d) ->
  triple (fun d => d = d1) (FsyncDir S) (fun _ d => sealed g d /\ (marked d1 -> marked d)) (sealed g) I.
Proof using.
  intros H1 HI. eapply triple_weaken; [apply FsyncDir_spec; [apply H1..|apply HI; by apply sealed_settle]|done| |].
  - intros [] d ->. split; [by apply sealed_settle|apply marked_settle].
  - intros d [-> | ->]; [done|by apply sealed_settle].
Qed.

Lemma sync_seal d1 (I : fs -> Prop) : unsealed d1 -> let g n := content d1 (di, n) in
  (forall d, unsealed d \/ sealed g d -> I d) ->
  triple (fun d => d = d1) (FsyncDir S) (fun _ d => sealed g d) (fun d => unsealed d \/ sealed g d) I.
Proof using.
  intros H1 g HI. assert (Hs : sealed g (settle di d1)) by (by apply seal).
  eapply triple_weaken; [apply FsyncDir_spec; [apply H1..|apply HI; by right]|done| |].
  - by intros [] d ->.
  - intros d [-> | ->]; [by left|by right].
Qed.
End Directory.

Lemma unsealed_rebase S di old d : unsealed S di old d -> unsealed S di (hist d) d.
Proof. intros [H1 H2 H3 H4 H5 _]. constructor; try done. by left. Qed.

(** ** Making the directory *)

Definition add_dir (k : entry) (d : fs) : fs :=
  mkFs (fs_files d) ({[fs_next d]} ∪ fs_dirs d) (<[k := Some (fs_next d) :: hist d k]> (fs_entries d)) (fs_next d + 1).

Lemma hist_add_dir k d k' : hist (add_dir k d) k' = if decide (k' = k) then Some (fs_next d) :: hist d k else hist d k'.
Proof.
  unfold hist, add_dir. cbn. case_decide as E; [subst; by rewrite lookup_insert_eq|by rewrite lookup_insert_ne].
Qed.

Lemma wf_add_dir k d : wf d -> k.1 ∈ fs_dirs d -> wf (add_dir k d).
Proof.
  intros Hwf Hk. constructor; cbn.
  - apply elem_of_union_r, Hwf.
  - intros j [->%elem_of_singleton|Hj]%elem_of_union.
    + split; [|lia]. destruct (fs_files d !! fs_next d) eqn:E; [|done]. apply (wf_file d Hwf) in E as [E _]. lia.
    + destruct (wf_dir d Hwf _ Hj). split; [done|lia].
  - intros i f E. apply (wf_file d Hwf) in E as [? ?]. split; [lia|done].
  - assert (Hin : forall k h j, fs_entries d !! k = Some h -> Some j ∈ h ->
      j ∈ ({[fs_next d]} ∪ fs_dirs d : gset Z) \/ is_Some (fs_files d !! j)).
    { intros k1 h j E Hj. destruct (wf_entry d Hwf _ _ E) as (_ & _ & H).
      destruct (H _ Hj); [left; by apply elem_of_union_r|by right]. }
    intros k' h E. apply lookup_insert_Some in E as [[<- <-]|[_ E]].
    + split; [by apply elem_of_union_r|]. split; [done|]. intros i Hi. apply elem_of_cons in Hi as [[= ->]|Hi].
      * left. apply elem_of_union_l. by apply elem_of_singleton.
      * unfold hist in Hi. destruct (fs_entries d !! k) eqn:E; cbn in Hi; [by eapply Hin|].
        by apply list_elem_of_singleton in Hi.
    + destruct (wf_entry d Hwf _ _ E) as (? & ? & ?). split; [by apply elem_of_union_r|]. split; [done|]. intros. by eapply Hin.
Qed.

Lemma hist_no_dir d i n : wf d -> i ∉ fs_dirs d -> hist d (i, n) = [None].
Proof.
  intros Hwf Hi. unfold hist. destruct (fs_entries d !! (i, n)) eqn:E; [|done].
  by apply (wf_entry d Hwf) in E as [E _].
Qed.

Section Mkdir.
Context (S : path) (d0 : fs).

(** Where [S] leads to a directory, there is no sentinel in it. *)
Definition no_sentinel (d : fs) : Prop :=
  wf d /\ forall di, resolve d S = Some di -> di ∈ fs_dirs d -> unsealed S di (hist d) d.

(** The directories down to [done] exist; the last of them is empty unless none
    had to be made. *)
Definition made_to (done : path) (d : fs) : Prop :=
  no_sentinel d /\ (forall k j, hist d0 k = [Some j] -> hist d k = [Some j]) /\ fs_next d0 <= fs_next d /\
  exists i, resolve d done = Some i /\ i ∈ fs_dirs d /\
    (d = d0 \/ (fs_next d0 <= i /\ forall n, hist d (i, n) = [None])).

Lemma mkdir_spec done n todo : S = done ++ n :: todo ->
  triple (made_to done) (mkdir (done ++ [n])) (fun _ => made_to (done ++ [n])) no_sentinel no_sentinel.
Proof using.
  intros HS. apply triple_sys; [|by intros d [H _]]. intros d (Hns & Hold & Hnext & i & Hi & Hid & Hor) _.
  pose proof (proj1 Hns) as Hwf.
  rewrite (locate_dir d (done ++ [n]) i n) by (by rewrite ?Dir_snoc, ?last_snoc).
  destruct (bound d (i, n)) as [j|] eqn:Hb; cbn [fst snd].
  - destruct (is_dir d j) eqn:Hj; [|done]. apply is_dir_true in Hj. split; [|done]. do 3 (split; [done|]). exists j.
    split; [unfold resolve; rewrite resolve_app; unfold resolve in Hi; rewrite Hi; cbn; by rewrite Hb|].
    split; [done|]. left. destruct Hor as [->|[_ Hor]]; [done|]. by rewrite (bound_hist _ _ _ (Hor n)) in Hb.
  - change (mkFs _ _ _ _) with (add_dir (i, n) d). set (j := fs_next d). set (d' := add_dir (i, n) d).
    assert (Hwf' : wf d') by (by apply wf_add_dir).
    assert (Hj : j ∉ fs_dirs d) by (intros C; apply (wf_dir d Hwf) in C as [_ C]; unfold j in C; lia).
    assert (Hij : i <> j) by (intros ->; done).
    assert (Hempty : forall n', hist d' (j, n') = [None]).
    { intros n'. unfold d'. rewrite hist_add_dir, decide_False by congruence. by apply hist_no_dir. }
    assert (Hdone : resolve d' done = Some i).
    { eapply resolve_same_gen; [|exact Hi]. intros k. destruct (decide (k = (i, n))) as [->|Hk].
      - right. intros j' E. by rewrite Hb in E.
      - left. unfold bound, d'. by rewrite hist_add_dir, decide_False. }
    assert (Hin : bound d' (i, n) = Some j) by (unfold bound, d'; by rewrite hist_add_dir, decide_True).
    assert (Hjd : j ∈ fs_dirs d') by (apply elem_of_union_l; by apply elem_of_singleton).
    assert (Hns' : no_sentinel d').
    { split; [done|]. intros di Hdi Hdd. unfold resolve in *. rewrite HS, resolve_app, Hdone in Hdi. cbn in Hdi.
      rewrite Hin in Hdi. cbn in Hdi. destruct todo as [|x todo]; cbn in Hdi.
      - injection Hdi as <-. constructor; [done|unfold resolve; by rewrite HS, resolve_app, Hdone; cbn; rewrite Hin|done| | |by left].
        + intros v. rewrite Hempty. by intros ->%list_elem_of_singleton.
        + intros n' k f Hbk. by rewrite (bound_hist _ _ _ (Hempty n')) in Hbk.
      - by rewrite (bound_hist _ _ _ (Hempty x)) in Hdi. }
    split; [|done]. split; [done|]. split; [|split; [unfold d'; cbn; lia|]].
    { intros k j' Hk. unfold d'. rewrite hist_add_dir, decide_False; [by apply Hold|]. intros ->.
      by rewrite (bound_hist _ _ _ (Hold _ _ Hk)) in Hb. }
    exists j. split; [unfold resolve in *; rewrite resolve_app, Hdone; cbn; by rewrite Hin|]. split; [done|by right].
Qed.

Lemma mkdirs_spec todo : forall done, S = done ++ todo ->
  triple (made_to done) (mkdirs done todo) (fun _ => made_to S) no_sentinel no_sentinel.
Proof using.
  induction todo as [|n todo IH]; intros done HS; cbn [mkdirs].
  - apply triple_ret. intros d. by rewrite HS, app_nil_r.
  - eapply triple_bind; [by eapply mkdir_spec|]. intros []. apply IH. by rewrite <- app_assoc.
Qed.

(** Settled entries are kept, and the directory was there or is new. *)
Definition made (di : Z) (d : fs) : Prop :=
  (forall k j, hist d0 k = [Some j] -> hist d k = [Some j]) /\ (resolve d0 S = Some di \/ fs_next d0 <= di).

Lemma MkdirAll_spec : no_sentinel d0 ->
  triple (fun d => d = d0) (MkdirAll S) (fun _ d => exists di, unsealed S di (hist d) d /\ made di d) no_sentinel no_sentinel.
Proof using.
  intros H0. eapply triple_weaken; [by apply (mkdirs_spec S [])| | |done].
  - intros d ->. split; [done|]. split; [done|]. split; [done|]. exists root.
    split; [done|]. split; [apply (wf_root _ (proj1 H0))|by left].
  - intros [] d ([Hwf H] & Hold & _ & i & Hi & Hd & Hor). exists i. split; [by apply H|]. split; [done|].
    destruct Hor as [->|[? _]]; [by left|by right].
Qed.
End Mkdir.

(** ** Directories a crash leaves where they are *)

(** The directories a path leads through. *)
Fixpoint on_path (d : fs) (i : Z) (p : path) : list Z :=
  i :: match p with
       | [] => []
       | n :: p => match bound d (i, n) with Some j => on_path d j p | None => [] end
       end.

(** Every entry of the path is on disk, with no other value. *)
Fixpoint settled (d : fs) (i : Z) (p : path) : Prop :=
  match p with
  | [] => True
  | n :: p => exists j, hist d (i, n) = [Some j] /\ settled d j p
  end.

(** The same of histories [h], none of the entries being of directory [di]. *)
Fixpoint firm (h : entry -> list (option Z)) (i : Z) (p : path) (di : Z) : Prop :=
  match p with
  | [] => True
  | n :: p => i <> di /\ exists j, h (i, n) = [Some j] /\ firm h j p di
  end.

Lemma on_path_old d : wf d -> forall p i, i < fs_next d -> Forall (fun j => j < fs_next d) (on_path d i p).
Proof.
  intros Hwf p. induction p as [|n p IH]; intros i Hi; cbn; constructor; try done.
  destruct (bound d (i, n)) as [j|] eqn:Hb; [|done]. apply IH. by eapply hist_inode, bound_in.
Qed.

Lemma settled_firm d0 d di p : forall i, settled d0 i p -> di ∉ on_path d0 i p ->
  (forall k j, hist d0 k = [Some j] -> hist d k = [Some j]) ->
  firm (hist d) i p di /\ exists o, resolve_from d i p = Some o /\ o <> di.
Proof.
  induction p as [|n p IH]; intros i Hs Hn Hk; cbn in *.
  - split; [done|]. exists i. split; [done|]. set_solver.
  - destruct Hs as (j & Hj & Hs). rewrite (bound_hist _ _ _ Hj) in Hn.
    destruct (IH j Hs) as (Hf & o & Ho & Hne); [set_solver|done|]. split.
    + split; [set_solver|]. exists j. split; [by apply Hk|done].
    + exists o. split; [|done]. by rewrite (bound_hist _ _ _ (Hk _ _ Hj)).
Qed.

Lemma firm_snoc d di n p : forall i o, firm (hist d) i p di -> resolve_from d i p = Some o -> o <> di ->
  hist d (o, n) = [Some di] -> firm (hist d) i (p ++ [n]) di.
Proof.
  induction p as [|x p IH]; intros i o Hf Ho Hne Hh; cbn in *.
  - injection Ho as <-. split; [done|]. by exists di.
  - destruct Hf as (Hi & j & Hj & Hf). rewrite (bound_hist _ _ _ Hj) in Ho. split; [done|]. exists j. split; [done|]. by eapply IH.
Qed.

Lemma firm_crash old d c di p : others_kept di old d -> forall i, firm old i p di -> crash d c ->
  resolve_from c i p = resolve_from d i p.
Proof.
  intros Hk. induction p as [|n p IH]; intros i Hf Hc; cbn in *; [done|].
  destruct Hf as (Hi & j & Hj & Hf).
  assert (Hh : hist d (i, n) = [Some j]) by (destruct (Hk (i, n) Hi) as [-> | ->]; by rewrite Hj).
  pose proof (crash_bound _ _ (i, n) Hc) as Hb. rewrite Hh in Hb. apply list_elem_of_singleton in Hb.
  rewrite Hb, (bound_hist _ _ _ Hh). cbn. by apply IH.
Qed.

(** ** The fetch *)

Lemma triple_fold {A} (P : fs -> Prop) (f : A -> M mach unit) l (E I : fs -> Prop) :
  (forall a, a ∈ l -> triple P (f a) (fun _ => P) E I) -> triple P (fold_m (fun _ => f) tt l) (fun _ => P) E I.
Proof.
  induction l as [|a l IH]; intros H; cbn [fold_m]; [by apply triple_ret|].
  eapply triple_bind; [apply H; by left|]. intros []. apply IH. intros b Hb. apply H. by right.
Qed.

Lemma hash_chunks_quiet cancelled fs n : forall i acc, quiet (hash_chunks cancelled fs n i acc).
Proof. induction n as [|n IH]; intros i acc; cbn [hash_chunks]; [done|]. repeat case_match; done. Qed.

Lemma verify_quiet cancelled fs n h : quiet (verifySnapshotHash cancelled fs n h).
Proof.
  unfold verifySnapshotHash. pose proof (hash_chunks_quiet cancelled fs (Z.to_nat n) 0 []) as H.
  destruct (hash_chunks _ _ _ _ _); [|done..]. cbn. by case_bool_decide.
Qed.

(** The names a download removes. *)
Definition dl_ok (op : dl) : Prop :=
  match op with
  | Wrote _ _ => True
  | Removed n => has_prefix (str "chunk_") n = true \/ has_prefix (str ".chunk_") n = true
  end.

Lemma dl_ok_names n : dl_ok (Removed n) -> n <> metadata_name /\ n <> complete_name.
Proof. intros H. split; intros ->; destruct H as [H|H]; vm_compute in H; discriminate H. Qed.

Section RunFetch.
Context (chainID : bytes) (offer : snapshotOffer) (outRoot : path) (json : savedMeta -> outcome bytes) (e : fetch_env).
Context (Hjson : forall meta, quiet (json meta)) (Hparse : quiet (parseChunkHashes (Metadata offer))).
Context (Hdl : quiet (fe_downloaded e)) (Hops : Forall dl_ok (fe_ops e)).
Let S := snapDir chainID offer outRoot.

(** What the sentinel stands for. *)
Definition whole (find : bytes -> option bytes) : Prop :=
  find metadata_name = Some (Metadata offer) /\
  (fe_skip e = true \/ chunks_match offer find) /\
  exists meta buf, json meta = Ret buf /\ find meta_name = Some buf.

Definition safe (d : fs) : Prop := forall di c, resolve d S = Some di -> crash d c ->
  content c (di, complete_name) <> None -> whole (fun n => content c (di, n)).

Lemma unsealed_safe di old d : unsealed S di old d -> safe d.
Proof using.
  intros H di' c Hr Hc Hs. rewrite (us_path _ _ _ _ H) in Hr. injection Hr as <-.
  by eapply unsealed_no_sentinel in Hc; [|exact H].
Qed.

Lemma no_sentinel_safe d : no_sentinel S d -> safe d.
Proof using.
  intros [Hwf H] di c Hr Hc Hs. destruct (decide (di ∈ fs_dirs d)) as [Hd|Hd].
  - by eapply unsealed_safe; eauto.
  - exfalso. apply Hs. pose proof (crash_bound _ _ (di, complete_name) Hc) as Hb.
    rewrite (hist_no_dir _ _ _ Hwf Hd) in Hb. apply list_elem_of_singleton in Hb. unfold content. by rewrite Hb.
Qed.

Lemma whole_ext f g : (forall n, ~ is_tmp n -> n <> complete_name -> f n = g n) -> whole f -> whole g.
Proof using.
  intros Hfg (Hm & Hch & meta & buf & Hj & Hb).
  split; [|split; [|exists meta, buf; split; [done|]]].
  - rewrite <- Hfg; [done|apply metadata_not_tmp|done].
  - destruct Hch as [?|Hch]; [by left|right]. eapply chunks_match_ext; [|exact Hch]. intros i Hi.
    apply Hfg; [apply chunk_not_tmp|apply chunk_name_other].
  - rewrite <- Hfg; [done|apply meta_not_tmp|done].
Qed.

Lemma sealed_safe g di old d : sealed S di old g d -> whole g -> safe d.
Proof using.
  intros H Hw di' c Hr Hc Hs. rewrite (se_path _ _ _ _ _ H) in Hr. injection Hr as <-.
  eapply whole_ext; [|exact Hw]. intros n Ht Hn. symmetry. by eapply sealed_crash.
Qed.

(** Between the preparation and meta.json: metadata.bin is there. *)
Definition fetching (di : Z) (old : entry -> list (option Z)) (d : fs) : Prop :=
  unsealed S di old d /\ content d (di, metadata_name) = Some (Metadata offer).

Lemma fetching_safe di old d : fetching di old d -> safe d.
Proof using. intros [H _]. by eapply unsealed_safe. Qed.

Lemma write_fetching di old n data : n <> complete_name -> n <> metadata_name ->
  triple (fetching di old) (ignore (WriteFile (S ++ [n]) data 420)) (fun _ => fetching di old) (fetching di old) safe.
Proof using.
  intros Hn Hm. apply triple_here. intros d1 [H1 Hc]. apply triple_ignore.
  assert (Hs : forall d, unsealed S di old d /\ same_but di n d1 d -> fetching di old d).
  { intros d [Hu Hsb]. split; [done|]. rewrite Hsb; [done|apply metadata_not_tmp|done]. }
  eapply triple_weaken; [apply (write_unsealed S di old d1 n data 420 safe H1 Hn (unsealed_safe di old))|done| |done].
  intros a d (Hu & Hsb & _). by apply Hs.
Qed.

Lemma run_dl_fetching di old op : dl_ok op ->
  triple (fetching di old) (run_dl chainID offer outRoot op) (fun _ => fetching di old) (fetching di old) safe.
Proof using.
  intros Hok. destruct op as [idx data|n]; cbn [run_dl].
  - apply write_fetching; apply chunk_name_other.
  - destruct (dl_ok_names n Hok) as [Hm Hn]. apply triple_ignore.
    eapply triple_bind with (R := fun _ => fetching di old).
    { apply triple_sys; [|done]. intros d Hd HI. by destruct (resolve d _). }
    intros [[] mode]; [by apply triple_ret|]. apply triple_here. intros d1 [H1 Hc].
    eapply triple_weaken; [apply (remove_unsealed S di old d1 n safe H1 Hn (unsealed_safe di old))|done| |by intros d ->].
    intros a d [Hu Hsb]. split; [done|]. rewrite Hsb; [done|apply metadata_not_tmp|done].
Qed.

Lemma read_back di old d1 n (I : fs -> Prop) : unsealed S di old d1 ->
  triple (fun d => d = d1) (attempt (ReadFile (S ++ [n])))
    (fun o d => d = d1 /\ forall b, o = Some b -> content d1 (di, n) = Some b) (fun d => d = d1) I.
Proof using.
  intros H1.
  assert (Hr : triple (fun d => d = d1) (ReadFile (S ++ [n])) (fun b d => d = d1 /\ content d1 (di, n) = Some b)
                 (fun d => d = d1) I).
  { apply ReadFile_spec; [rewrite Dir_snoc; apply H1|apply last_snoc]. }
  eapply triple_weaken; [eapply triple_attempt, Hr|done| |done].
  intros [b|] d; [intros [-> Hb]; split; [done|]; by intros ? [= <-]|intros ->; by split].
Qed.

Lemma sync_root di old d1 : unsealed S di old d1 ->
  triple (fun d => d = d1) (FsyncDir outRoot) (fun _ d => exists o, resolve d1 outRoot = Some o /\ d = settle o d1)
    (fun d => unsealed S di old d) safe.
Proof using.
  intros H1. pose proof (us_path _ _ _ _ H1) as Hp. unfold S, snapDir in Hp. unfold resolve in Hp. rewrite resolve_app in Hp.
  destruct (resolve_from d1 root outRoot) as [o|] eqn:Ho; [|done]. cbn in Hp.
  destruct (bound d1 (o, _)) eqn:Hb; [|done]. apply bound_parent in Hb; [|apply H1].
  eapply triple_weaken; [apply (FsyncDir_spec d1 outRoot o); [apply H1|done|done|]|done| |].
  - eapply unsealed_safe. by apply unsealed_settle.
  - intros [] d ->. by exists o.
  - intros d [-> | ->]; [done|by apply unsealed_settle].
Qed.

(** outRoot is a directory that no crash can take away, nor move; the snapshot's own
    directory, if it exists, is not one of those on the way to it. *)
Definition durable_root (d : fs) : Prop :=
  settled d root outRoot /\ forall di, resolve d S = Some di -> di ∉ on_path d root outRoot.

Lemma made_firm d0 d1 di o : wf d0 -> durable_root d0 -> unsealed S di (hist d1) d1 -> made S d0 di d1 ->
  resolve d1 outRoot = Some o -> firm (hist (settle o d1)) root S di.
Proof using.
  intros Hwf [Hset Hfar] H1 [Hold Hdi] Ho.
  assert (Hn : di ∉ on_path d0 root outRoot).
  { destruct Hdi as [?|Hge]; [by apply Hfar|]. intros Hin.
    pose proof (on_path_old d0 Hwf outRoot root ltac:(apply (wf_dir d0 Hwf), Hwf)) as Hlt.
    rewrite Forall_forall in Hlt. specialize (Hlt di Hin). lia. }
  assert (Hold' : forall k j, hist d0 k = [Some j] -> hist (settle o d1) k = [Some j]).
  { intros k j Hk. rewrite hist_settle, (Hold _ _ Hk). by destruct (_ =? _). }
  destruct (settled_firm d0 (settle o d1) di outRoot root Hset Hn Hold') as (Hf & o' & Ho' & Hne).
  assert (o' = o) as ->.
  { apply (resolve_same_gen d1 (settle o d1)) in Ho; [unfold resolve in Ho; congruence|].
    intros k. left. apply bound_settle. }
  unfold S, snapDir. eapply firm_snoc; [done|exact Ho'|done|]. rewrite hist_settle. cbn [fst]. rewrite Z.eqb_refl.
  pose proof (us_path _ _ _ _ H1) as Hp. unfold S, snapDir, resolve in Hp. unfold resolve in Ho. rewrite resolve_app, Ho in Hp. cbn in Hp.
  unfold bound in Hp. destruct (hist d1 (o, _)) as [|[x|] l]; cbn in Hp |- *.
  1,3: done. injection Hp as ->. by rewrite take_0.
Qed.

Definition placed (d0 : fs) (di : Z) (old : entry -> list (option Z)) : Prop := durable_root d0 -> firm old root S di.

Lemma prepare_spec d0 : no_sentinel S d0 ->
  triple (fun d => d = d0) (prepareSnapshotDir chainID offer outRoot)
    (fun _ d => exists di old, placed d0 di old /\ fetching di old d) (fun _ => True) safe.
Proof using Hparse.
  intros H0. unfold prepareSnapshotDir. eapply triple_bind with (R := fun hs d => d = d0).
  { eapply triple_weaken; [apply (triple_lift _ (fun d => d = d0))|done|by intros hs d [_ ->]|done].
    by destruct (parseChunkHashes (Metadata offer)). }
  intros hs. destruct (negb _); [by apply triple_fail|].
  eapply triple_bind with (R := fun _ d => exists di, unsealed S di (hist d) d /\ made S d0 di d).
  { apply triple_wrap. eapply triple_at; [eapply triple_weaken; [by apply (MkdirAll_spec S d0)|done|done|done]|..].
    - by intros d ->.
    - apply no_sentinel_safe. }
  intros []. apply triple_ex. intros di.
  eapply triple_bind with (R := fun _ d => exists old, placed d0 di old /\ unsealed S di old d).
  { apply triple_wrap, triple_here. intros d1 [H1 Hm]. eapply triple_weaken; [by apply (sync_root di (hist d1))|done| |done].
    intros [] d (o & Ho & ->). exists (hist (settle o d1)). split.
    - intros Hr. eapply made_firm; [apply H0|done..].
    - eapply unsealed_rebase. by apply unsealed_settle. }
  intros []. apply triple_ex. intros old. apply triple_pure. intros Hpl. apply triple_here. intros d1 H1.
  eapply triple_bind; [eapply triple_weaken; [by apply (read_back di old d1 metadata_name safe)|done| |done]; intros o d H; exact H|].
  intros existing. cbn beta.
  eapply triple_bind with (R := fun _ d => fetching di old d); [|intros []; apply triple_ret; intros d Hd; by exists di, old].
  apply triple_here. intros d [-> He]. case_bool_decide as Hb.
  - apply triple_ret. intros d ->. split; [done|]. by apply He.
  - apply triple_wrap. eapply triple_weaken.
    + by apply (write_unsealed S di old d1 metadata_name (Metadata offer) 420 safe H1 ltac:(done) (unsealed_safe di old)).
    + done.
    + intros [] d (Hu & _ & Hc). by split.
    + done.
Qed.

Definition verified_files (di : Z) (old : entry -> list (option Z)) (d : fs) : Prop :=
  fetching di old d /\ (fe_skip e = true \/ chunks_match offer (fun n => content d (di, n))).

Lemma verify_spec di old :
  triple (fetching di old)
    (if fe_skip e then mret tt else wrap_err "snapshot hash verify" (verifyOnDisk chainID offer outRoot (fe_cancelled e)))
    (fun _ => verified_files di old) (fun _ => True) safe.
Proof using.
  destruct (fe_skip e) eqn:Hs; [apply triple_ret; intros d Hd; split; [done|]; rewrite Hs; by left|].
  apply triple_wrap, triple_sys; [|done]. intros d Hd HI. pose proof (us_path _ _ _ _ (proj1 Hd)) as Hp.
  fold S. rewrite Hp. cbn [fst snd]. split; [|done].
  pose proof (verify_quiet (fe_cancelled e) (view d di) (Chunks offer) (Hash offer)) as Hq.
  destruct (verifySnapshotHash _ _ _ _) as [[]| | |] eqn:Hv; [|done..]. split; [done|]. right.
  apply verify_match in Hv. eapply chunks_match_ext; [|exact Hv]. intros i _. apply view_lookup.
Qed.

(** meta.json is there too. *)
Definition ready_to_seal (di : Z) (old : entry -> list (option Z)) (d : fs) : Prop := unsealed S di old d /\ whole (fun n => content d (di, n)).

Lemma write_meta_file di old meta :
  triple (verified_files di old) (writeJSONAtomic json (S ++ [meta_name]) meta) (fun _ => ready_to_seal di old) (fun _ => True) safe.
Proof using Hjson.
  unfold writeJSONAtomic. eapply triple_bind with (R := fun buf d => json meta = Ret buf /\ verified_files di old d).
  { eapply triple_weaken; [apply (triple_lift (json meta) (verified_files di old) safe (Hjson meta))|done|done|done]. }
  intros buf. apply triple_pure. intros Hb. apply triple_here. intros d1 [[H1 Hm] Hv].
  eapply triple_weaken; [apply (write_unsealed S di old d1 meta_name buf 420 safe H1 ltac:(done) (unsealed_safe di old))|done| |done].
  intros [] d (Hu & Hsb & Hc). split; [done|]. split; [|split].
  - rewrite Hsb; [done|apply metadata_not_tmp|done].
  - destruct Hv as [?|Hv]; [by left|right]. eapply chunks_match_ext; [|exact Hv]. intros i _. symmetry.
    apply Hsb; [apply chunk_not_tmp|apply chunk_name_other].
  - by exists meta, buf.
Qed.

Definition finished (di : Z) (old : entry -> list (option Z)) (d : fs) : Prop := exists g, sealed S di old g d /\ whole g /\ marked di d.

Lemma writeMeta_spec di old good bytesTotal now :
  triple (verified_files di old) (writeMeta chainID offer outRoot json good bytesTotal now) (fun _ => finished di old) (fun _ => True) safe.
Proof using Hjson.
  unfold writeMeta. fold S. eapply triple_bind; [apply triple_wrap, write_meta_file|]. intros [].
  eapply triple_bind with (R := fun _ d => exists g, sealed S di old g d /\ whole g).
  { apply triple_wrap, triple_here. intros d1 [H1 Hw].
    eapply triple_weaken; [apply (sync_seal S di old d1 safe H1)|done| |done].
    - intros d [H|H]; [by eapply unsealed_safe|by eapply sealed_safe].
    - intros [] d H. by eexists. }
  intros []. apply triple_ex. intros g. apply triple_here. intros d1 [H1 Hw].
  assert (Hsafe : forall d, sealed S di old g d -> safe d) by (intros d H; by eapply sealed_safe).
  eapply triple_bind with (R := fun _ d => sealed S di old g d /\ marked di d).
  { apply triple_wrap. eapply triple_weaken; [apply (write_sentinel S di old g d1 safe H1 Hsafe)|done..]. }
  intros []. apply triple_wrap, triple_here. intros d2 [H2 Hm2].
  eapply triple_weaken; [apply (sync_sealed S di old g d2 safe H2 Hsafe)|done| |done].
  intros [] d [H Hm]. exists g. split; [done|]. split; [done|]. by apply Hm.
Qed.

Lemma RunFetch_spec d0 : no_sentinel S d0 ->
  triple (fun d => d = d0) (RunFetch chainID offer outRoot json e) (fun _ d => exists di old, placed d0 di old /\ finished di old d) (fun _ => True) safe.
Proof using Hjson Hparse Hdl Hops.
  intros H0. unfold RunFetch. eapply triple_bind; [by apply prepare_spec|]. intros hs.
  apply triple_ex. intros di. apply triple_ex. intros old. apply triple_pure. intros Hpl. fold S.
  eapply triple_bind with (R := fun _ => fetching di old).
  { destruct (fe_chunk0 e) as [|x l]; [by apply triple_ret|].
    eapply triple_weaken; [apply (write_fetching di old (chunk_name 0) (x :: l)); apply chunk_name_other|done|done|done]. }
  intros []. eapply triple_bind with (R := fun _ => fetching di old).
  { destruct (fe_ready e); [by apply triple_fail|by apply triple_ret]. }
  intros []. eapply triple_bind with (R := fun _ => fetching di old).
  { eapply triple_weaken; [apply (triple_fold (fetching di old) (run_dl chainID offer outRoot) (fe_ops e) (fetching di old) safe)|done..].
    intros op Hop. apply run_dl_fetching. rewrite Forall_forall in Hops. by apply Hops. }
  intros []. eapply triple_bind with (R := fun _ => fetching di old).
  { eapply triple_weaken; [apply triple_lift|done|by intros b d [_ H]|done]. by destruct (fe_downloaded e). }
  intros bytesTotal. eapply triple_bind; [apply verify_spec|]. intros [].
  eapply triple_weaken; [apply writeMeta_spec|done| |done]. intros [] d H. by exists di, old.
Qed.
End RunFetch.

(** ** Properties *)

(** C18: A fetch into a directory that holds no .complete, nor can hold one after a crash,
    and whose files, if there are any, are synced: whatever fails and wherever the
    power goes, if .complete is in that directory after the crash, so are the metadata
    of the offer, meta.json, and, unless the check was skipped, chunks that hash to the
    offer's hash.  Once the fetch has returned nil, every crash leaves .complete and all
    of this in the directory that was fetched into; and the directory is still found
    under its path after the crash if outRoot was there before the fetch, its entry and
    those of its ancestors synced (an outRoot that the fetch makes itself can be lost
    with everything in it: its parent is not synced).  The JSON encoder, the decoder of
    the metadata and the download return, with a value or an error, and the download
    removes no files but those of chunks. *)
Theorem complete_means_whole chainID offer outRoot json e m c :
  (forall meta, quiet (json meta)) -> quiet (parseChunkHashes (Metadata offer)) -> quiet (fe_downloaded e) ->
  Forall dl_ok (fe_ops e) -> no_sentinel (snapDir chainID offer outRoot) (m_disk m) ->
  let '(r, m') := RunFetch chainID offer outRoot json e m in
  (forall d di, during m m' d -> resolve d (snapDir chainID offer outRoot) = Some di -> crash d c ->
    content c (di, complete_name) <> None -> whole offer json e (fun n => content c (di, n))) /\
  (r = Ret tt -> crash (m_disk m') c ->
    exists di, resolve (m_disk m') (snapDir chainID offer outRoot) = Some di /\
      content c (di, complete_name) = Some [] /\ whole offer json e (fun n => content c (di, n)) /\
      (durable_root chainID offer outRoot (m_disk m) -> resolve c (snapDir chainID offer outRoot) = Some di)).
Proof.
  intros Hj Hp Hd Ho H0.
  pose proof (RunFetch_spec chainID offer outRoot json e Hj Hp Hd Ho _ H0) as H.
  pose proof (no_sentinel_safe chainID offer outRoot json e _ H0) as HS.
  pose proof (fun d => triple_during _ _ _ _ _ m d H eq_refl HS) as Hdur. destruct (H m eq_refl HS) as [Hr _].
  destruct (RunFetch _ _ _ _ _ m) as [r m']. cbn [fst snd] in *. split.
  - intros d di Hdd Hres Hc Hs. by eapply (Hdur d Hdd).
  - intros -> Hc. destruct Hr as (di & old & Hpl & g & Hse & Hw & i & Hh & Hf). exists di. split_and!.
    + apply Hse.
    + by rewrite (crash_content _ _ _ _ _ Hc Hh Hf).
    + eapply whole_ext; [|exact Hw]. intros n Ht Hn. symmetry. by eapply sealed_crash.
    + intros Hroot. rewrite <- (se_path _ _ _ _ _ Hse). by eapply firm_crash; [apply Hse|apply Hpl|].
Qed.

(** A fetch of one chunk into an empty directory. *)
Definition sample_chunk : bytes := str "chunk".
Definition sample_offer (data : bytes) : snapshotOffer :=
  mkOffer 7 3 1 (sha256 data) (encodeChunkHashes [sha256 data]) ∅.
Definition sample_json (meta : savedMeta) : outcome bytes := Ret (m_ChainID meta ++ str " " ++ decimal (m_Height meta)).
Definition sample_fetch (downloaded : outcome Z) : fetch_env :=
  mkFetch [] sample_chunk None [] downloaded false (fun _ => false) 0.
Definition empty_disk : fs := mkFs ∅ {[0; 1]} (list_to_map [((0, str "out"), [Some 1])]) 2.

Definition sample_run : outcome unit * mach :=
  RunFetch (str "c") (sample_offer sample_chunk) [str "out"] sample_json (sample_fetch (Ret 5)) (Mach empty_disk [] [] []).

Lemma empty_disk_settled : hist empty_disk (root, str "out") = [Some 1].
Proof. vm_compute. reflexivity. Qed.

Lemma complete_means_whole_witness : sample_run.1 = Ret tt /\
  exists di, resolve (crash_pick keep_all (m_disk sample_run.2)) [str "out"; str "snapshot_c_7"] = Some di /\
    content (crash_pick keep_all (m_disk sample_run.2)) (di, complete_name) = Some [] /\
    whole (sample_offer sample_chunk) sample_json (sample_fetch (Ret 5))
      (fun n => content (crash_pick keep_all (m_disk sample_run.2)) (di, n)).
Proof.
  assert (Hr : sample_run.1 = Ret tt) by (vm_compute; reflexivity). split; [exact Hr|].
  assert (Hwf : wfb (m_disk sample_run.2) = true) by (vm_compute; reflexivity).
  pose proof (complete_means_whole (str "c") (sample_offer sample_chunk) [str "out"] sample_json (sample_fetch (Ret 5))
    (Mach empty_disk [] [] []) (crash_pick keep_all (m_disk sample_run.2))) as H. fold sample_run in H.
  assert (Hs : snapDir (str "c") (sample_offer sample_chunk) [str "out"] = [str "out"; str "snapshot_c_7"]) by (vm_compute; reflexivity).
  assert (Hno : resolve empty_disk [str "out"; str "snapshot_c_7"] = None) by (vm_compute; reflexivity).
  assert (Hroot : durable_root (str "c") (sample_offer sample_chunk) [str "out"] empty_disk).
  { split; [exists 1; exact (conj empty_disk_settled I)|]. intros di. rewrite Hs, Hno. discriminate. }
  rewrite Hs in H. destruct sample_run as [r m']. cbn [fst snd] in *.
  destruct H as [_ H]; [done|vm_compute; exact I|exact I|constructor| |].
  - split; [apply wfb_wf; vm_compute; reflexivity|]. intros di E. change (resolve empty_disk [str "out"; str "snapshot_c_7"] = Some di) in E. rewrite Hno in E. discriminate E.
  - destruct (H Hr (keep_all_ok _ (wfb_wf _ Hwf))) as (di & _ & H1 & H2 & H3). exists di. split; [exact (H3 Hroot)|by split].
Defined.

(** An outRoot that the fetch makes: its entry is never synced, and a crash after the
    fetch returned nil takes the snapshot away with it. *)
Example made_outRoot_lost :
  let bare := mkFs ∅ {[0]} ∅ 1 in
  let '(r, m) := RunFetch (str "c") (sample_offer sample_chunk) [str "out"] sample_json (sample_fetch (Ret 5)) (Mach bare [] [] []) in
  r = Ret tt /\ hist (m_disk m) (root, str "out") = [Some 1; None].
Proof. vm_compute. split; reflexivity. Qed.

(** The same directory as an earlier fetch left it, for another snapshot of the same
    height. *)
Definition stale_disk : fs :=
  m_disk (RunFetch (str "c") (sample_offer (str "other")) [str "out"] sample_json
    (mkFetch [] (str "other") None [] (Ret 5) false (fun _ => false) 0) (Mach empty_disk [] [] [])).2.

(** A .complete of an earlier fetch is not removed: a fetch of another snapshot into
    its directory can fail half-way and leave it beside chunks that do not belong
    to the metadata. *)
Theorem stale_complete_kept :
  let '(r, m) := RunFetch (str "c") (sample_offer sample_chunk) [str "out"] sample_json
                   (mkFetch [] [] None [] (Err (Errorf "context canceled")) false (fun _ => false) 0) (Mach stale_disk [] [] []) in
  r = Err (Wrapf ErrDownloadFailed (Errorf "context canceled")) /\
  exists di, resolve (m_disk m) [str "out"; str "snapshot_c_7"] = Some di /\
    content (m_disk m) (di, complete_name) = Some [] /\
    content (m_disk m) (di, metadata_name) = Some (Metadata (sample_offer sample_chunk)) /\
    content (m_disk m) (di, chunk_name 0) = Some (str "other").
Proof.
  set (run := RunFetch _ _ _ _ _ _).
  assert (H : run.1 = Err (Wrapf ErrDownloadFailed (Errorf "context canceled")) /\
    resolve (m_disk run.2) [str "out"; str "snapshot_c_7"] = Some 2 /\
    content (m_disk run.2) (2, complete_name) = Some [] /\
    content (m_disk run.2) (2, metadata_name) = Some (Metadata (sample_offer sample_chunk)) /\
    content (m_disk run.2) (2, chunk_name 0) = Some (str "other")).
  { vm_compute. repeat split. }
  destruct run as [r m]. cbn [fst snd] in H. destruct H as (Hr & ? & ? & ? & ?).
  split; [exact Hr|]. by exists 2.
Qed.
