(* ===== verification/Text.v ===== *)
(** * Text: what the program uses of strings, strconv and bufio

    Trimming, quoting and cutting into lines, as the Go standard library defines
    them on bytes that need not be UTF-8.  White space is that of
    [unicode.IsSpace]: six ASCII characters and the encodings of nineteen others. *)

From S2P Require Import Prelude.

Local Open Scope Z_scope.

Definition chars (l : list Z) : bytes := map byte.of_Z l.

Definition nl : Init.Byte.byte := byte.of_Z 10.
Definition cr : Init.Byte.byte := byte.of_Z 13.

(** ** Trimming *)

Definition starts (p s : bytes) : bool := bool_decide (take (length p) s = p).

(** The rest after the first of [ps] that [s] starts with. *)
Fixpoint cut_prefix (ps : list bytes) (s : bytes) : option bytes :=
  match ps with
  | [] => None
  | p :: ps => if starts p s then Some (drop (length p) s) else cut_prefix ps s
  end.

Fixpoint trim_left (fuel : nat) (ps : list bytes) (s : bytes) : bytes :=
  match fuel with
  | O => s
  | S fuel => match cut_prefix ps s with Some r => trim_left fuel ps r | None => s end
  end.
Definition TrimLeft (ps : list bytes) (s : bytes) : bytes := trim_left (length s) ps s.
Definition TrimRight (ps : list bytes) (s : bytes) : bytes := rev (TrimLeft (map (@rev _) ps) (rev s)).

(** The cutset [" \t"]. *)
Definition blanks : list bytes := [chars [32]; chars [9]].

Definition spaces : list bytes :=
  map (fun z => chars [z]) [9; 10; 11; 12; 13; 32] ++
  map chars ([[194; 133]; [194; 160]; [225; 154; 128]] ++ map (fun z => [226; 128; z]) (seqZ 128 11) ++
             [[226; 128; 168]; [226; 128; 169]; [226; 128; 175]; [226; 129; 159]; [227; 128; 128]]).

(** [strings.TrimSpace]. *)
Definition TrimSpace (s : bytes) : bytes := TrimRight spaces (TrimLeft spaces s).

(** ** Lines *)

(** The pieces between newlines; what comes after the last one, if anything. *)
Fixpoint raw_lines (b : bytes) : list bytes :=
  match b with
  | [] => []
  | c :: b =>
      if bool_decide (c = nl) then [] :: raw_lines b
      else match raw_lines b with
           | [] => [[c]]
           | l :: ls => (c :: l) :: ls
           end
  end.

(** [bufio.ScanLines] drops one carriage return. *)
Definition dropCR (l : bytes) : bytes :=
  match last l with Some c => if bool_decide (c = cr) then removelast l else l | None => l end.

(** The tokens of a [bufio.Scanner] over a reader that has the whole text at once,
    with a buffer of at most [limit] bytes: a line that fills it is an error. *)
Definition ScanLines (limit : Z) (b : bytes) : outcome (list bytes) :=
  let ls := raw_lines b in
  if existsb (fun l => limit <=? len l) ls then Err (Errorf "bufio.Scanner: token too long")
  else Ret (map dropCR ls).

(** ** Quoting ([strconv.Quote], the verb %q) *)

Definition in_range (lo hi : Z) (c : Init.Byte.byte) : bool := (lo <=? byte.unsigned c) && (byte.unsigned c <=? hi).
Definition cont : Init.Byte.byte -> bool := in_range 128 191.
Definition low6 (c : Init.Byte.byte) : Z := Z.land (byte.unsigned c) 63.

Definition RuneError : Z := 65533.

(** [utf8.DecodeRuneInString]: the rune and its width. *)
Definition DecodeRune (s : bytes) : Z * nat :=
  match s with
  | [] => (RuneError, O)
  | c :: r =>
      let b := byte.unsigned c in
      if b <? 128 then (b, 1%nat)
      else if in_range 194 223 c then
        match r with
        | c1 :: _ => if cont c1 then (Z.lor (Z.shiftl (Z.land b 31) 6) (low6 c1), 2%nat) else (RuneError, 1%nat)
        | _ => (RuneError, 1%nat)
        end
      else if in_range 224 239 c then
        match r with
        | c1 :: c2 :: _ =>
            if in_range (if b =? 224 then 160 else 128) (if b =? 237 then 159 else 191) c1 && cont c2
            then (Z.lor (Z.lor (Z.shiftl (Z.land b 15) 12) (Z.shiftl (low6 c1) 6)) (low6 c2), 3%nat)
            else (RuneError, 1%nat)
        | _ => (RuneError, 1%nat)
        end
      else if in_range 240 244 c then
        match r with
        | c1 :: c2 :: c3 :: _ =>
            if in_range (if b =? 240 then 144 else 128) (if b =? 244 then 143 else 191) c1 && cont c2 && cont c3
            then (Z.lor (Z.lor (Z.shiftl (Z.land b 7) 18) (Z.shiftl (low6 c1) 12)) (Z.lor (Z.shiftl (low6 c2) 6) (low6 c3)), 4%nat)
            else (RuneError, 1%nat)
        | _ => (RuneError, 1%nat)
        end
      else (RuneError, 1%nat)
  end.

(** [utf8.ValidString]. *)
Fixpoint valid_loop (fuel : nat) (s : bytes) : bool :=
  match s, fuel with
  | [], _ => true
  | _, O => false
  | _, S fuel => let '(r, w) := DecodeRune s in
      if (r =? RuneError) && Nat.eqb w 1 then false else valid_loop fuel (drop w s)
  end.
Definition ValidString (s : bytes) : bool := valid_loop (length s) s.

Definition hex_digit (z : Z) : Init.Byte.byte :=
  let z := Z.land z 15 in byte.of_Z (if z <? 10 then 48 + z else 87 + z).
Definition hex (digits : Z) (z : Z) : bytes :=
  map (fun i => hex_digit (Z.shiftr z (4 * i))) (rev (seqZ 0 digits)).

(** The one-letter escapes. *)
Definition short_escape (r : Z) : option bytes :=
  if r =? 7 then Some (str "\a") else if r =? 8 then Some (str "\b") else if r =? 12 then Some (str "\f")
  else if r =? 10 then Some (str "\n") else if r =? 13 then Some (str "\r") else if r =? 9 then Some (str "\t")
  else if r =? 11 then Some (str "\v") else None.

Section Quote.
(** [unicode.IsPrint] beyond ASCII is a table. *)
Context (wide_print : Z -> bool).

Definition IsPrint (r : Z) : bool := if r <? 128 then (32 <=? r) && (r <? 127) else wide_print r.

(** [src] is the encoding of [r], which decoding has found valid. *)
Definition appendEscapedRune (r : Z) (src : bytes) : bytes :=
  if (r =? 34) || (r =? 92) then chars [92; r]
  else if IsPrint r then src
  else match short_escape r with
       | Some e => e
       | None =>
           if (r <? 32) || (r =? 127) then str "\x" ++ hex 2 r
           else if r <? 65536 then str "\u" ++ hex 4 r
           else str "\U" ++ hex 8 r
       end.

Fixpoint quote_loop (fuel : nat) (s : bytes) : bytes :=
  match fuel, s with
  | S fuel, c :: _ =>
      let '(r, width) := DecodeRune s in
      (if (r =? RuneError) && bool_decide (width = 1%nat) then str "\x" ++ hex 2 (byte.unsigned c)
       else appendEscapedRune r (take width s)) ++ quote_loop fuel (drop width s)
  | _, _ => []
  end.

Definition Quote (s : bytes) : bytes := chars [34] ++ quote_loop (length s) s ++ chars [34].
End Quote.

(** ** Trimming, proved *)

Lemma starts_app p s : starts p (p ++ s) = true.
Proof. unfold starts. apply bool_decide_eq_true. by rewrite take_app_length. Qed.

Lemma starts_spec p s : starts p s = true -> s = p ++ drop (length p) s.
Proof. unfold starts. intros E%bool_decide_eq_true. by rewrite <- E at 1; rewrite take_drop. Qed.

(** No prefix is empty: the rest is shorter. *)
Definition solid_cuts (ps : list bytes) : bool := forallb (fun p => negb (bool_decide (p = []))) ps.

Lemma cut_shorter ps s r : solid_cuts ps = true -> cut_prefix ps s = Some r -> (length r < length s)%nat.
Proof.
  induction ps as [|p ps IH]; cbn; [done|]. intros [Hp Hps]%andb_prop. destruct (starts p s) eqn:E; [|by apply IH].
  intros [= <-]. apply starts_spec, (f_equal length) in E. rewrite length_app in E. apply negb_true_iff, bool_decide_eq_false in Hp.
  destruct p; [done|]. cbn [length] in *. lia.
Qed.

Lemma trim_fuel ps : solid_cuts ps = true -> forall n s, (length s <= n)%nat -> trim_left n ps s = TrimLeft ps s.
Proof.
  intros Hps. unfold TrimLeft. induction n as [n IH] using lt_wf_ind. intros s Hn.
  destruct n as [|n]; [by destruct s; [|cbn in Hn; lia]|]. cbn [trim_left].
  destruct (cut_prefix ps s) as [r|] eqn:E.
  - pose proof (cut_shorter _ _ _ Hps E). rewrite IH by lia. destruct (length s) as [|k] eqn:Ek; [lia|].
    cbn [trim_left]. rewrite E. destruct (decide (k < S n)%nat); [by rewrite (IH k) by lia|]. lia.
  - destruct (length s); cbn [trim_left]; by rewrite ?E.
Qed.

Lemma TrimLeft_step ps s : solid_cuts ps = true ->
  TrimLeft ps s = match cut_prefix ps s with Some r => TrimLeft ps r | None => s end.
Proof.
  intros Hps. rewrite <- (trim_fuel ps Hps (S (length s))) by lia. cbn [trim_left].
  destruct (cut_prefix ps s) as [r|] eqn:E; [|done]. pose proof (cut_shorter _ _ _ Hps E). apply trim_fuel; [done|lia].
Qed.

(** A text whose ends are printable and not blank is its own trim. *)
Definition graph : Init.Byte.byte -> bool := in_range 33 126.
Definition solid (s : bytes) : bool :=
  match head s, last s with Some a, Some b => graph a && graph b | _, _ => false end.

(** What trimming takes away starts and ends outside of ASCII text. *)
Lemma spaces_ends : forallb (fun p => match head p, last p with
    | Some a, Some b => negb (graph a) && negb (graph b) | _, _ => false end) spaces = true.
Proof. vm_compute. reflexivity. Qed.

Lemma spaces_solid : solid_cuts spaces = true /\ solid_cuts (map (@rev _) spaces) = true.
Proof. split; vm_compute; reflexivity. Qed.

Lemma cut_none ps s : (forall p, p ∈ ps -> starts p s = false) -> cut_prefix ps s = None.
Proof.
  induction ps as [|p ps IH]; intros H; cbn; [done|]. rewrite (H p) by by left. apply IH. intros q Hq. apply H. by right.
Qed.

Lemma cut_head ps a s : (forall p, p ∈ ps -> head p <> Some a /\ p <> []) -> cut_prefix ps (a :: s) = None.
Proof.
  intros H. apply cut_none. intros p Hp. destruct (H p Hp) as [Ha Hn]. apply bool_decide_eq_false. destruct p as [|b p]; [done|].
  cbn. intros [= ->]. by apply Ha.
Qed.

Lemma space_ends p : p ∈ spaces -> exists a b, head p = Some a /\ last p = Some b /\ graph a = false /\ graph b = false.
Proof.
  intros Hp. pose proof spaces_ends as H. rewrite forallb_forall in H. specialize (H p (proj1 (list_elem_of_In _ _) Hp)).
  destruct (head p) as [a|], (last p) as [b|]; try done. apply andb_prop in H as [H1 H2].
  exists a, b. by rewrite <- negb_true_iff, <- negb_true_iff.
Qed.

Lemma last_rev {A} (l : list A) : last (rev l) = head l.
Proof. destruct l as [|a l]; [done|]. cbn [rev head]. apply last_snoc. Qed.
Lemma head_rev {A} (l : list A) : head (rev l) = last l.
Proof. by rewrite <- last_rev, rev_involutive. Qed.

Lemma TrimLeft_solid a s : graph a = true -> TrimLeft spaces (a :: s) = a :: s.
Proof.
  intros Ha. rewrite TrimLeft_step by apply spaces_solid. rewrite cut_head; [done|]. intros p Hp.
  apply space_ends in Hp as (b & c & Hb & _ & Hg & _). rewrite Hb. split; [intros [= ->]; congruence|]. by destruct p.
Qed.

Lemma TrimRight_solid s : match last s with Some b => graph b | None => true end = true -> TrimRight spaces s = s.
Proof.
  intros Hs. unfold TrimRight. destruct (rev s) as [|b r] eqn:E.
  - by rewrite <- (rev_involutive s), E.
  - rewrite TrimLeft_step by apply spaces_solid. rewrite cut_head.
    + by rewrite <- E, rev_involutive.
    + rewrite <- head_rev, E in Hs. cbn in Hs. intros p (q & -> & Hq)%list_elem_of_fmap.
      apply space_ends in Hq as (x & y & _ & Hy & _ & Hg). rewrite head_rev, Hy. split; [intros [= ->]; congruence|].
      intros E1. apply (f_equal (@rev _)) in E1. rewrite rev_involutive in E1. by subst.
Qed.

Lemma TrimSpace_solid s : solid s = true -> TrimSpace s = s.
Proof.
  unfold solid, TrimSpace. destruct s as [|a s]; [done|]. cbn [head]. destruct (last (a :: s)) as [b|] eqn:E; [|done].
  intros [Ha Hb]%andb_prop. rewrite TrimLeft_solid by done. apply TrimRight_solid. by rewrite E.
Qed.

Lemma TrimRight_end c s : c = cr \/ c = nl -> TrimRight spaces (s ++ [c]) = TrimRight spaces s.
Proof.
  intros Hc. assert (E : cut_prefix (map (@rev _) spaces) (c :: rev s) = Some (rev s)).
  { destruct Hc as [-> | ->]; vm_compute; reflexivity. }
  unfold TrimRight. rewrite rev_app_distr. cbn [rev app].
  by rewrite (TrimLeft_step _ (c :: rev s) (proj2 spaces_solid)), E.
Qed.


(** A newline after solid text goes. *)
Lemma TrimSpace_line s : solid s = true -> TrimSpace (s ++ [nl]) = s.
Proof.
  unfold solid, TrimSpace. destruct s as [|a s]; [done|]. cbn [head app]. destruct (last (a :: s)) as [b|] eqn:E; [|done].
  intros [Ha Hb]%andb_prop. rewrite TrimLeft_solid by done. change (a :: s ++ [nl]) with ((a :: s) ++ [nl]).
  rewrite TrimRight_end by by right. apply TrimRight_solid. by rewrite E.
Qed.

(** Blanks go. *)
Lemma cut_ascii c s : byte.unsigned c ∈ [9; 10; 11; 12; 13; 32] -> cut_prefix spaces (c :: s) = Some s.
Proof.
  intros Hc. rewrite !elem_of_cons in Hc.
  destruct Hc as [E|[E|[E|[E|[E|[E|[]%elem_of_nil]]]]]];
    (rewrite <- (byte.of_Z_unsigned c), E; vm_compute; reflexivity).
Qed.

Definition blank (c : Init.Byte.byte) : bool := (byte.unsigned c =? 32) || (byte.unsigned c =? 9).

Lemma TrimLeft_blanks b s : forallb blank b = true -> TrimLeft spaces (b ++ s) = TrimLeft spaces s.
Proof.
  induction b as [|c b IH]; [done|]. cbn [forallb app]. intros [Hc Hb]%andb_prop.
  rewrite TrimLeft_step, cut_ascii; [by apply IH| |apply spaces_solid].
  unfold blank in Hc. apply orb_prop in Hc as [->%Z.eqb_eq| ->%Z.eqb_eq]; rewrite !elem_of_cons; lia.
Qed.

Lemma TrimSpace_blanks b s : forallb blank b = true -> TrimSpace (b ++ s) = TrimSpace s.
Proof. intros Hb. unfold TrimSpace. by rewrite TrimLeft_blanks. Qed.

Lemma TrimRight_blanks s b : forallb blank b = true -> TrimRight spaces (s ++ b) = TrimRight spaces s.
Proof.
  induction b as [|c b IH] using rev_ind; [by rewrite app_nil_r|]. rewrite forallb_app. cbn [forallb].
  intros [Hb [Hc _]%andb_prop]%andb_prop. rewrite <- (IH Hb), app_assoc. unfold TrimRight. rewrite rev_app_distr. cbn [rev app].
  rewrite (TrimLeft_step _ (c :: rev (s ++ b)) (proj2 spaces_solid)).
  assert (E : cut_prefix (map (@rev _) spaces) (c :: rev (s ++ b)) = Some (rev (s ++ b))); [|by rewrite E].
  unfold blank in Hc. apply orb_prop in Hc as [E%Z.eqb_eq|E%Z.eqb_eq];
    rewrite <- (byte.of_Z_unsigned c), E; vm_compute; reflexivity.
Qed.

(** Blanks around a solid text go. *)
Lemma TrimSpace_around b1 s b2 : forallb blank b1 = true -> forallb blank b2 = true -> solid s = true ->
  TrimSpace (b1 ++ s ++ b2) = s.
Proof.
  intros H1 H2 Hs. rewrite TrimSpace_blanks by done. rewrite <- (TrimSpace_solid s Hs) at 2. unfold TrimSpace.
  unfold solid in Hs. destruct s as [|a s]; [done|]. cbn [head app] in *.
  destruct (last (a :: s)); [|done]. apply andb_prop in Hs as [Ha _]. rewrite !TrimLeft_solid by done.
  change (a :: s ++ b2) with ((a :: s) ++ b2). by apply TrimRight_blanks.
Qed.

(** [" \t"] cuts the blanks off and nothing else. *)
Lemma TrimLeft_cutset s : exists b, forallb blank b = true /\ s = b ++ TrimLeft blanks s /\
  match head (TrimLeft blanks s) with Some c => blank c = false | None => true = true end.
Proof.
  assert (H : forall c s, cut_prefix blanks (c :: s) = if blank c then Some s else None).
  { intros c t. unfold cut_prefix, blanks, starts. cbn [length take drop chars map].
    assert (Hs : forall x, 0 <= x < 256 -> bool_decide (take 0 t = [] /\ c = byte.of_Z x) = (byte.unsigned c =? x)).
    { intros x Hx. destruct (Z.eqb_spec (byte.unsigned c) x) as [<-|Hne].
      - apply bool_decide_eq_true. by rewrite byte.of_Z_unsigned.
      - apply bool_decide_eq_false. intros [_ ->]. rewrite byte.unsigned_of_Z in Hne. unfold byte.wrap in Hne. rewrite Z.mod_small in Hne; lia. }
    unfold blank. rewrite <- !Hs by lia. cbn [take]. rewrite drop_0.
    repeat case_bool_decide; cbn; try done; naive_solver. }
  induction s as [|c s IH]; [by exists []|].
  rewrite TrimLeft_step, H by reflexivity. destruct (blank c) eqn:Ec.
  - destruct IH as (b & Hb & E & Hh). exists (c :: b). cbn [forallb app]. rewrite Ec, Hb, <- E. done.
  - exists []. cbn. by rewrite Ec.
Qed.

(** ** A carriage return at the end *)

Lemma starts_cr p s : p ∈ spaces -> s <> [] -> starts p (s ++ [cr]) = starts p s.
Proof.
  intros Hp Hs. unfold starts. apply bool_decide_ext. split; [|intros E; rewrite take_app_le; [done|]].
  - intros E. destruct (decide (length p <= length s)%nat); [by rewrite take_app_le in E by done|]. exfalso.
    rewrite take_ge in E by (rewrite length_app; cbn; lia).
    assert (Hcr : forall q, q ∈ spaces -> last q = Some cr -> q = [cr]).
    { intros q Hq. assert (Hall : forallb (fun q => negb (bool_decide (last q = Some cr)) || bool_decide (q = [cr])) spaces = true)
        by (vm_compute; reflexivity).
      rewrite forallb_forall in Hall. specialize (Hall q (proj1 (list_elem_of_In _ _) Hq)).
      apply orb_prop in Hall as [H%negb_true_iff%bool_decide_eq_false|H%bool_decide_eq_true]; [intros ?; by destruct H|done]. }
    specialize (Hcr p Hp). rewrite <- E, last_snoc in Hcr. specialize (Hcr eq_refl).
    apply (f_equal length) in Hcr. rewrite length_app in Hcr. destruct s; [done|cbn in Hcr; lia].
  - rewrite <- E, length_take. lia.
Qed.

Lemma cut_cr ps s : (forall p, p ∈ ps -> p ∈ spaces) -> s <> [] ->
  cut_prefix ps (s ++ [cr]) = (fun r => r ++ [cr]) <$> cut_prefix ps s.
Proof.
  intros Hps Hs. induction ps as [|p ps IH]; [done|]. cbn [cut_prefix]. rewrite starts_cr; [|apply Hps; by left|done].
  destruct (starts p s) eqn:E; [|apply IH; intros q Hq; apply Hps; by right]. cbn. f_equal.
  apply drop_app_le. apply starts_spec, (f_equal length) in E. rewrite length_app in E. lia.
Qed.

Lemma TrimLeft_cr s : TrimLeft spaces (s ++ [cr]) = match TrimLeft spaces s with [] => [] | r => r ++ [cr] end.
Proof.
  induction s as [s IH] using (induction_ltof1 _ (@length _)). unfold ltof in IH.
  rewrite (TrimLeft_step _ (s ++ [cr])), (TrimLeft_step _ s) by apply spaces_solid.
  destruct (decide (s = [])) as [->|Hs]; [by vm_compute|]. rewrite cut_cr by done.
  destruct (cut_prefix spaces s) as [r|] eqn:E; cbn [fmap option_fmap option_map]; [|by destruct s].
  apply IH. exact (cut_shorter _ _ _ (proj1 spaces_solid) E).
Qed.

Lemma TrimSpace_cr s : TrimSpace (s ++ [cr]) = TrimSpace s.
Proof.
  unfold TrimSpace. rewrite TrimLeft_cr. destruct (TrimLeft spaces s) as [|c r]; [done|]. apply TrimRight_end. by left.
Qed.

Lemma TrimSpace_dropCR s : TrimSpace (dropCR s) = TrimSpace s.
Proof.
  unfold dropCR. destruct (last s) as [c|] eqn:E; [|done]. case_bool_decide as Hc; [subst c|done].
  apply last_Some in E as [l ->]. by rewrite removelast_last, TrimSpace_cr.
Qed.

(** ** Lines, proved *)

Lemma raw_lines_line l b : nl ∉ l -> raw_lines (l ++ nl :: b) = l :: raw_lines b.
Proof.
  induction l as [|c l IH]; intros Hl; cbn [raw_lines app]; [by rewrite bool_decide_eq_true_2|].
  apply not_elem_of_cons in Hl as [Hc Hl]. rewrite bool_decide_eq_false_2 by done. by rewrite IH.
Qed.

Lemma raw_lines_end l : nl ∉ l -> raw_lines l = match l with [] => [] | _ => [l] end.
Proof.
  induction l as [|c l IH]; intros Hl; cbn [raw_lines]; [done|].
  apply not_elem_of_cons in Hl as [Hc Hl]. rewrite bool_decide_eq_false_2, IH by done. by destruct l.
Qed.

Lemma raw_lines_nl b : Forall (fun l => nl ∉ l) (raw_lines b).
Proof.
  induction b as [|c b IH]; cbn [raw_lines]; [constructor|]. case_bool_decide as Hc.
  - constructor; [by apply not_elem_of_nil|done].
  - destruct (raw_lines b) as [|l ls]; [repeat constructor; set_solver|].
    apply Forall_cons in IH as [Hl Hls]. constructor; [|done]. set_solver.
Qed.

(** Every line with a newline after it. *)
Definition join (ls : list bytes) : bytes := concat (map (fun l => l ++ [nl]) ls).

Lemma join_app a b : join (a ++ b) = join a ++ join b.
Proof. unfold join. by rewrite map_app, concat_app. Qed.

Lemma raw_lines_join ls b : Forall (fun l => nl ∉ l) ls -> raw_lines (join ls ++ b) = ls ++ raw_lines b.
Proof.
  induction 1 as [|l ls Hl _ IH]; [done|]. unfold join in *. cbn [map concat]. rewrite <- !app_assoc. cbn [app].
  by rewrite raw_lines_line, IH.
Qed.

(** Without the last newline, an empty last line is not there. *)
Lemma raw_lines_chopped ls l : Forall (fun l => nl ∉ l) (ls ++ [l]) ->
  raw_lines (removelast (join (ls ++ [l]))) = ls ++ match l with [] => [] | _ => [l] end.
Proof.
  intros [Hls Hl]%Forall_app. apply Forall_cons in Hl as [Hl _]. rewrite join_app. unfold join at 2. cbn [map concat].
  rewrite app_nil_r, app_assoc, removelast_last, raw_lines_join by done. by rewrite raw_lines_end.
Qed.

Lemma join_raw_lines b : join (raw_lines b) = b \/ join (raw_lines b) = b ++ [nl].
Proof.
  induction b as [|c b IH]; [by left|]. cbn [raw_lines]. case_bool_decide as Hc.
  - subst c. unfold join in *. cbn [map concat app]. destruct IH as [IH|IH]; rewrite IH; [by left|by right].
  - destruct (raw_lines b) as [|l ls] eqn:E.
    + destruct IH as [IH|IH]; [|by destruct b]. rewrite <- IH. right. done.
    + unfold join in *. cbn [map concat app] in *. destruct IH as [IH|IH]; rewrite IH; [by left|by right].
Qed.

(** ** Quoting, proved *)

Definition printable (c : Init.Byte.byte) : bool := in_range 32 126 c.

(** A reader of TOML basic strings, as far as ASCII needs it: the closing quote ends
    the text, a backslash starts one of the escapes of the format, control
    characters are errors.  The escapes by code point have no reader here. *)
Fixpoint toml_chars (s : bytes) : option bytes :=
  match s with
  | [] => None
  | c :: s =>
      let b := byte.unsigned c in
      if b =? 34 then if bool_decide (s = []) then Some [] else None
      else if b =? 92 then
        match s with
        | e :: s =>
            d ← (if bool_decide (byte.unsigned e ∈ [34; 92]) then Some e
                 else if byte.unsigned e =? 98 then Some (byte.of_Z 8) else if byte.unsigned e =? 102 then Some (byte.of_Z 12)
                 else if byte.unsigned e =? 110 then Some nl else if byte.unsigned e =? 114 then Some cr
                 else if byte.unsigned e =? 116 then Some (byte.of_Z 9) else None);
            r ← toml_chars s; Some (d :: r)
        | [] => None
        end
      else if (b <? 32) && negb (b =? 9) || (b =? 127) then None
      else r ← toml_chars s; Some (c :: r)
  end.
Definition toml_string (s : bytes) : option bytes :=
  match s with c :: s => if byte.unsigned c =? 34 then toml_chars s else None | [] => None end.

Section Quoted.
Context (wide_print : Z -> bool).

(** What quoting makes of a printable character. *)
Definition quoted (c : Init.Byte.byte) : bytes := if bool_decide (byte.unsigned c ∈ [34; 92]) then chars [92] ++ [c] else [c].

Lemma quote_printable s : forallb printable s = true -> forall n, (length s <= n)%nat ->
  quote_loop wide_print n s = concat (map quoted s).
Proof.
  induction s as [|c s IH]; intros Hs [|n] Hn; cbn in Hn; try lia; [done..|].
  cbn [forallb] in Hs. apply andb_prop in Hs as [Hc Hs]. unfold printable, in_range in Hc.
  apply andb_prop in Hc as [H1%Z.leb_le H2%Z.leb_le]. cbn [quote_loop map concat DecodeRune].
  rewrite (proj2 (Z.ltb_lt (byte.unsigned c) 128)) by lia. cbn [drop take].
  rewrite drop_0, IH by (done || lia). f_equal. unfold RuneError.
  rewrite (proj2 (Z.eqb_neq (byte.unsigned c) 65533)) by lia. cbn [andb]. unfold appendEscapedRune, quoted.
  destruct (Z.eqb_spec (byte.unsigned c) 34) as [E|]; [rewrite bool_decide_eq_true_2 by set_solver; cbn; by rewrite byte.of_Z_unsigned|].
  destruct (Z.eqb_spec (byte.unsigned c) 92) as [E|]; [rewrite bool_decide_eq_true_2 by set_solver; cbn; by rewrite byte.of_Z_unsigned|].
  rewrite bool_decide_eq_false_2 by (rewrite !elem_of_cons, elem_of_nil; tauto). cbn [orb]. unfold IsPrint.
  rewrite (proj2 (Z.ltb_lt _ 128)), (proj2 (Z.leb_le 32 _)), (proj2 (Z.ltb_lt _ 127)) by lia. done.
Qed.

(** A TOML reader gets the value back. *)
Lemma toml_chars_quoted s : forallb printable s = true -> toml_chars (concat (map quoted s) ++ chars [34]) = Some s.
Proof.
  induction s as [|c s IH]; [reflexivity|]. cbn [forallb map concat]. intros [Hc Hs]%andb_prop. rewrite <- app_assoc.
  unfold printable, in_range in Hc. apply andb_prop in Hc as [H1%Z.leb_le H2%Z.leb_le]. specialize (IH Hs).
  unfold quoted at 1. case_bool_decide as He.
  - cbn [app chars map toml_chars]. change (byte.unsigned (byte.of_Z 92)) with 92. cbn [Z.eqb Pos.eqb].
    rewrite bool_decide_eq_true_2 by done. cbn [mbind option_bind].
    change [byte.of_Z 34] with (chars [34]). by rewrite IH.
  - cbn [app toml_chars]. rewrite !elem_of_cons, elem_of_nil in He.
    rewrite (proj2 (Z.eqb_neq _ 34)), (proj2 (Z.eqb_neq _ 92)), (proj2 (Z.ltb_ge _ 32)), (proj2 (Z.eqb_neq _ 127)) by lia.
    cbn [andb orb]. by rewrite IH.
Qed.

Lemma Quote_roundtrip s : forallb printable s = true -> toml_string (Quote wide_print s) = Some s.
Proof.
  intros Hs. unfold Quote, toml_string. rewrite quote_printable by done. cbn [chars map app].
  change (byte.unsigned (byte.of_Z 34)) with 34. cbn [Z.eqb Pos.eqb]. by apply toml_chars_quoted.
Qed.

Lemma Quote_solid s : solid (Quote wide_print s) = true.
Proof. unfold solid, Quote. rewrite app_assoc. unfold chars. cbn [map]. rewrite last_snoc. reflexivity. Qed.
End Quoted.

(** ** Numbers are solid text *)

Definition numeral (c : Init.Byte.byte) : bool := in_range 48 57 c || in_range 45 45 c.

Lemma pretty_N_go_numeral x s : forallb numeral (str s) = true -> forallb numeral (str (pretty_N_go x s)) = true.
Proof.
  revert s. induction (N.lt_wf_0 x) as [x _ IH]. intros s Hs. destruct (decide (0 < x)%N) as [Hx|Hx].
  - rewrite pretty_N_go_step by done. apply IH; [by apply N.div_lt|]. cbn [str String.list_byte_of_string forallb].
    apply andb_true_intro. split; [|done]. unfold pretty_N_char. repeat case_match; vm_compute; reflexivity.
  - assert (x = 0%N) as -> by lia. by rewrite pretty_N_go_0.
Qed.

Lemma decimal_numeral z : forallb numeral (decimal z) = true /\ decimal z <> [].
Proof.
  assert (Hp : forall p, forallb numeral (str (pretty (N.pos p))) = true).
  { intros p. unfold pretty, pretty_N. case_decide; [done|]. by apply pretty_N_go_numeral. }
  assert (Hne : forall x s, s <> ""%string -> pretty_N_go x s <> ""%string).
  { intros x. induction (N.lt_wf_0 x) as [x _ IH]. intros s Hs. destruct (decide (0 < x)%N) as [Hx|Hx].
    - rewrite pretty_N_go_step by done. apply IH; [by apply N.div_lt|done].
    - assert (x = 0%N) as -> by lia. by rewrite pretty_N_go_0. }
  assert (Hpe : forall p, str (pretty (N.pos p)) <> []).
  { intros p. unfold pretty, pretty_N. case_decide; [done|]. rewrite pretty_N_go_step by done. intros E.
    assert (Hgo : pretty_N_go (N.pos p `div` 10)%N (String (pretty_N_char (N.pos p `mod` 10)%N) "") <> ""%string) by by apply Hne.
    by destruct (pretty_N_go _ _). }
  unfold decimal. destruct z as [|p|p].
  - split; [vm_compute; reflexivity|done].
  - split; [apply Hp|apply Hpe].
  - split; [|done]. change (str (pretty (Z.neg p))) with (byte.of_Z 45 :: str (pretty (N.pos p))). cbn [forallb].
    by rewrite Hp.
Qed.

Lemma decimal_graph z : forallb graph (decimal z) = true /\ decimal z <> [].
Proof.
  destruct (decimal_numeral z) as [H Hn]. split; [|done]. rewrite forallb_forall in *. intros c Hc. specialize (H c Hc).
  unfold numeral, graph, in_range in *. lia.
Qed.

Lemma graph_solid s : forallb graph s = true -> s <> [] -> solid s = true.
Proof.
  intros Hs Hn. rewrite forallb_forall in Hs. unfold solid. destruct s as [|a s]; [done|]. cbn [head].
  destruct (last (a :: s)) as [b|] eqn:E; [|by apply last_None in E].
  rewrite (Hs a) by by left. apply last_Some in E as [r E]. rewrite (Hs b); [done|].
  rewrite E. apply in_or_app. right. by left.
Qed.

Lemma quoted_no_nl wp v : forallb printable v = true -> nl ∉ Quote wp v.
Proof.
  intros Hv. unfold Quote. rewrite quote_printable by done. rewrite !elem_of_app.
  assert (H34 : nl ∉ chars [34]) by (apply not_elem_of_cons; split; [done|apply not_elem_of_nil]).
  intros [H|[H|H]]; [done| |done]. apply list_elem_of_In, in_concat in H as (q & Hq & Hn).
  apply in_map_iff in Hq as (c & <- & Hc). rewrite forallb_forall in Hv. apply Hv in Hc.
  assert (c <> nl) by (intros ->; vm_compute in Hc; done). apply list_elem_of_In in Hn. unfold quoted in Hn.
  case_bool_decide; [apply elem_of_app in Hn as [Hn|Hn]|]; apply elem_of_cons in Hn as [?|Hn%elem_of_nil]; done.
Qed.
