(* ===== verification/Toml.v ===== *)
(** * A reader of TOML

    What the chain binary makes of config.toml and app.toml, as far as such files go:
    comments, tables, arrays of tables, bare and dotted keys, and values with strings
    and nested arrays, which may take several lines.  Strings over several lines and
    quoted keys are not read: a file with one has no reading here.  The reader follows
    the TOML specification and shares nothing with the patcher of tomlpatch.go. *)

From S2P Require Import Prelude Text.

Local Open Scope Z_scope.

(** ** One line *)

(** The characters of a bare key, and the dot. *)
Definition key_char (c : Init.Byte.byte) : bool :=
  in_range 48 57 c || in_range 65 90 c || in_range 97 122 c || in_range 45 46 c || in_range 95 95 c.

(** The key that a text starts with. *)
Fixpoint word (s : bytes) : bytes :=
  match s with
  | [] => []
  | c :: s => if key_char c then c :: word s else []
  end.

(** Where a text of values stands: at some depth of brackets, in a string that ends
    with [q], after a backslash in one, or just after one. *)
Inductive lexst := Code (d : nat) | InStr (q : Z) (d : nat) | Esc (d : nat) | Closed (q : Z) (d : nat).

Definition code_step (d : nat) (b : Z) : option lexst :=
  if (b =? 34) || (b =? 39) then Some (InStr b d)
  else if (b =? 91) || (b =? 123) then Some (Code (S d))
  else if (b =? 93) || (b =? 125) then match d with O => None | S d => Some (Code d) end
  else Some (Code d).

(** Three quotes in a row would open a string over several lines. *)
Definition lex_step (st : lexst) (b : Z) : option lexst :=
  match st with
  | Code d => code_step d b
  | Closed q d => if b =? q then None else code_step d b
  | InStr q d => Some (if b =? q then Closed q d else if (q =? 34) && (b =? 92) then Esc d else InStr q d)
  | Esc d => Some (InStr 34 d)
  end.

Definition depth_of (st : lexst) : option nat :=
  match st with Code d | Closed _ d => Some d | _ => None end.
Definition starts_comment (st : lexst) (b : Z) : bool :=
  match st with Code _ | Closed _ _ => b =? 35 | _ => false end.

(** The text of a line up to its comment, and the depth at its end. *)
Fixpoint lex (st : lexst) (s : bytes) : option (bytes * nat) :=
  match s with
  | [] => d ← depth_of st; Some ([], d)
  | c :: s =>
      if starts_comment st (byte.unsigned c) then d ← depth_of st; Some ([], d)
      else st ← lex_step st (byte.unsigned c); '(code, d) ← lex st s; Some (c :: code, d)
  end.

(** What a line is; a pair whose brackets stay open goes on with [More]. *)
Inductive stmt :=
| Blank
| Table (name : bytes) (commented : bool)
| Array (name : bytes)
| Pair (key piece : bytes)
| More (piece : bytes).

(** The name of a header, and whether a comment follows; the line is trimmed. *)
Definition header (closing s : bytes) : option (bytes * bool) :=
  let s := TrimLeft blanks s in
  let name := word s in
  let s := TrimLeft blanks (drop (length name) s) in
  if bool_decide (name = []) || negb (starts closing s) then None
  else match drop (length closing) s with
       | [] => Some (name, false)
       | s => if starts (str "#") (TrimLeft blanks s) then Some (name, true) else None
       end.

Definition pair_of (t : bytes) : option (stmt * nat) :=
  let key := word t in
  let r := TrimLeft blanks (drop (length key) t) in
  if bool_decide (key = []) || negb (starts (str "=") r) then None
  else '(code, d) ← lex (Code 0) (drop 1 r);
       if bool_decide (TrimSpace code = []) then None else Some (Pair key (TrimSpace code), d).

Definition stmt_of (d : nat) (t : bytes) : option (stmt * nat) :=
  match d with
  | S _ => '(code, d) ← lex (Code d) t; Some (More (TrimSpace code), d)
  | O =>
      if bool_decide (t = []) || starts (str "#") t then Some (Blank, O)
      else if starts (str "[[") t then '(name, _) ← header (str "]]") (drop 2 t); Some (Array name, O)
      else if starts (str "[") t then '(name, c) ← header (str "]") (drop 1 t); Some (Table name c, O)
      else pair_of t
  end.

(** ** A file *)

Fixpoint stmts (d : nat) (lines : list bytes) : option (list stmt) :=
  match lines with
  | [] => match d with O => Some [] | S _ => None end
  | line :: lines => '(s, d) ← stmt_of d (TrimSpace line); ss ← stmts d lines; Some (s :: ss)
  end.

(** "a.b" is the path of b in a. *)
Fixpoint split_dots (s : bytes) : list bytes :=
  match s with
  | [] => [[]]
  | c :: s =>
      if byte.unsigned c =? 46 then [] :: split_dots s
      else match split_dots s with [] => [[c]] | w :: ws => (c :: w) :: ws end
  end.
Definition comps (s : bytes) : list bytes := match s with [] => [] | _ => split_dots s end.

Fixpoint pieces (ss : list stmt) : list bytes :=
  match ss with More p :: ss => p :: pieces ss | _ => [] end.

(** The pairs of a file, each with its path and the lines of its value.  A table of an
    array has its number among those of the file as the last part of its path. *)
Fixpoint entries (table : list bytes) (n : Z) (ss : list stmt) : list (list bytes * list bytes) :=
  match ss with
  | [] => []
  | Table name _ :: ss => entries (comps name) n ss
  | Array name :: ss => entries (comps name ++ [decimal n]) (n + 1) ss
  | Pair key v :: ss => (table ++ comps key, v :: pieces ss) :: entries table n ss
  | _ :: ss => entries table n ss
  end.

Abbreviation table_of_keys := (gmap (list bytes) (list bytes)).

(** No key is given twice. *)
Definition tables (es : list (list bytes * list bytes)) : option table_of_keys :=
  if bool_decide (NoDup (map fst es)) then Some (list_to_map es) else None.
Definition toml_lines (lines : list bytes) : option table_of_keys := ss ← stmts 0 lines; tables (entries [] 0 ss).
Definition toml (body : bytes) : option table_of_keys := toml_lines (raw_lines body).

Example toml_reads :
  let body := join (map str ["a = 1 # one"; "[ t.u ] # a table"; "b = ['#', 1]"; "c.d = ["; "  ['k', 'v'],"; "]";
    "[[ar]]"; "e = { f = 2 }"; "[[ar]]"]%string) in
  entries [] 0 <$> stmts 0 (raw_lines body) = Some
    [([str "a"], [str "1"]); ([str "t"; str "u"; str "b"], [str "['#', 1]"]);
     ([str "t"; str "u"; str "c"; str "d"], [str "["; str "['k', 'v'],"; str "]"]);
     ([str "ar"; str "0"; str "e"], [str "{ f = 2 }"])] /\
  (toml body ≫= lookup [str "t"; str "u"; str "b"]) = Some [str "['#', 1]"].
Proof. split; vm_compute; reflexivity. Qed.

(** ** Proved *)

(** Only the trimmed lines matter, and an empty line at the end does not. *)
Lemma stmts_trim : forall l1 l2 d, map TrimSpace l1 = map TrimSpace l2 -> stmts d l1 = stmts d l2.
Proof.
  induction l1 as [|a l1 IH]; intros [|b l2] d [=]; [done|]. cbn [stmts]. rewrite H0.
  destruct (stmt_of d (TrimSpace b)) as [[s d']|]; [|done]. cbn [mbind option_bind]. by rewrite (IH l2).
Qed.

Lemma stmts_snoc_empty l : forall d, stmts d (l ++ [[]]) = (fun ss => ss ++ [Blank]) <$> stmts d l.
Proof.
  induction l as [|a l IH]; intros d; cbn [stmts app]; [by destruct d|].
  destruct (stmt_of d (TrimSpace a)) as [[s d']|]; [|done]. cbn [mbind option_bind]. rewrite IH. by destruct (stmts d' l).
Qed.

Lemma pieces_snoc ss : pieces (ss ++ [Blank]) = pieces ss.
Proof. induction ss as [|[] ss IH]; cbn; by rewrite ?IH. Qed.

Lemma entries_snoc ss : forall t n, entries t n (ss ++ [Blank]) = entries t n ss.
Proof. induction ss as [|s ss IH]; intros t n; [done|]. destruct s; cbn [entries app]; by rewrite ?IH, ?pieces_snoc. Qed.

Lemma toml_lines_trim l1 l2 : map TrimSpace l1 = map TrimSpace l2 -> toml_lines l1 = toml_lines l2.
Proof. intros E. unfold toml_lines. by rewrite (stmts_trim l1 l2). Qed.

Lemma toml_snoc_empty l : toml_lines (l ++ [[]]) = toml_lines l.
Proof. unfold toml_lines. rewrite stmts_snoc_empty. destruct (stmts 0 l); [|done]. cbn. by rewrite entries_snoc. Qed.

(** Another value for one entry. *)
Lemma tables_replace es1 es2 p v w m : tables (es1 ++ (p, v) :: es2) = Some m ->
  m !! p = Some v /\ tables (es1 ++ (p, w) :: es2) = Some (<[p := w]> m).
Proof.
  unfold tables. rewrite !map_app. cbn [map fst]. case_bool_decide as Hnd; [|done]. intros [= <-].
  assert (Hp : (list_to_map es1 : table_of_keys) !! p = None).
  { apply not_elem_of_list_to_map_1. apply NoDup_app in Hnd as (_ & Hd & _). intros Hin. apply (Hd p Hin). by left. }
  rewrite !list_to_map_app. cbn [list_to_map foldr]. change (foldr _ _ es2) with (list_to_map es2 : table_of_keys).
  split.
  - rewrite lookup_union_r by done. cbn. by rewrite lookup_insert_eq.
  - f_equal. cbn. rewrite insert_union_r by done. by rewrite insert_insert_eq.
Qed.

(** *** Headers *)

Lemma starts_head c p s : starts (c :: p) s = true -> head s = Some c.
Proof. intros ->%starts_spec. done. Qed.

Lemma word_split s : exists r, s = word s ++ r /\ forallb key_char (word s) = true /\
  match head r with Some c => key_char c | None => false end = false.
Proof.
  induction s as [|c s (r & E & Hk & Hr)]; [by exists []|]. cbn [word]. destruct (key_char c) eqn:Ec.
  - exists r. cbn. rewrite Ec, <- E. done.
  - exists (c :: s). done.
Qed.

Lemma word_app k s : forallb key_char k = true -> match head s with Some c => key_char c | None => false end = false ->
  word (k ++ s) = k.
Proof.
  induction k as [|c k IH]; cbn [forallb app word].
  - destruct s as [|c s]; cbn; [done|]. by intros _ ->.
  - intros [-> Hk]%andb_prop Hs. by rewrite IH.
Qed.

(** The parts of a header without a comment. *)
Lemma header_parts closing s name : header closing s = Some (name, false) ->
  name <> [] /\ forallb key_char name = true /\
  exists b1 b2, forallb blank b1 = true /\ forallb blank b2 = true /\ s = b1 ++ name ++ b2 ++ closing.
Proof.
  unfold header. destruct (TrimLeft_cutset s) as (b1 & Hb1 & E1 & _).
  destruct (word_split (TrimLeft blanks s)) as (r & Er & Hk & _).
  set (w := word (TrimLeft blanks s)) in *. replace (drop (length w) (TrimLeft blanks s)) with r by (by rewrite Er, drop_app_length).
  destruct (TrimLeft_cutset r) as (b2 & Hb2 & E2 & _).
  destruct (bool_decide (w = []) || _) eqn:Eg; [done|].
  apply orb_false_iff in Eg as [Hw%bool_decide_eq_false Hc%negb_false_iff]. apply starts_spec in Hc.
  destruct (drop (length closing) (TrimLeft blanks r)) as [|x t]; [|by destruct (starts _ _)].
  intros [= <-]. split; [done|]. split; [done|]. exists b1, b2. rewrite app_nil_r in Hc.
  split; [done|]. split; [done|]. by rewrite <- Hc, <- E2, <- Er.
Qed.

(** ** Values *)

(** Text without brackets, quotes and number signs is a value as it is. *)
Definition simple (c : Init.Byte.byte) : bool := negb (bool_decide (byte.unsigned c ∈ [34; 35; 39; 91; 93; 123; 125])).

Lemma lex_simple s : forallb simple s = true -> lex (Code 0) s = Some (s, O).
Proof.
  induction s as [|c s IH]; [done|]. cbn [forallb]. intros [Hc Hs]%andb_prop. cbn [lex].
  apply negb_true_iff, bool_decide_eq_false in Hc. rewrite !elem_of_cons, elem_of_nil in Hc.
  unfold starts_comment, lex_step, code_step.
  rewrite !(proj2 (Z.eqb_neq _ _)) by lia. cbn [orb mbind option_bind]. by rewrite IH.
Qed.

Lemma lex_decimal z : lex (Code 0) (decimal z) = Some (decimal z, O).
Proof.
  apply lex_simple. destruct (decimal_numeral z) as [H _]. rewrite forallb_forall in *. intros c Hc. specialize (H c Hc).
  unfold numeral, in_range in H. apply negb_true_iff, bool_decide_eq_false. rewrite !elem_of_cons, elem_of_nil. lia.
Qed.

(** A quoted text is a value as it is. *)
Lemma lex_quote wp s : forallb printable s = true -> lex (Code 0) (Quote wp s) = Some (Quote wp s, O).
Proof.
  intros Hs. unfold Quote. rewrite quote_printable by done.
  assert (H : lex (InStr 34 0) (concat (map quoted s) ++ chars [34]) = Some (concat (map quoted s) ++ chars [34], O)).
  { induction s as [|c s IH]; [done|]. cbn [forallb map concat] in *. apply andb_prop in Hs as [_ Hs]. specialize (IH Hs).
    rewrite <- app_assoc. unfold quoted at 1 3. case_bool_decide as He.
    - cbn [chars map app lex starts_comment]. change (byte.unsigned (byte.of_Z 92)) with 92. cbn [lex_step Z.eqb Pos.eqb andb mbind option_bind].
      change [byte.of_Z 34] with (chars [34]). by rewrite IH.
    - rewrite !elem_of_cons, elem_of_nil in He. cbn [app lex starts_comment lex_step].
      rewrite (proj2 (Z.eqb_neq (byte.unsigned c) 34)), (proj2 (Z.eqb_neq (byte.unsigned c) 92)), andb_false_r by lia.
      cbn [mbind option_bind]. by rewrite IH. }
  cbn [chars map app lex starts_comment]. change (byte.unsigned (byte.of_Z 34)) with 34. cbn [lex_step code_step Z.eqb Pos.eqb orb mbind option_bind].
  change [byte.of_Z 34] with (chars [34]). by rewrite H.
Qed.
