(* ===== verification/PeerSets.v ===== *)
(** * What is remembered of peers across runs

    internal/helpers/banlist/banlist.go, served/served.go, addrbook/populate.go; the
    peer lists of internal/snapfetch/session.go and helpers.go; the reactors of
    internal/pex; internal/cli/bootstrap/peers.go.  The ban list and the served list
    are maps in memory, capped, saved through [Durable] and read back at the next
    start.  The main theorems: the cap drops the oldest entries and no others; a
    saved set is what the next run reads, less what is too old, wherever the power
    goes; and a banned address does not enter the address book. *)

From S2P Require Import Prelude Durable Text.

(** ** Entries with an address and a time *)

(** [json_safe] says that encoding/json keeps the entry: it replaces invalid UTF-8. *)
Class Dated (E : Type) := { addr_of : E -> bytes; seen_at : E -> Z; json_safe : E -> bool }.

Definition is_int64 (z : Z) : bool := (- 2 ^ 63 <=? z) && (z <? 2 ^ 63).

(** encoding/json on a list of entries: what it wrote of such entries reads back. *)
Class ListCodec (E : Type) := { marshal : list E -> outcome bytes; unmarshal : bytes -> outcome (list E) }.
Class ListCodecLaws (E : Type) `{Dated E} `{ListCodec E} :=
  { unmarshal_marshal : forall l b, Forall (fun e => json_safe e = true) l -> marshal l = Ret b -> unmarshal b = Ret l }.

Section Sets.
Context {E : Type} `{Dated E} `{ListCodec E}.

(** The state of a [Set]: its path, its limits and its entries by address.
    [order] is the order in which Go visits a map. *)
Record set := mkSet { s_path : path; s_cap : Z; s_maxAge : Z; s_entries : gmap bytes E }.
Context (order : gmap bytes E -> list bytes).

Definition with_entries (m : gmap bytes E) (s : set) : set := mkSet (s_path s) (s_cap s) (s_maxAge s) m.

(** Oldest first. *)
Definition older (a b : bytes * Z) : Prop := a.2 <= b.2.
#[export] Instance older_dec : RelDecision older := fun a b => decide (a.2 <= b.2).

Definition enforceCapLocked (s : set) : set :=
  let m := s_entries s in
  if (s_cap s <=? 0) || (Z.of_nat (size m) <=? s_cap s) then s
  else
    let arr := merge_sort older (omap (fun k => e ← m !! k; Some (k, seen_at e)) (order m)) in
    let drop := Z.to_nat (Z.of_nat (size m) - s_cap s) in
    with_entries (foldl (fun m kt => delete kt.1 m) m (take drop arr)) s.

(** Newest first. *)
Definition newest (a b : E) : Prop := seen_at b <= seen_at a.
#[export] Instance newest_dec : RelDecision newest := fun a b => decide (seen_at b <= seen_at a).

Definition allLocked (s : set) : list E :=
  merge_sort newest (omap (fun k => s_entries s !! k) (order (s_entries s))).

(** The loop over the file's entries: later ones replace earlier ones. *)
Definition keep_entry (cutoff : Z) (m : gmap bytes E) (e : E) : gmap bytes E :=
  if bool_decide (addr_of e = []) || (seen_at e <? cutoff) then m else <[addr_of e := e]> m.

Definition load_entries (now : Z) (l : list E) (s : set) : set :=
  enforceCapLocked (with_entries (foldl (keep_entry (now - s_maxAge s)) ∅ l) s).

Definition load (now : Z) (s : set) : M mach set := fun m =>
  match ReadFile (s_path s) m with
  | (Ret b, m') =>
      (l ← wrap_out "parse file" (unmarshal b); Ret (load_entries now l s), m')
  | (Err e, m') =>
      (if bool_decide (e = ENOENT) then Ret (with_entries ∅ s) else Err (Wrapf "read file" e), m')
  | (Panic w, m') => (Panic w, m')
  | (NoFuel, m') => (NoFuel, m')
  end.

Definition Save (s : set) : M mach unit :=
  wrap_err "mkdir" (MkdirAll (Dir (s_path s)));;
  b ← lift (wrap_out "marshal" (marshal (allLocked s)));
  wrap_err "write" (WriteFile (s_path s) b 420).
End Sets.
Arguments set E : clear implicits.

(** ** banlist.go

    A nil [*Set] is [None]: the calls do nothing. *)
Module Banlist.

Record Entry := mkEntry { Addr : bytes; FirstSeenAt : Z; LastSeenAt : Z; Reason : bytes; FailCount : Z }.
#[global] Instance dated : Dated Entry := {| addr_of := Addr; seen_at := LastSeenAt;
  json_safe e := ValidString (Addr e) && ValidString (Reason e) && is_int64 (FailCount e) |}.

Definition DefaultCap : Z := 50000.
Definition DefaultMaxAge : Z := 30 * 24 * 3600 * 1000000000.

Section Banlist.
Context `{ListCodec Entry} (order : gmap bytes Entry -> list bytes).

Definition New (now : Z) (p : path) : M mach (set Entry) :=
  match p with
  | [] => fail (Errorf "banlist path is empty")
  | _ => load order now (mkSet p DefaultCap DefaultMaxAge ∅)
  end.

Definition Has (addr : bytes) (s : option (set Entry)) : bool :=
  match s with
  | None => false
  | Some s => negb (bool_decide (addr = [])) && bool_decide (is_Some (s_entries s !! addr))
  end.

Definition bump (now : Z) (reason : bytes) (e : Entry) : Entry :=
  mkEntry (Addr e) (FirstSeenAt e) now (match reason with [] => Reason e | _ => reason end) (i64 (FailCount e + 1)).

Definition Add (now : Z) (addr reason : bytes) (s : option (set Entry)) : option (set Entry) :=
  match s with
  | None => None
  | Some s =>
      if bool_decide (addr = []) then Some s else
      let e := default (mkEntry addr now 0 [] 0) (s_entries s !! addr) in
      Some (enforceCapLocked order (with_entries (<[addr := bump now reason e]> (s_entries s)) s))
  end.

Definition Remove (addr : bytes) (s : option (set Entry)) : option (set Entry) :=
  match s with
  | None => None
  | Some s => if bool_decide (addr = []) then Some s else Some (with_entries (delete addr (s_entries s)) s)
  end.

Definition Len (s : option (set Entry)) : Z := match s with None => 0 | Some s => Z.of_nat (size (s_entries s)) end.
Definition Path (s : option (set Entry)) : path := match s with None => [] | Some s => s_path s end.

Definition Save (s : option (set Entry)) : M mach unit :=
  match s with None => mret tt | Some s => PeerSets.Save order s end.
End Banlist.
End Banlist.

(** ** served.go *)
Module Served.

Record Entry := mkEntry { ID : bytes; Addr : bytes; FirstSeenAt : Z; LastSeenAt : Z; ChunksTotal : Z }.
#[global] Instance dated : Dated Entry := {| addr_of := Addr; seen_at := LastSeenAt;
  json_safe e := ValidString (Addr e) && ValidString (ID e) && is_int64 (ChunksTotal e) |}.

Definition DefaultCap : Z := 5000.
Definition DefaultMaxAge : Z := 30 * 24 * 3600 * 1000000000.

Section Served.
Context `{ListCodec Entry} (order : gmap bytes Entry -> list bytes).

Definition New (now : Z) (p : path) : M mach (set Entry) :=
  match p with
  | [] => fail (Errorf "served list path is empty")
  | _ => load order now (mkSet p DefaultCap DefaultMaxAge ∅)
  end.

Definition Record_ (now : Z) (id addr : bytes) (s : option (set Entry)) : option (set Entry) :=
  match s with
  | None => None
  | Some s =>
      if bool_decide (addr = []) then Some s else
      let e := default (mkEntry id addr now 0 0) (s_entries s !! addr) in
      let e := mkEntry (ID e) (Addr e) (FirstSeenAt e) now (i64 (ChunksTotal e + 1)) in
      Some (enforceCapLocked order (with_entries (<[addr := e]> (s_entries s)) s))
  end.

Definition All (s : option (set Entry)) : list Entry := match s with None => [] | Some s => allLocked order s end.
Definition Len (s : option (set Entry)) : Z := match s with None => 0 | Some s => Z.of_nat (size (s_entries s)) end.
Definition Path (s : option (set Entry)) : path := match s with None => [] | Some s => s_path s end.

Definition Save (s : option (set Entry)) : M mach unit :=
  match s with None => mret tt | Some s => PeerSets.Save order s end.
End Served.
End Served.

(** ** The address book and the dial pool

    The address book is cometbft's: a state with an [AddAddress] that may refuse;
    [parse] is [p2p.NewNetAddressString]. *)

(** What the code reads of a [p2p.NetAddress]: whether it has an ID, and [String()]. *)
Record netAddr := mkNA { na_HasID : bool; na_String : bytes }.

Class AddrBook (B : Type) := { AddAddress : B -> netAddr -> netAddr -> option goerr * B }.

Inductive source_kind := SourceBootstrap | SourceAddrbook.
Record PeerAddr := mkPA { pa_Addr : bytes; pa_Source : source_kind }.

Section Book.
Context {B : Type} `{AddrBook B} `{ListCodec Banlist.Entry} (parse : bytes -> option netAddr).

Record PopulateResult := mkPR { Added : Z; SkippedBanned : Z }.
Record pop_state := mkPop { p_book : B; p_bans : option (set Banlist.Entry); p_res : PopulateResult }.

Definition offer_book (addr : bytes) (s : pop_state) : pop_state :=
  match parse addr with
  | None => s
  | Some na =>
      match AddAddress (p_book s) na na with
      | (None, b) => mkPop b (p_bans s) (mkPR (i64 (Added (p_res s) + 1)) (SkippedBanned (p_res s)))
      | (Some _, b) => mkPop b (p_bans s) (p_res s)
      end
  end.

Definition populate_one (s : pop_state) (p : PeerAddr) : pop_state :=
  match pa_Source p with
  | SourceAddrbook =>
      if Banlist.Has (pa_Addr p) (p_bans s)
      then mkPop (p_book s) (p_bans s) (mkPR (Added (p_res s)) (i64 (SkippedBanned (p_res s) + 1)))
      else offer_book (pa_Addr p) s
  | SourceBootstrap =>
      offer_book (pa_Addr p) (mkPop (p_book s) (Banlist.Remove (pa_Addr p) (p_bans s)) (p_res s))
  end.

Definition Populate (book : B) (bans : option (set Banlist.Entry)) (addrs : list PeerAddr) : pop_state :=
  foldl populate_one (mkPop book bans (mkPR 0 0)) addrs.

(** [AutoReactor.handleAddrs]: [addrs] is what [p2p.NetAddressesFromProto] made of the
    message; the second result is whether the manager is kicked. *)
Definition gossip_one (bans : option (set Banlist.Entry)) (src : netAddr) (s : B * (Z * Z)) (a : option netAddr) : B * (Z * Z) :=
  match a with
  | None => s
  | Some a =>
      if negb (na_HasID a) then s
      else if Banlist.Has (na_String a) bans then (s.1, (s.2.1, s.2.2 + 1))
      else match AddAddress s.1 a src with
           | (Some _, b) => (b, s.2)
           | (None, b) => (b, (s.2.1 + 1, s.2.2))
           end
  end.

Definition handleAddrs (has_kicker : bool) (bans : option (set Banlist.Entry)) (src : netAddr)
    (addrs : outcome (list (option netAddr))) (book : B) : B * bool :=
  match addrs with
  | Ret l => let '(b, (added, _)) := foldl (gossip_one bans src) (book, (0, 0)) l in (b, (0 <? added) && has_kicker)
  | _ => (book, false)
  end.
End Book.

(** [addrbook.Load]'s items as [loadAddrbookPeers] uses them: [String()] of each, the
    most recent success first. *)
Fixpoint loadAddrbookPeers (seen : gset bytes) (items : list bytes) : list PeerAddr :=
  match items with
  | [] => []
  | s :: items =>
      if bool_decide (s ∈ seen) then loadAddrbookPeers seen items
      else mkPA s SourceAddrbook :: loadAddrbookPeers ({[s]} ∪ seen) items
  end.

(** [buildPeerAddrs]: the bootstrap peers are put in front one by one. *)
Definition buildPeerAddrs (pexDisabled : bool) (items bootstrap : list bytes) : outcome (list PeerAddr) :=
  let start := if pexDisabled then [] else loadAddrbookPeers ∅ items in
  let peerAddrs := foldl (fun acc s =>
      let s := TrimSpace s in
      if bool_decide (s = []) then acc else mkPA s SourceBootstrap :: acc) start bootstrap in
  match peerAddrs with
  | [] => Err (Wrapf "no peers" (Errorf "no peer addrs available"))
  | _ => Ret peerAddrs
  end.

(** The dial pool of [newFetchSession]: the peers that have served chunks, newest
    first, then the others; the pins are the served ones with an ID. *)
Definition session_pool (served : list Served.Entry) (peerAddrs : list PeerAddr) : list PeerAddr :=
  map (fun e => mkPA (Served.Addr e) SourceBootstrap) served ++ peerAddrs.
Definition session_pins (served : list Served.Entry) : list (bytes * bytes) :=
  map (fun e => (Served.ID e, Served.Addr e)) served.

(** ** Peers for the bootstrapped home (cli/bootstrap/peers.go) *)

Definition defaultPersistentPeerCount : Z := 20.

(** [set] is the set [served.New] loaded, [None] when there is no file. *)
Definition readServedPeers `{ListCodec Served.Entry} (order : gmap bytes Served.Entry -> list bytes)
    (s : option (set Served.Entry)) (max : Z) : list bytes :=
  let all := Served.All order s in
  let all := if (0 <? max) && (max <? len all) then take (Z.to_nat max) all else all in
  filter (fun a => a <> []) (map Served.Addr all).

Definition at_sign : Init.Byte.byte := byte.of_Z 64.

(** [strings.IndexByte(p, '@')] and what is before it; [None] without one, or at 0. *)
Fixpoint before_at (p : bytes) : option bytes :=
  match p with
  | [] => None
  | c :: p => if bool_decide (c = at_sign) then Some [] else (fun id => c :: id) <$> before_at p
  end.

Definition peer_id (p : bytes) : option bytes :=
  match before_at p with Some [] | None => None | Some id => Some id end.

Fixpoint merge_list (seen : gset bytes) (l : list bytes) : list bytes * gset bytes :=
  match l with
  | [] => ([], seen)
  | p :: l =>
      match peer_id p with
      | None => merge_list seen l
      | Some id =>
          if bool_decide (id ∈ seen) then merge_list seen l
          else let '(out, seen') := merge_list ({[id]} ∪ seen) l in (p :: out, seen')
      end
  end.

Fixpoint merge_lists (seen : gset bytes) (ls : list (list bytes)) : list bytes :=
  match ls with
  | [] => []
  | l :: ls => let '(out, seen') := merge_list seen l in out ++ merge_lists seen' ls
  end.

Definition mergePeers (ls : list (list bytes)) : list bytes := merge_lists ∅ ls.

(** ** The cap *)

Lemma foldl_delete {E} (l : list (bytes * Z)) : forall (m : gmap bytes E) k,
  foldl (fun m kt => delete kt.1 m) m l !! k = if decide (k ∈ l.*1) then None else m !! k.
Proof.
  induction l as [|x l IH]; intros m k; cbn [foldl fmap list_fmap]; [by rewrite decide_False by apply not_elem_of_nil|].
  rewrite IH. destruct (decide (k ∈ l.*1)) as [Hin|Hin].
  - rewrite decide_True; [done|]. by apply elem_of_cons; right.
  - destruct (decide (k = x.1)) as [->|Hk].
    + rewrite lookup_delete_eq, decide_True; [done|]. apply elem_of_cons. by left.
    + rewrite lookup_delete_ne by done. rewrite decide_False; [done|]. rewrite elem_of_cons. naive_solver.
Qed.

Lemma foldl_delete_size {E} (l : list (bytes * Z)) : forall (m : gmap bytes E), NoDup (l.*1) ->
  (forall k, k ∈ l.*1 -> is_Some (m !! k)) -> size (foldl (fun m kt => delete kt.1 m) m l) = (size m - length l)%nat.
Proof.
  induction l as [|x l IH]; intros m Hnd Hin; cbn [foldl length]; [lia|]. apply NoDup_cons in Hnd as [Hx Hnd].
  rewrite IH; [|done|].
  - destruct (Hin x.1) as [e He]; [by left|]. rewrite map_size_delete_Some by (by eexists). lia.
  - intros k Hk. rewrite lookup_delete_ne by (intros <-; done). apply Hin. by right.
Qed.

Section SetLemmas.
Context {E : Type} `{Dated E} `{ListCodec E}.
Context (order : gmap bytes E -> list bytes).
Context (order_visits : forall m, order m ≡ₚ (map_to_list m).*1).
Implicit Types (m : gmap bytes E) (s : set E).

Lemma visited m : omap (fun k => m !! k) (order m) ≡ₚ (map_to_list m).*2.
Proof using order_visits.
  rewrite order_visits. assert (Hall : forall l, (forall kv, kv ∈ l -> m !! kv.1 = Some kv.2) -> omap (fun k => m !! k) (l.*1) = l.*2).
  { induction l as [|kv l IH]; intros Hl; cbn; [done|]. rewrite Hl by (by left). cbn. f_equal. apply IH. intros x Hx. apply Hl. by right. }
  rewrite Hall; [done|]. intros [k e] Hk. by apply elem_of_map_to_list in Hk.
Qed.

Lemma aged m : omap (fun k => e ← m !! k; Some (k, seen_at e)) (order m) ≡ₚ (fun kv => (kv.1, seen_at kv.2)) <$> map_to_list m.
Proof using order_visits.
  rewrite order_visits. assert (Hall : forall l, (forall kv, kv ∈ l -> m !! kv.1 = Some kv.2) ->
    omap (fun k => e ← m !! k; Some (k, seen_at e)) (l.*1) = (fun kv => (kv.1, seen_at kv.2)) <$> l).
  { induction l as [|kv l IH]; intros Hl; cbn; [done|]. rewrite Hl by (by left). cbn. f_equal. apply IH. intros x Hx. apply Hl. by right. }
  rewrite Hall; [done|]. intros [k e] Hk. by apply elem_of_map_to_list in Hk.
Qed.

#[local] Instance older_total : Total older.
Proof. intros a b. unfold older. lia. Qed.
#[local] Instance older_trans : Transitive older.
Proof. intros a b c. unfold older. lia. Qed.

Lemma sorted_ages m : let arr := merge_sort older (omap (fun k => e ← m !! k; Some (k, seen_at e)) (order m)) in
  StronglySorted older arr /\ NoDup (arr.*1) /\ length arr = size m /\
  (forall k t, (k, t) ∈ arr <-> exists e, m !! k = Some e /\ seen_at e = t).
Proof using order_visits.
  intros arr. assert (Hp : arr ≡ₚ (fun kv => (kv.1, seen_at kv.2)) <$> map_to_list m).
  { unfold arr. by rewrite merge_sort_Permutation, aged. }
  split; [apply StronglySorted_merge_sort; apply _|]. split; [|split].
  - rewrite Hp, <- list_fmap_compose. apply (NoDup_fst_map_to_list m).
  - by rewrite Hp, length_fmap, length_map_to_list.
  - intros k t. rewrite Hp, list_elem_of_fmap. split.
    + intros ([k' e] & [= -> ->] & Hk). exists e. by apply elem_of_map_to_list in Hk.
    + intros (e & He & <-). exists (k, e). split; [done|]. by apply elem_of_map_to_list.
Qed.

(** The part of a sorted list that is taken is no younger than the rest. *)
Lemma sorted_split {A} (R : A -> A -> Prop) n (l : list A) a b :
  StronglySorted R l -> a ∈ take n l -> b ∈ drop n l -> R a b.
Proof using.
  revert n. induction l as [|x l IH]; intros [|n] Hs Ha Hb; cbn in *; try by apply elem_of_nil in Ha.
  apply StronglySorted_inv in Hs as [Hs Hx]. rewrite Forall_forall in Hx.
  apply elem_of_cons in Ha as [->|Ha]; [|by eapply IH].
  apply Hx, list_elem_of_In. rewrite <- (take_drop n l). apply list_elem_of_In, elem_of_app. by right.
Qed.

Lemma enforceCap_spec s (s' := enforceCapLocked order s) :
  (forall k, s_entries s' !! k = None \/ s_entries s' !! k = s_entries s !! k) /\
  (0 < s_cap s -> Z.of_nat (size (s_entries s')) = Z.min (Z.of_nat (size (s_entries s))) (s_cap s)) /\
  (s_cap s <= 0 \/ Z.of_nat (size (s_entries s)) <= s_cap s -> s' = s) /\
  (forall k e k' e', s_entries s !! k = Some e -> s_entries s' !! k = None -> s_entries s' !! k' = Some e' -> seen_at e <= seen_at e').
Proof using order_visits.
  subst s'. unfold enforceCapLocked. destruct (Z.leb_spec (s_cap s) 0); cbn [orb].
  { split; [by right|]. split; [lia|]. split; [done|]. intros. congruence. }
  destruct (Z.leb_spec (Z.of_nat (size (s_entries s))) (s_cap s)).
  { split; [by right|]. split; [lia|]. split; [done|]. intros. congruence. }
  destruct (sorted_ages (s_entries s)) as (Hs & Hnd & Hlen & Hin). cbn zeta in *.
  set (arr := merge_sort older _) in *. set (n := Z.to_nat _) in *.
  assert (Hn : (n <= length arr)%nat) by (unfold n; lia).
  assert (Hnd' : NoDup ((take n arr).*1)).
  { rewrite <- (take_drop n arr), fmap_app in Hnd. by apply NoDup_app in Hnd as [? _]. }
  cbn [s_entries with_entries]. split; [|split; [|split]].
  - intros k. rewrite foldl_delete. case_decide; auto.
  - intros _. rewrite foldl_delete_size; [rewrite length_take; unfold n; lia|done|].
    intros k Hk. apply list_elem_of_fmap in Hk as ([k' t] & -> & Hk). cbn.
    assert (Ha : (k', t) ∈ arr) by (rewrite <- (take_drop n arr); apply elem_of_app; by left).
    apply Hin in Ha as (e & He & _). by exists e.
  - lia.
  - intros k e k' e' Hk Hk0 Hk'. rewrite foldl_delete in Hk0, Hk'.
    destruct (decide (k ∈ (take n arr).*1)) as [Hd|]; [|congruence].
    destruct (decide (k' ∈ (take n arr).*1)) as [|Hd']; [done|].
    apply list_elem_of_fmap in Hd as ([k1 t] & E1 & Hd). cbn in E1. subst k1.
    assert (Ht : (k, t) ∈ arr) by (rewrite <- (take_drop n arr); apply elem_of_app; by left).
    apply Hin in Ht as (e1 & He1 & Het). rewrite Hk in He1. injection He1 as <-. subst t.
    assert (Hr : (k', seen_at e') ∈ drop n arr).
    { assert (Ha : (k', seen_at e') ∈ arr) by (apply Hin; by exists e').
      rewrite <- (take_drop n arr) in Ha. apply elem_of_app in Ha as [Ha|]; [|done].
      destruct Hd'. apply list_elem_of_fmap. by exists (k', seen_at e'). }
    exact (sorted_split older n arr _ _ Hs Hd Hr).
Qed.

(** ** What is saved is what is read *)

(** Entries are under their own address, and there are no more than the cap. *)
Definition set_ok s : Prop :=
  (forall k e, s_entries s !! k = Some e -> addr_of e = k /\ k <> []) /\
  (0 < s_cap s -> Z.of_nat (size (s_entries s)) <= s_cap s).

Lemma enforceCap_ok s : (forall k e, s_entries s !! k = Some e -> addr_of e = k /\ k <> []) ->
  set_ok (enforceCapLocked order s).
Proof using order_visits.
  intros Hs. destruct (enforceCap_spec s) as (Hk & Hsz & _). split.
  - intros k e E1. destruct (Hk k) as [E2|E2]; [congruence|]. rewrite E2 in E1. by apply Hs.
  - assert (Hc : s_cap (enforceCapLocked order s) = s_cap s) by (unfold enforceCapLocked; by destruct (_ || _)).
    rewrite Hc. intros Hp. rewrite Hsz by done. lia.
Qed.

Lemma keep_entry_ok cutoff l : forall m, (forall k e, m !! k = Some e -> addr_of e = k /\ k <> []) ->
  forall k e, foldl (keep_entry cutoff) m l !! k = Some e -> addr_of e = k /\ k <> [].
Proof using.
  induction l as [|x l IH]; intros m Hm; cbn; [done|]. apply IH. intros k e. unfold keep_entry.
  case_bool_decide as Hx; cbn [orb]; [apply Hm|]. destruct (_ <? _); [apply Hm|].
  intros [[<- <-]|[_ Ek]]%lookup_insert_Some; [done|by apply Hm].
Qed.

Lemma load_entries_ok now l s : set_ok (load_entries order now l s).
Proof using order_visits.
  unfold load_entries. apply enforceCap_ok. cbn. apply keep_entry_ok. by intros k e E1.
Qed.

(** The loop over entries with distinct addresses keeps those that are young enough. *)
Lemma keep_entries cutoff l : NoDup (map addr_of l) -> forall m, (forall e, e ∈ l -> m !! addr_of e = None) ->
  forall k e, foldl (keep_entry cutoff) m l !! k = Some e <->
    m !! k = Some e \/ (e ∈ l /\ addr_of e = k /\ k <> [] /\ cutoff <= seen_at e).
Proof using.
  clear order_visits order.
  induction l as [|x l IH]; intros Hnd m Hm k e; cbn [foldl]; [set_solver|].
  cbn in Hnd. apply NoDup_cons in Hnd as [Hx Hnd].
  assert (Hx' : forall e, e ∈ l -> addr_of e <> addr_of x).
  { intros e1 He1 Ea. apply Hx. rewrite <- Ea. apply list_elem_of_In, in_map. by apply list_elem_of_In. }
  rewrite IH; [|done|].
  - unfold keep_entry. rewrite elem_of_cons. case_bool_decide as Ha; cbn [orb].
    + split; [naive_solver|]. intros [?|([->|?] & ? & ? & ?)]; [by left|congruence|right; auto].
    + destruct (Z.ltb_spec (seen_at x) cutoff).
      * split; [naive_solver|]. intros [?|([->|?] & ? & ? & ?)]; [by left|lia|right; auto].
      * rewrite lookup_insert_Some. split.
        -- intros [[[<- <-]|[? ?]]|?]; [right; auto|by left|naive_solver].
        -- intros [Hk|([->|?] & <- & ? & ?)]; [|by left; left|right; auto].
           left. right. split; [|done]. intros <-. rewrite (Hm x) in Hk by (by left). done.
  - intros e1 He1. unfold keep_entry. destruct (_ || _); [apply Hm; by right|].
    rewrite lookup_insert_ne; [apply Hm; by right|]. intros Ea. symmetry in Ea. by apply (Hx' e1).
Qed.

#[local] Instance newest_total : Total newest.
Proof. intros a b. unfold newest. lia. Qed.
#[local] Instance newest_trans : Transitive newest.
Proof. intros a b c. unfold newest. lia. Qed.

Lemma allLocked_perm s : allLocked order s ≡ₚ (map_to_list (s_entries s)).*2.
Proof using order_visits. unfold allLocked. rewrite merge_sort_Permutation. apply visited. Qed.

Lemma allLocked_sorted s : StronglySorted newest (allLocked order s).
Proof using. apply (StronglySorted_merge_sort newest); apply _. Qed.

Lemma allLocked_safe s : map_Forall (fun _ e => json_safe e = true) (s_entries s) ->
  Forall (fun e => json_safe e = true) (allLocked order s).
Proof using order_visits.
  intros Hs. rewrite (allLocked_perm s). apply Forall_fmap, Forall_forall. intros [k e] Hk.
  apply elem_of_map_to_list in Hk. by apply (Hs k e).
Qed.

(** The entries of a set that are not too old. *)
Definition young (cutoff : Z) (m : gmap bytes E) : gmap bytes E := filter (fun ke => cutoff <= seen_at ke.2) m.

Lemma reload now s : set_ok s -> load_entries order now (allLocked order s) s = with_entries (young (now - s_maxAge s) (s_entries s)) s.
Proof using order_visits.
  intros [Hk Hc]. unfold load_entries.
  assert (Haddr : map addr_of (allLocked order s) ≡ₚ (map_to_list (s_entries s)).*1).
  { rewrite (Permutation_map addr_of (allLocked_perm s)). rewrite <- list_fmap_compose.
    apply reflexive_eq. apply list_fmap_ext. intros i [k e] Hi. apply list_elem_of_lookup_2, elem_of_map_to_list in Hi.
    cbn. by apply Hk. }
  assert (Hm : foldl (keep_entry (now - s_maxAge s)) ∅ (allLocked order s) = young (now - s_maxAge s) (s_entries s)).
  { apply map_eq. intros k. apply option_eq. intros e. rewrite keep_entries; [|rewrite Haddr; apply NoDup_fst_map_to_list|done].
    unfold young. rewrite map_lookup_filter_Some, allLocked_perm, list_elem_of_fmap. cbn. split.
    - intros [?|(([k' e'] & -> & He) & <- & Hn & Hs)]; [done|]. apply elem_of_map_to_list in He. cbn in *.
      destruct (Hk _ _ He) as [-> _]. done.
    - intros [He Hs]. right. destruct (Hk _ _ He) as [Ha Hn]. split; [|done]. exists (k, e). split; [done|].
      by apply elem_of_map_to_list. }
  rewrite Hm. destruct (enforceCap_spec (with_entries (young (now - s_maxAge s) (s_entries s)) s)) as (_ & _ & Hid & _).
  apply Hid. cbn. destruct (Z.leb_spec (s_cap s) 0); [by left|right].
  assert (size (young (now - s_maxAge s) (s_entries s)) <= size (s_entries s))%nat; [|specialize (Hc ltac:(lia)); lia].
  apply map_subseteq_size. apply map_filter_subseteq.
Qed.
End SetLemmas.

(** ** Across a crash *)

(** Directories that exist are left alone. *)
Lemma MkdirAll_exists d0 q i (I : fs -> Prop) : wf d0 -> resolve d0 q = Some i -> i ∈ fs_dirs d0 ->
  triple (fun d => d = d0) (MkdirAll q) (fun _ d => d = d0) (fun d => d = d0) I.
Proof.
  intros Hwf Hq Hi. assert (Hgo : forall todo done j, resolve d0 done = Some j -> resolve_from d0 j todo = Some i ->
    triple (fun d => d = d0) (mkdirs done todo) (fun _ d => d = d0) (fun d => d = d0) I).
  { induction todo as [|n todo IH]; intros done j Hj Ht; cbn [mkdirs]; [by apply triple_ret|].
    cbn in Ht. destruct (bound d0 (j, n)) as [j'|] eqn:Hb; [|done]. cbn in Ht.
    assert (Hj' : resolve d0 (done ++ [n]) = Some j').
    { unfold resolve in *. rewrite resolve_app, Hj. cbn. by rewrite Hb. }
    assert (Hd' : j' ∈ fs_dirs d0).
    { destruct todo as [|n' todo]; cbn in Ht; [by injection Ht as ->|].
      destruct (bound d0 (j', n')) eqn:Hb'; [|done]. by eapply bound_parent. }
    eapply triple_bind with (R := fun _ d => d = d0); [|intros []; by eapply IH].
    apply triple_sys; [|done]. intros d -> HI.
    rewrite (locate_dir d0 (done ++ [n]) j n) by
      (rewrite ?Dir_snoc, ?last_snoc; first [done | by eapply bound_parent]).
    rewrite Hb, (proj2 (is_dir_true d0 j') Hd'). done. }
  by apply (Hgo q [] root).
Qed.

Lemma ReadFile_content c p di base b : resolve c (Dir p) = Some di -> last p = Some base ->
  content c (di, base) = Some b -> (ReadFile p (Mach c [] [] [])).1 = Ret b.
Proof.
  intros Hd Hl Hc. pose proof (resolve_last c p di base Hd Hl) as Hp.
  unfold content in Hc. destruct (bound c (di, base)) as [i|] eqn:Hb; [|done]. cbn in Hc.
  destruct (fs_files c !! i) as [f|] eqn:Hf; [|done]. injection Hc as <-.
  unfold ReadFile, Open, sys, mbind, M_bind. cbn. rewrite Hp. cbn. unfold deferred, read, sys. cbn. by rewrite Hf.
Qed.

Section Survive.
Context {E : Type} `{Dated E} `{LC : ListCodec E}.
Context (order : gmap bytes E -> list bytes).
Context (order_visits : forall m, order m ≡ₚ (map_to_list m).*1).
Context (marshal_quiet : forall l, quiet (marshal l)).

(** What a run that starts at [now] after the crash reads. *)
Definition reread (now : Z) (s : set E) (c : fs) : outcome (set E) :=
  (load order now (with_entries ∅ s) (Mach c [] [] [])).1.

Lemma load_content now s c di base b : resolve c (Dir (s_path s)) = Some di -> last (s_path s) = Some base ->
  content c (di, base) = Some b ->
  reread now s c = (l ← wrap_out "parse file" (unmarshal b); Ret (load_entries order now l s)).
Proof using.
  intros Hd Hl Hc. unfold reread, load. cbn [s_path with_entries].
  pose proof (ReadFile_content c _ di base b Hd Hl Hc) as Hr. destruct (ReadFile _ _) as [r m']. cbn in Hr. subst r. done.
Qed.

Lemma Save_spec s d0 di base : wf d0 -> resolve d0 (Dir (s_path s)) = Some di -> di ∈ fs_dirs d0 ->
  last (s_path s) = Some base ->
  let src b := mkSource [b] None in
  let during d := d = d0 \/ exists b, marshal (allLocked order s) = Ret b /\ under_way d0 (s_path s) di base (src b) 420 d in
  triple (fun d => d = d0) (Save order s)
    (fun _ d => exists b, marshal (allLocked order s) = Ret b /\ in_place d0 (s_path s) di base (src b) 420 d) during during.
Proof using marshal_quiet.
  intros Hwf Hd Hi Hl src during. unfold Save.
  eapply triple_bind with (R := fun _ d => d = d0).
  { apply triple_wrap. eapply triple_weaken; [by apply (MkdirAll_exists d0 _ di)|done|done|]. intros d ->. by left. }
  intros []. eapply triple_bind with (R := fun b d => marshal (allLocked order s) = Ret b /\ d = d0).
  { pose proof (marshal_quiet (allLocked order s)) as Hq.
    eapply triple_weaken; [apply (triple_lift _ (fun d => d = d0))|done| |intros d ->; by left].
    - by destruct (marshal (allLocked order s)).
    - intros b d [Hb ->]. split; [|done]. destruct (marshal (allLocked order s)); [|done..]. by injection Hb as ->. }
  intros b. apply triple_pure. intros Hb. apply triple_wrap.
  eapply triple_at; [eapply triple_weaken; [by apply (WriteFileFrom_spec d0 Hwf (s_path s) di base (src b) 420)|done| |]|..].
  - intros [] d H1. by exists b.
  - intros d H1. right. by exists b.
  - intros d ->. by apply start_under_way.
  - intros d H1. right. by exists b.
Qed.
End Survive.

(** ** Properties *)

(** The cap of a peer set keeps the newest entries: no entry changes, the
    set is cut to the cap exactly when it is larger, and an entry that goes was seen
    no later than any that stays. *)
Theorem cap_keeps_newest {E} `{Dated E} (order : gmap bytes E -> list bytes) (s : set E) :
  (forall m, order m ≡ₚ (map_to_list m).*1) ->
  let s' := enforceCapLocked order s in
  (forall k, s_entries s' !! k = None \/ s_entries s' !! k = s_entries s !! k) /\
  (0 < s_cap s -> Z.of_nat (size (s_entries s')) = Z.min (Z.of_nat (size (s_entries s))) (s_cap s)) /\
  (s_cap s <= 0 \/ Z.of_nat (size (s_entries s)) <= s_cap s -> s' = s) /\
  (forall k e k' e', s_entries s !! k = Some e -> s_entries s' !! k = None -> s_entries s' !! k' = Some e' ->
    seen_at e <= seen_at e').
Proof. intros Ho. by apply enforceCap_spec. Qed.

(** C20: A peer set whose strings are valid UTF-8 survives a crash, saved in a directory
    that exists before the save and is still found under its path after the crash (one
    that the save makes itself is not synced): if the power goes while the set is saved,
    the next run finds the file as it could have been before, or reads the whole set
    back, without the entries that are older than the limit; and after a save that
    returned nil it reads the set back.  Of encoding/json it is assumed that entries
    with valid UTF-8 and 64-bit counts read back as they were written, and that encoding
    returns. *)
Theorem set_survives_crash {E} `{HD : Dated E} `{LC : ListCodec E} `{!ListCodecLaws E} (order : gmap bytes E -> list bytes)
    (s : set E) di base now m d c :
  (forall m, order m ≡ₚ (map_to_list m).*1) -> (forall l, quiet (marshal l)) -> set_ok s ->
  map_Forall (fun _ e => json_safe e = true) (s_entries s) ->
  wf (m_disk m) -> resolve (m_disk m) (Dir (s_path s)) = Some di -> di ∈ fs_dirs (m_disk m) ->
  last (s_path s) = Some base ->
  let '(r, m') := Save order s m in
  during m m' d -> crash d c -> resolve c (Dir (s_path s)) = Some di ->
  let back := Ret (with_entries (young (now - s_maxAge s) (s_entries s)) s) in
  (reread order now s c = back \/ left_at (m_disk m) (di, base) (content c (di, base))) /\
  (r = Ret tt -> d = m_disk m' -> reread order now s c = back).
Proof.
  intros Ho Hq Hok Hjs Hwf Hd Hi Hl. pose proof (Save_spec order Hq s (m_disk m) di base Hwf Hd Hi Hl) as H1. cbn zeta in H1.
  pose proof (triple_during _ _ _ _ _ m d H1 eq_refl (or_introl eq_refl)) as Hdur.
  destruct (H1 m eq_refl (or_introl eq_refl)) as [Hr _]. destruct (Save order s m) as [r m']. cbn [fst snd] in *.
  intros Hdd Hc Hres. set (back := Ret (with_entries _ s)).
  assert (Hback : forall b, marshal (allLocked order s) = Ret b -> content c (di, base) = Some b -> reread order now s c = back).
  { intros b Hb Hcb. rewrite (load_content order now s c di base b Hres Hl Hcb), (unmarshal_marshal (allLocked order s) b); [|by apply allLocked_safe|done].
    cbn. by rewrite reload. }
  split.
  - destruct (Hdur Hdd) as [->|(b & Hb & Hu)].
    + right. by exists c.
    + destruct (under_way_left _ _ _ _ _ _ _ _ (di, base) Hwf Hu Hc (or_intror eq_refl)) as [?|(_ & _ & Hcb)]; [by right|left].
      eapply Hback; [done|]. cbn in Hcb. by rewrite app_nil_r in Hcb.
  - intros -> ->. destruct Hr as (b & Hb & _ & i & _ & Hf & Hh). eapply Hback; [done|].
    rewrite (crash_content _ _ _ _ _ Hc Hh Hf); [|done]. cbn. by rewrite app_nil_r.
Qed.

(** The operations keep entries under their address and the cap; so do the sets
    that are loaded. *)
Section Operations.
Context `{LB : ListCodec Banlist.Entry} `{LS : ListCodec Served.Entry}.
Context (ob : gmap bytes Banlist.Entry -> list bytes) (os : gmap bytes Served.Entry -> list bytes).
Context (ob_visits : forall m, ob m ≡ₚ (map_to_list m).*1) (os_visits : forall m, os m ≡ₚ (map_to_list m).*1).

Lemma insert_ok {E} `{Dated E} (s : set E) k e : set_ok s -> addr_of e = k -> k <> [] ->
  forall k' e', <[k := e]> (s_entries s) !! k' = Some e' -> addr_of e' = k' /\ k' <> [].
Proof using. intros [Hs _] He Hk k' e' [[<- <-]|[_ E1]]%lookup_insert_Some; [done|by apply Hs]. Qed.

Lemma Add_ok now addr reason s s' : set_ok s -> Banlist.Add ob now addr reason (Some s) = Some s' -> set_ok s'.
Proof using ob_visits.
  intros Hs E1. unfold Banlist.Add in E1. case_bool_decide as Ha; [by injection E1 as <-|]. injection E1 as <-.
  apply enforceCap_ok; [done|]. cbn [s_entries with_entries]. apply insert_ok; [done| |done]. cbn.
  destruct (s_entries s !! addr) eqn:Ek; cbn; [|done]. exact (proj1 (proj1 Hs _ _ Ek)).
Qed.

Lemma Remove_ok addr s s' : set_ok s -> Banlist.Remove addr (Some s) = Some s' -> set_ok s'.
Proof using.
  intros [Hs Hc] E1. unfold Banlist.Remove in E1. case_bool_decide as Ha; [by injection E1 as <-|]. injection E1 as <-.
  split; cbn.
  - intros k e [_ Ek]%lookup_delete_Some. by apply Hs.
  - intros Hp. specialize (Hc Hp). assert (size (delete addr (s_entries s)) <= size (s_entries s))%nat; [|lia].
    apply map_subseteq_size, delete_subseteq.
Qed.

Lemma Record_ok now id addr s s' : set_ok s -> Served.Record_ os now id addr (Some s) = Some s' -> set_ok s'.
Proof using os_visits.
  intros Hs E1. unfold Served.Record_ in E1. case_bool_decide as Ha; [by injection E1 as <-|]. injection E1 as <-.
  apply enforceCap_ok; [done|]. cbn [s_entries with_entries]. apply insert_ok; [done| |done]. cbn.
  destruct (s_entries s !! addr) eqn:Ek; cbn; [|done]. exact (proj1 (proj1 Hs _ _ Ek)).
Qed.

(** Below the cap an added address is in the set, with its failures counted. *)
Lemma Add_below_cap now addr reason s : addr <> [] -> s_cap s <= 0 \/ Z.of_nat (size (s_entries s)) < s_cap s ->
  Banlist.Has addr (Banlist.Add ob now addr reason (Some s)) = true.
Proof using ob_visits.
  intros Ha Hc. unfold Banlist.Add, Banlist.Has. rewrite bool_decide_false by done.
  match goal with |- context [enforceCapLocked ob ?x] => destruct (enforceCap_spec ob ob_visits x) as (_ & _ & Hid & _) end.
  rewrite Hid; cbn [s_entries with_entries s_cap].
  - rewrite lookup_insert_eq. by rewrite bool_decide_true by (by eexists).
  - destruct Hc as [?|Hc]; [by left|right]. rewrite map_size_insert. destruct (s_entries s !! addr); unfold id; lia.
Qed.
End Operations.

(** ** Bans and the address book *)

Section Bans.
Context {B : Type} `{AddrBook B} `{ListCodec Banlist.Entry} (parse : bytes -> option netAddr).
Implicit Types bans : option (set Banlist.Entry).

Lemma Has_Remove a b bans : Banlist.Has a (Banlist.Remove b bans) = Banlist.Has a bans && negb (bool_decide (a = b)).
Proof using.
  destruct bans as [s|]; [|done]. unfold Banlist.Has, Banlist.Remove. destruct (decide (b = [])) as [->|Hb].
  - rewrite (bool_decide_true ([] = [])) by done. destruct (decide (a = [])) as [->|]; [done|].
    by rewrite !(bool_decide_false (a = [])), andb_true_r by done.
  - rewrite (bool_decide_false (b = [])) by done. cbn. destruct (decide (a = b)) as [->|Hab].
    + rewrite lookup_delete_eq, (bool_decide_true (b = b)), andb_false_r by done.
      change (bool_decide (is_Some (@None Banlist.Entry))) with false. by rewrite andb_false_r.
    + rewrite lookup_delete_ne, (bool_decide_false (a = b)), andb_true_r by done. done.
Qed.

Definition named (addrs : list PeerAddr) (a : bytes) : bool :=
  existsb (fun p => match pa_Source p with SourceBootstrap => bool_decide (pa_Addr p = a) | SourceAddrbook => false end) addrs.

Lemma populate_bans_loop addrs : forall s a,
  Banlist.Has a (p_bans (foldl (populate_one parse) s addrs)) = Banlist.Has a (p_bans s) && negb (named addrs a).
Proof using.
  induction addrs as [|p addrs IH]; intros s a; cbn [foldl named existsb]; [by rewrite andb_true_r|].
  rewrite IH. assert (Hofb : forall x s, p_bans (offer_book parse x s) = p_bans s).
  { intros x s0. unfold offer_book. destruct (parse x); [|done]. by destruct (AddAddress _ _ _) as [[|] ?]. }
  unfold populate_one. destruct (pa_Source p).
  - rewrite Hofb. cbn [p_bans]. rewrite Has_Remove, <- andb_assoc. f_equal. rewrite negb_orb. f_equal.
    f_equal. by apply bool_decide_ext.
  - destruct (Banlist.Has (pa_Addr p) (p_bans s)); [done|]. by rewrite Hofb.
Qed.

(** An address the ban list has when the address book has been filled was
    never offered to the book: what a fill adds comes from peers that the user named,
    whose bans it lifts, or that are not banned; and gossip adds no banned address.
    [P] is any property of the book that such additions keep. *)
Theorem banned_stay_out (P : B -> Prop) book bans addrs has_kicker src gossip book2 :
  (forall b na src, Banlist.Has (na_String na) (p_bans (Populate parse book bans addrs)) = false ->
    P b -> P (AddAddress b na src).2) ->
  (forall a na, parse a = Some na -> na_String na = a) ->
  P book ->
  P (p_book (Populate parse book bans addrs)) /\
  (forall a, Banlist.Has a (p_bans (Populate parse book bans addrs)) = Banlist.Has a bans && negb (named addrs a)) /\
  (P book2 -> P (handleAddrs has_kicker (p_bans (Populate parse book bans addrs)) src gossip book2).1).
Proof using.
  intros HP Hparse Hb. set (final := p_bans (Populate parse book bans addrs)) in *.
  split; [|split].
  - assert (Hloop : forall l s, P (p_book s) -> p_bans (foldl (populate_one parse) s l) = final -> P (p_book (foldl (populate_one parse) s l))).
    { induction l as [|p l IH]; intros s Hs Hf; cbn [foldl] in *; [done|]. apply IH; [|done].
      assert (Hoff : forall s0, P (p_book s0) -> Banlist.Has (pa_Addr p) final = false -> P (p_book (offer_book parse (pa_Addr p) s0))).
      { intros s0 Hs0 Hn. unfold offer_book. destruct (parse (pa_Addr p)) as [na|] eqn:Hp; [|done].
        specialize (HP (p_book s0) na na). rewrite (Hparse _ _ Hp) in HP. specialize (HP Hn Hs0).
        by destruct (AddAddress (p_book s0) na na) as [[|] ?]. }
      pose proof (populate_bans_loop l (populate_one parse s p) (pa_Addr p)) as Hh. rewrite Hf in Hh.
      unfold populate_one in *. destruct (pa_Source p).
      - apply Hoff; [done|]. rewrite Hh. replace (p_bans _) with (Banlist.Remove (pa_Addr p) (p_bans s)).
        + rewrite Has_Remove, bool_decide_true by done. by rewrite andb_false_r.
        + unfold offer_book. destruct (parse _); [|done]. by destruct (AddAddress _ _ _) as [[|] ?].
      - destruct (Banlist.Has (pa_Addr p) (p_bans s)) eqn:Hban; [done|]. apply Hoff; [done|]. rewrite Hh.
        replace (p_bans _) with (p_bans s); [by rewrite Hban|].
        unfold offer_book. destruct (parse _); [|done]. by destruct (AddAddress _ _ _) as [[|] ?]. }
    by apply Hloop.
  - intros a. unfold final, Populate. by rewrite populate_bans_loop.
  - intros H2. unfold handleAddrs. destruct gossip as [l| | |]; [|done..].
    assert (Hloop : forall l s, P s.1 -> P (foldl (gossip_one final src) s l).1).
    { clear l. induction l as [|a l IH]; intros s Hs; cbn [foldl]; [done|]. apply IH. unfold gossip_one.
      destruct a as [a|]; [|done]. destruct (na_HasID a); [|done]. cbn [negb].
      destruct (Banlist.Has (na_String a) final) eqn:Hban; [done|].
      specialize (HP s.1 a src Hban Hs). by destruct (AddAddress s.1 a src) as [[|] ?]. }
    specialize (Hloop l (book2, (0, 0)) H2). by destruct (foldl _ _ _) as [b [added sk]].
Qed.
End Bans.

(** ** Lists of peers *)

Lemma merge_list_spec l : forall seen out seen', merge_list seen l = (out, seen') ->
  seen' = list_to_set (omap peer_id out) ∪ seen /\ NoDup (omap peer_id out) /\
  (forall id, id ∈ omap peer_id out -> id ∉ seen) /\ out `sublist_of` l /\
  (forall p id, p ∈ l -> peer_id p = Some id -> id ∈ seen').
Proof.
  induction l as [|p l IH]; intros seen out seen' E1; cbn [merge_list] in E1.
  { injection E1 as <- <-. cbn. split; [set_solver|]. split; [constructor|]. split; [set_solver|]. split; [constructor|set_solver]. }
  destruct (peer_id p) as [id|] eqn:Hp; [case_bool_decide as Hs|].
  - destruct (IH _ _ _ E1) as (Hse & Hnd & Hns & Hsub & Hall). split; [done|]. split; [done|]. split; [done|].
    split; [by constructor|]. intros q id' [->|Hq]%elem_of_cons Hid; [|by eapply Hall].
    rewrite Hp in Hid. injection Hid as <-. rewrite Hse. set_solver.
  - destruct (merge_list _ l) as [out1 seen1] eqn:E2. injection E1 as <- <-.
    destruct (IH _ _ _ E2) as (Hse & Hnd & Hns & Hsub & Hall). cbn [omap list_omap]. rewrite Hp.
    split; [rewrite Hse; cbn [list_to_set]; set_solver|]. split; [constructor; [|done]; intros C; apply Hns in C; set_solver|].
    split; [intros id' [->|Hi]%elem_of_cons; [done|]; apply Hns in Hi; set_solver|]. split; [by constructor|].
    intros q id' [->|Hq]%elem_of_cons Hid; [|by eapply Hall].
    rewrite Hp in Hid. injection Hid as <-. rewrite Hse. set_solver.
  - destruct (IH _ _ _ E1) as (Hse & Hnd & Hns & Hsub & Hall). split; [done|]. split; [done|]. split; [done|].
    split; [by constructor|]. intros q id' [->|Hq]%elem_of_cons Hid; [congruence|by eapply Hall].
Qed.

(** Every peer ID of the lists is there once, in the order of the lists. *)
Lemma mergePeers_spec ls :
  NoDup (omap peer_id (mergePeers ls)) /\ mergePeers ls `sublist_of` concat ls /\
  (forall p id, p ∈ concat ls -> peer_id p = Some id -> id ∈ omap peer_id (mergePeers ls)).
Proof.
  assert (Hgo : forall ls seen, NoDup (omap peer_id (merge_lists seen ls)) /\
    (forall id, id ∈ omap peer_id (merge_lists seen ls) -> id ∉ seen) /\
    merge_lists seen ls `sublist_of` concat ls /\
    (forall p id, p ∈ concat ls -> peer_id p = Some id -> id ∈ seen \/ id ∈ omap peer_id (merge_lists seen ls))).
  { clear ls. induction ls as [|l ls IH]; intros seen; cbn [merge_lists concat].
    { split; [constructor|]. split; [set_solver|]. split; [constructor|set_solver]. }
    destruct (merge_list seen l) as [out seen1] eqn:E1. apply merge_list_spec in E1 as (Hse & Hnd & Hns & Hsub & Hall).
    destruct (IH seen1) as (Hnd' & Hns' & Hsub' & Hall'). rewrite omap_app. split; [|split; [|split]].
    - apply NoDup_app. split; [done|]. split; [|done]. intros id Hi Hi'. apply Hns' in Hi'. rewrite Hse in Hi'. set_solver.
    - intros id [Hi|Hi]%elem_of_app; [by apply Hns|]. apply Hns' in Hi. rewrite Hse in Hi. set_solver.
    - by apply sublist_app.
    - intros p id [Hi|Hi]%elem_of_app Hid.
      + specialize (Hall _ _ Hi Hid). rewrite Hse in Hall. set_solver.
      + destruct (Hall' _ _ Hi Hid) as [Hx|Hx]; [rewrite Hse in Hx|]; set_solver. }
  destruct (Hgo ls ∅) as (? & _ & ? & Hall). split; [done|]. split; [done|]. intros p id Hp Hid.
  destruct (Hall _ _ Hp Hid); set_solver.
Qed.

(** ** Concrete sets *)

(** A codec: the bits of the number that stdpp encodes a list by. *)
#[global] Instance ban_entry_eq_dec : EqDecision Banlist.Entry.
Proof. solve_decision. Defined.

#[global] Program Instance ban_entry_countable : Countable Banlist.Entry :=
  inj_countable' (fun e => (Banlist.Addr e, Banlist.FirstSeenAt e, Banlist.LastSeenAt e, Banlist.Reason e, Banlist.FailCount e))
    (fun '(a, f, l, r, n) => Banlist.mkEntry a f l r n) _.
Next Obligation. by intros []. Qed.

Fixpoint pos_bits (p : positive) : bytes :=
  match p with
  | xH => []
  | xO p => byte.of_Z 0 :: pos_bits p
  | xI p => byte.of_Z 1 :: pos_bits p
  end.

Fixpoint bits_pos (b : bytes) : positive :=
  match b with
  | [] => xH
  | c :: b => if byte.unsigned c =? 0 then xO (bits_pos b) else xI (bits_pos b)
  end.

Lemma bits_pos_bits p : bits_pos (pos_bits p) = p.
Proof. induction p as [p IH|p IH|]; cbn [pos_bits bits_pos]; [by rewrite IH|by rewrite IH|done]. Qed.

Definition bit_codec : ListCodec Banlist.Entry := {|
  marshal l := Ret (pos_bits (encode l));
  unmarshal b := match decode (bits_pos b) with Some l => Ret l | None => Err (Errorf "parse") end
|}.

Lemma bit_codec_laws : @ListCodecLaws _ _ bit_codec.
Proof. constructor. intros l b _ [= <-]. cbn. by rewrite bits_pos_bits, decode_encode. Qed.

Definition key_order {E} (m : gmap bytes E) : list bytes := (map_to_list m).*1.

Definition sample_bans : set Banlist.Entry :=
  mkSet [str "data"; str "f"] 2 100 {[str "a@1:1" := Banlist.mkEntry (str "a@1:1") 5 7 (str "x") 1]}.

Lemma set_survives_crash_witness :
  @reread _ _ bit_codec key_order 50 sample_bans
    (crash_pick keep_all (m_disk (@Save _ _ bit_codec key_order sample_bans (sample_machine [])).2)) = Ret sample_bans.
Proof.
  pose proof (fun d c => @set_survives_crash _ _ bit_codec bit_codec_laws key_order sample_bans 1 (str "f") 50 (sample_machine []) d c) as H.
  assert (Hr : (@Save _ _ bit_codec key_order sample_bans (sample_machine [])).1 = Ret tt) by (vm_compute; reflexivity).
  assert (Hwf : wfb (m_disk (@Save _ _ bit_codec key_order sample_bans (sample_machine [])).2) = true) by (vm_compute; reflexivity).
  assert (Hres : resolve (crash_pick keep_all (m_disk (@Save _ _ bit_codec key_order sample_bans (sample_machine [])).2)) [str "data"] = Some 1)
    by (vm_compute; reflexivity).
  destruct (@Save _ _ bit_codec key_order sample_bans (sample_machine [])) as [r m']. cbn [fst snd] in *.
  apply (H (m_disk m')); [done|done| | | |done| |done|by left|by apply keep_all_ok, wfb_wf|done|done|done].
  - split; [|vm_compute; discriminate]. cbn [s_entries sample_bans].
    intros k e [<- <-]%lookup_singleton_Some. split; [reflexivity|discriminate].
  - apply map_Forall_singleton. vm_compute. reflexivity.
  - apply wfb_wf. vm_compute. reflexivity.
  - cbn. set_solver.
Defined.

(** Two entries over a cap of one: the older goes. *)
Example cap_runs :
  let e a t := Banlist.mkEntry a 0 t [] 1 in
  let s := mkSet [] 1 100 (<[str "b" := e (str "b") 3]> {[str "a" := e (str "a") 9]}) in
  (map_to_list (s_entries (enforceCapLocked key_order s))).*1 = [str "a"].
Proof. vm_compute. reflexivity. Qed.

Definition list_book : AddrBook (list netAddr) := {| AddAddress b na src := (None, na :: b) |}.

Definition parse_any (a : bytes) : option netAddr := Some (mkNA true a).

Lemma banned_stay_out_witness :
  let r := @Populate _ list_book parse_any [] (Some sample_bans) [mkPA (str "a@1:1") SourceAddrbook; mkPA (str "b@1:1") SourceBootstrap] in
  Forall (fun na => na_String na <> str "a@1:1") (p_book r) /\ p_book r = [mkNA true (str "b@1:1")].
Proof.
  intros r. split; [|vm_compute; reflexivity].
  refine (proj1 (@banned_stay_out _ list_book parse_any (Forall (fun na => na_String na <> str "a@1:1")) [] (Some sample_bans)
    [mkPA (str "a@1:1") SourceAddrbook; mkPA (str "b@1:1") SourceBootstrap] true (mkNA true []) (Ret []) [] _ _ _)).
  - intros b na src Hn Hb. cbn. constructor; [|done]. intros E. rewrite E in Hn. vm_compute in Hn. discriminate Hn.
  - intros a na [= <-]. done.
  - constructor.
Defined.

(** In the curated mode the dial pool is meant to be the bootstrap peers; it has the
    peers of served.json too.  And an address of addrbook.json that the ban list has
    is kept out of the address book but not out of the pool. *)
Theorem pool_beyond_bootstrap :
  let served := [Served.mkEntry (str "s") (str "s@9:9") 0 0 1] in
  buildPeerAddrs true [] [str "b@1:1"] = Ret [mkPA (str "b@1:1") SourceBootstrap] /\
  mkPA (str "s@9:9") SourceBootstrap ∈ session_pool served [mkPA (str "b@1:1") SourceBootstrap] /\
  exists l, buildPeerAddrs false [str "a@1:1"] [] = Ret l /\ Banlist.Has (str "a@1:1") (Some sample_bans) = true /\
    p_book (@Populate _ list_book parse_any [] (Some sample_bans) l) = [] /\
    mkPA (str "a@1:1") SourceAddrbook ∈ session_pool [] l.
Proof.
  split; [vm_compute; reflexivity|]. split; [by left|].
  exists [mkPA (str "a@1:1") SourceAddrbook]. repeat split; try by vm_compute. by left.
Qed.
