(* ===== verification/Home.v ===== *)
(** * The chain home (internal/cli/bootstrap)

    What [malcom bootstrap] does to the files of a chain home after the chain
    binary has made it: it sets keys of config.toml and app.toml in place
    (tomlpatch.go, run.go), leaves a marker with the height (markerfile.go) and
    heals a home whose first start failed (heal.go).  The main theorems: to a TOML
    reader ([Toml]) the patches of a plain file set the keys they are told and none
    other, and a crash leaves the file as it was or with some of them; and the marker
    that a healing reads is the height that was written. *)

From S2P Require Import Prelude Durable PeerSets Text Toml.
From S2P Require Scheduler Streams.

Local Open Scope Z_scope.

(** ** tomlpatch.go *)

Definition hash_sign : Init.Byte.byte := byte.of_Z 35.
Definition open_bracket : bytes := str "[".
Definition close_bracket : bytes := str "]".
Definition equals : bytes := str "=".

Definition ends_with (p s : bytes) : bool := starts (rev p) (rev s).

(** A line whose first character is an opening bracket and whose last one a closing
    bracket. *)
Definition is_header (trimmed : bytes) : bool :=
  starts open_bracket trimmed && ends_with close_bracket trimmed && negb (starts (str "[[") trimmed).

(** [strings.TrimSpace(trimmed[1 : len(trimmed)-1])]; "[" and "]" are two bytes, since
    the same byte is not both. *)
Definition header_name (trimmed : bytes) : bytes := TrimSpace (removelast (drop 1 trimmed)).

Definition lineDeclaresKey (trimmed key : bytes) : bool :=
  match trimmed with
  | [] => false
  | c :: _ =>
      if bool_decide (c = hash_sign) then false
      else
        let rest := if starts key trimmed then drop (length key) trimmed else trimmed in
        if bool_decide (rest = trimmed) then false
        else starts equals (TrimLeft blanks rest)
  end.

(** [line[:len(line)-len(strings.TrimLeft(line, " \t"))]]. *)
Definition indent_of (line : bytes) : bytes := take (length line - length (TrimLeft blanks line)) line.

(** The line that is written for the key. *)
Definition new_line (key rawValue line : bytes) : bytes := indent_of line ++ key ++ str " = " ++ rawValue.

(** The loop over the tokens: what is written, and whether the key was found. *)
Fixpoint patch_loop (section key rawValue : bytes) (currentSection : bytes) (matched : bool) (out : bytes)
    (lines : list bytes) : bytes * bool :=
  match lines with
  | [] => (out, matched)
  | line :: lines =>
      let trimmed := TrimSpace line in
      if is_header trimmed then
        patch_loop section key rawValue (header_name trimmed) matched (out ++ line ++ [nl]) lines
      else if negb matched && bool_decide (currentSection = section) && lineDeclaresKey trimmed key then
        patch_loop section key rawValue currentSection true (out ++ new_line key rawValue line ++ [nl]) lines
      else
        patch_loop section key rawValue currentSection matched (out ++ line ++ [nl]) lines
  end.

(** [scanner.Buffer(make([]byte, 64<<10), 1<<20)]. *)
Definition scan_limit : Z := 2 ^ 20.

(** The trailing newline goes when the text had none. *)
Definition keep_ending (body out : bytes) : bytes :=
  if negb (bool_decide (body = [])) && negb (bool_decide (last body = Some nl)) && bool_decide (last out = Some nl)
  then removelast out else out.

Definition patch_body (section key rawValue body : bytes) : outcome bytes :=
  lines ← wrap_out "scan" (ScanLines scan_limit body);
  let '(out, matched) := patch_loop section key rawValue [] false [] lines in
  if matched then Ret (keep_ending body out) else Err (Errorf "key not found in section").

Definition patchTOMLKey (p : path) (section key rawValue : bytes) : M mach unit :=
  body ← wrap_err "read" (ReadFile p);
  final ← lift (patch_body section key rawValue body);
  wrap_err "write" (WriteFile p final 420).

Definition setTOMLString (wide_print : Z -> bool) (p : path) (section key value : bytes) : M mach unit :=
  patchTOMLKey p section key (Quote wide_print value).
Definition setTOMLInt64 (p : path) (section key : bytes) (n : Z) : M mach unit :=
  patchTOMLKey p section key (decimal n).

(** ** run.go: the values the chain binary will read *)

(** [strings.Join(l, ",")]. *)
Fixpoint commas (l : list bytes) : bytes :=
  match l with
  | [] => []
  | [a] => a
  | a :: l => a ++ str "," ++ commas l
  end.
Definition joinPersistentPeers (peers : list bytes) : bytes := commas peers.

(** What [run] has resolved when it comes to the files: the gas price of the flag or
    of the registry, the RPC servers, the trusted header, and the peers to forward. *)
Record settings := mkSettings {
  dbBackend : bytes;
  minGasPrices : bytes;
  rpcs : list bytes;
  trustHeight : Z;
  trustHash : bytes;
  trustPeriod : bytes;
  forwardPeers : bool;
  servedPeers : list bytes;
  bootstrapPeers : list bytes
}.

Definition app_toml : bytes := str "app.toml".
Definition config_toml : bytes := str "config.toml".

(** Steps 4 and 5 of [run]. *)
Definition configure (wide_print : Z -> bool) (configDir : path) (s : settings) : M mach unit :=
  let appTOML := configDir ++ [app_toml] in
  let cfgTOML := configDir ++ [config_toml] in
  setTOMLString wide_print appTOML [] (str "app-db-backend") (dbBackend s);;
  match minGasPrices s with
  | [] => mret tt
  | _ => setTOMLString wide_print appTOML [] (str "minimum-gas-prices") (minGasPrices s)
  end;;
  setTOMLString wide_print cfgTOML (str "statesync") (str "rpc_servers") (commas (rpcs s));;
  setTOMLInt64 cfgTOML (str "statesync") (str "trust_height") (trustHeight s);;
  setTOMLString wide_print cfgTOML (str "statesync") (str "trust_hash") (trustHash s);;
  setTOMLString wide_print cfgTOML (str "statesync") (str "trust_period") (trustPeriod s);;
  if forwardPeers s then
    match mergePeers [servedPeers s; bootstrapPeers s] with
    | [] => mret tt
    | merged => setTOMLString wide_print cfgTOML (str "p2p") (str "persistent_peers") (joinPersistentPeers merged)
    end
  else mret tt.

(** ** markerfile.go *)

Definition BootstrapHeightMarker : bytes := str ".malcom-bootstrap-height".
Definition ErrNoMarker : goerr := Errorf "no .malcom-bootstrap-height marker in home".

Definition WriteHeightMarker (home : path) (height : Z) : M mach unit :=
  wrap_err "write marker" (WriteFile (home ++ [BootstrapHeightMarker]) (decimal height ++ [nl]) 420).

(** The text of a marker; [strconv.ParseInt(s, 10, 64)] is [Streams.Atoi]. *)
Definition parse_marker (raw : bytes) : outcome Z :=
  let s := TrimSpace raw in
  if bool_decide (s = []) then Err (Errorf "marker is empty") else
  match Streams.Atoi s with
  | None => Err (Wrapf "parse marker" (Errorf "invalid syntax"))
  | Some h => if h <=? 0 then Err (Errorf "marker holds non-positive height") else Ret h
  end.

Definition ReadHeightMarker (home : path) : M mach Z := fun m =>
  match ReadFile (home ++ [BootstrapHeightMarker]) m with
  | (Ret raw, m') => (parse_marker raw, m')
  | (Err e, m') => (Err (if bool_decide (e = ENOENT) then Wrapf "marker" ErrNoMarker else Wrapf "read marker" e), m')
  | (Panic w, m') => (Panic w, m')
  | (NoFuel, m') => (NoFuel, m')
  end.

(** ** heal.go *)

Definition resolveHealHeight (home : path) (flagHeight : Z) : M mach Z := fun m =>
  match ReadHeightMarker home m with
  | (Ret markerHeight, m') =>
      (if negb (flagHeight =? 0) && negb (flagHeight =? markerHeight)
       then Err (Errorf "marker and --height differ") else Ret markerHeight, m')
  | (Err e, m') =>
      (if negb (flagHeight =? 0) then Ret flagHeight
       else Err (Wrapf "no bootstrap-height marker and no --height flag" e), m')
  | (Panic w, m') => (Panic w, m')
  | (NoFuel, m') => (NoFuel, m')
  end.

Definition blockstoreLooksPopulated (dataDir : path) : M mach bool :=
  names ← attempt (readDirNames (dataDir ++ [str "blockstore.db"]));
  mret match names with
       | None => false
       | Some names => existsb (ends_with (str ".sst")) names
       end.

(** [os.RemoveAll]: the file or the empty directory, or else what is in it, and then
    the directory.  What is not there is removed, an entry that stays makes the
    directory stay.  [fuel] bounds the depth. *)
Definition gone (c : M mach unit) : M mach unit := fun m =>
  match c m with
  | (Err e, m') => if bool_decide (e = ENOENT) then (Ret tt, m') else (Err e, m')
  | r => r
  end.

Fixpoint RemoveAll (fuel : nat) (p : path) : M mach unit := fun m =>
  match gone (Remove p) m with
  | (Err _, m') =>
      match fuel with
      | O => (NoFuel, m')
      | S fuel =>
          (names ← readDirNames p;
           fold_m (fun _ n => attempt (RemoveAll fuel (p ++ [n]));; mret tt) tt names;;
           gone (Remove p)) m'
      end
  | r => r
  end.

(** What a run of heal is given: the flags, whether the chain binary and its
    subcommand are found, and what the subprocess does to the disk. *)
Record heal_env := mkHeal {
  h_home : path;
  h_heightFlag : Z;
  h_yes : bool;
  h_force : bool;
  h_probe : outcome unit;
  h_daemon : fs -> outcome unit * fs;
  h_depth : nat
}.

(** The exit codes. *)
Definition usage : goerr := Errorf "exit 2".
Definition failure : goerr := Errorf "exit 1".
Definition or_exit {A} (code : goerr) (c : M mach A) : M mach A := fun m =>
  match c m with (Err _, m') => (Err code, m') | r => r end.

Definition dataDir (e : heal_env) : path := h_home e ++ [str "data"].
Definition victims (e : heal_env) : list path :=
  map (fun n => dataDir e ++ [str n]) ["blockstore.db"; "state.db"; "evidence.db"]%string.

(** What the guards of [runHeal] let through: the height, if it is to act. *)
Definition heal_plan (e : heal_env) : M mach (option Z) :=
  match h_home e with
  | [] => fail usage
  | _ =>
      or_exit usage (Lstat (h_home e ++ [str "config"; str "genesis.json"]));;
      height ← or_exit usage (resolveHealHeight (h_home e) (h_heightFlag e));
      or_exit failure (lift (h_probe e));;
      populated ← blockstoreLooksPopulated (dataDir e);
      if populated && negb (h_force e) then fail failure
      else mret (if h_yes e then Some height else None)
  end.

Definition runHeal (e : heal_env) : M mach unit :=
  plan ← heal_plan e;
  match plan with
  | None => mret tt
  | Some height =>
      fold_m (fun _ p => or_exit failure (RemoveAll (h_depth e) p)) tt (victims e);;
      or_exit failure (sys (h_daemon e));;
      ignore (WriteHeightMarker (h_home e) height)
  end.

(** ** Keys and values *)

Definition key_ok (key : bytes) : bool := negb (bool_decide (key = [])) && forallb key_char key.

(** What is written after the equals sign. *)
Definition raw_ok (raw : bytes) : bool :=
  solid raw && negb (bool_decide (nl ∈ raw)) && bool_decide (lex (Code 0) raw = Some (raw, O)).

Lemma raw_ok_parts raw : raw_ok raw = true -> solid raw = true /\ nl ∉ raw /\ lex (Code 0) raw = Some (raw, O).
Proof.
  unfold raw_ok. intros [[H1 H2%negb_true_iff%bool_decide_eq_false]%andb_prop H3%bool_decide_eq_true]%andb_prop. done.
Qed.

Lemma key_char_range c : key_char c = true -> graph c = true /\ c <> hash_sign /\ [c] <> open_bracket /\
  blank c = false /\ [c] <> equals.
Proof.
  intros H. destruct c; vm_compute in H; try discriminate H; clear H; vm_compute; repeat split; discriminate.
Qed.

Lemma key_ok_cons key : key_ok key = true -> exists c k, key = c :: k /\ key_char c = true /\ forallb key_char k = true.
Proof.
  unfold key_ok. intros [H Hk]%andb_prop. destruct key as [|c k]; [done|]. cbn in Hk. apply andb_prop in Hk as [? ?]. by exists c, k.
Qed.

Lemma declares_word t key : key_ok key = true -> lineDeclaresKey t key = true -> word t = key.
Proof.
  intros (c & k & E & Hc & Hk)%key_ok_cons Hd. unfold lineDeclaresKey in Hd. destruct t as [|x t]; [done|].
  case_bool_decide; [done|]. destruct (starts key (x :: t)) eqn:Es; [|by rewrite bool_decide_eq_true_2 in Hd].
  case_bool_decide; [done|]. apply starts_spec in Es. set (r := drop (length key) (x :: t)) in *. rewrite Es.
  apply word_app; [subst key; cbn; by rewrite Hc|]. destruct (TrimLeft_cutset r) as (b & Hb & Er & _).
  assert (Hq : head (TrimLeft blanks r) = Some (byte.of_Z 61)).
  { unfold starts in Hd. apply bool_decide_eq_true in Hd. change (length equals) with 1%nat in Hd.
    destruct (TrimLeft blanks r); [done|]. cbn in Hd. by injection Hd as ->. }
  rewrite Er. destruct b as [|y b]; cbn [app head].
  - by rewrite Hq.
  - cbn in Hb. apply andb_prop in Hb as [Hy _]. destruct (key_char y) eqn:Ek; [|done].
    apply key_char_range in Ek as (_ & _ & _ & Hn & _). congruence.
Qed.

(** ** The line that is written *)

Lemma indent_spec line : forallb blank (indent_of line) = true.
Proof.
  unfold indent_of. destruct (TrimLeft_cutset line) as (b & Hb & E & _). rewrite E at 3.
  replace (length line - _)%nat with (length b); [by rewrite take_app_length|].
  apply (f_equal length) in E. rewrite length_app in E. lia.
Qed.

Lemma solid_snoc a s : solid (a :: s) = graph a && match last (a :: s) with Some b => graph b | None => false end.
Proof. unfold solid. cbn [head]. destruct (last (a :: s)); [done|]. by rewrite andb_false_r. Qed.

Lemma new_line_trim key raw line : key_ok key = true -> raw_ok raw = true ->
  TrimSpace (new_line key raw line) = key ++ str " = " ++ raw.
Proof.
  intros (c & k & -> & Hc & _)%key_ok_cons (Hr & _)%raw_ok_parts. unfold new_line.
  rewrite TrimSpace_blanks by apply indent_spec. apply TrimSpace_solid. cbn [app]. rewrite solid_snoc.
  apply key_char_range in Hc as (-> & _). cbn [andb].
  change (c :: k ++ str " = " ++ raw) with ((c :: k) ++ str " = " ++ raw). rewrite app_assoc, last_app.
  unfold solid in Hr. destruct raw as [|x raw]; [done|]. cbn [head] in Hr. destruct (last (x :: raw)); [|done].
  by apply andb_prop in Hr as [_ ->].
Qed.

Lemma key_ok_chars key : key_ok key = true -> forallb key_char key = true.
Proof. by intros [_ ?]%andb_prop. Qed.

(** To a TOML reader it is a pair of the key and the value. *)
Lemma new_line_pair key raw : key_ok key = true -> raw_ok raw = true ->
  stmt_of 0 (key ++ str " = " ++ raw) = Some (Pair key raw, O).
Proof.
  intros Hk (Hr & _ & Hlex)%raw_ok_parts. pose proof Hk as (c & k & E & Hc & _)%key_ok_cons.
  apply key_char_range in Hc as (_ & Hh & Hb & _).
  assert (Hcut : forall s, TrimLeft blanks (str " = " ++ s) = str "= " ++ s) by (intros s; vm_compute; reflexivity).
  assert (Hno : forall x p s, [c] <> [x] -> starts (x :: p) (c :: s) = false).
  { intros x p s Hx. destruct (starts _ _) eqn:Es; [|done]. apply starts_head in Es. injection Es as <-. done. }
  assert (Hhead : forall s, stmt_of 0 (key ++ s) = pair_of (key ++ s)).
  { intros s. unfold stmt_of. subst key. cbn [app]. rewrite bool_decide_eq_false_2 by done.
    assert (H1 : starts (str "#") (c :: k ++ s) = false) by (apply (Hno _ []); intros [= ?]; by apply Hh).
    assert (H2 : starts (str "[[") (c :: k ++ s) = false) by (apply (Hno _ [byte.of_Z 91]); intros Ex; apply Hb; rewrite Ex; done).
    assert (H3 : starts (str "[") (c :: k ++ s) = false) by (apply (Hno _ []); intros Ex; apply Hb; rewrite Ex; done).
    by rewrite H1, H2, H3. }
  rewrite Hhead. unfold pair_of. rewrite word_app by (by apply key_ok_chars || done).
  rewrite drop_app_length, Hcut. rewrite bool_decide_eq_false_2 by (by rewrite E).
  change (starts (str "=") (str "= " ++ raw)) with (bool_decide (take 1 (str "= " ++ raw) = str "=")). cbn [take str].
  change (drop 1 (str "= " ++ raw)) with (chars [32] ++ raw).
  assert (Hl : lex (Code 0) (chars [32] ++ raw) = Some (chars [32] ++ raw, O)).
  { change (lex (Code 0) (chars [32] ++ raw)) with ('(code, d) ← lex (Code 0) raw; Some (byte.of_Z 32 :: code, d)). by rewrite Hlex. }
  rewrite Hl. cbn [mbind option_bind orb negb]. rewrite TrimSpace_blanks by reflexivity. rewrite TrimSpace_solid by done.
  change (take 1 (str "= " ++ raw)) with (str "="). rewrite bool_decide_eq_true_2 by done. cbn [negb].
  rewrite bool_decide_eq_false_2; [done|]. intros ->. done.
Qed.

(** ** Files that the patcher reads as TOML

    The patcher misses a header with a comment, takes the keys of an array of tables
    for those of the table before it, and takes the inner lines of a value for lines of their own.
    A file is plain if it has none of this: no comment after a header, no array of
    tables, and no inner line of a value that has an equals sign, or that is between
    brackets. *)

Definition bracketed (t : bytes) : bool :=
  bool_decide (head t = Some (byte.of_Z 91)) && bool_decide (last t = Some (byte.of_Z 93)).

Definition plain (t : bytes) (s : stmt) : bool :=
  match s with
  | Table _ commented => negb commented
  | Array _ => false
  | More _ => negb (bool_decide (byte.of_Z 61 ∈ t)) && negb (bracketed t)
  | _ => true
  end.

Fixpoint plain_lines (d : nat) (lines : list bytes) : bool :=
  match lines with
  | [] => true
  | line :: lines =>
      match stmt_of d (TrimSpace line) with
      | Some (s, d) => plain (TrimSpace line) s && plain_lines d lines
      | None => false
      end
  end.

Lemma ends_last t : ends_with close_bracket t = true -> last t = Some (byte.of_Z 93).
Proof. intros H. apply (starts_head _ []) in H. by rewrite head_rev in H. Qed.

Lemma header_bracketed t : is_header t = true -> bracketed t = true.
Proof.
  unfold is_header, bracketed. intros [[H1 H2]%andb_prop _]%andb_prop. apply (starts_head _ []) in H1. apply ends_last in H2.
  by rewrite !bool_decide_eq_true_2.
Qed.

Lemma name_solid name : name <> [] -> forallb key_char name = true -> solid name = true.
Proof.
  intros Hn Hk. apply graph_solid; [|done]. rewrite forallb_forall in *. intros c Hc. by apply key_char_range, Hk.
Qed.

Lemma stmt_header t s d : stmt_of 0 t = Some (s, d) -> plain t s = true -> is_header t = true ->
  s = Table (header_name t) false /\ d = O.
Proof.
  unfold is_header. intros Hs Hp [[H1 H2]%andb_prop H3%negb_true_iff]%andb_prop. unfold stmt_of in Hs.
  change open_bracket with (str "[") in H1. rewrite H3, H1 in Hs.
  assert (Hb : bool_decide (t = []) || starts (str "#") t = false) by (rewrite (starts_spec _ _ H1); done).
  rewrite Hb in Hs.
  destruct (header (str "]") (drop 1 t)) as [[n []]|] eqn:Eh; [|..|done]; injection Hs as <- <-; [done|].
  split; [|done]. f_equal. apply header_parts in Eh as (Hn & Hk & b1 & b2 & Hb1 & Hb2 & E). unfold header_name.
  rewrite E, !app_assoc. change (str "]") with [byte.of_Z 93]. rewrite removelast_last, <- app_assoc.
  symmetry. by apply TrimSpace_around, name_solid.
Qed.

Lemma stmt_no_header t s d : stmt_of 0 t = Some (s, d) -> plain t s = true -> is_header t = false ->
  s = Blank /\ d = O /\ (forall k, lineDeclaresKey t k = false) \/ exists v, s = Pair (word t) v.
Proof.
  intros Hs Hp Hh. unfold stmt_of in Hs. destruct (bool_decide (t = []) || starts (str "#") t) eqn:Eb.
  { injection Hs as <- <-. left. split; [done|]. split; [done|]. intros k.
    apply orb_prop in Eb as [->%bool_decide_eq_true|Hc]; [done|]. apply (starts_head _ []) in Hc. destruct t; [done|].
    injection Hc as ->. unfold lineDeclaresKey. by rewrite bool_decide_eq_true_2. }
  destruct (starts (str "[[") t) eqn:E2.
  { destruct (header _ _) as [[n c]|]; [|done]. by injection Hs as <- <-. }
  destruct (starts (str "[") t) eqn:E1.
  { destruct (header _ _) as [[n []]|] eqn:Eh; [|..|done]; injection Hs as <- <-; [done|].
    apply header_parts in Eh as (_ & _ & b1 & b2 & _ & _ & E). exfalso. apply starts_spec in E1. cbn [length str drop] in E1.
    unfold is_header in Hh. rewrite E2 in Hh. change (starts open_bracket t) with (starts (str "[") t) in Hh.
    change (length (str "[")) with 1%nat in E1. rewrite E in E1. rewrite E1, starts_app in Hh. cbn [andb negb] in Hh.
    rewrite andb_true_r in Hh. unfold ends_with in Hh. rewrite !app_assoc, rev_app_distr in Hh.
    change (rev close_bracket) with (rev (str "]")) in Hh. by rewrite starts_app in Hh. }
  right. unfold pair_of in Hs. destruct (bool_decide (word t = []) || _); [done|].
  destruct (lex _ _) as [[code d']|]; [|done]. cbn [mbind option_bind] in Hs. case_bool_decide; [done|].
  injection Hs as <- <-. eauto.
Qed.

Lemma declares_equals t key : lineDeclaresKey t key = true -> byte.of_Z 61 ∈ t.
Proof.
  unfold lineDeclaresKey. destruct t as [|x t]; [done|]. case_bool_decide; [done|]. set (t' := x :: t).
  set (rest := if starts key t' then drop (length key) t' else t'). case_bool_decide; [done|]. intros Hs%(starts_head _ []).
  destruct (TrimLeft_cutset rest) as (b & _ & E & _). assert (Hr : byte.of_Z 61 ∈ rest).
  { rewrite E. apply elem_of_app. right. destruct (TrimLeft blanks rest); [done|]. injection Hs as ->. by left. }
  unfold rest in Hr. destruct (starts key t'); [|done]. rewrite <- (take_drop (length key) t'). apply elem_of_app. by right.
Qed.

(** ** What a patch changes *)

Section Patch.
Context (section key raw : bytes) (Hkey : key_ok key = true) (Hraw : raw_ok raw = true).

(** The first line that declares a key in a section. *)
Fixpoint find_line (section key cur : bytes) (lines : list bytes) : option nat :=
  match lines with
  | [] => None
  | line :: lines =>
      let trimmed := TrimSpace line in
      if is_header trimmed then S <$> find_line section key (header_name trimmed) lines
      else if bool_decide (cur = section) && lineDeclaresKey trimmed key then Some O
      else S <$> find_line section key cur lines
  end.

Definition patched (lines : list bytes) : option (list bytes) :=
  i ← find_line section key [] lines; Some (alter (new_line key raw) i lines).

Lemma patch_loop_matched cur out lines : patch_loop section key raw cur true out lines = (out ++ join lines, true).
Proof using.
  revert cur out. induction lines as [|line lines IH]; intros cur out; cbn [patch_loop]; [by rewrite app_nil_r|].
  unfold join in *. cbn [map concat negb andb]. destruct (is_header _); by rewrite IH, <- !app_assoc.
Qed.

Lemma patch_loop_spec cur out lines : patch_loop section key raw cur false out lines =
  match find_line section key cur lines with
  | Some i => (out ++ join (alter (new_line key raw) i lines), true)
  | None => (out ++ join lines, false)
  end.
Proof using.
  assert (Hj : forall l ls, join (l :: ls) = l ++ [nl] ++ join ls)
    by (intros l ls; unfold join; cbn [map concat]; by rewrite <- app_assoc).
  revert cur out. induction lines as [|line lines IH]; intros cur out; cbn [patch_loop find_line]; [by rewrite app_nil_r|].
  cbn [negb andb].
  destruct (is_header _); [|destruct (bool_decide _ && _)].
  - rewrite IH. destruct (find_line _ _ _ _); cbn [fmap option_fmap option_map]; [|by rewrite Hj, <- !app_assoc].
    change (alter ?f (S ?n) (?x :: ?l)) with (x :: alter f n l). by rewrite Hj, <- !app_assoc.
  - rewrite patch_loop_matched. change (alter ?f O (?x :: ?l)) with (f x :: l). by rewrite Hj, <- !app_assoc.
  - rewrite IH. destruct (find_line _ _ _ _); cbn [fmap option_fmap option_map]; [|by rewrite Hj, <- !app_assoc].
    change (alter ?f (S ?n) (?x :: ?l)) with (x :: alter f n l). by rewrite Hj, <- !app_assoc.
Qed.

Lemma conts_alter ss i k v : ss !! i = Some (Pair k v) -> pieces (<[i := Pair k raw]> ss) = pieces ss.
Proof using.
  revert i. induction ss as [|s ss IH]; intros [|i]; cbn; [done..|by intros [= ->]|]. intros Hi. by rewrite IH.
Qed.

(** The line that is found is the pair of the key, in the table of the section; with
    a value of one line, the new line is the same pair with the new value. *)
Lemma patch_entries lines : forall cur d n ss i, stmts d lines = Some ss -> plain_lines d lines = true ->
  find_line section key cur lines = Some i ->
  exists v0 v es1 es2, ss !! i = Some (Pair key v0) /\
    entries (comps cur) n ss = es1 ++ (comps section ++ comps key, v) :: es2 /\
    (length v = 1%nat ->
     let lines' := alter (new_line key raw) i lines in
     let ss' := <[i := Pair key raw]> ss in
     stmts d lines' = Some ss' /\ plain_lines d lines' = true /\
     entries (comps cur) n ss' = es1 ++ (comps section ++ comps key, [raw]) :: es2).
Proof using Hkey Hraw.
  induction lines as [|line lines IH]; intros cur d n ss i; cbn [stmts plain_lines find_line]; [done|].
  set (t := TrimSpace line). destruct (stmt_of d t) as [[s d']|] eqn:Es; [|done]. cbn [mbind option_bind].
  destruct (stmts d' lines) as [ss0|] eqn:Ess; [|done]. intros [= <-] [Hp Hpl]%andb_prop.
  assert (Hlater : forall cur' i', find_line section key cur' lines = Some i' ->
    (forall n ss, pieces ss = pieces ss0 -> exists n' pre, entries (comps cur) n (s :: ss) = pre ++ entries (comps cur') n' ss /\
       forall ss', pieces ss' = pieces ss0 -> entries (comps cur) n (s :: ss') = pre ++ entries (comps cur') n' ss') ->
    exists v0 v es1 es2, (s :: ss0) !! S i' = Some (Pair key v0) /\
      entries (comps cur) n (s :: ss0) = es1 ++ (comps section ++ comps key, v) :: es2 /\
      (length v = 1%nat ->
       let lines' := alter (new_line key raw) (S i') (line :: lines) in
       let ss' := <[S i' := Pair key raw]> (s :: ss0) in
       stmts d lines' = Some ss' /\ plain_lines d lines' = true /\
       entries (comps cur) n ss' = es1 ++ (comps section ++ comps key, [raw]) :: es2)).
  { intros cur' i' Hi He. destruct (He n ss0 eq_refl) as (n' & pre & E & E').
    destruct (IH cur' d' n' ss0 i' Ess Hpl Hi) as (v0 & v & es1 & es2 & Hv0 & Hes & Hone).
    exists v0, v, (pre ++ es1), es2. split; [done|]. split; [by rewrite E, Hes, <- app_assoc|]. intros Hl. cbn zeta.
    destruct (Hone Hl) as (H1 & H2 & H3). change (alter ?f (S ?j) (?x :: ?l)) with (x :: alter f j l).
    change (<[S i' := ?x]> (s :: ss0)) with (s :: <[i' := x]> ss0). cbn [stmts plain_lines]. fold t. rewrite Es.
    cbn [mbind option_bind]. rewrite H1, Hp, H2. split; [done|]. split; [done|].
    rewrite E' by (by eapply conts_alter). by rewrite H3, <- app_assoc. }
  assert (Hsame : forall i', find_line section key cur lines = Some i' -> (s = Blank \/ (exists p, s = More p) \/ exists k v, s = Pair k v) -> _)
    by (intros i' Hi Hs; refine (Hlater cur i' Hi _); intros n0 ss Hpc;
        destruct Hs as [-> |[[p ->]|(k & v & ->)]];
        [exists n0, []; by split|exists n0, []; by split|
         exists n0, [(comps cur ++ comps k, v :: pieces ss0)]; cbn [entries]; rewrite Hpc; split; [done|];
         intros ss' Hpc'; cbn [entries]; by rewrite Hpc']).
  destruct d as [|d].
  - destruct (is_header t) eqn:Eh.
    + intros (j & Hj & ->)%fmap_Some. destruct (stmt_header t s d' Es Hp Eh) as [-> _].
      refine (Hlater _ j Hj _). intros n0 ss _. exists n0, []. by split.
    + destruct (stmt_no_header t s d' Es Hp Eh) as [(-> & -> & Hno)|[v0 ->]].
      * rewrite Hno, andb_false_r. intros (j & Hj & ->)%fmap_Some. apply Hsame; [done|by left].
      * destruct (bool_decide (cur = section) && lineDeclaresKey t key) eqn:Ed.
        -- intros [= <-]. apply andb_prop in Ed as [->%bool_decide_eq_true Hd]. rewrite (declares_word _ _ Hkey Hd).
           exists v0, (v0 :: pieces ss0), [], (entries (comps section) n ss0). split; [done|]. split; [done|].
           cbn [length]. intros [= Hl]. change (alter ?f O (?x :: ?l)) with (f x :: l). cbn zeta. cbn [stmts plain_lines].
           rewrite new_line_trim, new_line_pair by done. cbn [mbind option_bind plain andb list_insert].
           assert (Hd' : d' = O).
           { destruct d' as [|d']; [done|]. destruct lines as [|l lines]; [done|]. cbn [stmts] in Ess.
             unfold stmt_of in Ess. destruct (lex _ _) as [[code d2]|]; [|done]. cbn [mbind option_bind] in Ess.
             destruct (stmts d2 lines); [|done]. injection Ess as <-. done. }
           subst d'. rewrite Ess. cbn [mbind option_bind]. split; [done|]. split; [done|]. cbn.
           by apply nil_length_inv in Hl as ->.
        -- intros (j & Hj & ->)%fmap_Some. apply Hsame; [done|]. right. right. by eexists _, _.
  - assert (Hs : exists p, s = More p).
    { unfold stmt_of in Es. destruct (lex _ _) as [[code d2]|]; [|done]. injection Es as <- <-. eauto. }
    destruct Hs as [p ->]. cbn [plain] in Hp. apply andb_prop in Hp as [Heq%negb_true_iff%bool_decide_eq_false Hb%negb_true_iff].
    destruct (is_header t) eqn:Eh; [by rewrite header_bracketed in Hb|].
    destruct (lineDeclaresKey t key) eqn:Ed; [by apply declares_equals in Ed|]. rewrite andb_false_r.
    intros (j & Hj & ->)%fmap_Some. apply Hsame; [done|]. right. left. by eexists.
Qed.
End Patch.

Lemma in_dropCR c l : c ∈ dropCR l -> c ∈ l.
Proof.
  unfold dropCR. destruct (last l) as [x|] eqn:E; [|done]. case_bool_decide; [|done]. apply last_Some in E as [r ->].
  rewrite removelast_last. set_solver.
Qed.

Lemma new_line_nl key raw l : key_ok key = true -> raw_ok raw = true -> nl ∉ l -> nl ∉ new_line key raw l.
Proof.
  intros (_ & Hk)%andb_prop (_ & Hr & _)%raw_ok_parts Hl. unfold new_line.
  assert (Hi : nl ∉ indent_of l).
  { intros Hin. apply Hl. rewrite <- (take_drop (length l - length (TrimLeft blanks l)) l). apply elem_of_app. by left. }
  assert (Hkk : nl ∉ key).
  { intros Hin. rewrite forallb_forall in Hk. apply list_elem_of_In, Hk in Hin. vm_compute in Hin. done. }
  assert (He : nl ∉ str " = ") by (eapply bool_decide_eq_false_1; vm_compute; reflexivity).
  rewrite !elem_of_app. tauto.
Qed.

Lemma find_line_lt s k : forall lines cur i, find_line s k cur lines = Some i -> (i < length lines)%nat.
Proof.
  induction lines as [|l lines IH]; intros cur i; cbn; [done|]. destruct (is_header _); [|destruct (_ && _)].
  - intros (j & Hj & ->)%fmap_Some. apply IH in Hj. lia.
  - intros [= <-]. lia.
  - intros (j & Hj & ->)%fmap_Some. apply IH in Hj. lia.
Qed.

(** One line changes, which keeps its indentation; carriage returns go, and an empty
    last line. *)
Lemma patch_body_lines section key raw body body' : key_ok key = true -> raw_ok raw = true ->
  patch_body section key raw body = Ret body' ->
  let ls := map dropCR (raw_lines body) in
  exists i, find_line section key [] ls = Some i /\
    (alter (new_line key raw) i ls = raw_lines body' \/ alter (new_line key raw) i ls = raw_lines body' ++ [[]]).
Proof.
  intros Hk Hr. unfold patch_body, ScanLines. destruct (existsb _ _); [done|]. cbn [wrap_out mbind outcome_bind].
  rewrite patch_loop_spec. destruct (find_line _ _ _ _) as [i|] eqn:Ef; [|done]. intros [= <-].
  set (ls := map dropCR (raw_lines body)) in *. cbn zeta. exists i. split; [done|]. set (ls' := alter (new_line key raw) i ls).
  assert (Hi : (i < length ls)%nat) by (by eapply find_line_lt).
  assert (Hls : Forall (fun l => nl ∉ l) ls).
  { apply Forall_map. eapply Forall_impl; [apply raw_lines_nl|]. intros l Hl ?%in_dropCR. done. }
  assert (Hls' : Forall (fun l => nl ∉ l) ls').
  { apply Forall_alter; [done|]. intros l Hl Hn. by apply new_line_nl. }
  assert (Hne : ls' <> []) by (intros E; apply (f_equal length) in E; unfold ls' in E; rewrite length_alter in E; cbn in E; lia).
  cbn [app]. pose proof (raw_lines_join ls' [] Hls') as Hj. cbn [raw_lines] in Hj. rewrite !app_nil_r in Hj. unfold keep_ending.
  case_bool_decide as Hb; [by left|]. case_bool_decide as Hl; [by left|]. cbn [negb andb].
  case_bool_decide; [|by left]. destruct (last ls') as [l|] eqn:El; [|by apply last_None in El].
  apply last_Some in El as [r El]. rewrite El in *. rewrite raw_lines_chopped by done.
  destruct l as [|c l]; [right; by rewrite app_nil_r|by left].
Qed.

Lemma plain_trim : forall l1 l2 d, map TrimSpace l1 = map TrimSpace l2 -> plain_lines d l1 = plain_lines d l2.
Proof.
  induction l1 as [|a l1 IH]; intros [|b l2] d [=]; [done|]. cbn [plain_lines]. rewrite H0.
  destruct (stmt_of d (TrimSpace b)) as [[s d']|]; [|done]. by rewrite (IH l2).
Qed.

Lemma plain_prefix l1 l2 : forall d, plain_lines d (l1 ++ l2) = true -> plain_lines d l1 = true.
Proof.
  induction l1 as [|a l1 IH]; intros d; cbn [plain_lines app]; [done|].
  destruct (stmt_of d (TrimSpace a)) as [[s d']|]; [|done]. intros [-> H]%andb_prop. by apply IH.
Qed.

Definition path_of (section key : bytes) : list bytes := comps section ++ comps key.

(** Of a plain file, a patch sets the key it is told and none other. *)
Lemma patch_body_toml section key raw body body' m : key_ok key = true -> raw_ok raw = true ->
  plain_lines 0 (raw_lines body) = true -> toml body = Some m ->
  (forall v, m !! path_of section key = Some v -> length v = 1%nat) ->
  patch_body section key raw body = Ret body' ->
  plain_lines 0 (raw_lines body') = true /\ toml body' = Some (<[path_of section key := [raw]]> m).
Proof.
  intros Hk Hr Hp Hm Hone Hpatch. destruct (patch_body_lines _ _ _ _ _ Hk Hr Hpatch) as (i & Hi & Hread).
  set (ls := map dropCR (raw_lines body)) in *.
  assert (Hcr : map TrimSpace ls = map TrimSpace (raw_lines body)) by (unfold ls; rewrite map_map; apply map_ext, TrimSpace_dropCR).
  rewrite (plain_trim _ ls) in Hp by done. unfold toml in Hm |- *. rewrite (toml_lines_trim _ ls) in Hm by done.
  unfold toml_lines at 1 in Hm. destruct (stmts 0 ls) as [ss|] eqn:Ess; [|done]. cbn [mbind option_bind] in Hm.
  destruct (patch_entries section key raw Hk Hr ls [] 0 0 ss i Ess Hp Hi) as (v0 & v & es1 & es2 & _ & Hes & Hnew).
  cbn [comps] in Hes, Hnew. rewrite Hes in Hm. destruct (tables_replace _ _ _ _ [raw] _ Hm) as [Hv Hm'].
  destruct (Hnew (Hone _ Hv)) as (Hss & Hpl & Hes'). set (ls' := alter (new_line key raw) i ls) in *.
  assert (Ht : toml_lines ls' = Some (<[path_of section key := [raw]]> m)).
  { unfold toml_lines. rewrite Hss. cbn [mbind option_bind]. by rewrite Hes'. }
  destruct Hread as [<-|E]; [done|]. rewrite E in Hpl, Ht. rewrite toml_snoc_empty in Ht. split; [by eapply plain_prefix|done].
Qed.

Lemma patch_body_quiet section key raw body : quiet (patch_body section key raw body).
Proof. unfold patch_body, ScanLines. destruct (existsb _ _); [done|]. cbn. by destruct (patch_loop _ _ _ _ _ _ _) as [? []]. Qed.

(** ** Patches of several files, across a crash *)

Record patch := mkPatch { pt_file : bytes; pt_section : bytes; pt_key : bytes; pt_raw : bytes }.
Definition apply_patch (p : patch) (body : bytes) : outcome bytes := patch_body (pt_section p) (pt_key p) (pt_raw p) body.

(** What a file is after the patches that are for it. *)
Fixpoint after (l : list patch) (n body : bytes) : outcome bytes :=
  match l with
  | [] => Ret body
  | p :: l => if bool_decide (pt_file p = n) then b ← apply_patch p body; after l n b else after l n body
  end.

Lemma after_snoc l p n body :
  after (l ++ [p]) n body = (b ← after l n body; if bool_decide (pt_file p = n) then apply_patch p b else Ret b).
Proof.
  revert body. induction l as [|q l IH]; intros body; cbn [after app].
  - cbn [mbind outcome_bind]. destruct (bool_decide _); [|done]. by destruct (apply_patch p body).
  - destruct (bool_decide (pt_file q = n)); [|apply IH]. destruct (apply_patch q body); [apply IH|done..].
Qed.

Section Files.
Context (S : path) (di : Z) (d0 : fs) (all : list patch).
Context (Hwf : wf d0) (Hdir : resolve d0 S = Some di) (Hdi : di ∈ fs_dirs d0).
Context (Hfiles : forall p, p ∈ all -> ~ is_tmp (pt_file p)).

Fixpoint run_patches (l : list patch) : M mach unit :=
  match l with
  | [] => mret tt
  | p :: l => patchTOMLKey (S ++ [pt_file p]) (pt_section p) (pt_key p) (pt_raw p);; run_patches l
  end.

(** A file no patch has touched, or one that is on disk as the patches left it. *)
Definition tracked (done : list patch) (n : bytes) (d : fs) : Prop :=
  (Forall (fun p => pt_file p <> n) done /\
   (hist d (di, n) = hist d0 (di, n) \/ hist d (di, n) = take 1 (hist d0 (di, n)))) \/
  exists b0 b i f, content d0 (di, n) = Some b0 /\ after done n b0 = Ret b /\ hist d (di, n) = [Some i] /\
    fs_files d !! i = Some f /\ f_data f = b /\ f_synced f = true.

Record at_step (done : list patch) (d : fs) : Prop := {
  as_kept : kept d0 d;
  as_dir : resolve d S = Some di;
  as_files : forall n, ~ is_tmp n -> tracked done n d
}.

(** After a crash: what could have been there before, or the work of some of the
    patches, in order. *)
Definition partly_patched (d : fs) : Prop := forall c n, crash d c -> ~ is_tmp n ->
  left_at d0 (di, n) (content c (di, n)) \/
  exists b0 b j, content d0 (di, n) = Some b0 /\ after (take j all) n b0 = Ret b /\ content c (di, n) = Some b.

Lemma tracked_partly done d : done `prefix_of` all -> at_step done d -> partly_patched d.
Proof using Hwf.
  intros [rest Ha] Hs c n Hc Hn. destruct (as_files _ _ Hs n Hn) as [[_ Hh]|(b0 & b & i & f & Hb0 & Hb & Hh & Hf & <- & Hsy)].
  - left. eapply crash_back; [done|apply Hs|done|]. pose proof (crash_bound _ _ (di, n) Hc) as Hb.
    destruct Hh as [Hh|Hh]; rewrite Hh in Hb; [done|by apply in_take_1].
  - right. exists b0, (f_data f), (length done). rewrite Ha, take_app_length. split; [done|]. split; [done|].
    by eapply crash_content.
Qed.

Lemma tracked_content done n d : at_step done d -> ~ is_tmp n ->
  match content d0 (di, n) with
  | Some b0 => exists b, after done n b0 = Ret b /\ content d (di, n) = Some b
  | None => content d (di, n) = None
  end.
Proof using Hwf.
  intros Hs Hn. destruct (as_files _ _ Hs n Hn) as [[Hd Hh]|(b0 & b & i & f & -> & Hb & Hh & Hf & <- & Hsy)].
  - assert (E : content d (di, n) = content d0 (di, n)).
    { unfold content. assert (E : bound d (di, n) = bound d0 (di, n)).
      { unfold bound. destruct Hh as [->| ->]; [done|]. by destruct (hist d0 (di, n)). }
      rewrite E. destruct (bound d0 (di, n)) as [i|] eqn:Hi; [|done]. cbn.
      rewrite (kept_files _ _ (as_kept _ _ Hs)); [done|]. eapply hist_inode; [done|]. by apply bound_in. }
    rewrite E. destruct (content d0 (di, n)) as [b0|]; [|done]. exists b0. split; [|done].
    clear - Hd. induction Hd as [|p l Hp _ IH]; [done|]. cbn. by rewrite bool_decide_eq_false_2.
  - exists (f_data f). split; [done|]. unfold content, bound. rewrite Hh. cbn. by rewrite Hf.
Qed.

Lemma at_step_start : at_step [] d0.
Proof using Hwf Hdir. constructor; [by apply kept_refl|done|]. intros n _. left. by split; [constructor|left]. Qed.

Lemma take_1_1 {A} (l : list A) : take 1 (take 1 l) = take 1 l.
Proof. by destruct l. Qed.

(** Under way, the other files are tracked as before. *)
Lemma tracked_other done d1 d n src base mode : wf d1 -> tracked done n d1 ->
  under_way d1 (S ++ [base]) di base src mode d -> ~ is_tmp n -> n <> base -> tracked done n d.
Proof using.
  intros Hwf1 Ht Hu Hn Hne. pose proof (uw_kept _ _ _ _ _ _ _ Hu) as Hk.
  assert (Hh : hist d (di, n) = hist d1 (di, n) \/ hist d (di, n) = take 1 (hist d1 (di, n))).
  { destruct (uw_other _ _ _ _ _ _ _ Hu (di, n)) as [?|[_ ?]]; [by intros [= ?]|by intros [_ ?]|by left|by right]. }
  destruct Ht as [[Hd Ht]|(b0 & b & i & f & Hb0 & Hb & Hi & Hf & Hx)].
  - left. split; [done|]. destruct Hh as [-> | ->], Ht as [-> | ->]; rewrite ?take_1_1; auto.
  - right. exists b0, b, i, f. split; [done|]. split; [done|]. rewrite Hi in Hh. split; [by destruct Hh|]. split; [|done].
    rewrite (kept_files _ _ Hk); [done|]. eapply hist_inode; [done|]. rewrite Hi. by left.
Qed.

Lemma partly_patched_under_way d1 d p b src mode : wf d1 -> partly_patched d1 -> under_way d1 (S ++ [p]) di p src mode d ->
  concat (src_pieces src) = b ->
  (exists b0 j, content d0 (di, p) = Some b0 /\ after (take j all) p b0 = Ret b) -> partly_patched d.
Proof using.
  intros Hw Hp Hu <- (b0 & j & Hb0 & Hb) c n Hc Hn.
  destruct (under_way_left _ _ _ _ _ _ _ _ (di, n) Hw Hu Hc) as [(c1 & Hc1 & E)|([= ->] & _ & E)].
  - left. by intros [_ ?].
  - rewrite <- E. by apply Hp.
  - right. by exists b0, (concat (src_pieces src)), j.
Qed.

Lemma tracked_more done p d n : tracked done n d -> n <> pt_file p -> tracked (done ++ [p]) n d.
Proof using.
  intros [[Hd Hh]|(b0 & b & i & f & Hb0 & Hb & Hx)] Hn; [left|right].
  - split; [|done]. apply Forall_app. split; [done|]. constructor; [by intros E|constructor].
  - exists b0, b, i, f. split; [done|]. split; [|done]. rewrite after_snoc, Hb. cbn [mbind outcome_bind].
    rewrite bool_decide_eq_false_2; [done|by intros E].
Qed.

Lemma patch_step done p rest : all = done ++ p :: rest ->
  triple (at_step done) (patchTOMLKey (S ++ [pt_file p]) (pt_section p) (pt_key p) (pt_raw p))
    (fun _ => at_step (done ++ [p])) partly_patched partly_patched.
Proof using Hwf Hdir Hdi Hfiles.
  intros Ha. apply triple_here. intros d1 H1. unfold patchTOMLKey. set (n := pt_file p).
  assert (Hn : ~ is_tmp n) by (apply Hfiles; rewrite Ha; set_solver).
  assert (H1p : partly_patched d1) by (eapply tracked_partly; [|done]; by eexists).
  assert (HD : resolve d1 (Dir (S ++ [n])) = Some di) by (rewrite Dir_snoc; apply H1).
  assert (Hd1 : di ∈ fs_dirs d1) by (rewrite (kept_dirs _ _ (as_kept _ _ H1)); done).
  assert (Hw1 : wf d1) by apply H1.
  eapply triple_bind.
  { apply triple_wrap. eapply triple_weaken; [apply (ReadFile_spec d1 _ di n); [done|apply last_snoc]|done|done|]. by intros d ->. }
  intros body. apply triple_here. intros ? [-> Hbody].
  eapply triple_bind with (R := fun final d => patch_body (pt_section p) (pt_key p) (pt_raw p) body = Ret final /\ d = d1).
  { eapply triple_weaken; [apply (triple_lift _ (fun d => d = d1)), patch_body_quiet|done|done|by intros d ->]. }
  intros final. apply triple_pure. intros Hfin. apply triple_wrap.
  set (src := mkSource [final] None).
  pose proof (tracked_content done n d1 H1 Hn) as Hc0. destruct (content d0 (di, n)) as [b0|] eqn:Hb0; [|congruence].
  destruct Hc0 as (b & Hb & Hcb). rewrite Hcb in Hbody. injection Hbody as ->.
  assert (Hfin' : after (done ++ [p]) n b0 = Ret final).
  { rewrite after_snoc, Hb. cbn [mbind outcome_bind]. by rewrite bool_decide_eq_true_2. }
  pose proof (WriteFileFrom_spec d1 Hw1 (S ++ [n]) di n src 420 HD Hd1 ltac:(apply last_snoc)) as Hwr.
  assert (Hpart : forall d, under_way d1 (S ++ [n]) di n src 420 d -> partly_patched d).
  { intros d Hu. eapply partly_patched_under_way; [done|done|exact Hu|cbn; by rewrite app_nil_r|].
    exists b0, (Datatypes.S (length done)). split; [done|]. rewrite Ha. change (p :: rest) with ([p] ++ rest).
    rewrite app_assoc, take_app_length' by (rewrite length_app; cbn; lia). done. }
  eapply triple_at; [eapply triple_weaken; [exact Hwr|done| |]|..].
  - intros [] d [Hu (i & Hi & Hf & Hh)]. constructor.
    + eapply kept_trans; [apply H1|apply Hu].
    + pose proof (uw_dir _ _ _ _ _ _ _ Hu) as E. by rewrite Dir_snoc in E.
    + intros n' Hn'. destruct (decide (n' = n)) as [->|Hne].
      * right. exists b0, final, i, (whole src 420). repeat (split; [done|]). cbn. by rewrite app_nil_r.
      * apply (tracked_more _ p); [|by intros E]. eapply tracked_other; [done|by apply H1|done|done|done].
  - exact Hpart.
  - intros d ->. apply start_under_way; done.
  - exact Hpart.
Qed.

(** When all patches are done, a crash leaves their work. *)
Lemma patched_survives d c n : at_step all d -> crash d c -> ~ is_tmp n -> (exists p, p ∈ all /\ pt_file p = n) ->
  exists b0 b, content d0 (di, n) = Some b0 /\ after all n b0 = Ret b /\ content c (di, n) = Some b.
Proof using.
  intros Hs Hc Hn (p & Hp & Hpn). destruct (as_files _ _ Hs n Hn) as [[Hd _]|(b0 & b & i & f & Hb0 & Hb & Hh & Hf & <- & Hsy)].
  - rewrite Forall_forall in Hd. by destruct (Hd p Hp).
  - exists b0, (f_data f). split; [done|]. split; [done|]. by eapply crash_content.
Qed.

Lemma run_patches_spec rest : forall done, all = done ++ rest ->
  triple (at_step done) (run_patches rest) (fun _ => at_step all) partly_patched partly_patched.
Proof using Hwf Hdir Hdi Hfiles.
  induction rest as [|p rest IH]; intros done Ha; cbn [run_patches].
  - apply triple_ret. intros d Hd. by rewrite Ha, app_nil_r.
  - eapply triple_bind; [by eapply patch_step|]. intros []. apply IH. by rewrite <- app_assoc.
Qed.
End Files.

(** ** What the patches set *)

Definition target (p : patch) : bytes * list bytes := (pt_file p, path_of (pt_section p) (pt_key p)).

(** The keys of file [n] with the patches on top. *)
Definition set_all (l : list patch) (n : bytes) (m : table_of_keys) : table_of_keys :=
  fold_left (fun m p => if bool_decide (pt_file p = n) then <[(target p).2 := [pt_raw p]]> m else m) l m.

Lemma set_all_cons p l n m :
  set_all (p :: l) n m = set_all l n (if bool_decide (pt_file p = n) then <[(target p).2 := [pt_raw p]]> m else m).
Proof. done. Qed.

Definition patch_ok (p : patch) : bool := key_ok (pt_key p) && raw_ok (pt_raw p).

(** A file the patches can work on: plain TOML in which the keys to be set have
    values of one line. *)
Definition one_line (m : table_of_keys) (n : bytes) (p : patch) : bool :=
  negb (bool_decide (pt_file p = n)) ||
  match m !! (target p).2 with Some v => bool_decide (length v = 1%nat) | None => true end.
Definition configurable (l : list patch) (n body : bytes) : bool :=
  plain_lines 0 (raw_lines body) && match toml body with Some m => forallb (one_line m n) l | None => false end.

(** To a TOML reader, [b] is [b0] with the patches of file [n] on top. *)
Definition reads_as (l : list patch) (n b0 b : bytes) : Prop := toml b = set_all l n <$> toml b0.

Lemma after_reads l n : forall b0 b, forallb patch_ok l = true -> configurable l n b0 = true -> after l n b0 = Ret b ->
  exists m0, toml b0 = Some m0 /\ toml b = Some (set_all l n m0).
Proof.
  unfold configurable.
  induction l as [|p l IH]; intros b0 b Hl [Hpl Hc]%andb_prop; destruct (toml b0) as [m0|] eqn:Em; try done; cbn [after].
  - intros [= <-]. eauto.
  - cbn [forallb] in Hl, Hc. apply andb_prop in Hl as [[Hk Hr]%andb_prop Hl]. apply andb_prop in Hc as [H1 Hc].
    setoid_rewrite set_all_cons. unfold one_line in H1. case_bool_decide as Hn.
    + destruct (apply_patch p b0) as [b1| | |] eqn:E1; [|done..]. cbn [mbind outcome_bind]. intros E.
      assert (Hone : forall v, m0 !! (target p).2 = Some v -> length v = 1%nat).
      { intros v Hv. cbn [negb orb] in H1. rewrite Hv in H1. by apply bool_decide_eq_true in H1. }
      destruct (patch_body_toml _ _ _ _ _ m0 Hk Hr Hpl Em Hone E1) as [Hpl1 Hm1].
      exists m0. split; [done|]. destruct (IH b1 b Hl) as (m1 & E2 & E3); [|done|by rewrite Hm1 in E2; injection E2 as <-].
      rewrite Hpl1, Hm1. cbn [andb]. rewrite forallb_forall in *. intros q Hq. specialize (Hc q Hq). unfold one_line in *.
      destruct (negb (bool_decide (pt_file q = n))); [done|]. cbn [orb] in *.
      change (path_of (pt_section p) (pt_key p)) with (target p).2. destruct (decide ((target q).2 = (target p).2)) as [->|Hne].
      * by rewrite lookup_insert_eq.
      * by rewrite lookup_insert_ne.
    + intros E. destruct (IH b0 b Hl) as (m1 & E2 & E3); [by rewrite Hpl, Em|done|]. rewrite Em in E2. injection E2 as <-. eauto.
Qed.

Lemma untouched l n b0 b : Forall (fun p => pt_file p <> n) l -> after l n b0 = Ret b -> b = b0 /\ forall m, set_all l n m = m.
Proof.
  intros Hl. induction Hl as [|p l Hp _ IH]; cbn; [by intros [= <-]|]. by rewrite bool_decide_eq_false_2.
Qed.

Lemma configurable_take j l n b : configurable l n b = true -> configurable (take j l) n b = true.
Proof.
  unfold configurable. intros [-> H]%andb_prop. destruct (toml b); [|done]. cbn [andb]. rewrite <- (take_drop j l), forallb_app in H.
  by apply andb_prop in H as [? _].
Qed.

Section Settings.
Context (wide_print : Z -> bool).
Notation quote := (Quote wide_print).

(** [configure] as a list of patches. *)
Definition patches (s : settings) : list patch :=
  mkPatch app_toml [] (str "app-db-backend") (quote (dbBackend s)) ::
  match minGasPrices s with [] => [] | g => [mkPatch app_toml [] (str "minimum-gas-prices") (quote g)] end ++
  [mkPatch config_toml (str "statesync") (str "rpc_servers") (quote (commas (rpcs s)));
   mkPatch config_toml (str "statesync") (str "trust_height") (decimal (trustHeight s));
   mkPatch config_toml (str "statesync") (str "trust_hash") (quote (trustHash s));
   mkPatch config_toml (str "statesync") (str "trust_period") (quote (trustPeriod s))] ++
  if forwardPeers s then
    match mergePeers [servedPeers s; bootstrapPeers s] with
    | [] => []
    | merged => [mkPatch config_toml (str "p2p") (str "persistent_peers") (quote (joinPersistentPeers merged))]
    end
  else [].

Lemma configure_patches configDir s m : configure wide_print configDir s m = run_patches configDir (patches s) m.
Proof.
  assert (Hunit : forall (c : M mach unit) m, (c ≫= fun _ => mret tt) m = c m).
  { intros c m'. unfold mbind, M_bind. by destruct (c m') as [[[]| | |] m'']. }
  assert (Hret : forall (k : unit -> M mach unit) m, (mret tt ≫= k) m = k tt m) by done.
  assert (Hext : forall (c : M mach unit) k1 k2, (forall m', (k1 tt : M mach unit) m' = (k2 tt : M mach unit) m') -> forall m', (c ≫= k1) m' = (c ≫= k2) m').
  { intros c k1 k2 Hk m'. unfold mbind, M_bind. destruct (c m') as [[[]| | |] m'']; [apply Hk|done..]. }
  unfold configure, patches. cbn [run_patches pt_file pt_section pt_key pt_raw]. apply Hext. clear m. intros m.
  destruct (minGasPrices s) as [|g0 g]; cbn [app run_patches pt_file pt_section pt_key pt_raw].
  - rewrite Hret. revert m. do 4 apply Hext. intros m. destruct (forwardPeers s); [|done]. destruct (mergePeers _); [done|].
    cbn [run_patches pt_file pt_section pt_key pt_raw]. by rewrite Hunit.
  - revert m. do 5 apply Hext. intros m. destruct (forwardPeers s); [|done]. destruct (mergePeers _); [done|].
    cbn [run_patches pt_file pt_section pt_key pt_raw]. by rewrite Hunit.
Qed.

(** The texts are printable ASCII. *)
Definition merged_peers (s : settings) : list bytes := if forwardPeers s then mergePeers [servedPeers s; bootstrapPeers s] else [].
Definition settings_ok (s : settings) : bool :=
  forallb (forallb printable) [dbBackend s; minGasPrices s; commas (rpcs s); trustHash s; trustPeriod s; commas (merged_peers s)].

Lemma quote_ok v : forallb printable v = true -> raw_ok (quote v) = true.
Proof.
  intros Hv. unfold raw_ok. rewrite Quote_solid. rewrite bool_decide_eq_false_2 by by apply quoted_no_nl.
  rewrite bool_decide_eq_true_2; [done|]. by apply lex_quote.
Qed.

Lemma decimal_ok z : raw_ok (decimal z) = true.
Proof.
  destruct (decimal_graph z) as [Hg Hn]. unfold raw_ok. rewrite graph_solid by done. rewrite bool_decide_eq_false_2.
  - rewrite bool_decide_eq_true_2; [done|]. apply lex_decimal.
  - intros Hin%list_elem_of_In. rewrite forallb_forall in Hg. by apply Hg in Hin.
Qed.

Lemma patches_ok s : settings_ok s = true -> forallb patch_ok (patches s) = true.
Proof.
  unfold settings_ok, patches, merged_peers. cbn [forallb]. rewrite !andb_true_iff. intros (H1 & H2 & H3 & H4 & H5 & H6 & _).
  assert (Hp : forall n sec k v, key_ok k = true -> forallb printable v = true -> patch_ok (mkPatch n sec k (quote v)) = true).
  { intros n sec k v Hk Hv. unfold patch_ok. cbn [pt_key pt_raw]. by rewrite Hk, quote_ok. }
  cbn [forallb]. rewrite !forallb_app. cbn [forallb].
  rewrite !Hp by (done || by vm_compute). unfold patch_ok at 2. cbn [pt_key pt_raw]. rewrite decimal_ok.
  replace (key_ok (str "trust_height")) with true by (vm_compute; reflexivity). cbn [andb].
  assert (Hg : forallb patch_ok match minGasPrices s with [] => [] | g => [mkPatch app_toml [] (str "minimum-gas-prices") (quote g)] end = true).
  { destruct (minGasPrices s); [done|]. cbn [forallb]. by rewrite Hp by (done || by vm_compute). }
  rewrite Hg. cbn [andb]. destruct (forwardPeers s); [|done]. destruct (mergePeers _); [done|].
  cbn [forallb]. by rewrite Hp by (done || by vm_compute).
Qed.

(** To a TOML reader, the key has this string. *)
Definition says (section key value : bytes) (m : table_of_keys) : Prop :=
  exists raw, m !! path_of section key = Some [raw] /\ toml_string raw = Some value.

Record app_says (s : settings) (m : table_of_keys) : Prop := {
  says_backend : says [] (str "app-db-backend") (dbBackend s) m;
  says_gas : minGasPrices s <> [] -> says [] (str "minimum-gas-prices") (minGasPrices s) m
}.
Record config_says (s : settings) (m : table_of_keys) : Prop := {
  says_rpcs : says (str "statesync") (str "rpc_servers") (commas (rpcs s)) m;
  says_height : m !! path_of (str "statesync") (str "trust_height") = Some [decimal (trustHeight s)];
  says_hash : says (str "statesync") (str "trust_hash") (trustHash s) m;
  says_period : says (str "statesync") (str "trust_period") (trustPeriod s) m;
  says_peers : merged_peers s <> [] -> says (str "p2p") (str "persistent_peers") (commas (merged_peers s)) m
}.

(** No key is set twice. *)
Definition all_targets : list (bytes * list bytes) :=
  [(app_toml, path_of [] (str "app-db-backend")); (app_toml, path_of [] (str "minimum-gas-prices"));
   (config_toml, path_of (str "statesync") (str "rpc_servers")); (config_toml, path_of (str "statesync") (str "trust_height"));
   (config_toml, path_of (str "statesync") (str "trust_hash")); (config_toml, path_of (str "statesync") (str "trust_period"));
   (config_toml, path_of (str "p2p") (str "persistent_peers"))].

Lemma patches_targets s : NoDup (map target (patches s)).
Proof.
  apply (sublist_NoDup _ all_targets).
  { apply (bool_decide_eq_true_1 (NoDup all_targets)). vm_compute. reflexivity. }
  unfold patches, all_targets. cbn [map target pt_file pt_section pt_key]. apply sublist_skip.
    rewrite !map_app. destruct (minGasPrices s); cbn [map target pt_file pt_section pt_key app];
      [apply sublist_cons|apply sublist_skip]; do 4 apply sublist_skip;
      (destruct (forwardPeers s); [destruct (mergePeers _)|]); cbn [map target pt_file pt_section pt_key];
      first [apply sublist_skip, sublist_nil_l|apply sublist_nil_l].
Qed.

Lemma patches_files s : Forall (fun p => pt_file p = app_toml \/ pt_file p = config_toml) (patches s).
Proof.
  unfold patches. constructor; [by left|]. apply Forall_app. split; [|apply Forall_app; split].
  - destruct (minGasPrices s); repeat constructor.
  - repeat constructor; by right.
  - destruct (forwardPeers s); [destruct (mergePeers _)|]; repeat constructor; by right.
Qed.

Lemma set_all_other l n k : forall m, (n, k) ∉ map target l -> set_all l n m !! k = m !! k.
Proof.
  induction l as [|q l IH]; intros m; [done|]. cbn [map]. rewrite set_all_cons. intros [Hq Hl]%not_elem_of_cons.
  rewrite (IH _ Hl). case_bool_decide as Hn; [|done]. apply lookup_insert_ne. intros E. apply Hq. unfold target in *. cbn in E.
  by rewrite <- Hn, <- E.
Qed.

Lemma set_all_in l p : forall m, NoDup (map target l) -> p ∈ l -> set_all l (pt_file p) m !! (target p).2 = Some [pt_raw p].
Proof.
  induction l as [|q l IH]; intros m; [by intros _ []%elem_of_nil|]. cbn [map]. rewrite set_all_cons.
  intros [Hq Hnd]%NoDup_cons [->|Hp]%elem_of_cons; [|by apply IH].
  rewrite bool_decide_eq_true_2 by done.
  rewrite set_all_other; [by rewrite lookup_insert_eq|done].
Qed.

Lemma set_patch s n m sec key raw : mkPatch n sec key raw ∈ patches s -> set_all (patches s) n m !! path_of sec key = Some [raw].
Proof. intros Hp. exact (set_all_in _ _ m (patches_targets s) Hp). Qed.

Lemma set_says s n m sec key v : forallb printable v = true -> mkPatch n sec key (quote v) ∈ patches s ->
  says sec key v (set_all (patches s) n m).
Proof. intros Hv Hp. exists (quote v). split; [by apply set_patch|by apply Quote_roundtrip]. Qed.

Lemma reads_app s m : settings_ok s = true -> app_says s (set_all (patches s) app_toml m).
Proof.
  unfold settings_ok. cbn [forallb]. rewrite !andb_true_iff. intros (H1 & H2 & _). constructor.
  - apply set_says; [done|]. unfold patches. by left.
  - intros Hg. apply set_says; [done|]. unfold patches. destruct (minGasPrices s); [done|]. right. by left.
Qed.

Lemma reads_config s m : settings_ok s = true -> config_says s (set_all (patches s) config_toml m).
Proof.
  unfold settings_ok. cbn [forallb]. rewrite !andb_true_iff. intros (_ & _ & H3 & H4 & H5 & H6 & _).
  assert (Hin : forall p, p ∈ [mkPatch config_toml (str "statesync") (str "rpc_servers") (quote (commas (rpcs s)));
     mkPatch config_toml (str "statesync") (str "trust_height") (decimal (trustHeight s));
     mkPatch config_toml (str "statesync") (str "trust_hash") (quote (trustHash s));
     mkPatch config_toml (str "statesync") (str "trust_period") (quote (trustPeriod s))] -> p ∈ patches s).
  { intros p Hp. unfold patches. rewrite elem_of_cons, !elem_of_app. tauto. }
  constructor.
  - apply set_says; [done|]. apply Hin. by left.
  - apply set_patch. apply Hin. right. by left.
  - apply set_says; [done|]. apply Hin. do 2 right. by left.
  - apply set_says; [done|]. apply Hin. do 3 right. by left.
  - intros Hm. apply set_says; [done|]. unfold patches. rewrite elem_of_cons, !elem_of_app.
    do 3 right. unfold merged_peers in *. destruct (forwardPeers s); [|done]. destruct (mergePeers _); [done|]. by left.
Qed.
(** What some of the patches leave reads as those patches say. *)
Lemma patches_read s j n b0 b : settings_ok s = true ->
  (n = app_toml \/ n = config_toml -> configurable (patches s) n b0 = true) ->
  after (take j (patches s)) n b0 = Ret b -> reads_as (take j (patches s)) n b0 b.
Proof.
  intros Hs Hconf Hb. destruct (decide (n = app_toml \/ n = config_toml)) as [Hn|Hn].
  - assert (Hok : forallb patch_ok (take j (patches s)) = true).
    { pose proof (patches_ok s Hs) as Hok. rewrite <- (take_drop j (patches s)), forallb_app in Hok. by apply andb_prop in Hok as [? _]. }
    destruct (after_reads _ _ _ _ Hok (configurable_take j _ _ _ (Hconf Hn)) Hb) as (m0 & E & E').
    unfold reads_as. by rewrite E, E'.
  - assert (Hu : Forall (fun p => pt_file p <> n) (take j (patches s))).
    { apply Forall_take. eapply Forall_impl; [apply patches_files|]. intros p Hp E. subst n. tauto. }
    destruct (untouched _ _ _ _ Hu Hb) as [-> Hid]. unfold reads_as. destruct (toml b0) as [m0|]; [|done]. cbn. by rewrite Hid.
Qed.
End Settings.

(** ** The marker *)

Lemma Atoi_decimal h : 0 < h < 2 ^ 63 -> Streams.Atoi (decimal h) = Some h.
Proof.
  intros Hh. assert (Hd : Streams.digits63 (decimal h) 0 = Some h).
  { unfold decimal. rewrite pretty_nonneg by lia. rewrite (digits_go Streams.digits63 (2 ^ 63)).
    - cbn. f_equal. lia.
    - intros c r acc Hc Hacc. cbn [Streams.digits63].
      rewrite (proj2 (Z.leb_le 0 _)), (proj2 (Z.leb_le _ 9)) by lia. cbn [andb]. by rewrite (proj2 (Z.leb_le _ (2 ^ 63))) by lia.
    - lia.
    - lia. }
  unfold Streams.Atoi. destruct (decimal h) as [|c r] eqn:E; [by destruct (decimal_graph h)|].
  assert (Hc : 48 <= byte.unsigned c).
  { cbn [Streams.digits63] in Hd. destruct (_ && _) eqn:Ec in Hd; [|done]. apply andb_prop in Ec as [Ec%Z.leb_le _]. lia. }
  assert (Hno : forall x, byte.unsigned x < 48 -> Scheduler.has_prefix [x] (c :: r) = false).
  { intros x Hx. unfold Scheduler.has_prefix. cbn. apply bool_decide_eq_false. intros [= ->]. lia. }
  change (str "-") with [byte.of_Z 45]. change (str "+") with [byte.of_Z 43].
  rewrite !Hno by (vm_compute; reflexivity). cbn [orb]. rewrite bool_decide_eq_false_2 by done. rewrite Hd. cbn.
  by rewrite (proj2 (Z.ltb_lt h _)) by lia.
Qed.

Lemma parse_marker_written h : 0 < h < 2 ^ 63 -> parse_marker (decimal h ++ [nl]) = Ret h.
Proof.
  intros Hh. destruct (decimal_graph h) as [Hg Hn]. unfold parse_marker. rewrite TrimSpace_line by by apply graph_solid.
  rewrite bool_decide_eq_false_2, Atoi_decimal by done. by rewrite (proj2 (Z.leb_gt h 0)) by lia.
Qed.

Lemma read_marker c home di raw : resolve c home = Some di -> content c (di, BootstrapHeightMarker) = Some raw ->
  (ReadHeightMarker home (Mach c [] [] [])).1 = parse_marker raw.
Proof.
  intros Hd Hc. unfold ReadHeightMarker.
  pose proof (ReadFile_content c (home ++ [BootstrapHeightMarker]) di BootstrapHeightMarker raw) as H.
  rewrite Dir_snoc, last_snoc in H. specialize (H Hd eq_refl Hc). destruct (ReadFile _ _) as [r m']. cbn in H. by subst r.
Qed.

(** ** Reading without failures

    [looks c f]: when no system call fails, [c] gives [f] of the disk and leaves it
    alone; [still c]: it leaves it alone in any case. *)

Definition looks {A} (c : M mach A) (f : fs -> outcome A) : Prop := forall m, m_faults m = [] ->
  (c m).1 = f (m_disk m) /\ m_disk (c m).2 = m_disk m /\ m_faults (c m).2 = [].
Definition still {A} (c : M mach A) : Prop := forall m, m_disk (c m).2 = m_disk m.

Lemma still_bind {A B} (c : M mach A) (k : A -> M mach B) : still c -> (forall a, still (k a)) -> still (c ≫= k).
Proof.
  intros Hc Hk m. specialize (Hc m). unfold mbind, M_bind. destruct (c m) as [[a|e|w|] m']; cbn in *; [|done..].
  by rewrite Hk.
Qed.

(** What a system call that only reads does, as a [sys] that returns the disk. *)
Lemma reads_disk {A} (call : fs -> outcome A * fs) : (forall d, (call d).2 = d) ->
  looks (sys call) (fun d => (call d).1) /\ still (sys call).
Proof.
  intros Hc. split.
  - intros m Hm. unfold sys. rewrite Hm. specialize (Hc (m_disk m)). by destruct (call (m_disk m)).
  - intros m. unfold sys. specialize (Hc (m_disk m)). by destruct (m_faults m) as [|[e|] fl], (call (m_disk m)).
Qed.

Definition file_at (d : fs) (p : path) : outcome bytes :=
  match resolve d p with
  | None => Err ENOENT
  | Some i => match fs_files d !! i with Some f => Ret (f_data f) | None => Err EISDIR end
  end.

Lemma ReadFile_looks p : looks (ReadFile p) (fun d => file_at d p) /\ still (ReadFile p).
Proof.
  split; intros m; unfold ReadFile, mbind, M_bind, Open, deferred, read, Close, pure_call, sys, file_at.
  - intros Hm. rewrite Hm. destruct (resolve (m_disk m) p) as [i|]; [|done]. cbn. by destruct (fs_files (m_disk m) !! i).
  - destruct (m_faults m) as [|[e|] fl]; cbn; [|done|]; destruct (resolve (m_disk m) p) as [i|]; cbn; try done.
    + by destruct (fs_files (m_disk m) !! i).
    + destruct fl as [|[e|] fl]; cbn; [by destruct (fs_files (m_disk m) !! i)| |].
      * by destruct fl as [|[]].
      * destruct (fs_files (m_disk m) !! i); cbn; by destruct fl as [|[]].
Qed.

(** ** The guards of a healing *)

(** The height of the marker or of the flag; both must agree when there are two. *)
Definition heal_height (marker : outcome bytes) (flagHeight : Z) : option Z :=
  match raw ← marker; parse_marker raw with
  | Ret h => if (flagHeight =? 0) || (flagHeight =? h) then Some h else None
  | _ => if flagHeight =? 0 then None else Some flagHeight
  end.

(** There are tables in the block store. *)
Definition has_tables (d : fs) (p : path) : bool :=
  match resolve d p with
  | Some i => is_dir d i && existsb (ends_with (str ".sst")) (entries_of d i)
  | None => false
  end.

Lemma resolve_height_looks home flag : still (resolveHealHeight home flag) /\
  forall m, m_faults m = [] -> m_faults (resolveHealHeight home flag m).2 = [] /\
    forall h, (resolveHealHeight home flag m).1 = Ret h <->
      heal_height (file_at (m_disk m) (home ++ [BootstrapHeightMarker])) flag = Some h.
Proof.
  destruct (ReadFile_looks (home ++ [BootstrapHeightMarker])) as [Hl Hs]. split.
  - intros m. unfold resolveHealHeight, ReadHeightMarker. specialize (Hs m). destruct (ReadFile _ m) as [[raw|e|w|] m']; cbn in *; [|done..].
    by destruct (parse_marker raw).
  - intros m Hm. destruct (Hl m Hm) as (H1 & H2 & H3). unfold resolveHealHeight, ReadHeightMarker, heal_height.
    rewrite <- H1. destruct (ReadFile _ m) as [[raw|e|w|] m']; cbn in *.
    + destruct (parse_marker raw) as [hm| | |] eqn:E; cbn; (split; [done|]); intros h.
      * destruct (flag =? 0), (flag =? hm); cbn; naive_solver.
      * destruct (flag =? 0); cbn; naive_solver.
      * exfalso. revert E. unfold parse_marker. case_bool_decide; [done|]. destruct (Streams.Atoi _); [|done]. by case_match.
      * exfalso. revert E. unfold parse_marker. case_bool_decide; [done|]. destruct (Streams.Atoi _); [|done]. by case_match.
    + split; [done|]. intros h. destruct (flag =? 0); cbn; naive_solver.
    + unfold file_at in H1. by repeat case_match.
    + unfold file_at in H1. by repeat case_match.
Qed.

Lemma populated_looks p : still (blockstoreLooksPopulated p) /\
  looks (blockstoreLooksPopulated p) (fun d => Ret (has_tables d (p ++ [str "blockstore.db"]))).
Proof.
  unfold blockstoreLooksPopulated. set (q := p ++ [str "blockstore.db"]).
  destruct (reads_disk (fun d => match resolve d q with
    | None => (Err ENOENT, d)
    | Some i => (if is_dir d i then Ret (merge_sort bytes_le (entries_of d i)) else Err ENOTDIR, d)
    end)) as [Hl Hs]; [intros d; by destruct (resolve d q)|].
  fold (readDirNames q) in Hl, Hs. split.
  - apply still_bind; [|done]. intros m. specialize (Hs m). unfold attempt. by destruct (readDirNames q m) as [[| | |] m'].
  - intros m Hm. destruct (Hl m Hm) as (H1 & H2 & H3). unfold mbind, M_bind, attempt, has_tables. clear Hl Hs.
    destruct (readDirNames q m) as [r m']. cbn [fst snd] in *. subst r.
    destruct (resolve (m_disk m) q) as [i|]; [|done]. cbn [fst]. destruct (is_dir (m_disk m) i); [|done]. cbn. split; [|done].
    f_equal. apply eq_true_iff_eq. rewrite !existsb_exists. split; intros (x & Hx & Hsst); exists x; (split; [|done]);
      apply list_elem_of_In; apply list_elem_of_In in Hx; first [by rewrite merge_sort_Permutation in Hx|by rewrite merge_sort_Permutation].
Qed.

Lemma or_exit_still {A} code (c : M mach A) : still c -> still (or_exit code c).
Proof. intros Hc m. specialize (Hc m). unfold or_exit. by destruct (c m) as [[| | |] m']. Qed.

Lemma Lstat_looks p : still (Lstat p) /\ forall m, m_faults m = [] ->
  m_disk (Lstat p m).2 = m_disk m /\ m_faults (Lstat p m).2 = [] /\
  match resolve (m_disk m) p with Some _ => exists a, (Lstat p m).1 = Ret a | None => exists e, (Lstat p m).1 = Err e end.
Proof.
  split.
  - intros m. unfold Lstat, sys. destruct (m_faults m) as [|[e|] fl]; [|done|]; by destruct (resolve (m_disk m) p).
  - intros m Hm. unfold Lstat, sys. rewrite Hm. destruct (resolve (m_disk m) p); eauto.
Qed.

Lemma heal_plan_still e : quiet (h_probe e) -> still (heal_plan e).
Proof.
  intros Hq. unfold heal_plan. destruct (h_home e) as [|n home]; [done|].
  repeat (apply still_bind; [apply or_exit_still|intros ?]).
  - apply Lstat_looks.
  - apply resolve_height_looks.
  - done.
  - apply still_bind; [apply populated_looks|]. intros b m. by destruct (b && negb (h_force e)).
Qed.

(** ** Properties *)

(** C23: [configure], the part of [run] that writes app.toml and config.toml, is safe
    and complete, for settings of printable ASCII and files that are plain: TOML
    without a comment after a table header, without arrays of tables, quoted keys or strings
    over several lines, without inner lines of a value that have an equals sign or are
    between brackets, and in which the keys to set have values of one line.  If the
    power goes while it runs, every file of the directory is as it could have been
    before, or reads as before with some of the patches, in order, on top; and when it
    has returned nil, then after any crash app.toml and config.toml read as before
    with the settings on top, each in its table, and every other key as it was.  The
    reading is that of a TOML reader of its own, Toml.toml. *)
Theorem configure_survives wide_print configDir di s m d c :
  wf (m_disk m) -> resolve (m_disk m) configDir = Some di -> di ∈ fs_dirs (m_disk m) -> settings_ok s = true ->
  (forall n b0, n = app_toml \/ n = config_toml -> content (m_disk m) (di, n) = Some b0 ->
    configurable (patches wide_print s) n b0 = true) ->
  let '(r, m') := configure wide_print configDir s m in
  during m m' d -> crash d c ->
  (forall n, ~ is_tmp n ->
    left_at (m_disk m) (di, n) (content c (di, n)) \/
    exists b0 b j, content (m_disk m) (di, n) = Some b0 /\ content c (di, n) = Some b /\
      reads_as (take j (patches wide_print s)) n b0 b) /\
  (r = Ret tt -> d = m_disk m' ->
    exists app0 app cfg0 cfg app_m cfg_m,
      content (m_disk m) (di, app_toml) = Some app0 /\ content c (di, app_toml) = Some app /\
      content (m_disk m) (di, config_toml) = Some cfg0 /\ content c (di, config_toml) = Some cfg /\
      toml app = Some app_m /\ app_says s app_m /\ toml cfg = Some cfg_m /\ config_says s cfg_m /\
      reads_as (patches wide_print s) app_toml app0 app /\ reads_as (patches wide_print s) config_toml cfg0 cfg).
Proof.
  intros Hwf Hdir Hdi Hs Hconf. set (all := patches wide_print s) in *.
  assert (Hf : forall p, p ∈ all -> ~ is_tmp (pt_file p)).
  { assert (Ha : ~ is_tmp app_toml /\ ~ is_tmp config_toml) by (split; intros [x E]; discriminate E).
    intros p Hp. assert (Hpf : pt_file p = app_toml \/ pt_file p = config_toml); [|destruct Hpf as [-> | ->]; apply Ha].
    pose proof (patches_files wide_print s) as Hall. rewrite Forall_forall in Hall. by apply Hall. }
  pose proof (run_patches_spec configDir di (m_disk m) all Hwf Hdir Hdi Hf all [] eq_refl) as H.
  pose proof (at_step_start configDir di (m_disk m) Hwf Hdir) as H0.
  pose proof (tracked_partly configDir di (m_disk m) all Hwf [] _ (prefix_nil _) H0) as HI.
  pose proof (triple_during _ _ _ _ _ m d H H0 HI) as Hd. destruct (H m H0 HI) as [Hr _].
  rewrite configure_patches. fold all. destruct (run_patches configDir all m) as [r m']. cbn [fst snd] in *.
  pose proof (patches_ok wide_print s Hs) as Hok. fold all in Hok.
  intros Hdur Hc. split.
  - intros n Hn. destruct (Hd Hdur c n Hc Hn) as [?|(b0 & b & j & Hb0 & Hb & Hcb)]; [by left|right].
    exists b0, b, j. split; [done|]. split; [done|]. apply patches_read; [done|intros Hfile; by apply Hconf|done].
  - intros -> ->. destruct (patched_survives _ _ _ _ _ c app_toml Hr Hc) as (app0 & app & Ha0 & Ha & Hca); [by intros [x E]| |].
    { exists (mkPatch app_toml [] (str "app-db-backend") (Quote wide_print (dbBackend s))). split; [|done].
      unfold all, patches. by left. }
    destruct (patched_survives _ _ _ _ _ c config_toml Hr Hc) as (cfg0 & cfg & Hc0 & Hcf & Hcc); [by intros [x E]| |].
    { exists (mkPatch config_toml (str "statesync") (str "trust_height") (decimal (trustHeight s))). split; [|done].
      unfold all, patches. rewrite elem_of_cons, !elem_of_app. right. right. left. right. by left. }
    destruct (after_reads _ _ _ _ Hok (Hconf _ _ (or_introl eq_refl) Ha0) Ha) as (ma & Ema & Ema').
    destruct (after_reads _ _ _ _ Hok (Hconf _ _ (or_intror eq_refl) Hc0) Hcf) as (mc & Emc & Emc').
    exists app0, app, cfg0, cfg, (set_all all app_toml ma), (set_all all config_toml mc). unfold reads_as.
    rewrite Ema, Ema', Emc, Emc'. split_and!; try done; [by apply reads_app|by apply reads_config].
Qed.

(** The marker survives a crash: if the power goes while it is written, the next
    reading finds what it could have found before, or the height; and after a write
    that returned nil it finds the height. *)
Theorem marker_survives home di h m d c : 0 < h < 2 ^ 63 ->
  wf (m_disk m) -> resolve (m_disk m) home = Some di -> di ∈ fs_dirs (m_disk m) ->
  let '(r, m') := WriteHeightMarker home h m in
  during m m' d -> crash d c -> resolve c home = Some di ->
  let found := (ReadHeightMarker home (Mach c [] [] [])).1 in
  (found = Ret h \/ left_at (m_disk m) (di, BootstrapHeightMarker) (content c (di, BootstrapHeightMarker))) /\
  (r = Ret tt -> d = m_disk m' -> found = Ret h).
Proof.
  intros Hh Hwf Hd Hdi. set (p := home ++ [BootstrapHeightMarker]). set (src := mkSource [decimal h ++ [nl]] None).
  assert (HD : resolve (m_disk m) (Dir p) = Some di) by (unfold p; by rewrite Dir_snoc).
  assert (HL : last p = Some BootstrapHeightMarker) by apply last_snoc.
  pose proof (triple_wrap _ _ "write marker" _ _ _ (WriteFileFrom_spec _ Hwf p di _ src 420 HD Hdi HL)) as H.
  pose proof (start_under_way _ Hwf p di BootstrapHeightMarker src 420 HD) as H0.
  change (wrap_err _ (WriteFileFrom p src 420)) with (WriteHeightMarker home h) in H.
  pose proof (triple_during _ _ _ _ _ m d H eq_refl H0) as Hdur. destruct (H m eq_refl H0) as [Hr _].
  destruct (WriteHeightMarker home h m) as [r m']. cbn [fst snd] in *. intros Hdd Hc Hres.
  assert (Hfound : content c (di, BootstrapHeightMarker) = Some (decimal h ++ [nl]) ->
    (ReadHeightMarker home (Mach c [] [] [])).1 = Ret h).
  { intros Hcc. by rewrite (read_marker c home di _ Hres Hcc), parse_marker_written. }
  split.
  - destruct (under_way_left _ _ _ _ _ _ _ _ (di, BootstrapHeightMarker) Hwf (Hdur Hdd) Hc (or_intror eq_refl)) as [?|(_ & _ & Hcc)];
      [by right|left]. apply Hfound. cbn in Hcc. by rewrite app_nil_r in Hcc.
  - intros -> ->. destruct Hr as (_ & i & _ & Hf & Hhist). apply Hfound.
    rewrite (crash_content _ _ _ _ _ Hc Hhist Hf); [|done]. cbn. by rewrite app_nil_r.
Qed.

(** Heal removes nothing it was not told to: its guards leave the disk alone,
    and a run they stop or that was not confirmed leaves it alone too, whatever
    fails; and when no system call fails, they let a height through exactly when the
    home has a genesis file, the height is the one of the marker or of the flag and
    they do not disagree, the chain binary is there, the block store has no tables or
    the operator insists, and the operator has confirmed. *)
Theorem heal_guarded e m : quiet (h_probe e) ->
  m_disk (heal_plan e m).2 = m_disk m /\
  ((forall h, (heal_plan e m).1 <> Ret (Some h)) -> m_disk (runHeal e m).2 = m_disk m) /\
  (m_faults m = [] -> forall h, (heal_plan e m).1 = Ret (Some h) <->
    h_home e <> [] /\ is_Some (resolve (m_disk m) (h_home e ++ [str "config"; str "genesis.json"])) /\
    heal_height (file_at (m_disk m) (h_home e ++ [BootstrapHeightMarker])) (h_heightFlag e) = Some h /\
    h_probe e = Ret tt /\
    (has_tables (m_disk m) (dataDir e ++ [str "blockstore.db"]) = false \/ h_force e = true) /\ h_yes e = true).
Proof.
  intros Hq. pose proof (heal_plan_still e Hq m) as Hs. split; [done|]. split.
  - intros Hno. unfold runHeal, mbind, M_bind. destruct (heal_plan e m) as [[[h|]|x|w|] m']; cbn in *; [|done..]. by destruct (Hno h).
  - intros Hm h. clear Hs. unfold heal_plan. destruct (h_home e) as [|n0 home0] eqn:Eh; [naive_solver|]. rewrite <- Eh.
    unfold mbind at 1, M_bind at 1, or_exit at 1.
    destruct (proj2 (Lstat_looks (h_home e ++ [str "config"; str "genesis.json"])) m Hm) as (E1 & F1 & R1).
    destruct (Lstat _ m) as [r1 m1]. cbn [fst snd] in *.
    destruct (resolve (m_disk m) _) as [g|]; [destruct R1 as [a ->]|destruct R1 as [x ->]; naive_solver].
    unfold mbind at 1, M_bind at 1, or_exit at 1.
    destruct (proj2 (resolve_height_looks (h_home e) (h_heightFlag e)) m1 F1) as (F2 & R2).
    pose proof (proj1 (resolve_height_looks (h_home e) (h_heightFlag e)) m1) as E2.
    destruct (resolveHealHeight _ _ m1) as [r2 m2]. cbn [fst snd] in *. rewrite E1 in *.
    destruct r2 as [h2|x|w|]; [|by split; [done|intros (_ & _ & Hh & _); apply R2 in Hh]..].
    assert (Eh2 : heal_height (file_at (m_disk m) (h_home e ++ [BootstrapHeightMarker])) (h_heightFlag e) = Some h2) by by apply R2.
    rewrite Eh2. clear R2. unfold mbind at 1, M_bind at 1, or_exit, lift.
    destruct (h_probe e) as [[]|x|w|]; [|naive_solver|done..].
    unfold mbind at 1, M_bind at 1. destruct (proj2 (populated_looks (dataDir e)) m2 F2) as (R3 & _ & _).
    destruct (blockstoreLooksPopulated _ m2) as [r3 m3]. cbn [fst] in R3. subst r3. rewrite E2.
    assert (Hn : h_home e <> []) by by rewrite Eh.
    destruct (has_tables _ _), (h_force e), (h_yes e); cbn; naive_solver.
Qed.

(** ** A concrete home *)

Definition lines_of (l : list string) : bytes := join (map str l).

Definition sample_app : bytes := lines_of
  ["# The type of database."; "app-db-backend = ''"; "minimum-gas-prices = '0stake'"; ""; "[api]"; "enable = false"].
Definition sample_config : bytes := lines_of
  ["moniker = 'm'"; "[p2p]"; "  persistent_peers = ''"; "[statesync]"; "enable = false"; "rpc_servers = ''";
   "trust_height = 0 # no trust"; "trust_hash = ''"; "trust_period = '168h0m0s'"; "[mempool] "; "wal = ["; "  'a#b',"; "]"]%string.

Definition sample_settings : settings :=
  mkSettings (str "pebbledb") (str "0.025uatom") [str "https://a:443"; str "https://b:443"] 31026000 (str "ABCD12")
    (str "336h0m0s") true [str "id1@1.2.3.4:26656"] [str "id2@h:1"; str "id1@5.6.7.8:1"].

Definition home_disk : fs :=
  mkFs (list_to_map [(2, mkFile sample_app [420] true); (3, mkFile sample_config [420] true)]) {[0; 1]}
    (list_to_map [((0, str "config"), [Some 1]); ((1, app_toml), [Some 2]); ((1, config_toml), [Some 3])]) 4.

Definition ascii_only (r : Z) : bool := false.
Definition sample_configure : outcome unit * mach :=
  configure ascii_only [str "config"] sample_settings (Mach home_disk [] [] (seqZ 1 10)).

Lemma sample_plain n b0 : n = app_toml \/ n = config_toml -> content home_disk (1, n) = Some b0 ->
  configurable (patches ascii_only sample_settings) n b0 = true.
Proof. intros [-> | ->] [= <-]; vm_compute; reflexivity. Qed.

Lemma configure_survives_witness : exists cfg m,
  content (crash_pick keep_all (m_disk sample_configure.2)) (1, config_toml) = Some cfg /\ toml cfg = Some m /\
  says (str "statesync") (str "rpc_servers") (str "https://a:443,https://b:443") m /\
  m !! [str "statesync"; str "enable"] = Some [str "false"].
Proof.
  pose proof (fun d c => configure_survives ascii_only [str "config"] 1 sample_settings (Mach home_disk [] [] (seqZ 1 10)) d c
    (wfb_wf home_disk ltac:(vm_compute; reflexivity)) eq_refl ltac:(cbn; set_solver) ltac:(vm_compute; reflexivity) sample_plain) as H.
  assert (Hr : sample_configure.1 = Ret tt) by (vm_compute; reflexivity).
  assert (Hwf : wfb (m_disk sample_configure.2) = true) by (vm_compute; reflexivity).
  assert (Hen : ((set_all (patches ascii_only sample_settings) config_toml <$> toml sample_config) ≫= lookup [str "statesync"; str "enable"])
    = Some [str "false"]) by (vm_compute; reflexivity).
  unfold sample_configure in *. destruct (configure _ _ _ _) as [r m']. cbn [fst snd] in *.
  destruct (H (m_disk m') _ (or_introl eq_refl) (keep_all_ok _ (wfb_wf _ Hwf))) as [_ H'].
  destruct (H' Hr eq_refl) as (app0 & app & cfg0 & cfg & am & cm & _ & _ & Hc0 & Hc & _ & _ & Hcm & Hsays & _ & Hreads).
  exists cfg, cm. split; [exact Hc|]. split; [exact Hcm|]. split; [exact (says_rpcs _ _ Hsays)|].
  assert (Hcfg : cfg0 = sample_config) by exact (Some_inj _ _ (eq_sym Hc0)).
  rewrite Hcfg in Hreads. unfold reads_as in Hreads. rewrite <- Hreads, Hcm in Hen. exact Hen.
Defined.

(** A home whose first start failed: no tables, the marker says 5.  Heal removes the
    state, the chain binary makes it anew, and the marker is there again. *)
Definition heal_disk : fs :=
  mkFs (list_to_map [(4, mkFile (str "{}") [420] true); (5, mkFile (str "x") [420] true);
                     (6, mkFile (str "5" ++ [nl]) [420] true)]) {[0; 1; 2; 3; 7]}
    (list_to_map [((0, str "home"), [Some 1]); ((1, str "config"), [Some 2]); ((1, str "data"), [Some 3]);
                  ((2, str "genesis.json"), [Some 4]); ((3, str "state.db"), [Some 7]); ((7, str "MANIFEST"), [Some 5]);
                  ((1, BootstrapHeightMarker), [Some 6])]) 8.
Definition sample_heal (yes : bool) : heal_env := mkHeal [str "home"] 0 yes false (Ret tt) (fun d => (Ret tt, d)) 3.
Definition heal_machine : mach := Mach heal_disk [] [] [1; 2; 3].

Example heal_runs :
  let '(r, m) := runHeal (sample_heal true) heal_machine in
  r = Ret tt /\ resolve (m_disk m) [str "home"; str "data"; str "state.db"] = None /\
  file_at (m_disk m) [str "home"; BootstrapHeightMarker] = Ret (str "5" ++ [nl]).
Proof. vm_compute. done. Qed.

Lemma heal_guarded_witness : m_disk (runHeal (sample_heal false) heal_machine).2 = heal_disk /\
  (heal_plan (sample_heal true) heal_machine).1 = Ret (Some 5).
Proof.
  split.
  - apply (proj1 (proj2 (heal_guarded (sample_heal false) heal_machine I))). intros h. vm_compute. discriminate.
  - apply (proj2 (proj2 (heal_guarded (sample_heal true) heal_machine I)) eq_refl). split; [discriminate|].
    split; [by exists 4|]. split; [vm_compute; reflexivity|]. split; [done|]. split; [left; vm_compute; reflexivity|done].
Defined.

Lemma marker_survives_witness :
  (ReadHeightMarker [str "home"]
     (Mach (crash_pick keep_all (m_disk (WriteHeightMarker [str "home"] 31026000 heal_machine).2)) [] [] [])).1 = Ret 31026000.
Proof.
  pose proof (fun d c => marker_survives [str "home"] 1 31026000 heal_machine d c ltac:(lia)
    (wfb_wf heal_disk ltac:(vm_compute; reflexivity)) eq_refl ltac:(cbn; set_solver)) as H.
  assert (Hr : (WriteHeightMarker [str "home"] 31026000 heal_machine).1 = Ret tt) by (vm_compute; reflexivity).
  assert (Hwf : wfb (m_disk (WriteHeightMarker [str "home"] 31026000 heal_machine).2) = true) by (vm_compute; reflexivity).
  assert (Hd : resolve (crash_pick keep_all (m_disk (WriteHeightMarker [str "home"] 31026000 heal_machine).2)) [str "home"] = Some 1)
    by (vm_compute; reflexivity).
  destruct (WriteHeightMarker _ _ heal_machine) as [r m']. cbn [fst snd] in *.
  exact (proj2 (H (m_disk m') _ (or_introl eq_refl) (keep_all_ok _ (wfb_wf _ Hwf)) Hd) Hr eq_refl).
Defined.

(** [ErrNoMarker] is there to tell a missing marker from one that is unreadable; with
    --height given, an unreadable one is passed over. *)
Theorem unreadable_marker_passed_over : heal_height (Ret (str "31O26000")) 7 = Some 7.
Proof. vm_compute. reflexivity. Qed.

(** The comment at the top of tomlpatch.go says that an inline comment is kept. *)
Theorem comment_lost :
  patch_body [] (str "pruning") (str "'nothing'") (lines_of ["pruning = 'default' # keep me"]) = Ret (lines_of ["pruning = 'nothing'"]).
Proof. vm_compute. reflexivity. Qed.

(** A header with a comment after it is no header to the patcher: the key of the
    section is not found, and the key of the section before it is set here. *)
Theorem commented_header_missed :
  let body := lines_of ["[rpc]"; "port = 1"; "[statesync] # light client"; "trust_height = 0"] in
  patch_body (str "statesync") (str "trust_height") (str "7") body = Err (Errorf "key not found in section") /\
  exists body', patch_body (str "rpc") (str "trust_height") (str "7") body = Ret body' /\
    (toml body' ≫= lookup [str "rpc"; str "trust_height"]) = None /\
    (toml body' ≫= lookup [str "statesync"; str "trust_height"]) = Some [str "7"].
Proof. split; [vm_compute; reflexivity|]. eexists. split; [vm_compute; reflexivity|]. split; vm_compute; reflexivity. Qed.

(** The comment in [patchTOMLKey] says that arrays of tables are not written into.
    The keys of such a table are taken for keys of the table before it. *)
Theorem array_table_written :
  let body := lines_of ["[statesync]"; "[[peers]]"; "trust_height = 0"] in
  exists body', patch_body (str "statesync") (str "trust_height") (str "7") body = Ret body' /\
    (toml body' ≫= lookup [str "statesync"; str "trust_height"]) = None /\
    (toml body' ≫= lookup [str "peers"; str "0"; str "trust_height"]) = Some [str "7"].
Proof. eexists. split; [vm_compute; reflexivity|]. split; vm_compute; reflexivity. Qed.

(** The escapes of Go are not all escapes of TOML. *)
Theorem go_quote_not_toml wide_print :
  Quote wide_print [byte.of_Z 7] = chars [34] ++ str "\a" ++ chars [34] /\
  toml_string (Quote wide_print [byte.of_Z 7]) = None.
Proof. vm_compute. done. Qed.
