(* ===== verification/Inspect.v ===== *)
(** * Snapshot inspection (internal/snapshotinspect/inspect.go)

    [Inspect] reads a snapshot directory once and counts: items and bytes per store,
    payloads and bytes per extension, totals, items of an unknown kind.  The main
    theorem: for a snapshot as [DiffEquiv] describes them the counts are exact. *)

From S2P Require Import Prelude Varint SnapProto DiffSync Diff DiffProof DiffApply DiffExt DiffEquiv.
From S2P Require Streams.

Local Open Scope Z_scope.

(** The human-readable sizes of the code are functions of the byte counts. *)
Record StoreInfo := mkSI { si_Name : bytes; si_Items : Z; si_Bytes : Z }.
Record ExtensionInfo := mkEI { ei_Name : bytes; ei_Format : Z; ei_Payloads : Z; ei_Bytes : Z }.
Record Result := mkRes {
  r_Stores : list StoreInfo;
  r_Extensions : list ExtensionInfo;
  r_TotalItems : Z;
  r_DecompressedBytes : Z;
  r_UnknownItemTags : gmap Z Z
}.

(** [curStore] and [curExt] are nil or point to the last entry of their list. *)
Inductive cursor := NoCur | CurStore | CurExt.

Definition on_last {A} (f : A -> A) (l : list A) : list A :=
  match last l with None => l | Some a => removelast l ++ [f a] end.

Definition count_item (n : Z) (si : StoreInfo) : StoreInfo :=
  mkSI (si_Name si) (u64 (si_Items si + 1)) (u64 (si_Bytes si + n)).
Definition count_payload (n : Z) (ei : ExtensionInfo) : ExtensionInfo :=
  mkEI (ei_Name ei) (ei_Format ei) (u64 (ei_Payloads ei + 1)) (u64 (ei_Bytes ei + n)).

Definition uvarintSize (x : Z) : Z := len (PutUvarint x).

(** The sub-message both parsers open: its length, then its bytes. *)
Definition inner_of (buf : bytes) : outcome (option bytes) :=
  let '(innerLen, n) := Uvarint buf in
  if (n <=? 0) || (len buf - n <? i64 innerLen) then Ret None
  else inner ← go_slice buf n (i64 (n + i64 innerLen)); Ret (Some inner).

(** What follows is, line by line, [parseStoreName] and [parseExtMeta] of
    internal/snapshotdiff/diff.go on the sub-message. *)
Definition storeNameOf (buf : bytes) : outcome bytes :=
  inner ← inner_of buf;
  match inner with None => Ret [] | Some inner => parseStoreName inner end.

Definition extMetaOf (buf : bytes) : outcome (bytes * Z) :=
  inner ← inner_of buf;
  match inner with None => Ret ([], 0) | Some inner => parseExtMeta inner end.

Definition inspect_item (st : Result * cursor) (buf : bytes) : outcome (Result * cursor) :=
  let '(res, cur) := st in
  let size := u64 (len buf + uvarintSize (len buf)) in
  let total := u64 (r_TotalItems res + 1) in
  let all := u64 (r_DecompressedBytes res + size) in
  let with_lists ss es := mkRes ss es total all (r_UnknownItemTags res) in
  tag ← go_index buf 0;
  let fieldNum := Z.shiftr (byte.unsigned tag) 3 in
  if fieldNum =? 1 then
    rest ← go_from buf 1;
    name ← storeNameOf rest;
    Ret (with_lists (r_Stores res ++ [mkSI name 0 0]) (r_Extensions res), CurStore)
  else if fieldNum =? 2 then
    Ret (with_lists (match cur with CurStore => on_last (count_item size) (r_Stores res) | _ => r_Stores res end)
           (r_Extensions res), cur)
  else if fieldNum =? 3 then
    rest ← go_from buf 1;
    '(name, format) ← extMetaOf rest;
    Ret (with_lists (r_Stores res) (r_Extensions res ++ [mkEI name format 0 0]), CurExt)
  else if fieldNum =? 4 then
    Ret (with_lists (r_Stores res)
           (match cur with CurExt => on_last (count_payload size) (r_Extensions res) | _ => r_Extensions res end), cur)
  else
    Ret (mkRes (r_Stores res) (r_Extensions res) total all
           (<[fieldNum := u64 (default 0 (r_UnknownItemTags res !! fieldNum) + 1)]> (r_UnknownItemTags res)), cur).

Definition pure {A} (o : outcome A) : M source A := fun s => (o, s).

Fixpoint inspect_loop (fuel : nat) (st : Result * cursor) : M source Result :=
  match fuel with
  | O => fun s => (NoFuel, s)
  | S fuel => fun s =>
      match ReadUvarint s with
      | (Ret length, s1) =>
          (if length =? 0 then inspect_loop fuel st
           else
             go_make length;;
             buf ← wrap_err "read item" (ReadFull length);
             st ← pure (inspect_item st buf);
             inspect_loop fuel st) s1
      | (Err EOF, s1) => (Ret st.1, s1)
      | (Err e, s1) => (Err (Wrapf "read item length" e), s1)
      | (Panic w, s1) => (Panic w, s1)
      | (NoFuel, s1) => (NoFuel, s1)
      end
  end.

Definition no_result : Result := mkRes [] [] 0 0 ∅.

Definition Inspect `{Zlib} (d : dir) : outcome Result :=
  let chunks := Streams.listChunks (merge_sort bytes_le (map fst (map_to_list d))) in
  if bool_decide (chunks = []) then Err (Errorf "no chunk files found") else
  files ← open_files d chunks;
  s ← wrap_out "zlib reader" (inflate (concat files));
  (inspect_loop (S (length (src_data s))) (no_result, NoCur) s).1.

(** ** Items *)

Fixpoint inspect_items (l : list (Z * bytes)) (st : Result * cursor) : outcome (Result * cursor) :=
  match l with
  | [] => Ret st
  | it :: l => st ← inspect_item st (env it); inspect_items l st
  end.

Lemma inspect_items_app l1 l2 st : inspect_items (l1 ++ l2) st = (st ← inspect_items l1 st; inspect_items l2 st).
Proof.
  revert st. induction l1 as [|it l1 IH]; intros st; cbn [inspect_items app]; [done|].
  destruct (inspect_item st (env it)); cbn; [apply IH|done..].
Qed.

Lemma inspect_loop_items l : forall fuel st st', Forall env_ok l -> (length l < fuel)%nat ->
  inspect_items l st = Ret st' ->
  inspect_loop fuel st (Source (frames (map env l)) EOF) = (Ret st'.1, Source [] EOF).
Proof.
  induction l as [|it l IH]; intros [|fuel] st st' Hok Hf E; cbn in Hf; try lia; cbn [inspect_loop inspect_items map frames concat] in *.
  - by injection E as <-.
  - apply Forall_cons in Hok as [Hit Hok]. pose proof (env_fits it Hit) as Hfit.
    unfold frames. cbn [map concat]. unfold frame at 1. rewrite <- app_assoc.
    rewrite ReadUvarint_PutUvarint by (by apply fits_u64). destruct Hfit as [H0 Hm].
    destruct (Z.eqb_spec (len (env it)) 0); [lia|]. unfold go_make, mbind, M_bind, pure, wrap_err.
    destruct (Z.ltb_spec maxAlloc (len (env it))); [lia|]. unfold mret, M_ret. rewrite ReadFull_app.
    destruct (inspect_item st (env it)) as [st1| | |]; cbn in E; [|done..]. by apply IH; [|lia|].
Qed.

Definition item_bytes (it : Z * bytes) : Z := len (frame (env it)).
Definition bytes_of (l : list (Z * bytes)) : Z := len (frames (map env l)).

Lemma bytes_of_cons it l : bytes_of (it :: l) = item_bytes it + bytes_of l.
Proof. unfold bytes_of, item_bytes, frames. cbn [map concat]. apply len_app. Qed.

Lemma bytes_of_app l1 l2 : bytes_of (l1 ++ l2) = bytes_of l1 + bytes_of l2.
Proof. induction l1 as [|it l1 IH]; [done|]. cbn [app]. rewrite !bytes_of_cons, IH. lia. Qed.

Lemma item_size it : env_ok it -> u64 (len (env it) + uvarintSize (len (env it))) = item_bytes it.
Proof.
  intros [_ Hl]. unfold item_bytes, frame, uvarintSize. rewrite len_app. unfold maxAlloc in Hl.
  pose proof (len_nonneg (env it)). pose proof (len_PutUvarint (len (env it)) ltac:(lia)). rewrite u64_small; lia.
Qed.

Lemma on_last_snoc {A} (f : A -> A) l a : on_last f (l ++ [a]) = l ++ [f a].
Proof. unfold on_last. by rewrite last_snoc, removelast_last. Qed.

Lemma inner_of_env t b : env_ok (t, b) -> exists rest, go_from (env (t, b)) 1 = Ret rest /\ inner_of rest = Ret (Some b).
Proof.
  intros Hok. pose proof (env_body_small _ Hok) as Hb. destruct Hok as [Ht _]. cbn [fst snd] in *. rewrite env_eq by done.
  pose proof (len_nonneg b). pose proof (len_PutUvarint (len b) ltac:(lia)).
  exists (PutUvarint (len b) ++ b). split; [by apply (go_from_split _ [byte.of_Z (t * 8 + 2)])|].
  unfold inner_of. rewrite <- (app_nil_r b) at 2. rewrite Uvarint_PutUvarint by lia.
  rewrite !i64_small by (try rewrite i64_small; lia).
  destruct (Z.leb_spec (len (PutUvarint (len b))) 0); [lia|]. cbn [orb].
  destruct (Z.ltb_spec (len (PutUvarint (len b) ++ b) - len (PutUvarint (len b))) (len b)); [rewrite len_app in *; lia|].
  rewrite (go_slice_split _ (PutUvarint (len b)) b []) by (rewrite ?app_nil_r; len_simpl; done || lia). done.
Qed.

Lemma inspect_tag t b : env_ok (t, b) -> exists c, go_index (env (t, b)) 0 = Ret c /\ Z.shiftr (byte.unsigned c) 3 = t.
Proof. intros Hok. destruct (env_parts t b Hok) as (H1 & H2 & _). by eexists. Qed.

(** The counts so far, when nothing wraps. *)
Section Counts.
Context (ss : list StoreInfo) (es : list ExtensionInfo).

Definition at_store si n b : Result * cursor := (mkRes (ss ++ [si]) es n b ∅, CurStore).
Definition at_ext ei n b : Result * cursor := (mkRes ss (es ++ [ei]) n b ∅, CurExt).

Lemma inspect_records recs : forall name k sz n b, Forall env_ok (map rec_item recs) ->
  0 <= k -> 0 <= sz -> 0 <= n -> 0 <= b -> k <= n -> sz <= b ->
  n + len recs < 2 ^ 64 -> b + bytes_of (map rec_item recs) < 2 ^ 64 ->
  inspect_items (map rec_item recs) (at_store (mkSI name k sz) n b) =
  Ret (at_store (mkSI name (k + len recs) (sz + bytes_of (map rec_item recs))) (n + len recs) (b + bytes_of (map rec_item recs))).
Proof using.
  induction recs as [|r recs IH]; intros name k sz n b Hok Hk Hsz Hn Hb Hkn Hszb Hnl Hbl; cbn [map inspect_items].
  - change (bytes_of []) with 0. change (len (@nil (list pfield))) with 0. by rewrite !Z.add_0_r.
  - cbn [map] in Hok. apply Forall_cons in Hok as [Hit Hok]. cbn [map] in Hbl. rewrite bytes_of_cons in *. rewrite len_cons in *.
    pose proof (len_nonneg recs). pose proof (len_nonneg (frame (env (rec_item r)))) as Hp. fold (item_bytes (rec_item r)) in Hp.
    pose proof (len_nonneg (frames (map env (map rec_item recs)))) as Hq. fold (bytes_of (map rec_item recs)) in Hq.
    destruct (inspect_tag 2 (encode_fields r) Hit) as (c & Hc & Ht). unfold inspect_item at 1, at_store at 1. fold (rec_item r) in Hc.
    rewrite Hc. cbn [mbind outcome_bind]. rewrite Ht. cbn [Z.eqb Pos.eqb r_Stores r_Extensions r_TotalItems r_DecompressedBytes r_UnknownItemTags].
    rewrite on_last_snoc. unfold count_item. cbn [si_Name si_Items si_Bytes]. rewrite (item_size _ Hit), !u64_small by lia.
    cbn [mbind outcome_bind]. fold (at_store (mkSI name (k + 1) (sz + item_bytes (rec_item r))) (n + 1) (b + item_bytes (rec_item r))).
    rewrite IH by (done || lia). f_equal. f_equal; [f_equal|..]; lia.
Qed.

Lemma inspect_payloads ps : forall name f k sz n b, Forall env_ok (map payload_item ps) ->
  0 <= k -> 0 <= sz -> 0 <= n -> 0 <= b -> k <= n -> sz <= b ->
  n + len ps < 2 ^ 64 -> b + bytes_of (map payload_item ps) < 2 ^ 64 ->
  inspect_items (map payload_item ps) (at_ext (mkEI name f k sz) n b) =
  Ret (at_ext (mkEI name f (k + len ps) (sz + bytes_of (map payload_item ps))) (n + len ps) (b + bytes_of (map payload_item ps))).
Proof using.
  induction ps as [|r ps IH]; intros name f k sz n b Hok Hk Hsz Hn Hb Hkn Hszb Hnl Hbl; cbn [map inspect_items].
  - change (bytes_of []) with 0. change (len (@nil bytes)) with 0. by rewrite !Z.add_0_r.
  - cbn [map] in Hok. apply Forall_cons in Hok as [Hit Hok]. cbn [map] in Hbl. rewrite bytes_of_cons in *. rewrite len_cons in *.
    pose proof (len_nonneg ps). pose proof (len_nonneg (frame (env (payload_item r)))) as Hp. fold (item_bytes (payload_item r)) in Hp.
    pose proof (len_nonneg (frames (map env (map payload_item ps)))) as Hq. fold (bytes_of (map payload_item ps)) in Hq.
    destruct (inspect_tag 4 (encBytesField 1 r) Hit) as (c & Hc & Ht). unfold inspect_item at 1, at_ext at 1. fold (payload_item r) in Hc.
    rewrite Hc. cbn [mbind outcome_bind]. rewrite Ht. cbn [Z.eqb Pos.eqb r_Stores r_Extensions r_TotalItems r_DecompressedBytes r_UnknownItemTags].
    rewrite on_last_snoc. unfold count_payload. cbn [ei_Name ei_Format ei_Payloads ei_Bytes]. rewrite (item_size _ Hit), !u64_small by lia.
    cbn [mbind outcome_bind]. fold (at_ext (mkEI name f (k + 1) (sz + item_bytes (payload_item r))) (n + 1) (b + item_bytes (payload_item r))).
    rewrite IH by (done || lia). f_equal. f_equal; [f_equal|..]; lia.
Qed.
End Counts.

Definition store_info (s : bytes * list (list pfield)) : StoreInfo :=
  mkSI s.1 (len s.2) (bytes_of (map rec_item s.2)).
Definition ext_info (x : ext) : ExtensionInfo :=
  mkEI (ext_name x) x.1.2 (len x.2) (bytes_of (map payload_item x.2)).

(** The first item of a store or an extension opens its entry. *)
Lemma inspect_store_item name ss es n b cur : env_ok (1, encStringField 1 name) -> len name < 2 ^ 62 ->
  0 <= n < 2 ^ 64 - 1 -> 0 <= b -> b + item_bytes (1, encStringField 1 name) < 2 ^ 64 ->
  inspect_item (mkRes ss es n b ∅, cur) (env (1, encStringField 1 name)) =
  Ret (at_store ss es (mkSI name 0 0) (n + 1) (b + item_bytes (1, encStringField 1 name))).
Proof.
  intros Hok Hl Hn Hb Hs. pose proof (len_nonneg (frame (env (1, encStringField 1 name)))) as Hp. fold (item_bytes (1, encStringField 1 name)) in Hp.
  destruct (inspect_tag _ _ Hok) as (c & Hc & Ht). destruct (inner_of_env _ _ Hok) as (rest & Hr & Hi).
  unfold inspect_item. rewrite Hc. cbn [mbind outcome_bind]. rewrite Ht. cbn [Z.eqb Pos.eqb].
  rewrite Hr. cbn [mbind outcome_bind]. unfold storeNameOf. rewrite Hi. cbn [mbind outcome_bind].
  rewrite parseStoreName_enc by done. cbn [mbind outcome_bind r_Stores r_Extensions r_TotalItems r_DecompressedBytes r_UnknownItemTags].
  by rewrite (item_size _ Hok), !u64_small by lia.
Qed.

Lemma inspect_meta_item name f ss es n b cur : env_ok (3, meta_body name f) -> len name < 2 ^ 61 -> 0 <= f < 2 ^ 32 ->
  0 <= n < 2 ^ 64 - 1 -> 0 <= b -> b + item_bytes (3, meta_body name f) < 2 ^ 64 ->
  inspect_item (mkRes ss es n b ∅, cur) (env (3, meta_body name f)) =
  Ret (at_ext ss es (mkEI name f 0 0) (n + 1) (b + item_bytes (3, meta_body name f))).
Proof.
  intros Hok Hl Hf Hn Hb Hs. pose proof (len_nonneg (frame (env (3, meta_body name f)))) as Hp. fold (item_bytes (3, meta_body name f)) in Hp.
  destruct (inspect_tag _ _ Hok) as (c & Hc & Ht). destruct (inner_of_env _ _ Hok) as (rest & Hr & Hi).
  unfold inspect_item. rewrite Hc. cbn [mbind outcome_bind]. rewrite Ht. cbn [Z.eqb Pos.eqb].
  rewrite Hr. cbn [mbind outcome_bind]. unfold extMetaOf. rewrite Hi. cbn [mbind outcome_bind].
  rewrite parseExtMeta_enc by done. cbn [mbind outcome_bind r_Stores r_Extensions r_TotalItems r_DecompressedBytes r_UnknownItemTags].
  by rewrite (item_size _ Hok), !u64_small by lia.
Qed.

(** Every item has at least a byte. *)
Lemma items_bytes l : 0 <= len l <= bytes_of l.
Proof.
  induction l as [|it l IH]; [by vm_compute|]. rewrite bytes_of_cons, len_cons. unfold item_bytes.
  pose proof (frame_pos (env it)). unfold len at 3. lia.
Qed.

Lemma inspect_stores S : forall ss es n b cur, Forall store_ok S -> 0 <= n -> n <= b ->
  b + bytes_of (stores_items S) < 2 ^ 64 ->
  exists cur', inspect_items (stores_items S) (mkRes ss es n b ∅, cur) =
    Ret (mkRes (ss ++ map store_info S) es (n + len (stores_items S)) (b + bytes_of (stores_items S)) ∅, cur').
Proof.
  induction S as [|[name recs] S IH]; intros ss es n b cur Hok Hn Hnb Hb.
  - exists cur. cbn. change (bytes_of []) with 0. change (len (@nil (Z * bytes))) with 0. by rewrite app_nil_r, !Z.add_0_r.
  - apply Forall_cons in Hok as [Hs Hok]. destruct Hs as (_ & Hl & _ & He). cbn [fst] in Hl.
    unfold stores_items in *. cbn [mbind list_bind] in *. fold (stores_items S) in *. unfold store_items in *. cbn [fst snd] in *.
    apply Forall_cons in He as [Hit Hrecs]. rewrite inspect_items_app. cbn [app] in *. rewrite bytes_of_cons in *.
    rewrite len_cons, len_app, bytes_of_app in *. set (it := (1, encStringField 1 name)) in *.
    pose proof (items_bytes (map rec_item recs)). pose proof (items_bytes (stores_items S)).
    assert (Hp : 1 <= item_bytes it) by (unfold item_bytes; pose proof (frame_pos (env it)); unfold len; lia).
    rewrite len_map in *. cbn [inspect_items].
    assert (E0 : inspect_item (mkRes ss es n b ∅, cur) (env it) = Ret (at_store ss es (mkSI name 0 0) (n + 1) (b + item_bytes it))).
    { apply inspect_store_item; fold it; done || lia. }
    rewrite E0. cbn [mbind outcome_bind]. rewrite inspect_records by (done || lia). cbn [mbind outcome_bind]. unfold at_store.
    destruct (IH (ss ++ [mkSI name (0 + len recs) (0 + bytes_of (map rec_item recs))]) es (n + 1 + len recs)
      (b + item_bytes it + bytes_of (map rec_item recs)) CurStore Hok) as [cur' ->]; [lia..|].
    exists cur'. cbn [map]. unfold store_info at 2. cbn [fst snd]. rewrite <- app_assoc. cbn [app]. rewrite !Z.add_0_l.
    f_equal. f_equal. f_equal; lia.
Qed.

Lemma inspect_exts X : forall ss es n b cur, Forall ext_ok X -> Forall env_ok (exts_items X) -> 0 <= n -> n <= b ->
  b + bytes_of (exts_items X) < 2 ^ 64 ->
  exists cur', inspect_items (exts_items X) (mkRes ss es n b ∅, cur) =
    Ret (mkRes ss (es ++ map ext_info X) (n + len (exts_items X)) (b + bytes_of (exts_items X)) ∅, cur').
Proof.
  induction X as [|[[name f] ps] X IH]; intros ss es n b cur Hok He Hn Hnb Hb.
  - exists cur. cbn. change (bytes_of []) with 0. change (len (@nil (Z * bytes))) with 0. by rewrite app_nil_r, !Z.add_0_r.
  - apply Forall_cons in Hok as [Hx Hok]. destruct Hx as (_ & Hl & Hf & _). unfold ext_name in Hl. cbn [fst snd] in Hl, Hf.
    unfold exts_items in *. cbn [mbind list_bind] in *. fold (exts_items X) in *. unfold ext_items, ext_name in *. cbn [fst snd] in *.
    cbn [app] in He. apply Forall_cons in He as [Hit He]. apply Forall_app in He as [Hps He].
    rewrite inspect_items_app. cbn [app] in *. rewrite bytes_of_cons in *.
    rewrite len_cons, len_app, bytes_of_app in *. set (it := (3, meta_body name f)) in *.
    pose proof (items_bytes (map payload_item ps)). pose proof (items_bytes (exts_items X)).
    assert (Hp : 1 <= item_bytes it) by (unfold item_bytes; pose proof (frame_pos (env it)); unfold len; lia).
    rewrite len_map in *. cbn [inspect_items].
    assert (E0 : inspect_item (mkRes ss es n b ∅, cur) (env it) = Ret (at_ext ss es (mkEI name f 0 0) (n + 1) (b + item_bytes it))).
    { apply inspect_meta_item; fold it; done || lia. }
    rewrite E0. cbn [mbind outcome_bind]. rewrite inspect_payloads by (done || lia). cbn [mbind outcome_bind]. unfold at_ext.
    destruct (IH ss (es ++ [mkEI name f (0 + len ps) (0 + bytes_of (map payload_item ps))]) (n + 1 + len ps)
      (b + item_bytes it + bytes_of (map payload_item ps)) CurExt Hok He) as [cur' ->]; [lia..|].
    exists cur'. cbn [map]. unfold ext_info at 2, ext_name. cbn [fst snd]. rewrite <- app_assoc. cbn [app]. rewrite !Z.add_0_l.
    f_equal. f_equal. f_equal; lia.
Qed.

(** ** Properties *)

(** What there is to say about a snapshot. *)
Definition summary (s : snapshot) : Result :=
  mkRes (map store_info (sn_stores s)) (map ext_info (sn_exts s)) (len (snap_items s)) (len (stream s)) ∅.

(** Inspection is exact: for a directory with the chunks of a snapshot, whatever
    their size, it gives each store with the number and the bytes of its items, each
    extension with its format and those of its payloads, and the totals. *)
Theorem inspect_exact `{Zlib} d size s : readable s -> 1 <= size ->
  holds_chunks d (cut size (concat (deflate (stream s)))) -> concat (deflate (stream s)) <> [] ->
  len (cut size (concat (deflate (stream s)))) < 2 ^ 32 -> len (stream s) < 2 ^ 64 ->
  Inspect d = Ret (summary s).
Proof.
  intros Hs Hsize Hd Hne Hn Hlen. unfold Inspect. pose proof (pieces_read d size (stream s) Hsize Hd Hne Hn) as Hp.
  unfold newSnapItemReader, listChunkPaths in Hp. case_bool_decide; [done|]. cbn [mbind outcome_bind] in Hp.
  destruct (open_files d _) as [fs| | |] eqn:Ef; [|done..]. cbn [mbind outcome_bind] in *. rewrite Hp. cbn [wrap_out mbind outcome_bind].
  destruct (exts_readable s Hs) as [He Hx]. destruct Hs as (HS & _ & _).
  assert (Hb : bytes_of (stores_items (sn_stores s)) + bytes_of (exts_items (sn_exts s)) = len (stream s)).
  { rewrite <- bytes_of_app. done. }
  pose proof (items_bytes (stores_items (sn_stores s))). pose proof (items_bytes (exts_items (sn_exts s))).
  destruct (inspect_stores (sn_stores s) [] [] 0 0 NoCur HS) as [c1 E1]; [lia..|].
  destruct (inspect_exts (sn_exts s) (map store_info (sn_stores s)) [] (len (stores_items (sn_stores s)))
    (bytes_of (stores_items (sn_stores s))) c1 Hx He) as [c2 E2]; [lia..|].
  assert (Ho : Forall env_ok (snap_items s)).
  { unfold snap_items. apply Forall_app. split; [|done]. unfold stores_items. apply Forall_bind.
    eapply Forall_impl; [exact HS|]. intros x Hx'. apply Hx'. }
  assert (E : inspect_items (snap_items s) (no_result, NoCur) = Ret (summary s, c2)).
  { unfold snap_items. rewrite inspect_items_app. unfold no_result. rewrite E1. cbn [mbind outcome_bind app].
    rewrite !Z.add_0_l, E2. cbn [app]. unfold summary, snap_items. by rewrite len_app, Hb. }
  cbn [src_data]. pose proof (length_frames (map env (snap_items s))) as Hl. rewrite length_map in Hl.
  apply Nat.lt_succ_r in Hl. unfold stream. by rewrite (inspect_loop_items _ _ _ _ Ho Hl E).
Qed.

(** The bounds check of the parsers compares the declared length as an int: from
    2^63 on it is negative, the check passes, and slicing panics. *)
Lemma forged_length_panics :
  inspect_item (no_result, NoCur) (Byte.x0a :: PutUvarint (2 ^ 63) ++ [Byte.x0a]) = Panic "slice bounds out of range".
Proof. vm_compute. reflexivity. Qed.
